(* ===== verification/_CoqProject ===== *)
-Q . S2P
Prelude.v
Ordered.v
Rstr.v
Scoring.v
Segment.v
RuleMatch.v
Rules.v
ProcessChain.v
ChainSession.v
Budget.v
ModifierLink.v
Json.v
Matcher.v
Delivery.v
Journal.v
Outbox.v
OutboxInv.v
OutboxPrune.v
OutboxPruneSafe.v
Dispatch.v
DispatchInv.v
DispatchLive.v
OutboxSystem.v
OutboxCapacity.v
OutboxAdmission.v
JournalNames.v
JournalDir.v
Jsonl.v
JsonlEmit.v
Deliver.v
DeliverStores.v
Unicode.v
Regex.v
RegexRef.v
RedactPatterns.v
Redaction.v
RedactionRun.v
RedactionSafe.v
EventIdentifiers.v
EventEmit.v
EventPrivacy.v
EventHistory.v
EventBuild.v
EventBuildSafe.v
Allowlist.v
Correlation.v
SessionSummary.v
Baseline.v
ScanState.v
SinkEpisodes.v
ScanSteps.v
StateValue.v
StateFile.v
BudgetRuns.v
RuleSession.v
RuleSessionSpec.v
RuleSessionRun.v
