(* ===== verification/Prelude.v ===== *)
(** * Telltale: a verification development

    Telltale reads the session stores of coding agents, turns them into canonical
    observations, matches rules against them, scores what matched and writes
    redacted events.  This development models the part that decides (the rules, the
    matchers, the process-chain analysis, the work budget and the risk accounting), the
    part that makes events (redaction, identifiers, the constructors, suppression,
    correlation, summaries and baselines), the state a scanner keeps from one scan to the
    next, and the part that delivers (the journal, the durable outbox and the sinks).  Paths below are under src/.

    ** The parts and how they meet

    A scan groups a source's observations into sessions ([Budget.group_sessions]).
    Each observation is matched two ways: by rule content, regular expressions over
    text fields ([RuleMatch], over shell segments from [Segment]), and by typed
    matchers over facts ([Matcher], comparing values with [Json]).  Rule documents are
    merged, completed with defaults, overridden and compiled in [Rules], which also
    turns the rules that matched into triggered modifiers and contributions.  A
    modifier may ask that its matches be linked within a window of tool calls;
    [ModifierLink] decides it.  [RuleSession] puts these together for one session: the verdict
    of each rule on each observation, its aggregate with sanitized evidence, and what the
    matched rules and linked modifiers contribute.  Process pairs are evaluated by the pack of
    [ProcessChain] and then, across a session, by [ChainSession].  Contributions from
    everywhere are validated, merged and summed in [Scoring].  Nearly every step
    charges the source's budget ([Budget]) before it does its work.

    Findings become events: a constructor of [EventBuild] validates its input and sums
    its contributions; [Allowlist] marks the detections that are suppressed;
    [SessionSummary] gathers the events of each session; [Correlation] compares
    sessions, and [Baseline] a session with the past.  An event is written through the
    terminal policy of [EventEmit], which replaces identifiers ([EventIdentifiers]) and
    sanitizes texts ([Redaction], with the patterns of [RedactPatterns] over [Regex]);
    events read back are derived through the historical policy.

    The scanner's state ([ScanState]) decides which events are new: a scan marks what it
    emits, keeps the cursors of databases, adds up what each source contributed to the
    baselines, and latches its health alerts.  An alert about a failing sink belongs to an
    episode of that sink ([SinkEpisodes]).  [ScanSteps] is the transition system of the
    state; [StateValue] and [StateFile] are the file it is kept in.

    Events leave through a set of sinks ([Deliver]).  With durable replay a batch is
    first admitted: the journal, a JSONL file with its rotated generations
    ([JournalNames], [JournalDir]), is read up to its end into the outbox ([Journal],
    [Outbox]); due deliveries are sent ([Dispatch]); the queue's capacity is checked
    against the batch ([OutboxCapacity]); the batch is appended by the local sink
    ([Jsonl]), which may rotate the journal; the journal is read again; and rotated
    generations that the outbox holds completely are pruned ([OutboxPrune]).  A delivery
    is then retried on a schedule until it is acknowledged, blocked or dead
    ([Delivery]).

    ** Files

    - [Prelude]: [Result] with its [?] operator, state-and-error computations,
      machine integers.  A [&mut] budget or charging closure is a state [S] of
      [Eff S E A], kept also when the computation fails.
    - [Ordered]: Rust's [Ord], the stable sorts, [BTreeSet] and [BTreeMap] as sorted
      lists, grouping by key.
    - [Rstr]: [str] as its UTF-8 bytes.
    - [Scoring]: crates/telltale-schema/src/scoring.rs.  [normalize_risk_rationale],
      [RiskContribution::new] and [validate], [canonicalize_contributions],
      [checked_risk_sum], [assess_risk], the process-wide thresholds as a one-shot cell.
    - [Segment]: crates/telltale-rules/src/segment.rs.
    - [RuleMatch], [Rules]: crates/telltale-rules/src/lib.rs, matching and rule sets.
    - [ProcessChain]: crates/telltale-rules/src/process_chain.rs.
    - [ChainSession]: crates/telltale-detect/src/process_chain_session.rs.
    - [Budget]: [SourceScale] of crates/telltale-schema/src/observation/mod.rs, and the
      bounds, [RetentionBudget] and [group_sessions] of
      crates/telltale-detect/src/v2/session.rs.  [metered] and [settles] are the
      specification of a charged computation: what it returns given enough work.
    - [ModifierLink]: crates/telltale-detect/src/v2/modifier_link.rs.
    - [BudgetRuns]: computations with one outcome that a budget allows or exhausts;
      [RuleSession]: crates/telltale-detect/src/v2/rule_v1.rs from
      [evaluate_rule_v1_session_with_budget] to [evaluate_content_matcher], and [try_evaluate]
      of v2/observation_match.rs; [RuleSessionSpec], [RuleSessionRun]: what it computes for
      a detector and for a session.
    - [Json]: [JsonValue] of crates/telltale-schema/src/observation/value.rs and the
      comparisons of crates/telltale-detect/src/v2/matcher.rs.
    - [Matcher]: crates/telltale-detect/src/v2/matcher.rs, with the identifiers of
      crates/telltale-detect/src/v2/selector.rs.
    - [Delivery]: errors, delivery states, retry times and the validation of a stored
      record, of src/sink/mod.rs, src/sink/outbox.rs and src/sink/outbox/storage.rs.
    - [Journal]: src/sink/outbox.rs, parsing of a generation, the ingest cursor, the
      reconciliation plan and the serialized batch.
    - [Outbox]: src/sink/outbox.rs and storage.rs, the tables as finite maps and the
      operations on them, each a transaction; [OutboxInv] their invariants and how
      tables evolve.
    - [OutboxPrune], [OutboxPruneSafe]: the two-phase deletion of rotated generations.
    - [Dispatch], [DispatchInv], [DispatchLive]: [dispatch_durable_with_outbox] of
      src/sink/mod.rs, its state machine, and its progress.
    - [OutboxSystem]: the outbox and its journal as a transition system of reconciling,
      dispatching, releasing, pruning and changes of the journal.
    - [OutboxCapacity], [OutboxAdmission]: the capacity check of src/sink/outbox.rs and
      the bound it keeps.
    - [JournalNames], [JournalDir]: crates/telltale-sources/src/journal.rs, and the
      names and dates of src/sink/jsonl.rs.
    - [Jsonl], [JsonlEmit]: src/sink/jsonl.rs with what it calls of src/file_lock.rs,
      over a directory.
    - [Deliver], [DeliverStores]: [SinkSet] of src/sink/mod.rs.

    - [Unicode]: [str] as its characters, with their UTF-8 encoding; [Regex], [RegexRef]:
      the syntax of regular expressions, their language, the interface of an engine and
      a reference engine.
    - [RedactPatterns], [Redaction], [RedactionRun], [RedactionSafe]:
      crates/telltale-schema/src/event/redaction.rs, the patterns, the sanitizer, what it
      computes, and what it leaves.
    - [EventIdentifiers], [EventEmit], [EventPrivacy], [EventHistory]: event/identifier.rs
      and event/mod.rs of the same crate, the identifiers, the terminal policies and
      serialization, and what is written or kept.
    - [EventBuild], [EventBuildSafe]: the builder, the validation and the constructors of
      event/mod.rs, event/time.rs and event/inventory.rs; [BuildSample] has concrete
      services for the examples of the files after it.
    - [Allowlist]: crates/telltale-detect/src/allowlist.rs and the marking loop of
      src/cli/scan.rs.
    - [Correlation]: crates/telltale-detect/src/correlation.rs.
    - [SessionSummary]: [summarize_session_risk_events] of src/cli/scan.rs.
    - [Baseline]: crates/telltale-detect/src/baseline.rs and baseline/accounting.rs.
    - [ScanState]: the operations of src/state.rs, and of src/cli/scan.rs the selection of
      events and the health alerts of a scan; [ScanSteps] what holds of every state.
    - [SinkEpisodes]: the alerts about failing sinks of src/cli/scan.rs.
    - [StateValue], [StateFile]: src/state.rs, the value of a state as it is written and
      read, and the checks of the file, for a scan and for a migration.

    Functions keep the source's names.  A loop is a [Fixpoint] or a fold over the
    definition of its body; where the source updates locals, they are a record.

    ** What the theorems show

    - Risk: canonical contributions are the sorted, distinct, valid inputs, their sum
      is exact or an overflow error, input order does not matter; rationales are
      single-line, bounded and stable under normalization; severity is monotone.
    - Segments: the ranges tile the text up to blanks and separators, split exactly
      at unquoted separators, and fall on character boundaries.
    - Rules: merging keeps every rule once with its document's defaults; compilation
      accepts exactly valid content; a match counts when the pattern is found and the
      exclusion is not in the same scope; evaluation names exactly the rules and
      modifiers whose conditions hold; charges are what the scans cost; a compiled set
      and its export hold what the settings and the policy select, each with its matchers.
    - Process chains: packs compile to unique ids and bands; evaluation equals its
      declarative specification, reports every hit with its exact risk, in order;
      sessions suppress exactly the repeats in the window, and report in-order,
      in-window sequences under the risk cap.
    - Redaction: no sanitized text holds a marker of high confidence, and none is longer
      than its surface allows; the fallible sanitizer computes the same text or reports
      an exhausted budget; nested URLs end.
    - Events: a serialized event holds no marker in its texts, and no token in its
      rationales; the historical policy keeps the identifiers the native one wrote, those
      of rules apart; an event a constructor returns at a datable time can be serialized
      exactly when it is not a detection tagged as suppressed, and its score, severity
      and contributions agree, correlations apart; a suppressed detection is still
      written with its evidence; no source count is lost.
    - Suppression, correlation, summaries, baselines: an allowlist suppresses what its
      entries match and its provenance identifies it; correlation reports exactly the
      longest window of each actor and rule that has one, and fails on a session that
      repeats with a higher score; summaries count each contribution once and fail for
      two reasons only; a merged baseline adds up and no longer deviates.
    - State: a finding is reported when its key is new and never again; health alerts
      follow the edges of their conditions, and alerts about sinks their episodes; every
      reachable state is well-formed, with its hosts hashed and its checkpoints monotone;
      rebuilt baselines are the sums of the contributions; a saved state reads back, and
      an accepted file is safe whatever it holds.
    - Budget: over any sequence of operations counts stay bounded, work is never
      refunded and exhaustion is permanent; bounds scale with source size between 1
      and 64 times the floor; grouping is a partition in session order.
    - Links: the search is sound and complete in both orders, within a stated amount
      of work; positions and steps are what their documentation says.
    - Sessions: the evaluation of a session has one outcome, which a budget only allows or
      exhausts, and the outcome is what its rules and links say; a modifier that declares
      a link is triggered exactly when some matched observation completes its steps.
    - Matcher: compilation accepts exactly specifications within the limits;
      evaluation is sound for every way of settling undecided predicates; predicates
      decide only eligible facts; the numeric order is exact across i64, u64 and f64.
    - Journal: reading in two reconciliations with appends and rotations between them
      reads what one would; a batch parses back as it was written; names, dates and
      order of rotated files agree, and discovery finds them in that order; an emission
      loses no generation and appends to the last, whatever fails, and keeps their order
      where the rotated names of the day are dense.
    - Outbox: in every reachable state the tables are well-formed and readable; nothing
      stored is lost or changed, settled deliveries stay settled; a reconciliation
      stores exactly the records it read with a delivery per sink; pruning deletes only
      what is stored; an admitted batch keeps the queue within its limits.
    - Delivery: a dispatch implements the delivery state machine, one rule per outcome
      with the class it stores, sends each delivery at most once, uses up attempts
      whenever a delivery is due and changes nothing otherwise, and dispatches spaced by
      the retry delay settle every
      delivery; an admitted batch is in the journal and in the outbox; the first write
      comes before any other sink; alerts reach each sink at most once.

    ** Interfaces, bounds and fuel

    Code outside the repository is an interface, with laws where the code relies on
    them: [RegexEngine] and [RegexLaws], [RegexEscape], [Rfc3339], [FloatText], the
    YAML parsers and the evidence hash, each with an instance in the witnesses.  [Scoring.Privacy] is what risk accounting uses of redaction; [sanitizer_privacy]
    is its implementation by [Redaction].  [Facts] with [FactsLaws] stands between the
    matcher and the selector registry, which is not modelled; [SessionFacts] with
    [SessionLaws] adds what the evaluation of a session asks of an observation and of
    actions.rs: the text of a tool result, and whether what is downloaded runs.  Redaction and events
    use [Regexes] (the regular-expression crate; its laws are the meaning of a search),
    [EventServices] (SHA-256, RFC 3339 and UUIDs), [EventTimes], [NewUuid],
    [Correlation.Rfc3339] and [RecordCounts]; the state uses [StateServices] (SHA-256, with the
    shape of its digests and distinct digests for the latches as its laws).  The outbox uses [Digest] (SHA-256), [JsonCodec]
    (serde_json), [EventSerializer] (serialization of an event for emission),
    [Diagnostics] (the sanitizer of messages) and [PathResolver].  Faults of the
    operating system and of SQLite are [Io], a function from a call and its subject to
    an error, and [Os], which also has the clock, the identities of new files and how
    much of a failed write is left; theorems hold for all of them unless they say
    [no_faults].  Transports and their time shares are functions.
    [usize] is 64 bits.  Fuel: in [Segment] the length of the text is enough for its
    loops, as the tiling theorem shows; 20 decimal digits in [Json] and [JournalNames]
    hold a u64; parsing a generation has one step per byte and one more, the capacity
    scan one chunk per byte, and the search for a free rotated name one try per entry of
    the directory, enough by the success theorem of [JsonlEmit]; nested URLs have
    one level more than the depth of the source, enough by [nested_urls_bounded]; the
    search for a free suffix of a source count has a try per key, enough by
    [source_counts_kept]; the start of a correlation window moves at most once per
    candidate.  Charges and times are integers; instants and durations are nanoseconds.

    ** Not modelled

    Acquisition and the per-client formats, the network transports, the sink
    configuration, the opening and migration of the SQLite file, the command line and
    the console are input and output.  All canonical files of a sink set are in one
    directory.  Other processes change the journal only between operations, which the
    locks of src/file_lock.rs are for.  The bytes of the state file are the JSON library's,
    and replacing it, its migration between files and the protocol of the locks are the
    file system's.  Also not modelled: evaluate_source around the evaluation of a session, the
    compilation of rules to detectors, selector resolution and the canonical observation, the
    timeline, action findings, the import of events (consumer.rs) and the excerpts of
    redaction. *)

From Stdlib Require Export Sorting.Permutation Sorting.Sorted.
From Stdlib Require Import Ascii.
From Stdlib Require String.
From stdpp Require Export base list strings numbers option sets.

Declare Scope rust_scope.
Delimit Scope rust_scope with rust.
Open Scope rust_scope.

(** ** Results

    [Result<A, E>].  The [let?] notation is the source's [?] operator. *)

Inductive result (A E : Type) : Type :=
| Ok (a : A)
| Err (e : E).
Arguments Ok {_ _} _.
Arguments Err {_ _} _.

Notation "'let?' x := c 'in' k" :=
  (match c with Ok x => k | Err err => Err err end)
  (at level 10, x pattern, c at level 200, k at level 200,
   format "'[v' 'let?'  x  :=  c  'in' '/' k ']'") : rust_scope.

Notation "'check?' c 'in' k" :=
  (match c with Ok _ => k | Err err => Err err end)
  (at level 10, c at level 200, k at level 200,
   format "'[v' 'check?'  c  'in' '/' k ']'") : rust_scope.

Definition is_ok {A E} (r : result A E) : bool :=
  match r with Ok _ => true | Err _ => false end.

Definition is_some {A} (o : option A) : bool := match o with Some _ => true | None => false end.

Definition ok_or {A E} (o : option A) (e : E) : result A E :=
  match o with Some a => Ok a | None => Err e end.

Definition map_err {A E F} (f : E → F) (r : result A E) : result A F :=
  match r with Ok a => Ok a | Err e => Err (f e) end.

Definition result_map {A B E} (f : A → B) (r : result A E) : result B E :=
  match r with Ok a => Ok (f a) | Err e => Err e end.

(** [iter().map(f).collect::<Result<Vec<_>, _>>()]: the first error wins. *)
Fixpoint collect {A B E} (f : A → result B E) (l : list A) : result (list B) E :=
  match l with
  | [] => Ok []
  | a :: l' =>
      let? b := f a in
      let? bs := collect f l' in
      Ok (b :: bs)
  end.

(** [iter().try_fold(init, f)]. *)
Fixpoint try_fold {A B E} (f : B → A → result B E) (acc : B) (l : list A)
    : result B E :=
  match l with
  | [] => Ok acc
  | a :: l' =>
      let? acc' := f acc a in
      try_fold f acc' l'
  end.

Lemma collect_Ok {A B E} (f : A → result B E) l bs :
  collect f l = Ok bs ↔ Forall2 (λ a b, f a = Ok b) l bs.
Proof.
  revert bs; induction l as [|a l IH]; intros bs; simpl.
  - split; [intros [= <-]; constructor | by inversion 1].
  - split.
    + destruct (f a) eqn:Ha; [|done]. destruct (collect f l) eqn:Hl; [|done].
      intros [= <-]. constructor; [done|]. by apply IH.
    + inversion 1 as [|? b ? bs' Hb Hbs]; subst. rewrite Hb.
      apply IH in Hbs. by rewrite Hbs.
Qed.

Lemma try_fold_app {A B E} (f : B → A → result B E) acc l1 l2 :
  try_fold f acc (l1 ++ l2) =
  (let? acc' := try_fold f acc l1 in try_fold f acc' l2).
Proof.
  revert acc; induction l1 as [|a l1 IH]; intros acc; simpl; [done|].
  destruct (f acc a); [apply IH | done].
Qed.

(** An invariant of the accumulator survives a successful [try_fold]. *)
Lemma try_fold_inv {A B E} (P : B → Prop) (f : B → A → result B E) acc l acc' :
  (∀ b a b', P b → f b a = Ok b' → P b') →
  P acc → try_fold f acc l = Ok acc' → P acc'.
Proof.
  intros Hf; revert acc; induction l as [|a l IH]; intros acc Hacc; simpl.
  - by intros [= <-].
  - destruct (f acc a) eqn:Ha; [|done]. eauto.
Qed.

(** ** Stateful, fallible computations

    A Rust closure [charge: &mut impl FnMut(usize) -> Result<(), E>] or a
    [&mut RetentionBudget] argument is a state of type [S]; the state is kept
    also when the computation fails, as it is in the source. *)

Definition Eff (S E A : Type) : Type := S → S * result A E.

Definition eret {S E A} (a : A) : Eff S E A := λ s, (s, Ok a).
Definition efail {S E A} (e : E) : Eff S E A := λ s, (s, Err e).
Definition ebind {S E A B} (c : Eff S E A) (k : A → Eff S E B) : Eff S E B :=
  λ s, match c s with
       | (s', Ok a) => k a s'
       | (s', Err e) => (s', Err e)
       end.

Notation "'let!' x := c 'in' k" :=
  (ebind c (fun x => k))
  (at level 10, x name, c at level 200, k at level 200,
   format "'[v' 'let!'  x  :=  c  'in' '/' k ']'") : rust_scope.
Notation "'let!' ' x := c 'in' k" :=
  (ebind c (fun z => match z with x => k end))
  (at level 10, x pattern, c at level 200, k at level 200) : rust_scope.
Notation "'do!' c 'in' k" :=
  (ebind c (fun _ => k))
  (at level 10, c at level 200, k at level 200,
   format "'[v' 'do!'  c  'in' '/' k ']'") : rust_scope.

Definition elift {S E A} (r : result A E) : Eff S E A :=
  match r with Ok a => eret a | Err e => efail e end.

Definition emap_err {S E F A} (f : E → F) (c : Eff S E A) : Eff S F A :=
  λ s, match c s with (s', Ok a) => (s', Ok a) | (s', Err e) => (s', Err (f e)) end.

(** [for a in l { body }] threading an accumulator. *)
Fixpoint efold {S E A B} (f : B → A → Eff S E B) (acc : B) (l : list A) : Eff S E B :=
  match l with
  | [] => eret acc
  | a :: l' => let! acc' := f acc a in efold f acc' l'
  end.

Fixpoint ecollect {S E A B} (f : A → Eff S E B) (l : list A) : Eff S E (list B) :=
  match l with
  | [] => eret []
  | a :: l' =>
      let! b := f a in
      let! bs := ecollect f l' in
      eret (b :: bs)
  end.

(** [yields c P]: whenever [c] succeeds, its value satisfies [P].  It is the
    partial-correctness half of a charged computation; totality is stated
    against a charge that never fails. *)
Definition yields {S E A} (c : Eff S E A) (P : A → Prop) : Prop :=
  ∀ s s' a, c s = (s', Ok a) → P a.

(** [succeeds c P]: from every state, [c] succeeds with a value in [P]. *)
Definition succeeds {S E A} (c : Eff S E A) (P : A → Prop) : Prop :=
  ∀ s, ∃ s' a, c s = (s', Ok a) ∧ P a.

(** [affordable left exhausted c a]: from a state with enough [left], [c] returns [a]; the
    only error of [c] is [exhausted], of a state with too little. *)
Definition affordable {S E A} (left : S → Z) (exhausted : E) (c : Eff S E A) (a : A) : Prop :=
  ∃ cost, (0 ≤ cost)%Z ∧ ∀ s, (0 ≤ left s)%Z →
    match c s with
    | (s', Ok r) => r = a ∧ (0 ≤ left s')%Z ∧ (left s - cost ≤ left s')%Z
    | (s', Err e) => e = exhausted ∧ (left s < cost)%Z
    end.

Lemma affordable_ret {S E A} (left : S → Z) (exhausted : E) (a : A) : affordable left exhausted (eret a) a.
Proof. exists 0%Z. split; [done|]. intros s Hs. cbn. split_and!; [done|lia|lia]. Qed.

Lemma affordable_bind {S E A B} (left : S → Z) (exhausted : E) (c : Eff S E A) (k : A → Eff S E B) a b :
  affordable left exhausted c a → affordable left exhausted (k a) b → affordable left exhausted (ebind c k) b.
Proof.
  intros (n & Hn & Hc) (m & Hm & Hk). exists (n + m)%Z. split; [lia|]. intros s Hs. unfold ebind. specialize (Hc s Hs).
  destruct (c s) as [s1 [r|e]]; [|destruct Hc; split; [done|lia]]. destruct Hc as (-> & Hs1 & Hle). specialize (Hk s1 Hs1).
  destruct (k a s1) as [s2 [r|e]]; [|destruct Hk; split; [done|lia]]. destruct Hk as (-> & ? & ?). split_and!; [done|lia|lia].
Qed.

Create HintDb telltale.

Section eff_laws.
Context {S E : Type}.

Lemma yields_ret {A} (a : A) (P : A → Prop) : P a → yields (eret a : Eff S E A) P.
Proof. by intros Ha s s' a' [= <- <-]. Qed.

Lemma yields_fail {A} (e : E) (P : A → Prop) : yields (efail e : Eff S E A) P.
Proof. by intros s s' a. Qed.

Lemma yields_bind {A B} (c : Eff S E A) (k : A → Eff S E B) (P : A → Prop) (Q : B → Prop) :
  yields c P → (∀ a, P a → yields (k a) Q) → yields (ebind c k) Q.
Proof.
  intros Hc Hk s s' b. unfold ebind. destruct (c s) as [s1 [a|e]] eqn:Hs; [|done].
  intros Hb. exact (Hk a (Hc _ _ _ Hs) _ _ _ Hb).
Qed.

Lemma yields_weaken {A} (c : Eff S E A) (P Q : A → Prop) :
  yields c P → (∀ a, P a → Q a) → yields c Q.
Proof. intros Hc HPQ s s' a Ha. eauto. Qed.

Lemma yields_true {A} (c : Eff S E A) : yields c (λ _, True).
Proof. by intros s s' a _. Qed.

Lemma yields_seq {A B} (c : Eff S E A) (k : Eff S E B) (Q : B → Prop) :
  yields k Q → yields (ebind c (λ _, k)) Q.
Proof. intros Hk. eapply yields_bind; [apply yields_true | done]. Qed.

Lemma yields_lift {A} (r : result A E) (P : A → Prop) :
  (∀ a, r = Ok a → P a) → yields (elift r : Eff S E A) P.
Proof. intros Hr. destruct r; simpl; [apply yields_ret; auto | apply yields_fail]. Qed.

Lemma yields_map_err {F A} (f : E → F) (c : Eff S E A) (P : A → Prop) :
  yields c P → yields (emap_err f c) P.
Proof.
  intros Hc s s' a. unfold emap_err. destruct (c s) as [s1 [b|e]] eqn:Hs; [|done].
  intros [= <- <-]. eauto.
Qed.

Lemma succeeds_ret {A} (a : A) (P : A → Prop) : P a → succeeds (eret a : Eff S E A) P.
Proof. intros Ha s. by exists s, a. Qed.

Lemma succeeds_bind {A B} (c : Eff S E A) (k : A → Eff S E B) (P : A → Prop) (Q : B → Prop) :
  succeeds c P → (∀ a, P a → succeeds (k a) Q) → succeeds (ebind c k) Q.
Proof.
  intros Hc Hk s. destruct (Hc s) as (s1 & a & Hs & Ha).
  destruct (Hk a Ha s1) as (s2 & b & Hs2 & Hb).
  exists s2, b. unfold ebind. by rewrite Hs.
Qed.

(** Loop rules: an invariant indexed by the prefix already consumed. *)
Lemma yields_fold {A B} (f : B → A → Eff S E B) (I : list A → B → Prop) acc l :
  I [] acc →
  (∀ pre a b, I pre b → yields (f b a) (I (pre ++ [a]))) →
  yields (efold f acc l) (I l).
Proof.
  intros H0 Hf.
  enough (∀ pre b, I pre b → yields (efold f b l) (I (pre ++ l))) as Hgen
    by exact (Hgen [] acc H0).
  clear H0 acc. induction l as [|a l IH]; intros pre b Hb; simpl.
  - apply yields_ret. by rewrite app_nil_r.
  - eapply yields_bind; [by apply Hf|]. intros b' Hb'.
    eapply yields_weaken; [by apply IH|]. intros r. by rewrite <- app_assoc.
Qed.

Lemma succeeds_fold {A B} (f : B → A → Eff S E B) (I : list A → B → Prop) acc l :
  I [] acc →
  (∀ pre a b, I pre b → succeeds (f b a) (I (pre ++ [a]))) →
  succeeds (efold f acc l) (I l).
Proof.
  intros H0 Hf.
  enough (∀ pre b, I pre b → succeeds (efold f b l) (I (pre ++ l))) as Hgen
    by exact (Hgen [] acc H0).
  clear H0 acc. induction l as [|a l IH]; intros pre b Hb; simpl.
  - apply succeeds_ret. by rewrite app_nil_r.
  - eapply succeeds_bind; [by apply Hf|]. intros b' Hb'.
    intros s. destruct (IH (pre ++ [a]) b' Hb' s) as (s' & r & Hr & HI).
    exists s', r. split; [done|]. by rewrite <- app_assoc in HI.
Qed.

Lemma yields_collect {A B} (f : A → Eff S E B) (R : A → B → Prop) l :
  (∀ a, yields (f a) (R a)) → yields (ecollect f l) (λ bs, Forall2 R l bs).
Proof.
  intros Hf; induction l as [|a l IH]; simpl; [apply yields_ret; constructor|].
  eapply yields_bind; [apply Hf|]; intros b Hb.
  eapply yields_bind; [apply IH|]; intros bs Hbs.
  apply yields_ret. by constructor.
Qed.

End eff_laws.

(** A charge that never fails, such as the [Infallible] closures of the source. *)
Definition infallible {S E} (charge : Z → Eff S E unit) : Prop :=
  ∀ n s, ∃ s', charge n s = (s', Ok tt).

Lemma succeeds_charge {S E} (charge : Z → Eff S E unit) n (P : unit → Prop) :
  infallible charge → P tt → succeeds (charge n) P.
Proof. intros Hc HP s. destruct (Hc n s) as [s' Hs]. by exists s', tt. Qed.

#[export] Hint Resolve yields_ret yields_fail succeeds_ret succeeds_charge : telltale.

(** Steps through one charged computation; value goals are left to the caller. *)
Ltac yields_step :=
  match goal with
  | |- yields (eret _) _ => apply yields_ret
  | |- yields (efail _) _ => apply yields_fail
  | |- yields (ebind _ (λ _, ?k)) _ => apply yields_seq
  | |- yields (match ?x with _ => _ end) _ => destruct x eqn:?
  end.

(** The [Infallible] charge: no state, no error. *)
Definition free_charge (n : Z) : Eff unit Empty_set unit := eret tt.

(** A charged computation returns a value, and does so whenever no charge fails. *)
Definition computes {S E A} (c : Eff S E A) (free : Prop) (a : A) : Prop :=
  yields c (eq a) ∧ (free → succeeds c (eq a)).

Section computes.
Context {S E : Type} (charge : Z → Eff S E unit).

Lemma computes_ret {A} free (a b : A) : a = b → computes (eret a : Eff S E A) free b.
Proof. intros ->. split; [|intros _]; auto with telltale. Qed.

Lemma computes_charge {A} n (k : Eff S E A) a :
  computes k (infallible charge) a → computes (do! charge n in k) (infallible charge) a.
Proof.
  intros [Hy Hs]. split; [by apply yields_seq|]. intros Hf.
  apply (succeeds_bind _ _ (λ _, True)); [by apply succeeds_charge | auto].
Qed.

Lemma computes_bind {A B} (c : Eff S E A) (k : A → Eff S E B) a b :
  computes c (infallible charge) a → computes (k a) (infallible charge) b →
  computes (ebind c k) (infallible charge) b.
Proof.
  intros [Hc Hc'] [Hk Hk']. split.
  - apply (yields_bind _ _ (eq a)); [done|]. by intros ? <-.
  - intros Hf. apply (succeeds_bind _ _ (eq a)); [by apply Hc'|]. intros ? <-. by apply Hk'.
Qed.

Lemma efold_computes {A B} (f : B → A → Eff S E B) (g : B → A → B) acc l :
  (∀ b a, computes (f b a) (infallible charge) (g b a)) →
  computes (efold f acc l) (infallible charge) (foldl g acc l).
Proof.
  intros Hf. revert acc. induction l as [|a l IH]; intros acc; simpl; [by apply computes_ret|].
  eapply computes_bind; [apply Hf | apply IH].
Qed.

End computes.

(** ** Machine integers

    [usize] is 64 bits wide on every supported target. *)

Local Open Scope Z_scope.

Definition u64_max : Z := 2 ^ 64 - 1.
Definition u32_max : Z := 2 ^ 32 - 1.
Definition i64_max : Z := 2 ^ 63 - 1.

Definition checked_add (a b : Z) : option Z :=
  if a + b <=? u64_max then Some (a + b) else None.
Definition checked_sub (a b : Z) : option Z :=
  if b <=? a then Some (a - b) else None.
Definition checked_mul (a b : Z) : option Z :=
  if a * b <=? u64_max then Some (a * b) else None.
Definition saturating_add (a b : Z) : Z := Z.min (a + b) u64_max.
Definition saturating_mul (a b : Z) : Z := Z.min (a * b) u64_max.
Definition saturating_sub (a b : Z) : Z := Z.max (a - b) 0.

Definition u64 (z : Z) : Prop := 0 ≤ z ≤ u64_max.

Lemma checked_add_Some a b c :
  checked_add a b = Some c ↔ c = a + b ∧ a + b ≤ u64_max.
Proof. unfold checked_add. case_match; naive_solver lia. Qed.

Lemma checked_add_None a b : checked_add a b = None ↔ u64_max < a + b.
Proof. unfold checked_add. case_match; naive_solver lia. Qed.

Lemma checked_mul_Some a b c :
  checked_mul a b = Some c ↔ c = a * b ∧ a * b ≤ u64_max.
Proof. unfold checked_mul. case_match; naive_solver lia. Qed.

Lemma checked_sub_Some a b c :
  checked_sub a b = Some c ↔ c = a - b ∧ b ≤ a.
Proof. unfold checked_sub. case_match; naive_solver lia. Qed.
