(* ===== verification/Ordered.v ===== *)
(** * Orders, stable sorting, and the ordered collections

    Rust's [Ord] (derived comparisons are lexicographic in declaration order),
    the stable [sort_by]/[sort_by_key] on slices, [Vec::dedup], and
    [BTreeMap]/[BTreeSet] as key-sorted lists: iteration order is key order,
    [insert] replaces the value under an equal key. *)

From S2P Require Import Prelude.
From Stdlib Require Import Ascii.
From Stdlib Require String.

(** ** Orders *)

Class Ord (A : Type) : Type := cmp : A → A → comparison.

Class OrdLaws (A : Type) `{Ord A} : Prop := {
  cmp_eq : ∀ x y : A, cmp x y = Eq ↔ x = y;
  cmp_antisym : ∀ x y : A, cmp y x = CompOpp (cmp x y);
  cmp_trans : ∀ x y z : A, cmp x y = Lt → cmp y z = Lt → cmp x z = Lt;
}.

#[export] Instance ord_nat : Ord nat := Nat.compare.
#[export] Instance ord_Z : Ord Z := Z.compare.
#[export] Instance ord_bool : Ord bool :=
  λ a b, match a, b with
         | false, true => Lt | true, false => Gt | _, _ => Eq end.
#[export] Instance ord_ascii : Ord ascii := λ a b, N.compare (N_of_ascii a) (N_of_ascii b).

(** Lexicographic composition, [Ordering::then_with]. *)
Definition then_with (c d : comparison) : comparison :=
  match c with Eq => d | _ => c end.

#[export] Instance ord_prod {A B} `{Ord A, Ord B} : Ord (A * B) :=
  λ p q, then_with (cmp p.1 q.1) (cmp p.2 q.2).
#[export] Instance ord_option {A} `{Ord A} : Ord (option A) :=
  λ a b, match a, b with
         | None, None => Eq | None, Some _ => Lt | Some _, None => Gt
         | Some x, Some y => cmp x y end.

Fixpoint cmp_list {A} `{Ord A} (l k : list A) : comparison :=
  match l, k with
  | [], [] => Eq
  | [], _ => Lt
  | _, [] => Gt
  | x :: l', y :: k' => then_with (cmp x y) (cmp_list l' k')
  end.
#[export] Instance ord_list {A} `{Ord A} : Ord (list A) := cmp_list.

(** [str] compares bytewise. *)
Fixpoint cmp_string (s t : string) : comparison :=
  match s, t with
  | String.EmptyString, String.EmptyString => Eq
  | String.EmptyString, _ => Lt
  | _, String.EmptyString => Gt
  | String.String a s', String.String b t' => then_with (cmp a b) (cmp_string s' t')
  end.
#[export] Instance ord_string : Ord string := cmp_string.

(** A derived order on a structure is the order of its fields as a tuple. *)
Definition cmp_via {A B} `{Ord B} (f : A → B) (x y : A) : comparison := cmp (f x) (f y).

Section ord_laws.

#[export] Instance laws_nat : OrdLaws nat.
Proof.
  split; unfold cmp, ord_nat; intros.
  - apply Nat.compare_eq_iff.
  - apply Nat.compare_antisym.
  - rewrite Nat.compare_lt_iff in *. lia.
Qed.

#[export] Instance laws_Z : OrdLaws Z.
Proof.
  split; unfold cmp, ord_Z; intros.
  - apply Z.compare_eq_iff.
  - apply Z.compare_antisym.
  - rewrite Z.compare_lt_iff in *. lia.
Qed.

#[export] Instance laws_bool : OrdLaws bool.
Proof. split; [intros [] [] | intros [] [] | intros [] [] []]; naive_solver. Qed.

#[export] Instance laws_ascii : OrdLaws ascii.
Proof.
  split; unfold cmp, ord_ascii; intros.
  - rewrite N.compare_eq_iff. split; [|congruence].
    intros Heq. rewrite <- (ascii_N_embedding x), <- (ascii_N_embedding y). congruence.
  - apply N.compare_antisym.
  - rewrite N.compare_lt_iff in *. lia.
Qed.

Lemma then_with_trans {A B} `{OrdLaws A} (x y z : A) (R : B → B → comparison) a b c :
  (R a b = Lt → R b c = Lt → R a c = Lt) →
  then_with (cmp x y) (R a b) = Lt → then_with (cmp y z) (R b c) = Lt →
  then_with (cmp x z) (R a c) = Lt.
Proof.
  intros HR. unfold then_with.
  destruct (cmp x y) eqn:Hxy; [| |done]; destruct (cmp y z) eqn:Hyz; try done.
  - apply cmp_eq in Hxy, Hyz as ->. rewrite Hxy, (proj2 (cmp_eq z z)); auto.
  - apply cmp_eq in Hxy as ->. by rewrite Hyz.
  - apply cmp_eq in Hyz as <-. by rewrite Hxy.
  - by rewrite (cmp_trans _ _ _ Hxy Hyz).
Qed.

Lemma then_with_antisym (c d c' d' : comparison) :
  c' = CompOpp c → d' = CompOpp d → then_with c' d' = CompOpp (then_with c d).
Proof. intros -> ->. by destruct c. Qed.

Lemma then_with_eq (c d : comparison) : then_with c d = Eq ↔ c = Eq ∧ d = Eq.
Proof. destruct c, d; naive_solver. Qed.

#[export] Instance laws_prod {A B} `{OrdLaws A, OrdLaws B} : OrdLaws (A * B).
Proof.
  split; unfold cmp, ord_prod.
  - intros [x1 x2] [y1 y2]; simpl. rewrite then_with_eq, !cmp_eq. naive_solver.
  - intros [x1 x2] [y1 y2]; simpl. apply then_with_antisym; apply cmp_antisym.
  - intros [x1 x2] [y1 y2] [z1 z2]; simpl. apply then_with_trans. apply cmp_trans.
Qed.

#[export] Instance laws_option {A} `{OrdLaws A} : OrdLaws (option A).
Proof.
  split; unfold cmp, ord_option.
  - intros [x|] [y|]; try naive_solver. rewrite cmp_eq. naive_solver.
  - intros [x|] [y|]; try done. apply cmp_antisym.
  - intros [x|] [y|] [z|]; try done. apply cmp_trans.
Qed.

#[export] Instance laws_list {A} `{OrdLaws A} : OrdLaws (list A).
Proof.
  split; unfold cmp, ord_list.
  - induction x as [|x l IH]; intros [|y k]; simpl; try naive_solver.
    rewrite then_with_eq, cmp_eq, IH. naive_solver.
  - induction x as [|x l IH]; intros [|y k]; simpl; try done.
    apply then_with_antisym; [apply cmp_antisym | apply IH].
  - induction x as [|x l IH]; intros [|y k] [|z m]; simpl; try done.
    apply then_with_trans. apply IH.
Qed.

#[export] Instance laws_string : OrdLaws string.
Proof.
  split; unfold cmp, ord_string.
  - induction x as [|x l IH]; intros [|y k]; simpl; try naive_solver.
    rewrite then_with_eq, cmp_eq, IH. naive_solver.
  - induction x as [|x l IH]; intros [|y k]; simpl; try done.
    apply then_with_antisym; [apply cmp_antisym | apply IH].
  - induction x as [|x l IH]; intros [|y k] [|z m]; simpl; try done.
    apply then_with_trans. apply IH.
Qed.

End ord_laws.

(** A derived order is lawful when its tuple view is injective. *)
Lemma laws_via {A B} `{OrdLaws B} (f : A → B) :
  (∀ x y, f x = f y → x = y) → @OrdLaws A (cmp_via f).
Proof.
  intros Hinj. split; unfold cmp, cmp_via; intros.
  - rewrite cmp_eq. naive_solver.
  - apply cmp_antisym.
  - eauto using cmp_trans.
Qed.

Definition lt_of {A} `{Ord A} (x y : A) : Prop := cmp x y = Lt.
Definition le_of {A} `{Ord A} (x y : A) : Prop := cmp x y ≠ Gt.

Section ord_facts.
Context {A : Type} `{OrdLaws A}.
Implicit Types x y z : A.

Lemma cmp_refl x : cmp x x = Eq.
Proof. by apply cmp_eq. Qed.

Lemma cmp_gt_lt x y : cmp x y = Gt ↔ cmp y x = Lt.
Proof. rewrite (cmp_antisym x y). destruct (cmp x y); naive_solver. Qed.

Lemma lt_irrefl x : ¬ lt_of x x.
Proof. unfold lt_of. by rewrite cmp_refl. Qed.

Lemma lt_ne x y : lt_of x y → x ≠ y.
Proof. intros Hlt ->. by apply (lt_irrefl y). Qed.

Lemma le_refl_of x : le_of x x.
Proof. unfold le_of. by rewrite cmp_refl. Qed.

Lemma le_trans_of x y z : le_of x y → le_of y z → le_of x z.
Proof.
  unfold le_of. intros Hxy Hyz.
  destruct (cmp x y) eqn:E1; [apply cmp_eq in E1 as ->; done| |done].
  destruct (cmp y z) eqn:E2; [apply cmp_eq in E2 as <-; by rewrite E1| |done].
  by rewrite (cmp_trans _ _ _ E1 E2).
Qed.

Lemma le_antisym_of x y : le_of x y → le_of y x → x = y.
Proof.
  unfold le_of. rewrite (cmp_antisym x y). intros Hxy Hyx.
  apply cmp_eq. destruct (cmp x y); naive_solver.
Qed.

Lemma le_total_of x y : le_of x y ∨ le_of y x.
Proof. unfold le_of. rewrite (cmp_antisym x y). destruct (cmp x y); naive_solver. Qed.

Lemma lt_le_of x y : lt_of x y → le_of x y.
Proof. unfold lt_of, le_of. by intros ->. Qed.

End ord_facts.

#[export] Hint Resolve cmp_refl lt_irrefl le_refl_of lt_le_of : telltale.

(** ** Stable sorting

    [slice::sort_by] is stable: elements that compare [Eq] keep their order.
    Insertion sort with "insert before the first not-smaller element" computes
    the same list, which the lemmas below pin down: it is the permutation that is
    sorted and keeps every equivalence class in input order. *)

Fixpoint sort_insert {A} (c : A → A → comparison) (x : A) (l : list A) : list A :=
  match l with
  | [] => [x]
  | y :: l' => match c x y with
               | Gt => y :: sort_insert c x l'
               | _ => x :: y :: l'
               end
  end.

Definition sort_by {A} (c : A → A → comparison) (l : list A) : list A :=
  foldr (sort_insert c) [] l.

(** [sort_by_key(key)]. *)
Definition sort_by_key {A K} `{Ord K} (key : A → K) (l : list A) : list A :=
  sort_by (cmp_via key) l.

(** [Vec::sort] on an ordered type. *)
Definition sort {A} `{Ord A} (l : list A) : list A := sort_by cmp l.

(** What [sort_by] asks of its comparator. *)
Class Comparator {A} (c : A → A → comparison) : Prop := {
  comparator_antisym : ∀ x y, c y x = CompOpp (c x y);
  comparator_trans : ∀ x y z, c x y ≠ Gt → c y z ≠ Gt → c x z ≠ Gt;
}.

#[export] Instance comparator_via {A K} `{OrdLaws K} (f : A → K) : Comparator (cmp_via f).
Proof.
  split; unfold cmp_via; intros.
  - apply cmp_antisym.
  - by eapply (le_trans_of (f x) (f y)).
Qed.

#[export] Instance comparator_cmp {A} `{OrdLaws A} : Comparator (cmp (A := A)).
Proof. split; [apply cmp_antisym | apply le_trans_of]. Qed.

Definition sorted_by {A} (c : A → A → comparison) (l : list A) : Prop :=
  StronglySorted (λ x y, c x y ≠ Gt) l.

Section sort_facts.
Context {A : Type} (c : A → A → comparison).

Lemma sort_insert_perm x l : Permutation (sort_insert c x l) (x :: l).
Proof.
  induction l as [|y l IH]; simpl; [done|].
  destruct (c x y); [done|done|]. rewrite IH. apply perm_swap.
Qed.

Lemma sort_by_perm l : Permutation (sort_by c l) l.
Proof.
  induction l as [|x l IH]; simpl; [done|].
  rewrite sort_insert_perm. by constructor.
Qed.

Context `{!Comparator c}.

Lemma sort_insert_sorted x l : sorted_by c l → sorted_by c (sort_insert c x l).
Proof.
  unfold sorted_by. induction 1 as [|y l Hl IH Hy]; simpl.
  { repeat constructor. }
  destruct (c x y) eqn:Hxy; try (constructor; [by constructor|]).
  1,2: constructor; [congruence|]; eapply Forall_impl; [exact Hy|]; simpl;
       intros z Hz; apply (comparator_trans x y z); congruence.
  constructor; [done|]. rewrite sort_insert_perm. constructor; [|done].
  rewrite (comparator_antisym x y), Hxy. done.
Qed.

Lemma sort_by_sorted l : sorted_by c (sort_by c l).
Proof.
  induction l as [|x l IH]; simpl; [constructor|]. by apply sort_insert_sorted.
Qed.

Lemma sort_insert_filter z x l :
  sorted_by c l →
  filter (λ y, c z y = Eq) (sort_insert c x l) = filter (λ y, c z y = Eq) (x :: l).
Proof.
  induction 1 as [|y l Hl IH Hy]; simpl; [done|].
  destruct (c x y) eqn:Hxy; try done.
  rewrite filter_cons, IH, !filter_cons.
  destruct (decide (c z y = Eq)) as [Hzy|]; destruct (decide (c z x = Eq)) as [Hzx|]; try done.
  exfalso. apply (comparator_trans x z y); try congruence.
  rewrite (comparator_antisym z x), Hzx. done.
Qed.

(** Stability: every class of mutually equal elements keeps its order. *)
Lemma sort_by_stable z l :
  filter (λ y, c z y = Eq) (sort_by c l) = filter (λ y, c z y = Eq) l.
Proof.
  induction l as [|x l IH]; simpl; [done|].
  rewrite sort_insert_filter by apply sort_by_sorted.
  rewrite !filter_cons, IH. done.
Qed.

Lemma sort_by_id l : sorted_by c l → sort_by c l = l.
Proof.
  induction 1 as [|x l Hl IH Hx]; simpl; [done|]. rewrite IH.
  destruct Hx as [|y l Hxy _]; simpl; [done|]. by destruct (c x y).
Qed.

Lemma sort_by_length l : length (sort_by c l) = length l.
Proof. by rewrite sort_by_perm. Qed.

End sort_facts.

(** [Vec::dedup]: drops consecutive repeats. *)
Fixpoint dedup {A} `{Ord A} (l : list A) : list A :=
  match l with
  | x :: (y :: _) as l' =>
      match cmp x y with Eq => dedup l' | _ => x :: dedup l' end
  | _ => l
  end.

Section dedup_facts.
Context {A : Type} `{OrdLaws A}.

Lemma dedup_elem x (l : list A) : x ∈ dedup l ↔ x ∈ l.
Proof.
  induction l as [|y [|z l] IH]; simpl; [done|done|].
  simpl in IH. destruct (cmp y z) eqn:E.
  - apply cmp_eq in E as ->. rewrite IH. set_solver.
  - rewrite elem_of_cons, IH. set_solver.
  - rewrite elem_of_cons, IH. set_solver.
Qed.

Lemma dedup_sorted (l : list A) :
  sorted_by cmp l → StronglySorted lt_of (dedup l).
Proof.
  induction l as [|y [|z l] IH]; intros Hs; simpl; [constructor|repeat constructor|].
  apply StronglySorted_inv in Hs as [Hs Hy]. specialize (IH Hs). simpl in IH.
  destruct (cmp y z) eqn:E; [done| |by apply Forall_cons in Hy as [? _]].
  constructor; [done|]. apply Forall_forall. intros w Hw.
  change (w ∈ dedup (z :: l)) in Hw. rewrite dedup_elem in Hw.
  apply StronglySorted_inv in Hs as [_ Hz].
  apply elem_of_cons in Hw as [->|Hw]; [done|].
  rewrite Forall_forall in Hz. specialize (Hz w Hw). unfold lt_of.
  destruct (cmp z w) eqn:Ezw; [apply cmp_eq in Ezw as <-; done| |done].
  by eapply cmp_trans.
Qed.

End dedup_facts.

(** Lists sorted by a strict order are determined by their members. *)
Lemma strict_sorted_ext {A} (R : A → A → Prop) (s t : list A) :
  (∀ x, ¬ R x x) → (∀ x y z, R x y → R y z → R x z) →
  StronglySorted R s → StronglySorted R t → (∀ x, x ∈ s ↔ x ∈ t) → s = t.
Proof.
  intros Hirr Htrans Hs. revert t.
  induction Hs as [|x s Hs IH Hx]; intros t Ht Hel.
  - destruct t as [|y t]; [done|]. exfalso. apply (not_elem_of_nil y).
    apply Hel. set_solver.
  - destruct Ht as [|y t Ht Hy].
    { exfalso. apply (not_elem_of_nil x), Hel. set_solver. }
    rewrite Forall_forall in Hx, Hy.
    assert (x = y) as ->.
    { destruct (proj1 (elem_of_cons t x y)) as [?|Hxt]; [apply Hel; set_solver|done|].
      destruct (proj1 (elem_of_cons s y x)) as [?|Hys]; [apply Hel; set_solver|done|].
      exfalso. apply (Hirr x). eapply Htrans; [by apply Hx|by apply Hy]. }
    f_equal. apply IH; [done|]. intros z. split; intros Hz.
    + destruct (proj1 (elem_of_cons t z y)) as [->|?]; [apply Hel; set_solver| |done].
      exfalso. apply (Hirr y). by apply Hx.
    + destruct (proj1 (elem_of_cons s z y)) as [->|?]; [apply Hel; set_solver| |done].
      exfalso. apply (Hirr y). by apply Hy.
Qed.

(** ** [BTreeSet] *)

Fixpoint bs_insert {A} `{Ord A} (x : A) (l : list A) : list A :=
  match l with
  | [] => [x]
  | y :: l' => match cmp x y with
               | Lt => x :: y :: l'
               | Eq => y :: l'
               | Gt => y :: bs_insert x l'
               end
  end.

Fixpoint bs_contains {A} `{Ord A} (x : A) (l : list A) : bool :=
  match l with
  | [] => false
  | y :: l' => match cmp x y with Eq => true | _ => bs_contains x l' end
  end.

Definition bs_extend {A} `{Ord A} (s : list A) (l : list A) : list A :=
  foldl (λ s x, bs_insert x s) s l.

(** [iter().collect::<BTreeSet<_>>()]. *)
Definition bs_of_list {A} `{Ord A} (l : list A) : list A := bs_extend [] l.

Definition bs_wf {A} `{Ord A} (s : list A) : Prop := StronglySorted lt_of s.

Section bset_facts.
Context {A : Type} `{OrdLaws A}.
Implicit Types x y : A.

Lemma bs_contains_spec x (s : list A) : bs_contains x s = true ↔ x ∈ s.
Proof.
  induction s as [|y s IH]; simpl; [set_solver|].
  destruct (cmp x y) eqn:E; rewrite ?IH.
  - apply cmp_eq in E as ->. set_solver.
  - pose proof (lt_ne _ _ E). set_solver.
  - assert (x ≠ y) by (intros ->; by rewrite cmp_refl in E). set_solver.
Qed.

Lemma bs_insert_elem x y (s : list A) : y ∈ bs_insert x s ↔ y = x ∨ y ∈ s.
Proof.
  induction s as [|z s IH]; simpl; [set_solver|].
  destruct (cmp x z) eqn:E; [apply cmp_eq in E as ->; set_solver|set_solver|].
  rewrite !elem_of_cons, IH. set_solver.
Qed.

Lemma bs_insert_wf x (s : list A) : bs_wf s → bs_wf (bs_insert x s).
Proof.
  unfold bs_wf. induction 1 as [|y s Hs IH Hy]; simpl; [repeat constructor|].
  destruct (cmp x y) eqn:E.
  - by constructor.
  - constructor; [by constructor|]. constructor; [done|].
    eapply Forall_impl; [exact Hy|]. intros z Hz. by eapply cmp_trans.
  - constructor; [done|]. apply Forall_forall. intros z.
    rewrite bs_insert_elem. intros [->|Hz]; [by apply cmp_gt_lt|].
    rewrite Forall_forall in Hy. auto.
Qed.

Lemma bs_extend_elem y (s l : list A) : y ∈ bs_extend s l ↔ y ∈ s ∨ y ∈ l.
Proof.
  revert s; induction l as [|x l IH]; intros s; simpl; [set_solver|].
  rewrite IH, bs_insert_elem. set_solver.
Qed.

Lemma bs_extend_wf (s l : list A) : bs_wf s → bs_wf (bs_extend s l).
Proof.
  revert s; induction l as [|x l IH]; intros s Hs; simpl; [done|].
  apply IH. by apply bs_insert_wf.
Qed.

Lemma bs_of_list_elem y (l : list A) : y ∈ bs_of_list l ↔ y ∈ l.
Proof. unfold bs_of_list. rewrite bs_extend_elem. set_solver. Qed.

Lemma bs_of_list_wf (l : list A) : bs_wf (bs_of_list l).
Proof. apply bs_extend_wf. constructor. Qed.

(** Strictly sorted lists with the same members are equal. *)
Lemma bs_ext (s t : list A) : bs_wf s → bs_wf t → (∀ x, x ∈ s ↔ x ∈ t) → s = t.
Proof. apply strict_sorted_ext; [apply lt_irrefl | intros ???; apply cmp_trans]. Qed.

(** The sort-then-dedup idiom of the source computes the set. *)
Lemma dedup_sort_bset (l : list A) : dedup (sort l) = bs_of_list l.
Proof.
  apply bs_ext.
  - apply dedup_sorted, sort_by_sorted, _.
  - apply bs_of_list_wf.
  - intros x. rewrite dedup_elem, bs_of_list_elem.
    unfold sort. by rewrite sort_by_perm.
Qed.

End bset_facts.

(** ** [BTreeMap] *)

Section bmap.
Context {K : Type} {V : Type} `{Ord K}.

Fixpoint bm_get (k : K) (m : list (K * V)) : option V :=
  match m with
  | [] => None
  | (k', v) :: m' => match cmp k k' with Eq => Some v | _ => bm_get k m' end
  end.

Fixpoint bm_insert (k : K) (v : V) (m : list (K * V)) : list (K * V) :=
  match m with
  | [] => [(k, v)]
  | (k', v') :: m' => match cmp k k' with
                      | Lt => (k, v) :: (k', v') :: m'
                      | Eq => (k, v) :: m'
                      | Gt => (k', v') :: bm_insert k v m'
                      end
  end.

(** [entry(k).or_insert(d)] followed by an update of the value. *)
Definition bm_update (k : K) (d : V) (f : V → V) (m : list (K * V)) : list (K * V) :=
  bm_insert k (f (default d (bm_get k m))) m.

Definition bm_contains_key (k : K) (m : list (K * V)) : bool :=
  match bm_get k m with Some _ => true | None => false end.

Definition bm_keys (m : list (K * V)) : list K := m.*1.
Definition bm_values (m : list (K * V)) : list V := m.*2.

Definition bm_wf (m : list (K * V)) : Prop := StronglySorted lt_of (m.*1).

Context `{!OrdLaws K}.

Lemma bm_get_insert_eq k v m : bm_get k (bm_insert k v m) = Some v.
Proof.
  induction m as [|[k' v'] m IH]; simpl; [by rewrite cmp_refl|].
  destruct (cmp k k') eqn:E; simpl; rewrite ?E, ?cmp_refl; done.
Qed.

Lemma bm_get_insert_ne k k' v m :
  k ≠ k' → bm_get k' (bm_insert k v m) = bm_get k' m.
Proof.
  intros Hne.
  assert (cmp k' k ≠ Eq) as Hc by (rewrite cmp_eq; naive_solver).
  induction m as [|[j w] m IH]; simpl; [by destruct (cmp k' k)|].
  destruct (cmp k j) eqn:E; simpl.
  - apply cmp_eq in E as <-. by destruct (cmp k' k).
  - by destruct (cmp k' k).
  - by destruct (cmp k' j).
Qed.

Lemma bm_get_insert k k' v m :
  bm_get k' (bm_insert k v m) = match cmp k k' with Eq => Some v | _ => bm_get k' m end.
Proof.
  destruct (cmp k k') eqn:E.
  - apply cmp_eq in E as <-. apply bm_get_insert_eq.
  - apply bm_get_insert_ne. by apply lt_ne.
  - apply bm_get_insert_ne. intros ->. by rewrite cmp_refl in E.
Qed.

Lemma bm_insert_keys k v m x : x ∈ (bm_insert k v m).*1 ↔ x = k ∨ x ∈ m.*1.
Proof.
  induction m as [|[k' v'] m IH]; simpl; [set_solver|].
  destruct (cmp k k') eqn:E; simpl; [apply cmp_eq in E as ->; set_solver|set_solver|].
  rewrite !elem_of_cons, IH. set_solver.
Qed.

Lemma bm_insert_wf k v m : bm_wf m → bm_wf (bm_insert k v m).
Proof.
  unfold bm_wf. induction m as [|[k' v'] m IH]; simpl; [intros _; repeat constructor|].
  intros Hm. apply StronglySorted_inv in Hm as [Hm Hk'].
  destruct (cmp k k') eqn:E; simpl.
  - apply cmp_eq in E as ->. by constructor.
  - constructor; [by constructor|]. constructor; [done|].
    eapply Forall_impl; [exact Hk'|]. intros z Hz. by eapply cmp_trans.
  - constructor; [by apply IH|]. apply Forall_forall. intros z.
    rewrite bm_insert_keys. intros [->|Hz]; [by apply cmp_gt_lt|].
    rewrite Forall_forall in Hk'. auto.
Qed.

Lemma bm_get_elem k v m : bm_wf m → (k, v) ∈ m ↔ bm_get k m = Some v.
Proof.
  unfold bm_wf. induction m as [|[k' v'] m IH]; simpl; [set_solver|].
  intros Hm. apply StronglySorted_inv in Hm as [Hm Hk'].
  rewrite elem_of_cons, IH by done. rewrite Forall_forall in Hk'.
  destruct (cmp k k') eqn:E.
  - apply cmp_eq in E as ->. split; [|naive_solver].
    intros [?|Hget]; [congruence|]. apply IH in Hget; [|done].
    exfalso. apply (lt_irrefl k'), Hk'. apply list_elem_of_fmap. by exists (k', v).
  - split; [|auto]. intros [[= -> ->]|?]; [by rewrite cmp_refl in E | done].
  - split; [|auto]. intros [[= -> ->]|?]; [by rewrite cmp_refl in E | done].
Qed.

Lemma bm_contains_key_spec k m :
  bm_contains_key k m = true ↔ k ∈ m.*1.
Proof.
  unfold bm_contains_key. induction m as [|[k' v'] m IH]; simpl; [set_solver|].
  destruct (cmp k k') eqn:E.
  - apply cmp_eq in E as ->. set_solver.
  - rewrite IH, elem_of_cons. pose proof (lt_ne _ _ E). naive_solver.
  - rewrite IH, elem_of_cons.
    assert (k ≠ k') by (intros ->; by rewrite cmp_refl in E). naive_solver.
Qed.

Lemma bm_get_None k m : bm_get k m = None ↔ k ∉ m.*1.
Proof.
  rewrite <- bm_contains_key_spec. unfold bm_contains_key.
  destruct (bm_get k m); naive_solver.
Qed.

(** Two well-formed maps with the same lookups are equal. *)
Lemma bm_wf_nodup m : bm_wf m → NoDup (m.*1).
Proof.
  unfold bm_wf. induction 1 as [|k ks Hks IH Hk]; constructor; [|done].
  rewrite Forall_forall in Hk. intros Hin. by apply (lt_irrefl k), Hk.
Qed.

End bmap.

#[export] Hint Resolve bs_insert_wf bs_of_list_wf bs_extend_wf bm_insert_wf : telltale.

Lemma StronglySorted_snoc {A} (R : A → A → Prop) l a :
  StronglySorted R l → Forall (λ x, R x a) l → StronglySorted R (l ++ [a]).
Proof.
  induction 1 as [|x l Hl IH Hx]; simpl; [repeat constructor|].
  rewrite Forall_cons. intros [Hxa Hla]. constructor; [by apply IH|].
  apply Forall_app. split; [done|]. by repeat constructor.
Qed.

(** ** Grouping: [entry(key).or_default().push(x)] over a list *)

Section grouping.
Context {A K : Type} `{OrdLaws K} (key : A → K).

Definition group_push (m : list (K * list A)) (x : A) : list (K * list A) :=
  bm_update (key x) [] (λ group, group ++ [x]) m.

Definition same_key (k : K) (x : A) : bool := match cmp (key x) k with Eq => true | _ => false end.

Lemma same_key_spec k x : same_key k x = true ↔ key x = k.
Proof. unfold same_key. rewrite <- (cmp_eq (key x) k). destruct (cmp (key x) k); split; done. Qed.

Lemma group_push_wf m l : bm_wf m → bm_wf (foldl group_push m l).
Proof.
  revert m; induction l as [|x l IH]; intros m Hm; simpl; [done|].
  apply IH. by apply bm_insert_wf.
Qed.

Lemma group_get l k :
  bm_get k (foldl group_push [] l) =
  match List.filter (same_key k) l with [] => None | g => Some g end.
Proof.
  induction l as [|x l IH] using rev_ind; simpl; [done|].
  rewrite foldl_app, List.filter_app. simpl. unfold group_push at 1, bm_update.
  rewrite bm_get_insert. unfold same_key at 2. destruct (cmp (key x) k) eqn:E.
  - apply cmp_eq in E as ->. rewrite IH. by destruct (List.filter _ l).
  - by rewrite app_nil_r.
  - by rewrite app_nil_r.
Qed.

(** A group is a value of the map exactly when it is the non-empty class of a key. *)
Lemma group_values l g :
  g ∈ bm_values (foldl group_push [] l) ↔
  ∃ k, g = List.filter (same_key k) l ∧ g ≠ [].
Proof.
  assert (bm_wf (foldl group_push [] l)) as Hwf by (apply group_push_wf; constructor).
  unfold bm_values. rewrite list_elem_of_fmap. split.
  - intros ([k g'] & -> & Hin). apply bm_get_elem in Hin; [|done]. rewrite group_get in Hin.
    exists k. simpl. destruct (List.filter _ l); naive_solver.
  - intros (k & -> & Hne). exists (k, List.filter (same_key k) l). split; [done|].
    apply bm_get_elem; [done|]. rewrite group_get. by destruct (List.filter _ l).
Qed.

(** The groups in key order: each holds the elements of its own key. *)
Lemma group_pairs l :
  Forall (λ kg, kg.2 = List.filter (same_key kg.1) l ∧ kg.2 ≠ []) (foldl group_push [] l).
Proof.
  assert (bm_wf (foldl group_push [] l)) as Hwf by (apply group_push_wf; constructor).
  apply Forall_forall. intros [k g] Hin. apply bm_get_elem in Hin; [|done].
  rewrite group_get in Hin. simpl. destruct (List.filter _ l); naive_solver.
Qed.

(** Grouping moves elements, it neither drops nor copies them. *)
Lemma bm_update_concat k x (m : list (K * list A)) :
  bm_wf m →
  Permutation (concat (bm_values (bm_update k [] (λ group, group ++ [x]) m)))
    (concat (bm_values m) ++ [x]).
Proof.
  unfold bm_update, bm_wf, bm_values. induction m as [|[k' g] m IHm]; simpl; [done|].
  intros [Hm Hhd]%StronglySorted_inv. destruct (cmp k k') eqn:E; simpl.
  - rewrite <- !app_assoc. apply Permutation_app_head. apply Permutation_app_comm.
  - replace (bm_get k m) with (@None (list A));
      [simpl; apply (Permutation_app_comm [x])|].
    symmetry. apply bm_get_None. intros Hin. rewrite Forall_forall in Hhd.
    specialize (Hhd _ Hin). unfold lt_of in Hhd. pose proof (cmp_antisym k k'). rewrite E in *. simpl in *. congruence.
  - rewrite <- app_assoc. apply Permutation_app_head. by apply IHm.
Qed.

Lemma group_perm m l :
  bm_wf m →
  Permutation (concat (bm_values (foldl group_push m l))) (concat (bm_values m) ++ l).
Proof.
  revert m; induction l as [|x l IH]; intros m Hm; simpl; [by rewrite app_nil_r|].
  rewrite IH by (by apply bm_insert_wf).
  rewrite cons_middle, app_assoc. apply Permutation_app_tail. by apply bm_update_concat.
Qed.

End grouping.

(** A comparison equal to one by key is a comparator. *)
Lemma comparator_of_key {A K} `{OrdLaws K} (c : A → A → comparison) (f : A → K) :
  (∀ x y, c x y = cmp_via f x y) → Comparator c.
Proof.
  intros Hc. destruct (comparator_via f) as [H1 H2].
  split; intros *; rewrite !Hc; eauto.
Qed.
