(* ===== verification/Rstr.v ===== *)
(** * Rust strings

    A [str] is its UTF-8 bytes, a [string] of 8-bit characters; [len] is the byte
    length.  ASCII predicates of [char] and [u8] agree on this representation
    because every byte of a non-ASCII character is at least 128. *)

From S2P Require Import Prelude Ordered.
From Stdlib Require Import Ascii.
From Stdlib Require String.

Local Open Scope Z_scope.

Definition bytes (s : string) : list ascii := String.list_ascii_of_string s.
Definition of_bytes (l : list ascii) : string := String.string_of_list_ascii l.

Definition len (s : string) : Z := Z.of_nat (String.length s).
Definition is_empty (s : string) : bool := match s with "" => true | _ => false end.

Lemma bytes_of_bytes l : bytes (of_bytes l) = l.
Proof. apply String.list_ascii_of_string_of_list_ascii. Qed.
Lemma of_bytes_bytes s : of_bytes (bytes s) = s.
Proof. apply String.string_of_list_ascii_of_string. Qed.
Lemma length_bytes s : length (bytes s) = String.length s.
Proof. induction s as [|a s IH]; simpl; [done | by f_equal]. Qed.
Lemma len_bytes s : len s = Z.of_nat (length (bytes s)).
Proof. unfold len. by rewrite length_bytes. Qed.
Lemma len_nonneg s : 0 ≤ len s.
Proof. unfold len. lia. Qed.
Lemma is_empty_spec s : is_empty s = true ↔ s = "".
Proof. destruct s; naive_solver. Qed.
Lemma bytes_inj s t : bytes s = bytes t → s = t.
Proof. intros H. rewrite <- (of_bytes_bytes s), <- (of_bytes_bytes t). by f_equal. Qed.

#[export] Hint Rewrite bytes_of_bytes of_bytes_bytes : telltale.
#[export] Hint Resolve len_nonneg : telltale.

(** ** Character classes *)

Definition byte_between (lo hi : N) (c : ascii) : bool :=
  (N.leb lo (N_of_ascii c) && N.leb (N_of_ascii c) hi)%bool.

Definition is_ascii_lowercase : ascii → bool := byte_between 97 122.
Definition is_ascii_uppercase : ascii → bool := byte_between 65 90.
Definition is_ascii_digit : ascii → bool := byte_between 48 57.
Definition is_ascii (c : ascii) : bool := N.leb (N_of_ascii c) 127.
Definition is_ascii_alphanumeric (c : ascii) : bool :=
  (is_ascii_lowercase c || is_ascii_uppercase c || is_ascii_digit c)%bool.
Definition is_ascii_hexdigit (c : ascii) : bool :=
  (is_ascii_digit c || byte_between 97 102 c || byte_between 65 70 c)%bool.
(** Space, tab, line feed, form feed, carriage return. *)
Definition is_ascii_whitespace (c : ascii) : bool :=
  match N_of_ascii c with 32 | 9 | 10 | 12 | 13 => true | _ => false end%N.

Definition one_of (cs : list ascii) (c : ascii) : bool :=
  existsb (Ascii.eqb c) cs.

Definition byte_eqb (a b : ascii) : bool := Ascii.eqb a b.

Definition to_lower (c : ascii) : ascii :=
  if is_ascii_uppercase c then ascii_of_N (N_of_ascii c + 32) else c.
Definition to_ascii_lowercase (s : string) : string := of_bytes (map to_lower (bytes s)).

(** ** Unicode whitespace and control characters, on UTF-8 bytes *)

Definition ws1 (a : ascii) : bool :=
  (byte_between 9 13 a || byte_between 32 32 a)%bool.
Definition ws2 (a b : ascii) : bool :=
  match N_of_ascii a, N_of_ascii b with
  | 194, 133 | 194, 160 => true
  | _, _ => false
  end%N.
Definition ws3 (a b c : ascii) : bool :=
  match N_of_ascii a, N_of_ascii b with
  | 225, 154 => byte_between 128 128 c
  | 226, 128 => (byte_between 128 138 c || byte_between 168 169 c || byte_between 175 175 c)%bool
  | 226, 129 => byte_between 159 159 c
  | 227, 128 => byte_between 128 128 c
  | _, _ => false
  end%N.

Fixpoint drop_ws (l : list ascii) : list ascii :=
  match l with
  | [] => []
  | a :: l1 =>
      if ws1 a then drop_ws l1 else
      match l1 with
      | [] => l
      | b :: l2 =>
          if ws2 a b then drop_ws l2 else
          match l2 with
          | [] => l
          | c :: l3 => if ws3 a b c then drop_ws l3 else l
          end
      end
  end.

(** The same scan from the end: the bytes arrive reversed. *)
Fixpoint drop_ws_rev (l : list ascii) : list ascii :=
  match l with
  | [] => []
  | a :: l1 =>
      if ws1 a then drop_ws_rev l1 else
      match l1 with
      | [] => l
      | b :: l2 =>
          if ws2 b a then drop_ws_rev l2 else
          match l2 with
          | [] => l
          | c :: l3 => if ws3 c b a then drop_ws_rev l3 else l
          end
      end
  end.

(** [str::trim]. *)
Definition trim (s : string) : string :=
  of_bytes (rev (drop_ws_rev (rev (drop_ws (bytes s))))).

(** [chars().any(char::is_control)]: general category Cc. *)
Fixpoint any_control (l : list ascii) : bool :=
  match l with
  | [] => false
  | a :: l1 =>
      if (byte_between 0 31 a || byte_between 127 127 a)%bool then true
      else match l1 with
           | b :: _ =>
               if (byte_between 194 194 a && byte_between 128 159 b)%bool then true
               else any_control l1
           | [] => false
           end
  end.
Definition has_control (s : string) : bool := any_control (bytes s).

Fixpoint drop_while {A} (p : A → bool) (l : list A) : list A :=
  match l with
  | [] => []
  | a :: l' => if p a then drop_while p l' else l
  end.

(** [trim_matches] on a set of ASCII characters. *)
Definition trim_matches (cs : list ascii) (s : string) : string :=
  of_bytes (rev (drop_while (one_of cs) (rev (drop_while (one_of cs) (bytes s))))).

(** ** Searching and splitting *)

Definition starts_with (s p : string) : bool := String.prefix p s.

Fixpoint strip_prefix_b (p l : list ascii) : option (list ascii) :=
  match p, l with
  | [], _ => Some l
  | a :: p', b :: l' => if Ascii.eqb a b then strip_prefix_b p' l' else None
  | _ :: _, [] => None
  end.
Definition strip_prefix (s p : string) : option string :=
  option_map of_bytes (strip_prefix_b (bytes p) (bytes s)).
Definition strip_suffix (s p : string) : option string :=
  option_map (λ l, of_bytes (rev l)) (strip_prefix_b (rev (bytes p)) (rev (bytes s))).
Definition ends_with (s p : string) : bool :=
  match strip_suffix s p with Some _ => true | None => false end.

(** [str::contains] on a string pattern. *)
Fixpoint contains (s p : string) : bool :=
  (String.prefix p s || match s with "" => false | String _ s' => contains s' p end)%bool.

(** [str::split] on a set of separators: always at least one piece. *)
Fixpoint split_on (sep : ascii → bool) (l : list ascii) : list (list ascii) :=
  match l with
  | [] => [[]]
  | a :: l' =>
      if sep a then [] :: split_on sep l'
      else match split_on sep l' with
           | [] => [[a]]
           | w :: ws => (a :: w) :: ws
           end
  end.
Definition split (sep : ascii → bool) (s : string) : list string :=
  map of_bytes (split_on sep (bytes s)).

(** [rsplit(sep).next()]: the last piece. *)
Definition rsplit_next (sep : ascii → bool) (s : string) : option string :=
  List.last (map Some (split sep s)) None.

(** [str::replace] of single ASCII characters by one character. *)
Definition replace_chars (cs : list ascii) (r : ascii) (s : string) : string :=
  of_bytes (map (λ c, if one_of cs c then r else c) (bytes s)).

(** [slice.join(sep)]. *)
Fixpoint join (sep : string) (l : list string) : string :=
  match l with
  | [] => ""
  | [s] => s
  | s :: l' => s +:+ sep +:+ join sep l'
  end.

Definition str_eqb (s t : string) : bool := String.eqb s t.

Lemma str_eqb_spec s t : str_eqb s t = true ↔ s = t.
Proof. apply String.eqb_eq. Qed.

Definition str_in (s : string) (l : list string) : bool := existsb (str_eqb s) l.

Lemma str_in_spec s l : str_in s l = true ↔ s ∈ l.
Proof.
  unfold str_in. rewrite existsb_exists. setoid_rewrite str_eqb_spec.
  setoid_rewrite <- list_elem_of_In. naive_solver.
Qed.

#[export] Hint Rewrite str_eqb_spec str_in_spec : telltale.

(** ** Facts *)

Lemma split_on_nonempty sep l : split_on sep l ≠ [].
Proof.
  destruct l as [|a l]; simpl; [done|].
  destruct (sep a); [done|]. by destruct (split_on sep l).
Qed.

Lemma split_on_no_sep sep l w : w ∈ split_on sep l → Forall (λ c, sep c = false) w.
Proof.
  revert w; induction l as [|a l IH]; intros w; simpl.
  - rewrite list_elem_of_singleton. intros ->. constructor.
  - destruct (sep a) eqn:Ha.
    + rewrite elem_of_cons. intros [->|Hw]; [constructor | auto].
    + destruct (split_on sep l) as [|v vs].
      * rewrite list_elem_of_singleton. intros ->. repeat constructor; done.
      * rewrite elem_of_cons. intros [->|Hw].
        -- constructor; [done|]. apply IH. set_solver.
        -- apply IH. set_solver.
Qed.

Lemma one_of_spec cs c : one_of cs c = true ↔ c ∈ cs.
Proof.
  unfold one_of. rewrite existsb_exists. setoid_rewrite Ascii.eqb_eq.
  setoid_rewrite <- list_elem_of_In. naive_solver.
Qed.

Lemma to_lower_idemp c : to_lower (to_lower c) = to_lower c.
Proof. destruct c as [[] [] [] [] [] [] [] []]; reflexivity. Qed.

Lemma to_ascii_lowercase_idemp s :
  to_ascii_lowercase (to_ascii_lowercase s) = to_ascii_lowercase s.
Proof.
  unfold to_ascii_lowercase. rewrite bytes_of_bytes, map_map. f_equal.
  apply map_ext. apply to_lower_idemp.
Qed.
