(* ===== verification/Scoring.v ===== *)
(** * Event 3.0 risk accounting

    crates/telltale-schema/src/scoring.rs: rationale normalization, validated risk
    contributions, their checked sum, canonicalization, and the severity
    thresholds.  Credential detection and redaction are another component
    (event/redaction.rs), reached through the [Privacy] interface. *)

From S2P Require Import Prelude Ordered Rstr.
From Stdlib Require Import Ascii.

Local Open Scope Z_scope.

(** What risk accounting calls of the redaction component. *)
Class Privacy : Type := {
  contains_high_confidence_credential_marker : string → bool;
  contains_credential_material : string → bool;
  redact_sensitive_text : string → string;
}.

(** ** Rationale text *)

Definition MAX_RISK_RATIONALE_LENGTH : Z := 256.
Definition DEFAULT_RISK_RATIONALE : string := "risk contribution".

Definition rationale_punctuation : list ascii :=
  [" "; ","; "_"; ";"; ":"; "'"; "("; ")"; "-"]%char.

Definition rationale_char (c : ascii) : bool :=
  (is_ascii_alphanumeric c || one_of rationale_punctuation c)%bool.

Definition ends_with_space (l : list ascii) : bool :=
  match last l with Some c => Ascii.eqb c " " | None => false end.

Definition zlength {A} (l : list A) : Z := Z.of_nat (length l).

(** One character of the loop: the buffer and the pending-space flag. *)
Definition rationale_step (normalized : list ascii) (pending_space : bool)
    (character : ascii) : list ascii * bool :=
  if is_ascii_whitespace character then (normalized, negb (bool_decide (normalized = [])))
  else if rationale_char character then
    let normalized :=
      if (pending_space && negb (ends_with_space normalized)
          && (zlength normalized <? MAX_RISK_RATIONALE_LENGTH))%bool
      then normalized ++ [" "%char] else normalized in
    let normalized :=
      if zlength normalized <? MAX_RISK_RATIONALE_LENGTH
      then normalized ++ [character] else normalized in
    (normalized, false)
  else (normalized, negb (bool_decide (normalized = []))).

Fixpoint rationale_loop (raw : list ascii) (normalized : list ascii)
    (pending_space : bool) : list ascii :=
  match raw with
  | [] => normalized
  | character :: rest =>
      let '(normalized, pending_space) :=
        rationale_step normalized pending_space character in
      if MAX_RISK_RATIONALE_LENGTH <=? zlength normalized then normalized
      else rationale_loop rest normalized pending_space
  end.

Definition normalize_risk_rationale (raw : string) : string :=
  let normalized := rationale_loop (bytes raw) [] false in
  let normalized := drop_while (λ c, negb (is_ascii_alphanumeric c)) normalized in
  let normalized := rev (drop_while (Ascii.eqb " ") (rev normalized)) in
  match normalized with
  | [] => DEFAULT_RISK_RATIONALE
  | _ => of_bytes normalized
  end.

(** ** Contributions *)

Inductive RiskContributionType := DeterministicRule | ChainModifier | BaselineDeviation.

#[export] Instance RiskContributionType_eq_dec : EqDecision RiskContributionType.
Proof. solve_decision. Defined.

Definition contribution_type_rank (t : RiskContributionType) : Z :=
  match t with DeterministicRule => 0 | ChainModifier => 1 | BaselineDeviation => 2 end.
#[export] Instance ord_contribution_type : Ord RiskContributionType :=
  cmp_via contribution_type_rank.
#[export] Instance laws_contribution_type : OrdLaws RiskContributionType.
Proof. apply laws_via. intros [] []; done. Qed.

Record RiskContribution := {
  rc_id : string;
  rc_type : RiskContributionType;
  rc_points : Z;
  rc_rationale : string;
}.

#[export] Instance RiskContribution_eq_dec : EqDecision RiskContribution.
Proof. solve_decision. Defined.

Inductive RiskAccountingError :=
| NonPositiveContribution (id : string)
| EmptyContributionId
| RationaleTooLong (id : string)
| RationaleContainsControlCharacter (id : string)
| InvalidRationale (id : string)
| InvalidContributionId (id : string)
| UnsafeRationale (id : string)
| Overflow
| ScoreMismatch (declared computed : Z)
| ConflictingContribution (id : string)
| NonCanonicalContributions
| InvalidRuleId (id : string)
| ContributionTypeNotAllowed (event_type id : string) (t : RiskContributionType)
| ContributionRuleIdMissing (id : string)
| EmptyEventField (event_type field : string)
| InvalidEventValue (event_type field : string)
| InvalidCorrelationCardinality (actual : Z)
| DuplicateCorrelationValue (field : string).

Definition id_char (c : ascii) : bool :=
  (is_ascii_lowercase c || is_ascii_digit c || Ascii.eqb c "_")%bool.

Fixpoint canonical_components (components : list (list ascii)) (has_suffix : bool) : bool :=
  match components with
  | [] => has_suffix
  | component :: rest =>
      if (bool_decide (component = []) || negb (forallb id_char component))%bool then false
      else canonical_components rest true
  end.

Definition is_canonical_contribution_id (id : string) : bool :=
  if (negb ((1 <=? len id) && (len id <=? 96)) || negb (forallb is_ascii (bytes id)))%bool
  then false
  else
    match split_on (Ascii.eqb ".") (bytes id) with
    | [] => false
    | first :: components =>
        match first with
        | [] => false
        | c :: _ =>
            if (negb (is_ascii_lowercase c) || negb (forallb id_char first))%bool then false
            else canonical_components components false
        end
    end.

Section accounting.
Context `{Privacy}.

Definition validate (c : RiskContribution) : result unit RiskAccountingError :=
  if is_empty (trim (rc_id c)) then Err EmptyContributionId
  else if (negb (is_canonical_contribution_id (rc_id c))
           || contains_credential_material (rc_id c))%bool
  then Err (InvalidContributionId (rc_id c))
  else if rc_points c =? 0 then Err (NonPositiveContribution (rc_id c))
  else if MAX_RISK_RATIONALE_LENGTH <? len (rc_rationale c)
  then Err (RationaleTooLong (rc_id c))
  else if has_control (rc_rationale c)
  then Err (RationaleContainsControlCharacter (rc_id c))
  else if contains_high_confidence_credential_marker (rc_rationale c)
  then Err (UnsafeRationale (rc_id c))
  else if (negb match bytes (rc_rationale c) with
                | character :: _ => is_ascii_alphanumeric character
                | [] => false
                end
           || existsb (λ ch, negb (is_ascii_alphanumeric ch)
                             && negb (one_of rationale_punctuation ch))
                (bytes (rc_rationale c)))%bool
  then Err (InvalidRationale (rc_id c))
  else Ok tt.

(** [RiskContribution::new]. *)
Definition new (id : string) (contribution_type : RiskContributionType) (points : Z)
    (raw_rationale : string) : result RiskContribution RiskAccountingError :=
  if contains_high_confidence_credential_marker raw_rationale
  then Err (UnsafeRationale id)
  else
    let rationale := redact_sensitive_text raw_rationale in
    let rationale := normalize_risk_rationale rationale in
    let contribution := {| rc_id := id; rc_type := contribution_type;
                           rc_points := points; rc_rationale := rationale |} in
    check? validate contribution in
    Ok contribution.

(** The wire form and its checked conversion. *)
Record RiskContributionWire := {
  wire_id : string;
  wire_type : RiskContributionType;
  wire_points : Z;
  wire_rationale : string;
}.

Definition try_from (wire : RiskContributionWire) : result RiskContribution RiskAccountingError :=
  let contribution := {| rc_id := wire_id wire; rc_type := wire_type wire;
                         rc_points := wire_points wire;
                         rc_rationale := wire_rationale wire |} in
  check? validate contribution in
  Ok contribution.

Definition checked_risk_sum (contributions : list RiskContribution)
    : result Z RiskAccountingError :=
  try_fold (λ total contribution,
    check? validate contribution in
    ok_or (checked_add total (rc_points contribution)) Overflow) 0 contributions.

Definition contribution_key (c : RiskContribution) : RiskContributionType * string :=
  (rc_type c, rc_id c).

Definition canonicalize_step
    (canonical : list ((RiskContributionType * string) * RiskContribution))
    (contribution : RiskContribution)
    : result (list ((RiskContributionType * string) * RiskContribution)) RiskAccountingError :=
  check? validate contribution in
  match bm_get (contribution_key contribution) canonical with
  | Some existing =>
      if bool_decide (existing = contribution) then Ok canonical
      else Err (ConflictingContribution (rc_id contribution))
  | None => Ok (bm_insert (contribution_key contribution) contribution canonical)
  end.

Definition canonicalize_contributions (contributions : list RiskContribution)
    : result (list RiskContribution) RiskAccountingError :=
  let? canonical := try_fold canonicalize_step [] contributions in
  let canonical := bm_values canonical in
  check? checked_risk_sum canonical in
  Ok canonical.

End accounting.

(** ** Severity *)

Record RiskThresholds := { th_low : Z; th_medium : Z; th_high : Z; th_critical : Z }.

#[export] Instance RiskThresholds_eq_dec : EqDecision RiskThresholds.
Proof. solve_decision. Defined.

Definition default_thresholds : RiskThresholds :=
  {| th_low := 20; th_medium := 50; th_high := 70; th_critical := 90 |}.

Inductive RiskSeverity := Informational | Low | Medium | High | Critical.

Definition RiskSeverity_as_str (s : RiskSeverity) : string :=
  match s with
  | Informational => "informational" | Low => "low" | Medium => "medium"
  | High => "high" | Critical => "critical"
  end.

Record RiskAssessment := {
  severity : RiskSeverity;
  high_required : bool;
  critical_required : bool;
}.

Definition assess_risk_with_thresholds (score : Z) (thresholds : RiskThresholds)
    : RiskAssessment :=
  {| severity :=
       if th_critical thresholds <=? score then Critical
       else if th_high thresholds <=? score then High
       else if th_medium thresholds <=? score then Medium
       else if th_low thresholds <=? score then Low
       else Informational;
     high_required := th_high thresholds <=? score;
     critical_required := th_critical thresholds <=? score |}.

(** The process-wide [OnceLock] is an option cell that [get_or_init] fills once. *)
Definition configure_thresholds (thresholds : RiskThresholds)
    : Eff (option RiskThresholds) unit unit := λ cell,
  let installed := default thresholds cell in
  (Some installed, if bool_decide (installed = thresholds) then Ok tt else Err tt).

Definition load_thresholds (cell : option RiskThresholds) : RiskThresholds :=
  default default_thresholds cell.

(** The order operator settings enforce before configuring
    (src/settings.rs, [expected low <= medium <= high <= critical]). *)
Definition thresholds_ordered (t : RiskThresholds) : Prop :=
  th_low t ≤ th_medium t ≤ th_high t ∧ th_high t ≤ th_critical t.

(** ** Rationale normalization produces the schema's safe text *)

(** The grammar [validate] asks of a rationale. *)
Definition rationale_ok (s : string) : Prop :=
  (∃ c rest, bytes s = c :: rest ∧ is_ascii_alphanumeric c = true) ∧
  Forall (λ c, rationale_char c = true) (bytes s) ∧
  len s ≤ MAX_RISK_RATIONALE_LENGTH.

Section rationale_facts.

Lemma drop_while_suffix {A} (p : A → bool) l : ∃ pre, l = pre ++ drop_while p l.
Proof.
  induction l as [|a l [pre IH]]; simpl; [by exists []|].
  destruct (p a); [|by exists []]. exists (a :: pre). simpl. by f_equal.
Qed.

Lemma drop_while_head {A} (p : A → bool) l a l' :
  drop_while p l = a :: l' → p a = false.
Proof.
  induction l as [|b l IH]; simpl; [done|].
  destruct (p b) eqn:Hb; [done|]. by intros [= <- <-].
Qed.

Lemma drop_while_id {A} (p : A → bool) l :
  (∀ a l', l = a :: l' → p a = false) → drop_while p l = l.
Proof. destruct l as [|a l]; simpl; [done|]. intros Hp. by rewrite (Hp a l). Qed.

Definition buffer_ok (l : list ascii) : Prop :=
  Forall (λ c, rationale_char c = true) l ∧ zlength l ≤ MAX_RISK_RATIONALE_LENGTH.

Lemma rationale_step_ok l p c :
  buffer_ok l → buffer_ok (rationale_step l p c).1.
Proof.
  unfold rationale_step, buffer_ok, zlength. intros [Hall Hlen].
  destruct (is_ascii_whitespace c); [done|].
  destruct (rationale_char c) eqn:Hc; [|done]. simpl.
  repeat match goal with
  | |- context [if ?b then _ else _] => destruct b eqn:?
  end; rewrite ?Forall_app, ?Forall_singleton, ?length_app; simpl;
    rewrite ?andb_true_iff, ?Z.ltb_lt in *; split_and?; try done;
    rewrite ?length_app in *; simpl in *; unfold MAX_RISK_RATIONALE_LENGTH in *; lia.
Qed.

Lemma rationale_loop_ok raw l p :
  buffer_ok l → buffer_ok (rationale_loop raw l p).
Proof.
  revert l p; induction raw as [|c raw IH]; intros l p Hl; simpl; [done|].
  destruct (rationale_step l p c) as [l' p'] eqn:Hs.
  assert (buffer_ok l') by (replace l' with (rationale_step l p c).1
    by (by rewrite Hs); by apply rationale_step_ok).
  destruct (_ <=? _); auto.
Qed.

Lemma buffer_ok_app_inv l1 l2 : buffer_ok (l1 ++ l2) → buffer_ok l1 ∧ buffer_ok l2.
Proof.
  unfold buffer_ok, zlength. rewrite Forall_app, length_app. naive_solver lia.
Qed.

Lemma buffer_ok_rev l : buffer_ok (rev l) ↔ buffer_ok l.
Proof. unfold buffer_ok, zlength. by rewrite <- (Permutation_rev l). Qed.

(** The trimmed buffer of [normalize_risk_rationale], before the default. *)
Definition rationale_trim (l : list ascii) : list ascii :=
  rev (drop_while (Ascii.eqb " ")
         (rev (drop_while (λ c, negb (is_ascii_alphanumeric c)) l))).

Lemma rationale_trim_ok l : buffer_ok l → buffer_ok (rationale_trim l).
Proof.
  intros Hl. unfold rationale_trim. rewrite buffer_ok_rev.
  destruct (drop_while_suffix (λ c, negb (is_ascii_alphanumeric c)) l) as [p1 E1].
  rewrite E1 in Hl. apply buffer_ok_app_inv in Hl as [_ Hl].
  rewrite <- buffer_ok_rev in Hl.
  destruct (drop_while_suffix (Ascii.eqb " ")
    (rev (drop_while (λ c, negb (is_ascii_alphanumeric c)) l))) as [p2 E2].
  rewrite E2 in Hl. by apply buffer_ok_app_inv in Hl as [_ Hl].
Qed.

(** Trimming the end keeps the first character. *)
Lemma rationale_trim_head l c l' :
  rationale_trim l = c :: l' → is_ascii_alphanumeric c = true.
Proof.
  unfold rationale_trim.
  destruct (drop_while_suffix (Ascii.eqb " ")
    (rev (drop_while (λ c, negb (is_ascii_alphanumeric c)) l))) as [p2 E2].
  intros Hr. apply (f_equal (@rev ascii)) in E2.
  rewrite rev_involutive, rev_app_distr, Hr in E2. simpl in E2.
  apply drop_while_head in E2. by apply negb_false_iff in E2.
Qed.

Lemma normalize_unfold raw :
  normalize_risk_rationale raw =
  match rationale_trim (rationale_loop (bytes raw) [] false) with
  | [] => DEFAULT_RISK_RATIONALE
  | l => of_bytes l
  end.
Proof.
  unfold normalize_risk_rationale. fold (rationale_trim (rationale_loop (bytes raw) [] false)).
  by destruct (rationale_trim _).
Qed.

End rationale_facts.

Lemma normalize_rationale_ok raw : rationale_ok (normalize_risk_rationale raw).
Proof.
  rewrite normalize_unfold.
  assert (buffer_ok (rationale_trim (rationale_loop (bytes raw) [] false))) as Hok.
  { apply rationale_trim_ok, rationale_loop_ok. split; [constructor | done]. }
  destruct (rationale_trim _) as [|c l] eqn:E.
  - split; [|split; [|done]].
    + by exists "r"%char, (bytes "isk contribution").
    + repeat (constructor; [reflexivity|]); constructor.
  - unfold rationale_ok. rewrite len_bytes, bytes_of_bytes.
    destruct Hok as [Hall Hlen]. split; [|done].
    exists c, l. split; [done|]. by eapply rationale_trim_head.
Qed.

(** Whatever the raw text, the normalized rationale is non-empty, starts with
    an ASCII alphanumeric, uses only the schema's characters, and fits 256 bytes. *)
Theorem normalize_risk_rationale_safe raw : rationale_ok (normalize_risk_rationale raw).
Proof. apply normalize_rationale_ok. Qed.

(** A buffer the loop leaves alone: no leading, trailing or doubled space. *)
Fixpoint spaced (prev_space : bool) (l : list ascii) : Prop :=
  match l with
  | [] => prev_space = false
  | c :: l' =>
      if Ascii.eqb c " " then prev_space = false ∧ spaced true l'
      else rationale_char c = true ∧ spaced false l'
  end.

Section rationale_idempotent.

Lemma ends_with_space_snoc l c : ends_with_space (l ++ [c]) = Ascii.eqb c " ".
Proof. unfold ends_with_space. by rewrite last_snoc. Qed.

Lemma whitespace_not_space c :
  rationale_char c = true → Ascii.eqb c " " = false → is_ascii_whitespace c = false.
Proof. by destruct c as [[] [] [] [] [] [] [] []]. Qed.

(** On spaced text the loop appends the text itself; a pending space stands for
    the one space just read. *)
Lemma rationale_loop_id raw l (pending : bool) :
  l ≠ [] → ends_with_space l = false →
  spaced pending raw →
  zlength l + (if pending then 1 else 0) + zlength raw ≤ MAX_RISK_RATIONALE_LENGTH →
  rationale_loop raw l pending = l ++ (if pending then [" "%char] else []) ++ raw.
Proof.
  unfold zlength, MAX_RISK_RATIONALE_LENGTH.
  revert l pending; induction raw as [|c raw IH]; intros l pending Hl Hend Hsp Hlen; simpl.
  { simpl in Hsp. subst pending. by rewrite !app_nil_r. }
  simpl in Hsp, Hlen. destruct (Ascii.eqb c " ") eqn:Hc.
  - destruct Hsp as [-> Hsp]. apply Ascii.eqb_eq in Hc as ->. unfold rationale_step. simpl.
    rewrite (bool_decide_eq_false_2 (l = []) Hl). simpl.
    rewrite (proj2 (Z.leb_gt _ _)) by (unfold zlength, MAX_RISK_RATIONALE_LENGTH in *; lia).
    rewrite IH by (done || lia). done.
  - destruct Hsp as [Hcc Hsp]. unfold rationale_step.
    rewrite (whitespace_not_space c Hcc Hc), Hcc, Hend. simpl.
    unfold zlength, MAX_RISK_RATIONALE_LENGTH.
    destruct pending; simpl in *.
    + rewrite (proj2 (Z.ltb_lt (Z.of_nat (length l)) _)) by lia.
      rewrite (proj2 (Z.ltb_lt (Z.of_nat (length (l ++ _))) _))
        by (rewrite length_app; simpl; lia).
      destruct (256 <=? _) eqn:E.
      * apply Z.leb_le in E. rewrite !length_app in E. simpl in E.
        destruct raw; simpl in *; [by rewrite <- app_assoc | lia].
      * rewrite IH; [by rewrite <- !app_assoc | by destruct l | by rewrite ends_with_space_snoc
          | done | rewrite !length_app; simpl; lia].
    + rewrite (proj2 (Z.ltb_lt (Z.of_nat (length l)) _)) by lia.
      destruct (256 <=? _) eqn:E.
      * apply Z.leb_le in E. rewrite !length_app in E. simpl in E.
        destruct raw; simpl in *; [done | lia].
      * rewrite IH; [by rewrite <- !app_assoc | by destruct l | by rewrite ends_with_space_snoc
          | done | rewrite !length_app; simpl; lia].
Qed.

Lemma alnum_not_space c : is_ascii_alphanumeric c = true → Ascii.eqb c " " = false.
Proof. by destruct c as [[] [] [] [] [] [] [] []]. Qed.

Lemma alnum_rationale c : is_ascii_alphanumeric c = true → rationale_char c = true.
Proof. unfold rationale_char. by intros ->. Qed.

(** The loop and the trims are the identity on their own outputs. *)
Lemma normalize_spaced c l :
  is_ascii_alphanumeric c = true → spaced false (c :: l) →
  zlength (c :: l) ≤ MAX_RISK_RATIONALE_LENGTH →
  rationale_trim (rationale_loop (c :: l) [] false) = c :: l.
Proof.
  intros Hc Hsp Hlen.
  assert (rationale_loop (c :: l) [] false = c :: l) as ->.
  { simpl in *. rewrite (alnum_not_space c Hc) in Hsp. destruct Hsp as [_ Hsp].
    unfold rationale_step.
    rewrite (whitespace_not_space c) by auto using alnum_rationale, alnum_not_space.
    rewrite (alnum_rationale c Hc). simpl. unfold zlength in *. simpl in *.
    rewrite rationale_loop_id; auto.
    - unfold ends_with_space. simpl. by apply alnum_not_space.
    - unfold zlength. simpl. unfold MAX_RISK_RATIONALE_LENGTH in *. lia. }
  unfold rationale_trim. simpl. rewrite Hc. simpl.
  rewrite drop_while_id; [by rewrite rev_app_distr, rev_involutive|].
  intros a l' Hr.
  assert (∀ p k, spaced p k → (p = true → k ≠ []) → ∀ a k', rev k = a :: k' →
    Ascii.eqb " " a = false) as Hlast.
  { clear. intros p k; revert p; induction k as [|b k IH]; intros p Hk Hp a k' Hr; [done|].
    simpl in Hk, Hr. destruct (rev k) as [|x k''] eqn:Hrk.
    - assert (k = []) as -> by (by rewrite <- (rev_involutive k), Hrk).
      simpl in Hr. injection Hr as <- <-. simpl in Hk.
      destruct (Ascii.eqb b " ") eqn:Hb; [naive_solver|]. by rewrite Ascii.eqb_sym.
    - injection Hr as <- <-.
      destruct (Ascii.eqb b " "); destruct Hk as [_ Hk].
      + eapply (IH true); [done| |done]. by destruct k.
      + eapply (IH false); done. }
  eapply (Hlast false (c :: l)); done.
Qed.

End rationale_idempotent.

(** No doubled space; a trailing one is allowed. *)
Fixpoint nodouble (prev_space : bool) (l : list ascii) : Prop :=
  match l with
  | [] => True
  | c :: l' =>
      if Ascii.eqb c " " then prev_space = false ∧ nodouble true l'
      else rationale_char c = true ∧ nodouble false l'
  end.

Section nodouble_facts.

Lemma nodouble_weaken p l : nodouble p l → nodouble false l.
Proof. destruct l as [|c l]; simpl; [done|]. destruct (Ascii.eqb c " "); naive_solver. Qed.

Lemma nodouble_snoc p l c :
  rationale_char c = true → Ascii.eqb c " " = false → nodouble p l → nodouble p (l ++ [c]).
Proof.
  intros Hc Hs; revert p; induction l as [|b l IH]; intros p; simpl.
  - by rewrite Hs.
  - destruct (Ascii.eqb b " "); naive_solver.
Qed.

Lemma nodouble_snoc_space p l :
  l ≠ [] → ends_with_space l = false → nodouble p l → nodouble p (l ++ [" "%char]).
Proof.
  revert p; induction l as [|b [|b' l] IH]; intros p Hne Hend; [done| |].
  - simpl. unfold ends_with_space in Hend; simpl in Hend. rewrite Hend. naive_solver.
  - assert (ends_with_space (b' :: l) = false) by done.
    change ((b :: b' :: l) ++ [" "%char]) with (b :: ((b' :: l) ++ [" "%char])).
    cbn [nodouble]. destruct (Ascii.eqb b " "); intros [? Hn]; split; auto.
Qed.

Lemma nodouble_app p l1 l2 : nodouble p (l1 ++ l2) → nodouble p l1 ∧ nodouble false l2.
Proof.
  revert p; induction l1 as [|b l1 IH]; intros p; simpl.
  - eauto using nodouble_weaken.
  - destruct (Ascii.eqb b " "); intros [? Hn]; apply IH in Hn; naive_solver.
Qed.

Lemma nodouble_spaced p l :
  nodouble p l → (l = [] → p = false) → ends_with_space l = false → spaced p l.
Proof.
  revert p; induction l as [|b l IH]; intros p; simpl; [auto|].
  intros Hn _ Hend. destruct l as [|b' l].
  - unfold ends_with_space in Hend. simpl in *. rewrite Hend in *. naive_solver.
  - assert (ends_with_space (b' :: l) = false) by done.
    destruct (Ascii.eqb b " "); destruct Hn as [? Hn]; split; auto; by apply IH.
Qed.

Lemma rationale_step_nodouble l p c :
  (p = true → l ≠ []) → nodouble false l →
  nodouble false (rationale_step l p c).1 ∧
  ((rationale_step l p c).2 = true → (rationale_step l p c).1 ≠ []).
Proof.
  intros Hp Hl. unfold rationale_step.
  destruct (is_ascii_whitespace c) eqn:Hw.
  { simpl. split; [done|]. destruct l; naive_solver. }
  destruct (rationale_char c) eqn:Hc.
  2: { simpl. split; [done|]. destruct l; naive_solver. }
  simpl. split; [|done].
  assert (Ascii.eqb c " " = false) by (by destruct c as [[] [] [] [] [] [] [] []]).
  assert (nodouble false (if (p && negb (ends_with_space l)
    && (zlength l <? MAX_RISK_RATIONALE_LENGTH))%bool then l ++ [" "%char] else l)).
  { destruct p, (ends_with_space l) eqn:?, (zlength l <? _); simpl;
      auto using nodouble_snoc_space. }
  match goal with |- nodouble _ (if ?b then _ else _) => destruct b end;
    auto using nodouble_snoc.
Qed.

Lemma rationale_loop_nodouble raw l p :
  (p = true → l ≠ []) → nodouble false l → nodouble false (rationale_loop raw l p).
Proof.
  revert l p; induction raw as [|c raw IH]; intros l p Hp Hl; simpl; [done|].
  destruct (rationale_step_nodouble l p c Hp Hl) as [H1 H2].
  destruct (rationale_step l p c) as [l' p']; simpl in *.
  destruct (_ <=? _); auto.
Qed.

Lemma rationale_trim_nodouble l : nodouble false l → nodouble false (rationale_trim l).
Proof.
  intros Hl. unfold rationale_trim.
  destruct (drop_while_suffix (λ c, negb (is_ascii_alphanumeric c)) l) as [p1 E1].
  rewrite E1 in Hl. apply nodouble_app in Hl as [_ Hl].
  destruct (drop_while_suffix (Ascii.eqb " ")
    (rev (drop_while (λ c, negb (is_ascii_alphanumeric c)) l))) as [p2 E2].
  apply (f_equal (@rev ascii)) in E2. rewrite rev_involutive, rev_app_distr in E2.
  rewrite E2 in Hl. by apply nodouble_app in Hl as [Hl _].
Qed.

Lemma rationale_trim_end l : ends_with_space (rationale_trim l) = false.
Proof.
  unfold rationale_trim.
  destruct (drop_while (Ascii.eqb " ") _) as [|a k] eqn:E; [done|].
  simpl. rewrite ends_with_space_snoc, Ascii.eqb_sym. by eapply drop_while_head.
Qed.

End nodouble_facts.

(** Normalization is idempotent: re-emitting a normalized rationale does not
    change it. *)
Theorem normalize_risk_rationale_idempotent raw :
  normalize_risk_rationale (normalize_risk_rationale raw) = normalize_risk_rationale raw.
Proof.
  rewrite (normalize_unfold raw).
  assert (buffer_ok (rationale_loop (bytes raw) [] false)) as Hok
    by (apply rationale_loop_ok; split; [constructor | done]).
  apply rationale_trim_ok in Hok.
  assert (nodouble false (rationale_trim (rationale_loop (bytes raw) [] false))) as Hn
    by (apply rationale_trim_nodouble, rationale_loop_nodouble; done).
  pose proof (rationale_trim_end (rationale_loop (bytes raw) [] false)) as Hend.
  destruct (rationale_trim _) as [|c l] eqn:E; [reflexivity|].
  rewrite normalize_unfold, bytes_of_bytes, normalize_spaced.
  - done.
  - by eapply rationale_trim_head.
  - by apply nodouble_spaced.
  - apply Hok.
Qed.

(** ** Contributions *)

Section contribution_facts.
Context `{Privacy}.

Lemma rationale_no_control l :
  Forall (λ c, rationale_char c = true) l → any_control l = false.
Proof.
  induction 1 as [|c l Hc Hl IH]; simpl; [done|].
  rewrite IH. destruct c as [[] [] [] [] [] [] [] []]; try discriminate Hc;
    destruct l; reflexivity.
Qed.

Lemma rationale_all_allowed l :
  Forall (λ c, rationale_char c = true) l →
  existsb (λ ch, negb (is_ascii_alphanumeric ch) && negb (one_of rationale_punctuation ch))%bool l
  = false.
Proof.
  induction 1 as [|c l Hc Hl IH]; cbn [existsb]; [done|]. rewrite IH.
  unfold rationale_char in Hc. by destruct (is_ascii_alphanumeric c), (one_of _ c).
Qed.

(** On grammatical rationale text only the identity, score and credential
    checks of [validate] remain. *)
Lemma validate_rationale_ok c :
  rationale_ok (rc_rationale c) →
  validate c =
  if is_empty (trim (rc_id c)) then Err EmptyContributionId
  else if (negb (is_canonical_contribution_id (rc_id c))
           || contains_credential_material (rc_id c))%bool
  then Err (InvalidContributionId (rc_id c))
  else if rc_points c =? 0 then Err (NonPositiveContribution (rc_id c))
  else if contains_high_confidence_credential_marker (rc_rationale c)
  then Err (UnsafeRationale (rc_id c))
  else Ok tt.
Proof.
  intros ((ch & rest & Hb & Hch) & Hall & Hlen). unfold validate.
  rewrite (proj2 (Z.ltb_ge _ _) Hlen). unfold has_control.
  rewrite rationale_no_control by done. rewrite rationale_all_allowed by done.
  rewrite Hb, Hch. done.
Qed.

Lemma validate_pos c : validate c = Ok tt → rc_points c ≠ 0.
Proof.
  unfold validate. repeat (case_match; try done).
  by match goal with H : (_ =? 0) = false |- _ => apply Z.eqb_neq in H end.
Qed.

Lemma validate_id c : validate c = Ok tt → is_canonical_contribution_id (rc_id c) = true.
Proof.
  unfold validate. repeat (case_match; try done).
  by destruct (is_canonical_contribution_id (rc_id c)).
Qed.

Definition total_points (l : list RiskContribution) : Z :=
  foldr (λ c acc, rc_points c + acc) 0 l.

Lemma total_points_app l1 l2 :
  total_points (l1 ++ l2) = total_points l1 + total_points l2.
Proof. induction l1; simpl; lia. Qed.

Lemma total_points_nonneg l :
  Forall (λ c, u64 (rc_points c)) l → 0 ≤ total_points l.
Proof. induction 1 as [|c l [? ?] ? ?]; simpl; lia. Qed.

Lemma checked_risk_sum_acc l total acc :
  Forall (λ c, u64 (rc_points c)) l →
  try_fold (λ total contribution,
    check? validate contribution in
    ok_or (checked_add total (rc_points contribution)) Overflow) acc l = Ok total ↔
  Forall (λ c, validate c = Ok tt) l ∧ total = acc + total_points l ∧
  (l ≠ [] → total ≤ u64_max).
Proof.
  intros Hu. revert acc; induction Hu as [|c l [Hc0 Hc1] Hl IH]; intros acc; simpl.
  { split; [intros [= ->]; split_and!; [constructor|lia|done]|].
    intros (_ & -> & _). f_equal. lia. }
  pose proof (total_points_nonneg l Hl) as Hnn.
  rewrite Forall_cons. destruct (validate c) as [[]|e] eqn:Hv; [|naive_solver].
  destruct (checked_add acc (rc_points c)) as [acc'|] eqn:Ha; simpl.
  - apply checked_add_Some in Ha as [-> Hb]. rewrite IH. split.
    + intros (? & -> & Hm). split_and!; [done|done|lia|]. intros _.
      destruct l; simpl in *; [lia | by apply Hm].
    + intros ((_ & ?) & -> & Hm). specialize (Hm ltac:(done)). split_and!; [done|lia|]. intros _. lia.
  - apply checked_add_None in Ha. split; [done|].
    intros (_ & -> & Hm). specialize (Hm ltac:(done)). lia.
Qed.

End contribution_facts.

(** A contribution built by [new] only ever fails for its credential marker,
    its identifier or a zero score: the rationale it stores always passes the
    length, control-character and grammar checks. *)
Theorem new_error_cases `{Privacy} id t points raw e :
  new id t points raw = Err e →
  e = UnsafeRationale id ∨ e = EmptyContributionId ∨
  e = InvalidContributionId id ∨ e = NonPositiveContribution id.
Proof.
  unfold new. destruct (contains_high_confidence_credential_marker raw); [naive_solver|].
  rewrite validate_rationale_ok by apply normalize_rationale_ok. simpl.
  repeat case_match; naive_solver.
Qed.

(** The checked sum succeeds exactly when every contribution is valid and the
    mathematical total fits [u64], and then it is that total. *)
Theorem checked_risk_sum_correct `{Privacy} l total :
  Forall (λ c, u64 (rc_points c)) l →
  checked_risk_sum l = Ok total ↔
  Forall (λ c, validate c = Ok tt) l ∧ total = total_points l ∧ total ≤ u64_max.
Proof.
  intros Hu. unfold checked_risk_sum. rewrite checked_risk_sum_acc by done.
  split; intros (? & -> & Hm); split_and!; try done.
  destruct l; simpl in *; [done | by apply Hm].
Qed.

(** ** Canonical contribution lists *)

(** Contributions in strictly increasing (type, id) order. *)
Definition canonical_order (l : list RiskContribution) : Prop :=
  StronglySorted (λ a b, lt_of (contribution_key a) (contribution_key b)) l.

(** Two contributions conflict when they share a key and differ. *)
Definition consistent (l : list RiskContribution) : Prop :=
  ∀ a b, a ∈ l → b ∈ l → contribution_key a = contribution_key b → a = b.

Section canonical_facts.
Context `{Privacy}.

Definition keyed (m : list ((RiskContributionType * string) * RiskContribution)) : Prop :=
  bm_wf m ∧ Forall (λ kv, kv.1 = contribution_key kv.2) m.

Lemma keyed_lookup m c : keyed m → c ∈ m.*2 ↔ bm_get (contribution_key c) m = Some c.
Proof.
  intros [Hwf Hk]. rewrite <- bm_get_elem by done.
  rewrite list_elem_of_fmap. split.
  - intros ([k v] & -> & Hin). rewrite Forall_forall in Hk.
    specialize (Hk _ Hin). simpl in *. by subst.
  - intros Hin. by exists (contribution_key c, c).
Qed.

Lemma keyed_insert m c : keyed m → keyed (bm_insert (contribution_key c) c m).
Proof.
  intros [Hwf Hk]. split; [by apply bm_insert_wf|].
  apply Forall_forall. intros [k v] Hin.
  apply bm_get_elem in Hin; [|by apply bm_insert_wf].
  rewrite bm_get_insert in Hin. destruct (cmp _ k) eqn:E.
  - apply cmp_eq in E. naive_solver.
  - apply bm_get_elem in Hin; [|done]. rewrite Forall_forall in Hk. by apply (Hk (k, v)).
  - apply bm_get_elem in Hin; [|done]. rewrite Forall_forall in Hk. by apply (Hk (k, v)).
Qed.

Lemma keyed_insert_elem m c x :
  keyed m → bm_get (contribution_key c) m = None →
  x ∈ (bm_insert (contribution_key c) c m).*2 ↔ x = c ∨ x ∈ m.*2.
Proof.
  intros Hm Hnone. rewrite keyed_lookup by by apply keyed_insert.
  rewrite bm_get_insert, (keyed_lookup m) by done.
  destruct (cmp (contribution_key c) (contribution_key x)) eqn:E.
  - apply cmp_eq in E. rewrite <- E, Hnone. naive_solver.
  - split; [auto|]. intros [->|?]; [by rewrite cmp_refl in E | done].
  - split; [auto|]. intros [->|?]; [by rewrite cmp_refl in E | done].
Qed.

(** The map fold succeeds exactly on valid, conflict-free input, and then holds
    the input's contributions. *)
Lemma canonicalize_fold l m :
  keyed m →
  (∃ m', try_fold canonicalize_step m l = Ok m') ↔
  Forall (λ c, validate c = Ok tt) l ∧ (∀ a b, a ∈ m.*2 ++ l → b ∈ l →
    contribution_key a = contribution_key b → a = b).
Proof.
  revert m; induction l as [|c l IH]; intros m Hm; simpl.
  { split; [intros _|naive_solver]. split; [constructor | set_solver]. }
  unfold canonicalize_step at 1. rewrite Forall_cons.
  destruct (validate c) as [[]|e] eqn:Hv; [|naive_solver].
  destruct (bm_get (contribution_key c) m) as [x|] eqn:Hg.
  - assert (x ∈ m.*2 ∧ contribution_key x = contribution_key c) as [Hx Hkx].
    { destruct Hm as [Hwf Hk]. apply bm_get_elem in Hg; [|done].
      rewrite Forall_forall in Hk. split; [|by pose proof (Hk _ Hg)].
      apply list_elem_of_fmap. by exists (contribution_key c, x). }
    case_bool_decide as Hxc.
    + subst x. rewrite IH by done.
      split; (intros [? Hall]; split; [naive_solver|]); intros a b Ha Hb Hab.
      * assert (a ∈ m.*2 ++ l) as Ha' by (clear -Ha Hx; set_solver).
        apply elem_of_cons in Hb as [->|Hb]; [|by apply Hall].
        apply elem_of_app in Ha' as [Ha'|Ha'].
        -- apply keyed_lookup in Ha'; [|done]. congruence.
        -- symmetry. apply Hall; [apply elem_of_app; auto | done | done].
      * apply Hall; [clear -Ha; set_solver | clear -Hb; set_solver | done].
    + split; [naive_solver|]. intros [_ Hall]. exfalso. apply Hxc.
      apply Hall; [apply elem_of_app; auto | apply elem_of_cons; auto | done].
  - rewrite IH by by apply keyed_insert.
    assert (∀ y, y ∈ m.*2 → contribution_key y ≠ contribution_key c) as Hfresh.
    { intros y Hy Heq. apply keyed_lookup in Hy; [|done]. congruence. }
    split; (intros [? Hall]; split; [naive_solver|]); intros a b Ha Hb Hab.
    + apply elem_of_cons in Hb as [->|Hb].
      * apply elem_of_app in Ha as [Ha|Ha]; [by apply Hfresh in Ha|].
        apply elem_of_cons in Ha as [->|Ha]; [done|].
        symmetry. apply Hall; [|done|done]. apply elem_of_app. left.
        apply keyed_insert_elem; auto.
      * apply Hall; [|done|done]. rewrite elem_of_app, keyed_insert_elem by done.
        clear -Ha. set_solver.
    + apply Hall; [|clear -Hb; set_solver|done].
      rewrite elem_of_app, keyed_insert_elem in Ha by done. clear -Ha. set_solver.
Qed.

Lemma canonicalize_fold_values l m m' :
  keyed m → try_fold canonicalize_step m l = Ok m' →
  keyed m' ∧ ∀ c, c ∈ m'.*2 ↔ c ∈ m.*2 ∨ c ∈ l.
Proof.
  revert m; induction l as [|c l IH]; intros m Hm; simpl.
  { intros [= <-]. set_solver. }
  unfold canonicalize_step at 1. destruct (validate c) as [[]|e] eqn:Hv; [|done].
  destruct (bm_get (contribution_key c) m) as [x|] eqn:Hg.
  - case_bool_decide as Hxc; [|done]. subst x. intros Hf.
    apply IH in Hf as [? Hel]; [|done]. split; [done|]. intros y. rewrite Hel.
    assert (c ∈ m.*2) by (by apply keyed_lookup). set_solver.
  - intros Hf. apply IH in Hf as [? Hel]; [|by apply keyed_insert]. split; [done|].
    intros y. rewrite Hel, keyed_insert_elem by done. set_solver.
Qed.

Lemma keyed_sorted m : keyed m → canonical_order (m.*2).
Proof.
  intros [Hwf Hk]. unfold canonical_order, bm_wf in *.
  induction m as [|[k v] m IH]; simpl in *; [constructor|].
  apply StronglySorted_inv in Hwf as [Hwf Hlt]. apply Forall_cons in Hk as [Hkv Hk].
  simpl in *. subst k. constructor; [by apply IH|].
  rewrite Forall_forall in Hk. rewrite Forall_forall in Hlt.
  apply Forall_forall. intros v' (kv & -> & Hin)%list_elem_of_fmap.
  rewrite <- (Hk _ Hin). apply Hlt, list_elem_of_fmap. by exists kv.
Qed.

Lemma canonicalize_Ok l out :
  canonicalize_contributions l = Ok out →
  canonical_order out ∧ (∀ c, c ∈ out ↔ c ∈ l) ∧ is_ok (checked_risk_sum out) = true.
Proof.
  unfold canonicalize_contributions.
  destruct (try_fold _ _ _) as [m|e] eqn:Hf; [|done].
  destruct (checked_risk_sum _) as [t|e] eqn:Hs; [|done]. intros [= <-].
  apply canonicalize_fold_values in Hf as [Hm Hel]; [|by repeat constructor].
  split_and!; [by apply keyed_sorted| |by rewrite Hs].
  intros c. rewrite (Hel c). simpl. set_solver.
Qed.

Lemma canonical_order_ext s t :
  canonical_order s → canonical_order t → (∀ c, c ∈ s ↔ c ∈ t) → s = t.
Proof.
  apply strict_sorted_ext; [intros x; apply lt_irrefl | intros ???; apply cmp_trans].
Qed.

End canonical_facts.

(** C20: canonicalization returns the input's contributions exactly once each, in
    strictly increasing (type, id) order, with a sum that fits [u64]. *)
Theorem canonicalize_contributions_canonical `{Privacy} l out :
  canonicalize_contributions l = Ok out →
  canonical_order out ∧ (∀ c, c ∈ out ↔ c ∈ l) ∧
  ∃ total, checked_risk_sum out = Ok total.
Proof.
  intros Hl. apply canonicalize_Ok in Hl as (? & ? & Hs). split_and!; [done|done|].
  destruct (checked_risk_sum out) as [t|]; [by exists t | done].
Qed.

(** It is independent of input order and of repeats: inputs with the same
    contributions canonicalize to the same list, and a canonical list to itself. *)
Theorem canonicalize_contributions_order_independent `{Privacy} l l' out :
  canonicalize_contributions l = Ok out → (∀ c, c ∈ l' ↔ c ∈ l) →
  canonicalize_contributions l' = Ok out.
Proof.
  intros Hl Hll. pose proof Hl as (Hord & Hel & Hsum)%canonicalize_Ok.
  unfold canonicalize_contributions in *.
  destruct (try_fold _ _ l) as [m|e] eqn:Hf; [|done].
  assert (∃ m', try_fold canonicalize_step [] l' = Ok m') as [m' Hf'].
  { apply canonicalize_fold; [by repeat constructor|].
    destruct (proj1 (canonicalize_fold l [] ltac:(by repeat constructor)))
      as [Hv Hc]; [by exists m|]. simpl in *. rewrite Forall_forall in *. split.
    - intros c Hc'. apply Hv. by apply Hll.
    - intros a b Ha Hb. apply Hc; by apply Hll. }
  rewrite Hf'. pose proof Hf as [Hm Hin]%canonicalize_fold_values; [|by repeat constructor].
  pose proof Hf' as [Hm' Hin']%canonicalize_fold_values; [|by repeat constructor].
  assert (bm_values m' = bm_values m) as ->; [|done].
  apply canonical_order_ext; [by apply keyed_sorted..|].
  intros c. unfold bm_values. rewrite Hin, Hin'. simpl. rewrite Hll. done.
Qed.

(** It succeeds exactly on valid, conflict-free contributions whose distinct
    members sum within [u64]; every rejection is one of those three reasons. *)
Theorem canonicalize_contributions_complete `{Privacy} l :
  Forall (λ c, u64 (rc_points c)) l →
  (∃ out, canonicalize_contributions l = Ok out) ↔
  Forall (λ c, validate c = Ok tt) l ∧ consistent l ∧
  ∃ out, canonical_order out ∧ (∀ c, c ∈ out ↔ c ∈ l) ∧ total_points out ≤ u64_max.
Proof.
  intros Hu.
  assert (∀ out, (∀ c, c ∈ out ↔ c ∈ l) → Forall (λ c, u64 (rc_points c)) out) as Hu'.
  { intros out Hel. rewrite Forall_forall in Hu. apply Forall_forall. naive_solver. }
  split.
  - intros [out Hout]. pose proof Hout as (Hord & Hel & Hs)%canonicalize_Ok.
    destruct (checked_risk_sum out) as [t|] eqn:Ht; [|done].
    apply (checked_risk_sum_acc out t 0 (Hu' out Hel)) in Ht as (Hv & -> & Hm).
    unfold canonicalize_contributions in Hout.
    destruct (try_fold _ _ l) as [m|] eqn:Hf; [|done].
    destruct (proj1 (canonicalize_fold l [] ltac:(by repeat constructor))) as [Hvl Hc];
      [by exists m|]. split_and!; [done|done|].
    exists out. split_and!; [done|done|]. destruct out; [done|]. by apply Hm.
  - intros (Hv & Hc & out & Hord & Hel & Hm).
    destruct (proj2 (canonicalize_fold l [] ltac:(by repeat constructor))) as [m Hf];
      [done|]. exists (bm_values m). unfold canonicalize_contributions. rewrite Hf.
    apply canonicalize_fold_values in Hf as [Hk Hin]; [|by repeat constructor].
    assert (bm_values m = out) as ->.
    { apply canonical_order_ext; [by apply keyed_sorted|done|].
      intros c. unfold bm_values. rewrite Hin, Hel. simpl. set_solver. }
    assert (checked_risk_sum out = Ok (total_points out)) as ->; [|done].
    apply (checked_risk_sum_acc out (total_points out) 0 (Hu' out Hel)). split_and!; auto.
    rewrite Forall_forall in Hv. apply Forall_forall. naive_solver.
Qed.

(** ** Severity *)

Definition severity_level (s : RiskSeverity) : Z :=
  match s with Informational => 0 | Low => 1 | Medium => 2 | High => 3 | Critical => 4 end.

(** With the ordered thresholds that settings enforce, severity grows with the
    score and the required-review flags say exactly "at least high" and
    "critical". *)
Theorem assess_risk_monotone t score score' :
  thresholds_ordered t → score ≤ score' →
  severity_level (severity (assess_risk_with_thresholds score t)) ≤
    severity_level (severity (assess_risk_with_thresholds score' t)) ∧
  (high_required (assess_risk_with_thresholds score t) = true ↔
    severity_level High ≤ severity_level (severity (assess_risk_with_thresholds score t))) ∧
  (critical_required (assess_risk_with_thresholds score t) = true ↔
    severity (assess_risk_with_thresholds score t) = Critical).
Proof.
  intros (? & ?) Hle. unfold assess_risk_with_thresholds; simpl.
  repeat match goal with
  | |- context [?a <=? ?b] => destruct (Z.leb_spec a b)
  end; simpl; split_and!; try split; try done; lia.
Qed.

(** A process configures thresholds some number of times. *)
Fixpoint configure_all (ts : list RiskThresholds) (cell : option RiskThresholds)
    : option RiskThresholds * list (result unit unit) :=
  match ts with
  | [] => (cell, [])
  | t :: ts' =>
      let '(cell, r) := configure_thresholds t cell in
      let '(cell, rs) := configure_all ts' cell in
      (cell, r :: rs)
  end.

(** The first configured thresholds are in force for the life of the process:
    later calls leave them alone, succeed exactly when they repeat them, and
    every event built afterwards loads them. *)
Theorem configure_thresholds_once t ts :
  configure_all (t :: ts) None =
    (Some t, Ok tt :: map (λ t', if bool_decide (t = t') then Ok tt else Err tt) ts) ∧
  load_thresholds (configure_all (t :: ts) None).1 = t.
Proof.
  assert (∀ ts, configure_all ts (Some t) =
    (Some t, map (λ t', if bool_decide (t = t') then Ok tt else Err tt) ts)) as Hts.
  { clear ts. induction ts as [|t' ts IH]; simpl; [done|]. by rewrite IH. }
  simpl. rewrite Hts. simpl. by rewrite bool_decide_eq_true_2.
Qed.

(** ** Witnesses

    A concrete privacy policy: GitHub-style tokens are credentials, and nothing
    else needs redaction. *)

#[local] Instance sample_privacy : Privacy := {|
  contains_high_confidence_credential_marker := λ s, contains s "ghp_";
  contains_credential_material := λ s, contains s "ghp_";
  redact_sensitive_text := λ s, s;
|}.

Definition sample_a : RiskContribution :=
  {| rc_id := "rule.z"; rc_type := DeterministicRule; rc_points := 3; rc_rationale := "z" |}.
Definition sample_b : RiskContribution :=
  {| rc_id := "chain.a"; rc_type := ChainModifier; rc_points := 4; rc_rationale := "a" |}.
Definition sample_clash : RiskContribution :=
  {| rc_id := "rule.z"; rc_type := DeterministicRule; rc_points := 5; rc_rationale := "z" |}.

Example normalize_example :
  normalize_risk_rationale "  .secret/path @ value;  " = "secret path value;".
Proof. vm_compute. reflexivity. Qed.

Example canonicalize_conflict_example :
  canonicalize_contributions [sample_a; sample_clash] = Err (ConflictingContribution "rule.z").
Proof. vm_compute. reflexivity. Qed.

Example canonicalize_example :
  canonicalize_contributions [sample_b; sample_a; sample_b] = Ok [sample_a; sample_b].
Proof. vm_compute. reflexivity. Qed.

Lemma new_error_cases_witness :
  new "rule" DeterministicRule 1 "x" = Err (InvalidContributionId "rule") ∧
  (InvalidContributionId "rule" = UnsafeRationale "rule" ∨
   InvalidContributionId "rule" = EmptyContributionId ∨
   InvalidContributionId "rule" = InvalidContributionId "rule" ∨
   InvalidContributionId "rule" = NonPositiveContribution "rule").
Proof.
  split; [vm_compute; reflexivity|].
  apply (new_error_cases "rule" DeterministicRule 1 "x"). vm_compute. reflexivity.
Defined.

Lemma checked_risk_sum_correct_witness :
  checked_risk_sum [sample_a; sample_b] = Ok 7 ↔
  Forall (λ c, validate c = Ok tt) [sample_a; sample_b] ∧
  7 = total_points [sample_a; sample_b] ∧ 7 ≤ u64_max.
Proof.
  apply (checked_risk_sum_correct [sample_a; sample_b] 7).
  repeat constructor; vm_compute; discriminate.
Defined.

Lemma canonicalize_contributions_canonical_witness :
  canonical_order [sample_a; sample_b] ∧
  (∀ c, c ∈ [sample_a; sample_b] ↔ c ∈ [sample_b; sample_a; sample_b]) ∧
  ∃ total, checked_risk_sum [sample_a; sample_b] = Ok total.
Proof.
  apply (canonicalize_contributions_canonical [sample_b; sample_a; sample_b]).
  vm_compute. reflexivity.
Defined.

Lemma canonicalize_contributions_order_independent_witness :
  canonicalize_contributions [sample_a; sample_b; sample_a] = Ok [sample_a; sample_b].
Proof.
  apply (canonicalize_contributions_order_independent [sample_b; sample_a]).
  - vm_compute. reflexivity.
  - intros c. set_solver.
Defined.

Lemma canonicalize_contributions_complete_witness :
  (∃ out, canonicalize_contributions [sample_b; sample_a] = Ok out) ↔
  Forall (λ c, validate c = Ok tt) [sample_b; sample_a] ∧ consistent [sample_b; sample_a] ∧
  ∃ out, canonical_order out ∧ (∀ c, c ∈ out ↔ c ∈ [sample_b; sample_a]) ∧
         total_points out ≤ u64_max.
Proof.
  apply (canonicalize_contributions_complete [sample_b; sample_a]).
  repeat constructor; vm_compute; discriminate.
Defined.

Lemma assess_risk_monotone_witness :
  severity_level (severity (assess_risk_with_thresholds 55 default_thresholds)) ≤
    severity_level (severity (assess_risk_with_thresholds 95 default_thresholds)) ∧
  (high_required (assess_risk_with_thresholds 55 default_thresholds) = true ↔
    severity_level High ≤
    severity_level (severity (assess_risk_with_thresholds 55 default_thresholds))) ∧
  (critical_required (assess_risk_with_thresholds 55 default_thresholds) = true ↔
    severity (assess_risk_with_thresholds 55 default_thresholds) = Critical).
Proof.
  apply (assess_risk_monotone default_thresholds 55 95).
  - unfold thresholds_ordered. simpl. lia.
  - lia.
Defined.
