(* ===== verification/Segment.v ===== *)
(** * Shell command segments

    crates/telltale-rules/src/segment.rs: the quote-aware lexical split of command
    text on [;], [|], [||], [&&] and newlines, yielding trimmed byte ranges. *)

From S2P Require Import Prelude Ordered Rstr.
From Stdlib Require Import Ascii.

(** Character codes of the source's byte literals. *)
Definition backslash : ascii := ascii_of_N 92.
Definition single_quote : ascii := ascii_of_N 39.
Definition double_quote : ascii := ascii_of_N 34.
Definition newline : ascii := ascii_of_N 10.

(** The scan loop of [segment_end] from [index], on the bytes [l] still unread.
    A backslash skips one more byte; past the end the segment ends with the
    text, whose length is [total]. *)
Fixpoint segment_scan (total : nat) (l : list ascii) (index : nat)
    (quote : option ascii) : nat * nat :=
  match l with
  | [] => (total, total)
  | byte :: rest =>
      match quote with
      | Some q =>
          if Ascii.eqb q single_quote then
            segment_scan total rest (S index)
              (if Ascii.eqb byte single_quote then None else quote)
          else if Ascii.eqb byte backslash then
            match rest with
            | [] => (total, total)
            | _ :: rest' => segment_scan total rest' (S (S index)) quote
            end
          else
            segment_scan total rest (S index)
              (if Ascii.eqb byte double_quote then None else quote)
      | None =>
          if Ascii.eqb byte backslash then
            match rest with
            | [] => (total, total)
            | _ :: rest' => segment_scan total rest' (S (S index)) None
            end
          else if (Ascii.eqb byte single_quote || Ascii.eqb byte double_quote)%bool then
            segment_scan total rest (S index) (Some byte)
          else if (Ascii.eqb byte ";" || Ascii.eqb byte newline)%bool then
            (index, S index)
          else if Ascii.eqb byte "|" then
            match rest with
            | next :: _ => if Ascii.eqb next "|" then (index, S (S index)) else (index, S index)
            | [] => (index, S index)
            end
          else if (Ascii.eqb byte "&"
                   && match rest with next :: _ => Ascii.eqb next "&" | [] => false end)%bool
          then (index, S (S index))
          else segment_scan total rest (S index) None
      end
  end.

(** Where the segment starting at [start] ends, and where the next one starts. *)
Definition segment_end (bs : list ascii) (start : nat) : nat * nat :=
  segment_scan (length bs) (drop start bs) start None.

(** Byte [i] is ASCII whitespace; only asked of indexes in range. *)
Definition ws_at (bs : list ascii) (i : nat) : bool :=
  match bs !! i with Some c => is_ascii_whitespace c | None => false end.

(** The two loops of [trim]; each runs at most [end - start] times. *)
Fixpoint trim_start (fuel : nat) (bs : list ascii) (start stop : nat) : nat :=
  match fuel with
  | O => start
  | S fuel' =>
      if (Nat.ltb start stop && ws_at bs start)%bool
      then trim_start fuel' bs (S start) stop else start
  end.

Fixpoint trim_stop (fuel : nat) (bs : list ascii) (start stop : nat) : nat :=
  match fuel with
  | O => stop
  | S fuel' =>
      if (Nat.ltb start stop && ws_at bs (pred stop))%bool
      then trim_stop fuel' bs start (pred stop) else stop
  end.

Definition trim_range (bs : list ascii) (range : nat * nat) : nat * nat :=
  let '(start, stop) := range in
  let start := trim_start (stop - start) bs start stop in
  (start, trim_stop (stop - start) bs start stop).

(** The iterator, collected: every step moves [position] forward, so the text
    length bounds the number of steps. *)
Fixpoint segments_from (fuel : nat) (bs : list ascii) (position : nat) : list (nat * nat) :=
  match fuel with
  | O => []
  | S fuel' =>
      if Nat.ltb position (length bs) then
        let '(stop, next) := segment_end bs position in
        let range := trim_range bs (position, stop) in
        if Nat.ltb range.1 range.2
        then range :: segments_from fuel' bs next
        else segments_from fuel' bs next
      else []
  end.

Definition segments (text : string) : list (nat * nat) :=
  segments_from (length (bytes text)) (bytes text) 0.

(** The text of a range, [&value[segment]]. *)
Definition slice (text : string) (range : nat * nat) : string :=
  of_bytes (take (range.2 - range.1) (drop range.1 (bytes text))).

Definition split_segments (text : string) : list string :=
  map (slice text) (segments text).

Example split_example :
  split_segments "a | b && c; d || e" = ["a"; "b"; "c"; "d"; "e"].
Proof. vm_compute. reflexivity. Qed.
Example split_quoted_example :
  split_segments "echo 'x;y|z'; cat a\;b 2>&1 & sleep 1" =
  ["echo 'x;y|z'"; "cat a\;b 2>&1 & sleep 1"].
Proof. vm_compute. reflexivity. Qed.

(** ** The scan *)

Definition is_separator (c : ascii) : bool := one_of [";"%char; newline; "|"%char; "&"%char] c.

Definition sep_at (bs : list ascii) (i : nat) : Prop :=
  ∃ c, bs !! i = Some c ∧ is_separator c = true.

(** A scan result is good for [bs] from [index]: it does not go back, and it
    either reaches the end or stops on separators, which it steps over. *)
Definition scan_ok (bs : list ascii) (index : nat) (r : nat * nat) : Prop :=
  index ≤ r.1 ∧ r.1 ≤ r.2 ∧ r.2 ≤ length bs ∧
  (index < length bs → index < r.2) ∧
  (r.1 < length bs → r.1 < r.2) ∧
  (∀ i, r.1 ≤ i < r.2 → sep_at bs i).

Section scan_facts.

Lemma drop_cons_lookup (bs : list ascii) index b rest :
  drop index bs = b :: rest → bs !! index = Some b ∧ drop (S index) bs = rest ∧
  index < length bs.
Proof.
  intros Hd. split_and!.
  - rewrite <- (Nat.add_0_r index), <- lookup_drop, Hd. done.
  - replace (S index) with (index + 1) by lia. rewrite <- drop_drop, Hd. done.
  - assert (length (drop index bs) ≠ 0) by by rewrite Hd. rewrite length_drop in *. lia.
Qed.

Lemma scan_ok_end bs index : index ≤ length bs → scan_ok bs index (length bs, length bs).
Proof. intros. unfold scan_ok; simpl. split_and!; try lia. Qed.

Lemma scan_ok_later bs index index' r :
  index ≤ index' → scan_ok bs index' r → (index' ≤ length bs → index < r.2) → scan_ok bs index r.
Proof.
  unfold scan_ok. intros ? (? & ? & ? & ? & ? & ?) ?. split_and!; try done; lia.
Qed.

Lemma scan_ok_one bs index b :
  bs !! index = Some b → is_separator b = true → scan_ok bs index (index, S index).
Proof.
  intros Hb Hs. pose proof (lookup_lt_Some _ _ _ Hb).
  unfold scan_ok; simpl. split_and!; try lia. intros i Hi.
  assert (i = index) as -> by lia. by exists b.
Qed.

Lemma scan_ok_two bs index b b' :
  bs !! index = Some b → bs !! S index = Some b' →
  is_separator b = true → is_separator b' = true → scan_ok bs index (index, S (S index)).
Proof.
  intros Hb Hb' Hs Hs'. pose proof (lookup_lt_Some _ _ _ Hb').
  unfold scan_ok; simpl. split_and!; try lia. intros i Hi.
  assert (i = index ∨ i = S index) as [->| ->] by lia; [by exists b | by exists b'].
Qed.

Lemma segment_scan_ok bs l index quote :
  drop index bs = l → index ≤ length bs →
  scan_ok bs index (segment_scan (length bs) l index quote).
Proof.
  remember (length l) as n eqn:Hn. revert l Hn index quote.
  induction n as [n IH] using lt_wf_ind. intros l -> index quote Hd Hi.
  destruct l as [|b rest]; simpl; [by apply scan_ok_end|].
  destruct (drop_cons_lookup _ _ _ _ Hd) as (Hb & Hd1 & Hlt).
  assert (∀ q, scan_ok bs index (segment_scan (length bs) rest (S index) q)) as Hone.
  { intros q. eapply (scan_ok_later _ _ (S index)); [lia| |].
    - eapply IH; [|done|done|lia]. simpl. lia.
    - assert (scan_ok bs (S index) (segment_scan (length bs) rest (S index) q)) as Hr
        by (eapply IH; [|done|done|lia]; simpl; lia).
      destruct Hr as (? & ? & _). lia. }
  assert (∀ q, scan_ok bs index
    match rest with
    | [] => (length bs, length bs)
    | _ :: rest' => segment_scan (length bs) rest' (S (S index)) q
    end) as Htwo.
  { intros q. destruct rest as [|b' rest']; [apply scan_ok_end; lia|].
    destruct (drop_cons_lookup _ _ _ _ Hd1) as (Hb' & Hd2 & Hlt').
    assert (scan_ok bs (S (S index)) (segment_scan (length bs) rest' (S (S index)) q)) as Hr
      by (eapply IH; [|done|done|lia]; simpl; lia).
    eapply scan_ok_later; [|exact Hr|]; [lia|]. destruct Hr as (? & ? & _). lia. }
  destruct quote as [q|].
  { destruct (Ascii.eqb q single_quote); [apply Hone|].
    destruct (Ascii.eqb b backslash); [apply Htwo | apply Hone]. }
  destruct (Ascii.eqb b backslash); [apply Htwo|].
  destruct (_ || _)%bool; [apply Hone|].
  destruct (Ascii.eqb b ";" || Ascii.eqb b newline)%bool eqn:Es.
  { eapply scan_ok_one; [done|]. apply one_of_spec.
    apply orb_true_iff in Es as [->%Ascii.eqb_eq| ->%Ascii.eqb_eq]; set_solver. }
  destruct (Ascii.eqb b "|") eqn:Ep.
  { apply Ascii.eqb_eq in Ep as ->. destruct rest as [|b' rest']; [by eapply scan_ok_one|].
    destruct (Ascii.eqb b' "|") eqn:Ep'; [|by eapply scan_ok_one].
    apply Ascii.eqb_eq in Ep' as ->.
    destruct (drop_cons_lookup _ _ _ _ Hd1) as (Hb' & _ & _). by eapply scan_ok_two. }
  destruct rest as [|b' rest']; [rewrite andb_false_r; apply Hone|].
  destruct (_ && _)%bool eqn:Ea; [|apply Hone].
  apply andb_true_iff in Ea as [->%Ascii.eqb_eq ->%Ascii.eqb_eq].
  destruct (drop_cons_lookup _ _ _ _ Hd1) as (Hb' & _ & _). by eapply scan_ok_two.
Qed.

Lemma segment_end_ok bs start : start ≤ length bs → scan_ok bs start (segment_end bs start).
Proof. intros. by apply segment_scan_ok. Qed.

End scan_facts.

(** ** The ranges *)

(** A byte that belongs to no command: whitespace or a separator. *)
Definition blank_at (bs : list ascii) (i : nat) : Prop := ws_at bs i = true ∨ sep_at bs i.

(** [ranges] tile [bs] from [position]: they are non-empty, increasing, disjoint
    and in bounds, neither start nor end with whitespace, are followed by a blank
    byte or the end, and every byte outside them is blank. *)
Fixpoint tiled (bs : list ascii) (position : nat) (ranges : list (nat * nat)) : Prop :=
  match ranges with
  | [] => ∀ i, position ≤ i < length bs → blank_at bs i
  | (start, stop) :: ranges' =>
      position ≤ start ∧ start < stop ∧ stop ≤ length bs ∧
      ws_at bs start = false ∧ ws_at bs (pred stop) = false ∧
      (stop < length bs → blank_at bs stop) ∧
      (∀ i, position ≤ i < start → blank_at bs i) ∧
      tiled bs stop ranges'
  end.

Section range_facts.

Lemma trim_start_spec fuel bs start stop :
  start ≤ stop → stop - start ≤ fuel →
  let a := trim_start fuel bs start stop in
  start ≤ a ≤ stop ∧ (∀ i, start ≤ i < a → ws_at bs i = true) ∧
  (a < stop → ws_at bs a = false).
Proof.
  revert start; induction fuel as [|fuel IH]; intros start Hle Hf; simpl.
  { repeat split; intros; lia. }
  destruct (Nat.ltb_spec start stop); simpl; [|repeat split; intros; lia].
  destruct (ws_at bs start) eqn:Hw; simpl; [|repeat split; intros; done || lia].
  destruct (IH (S start)) as ([? ?] & Hws & Hend); [lia..|].
  split_and!; [lia|lia| |done]. intros i Hi.
  destruct (decide (i = start)) as [->|]; [done|]. apply Hws. lia.
Qed.

Lemma trim_stop_spec fuel bs start stop :
  start ≤ stop → stop - start ≤ fuel →
  let b := trim_stop fuel bs start stop in
  start ≤ b ≤ stop ∧ (∀ i, b ≤ i < stop → ws_at bs i = true) ∧
  (start < b → ws_at bs (pred b) = false).
Proof.
  revert stop; induction fuel as [|fuel IH]; intros stop Hle Hf; simpl.
  { repeat split; intros; lia. }
  destruct (Nat.ltb_spec start stop); simpl; [|repeat split; intros; lia].
  destruct (ws_at bs (pred stop)) eqn:Hw; simpl; [|repeat split; intros; done || lia].
  destruct (IH (pred stop)) as ([? ?] & Hws & Hend); [lia..|].
  split_and!; [lia|lia| |done]. intros i Hi.
  destruct (decide (i = pred stop)) as [->|]; [done|]. apply Hws. lia.
Qed.

Lemma trim_range_spec bs start stop :
  start ≤ stop →
  let '(a, b) := trim_range bs (start, stop) in
  start ≤ a ∧ a ≤ b ∧ b ≤ stop ∧
  (∀ i, start ≤ i < a → ws_at bs i = true) ∧ (∀ i, b ≤ i < stop → ws_at bs i = true) ∧
  (a < b → ws_at bs a = false ∧ ws_at bs (pred b) = false).
Proof.
  intros Hle. unfold trim_range.
  destruct (trim_start_spec (stop - start) bs start stop) as ([? ?] & Hpre & Ha); [lia..|].
  set (a := trim_start _ _ _ _) in *.
  destruct (trim_stop_spec (stop - a) bs a stop) as ([? ?] & Hpost & Hb); [lia..|].
  split_and!; try done. intros. split; [apply Ha; lia | by apply Hb].
Qed.

(** Blank bytes before the first range may be added to a tiling. *)
Lemma tiled_extend bs position position' ranges :
  position ≤ position' → (∀ i, position ≤ i < position' → blank_at bs i) →
  tiled bs position' ranges → tiled bs position ranges.
Proof.
  intros Hle Hb. destruct ranges as [|[start stop] ranges]; simpl.
  - intros Ht i Hi. destruct (decide (i < position')); [apply Hb; lia | apply Ht; lia].
  - intros (? & ? & ? & ? & ? & ? & Hpre & ?). split_and!; try done; [lia|].
    intros i Hi. destruct (decide (i < position')); [apply Hb; lia | apply Hpre; lia].
Qed.

Lemma segments_from_tiled fuel bs position :
  length bs - position ≤ fuel → position ≤ length bs →
  tiled bs position (segments_from fuel bs position).
Proof.
  revert position; induction fuel as [|fuel IH]; intros position Hf Hp; cbn [segments_from].
  { intros i Hi. lia. }
  destruct (Nat.ltb_spec position (length bs)) as [Hlt|]; [|intros i Hi; lia].
  pose proof (segment_end_ok bs position Hp) as (H1 & H2 & H3 & H4 & H5 & Hsep).
  destruct (segment_end bs position) as [stop next]; cbn [fst snd] in *.
  pose proof (trim_range_spec bs position stop H1) as Ht.
  destruct (trim_range bs (position, stop)) as [a b].
  destruct Ht as (? & ? & ? & Hpre & Hpost & Hends).
  assert (tiled bs b (segments_from fuel bs next)) as Hrest.
  { apply (tiled_extend _ _ next); [lia| |apply IH; lia].
    intros i Hi. destruct (decide (i < stop)).
    - left. apply Hpost. lia.
    - right. apply Hsep. lia. }
  cbn [fst snd]. destruct (Nat.ltb_spec a b) as [Hab|Hab].
  - destruct (Hends Hab). simpl. split_and!; try done; [lia| |].
    + intros Hb. destruct (decide (b < stop)); [left; apply Hpost; lia|].
      right. apply Hsep. lia.
    + intros i Hi. left. by apply Hpre.
  - apply (tiled_extend _ _ b); [lia| |done]. intros i Hi. left.
    destruct (decide (i < a)); [apply Hpre; lia | apply Hpost; lia].
Qed.

End range_facts.

(** The segments of any text are non-empty, in order, disjoint and in bounds,
    are trimmed of ASCII whitespace, and together hold every byte of the text
    that is not whitespace or a separator character. *)
Theorem segments_tile text : tiled (bytes text) 0 (segments text).
Proof. apply segments_from_tiled; lia. Qed.

(** ** Character boundaries *)

Definition continuation (c : ascii) : bool := byte_between 128 191 c.

(** What every UTF-8 text satisfies: it does not start with a continuation byte,
    and none follows an ASCII byte. *)
Definition utf8_placed (bs : list ascii) : Prop :=
  (∀ c, bs !! 0 = Some c → continuation c = false) ∧
  (∀ i a b, bs !! i = Some a → bs !! S i = Some b →
     is_ascii a = true → continuation b = false).

(** [str::is_char_boundary]. *)
Definition char_boundary (bs : list ascii) (i : nat) : Prop :=
  ∀ c, bs !! i = Some c → continuation c = false.

Section boundary_facts.

Lemma blank_ascii bs i :
  blank_at bs i → ∃ c, bs !! i = Some c ∧ is_ascii c = true ∧ continuation c = false.
Proof.
  unfold blank_at, ws_at, sep_at. intros [Hw|(c & Hc & Hs)].
  - destruct (bs !! i) as [c|]; [|done]. exists c. split; [done|].
    by destruct c as [[] [] [] [] [] [] [] []].
  - exists c. split; [done|]. by destruct c as [[] [] [] [] [] [] [] []].
Qed.

Lemma tiled_boundaries bs position ranges :
  utf8_placed bs → char_boundary bs position → (position ≠ 0 → blank_at bs position ∨ length bs ≤ position) →
  tiled bs position ranges →
  Forall (λ r, char_boundary bs r.1 ∧ char_boundary bs r.2) ranges.
Proof.
  intros [H0 Hnext]. revert position.
  induction ranges as [|[a b] ranges IH]; intros position Hp Hpos; simpl; [constructor|].
  intros (? & ? & ? & ? & ? & Hb & Hpre & Ht).
  assert (char_boundary bs b) as Hbb.
  { intros c Hc. pose proof (lookup_lt_Some _ _ _ Hc) as Hlt.
    destruct (blank_ascii bs b (Hb Hlt)) as (c' & ? & ? & ?). naive_solver. }
  constructor.
  - split; [|done]. simpl. destruct (decide (a = position)) as [->|]; [done|].
    intros c Hc. destruct (blank_ascii bs (pred a)) as (c' & Hc' & ? & ?).
    { apply Hpre. lia. }
    eapply (Hnext (pred a)); [done| |done]. by replace (S (pred a)) with a by lia.
  - apply (IH b); [done| |done]. intros _.
    destruct (decide (b < length bs)); [left; auto | right; lia].
Qed.

End boundary_facts.

(** Every segment of a UTF-8 text starts and ends on a character boundary, so
    slicing it cannot panic. *)
Theorem segments_char_boundaries text :
  utf8_placed (bytes text) →
  Forall (λ r, char_boundary (bytes text) r.1 ∧ char_boundary (bytes text) r.2)
    (segments text).
Proof.
  intros Hu. apply (tiled_boundaries _ 0).
  - done.
  - by intros c; apply Hu.
  - done.
  - apply segments_from_tiled; lia.
Qed.

(** ** Quoting: refinement of a one-pass lexer

    The specification reads the whole text once and marks the bytes of unquoted,
    unescaped separators.  The iterator restarts its scan at every segment. *)

Fixpoint separator_mask (quote : option ascii) (l : list ascii) : list bool :=
  match l with
  | [] => []
  | byte :: rest =>
      if match quote with Some q => Ascii.eqb q single_quote | None => false end then
        false :: separator_mask (if Ascii.eqb byte single_quote then None else quote) rest
      else if Ascii.eqb byte backslash then
        false :: match rest with
                 | [] => []
                 | _ :: rest' => false :: separator_mask quote rest'
                 end
      else match quote with
      | Some _ =>
          false :: separator_mask (if Ascii.eqb byte double_quote then None else quote) rest
      | None =>
          if (Ascii.eqb byte single_quote || Ascii.eqb byte double_quote)%bool then
            false :: separator_mask (Some byte) rest
          else if (Ascii.eqb byte ";" || Ascii.eqb byte newline || Ascii.eqb byte "|")%bool then
            match rest with
            | next :: rest' =>
                if (Ascii.eqb byte "|" && Ascii.eqb next "|")%bool
                then true :: true :: separator_mask None rest'
                else true :: separator_mask None rest
            | [] => [true]
            end
          else match rest with
          | next :: rest' =>
              if (Ascii.eqb byte "&" && Ascii.eqb next "&")%bool
              then true :: true :: separator_mask None rest'
              else false :: separator_mask None rest
          | [] => [false]
          end
      end
  end.

(** One scan agrees with the mask: unmarked up to [stop], marked up to [next], and
    the lexer is back outside quotes at [next]. *)
Definition scan_masked (l : list ascii) (mask : list bool) (r : nat * nat) : Prop :=
  r.1 ≤ r.2 ∧ r.2 ≤ length l ∧
  (∀ j, j < r.1 → mask !! j = Some false) ∧
  (∀ j, r.1 ≤ j < r.2 → mask !! j = Some true) ∧
  drop r.2 mask = separator_mask None (drop r.2 l).

Section mask_facts.

Lemma scan_masked_cons b l mask r :
  scan_masked l mask r → scan_masked (b :: l) (false :: mask) (S r.1, S r.2).
Proof.
  intros (? & ? & Hpre & Hsep & Hd). split_and!; simpl; [lia|lia| | |done].
  - intros [|j] Hj; [done|]. apply Hpre. lia.
  - intros [|j] Hj; [lia|]. apply Hsep. lia.
Qed.

(** Shift of a relative scan result by [index]. *)
Definition shift (index : nat) (r : nat * nat) : nat * nat := (index + r.1, index + r.2).

Lemma shift_S index r : shift (S index) r = shift index (S r.1, S r.2).
Proof. unfold shift; simpl. f_equal; lia. Qed.

(** A separator of [k] bytes at the scan position. *)
Lemma scan_separator l index k mask :
  separator_mask None (drop k l) = drop k mask → k = 1 ∨ k = 2 → k ≤ length l →
  (∀ j, j < k → mask !! j = Some true) →
  ∃ r, (index, index + k) = shift index r ∧ scan_masked l mask r.
Proof.
  intros Hd Hk Hlen Ht. exists (0, k). split; [unfold shift; simpl; f_equal; lia|].
  split_and!; simpl; [lia|done|intros; lia| |done]. intros j Hj. apply Ht. lia.
Qed.

(** An escaped byte: the scan skips two. *)
Lemma scan_two b rest index :
  (∀ rest' q, length rest' < S (length rest) →
     ∃ r, segment_scan (S (S index) + length rest') rest' (S (S index)) q = shift (S (S index)) r ∧
          scan_masked rest' (separator_mask q rest') r) →
  ∀ q, ∃ r, match rest with
      | [] => (index + S (length rest), index + S (length rest))
      | _ :: rest' => segment_scan (index + S (length rest)) rest' (S (S index)) q
      end = shift index r ∧
    scan_masked (b :: rest) (false :: match rest with
      | [] => [] | _ :: rest' => false :: separator_mask q rest' end) r.
Proof.
  intros IH q. destruct rest as [|b' rest'].
  - exists (1, 1). split; [done|]. split_and!; simpl; try (done || (intros; lia)).
    intros [|j] Hj; [done|lia].
  - destruct (IH rest' q ltac:(simpl; lia)) as (r & Hr & Hm).
    exists (S (S r.1), S (S r.2)).
    change (S (S r.1), S (S r.2)) with (S (S r.1, S r.2).1, S (S r.1, S r.2).2).
    rewrite <- (shift_S index (S r.1, S r.2)), <- (shift_S (S index) r), <- Hr.
    split; [f_equal; simpl; lia|].
    apply (scan_masked_cons b (b' :: rest') _ (S r.1, S r.2)), scan_masked_cons, Hm.
Qed.

Lemma segment_scan_mask l index quote :
  ∃ r, segment_scan (index + length l) l index quote = shift index r ∧
       scan_masked l (separator_mask quote l) r.
Proof.
  remember (length l) as n eqn:Hn. revert l Hn index quote.
  induction n as [n IH] using lt_wf_ind. intros l -> index quote.
  destruct l as [|b rest]; simpl.
  { exists (0, 0). split; [unfold shift; simpl; f_equal; lia|].
    split_and!; simpl; done || (intros; lia). }
  assert (∀ q, ∃ r, segment_scan (index + S (length rest)) rest (S index) q = shift index r ∧
    scan_masked (b :: rest) (false :: separator_mask q rest) r) as Hone.
  { intros q. destruct (IH (length rest) ltac:(simpl; lia) rest eq_refl (S index) q)
      as (r & Hr & Hm).
    exists (S r.1, S r.2). rewrite <- shift_S, <- Hr. split; [f_equal; lia|].
    by apply scan_masked_cons. }
  pose proof (scan_two b rest index (λ rest' q Hlt, IH (length rest') Hlt rest' eq_refl (S (S index)) q))
    as Htwo.
  destruct quote as [q|].
  { destruct (Ascii.eqb q single_quote); [apply Hone|].
    destruct (Ascii.eqb b backslash); [apply Htwo | apply Hone]. }
  destruct (Ascii.eqb b backslash); [apply Htwo|].
  destruct (Ascii.eqb b single_quote || _)%bool; [apply Hone|].
  destruct (Ascii.eqb b ";" || Ascii.eqb b newline)%bool eqn:Es; simpl.
  { assert (Ascii.eqb b "|" = false) as ->
      by (apply orb_true_iff in Es as [->%Ascii.eqb_eq| ->%Ascii.eqb_eq]; done).
    replace (S index) with (index + 1) by lia.
    destruct rest as [|b' rest']; (apply scan_separator; simpl; [done|lia|lia|]);
      intros [|j] Hj; done || lia. }
  destruct (Ascii.eqb b "|") eqn:Ep; simpl.
  { destruct rest as [|b' rest'].
    - replace (S index) with (index + 1) by lia. apply scan_separator; simpl; [done|lia|lia|].
      intros [|j] Hj; done || lia.
    - destruct (Ascii.eqb b' "|").
      + replace (S (S index)) with (index + 2) by lia. apply scan_separator; simpl; [done|lia|lia|].
        intros [|[|j]] Hj; done || lia.
      + replace (S index) with (index + 1) by lia. apply scan_separator; simpl; [done|lia|lia|].
        intros [|j] Hj; done || lia. }
  destruct rest as [|b' rest']; [rewrite andb_false_r; apply (Hone None)|].
  destruct (Ascii.eqb b "&" && Ascii.eqb b' "&")%bool; [|apply Hone].
  replace (S (S index)) with (index + 2) by lia. apply scan_separator; simpl; [done|lia|lia|].
  intros [|[|j]] Hj; done || lia.
Qed.

End mask_facts.

(** [ranges] agree with a separator mask: no byte of a range is marked, and a
    marked byte lies between any two neighbours. *)
Fixpoint lexed (mask : list bool) (ranges : list (nat * nat)) : Prop :=
  match ranges with
  | [] => True
  | (start, stop) :: ranges' =>
      (∀ i, start ≤ i < stop → mask !! i = Some false) ∧
      match ranges' with
      | [] => True
      | (start', _) :: _ => ∃ i, stop ≤ i < start' ∧ mask !! i = Some true
      end ∧
      lexed mask ranges'
  end.

Section lexed_facts.

(** The scan from [position], in terms of the mask of the whole text. *)
Lemma segment_end_mask bs mask position :
  position ≤ length bs → drop position mask = separator_mask None (drop position bs) →
  let '(stop, next) := segment_end bs position in
  (∀ i, position ≤ i < stop → mask !! i = Some false) ∧
  (∀ i, stop ≤ i < next → mask !! i = Some true) ∧
  drop next mask = separator_mask None (drop next bs).
Proof.
  intros Hp Hm. unfold segment_end.
  destruct (segment_scan_mask (drop position bs) position None) as (r & Hr & ? & ? & Hf & Ht & Hd).
  rewrite length_drop in Hr. replace (position + (length bs - position)) with (length bs) in Hr by lia.
  rewrite Hr. unfold shift. rewrite <- Hm in Hf, Ht, Hd. split_and!.
  - intros i Hi. rewrite <- (Hf (i - position)) by lia. rewrite lookup_drop. f_equal. lia.
  - intros i Hi. rewrite <- (Ht (i - position)) by lia. rewrite lookup_drop. f_equal. lia.
  - by rewrite !drop_drop in Hd.
Qed.

Lemma segments_from_lexed fuel bs mask position :
  length bs - position ≤ fuel → position ≤ length bs →
  drop position mask = separator_mask None (drop position bs) →
  lexed mask (segments_from fuel bs position).
Proof.
  revert position; induction fuel as [|fuel IH]; intros position Hf Hp Hm; cbn [segments_from]; [done|].
  destruct (Nat.ltb_spec position (length bs)) as [Hlt|]; [|done].
  pose proof (segment_end_ok bs position Hp) as (H1 & H2 & H3 & H4 & H5 & _).
  pose proof (segment_end_mask bs mask position Hp Hm) as Hend.
  destruct (segment_end bs position) as [stop next]; cbn [fst snd] in *.
  destruct Hend as (Hfalse & Htrue & Hnext).
  pose proof (trim_range_spec bs position stop H1) as Ht.
  destruct (trim_range bs (position, stop)) as [a b].
  destruct Ht as (? & ? & ? & _). cbn [fst snd].
  assert (lexed mask (segments_from fuel bs next)) as Hrest by (apply IH; [lia..|done]).
  assert (tiled bs next (segments_from fuel bs next)) as Htile
    by (apply segments_from_tiled; lia).
  destruct (Nat.ltb a b); [|done]. cbn [lexed]. split_and!; [|  |done].
  - intros i Hi. apply Hfalse. lia.
  - destruct (segments_from fuel bs next) as [|[a' b'] rest]; [done|].
    destruct Htile as (? & ? & ? & _). exists stop.
    assert (stop < next) by (apply H5; lia). split; [lia|]. apply Htrue. lia.
Qed.

End lexed_facts.

(** C26: the restarting iterator refines the one-pass lexer: no byte inside a
    segment is an unquoted, unescaped separator, and one such separator lies
    between any two neighbouring segments. *)
Theorem segments_lex text : lexed (separator_mask None (bytes text)) (segments text).
Proof. apply segments_from_lexed; [lia|lia|by rewrite !drop_0]. Qed.

Lemma segments_char_boundaries_witness :
  Forall (λ r, char_boundary (bytes "a; b") r.1 ∧ char_boundary (bytes "a; b") r.2)
    (segments "a; b").
Proof.
  apply (segments_char_boundaries "a; b"). split.
  - intros c. simpl. intros [= <-]. reflexivity.
  - intros i a b Ha Hb _.
    assert (S i < 4) by exact (lookup_lt_Some _ _ _ Hb).
    destruct i as [|[|[|i]]]; [| | |lia]; simpl in Hb; injection Hb as <-; reflexivity.
Defined.
