(* ===== verification/RuleMatch.v ===== *)
(** * Rule v1 content matching

    crates/telltale-rules/src/lib.rs, the compiled matchers: the regular expression
    of a target with its exclusion, evaluated over a field or over each shell
    segment of it, charging every scan before it runs.  The [regex] crate is the
    [RegexEngine] interface. *)

From S2P Require Import Prelude Ordered Rstr Segment.
From Stdlib Require Import Ascii.

Local Open Scope Z_scope.

(** ** The regex crate *)

Class RegexEngine : Type := {
  Regex : Type;
  RegexError : Type;
  Regex_new : string → result Regex RegexError;
  Regex_as_str : Regex → string;
  Regex_find : Regex → string → option (nat * nat);
  Regex_is_match : Regex → string → bool;
}.

(** Its documented behaviour: [is_match] says whether [find] finds, a match is a
    range of the haystack, and a regex keeps its pattern. *)
Class RegexLaws (R : RegexEngine) : Prop := {
  Regex_is_match_find r text :
    Regex_is_match r text = true ↔ is_Some (Regex_find r text);
  Regex_find_range r text a b :
    Regex_find r text = Some (a, b) → (a ≤ b ≤ length (bytes text))%nat;
  Regex_new_as_str pattern r :
    Regex_new pattern = Ok r → Regex_as_str r = pattern;
}.

Inductive MatchScope := Field | SegmentScope.

#[export] Instance MatchScope_eq_dec : EqDecision MatchScope.
Proof. solve_decision. Defined.

Definition MatchScope_as_str (scope : MatchScope) : string :=
  match scope with Field => "field" | SegmentScope => "segment" end.

Record RuleV1CompatibilityMatcher := {
  rcm_target : string;
  rcm_regex : string;
  rcm_exclusion_regex : option string;
  rcm_scope : MatchScope;
}.

Section matching.
Context `{RegexEngine}.

Record CompiledMatcher := {
  cm_target : string;
  cm_regex : Regex;
  cm_exclusion_regex : option Regex;
  cm_scope : MatchScope;
}.

Section charged.
Context {S E : Type} (charge : Z → Eff S E unit).

Definition find_in (m : CompiledMatcher) (text : string) (overhead : Z)
    : Eff S E (option (nat * nat)) :=
  do! charge (len text + overhead) in
  match Regex_find (cm_regex m) text with
  | None => eret None
  | Some found =>
      match cm_exclusion_regex m with
      | Some exclusion =>
          do! charge (len text + overhead) in
          if Regex_is_match exclusion text then eret None else eret (Some found)
      | None => eret (Some found)
      end
  end.

Fixpoint find_segments (m : CompiledMatcher) (value : string) (ranges : list (nat * nat))
    : Eff S E (option (nat * nat)) :=
  match ranges with
  | [] => eret None
  | segment :: ranges' =>
      let! found := find_in m (slice value segment) 1 in
      match found with
      | Some (a, b) => eret (Some (segment.1 + a, segment.1 + b)%nat)
      | None => find_segments m value ranges'
      end
  end.

Definition find (m : CompiledMatcher) (value : string) : Eff S E (option (nat * nat)) :=
  match cm_scope m with
  | Field => find_in m value 0
  | SegmentScope =>
      do! charge (len value) in
      find_segments m value (segments value)
  end.

(** One field: the first matcher that counts, with its range. *)
Fixpoint field_span (matchers : list CompiledMatcher) (name value : string)
    : Eff S E (option (string * string * (nat * nat))) :=
  match matchers with
  | [] => eret None
  | matcher :: matchers' =>
      do! charge (len name) in
      if negb (str_eqb (cm_target matcher) name) then field_span matchers' name value
      else
        let! found := find matcher value in
        match found with
        | None => field_span matchers' name value
        | Some range => eret (Some (name, value, range))
        end
  end.

Definition try_matching_spans (matchers : list CompiledMatcher)
    (fields : list (string * string)) : Eff S E (list (string * string * (nat * nat))) :=
  efold (λ matches field,
    let! found := field_span matchers field.1 field.2 in
    eret (matches ++ option_list found)) [] fields.

Definition try_matching_fields (matchers : list CompiledMatcher)
    (fields : list (string * string)) : Eff S E (list (string * string)) :=
  let! spans := try_matching_spans matchers fields in
  eret (map fst spans).

End charged.

Definition matches (m : CompiledMatcher) (name value : string) : bool :=
  (str_eqb (cm_target m) name
   && match find free_charge m value tt with
      | (_, Ok (Some _)) => true
      | _ => false
      end)%bool.

Definition matching_fields (matchers : list CompiledMatcher) (fields : list (string * string))
    : list (string * string) :=
  match try_matching_fields free_charge matchers fields tt with
  | (_, Ok l) => l
  | (_, Err e) => match e with end
  end.

Definition compile_content_matcher (rule_matchers : list RuleV1CompatibilityMatcher)
    : result (list CompiledMatcher) RegexError :=
  collect (λ matcher,
    let? regex := Regex_new (rcm_regex matcher) in
    let? exclusion :=
      match rcm_exclusion_regex matcher with
      | Some pattern => result_map Some (Regex_new pattern)
      | None => Ok None
      end in
    Ok {| cm_target := rcm_target matcher; cm_regex := regex;
          cm_exclusion_regex := exclusion; cm_scope := rcm_scope matcher |}) rule_matchers.

(** ** Specification

    The texts a matcher looks at are the field, or its segments; a match counts
    in a text when the selection is found there and the exclusion is not. *)

Definition scope_ranges (m : CompiledMatcher) (value : string) : list (nat * nat) :=
  match cm_scope m with
  | Field => [(0%nat, length (bytes value))]
  | SegmentScope => segments value
  end.

Definition counted (m : CompiledMatcher) (value : string) (range : nat * nat)
    : option (nat * nat) :=
  let text := slice value range in
  match Regex_find (cm_regex m) text with
  | None => None
  | Some (a, b) =>
      if match cm_exclusion_regex m with Some x => Regex_is_match x text | None => false end
      then None else Some (range.1 + a, range.1 + b)%nat
  end.

(** The first range of the scope in which a match counts. *)
Definition find_spec (m : CompiledMatcher) (value : string) : option (nat * nat) :=
  match omap (counted m value) (scope_ranges m value) with
  | found :: _ => Some found
  | [] => None
  end.

Definition span_spec (matchers : list CompiledMatcher) (field : string * string)
    : option (string * string * (nat * nat)) :=
  match omap (λ m, if str_eqb (cm_target m) field.1 then find_spec m field.2 else None)
             matchers with
  | range :: _ => Some (field.1, field.2, range)
  | [] => None
  end.

Section match_facts.

Lemma slice_whole value : slice value (0%nat, length (bytes value)) = value.
Proof.
  unfold slice; simpl. rewrite Nat.sub_0_r, drop_0, firstn_all. apply of_bytes_bytes.
Qed.

Context {S E : Type} (charge : Z → Eff S E unit).

Lemma find_in_computes m value range overhead :
  computes (find_in charge m (slice value range) overhead) (infallible charge)
    (match Regex_find (cm_regex m) (slice value range) with
     | Some ab => if match cm_exclusion_regex m with
                     | Some x => Regex_is_match x (slice value range) | None => false end
                  then None else Some ab
     | None => None
     end).
Proof.
  apply computes_charge. destruct (Regex_find _ _) as [found|]; [|by apply computes_ret].
  destruct (cm_exclusion_regex m) as [x|]; [|by apply computes_ret].
  apply computes_charge. destruct (Regex_is_match x _); by apply computes_ret.
Qed.

Lemma find_segments_computes m value ranges :
  computes (find_segments charge m value ranges) (infallible charge)
    (match omap (counted m value) ranges with found :: _ => Some found | [] => None end).
Proof.
  induction ranges as [|range ranges IH]; cbn [find_segments omap list_omap];
    [by apply computes_ret|].
  eapply computes_bind; [apply find_in_computes|].
  change (omap (counted m value) (range :: ranges)) with
    (match counted m value range with
     | Some y => y :: omap (counted m value) ranges
     | None => omap (counted m value) ranges end).
  unfold counted at 1. destruct (Regex_find _ _) as [[a b]|]; [|done].
  destruct (match cm_exclusion_regex m with Some _ => _ | None => _ end); [done|].
  by apply computes_ret.
Qed.

Lemma find_computes m value :
  computes (find charge m value) (infallible charge) (find_spec m value).
Proof.
  unfold find, find_spec, scope_ranges. destruct (cm_scope m).
  - pose proof (find_in_computes m value (0%nat, length (bytes value)) 0) as Hf.
    rewrite slice_whole in Hf. simpl. unfold counted. rewrite slice_whole.
    destruct (Regex_find _ _) as [[a b]|]; [|done].
    by destruct (match cm_exclusion_regex m with Some _ => _ | None => _ end).
  - apply computes_charge, find_segments_computes.
Qed.

Lemma field_span_computes matchers name value :
  computes (field_span charge matchers name value) (infallible charge)
    (span_spec matchers (name, value)).
Proof.
  induction matchers as [|m matchers IH]; [by apply computes_ret|].
  cbn [field_span]. apply computes_charge. unfold span_spec in *; cbn [omap list_omap fst snd] in *.
  simpl. destruct (str_eqb (cm_target m) name) eqn:Ht; cbn [negb]; [|done].
  eapply computes_bind; [apply find_computes|].
  destruct (find_spec m value); [by apply computes_ret | done].
Qed.

Lemma try_matching_spans_computes matchers fields :
  computes (try_matching_spans charge matchers fields) (infallible charge)
    (omap (span_spec matchers) fields).
Proof.
  unfold try_matching_spans.
  assert (omap (span_spec matchers) fields =
    foldl (λ acc f, acc ++ option_list (span_spec matchers f)) [] fields) as ->.
  { rewrite <- (app_nil_l (omap _ _)). generalize (@nil (string * string * (nat * nat))) as acc.
    induction fields as [|f fields IH]; intros acc; simpl; [apply app_nil_r|].
    rewrite <- IH. destruct (span_spec matchers f); simpl; [|by rewrite app_nil_r].
    by rewrite <- app_assoc. }
  apply efold_computes. intros acc [name value].
  eapply computes_bind; [apply field_span_computes | by apply computes_ret].
Qed.

(** A budget that affords each charge affords the scan. *)
Section afforded.
Context (left : S → Z) (exhausted : E) (charged : ∀ n, affordable left exhausted (charge n) tt).

Lemma find_in_affordable m value range overhead :
  affordable left exhausted (find_in charge m (slice value range) overhead)
    (match Regex_find (cm_regex m) (slice value range) with
     | Some ab => if match cm_exclusion_regex m with
                     | Some x => Regex_is_match x (slice value range) | None => false end
                  then None else Some ab
     | None => None
     end).
Proof.
  eapply affordable_bind; [apply charged|]. destruct (Regex_find _ _) as [found|]; [|apply affordable_ret].
  destruct (cm_exclusion_regex m) as [x|]; [|apply affordable_ret].
  eapply affordable_bind; [apply charged|]. destruct (Regex_is_match x _); apply affordable_ret.
Qed.

Lemma find_segments_affordable m value ranges :
  affordable left exhausted (find_segments charge m value ranges)
    (match omap (counted m value) ranges with found :: _ => Some found | [] => None end).
Proof.
  induction ranges as [|range ranges IH]; cbn [find_segments omap list_omap]; [apply affordable_ret|].
  eapply affordable_bind; [apply find_in_affordable|].
  change (omap (counted m value) (range :: ranges)) with
    (match counted m value range with
     | Some y => y :: omap (counted m value) ranges
     | None => omap (counted m value) ranges end).
  unfold counted at 1. destruct (Regex_find _ _) as [[a b]|]; [|exact IH].
  destruct (match cm_exclusion_regex m with Some _ => _ | None => _ end); [exact IH|]. apply affordable_ret.
Qed.

Lemma find_affordable m value : affordable left exhausted (find charge m value) (find_spec m value).
Proof.
  unfold find, find_spec, scope_ranges. destruct (cm_scope m).
  - pose proof (find_in_affordable m value (0%nat, length (bytes value)) 0) as Hf.
    rewrite slice_whole in Hf. simpl. unfold counted. rewrite slice_whole.
    destruct (Regex_find _ _) as [[a b]|]; [|done].
    by destruct (match cm_exclusion_regex m with Some _ => _ | None => _ end).
  - eapply affordable_bind; [apply charged|apply find_segments_affordable].
Qed.

Lemma field_span_affordable matchers name value :
  affordable left exhausted (field_span charge matchers name value) (span_spec matchers (name, value)).
Proof.
  induction matchers as [|m matchers IH]; [apply affordable_ret|].
  cbn [field_span]. eapply affordable_bind; [apply charged|]. unfold span_spec in *; cbn [omap list_omap fst snd] in *.
  simpl. destruct (str_eqb (cm_target m) name) eqn:Ht; cbn [negb]; [|done].
  eapply affordable_bind; [apply find_affordable|].
  destruct (find_spec m value); [apply affordable_ret|done].
Qed.

Lemma try_matching_fields_affordable matchers fields :
  affordable left exhausted (try_matching_fields charge matchers fields) (map fst (omap (span_spec matchers) fields)).
Proof.
  unfold try_matching_fields. eapply affordable_bind; [|apply affordable_ret]. unfold try_matching_spans.
  rewrite <- (app_nil_l (omap _ _)). generalize (@nil (string * string * (nat * nat))) as acc.
  induction fields as [|[name value] fields IH]; intros acc; [cbn; rewrite app_nil_r; apply affordable_ret|].
  cbn [efold]. eapply affordable_bind; [eapply affordable_bind; [apply field_span_affordable|apply affordable_ret]|].
  specialize (IH (acc ++ option_list (span_spec matchers (name, value)))).
  rewrite <- app_assoc in IH.
  change (omap (span_spec matchers) ((name, value) :: fields)) with
    (match span_spec matchers (name, value) with
     | Some y => y :: omap (span_spec matchers) fields
     | None => omap (span_spec matchers) fields end).
  cbn [fst snd] in *. by destruct (span_spec matchers (name, value)).
Qed.

End afforded.

End match_facts.
End matching.
Arguments CompiledMatcher {_}.

(** ** Correctness *)

Section scope_facts.
Context `{RegexEngine}.

Lemma tiled_bounds bs position ranges range :
  tiled bs position ranges → range ∈ ranges →
  (position ≤ range.1 < range.2 ∧ range.2 ≤ length bs)%nat.
Proof.
  revert position. induction ranges as [|[a b] ranges IH]; intros position; simpl; [set_solver|].
  intros (? & ? & ? & _ & _ & _ & _ & Ht) [->|Hin]%elem_of_cons; simpl; [lia|].
  pose proof (IH _ Ht Hin). lia.
Qed.

Lemma segments_tiled text : tiled (bytes text) 0 (segments text).
Proof. apply segments_from_tiled; lia. Qed.

Lemma scope_ranges_bounds m value range :
  range ∈ scope_ranges m value → (range.1 ≤ range.2 ≤ length (bytes value))%nat.
Proof.
  unfold scope_ranges. destruct (cm_scope m).
  - rewrite list_elem_of_singleton. intros ->. simpl. lia.
  - intros Hin. pose proof (tiled_bounds _ _ _ _ (segments_tiled value) Hin). lia.
Qed.

Lemma slice_length value range :
  (range.1 ≤ range.2 ≤ length (bytes value))%nat →
  length (bytes (slice value range)) = (range.2 - range.1)%nat.
Proof. intros ?. unfold slice. rewrite bytes_of_bytes, length_take, length_drop. lia. Qed.

(** A match that counts at [ab], in the whole text's coordinates. *)
Definition counts_at (m : CompiledMatcher) (value : string) (range ab : nat * nat) : Prop :=
  (range.1 ≤ ab.1 ≤ ab.2 ∧ ab.2 ≤ range.2)%nat ∧
  Regex_find (cm_regex m) (slice value range) = Some (ab.1 - range.1, ab.2 - range.1)%nat ∧
  ∀ x, cm_exclusion_regex m = Some x → Regex_find x (slice value range) = None.

Context `{!RegexLaws _}.

Lemma counted_spec m value range ab :
  (range.1 ≤ range.2 ≤ length (bytes value))%nat →
  counted m value range = Some ab ↔ counts_at m value range ab.
Proof.
  intros Hb. unfold counted, counts_at.
  assert (∀ x, Regex_is_match x (slice value range) = false ↔
               Regex_find x (slice value range) = None) as Hx.
  { intros x. rewrite eq_None_not_Some, <- Regex_is_match_find. by destruct (Regex_is_match x _). }
  destruct (Regex_find (cm_regex m) _) as [[a b]|] eqn:Hf; [|naive_solver].
  apply Regex_find_range in Hf. rewrite slice_length in Hf by done.
  destruct ab as [a' b']; simpl in *.
  destruct (cm_exclusion_regex m) as [x|]; [destruct (Regex_is_match x _) eqn:Hm|].
  - split; [done|]. intros (_ & _ & Hn). specialize (Hn x eq_refl).
    apply Hx in Hn. congruence.
  - split; [intros [= <- <-]|intros (? & [= Ha Hb'] & _); do 2 f_equal; lia].
    split_and!; try lia; [do 2 f_equal; lia|]. intros x' [= <-]. by apply Hx.
  - split; [intros [= <- <-]|intros (? & [= Ha Hb'] & _); do 2 f_equal; lia].
    split_and!; try lia; [do 2 f_equal; lia|]. done.
Qed.

Lemma omap_first {A B} (f : A → option B) l :
  match omap f l with
  | b :: _ => ∃ pre a post, l = pre ++ a :: post ∧ f a = Some b ∧ Forall (λ x, f x = None) pre
  | [] => Forall (λ x, f x = None) l
  end.
Proof.
  induction l as [|a l IH]; simpl; [constructor|].
  destruct (f a) as [b|] eqn:Ha; [by exists [], a, l|].
  change (list_omap A B f l) with (omap f l). destruct (omap f l); [by constructor|].
  destruct IH as (pre & a' & post & -> & ? & ?). exists (a :: pre), a', post.
  split_and!; [done..|by constructor].
Qed.

End scope_facts.

(** Whatever the charge does, a completed [find] returns the match that counts
    in the first text of the scope that has one: inside that text, where the
    selection is found and the exclusion is not; and nothing exactly when no text
    of the scope has such a match.  With a charge that cannot fail it completes. *)
Theorem find_correct `{RegexLaws} {S E} (charge : Z → Eff S E unit) m value :
  (∀ s s' found, find charge m value s = (s', Ok found) →
     match found with
     | Some ab => ∃ pre range post, scope_ranges m value = pre ++ range :: post ∧
         counts_at m value range ab ∧ ∀ r x, r ∈ pre → ¬ counts_at m value r x
     | None => ∀ r x, r ∈ scope_ranges m value → ¬ counts_at m value r x
     end) ∧
  (infallible charge → ∀ s, ∃ s' found, find charge m value s = (s', Ok found)).
Proof.
  destruct (find_computes charge m value) as [Hy Hs]. split.
  - intros s s' found Hf. apply Hy in Hf as <-. unfold find_spec.
    pose proof (scope_ranges_bounds m value) as Hb.
    pose proof (omap_first (counted m value) (scope_ranges m value)) as Ho.
    assert (∀ l, (∀ r, r ∈ l → r ∈ scope_ranges m value) →
      Forall (λ x, counted m value x = None) l → ∀ r x, r ∈ l → ¬ counts_at m value r x) as Hnone.
    { intros l Hl Hall r x Hr Hc%counted_spec; [|by apply Hb, Hl].
      rewrite Forall_forall in Hall. rewrite (Hall r Hr) in Hc. done. }
    destruct (omap _ _) as [|ab ?]; [by apply Hnone|].
    destruct Ho as (pre & range & post & Heq & Hc & Hall). exists pre, range, post.
    split_and!; [done| |apply Hnone; [rewrite Heq; set_solver|done]].
    apply counted_spec; [|done]. apply Hb. rewrite Heq. set_solver.
  - intros Hf s. destruct (Hs Hf s) as (s' & a & ? & _). eauto.
Qed.

(** A completed scan lists the fields that match, in field order, each once
    with the range of its first matcher that counts, for every charge; and with
    a charge that cannot fail it completes. *)
Theorem try_matching_spans_correct `{RegexEngine} {S E} (charge : Z → Eff S E unit)
    matchers fields :
  yields (try_matching_spans charge matchers fields) (eq (omap (span_spec matchers) fields)) ∧
  (infallible charge →
   succeeds (try_matching_spans charge matchers fields) (eq (omap (span_spec matchers) fields))).
Proof. apply try_matching_spans_computes. Qed.

(** ** Work *)

(** A charge that only counts. *)
Definition count_charge (n : Z) : Eff Z Empty_set unit := λ s, (s + n, Ok tt).

Section work.
Context `{RegexEngine}.

Definition costs {A} (c : Eff Z Empty_set A) (bound : Z) : Prop :=
  ∀ s, (c s).1 ≤ s + bound.

Lemma costs_ret {A} (a : A) bound : 0 ≤ bound → costs (eret a) bound.
Proof. intros ? s. simpl. lia. Qed.

Lemma costs_bind {A B} (c : Eff Z Empty_set A) (k : A → Eff Z Empty_set B) n1 n2 :
  costs c n1 → (∀ a, costs (k a) n2) → costs (ebind c k) (n1 + n2).
Proof.
  intros Hc Hk s. specialize (Hc s). unfold ebind.
  destruct (c s) as [s1 [a|[]]]; simpl in *. specialize (Hk a s1). lia.
Qed.

Lemma costs_weaken {A} (c : Eff Z Empty_set A) n1 n2 : costs c n1 → n1 ≤ n2 → costs c n2.
Proof. intros Hc ? s. specialize (Hc s). lia. Qed.

Lemma costs_charge n : costs (count_charge n) n.
Proof. intros s. simpl. lia. Qed.

Lemma costs_efold {A B} (f : B → A → Eff Z Empty_set B) (g : A → Z) acc l :
  (∀ b a, costs (f b a) (g a)) → costs (efold f acc l) (foldr (λ a n, g a + n) 0 l).
Proof.
  intros Hf. revert acc; induction l as [|a l IH]; intros acc; simpl; [by apply costs_ret|].
  by apply costs_bind.
Qed.

Lemma find_in_costs m text overhead :
  0 ≤ overhead → costs (find_in count_charge m text overhead) (2 * (len text + overhead)).
Proof.
  intros Ho. pose proof (len_nonneg text).
  replace (2 * (len text + overhead)) with ((len text + overhead) + (len text + overhead)) by lia.
  apply costs_bind; [apply costs_charge|]. intros _.
  destruct (Regex_find _ _); [|apply costs_ret; lia].
  destruct (cm_exclusion_regex m); [|apply costs_ret; lia].
  eapply costs_weaken; [eapply (costs_bind _ _ _ 0); [apply costs_charge|]|lia].
  intros _. destruct (Regex_is_match _ _); by apply costs_ret.
Qed.

Lemma find_segments_costs m value position ranges :
  tiled (bytes value) position ranges → (position ≤ length (bytes value))%nat →
  costs (find_segments count_charge m value ranges)
    (4 * (Z.of_nat (length (bytes value)) - Z.of_nat position)).
Proof.
  revert position; induction ranges as [|[a b] ranges IH]; intros position Ht Hp;
    cbn [find_segments]; [apply costs_ret; lia|].
  destruct Ht as (? & ? & ? & _ & _ & _ & _ & Ht).
  assert (len (slice value (a, b)) = Z.of_nat b - Z.of_nat a) as Hlen.
  { rewrite len_bytes, slice_length by (simpl; lia). simpl. lia. }
  eapply costs_weaken; [eapply costs_bind; [by apply find_in_costs|]|].
  - intros [[x y]|]; [apply (costs_ret _ (4 * (Z.of_nat (length (bytes value)) - Z.of_nat b))); lia|].
    by apply IH.
  - rewrite Hlen. lia.
Qed.

Lemma find_costs m value : costs (find count_charge m value) (5 * len value).
Proof.
  unfold find. destruct (cm_scope m).
  - eapply costs_weaken; [by apply find_in_costs|]. pose proof (len_nonneg value). lia.
  - replace (5 * len value) with (len value + 4 * len value) by lia.
    apply costs_bind; [apply costs_charge|]. intros _.
    eapply costs_weaken; [eapply find_segments_costs; [apply segments_tiled|lia]|].
    rewrite len_bytes. lia.
Qed.

Lemma field_span_costs matchers name value :
  costs (field_span count_charge matchers name value)
    (Z.of_nat (length matchers) * (len name + 5 * len value)).
Proof.
  pose proof (len_nonneg name). pose proof (len_nonneg value).
  induction matchers as [|m matchers IH]; cbn [field_span length]; [apply costs_ret; lia|].
  set (rest := Z.of_nat (length matchers) * (len name + 5 * len value)) in *.
  eapply costs_weaken; [eapply (costs_bind _ _ _ (5 * len value + rest)); [apply costs_charge|]|lia].
  intros _. destruct (str_eqb _ _); cbn [negb]; [|eapply costs_weaken; [apply IH|lia]].
  apply costs_bind; [apply find_costs|]. intros [r|]; [apply costs_ret; lia | apply IH].
Qed.

End work.

(** The charged work of a scan is linear in the text: over all fields it is
    at most the number of matchers times the name length plus five times the
    value length, in segment scope too. *)
Theorem try_matching_spans_work `{RegexEngine} matchers fields start :
  (try_matching_spans count_charge matchers fields start).1 ≤
  start + foldr (λ f n, Z.of_nat (length matchers) * (len f.1 + 5 * len f.2) + n) 0 fields.
Proof.
  apply (costs_efold _ (λ f, Z.of_nat (length matchers) * (len f.1 + 5 * len f.2))).
  intros acc f. eapply costs_weaken; [eapply (costs_bind _ _ _ 0); [apply field_span_costs|]|lia].
  intros r. by apply costs_ret.
Qed.

(** ** A literal-substring engine

    Patterns are plain substrings; it has the documented behaviour. *)

Fixpoint find_literal (needle : list ascii) (hay : list ascii) (index : nat) : option (nat * nat) :=
  match strip_prefix_b needle hay with
  | Some _ => Some (index, index + length needle)%nat
  | None => match hay with [] => None | _ :: rest => find_literal needle rest (S index) end
  end.

Definition literal_engine : RegexEngine := {|
  Regex := string;
  RegexError := unit;
  Regex_new := λ p, if is_empty p then Err tt else Ok p;
  Regex_as_str := λ r, r;
  Regex_find := λ r text, find_literal (bytes r) (bytes text) 0;
  Regex_is_match := λ r text, if find_literal (bytes r) (bytes text) 0 then true else false;
|}.

Lemma strip_prefix_b_length p l rest :
  strip_prefix_b p l = Some rest → length l = (length p + length rest)%nat.
Proof.
  revert l; induction p as [|a p IH]; intros l; simpl; [by intros [= ->]|].
  destruct l as [|b l]; [done|]. destruct (Ascii.eqb a b); [|done].
  intros ?%IH. simpl. lia.
Qed.

Lemma find_literal_range needle hay index a b :
  find_literal needle hay index = Some (a, b) →
  (index ≤ a ≤ b)%nat ∧ (b ≤ index + length hay)%nat.
Proof.
  revert index; induction hay as [|c hay IH]; intros index; simpl.
  - destruct (strip_prefix_b needle []) eqn:Hs; [|done]. intros [= <- <-].
    apply strip_prefix_b_length in Hs. simpl in Hs. lia.
  - destruct (strip_prefix_b needle (c :: hay)) eqn:Hs.
    + intros [= <- <-]. apply strip_prefix_b_length in Hs. simpl in Hs. lia.
    + intros ?%IH. lia.
Qed.

Lemma literal_laws : RegexLaws literal_engine.
Proof.
  split; simpl.
  - intros r text. destruct (find_literal _ _ _); split; (done || (by eexists) || by intros [? ?]).
  - intros r text a b Hf%find_literal_range. lia.
  - intros p r. destruct (is_empty p); [done|]. by intros [= ->].
Qed.

Definition sample_matcher : @CompiledMatcher literal_engine :=
  @Build_CompiledMatcher literal_engine "command" "curl" (Some "localhost") SegmentScope.

Lemma find_correct_witness :
  ∃ pre range post,
    @scope_ranges literal_engine sample_matcher "curl localhost; curl evil" = pre ++ range :: post ∧
    @counts_at literal_engine sample_matcher "curl localhost; curl evil" range (16, 20)%nat ∧
    ∀ r x, r ∈ pre → ¬ @counts_at literal_engine sample_matcher "curl localhost; curl evil" r x.
Proof.
  exact (proj1 (@find_correct literal_engine literal_laws _ _ (@free_charge) sample_matcher
    "curl localhost; curl evil") tt tt (Some (16, 20)%nat) eq_refl).
Defined.

Lemma free_charge_infallible : infallible free_charge.
Proof. intros n s. by exists s. Qed.

Lemma try_matching_spans_correct_witness :
  infallible free_charge ∧
  succeeds (@try_matching_spans literal_engine _ _ free_charge [sample_matcher]
              [("command", "curl localhost"); ("command", "curl evil")])
    (eq [("command", "curl evil", (0, 4)%nat)]).
Proof.
  split; [apply free_charge_infallible|].
  apply (proj2 (@try_matching_spans_correct literal_engine _ _ free_charge [sample_matcher]
    [("command", "curl localhost"); ("command", "curl evil")])).
  apply free_charge_infallible.
Defined.
