(* ===== verification/Rules.v ===== *)
(** * Rule v1 rule sets

    crates/telltale-rules/src/lib.rs: merging rule documents, materializing their
    defaults, operator overrides and policy, compilation into matchers and the
    effective export, and the evaluation of matched rules into risk
    contributions.  YAML parsing, the [regex] crate, redaction and SHA-256 are
    parameters. *)

From S2P Require Import Prelude Ordered Rstr Scoring RuleMatch.

Local Open Scope Z_scope.

Definition SUPPORTED_RULE_TARGETS : list string :=
  ["arguments"; "assistant_context"; "command"; "file_path"; "tool_name"; "tool_result";
   "url"; "user_context"; "written_path"].
Definition SUPPORTED_DETECTION_CONDITIONS : list string := ["selection"].
Definition SEGMENT_SCOPE_TARGETS : list string := ["arguments"; "command"; "url"].

Definition VALID_DETECTION_SEVERITIES : list string :=
  ["informational"; "low"; "medium"; "high"; "critical"].
Definition VALID_DETECTION_CLASSES : list string :=
  ["security_detection"; "policy_violation"; "threat_hunting"; "compliance_observation";
   "operational_health"; "baseline_deviation"].
Definition VALID_SIGNAL_TYPES : list string :=
  ["atomic"; "chain"; "correlation"; "baseline_deviation"].
Definition VALID_ANALYTIC_INTENTS : list string :=
  ["alert"; "hunt"; "enrich"; "baseline"; "audit"].

Definition MAX_MODIFIER_LINK_CALLS : Z := 10.
Definition MAX_MODIFIER_LINK_MINUTES : Z := 1440.

(** ** Rule documents *)

Record RuleDefaults := { rd_case_insensitive : bool; rd_enabled : bool }.

Record DetectionDefinition := {
  dd_selection : list (string * string);
  dd_exclude : list (string * string);
  dd_condition : string;
  dd_scope : MatchScope;
}.

Record RuleDefinition := {
  rule_id : string;
  rule_title : option string;
  rule_description : option string;
  rule_status : option string;
  rule_author : option string;
  rule_references : list string;
  rule_falsepositives : list string;
  rule_level : option string;
  rule_category : string;
  rule_detection_class : string;
  rule_signal_type : string;
  rule_analytic_intent : string;
  rule_atlas_tags : list string;
  rule_severity : string;
  rule_score : Z;
  rule_targets : list string;
  rule_regex : option string;
  rule_detection : option DetectionDefinition;
  rule_tags : list string;
  rule_explanation : string;
  rule_enabled : bool;
}.

Inductive ModifierLinkOrder := DeclaredOrder | AnyOrder.

Definition ModifierLinkOrder_as_str (order : ModifierLinkOrder) : string :=
  match order with DeclaredOrder => "declared" | AnyOrder => "any" end.

Record ModifierLink := {
  link_calls : Z;
  link_order : ModifierLinkOrder;
  link_minutes : option Z;
}.

Record ModifierDefinition := {
  mod_id : string;
  mod_score : Z;
  mod_detection_class : string;
  mod_signal_type : string;
  mod_analytic_intent : string;
  mod_atlas_tags : list string;
  mod_when_all_categories : list string;
  mod_when_all_rule_ids : list string;
  mod_link : option ModifierLink;
  mod_falsepositives : list string;
  mod_explanation : string;
  mod_enabled : bool;
}.

Record RuleSet := {
  rs_version : Z;
  rs_description : string;
  rs_defaults : RuleDefaults;
  rs_rules : list RuleDefinition;
  rs_modifiers : list ModifierDefinition;
}.

(** ** Effective content *)

Record RuleV1CompatibilityRule := {
  rcr_id : string;
  rcr_title : option string;
  rcr_description : option string;
  rcr_category : string;
  rcr_detection_class : string;
  rcr_signal_type : string;
  rcr_analytic_intent : string;
  rcr_atlas_tags : list string;
  rcr_severity : string;
  rcr_score : Z;
  rcr_tags : list string;
  rcr_explanation : string;
  rcr_falsepositives : list string;
  rcr_matchers : list RuleV1CompatibilityMatcher;
}.

Record RuleV1CompatibilityModifier := {
  rmo_id : string;
  rmo_score : Z;
  rmo_detection_class : string;
  rmo_signal_type : string;
  rmo_analytic_intent : string;
  rmo_atlas_tags : list string;
  rmo_when_all_categories : list string;
  rmo_when_all_rule_ids : list string;
  rmo_link : option ModifierLink;
  rmo_falsepositives : list string;
  rmo_explanation : string;
}.

Record RuleV1CompatibilityExport := {
  re_policy_name : option string;
  re_rules : list RuleV1CompatibilityRule;
  re_modifiers : list RuleV1CompatibilityModifier;
}.

Record Evidence := {
  ev_field : string;
  ev_redacted_value : string;
  ev_hash : option string;
  ev_rule_id : option string;
}.

Record MatchResult := {
  mr_rule_ids : list string;
  mr_categories : list string;
  mr_detection_classes : list string;
  mr_signal_types : list string;
  mr_analytic_intents : list string;
  mr_atlas_tags : list string;
  mr_tags : list string;
  mr_score : Z;
  mr_contributions : list RiskContribution;
  mr_evidence : list Evidence;
}.

(** ** Policy and overrides *)

Record RulePolicy := {
  rp_version : option Z;
  rp_description : option string;
  rp_name : option string;
  rp_enabled_categories : list string;
  rp_disabled_categories : list string;
  rp_enabled_rules : list string;
  rp_disabled_rules : list string;
}.

Record RuleOverrideEntry := {
  roe_rule_id : string;
  roe_reason : string;
  roe_enabled : option bool;
  roe_score : option Z;
}.

Record RuleOverrideDocument := {
  rod_version : Z;
  rod_description : option string;
  rod_overrides : list RuleOverrideEntry;
}.

(** The source's formatted messages, by what they report. *)
Inductive RuleError (RE YE : Type) :=
| ParseError (e : YE)
| UnsupportedVersion (version : Z)
| DuplicateRuleId (id : string)
| UnsupportedOverrideVersion (version : Z)
| UnknownOverrideRule (id : string)
| EmptyOverrideRuleId
| EmptyOverrideReason (id : string)
| EmptyOverride (id : string)
| NotCanonical (kind id : string)
| LinkWithoutSteps (id : string)
| LinkCallsOutOfRange (id : string)
| LinkMinutesOutOfRange (id : string)
| RegexWithoutTargets (id : string)
| UnsupportedCondition (id condition : string)
| SegmentTarget (id target : string)
| ExcludeWithoutSelection (id target : string)
| NoMatchers (id : string)
| UnsupportedAtlasTag (id tag : string)
| UnsupportedValue (id field value : string)
| UnsupportedTarget (id target : string)
| InvalidRegex (id : string) (e : RE).
Arguments ParseError {_ _}. Arguments UnsupportedVersion {_ _}.
Arguments DuplicateRuleId {_ _}. Arguments UnsupportedOverrideVersion {_ _}.
Arguments UnknownOverrideRule {_ _}. Arguments EmptyOverrideRuleId {_ _}.
Arguments EmptyOverrideReason {_ _}. Arguments EmptyOverride {_ _}.
Arguments NotCanonical {_ _}. Arguments LinkWithoutSteps {_ _}.
Arguments LinkCallsOutOfRange {_ _}. Arguments LinkMinutesOutOfRange {_ _}.
Arguments RegexWithoutTargets {_ _}. Arguments UnsupportedCondition {_ _}.
Arguments SegmentTarget {_ _}. Arguments ExcludeWithoutSelection {_ _}.
Arguments NoMatchers {_ _}. Arguments UnsupportedAtlasTag {_ _}.
Arguments UnsupportedValue {_ _}. Arguments UnsupportedTarget {_ _}.
Arguments InvalidRegex {_ _}.

Definition case_insensitive_pattern (pattern : string) : string :=
  "(?i:" +:+ pattern +:+ ")".

(** [values_mut] over a map. *)
Definition map_values {K V} (f : V → V) (m : list (K * V)) : list (K * V) :=
  map (λ kv, (kv.1, f kv.2)) m.

Definition apply_rule_defaults (rule : RuleDefinition) (defaults : RuleDefaults)
    : RuleDefinition :=
  let ci (pattern : string) :=
    if rd_case_insensitive defaults then case_insensitive_pattern pattern else pattern in
  {| rule_id := rule_id rule; rule_title := rule_title rule;
     rule_description := rule_description rule; rule_status := rule_status rule;
     rule_author := rule_author rule; rule_references := rule_references rule;
     rule_falsepositives := rule_falsepositives rule; rule_level := rule_level rule;
     rule_category := rule_category rule; rule_detection_class := rule_detection_class rule;
     rule_signal_type := rule_signal_type rule;
     rule_analytic_intent := rule_analytic_intent rule;
     rule_atlas_tags := rule_atlas_tags rule; rule_severity := rule_severity rule;
     rule_score := rule_score rule; rule_targets := rule_targets rule;
     rule_regex := option_map ci (rule_regex rule);
     rule_detection := option_map (λ d,
       {| dd_selection := map_values ci (dd_selection d);
          dd_exclude := map_values ci (dd_exclude d);
          dd_condition := dd_condition d; dd_scope := dd_scope d |}) (rule_detection rule);
     rule_tags := rule_tags rule; rule_explanation := rule_explanation rule;
     rule_enabled := if rd_enabled defaults then rule_enabled rule else false |}.

Definition apply_modifier_defaults (modifier : ModifierDefinition) (defaults : RuleDefaults)
    : ModifierDefinition :=
  {| mod_id := mod_id modifier; mod_score := mod_score modifier;
     mod_detection_class := mod_detection_class modifier;
     mod_signal_type := mod_signal_type modifier;
     mod_analytic_intent := mod_analytic_intent modifier;
     mod_atlas_tags := mod_atlas_tags modifier;
     mod_when_all_categories := mod_when_all_categories modifier;
     mod_when_all_rule_ids := mod_when_all_rule_ids modifier;
     mod_link := mod_link modifier; mod_falsepositives := mod_falsepositives modifier;
     mod_explanation := mod_explanation modifier;
     mod_enabled := if rd_enabled defaults then mod_enabled modifier else false |}.

Definition policy_allows_rule (rule : RuleDefinition) (policy : option RulePolicy) : bool :=
  match policy with
  | None => true
  | Some policy =>
      if (negb (bool_decide (rp_enabled_categories policy = []))
          && negb (str_in (rule_category rule) (rp_enabled_categories policy)))%bool then false
      else if str_in (rule_category rule) (rp_disabled_categories policy) then false
      else if (negb (bool_decide (rp_enabled_rules policy = []))
               && negb (str_in (rule_id rule) (rp_enabled_rules policy)))%bool then false
      else negb (str_in (rule_id rule) (rp_disabled_rules policy))
  end.

Definition policy_allows_modifier (modifier : ModifierDefinition) (policy : option RulePolicy)
    : bool :=
  match policy with
  | None => true
  | Some policy =>
      if (negb (bool_decide (rp_enabled_rules policy = []))
          && negb (str_in (mod_id modifier) (rp_enabled_rules policy)))%bool then false
      else negb (str_in (mod_id modifier) (rp_disabled_rules policy))
  end.

Section rule_sets.
Context `{RegexEngine} {YamlError : Type}.

Notation RuleError := (RuleError RegexError YamlError).

Record CompiledRule := {
  cr_definition : RuleDefinition;
  cr_matchers : list CompiledMatcher;
}.

Record CompiledRuleSet := {
  crs_rules : list CompiledRule;
  crs_content : RuleV1CompatibilityExport;
}.

Definition validate_version (rule_set : RuleSet) : result unit RuleError :=
  if negb (rs_version rule_set =? 1) then Err (UnsupportedVersion (rs_version rule_set))
  else Ok tt.

Record MergeState := {
  ms_ids : list string;
  ms_descriptions : list string;
  ms_rules : list RuleDefinition;
  ms_modifiers : list ModifierDefinition;
}.

Definition merge_rule (defaults : RuleDefaults) (st : MergeState) (rule : RuleDefinition)
    : result MergeState RuleError :=
  if bs_contains (rule_id rule) (ms_ids st) then Err (DuplicateRuleId (rule_id rule))
  else Ok {| ms_ids := bs_insert (rule_id rule) (ms_ids st);
             ms_descriptions := ms_descriptions st;
             ms_rules := ms_rules st ++ [apply_rule_defaults rule defaults];
             ms_modifiers := ms_modifiers st |}.

Definition merge_modifier (defaults : RuleDefaults) (st : MergeState)
    (modifier : ModifierDefinition) : result MergeState RuleError :=
  if bs_contains (mod_id modifier) (ms_ids st) then Err (DuplicateRuleId (mod_id modifier))
  else Ok {| ms_ids := bs_insert (mod_id modifier) (ms_ids st);
             ms_descriptions := ms_descriptions st;
             ms_rules := ms_rules st;
             ms_modifiers := ms_modifiers st ++ [apply_modifier_defaults modifier defaults] |}.

Definition merge_document (st : MergeState) (rule_set : RuleSet) : result MergeState RuleError :=
  let document_defaults := rs_defaults rule_set in
  let st := {| ms_ids := ms_ids st;
               ms_descriptions := ms_descriptions st ++ [rs_description rule_set];
               ms_rules := ms_rules st; ms_modifiers := ms_modifiers st |} in
  let? st := try_fold (merge_rule document_defaults) st (rs_rules rule_set) in
  try_fold (merge_modifier document_defaults) st (rs_modifiers rule_set).

Definition merge_rule_sets (rule_sets : list RuleSet) : result RuleSet RuleError :=
  check? collect validate_version rule_sets in
  let? st := try_fold merge_document
    {| ms_ids := []; ms_descriptions := []; ms_rules := []; ms_modifiers := [] |} rule_sets in
  Ok {| rs_version := 1;
        rs_description := join "; " (ms_descriptions st);
        rs_defaults := {| rd_case_insensitive := false; rd_enabled := true |};
        rs_rules := ms_rules st;
        rs_modifiers := ms_modifiers st |}.

(** ** Overrides *)

Definition validate_rule_override_entry (entry : RuleOverrideEntry) : result unit RuleError :=
  if is_empty (trim (roe_rule_id entry)) then Err EmptyOverrideRuleId
  else if is_empty (trim (roe_reason entry)) then Err (EmptyOverrideReason (roe_rule_id entry))
  else if (negb (bool_decide (is_Some (roe_enabled entry)))
           && negb (bool_decide (is_Some (roe_score entry))))%bool
  then Err (EmptyOverride (roe_rule_id entry))
  else Ok tt.

(** The two assignments of an override to its rule. *)
Definition override_rule (entry : RuleOverrideEntry) (rule : RuleDefinition) : RuleDefinition :=
  {| rule_id := rule_id rule; rule_title := rule_title rule;
     rule_description := rule_description rule; rule_status := rule_status rule;
     rule_author := rule_author rule; rule_references := rule_references rule;
     rule_falsepositives := rule_falsepositives rule; rule_level := rule_level rule;
     rule_category := rule_category rule; rule_detection_class := rule_detection_class rule;
     rule_signal_type := rule_signal_type rule;
     rule_analytic_intent := rule_analytic_intent rule;
     rule_atlas_tags := rule_atlas_tags rule; rule_severity := rule_severity rule;
     rule_score := default (rule_score rule) (roe_score entry);
     rule_targets := rule_targets rule; rule_regex := rule_regex rule;
     rule_detection := rule_detection rule; rule_tags := rule_tags rule;
     rule_explanation := rule_explanation rule;
     rule_enabled := default (rule_enabled rule) (roe_enabled entry) |}.

(** [rule_indexes]: a later rule with the same id takes the index. *)
Definition rule_indexes (rules : list RuleDefinition) : list (string * nat) :=
  foldl (λ m ir, bm_insert (rule_id ir.2) ir.1 m) [] (imap pair rules).

Definition set_rules (rule_set : RuleSet) (rules : list RuleDefinition) : RuleSet :=
  {| rs_version := rs_version rule_set; rs_description := rs_description rule_set;
     rs_defaults := rs_defaults rule_set; rs_rules := rules;
     rs_modifiers := rs_modifiers rule_set |}.

Definition apply_override (indexes : list (string * nat)) (entry : RuleOverrideEntry)
    : Eff RuleSet RuleError unit := λ rule_set,
  match validate_rule_override_entry entry with
  | Err e => (rule_set, Err e)
  | Ok _ =>
      match bm_get (roe_rule_id entry) indexes with
      | None => (rule_set, Err (UnknownOverrideRule (roe_rule_id entry)))
      | Some index =>
          (set_rules rule_set (alter (override_rule entry) index (rs_rules rule_set)), Ok tt)
      end
  end.

(** Overrides mutate the rule set in place: an error keeps the earlier ones. *)
Definition apply_rule_override_document (document : RuleOverrideDocument)
    : Eff RuleSet RuleError unit := λ rule_set,
  if negb (rod_version document =? 1)
  then (rule_set, Err (UnsupportedOverrideVersion (rod_version document)))
  else
    let indexes := rule_indexes (rs_rules rule_set) in
    efold (λ _ entry, apply_override indexes entry) tt (rod_overrides document) rule_set.

(** ** Compilation *)

Definition validate_canonical_rule_id (id kind : string) : result unit RuleError :=
  if negb (is_canonical_contribution_id id) then Err (NotCanonical kind id) else Ok tt.

Definition validate_rule_ids (rule_set : RuleSet) : result unit RuleError :=
  check? collect (λ rule, validate_canonical_rule_id (rule_id rule) "rule")
           (rs_rules rule_set) in
  check? collect (λ modifier,
    check? validate_canonical_rule_id (mod_id modifier) "modifier" in
    collect (λ rid, validate_canonical_rule_id rid "modifier rule reference")
      (mod_when_all_rule_ids modifier)) (rs_modifiers rule_set) in
  Ok tt.

Definition validate_modifier_link (modifier : ModifierDefinition) : result unit RuleError :=
  match mod_link modifier with
  | None => Ok tt
  | Some link =>
      if (bool_decide (mod_when_all_categories modifier = [])
          && bool_decide (mod_when_all_rule_ids modifier = []))%bool
      then Err (LinkWithoutSteps (mod_id modifier))
      else if MAX_MODIFIER_LINK_CALLS <? link_calls link
      then Err (LinkCallsOutOfRange (mod_id modifier))
      else if match link_minutes link with
              | Some minutes =>
                  ((minutes =? 0) || (MAX_MODIFIER_LINK_MINUTES <? minutes))%bool
              | None => false
              end
      then Err (LinkMinutesOutOfRange (mod_id modifier))
      else Ok tt
  end.

Definition validate_metadata_value (id field value : string) (allowed : list string)
    : result unit RuleError :=
  if str_in value allowed then Ok tt else Err (UnsupportedValue id field value).

Definition validate_rule_metadata (id detection_class signal_type analytic_intent : string)
    (atlas_tags : list string) : result unit RuleError :=
  check? validate_metadata_value id "detection_class" detection_class VALID_DETECTION_CLASSES in
  check? validate_metadata_value id "signal_type" signal_type VALID_SIGNAL_TYPES in
  check? validate_metadata_value id "analytic_intent" analytic_intent VALID_ANALYTIC_INTENTS in
  check? collect (λ tag, if negb (starts_with tag "atlas:")
                         then Err (UnsupportedAtlasTag id tag) else Ok tt) atlas_tags in
  Ok tt.

Definition validate_target (id target : string) : result unit RuleError :=
  if str_in target SUPPORTED_RULE_TARGETS then Ok tt else Err (UnsupportedTarget id target).

Definition compile_regex (pattern : string) (case_insensitive : bool) (id : string)
    : result Regex RuleError :=
  let pattern := if case_insensitive then case_insensitive_pattern pattern else pattern in
  map_err (InvalidRegex id) (Regex_new pattern).

(** The [regex] half of a rule, and the [detection] half. *)
Definition compile_regex_matchers (definition : RuleDefinition) (case_insensitive : bool)
    : result (list CompiledMatcher) RuleError :=
  match rule_regex definition with
  | None => Ok []
  | Some regex =>
      if bool_decide (rule_targets definition = [])
      then Err (RegexWithoutTargets (rule_id definition))
      else
        collect (λ target,
          check? validate_target (rule_id definition) target in
          let? compiled := compile_regex regex case_insensitive (rule_id definition) in
          Ok {| cm_target := target; cm_regex := compiled;
                cm_exclusion_regex := None; cm_scope := Field |}) (rule_targets definition)
  end.

Definition compile_selection (id : string) (detection : DetectionDefinition)
    (case_insensitive : bool) (entry : string * string) : result CompiledMatcher RuleError :=
  let '(target, regex) := entry in
  check? validate_target id target in
  if (bool_decide (dd_scope detection = SegmentScope)
      && negb (str_in target SEGMENT_SCOPE_TARGETS))%bool
  then Err (SegmentTarget id target)
  else
    let? compiled := compile_regex regex case_insensitive id in
    let? exclusion :=
      match bm_get target (dd_exclude detection) with
      | Some regex => result_map Some (compile_regex regex case_insensitive id)
      | None => Ok None
      end in
    Ok {| cm_target := target; cm_regex := compiled;
          cm_exclusion_regex := exclusion; cm_scope := dd_scope detection |}.

Definition compile_detection_matchers (definition : RuleDefinition) (case_insensitive : bool)
    : result (list CompiledMatcher) RuleError :=
  match rule_detection definition with
  | None => Ok []
  | Some detection =>
      if negb (str_in (dd_condition detection) SUPPORTED_DETECTION_CONDITIONS)
      then Err (UnsupportedCondition (rule_id definition) (dd_condition detection))
      else
        let? matchers := collect (compile_selection (rule_id definition) detection case_insensitive)
                           (dd_selection detection) in
        check? collect (λ target,
          check? validate_target (rule_id definition) target in
          if negb (bm_contains_key target (dd_selection detection))
          then Err (ExcludeWithoutSelection (rule_id definition) target)
          else Ok tt) (bm_keys (dd_exclude detection)) in
        Ok matchers
  end.

Definition compile_matchers (definition : RuleDefinition) (case_insensitive : bool)
    : result (list CompiledMatcher) RuleError :=
  check? validate_metadata_value (rule_id definition) "severity" (rule_severity definition)
           VALID_DETECTION_SEVERITIES in
  check? validate_rule_metadata (rule_id definition) (rule_detection_class definition)
           (rule_signal_type definition) (rule_analytic_intent definition)
           (rule_atlas_tags definition) in
  let? matchers := compile_regex_matchers definition case_insensitive in
  let? selected := compile_detection_matchers definition case_insensitive in
  let matchers := matchers ++ selected in
  if bool_decide (length matchers = O) then Err (NoMatchers (rule_id definition))
  else Ok matchers.

Definition export_matcher (matcher : CompiledMatcher) : RuleV1CompatibilityMatcher :=
  {| rcm_target := cm_target matcher;
     rcm_regex := Regex_as_str (cm_regex matcher);
     rcm_exclusion_regex := option_map Regex_as_str (cm_exclusion_regex matcher);
     rcm_scope := cm_scope matcher |}.

Definition export_rule (rule : CompiledRule) : RuleV1CompatibilityRule :=
  let d := cr_definition rule in
  {| rcr_id := rule_id d; rcr_title := rule_title d; rcr_description := rule_description d;
     rcr_category := rule_category d; rcr_detection_class := rule_detection_class d;
     rcr_signal_type := rule_signal_type d; rcr_analytic_intent := rule_analytic_intent d;
     rcr_atlas_tags := rule_atlas_tags d; rcr_severity := rule_severity d;
     rcr_score := rule_score d; rcr_tags := rule_tags d;
     rcr_explanation := rule_explanation d; rcr_falsepositives := rule_falsepositives d;
     rcr_matchers := map export_matcher (cr_matchers rule) |}.

Definition export_modifier (m : ModifierDefinition) : RuleV1CompatibilityModifier :=
  {| rmo_id := mod_id m; rmo_score := mod_score m;
     rmo_detection_class := mod_detection_class m; rmo_signal_type := mod_signal_type m;
     rmo_analytic_intent := mod_analytic_intent m; rmo_atlas_tags := mod_atlas_tags m;
     rmo_when_all_categories := mod_when_all_categories m;
     rmo_when_all_rule_ids := mod_when_all_rule_ids m; rmo_link := mod_link m;
     rmo_falsepositives := mod_falsepositives m; rmo_explanation := mod_explanation m |}.

Definition build_export (rules : list CompiledRule) (modifiers : list ModifierDefinition)
    (policy_name : option string) : RuleV1CompatibilityExport :=
  {| re_policy_name := policy_name;
     re_rules := map export_rule rules;
     re_modifiers := map export_modifier modifiers |}.

Definition effective_policy_name (policy : option RulePolicy) : option string :=
  match policy with
  | Some policy =>
      match rp_name policy with
      | Some name => if is_empty (trim name) then None else Some (trim name)
      | None => None
      end
  | None => None
  end.

Definition compile_rule (case_insensitive : bool) (definition : RuleDefinition)
    : result CompiledRule RuleError :=
  let? matchers := compile_matchers definition case_insensitive in
  Ok {| cr_definition := definition; cr_matchers := matchers |}.

Definition compile_modifier (modifier : ModifierDefinition)
    : result ModifierDefinition RuleError :=
  check? validate_rule_metadata (mod_id modifier) (mod_detection_class modifier)
           (mod_signal_type modifier) (mod_analytic_intent modifier)
           (mod_atlas_tags modifier) in
  check? validate_modifier_link modifier in
  Ok modifier.

(** The filters of [compile]. *)
Definition rule_active (rule_set : RuleSet) (policy : option RulePolicy)
    (rule : RuleDefinition) : bool :=
  (rule_enabled rule && rd_enabled (rs_defaults rule_set) && policy_allows_rule rule policy)%bool.
Definition modifier_active (rule_set : RuleSet) (policy : option RulePolicy)
    (modifier : ModifierDefinition) : bool :=
  (mod_enabled modifier && rd_enabled (rs_defaults rule_set)
   && policy_allows_modifier modifier policy)%bool.

Definition compile (rule_set : RuleSet) (policy : option RulePolicy)
    : result CompiledRuleSet RuleError :=
  check? validate_version rule_set in
  check? validate_rule_ids rule_set in
  let case_insensitive := rd_case_insensitive (rs_defaults rule_set) in
  let? rules := collect (compile_rule case_insensitive)
                  (List.filter (rule_active rule_set policy) (rs_rules rule_set)) in
  let? modifiers := collect compile_modifier
                      (List.filter (modifier_active rule_set policy) (rs_modifiers rule_set)) in
  Ok {| crs_rules := rules;
        crs_content := build_export rules modifiers (effective_policy_name policy) |}.

Section documents.
Variable parse_rule_document : string → result RuleSet YamlError.
Variable parse_policy : string → result RulePolicy YamlError.

Definition compile_rule_sets (rule_sets : list RuleSet) (policy_document : option string)
    : result CompiledRuleSet RuleError :=
  let? policy :=
    match policy_document with
    | Some raw => map_err ParseError (result_map Some (parse_policy raw))
    | None => Ok None
    end in
  let? merged := merge_rule_sets rule_sets in
  compile merged policy.

Definition load_rule_set_from_documents (rule_documents : list string)
    (policy_document : option string) : result CompiledRuleSet RuleError :=
  let? loaded := collect (λ raw, map_err ParseError (parse_rule_document raw)) rule_documents in
  compile_rule_sets loaded policy_document.

End documents.
End rule_sets.
Arguments CompiledRule {_}.
Arguments CompiledRuleSet {_}.

(** ** Evaluation *)

Section evaluation.

(** The rules among [matched], in declaration order. *)
Definition atomic_rules (export : RuleV1CompatibilityExport) (matched : list string)
    : list RuleV1CompatibilityRule :=
  List.filter (λ rule, bs_contains (rcr_id rule) matched) (re_rules export).

Definition modifier_eligible (categories rule_ids withheld : list string)
    (modifier : RuleV1CompatibilityModifier) : bool :=
  ((negb (bool_decide (rmo_when_all_categories modifier = []))
    || negb (bool_decide (rmo_when_all_rule_ids modifier = [])))
   && forallb (λ category, bs_contains category categories) (rmo_when_all_categories modifier)
   && forallb (λ id, bs_contains id rule_ids) (rmo_when_all_rule_ids modifier)
   && negb (bs_contains (rmo_id modifier) withheld))%bool.

Definition triggered_modifiers_without (export : RuleV1CompatibilityExport)
    (matched withheld : list string) : list RuleV1CompatibilityModifier :=
  let atomic := atomic_rules export matched in
  let categories := bs_of_list (map rcr_category atomic) in
  let rule_ids := bs_of_list (map rcr_id atomic) in
  List.filter (modifier_eligible categories rule_ids withheld) (re_modifiers export).

Definition triggered_modifiers (export : RuleV1CompatibilityExport) (matched : list string)
    : list RuleV1CompatibilityModifier :=
  triggered_modifiers_without export matched [].

Context `{Privacy}.

(** The contribution a scored rule or modifier pushes, if any. *)
Definition contribution_of (id : string) (t : RiskContributionType) (score : Z)
    (explanation : string) : result (list RiskContribution) RiskAccountingError :=
  if 0 <? score
  then result_map (λ c, [c]) (new id t score (redact_sensitive_text explanation))
  else Ok [].

Definition rule_contributions (rules : list RuleV1CompatibilityRule)
    : result (list RiskContribution) RiskAccountingError :=
  result_map (@concat _) (collect (λ rule,
    contribution_of (rcr_id rule) DeterministicRule (rcr_score rule) (rcr_explanation rule)) rules).

Definition modifier_contributions (modifiers : list RuleV1CompatibilityModifier)
    : result (list RiskContribution) RiskAccountingError :=
  result_map (@concat _) (collect (λ modifier,
    contribution_of (rmo_id modifier) ChainModifier (rmo_score modifier)
      (rmo_explanation modifier)) modifiers).

Definition evaluate_matched_without (export : RuleV1CompatibilityExport)
    (matched withheld : list string) : result (option MatchResult) RiskAccountingError :=
  let atomic := atomic_rules export matched in
  let? from_rules := rule_contributions atomic in
  let modifiers := triggered_modifiers_without export matched withheld in
  let? from_modifiers := modifier_contributions modifiers in
  let rule_ids := map rcr_id atomic ++ map rmo_id modifiers in
  let? contributions := canonicalize_contributions (from_rules ++ from_modifiers) in
  if bool_decide (rule_ids = []) then Ok None
  else
    let? score := checked_risk_sum contributions in
    Ok (Some {|
      mr_rule_ids := rule_ids;
      mr_categories := bs_of_list (map rcr_category atomic);
      mr_detection_classes :=
        bs_of_list (map rcr_detection_class atomic ++ map rmo_detection_class modifiers);
      mr_signal_types :=
        bs_of_list (map rcr_signal_type atomic ++ map rmo_signal_type modifiers);
      mr_analytic_intents :=
        bs_of_list (map rcr_analytic_intent atomic ++ map rmo_analytic_intent modifiers);
      mr_atlas_tags :=
        bs_of_list (concat (map rcr_atlas_tags atomic) ++ concat (map rmo_atlas_tags modifiers));
      mr_tags := bs_of_list (concat (map rcr_tags atomic));
      mr_score := score;
      mr_contributions := contributions;
      mr_evidence := [] |}).

Definition evaluate_matched (export : RuleV1CompatibilityExport) (matched : list string)
    : result (option MatchResult) RiskAccountingError :=
  evaluate_matched_without export matched [].

Definition with_evidence (evidence : list Evidence) (r : MatchResult) : MatchResult :=
  {| mr_rule_ids := mr_rule_ids r; mr_categories := mr_categories r;
     mr_detection_classes := mr_detection_classes r; mr_signal_types := mr_signal_types r;
     mr_analytic_intents := mr_analytic_intents r; mr_atlas_tags := mr_atlas_tags r;
     mr_tags := mr_tags r; mr_score := mr_score r; mr_contributions := mr_contributions r;
     mr_evidence := evidence |}.

Context `{RegexEngine}.
(** SHA-256 of a value, in hexadecimal. *)
Variable evidence_hash : string → string.

Definition matching_field (rule : CompiledRule) (fields : list (string * string))
    : option (string * string) :=
  List.find (λ field, existsb (λ m, matches m field.1 field.2) (cr_matchers rule)) fields.

Definition evidence_of (rule : CompiledRule) (matched : string * string) : Evidence :=
  {| ev_field := matched.1; ev_redacted_value := redact_sensitive_text matched.2;
     ev_hash := Some (evidence_hash matched.2);
     ev_rule_id := Some (rule_id (cr_definition rule)) |}.

Definition evaluate (compiled : CompiledRuleSet) (fields : list (string * string))
    : result (option MatchResult) RiskAccountingError :=
  let '(matched_ids, evidence) :=
    foldl (λ acc rule,
      match matching_field rule fields with
      | Some matched => (bs_insert (rule_id (cr_definition rule)) acc.1,
                         acc.2 ++ [evidence_of rule matched])
      | None => acc
      end) ([], []) (crs_rules compiled) in
  let? r := evaluate_matched (crs_content compiled) matched_ids in
  Ok (option_map (with_evidence evidence) r).

End evaluation.

(** ** Merging *)

Definition doc_ids (rule_set : RuleSet) : list string :=
  map rule_id (rs_rules rule_set) ++ map mod_id (rs_modifiers rule_set).

Definition doc_rules (rule_set : RuleSet) : list RuleDefinition :=
  map (λ rule, apply_rule_defaults rule (rs_defaults rule_set)) (rs_rules rule_set).
Definition doc_modifiers (rule_set : RuleSet) : list ModifierDefinition :=
  map (λ m, apply_modifier_defaults m (rs_defaults rule_set)) (rs_modifiers rule_set).

(** The documents joined, each definition carrying its document's defaults. *)
Definition joined (rule_sets : list RuleSet) : RuleSet :=
  {| rs_version := 1;
     rs_description := join "; " (map rs_description rule_sets);
     rs_defaults := {| rd_case_insensitive := false; rd_enabled := true |};
     rs_rules := concat (map doc_rules rule_sets);
     rs_modifiers := concat (map doc_modifiers rule_sets) |}.

Section merge_facts.
Context `{RegexEngine} {YE : Type}.

(** A fold that adds an id per element to a set and refuses known ones. *)
Lemma insert_fold {A S} (id : A → string) (ids : S → list string)
    (f : S → A → result S (RuleError RegexError YE)) (add : S → A → S) st st' l :
  (∀ s a, f s a = if bs_contains (id a) (ids s) then Err (DuplicateRuleId (id a))
                  else Ok (add s a)) →
  (∀ s a, ids (add s a) = bs_insert (id a) (ids s)) →
  try_fold f st l = Ok st' ↔
  NoDup (map id l) ∧ (∀ x, x ∈ map id l → x ∉ ids st) ∧ st' = foldl add st l.
Proof.
  intros Hf Hids. revert st; induction l as [|a l IH]; intros st; simpl.
  { split; [intros [= <-]|intros (_ & _ & ->)]; [|done].
    split_and!; [constructor|set_solver|done]. }
  rewrite Hf. destruct (bs_contains (id a) (ids st)) eqn:Hc.
  { apply bs_contains_spec in Hc. split; [done|]. intros (_ & Hn & _). set_solver. }
  assert (id a ∉ ids st) by (rewrite <- bs_contains_spec; congruence).
  rewrite IH. setoid_rewrite Hids. setoid_rewrite bs_insert_elem. rewrite NoDup_cons.
  set_solver.
Qed.

Lemma foldl_insert_elem {A S} (id : A → string) (ids : S → list string) (add : S → A → S) st l x :
  (∀ s a, ids (add s a) = bs_insert (id a) (ids s)) →
  x ∈ ids (foldl add st l) ↔ x ∈ ids st ∨ x ∈ map id l.
Proof.
  intros Hids. revert st; induction l as [|a l IH]; intros st; simpl; [set_solver|].
  rewrite IH, Hids, bs_insert_elem. set_solver.
Qed.

Definition add_rule (defaults : RuleDefaults) (st : MergeState) (rule : RuleDefinition)
    : MergeState :=
  {| ms_ids := bs_insert (rule_id rule) (ms_ids st); ms_descriptions := ms_descriptions st;
     ms_rules := ms_rules st ++ [apply_rule_defaults rule defaults];
     ms_modifiers := ms_modifiers st |}.
Definition add_modifier (defaults : RuleDefaults) (st : MergeState)
    (modifier : ModifierDefinition) : MergeState :=
  {| ms_ids := bs_insert (mod_id modifier) (ms_ids st); ms_descriptions := ms_descriptions st;
     ms_rules := ms_rules st;
     ms_modifiers := ms_modifiers st ++ [apply_modifier_defaults modifier defaults] |}.

Lemma foldl_add_rule defaults st l :
  ms_rules (foldl (add_rule defaults) st l)
    = ms_rules st ++ map (λ r, apply_rule_defaults r defaults) l ∧
  ms_modifiers (foldl (add_rule defaults) st l) = ms_modifiers st ∧
  ms_descriptions (foldl (add_rule defaults) st l) = ms_descriptions st.
Proof.
  revert st; induction l as [|r l IH]; intros st; simpl; [by rewrite app_nil_r|].
  destruct (IH (add_rule defaults st r)) as (-> & -> & ->). simpl. by rewrite <- app_assoc.
Qed.

Lemma foldl_add_modifier defaults st l :
  ms_modifiers (foldl (add_modifier defaults) st l)
    = ms_modifiers st ++ map (λ m, apply_modifier_defaults m defaults) l ∧
  ms_rules (foldl (add_modifier defaults) st l) = ms_rules st ∧
  ms_descriptions (foldl (add_modifier defaults) st l) = ms_descriptions st.
Proof.
  revert st; induction l as [|r l IH]; intros st; simpl; [by rewrite app_nil_r|].
  destruct (IH (add_modifier defaults st r)) as (-> & -> & ->). simpl. by rewrite <- app_assoc.
Qed.

(** The state after an accepted document. *)
Definition doc_state (st : MergeState) (rule_set : RuleSet) : MergeState :=
  foldl (add_modifier (rs_defaults rule_set))
    (foldl (add_rule (rs_defaults rule_set))
      {| ms_ids := ms_ids st;
         ms_descriptions := ms_descriptions st ++ [rs_description rule_set];
         ms_rules := ms_rules st; ms_modifiers := ms_modifiers st |} (rs_rules rule_set))
    (rs_modifiers rule_set).

Lemma doc_state_ids st rule_set x :
  x ∈ ms_ids (doc_state st rule_set) ↔ x ∈ ms_ids st ∨ x ∈ doc_ids rule_set.
Proof.
  unfold doc_state, doc_ids.
  rewrite (foldl_insert_elem mod_id), (foldl_insert_elem rule_id) by done. set_solver.
Qed.

Lemma doc_state_parts st rule_set :
  ms_descriptions (doc_state st rule_set) = ms_descriptions st ++ [rs_description rule_set] ∧
  ms_rules (doc_state st rule_set) = ms_rules st ++ doc_rules rule_set ∧
  ms_modifiers (doc_state st rule_set) = ms_modifiers st ++ doc_modifiers rule_set.
Proof.
  unfold doc_state. destruct (foldl_add_modifier (rs_defaults rule_set)
    (foldl (add_rule (rs_defaults rule_set))
      {| ms_ids := ms_ids st;
         ms_descriptions := ms_descriptions st ++ [rs_description rule_set];
         ms_rules := ms_rules st; ms_modifiers := ms_modifiers st |} (rs_rules rule_set))
    (rs_modifiers rule_set)) as (-> & -> & ->).
  destruct (foldl_add_rule (rs_defaults rule_set)
      {| ms_ids := ms_ids st;
         ms_descriptions := ms_descriptions st ++ [rs_description rule_set];
         ms_rules := ms_rules st; ms_modifiers := ms_modifiers st |} (rs_rules rule_set))
    as (-> & -> & ->). done.
Qed.

Lemma merge_document_Ok st rule_set st' :
  merge_document (YamlError := YE) st rule_set = Ok st' ↔
  NoDup (doc_ids rule_set) ∧ (∀ x, x ∈ doc_ids rule_set → x ∉ ms_ids st) ∧
  st' = doc_state st rule_set.
Proof.
  unfold merge_document, doc_state, doc_ids. set (st1 := {| ms_ids := _ |}).
  set (fr := add_rule (rs_defaults rule_set)).
  pose proof (insert_fold rule_id ms_ids
    (merge_rule (YamlError := YE) (rs_defaults rule_set)) fr st1) as Hr.
  pose proof (insert_fold mod_id ms_ids
    (merge_modifier (YamlError := YE) (rs_defaults rule_set))
    (add_modifier (rs_defaults rule_set)) (foldl fr st1 (rs_rules rule_set))
    st' (rs_modifiers rule_set)) as Hm.
  specialize (Hm (λ _ _, eq_refl) (λ _ _, eq_refl)).
  assert (∀ x, x ∈ ms_ids (foldl fr st1 (rs_rules rule_set)) ↔
    x ∈ ms_ids st ∨ x ∈ map rule_id (rs_rules rule_set)) as Hids
    by (intros x; by rewrite (foldl_insert_elem rule_id)).
  rewrite NoDup_app. setoid_rewrite elem_of_app.
  destruct (try_fold _ st1 _) as [st2|e] eqn:E.
  - apply Hr in E as (Hnd & Hfresh & ->); [|done|done]. rewrite Hm.
    setoid_rewrite Hids. simpl in *. set_solver.
  - split; [done|]. intros ((? & ? & ?) & Hfresh & _).
    assert (try_fold (merge_rule (YamlError := YE) (rs_defaults rule_set)) st1
      (rs_rules rule_set) = Ok (foldl fr st1 (rs_rules rule_set))) as E'; [|congruence].
    apply Hr; [done|done|]. split_and!; [done| |done]. intros x Hx. apply Hfresh. by left.
Qed.

Lemma merge_documents_Ok st rule_sets st' :
  try_fold (merge_document (YamlError := YE)) st rule_sets = Ok st' ↔
  NoDup (concat (map doc_ids rule_sets)) ∧
  (∀ x, x ∈ concat (map doc_ids rule_sets) → x ∉ ms_ids st) ∧
  st' = foldl doc_state st rule_sets.
Proof.
  revert st; induction rule_sets as [|rs rule_sets IH]; intros st; simpl.
  { split; [intros [= <-]|by intros (_ & _ & ->)]. split_and!; [constructor|set_solver|done]. }
  rewrite NoDup_app. setoid_rewrite elem_of_app.
  destruct (merge_document st rs) as [st1|e] eqn:E.
  - apply merge_document_Ok in E as (? & ? & ->). rewrite IH.
    setoid_rewrite doc_state_ids. set_solver.
  - split; [done|]. intros ((? & ? & ?) & Hfresh & _).
    assert (merge_document (YamlError := YE) st rs = Ok (doc_state st rs)); [|congruence].
    apply merge_document_Ok. split_and!; [done| |done]. intros x Hx. apply Hfresh. by left.
Qed.

Lemma foldl_doc_state st rule_sets :
  ms_descriptions (foldl doc_state st rule_sets)
    = ms_descriptions st ++ map rs_description rule_sets ∧
  ms_rules (foldl doc_state st rule_sets) = ms_rules st ++ concat (map doc_rules rule_sets) ∧
  ms_modifiers (foldl doc_state st rule_sets)
    = ms_modifiers st ++ concat (map doc_modifiers rule_sets).
Proof.
  revert st; induction rule_sets as [|rs rule_sets IH]; intros st; simpl.
  { by rewrite !app_nil_r. }
  destruct (IH (doc_state st rs)) as (-> & -> & ->).
  destruct (doc_state_parts st rs) as (-> & -> & ->). by rewrite <- !app_assoc.
Qed.

Lemma merge_Ok rule_sets merged :
  merge_rule_sets (YamlError := YE) rule_sets = Ok merged ↔
  Forall (λ rs, rs_version rs = 1) rule_sets ∧
  NoDup (concat (map doc_ids rule_sets)) ∧ merged = joined rule_sets.
Proof.
  unfold merge_rule_sets.
  assert (is_ok (collect (validate_version (YamlError := YE)) rule_sets) = true ↔
          Forall (λ rs, rs_version rs = 1) rule_sets) as Hv.
  { induction rule_sets as [|rs l IH]; simpl; [by split|].
    rewrite Forall_cons, <- IH. unfold validate_version at 1.
    destruct (Z.eqb_spec (rs_version rs) 1); simpl; [|by split; [|intros [? ?]]].
    destruct (collect _ l); naive_solver. }
  destruct (collect _ rule_sets) as [u|e]; simpl in Hv; [|naive_solver].
  set (st0 := {| ms_ids := [] |}).
  destruct (try_fold _ st0 rule_sets) as [st|e] eqn:E.
  - apply merge_documents_Ok in E as (Hnd & _ & ->).
    destruct (foldl_doc_state st0 rule_sets) as (-> & -> & ->). simpl. naive_solver.
  - split; [done|]. intros (_ & Hnd & _).
    assert (try_fold (merge_document (YamlError := YE)) st0 rule_sets
            = Ok (foldl doc_state st0 rule_sets)); [|congruence].
    apply merge_documents_Ok. split_and!; [done|set_solver|done].
Qed.

End merge_facts.

(** Merging succeeds exactly when every document has version 1 and no rule or
    modifier id repeats across all of them; the result then holds every rule and
    modifier once, in document order, with its own document's defaults applied,
    under neutral defaults. *)
Theorem merge_rule_sets_correct `{RegexEngine} YE rule_sets merged :
  merge_rule_sets (YamlError := YE) rule_sets = Ok merged ↔
  Forall (λ rs, rs_version rs = 1) rule_sets ∧
  NoDup (concat (map doc_ids rule_sets)) ∧ merged = joined rule_sets.
Proof. apply merge_Ok. Qed.

(** ** Defaults materialized by the merge mean what they mean at compilation *)

Lemma map_err_result_map {A B E F} (f : A → B) (g : E → F) (r : result A E) :
  result_map f (map_err g r) = map_err g (result_map f r).
Proof. by destruct r. Qed.

Lemma collect_ext {A B C E} (f : A → result B E) (g : A → result C E) (h : B → C) l :
  (∀ a, a ∈ l → result_map h (f a) = g a) → result_map (map h) (collect f l) = collect g l.
Proof.
  induction l as [|a l IH]; intros Hfg; simpl; [done|].
  rewrite <- (Hfg a) by set_solver. destruct (f a); simpl; [|done].
  rewrite <- IH by set_solver. by destruct (collect f l).
Qed.

Lemma collect_map {A B C E} (f : B → result C E) (g : A → B) l :
  collect f (map g l) = collect (λ a, f (g a)) l.
Proof. induction l as [|a l IH]; simpl; [done|]. by rewrite IH. Qed.

Lemma collect_app_Ok {A B E} (f : A → result B E) l1 l2 bs :
  collect f (l1 ++ l2) = Ok bs ↔
  ∃ b1 b2, collect f l1 = Ok b1 ∧ collect f l2 = Ok b2 ∧ bs = b1 ++ b2.
Proof.
  setoid_rewrite collect_Ok. split.
  - intros (b1 & b2 & ? & ? & ->)%Forall2_app_inv_l. eauto.
  - intros (b1 & b2 & ? & ? & ->). by apply Forall2_app.
Qed.

Lemma filter_map_comm {A B} (p : B → bool) (q : A → bool) (f : A → B) l :
  (∀ a, p (f a) = q a) → List.filter p (map f l) = map f (List.filter q l).
Proof.
  intros Hpq. induction l as [|a l IH]; simpl; [done|]. rewrite Hpq, IH. by destruct (q a).
Qed.

Section defaults_facts.
Context `{RegexEngine} {YE : Type}.
Notation compile_rule := (compile_rule (YamlError := YE)).
Notation compile := (compile (YamlError := YE)).

Lemma bm_get_map_values k (f : string → string) (m : list (string * string)) :
  bm_get k (map_values f m) = option_map f (bm_get k m).
Proof. induction m as [|[k' v] m IH]; simpl; [done|]. by destruct (cmp k k'). Qed.

Lemma bm_keys_map_values (f : string → string) (m : list (string * string)) :
  bm_keys (map_values f m) = bm_keys m.
Proof. unfold bm_keys, map_values. induction m as [|[k v] m IH]; simpl; [done|]. by f_equal. Qed.

Lemma bm_contains_map_values k (f : string → string) (m : list (string * string)) :
  bm_contains_key k (map_values f m) = bm_contains_key k m.
Proof. unfold bm_contains_key. rewrite bm_get_map_values. by destruct (bm_get k m). Qed.

Lemma collect_cong {A B E} (f g : A → result B E) l :
  (∀ a, f a = g a) → collect f l = collect g l.
Proof. intros Hfg. induction l as [|a l IH]; simpl; [done|]. by rewrite Hfg, IH. Qed.

Lemma collect_map_values {B E} (f : string * string → result B E) (g : string → string)
    (m : list (string * string)) :
  collect f (map_values g m) = collect (λ a, f (a.1, g a.2)) m.
Proof. apply collect_map. Qed.

Lemma compile_detection_defaults d rule :
  compile_detection_matchers (YamlError := YE) (apply_rule_defaults rule d) false
  = compile_detection_matchers rule (rd_case_insensitive d).
Proof.
  unfold compile_detection_matchers.
  cbn [apply_rule_defaults rule_detection rule_id].
  destruct (rule_detection rule) as [det|]; [|done].
  cbn [option_map dd_condition dd_selection dd_exclude].
  destruct (negb _); [done|]. rewrite bm_keys_map_values.
  rewrite collect_map_values.
  erewrite (collect_cong _ (compile_selection (rule_id rule) det (rd_case_insensitive d))).
  - destruct (collect _ (dd_selection det)); [|done]. erewrite collect_cong; [done|].
    intros target. simpl. by rewrite bm_contains_map_values.
  - intros [target regex]. unfold compile_selection; simpl.
    rewrite bm_get_map_values. by destruct (bm_get target (dd_exclude det)).
Qed.

Lemma compile_matchers_defaults d rule :
  compile_matchers (YamlError := YE) (apply_rule_defaults rule d) false
  = compile_matchers rule (rd_case_insensitive d).
Proof.
  unfold compile_matchers. rewrite compile_detection_defaults.
  unfold compile_regex_matchers; simpl. by destruct (rule_regex rule).
Qed.

Lemma compile_rule_defaults d rule :
  result_map export_rule (compile_rule false (apply_rule_defaults rule d))
  = result_map export_rule (compile_rule (rd_case_insensitive d) rule).
Proof.
  unfold Rules.compile_rule. rewrite compile_matchers_defaults.
  by destruct (compile_matchers _ _).
Qed.

Lemma compile_modifier_defaults d modifier :
  result_map export_modifier (compile_modifier (YamlError := YE) (apply_modifier_defaults modifier d))
  = result_map export_modifier (compile_modifier modifier).
Proof.
  unfold compile_modifier; simpl. destruct (validate_rule_metadata _ _ _ _ _); [|done].
  unfold validate_modifier_link; simpl.
  destruct (mod_link modifier); [|done]. repeat (case_match; try done).
Qed.

(** The exported rules and modifiers of a set, as [compile] computes them. *)
Definition exported_rules (rs : RuleSet) (policy : option RulePolicy) :=
  collect (λ d, result_map export_rule
             (compile_rule (rd_case_insensitive (rs_defaults rs)) d))
    (List.filter (rule_active rs policy) (rs_rules rs)).
Definition exported_modifiers (rs : RuleSet) (policy : option RulePolicy) :=
  collect (λ m, result_map export_modifier (compile_modifier (YamlError := YE) m))
    (List.filter (modifier_active rs policy) (rs_modifiers rs)).

(** What a successful compilation exports. *)
Lemma compile_export rs policy rules modifiers :
  (∃ c, compile rs policy = Ok c ∧ re_rules (crs_content c) = rules ∧
        re_modifiers (crs_content c) = modifiers) ↔
  validate_version (YamlError := YE) rs = Ok tt ∧ validate_rule_ids (YamlError := YE) rs = Ok tt ∧
  exported_rules rs policy = Ok rules ∧ exported_modifiers rs policy = Ok modifiers.
Proof.
  unfold Rules.compile, exported_rules, exported_modifiers.
  rewrite <- (collect_ext _ (λ d, result_map export_rule
    (compile_rule (rd_case_insensitive (rs_defaults rs)) d)) export_rule _ (λ _ _, eq_refl)).
  rewrite <- (collect_ext _ (λ m, result_map export_modifier
    (compile_modifier (YamlError := YE) m)) export_modifier _ (λ _ _, eq_refl)).
  destruct (validate_version rs) as [[]|]; [|naive_solver].
  destruct (validate_rule_ids rs) as [[]|]; [|naive_solver].
  destruct (collect (compile_rule _) _) as [crs|]; simpl; [|naive_solver].
  destruct (collect compile_modifier _) as [ms|]; simpl; [|naive_solver].
  split.
  - intros (c & [= <-] & <- & <-). done.
  - intros (_ & _ & [= <-] & [= <-]). by eexists.
Qed.

Lemma rule_active_defaults rs rule_sets policy rule :
  rule_active (joined rule_sets) policy (apply_rule_defaults rule (rs_defaults rs))
  = rule_active rs policy rule.
Proof.
  unfold rule_active, policy_allows_rule; simpl.
  destruct (rd_enabled (rs_defaults rs)); simpl; [by rewrite !andb_true_r | by rewrite andb_false_r].
Qed.

Lemma modifier_active_defaults rs rule_sets policy modifier :
  modifier_active (joined rule_sets) policy (apply_modifier_defaults modifier (rs_defaults rs))
  = modifier_active rs policy modifier.
Proof.
  unfold modifier_active, policy_allows_modifier; simpl.
  destruct (rd_enabled (rs_defaults rs)); simpl; [by rewrite !andb_true_r | by rewrite andb_false_r].
Qed.

Lemma exported_rules_doc rs rule_sets policy :
  collect (λ d, result_map export_rule (compile_rule false d))
    (List.filter (rule_active (joined rule_sets) policy) (doc_rules rs))
  = exported_rules rs policy.
Proof.
  unfold doc_rules, exported_rules.
  rewrite (filter_map_comm _ (rule_active rs policy)) by apply rule_active_defaults.
  rewrite collect_map. apply collect_cong. intros d. apply compile_rule_defaults.
Qed.

Lemma exported_modifiers_doc rs rule_sets policy :
  collect (λ m, result_map export_modifier (compile_modifier (YamlError := YE) m))
    (List.filter (modifier_active (joined rule_sets) policy) (doc_modifiers rs))
  = exported_modifiers rs policy.
Proof.
  unfold doc_modifiers, exported_modifiers.
  rewrite (filter_map_comm _ (modifier_active rs policy)) by apply modifier_active_defaults.
  rewrite collect_map. apply collect_cong. intros d. apply compile_modifier_defaults.
Qed.

Lemma collect_concat_Ok {A B C E} (f : B → result C E) (p : B → bool) (g : A → list B) l out :
  collect f (List.filter p (concat (map g l))) = Ok out ↔
  ∃ outs, Forall2 (λ a o, collect f (List.filter p (g a)) = Ok o) l outs ∧ out = concat outs.
Proof.
  revert out; induction l as [|a l IH]; intros out; simpl.
  - split; [intros [= <-]; by exists [] | intros (outs & Hf & ->)]. by inversion Hf.
  - rewrite List.filter_app, collect_app_Ok. split.
    + intros (b1 & b2 & Ha & (outs & Hf & ->)%IH & ->). exists (b1 :: outs).
      split; [by constructor | done].
    + intros (outs & Hf & ->). inversion Hf as [|? b ? outs' Hb Hf']; subst.
      exists b, (concat outs'). split_and!; [done| |done]. apply IH. by exists outs'.
Qed.

Lemma collect_unit_Ok {A B E} (f : A → result B E) l :
  (∃ bs, collect f l = Ok bs) ↔ Forall (λ a, ∃ b, f a = Ok b) l.
Proof.
  induction l as [|a l IH]; simpl; [naive_solver|]. rewrite Forall_cons, <- IH.
  destruct (f a); [|naive_solver]. destruct (collect f l); naive_solver.
Qed.

Definition canonical_modifier (m : ModifierDefinition) : Prop :=
  is_canonical_contribution_id (mod_id m) = true ∧
  Forall (λ id, is_canonical_contribution_id id = true) (mod_when_all_rule_ids m).

Lemma validate_canonical_Ok id kind b :
  validate_canonical_rule_id (YamlError := YE) id kind = Ok b ↔
  is_canonical_contribution_id id = true.
Proof.
  unfold validate_canonical_rule_id. destruct b. by destruct (is_canonical_contribution_id id).
Qed.

Lemma validate_rule_ids_Ok rs :
  validate_rule_ids (YamlError := YE) rs = Ok tt ↔
  Forall (λ r, is_canonical_contribution_id (rule_id r) = true) (rs_rules rs) ∧
  Forall canonical_modifier (rs_modifiers rs).
Proof.
  transitivity (
    (∃ bs, collect (λ r, validate_canonical_rule_id (YamlError := YE) (rule_id r) "rule")
             (rs_rules rs) = Ok bs) ∧
    (∃ bs, collect (λ modifier,
       check? validate_canonical_rule_id (YamlError := YE) (mod_id modifier) "modifier" in
       collect (λ rid, validate_canonical_rule_id rid "modifier rule reference")
         (mod_when_all_rule_ids modifier)) (rs_modifiers rs) = Ok bs)).
  { unfold validate_rule_ids. destruct (collect _ (rs_rules rs)); [|naive_solver].
    destruct (collect _ (rs_modifiers rs)); naive_solver. }
  rewrite !collect_unit_Ok. f_equiv; apply Forall_proper; try done.
  - intros r. setoid_rewrite validate_canonical_Ok. naive_solver.
  - intros m. unfold canonical_modifier.
    destruct (validate_canonical_rule_id (mod_id m) "modifier") as [u|e] eqn:Hv.
    + apply validate_canonical_Ok in Hv. rewrite collect_unit_Ok.
      setoid_rewrite validate_canonical_Ok. setoid_rewrite Forall_forall. naive_solver.
    + split; [naive_solver|]. intros [Hid _].
      rewrite <- (validate_canonical_Ok _ "modifier" tt) in Hid. congruence.
Qed.

End defaults_facts.

Section merge_compile_facts.
Context `{RegexEngine} {YE : Type}.

Lemma canonical_ids_concat rule_sets :
  validate_rule_ids (YamlError := YE) (joined rule_sets) = Ok tt ↔
  Forall (λ rs, validate_rule_ids (YamlError := YE) rs = Ok tt) rule_sets.
Proof.
  rewrite validate_rule_ids_Ok. simpl. rewrite !Forall_concat, !Forall_fmap, <- Forall_and.
  apply Forall_proper; [|done]. intros rs. rewrite validate_rule_ids_Ok. simpl.
  unfold doc_rules, doc_modifiers. by rewrite !Forall_fmap.
Qed.

Lemma validate_version_Ok (rs : RuleSet) :
  validate_version (YamlError := YE) rs = Ok tt ↔ rs_version rs = 1.
Proof. unfold validate_version. destruct (Z.eqb_spec (rs_version rs) 1); naive_solver. Qed.

Lemma Forall2_exists_l {A B} (P : A → B → Prop) l :
  (∃ bs, Forall2 P l bs) ↔ Forall (λ a, ∃ b, P a b) l.
Proof.
  split; [intros [bs Hf]; by induction Hf; constructor; eauto|].
  induction 1 as [|a l [b Hb] _ [bs IH]]; [by exists []|]. exists (b :: bs). by constructor.
Qed.

Lemma exported_rules_joined rule_sets policy out :
  exported_rules (YE := YE) (joined rule_sets) policy = Ok out ↔
  ∃ outs, Forall2 (λ rs o, exported_rules (YE := YE) rs policy = Ok o) rule_sets outs ∧
    out = concat outs.
Proof.
  unfold exported_rules at 1.
  cbn [joined rs_rules rs_defaults rd_case_insensitive]. rewrite collect_concat_Ok.
  split; intros (outs & Hf & ->); exists outs; (split; [|done]);
    (eapply Forall2_impl; [exact Hf|]); intros rs o; cbv beta; by rewrite exported_rules_doc.
Qed.

Lemma exported_modifiers_joined rule_sets policy out :
  exported_modifiers (YE := YE) (joined rule_sets) policy = Ok out ↔
  ∃ outs, Forall2 (λ rs o, exported_modifiers (YE := YE) rs policy = Ok o) rule_sets outs ∧
    out = concat outs.
Proof.
  unfold exported_modifiers at 1.
  cbn [joined rs_modifiers]. rewrite collect_concat_Ok.
  split; intros (outs & Hf & ->); exists outs; (split; [|done]);
    (eapply Forall2_impl; [exact Hf|]); intros rs o; cbv beta; by rewrite exported_modifiers_doc.
Qed.

Lemma joined_compile rule_sets policy rules modifiers :
  Forall (λ rs, rs_version rs = 1) rule_sets →
  (∃ c, compile (YamlError := YE) (joined rule_sets) policy = Ok c ∧
        re_rules (crs_content c) = rules ∧ re_modifiers (crs_content c) = modifiers) ↔
  ∃ cs, Forall2 (λ rs c, compile (YamlError := YE) rs policy = Ok c) rule_sets cs ∧
    rules = concat (map (λ c, re_rules (crs_content c)) cs) ∧
    modifiers = concat (map (λ c, re_modifiers (crs_content c)) cs).
Proof.
  intros Hv. rewrite compile_export, canonical_ids_concat, exported_rules_joined,
    exported_modifiers_joined. split.
  - intros (_ & Hids & (rss & Hr & ->) & (mss & Hm & ->)).
    enough (∃ cs, Forall2 (λ rs c, compile (YamlError := YE) rs policy = Ok c) rule_sets cs ∧
      rss = map (λ c, re_rules (crs_content c)) cs ∧
      mss = map (λ c, re_modifiers (crs_content c)) cs) by naive_solver.
    revert mss Hm; induction Hr as [|rs r rule_sets rss Hr1 Hr IH]; intros mss Hm.
    { inversion Hm; subst. by exists []. }
    inversion Hm as [|? ms ? mss' Hm1 Hm']; subst.
    apply Forall_cons in Hv as [Hv1 Hv]. apply Forall_cons in Hids as [Hid1 Hids].
    destruct (IH Hv Hids _ Hm') as (cs & Hcs & -> & ->).
    destruct (proj2 (compile_export (YE := YE) rs policy r ms)) as (c & Hc & <- & <-).
    { split_and!; try done. by apply validate_version_Ok. }
    exists (c :: cs). split_and!; [by constructor|done|done].
  - intros (cs & Hcs & -> & ->).
    assert (∀ rs c, compile (YamlError := YE) rs policy = Ok c →
      validate_rule_ids (YamlError := YE) rs = Ok tt ∧
      exported_rules (YE := YE) rs policy = Ok (re_rules (crs_content c)) ∧
      exported_modifiers (YE := YE) rs policy = Ok (re_modifiers (crs_content c))) as Hone.
    { intros rs c Hc. by eapply compile_export; exists c. }
    split_and!; [done| | |].
    + eapply Forall2_Forall_l; [exact Hcs|]. apply Forall_forall. intros c _ rs Hc. by eapply Hone.
    + exists (map (λ c, re_rules (crs_content c)) cs). split; [|done].
      rewrite Forall2_fmap_r. eapply Forall2_impl; [exact Hcs|]. naive_solver.
    + exists (map (λ c, re_modifiers (crs_content c)) cs). split; [|done].
      rewrite Forall2_fmap_r. eapply Forall2_impl; [exact Hcs|]. naive_solver.
Qed.

End merge_compile_facts.

(** Applying each document's defaults while merging means what those defaults
    mean when the document is compiled alone: the merge of documents compiles
    exactly when each document does, and exports the concatenation of the rules
    and modifiers each one exports. *)
Theorem merge_compile_correct `{RegexEngine} YE rule_sets merged policy rules modifiers :
  merge_rule_sets (YamlError := YE) rule_sets = Ok merged →
  (∃ c, compile (YamlError := YE) merged policy = Ok c ∧
        re_rules (crs_content c) = rules ∧ re_modifiers (crs_content c) = modifiers) ↔
  ∃ cs, Forall2 (λ rs c, compile (YamlError := YE) rs policy = Ok c) rule_sets cs ∧
    rules = concat (map (λ c, re_rules (crs_content c)) cs) ∧
    modifiers = concat (map (λ c, re_modifiers (crs_content c)) cs).
Proof. intros (Hv & _ & ->)%merge_Ok. by apply joined_compile. Qed.

(** ** What compilation guarantees *)

Section compile_facts.
Context `{RegexEngine} {YE : Type}.

Definition metadata_valid (detection_class signal_type analytic_intent : string)
    (atlas_tags : list string) : Prop :=
  detection_class ∈ VALID_DETECTION_CLASSES ∧ signal_type ∈ VALID_SIGNAL_TYPES ∧
  analytic_intent ∈ VALID_ANALYTIC_INTENTS ∧
  Forall (λ tag, starts_with tag "atlas:" = true) atlas_tags.

Definition matcher_supported (m : CompiledMatcher) : Prop :=
  cm_target m ∈ SUPPORTED_RULE_TARGETS ∧
  (cm_scope m = SegmentScope → cm_target m ∈ SEGMENT_SCOPE_TARGETS).

Definition rule_valid (rule : CompiledRule) : Prop :=
  let d := cr_definition rule in
  is_canonical_contribution_id (rule_id d) = true ∧
  rule_severity d ∈ VALID_DETECTION_SEVERITIES ∧
  metadata_valid (rule_detection_class d) (rule_signal_type d) (rule_analytic_intent d)
    (rule_atlas_tags d) ∧
  cr_matchers rule ≠ [] ∧ Forall matcher_supported (cr_matchers rule).

Definition link_valid (m : ModifierDefinition) : Prop :=
  ∀ link, mod_link m = Some link →
    (mod_when_all_categories m ≠ [] ∨ mod_when_all_rule_ids m ≠ []) ∧
    link_calls link ≤ MAX_MODIFIER_LINK_CALLS ∧
    ∀ minutes, link_minutes link = Some minutes →
      minutes ≠ 0 ∧ minutes ≤ MAX_MODIFIER_LINK_MINUTES.

Lemma metadata_value_Ok id field value allowed u :
  validate_metadata_value (YamlError := YE) id field value allowed = Ok u ↔ value ∈ allowed.
Proof.
  unfold validate_metadata_value. rewrite <- str_in_spec. destruct u, (str_in value allowed); done.
Qed.

Lemma rule_metadata_Ok id dc st ai tags u :
  validate_rule_metadata (YamlError := YE) id dc st ai tags = Ok u → metadata_valid dc st ai tags.
Proof.
  unfold validate_rule_metadata, metadata_valid.
  destruct (validate_metadata_value _ _ dc _) eqn:Hdc; [|done].
  destruct (validate_metadata_value _ _ st _) eqn:Hst; [|done].
  destruct (validate_metadata_value _ _ ai _) eqn:Hai; [|done].
  destruct (collect _ tags) as [us|] eqn:Ht; [|done]. intros _.
  apply metadata_value_Ok in Hdc, Hst, Hai. split_and!; [done..|].
  assert (∃ us', collect (λ tag, if negb (starts_with tag "atlas:")
    then Err (UnsupportedAtlasTag (RE := RegexError) (YE := YE) id tag) else Ok tt) tags = Ok us')
    as Hf by eauto.
  rewrite collect_unit_Ok in Hf. eapply Forall_impl; [exact Hf|]. intros tag [b Hb].
  by destruct (starts_with tag "atlas:").
Qed.

Lemma validate_target_Ok id target u :
  validate_target (YamlError := YE) id target = Ok u → target ∈ SUPPORTED_RULE_TARGETS.
Proof.
  unfold validate_target. rewrite <- str_in_spec.
  by destruct (str_in target SUPPORTED_RULE_TARGETS).
Qed.

Lemma collect_forall {A B E} (f : A → result B E) (P : B → Prop) l bs :
  (∀ a b, f a = Ok b → P b) → collect f l = Ok bs → Forall P bs.
Proof. intros Hf Hc%collect_Ok. induction Hc; constructor; eauto. Qed.

Lemma regex_matchers_supported d ci ms :
  compile_regex_matchers (YamlError := YE) d ci = Ok ms → Forall matcher_supported ms.
Proof.
  unfold compile_regex_matchers. destruct (rule_regex d); [|by intros [= <-]].
  case_match; [done|]. apply collect_forall. intros target m.
  destruct (validate_target _ target) eqn:Ht; [|done].
  destruct (compile_regex _ _ _); [|done]. intros [= <-].
  split; simpl; [by eapply validate_target_Ok | done].
Qed.

Lemma detection_matchers_supported d ci ms :
  compile_detection_matchers (YamlError := YE) d ci = Ok ms → Forall matcher_supported ms.
Proof.
  unfold compile_detection_matchers. destruct (rule_detection d) as [det|]; [|by intros [= <-]].
  destruct (negb _); [done|]. destruct (collect (compile_selection _ _ _) _) eqn:Hc; [|done].
  destruct (collect _ (bm_keys _)); [|done]. intros [= <-]. revert Hc.
  apply collect_forall. intros [target regex] m. unfold compile_selection.
  destruct (validate_target _ target) eqn:Ht; [|done].
  destruct (bool_decide (dd_scope det = SegmentScope) && _)%bool eqn:Hs; [done|].
  destruct (compile_regex _ _ _); [|done].
  destruct (match bm_get target _ with Some _ => _ | None => _ end); [|done].
  intros [= <-]. split; simpl; [by eapply validate_target_Ok|]. intros Heq.
  rewrite bool_decide_true in Hs by done. apply str_in_spec.
  by destruct (str_in target SEGMENT_SCOPE_TARGETS).
Qed.

Lemma compile_rule_valid ci d rule :
  is_canonical_contribution_id (rule_id d) = true →
  compile_rule (YamlError := YE) ci d = Ok rule → cr_definition rule = d ∧ rule_valid rule.
Proof.
  intros Hid. unfold compile_rule, compile_matchers.
  destruct (validate_metadata_value _ _ _ _) eqn:Hsev; [|done].
  destruct (validate_rule_metadata _ _ _ _ _) eqn:Hmeta; [|done].
  destruct (compile_regex_matchers _ _) as [ms1|] eqn:H1; [|done].
  destruct (compile_detection_matchers _ _) as [ms2|] eqn:H2; [|done].
  case_bool_decide as Hlen; [done|]. intros [= <-]. split; [done|].
  split_and!; simpl; [done|by apply metadata_value_Ok in Hsev|by eapply rule_metadata_Ok| |].
  - intros Heq. apply Hlen. by rewrite Heq.
  - apply Forall_app. eauto using regex_matchers_supported, detection_matchers_supported.
Qed.

Lemma compile_modifier_valid m m' :
  compile_modifier (YamlError := YE) m = Ok m' →
  m' = m ∧ link_valid m ∧ metadata_valid (mod_detection_class m) (mod_signal_type m)
    (mod_analytic_intent m) (mod_atlas_tags m).
Proof.
  unfold compile_modifier. destruct (validate_rule_metadata _ _ _ _ _) eqn:Hmeta; [|done].
  destruct (validate_modifier_link m) eqn:Hl; [|done]. intros [= <-].
  split_and!; [done| |by eapply rule_metadata_Ok].
  intros link Hlink. unfold validate_modifier_link in Hl. rewrite Hlink in Hl.
  destruct (bool_decide _ && bool_decide _)%bool eqn:He; [done|].
  destruct (Z.ltb_spec MAX_MODIFIER_LINK_CALLS (link_calls link)); [done|].
  split_and!; [|done|].
  - apply andb_false_iff in He as [?%bool_decide_eq_false|?%bool_decide_eq_false]; auto.
  - intros minutes Hm. rewrite Hm in Hl.
    destruct (Z.eqb_spec minutes 0), (Z.ltb_spec MAX_MODIFIER_LINK_MINUTES minutes);
      simpl in Hl; done.
Qed.

Lemma collect_id {A E} (f : A → result A E) l bs :
  (∀ a b, f a = Ok b → b = a) → collect f l = Ok bs → bs = l.
Proof. intros Hf Hc%collect_Ok. induction Hc; [done|]. f_equal; eauto. Qed.

Lemma filter_elem {A} (p : A → bool) l x : x ∈ List.filter p l → x ∈ l.
Proof. intros [? _]%list_elem_of_In%List.filter_In. by apply list_elem_of_In. Qed.

Lemma compile_rules_valid ci ds rules :
  (∀ d, d ∈ ds → is_canonical_contribution_id (rule_id d) = true) →
  collect (compile_rule (YamlError := YE) ci) ds = Ok rules →
  map cr_definition rules = ds ∧ Forall rule_valid rules.
Proof.
  intros Hcan Hr%collect_Ok. induction Hr as [|d rule ds rules Hd Hr IH]; simpl; [done|].
  destruct (compile_rule_valid _ _ _ (Hcan d ltac:(set_solver)) Hd) as [-> ?].
  destruct IH as [-> ?]; [set_solver|]. split; [done|]. by constructor.
Qed.

Lemma compile_Ok rs policy c :
  compile (YamlError := YE) rs policy = Ok c →
  rs_version rs = 1 ∧
  map cr_definition (crs_rules c) = List.filter (rule_active rs policy) (rs_rules rs) ∧
  Forall rule_valid (crs_rules c) ∧
  Forall (λ m, canonical_modifier m ∧ link_valid m)
    (List.filter (modifier_active rs policy) (rs_modifiers rs)) ∧
  crs_content c = build_export (crs_rules c)
    (List.filter (modifier_active rs policy) (rs_modifiers rs)) (effective_policy_name policy).
Proof.
  unfold compile.
  destruct (validate_version rs) as [[]|] eqn:Hv; [|done].
  destruct (validate_rule_ids rs) as [[]|] eqn:Hids; [|done].
  destruct (collect (compile_rule _) _) as [crs|] eqn:Hr; [|done].
  destruct (collect compile_modifier _) as [ms|] eqn:Hm; [|done]. intros [= <-]. simpl.
  apply validate_version_Ok in Hv. apply validate_rule_ids_Ok in Hids as [Hrid Hmid].
  pose proof Hm as ->%collect_id; [|by intros ? ? (-> & _)%compile_modifier_valid].
  rewrite Forall_forall in Hrid. rewrite Forall_forall in Hmid.
  apply collect_Ok in Hm.
  destruct (compile_rules_valid _ _ _ (λ d Hd, Hrid d (filter_elem _ _ _ Hd)) Hr).
  split_and!; [done..| |done].
  apply Forall_forall. intros m Hin. split; [by eapply Hmid, filter_elem|].
  apply list_elem_of_lookup in Hin as [i Hi].
  destruct (Forall2_lookup_l _ _ _ _ _ Hm Hi) as (m' & _ & Hc).
  by apply compile_modifier_valid in Hc as (_ & ? & _).
Qed.

End compile_facts.

(** What a document and a policy ask of a rule or modifier for it to be compiled. *)
Definition policy_admits (policy : option RulePolicy) (category : option string) (id : string) : Prop :=
  ∀ p, policy = Some p →
    (∀ c, category = Some c → (rp_enabled_categories p = [] ∨ c ∈ rp_enabled_categories p) ∧
       c ∉ rp_disabled_categories p) ∧
    (rp_enabled_rules p = [] ∨ id ∈ rp_enabled_rules p) ∧ id ∉ rp_disabled_rules p.

Definition rule_wanted (rs : RuleSet) (policy : option RulePolicy) (d : RuleDefinition) : Prop :=
  rule_enabled d = true ∧ rd_enabled (rs_defaults rs) = true ∧
  policy_admits policy (Some (rule_category d)) (rule_id d).

Definition modifier_wanted (rs : RuleSet) (policy : option RulePolicy) (m : ModifierDefinition) : Prop :=
  mod_enabled m = true ∧ rd_enabled (rs_defaults rs) = true ∧ policy_admits policy None (mod_id m).

(** [selected P l k]: [k] is the elements of [l] with [P], in their order. *)
Inductive selected {A} (P : A → Prop) : list A → list A → Prop :=
| selected_nil : selected P [] []
| selected_take a l k : P a → selected P l k → selected P (a :: l) (a :: k)
| selected_skip a l k : ¬ P a → selected P l k → selected P (a :: l) k.

Lemma filter_selected {A} (f : A → bool) (P : A → Prop) l :
  (∀ a, f a = true ↔ P a) → selected P l (List.filter f l).
Proof.
  intros Hf. induction l as [|a l IH]; cbn [List.filter]; [constructor|].
  destruct (f a) eqn:Ha; constructor; try done; by rewrite <- Hf, ?Ha.
Qed.

Lemma negb_str_in x l : negb (str_in x l) = true ↔ x ∉ l.
Proof. rewrite negb_true_iff, <- not_true_iff_false, str_in_spec. done. Qed.

Lemma listed_or_any x l :
  (negb (bool_decide (l = [])) && negb (str_in x l))%bool = false ↔ l = [] ∨ x ∈ l.
Proof.
  rewrite andb_false_iff, !negb_false_iff, bool_decide_eq_true, str_in_spec. done.
Qed.

Lemma policy_allows_rule_spec d policy :
  policy_allows_rule d policy = true ↔ policy_admits policy (Some (rule_category d)) (rule_id d).
Proof.
  unfold policy_allows_rule, policy_admits. destruct policy as [p|]; [|by split].
  destruct (negb _ && _)%bool eqn:H1.
  { split; [done|]. intros Hp. destruct (Hp p eq_refl) as [Hc _]. destruct (Hc _ eq_refl) as [Hc' _].
    apply listed_or_any in Hc'. congruence. }
  apply listed_or_any in H1. destruct (str_in (rule_category d) _) eqn:H2.
  { split; [done|]. intros Hp. destruct (Hp p eq_refl) as [Hc _]. destruct (Hc _ eq_refl) as [_ Hn].
    by apply str_in_spec in H2. }
  assert (rule_category d ∉ rp_disabled_categories p) as Hn by (by rewrite <- str_in_spec, H2).
  destruct (negb _ && _)%bool eqn:H3.
  { split; [done|]. intros Hp. destruct (Hp p eq_refl) as (_ & Hr & _). apply listed_or_any in Hr. congruence. }
  apply listed_or_any in H3. rewrite negb_str_in. split.
  - intros Hd p' [= <-]. split_and!; [|done|done]. by intros c [= <-].
  - intros Hp. by destruct (Hp p eq_refl) as (_ & _ & ?).
Qed.

Lemma policy_allows_modifier_spec m policy :
  policy_allows_modifier m policy = true ↔ policy_admits policy None (mod_id m).
Proof.
  unfold policy_allows_modifier, policy_admits. destruct policy as [p|]; [|by split].
  destruct (negb _ && _)%bool eqn:H3.
  { split; [done|]. intros Hp. destruct (Hp p eq_refl) as (_ & Hr & _). apply listed_or_any in Hr. congruence. }
  apply listed_or_any in H3. rewrite negb_str_in. split.
  - intros Hd p' [= <-]. by split_and!.
  - intros Hp. by destruct (Hp p eq_refl) as (_ & _ & ?).
Qed.

Lemma rule_active_spec rs policy d : rule_active rs policy d = true ↔ rule_wanted rs policy d.
Proof. unfold rule_active, rule_wanted. rewrite !andb_true_iff, policy_allows_rule_spec. tauto. Qed.

Lemma modifier_active_spec rs policy m : modifier_active rs policy m = true ↔ modifier_wanted rs policy m.
Proof. unfold modifier_active, modifier_wanted. rewrite !andb_true_iff, policy_allows_modifier_spec. tauto. Qed.

Section compiled.
Context `{RegexEngine} {YE : Type}.

(** The regular expression a pattern compiles to. *)
Definition pattern_compiles (case_insensitive : bool) (pattern : string) (r : Regex) : Prop :=
  Regex_new (if case_insensitive then case_insensitive_pattern pattern else pattern) = Ok r.

(** A matcher for each target of the pattern, and one for each selection with its exclusion;
    an exclusion is of a selected target. *)
Definition target_matcher (case_insensitive : bool) (pattern target : string) (m : CompiledMatcher) : Prop :=
  cm_target m = target ∧ pattern_compiles case_insensitive pattern (cm_regex m) ∧
  cm_exclusion_regex m = None ∧ cm_scope m = Field.

Definition selection_matcher (case_insensitive : bool) (detection : DetectionDefinition) (entry : string * string)
    (m : CompiledMatcher) : Prop :=
  cm_target m = entry.1 ∧ pattern_compiles case_insensitive entry.2 (cm_regex m) ∧ cm_scope m = dd_scope detection ∧
  match bm_get entry.1 (dd_exclude detection) with
  | Some pattern => ∃ r, cm_exclusion_regex m = Some r ∧ pattern_compiles case_insensitive pattern r
  | None => cm_exclusion_regex m = None
  end.

Definition matchers_of (case_insensitive : bool) (d : RuleDefinition) (matchers : list CompiledMatcher) : Prop :=
  ∃ fields selections, matchers = fields ++ selections ∧
    match rule_regex d with
    | Some pattern => rule_targets d ≠ [] ∧ Forall2 (target_matcher case_insensitive pattern) (rule_targets d) fields
    | None => fields = []
    end ∧
    match rule_detection d with
    | Some detection =>
        dd_condition detection = "selection" ∧
        Forall2 (selection_matcher case_insensitive detection) (dd_selection detection) selections ∧
        (∀ target, target ∈ (dd_exclude detection).*1 → bm_contains_key target (dd_selection detection) = true)
    | None => selections = []
    end.

Lemma compile_regex_Ok pattern ci id r :
  compile_regex (YamlError := YE) pattern ci id = Ok r → pattern_compiles ci pattern r.
Proof. unfold compile_regex, pattern_compiles. destruct (Regex_new _); [by intros [= <-]|done]. Qed.

Lemma regex_matchers_of d ci ms : compile_regex_matchers (YamlError := YE) d ci = Ok ms →
  match rule_regex d with
  | Some pattern => rule_targets d ≠ [] ∧ Forall2 (target_matcher ci pattern) (rule_targets d) ms
  | None => ms = []
  end.
Proof.
  unfold compile_regex_matchers. destruct (rule_regex d) as [pattern|]; [|by intros [= <-]].
  case_bool_decide as Ht; [done|]. intros Hc%collect_Ok. split; [done|]. eapply Forall2_impl; [exact Hc|]. cbn beta.
  intros target m. destruct (validate_target _ _); [|done]. destruct (compile_regex _ _ _) eqn:Hr; [|done]. intros [= <-].
  by apply compile_regex_Ok in Hr.
Qed.

Lemma selection_matcher_of id detection ci entry m :
  compile_selection (YamlError := YE) id detection ci entry = Ok m → selection_matcher ci detection entry m.
Proof.
  destruct entry as [target pattern]. unfold compile_selection, selection_matcher. cbn [fst snd].
  destruct (validate_target _ _); [|done]. destruct (_ && _)%bool; [done|].
  destruct (compile_regex _ _ _) as [r|] eqn:Hr; [|done]. apply compile_regex_Ok in Hr.
  destruct (bm_get target (dd_exclude detection)) as [q|].
  - destruct (compile_regex q _ _) as [x|] eqn:Hx; [|done]. apply compile_regex_Ok in Hx. intros [= <-]. eauto 10.
  - by intros [= <-].
Qed.

Lemma detection_matchers_of d ci ms : compile_detection_matchers (YamlError := YE) d ci = Ok ms →
  match rule_detection d with
  | Some detection =>
      dd_condition detection = "selection" ∧
      Forall2 (selection_matcher ci detection) (dd_selection detection) ms ∧
      (∀ target, target ∈ (dd_exclude detection).*1 → bm_contains_key target (dd_selection detection) = true)
  | None => ms = []
  end.
Proof.
  unfold compile_detection_matchers. destruct (rule_detection d) as [detection|]; [|by intros [= <-]].
  destruct (str_in (dd_condition detection) _) eqn:Hcond; [|done]. cbn [negb].
  destruct (collect (compile_selection _ _ _) _) as [l|] eqn:Hl; [|done].
  destruct (collect _ (bm_keys _)) as [us|] eqn:Hx; [|done]. intros [= <-]. apply collect_Ok in Hl, Hx. split_and!.
  - apply str_in_spec in Hcond. unfold SUPPORTED_DETECTION_CONDITIONS in Hcond. by apply list_elem_of_singleton in Hcond.
  - eapply Forall2_impl; [exact Hl|]. intros entry m. apply selection_matcher_of.
  - intros target [i Hi]%list_elem_of_lookup. destruct (Forall2_lookup_l _ _ _ _ _ Hx Hi) as (u & _ & Hu).
    cbn beta in Hu. destruct (validate_target _ _); [|done]. by destruct (bm_contains_key target _).
Qed.

(** What an export says of a compiled rule and of a modifier. *)
Definition exports_matcher (m : CompiledMatcher) (x : RuleV1CompatibilityMatcher) : Prop :=
  rcm_target x = cm_target m ∧ rcm_regex x = Regex_as_str (cm_regex m) ∧ rcm_scope x = cm_scope m ∧
  rcm_exclusion_regex x = Regex_as_str <$> cm_exclusion_regex m.

Definition exports_rule (rule : CompiledRule) (x : RuleV1CompatibilityRule) : Prop :=
  let d := cr_definition rule in
  rcr_id x = rule_id d ∧ rcr_title x = rule_title d ∧ rcr_description x = rule_description d ∧
  rcr_category x = rule_category d ∧ rcr_detection_class x = rule_detection_class d ∧
  rcr_signal_type x = rule_signal_type d ∧ rcr_analytic_intent x = rule_analytic_intent d ∧
  rcr_atlas_tags x = rule_atlas_tags d ∧ rcr_severity x = rule_severity d ∧ rcr_score x = rule_score d ∧
  rcr_tags x = rule_tags d ∧ rcr_explanation x = rule_explanation d ∧
  rcr_falsepositives x = rule_falsepositives d ∧ Forall2 exports_matcher (cr_matchers rule) (rcr_matchers x).

Definition exports_modifier (m : ModifierDefinition) (x : RuleV1CompatibilityModifier) : Prop :=
  rmo_id x = mod_id m ∧ rmo_score x = mod_score m ∧ rmo_detection_class x = mod_detection_class m ∧
  rmo_signal_type x = mod_signal_type m ∧ rmo_analytic_intent x = mod_analytic_intent m ∧
  rmo_atlas_tags x = mod_atlas_tags m ∧ rmo_when_all_categories x = mod_when_all_categories m ∧
  rmo_when_all_rule_ids x = mod_when_all_rule_ids m ∧ rmo_link x = mod_link m ∧
  rmo_falsepositives x = mod_falsepositives m ∧ rmo_explanation x = mod_explanation m.

Lemma Forall2_map_r {A B} (P : A → B → Prop) (f : A → B) l : (∀ a, P a (f a)) → Forall2 P l (map f l).
Proof. intros Hf. induction l; constructor; auto. Qed.

Lemma export_rule_exports rule : exports_rule rule (export_rule rule).
Proof. unfold exports_rule. split_and!; try done. cbn [export_rule rcr_matchers]. by apply Forall2_map_r. Qed.

Lemma compile_rule_matchers ci d rule : compile_rule (YamlError := YE) ci d = Ok rule →
  cr_definition rule = d ∧ matchers_of ci d (cr_matchers rule).
Proof.
  unfold compile_rule, compile_matchers.
  destruct (validate_metadata_value _ _ _ _); [|done]. destruct (validate_rule_metadata _ _ _ _ _); [|done].
  destruct (compile_regex_matchers _ _) as [ms1|] eqn:H1; [|done].
  destruct (compile_detection_matchers _ _) as [ms2|] eqn:H2; [|done].
  case_bool_decide; [done|]. intros [= <-]. split; [done|]. exists ms1, ms2.
  split_and!; [done|by apply regex_matchers_of|by apply detection_matchers_of].
Qed.

Lemma compiled_matchers rs policy c : compile (YamlError := YE) rs policy = Ok c →
  Forall (λ rule, matchers_of (rd_case_insensitive (rs_defaults rs)) (cr_definition rule) (cr_matchers rule)) (crs_rules c).
Proof.
  unfold compile. destruct (validate_version rs); [|done]. destruct (validate_rule_ids rs); [|done].
  destruct (collect (compile_rule _) _) as [crs|] eqn:Hr; [|done]. destruct (collect compile_modifier _); [|done].
  intros [= <-]. cbn [crs_rules]. apply collect_Ok in Hr.
  induction Hr as [|d rule ds rules Hd _ IH]; constructor; [|done]. by apply compile_rule_matchers in Hd as [-> ?].
Qed.

End compiled.

(** C27: a compiled set holds exactly the rules its document and the policy ask for, in declaration
    order: enabled, with the defaults enabled, of an admitted category and id.  Each has a canonical
    id, supported metadata and at least one matcher, all on supported targets and segment scope only on
    command text, and its matchers are those of its patterns: one for each target of its expression and
    each of its selections, with the exclusion declared for it.  The modifiers are those asked for, with
    canonical ids and links within the documented limits.  The set exports each of these rules and
    modifiers, field by field, and nothing else. *)
Theorem compile_correct `{RegexEngine} YE rs policy c :
  compile (YamlError := YE) rs policy = Ok c →
  rs_version rs = 1 ∧
  selected (rule_wanted rs policy) (rs_rules rs) (map cr_definition (crs_rules c)) ∧
  Forall rule_valid (crs_rules c) ∧
  Forall (λ rule, matchers_of (rd_case_insensitive (rs_defaults rs)) (cr_definition rule) (cr_matchers rule)) (crs_rules c) ∧
  Forall2 exports_rule (crs_rules c) (re_rules (crs_content c)) ∧
  ∃ modifiers, selected (modifier_wanted rs policy) (rs_modifiers rs) modifiers ∧
    Forall (λ m, canonical_modifier m ∧ link_valid m) modifiers ∧
    Forall2 exports_modifier modifiers (re_modifiers (crs_content c)) ∧
    re_policy_name (crs_content c) = effective_policy_name policy.
Proof.
  intros Hc. pose proof (compiled_matchers rs policy c Hc) as Hm. apply compile_Ok in Hc as (Hv & Hr & Hvalid & Hmods & ->).
  split_and!; [done| |done|done| |].
  - rewrite Hr. apply filter_selected, rule_active_spec.
  - cbn [build_export re_rules]. apply Forall2_map_r, export_rule_exports.
  - exists (List.filter (modifier_active rs policy) (rs_modifiers rs)). split_and!; [apply filter_selected, modifier_active_spec|done| |done].
    cbn [build_export re_modifiers]. by apply Forall2_map_r.
Qed.

(** ** Evaluation: the score is the sum of what matched *)

Definition sum_scores {A} (f : A → Z) (l : list A) : Z := foldr (λ a n, f a + n) 0 l.

(** An export as compilation produces it: unique ids, scores in [u64]. *)
Record export_wf (export : RuleV1CompatibilityExport) : Prop := {
  ew_rules : NoDup (map rcr_id (re_rules export));
  ew_modifiers : NoDup (map rmo_id (re_modifiers export));
  ew_rule_scores : Forall (λ r, u64 (rcr_score r)) (re_rules export);
  ew_modifier_scores : Forall (λ m, u64 (rmo_score m)) (re_modifiers export);
}.

Section evaluation_facts.

Lemma NoDup_map_filter {A B} (f : A → B) (p : A → bool) l :
  NoDup (map f l) → NoDup (map f (List.filter p l)).
Proof.
  induction l as [|a l IH]; simpl; [done|]. rewrite NoDup_cons. intros [Ha Hl].
  destruct (p a); simpl; [|by apply IH]. apply NoDup_cons. split; [|by apply IH].
  intros (x & Heq & Hx%filter_elem)%list_elem_of_fmap. apply Ha. rewrite Heq.
  by apply list_elem_of_fmap_2.
Qed.

Lemma Forall_filter_bool {A} (P : A → Prop) (p : A → bool) l :
  Forall P l → Forall P (List.filter p l).
Proof.
  rewrite !Forall_forall. intros HP x Hx%filter_elem. by apply HP.
Qed.

Lemma sum_filter_mono {A} (f : A → Z) (p q : A → bool) l :
  Forall (λ a, u64 (f a)) l → (∀ a, p a = true → q a = true) →
  sum_scores f (List.filter p l) ≤ sum_scores f (List.filter q l).
Proof.
  intros Hu Hpq. induction Hu as [|a l [? ?] _ IH]; simpl; [done|].
  specialize (Hpq a). destruct (p a), (q a); simpl; naive_solver lia.
Qed.

Lemma atomic_elem export matched r :
  r ∈ atomic_rules export matched ↔ r ∈ re_rules export ∧ rcr_id r ∈ matched.
Proof.
  unfold atomic_rules. rewrite list_elem_of_In, List.filter_In, bs_contains_spec.
  by rewrite <- list_elem_of_In.
Qed.

Lemma eligible_spec categories ids withheld m :
  modifier_eligible categories ids withheld m = true ↔
  (rmo_when_all_categories m ≠ [] ∨ rmo_when_all_rule_ids m ≠ []) ∧
  (∀ c, c ∈ rmo_when_all_categories m → c ∈ categories) ∧
  (∀ i, i ∈ rmo_when_all_rule_ids m → i ∈ ids) ∧ rmo_id m ∉ withheld.
Proof.
  unfold modifier_eligible.
  rewrite !andb_true_iff, orb_true_iff, !negb_true_iff, !bool_decide_eq_false,
    !forallb_forall, <- not_true_iff_false, bs_contains_spec.
  setoid_rewrite bs_contains_spec. setoid_rewrite <- list_elem_of_In. tauto.
Qed.

Lemma triggered_elem export matched withheld m :
  m ∈ triggered_modifiers_without export matched withheld ↔
  m ∈ re_modifiers export ∧
  (rmo_when_all_categories m ≠ [] ∨ rmo_when_all_rule_ids m ≠ []) ∧
  (∀ c, c ∈ rmo_when_all_categories m → ∃ r, r ∈ atomic_rules export matched ∧ rcr_category r = c) ∧
  (∀ i, i ∈ rmo_when_all_rule_ids m → ∃ r, r ∈ atomic_rules export matched ∧ rcr_id r = i) ∧
  rmo_id m ∉ withheld.
Proof.
  unfold triggered_modifiers_without.
  rewrite list_elem_of_In, List.filter_In, eligible_spec, <- list_elem_of_In.
  setoid_rewrite bs_of_list_elem. setoid_rewrite list_elem_of_fmap. naive_solver.
Qed.

Lemma triggered_none export matched withheld :
  atomic_rules export matched = [] → triggered_modifiers_without export matched withheld = [].
Proof.
  intros Ha. apply elem_of_nil_inv. intros m (_ & Hne & Hc & Hi & _)%triggered_elem.
  rewrite Ha in Hc, Hi. destruct Hne as [Hne|Hne].
  - destruct (rmo_when_all_categories m) as [|c l]; [done|].
    destruct (Hc c) as (r & Hr & _); set_solver.
  - destruct (rmo_when_all_rule_ids m) as [|c l]; [done|].
    destruct (Hi c) as (r & Hr & _); set_solver.
Qed.

Context `{Privacy}.

Lemma new_Ok id t points raw c :
  new id t points raw = Ok c → rc_id c = id ∧ rc_type c = t ∧ rc_points c = points.
Proof. unfold new. repeat (case_match; try done). by intros [= <-]. Qed.

(** A list of scored items pushes one contribution per positive score. *)
Lemma contributions_spec {A} (id : A → string) (t : RiskContributionType) (score : A → Z)
    (explanation : A → string) l out :
  result_map (@concat _) (collect (λ a, contribution_of (id a) t (score a) (explanation a)) l)
    = Ok out →
  Forall (λ a, u64 (score a)) l →
  total_points out = sum_scores score l ∧ Forall (λ c, u64 (rc_points c)) out ∧
  map contribution_key out = map (λ a, (t, id a)) (List.filter (λ a, 0 <? score a) l).
Proof.
  destruct (collect _ l) as [ls|] eqn:Hc; simpl; [|done]. intros [= <-] Hu.
  apply collect_Ok in Hc. induction Hc as [|a cs l ls Ha Hc IH]; simpl; [done|].
  apply Forall_cons in Hu as [[Hu0 Hu1] Hu]. destruct (IH Hu) as (Ht & Hp & Hk).
  rewrite total_points_app, Forall_app, map_app, Ht, Hk. unfold contribution_of in Ha.
  destruct (Z.ltb_spec 0 (score a)).
  - destruct (new _ _ _ _) as [c|] eqn:Hn; simpl in Ha; [|done]. injection Ha as <-.
    apply new_Ok in Hn as (Hid & Hty & Hpt). simpl. split_and!; [lia| |done|].
    + constructor; [|done]. rewrite Hpt. by split.
    + unfold contribution_key at 1. by rewrite Hid, Hty.
  - injection Ha as <-. simpl. split_and!; [lia|done|done|done].
Qed.

Lemma canonical_order_nodup l : canonical_order l → NoDup l.
Proof.
  induction 1 as [|c out Hord IH Hlt]; constructor; [|done].
  rewrite Forall_forall in Hlt. intros Hc. by apply (lt_irrefl (contribution_key c)), Hlt.
Qed.

Lemma canonical_total l out :
  NoDup (map contribution_key l) → canonicalize_contributions l = Ok out → Permutation out l.
Proof.
  intros Hnd (Hord & Hel & _)%canonicalize_Ok.
  apply NoDup_Permutation; [by apply canonical_order_nodup|by eapply NoDup_fmap_1|done].
Qed.

Lemma total_points_perm l l' : Permutation l l' → total_points l = total_points l'.
Proof. induction 1; simpl; lia. Qed.

Lemma keys_nodup {A B} (id : A → string) (id' : B → string) (t t' : RiskContributionType) l l' :
  t ≠ t' → NoDup (map id l) → NoDup (map id' l') →
  NoDup (map (λ a, (t, id a)) l ++ map (λ b, (t', id' b)) l').
Proof.
  intros Ht Hl Hl'.
  assert (∀ X (f : X → string) k (xs : list X), NoDup (map f xs) → NoDup (map (λ a, (k : RiskContributionType, f a)) xs)) as Hpair.
  { intros X f k xs Hnd. rewrite <- (map_map f (pair k)).
    by apply (NoDup_fmap_2 (pair k)). }
  apply NoDup_app. split_and!; [by apply Hpair| |by apply Hpair].
  intros x (a & -> & _)%list_elem_of_fmap (b & Heq & _)%list_elem_of_fmap. congruence.
Qed.

Lemma evaluate_matched_Ok export matched withheld r :
  export_wf export → evaluate_matched_without export matched withheld = Ok r →
  let atomic := atomic_rules export matched in
  let modifiers := triggered_modifiers_without export matched withheld in
  match r with
  | None => atomic = []
  | Some m =>
      atomic ≠ [] ∧ mr_rule_ids m = map rcr_id atomic ++ map rmo_id modifiers ∧
      mr_score m = sum_scores rcr_score atomic + sum_scores rmo_score modifiers ∧
      canonical_order (mr_contributions m) ∧
      total_points (mr_contributions m) = mr_score m
  end.
Proof.
  intros [Hnr Hnm Hur Hum]. unfold evaluate_matched_without.
  set (atomic := atomic_rules export matched).
  set (mods := triggered_modifiers_without export matched withheld).
  destruct (rule_contributions atomic) as [rc|] eqn:Hrc; [|done].
  destruct (modifier_contributions mods) as [mc|] eqn:Hmc; [|done].
  apply contributions_spec in Hrc as (Htr & Hpr & Hkr); [|by apply Forall_filter_bool].
  apply contributions_spec in Hmc as (Htm & Hpm & Hkm); [|by apply Forall_filter_bool].
  destruct (canonicalize_contributions _) as [cs|] eqn:Hcan; [|done].
  pose proof (proj1 (canonicalize_Ok _ _ Hcan)) as Hord.
  apply canonical_total in Hcan.
  2:{ rewrite map_app, Hkr, Hkm. apply keys_nodup; [done|by do 2 apply NoDup_map_filter..]. }
  case_bool_decide as Hids.
  { intros [= <-]. by apply app_eq_nil in Hids as [?%map_eq_nil _]. }
  destruct (checked_risk_sum cs) as [score|] eqn:Hs; [|done]. intros [= <-]. simpl.
  apply (checked_risk_sum_acc cs score 0) in Hs as (_ & -> & _).
  2:{ rewrite Hcan. by apply Forall_app. }
  rewrite (total_points_perm _ _ Hcan), total_points_app, Htr, Htm.
  split_and!; try done. intros Ha. apply Hids. unfold mods. rewrite Ha, triggered_none by done. done.
Qed.

End evaluation_facts.

(** C21: evaluating matched rule ids returns a result exactly when one of them is
    a rule of the set (unknown ids create nothing); the result names the matched
    rules and then the triggered modifiers, in declaration order, and its score
    is the sum of their scores, accounted for point by point by canonical
    contributions. *)
Theorem evaluate_matched_correct `{Privacy} export matched withheld r :
  export_wf export → evaluate_matched_without export matched withheld = Ok r →
  let atomic := atomic_rules export matched in
  let modifiers := triggered_modifiers_without export matched withheld in
  match r with
  | None => atomic = []
  | Some m =>
      atomic ≠ [] ∧ mr_rule_ids m = map rcr_id atomic ++ map rmo_id modifiers ∧
      mr_score m = sum_scores rcr_score atomic + sum_scores rmo_score modifiers ∧
      canonical_order (mr_contributions m) ∧
      total_points (mr_contributions m) = mr_score m
  end.
Proof. apply evaluate_matched_Ok. Qed.

(** Matching more rules, or withholding fewer modifiers, keeps every triggered
    modifier and never lowers the score. *)
Theorem evaluate_matched_monotone `{Privacy} export matched matched' withheld withheld' m m' :
  export_wf export → (∀ x, x ∈ matched → x ∈ matched') → (∀ x, x ∈ withheld' → x ∈ withheld) →
  evaluate_matched_without export matched withheld = Ok (Some m) →
  evaluate_matched_without export matched' withheld' = Ok (Some m') →
  (∀ x, x ∈ mr_rule_ids m → x ∈ mr_rule_ids m') ∧ mr_score m ≤ mr_score m'.
Proof.
  intros Hwf Hm Hw H1 H2.
  apply evaluate_matched_Ok in H1 as (_ & -> & -> & _); [|done].
  apply evaluate_matched_Ok in H2 as (_ & -> & -> & _); [|done].
  assert (∀ r, r ∈ atomic_rules export matched → r ∈ atomic_rules export matched') as Ha.
  { intros r. rewrite !atomic_elem. naive_solver. }
  assert (∀ x, x ∈ triggered_modifiers_without export matched withheld →
               x ∈ triggered_modifiers_without export matched' withheld') as Ht.
  { intros x. rewrite !triggered_elem. intros (? & ? & Hc & Hi & ?).
    split_and!; try done; [| |naive_solver].
    - intros c Hin. destruct (Hc c Hin) as (r & ? & ?). eauto.
    - intros i Hin. destruct (Hi i Hin) as (r & ? & ?). eauto. }
  split.
  - intros x. rewrite !elem_of_app, !list_elem_of_fmap. naive_solver.
  - apply Z.add_le_mono.
    + apply sum_filter_mono; [apply Hwf|]. intros r. rewrite !bs_contains_spec. apply Hm.
    + unfold triggered_modifiers_without. apply sum_filter_mono; [apply Hwf|].
      intros a. rewrite !eligible_spec. setoid_rewrite bs_of_list_elem.
      setoid_rewrite list_elem_of_fmap. intros (? & Hc & Hi & ?). split_and!; [done| | |naive_solver].
      * intros c Hin. destruct (Hc c Hin) as (r & ? & ?). eauto.
      * intros i Hin. destruct (Hi i Hin) as (r & ? & ?). eauto.
Qed.

(** ** Overrides *)

(** The rule after the overrides naming it, in order. *)
Definition override_all (entries : list RuleOverrideEntry) (rule : RuleDefinition)
    : RuleDefinition :=
  foldl (λ r entry, if str_eqb (roe_rule_id entry) (rule_id r)
                    then override_rule entry r else r) rule entries.

Lemma lookup_map {A B} (f : A → B) (l : list A) i : map f l !! i = f <$> l !! i.
Proof. apply list_lookup_fmap. Qed.

Section override_facts.
Context `{RegexEngine} {YE : Type}.

(** An acceptable override: well formed, and naming a rule of the set. *)
Definition override_ok (rules : list RuleDefinition) (entry : RuleOverrideEntry) : Prop :=
  validate_rule_override_entry (YamlError := YE) entry = Ok tt ∧
  roe_rule_id entry ∈ map rule_id rules.

Lemma indexes_fold m (l : list (nat * RuleDefinition)) id :
  NoDup (map (λ ir, rule_id ir.2) l) →
  bm_get id (foldl (λ m ir, bm_insert (rule_id ir.2) ir.1 m) m l) =
  match list_find (λ ir, rule_id ir.2 = id) l with
  | Some (_, ir) => Some ir.1
  | None => bm_get id m
  end.
Proof.
  revert m; induction l as [|[i r] l IH]; intros m; simpl; [done|].
  rewrite NoDup_cons. intros [Hr Hl]. rewrite IH by done.
  destruct (decide (rule_id r = id)) as [<-|Hne].
  - destruct (list_find _ l) as [[k ir]|] eqn:Hf; simpl; [|apply bm_get_insert_eq].
    exfalso. apply list_find_Some in Hf as (Hk & Hid & _). apply Hr. rewrite <- Hid.
    apply list_elem_of_fmap. exists ir. split; [done|]. by eapply list_elem_of_lookup_2.
  - destruct (list_find _ l) as [[k ir]|]; simpl; [done|]. by rewrite bm_get_insert_ne.
Qed.

Lemma imap_pair_ids (rules : list RuleDefinition) :
  map (λ ir, rule_id ir.2) (imap pair rules) = map rule_id rules.
Proof.
  apply list_eq. intros i. rewrite !lookup_map, list_lookup_imap.
  by destruct (rules !! i).
Qed.

Lemma rule_indexes_get rules id i :
  NoDup (map rule_id rules) →
  bm_get id (rule_indexes rules) = Some i ↔ map rule_id rules !! i = Some id.
Proof.
  intros Hnd. unfold rule_indexes. rewrite indexes_fold by by rewrite imap_pair_ids.
  rewrite lookup_map, fmap_Some.
  destruct (list_find _ _) as [[k [j r]]|] eqn:Hf; simpl.
  - apply list_find_Some in Hf as (Hk & Hid & _). simpl in Hid.
    rewrite list_lookup_imap in Hk. destruct (rules !! k) as [r'|] eqn:Hr; [|done].
    injection Hk as <- <-. split; [intros [= <-]; eauto|].
    intros (r'' & Hr'' & ->). f_equal. eapply (NoDup_lookup (map rule_id rules)); [done| |];
      rewrite lookup_map, ?Hr, ?Hr''; simpl; by f_equal.
  - apply list_find_None in Hf. split; [done|]. intros (r & Hr & ->).
    rewrite Forall_forall in Hf. exfalso. apply (Hf (i, r)); [|done].
    apply list_elem_of_lookup. exists i. rewrite list_lookup_imap, Hr. done.
Qed.

Lemma alter_by_id (f : RuleDefinition → RuleDefinition) rules id i :
  NoDup (map rule_id rules) → map rule_id rules !! i = Some id →
  alter f i rules = map (λ r, if str_eqb id (rule_id r) then f r else r) rules.
Proof.
  intros Hnd Hi. apply list_eq. intros j. rewrite lookup_map.
  destruct (decide (j = i)) as [->|Hne].
  - rewrite list_lookup_alter_eq. rewrite lookup_map in Hi.
    destruct (rules !! i) as [r|]; simpl in *; [|done]. injection Hi as ->.
    by rewrite (proj2 (str_eqb_spec _ _) eq_refl).
  - rewrite list_lookup_alter_ne by done. destruct (rules !! j) as [r|] eqn:Hj; simpl; [|done].
    destruct (str_eqb id (rule_id r)) eqn:He; [|done]. apply str_eqb_spec in He.
    exfalso. apply Hne. eapply (NoDup_lookup (map rule_id rules)); [done| |done].
    rewrite lookup_map, Hj. simpl. by f_equal.
Qed.

Lemma override_all_id entries rule : rule_id (override_all entries rule) = rule_id rule.
Proof.
  unfold override_all. revert rule; induction entries as [|e entries IH]; intros rule; simpl; [done|].
  rewrite IH. by destruct (str_eqb _ _).
Qed.

Lemma map_override_ids entries rules : map rule_id (map (override_all entries) rules) = map rule_id rules.
Proof. rewrite map_map. apply map_ext, override_all_id. Qed.

Lemma apply_overrides_spec rules before rs entries rs' r :
  NoDup (map rule_id rules) → rs_rules rs = map (override_all before) rules →
  efold (λ _ entry, apply_override (YamlError := YE) (rule_indexes rules) entry) tt entries rs
    = (rs', r) →
  ∃ applied rest, entries = applied ++ rest ∧ Forall (override_ok rules) applied ∧
    rs' = set_rules rs (map (override_all (before ++ applied)) rules) ∧
    match r with
    | Ok _ => rest = []
    | Err _ => ∃ entry later, rest = entry :: later ∧ ¬ override_ok rules entry
    end.
Proof.
  intros Hnd. revert before rs; induction entries as [|e entries IH]; intros before rs Hrs; simpl.
  { intros [= <- <-]. exists [], []. rewrite (app_nil_r before), <- Hrs. split_and!; try done.
    by destruct rs. }
  unfold ebind. unfold apply_override at 1.
  assert (∀ err, ¬ override_ok rules e → (rs, Err err) = (rs', r) → ∃ applied rest,
    e :: entries = applied ++ rest ∧ Forall (override_ok rules) applied ∧
    rs' = set_rules rs (map (override_all (before ++ applied)) rules) ∧
    match r with Ok _ => rest = []
    | Err _ => ∃ entry later, rest = entry :: later ∧ ¬ override_ok rules entry end) as Hstop.
  { intros err Hbad [= <- <-]. exists [], (e :: entries). rewrite (app_nil_r before), <- Hrs.
    split_and!; [done|done|by destruct rs|]. eauto. }
  destruct (validate_rule_override_entry e) as [[]|err] eqn:Hv.
  2:{ apply Hstop. unfold override_ok. rewrite Hv. naive_solver. }
  destruct (bm_get (roe_rule_id e) (rule_indexes rules)) as [i|] eqn:Hg.
  2:{ apply Hstop. intros [_ [i Hi]%list_elem_of_lookup].
      apply rule_indexes_get in Hi; [congruence|done]. }
  apply rule_indexes_get in Hg; [|done]. intros Hrest.
  assert (alter (override_rule e) i (rs_rules rs) = map (override_all (before ++ [e])) rules)
    as Halter.
  { rewrite Hrs, (alter_by_id _ _ (roe_rule_id e)) by by rewrite map_override_ids.
    rewrite map_map. apply map_ext. intros x. unfold override_all. by rewrite foldl_app. }
  destruct (IH (before ++ [e]) (set_rules rs _) Halter Hrest)
    as (applied & rest & -> & Hok & -> & Hr).
  exists (e :: applied), rest. split_and!; [done| |by rewrite <- app_assoc|done].
  constructor; [|done]. split; [done|]. by eapply list_elem_of_lookup_2.
Qed.

End override_facts.

(** Operator overrides, on a set with unique rule ids: on success every entry
    is well formed and names a rule, and each rule's [enabled] and [score] are
    those of the last entries naming it, all else unchanged; on an error the
    entries before the first bad one, and only those, have been applied. *)
Theorem apply_rule_override_document_correct `{RegexEngine} YE document rs rs' r :
  NoDup (map rule_id (rs_rules rs)) →
  apply_rule_override_document (YamlError := YE) document rs = (rs', r) →
  rod_version document = 1 →
  ∃ applied rest, rod_overrides document = applied ++ rest ∧
    Forall (override_ok (YE := YE) (rs_rules rs)) applied ∧
    rs' = set_rules rs (map (override_all applied) (rs_rules rs)) ∧
    match r with
    | Ok _ => rest = []
    | Err _ => ∃ entry later, rest = entry :: later ∧ ¬ override_ok (YE := YE) (rs_rules rs) entry
    end.
Proof.
  intros Hnd Ha Hv. unfold apply_rule_override_document in Ha. rewrite Hv in Ha.
  apply (apply_overrides_spec _ []) in Ha; [done|done|].
  symmetry. apply map_id.
Qed.

(** ** Evidence *)

Lemma foldl_bs_insert_elem ids l x :
  x ∈ foldl (λ s (y : string), bs_insert y s) ids l ↔ x ∈ ids ∨ x ∈ l.
Proof.
  revert ids; induction l as [|y l IH]; intros ids; simpl; [set_solver|].
  rewrite IH, bs_insert_elem. set_solver.
Qed.

Section evidence_facts.
Context `{RegexEngine, Privacy} (evidence_hash : string → string).

Lemma matches_spec m name value :
  matches m name value = true ↔ cm_target m = name ∧ is_Some (find_spec m value).
Proof.
  unfold matches. rewrite andb_true_iff, str_eqb_spec.
  destruct (proj2 (find_computes free_charge m value) free_charge_infallible tt)
    as (s' & a & -> & <-).
  by destruct (find_spec m value) as [r|]; split; intros [? Hx]; split;
    first [done | eexists | destruct Hx].
Qed.

Definition rule_hits (fields : list (string * string)) (rule : CompiledRule) : bool :=
  match matching_field rule fields with Some _ => true | None => false end.

Definition rid (rule : CompiledRule) : string := rule_id (cr_definition rule).

Lemma evaluate_fold fields rules ids evidence :
  foldl (λ acc rule,
    match matching_field rule fields with
    | Some matched => (bs_insert (rule_id (cr_definition rule)) acc.1,
                       acc.2 ++ [evidence_of evidence_hash rule matched])
    | None => acc
    end) (ids, evidence) rules =
  (foldl (λ s x, bs_insert x s) ids (map rid (List.filter (rule_hits fields) rules)),
   evidence ++ omap (λ rule, evidence_of evidence_hash rule <$> matching_field rule fields) rules).
Proof.
  revert ids evidence; induction rules as [|rule rules IH]; intros ids evidence; simpl.
  { by rewrite app_nil_r. }
  destruct (rule_hits fields rule) eqn:Hh; unfold rule_hits in Hh;
    destruct (matching_field rule fields) as [f|]; try done; simpl;
    by rewrite IH, <- ?app_assoc.
Qed.

Lemma filter_by_id (p : CompiledRule → bool) (rules : list CompiledRule) (ids : list string) :
  NoDup (map rid rules) → (∀ x, x ∈ ids ↔ x ∈ map rid (List.filter p rules)) →
  List.filter (λ r, bs_contains (rid r) ids) rules = List.filter p rules.
Proof.
  intros Hnd Hids. apply List.filter_ext_in. intros r Hr%list_elem_of_In.
  apply eq_true_iff_eq. rewrite bs_contains_spec, Hids, list_elem_of_fmap. split.
  - intros (r' & Heq & Hr').
    pose proof Hr' as [Hr'1 Hp]%list_elem_of_In%List.filter_In. apply list_elem_of_In in Hr'1.
    apply list_elem_of_lookup in Hr as [i Hi]. apply list_elem_of_lookup in Hr'1 as [j Hj].
    assert (i = j) as ->; [|congruence].
    eapply (NoDup_lookup (map rid rules)); [done| |]; rewrite lookup_map, ?Hi, ?Hj; simpl; by f_equal.
  - intros Hp. exists r. split; [done|]. by apply list_elem_of_In, List.filter_In; split;
      [apply list_elem_of_In|].
Qed.

(** Evidence that a rule of the set matched a field. *)
Definition supported_by (rules : list CompiledRule) (fields : list (string * string))
    (e : Evidence) : Prop :=
  ∃ rule name value m, rule ∈ rules ∧ (name, value) ∈ fields ∧ m ∈ cr_matchers rule ∧
    cm_target m = name ∧ is_Some (find_spec m value) ∧
    e = {| ev_field := name; ev_redacted_value := redact_sensitive_text value;
           ev_hash := Some (evidence_hash value); ev_rule_id := Some (rid rule) |}.

Lemma evidence_supported fields rules :
  Forall (supported_by rules fields)
    (omap (λ rule, evidence_of evidence_hash rule <$> matching_field rule fields) rules).
Proof.
  apply Forall_forall. intros e (rule & Hrule & He)%list_elem_of_omap.
  destruct (matching_field rule fields) as [[name value]|] eqn:Hf; simpl in He; [|done].
  injection He as <-. unfold matching_field in Hf. apply List.find_some in Hf as [Hin Hex].
  apply existsb_exists in Hex as (m & Hm & [Ht Hs]%matches_spec).
  exists rule, name, value, m. apply list_elem_of_In in Hin, Hm. by split_and!.
Qed.

Lemma evidence_ids fields rules :
  map ev_rule_id (omap (λ rule, evidence_of evidence_hash rule <$> matching_field rule fields) rules)
  = map (λ r, Some (rid r)) (List.filter (rule_hits fields) rules).
Proof.
  induction rules as [|rule rules IH]; simpl; [done|].
  destruct (rule_hits fields rule) eqn:Hh; unfold rule_hits in Hh;
    destruct (matching_field rule fields); try done. simpl. by f_equal.
Qed.

Lemma evaluate_matched_ids export matched withheld m :
  evaluate_matched_without export matched withheld = Ok (Some m) →
  mr_rule_ids m = map rcr_id (atomic_rules export matched) ++
    map rmo_id (triggered_modifiers_without export matched withheld).
Proof.
  unfold evaluate_matched_without. repeat (case_match; try done). by intros [= <-].
Qed.

Lemma build_export_atomic rules mods name ids :
  map rcr_id (atomic_rules (build_export rules mods name) ids) =
  map rid (List.filter (λ r, bs_contains (rid r) ids) rules).
Proof.
  unfold atomic_rules; simpl. rewrite (filter_map_comm _ (λ r, bs_contains (rid r) ids)) by done.
  by rewrite map_map.
Qed.

End evidence_facts.

(** Evaluating fields with a compiled set of unique rule ids: the result names
    exactly the rules one of whose matchers counts in a field, in declaration
    order, before any modifier, and carries one piece of evidence per such rule,
    in the same order, taken from a field that matched, redacted and hashed. *)
Theorem evaluate_correct `{RegexEngine, Privacy} YE evidence_hash rs policy c fields m :
  NoDup (map rule_id (rs_rules rs)) → compile (YamlError := YE) rs policy = Ok c →
  evaluate evidence_hash c fields = Ok (Some m) →
  ∃ modifiers, mr_rule_ids m = map rid (List.filter (rule_hits fields) (crs_rules c)) ++ modifiers ∧
    map ev_rule_id (mr_evidence m)
      = map (λ r, Some (rid r)) (List.filter (rule_hits fields) (crs_rules c)) ∧
    Forall (supported_by evidence_hash (crs_rules c) fields) (mr_evidence m).
Proof.
  intros Hnd (_ & Hdef & _ & _ & Hcontent)%compile_Ok. unfold evaluate. rewrite evaluate_fold.
  set (ids := foldl _ _ _). cbn [app].
  destruct (evaluate_matched _ ids) as [[m'|]|] eqn:Hev; simpl; [|done|done]. intros [= <-].
  apply evaluate_matched_ids in Hev. rewrite Hcontent, build_export_atomic in Hev.
  assert (NoDup (map rid (crs_rules c))) as Hnd'.
  { unfold rid. rewrite <- (map_map cr_definition rule_id), Hdef. by apply NoDup_map_filter. }
  assert (∀ x, x ∈ ids ↔ x ∈ map rid (List.filter (rule_hits fields) (crs_rules c))) as Hids.
  { intros x. unfold ids. rewrite foldl_bs_insert_elem, elem_of_nil. tauto. }
  rewrite (filter_by_id _ _ _ Hnd' Hids) in Hev.
  eexists. split_and!; [exact Hev|apply evidence_ids|apply evidence_supported].
Qed.

(** ** Witnesses *)

#[local] Existing Instance literal_engine.
#[local] Existing Instance sample_privacy.

Definition sample_rule (id category regex : string) (score : Z) : RuleDefinition :=
  {| rule_id := id; rule_title := None; rule_description := None; rule_status := None;
     rule_author := None; rule_references := []; rule_falsepositives := [];
     rule_level := None; rule_category := category;
     rule_detection_class := "security_detection"; rule_signal_type := "atomic";
     rule_analytic_intent := "alert"; rule_atlas_tags := []; rule_severity := "low";
     rule_score := score; rule_targets := ["command"]; rule_regex := Some regex;
     rule_detection := None; rule_tags := []; rule_explanation := "matched";
     rule_enabled := true |}.

Definition sample_modifier : ModifierDefinition :=
  {| mod_id := "chain.both"; mod_score := 5; mod_detection_class := "security_detection";
     mod_signal_type := "chain"; mod_analytic_intent := "alert"; mod_atlas_tags := [];
     mod_when_all_categories := ["net"]; mod_when_all_rule_ids := ["rule.rm"];
     mod_link := Some {| link_calls := 3; link_order := DeclaredOrder; link_minutes := None |};
     mod_falsepositives := []; mod_explanation := "both"; mod_enabled := true |}.

Definition sample_rules : RuleSet :=
  {| rs_version := 1; rs_description := "sample";
     rs_defaults := {| rd_case_insensitive := false; rd_enabled := true |};
     rs_rules := [sample_rule "rule.curl" "net" "curl" 10; sample_rule "rule.rm" "fs" "rm -rf" 20];
     rs_modifiers := [sample_modifier] |}.

Definition sample_compiled : CompiledRuleSet :=
  match compile (YamlError := unit) sample_rules None with
  | Ok c => c
  | Err _ => {| crs_rules := [];
                crs_content := {| re_policy_name := None; re_rules := []; re_modifiers := [] |} |}
  end.

Lemma sample_compiles : compile (YamlError := unit) sample_rules None = Ok sample_compiled.
Proof. vm_compute. reflexivity. Qed.

Example sample_evaluates :
  option_map mr_score
    match evaluate (λ s, s) sample_compiled [("command", "curl x; rm -rf /")] with
    | Ok r => r | Err _ => None end = Some 35.
Proof. vm_compute. reflexivity. Qed.

Lemma sample_export_wf : export_wf (crs_content sample_compiled).
Proof.
  split.
  - change (NoDup ["rule.curl"; "rule.rm"]).
    apply NoDup_cons_2; [set_solver | apply NoDup_singleton].
  - change (NoDup ["chain.both"]). apply NoDup_singleton.
  - repeat constructor; vm_compute; discriminate.
  - repeat constructor; vm_compute; discriminate.
Qed.

Lemma merge_compile_correct_witness :
  ∃ cs, Forall2 (λ rs c, compile (YamlError := unit) rs None = Ok c) [sample_rules] cs ∧
    re_rules (crs_content sample_compiled) = concat (map (λ c, re_rules (crs_content c)) cs) ∧
    re_modifiers (crs_content sample_compiled)
      = concat (map (λ c, re_modifiers (crs_content c)) cs).
Proof.
  apply (merge_compile_correct unit [sample_rules] (joined [sample_rules]) None
    (re_rules (crs_content sample_compiled)) (re_modifiers (crs_content sample_compiled))).
  - vm_compute. reflexivity.
  - exists sample_compiled. split; [vm_compute; reflexivity | split; reflexivity].
Defined.

Lemma compile_correct_witness :
  selected (rule_wanted sample_rules None) (rs_rules sample_rules) (map cr_definition (crs_rules sample_compiled)) ∧
  Forall rule_valid (crs_rules sample_compiled) ∧
  Forall2 exports_rule (crs_rules sample_compiled) (re_rules (crs_content sample_compiled)).
Proof.
  destruct (compile_correct unit sample_rules None sample_compiled) as (_ & Hr & Hv & _ & He & _);
    [vm_compute; reflexivity | exact (conj Hr (conj Hv He))].
Defined.

Definition sample_result (matched withheld : list string) : MatchResult :=
  match evaluate_matched_without (crs_content sample_compiled) matched withheld with
  | Ok (Some m) => m
  | _ => {| mr_rule_ids := []; mr_categories := []; mr_detection_classes := [];
            mr_signal_types := []; mr_analytic_intents := []; mr_atlas_tags := [];
            mr_tags := []; mr_score := 0; mr_contributions := []; mr_evidence := [] |}
  end.

Lemma evaluate_matched_correct_witness :
  mr_score (sample_result ["rule.curl"; "rule.rm"] []) =
  sum_scores rcr_score (atomic_rules (crs_content sample_compiled) ["rule.curl"; "rule.rm"]) +
  sum_scores rmo_score
    (triggered_modifiers_without (crs_content sample_compiled) ["rule.curl"; "rule.rm"] []).
Proof.
  destruct (evaluate_matched_correct (crs_content sample_compiled) ["rule.curl"; "rule.rm"] []
    (Some (sample_result ["rule.curl"; "rule.rm"] [])) sample_export_wf) as (_ & _ & Hs & _);
    [vm_compute; reflexivity | exact Hs].
Defined.

Lemma evaluate_matched_monotone_witness :
  mr_score (sample_result ["rule.rm"] ["chain.both"]) ≤
  mr_score (sample_result ["rule.curl"; "rule.rm"] []).
Proof.
  apply (evaluate_matched_monotone (crs_content sample_compiled) ["rule.rm"]
    ["rule.curl"; "rule.rm"] ["chain.both"] []
    (sample_result ["rule.rm"] ["chain.both"]) (sample_result ["rule.curl"; "rule.rm"] [])
    sample_export_wf); [set_solver | set_solver | vm_compute; reflexivity..].
Defined.

Definition sample_overrides : RuleOverrideDocument :=
  {| rod_version := 1; rod_description := None;
     rod_overrides := [ {| roe_rule_id := "rule.rm"; roe_reason := "tuned";
                           roe_enabled := Some false; roe_score := None |};
                        {| roe_rule_id := "rule.none"; roe_reason := "typo";
                           roe_enabled := None; roe_score := Some 1 |} ] |}.

Lemma sample_ids_nodup : NoDup (map rule_id (rs_rules sample_rules)).
Proof. apply NoDup_cons_2; [|apply NoDup_cons_2; [|apply NoDup_nil_2]]; set_solver. Qed.

Lemma apply_rule_override_document_correct_witness :
  ∃ applied rest, rod_overrides sample_overrides = applied ++ rest ∧
    set_rules sample_rules [sample_rule "rule.curl" "net" "curl" 10;
        override_rule {| roe_rule_id := "rule.rm"; roe_reason := "tuned";
                         roe_enabled := Some false; roe_score := None |}
          (sample_rule "rule.rm" "fs" "rm -rf" 20)]
    = set_rules sample_rules (map (override_all applied) (rs_rules sample_rules)) ∧
    ∃ entry later, rest = entry :: later.
Proof.
  destruct (apply_rule_override_document_correct unit sample_overrides sample_rules
    (apply_rule_override_document (YamlError := unit) sample_overrides sample_rules).1
    (Err (UnknownOverrideRule "rule.none")) sample_ids_nodup)
    as (applied & rest & H1 & _ & H2 & entry & later & H3 & _);
    [vm_compute; reflexivity | reflexivity |].
  exists applied, rest. split; [exact H1 | split; [exact H2 | exists entry, later; exact H3]].
Defined.

Definition sample_fields : list (string * string) := [("command", "curl x; rm -rf /")].

Lemma evaluate_correct_witness :
  ∃ m modifiers, evaluate (λ s, s) sample_compiled sample_fields = Ok (Some m) ∧
    mr_rule_ids m = map rid (List.filter (rule_hits sample_fields) (crs_rules sample_compiled))
                    ++ modifiers.
Proof.
  destruct (evaluate_correct unit (λ s, s) sample_rules None sample_compiled sample_fields
    (match evaluate (λ s, s) sample_compiled sample_fields with
     | Ok (Some m) => m | _ => sample_result [] [] end) sample_ids_nodup)
    as (modifiers & Hids & _); [vm_compute; reflexivity | vm_compute; reflexivity |].
  eexists _, modifiers. split; [|exact Hids]. vm_compute. reflexivity.
Defined.
