(* ===== verification/ProcessChain.v ===== *)
(** * Process-chain rules

    crates/telltale-rules/src/process_chain.rs: the structured rule pack, its
    compilation, and the evaluation of one parent/child observation into
    deduplicated detections with the deployment's false-positive controls.  YAML
    parsing and the [regex] crate are parameters. *)

From S2P Require Import Prelude Ordered Rstr Scoring RuleMatch Rules.
From Stdlib Require Import Ascii.

Local Open Scope Z_scope.

Definition SEVERITIES : list string := VALID_DETECTION_SEVERITIES.
Definition CONFIDENCES : list string := ["low"; "medium"; "high"].

(** ** The pack *)

Inductive ProcessChainError (RE YE : Type) :=
| PcParse (e : YE)
| PcInvalidRegex (id : string) (e : RE)
| PcInvalidRuleId (id : string)
| PcDuplicateRuleId (id : string)
| UnknownCategory (id category : string)
| InvalidSeverity (id severity : string)
| InvalidConfidence (id confidence : string)
| InvalidMatchTarget (id target : string)
| ScoreOutOfBand (id severity : string) (score : Z)
| EmptySequence (id : string)
| InvalidCorrelationWindow (id : string) (window_seconds : Z).
Arguments PcParse {_ _}. Arguments PcInvalidRegex {_ _}. Arguments PcInvalidRuleId {_ _}.
Arguments PcDuplicateRuleId {_ _}. Arguments UnknownCategory {_ _}.
Arguments InvalidSeverity {_ _}. Arguments InvalidConfidence {_ _}.
Arguments InvalidMatchTarget {_ _}. Arguments ScoreOutOfBand {_ _}.
Arguments EmptySequence {_ _}. Arguments InvalidCorrelationWindow {_ _}.

Record PackDefaults := {
  pd_enabled : bool;
  pd_risk_entity : string;
  pd_suppression_window_seconds : Z;
}.

Record CategoryMetadata := {
  cat_detection_class : string;
  cat_analytic_intent : string;
  cat_investigation_fields : list string;
  cat_falsepositives : list string;
}.

Record ChainRuleDefinition := {
  ch_id : string;
  ch_title : string;
  ch_category : string;
  ch_severity : string;
  ch_score : Z;
  ch_confidence : string;
  ch_parent : string;
  ch_child : string;
  ch_mitre : list string;
  ch_reason : string;
  ch_command_line_any : list string;
  ch_command_line_none : list string;
  ch_path_any : list string;
  ch_path_none : list string;
  ch_source_severity : option Z;
  ch_enabled : option bool;
  ch_dedup_key : option string;
}.

Record StandaloneRuleDefinition := {
  sa_id : string;
  sa_title : string;
  sa_category : string;
  sa_severity : string;
  sa_score : Z;
  sa_confidence : string;
  sa_mitre : list string;
  sa_reason : string;
  sa_match : string;
  sa_patterns : list string;
  sa_exclude : list string;
  sa_enabled : option bool;
}.

Record CorrelationStepDefinition := {
  csd_any_category : list string;
  csd_any_rule_id : list string;
  csd_any_child : list string;
}.

Record CorrelationRuleDefinition := {
  co_id : string;
  co_title : string;
  co_category : string;
  co_severity : string;
  co_score : Z;
  co_confidence : string;
  co_mitre : list string;
  co_reason : string;
  co_window_seconds : Z;
  co_entity : string;
  co_sequence : list CorrelationStepDefinition;
  co_enabled : option bool;
}.

Record ProcessChainPack := {
  pack_version : Z;
  pack_description : string;
  pack_defaults : PackDefaults;
  pack_categories : list (string * CategoryMetadata);
  pack_rules : list ChainRuleDefinition;
  pack_standalone : list StandaloneRuleDefinition;
  pack_correlations : list CorrelationRuleDefinition;
}.

(** ** Observations and detections *)

Record ProcessRef := {
  pr_name : string;
  pr_path : option string;
  pr_pid : option Z;
  pr_command_line : option string;
}.

(** [normalize_process_name]: quotes and whitespace off, basename, lowercase, one
    [.exe] off, dots and dashes to underscores. *)
Definition path_separator (c : ascii) : bool := one_of ["\"%char; "/"%char] c.
Definition quotes : list ascii := [ascii_of_N 34; "'"%char].

Definition normalize_process_name (raw : string) : string :=
  let trimmed := trim (trim_matches quotes (trim raw)) in
  let basename := trim (default trimmed (rsplit_next path_separator trimmed)) in
  let lowered := to_ascii_lowercase basename in
  let stem := default lowered (strip_suffix lowered ".exe") in
  replace_chars ["."; "-"]%char "_"%char stem.

Definition normalized_name (p : ProcessRef) : string := normalize_process_name (pr_name p).
Definition path_text (p : ProcessRef) : string :=
  match pr_path p with
  | Some path => if is_empty path then pr_name p else path
  | None => pr_name p
  end.
Definition command_line_text (p : ProcessRef) : string := default "" (pr_command_line p).

Record ProcessObservation := {
  po_parent : ProcessRef;
  po_child : ProcessRef;
  po_grandparent : option ProcessRef;
  po_host : option string;
  po_user : option string;
  po_timestamp : option string;
  po_source_event_id : option string;
  po_parent_inferred : bool;
}.

Record ProcessChainDetection := {
  pcd_rule_id : string;
  pcd_rule_name : string;
  pcd_rule_category : string;
  pcd_detection_class : string;
  pcd_signal_type : string;
  pcd_analytic_intent : string;
  pcd_severity : string;
  pcd_score : Z;
  pcd_confidence : string;
  pcd_mitre : list string;
  pcd_reason : string;
  pcd_informational : bool;
  pcd_risk_entity_type : string;
  pcd_risk_entity_value : option string;
  pcd_investigation_fields : list string;
  pcd_falsepositives : list string;
  pcd_secondary_rule_ids : list string;
  pcd_dedup_key : string;
  pcd_suppression_window_seconds : Z;
  pcd_risk_adjustment : option string;
}.

Inductive StandaloneTarget := ProcessName | ProcessPath | CommandLine.

#[export] Instance StandaloneTarget_eq_dec : EqDecision StandaloneTarget.
Proof. solve_decision. Defined.

Record CorrelationStep := {
  cs_any_category : list string;
  cs_any_rule_id : list string;
  cs_any_child : list string;
}.

(** [CorrelationStep::matches]: every non-empty constraint is satisfied. *)
Definition step_matches (step : CorrelationStep) (category id child : string) : bool :=
  if (negb (bool_decide (cs_any_category step = []))
      && negb (bs_contains category (cs_any_category step)))%bool then false
  else if (negb (bool_decide (cs_any_rule_id step = []))
           && negb (bs_contains id (cs_any_rule_id step)))%bool then false
  else if (negb (bool_decide (cs_any_child step = []))
           && negb (bs_contains child (cs_any_child step)))%bool then false
  else true.

Record CompiledCorrelationRule := {
  ccr_id : string;
  ccr_title : string;
  ccr_category : string;
  ccr_detection_class : string;
  ccr_analytic_intent : string;
  ccr_severity : string;
  ccr_score : Z;
  ccr_confidence : string;
  ccr_mitre : list string;
  ccr_reason : string;
  ccr_window_seconds : Z;
  ccr_entity : string;
  ccr_steps : list CorrelationStep;
  ccr_falsepositives : list string;
}.

(** ** Controls *)

Record ProcessChainContext := {
  approved_admin_users : list string;
  management_hosts : list string;
  approved_rmm_products : list string;
}.

Definition default_context : ProcessChainContext :=
  {| approved_admin_users := []; management_hosts := []; approved_rmm_products := [] |}.

Definition user_is_approved_admin (context : ProcessChainContext) (user : option string) : bool :=
  match user with
  | Some user => bs_contains (to_ascii_lowercase user) (approved_admin_users context)
  | None => false
  end.

Definition host_is_management (context : ProcessChainContext) (host : option string) : bool :=
  match host with
  | Some host => bs_contains (to_ascii_lowercase host) (management_hosts context)
  | None => false
  end.

(** ** Ranks *)

(** [iter().position(|c| c == x).unwrap_or(0)]. *)
Fixpoint position_of (x : string) (l : list string) : option nat :=
  match l with
  | [] => None
  | y :: l' => if str_eqb y x then Some O else option_map S (position_of x l')
  end.

Definition severity_rank (severity : string) : nat := default O (position_of severity SEVERITIES).
Definition confidence_rank (confidence : string) : nat :=
  default O (position_of confidence CONFIDENCES).
Definition weaken_confidence (confidence : string) : string :=
  default "" (CONFIDENCES !! pred (confidence_rank confidence)).

Definition demoted (severity : string) : string * Z :=
  if str_eqb severity "critical" then ("high", 55)
  else if str_eqb severity "high" then ("medium", 40)
  else if str_eqb severity "medium" then ("low", 20)
  else ("informational", 0).

Definition risk_entity_value (entity : string) (observation : ProcessObservation)
    : option string :=
  if str_eqb entity "host" then po_host observation
  else if str_eqb entity "user" then po_user observation
  else match po_host observation with
       | Some host => Some host
       | None => po_user observation
       end.

(** ** Deduplication *)

(** The order within a group: score, then severity, both descending, then id. *)
Definition group_order (left right : ProcessChainDetection) : comparison :=
  then_with (cmp (pcd_score right) (pcd_score left))
    (then_with (cmp (severity_rank (pcd_severity right)) (severity_rank (pcd_severity left)))
       (cmp (pcd_rule_id left) (pcd_rule_id right))).

Definition with_group (winner : ProcessChainDetection) (techniques secondary : list string)
    : ProcessChainDetection :=
  {| pcd_rule_id := pcd_rule_id winner; pcd_rule_name := pcd_rule_name winner;
     pcd_rule_category := pcd_rule_category winner;
     pcd_detection_class := pcd_detection_class winner;
     pcd_signal_type := pcd_signal_type winner;
     pcd_analytic_intent := pcd_analytic_intent winner;
     pcd_severity := pcd_severity winner; pcd_score := pcd_score winner;
     pcd_confidence := pcd_confidence winner; pcd_mitre := techniques;
     pcd_reason := pcd_reason winner; pcd_informational := pcd_informational winner;
     pcd_risk_entity_type := pcd_risk_entity_type winner;
     pcd_risk_entity_value := pcd_risk_entity_value winner;
     pcd_investigation_fields := pcd_investigation_fields winner;
     pcd_falsepositives := pcd_falsepositives winner;
     pcd_secondary_rule_ids := secondary;
     pcd_dedup_key := pcd_dedup_key winner;
     pcd_suppression_window_seconds := pcd_suppression_window_seconds winner;
     pcd_risk_adjustment := pcd_risk_adjustment winner |}.

Definition collapse_group (group : list ProcessChainDetection) : option ProcessChainDetection :=
  match sort_by group_order group with
  | [] => None
  | winner :: losers =>
      let techniques :=
        foldl (λ s loser, bs_extend s (pcd_mitre loser)) (bs_of_list (pcd_mitre winner)) losers in
      let secondary :=
        dedup (sort (pcd_secondary_rule_ids winner ++ map pcd_rule_id losers)) in
      Some (with_group winner techniques secondary)
  end.

Definition dedup_groups (detections : list ProcessChainDetection)
    : list (string * list ProcessChainDetection) :=
  foldl (λ groups detection,
    bm_update (pcd_dedup_key detection) [] (λ group, group ++ [detection]) groups) [] detections.

Definition deduplicate (detections : list ProcessChainDetection) : list ProcessChainDetection :=
  omap collapse_group (bm_values (dedup_groups detections)).

(** ** Context *)

Definition context_reason (detection : ProcessChainDetection) (observation : ProcessObservation)
    (context : ProcessChainContext) : option string :=
  let category := pcd_rule_category detection in
  if (user_is_approved_admin context (po_user observation)
      && str_in category ["discovery"; "execution"; "persistence"; "lateral_movement"]
      && negb (str_eqb (pcd_severity detection) "critical"))%bool
  then Some "approved administrative user"
  else if (host_is_management context (po_host observation)
           && str_in category ["lateral_movement"; "execution"; "discovery"])%bool
  then Some "known management server"
  else if (str_eqb category "command_and_control"
           && bs_contains (normalized_name (po_parent observation))
                (approved_rmm_products context))%bool
  then Some "sanctioned remote management product"
  else if (str_eqb category "command_and_control"
           && bs_contains (normalized_name (po_child observation))
                (approved_rmm_products context))%bool
  then Some "sanctioned remote management product"
  else None.

Definition set_risk (d : ProcessChainDetection) (severity : string) (score : Z)
    (reason : string) : ProcessChainDetection :=
  {| pcd_rule_id := pcd_rule_id d; pcd_rule_name := pcd_rule_name d;
     pcd_rule_category := pcd_rule_category d; pcd_detection_class := pcd_detection_class d;
     pcd_signal_type := pcd_signal_type d; pcd_analytic_intent := pcd_analytic_intent d;
     pcd_severity := severity; pcd_score := score; pcd_confidence := pcd_confidence d;
     pcd_mitre := pcd_mitre d; pcd_reason := pcd_reason d;
     pcd_informational := score =? 0;
     pcd_risk_entity_type := pcd_risk_entity_type d;
     pcd_risk_entity_value := pcd_risk_entity_value d;
     pcd_investigation_fields := pcd_investigation_fields d;
     pcd_falsepositives := pcd_falsepositives d;
     pcd_secondary_rule_ids := pcd_secondary_rule_ids d; pcd_dedup_key := pcd_dedup_key d;
     pcd_suppression_window_seconds := pcd_suppression_window_seconds d;
     pcd_risk_adjustment := Some reason |}.

Definition apply_context (detection : ProcessChainDetection) (observation : ProcessObservation)
    (context : ProcessChainContext) (command_line_gated : bool) : ProcessChainDetection :=
  if command_line_gated then detection
  else match context_reason detection observation context with
       | None => detection
       | Some reason =>
           let '(severity, score) := demoted (pcd_severity detection) in
           set_risk detection severity score reason
       end.

Definition set_confidence (d : ProcessChainDetection) (confidence : string)
    : ProcessChainDetection :=
  {| pcd_rule_id := pcd_rule_id d; pcd_rule_name := pcd_rule_name d;
     pcd_rule_category := pcd_rule_category d; pcd_detection_class := pcd_detection_class d;
     pcd_signal_type := pcd_signal_type d; pcd_analytic_intent := pcd_analytic_intent d;
     pcd_severity := pcd_severity d; pcd_score := pcd_score d; pcd_confidence := confidence;
     pcd_mitre := pcd_mitre d; pcd_reason := pcd_reason d;
     pcd_informational := pcd_informational d;
     pcd_risk_entity_type := pcd_risk_entity_type d;
     pcd_risk_entity_value := pcd_risk_entity_value d;
     pcd_investigation_fields := pcd_investigation_fields d;
     pcd_falsepositives := pcd_falsepositives d;
     pcd_secondary_rule_ids := pcd_secondary_rule_ids d; pcd_dedup_key := pcd_dedup_key d;
     pcd_suppression_window_seconds := pcd_suppression_window_seconds d;
     pcd_risk_adjustment := pcd_risk_adjustment d |}.

Definition standalone_subject (target : StandaloneTarget) (observation : ProcessObservation)
    : option string :=
  let value :=
    match target with
    | ProcessName => normalized_name (po_child observation)
    | ProcessPath => to_ascii_lowercase (path_text (po_child observation))
    | CommandLine =>
        let child := command_line_text (po_child observation) in
        if is_empty child then command_line_text (po_parent observation) else child
    end in
  if is_empty value then None else Some value.

Section process_chain.
Context `{RegexEngine} {YamlError : Type}.

Notation ProcessChainError := (ProcessChainError RegexError YamlError).

Record CompiledChainRule := {
  ccr_definition : ChainRuleDefinition;
  ccr_rule_detection_class : string;
  ccr_rule_analytic_intent : string;
  ccr_investigation_fields : list string;
  ccr_rule_falsepositives : list string;
  ccr_command_line_any : list Regex;
  ccr_command_line_none : list Regex;
  ccr_path_any : list Regex;
  ccr_path_none : list Regex;
  ccr_dedup_key : string;
}.

Record CompiledStandaloneRule := {
  csr_definition : StandaloneRuleDefinition;
  csr_detection_class : string;
  csr_analytic_intent : string;
  csr_investigation_fields : list string;
  csr_falsepositives : list string;
  csr_patterns : list Regex;
  csr_exclude : list Regex;
  csr_target : StandaloneTarget;
}.

Record CompiledProcessChainRules := {
  chain_rules : list CompiledChainRule;
  standalone_rules : list CompiledStandaloneRule;
  correlations : list CompiledCorrelationRule;
  default_risk_entity : string;
  default_suppression_window_seconds : Z;
}.

(** ** Compilation *)

Definition register_id (seen : list string) (id : string) : result (list string) ProcessChainError :=
  if negb (is_canonical_contribution_id id) then Err (PcInvalidRuleId id)
  else if bs_contains id seen then Err (PcDuplicateRuleId id)
  else Ok (bs_insert id seen).

Definition category_metadata (categories : list (string * CategoryMetadata)) (id category : string)
    : result CategoryMetadata ProcessChainError :=
  ok_or (bm_get category categories) (UnknownCategory id category).

Definition validate_severity (id severity : string) : result unit ProcessChainError :=
  if str_in severity SEVERITIES then Ok tt else Err (InvalidSeverity id severity).

Definition validate_confidence (id confidence : string) : result unit ProcessChainError :=
  if str_in confidence CONFIDENCES then Ok tt else Err (InvalidConfidence id confidence).

Definition score_band (severity : string) : Z * Z :=
  if str_eqb severity "informational" then (0, 0)
  else if str_eqb severity "low" then (20, 39)
  else if str_eqb severity "medium" then (40, 49)
  else if str_eqb severity "high" then (50, 79)
  else if str_eqb severity "critical" then (80, 100)
  else (0, 100).

Definition validate_score_band (id severity : string) (score : Z) : result unit ProcessChainError :=
  let band := score_band severity in
  if ((score <? band.1) || (band.2 <? score))%bool then Err (ScoreOutOfBand id severity score)
  else Ok tt.

Definition compile_all (id : string) (patterns : list string) : result (list Regex) ProcessChainError :=
  collect (λ pattern, map_err (PcInvalidRegex id) (Regex_new ("(?i:" +:+ pattern +:+ ")"))) patterns.

(** The checks every kind of rule goes through. *)
Definition check_definition (pack : ProcessChainPack) (seen : list string)
    (id category severity confidence : string) (score : Z)
    : result (list string * CategoryMetadata) ProcessChainError :=
  let? seen := register_id seen id in
  let? metadata := category_metadata (pack_categories pack) id category in
  check? validate_severity id severity in
  check? validate_confidence id confidence in
  check? validate_score_band id severity score in
  Ok (seen, metadata).

Definition compile_chain_rule (pack : ProcessChainPack)
    (st : list string * list CompiledChainRule) (d : ChainRuleDefinition)
    : result (list string * list CompiledChainRule) ProcessChainError :=
  if negb (default (pd_enabled (pack_defaults pack)) (ch_enabled d)) then Ok st
  else
    let? (seen, metadata) := check_definition pack st.1 (ch_id d) (ch_category d)
                                (ch_severity d) (ch_confidence d) (ch_score d) in
    let dedup_key := default ("chain:" +:+ normalize_process_name (ch_parent d) +:+ ">"
                              +:+ normalize_process_name (ch_child d)) (ch_dedup_key d) in
    let? command_line_any := compile_all (ch_id d) (ch_command_line_any d) in
    let? command_line_none := compile_all (ch_id d) (ch_command_line_none d) in
    let? path_any := compile_all (ch_id d) (ch_path_any d) in
    let? path_none := compile_all (ch_id d) (ch_path_none d) in
    Ok (seen, st.2 ++ [{| ccr_definition := d;
      ccr_rule_detection_class := cat_detection_class metadata;
      ccr_rule_analytic_intent := cat_analytic_intent metadata;
      ccr_investigation_fields := cat_investigation_fields metadata;
      ccr_rule_falsepositives := cat_falsepositives metadata;
      ccr_command_line_any := command_line_any; ccr_command_line_none := command_line_none;
      ccr_path_any := path_any; ccr_path_none := path_none; ccr_dedup_key := dedup_key |}]).

Definition standalone_target (id name : string) : result StandaloneTarget ProcessChainError :=
  if str_eqb name "process_name" then Ok ProcessName
  else if str_eqb name "process_path" then Ok ProcessPath
  else if str_eqb name "command_line" then Ok CommandLine
  else Err (InvalidMatchTarget id name).

Definition compile_standalone_rule (pack : ProcessChainPack)
    (st : list string * list CompiledStandaloneRule) (d : StandaloneRuleDefinition)
    : result (list string * list CompiledStandaloneRule) ProcessChainError :=
  if negb (default (pd_enabled (pack_defaults pack)) (sa_enabled d)) then Ok st
  else
    let? (seen, metadata) := check_definition pack st.1 (sa_id d) (sa_category d)
                                (sa_severity d) (sa_confidence d) (sa_score d) in
    let? target := standalone_target (sa_id d) (sa_match d) in
    let? patterns := compile_all (sa_id d) (sa_patterns d) in
    let? exclude := compile_all (sa_id d) (sa_exclude d) in
    Ok (seen, st.2 ++ [{| csr_definition := d;
      csr_detection_class := cat_detection_class metadata;
      csr_analytic_intent := cat_analytic_intent metadata;
      csr_investigation_fields := cat_investigation_fields metadata;
      csr_falsepositives := cat_falsepositives metadata;
      csr_patterns := patterns; csr_exclude := exclude; csr_target := target |}]).

Definition compile_step (step : CorrelationStepDefinition) : CorrelationStep :=
  {| cs_any_category := bs_of_list (csd_any_category step);
     cs_any_rule_id := bs_of_list (csd_any_rule_id step);
     cs_any_child := bs_of_list (map normalize_process_name (csd_any_child step)) |}.

Definition compile_correlation (pack : ProcessChainPack)
    (st : list string * list CompiledCorrelationRule) (d : CorrelationRuleDefinition)
    : result (list string * list CompiledCorrelationRule) ProcessChainError :=
  if negb (default (pd_enabled (pack_defaults pack)) (co_enabled d)) then Ok st
  else
    let? (seen, metadata) := check_definition pack st.1 (co_id d) (co_category d)
                                (co_severity d) (co_confidence d) (co_score d) in
    if bool_decide (length (co_sequence d) = O) then Err (EmptySequence (co_id d))
    else if i64_max <? co_window_seconds d
    then Err (InvalidCorrelationWindow (co_id d) (co_window_seconds d))
    else
      Ok (seen, st.2 ++ [{| ccr_id := co_id d; ccr_title := co_title d;
        ccr_category := co_category d;
        ccr_detection_class := cat_detection_class metadata;
        ccr_analytic_intent := cat_analytic_intent metadata;
        ccr_severity := co_severity d; ccr_score := co_score d;
        ccr_confidence := co_confidence d; ccr_mitre := co_mitre d; ccr_reason := co_reason d;
        ccr_window_seconds := co_window_seconds d; ccr_entity := co_entity d;
        ccr_steps := map compile_step (co_sequence d);
        ccr_falsepositives := cat_falsepositives metadata |}]).

Definition compile_pack (pack : ProcessChainPack)
    : result CompiledProcessChainRules ProcessChainError :=
  let? (seen, chain) := try_fold (compile_chain_rule pack) ([], []) (pack_rules pack) in
  let? (seen, standalone) :=
    try_fold (compile_standalone_rule pack) (seen, []) (pack_standalone pack) in
  let? (seen, correlations) :=
    try_fold (compile_correlation pack) (seen, []) (pack_correlations pack) in
  Ok {| chain_rules := chain; standalone_rules := standalone; correlations := correlations;
        default_risk_entity := pd_risk_entity (pack_defaults pack);
        default_suppression_window_seconds :=
          pd_suppression_window_seconds (pack_defaults pack) |}.

Section load.
Variable parse_pack : string → result ProcessChainPack YamlError.

Definition load_process_chain_rules (document : string)
    : result CompiledProcessChainRules ProcessChainError :=
  let? pack := map_err PcParse (parse_pack document) in
  compile_pack pack.

End load.

Definition compiled_rule_ids (rules : CompiledProcessChainRules) : list string :=
  map (λ r, ch_id (ccr_definition r)) (chain_rules rules)
  ++ map (λ r, sa_id (csr_definition r)) (standalone_rules rules)
  ++ map ccr_id (correlations rules).

(** ** Detections *)

Definition chain_detection (rules : CompiledProcessChainRules) (rule : CompiledChainRule)
    (observation : ProcessObservation) : ProcessChainDetection :=
  let d := ccr_definition rule in
  {| pcd_rule_id := ch_id d; pcd_rule_name := ch_title d; pcd_rule_category := ch_category d;
     pcd_detection_class := ccr_rule_detection_class rule; pcd_signal_type := "chain";
     pcd_analytic_intent := ccr_rule_analytic_intent rule; pcd_severity := ch_severity d;
     pcd_score := ch_score d; pcd_confidence := ch_confidence d; pcd_mitre := ch_mitre d;
     pcd_reason := ch_reason d; pcd_informational := ch_score d =? 0;
     pcd_risk_entity_type := default_risk_entity rules;
     pcd_risk_entity_value := risk_entity_value (default_risk_entity rules) observation;
     pcd_investigation_fields := ccr_investigation_fields rule;
     pcd_falsepositives := ccr_rule_falsepositives rule;
     pcd_secondary_rule_ids := []; pcd_dedup_key := ccr_dedup_key rule;
     pcd_suppression_window_seconds := default_suppression_window_seconds rules;
     pcd_risk_adjustment := None |}.

Definition standalone_detection (rules : CompiledProcessChainRules)
    (rule : CompiledStandaloneRule) (observation : ProcessObservation) : ProcessChainDetection :=
  let d := csr_definition rule in
  {| pcd_rule_id := sa_id d; pcd_rule_name := sa_title d; pcd_rule_category := sa_category d;
     pcd_detection_class := csr_detection_class rule; pcd_signal_type := "atomic";
     pcd_analytic_intent := csr_analytic_intent rule; pcd_severity := sa_severity d;
     pcd_score := sa_score d; pcd_confidence := sa_confidence d; pcd_mitre := sa_mitre d;
     pcd_reason := sa_reason d; pcd_informational := sa_score d =? 0;
     pcd_risk_entity_type := default_risk_entity rules;
     pcd_risk_entity_value := risk_entity_value (default_risk_entity rules) observation;
     pcd_investigation_fields := csr_investigation_fields rule;
     pcd_falsepositives := csr_falsepositives rule;
     pcd_secondary_rule_ids := [];
     pcd_dedup_key :=
       match csr_target rule with
       | CommandLine => "standalone:" +:+ sa_id d
       | _ => "standalone:" +:+ sa_id d +:+ ":" +:+ normalized_name (po_child observation)
       end;
     pcd_suppression_window_seconds := default_suppression_window_seconds rules;
     pcd_risk_adjustment := None |}.

(** ** Evaluation *)

Section charged.
Context {S E : Type} (charge : Z → Eff S E unit).

Fixpoint try_regex_any (patterns : list Regex) (subject : string) : Eff S E bool :=
  match patterns with
  | [] => eret false
  | regex :: patterns' =>
      do! charge (len subject) in
      if Regex_is_match regex subject then eret true else try_regex_any patterns' subject
  end.

Definition try_conditions_hold (any none : list Regex) (subject : string) : Eff S E bool :=
  do! charge 1 in
  let! missed :=
    if bool_decide (length any = O) then eret false
    else if is_empty subject then eret true
    else let! hit := try_regex_any any subject in eret (negb hit) in
  if missed : bool then eret false
  else if is_empty subject then eret true
  else
    let! hit := try_regex_any none subject in
    eret (negb hit).

Definition try_chain_rule (rules : CompiledProcessChainRules) (observation : ProcessObservation)
    (parent child : string) (candidates : list (ProcessChainDetection * bool))
    (rule : CompiledChainRule) : Eff S E (list (ProcessChainDetection * bool)) :=
  do! charge (saturating_add (len parent) (len child)) in
  if (negb (str_eqb (ch_parent (ccr_definition rule)) parent)
      || negb (str_eqb (ch_child (ccr_definition rule)) child))%bool
  then eret candidates
  else
    let! held := try_conditions_hold (ccr_command_line_any rule) (ccr_command_line_none rule)
                   (command_line_text (po_child observation)) in
    if negb held then eret candidates
    else
      let! held := try_conditions_hold (ccr_path_any rule) (ccr_path_none rule)
                     (path_text (po_child observation)) in
      if negb held then eret candidates
      else
        let gated := negb (bool_decide (length (ccr_command_line_any rule) = O)) in
        do! charge 1 in
        eret (candidates ++ [(chain_detection rules rule observation, gated)]).

Definition try_standalone_rule (rules : CompiledProcessChainRules)
    (observation : ProcessObservation) (candidates : list (ProcessChainDetection * bool))
    (rule : CompiledStandaloneRule) : Eff S E (list (ProcessChainDetection * bool)) :=
  do! charge (saturating_add (saturating_add (saturating_add
                (len (pr_name (po_child observation))) (len (path_text (po_child observation))))
                (len (command_line_text (po_child observation))))
                (len (command_line_text (po_parent observation)))) in
  match standalone_subject (csr_target rule) observation with
  | None => eret candidates
  | Some subject =>
      let! hit := try_regex_any (csr_patterns rule) subject in
      if negb hit then eret candidates
      else
        let! excluded := try_regex_any (csr_exclude rule) subject in
        if excluded : bool then eret candidates
        else
          let gated := bool_decide (csr_target rule = CommandLine) in
          do! charge 1 in
          eret (candidates ++ [(standalone_detection rules rule observation, gated)])
  end.

(** The controls and the inference penalty of one detection. *)
Definition adjust (observation : ProcessObservation) (context : ProcessChainContext)
    (gated : list string) (detection : ProcessChainDetection) : ProcessChainDetection :=
  let detection := apply_context detection observation context
                     (bs_contains (pcd_rule_id detection) gated) in
  if po_parent_inferred observation
  then set_confidence detection (weaken_confidence (pcd_confidence detection))
  else detection.

Definition gated_ids (candidates : list (ProcessChainDetection * bool)) : list string :=
  bs_of_list (map (λ c, pcd_rule_id c.1) (List.filter snd candidates)).

Definition try_evaluate_with_context (rules : CompiledProcessChainRules)
    (observation : ProcessObservation) (context : ProcessChainContext)
    : Eff S E (list ProcessChainDetection) :=
  do! charge (len (pr_name (po_parent observation))) in
  let parent := normalized_name (po_parent observation) in
  do! charge (len (pr_name (po_child observation))) in
  let child := normalized_name (po_child observation) in
  let! candidates := efold (try_chain_rule rules observation parent child) [] (chain_rules rules) in
  let! candidates := efold (try_standalone_rule rules observation) candidates
                       (standalone_rules rules) in
  do! charge (Z.of_nat (length candidates)) in
  let detections := deduplicate (map fst candidates) in
  let gated := gated_ids candidates in
  let! detections := ecollect (λ detection,
    do! charge 1 in
    eret (adjust observation context gated detection)) detections in
  eret (sort_by (cmp_via pcd_rule_id) detections).

End charged.

Definition evaluate_with_context (rules : CompiledProcessChainRules)
    (observation : ProcessObservation) (context : ProcessChainContext)
    : list ProcessChainDetection :=
  match try_evaluate_with_context free_charge rules observation context tt with
  | (_, Ok detections) => detections
  | (_, Err e) => match e with end
  end.

End process_chain.
Arguments CompiledProcessChainRules {_}.
Arguments CompiledChainRule {_}.
Arguments CompiledStandaloneRule {_}.

(** ** Deduplication loses nothing *)

Section dedup_facts.

Definition group_key (d : ProcessChainDetection) : Z * (Z * string) :=
  (- pcd_score d, (- Z.of_nat (severity_rank (pcd_severity d)), pcd_rule_id d)).

Lemma group_order_key x y : group_order x y = cmp_via group_key x y.
Proof.
  change (cmp_via group_key x y) with
    (then_with (- pcd_score x ?= - pcd_score y)
       (then_with (- Z.of_nat (severity_rank (pcd_severity x))
                   ?= - Z.of_nat (severity_rank (pcd_severity y)))
          (cmp (pcd_rule_id x) (pcd_rule_id y)))).
  by rewrite !Z.compare_opp, Nat2Z.inj_compare.
Qed.

#[export] Instance group_order_comparator : Comparator group_order.
Proof. apply (comparator_of_key _ group_key), group_order_key. Qed.

Lemma group_order_score x y : group_order x y ≠ Gt → pcd_score y ≤ pcd_score x.
Proof.
  unfold group_order, cmp, ord_Z. destruct (Z.compare_spec (pcd_score y) (pcd_score x)); simpl; lia || done.
Qed.

(** The winner of a group and what it carries. *)
Definition collapsed (group : list ProcessChainDetection) (w : ProcessChainDetection) : Prop :=
  ∃ d, d ∈ group ∧
    (∀ x, x ∈ group → pcd_score x ≤ pcd_score d) ∧
    (∃ techniques secondary, w = with_group d techniques secondary ∧
      (∀ t, t ∈ techniques ↔ ∃ x, x ∈ group ∧ t ∈ pcd_mitre x) ∧
      (∀ x, x ∈ group → pcd_rule_id x = pcd_rule_id d ∨ pcd_rule_id x ∈ secondary) ∧
      (∀ i, i ∈ secondary → i ∈ pcd_secondary_rule_ids d ∨ ∃ x, x ∈ group ∧ pcd_rule_id x = i)).

Lemma foldl_extend_elem losers s t :
  t ∈ foldl (λ s loser, bs_extend s (pcd_mitre loser)) s losers ↔
  t ∈ s ∨ ∃ x, x ∈ losers ∧ t ∈ pcd_mitre x.
Proof.
  revert s; induction losers as [|l losers IH]; intros s; simpl; [set_solver|].
  rewrite IH, bs_extend_elem. set_solver.
Qed.

Lemma collapse_group_spec group :
  match collapse_group group with
  | Some w => collapsed group w
  | None => group = []
  end.
Proof.
  unfold collapse_group.
  pose proof (sort_by_perm group_order group) as Hperm.
  pose proof (sort_by_sorted group_order group) as Hsort.
  destruct (sort_by group_order group) as [|winner losers].
  { by apply Permutation_nil_l in Hperm. }
  assert (∀ x, x ∈ group ↔ x = winner ∨ x ∈ losers) as Hin.
  { intros x. rewrite <- Hperm. apply elem_of_cons. }
  apply StronglySorted_inv in Hsort as [_ Hle]. rewrite Forall_forall in Hle.
  exists winner. split_and!; [set_solver| |].
  - intros x [->|Hx]%Hin; [done|]. by apply group_order_score, Hle.
  - eexists _, _. split_and!; [done| | |].
    + intros t. rewrite foldl_extend_elem, bs_of_list_elem. setoid_rewrite Hin. naive_solver.
    + intros x [->|Hx]%Hin; [by left|]. right. rewrite dedup_elem.
      unfold sort. rewrite sort_by_perm, elem_of_app. right. by apply list_elem_of_fmap_2.
    + intros i. rewrite dedup_elem. unfold sort. rewrite sort_by_perm, elem_of_app.
      intros [?|(x & -> & ?)%list_elem_of_fmap]; [by left|]. right. exists x. set_solver.
Qed.

Lemma deduplicate_elem l w :
  w ∈ deduplicate l ↔
  ∃ k g, g = List.filter (same_key pcd_dedup_key k) l ∧ collapse_group g = Some w.
Proof.
  unfold deduplicate. rewrite list_elem_of_omap. split.
  - intros (g & Hg & Hw). apply (group_values pcd_dedup_key) in Hg as (k & -> & Hne). eauto.
  - intros (k & g & -> & Hw). eexists. split; [|exact Hw].
    apply (group_values pcd_dedup_key). exists k. split; [done|].
    intros Hnil. rewrite Hnil in Hw. done.
Qed.

Lemma class_elem k l x :
  x ∈ List.filter (same_key pcd_dedup_key k) l ↔ x ∈ l ∧ pcd_dedup_key x = k.
Proof.
  rewrite list_elem_of_In, List.filter_In, same_key_spec. by rewrite <- list_elem_of_In.
Qed.

Lemma deduplicate_keys l : NoDup (map pcd_dedup_key (deduplicate l)).
Proof.
  unfold deduplicate.
  pose proof (group_pairs pcd_dedup_key l) as Hpairs.
  assert (NoDup (dedup_groups l).*1) as Hnd
    by (apply bm_wf_nodup, (group_push_wf pcd_dedup_key); constructor).
  change (foldl (group_push pcd_dedup_key) [] l) with (dedup_groups l) in *.
  assert (map pcd_dedup_key (omap collapse_group (bm_values (dedup_groups l)))
          = (dedup_groups l).*1) as ->; [|done].
  unfold bm_values. clear Hnd. induction Hpairs as [|[k g] m [Hg Hne] Hm IH]; [done|].
  simpl in *. pose proof (collapse_group_spec g) as Hc.
  destruct (collapse_group g) as [w|]; [|done]. simpl. f_equal; [|exact IH].
  destruct Hc as (d & Hd & _ & t & s & -> & _). simpl.
  rewrite Hg in Hd. by apply class_elem in Hd as [_ ->].
Qed.

End dedup_facts.

(** Deduplication returns one detection per key.  Each is the highest-scoring
    detection of its key, carrying exactly the techniques of the whole group; and
    every input is represented by a detection of its key, no weaker in score, as
    its rule or among its secondary rules, with its techniques kept. *)
Theorem deduplicate_correct l :
  NoDup (map pcd_dedup_key (deduplicate l)) ∧
  (∀ w, w ∈ deduplicate l → ∃ d, d ∈ l ∧
     (∃ techniques secondary, w = with_group d techniques secondary ∧
        ∀ t, t ∈ techniques ↔ ∃ x, x ∈ l ∧ pcd_dedup_key x = pcd_dedup_key d ∧ t ∈ pcd_mitre x)) ∧
  (∀ x, x ∈ l → ∃ w, w ∈ deduplicate l ∧ pcd_dedup_key w = pcd_dedup_key x ∧
     pcd_score x ≤ pcd_score w ∧
     (pcd_rule_id x = pcd_rule_id w ∨ pcd_rule_id x ∈ pcd_secondary_rule_ids w) ∧
     (∀ t, t ∈ pcd_mitre x → t ∈ pcd_mitre w)).
Proof.
  split_and!; [apply deduplicate_keys| |].
  - intros w (k & g & -> & Hw)%deduplicate_elem.
    pose proof (collapse_group_spec (List.filter (same_key pcd_dedup_key k) l)) as Hc.
    rewrite Hw in Hc. destruct Hc as (d & [Hd Hk]%class_elem & _ & t & s & -> & Ht & _).
    exists d. split; [done|]. exists t, s. split; [done|]. intros x. rewrite Ht.
    setoid_rewrite class_elem. naive_solver.
  - intros x Hx. set (g := List.filter (same_key pcd_dedup_key (pcd_dedup_key x)) l).
    assert (x ∈ g) as Hxg by by apply class_elem.
    pose proof (collapse_group_spec g) as Hc.
    destruct (collapse_group g) as [w|] eqn:Hw; [|rewrite Hc in Hxg; set_solver].
    exists w. destruct Hc as (d & [_ Hk]%class_elem & Hmax & t & s & -> & Ht & Hids & _).
    split_and!; simpl; [|done|by apply Hmax| |].
    + apply deduplicate_elem. by exists (pcd_dedup_key x), g.
    + by apply Hids.
    + intros t' Ht'. apply Ht. eauto.
Qed.

(** ** Evaluation against its specification *)

Section evaluation_spec.
Context `{RegexEngine}.

Definition regex_any (patterns : list Regex) (subject : string) : bool :=
  existsb (λ r, Regex_is_match r subject) patterns.

(** Every declared [any] list needs a match in a non-empty text; no [none] pattern
    may match a non-empty text. *)
Definition conditions_hold (any none : list Regex) (subject : string) : bool :=
  ((bool_decide (length any = O) || (negb (is_empty subject) && regex_any any subject))
   && (is_empty subject || negb (regex_any none subject)))%bool.

Definition chain_hit (observation : ProcessObservation) (rule : CompiledChainRule) : bool :=
  (str_eqb (ch_parent (ccr_definition rule)) (normalized_name (po_parent observation))
   && str_eqb (ch_child (ccr_definition rule)) (normalized_name (po_child observation))
   && conditions_hold (ccr_command_line_any rule) (ccr_command_line_none rule)
        (command_line_text (po_child observation))
   && conditions_hold (ccr_path_any rule) (ccr_path_none rule)
        (path_text (po_child observation)))%bool.

Definition standalone_hit (observation : ProcessObservation) (rule : CompiledStandaloneRule) : bool :=
  match standalone_subject (csr_target rule) observation with
  | None => false
  | Some subject =>
      (regex_any (csr_patterns rule) subject && negb (regex_any (csr_exclude rule) subject))%bool
  end.

(** The rules that hit, each with whether it looked at the command line. *)
Definition candidates (rules : CompiledProcessChainRules) (observation : ProcessObservation)
    : list (ProcessChainDetection * bool) :=
  map (λ r, (chain_detection rules r observation,
             negb (bool_decide (length (ccr_command_line_any r) = O))))
    (List.filter (chain_hit observation) (chain_rules rules))
  ++ map (λ r, (standalone_detection rules r observation,
                bool_decide (csr_target r = CommandLine)))
       (List.filter (standalone_hit observation) (standalone_rules rules)).

Definition evaluate_spec (rules : CompiledProcessChainRules) (observation : ProcessObservation)
    (context : ProcessChainContext) : list ProcessChainDetection :=
  let cs := candidates rules observation in
  sort_by (cmp_via pcd_rule_id)
    (map (adjust observation context (gated_ids cs)) (deduplicate (map fst cs))).

Context {S E : Type} (charge : Z → Eff S E unit).

Lemma try_regex_any_computes patterns subject :
  computes (try_regex_any charge patterns subject) (infallible charge) (regex_any patterns subject).
Proof.
  induction patterns as [|r patterns IH]; simpl; [by apply computes_ret|].
  apply computes_charge. destruct (Regex_is_match r subject); [by apply computes_ret | done].
Qed.

Lemma try_conditions_computes any none subject :
  computes (try_conditions_hold charge any none subject) (infallible charge)
    (conditions_hold any none subject).
Proof.
  unfold try_conditions_hold, conditions_hold. apply computes_charge.
  eapply (computes_bind _ _ _ (negb (bool_decide (length any = O)
    || (negb (is_empty subject) && regex_any any subject)))).
  - destruct (bool_decide _); [by apply computes_ret|].
    destruct (is_empty subject); [by apply computes_ret|].
    eapply computes_bind; [apply try_regex_any_computes | by apply computes_ret].
  - destruct (_ || _)%bool; simpl; [|by apply computes_ret].
    destruct (is_empty subject); [by apply computes_ret|].
    eapply computes_bind; [apply try_regex_any_computes | by apply computes_ret].
Qed.

Lemma try_chain_computes rules observation acc :
  computes (efold (try_chain_rule charge rules observation
      (normalized_name (po_parent observation)) (normalized_name (po_child observation)))
      acc (chain_rules rules)) (infallible charge)
    (acc ++ map (λ r, (chain_detection rules r observation,
                       negb (bool_decide (length (ccr_command_line_any r) = O))))
       (List.filter (chain_hit observation) (chain_rules rules))).
Proof.
  generalize (chain_rules rules) as l. intros l. revert acc.
  induction l as [|r l IH]; intros acc; simpl; [apply computes_ret; by rewrite app_nil_r|].
  apply (computes_bind _ _ _ (if chain_hit observation r then
    acc ++ [(chain_detection rules r observation,
             negb (bool_decide (length (ccr_command_line_any r) = O)))] else acc)).
  - unfold try_chain_rule, chain_hit. apply computes_charge.
    destruct (str_eqb (ch_parent _) _); simpl; [|by apply computes_ret].
    destruct (str_eqb (ch_child _) _); simpl; [|by apply computes_ret].
    eapply computes_bind; [apply try_conditions_computes|].
    destruct (conditions_hold (ccr_command_line_any r) _ _); simpl; [|by apply computes_ret].
    eapply computes_bind; [apply try_conditions_computes|].
    destruct (conditions_hold (ccr_path_any r) _ _); simpl; [|by apply computes_ret].
    apply computes_charge. by apply computes_ret.
  - destruct (chain_hit observation r); [|apply IH].
    specialize (IH (acc ++ [(chain_detection rules r observation,
      negb (bool_decide (length (ccr_command_line_any r) = O)))])). rewrite <- app_assoc in IH. exact IH.
Qed.

Lemma try_standalone_computes rules observation acc :
  computes (efold (try_standalone_rule charge rules observation) acc (standalone_rules rules))
    (infallible charge)
    (acc ++ map (λ r, (standalone_detection rules r observation,
                       bool_decide (csr_target r = CommandLine)))
       (List.filter (standalone_hit observation) (standalone_rules rules))).
Proof.
  generalize (standalone_rules rules) as l. intros l. revert acc.
  induction l as [|r l IH]; intros acc; simpl; [apply computes_ret; by rewrite app_nil_r|].
  apply (computes_bind _ _ _ (if standalone_hit observation r then
    acc ++ [(standalone_detection rules r observation,
             bool_decide (csr_target r = CommandLine))] else acc)).
  - unfold try_standalone_rule, standalone_hit. apply computes_charge.
    destruct (standalone_subject _ _) as [subject|]; [|by apply computes_ret].
    eapply computes_bind; [apply try_regex_any_computes|].
    destruct (regex_any (csr_patterns r) subject); simpl; [|by apply computes_ret].
    eapply computes_bind; [apply try_regex_any_computes|].
    destruct (regex_any (csr_exclude r) subject); simpl; [by apply computes_ret|].
    apply computes_charge. by apply computes_ret.
  - destruct (standalone_hit observation r); [|apply IH].
    specialize (IH (acc ++ [(standalone_detection rules r observation,
      bool_decide (csr_target r = CommandLine))])). rewrite <- app_assoc in IH. exact IH.
Qed.

Lemma ecollect_computes {A B} (f : A → Eff S E B) (g : A → B) l :
  (∀ a, computes (f a) (infallible charge) (g a)) →
  computes (ecollect f l) (infallible charge) (map g l).
Proof.
  intros Hf. induction l as [|a l IH]; simpl; [by apply computes_ret|].
  eapply computes_bind; [apply Hf|]. eapply computes_bind; [apply IH | by apply computes_ret].
Qed.

Lemma try_evaluate_computes rules observation context :
  computes (try_evaluate_with_context charge rules observation context) (infallible charge)
    (evaluate_spec rules observation context).
Proof.
  unfold try_evaluate_with_context. do 2 apply computes_charge.
  eapply computes_bind; [apply try_chain_computes|].
  eapply computes_bind; [apply try_standalone_computes|]. apply computes_charge. cbn [app].
  change (map _ _ ++ map _ _) with (candidates rules observation).
  eapply computes_bind; [|by apply computes_ret].
  apply (ecollect_computes _ (adjust observation context (gated_ids (candidates rules observation)))).
  intros d. apply computes_charge. by apply computes_ret.
Qed.

End evaluation_spec.

(** For every charge a completed evaluation is the specification: collect the
    rules whose names and conditions hit, deduplicate, apply the controls, order
    by rule id; and with a charge that cannot fail it completes. *)
Theorem try_evaluate_with_context_correct `{RegexEngine} {S E} (charge : Z → Eff S E unit)
    rules observation context :
  yields (try_evaluate_with_context charge rules observation context)
    (eq (evaluate_spec rules observation context)) ∧
  (infallible charge →
   succeeds (try_evaluate_with_context charge rules observation context)
     (eq (evaluate_spec rules observation context))).
Proof. apply try_evaluate_computes. Qed.

(** ** What compilation guarantees *)

(** A rule's id is canonical, its severity and confidence known, and its score in
    the band of its severity. *)
Definition rule_checked (id severity confidence : string) (score : Z) : Prop :=
  is_canonical_contribution_id id = true ∧ severity ∈ SEVERITIES ∧ confidence ∈ CONFIDENCES ∧
  (score_band severity).1 ≤ score ≤ (score_band severity).2.

Section compile_facts.
Context `{RegexEngine} {YE : Type}.

Lemma check_definition_Ok pack seen id category severity confidence score seen' metadata :
  check_definition (YamlError := YE) pack seen id category severity confidence score
    = Ok (seen', metadata) →
  id ∉ seen ∧ seen' = bs_insert id seen ∧ rule_checked id severity confidence score ∧
  bm_get category (pack_categories pack) = Some metadata.
Proof.
  unfold check_definition, register_id, category_metadata, validate_severity, validate_confidence,
    validate_score_band, rule_checked.
  destruct (is_canonical_contribution_id id); [|done]. cbn [negb].
  destruct (bs_contains id seen) eqn:Hs; [done|].
  destruct (bm_get category _) as [m|]; [|done]. cbn [ok_or].
  destruct (str_in severity SEVERITIES) eqn:Hsev; [|done].
  destruct (str_in confidence CONFIDENCES) eqn:Hconf; [|done].
  destruct ((score <? _) || _)%bool eqn:Hb; [done|]. intros [= <- <-].
  apply str_in_spec in Hsev, Hconf.
  apply orb_false_iff in Hb as [?%Z.ltb_ge ?%Z.ltb_ge].
  split_and!; try done. rewrite <- bs_contains_spec. congruence.
Qed.

(** A loop over definitions that skips the disabled ones and compiles the rest
    under fresh ids. *)
Lemma compile_loop {D C E} (f : list string * list C → D → result (list string * list C) E)
    (enabled : D → bool) (id : D → string) (P : D → C → Prop) l seen acc seen' acc' :
  (∀ st d, enabled d = false → f st d = Ok st) →
  (∀ st d st', enabled d = true → f st d = Ok st' →
     id d ∉ st.1 ∧ ∃ c, st' = (bs_insert (id d) st.1, st.2 ++ [c]) ∧ P d c) →
  try_fold f (seen, acc) l = Ok (seen', acc') →
  ∃ cs, acc' = acc ++ cs ∧ Forall2 P (List.filter enabled l) cs ∧
    NoDup (map id (List.filter enabled l)) ∧
    (∀ x, x ∈ map id (List.filter enabled l) → x ∉ seen) ∧
    (∀ x, x ∈ seen' ↔ x ∈ seen ∨ x ∈ map id (List.filter enabled l)).
Proof.
  intros Hskip Hadd. revert seen acc; induction l as [|d l IH]; intros seen acc; simpl.
  { intros [= <- <-]. exists []. rewrite app_nil_r.
    split_and!; [done|constructor|constructor|set_solver|set_solver]. }
  destruct (enabled d) eqn:He.
  - destruct (f (seen, acc) d) as [st'|] eqn:Hf; [|done].
    apply Hadd in Hf as (Hfresh & c & -> & HP); [|done]. simpl in *.
    intros (cs & -> & Hcs & Hnd & Hf & Hseen)%IH. exists (c :: cs).
    assert (∀ x, x ∈ map id (List.filter enabled l) → x ≠ id d ∧ x ∉ seen) as Hf'.
    { intros x Hx. specialize (Hf x Hx). rewrite bs_insert_elem in Hf. naive_solver. }
    simpl. split_and!.
    + by rewrite <- app_assoc.
    + by constructor.
    + constructor; [|done]. intros Hx. by apply Hf' in Hx as [? _].
    + intros x [->|Hx]%elem_of_cons; [done|]. by apply Hf'.
    + intros x. rewrite Hseen, bs_insert_elem, elem_of_cons. tauto.
  - rewrite (Hskip _ _ He). apply IH.
Qed.

Definition chain_rule_valid (d : ChainRuleDefinition) (r : CompiledChainRule) : Prop :=
  ccr_definition r = d ∧ rule_checked (ch_id d) (ch_severity d) (ch_confidence d) (ch_score d).
Definition standalone_rule_valid (d : StandaloneRuleDefinition) (r : CompiledStandaloneRule) : Prop :=
  csr_definition r = d ∧ rule_checked (sa_id d) (sa_severity d) (sa_confidence d) (sa_score d).
Definition correlation_valid (d : CorrelationRuleDefinition) (r : CompiledCorrelationRule) : Prop :=
  ccr_id r = co_id d ∧ ccr_steps r = map compile_step (co_sequence d) ∧ ccr_steps r ≠ [] ∧
  ccr_window_seconds r = co_window_seconds d ∧ ccr_window_seconds r ≤ i64_max ∧
  ccr_score r = co_score d ∧
  rule_checked (ccr_id r) (ccr_severity r) (ccr_confidence r) (ccr_score r).

Lemma compile_chain_rule_Ok pack st d st' :
  default (pd_enabled (pack_defaults pack)) (ch_enabled d) = true →
  compile_chain_rule (YamlError := YE) pack st d = Ok st' →
  ch_id d ∉ st.1 ∧ ∃ c, st' = (bs_insert (ch_id d) st.1, st.2 ++ [c]) ∧ chain_rule_valid d c.
Proof.
  intros He. unfold compile_chain_rule. rewrite He. cbn [negb].
  destruct (check_definition _ _ _ _ _ _ _) as [[seen m]|] eqn:Hc; [|done].
  apply check_definition_Ok in Hc as (? & -> & ? & _).
  destruct (compile_all _ (ch_command_line_any d)); [|done].
  destruct (compile_all _ (ch_command_line_none d)); [|done].
  destruct (compile_all _ (ch_path_any d)); [|done].
  destruct (compile_all _ (ch_path_none d)); [|done].
  intros [= <-]. split; [done|]. eexists. by split.
Qed.

Lemma compile_standalone_rule_Ok pack st d st' :
  default (pd_enabled (pack_defaults pack)) (sa_enabled d) = true →
  compile_standalone_rule (YamlError := YE) pack st d = Ok st' →
  sa_id d ∉ st.1 ∧ ∃ c, st' = (bs_insert (sa_id d) st.1, st.2 ++ [c]) ∧ standalone_rule_valid d c.
Proof.
  intros He. unfold compile_standalone_rule. rewrite He. cbn [negb].
  destruct (check_definition _ _ _ _ _ _ _) as [[seen m]|] eqn:Hc; [|done].
  apply check_definition_Ok in Hc as (? & -> & ? & _).
  destruct (standalone_target _ _); [|done].
  destruct (compile_all _ (sa_patterns d)); [|done].
  destruct (compile_all _ (sa_exclude d)); [|done].
  intros [= <-]. split; [done|]. eexists. by split.
Qed.

Lemma compile_correlation_Ok pack st d st' :
  default (pd_enabled (pack_defaults pack)) (co_enabled d) = true →
  compile_correlation (YamlError := YE) pack st d = Ok st' →
  co_id d ∉ st.1 ∧ ∃ c, st' = (bs_insert (co_id d) st.1, st.2 ++ [c]) ∧ correlation_valid d c.
Proof.
  intros He. unfold compile_correlation. rewrite He. cbn [negb].
  destruct (check_definition _ _ _ _ _ _ _) as [[seen m]|] eqn:Hc; [|done].
  apply check_definition_Ok in Hc as (? & -> & ? & _).
  case_bool_decide as Hlen; [done|].
  destruct (Z.ltb_spec i64_max (co_window_seconds d)); [done|].
  intros [= <-]. split; [done|]. eexists. split; [done|].
  split_and!; try done. simpl. intros Hnil. apply Hlen. by apply map_eq_nil in Hnil as ->.
Qed.

Definition chain_enabled (pack : ProcessChainPack) (d : ChainRuleDefinition) : bool :=
  default (pd_enabled (pack_defaults pack)) (ch_enabled d).
Definition standalone_enabled (pack : ProcessChainPack) (d : StandaloneRuleDefinition) : bool :=
  default (pd_enabled (pack_defaults pack)) (sa_enabled d).
Definition correlation_enabled (pack : ProcessChainPack) (d : CorrelationRuleDefinition) : bool :=
  default (pd_enabled (pack_defaults pack)) (co_enabled d).

Lemma Forall2_map_eq {A B C} (f : A → C) (g : B → C) (P : A → B → Prop) l k :
  (∀ a b, P a b → g b = f a) → Forall2 P l k → map g k = map f l.
Proof. intros HP. induction 1; simpl; f_equal; auto. Qed.

Lemma compile_pack_Ok pack rules :
  compile_pack (YamlError := YE) pack = Ok rules →
  NoDup (compiled_rule_ids rules) ∧
  Forall2 chain_rule_valid (List.filter (chain_enabled pack) (pack_rules pack)) (chain_rules rules) ∧
  Forall2 standalone_rule_valid (List.filter (standalone_enabled pack) (pack_standalone pack))
    (standalone_rules rules) ∧
  Forall2 correlation_valid (List.filter (correlation_enabled pack) (pack_correlations pack))
    (correlations rules).
Proof.
  unfold compile_pack.
  destruct (try_fold (compile_chain_rule pack) _ _) as [[s1 chain]|] eqn:H1; [|done].
  destruct (try_fold (compile_standalone_rule pack) _ _) as [[s2 standalone]|] eqn:H2; [|done].
  destruct (try_fold (compile_correlation pack) _ _) as [[s3 corr]|] eqn:H3; [|done].
  intros [= <-]. cbn [chain_rules standalone_rules correlations].
  apply (compile_loop _ (chain_enabled pack) ch_id chain_rule_valid) in H1
    as (cs1 & -> & Hv1 & Hnd1 & _ & Hs1);
    [|intros st d He; unfold compile_chain_rule; unfold chain_enabled in He; by rewrite He
     |intros st d st'; apply compile_chain_rule_Ok].
  apply (compile_loop _ (standalone_enabled pack) sa_id standalone_rule_valid) in H2
    as (cs2 & -> & Hv2 & Hnd2 & Hf2 & Hs2);
    [|intros st d He; unfold compile_standalone_rule; unfold standalone_enabled in He; by rewrite He
     |intros st d st'; apply compile_standalone_rule_Ok].
  apply (compile_loop _ (correlation_enabled pack) co_id correlation_valid) in H3
    as (cs3 & -> & Hv3 & Hnd3 & Hf3 & _);
    [|intros st d He; unfold compile_correlation; unfold correlation_enabled in He; by rewrite He
     |intros st d st'; apply compile_correlation_Ok].
  split_and!; [|done..]. unfold compiled_rule_ids; cbn [chain_rules standalone_rules correlations app].
  assert (map (λ r, ch_id (ccr_definition r)) cs1 = map ch_id _) as -> by (eapply Forall2_map_eq; [|exact Hv1]; by intros ? ? [-> _]).
  assert (map (λ r, sa_id (csr_definition r)) cs2 = map sa_id _) as -> by (eapply Forall2_map_eq; [|exact Hv2]; by intros ? ? [-> _]).
  assert (map ccr_id cs3 = map co_id _) as -> by (eapply Forall2_map_eq; [|exact Hv3]; by intros ? ? [-> _]).
  rewrite !NoDup_app. setoid_rewrite elem_of_app. split_and!; try done.
  - intros x Hx1 [Hx2|Hx3]; [apply (Hf2 x Hx2) | apply (Hf3 x Hx3)]; set_solver.
  - intros x Hx2 Hx3. apply (Hf3 x Hx3). set_solver.
Qed.

End compile_facts.

(** A compiled pack has unique canonical rule ids across all three kinds of
    rules, and holds exactly the enabled definitions, in order, each with a known
    severity and confidence and a score in its severity's band; correlations have
    at least one step and a window that fits [i64]. *)
Theorem compile_pack_correct `{RegexEngine} YE pack rules :
  compile_pack (YamlError := YE) pack = Ok rules →
  NoDup (compiled_rule_ids rules) ∧
  Forall2 chain_rule_valid (List.filter (chain_enabled pack) (pack_rules pack)) (chain_rules rules) ∧
  Forall2 standalone_rule_valid (List.filter (standalone_enabled pack) (pack_standalone pack))
    (standalone_rules rules) ∧
  Forall2 correlation_valid (List.filter (correlation_enabled pack) (pack_correlations pack))
    (correlations rules).
Proof. apply compile_pack_Ok. Qed.

(** ** The contract of one evaluation *)

(** A detection whose score is in its severity's band, informational exactly at 0. *)
Definition detection_valid (d : ProcessChainDetection) : Prop :=
  pcd_severity d ∈ SEVERITIES ∧
  (score_band (pcd_severity d)).1 ≤ pcd_score d ≤ (score_band (pcd_severity d)).2 ∧
  pcd_informational d = (pcd_score d =? 0).

(** [d] reports the candidate [x], at most lowered. *)
Definition lowered (x d : ProcessChainDetection) : Prop :=
  pcd_rule_id d = pcd_rule_id x ∧ pcd_dedup_key d = pcd_dedup_key x ∧
  pcd_rule_category d = pcd_rule_category x ∧
  pcd_score d ≤ pcd_score x ∧ (severity_rank (pcd_severity d) ≤ severity_rank (pcd_severity x))%nat ∧
  (confidence_rank (pcd_confidence d) ≤ confidence_rank (pcd_confidence x))%nat.

Section contract_facts.

(** Demotion, by the five severities. *)
Lemma demoted_valid severity score :
  severity ∈ SEVERITIES → (score_band severity).1 ≤ score ≤ (score_band severity).2 →
  let '(s, n) := demoted severity in
  s ∈ SEVERITIES ∧ (score_band s).1 ≤ n ≤ (score_band s).2 ∧ n ≤ score ∧
  (severity_rank s ≤ severity_rank severity)%nat.
Proof.
  unfold SEVERITIES, VALID_DETECTION_SEVERITIES at 1. rewrite !elem_of_cons, elem_of_nil.
  intros [->|[->|[->|[->|[->|[]]]]]] Hb; cbn -[elem_of] in *;
    (split_and!; [set_solver|lia|lia|lia|vm_compute; lia]).
Qed.

Lemma position_of_lt x l n : position_of x l = Some n → (n < length l)%nat.
Proof.
  revert n; induction l as [|y l IH]; intros n; simpl; [done|].
  destruct (str_eqb y x); [intros [= <-]; lia|].
  destruct (position_of x l) as [m|]; [|done]. intros [= <-]. specialize (IH m eq_refl). lia.
Qed.

Lemma weaken_rank confidence :
  (confidence_rank (weaken_confidence confidence) ≤ confidence_rank confidence)%nat.
Proof.
  unfold weaken_confidence, confidence_rank at 2 3.
  pose proof (position_of_lt confidence CONFIDENCES) as Hn.
  destruct (position_of confidence CONFIDENCES) as [n|]; simpl; [|vm_compute; lia].
  specialize (Hn n eq_refl). simpl in Hn. destruct n as [|[|[|n]]]; [vm_compute; lia..|lia].
Qed.

Lemma apply_context_lowers d observation context gated :
  detection_valid d →
  let d' := apply_context d observation context gated in
  detection_valid d' ∧ lowered d d' ∧ (gated = true → d' = d) ∧
  pcd_secondary_rule_ids d' = pcd_secondary_rule_ids d ∧ pcd_mitre d' = pcd_mitre d.
Proof.
  intros Hd. assert (lowered d d) by (unfold lowered; split_and!; done || lia).
  unfold apply_context. destruct gated; [done|].
  destruct (context_reason d observation context) as [reason|]; [|done].
  destruct Hd as (Hs & Hb & Hi). pose proof (demoted_valid _ _ Hs Hb) as Hdem.
  destruct (demoted (pcd_severity d)) as [s n]. destruct Hdem as (? & ? & ? & ?).
  unfold detection_valid, lowered; simpl. split_and!; done || lia.
Qed.

Lemma adjust_lowers observation context gated d :
  detection_valid d →
  let d' := adjust observation context gated d in
  detection_valid d' ∧ lowered d d' ∧
  (pcd_rule_id d ∈ gated → pcd_score d' = pcd_score d ∧ pcd_severity d' = pcd_severity d) ∧
  pcd_secondary_rule_ids d' = pcd_secondary_rule_ids d.
Proof.
  intros Hd. unfold adjust. set (g := bs_contains (pcd_rule_id d) gated).
  destruct (apply_context_lowers d observation context g Hd) as (Hv & Hl & Hg & Hs & _).
  set (d' := apply_context d observation context g) in *.
  assert (pcd_rule_id d ∈ gated → g = true) as Hin by (intros; by apply bs_contains_spec).
  pose proof (weaken_rank (pcd_confidence d')).
  destruct (po_parent_inferred observation); split_and!; try done.
  - unfold lowered in *; simpl. destruct Hl as (? & ? & ? & ? & ? & ?). split_and!; try done. lia.
  - intros Hx. simpl. by rewrite Hg by auto.
  - intros Hx. by rewrite Hg by auto.
Qed.

Context `{RegexEngine}.

Lemma candidates_valid YE pack rules observation :
  compile_pack (YamlError := YE) pack = Ok rules →
  Forall detection_valid (map fst (candidates rules observation)).
Proof.
  intros (_ & Hc & Hs & _)%compile_pack_Ok.
  assert (∀ id s c n, rule_checked id s c n → s ∈ SEVERITIES ∧
    (score_band s).1 ≤ n ≤ (score_band s).2) as Hrc by (unfold rule_checked; naive_solver).
  unfold candidates. rewrite map_app, !map_map. apply Forall_app. split.
  - apply Forall_fmap, Forall_filter_bool. apply Forall_forall. intros r Hr.
    apply list_elem_of_lookup in Hr as [i Hi].
    destruct (Forall2_lookup_r _ _ _ _ _ Hc Hi) as (d & _ & <- & Hck).
    apply Hrc in Hck as [? [? ?]]. by unfold detection_valid; split_and!.
  - apply Forall_fmap, Forall_filter_bool. apply Forall_forall. intros r Hr.
    apply list_elem_of_lookup in Hr as [i Hi].
    destruct (Forall2_lookup_r _ _ _ _ _ Hs Hi) as (d & _ & <- & Hck).
    apply Hrc in Hck as [? [? ?]]. by unfold detection_valid; split_and!.
Qed.

End contract_facts.

(** When conditions hold of a text: an [any] list that is declared matches a text that is not
    empty, and no [none] pattern matches one. *)
Definition conditions_met `{RegexEngine} (any none : list Regex) (subject : string) : Prop :=
  (any = [] ∨ subject ≠ "" ∧ ∃ r, r ∈ any ∧ Regex_is_match r subject = true) ∧
  (subject = "" ∨ ∀ r, r ∈ none → Regex_is_match r subject = false).

(** The detections an observation calls for, each with whether its rule looked at the command
    line: a chain rule with the parent and child it names, whose conditions hold; a standalone
    rule whose subject is there, with a pattern that matches it and no exclusion that does. *)
Inductive hit `{RegexEngine} (rules : CompiledProcessChainRules) (observation : ProcessObservation)
    : ProcessChainDetection → bool → Prop :=
| hit_chain r gated :
    r ∈ chain_rules rules →
    ch_parent (ccr_definition r) = normalized_name (po_parent observation) →
    ch_child (ccr_definition r) = normalized_name (po_child observation) →
    conditions_met (ccr_command_line_any r) (ccr_command_line_none r)
      (command_line_text (po_child observation)) →
    conditions_met (ccr_path_any r) (ccr_path_none r) (path_text (po_child observation)) →
    (gated = true ↔ ccr_command_line_any r ≠ []) →
    hit rules observation (chain_detection rules r observation) gated
| hit_standalone r subject gated p :
    r ∈ standalone_rules rules → standalone_subject (csr_target r) observation = Some subject →
    p ∈ csr_patterns r → Regex_is_match p subject = true →
    (∀ q, q ∈ csr_exclude r → Regex_is_match q subject = false) →
    (gated = true ↔ csr_target r = CommandLine) →
    hit rules observation (standalone_detection rules r observation) gated.

(** How the risk and the confidence of [d] follow from the hit [x]: controls demote a hit whose
    rule did not look at the command line, and an inferred parent weakens the confidence. *)
Definition settles_hit (observation : ProcessObservation) (context : ProcessChainContext)
    (x : ProcessChainDetection) (gated : bool) (d : ProcessChainDetection) : Prop :=
  (pcd_severity d, pcd_score d) =
    (if gated then (pcd_severity x, pcd_score x)
     else match context_reason x observation context with
          | Some _ => demoted (pcd_severity x)
          | None => (pcd_severity x, pcd_score x)
          end) ∧
  pcd_confidence d =
    (if po_parent_inferred observation then weaken_confidence (pcd_confidence x) else pcd_confidence x).

Section hits.
Context `{RegexEngine}.

Lemma regex_any_spec patterns subject :
  regex_any patterns subject = true ↔ ∃ r, r ∈ patterns ∧ Regex_is_match r subject = true.
Proof. unfold regex_any. rewrite existsb_exists. by setoid_rewrite list_elem_of_In. Qed.

Lemma regex_none_spec patterns subject :
  regex_any patterns subject = false ↔ ∀ r, r ∈ patterns → Regex_is_match r subject = false.
Proof.
  rewrite <- not_true_iff_false, regex_any_spec. split.
  - intros Hn r Hr. destruct (Regex_is_match r subject) eqn:Hm; [|done]. destruct Hn. by exists r.
  - intros Hn (r & Hr & Hm). by rewrite Hn in Hm.
Qed.

Lemma length_zero {A} (l : list A) : length l = O ↔ l = [].
Proof. split; [by destruct l|by intros ->]. Qed.

Lemma conditions_hold_spec any none subject :
  conditions_hold any none subject = true ↔ conditions_met any none subject.
Proof.
  unfold conditions_hold, conditions_met.
  rewrite andb_true_iff, !orb_true_iff, bool_decide_eq_true, length_zero, andb_true_iff, !negb_true_iff,
    regex_any_spec, regex_none_spec, is_empty_spec.
  rewrite <- (not_true_iff_false (is_empty subject)), is_empty_spec. done.
Qed.

Lemma candidates_hit rules observation x gated :
  (x, gated) ∈ candidates rules observation ↔ hit rules observation x gated.
Proof.
  unfold candidates. rewrite elem_of_app, !list_elem_of_fmap. split.
  - intros [(r & [= -> ->] & Hr)|(r & [= -> ->] & Hr)]; apply list_elem_of_In, List.filter_In in Hr as [Hr%list_elem_of_In Hh].
    + unfold chain_hit in Hh. rewrite !andb_true_iff, !str_eqb_spec, !conditions_hold_spec in Hh.
      destruct Hh as [[[? ?] ?] ?]. constructor; try done. by rewrite negb_true_iff, bool_decide_eq_false, length_zero.
    + unfold standalone_hit in Hh. destruct (standalone_subject _ _) as [subject|] eqn:Hs; [|done].
      rewrite andb_true_iff, negb_true_iff, regex_none_spec, regex_any_spec in Hh. destruct Hh as [(p & Hp & Hm) Hn].
      apply (hit_standalone _ _ _ subject _ p); try done. by rewrite bool_decide_eq_true.
  - intros [r g Hr Hp Hc H1 H2 Hg|r subject g p Hr Hs Hp Hm Hn Hg].
    + left. exists r. split.
      * f_equal. apply eq_bool_prop_intro. rewrite !Is_true_true, Hg, negb_true_iff, bool_decide_eq_false, length_zero. done.
      * apply list_elem_of_In, List.filter_In. split; [by apply list_elem_of_In|]. unfold chain_hit.
        by rewrite !andb_true_iff, !str_eqb_spec, !conditions_hold_spec.
    + right. exists r. split.
      * f_equal. apply eq_bool_prop_intro. by rewrite !Is_true_true, Hg, bool_decide_eq_true.
      * apply list_elem_of_In, List.filter_In. split; [by apply list_elem_of_In|]. unfold standalone_hit.
        rewrite Hs, andb_true_iff, negb_true_iff, regex_none_spec, regex_any_spec. eauto.
Qed.

(** The ids of rules are distinct, so what a rule looked at is known from its id. *)
Lemma hit_gated rules observation x y gated gated' : NoDup (compiled_rule_ids rules) →
  hit rules observation x gated → hit rules observation y gated' → pcd_rule_id x = pcd_rule_id y → gated = gated'.
Proof.
  unfold compiled_rule_ids. intros Hnd Hx Hy Hid.
  assert (∀ {A} (f : A → string) l a b, NoDup (map f l) → a ∈ l → b ∈ l → f a = f b → a = b) as Hinj.
  { clear. intros A f l a b Hnd [i Hi]%list_elem_of_lookup [j Hj]%list_elem_of_lookup Hf.
    assert (i = j) as ->; [|congruence].
    eapply (NoDup_lookup _ _ _ (f a) Hnd); rewrite list_lookup_fmap; [by rewrite Hi|by rewrite Hj, Hf]. }
  apply NoDup_app in Hnd as (Hc & Hd & Hnd). apply NoDup_app in Hnd as (Hs & _ & _).
  destruct Hx as [r g Hr _ _ _ _ Hg|r ? g ? Hr _ _ _ _ Hg], Hy as [r' g' Hr' _ _ _ _ Hg'|r' ? g' ? Hr' _ _ _ _ Hg'];
    cbn [pcd_rule_id chain_detection standalone_detection] in Hid.
  - assert (r = r') as -> by (by apply (Hinj _ (λ r, ch_id (ccr_definition r)) (chain_rules rules))).
    apply eq_bool_prop_intro. by rewrite !Is_true_true, Hg, Hg'.
  - exfalso. apply (Hd (ch_id (ccr_definition r))); [apply list_elem_of_fmap; eauto|]. apply elem_of_app. left.
    rewrite Hid. apply list_elem_of_fmap. eauto.
  - exfalso. apply (Hd (ch_id (ccr_definition r'))); [apply list_elem_of_fmap; eauto|]. apply elem_of_app. left.
    rewrite <- Hid. apply list_elem_of_fmap. eauto.
  - assert (r = r') as -> by (by apply (Hinj _ (λ r, sa_id (csr_definition r)) (standalone_rules rules))).
    apply eq_bool_prop_intro. by rewrite !Is_true_true, Hg, Hg'.
Qed.

End hits.

(** The base of a detection: the hit that deduplication chose, with what the group adds. *)
Lemma deduplicate_base hits w : w ∈ deduplicate hits → ∃ x t s, x ∈ hits ∧ w = with_group x t s.
Proof.
  intros (k & g & -> & Hw)%deduplicate_elem.
  pose proof (collapse_group_spec (List.filter (same_key pcd_dedup_key k) hits)) as Hc.
  rewrite Hw in Hc. destruct Hc as (d & [Hd _]%class_elem & _ & t & s & -> & _). eauto.
Qed.

Lemma adjust_settles observation context gated x t s g :
  bs_contains (pcd_rule_id x) gated = g →
  settles_hit observation context x g (adjust observation context gated (with_group x t s)).
Proof.
  intros <-. unfold settles_hit, adjust, apply_context. cbn [with_group pcd_rule_id].
  change (context_reason (with_group x t s) observation context) with (context_reason x observation context).
  destruct (bs_contains _ _), (context_reason x observation context), (po_parent_inferred observation); try done;
    cbn [with_group pcd_severity]; by destruct (demoted (pcd_severity x)).
Qed.

Lemma adjust_key observation context gated d : pcd_dedup_key (adjust observation context gated d) = pcd_dedup_key d.
Proof.
  unfold adjust, apply_context. destruct (bs_contains (pcd_rule_id d) gated), (context_reason d observation context),
    (po_parent_inferred observation); try done; by destruct (demoted (pcd_severity d)).
Qed.

(** C24: the emission contract.  With a compiled pack, whatever an evaluation charges, the
    detections it returns are those its rules call for, and without exhaustion it returns them.
    Every hit is reported, as a detection's rule or among its secondary rules; each detection
    reports a hit, at no higher score, severity or confidence and still within its severity's band,
    informational exactly when it scores 0; its risk is the hit's, demoted exactly when a control
    applies and the rule did not look at the command line, and its confidence is weakened exactly
    when the parent was inferred; no two share a deduplication key; and they are ordered by rule id. *)
Theorem evaluation_contract `{RegexEngine} {S E} YE (charge : Z → Eff S E unit) pack rules observation context :
  compile_pack (YamlError := YE) pack = Ok rules →
  let contract := λ detections,
    sorted_by (cmp_via pcd_rule_id) detections ∧ NoDup (map pcd_dedup_key detections) ∧
    (∀ d, d ∈ detections → detection_valid d ∧
       ∃ x gated, hit rules observation x gated ∧ lowered x d ∧ settles_hit observation context x gated d) ∧
    (∀ x gated, hit rules observation x gated → ∃ d, d ∈ detections ∧ pcd_dedup_key d = pcd_dedup_key x ∧
       (pcd_rule_id d = pcd_rule_id x ∨ pcd_rule_id x ∈ pcd_secondary_rule_ids d)) in
  yields (try_evaluate_with_context charge rules observation context) contract ∧
  (infallible charge → succeeds (try_evaluate_with_context charge rules observation context) contract).
Proof.
  intros Hpack contract.
  assert (contract (evaluate_spec rules observation context)) as Hc; [|destruct (try_evaluate_computes charge rules observation context) as [Hy Hs]].
  2: { split; [|intros Hi s; destruct (Hs Hi s) as (s' & a & Hr & <-); by exists s', (evaluate_spec rules observation context)].
       intros s s' a Hr. by rewrite <- (Hy s s' a Hr). }
  pose proof (candidates_valid YE pack rules observation Hpack) as Hvalid. rewrite Forall_forall in Hvalid.
  apply compile_pack_Ok in Hpack as [Hnd _]. set (hits := candidates rules observation) in *.
  assert (∀ d, d ∈ evaluate_spec rules observation context ↔ ∃ w, d = adjust observation context (gated_ids hits) w ∧
    w ∈ deduplicate (map fst hits)) as Hel.
  { intros d. unfold evaluate_spec. rewrite sort_by_perm, list_elem_of_fmap. done. }
  assert (∀ x gated t s, hit rules observation x gated → settles_hit observation context x gated
    (adjust observation context (gated_ids hits) (with_group x t s))) as Hsettles.
  { intros x gated t s Hx. apply adjust_settles, eq_bool_prop_intro. rewrite !Is_true_true, bs_contains_spec.
    unfold gated_ids. rewrite bs_of_list_elem, list_elem_of_fmap. split.
    - intros ([y g'] & Hid & Hy). apply list_elem_of_In, List.filter_In in Hy as [Hy%list_elem_of_In Hg']. cbn [fst snd] in *. subst g'.
      apply candidates_hit in Hy. exact (hit_gated rules observation x y gated true Hnd Hx Hy Hid).
    - intros ->. exists (x, true). split; [done|]. apply list_elem_of_In, List.filter_In. split; [|done].
      by apply list_elem_of_In, candidates_hit. }
  split_and!; [apply sort_by_sorted; apply _| | |].
  - unfold evaluate_spec. rewrite sort_by_perm, map_map. fold hits.
    rewrite (map_ext _ pcd_dedup_key); [apply deduplicate_keys|apply adjust_key].
  - intros d (w & -> & Hw)%Hel. destruct (deduplicate_base _ w Hw) as (x & t & s & Hx & ->).
    assert (detection_valid (with_group x t s)) as Hv by (apply (Hvalid x Hx)).
    destruct (adjust_lowers observation context (gated_ids hits) _ Hv) as (Hv' & Hl & _).
    split; [done|]. apply list_elem_of_fmap in Hx as ([x' gated] & -> & Hx%candidates_hit). exists x', gated.
    split_and!; [done|done|by apply Hsettles].
  - intros x gated Hx%candidates_hit. set (g := List.filter (same_key pcd_dedup_key (pcd_dedup_key x)) (map fst hits)).
    assert (x ∈ g) as Hxg by (apply class_elem; split; [|done]; apply list_elem_of_fmap; by exists (x, gated)).
    pose proof (collapse_group_spec g) as Hg. destruct (collapse_group g) as [w|] eqn:Hw; [|rewrite Hg in Hxg; set_solver].
    exists (adjust observation context (gated_ids hits) w). split; [apply Hel; exists w; split; [done|]; apply deduplicate_elem; eauto|].
    destruct Hg as (d & [Hd Hk]%class_elem & _ & t & s & -> & _ & Hids & _).
    assert (detection_valid (with_group d t s)) as Hv by (apply (Hvalid d Hd)).
    destruct (adjust_lowers observation context (gated_ids hits) _ Hv) as (_ & (-> & -> & _) & _ & ->).
    split; [done|]. cbn [with_group pcd_rule_id pcd_secondary_rule_ids]. destruct (Hids x Hxg) as [->|]; auto.
Qed.

(** ** Witnesses *)

#[local] Existing Instance literal_engine.

Definition sample_category : CategoryMetadata :=
  {| cat_detection_class := "security_detection"; cat_analytic_intent := "alert";
     cat_investigation_fields := []; cat_falsepositives := [] |}.

Definition sample_chain (id parent severity : string) (score : Z) (any : list string)
    : ChainRuleDefinition :=
  {| ch_id := id; ch_title := id; ch_category := "execution"; ch_severity := severity;
     ch_score := score; ch_confidence := "high"; ch_parent := parent; ch_child := "cmd";
     ch_mitre := [id]; ch_reason := "why"; ch_command_line_any := any;
     ch_command_line_none := []; ch_path_any := []; ch_path_none := [];
     ch_source_severity := None; ch_enabled := None; ch_dedup_key := None |}.

Definition sample_pack : ProcessChainPack :=
  {| pack_version := 1; pack_description := "sample";
     pack_defaults := {| pd_enabled := true; pd_risk_entity := "host";
                         pd_suppression_window_seconds := 3600 |};
     pack_categories := [("execution", sample_category)];
     pack_rules := [sample_chain "chain.word" "winword" "high" 60 [];
                    sample_chain "chain.info" "winword" "informational" 0 [];
                    sample_chain "chain.raw" "WINWORD.EXE" "high" 70 []];
     pack_standalone := []; pack_correlations := [] |}.

Definition sample_pack_rules : CompiledProcessChainRules :=
  match compile_pack (YamlError := unit) sample_pack with
  | Ok rules => rules
  | Err _ => {| chain_rules := []; standalone_rules := []; correlations := [];
                default_risk_entity := ""; default_suppression_window_seconds := 0 |}
  end.

Definition sample_process (name : string) : ProcessRef :=
  {| pr_name := name; pr_path := None; pr_pid := None; pr_command_line := None |}.

Definition sample_observation : ProcessObservation :=
  {| po_parent := sample_process "C:\Office\WINWORD.EXE"; po_child := sample_process "cmd.exe";
     po_grandparent := None; po_host := Some "HOST-1"; po_user := None; po_timestamp := None;
     po_source_event_id := None; po_parent_inferred := true |}.

Definition sample_controls : ProcessChainContext :=
  {| approved_admin_users := []; management_hosts := ["host-1"]; approved_rmm_products := [] |}.

Example sample_evaluation :
  map (λ d, (pcd_rule_id d, pcd_score d, pcd_confidence d, pcd_secondary_rule_ids d))
    (evaluate_with_context sample_pack_rules sample_observation sample_controls)
  = [("chain.word", 40, "medium", ["chain.info"])].
Proof. vm_compute. reflexivity. Qed.

(** A chain rule that names its parent other than by its comparison key compiles,
    shares the key's deduplication group, and never hits: compilation normalizes
    the names of correlation steps and deduplication keys but not these. *)
Example unnormalized_rule_never_hits :
  map (λ r, (ccr_dedup_key r, chain_hit sample_observation r)) (chain_rules sample_pack_rules)
  = [("chain:winword>cmd", true); ("chain:winword>cmd", true); ("chain:winword>cmd", false)].
Proof. vm_compute. reflexivity. Qed.

Lemma try_evaluate_with_context_correct_witness :
  succeeds (try_evaluate_with_context free_charge sample_pack_rules sample_observation
              sample_controls)
    (eq (evaluate_spec sample_pack_rules sample_observation sample_controls)).
Proof.
  apply (proj2 (try_evaluate_with_context_correct free_charge sample_pack_rules
    sample_observation sample_controls)).
  intros n s. by exists s.
Defined.

Lemma compile_pack_correct_witness :
  NoDup (compiled_rule_ids sample_pack_rules).
Proof.
  apply (compile_pack_correct unit sample_pack sample_pack_rules).
  vm_compute. reflexivity.
Defined.

(** The sample's evaluation returns one detection, lowered by a control and reported for two rules. *)
Lemma evaluation_contract_witness :
  succeeds (try_evaluate_with_context free_charge sample_pack_rules sample_observation sample_controls)
    (λ detections, ∃ d x gated, d ∈ detections ∧ hit sample_pack_rules sample_observation x gated ∧
       settles_hit sample_observation sample_controls x gated d).
Proof.
  intros s. destruct (evaluation_contract unit free_charge sample_pack sample_pack_rules sample_observation
    sample_controls ltac:(vm_compute; reflexivity)) as [_ Hs].
  destruct (Hs ltac:(intros n s'; by exists s') s) as (s' & detections & Hr & _ & _ & Hd & _). exists s', detections. split; [done|].
  assert (∃ d, d ∈ detections) as [d Hin].
  { destruct s. assert (detections = evaluate_with_context sample_pack_rules sample_observation sample_controls) as ->
      by (unfold evaluate_with_context; by rewrite Hr).
    eexists. vm_compute (evaluate_with_context _ _ _). by left. }
  destruct (Hd d Hin) as (_ & x & gated & Hx & _ & Ht). by exists d, x, gated.
Defined.
