(* ===== verification/ChainSession.v ===== *)
(** * Process-chain sessions

    crates/telltale-detect/src/process_chain_session.rs: suppression of repeats
    between atomic occurrences, correlation of the retained ones, and the
    completion-anchored predecessor search of streaming correlations.

    An [OffsetDateTime] is its instant in nanoseconds and a [Duration] a number of
    nanoseconds. *)

From S2P Require Import Prelude Ordered Rstr Scoring RuleMatch Rules ProcessChain.

Local Open Scope Z_scope.

Definition seconds (n : Z) : Z := n * 1000000000.

Definition DEFAULT_SUPPRESSION_WINDOW : Z := seconds 3600.
Definition DEFAULT_MAX_CORRELATIONS_PER_RULE_ENTITY : Z := 1.
Definition DEFAULT_MAX_CORRELATION_RISK_PER_ENTITY : Z := 150.

Record ProcessChainSessionConfig := {
  suppression_window : Z;
  max_correlations_per_rule_entity : Z;
  max_correlation_risk_per_entity : Z;
}.

Definition default_session_config : ProcessChainSessionConfig :=
  {| suppression_window := DEFAULT_SUPPRESSION_WINDOW;
     max_correlations_per_rule_entity := DEFAULT_MAX_CORRELATIONS_PER_RULE_ENTITY;
     max_correlation_risk_per_entity := DEFAULT_MAX_CORRELATION_RISK_PER_ENTITY |}.

Record ProcessChainSessionCandidate := {
  occurrence_id : nat;
  cand_rule_id : string;
  cand_category : string;
  cand_child : string;
  cand_dedupe_key : string;
  cand_entity : option string;
  occurred_at : option Z;
}.

Record RepeatSuppression := {
  retained : list nat;
  repeat_counts : list (nat * Z);
  suppressed_count : Z;
}.

Record CorrelationDecision := {
  rule_index : nat;
  candidate_indexes : list nat;
  effective_score : Z;
  risk_capped : bool;
}.

Record ProcessChainSessionSemantics := {
  pcs_suppression : RepeatSuppression;
  pcs_correlations : list CorrelationDecision;
}.

(** [SuppressionKey] with its derived order: rule, entity, key. *)
Definition SuppressionKey : Type := string * (string * string).

(** ** Repeat suppression *)

Record SuppressState := {
  ss_anchors : list (SuppressionKey * (nat * Z * Z));
  ss_occurrences : list (nat * bool);
  ss_retained : list nat;
  ss_counts : list (nat * Z);
  ss_suppressed : Z;
}.

Definition suppress_init : SuppressState :=
  {| ss_anchors := []; ss_occurrences := []; ss_retained := []; ss_counts := [];
     ss_suppressed := 0 |}.

(** A retained occurrence first seen at [index]. *)
Definition retain (st : SuppressState) (index occurrence : nat) : SuppressState :=
  {| ss_anchors := ss_anchors st;
     ss_occurrences := bm_insert occurrence true (ss_occurrences st);
     ss_retained := ss_retained st ++ [index];
     ss_counts := ss_counts st; ss_suppressed := ss_suppressed st |}.

Definition suppress_step (window : Z) (st : SuppressState)
    (entry : nat * ProcessChainSessionCandidate) : SuppressState :=
  let '(index, candidate) := entry in
  match bm_get (occurrence_id candidate) (ss_occurrences st) with
  | Some is_retained =>
      if is_retained : bool
      then {| ss_anchors := ss_anchors st; ss_occurrences := ss_occurrences st;
              ss_retained := ss_retained st ++ [index]; ss_counts := ss_counts st;
              ss_suppressed := ss_suppressed st |}
      else st
  | None =>
      match cand_entity candidate, occurred_at candidate with
      | Some entity, Some timestamp =>
          let key := (cand_rule_id candidate, (entity, cand_dedupe_key candidate)) in
          let fresh :=
            {| ss_anchors := bm_insert key (index, timestamp, 1) (ss_anchors st);
               ss_occurrences := bm_insert (occurrence_id candidate) true (ss_occurrences st);
               ss_retained := ss_retained st ++ [index];
               ss_counts := ss_counts st; ss_suppressed := ss_suppressed st |} in
          match bm_get key (ss_anchors st) with
          | Some (anchor_index, anchor_time, count) =>
              if timestamp - anchor_time <=? window
              then {| ss_anchors := bm_insert key (anchor_index, anchor_time, count + 1)
                                      (ss_anchors st);
                      ss_occurrences := bm_insert (occurrence_id candidate) false
                                          (ss_occurrences st);
                      ss_retained := ss_retained st;
                      ss_counts := bm_insert anchor_index (count + 1) (ss_counts st);
                      ss_suppressed := ss_suppressed st + 1 |}
              else fresh
          | None => fresh
          end
      | _, _ => retain st index (occurrence_id candidate)
      end
  end.

Section charged.
Context {S E : Type} (charge : Z → Eff S E unit).

Definition suppress_repeats (candidates : list ProcessChainSessionCandidate) (window : Z)
    : Eff S E RepeatSuppression :=
  let! st := efold (λ st entry,
    do! charge (saturating_add
                  (saturating_add (len (cand_rule_id entry.2))
                     (match cand_entity entry.2 with Some e => len e | None => 0 end))
                  (len (cand_dedupe_key entry.2))) in
    eret (suppress_step window st entry)) suppress_init (imap pair candidates) in
  eret {| retained := ss_retained st; repeat_counts := ss_counts st;
          suppressed_count := ss_suppressed st |}.

(** ** Correlation *)

(** One start of [find_sequences]: the steps still to match and what matched. *)
Fixpoint walk_steps (candidates : list ProcessChainSessionCandidate) (window anchor : Z)
    (steps : list CorrelationStep) (matched indexes : list nat)
    : Eff S E (list CorrelationStep * list nat) :=
  match indexes with
  | [] => eret (steps, matched)
  | candidate_index :: indexes' =>
      do! charge 1 in
      match candidates !! candidate_index with
      | None => eret (steps, matched)
      | Some candidate =>
          match occurred_at candidate with
          | None => walk_steps candidates window anchor steps matched indexes'
          | Some timestamp =>
              if window <? timestamp - anchor then eret (steps, matched)
              else match steps with
              | [] => eret (steps, matched)
              | current :: steps' =>
                  do! charge (saturating_add
                                (saturating_add (len (cand_category candidate))
                                   (len (cand_rule_id candidate)))
                                (len (cand_child candidate))) in
                  if step_matches current (cand_category candidate) (cand_rule_id candidate)
                       (cand_child candidate)
                  then match steps' with
                       | [] => eret ([], matched ++ [candidate_index])
                       | _ => walk_steps candidates window anchor steps'
                                (matched ++ [candidate_index]) indexes'
                       end
                  else walk_steps candidates window anchor steps matched indexes'
              end
          end
      end
  end.

(** [for start in 0..indexes.len()]: [indexes] is the suffix from [start]. *)
Fixpoint sequences_from (rule : CompiledCorrelationRule)
    (candidates : list ProcessChainSessionCandidate) (limit : Z)
    (sequences : list (list nat)) (indexes : list nat) : Eff S E (list (list nat)) :=
  match indexes with
  | [] => eret sequences
  | anchor_index :: indexes' =>
      do! charge 1 in
      if limit <=? Z.of_nat (length sequences) then eret sequences
      else match candidates !! anchor_index with
      | None => eret sequences
      | Some candidate =>
          match occurred_at candidate with
          | None => sequences_from rule candidates limit sequences indexes'
          | Some anchor =>
              let! walked := walk_steps candidates (seconds (ccr_window_seconds rule)) anchor
                               (ccr_steps rule) [] indexes in
              sequences_from rule candidates limit
                (match walked.1 with [] => sequences ++ [walked.2] | _ => sequences end) indexes'
          end
      end
  end.

Definition find_sequences (rule : CompiledCorrelationRule) (indexes : list nat)
    (candidates : list ProcessChainSessionCandidate) (limit : Z) : Eff S E (list (list nat)) :=
  sequences_from rule candidates limit [] indexes.

(** Cap accounting of one sequence. *)
Definition decide_sequence (rule_index : nat) (rule : CompiledCorrelationRule) (max_risk : Z)
    (acc : Z * list CorrelationDecision) (sequence : list nat) : Z * list CorrelationDecision :=
  let '(entity_risk, decisions) := acc in
  let risk_capped := max_risk <? saturating_add entity_risk (ccr_score rule) in
  let effective_score := if risk_capped then 0 else ccr_score rule in
  let entity_risk :=
    if risk_capped then entity_risk else saturating_add entity_risk (ccr_score rule) in
  (entity_risk,
   decisions ++ [{| rule_index := rule_index; candidate_indexes := sequence;
                    effective_score := effective_score; risk_capped := risk_capped |}]).

Definition correlate_entity (candidates : list ProcessChainSessionCandidate)
    (rules : list CompiledCorrelationRule) (limit max_risk : Z)
    (decisions : list CorrelationDecision) (indexes : list nat)
    : Eff S E (list CorrelationDecision) :=
  let! acc := efold (λ acc entry,
    let! sequences := find_sequences entry.2 indexes candidates limit in
    efold (λ acc sequence,
      do! charge (Z.of_nat (length sequence)) in
      eret (decide_sequence entry.1 entry.2 max_risk acc sequence)) acc sequences)
    (0, decisions) (imap pair rules) in
  eret acc.2.

Definition group_step (candidates : list ProcessChainSessionCandidate)
    (by_entity : list (string * list nat)) (index : nat) : list (string * list nat) :=
  match candidates !! index with
  | None => by_entity
  | Some candidate =>
      match occurred_at candidate, cand_entity candidate with
      | Some _, Some entity => bm_update entity [] (λ group, group ++ [index]) by_entity
      | _, _ => by_entity
      end
  end.

Definition time_of (candidates : list ProcessChainSessionCandidate) (index : nat) : option Z :=
  match candidates !! index with Some c => occurred_at c | None => None end.

Definition correlate_retained (candidates : list ProcessChainSessionCandidate)
    (retained : list nat) (rules : list CompiledCorrelationRule) (limit max_risk : Z)
    : Eff S E (list CorrelationDecision) :=
  let! by_entity := efold (λ m index,
    do! charge 1 in eret (group_step candidates m index)) [] retained in
  let! sorted := ecollect (λ indexes,
    do! charge (saturating_mul (Z.of_nat (length indexes)) (Z.of_nat (length indexes))) in
    eret (sort_by (cmp_via (time_of candidates)) indexes)) (bm_values by_entity) in
  efold (correlate_entity candidates rules limit max_risk) [] sorted.

Definition try_evaluate_process_chain_session `{RegexEngine}
    (candidates : list ProcessChainSessionCandidate) (rules : CompiledProcessChainRules)
    (config : ProcessChainSessionConfig) : Eff S E ProcessChainSessionSemantics :=
  let! suppression := suppress_repeats candidates (suppression_window config) in
  let! decisions := correlate_retained candidates (retained suppression) (correlations rules)
                      (max_correlations_per_rule_entity config)
                      (max_correlation_risk_per_entity config) in
  eret {| pcs_suppression := suppression; pcs_correlations := decisions |}.

End charged.

(** ** Streaming predecessors

    [remaining_work] is the state; the loop runs over [0..=end_index] reversed. *)

Section predecessors.
Variable timestamp : nat → Z.
Variable matches : nat → nat → bool.

Fixpoint predecessor_scan (window stop previous : Z) (step : nat) (support indexes : list nat)
    : Eff Z unit (option (list nat)) :=
  match indexes with
  | [] => eret None
  | index :: indexes' => λ remaining_work,
      match checked_sub remaining_work 1 with
      | None => (remaining_work, Err tt)
      | Some remaining_work =>
          let time := timestamp index in
          if ((previous <? time) || (window <? stop - time))%bool
          then predecessor_scan window stop previous step support indexes' remaining_work
          else if matches step index then
            let support := support ++ [index] in
            match step with
            | O => (remaining_work, Ok (Some (rev support)))
            | S step' => predecessor_scan window stop time step' support indexes' remaining_work
            end
          else predecessor_scan window stop previous step support indexes' remaining_work
      end
  end.

Definition ordered_predecessors (end_index : nat) (window : Z) (steps : nat)
    : Eff Z unit (option (list nat)) :=
  match steps with
  | O => eret None
  | S last =>
      if negb (matches last end_index) then eret None
      else predecessor_scan window (timestamp end_index) (timestamp end_index) last []
             (rev (seq 0 (S end_index)))
  end.

End predecessors.

(** ** Suppression, characterized *)

(** The repeat key and time of a candidate that has an entity and a time. *)
Definition key_of (c : ProcessChainSessionCandidate) : option (SuppressionKey * Z) :=
  match cand_entity c, occurred_at c with
  | Some entity, Some t => Some ((cand_rule_id c, (entity, cand_dedupe_key c)), t)
  | _, _ => None
  end.

(** [c] at [i] is the first candidate of its occurrence. *)
Definition first_seen (l : list ProcessChainSessionCandidate) (i : nat)
    (c : ProcessChainSessionCandidate) : Prop :=
  l !! i = Some c ∧
  ∀ j cj, (j < i)%nat → l !! j = Some cj → occurrence_id cj ≠ occurrence_id c.

(** A retained first candidate with key [k]: later repeats are measured from it. *)
Definition anchor_of (l : list ProcessChainSessionCandidate) (ret : list nat) (a : nat)
    (k : SuppressionKey) (t : Z) : Prop :=
  ∃ c, first_seen l a c ∧ key_of c = Some (k, t) ∧ a ∈ ret.

Definition latest_anchor (l : list ProcessChainSessionCandidate) (ret : list nat) (i : nat)
    (k : SuppressionKey) (a : nat) (t : Z) : Prop :=
  anchor_of l ret a k t ∧ (a < i)%nat ∧
  ∀ b t', (a < b < i)%nat → ¬ anchor_of l ret b k t'.

(** Which candidates are retained: every candidate shares the fate of the first
    one of its occurrence; that one is retained when it has no entity or time,
    and otherwise exactly when it is more than the window after the latest
    anchor of its key, if there is one. *)
Definition suppression_ok (window : Z) (l : list ProcessChainSessionCandidate) (ret : list nat)
    : Prop :=
  (∀ i, i ∈ ret → (i < length l)%nat) ∧
  (∀ i j ci cj, l !! i = Some ci → l !! j = Some cj →
     occurrence_id ci = occurrence_id cj → i ∈ ret ↔ j ∈ ret) ∧
  (∀ i c, first_seen l i c →
     match key_of c with
     | None => i ∈ ret
     | Some (k, t) => i ∉ ret ↔ ∃ a ta, latest_anchor l ret i k a ta ∧ t - ta ≤ window
     end).

Definition repeats (counts : list (nat * Z)) : Z := foldr (λ kv n, kv.2 - 1 + n) 0 counts.

Section suppression_facts.

Record suppress_inv (window : Z) (l : list ProcessChainSessionCandidate) (st : SuppressState)
    : Prop := {
  si_bound : ∀ i, i ∈ ss_retained st → (i < length l)%nat;
  si_fate : ∀ i c, l !! i = Some c →
    ∃ b, bm_get (occurrence_id c) (ss_occurrences st) = Some b ∧
         (b = true ↔ i ∈ ss_retained st);
  si_known : ∀ o b, bm_get o (ss_occurrences st) = Some b →
    ∃ i c, l !! i = Some c ∧ occurrence_id c = o;
  si_anchor : ∀ k a t n, bm_get k (ss_anchors st) = Some (a, t, n) →
    latest_anchor l (ss_retained st) (length l) k a t ∧
    default 1 (bm_get a (ss_counts st)) = n;
  si_no_anchor : ∀ k, bm_get k (ss_anchors st) = None →
    ∀ a t, ¬ anchor_of l (ss_retained st) a k t;
  si_rule : ∀ i c, first_seen l i c →
     match key_of c with
     | None => i ∈ ss_retained st
     | Some (k, t) => i ∉ ss_retained st ↔
         ∃ a ta, latest_anchor l (ss_retained st) i k a ta ∧ t - ta ≤ window
     end;
  si_counts : bm_wf (ss_counts st) ∧ repeats (ss_counts st) = ss_suppressed st;
  si_count_keys : ∀ a n, bm_get a (ss_counts st) = Some n → (a < length l)%nat;
}.

Lemma lookup_snoc_old {A} (l : list A) x i y :
  (i < length l)%nat → (l ++ [x]) !! i = Some y ↔ l !! i = Some y.
Proof. intros. by rewrite lookup_app_l. Qed.

Lemma first_seen_snoc l x i c :
  (i < length l)%nat → first_seen (l ++ [x]) i c ↔ first_seen l i c.
Proof.
  intros Hi. unfold first_seen. rewrite lookup_snoc_old by done.
  split; intros [Hc Hf]; (split; [done|]); intros j cj Hj Hl; apply (Hf j cj Hj);
    by apply lookup_snoc_old; [lia|] || by apply lookup_snoc_old in Hl; [|lia].
Qed.

Lemma first_seen_lt l i c : first_seen l i c → (i < length l)%nat.
Proof. intros [Hi _]. by eapply lookup_lt_Some. Qed.

(** Anchors below the new index do not change. *)
Lemma anchor_snoc_old l x ret ret' a k t :
  (a < length l)%nat → (∀ i, (i < length l)%nat → i ∈ ret' ↔ i ∈ ret) →
  anchor_of (l ++ [x]) ret' a k t ↔ anchor_of l ret a k t.
Proof.
  intros Ha Hret. unfold anchor_of. setoid_rewrite first_seen_snoc; [|done].
  setoid_rewrite Hret; [|done]. done.
Qed.

Lemma latest_snoc_old l x ret ret' i k a t :
  (i ≤ length l)%nat → (∀ i, (i < length l)%nat → i ∈ ret' ↔ i ∈ ret) →
  latest_anchor (l ++ [x]) ret' i k a t ↔ latest_anchor l ret i k a t.
Proof.
  intros Hi Hret. unfold latest_anchor. split; intros (Ha & Hlt & Hno); split_and!.
  - eapply anchor_snoc_old; [|done|done]. lia.
  - done.
  - intros b t' Hb Hanc. apply (Hno b t' Hb). eapply anchor_snoc_old; [|done|done]. lia.
  - eapply anchor_snoc_old; [|done|done]. lia.
  - done.
  - intros b t' Hb Hanc. apply (Hno b t' Hb). eapply anchor_snoc_old; [|done|done]. lia.
Qed.

(** The new element is no anchor of [k]: the latest anchor stays the latest. *)
Lemma latest_extend l x ret ret' k a t :
  (∀ i, (i < length l)%nat → i ∈ ret' ↔ i ∈ ret) →
  (∀ t', ¬ anchor_of (l ++ [x]) ret' (length l) k t') →
  latest_anchor l ret (length l) k a t →
  latest_anchor (l ++ [x]) ret' (length (l ++ [x])) k a t.
Proof.
  intros Hret Hnew (Ha & Hlt & Hno). unfold latest_anchor. rewrite length_app; simpl. split_and!.
  - by eapply anchor_snoc_old.
  - lia.
  - intros b t' Hb Hanc. destruct (decide (b = length l)) as [->|Hne]; [by eapply Hnew|].
    apply (Hno b t'); [lia|]. eapply anchor_snoc_old; [|done|done]. lia.
Qed.

Lemma anchor_lt l ret a k t : anchor_of l ret a k t → (a < length l)%nat.
Proof. intros (c & Hf & _). by eapply first_seen_lt. Qed.

(** The rule for old elements carries over. *)
Lemma rule_snoc_old window l x ret ret' i c :
  (i < length l)%nat → (∀ i, (i < length l)%nat → i ∈ ret' ↔ i ∈ ret) →
  match key_of c with
  | None => i ∈ ret
  | Some (k, t) => i ∉ ret ↔ ∃ a ta, latest_anchor l ret i k a ta ∧ t - ta ≤ window
  end →
  match key_of c with
  | None => i ∈ ret'
  | Some (k, t) => i ∉ ret' ↔ ∃ a ta, latest_anchor (l ++ [x]) ret' i k a ta ∧ t - ta ≤ window
  end.
Proof.
  intros Hi Hret. destruct (key_of c) as [[k t]|]; [|by rewrite Hret].
  rewrite Hret by done. intros ->. setoid_rewrite (latest_snoc_old _ _ ret); [done|lia|done].
Qed.

Lemma repeats_insert a n m :
  bm_wf m → repeats (bm_insert a n m) = repeats m - (default 1 (bm_get a m) - 1) + (n - 1).
Proof.
  unfold bm_wf. induction m as [|[k v] m IH]; simpl; [lia|].
  intros Hm. apply StronglySorted_inv in Hm as [Hm Hk]. destruct (cmp a k) eqn:E; simpl.
  - lia.
  - destruct (bm_get a m) as [v'|] eqn:Hg; simpl; [|lia].
    apply bm_get_elem in Hg; [|done]. exfalso. rewrite Forall_forall in Hk.
    assert (k ∈ m.*1 ∨ lt_of k a) as Hka.
    { right. apply Hk. apply list_elem_of_fmap. by exists (a, v'). }
    destruct Hka as [Hin|Hlt]; [by apply (lt_irrefl k), Hk|].
    apply (lt_irrefl a). by eapply cmp_trans.
  - rewrite IH by done. lia.
Qed.

(** The two ways the retained list grows. *)
Lemma ret_same ret n : ∀ i, (i < n)%nat → i ∈ ret ↔ i ∈ (ret : list nat).
Proof. done. Qed.

Lemma ret_push ret n : ∀ i, (i < n)%nat → i ∈ ret ++ [n] ↔ i ∈ (ret : list nat).
Proof. intros i Hi. rewrite elem_of_app, list_elem_of_singleton. lia || naive_solver lia. Qed.

Lemma lookup_snoc_cases {A} (l : list A) x i y :
  (l ++ [x]) !! i = Some y →
  ((i < length l)%nat ∧ l !! i = Some y) ∨ (i = length l ∧ y = x).
Proof.
  intros Hi. destruct (decide (i < length l)%nat).
  - left. split; [done|]. by apply lookup_snoc_old in Hi.
  - right. pose proof (lookup_lt_Some _ _ _ Hi) as Hlt. rewrite length_app in Hlt. simpl in Hlt.
    assert (i = length l) as -> by lia. split; [done|].
    rewrite lookup_app_r, Nat.sub_diag in Hi by lia. by injection Hi.
Qed.

Lemma lookup_snoc_new {A} (l : list A) x : (l ++ [x]) !! length l = Some x.
Proof. rewrite lookup_app_r by lia. by rewrite Nat.sub_diag. Qed.

(** A later variant of a known occurrence. *)
Lemma suppress_inv_variant window l st c b ret' :
  suppress_inv window l st →
  bm_get (occurrence_id c) (ss_occurrences st) = Some b →
  ret' = (if b then ss_retained st ++ [length l] else ss_retained st) →
  suppress_inv window (l ++ [c])
    {| ss_anchors := ss_anchors st; ss_occurrences := ss_occurrences st; ss_retained := ret';
       ss_counts := ss_counts st; ss_suppressed := ss_suppressed st |}.
Proof.
  intros [Hb Hf Hk Ha Hna Hr Hc Hck] Hocc Hret.
  assert (∀ i, (i < length l)%nat → i ∈ ret' ↔ i ∈ ss_retained st) as Hsame
    by (subst; destruct b; [apply ret_push | apply ret_same]).
  assert (∀ c', ¬ first_seen (l ++ [c]) (length l) c') as Hnf.
  { intros c' [Hl Hfirst]. rewrite lookup_snoc_new in Hl. injection Hl as <-.
    destruct (Hk _ _ Hocc) as (i & ci & Hi & Ho).
    pose proof (lookup_lt_Some _ _ _ Hi). apply (Hfirst i ci); [done| |done].
    by apply lookup_snoc_old. }
  assert (∀ k t, ¬ anchor_of (l ++ [c]) ret' (length l) k t) as Hnew
    by (intros k t (c' & Hs & _); by eapply Hnf).
  split; simpl.
  - intros i Hi. rewrite length_app; simpl. subst. destruct b; [|specialize (Hb i Hi); lia].
    apply elem_of_app in Hi as [Hi|Hi%list_elem_of_singleton]; [specialize (Hb i Hi)|]; lia.
  - intros i ci [[Hlt Hi]|[-> ->]]%lookup_snoc_cases.
    + destruct (Hf i ci Hi) as (b' & ? & ?). exists b'. by rewrite Hsame.
    + exists b. split; [done|]. subst. destruct b.
      * split; [intros _; set_solver|done].
      * split; [done|]. intros Hin%Hb. lia.
  - intros o b' Ho. destruct (Hk o b' Ho) as (i & ci & Hi & ?). exists i, ci.
    split; [|done]. apply lookup_snoc_old; [by eapply lookup_lt_Some | done].
  - intros k a t n Hg. destruct (Ha k a t n Hg). split; [|done]. by eapply latest_extend.
  - intros k Hg a t Hanc. pose proof (anchor_lt _ _ _ _ _ Hanc) as Hlt.
    rewrite length_app in Hlt; simpl in Hlt.
    destruct (decide (a = length l)) as [->|]; [by eapply Hnew|].
    eapply (Hna k Hg a t). eapply anchor_snoc_old; [|exact Hsame|exact Hanc]. lia.
  - intros i ci Hfs. pose proof (first_seen_lt _ _ _ Hfs) as Hlt.
    rewrite length_app in Hlt; simpl in Hlt.
    destruct (decide (i = length l)) as [->|]; [by exfalso; eapply Hnf|].
    apply (rule_snoc_old window l c (ss_retained st)); [lia|done|].
    apply Hr. apply first_seen_snoc in Hfs; [done|lia].
  - done.
  - intros a n Hg. rewrite length_app; simpl. specialize (Hck a n Hg). lia.
Qed.

(** The first candidate of a new occurrence, retained or not. *)
Lemma suppress_inv_fresh window l st c b anchors counts suppressed :
  let ret' := if b : bool then ss_retained st ++ [length l] else ss_retained st in
  suppress_inv window l st →
  bm_get (occurrence_id c) (ss_occurrences st) = None →
  match key_of c with
  | None => b = true
  | Some (k, t) => b = false ↔
      ∃ a ta, latest_anchor l (ss_retained st) (length l) k a ta ∧ t - ta ≤ window
  end →
  (∀ k a t n, bm_get k anchors = Some (a, t, n) →
     latest_anchor (l ++ [c]) ret' (length (l ++ [c])) k a t ∧ default 1 (bm_get a counts) = n) →
  (∀ k, bm_get k anchors = None → ∀ a t, ¬ anchor_of (l ++ [c]) ret' a k t) →
  bm_wf counts → repeats counts = suppressed →
  (∀ a n, bm_get a counts = Some n → (a < length (l ++ [c]))%nat) →
  suppress_inv window (l ++ [c])
    {| ss_anchors := anchors;
       ss_occurrences := bm_insert (occurrence_id c) b (ss_occurrences st);
       ss_retained := ret'; ss_counts := counts; ss_suppressed := suppressed |}.
Proof.
  intros ret' [Hb Hf Hk Ha Hna Hr Hc Hck] Hocc Hrule Hanc Hnone Hwf Hsum Hkeys.
  assert (∀ i, (i < length l)%nat → i ∈ ret' ↔ i ∈ ss_retained st) as Hsame
    by (unfold ret'; destruct b; [apply ret_push | apply ret_same]).
  assert (length l ∈ ret' ↔ b = true) as Hn.
  { unfold ret'. destruct b; [set_solver|]. split; [|done]. intros Hin%Hb. lia. }
  assert (∀ i ci, l !! i = Some ci → occurrence_id c ≠ occurrence_id ci) as Hdiff.
  { intros i ci Hi Heq. destruct (Hf i ci Hi) as (b' & Hg & _). congruence. }
  split; simpl; try done.
  - intros i Hi. rewrite length_app; simpl. destruct (decide (i < length l)%nat); [lia|].
    unfold ret' in Hi. destruct b; [|specialize (Hb i Hi); lia].
    apply elem_of_app in Hi as [Hi|Hi%list_elem_of_singleton]; [specialize (Hb i Hi)|]; lia.
  - intros i ci [[Hlt Hi]|[-> ->]]%lookup_snoc_cases.
    + rewrite bm_get_insert_ne by by eapply Hdiff.
      destruct (Hf i ci Hi) as (b' & ? & ?). exists b'. by rewrite Hsame.
    + exists b. rewrite bm_get_insert_eq. by rewrite Hn.
  - intros o b' Ho. destruct (decide (o = occurrence_id c)) as [->|Hne].
    + exists (length l), c. split; [apply lookup_snoc_new | done].
    + rewrite bm_get_insert_ne in Ho by done. destruct (Hk o b' Ho) as (i & ci & Hi & ?).
      exists i, ci. split; [|done]. apply lookup_snoc_old; [by eapply lookup_lt_Some | done].
  - intros i ci Hfs. pose proof (first_seen_lt _ _ _ Hfs) as Hlt.
    rewrite length_app in Hlt; simpl in Hlt.
    destruct (decide (i = length l)) as [->|].
    + destruct Hfs as [Hl _]. rewrite lookup_snoc_new in Hl. injection Hl as <-.
      destruct (key_of c) as [[k t]|]; [|by apply Hn].
      setoid_rewrite (latest_snoc_old _ _ (ss_retained st)); [|lia|done].
      rewrite <- Hrule, Hn. by destruct b.
    + apply (rule_snoc_old window l c (ss_retained st)); [lia|done|].
      apply Hr. apply first_seen_snoc in Hfs; [done|lia].
Qed.

(** Keys other than the new element's keep their anchors. *)
Lemma anchors_other window l st c b k :
  let ret' := if b : bool then ss_retained st ++ [length l] else ss_retained st in
  suppress_inv window l st →
  (∀ t, ¬ anchor_of (l ++ [c]) ret' (length l) k t) →
  (∀ a t n, bm_get k (ss_anchors st) = Some (a, t, n) →
     latest_anchor (l ++ [c]) ret' (length (l ++ [c])) k a t ∧
     default 1 (bm_get a (ss_counts st)) = n) ∧
  (bm_get k (ss_anchors st) = None → ∀ a t, ¬ anchor_of (l ++ [c]) ret' a k t).
Proof.
  intros ret' Hinv Hnew.
  assert (∀ i, (i < length l)%nat → i ∈ ret' ↔ i ∈ ss_retained st) as Hsame
    by (unfold ret'; destruct b; [apply ret_push | apply ret_same]).
  split.
  - intros a t n Hg. destruct (si_anchor _ _ _ Hinv k a t n Hg). split; [|done].
    by eapply latest_extend.
  - intros Hg a t Hanc. pose proof (anchor_lt _ _ _ _ _ Hanc) as Hlt.
    rewrite length_app in Hlt; simpl in Hlt.
    destruct (decide (a = length l)) as [->|]; [by eapply Hnew|].
    eapply (si_no_anchor _ _ _ Hinv k Hg a t). eapply anchor_snoc_old; [|exact Hsame|exact Hanc]. lia.
Qed.

Lemma new_anchor_key l c ret k t :
  anchor_of (l ++ [c]) ret (length l) k t → key_of c = Some (k, t) ∧ length l ∈ ret.
Proof.
  intros (c' & [Hl _] & Hk & Hin). rewrite lookup_snoc_new in Hl. by injection Hl as ->.
Qed.

Lemma counts_snoc window l st (c : ProcessChainSessionCandidate) a n :
  suppress_inv window l st → bm_get a (ss_counts st) = Some n → (a < length (l ++ [c]))%nat.
Proof.
  intros Hinv Hg. pose proof (si_count_keys _ _ _ Hinv a n Hg). rewrite length_app; simpl. lia.
Qed.

Lemma anchor_key_unique l ret a k t k' t' :
  anchor_of l ret a k t → anchor_of l ret a k' t' → k = k' ∧ t = t'.
Proof.
  intros (c & [Hl _] & Hk & _) (c' & [Hl' _] & Hk' & _).
  rewrite Hl in Hl'. injection Hl' as <-. rewrite Hk in Hk'. by injection Hk' as -> ->.
Qed.

Lemma latest_unique l ret i k a t a' t' :
  latest_anchor l ret i k a t → latest_anchor l ret i k a' t' → a = a' ∧ t = t'.
Proof.
  intros (H1 & Hlt & Hno) (H1' & Hlt' & Hno').
  assert (a = a') as ->.
  { destruct (lt_eq_lt_dec a a') as [[Hl| ->]|Hl]; [|done|].
    - exfalso. by apply (Hno a' t').
    - exfalso. by apply (Hno' a t). }
  destruct (anchor_key_unique _ _ _ _ _ _ _ H1 H1'). done.
Qed.

Lemma first_seen_new window l st c :
  suppress_inv window l st → bm_get (occurrence_id c) (ss_occurrences st) = None →
  first_seen (l ++ [c]) (length l) c.
Proof.
  intros Hinv Hocc. split; [apply lookup_snoc_new|]. intros j cj Hj Hl Heq.
  apply lookup_snoc_old in Hl; [|done].
  destruct (si_fate _ _ _ Hinv j cj Hl) as (b & Hg & _). congruence.
Qed.

(** A repeat within the window of its key's anchor. *)
Lemma suppress_inv_repeat window l st c k t a ta n :
  suppress_inv window l st → bm_get (occurrence_id c) (ss_occurrences st) = None →
  key_of c = Some (k, t) → bm_get k (ss_anchors st) = Some (a, ta, n) → t - ta ≤ window →
  suppress_inv window (l ++ [c])
    {| ss_anchors := bm_insert k (a, ta, n + 1) (ss_anchors st);
       ss_occurrences := bm_insert (occurrence_id c) false (ss_occurrences st);
       ss_retained := ss_retained st;
       ss_counts := bm_insert a (n + 1) (ss_counts st);
       ss_suppressed := ss_suppressed st + 1 |}.
Proof.
  intros Hinv Hocc Hk Hg Hw.
  destruct (si_anchor _ _ _ Hinv k a ta n Hg) as [Hlatest Hn].
  destruct (si_counts _ _ _ Hinv) as [Hwf Hsum].
  assert (∀ k' t', ¬ anchor_of (l ++ [c]) (ss_retained st) (length l) k' t') as Hnew.
  { intros k' t' [_ Hin]%new_anchor_key. apply (si_bound _ _ _ Hinv) in Hin. lia. }
  apply (suppress_inv_fresh window l st c false); [done|done| | | | | |].
  - rewrite Hk. split; [|done]. intros _. by exists a, ta.
  - intros k' a' t' n'. destruct (decide (k' = k)) as [->|Hne].
    + rewrite bm_get_insert_eq. intros [= <- <- <-]. rewrite bm_get_insert_eq. split; [|done].
      by eapply latest_extend.
    + rewrite bm_get_insert_ne by done. intros Hg'.
      destruct (anchors_other window l st c false k' Hinv (Hnew k')) as [Ha' _].
      destruct (Ha' _ _ _ Hg'). split; [done|]. rewrite bm_get_insert_ne; [done|]. intros ->.
      destruct (si_anchor _ _ _ Hinv _ _ _ _ Hg') as [[Hanc' _] _].
      destruct Hlatest as [Hanc _]. by destruct (anchor_key_unique _ _ _ _ _ _ _ Hanc Hanc').
  - intros k' Hg'. destruct (decide (k' = k)) as [->|Hne].
    + by rewrite bm_get_insert_eq in Hg'.
    + rewrite bm_get_insert_ne in Hg' by done.
      by apply (anchors_other window l st c false k' Hinv (Hnew k')).
  - by apply bm_insert_wf.
  - rewrite repeats_insert, Hn, Hsum by done. lia.
  - intros a' n'. destruct (decide (a' = a)) as [->|].
    + intros _. destruct Hlatest as (_ & Hlt & _). rewrite length_app; simpl. lia.
    + rewrite bm_get_insert_ne by done. by eapply counts_snoc.
Qed.

(** A candidate that becomes its key's anchor. *)
Lemma suppress_inv_anchor window l st c k t :
  suppress_inv window l st → bm_get (occurrence_id c) (ss_occurrences st) = None →
  key_of c = Some (k, t) →
  (∀ a ta n, bm_get k (ss_anchors st) = Some (a, ta, n) → window < t - ta) →
  suppress_inv window (l ++ [c])
    {| ss_anchors := bm_insert k (length l, t, 1) (ss_anchors st);
       ss_occurrences := bm_insert (occurrence_id c) true (ss_occurrences st);
       ss_retained := ss_retained st ++ [length l];
       ss_counts := ss_counts st; ss_suppressed := ss_suppressed st |}.
Proof.
  intros Hinv Hocc Hk Hfar. destruct (si_counts _ _ _ Hinv) as [Hwf Hsum].
  apply (suppress_inv_fresh window l st c true); [done|done| | | |done|done|].
  - rewrite Hk. split; [done|]. intros (a & ta & Hlat & Hle).
    destruct (bm_get k (ss_anchors st)) as [[[a' ta'] n']|] eqn:Hg.
    + destruct (si_anchor _ _ _ Hinv _ _ _ _ Hg) as [Hlat' _].
      destruct (latest_unique _ _ _ _ _ _ _ _ Hlat Hlat') as [-> ->].
      specialize (Hfar _ _ _ eq_refl). lia.
    + exfalso. eapply (si_no_anchor _ _ _ Hinv k Hg). apply Hlat.
  - intros k' a' t' n'. destruct (decide (k' = k)) as [->|Hne].
    + rewrite bm_get_insert_eq. intros [= <- <- <-]. split.
      * split_and!; [|rewrite length_app; simpl; lia|rewrite length_app; simpl; lia].
        exists c. split_and!; [by eapply first_seen_new|done|set_solver].
      * destruct (bm_get (length l) (ss_counts st)) as [m|] eqn:Hm; [|done].
        apply (si_count_keys _ _ _ Hinv) in Hm. lia.
    + rewrite bm_get_insert_ne by done. apply (anchors_other window l st c true k' Hinv).
      intros t'' [Hk' _]%new_anchor_key. congruence.
  - intros k' Hg'. destruct (decide (k' = k)) as [->|Hne].
    + by rewrite bm_get_insert_eq in Hg'.
    + rewrite bm_get_insert_ne in Hg' by done.
      apply (anchors_other window l st c true k' Hinv); [|done].
      intros t'' [Hk' _]%new_anchor_key. congruence.
  - intros a n. by eapply counts_snoc.
Qed.

(** A candidate without entity or time. *)
Lemma suppress_inv_untimed window l st c :
  suppress_inv window l st → bm_get (occurrence_id c) (ss_occurrences st) = None →
  key_of c = None → suppress_inv window (l ++ [c]) (retain st (length l) (occurrence_id c)).
Proof.
  intros Hinv Hocc Hk. destruct (si_counts _ _ _ Hinv) as [Hwf Hsum].
  assert (∀ k t, ¬ anchor_of (l ++ [c]) (ss_retained st ++ [length l]) (length l) k t) as Hnew.
  { intros k t [Hk' _]%new_anchor_key. congruence. }
  apply (suppress_inv_fresh window l st c true); [done|done|by rewrite Hk| | |done|done|].
  - intros k. apply (anchors_other window l st c true k Hinv (Hnew k)).
  - intros k. apply (anchors_other window l st c true k Hinv (Hnew k)).
  - intros a n. by eapply counts_snoc.
Qed.

Lemma suppress_step_inv window l st c :
  suppress_inv window l st → suppress_inv window (l ++ [c]) (suppress_step window st (length l, c)).
Proof.
  intros Hinv. unfold suppress_step.
  destruct (bm_get (occurrence_id c) (ss_occurrences st)) as [b|] eqn:Hocc.
  { pose proof (suppress_inv_variant window l st c b _ Hinv Hocc eq_refl) as Hv.
    destruct b; [exact Hv|]. by destruct st. }
  destruct (key_of c) as [[k t]|] eqn:Hk; unfold key_of in Hk.
  - destruct (cand_entity c) as [e|] eqn:He; [|done].
    destruct (occurred_at c) as [t'|] eqn:Ht; [|done]. injection Hk as <- <-.
    assert (key_of c = Some ((cand_rule_id c, (e, cand_dedupe_key c)), t')) as Hk
      by (unfold key_of; by rewrite He, Ht).
    cbv zeta.
    destruct (bm_get (cand_rule_id c, (e, cand_dedupe_key c)) (ss_anchors st))
      as [[[a ta] n]|] eqn:Hg.
    + destruct (Z.leb_spec (t' - ta) window).
      * by eapply suppress_inv_repeat.
      * eapply suppress_inv_anchor; [exact Hinv|exact Hocc|exact Hk|].
        intros a' ta' n' Hg'. by pose proof (eq_trans (eq_sym Hg) Hg') as [= <- <- <-].
    + eapply suppress_inv_anchor; [exact Hinv|exact Hocc|exact Hk|].
      intros a' ta' n' Hg'. by pose proof (eq_trans (eq_sym Hg) Hg').
  - assert (key_of c = None) by (unfold key_of; exact Hk).
    destruct (cand_entity c), (occurred_at c); try done; by apply suppress_inv_untimed.
Qed.

Lemma suppress_fold_inv window l :
  suppress_inv window l (foldl (suppress_step window) suppress_init (imap pair l)).
Proof.
  induction l as [|c l IH] using rev_ind.
  - split; simpl; try done; try (intros; set_solver).
    + intros k _ a t (c & [Hl _] & _). by rewrite lookup_nil in Hl.
    + intros i c [Hl _]. by rewrite lookup_nil in Hl.
    + split; [constructor|done].
  - rewrite imap_app, foldl_app. simpl. rewrite Nat.add_0_r. by apply suppress_step_inv.
Qed.

Lemma suppress_step_sorted window l :
  let st := foldl (suppress_step window) suppress_init (imap pair l) in
  StronglySorted Nat.lt (ss_retained st).
Proof.
  induction l as [|c l IH] using rev_ind; [constructor|].
  rewrite imap_app, foldl_app. simpl. rewrite Nat.add_0_r.
  set (st := foldl _ _ _) in *.
  assert (StronglySorted Nat.lt (ss_retained st ++ [length l])) as Hpush.
  { apply StronglySorted_snoc; [done|]. apply Forall_forall.
    exact (si_bound _ _ _ (suppress_fold_inv window l)). }
  unfold suppress_step. repeat case_match; done.
Qed.

End suppression_facts.


(** ** Correlation, without the charges *)

Section correlation_spec.
Variable candidates : list ProcessChainSessionCandidate.

Definition matches_at (step : CorrelationStep) (index : nat) : bool :=
  match candidates !! index with
  | Some c => step_matches step (cand_category c) (cand_rule_id c) (cand_child c)
  | None => false
  end.

Fixpoint walk (window anchor : Z) (steps : list CorrelationStep) (matched indexes : list nat)
    : list CorrelationStep * list nat :=
  match indexes with
  | [] => (steps, matched)
  | index :: indexes' =>
      match candidates !! index with
      | None => (steps, matched)
      | Some _ =>
          match time_of candidates index with
          | None => walk window anchor steps matched indexes'
          | Some timestamp =>
              if window <? timestamp - anchor then (steps, matched)
              else match steps with
              | [] => (steps, matched)
              | current :: steps' =>
                  if matches_at current index
                  then match steps' with
                       | [] => ([], matched ++ [index])
                       | _ => walk window anchor steps' (matched ++ [index]) indexes'
                       end
                  else walk window anchor steps matched indexes'
              end
          end
      end
  end.

Fixpoint starts (rule : CompiledCorrelationRule) (limit : Z) (sequences : list (list nat))
    (indexes : list nat) : list (list nat) :=
  match indexes with
  | [] => sequences
  | anchor_index :: indexes' =>
      if limit <=? Z.of_nat (length sequences) then sequences
      else match candidates !! anchor_index with
      | None => sequences
      | Some _ =>
          match time_of candidates anchor_index with
          | None => starts rule limit sequences indexes'
          | Some anchor =>
              let walked := walk (seconds (ccr_window_seconds rule)) anchor (ccr_steps rule) []
                              indexes in
              starts rule limit
                (match walked.1 with [] => sequences ++ [walked.2] | _ => sequences end) indexes'
          end
      end
  end.

Definition entity_decisions (rules : list CompiledCorrelationRule) (limit max_risk : Z)
    (decisions : list CorrelationDecision) (indexes : list nat) : Z * list CorrelationDecision :=
  foldl (λ acc entry, foldl (decide_sequence entry.1 entry.2 max_risk) acc
                        (starts entry.2 limit [] indexes)) (0, decisions) (imap pair rules).

Section correlation_charges.
Context {S E : Type} (charge : Z → Eff S E unit).

Lemma walk_computes window anchor steps matched indexes :
  computes (walk_steps charge candidates window anchor steps matched indexes) (infallible charge)
    (walk window anchor steps matched indexes).
Proof.
  revert steps matched; induction indexes as [|index indexes IH]; intros steps matched;
    cbn [walk_steps walk]; [by apply computes_ret|].
  apply computes_charge. unfold time_of, matches_at.
  destruct (candidates !! index) as [c|]; [|by apply computes_ret].
  destruct (occurred_at c) as [t|]; [|apply IH].
  destruct (window <? t - anchor); [by apply computes_ret|].
  destruct steps as [|current steps]; [by apply computes_ret|]. apply computes_charge.
  destruct (step_matches _ _ _ _); [|apply IH].
  destruct steps; [by apply computes_ret | apply IH].
Qed.

Lemma starts_computes rule limit sequences indexes :
  computes (sequences_from charge rule candidates limit sequences indexes) (infallible charge)
    (starts rule limit sequences indexes).
Proof.
  revert sequences; induction indexes as [|index indexes IH]; intros sequences;
    cbn [sequences_from starts]; [by apply computes_ret|].
  apply computes_charge. destruct (limit <=? _); [by apply computes_ret|].
  destruct (candidates !! index) as [c|] eqn:Hc; [|by apply computes_ret].
  unfold time_of. rewrite Hc. destruct (occurred_at c) as [t|]; [|apply IH].
  eapply computes_bind; [apply walk_computes | apply IH].
Qed.

Lemma correlate_entity_computes rules limit max_risk decisions indexes :
  computes (correlate_entity charge candidates rules limit max_risk decisions indexes)
    (infallible charge) (entity_decisions rules limit max_risk decisions indexes).2.
Proof.
  eapply computes_bind; [|by apply computes_ret]. apply efold_computes.
  intros acc [ri rule]. eapply computes_bind; [apply starts_computes|]. apply efold_computes.
  intros acc' seq. apply computes_charge. by apply computes_ret.
Qed.

Lemma correlate_computes ret rules limit max_risk :
  computes (correlate_retained charge candidates ret rules limit max_risk) (infallible charge)
    (foldl (λ ds indexes, (entity_decisions rules limit max_risk ds indexes).2) []
       (map (sort_by (cmp_via (time_of candidates)))
          (bm_values (foldl (group_step candidates) [] ret)))).
Proof.
  eapply computes_bind.
  { apply (efold_computes charge _ (group_step candidates)).
    intros m i. apply computes_charge. by apply computes_ret. }
  eapply computes_bind.
  { apply (ecollect_computes charge _ (sort_by (cmp_via (time_of candidates)))).
    intros l. apply computes_charge. by apply computes_ret. }
  apply efold_computes. intros ds indexes. apply correlate_entity_computes.
Qed.

End correlation_charges.

(** ** What a walk finds *)

(** [ms] matches [steps] one to one, inside the window that opens at [anchor]. *)
Definition matches_steps (window anchor : Z) (steps : list CorrelationStep) (ms : list nat) : Prop :=
  Forall2 (λ step i, matches_at step i = true ∧
             ∃ t, time_of candidates i = Some t ∧ t - anchor ≤ window) steps ms.

Lemma walk_sound window anchor steps matched indexes rest out :
  walk window anchor steps matched indexes = (rest, out) →
  ∃ found ms, steps = found ++ rest ∧ out = matched ++ ms ∧
    matches_steps window anchor found ms ∧ sublist ms indexes.
Proof.
  revert steps matched; induction indexes as [|index indexes IH]; intros steps matched; simpl.
  { intros [= <- <-]. exists [], []. rewrite app_nil_r. split_and!; [done..|constructor|constructor]. }
  assert (∀ st mt, (st, mt) = (rest, out) → steps = st → matched = mt →
    ∃ found ms, steps = found ++ rest ∧ out = matched ++ ms ∧
      matches_steps window anchor found ms ∧ sublist ms (index :: indexes)) as Hstop.
  { intros st mt [= <- <-] -> ->. exists [], []. rewrite app_nil_r.
    split_and!; [done..|constructor|]. apply sublist_nil_l. }
  destruct (candidates !! index) as [c|] eqn:Hc; [|intros Hx; by eapply Hstop].
  assert (∀ st mt, walk window anchor st mt indexes = (rest, out) → steps = st → matched = mt →
    ∃ found ms, steps = found ++ rest ∧ out = matched ++ ms ∧
      matches_steps window anchor found ms ∧ sublist ms (index :: indexes)) as Hskip.
  { intros st mt (found & ms & -> & -> & ? & ?)%IH -> ->. exists found, ms.
    split_and!; try done. by constructor. }
  destruct (time_of candidates index) as [t|] eqn:Ht; [|intros Hx; by eapply Hskip].
  destruct (Z.ltb_spec window (t - anchor)); [intros Hx; by eapply Hstop|].
  destruct steps as [|current steps]; [intros Hx; by eapply Hstop|].
  destruct (matches_at current index) eqn:Hm; [|intros Hx; by eapply Hskip].
  assert (matches_at current index = true ∧
    ∃ t, time_of candidates index = Some t ∧ t - anchor ≤ window) as Hhead by eauto.
  destruct steps as [|next steps].
  - intros [= <- <-]. exists [current], [index]. split_and!; [done..| |].
    + constructor; [exact Hhead | constructor].
    + constructor. apply sublist_nil_l.
  - intros (found & ms & -> & -> & ? & ?)%IH. exists (current :: found), (index :: ms).
    rewrite <- app_assoc. split_and!; [done..| |]; by constructor.
Qed.

(** Indexes of timed candidates in time order. *)
Definition timeline (indexes : list nat) : Prop :=
  (∀ i, i ∈ indexes → ∃ c t, candidates !! i = Some c ∧ occurred_at c = Some t) ∧
  sorted_by (cmp_via (time_of candidates)) indexes.

Lemma timeline_cons index indexes :
  timeline (index :: indexes) →
  timeline indexes ∧ ∃ c t, candidates !! index = Some c ∧ time_of candidates index = Some t ∧
    ∀ i t', i ∈ indexes → time_of candidates i = Some t' → t ≤ t'.
Proof.
  intros [Hall Hs]. apply StronglySorted_inv in Hs as [Hs Hle]. split.
  { split; [|done]. intros i Hi. apply Hall. set_solver. }
  destruct (Hall index) as (c & t & Hc & Ht); [set_solver|]. exists c, t.
  assert (time_of candidates index = Some t) as Htime by (unfold time_of; by rewrite Hc).
  split_and!; [done..|]. intros i t' Hi Hti. rewrite Forall_forall in Hle.
  specialize (Hle i Hi). unfold cmp_via in Hle. rewrite Htime, Hti in Hle.
  unfold cmp, ord_option, cmp, ord_Z in Hle. by destruct (Z.compare_spec t t'); try lia.
Qed.

Lemma walk_complete window anchor steps matched indexes ms :
  timeline indexes → matches_steps window anchor steps ms → sublist ms indexes →
  (walk window anchor steps matched indexes).1 = [].
Proof.
  revert steps matched ms; induction indexes as [|index indexes IH];
    intros steps matched ms Htl Hms Hsub; cbn [walk].
  { apply sublist_nil_r in Hsub as ->. by inversion Hms. }
  apply timeline_cons in Htl as (Htl & c & t & Hc & Ht & Hle). rewrite Hc, Ht.
  destruct (Z.ltb_spec window (t - anchor)) as [Hlt|Hlt].
  { destruct ms as [|m ms]; [by inversion Hms|]. exfalso.
    inversion Hms as [|? ? ? ? [_ (tm & Htm & Hw)] _]; subst.
    assert (m ∈ index :: indexes) as [->|Hin]%elem_of_cons.
    { eapply elem_of_submseteq; [|by apply sublist_submseteq]. set_solver. }
    - rewrite Ht in Htm. injection Htm as <-. lia.
    - pose proof (Hle m tm Hin Htm). lia. }
  destruct steps as [|current steps]; [done|].
  inversion Hms as [|? m ? ms' [Hm Hw] Hms']; subst.
  destruct (matches_at current index) eqn:Hhead.
  - destruct steps as [|next steps]; [done|].
    apply (IH (next :: steps) _ ms'); [done|done|].
    inversion Hsub as [| |? ? ? Hsub']; subst; [done|].
    eapply sublist_cons_l in Hsub' as (? & ? & -> & ?). by apply sublist_inserts_l, sublist_cons.
  - apply (IH (current :: steps) _ (m :: ms')); [done|done|].
    inversion Hsub; subst; [congruence | done].
Qed.

(** A sequence of [rule] on a timeline: in order, one candidate per step, all
    within the rule's window of the first. *)
Definition is_sequence (rule : CompiledCorrelationRule) (indexes ms : list nat) : Prop :=
  sublist ms indexes ∧
  match ms with
  | [] => ccr_steps rule = []
  | first :: _ => ∃ t0, time_of candidates first = Some t0 ∧
      matches_steps (seconds (ccr_window_seconds rule)) t0 (ccr_steps rule) ms
  end.

Lemma timeline_suffix pre indexes : timeline (pre ++ indexes) → timeline indexes.
Proof.
  induction pre as [|i pre IH]; simpl; [done|]. intros (Htl & _)%timeline_cons. auto.
Qed.

Lemma matches_steps_anchor window anchor anchor' steps ms :
  anchor ≤ anchor' → matches_steps window anchor steps ms → matches_steps window anchor' steps ms.
Proof.
  intros Hle Hms. eapply Forall2_impl; [exact Hms|]. intros step i [? (t & ? & ?)].
  split; [done|]. exists t. split; [done|lia].
Qed.

Lemma starts_sound rule limit sequences indexes ms :
  timeline indexes → ms ∈ starts rule limit sequences indexes →
  ms ∈ sequences ∨ is_sequence rule indexes ms.
Proof.
  revert sequences; induction indexes as [|index indexes IH]; intros sequences Htl; cbn [starts]; [auto|].
  pose proof (timeline_cons _ _ Htl) as (Htl' & c & t & Hc & Ht & Hle).
  destruct (limit <=? _); [auto|]. rewrite Hc, Ht. intros Hin%IH; [|done].
  assert (is_sequence rule indexes ms → is_sequence rule (index :: indexes) ms) as Hskip.
  { intros [Hsub ?]. split; [by apply sublist_cons|done]. }
  destruct Hin as [Hin|Hin]; [|by auto].
  destruct (walk _ _ _ _ _) as [rest out] eqn:Hw. cbn [fst snd] in Hin.
  destruct rest as [|step rest]; [|by left].
  apply elem_of_app in Hin as [Hin|Hin%list_elem_of_singleton]; [by left|]. subst out. right.
  apply walk_sound in Hw as (found & ms' & Hst & Hout & Hms & Hsub).
  rewrite app_nil_r in Hst. simpl in Hout. subst found ms'. split; [done|].
  destruct ms as [|first ms']; [by inversion Hms|].
  pose proof Hms as (step & steps' & [_ (t0 & Ht0 & _)] & _ & _)%Forall2_cons_inv_r.
  exists t0. split; [done|].
  assert (t ≤ t0); [|by eapply matches_steps_anchor].
  assert (first ∈ index :: indexes) as [->|Hin]%elem_of_cons.
  { eapply elem_of_submseteq; [|by apply sublist_submseteq]. set_solver. }
  - rewrite Ht in Ht0. injection Ht0 as <-. lia.
  - by eapply Hle.
Qed.

Lemma starts_limit rule limit sequences indexes :
  Z.of_nat (length (starts rule limit sequences indexes))
    ≤ Z.max (Z.of_nat (length sequences)) limit.
Proof.
  revert sequences; induction indexes as [|index indexes IH]; intros sequences; cbn [starts]; [lia|].
  destruct (Z.leb_spec limit (Z.of_nat (length sequences))); [lia|].
  destruct (candidates !! index); [|lia]. destruct (time_of candidates index) as [t|]; [|apply IH].
  etransitivity; [apply IH|]. destruct (walk _ _ _ _ _).1; rewrite ?length_app; simpl; lia.
Qed.

Lemma starts_grows rule limit sequences indexes :
  sequences ≠ [] → starts rule limit sequences indexes ≠ [].
Proof.
  revert sequences; induction indexes as [|index indexes IH]; intros sequences Hne; cbn [starts]; [done|].
  destruct (limit <=? _); [done|]. destruct (candidates !! index); [|done].
  destruct (time_of candidates index) as [t|]; [|by apply IH].
  apply IH. destruct (walk _ _ _ _ _).1; [|done]. by destruct sequences.
Qed.

Lemma starts_complete rule limit indexes ms :
  timeline indexes → 1 ≤ limit → ms ≠ [] → is_sequence rule indexes ms →
  starts rule limit [] indexes ≠ [].
Proof.
  intros Htl Hlim Hne [Hsub Hms]. destruct ms as [|first ms]; [done|].
  destruct Hms as (t0 & Ht0 & Hms). induction indexes as [|index indexes IH]; cbn [starts].
  { by apply sublist_nil_r in Hsub. }
  pose proof (timeline_cons _ _ Htl) as (Htl' & c & t & Hc & Ht & Hle).
  destruct (Z.leb_spec limit (Z.of_nat (length (@nil (list nat))))); [simpl in *; lia|].
  rewrite Hc, Ht.
  destruct (walk _ _ _ _ _).1 as [|step rest] eqn:Hw; [by apply starts_grows|].
  apply IH; [done|]. inversion Hsub; subst; [|done]. exfalso.
  rewrite Ht in Ht0. injection Ht0 as <-.
  rewrite (walk_complete _ _ _ _ (index :: indexes) (index :: ms)) in Hw; done.
Qed.

End correlation_spec.

(** ** Decisions and the risk cap *)

Definition risk_of (decisions : list CorrelationDecision) : Z :=
  foldr (λ d n, effective_score d + n) 0 decisions.

Definition decision_pair (d : CorrelationDecision) : nat * list nat :=
  (rule_index d, candidate_indexes d).

Section decision_facts.
Variable max_risk : Z.
Hypothesis max_risk_small : 0 ≤ max_risk < u64_max.

(** What a batch of decisions adds to a running entity. *)
Record decided (rules : list CompiledCorrelationRule) (risk risk' : Z)
    (pairs : list (nat * list nat)) (new : list CorrelationDecision) : Prop := {
  dec_pairs : map decision_pair new = pairs;
  dec_scores : Forall (λ d, ∃ rule, rules !! rule_index d = Some rule ∧
    effective_score d = if risk_capped d then 0 else ccr_score rule) new;
  dec_risk : risk' = risk + risk_of new;
  dec_cap : 0 ≤ risk' ≤ max_risk;
}.

Lemma risk_of_app l k : risk_of (l ++ k) = risk_of l + risk_of k.
Proof. induction l as [|d l IH]; simpl; lia. Qed.

Lemma decided_nil rules risk : 0 ≤ risk ≤ max_risk → decided rules risk risk [] [].
Proof. split; simpl; try done; try lia. Qed.

Lemma decided_app rules r0 r1 r2 p1 p2 n1 n2 :
  decided rules r0 r1 p1 n1 → decided rules r1 r2 p2 n2 →
  decided rules r0 r2 (p1 ++ p2) (n1 ++ n2).
Proof.
  intros [H1 H2 H3 H4] [H1' H2' H3' H4']. split; [|by apply Forall_app| |done].
  - by rewrite map_app, H1, H1'.
  - rewrite risk_of_app. lia.
Qed.

Lemma decide_sequence_decided rules ri rule risk ds seq :
  rules !! ri = Some rule → 0 ≤ ccr_score rule → 0 ≤ risk ≤ max_risk →
  ∃ risk' new, decide_sequence ri rule max_risk (risk, ds) seq = (risk', ds ++ new) ∧
    decided rules risk risk' [(ri, seq)] new.
Proof.
  intros Hr Hs Hrisk. unfold decide_sequence.
  destruct (Z.ltb_spec max_risk (saturating_add risk (ccr_score rule))) as [Hc|Hc].
  - exists risk. eexists. split; [done|]. split; simpl; try done; try lia.
    constructor; [|constructor]. eauto.
  - exists (saturating_add risk (ccr_score rule)). eexists. split; [done|].
    unfold saturating_add in *. split; simpl; try done; try lia.
    constructor; [|constructor]. eauto.
Qed.

Lemma decide_sequences_decided rules ri rule risk ds seqs :
  rules !! ri = Some rule → 0 ≤ ccr_score rule → 0 ≤ risk ≤ max_risk →
  ∃ risk' new, foldl (decide_sequence ri rule max_risk) (risk, ds) seqs = (risk', ds ++ new) ∧
    decided rules risk risk' (map (pair ri) seqs) new.
Proof.
  intros Hr Hs. revert risk ds; induction seqs as [|seq seqs IH]; intros risk ds Hrisk.
  { exists risk, []. rewrite app_nil_r. split; [done|]. by apply decided_nil. }
  cbn [foldl]. destruct (decide_sequence_decided rules ri rule risk ds seq Hr Hs Hrisk)
    as (r1 & n1 & -> & Hd1).
  destruct (IH r1 (ds ++ n1) (dec_cap _ _ _ _ _ Hd1)) as (r2 & n2 & -> & Hd2).
  exists r2, (n1 ++ n2). rewrite <- app_assoc. split; [done|].
  exact (decided_app _ _ _ _ _ _ _ _ Hd1 Hd2).
Qed.

(** Every (rule, sequence) pair an entity's timeline gives, in rule order. *)
Definition entity_pairs (candidates : list ProcessChainSessionCandidate) (limit : Z)
    (entries : list (nat * CompiledCorrelationRule)) (indexes : list nat) : list (nat * list nat) :=
  concat (map (λ e, map (pair e.1) (starts candidates e.2 limit [] indexes)) entries).

Lemma entity_decided candidates rules limit entries risk ds indexes :
  Forall (λ e, rules !! e.1 = Some e.2 ∧ 0 ≤ ccr_score e.2) entries → 0 ≤ risk ≤ max_risk →
  ∃ risk' new, foldl (λ acc entry, foldl (decide_sequence entry.1 entry.2 max_risk) acc
      (starts candidates entry.2 limit [] indexes)) (risk, ds) entries = (risk', ds ++ new) ∧
    decided rules risk risk' (entity_pairs candidates limit entries indexes) new.
Proof.
  intros Hall. revert risk ds; induction Hall as [|[ri rule] entries [Hr Hs] Hall IH];
    intros risk ds Hrisk.
  { exists risk, []. rewrite app_nil_r. split; [done|]. by apply decided_nil. }
  cbn [foldl]. cbn [fst snd] in *.
  destruct (decide_sequences_decided rules ri rule risk ds (starts candidates rule limit [] indexes)
    Hr Hs Hrisk) as (r1 & n1 & -> & Hd1).
  destruct (IH r1 (ds ++ n1) (dec_cap _ _ _ _ _ Hd1)) as (r2 & n2 & -> & Hd2).
  exists r2, (n1 ++ n2). rewrite <- app_assoc. split; [done|].
  exact (decided_app _ _ _ _ _ _ _ _ Hd1 Hd2).
Qed.

End decision_facts.

(** The timed candidates of an entity among the retained, in time order, equal
    times in retained order. *)
Definition entity_timeline (candidates : list ProcessChainSessionCandidate) (ret : list nat)
    (entity : string) : list nat :=
  sort_by (cmp_via (time_of candidates))
    (List.filter (λ i, match candidates !! i with
                       | Some c => bool_decide (is_Some (occurred_at c)) &&
                                   bool_decide (cand_entity c = Some entity)
                       | None => false
                       end)%bool ret).

(** The contract for one entity's decisions. *)
Record entity_contract (candidates : list ProcessChainSessionCandidate) (ret : list nat)
    (rules : list CompiledCorrelationRule) (limit max_risk : Z) (entity : string)
    (decisions : list CorrelationDecision) : Prop := {
  ec_sound : Forall (λ d, ∃ rule, rules !! rule_index d = Some rule ∧
    is_sequence candidates rule (entity_timeline candidates ret entity) (candidate_indexes d) ∧
    effective_score d = if risk_capped d then 0 else ccr_score rule) decisions;
  ec_complete : ∀ ri rule ms, rules !! ri = Some rule → 1 ≤ limit → ms ≠ [] →
    is_sequence candidates rule (entity_timeline candidates ret entity) ms →
    ∃ d, d ∈ decisions ∧ rule_index d = ri;
  ec_limit : ∀ ri, 0 ≤ limit →
    Z.of_nat (length (List.filter (λ d, Nat.eqb (rule_index d) ri) decisions)) ≤ limit;
  ec_cap : risk_of decisions ≤ max_risk;
}.

Section grouping_facts.
Variable candidates : list ProcessChainSessionCandidate.

Definition eligible (i : nat) : bool :=
  match candidates !! i with
  | Some c => (bool_decide (is_Some (occurred_at c)) && bool_decide (is_Some (cand_entity c)))%bool
  | None => false
  end.

Definition entity_at (i : nat) : string :=
  match candidates !! i with Some c => default "" (cand_entity c) | None => "" end.

Lemma group_step_push m ret :
  foldl (group_step candidates) m ret = foldl (group_push entity_at) m (List.filter eligible ret).
Proof.
  revert m; induction ret as [|i ret IH]; intros m; simpl; [done|].
  unfold group_step at 2, eligible at 1. destruct (candidates !! i) as [c|] eqn:Hc; [|apply IH].
  destruct (occurred_at c) as [t|]; simpl; [|apply IH].
  destruct (cand_entity c) as [e|] eqn:He; simpl; [|apply IH].
  rewrite IH. f_equal. unfold group_push, entity_at. rewrite Hc, He. done.
Qed.

Lemma filter_filter_bool {A} (p q r : A → bool) l :
  (∀ a, (p a && q a)%bool = r a) → List.filter p (List.filter q l) = List.filter r l.
Proof.
  intros Hpq. induction l as [|a l IH]; simpl; [done|]. rewrite <- (Hpq a).
  destruct (q a); simpl; [|by rewrite andb_false_r]. rewrite andb_true_r, IH. done.
Qed.

(** The groups: entities in order, each with its eligible retained indexes. *)
Lemma by_entity_groups ret :
  let m := foldl (group_step candidates) [] ret in
  bm_wf m ∧ Forall (λ kg, sort_by (cmp_via (time_of candidates)) kg.2
                          = entity_timeline candidates ret kg.1) m.
Proof.
  simpl. rewrite group_step_push. split; [apply group_push_wf; constructor|].
  eapply Forall_impl; [apply group_pairs|]. intros [e g] [-> _]. simpl. unfold entity_timeline.
  f_equal. apply filter_filter_bool. intros i. unfold same_key, entity_at, eligible.
  destruct (candidates !! i) as [c|]; [|by rewrite andb_false_r].
  destruct (occurred_at c) as [t|]; simpl; [|by rewrite andb_false_r].
  destruct (cand_entity c) as [e'|]; simpl; [|by rewrite andb_false_r].
  rewrite andb_true_r. destruct (cmp e' e) eqn:Hcmp.
  - apply cmp_eq in Hcmp as ->. by rewrite bool_decide_true.
  - rewrite bool_decide_false; [done|]. intros [= ->]. by rewrite cmp_refl in Hcmp.
  - rewrite bool_decide_false; [done|]. intros [= ->]. by rewrite cmp_refl in Hcmp.
Qed.

Lemma entity_timeline_ok ret e : timeline candidates (entity_timeline candidates ret e).
Proof.
  split; [|apply sort_by_sorted; apply _]. intros i. unfold entity_timeline.
  rewrite sort_by_perm, list_elem_of_In, List.filter_In. intros [_ Hi].
  destruct (candidates !! i) as [c|]; [|done].
  apply andb_true_iff in Hi as [[t Ht]%bool_decide_eq_true _]. eauto.
Qed.

End grouping_facts.

Section contract_facts.
Variables (candidates : list ProcessChainSessionCandidate) (ret : list nat).
Variables (rules : list CompiledCorrelationRule) (limit max_risk : Z).
Hypothesis max_risk_small : 0 ≤ max_risk < u64_max.
Hypothesis scores_nonneg : Forall (λ r, 0 ≤ ccr_score r) rules.

Lemma entries_ok :
  Forall (λ e, rules !! e.1 = Some e.2 ∧ 0 ≤ ccr_score e.2) (imap pair rules).
Proof.
  apply Forall_lookup. intros i [ri rule] Hi. rewrite list_lookup_imap in Hi.
  destruct (rules !! i) as [r|] eqn:Hr; [|done]. injection Hi as <- <-. simpl.
  split; [done|]. by eapply (Forall_lookup_1 _ _ _ _ scores_nonneg).
Qed.

Lemma entries_nodup : NoDup (map fst (imap pair rules)).
Proof.
  assert (map fst (imap pair rules) = seq 0 (length rules)) as ->; [|apply NoDup_seq].
  apply list_eq. intros i. rewrite lookup_map, list_lookup_imap.
  destruct (rules !! i) eqn:Hr; simpl.
  - symmetry. apply lookup_seq. split; [done|]. by eapply lookup_lt_Some.
  - symmetry. apply lookup_seq_ge. by apply lookup_ge_None.
Qed.

Lemma entity_pairs_elem entries indexes ri ms :
  (ri, ms) ∈ entity_pairs candidates limit entries indexes ↔
  ∃ rule, (ri, rule) ∈ entries ∧ ms ∈ starts candidates rule limit [] indexes.
Proof.
  unfold entity_pairs. induction entries as [|[rj rule] entries IH]; simpl; [set_solver|].
  rewrite elem_of_app, IH. setoid_rewrite elem_of_cons. setoid_rewrite list_elem_of_fmap.
  split; [intros [(x & [= -> ->] & ?)|(r & ? & ?)] | intros (r & [[= -> ->]|?] & ?)]; eauto 6.
Qed.

Lemma entity_pairs_count entries indexes ri :
  NoDup (map fst entries) → 0 ≤ limit →
  Z.of_nat (length (List.filter (λ p, Nat.eqb p.1 ri)
                      (entity_pairs candidates limit entries indexes))) ≤ limit ∧
  (ri ∉ map fst entries →
   List.filter (λ p, Nat.eqb p.1 ri) (entity_pairs candidates limit entries indexes) = []).
Proof.
  intros Hnd Hl. unfold entity_pairs.
  induction entries as [|[rj rule] entries IH]; simpl; [split; [lia|done]|].
  simpl in Hnd. apply NoDup_cons in Hnd as [Hrj Hnd]. destruct (IH Hnd) as [Hc Hn].
  rewrite List.filter_app, length_app.
  assert (∀ seqs : list (list nat), List.filter (λ p : nat * list nat, Nat.eqb p.1 ri) (map (pair rj) seqs)
    = if Nat.eqb rj ri then map (pair rj) seqs else []) as Hf.
  { induction seqs as [|x seqs IHs]; simpl; [by destruct (Nat.eqb rj ri)|].
    rewrite IHs. by destruct (Nat.eqb rj ri). }
  rewrite Hf. destruct (Nat.eqb_spec rj ri) as [->|Hne].
  - rewrite Hn by done. split; [|set_solver]. simpl. rewrite length_map.
    pose proof (starts_limit candidates rule limit [] indexes). simpl in *. lia.
  - simpl. split; [done|]. intros Hnot. apply Hn. set_solver.
Qed.

Lemma decided_contract risk' e new :
  decided max_risk rules 0 risk'
    (entity_pairs candidates limit (imap pair rules) (entity_timeline candidates ret e)) new →
  entity_contract candidates ret rules limit max_risk e new.
Proof.
  intros [Hp Hs Hr Hc]. pose proof (entity_timeline_ok candidates ret e) as Htl.
  pose proof entries_ok as Hent. rewrite Forall_forall in Hent. split.
  - rewrite Forall_forall in Hs. apply Forall_forall. intros d Hd.
    destruct (Hs d Hd) as (rule & Hrule & Hscore). exists rule. split_and!; [done| |done].
    assert (decision_pair d ∈ map decision_pair new) as Hin by by apply list_elem_of_fmap_2.
    rewrite Hp in Hin. apply entity_pairs_elem in Hin as (rule' & Hin & Hst).
    apply Hent in Hin as [Hrule' _]. simpl in Hrule'. rewrite Hrule in Hrule'.
    injection Hrule' as <-. apply starts_sound in Hst as [Hst|Hst]; [set_solver|done|done].
  - intros ri rule ms Hrule Hl Hne Hseq.
    pose proof (starts_complete candidates rule limit _ ms Htl Hl Hne Hseq) as Hst.
    destruct (starts candidates rule limit [] _) as [|x xs] eqn:Hx; [done|].
    assert ((ri, x) ∈ map decision_pair new) as (d & Hd & Hin)%list_elem_of_fmap.
    { rewrite Hp. apply entity_pairs_elem. exists rule. split; [|rewrite Hx; set_solver].
      apply list_elem_of_lookup. exists ri. by rewrite list_lookup_imap, Hrule. }
    exists d. split; [done|]. by injection Hd.
  - intros ri Hl. rewrite <- (length_map decision_pair).
    rewrite <- (filter_map_comm (λ p, Nat.eqb p.1 ri)) by done. rewrite Hp.
    by apply entity_pairs_count, Hl; apply entries_nodup.
  - lia.
Qed.

Lemma fold_entities ds groups :
  Forall (λ kg, sort_by (cmp_via (time_of candidates)) kg.2
                = entity_timeline candidates ret kg.1) groups →
  ∃ outs, foldl (λ ds indexes, (entity_decisions candidates rules limit max_risk ds indexes).2) ds
      (map (sort_by (cmp_via (time_of candidates))) (bm_values groups))
    = ds ++ concat (map snd outs) ∧
    map fst outs = map fst groups ∧
    Forall (λ g, entity_contract candidates ret rules limit max_risk g.1 g.2) outs.
Proof.
  intros Hall. revert ds; induction Hall as [|[e g] groups Hg Hall IH]; intros ds.
  { exists []. simpl. by rewrite app_nil_r. }
  unfold bm_values in *. simpl in *. rewrite Hg.
  destruct (entity_decided max_risk max_risk_small candidates rules limit (imap pair rules) 0 ds
    (entity_timeline candidates ret e) entries_ok ltac:(lia)) as (risk' & new & Hd & Hdec).
  assert ((entity_decisions candidates rules limit max_risk ds
    (entity_timeline candidates ret e)).2 = ds ++ new) as ->
    by (unfold entity_decisions; by rewrite Hd).
  destruct (IH (ds ++ new)) as (outs & Hx & Hfst & Hok).
  exists ((e, new) :: outs). simpl. rewrite Hfst. split_and!; [|done|].
  - etransitivity; [exact Hx|]. by rewrite <- app_assoc.
  - constructor; [|done]. by eapply decided_contract.
Qed.

End contract_facts.

(** Correlation.  For every charge, a completed run reports per entity, in
    entity order: each decision is a real sequence of its rule on the entity's
    timeline, one candidate per step, in order, within the rule's window; a rule
    that has a sequence is reported; no rule is reported more often than the
    limit; and the entity's effective scores never exceed the risk cap, a capped
    decision scoring 0.  No charge failing, the run completes. *)
Theorem correlate_retained_correct {S E} (charge : Z → Eff S E unit) candidates ret rules
    limit max_risk :
  0 ≤ max_risk < u64_max → Forall (λ r, 0 ≤ ccr_score r) rules →
  let ok decisions := ∃ groups : list (string * list CorrelationDecision),
    decisions = concat (map snd groups) ∧ StronglySorted lt_of (map fst groups) ∧
    Forall (λ g, entity_contract candidates ret rules limit max_risk g.1 g.2) groups in
  yields (correlate_retained charge candidates ret rules limit max_risk) ok ∧
  (infallible charge → succeeds (correlate_retained charge candidates ret rules limit max_risk) ok).
Proof.
  intros Hmax Hscores ok.
  destruct (correlate_computes candidates charge ret rules limit max_risk) as [Hy Hs].
  destruct (by_entity_groups candidates ret) as [Hwf Hg].
  destruct (fold_entities candidates ret rules limit max_risk Hmax Hscores [] _ Hg)
    as (outs & Hout & Hfst & Hok). simpl in Hout.
  assert (ok (concat (map snd outs))) as Hfinal.
  { exists outs. split_and!; [done| |done]. rewrite Hfst. exact Hwf. }
  rewrite Hout in Hy, Hs.
  split; [by eapply yields_weaken; [exact Hy|]; intros r <-|].
  intros Hfree s. destruct (Hs Hfree s) as (s' & r & Hr & <-). eauto.
Qed.

(** ** Predecessors *)

Section predecessor_facts.
Variable timestamp : nat → Z.
Variable matches : nat → nat → bool.

(** [found] supports steps [0..length found), in index and time order, inside the
    window that ends at [stop]. *)
Definition supports (window stop : Z) (found : list nat) : Prop :=
  StronglySorted (λ i j, (i < j)%nat ∧ timestamp i ≤ timestamp j) found ∧
  ∀ j i, found !! j = Some i → matches j i = true ∧ stop - timestamp i ≤ window.

Lemma rev_seq_S n : rev (seq 0 (S n)) = n :: rev (seq 0 n).
Proof. rewrite seq_S, rev_app_distr. done. Qed.

Lemma supports_snoc window stop found index :
  supports window stop found → matches (length found) index = true →
  stop - timestamp index ≤ window →
  Forall (λ i, (i < index)%nat ∧ timestamp i ≤ timestamp index) found →
  supports window stop (found ++ [index]).
Proof.
  intros [Hs Hm] Hi Hw Hall. split; [by apply StronglySorted_snoc|].
  intros j i [[_ Hj]|[-> ->]]%lookup_snoc_cases; auto.
Qed.

Lemma predecessor_scan_sound window stop previous step support n work work' out :
  predecessor_scan timestamp matches window stop previous step support (rev (seq 0 n)) work
    = (work', Ok (Some out)) →
  ∃ found, out = found ++ rev support ∧ length found = S step ∧ supports window stop found ∧
    Forall (λ i, (i < n)%nat ∧ timestamp i ≤ previous) found.
Proof.
  revert previous step support work; induction n as [|n IH];
    intros previous step support work; [done|].
  rewrite rev_seq_S. cbn [predecessor_scan]. destruct (checked_sub work 1) as [work1|]; [|done].
  assert (∀ previous' step' support', 
    predecessor_scan timestamp matches window stop previous' step' support' (rev (seq 0 n)) work1
      = (work', Ok (Some out)) →
    ∃ found, out = found ++ rev support' ∧ length found = S step' ∧ supports window stop found ∧
      Forall (λ i, (i < S n)%nat ∧ timestamp i ≤ previous') found) as Hskip.
  { intros p' s' sup' (found & ? & ? & ? & Hall)%IH. exists found. split_and!; [done..|].
    eapply Forall_impl; [exact Hall|]. intros i [? ?]. split; [lia|done]. }
  destruct (Z.ltb_spec previous (timestamp n)); simpl; [apply Hskip|].
  destruct (Z.ltb_spec window (stop - timestamp n)); [apply Hskip|].
  destruct (matches step n) eqn:Hm; [|apply Hskip]. destruct step as [|step].
  - intros [= <- <-]. exists [n]. rewrite rev_app_distr. split_and!; [done..| |].
    + apply (supports_snoc window stop [] n); [by split; [constructor|]|done|lia|constructor].
    + constructor; [split; [lia|done]|constructor].
  - intros (found & -> & Hlen & Hs & Hall)%IH. exists (found ++ [n]).
    rewrite rev_app_distr, <- app_assoc. split_and!; [done| | |].
    + rewrite length_app, Hlen. simpl. lia.
    + apply supports_snoc; [done|by rewrite Hlen|lia|done].
    + apply Forall_app. split; [|constructor; [split; [lia|done]|constructor]].
      eapply Forall_impl; [exact Hall|]. intros i [? ?]. split; lia.
Qed.

Lemma predecessor_scan_work window stop previous step support n work work' r :
  0 ≤ work →
  predecessor_scan timestamp matches window stop previous step support (rev (seq 0 n)) work
    = (work', r) →
  0 ≤ work' ≤ work ∧ work - work' ≤ Z.of_nat n ∧
  (∀ e, r = Err e → work < Z.of_nat n).
Proof.
  revert previous step support work; induction n as [|n IH];
    intros previous step support work Hw.
  { intros [= <- <-]. split_and!; [lia..|done]. }
  rewrite rev_seq_S. cbn [predecessor_scan]. destruct (checked_sub work 1) as [work1|] eqn:Hsub.
  2:{ intros [= <- <-]. unfold checked_sub in Hsub. destruct (Z.leb_spec 1 work); [done|].
      split_and!; [lia..|]. intros; lia. }
  apply checked_sub_Some in Hsub as [-> Hsub].
  assert (∀ p' s' sup', predecessor_scan timestamp matches window stop p' s' sup'
    (rev (seq 0 n)) (work - 1) = (work', r) →
    0 ≤ work' ≤ work ∧ work - work' ≤ Z.of_nat (S n) ∧
    (∀ e, r = Err e → work < Z.of_nat (S n))) as Hskip.
  { intros p' s' sup' (? & ? & He)%IH; [|lia]. split_and!; [lia..|].
    intros e Hr. specialize (He e Hr). lia. }
  destruct (_ || _)%bool; [apply Hskip|]. destruct (matches step n); [|apply Hskip].
  destruct step; [|apply Hskip]. intros [= <- <-]. split_and!; [lia..|done].
Qed.

Lemma supports_prefix window stop found index :
  supports window stop (found ++ [index]) → supports window stop found ∧
  Forall (λ i, (i < index)%nat) found ∧ matches (length found) index = true ∧
  stop - timestamp index ≤ window.
Proof.
  intros [Hs Hm].
  assert (StronglySorted (λ i j, (i < j)%nat ∧ timestamp i ≤ timestamp j) found ∧
          Forall (λ i, (i < index)%nat) found) as [Hs' Hlt].
  { clear Hm. induction found as [|x found IH]; [split; constructor|]. simpl in Hs.
    apply StronglySorted_inv in Hs as [Hs Hx]. destruct (IH Hs) as [? ?].
    apply Forall_app in Hx as [Hx Hi]. apply Forall_singleton in Hi as [Hi _].
    split; by constructor. }
  split_and!; [split; [done|]|done|..].
  - intros j i Hj. apply Hm. by apply lookup_app_l_Some.
  - apply (Hm (length found)). apply lookup_snoc_new.
  - apply (Hm (length found)). apply lookup_snoc_new.
Qed.

Lemma predecessor_scan_complete window stop previous step support n work work' found :
  (∀ i j, (i ≤ j)%nat → timestamp i ≤ timestamp j) →
  (∀ i, (i < n)%nat → timestamp i ≤ previous) →
  predecessor_scan timestamp matches window stop previous step support (rev (seq 0 n)) work
    = (work', Ok None) →
  length found = S step → supports window stop found → Forall (λ i, (i < n)%nat) found → False.
Proof.
  intros Hmono. revert previous step support work found; induction n as [|n IH];
    intros previous step support work found Hprev Hscan Hlen Hsup Hall.
  { destruct found; [done|]. apply Forall_cons in Hall as [? _]. lia. }
  rewrite rev_seq_S in Hscan. cbn [predecessor_scan] in Hscan.
  destruct (checked_sub work 1) as [work1|]; [|done].
  destruct (exists_last (l := found)) as (pre & index & ->); [by intros ->|].
  apply Forall_app in Hall as [_ Hidx]. rewrite Forall_singleton in Hidx.
  pose proof (supports_prefix _ _ _ _ Hsup) as (Hpre & Hlt & Hm & Hw).
  rewrite length_app in Hlen. simpl in Hlen. assert (length pre = step) as Hstep by lia.
  pose proof (Hmono index n ltac:(lia)) as Hin.
  assert (∀ work2, index ≠ n → predecessor_scan timestamp matches window stop previous step support
    (rev (seq 0 n)) work2 = (work', Ok None) → False) as Hskip.
  { intros work2 Hne Hs. eapply (IH previous step support work2 (pre ++ [index])).
    - intros i Hi. apply Hprev. lia.
    - done.
    - rewrite length_app. simpl. lia.
    - done.
    - apply Forall_app. split; [eapply Forall_impl; [exact Hlt|]; intros i Hi; simpl in *; lia|].
      apply Forall_singleton. lia. }
  pose proof (Hprev n ltac:(lia)). destruct (Z.ltb_spec previous (timestamp n)); [lia|].
  simpl in Hscan. destruct (Z.ltb_spec window (stop - timestamp n)); [lia|].
  destruct (matches step n) eqn:Hmn.
  - destruct step as [|step]; [done|].
    eapply (IH (timestamp n) step (support ++ [n]) work1 pre); [|done|done|done|].
    + intros i Hi. apply Hmono. lia.
    + eapply Forall_impl; [exact Hlt|]. intros i Hi. simpl in *. lia.
  - eapply Hskip; [|done]. intros ->. rewrite Hstep, Hmn in Hm. done.
Qed.

End predecessor_facts.

(** The completion-anchored search.  A support found has one candidate per
    step, ends at the completing one, is increasing in index and time and lies
    within the window; at most one unit of work per candidate is spent, and the
    search fails only for lack of work; and when times follow the index order,
    finding nothing means there is no support. *)
Theorem ordered_predecessors_correct timestamp matches end_index window steps work work' r :
  0 ≤ work → 0 ≤ window →
  ordered_predecessors timestamp matches end_index window steps work = (work', r) →
  0 ≤ work' ≤ work ∧ work - work' ≤ Z.of_nat (S end_index) ∧
  match r with
  | Err _ => work < Z.of_nat (S end_index)
  | Ok (Some support) =>
      length support = steps ∧ last support = Some end_index ∧
      supports timestamp matches window (timestamp end_index) support
  | Ok None =>
      (∀ i j, (i ≤ j)%nat → timestamp i ≤ timestamp j) →
      ∀ support, length support = steps → last support = Some end_index →
        ¬ supports timestamp matches window (timestamp end_index) support
  end.
Proof.
  intros Hwork Hwin. unfold ordered_predecessors. destruct steps as [|step].
  { intros [= <- <-]. split_and!; [lia..|]. intros _ [|x support]; done. }
  destruct (matches step end_index) eqn:Hm; cbn [negb].
  2:{ intros [= <- <-]. split_and!; [lia..|]. intros _ support Hlen Hlast Hsup.
      apply last_Some in Hlast as [pre ->]. apply supports_prefix in Hsup as (_ & _ & Hm' & _).
      rewrite length_app in Hlen; simpl in Hlen. replace (length pre) with step in Hm' by lia.
      congruence. }
  intros Hscan. pose proof (predecessor_scan_work _ _ _ _ _ _ _ _ _ _ _ Hwork Hscan) as (? & ? & He).
  split_and!; [lia..|]. destruct r as [[support|]|e]; [| |by eapply He].
  - rewrite rev_seq_S in Hscan. cbn [predecessor_scan] in Hscan.
    destruct (checked_sub work 1) as [work1|]; [|done].
    rewrite Z.ltb_irrefl in Hscan. simpl in Hscan.
    destruct (Z.ltb_spec window (timestamp end_index - timestamp end_index)); [lia|].
    rewrite Hm in Hscan. destruct step as [|step].
    + injection Hscan as _ <-. split_and!; [done..|].
      apply (supports_snoc _ _ _ _ [] end_index); [by split; [constructor|]|done|lia|constructor].
    + apply predecessor_scan_sound in Hscan as (found & -> & Hlen & Hs & Hall). simpl.
      rewrite last_snoc, length_app, Hlen. split_and!; [simpl; lia|done|].
      apply supports_snoc; [done|by rewrite Hlen|lia|done].
  - intros Hmono support Hlen Hlast Hsup.
    eapply (predecessor_scan_complete _ _ _ _ _ _ _ _ _ _ support Hmono); [|exact Hscan|done|done|].
    + intros i Hi. apply Hmono. lia.
    + apply last_Some in Hlast as [pre ->]. apply supports_prefix in Hsup as (_ & Hlt & _).
      apply Forall_app. split; [|apply Forall_singleton; lia].
      eapply Forall_impl; [exact Hlt|]. intros i Hi. simpl in *. lia.
Qed.

(** ** Witnesses *)

Definition sample_candidate (occurrence : nat) (rule child : string) (t : Z)
    : ProcessChainSessionCandidate :=
  {| occurrence_id := occurrence; cand_rule_id := rule; cand_category := "execution";
     cand_child := child; cand_dedupe_key := "k"; cand_entity := Some "host-1";
     occurred_at := Some (seconds t) |}.

Definition sample_session : list ProcessChainSessionCandidate :=
  [sample_candidate 0 "rule.a" "cmd" 0; sample_candidate 1 "rule.b" "powershell" 10;
   sample_candidate 2 "rule.a" "cmd" 20; sample_candidate 3 "rule.a" "cmd" 4000].

Definition sample_step (child : string) : CorrelationStep :=
  {| cs_any_category := []; cs_any_rule_id := []; cs_any_child := [child] |}.

Definition sample_correlation : CompiledCorrelationRule :=
  {| ccr_id := "corr.ab"; ccr_title := "ab"; ccr_category := "execution";
     ccr_detection_class := "security_detection"; ccr_analytic_intent := "alert";
     ccr_severity := "critical"; ccr_score := 90; ccr_confidence := "high"; ccr_mitre := [];
     ccr_reason := "chain"; ccr_window_seconds := 60; ccr_entity := "host";
     ccr_steps := [sample_step "cmd"; sample_step "powershell"]; ccr_falsepositives := [] |}.

Example sample_suppression :
  (suppress_repeats free_charge sample_session DEFAULT_SUPPRESSION_WINDOW tt).2
  = Ok {| retained := [0; 1; 3]%nat; repeat_counts := [(0%nat, 2)]; suppressed_count := 1 |}.
Proof. vm_compute. reflexivity. Qed.

Example sample_correlated :
  (correlate_retained free_charge sample_session [0; 1; 3]%nat
     [sample_correlation; sample_correlation] 1 150 tt).2
  = Ok [{| rule_index := 0; candidate_indexes := [0; 1]%nat; effective_score := 90;
           risk_capped := false |};
        {| rule_index := 1; candidate_indexes := [0; 1]%nat; effective_score := 0;
           risk_capped := true |}].
Proof. vm_compute. reflexivity. Qed.


Lemma correlate_retained_correct_witness :
  ∃ groups : list (string * list CorrelationDecision),
    [{| rule_index := 0; candidate_indexes := [0; 1]%nat; effective_score := 90;
        risk_capped := false |}] = concat (map snd groups) ∧
    Forall (λ g, entity_contract sample_session [0; 1; 3]%nat [sample_correlation] 1 150 g.1 g.2)
      groups.
Proof.
  destruct (proj1 (correlate_retained_correct free_charge sample_session [0; 1; 3]%nat
    [sample_correlation] 1 150 ltac:(vm_compute; split; [discriminate | reflexivity])
    ltac:(repeat constructor; vm_compute; discriminate)) tt tt
    [{| rule_index := 0; candidate_indexes := [0; 1]%nat; effective_score := 90;
        risk_capped := false |}] ltac:(vm_compute; reflexivity))
    as (groups & Heq & _ & Hok).
  exists groups. split; assumption.
Defined.

Lemma ordered_predecessors_correct_witness :
  last [1; 2]%nat = Some 2%nat ∧
  supports Z.of_nat (λ step i, Nat.eqb i (S step)) 5 2 [1; 2]%nat.
Proof.
  destruct (ordered_predecessors_correct Z.of_nat (λ step i, Nat.eqb i (S step)) 2 5 2 10 8
    (Ok (Some [1; 2]%nat)) ltac:(lia) ltac:(lia) ltac:(vm_compute; reflexivity))
    as (_ & _ & _ & H1 & H2).
  split; assumption.
Defined.
