(* ===== verification/Budget.v ===== *)
(** * Source bounds, work accounting and session order

    crates/telltale-schema/src/observation/mod.rs ([SourceScale]) and
    crates/telltale-detect/src/v2/session.rs: the per-source bounds, the shared
    work counter with the retention budget over it, and the grouping and ordering
    of a source's observations into sessions.

    The work counter is an [AtomicUsize] shared by every budget of a source; it is
    part of the state, beside one budget's own counts.  Parsing RFC 3339 text is
    the [Rfc3339] interface. *)

From S2P Require Import Prelude Ordered Rstr.

Local Open Scope Z_scope.

(** ** Scale *)

Definition MAX_CANONICAL_RETAINED_BYTES : Z := 8 * 1024 * 1024.
Definition SOURCE_SCALE_UNIT_BYTES : Z := 1024 * 1024.
Definition MAX_SCALED_SOURCE_BYTES : Z := 64 * 1024 * 1024.
Definition MAX_SOURCE_OBSERVATIONS : Z := 65536.
Definition MAX_PROJECTION_ITEMS : Z := 4096.
Definition MAX_COMPATIBILITY_RETAINED_BYTES : Z := 4 * 1024 * 1024.
Definition MAX_EVALUATION_BYTE_VISITS : Z := 256 * 1024 * 1024.
Definition LOCAL_MAX_STRING_BYTES : Z := 4096.
Definition MAX_COMPATIBILITY_STRING_BYTES : Z := LOCAL_MAX_STRING_BYTES.

(** [SourceScale(usize)]. *)
Definition SourceScale : Type := Z.
Definition FLOOR : SourceScale := 0.
Definition for_source_bytes (bytes : Z) : SourceScale := Z.min bytes MAX_SCALED_SOURCE_BYTES.

(** The product is taken in [u128], so only the conversion back can overflow. *)
Definition apply_scale (scale : SourceScale) (floor : Z) : Z :=
  let bytes := Z.max scale SOURCE_SCALE_UNIT_BYTES in
  let scaled := floor * bytes / SOURCE_SCALE_UNIT_BYTES in
  if scaled <=? u64_max then scaled else u64_max.

Record SourceBounds := {
  sb_work : Z;
  sb_observations : Z;
  sb_canonical_retained : Z;
  sb_projection_items : Z;
  sb_compatibility_bytes : Z;
}.

Definition bounds_of (scale : SourceScale) : SourceBounds :=
  {| sb_work := apply_scale scale MAX_EVALUATION_BYTE_VISITS;
     sb_observations := apply_scale scale MAX_SOURCE_OBSERVATIONS;
     sb_canonical_retained := apply_scale scale MAX_CANONICAL_RETAINED_BYTES;
     sb_projection_items := apply_scale scale MAX_PROJECTION_ITEMS;
     sb_compatibility_bytes := apply_scale scale MAX_COMPATIBILITY_RETAINED_BYTES |}.

Inductive ProcessingError := InvalidSource | DuplicateObservation | Bounds | Evaluation | Projection.

#[export] Instance ProcessingError_eq_dec : EqDecision ProcessingError.
Proof. solve_decision. Defined.

(** ** The budget *)

Record BudgetState := {
  work_bytes : Z;
  budget_items : Z;
  budget_bytes : Z;
}.

Section budget.
Variable bounds : SourceBounds.

Definition set_work (st : BudgetState) (work : Z) : BudgetState :=
  {| work_bytes := work; budget_items := budget_items st; budget_bytes := budget_bytes st |}.

Definition charge (bytes : Z) : Eff BudgetState ProcessingError unit := λ st,
  match checked_add (work_bytes st) (Z.max bytes 1) with
  | Some total =>
      if total <=? sb_work bounds then (set_work st total, Ok tt)
      else (set_work st (saturating_add (sb_work bounds) 1), Err Bounds)
  | None => (set_work st (saturating_add (sb_work bounds) 1), Err Bounds)
  end.

Definition consume (items bytes : Z) : Eff BudgetState ProcessingError unit := λ st,
  match charge bytes st with
  | (st, Err e) => (st, Err e)
  | (st, Ok _) =>
      match checked_add (budget_items st) items, checked_add (budget_bytes st) bytes with
      | Some next_items, Some next_bytes =>
          if ((sb_projection_items bounds <? next_items)
              || (sb_compatibility_bytes bounds <? next_bytes))%bool
          then (st, Err Bounds)
          else ({| work_bytes := work_bytes st; budget_items := next_items;
                   budget_bytes := next_bytes |}, Ok tt)
      | _, _ => (st, Err Bounds)
      end
  end.

Definition validate_text (value : string) : result unit ProcessingError :=
  if MAX_COMPATIBILITY_STRING_BYTES <? len value then Err Bounds else Ok tt.

Definition retain_text (value : string) : Eff BudgetState ProcessingError unit :=
  do! elift (validate_text value) in
  consume 0 (len value).

(** [EvaluationWorkBudget::is_exhausted], on the shared counter. *)
Definition is_exhausted (st : BudgetState) : bool := sb_work bounds <? work_bytes st.

Definition new_budget (work : Z) : BudgetState :=
  {| work_bytes := work; budget_items := 0; budget_bytes := 0 |}.

End budget.

(** ** Observations, as grouping and linking read them *)

Inductive CorrelationOrigin := SourceReported | TelltaleOriginated.

Record CorrelationId := { ci_origin : CorrelationOrigin; ci_value : string }.

Inductive ObservationFamily :=
| FMessage | FInference | FTool | FToolDefinition | FMcp | FProcess | FFile | FNetwork
| FBrowser | FRuntime | FSession | FOther.

#[export] Instance ObservationFamily_eq_dec : EqDecision ObservationFamily.
Proof. solve_decision. Defined.

Inductive ObservationStage :=
| MessageObserved | InferenceRequested | InferenceStarted | InferenceCompleted
| InferenceFailed | ToolProposed | ToolRequested | ToolExecutionStarted
| ToolExecutionCompleted | ToolResultReturned | DefinitionChanged | McpInventoryChanged
| ProcessObserved | FileObserved | NetworkObserved | BrowserObserved | RuntimeObserved
| RuntimeChanged | SessionOpened | SessionUpdated | SessionClosed | OtherObserved.

#[export] Instance ObservationStage_eq_dec : EqDecision ObservationStage.
Proof. solve_decision. Defined.

(** The accessors of [CanonicalObservationV2] these components call. *)
Record Observation := {
  observation_id : string;
  kind : ObservationFamily;
  stage : ObservationStage;
  occurred_at_text : option string;
  sequence : option Z;
  source_sequence : option Z;
  child_ordinal : Z;
  session_id : option CorrelationId;
  call_id : option CorrelationId;
}.

(** The [time] crate: RFC 3339 text to an instant in nanoseconds. *)
Class Rfc3339 : Type := parse_rfc3339 : string → option Z.

Section sessions.
Context `{Rfc3339}.

(** [(u8, &str)]: known sessions by origin, others alone under their own id. *)
Definition group_key (verified_source : bool) (o : Observation) : Z * string :=
  match verified_source, session_id o with
  | true, Some session =>
      (match ci_origin session with SourceReported => 0 | TelltaleOriginated => 1 end,
       ci_value session)
  | _, _ => (2, observation_id o)
  end.

Definition observation_time (o : Observation) : option Z :=
  match occurred_at_text o with Some t => parse_rfc3339 t | None => None end.

Definition observation_order (o : Observation) : bool * (option Z * (option Z * Z)) :=
  (bool_decide (occurred_at_text o = None),
   (observation_time o,
    (match sequence o with Some s => Some s | None => source_sequence o end,
     child_ordinal o))).

Definition order_canonical_session_observations (l : list Observation) : list Observation :=
  sort_by_key observation_order l.

Definition group_sessions (observations : list Observation) (verified_source : bool)
    : list (list Observation) :=
  map order_canonical_session_observations
    (bm_values (foldl (group_push (group_key verified_source)) [] observations)).

End sessions.

(** ** Scaling *)

Section scale_facts.

Lemma apply_scale_exact scale floor :
  0 ≤ floor → floor * MAX_SCALED_SOURCE_BYTES ≤ u64_max → scale ≤ MAX_SCALED_SOURCE_BYTES →
  apply_scale scale floor = floor * Z.max scale SOURCE_SCALE_UNIT_BYTES / SOURCE_SCALE_UNIT_BYTES.
Proof.
  intros Hf Hu Hs. unfold apply_scale. set (b := Z.max scale SOURCE_SCALE_UNIT_BYTES).
  assert (0 < SOURCE_SCALE_UNIT_BYTES) by done.
  assert (b ≤ MAX_SCALED_SOURCE_BYTES) by (unfold b; unfold MAX_SCALED_SOURCE_BYTES, SOURCE_SCALE_UNIT_BYTES in *; lia).
  assert (0 ≤ b) by (unfold b; unfold SOURCE_SCALE_UNIT_BYTES in *; lia).
  assert (floor * b / SOURCE_SCALE_UNIT_BYTES ≤ u64_max).
  { apply Z.div_le_upper_bound; [done|].
    assert (floor * b ≤ floor * MAX_SCALED_SOURCE_BYTES) by nia.
    unfold SOURCE_SCALE_UNIT_BYTES. unfold u64_max in *. lia. }
  by destruct (Z.leb_spec (floor * b / SOURCE_SCALE_UNIT_BYTES) u64_max); [|lia].
Qed.

End scale_facts.

(** A source's bound is its floor per MiB read: exactly the floor up to one
    MiB, never below it, never above 64 times it, and it never falls as more is
    read. *)
Theorem apply_scale_correct bytes bytes' floor :
  0 ≤ floor → floor * MAX_SCALED_SOURCE_BYTES ≤ u64_max → 0 ≤ bytes ≤ bytes' →
  let bound := apply_scale (for_source_bytes bytes) floor in
  floor ≤ bound ≤ 64 * floor ∧
  (bytes ≤ SOURCE_SCALE_UNIT_BYTES → bound = floor) ∧
  bound ≤ apply_scale (for_source_bytes bytes') floor.
Proof.
  intros Hf Hu Hb. unfold for_source_bytes. simpl.
  rewrite !apply_scale_exact by (lia || done).
  unfold MAX_SCALED_SOURCE_BYTES, SOURCE_SCALE_UNIT_BYTES in *.
  set (m := Z.max (Z.min bytes (64 * 1024 * 1024)) (1024 * 1024)).
  set (m' := Z.max (Z.min bytes' (64 * 1024 * 1024)) (1024 * 1024)).
  assert (1024 * 1024 ≤ m ≤ m') by lia. assert (m ≤ 64 * (1024 * 1024)) by lia.
  split_and!.
  - apply Z.div_le_lower_bound; [lia|]. nia.
  - apply Z.div_le_upper_bound; [lia|]. nia.
  - intros Hle. replace m with (1024 * 1024) by lia. by apply Z.div_mul.
  - apply Z.div_le_mono; [lia|]. nia.
Qed.

(** ** Accounting over any sequence of operations *)

Inductive budget_op :=
| OpCharge (bytes : Z)
| OpConsume (items bytes : Z)
| OpRetain (value : string).

Section accounting.
Variable bounds : SourceBounds.

Definition budget_step (op : budget_op) : Eff BudgetState ProcessingError unit :=
  match op with
  | OpCharge bytes => charge bounds bytes
  | OpConsume items bytes => consume bounds items bytes
  | OpRetain value => retain_text bounds value
  end.

(** Operations run one after another; a caller may go on after an error. *)
Fixpoint budget_run (ops : list budget_op) (st : BudgetState)
    : BudgetState * list (result unit ProcessingError) :=
  match ops with
  | [] => (st, [])
  | op :: ops' =>
      let '(st1, r) := budget_step op st in
      let '(st2, rs) := budget_run ops' st1 in
      (st2, r :: rs)
  end.

(** The work an operation asks for, were the budget unlimited. *)
Definition op_work (op : budget_op) : Z :=
  match op with
  | OpCharge bytes => Z.max bytes 1
  | OpConsume _ bytes => Z.max bytes 1
  | OpRetain value => if MAX_COMPATIBILITY_STRING_BYTES <? len value then 0 else Z.max (len value) 1
  end.

Definition op_nonneg (op : budget_op) : Prop :=
  match op with OpCharge b => 0 ≤ b | OpConsume i b => 0 ≤ i ∧ 0 ≤ b | OpRetain _ => True end.

Record budget_inv (st : BudgetState) : Prop := {
  bi_work : 0 ≤ work_bytes st ≤ sb_work bounds + 1;
  bi_items : 0 ≤ budget_items st ≤ sb_projection_items bounds;
  bi_bytes : 0 ≤ budget_bytes st ≤ sb_compatibility_bytes bounds;
}.

(** What one operation, and so any sequence of them, may do. *)
Record accounted (st : BudgetState) (work : Z) (failed : Prop) (st' : BudgetState) : Prop := {
  ac_inv : budget_inv st';
  ac_no_refund : work_bytes st ≤ work_bytes st';
  ac_sticky : is_exhausted bounds st = true →
    st' = st ∧ failed;
  ac_exact : is_exhausted bounds st' = false → work_bytes st' = work_bytes st + work;
}.

Hypothesis work_small : 0 ≤ sb_work bounds < u64_max.

Lemma charge_cases bytes st :
  (work_bytes st + Z.max bytes 1 ≤ sb_work bounds ∧
   charge bounds bytes st = (set_work st (work_bytes st + Z.max bytes 1), Ok tt)) ∨
  (sb_work bounds < work_bytes st + Z.max bytes 1 ∧
   charge bounds bytes st = (set_work st (sb_work bounds + 1), Err Bounds)).
Proof.
  unfold charge.
  assert (saturating_add (sb_work bounds) 1 = sb_work bounds + 1) as ->
    by (unfold saturating_add; lia).
  destruct (checked_add (work_bytes st) (Z.max bytes 1)) as [total|] eqn:Ha.
  - apply checked_add_Some in Ha as [-> Hfit].
    destruct (Z.leb_spec (work_bytes st + Z.max bytes 1) (sb_work bounds)); auto.
  - apply checked_add_None in Ha. right. split; [lia|done].
Qed.

Lemma charge_accounted bytes st st' r :
  budget_inv st → charge bounds bytes st = (st', r) →
  accounted st (Z.max bytes 1) (r = Err Bounds) st' ∧
  budget_items st' = budget_items st ∧ budget_bytes st' = budget_bytes st.
Proof.
  intros [Hw Hi Hb] Hc. destruct (charge_cases bytes st) as [[Hle Heq]|[Hlt Heq]];
    rewrite Heq in Hc; injection Hc as <- <-; (split; [|done]).
  - split; unfold is_exhausted; simpl; [by split; simpl; lia|lia| |done].
    rewrite Z.ltb_lt. lia.
  - split; unfold is_exhausted; simpl; [by split; simpl; lia|lia| |].
    + rewrite Z.ltb_lt. intros Hx. split; [|done].
      destruct st as [w i b]; unfold set_work; simpl in *. f_equal. lia.
    + rewrite Z.ltb_ge. lia.
Qed.

Lemma consume_accounted items bytes st st' r :
  0 ≤ items → 0 ≤ bytes → budget_inv st → consume bounds items bytes st = (st', r) →
  accounted st (Z.max bytes 1) (r = Err Bounds) st' ∧
  match r with
  | Ok _ => budget_items st' = budget_items st + items ∧ budget_bytes st' = budget_bytes st + bytes
  | Err _ => budget_items st' = budget_items st ∧ budget_bytes st' = budget_bytes st
  end.
Proof.
  intros Hi Hb Hinv. unfold consume.
  destruct (charge bounds bytes st) as [st1 [u|e]] eqn:Hc.
  - apply charge_accounted in Hc as (Hacc & Hi1 & Hb1); [|done].
    assert (is_exhausted bounds st = false) as Hfresh.
    { destruct (is_exhausted bounds st) eqn:Hx; [|done].
      by destruct (ac_sticky _ _ _ _ Hacc Hx). }
    assert (accounted st (Z.max bytes 1) (Err Bounds = Err Bounds :> result unit _) st1) as Hfail.
    { destruct Hacc. split; [done|done|congruence|done]. }
    destruct (checked_add (budget_items st1) items) as [ni|] eqn:Hni; [|by intros [= <- <-]].
    destruct (checked_add (budget_bytes st1) bytes) as [nb|] eqn:Hnb; [|by intros [= <- <-]].
    apply checked_add_Some in Hni as [-> _]. apply checked_add_Some in Hnb as [-> _].
    destruct (_ || _)%bool eqn:Hlim; intros [= <- <-]; [done|].
    apply orb_false_iff in Hlim as [?%Z.ltb_ge ?%Z.ltb_ge].
    destruct Hacc as [[Hw1 Hi1' Hb1'] Href Hst Hex]. split; simpl; [|lia].
    split; [split; simpl; lia|done|congruence|done].
  - pose proof Hc as (Hacc & Hi1 & Hb1)%charge_accounted; [|done].
    intros [= <- <-]. destruct (charge_cases bytes st) as [[_ Heq]|[_ Heq]];
      rewrite Heq in Hc; [done|]. injection Hc as <- <-. done.
Qed.

Lemma step_accounted op st st' r :
  op_nonneg op → budget_inv st → budget_step op st = (st', r) →
  accounted st (op_work op) (is_ok r = false) st'.
Proof.
  destruct op as [bytes|items bytes|value]; simpl; intros Hn Hinv Hop.
  - apply charge_accounted in Hop as [[] _]; [|done]. split; [done..| |done].
    intros Hx. destruct (ac_sticky0 Hx) as [? ->]. done.
  - destruct Hn. apply consume_accounted in Hop as [[] _]; [|done..]. split; [done..| |done].
    intros Hx. destruct (ac_sticky0 Hx) as [? ->]. done.
  - unfold retain_text, ebind, validate_text in Hop.
    destruct (MAX_COMPATIBILITY_STRING_BYTES <? len value); simpl in Hop.
    + injection Hop as <- <-. split; [done..|intros; lia].
    + apply consume_accounted in Hop as [[] _]; [|lia|apply len_nonneg|done]. split; [done..| |done].
      intros Hx. destruct (ac_sticky0 Hx) as [? ->]. done.
Qed.

Lemma op_work_nonneg op : 0 ≤ op_work op.
Proof. destruct op; simpl; [lia|lia|]. destruct (_ <? _); lia. Qed.

Lemma run_accounted ops st st' rs :
  Forall op_nonneg ops → budget_inv st → budget_run ops st = (st', rs) →
  accounted st (foldr (λ op n, op_work op + n) 0 ops) (Forall (λ r, is_ok r = false) rs) st'.
Proof.
  intros Hops. revert st rs; induction Hops as [|op ops Hop Hops IH]; intros st rs Hinv; simpl.
  { intros [= <- <-]. split; [done|lia|by split|intros; lia]. }
  destruct (budget_step op st) as [st1 r] eqn:Hstep.
  destruct (budget_run ops st1) as [st2 rs'] eqn:Hrun. intros [= <- <-].
  apply step_accounted in Hstep as [Hi1 Hr1 Hs1 He1]; [|done..].
  apply IH in Hrun as [Hi2 Hr2 Hs2 He2]; [|done]. split; [done|lia| |].
  - intros Hx. destruct (Hs1 Hx) as [-> Hfail]. destruct (Hs2 Hx) as [-> Hfails].
    split; [done|]. by constructor.
  - intros Hx. rewrite He2 by done. destruct (is_exhausted bounds st1) eqn:Hx1.
    + destruct (Hs2 eq_refl) as [-> _]. congruence.
    + rewrite He1 by done. lia.
Qed.

End accounting.

(** The work counter and the retention budget over any sequence of charges
    and retentions.  Counts stay within their bounds, work is never refunded,
    while it lasts every operation is charged exactly, and once it is exhausted
    it stays so: every later operation fails and changes nothing. *)
Theorem budget_run_accounted bounds ops st st' rs :
  0 ≤ sb_work bounds < u64_max → Forall op_nonneg ops → budget_inv bounds st →
  budget_run bounds ops st = (st', rs) →
  accounted bounds st (foldr (λ op n, op_work op + n) 0 ops)
    (Forall (λ r, is_ok r = false) rs) st'.
Proof. intros. by eapply run_accounted. Qed.

(** A budget of 100 bytes of work and 3 items, driven past its end. *)
Definition small_bounds : SourceBounds :=
  {| sb_work := 100; sb_observations := 10; sb_canonical_retained := 10;
     sb_projection_items := 3; sb_compatibility_bytes := 50 |}.

Definition small_ops : list budget_op :=
  [OpConsume 2 40; OpConsume 2 8; OpRetain "text"; OpRetain (Nat.iter 5000 (String.append "a") ""); OpCharge 60; OpCharge 0].

Lemma apply_scale_correct_witness :
  let bound := apply_scale (for_source_bytes 3000000) MAX_SOURCE_OBSERVATIONS in
  bound = 187500 ∧ MAX_SOURCE_OBSERVATIONS ≤ bound ≤ 64 * MAX_SOURCE_OBSERVATIONS ∧
  bound ≤ apply_scale (for_source_bytes 900000000) MAX_SOURCE_OBSERVATIONS.
Proof.
  split; [vm_compute; reflexivity|].
  destruct (apply_scale_correct 3000000 900000000 MAX_SOURCE_OBSERVATIONS) as (? & _ & ?);
    [done..|split; lia|]. by split.
Defined.

Lemma budget_run_accounted_witness :
  let '(st', rs) := budget_run small_bounds small_ops (new_budget 0) in
  map is_ok rs = [true; false; true; false; false; false] ∧
  accounted small_bounds (new_budget 0)
    (foldr (λ op n, op_work op + n) 0 small_ops) (Forall (λ r, is_ok r = false) rs) st'.
Proof.
  split; [vm_compute; reflexivity|].
  apply (budget_run_accounted small_bounds small_ops (new_budget 0)).
  - split; vm_compute; done.
  - repeat constructor; simpl; lia.
  - constructor; simpl; lia.
  - vm_compute; reflexivity.
Defined.

(** ** Sessions *)

Section session_facts.
Context `{Rfc3339}.

(** One group against the observations of its key: nothing lost or copied, in
    session order, observations that tie kept in source order. *)
Record session_group (verified : bool) (observations : list Observation)
    (k : Z * string) (group : list Observation) : Prop := {
  sg_nonempty : group ≠ [];
  sg_members : Permutation group (List.filter (same_key (group_key verified) k) observations);
  sg_sorted : sorted_by (cmp_via observation_order) group;
  sg_stable : ∀ o,
    filter (λ p, cmp_via observation_order o p = Eq) group =
    filter (λ p, cmp_via observation_order o p = Eq)
      (List.filter (same_key (group_key verified) k) observations);
}.

Lemma ordered_session_group verified observations k :
  List.filter (same_key (group_key verified) k) observations ≠ [] →
  session_group verified observations k
    (order_canonical_session_observations
       (List.filter (same_key (group_key verified) k) observations)).
Proof.
  intros Hne. split; unfold order_canonical_session_observations, sort_by_key.
  - intros Hnil. apply Hne. apply Permutation_nil. by rewrite <- Hnil, sort_by_perm.
  - apply sort_by_perm.
  - apply (sort_by_sorted (cmp_via observation_order)).
  - intros o. apply (sort_by_stable (cmp_via observation_order)).
Qed.

Lemma concat_map_perm {A} (f : list A → list A) (ls : list (list A)) :
  (∀ l, Permutation (f l) l) → Permutation (concat (map f ls)) (concat ls).
Proof. intros Hf. induction ls as [|l ls IH]; simpl; [done|]. by rewrite Hf, IH. Qed.

(** Grouping a source partitions its observations: every observation is in
    exactly one group, groups come in strictly increasing key order (reported
    sessions, then Telltale's own, then observations without a known session
    under their own id), and each group is exactly the observations of its key in
    time, sequence and ordinal order, ties in source order. *)
Theorem group_sessions_correct observations verified :
  Permutation (concat (group_sessions observations verified)) observations ∧
  ∃ keys, StronglySorted lt_of keys ∧
    Forall2 (session_group verified observations) keys (group_sessions observations verified).
Proof.
  unfold group_sessions. set (m := foldl (group_push (group_key verified)) [] observations).
  split.
  - rewrite (concat_map_perm order_canonical_session_observations); [|intros; apply sort_by_perm].
    unfold m. rewrite (group_perm (group_key verified) []); [done|constructor].
  - exists (bm_keys m). split; [apply group_push_wf; constructor|].
    pose proof (group_pairs (group_key verified) observations) as Hm. fold m in Hm.
    unfold bm_keys, bm_values. induction Hm as [|[k g] m' [Hg Hne] _ IH]; simpl; constructor; [|done].
    simpl in *. subst g. by apply ordered_session_group.
Qed.

End session_facts.

(** ** Metered computations

    [metered left c cost a]: with [cost] units left [c] returns [a]; with fewer it
    may instead run out, and that is its only error. *)

Definition total {A} (cost : A → Z) (l : list A) : Z := foldr (λ a n, cost a + n) 0 l.

Lemma total_nonneg {A} (cost : A → Z) l : (∀ a, 0 ≤ cost a) → 0 ≤ total cost l.
Proof. intros Hpos. induction l as [|a l IH]; simpl; [lia|]. specialize (Hpos a). lia. Qed.

Section metered.
Context {S : Type} (left : S → Z).

Definition metered {A} (c : Eff S ProcessingError A) (cost : Z) (a : A) : Prop :=
  ∀ s, 0 ≤ left s →
    match c s with
    | (s', Ok r) => r = a ∧ 0 ≤ left s' ∧ left s - cost ≤ left s'
    | (s', Err e) => e = Bounds ∧ left s < cost
    end.

Lemma metered_ret {A} (a : A) : metered (eret a) 0 a.
Proof. intros s Hs. simpl. split_and!; [done|lia|lia]. Qed.

Lemma metered_bind {A B} (c : Eff S ProcessingError A) (k : A → Eff S ProcessingError B)
    cost cost' a b :
  0 ≤ cost' → metered c cost a → metered (k a) cost' b →
  metered (ebind c k) (cost + cost') b.
Proof.
  intros Hpos Hc Hk s Hs. unfold ebind. specialize (Hc s Hs).
  destruct (c s) as [s1 [r|e]]; [|destruct Hc; split; [done|lia]].
  destruct Hc as (-> & Hs1 & Hle). specialize (Hk s1 Hs1).
  destruct (k a s1) as [s2 [r|e]]; [|destruct Hk; split; [done|lia]].
  destruct Hk as (-> & ? & ?). split_and!; [done|lia|lia].
Qed.

Lemma metered_weaken {A} (c : Eff S ProcessingError A) cost cost' a :
  cost ≤ cost' → metered c cost a → metered c cost' a.
Proof.
  intros Hle Hc s Hs. specialize (Hc s Hs).
  destruct (c s) as [s1 [r|e]]; destruct_and?; split_and?; (done || lia).
Qed.

(** A loop whose body costs at most [cost] takes [cost] per element. *)
Lemma metered_fold {A B} (f : B → A → Eff S ProcessingError B) (g : B → A → B)
    (cost : A → Z) acc l :
  (∀ a, 0 ≤ cost a) → (∀ b a, a ∈ l → metered (f b a) (cost a) (g b a)) →
  metered (efold f acc l) (total cost l) (foldl g acc l).
Proof.
  intros Hpos. revert acc; induction l as [|a l IH]; intros acc Hf; simpl; [apply metered_ret|].
  eapply metered_bind; [by apply total_nonneg|apply Hf; left|].
  apply IH. intros b c Hc. apply Hf. by right.
Qed.

Lemma metered_collect {A B} (f : A → Eff S ProcessingError B) (g : A → B) cost l :
  0 ≤ cost → (∀ a, metered (f a) cost (g a)) →
  metered (ecollect f l) (Z.of_nat (length l) * cost) (map g l).
Proof.
  intros Hpos Hf. induction l as [|a l IH]; simpl; [apply metered_ret|].
  replace (Z.of_nat (Datatypes.S (length l)) * cost) with (cost + (Z.of_nat (length l) * cost + 0)) by lia.
  eapply metered_bind; [lia|apply Hf|]. eapply metered_bind; [lia|apply IH|apply metered_ret].
Qed.

End metered.

(** The work a source's budget has left. *)
Definition work_left (bounds : SourceBounds) (st : BudgetState) : Z :=
  sb_work bounds - work_bytes st.

Lemma metered_charge bounds bytes :
  sb_work bounds < u64_max → metered (work_left bounds) (charge bounds bytes) (Z.max bytes 1) tt.
Proof.
  intros Hsmall st Hst. unfold work_left in *. unfold charge.
  destruct (checked_add (work_bytes st) (Z.max bytes 1)) as [total|] eqn:Ha.
  - apply checked_add_Some in Ha as [-> _].
    destruct (Z.leb_spec (work_bytes st + Z.max bytes 1) (sb_work bounds)); simpl;
      [split_and!; [done|lia|lia]|split; [done|lia]].
  - apply checked_add_None in Ha. split; [done|lia].
Qed.

(** [Bounds] is the only error of a computation. *)
Definition only_bounds {S A} (c : Eff S ProcessingError A) : Prop :=
  ∀ s s' e, c s = (s', Err e) → e = Bounds.

Lemma only_bounds_ret {S A} (a : A) : only_bounds (eret a : Eff S ProcessingError A).
Proof. by intros s s' e. Qed.

Lemma only_bounds_fail {S A} : only_bounds (efail Bounds : Eff S ProcessingError A).
Proof. by intros s s' e [= <- <-]. Qed.

Lemma only_bounds_bind {S A B} (c : Eff S ProcessingError A) (k : A → Eff S ProcessingError B) :
  only_bounds c → (∀ a, only_bounds (k a)) → only_bounds (ebind c k).
Proof.
  intros Hc Hk s s' e. unfold ebind. destruct (c s) as [s1 [a|e1]] eqn:Hs; [apply Hk|].
  intros [= <- <-]. by eapply Hc.
Qed.

Lemma only_bounds_fold {S A B} (f : B → A → Eff S ProcessingError B) acc l :
  (∀ b a, only_bounds (f b a)) → only_bounds (efold f acc l).
Proof.
  intros Hf. revert acc; induction l as [|a l IH]; intros acc; simpl; [apply only_bounds_ret|].
  by apply only_bounds_bind.
Qed.

Lemma only_bounds_charge bounds bytes : only_bounds (charge bounds bytes).
Proof. intros s s' e. unfold charge. repeat case_match; intros [=]; congruence. Qed.

#[export] Hint Resolve only_bounds_ret only_bounds_fail only_bounds_bind only_bounds_fold
  only_bounds_charge : telltale.

(** A loop with an element whose body never succeeds never succeeds. *)
Lemma efold_not_ok {S E A B} (f : B → A → Eff S E B) acc l x :
  x ∈ l → (∀ b s s' r, f b x s ≠ (s', Ok r)) → ∀ s s' r, efold f acc l s ≠ (s', Ok r).
Proof.
  intros Hx Hf. revert acc; induction l as [|a l IH]; intros acc s s' r; [by apply elem_of_nil in Hx|].
  simpl. unfold ebind. destruct (f acc a s) as [s1 [b|e]] eqn:Hs; [|done].
  apply elem_of_cons in Hx as [->|Hx]; [by apply Hf in Hs|]. by apply IH.
Qed.

(** [settles left c a]: given enough work [c] returns [a]; running out is its only
    error. *)
Section settles.
Context {S : Type} (left : S → Z).

Definition settles {A} (c : Eff S ProcessingError A) (a : A) : Prop :=
  ∃ cost, 0 ≤ cost ∧ metered left c cost a.

Lemma settles_ret {A} (a : A) : settles (eret a) a.
Proof. exists 0. split; [done|apply metered_ret]. Qed.

Lemma settles_bind {A B} (c : Eff S ProcessingError A) (k : A → Eff S ProcessingError B) a b :
  settles c a → settles (k a) b → settles (ebind c k) b.
Proof.
  intros (n & Hn & Hc) (m & Hm & Hk). exists (n + m). split; [lia|]. by eapply metered_bind.
Qed.

Lemma settles_collect {A B} (f : A → Eff S ProcessingError B) (g : A → B) l :
  Forall (λ a, settles (f a) (g a)) l → settles (ecollect f l) (map g l).
Proof.
  induction 1 as [|a l Ha _ IH]; simpl; [apply settles_ret|].
  eapply settles_bind; [done|]. eapply settles_bind; [done|]. apply settles_ret.
Qed.

End settles.

Lemma settles_charge bounds bytes :
  sb_work bounds < u64_max → settles (work_left bounds) (charge bounds bytes) tt.
Proof. intros Hsmall. exists (Z.max bytes 1). split; [lia|]. by apply metered_charge. Qed.
