(* ===== verification/ModifierLink.v ===== *)
(** * Declared chain links between matched observations

    crates/telltale-detect/src/v2/modifier_link.rs: tool-call positions, a
    session's matched observations as steps, and the bounded search for the
    observations that complete a modifier's link.

    A key is (tool-call position, observation index).  [remaining_work] is the
    state of the search; the retention budget is the state of the first two
    functions.  Instants are nanoseconds. *)

From S2P Require Import Prelude Ordered Rstr Scoring RuleMatch Rules Budget.

Local Open Scope Z_scope.

Record Step := {
  step_time : option Z;
  step_ids : list string;
  step_categories : list string;
}.

Definition Key : Type := Z * Z.
Definition Steps : Type := list (Key * Step).

(** ** Tool-call positions *)

Record CallState := {
  cs_calls : list (string * Z);
  cs_next : Z;
  cs_positions : list Z;
}.

Section positions.
Variable bounds : SourceBounds.

Definition push_position (calls : list (string * Z)) (next : Z) (st : CallState)
    (position : Z) : CallState :=
  {| cs_calls := calls; cs_next := next; cs_positions := cs_positions st ++ [position] |}.

Definition call_step (st : CallState) (o : Observation)
    : Eff BudgetState ProcessingError CallState :=
  match kind o, call_id o with
  | FTool, Some id =>
      do! charge bounds (len (ci_value id)) in
      eret match bm_get (ci_value id) (cs_calls st) with
           | Some position => push_position (cs_calls st) (cs_next st) st position
           | None =>
               push_position (bm_insert (ci_value id) (cs_next st) (cs_calls st))
                 (cs_next st + 1) st (cs_next st)
           end
  | FTool, None =>
      if bool_decide (stage o = ToolResultReturned)
      then eret (push_position (cs_calls st) (cs_next st) st (saturating_sub (cs_next st) 1))
      else eret (push_position (cs_calls st) (cs_next st + 1) st (cs_next st))
  | _, _ => eret (push_position (cs_calls st) (cs_next st) st (cs_next st))
  end.

Definition call_positions (observations : list Observation)
    : Eff BudgetState ProcessingError (list Z) :=
  let! st := efold call_step {| cs_calls := []; cs_next := 0; cs_positions := [] |} observations in
  eret (cs_positions st).

(** ** Steps *)

Context `{Rfc3339}.

Definition step_insert (id : string) (category : option string) (step : Step) : Step :=
  {| step_time := step_time step;
     step_ids := bs_insert id (step_ids step);
     step_categories := bs_extend (step_categories step) (option_list category) |}.

Definition new_step (o : Observation) : Eff BudgetState ProcessingError Step :=
  match occurred_at_text o with
  | Some time =>
      do! charge bounds (len time) in
      eret {| step_time := parse_rfc3339 time; step_ids := []; step_categories := [] |}
  | None => eret {| step_time := None; step_ids := []; step_categories := [] |}
  end.

(** [get(index)] on a slice indexed by [usize]. *)
Definition slice_get {A} (l : list A) (index : Z) : option A :=
  if index <? 0 then None else l !! Z.to_nat index.

Definition add_occurrence (positions : list Z) (observations : list Observation)
    (id : string) (category : option string) (steps : Steps) (index : Z)
    : Eff BudgetState ProcessingError Steps :=
  do! charge bounds 1 in
  match slice_get positions index, slice_get observations index with
  | Some position, Some observation =>
      match bm_get (position, index) steps with
      | Some step => eret (bm_insert (position, index) (step_insert id category step) steps)
      | None =>
          let! step := new_step observation in
          eret (bm_insert (position, index) (step_insert id category step) steps)
      end
  | _, _ => efail Bounds
  end.

Definition category_of (export : RuleV1CompatibilityExport) (id : string) : option string :=
  rcr_category <$> List.find (λ rule, String.eqb (rcr_id rule) id) (re_rules export).

Definition session_steps (export : RuleV1CompatibilityExport)
    (occurrences : list (string * list Z)) (observations : list Observation)
    : Eff BudgetState ProcessingError Steps :=
  let! positions := call_positions observations in
  efold (λ steps '(id, indexes),
      efold (add_occurrence positions observations id (category_of export id)) steps indexes)
    [] occurrences.

End positions.

(** ** The link search *)

Definition key_le (x y : Key) : bool := match cmp x y with Gt => false | _ => true end.

(** [BTreeMap::range(low..=high)]. *)
Definition key_range (low high : Key) (steps : Steps) : Steps :=
  List.filter (λ entry, key_le low entry.1 && key_le entry.1 high)%bool steps.

(** A requirement with its index: (is a category, name). *)
Definition Requirement : Type := nat * (bool * string).

Definition requirements_of (modifier : RuleV1CompatibilityModifier) : list Requirement :=
  imap pair (map (λ s, (true, s)) (rmo_when_all_categories modifier)
             ++ map (λ s, (false, s)) (rmo_when_all_rule_ids modifier)).

Section search.
Variables (link : ModifierLink) (steps : Steps) (end_key : Key) (last : Step)
  (first : Z → bool).

Definition within_minutes (time : option Z) : bool :=
  match link_minutes link, time, step_time last with
  | Some minutes, Some t, Some end_time => Z.abs (end_time - t) <=? minutes * 60 * 10 ^ 9
  | _, _, _ => true
  end.

(** The condition of the closure [eligible]. *)
Definition fits (requirement : Requirement) (key : Key) (step : Step) : bool :=
  (key.2 <=? end_key.2)
  && (negb (Nat.eqb requirement.1 0) || first key.2)
  && (if requirement.2.1 then bs_contains requirement.2.2 (step_categories step)
      else bs_contains requirement.2.2 (step_ids step))
  && within_minutes (step_time step).

Definition eligible (requirement : Requirement) (key : Key) (step : Step)
    : Eff Z ProcessingError bool := λ remaining_work,
  match checked_sub remaining_work 1 with
  | None => (remaining_work, Err Bounds)
  | Some remaining_work => (remaining_work, Ok (fits requirement key step))
  end.

(** The inner loops: the first eligible entry of a range. *)
Fixpoint find_eligible (requirement : Requirement) (entries : Steps)
    : Eff Z ProcessingError (option Key) :=
  match entries with
  | [] => eret None
  | (key, step) :: entries' =>
      let! ok := eligible requirement key step in
      if ok then eret (Some key) else find_eligible requirement entries'
  end.

(** One side of [Declared]: each requirement from where the one before it stopped. *)
Fixpoint walk (range : Key → Steps) (requirements : list Requirement) (bound : Key)
    (chosen : list Key) : Eff Z ProcessingError (option (list Key)) :=
  match requirements with
  | [] => eret (Some chosen)
  | requirement :: requirements' =>
      let! found := find_eligible requirement (range bound) in
      match found with
      | None => eret None
      | Some key => walk range requirements' key (<[requirement.1 := key]> chosen)
      end
  end.

Definition lowest : Key := (saturating_sub end_key.1 (link_calls link), 0).
Definition highest : Key := (end_key.1 + link_calls link, u64_max).

Definition range_back (bound : Key) : Steps := rev (key_range lowest bound steps).
Definition range_forward (bound : Key) : Steps := key_range bound highest steps.

Definition span (chosen : list Key) : Z :=
  (List.last chosen end_key).1 - (hd end_key chosen).1.

Definition link_declared (requirements : list Requirement) (own : nat)
    : Eff Z ProcessingError (option (list Key)) :=
  let chosen := replicate (length requirements) end_key in
  let! back := walk range_back (rev (take own requirements)) end_key chosen in
  match back with
  | None => eret None
  | Some chosen =>
      let! forward := walk range_forward (drop (S own) requirements) end_key chosen in
      eret match forward with
           | Some chosen => if span chosen <=? link_calls link then Some chosen else None
           | None => None
           end
  end.

Definition Nearest : Type := Requirement * (option Key * option Key).

Definition nearest_of (requirement : Requirement) : Eff Z ProcessingError Nearest :=
  let! before := find_eligible requirement (range_back end_key) in
  let! after := find_eligible requirement (range_forward end_key) in
  eret (requirement, (before, after)).

(** The step a requirement takes when steps to the left may reach [reach] calls. *)
Definition pick (reach : Z) (nearest : Nearest) : option Key :=
  match nearest.2 with
  | (Some key, after) => if end_key.1 - key.1 <=? reach then Some key else after
  | (None, after) => after
  end.

Definition right_distance (reach : Z) (nearest : Nearest) : option Z :=
  match nearest.2 with
  | (Some key, after) =>
      if end_key.1 - key.1 <=? reach then Some 0
      else (λ k : Key, k.1 - end_key.1) <$> after
  | (None, after) => (λ k : Key, k.1 - end_key.1) <$> after
  end.

Fixpoint farthest_right (reach : Z) (nearest : list Nearest) (farthest : Z) : option Z :=
  match nearest with
  | [] => Some farthest
  | n :: nearest' =>
      match right_distance reach n with
      | None => None
      | Some d => farthest_right reach nearest' (Z.max d farthest)
      end
  end.

Definition reaches (nearest : list Nearest) : list Z :=
  0 :: omap (λ n : Nearest, (λ k : Key, end_key.1 - k.1) <$> n.2.1) nearest.

Definition reach_links (nearest : list Nearest) (reach : Z) : bool :=
  match farthest_right reach nearest 0 with
  | Some farthest => reach + farthest <=? link_calls link
  | None => false
  end.

Fixpoint place (reach : Z) (nearest : list Nearest) (chosen : list Key)
    : result (list Key) ProcessingError :=
  match nearest with
  | [] => Ok chosen
  | n :: nearest' =>
      match pick reach n with
      | None => Err Evaluation
      | Some key => place reach nearest' (<[n.1.1 := key]> chosen)
      end
  end.

Definition link_any (requirements : list Requirement) (own : nat)
    : Eff Z ProcessingError (option (list Key)) :=
  let chosen := replicate (length requirements) end_key in
  let! nearest :=
    ecollect nearest_of (List.filter (λ r, negb (Nat.eqb r.1 own)) requirements) in
  match List.find (reach_links nearest) (reaches nearest) with
  | None => eret None
  | Some reach => let! chosen := elift (place reach nearest chosen) in eret (Some chosen)
  end.

(** The loop over the requirement the completing step fills. *)
Fixpoint link_from (requirements owns : list Requirement)
    : Eff Z ProcessingError (option (list Key)) :=
  match owns with
  | [] => eret None
  | own :: owns' =>
      let! ok := eligible own end_key last in
      if ok then
        let! linked := match link_order link with
                       | DeclaredOrder => link_declared requirements own.1
                       | AnyOrder => link_any requirements own.1
                       end in
        match linked with
        | Some chosen => eret (Some chosen)
        | None => link_from requirements owns'
        end
      else link_from requirements owns'
  end.

End search.

Definition support (modifier : RuleV1CompatibilityModifier) (link : ModifierLink)
    (steps : Steps) (end_key : Key) (first : Z → bool)
    : Eff Z ProcessingError (option (list Z)) :=
  match bm_get end_key steps with
  | None => eret None
  | Some last =>
      match checked_add end_key.1 (link_calls link) with
      | None => efail Bounds
      | Some _ =>
          let! chosen := link_from link steps end_key last first
                           (requirements_of modifier) (requirements_of modifier) in
          eret (map snd <$> chosen)
      end
  end.

Fixpoint any_linked (modifier : RuleV1CompatibilityModifier) (link : ModifierLink)
    (steps : Steps) (ends : list Key) : Eff Z ProcessingError bool :=
  match ends with
  | [] => eret false
  | end_key :: ends' =>
      let! found := support modifier link steps end_key (λ _, true) in
      match found with Some _ => eret true | None => any_linked modifier link steps ends' end
  end.

Definition linked_in_session (modifier : RuleV1CompatibilityModifier) (link : ModifierLink)
    (steps : Steps) : result bool ProcessingError :=
  (any_linked modifier link steps (bm_keys steps) 1000000).2.

(** ** The search without its meter *)

Section pure_search.
Variables (link : ModifierLink) (steps : Steps) (end_key : Key) (last : Step)
  (first : Z → bool).

Definition entry_fits (requirement : Requirement) (entry : Key * Step) : bool :=
  fits link end_key last first requirement entry.1 entry.2.

Definition found_key (requirement : Requirement) (entries : Steps) : option Key :=
  fst <$> List.find (entry_fits requirement) entries.

Fixpoint walk_keys (range : Key → Steps) (requirements : list Requirement) (bound : Key)
    : option (list Key) :=
  match requirements with
  | [] => Some []
  | requirement :: requirements' =>
      match found_key requirement (range bound) with
      | None => None
      | Some key => cons key <$> walk_keys range requirements' key
      end
  end.

Definition place_keys (indexes : list nat) (keys chosen : list Key) : list Key :=
  foldl (λ ch ik, <[ik.1 := ik.2]> ch) chosen (zip indexes keys).

Definition declared_keys (requirements : list Requirement) (own : nat) : option (list Key) :=
  match walk_keys (range_back link steps end_key) (rev (take own requirements)) end_key,
        walk_keys (range_forward link steps end_key) (drop (S own) requirements) end_key with
  | Some back, Some forward =>
      let chosen := rev back ++ end_key :: forward in
      if span end_key chosen <=? link_calls link then Some chosen else None
  | _, _ => None
  end.

Definition nearest_key (requirement : Requirement) : Nearest :=
  (requirement, (found_key requirement (range_back link steps end_key end_key),
                 found_key requirement (range_forward link steps end_key end_key))).

Definition any_keys (requirements : list Requirement) (own : nat) : option (list Key) :=
  let before := map nearest_key (take own requirements) in
  let after := map nearest_key (drop (S own) requirements) in
  match List.find (reach_links link end_key (before ++ after)) (reaches end_key (before ++ after)) with
  | None => None
  | Some reach => Some (omap (pick end_key reach) before
                        ++ end_key :: omap (pick end_key reach) after)
  end.

Definition linked_keys (requirements : list Requirement) (own : nat) : option (list Key) :=
  match link_order link with
  | DeclaredOrder => declared_keys requirements own
  | AnyOrder => any_keys requirements own
  end.

Fixpoint link_keys (requirements owns : list Requirement) : option (list Key) :=
  match owns with
  | [] => None
  | own :: owns' =>
      if fits link end_key last first own end_key last then
        match linked_keys requirements own.1 with
        | Some chosen => Some chosen
        | None => link_keys requirements owns'
        end
      else link_keys requirements owns'
  end.

(** *** Cost *)

Notation meter := (metered (λ s : Z, s)).

Lemma eligible_metered r key step :
  meter (eligible link end_key last first r key step) 1 (fits link end_key last first r key step).
Proof.
  intros s Hs. unfold eligible, checked_sub. destruct (Z.leb_spec 1 s); split_and?; (done || lia).
Qed.

Lemma find_eligible_metered r entries :
  meter (find_eligible link end_key last first r entries) (Z.of_nat (length entries))
    (found_key r entries).
Proof.
  unfold found_key. induction entries as [|[key step] entries IH]; simpl; [apply metered_ret|].
  replace (Z.of_nat (S (length entries))) with (1 + Z.of_nat (length entries)) by lia.
  eapply metered_bind; [lia|apply eligible_metered|]. unfold entry_fits at 1; simpl.
  destruct (fits _ _ _ _ r key step); [|apply IH].
  eapply metered_weaken; [|apply metered_ret]. lia.
Qed.

Let work : Z := Z.of_nat (length steps).

Lemma walk_metered range requirements bound chosen :
  (∀ b, (length (range b) ≤ length steps)%nat) →
  meter (walk link end_key last first range requirements bound chosen)
    (Z.of_nat (length requirements) * work)
    ((λ keys, place_keys (requirements.*1) keys chosen) <$> walk_keys range requirements bound).
Proof.
  intros Hrange. revert bound chosen; induction requirements as [|r rs IH]; intros bound chosen; simpl.
  { unfold place_keys. simpl. eapply metered_weaken; [|apply metered_ret]. lia. }
  replace (Z.of_nat (S (length rs)) * work) with (work + Z.of_nat (length rs) * work) by lia.
  eapply metered_bind; [unfold work; lia| |].
  { eapply metered_weaken; [|apply find_eligible_metered]. specialize (Hrange bound). unfold work. lia. }
  destruct (found_key r (range bound)) as [key|].
  - specialize (IH key (<[r.1 := key]> chosen)).
    destruct (walk_keys range rs key); simpl in *; apply IH.
  - eapply metered_weaken; [|apply metered_ret]. unfold work. lia.
Qed.

End pure_search.

(** *** Writing the choices into the vector *)

Section placing.
Implicit Types (X Y Z keys : list Key) (rs : list Requirement).

(** The requirements of [rs] are numbered from [start]. *)
Definition numbered (start : nat) (rs : list Requirement) : Prop :=
  rs.*1 = seq start (length rs).

Lemma place_keys_app is1 is2 keys1 keys2 chosen :
  length is1 = length keys1 →
  place_keys (is1 ++ is2) (keys1 ++ keys2) chosen = place_keys is2 keys2 (place_keys is1 keys1 chosen).
Proof. intros Hlen. unfold place_keys. by rewrite zip_with_app, foldl_app by done. Qed.

Lemma place_forward X Y Z keys :
  length Y = length keys →
  place_keys (seq (length X) (length keys)) keys (X ++ Y ++ Z) = X ++ keys ++ Z.
Proof.
  revert X Y; induction keys as [|k keys IH]; intros X [|y Y] Hlen; simplify_eq/=; [done|].
  unfold place_keys in *. simpl. rewrite insert_app_r_alt, Nat.sub_diag by lia. simpl.
  specialize (IH (X ++ [k]) Y Hlen). rewrite length_app, Nat.add_1_r, <- !app_assoc in IH. done.
Qed.

Lemma place_back X Y keys :
  length X = length keys →
  place_keys (rev (seq 0 (length keys))) keys (X ++ Y) = rev keys ++ Y.
Proof.
  revert X Y; induction keys as [|k keys IH]; intros X Y Hlen.
  { destruct X; [done|discriminate]. }
  destruct X as [|x X _] using rev_ind; [discriminate|].
  rewrite length_app in Hlen. simpl in Hlen.
  change (length (k :: keys)) with (S (length keys)).
  rewrite seq_S, rev_app_distr. simpl. unfold place_keys in *. simpl.
  rewrite <- app_assoc, insert_app_r_alt by lia.
  replace (length keys - length X)%nat with 0%nat by lia. simpl.
  rewrite IH by lia. by rewrite <- app_assoc.
Qed.

End placing.

(** *** Reaches and distances *)

Section reach_facts.
Variable end_key : Key.

Lemma right_distance_pick reach n :
  is_Some (right_distance end_key reach n) ↔ is_Some (pick end_key reach n).
Proof.
  unfold right_distance, pick. destruct n as [r [[key|] after]]; simpl;
    [destruct (_ <=? _)|]; rewrite ?fmap_is_Some; split; eauto.
Qed.

Lemma farthest_right_Some reach nearest f g :
  farthest_right end_key reach nearest f = Some g →
  f ≤ g ∧ ∀ n, n ∈ nearest → ∃ d, right_distance end_key reach n = Some d ∧ d ≤ g.
Proof.
  revert f; induction nearest as [|n nearest IH]; intros f; simpl.
  { intros [= ->]. split; [lia|]. intros n Hn. by apply elem_of_nil in Hn. }
  destruct (right_distance end_key reach n) as [d|] eqn:Hd; [|done].
  intros [Hle Hall]%IH. split; [lia|]. intros m [->|Hm]%elem_of_cons; [|by apply Hall].
  exists d. split; [done|lia].
Qed.

Lemma farthest_right_le reach nearest f limit :
  f ≤ limit →
  (∀ n, n ∈ nearest → ∃ d, right_distance end_key reach n = Some d ∧ d ≤ limit) →
  ∃ g, farthest_right end_key reach nearest f = Some g ∧ g ≤ limit.
Proof.
  revert f; induction nearest as [|n nearest IH]; intros f Hf Hall; simpl; [by exists f|].
  destruct (Hall n ltac:(left)) as (d & -> & Hd). apply IH; [lia|].
  intros m Hm. apply Hall. by right.
Qed.

Lemma reach_links_picks link nearest reach :
  reach_links link end_key nearest reach = true →
  Forall (λ n, is_Some (pick end_key reach n)) nearest.
Proof.
  unfold reach_links. destruct (farthest_right _ _ _ _) as [g|] eqn:Hg; [|done]. intros _.
  apply Forall_forall. intros n Hn. apply right_distance_pick.
  apply farthest_right_Some in Hg as [_ Hall]. destruct (Hall n Hn) as (d & -> & _). eauto.
Qed.

Lemma place_picks reach nearest chosen :
  Forall (λ n, is_Some (pick end_key reach n)) nearest →
  place end_key reach nearest chosen =
  Ok (place_keys (map (λ n : Nearest, n.1.1) nearest) (omap (pick end_key reach) nearest) chosen).
Proof.
  intros Hall. revert chosen. induction Hall as [|n nearest [key Hkey] Hall IH]; intros chosen; simpl.
  { done. }
  rewrite Hkey, IH. simpl. done.
Qed.

Lemma omap_length_Some {A B} (f : A → option B) l :
  Forall (λ a, is_Some (f a)) l → length (omap f l) = length l.
Proof. induction 1 as [|a l [b Hb] _ IH]; simpl; [done|]. rewrite Hb. simpl. by f_equal. Qed.

End reach_facts.

(** *** The metered search computes the pure one *)

Lemma filter_all {A} (p : A → bool) l : (∀ a, a ∈ l → p a = true) → List.filter p l = l.
Proof.
  induction l as [|a l IH]; intros Hp; simpl; [done|].
  rewrite Hp by left. f_equal. apply IH. intros b Hb. apply Hp. by right.
Qed.

Section metered_search.
Variables (link : ModifierLink) (steps : Steps) (end_key : Key) (last : Step)
  (first : Z → bool).
Variable requirements : list Requirement.
Hypothesis requirements_numbered : numbered 0 requirements.

Notation meter := (metered (λ s : Z, s)).
Let work : Z := Z.of_nat (length steps).
Let count : Z := Z.of_nat (length requirements).

Lemma walk_keys_length range rs bound keys :
  walk_keys link end_key last first range rs bound = Some keys → length keys = length rs.
Proof.
  revert bound keys; induction rs as [|r rs IH]; intros bound keys; simpl; [by intros [= <-]|].
  destruct (found_key _ _ _ _ _ _) as [key|]; [|done].
  destruct (walk_keys _ _ _ _ _ rs key) as [keys'|] eqn:Hw; [|done].
  intros [= <-]. simpl. f_equal. by eapply IH.
Qed.

Lemma range_back_length b : (length (range_back link steps end_key b) ≤ length steps)%nat.
Proof. unfold range_back, key_range. rewrite length_rev. apply List.filter_length_le. Qed.

Lemma range_forward_length b : (length (range_forward link steps end_key b) ≤ length steps)%nat.
Proof. unfold range_forward, key_range. apply List.filter_length_le. Qed.

Lemma split_numbered own :
  (own < length requirements)%nat →
  (take own requirements).*1 = seq 0 own ∧
  (drop (S own) requirements).*1 = seq (S own) (length requirements - S own).
Proof.
  intros Hown. unfold numbered in *. rewrite fmap_take, fmap_drop, requirements_numbered.
  split; [rewrite take_seq|rewrite drop_seq]; f_equal; lia.
Qed.

Lemma place_declared own back forward :
  (own < length requirements)%nat → length back = own →
  length forward = (length requirements - S own)%nat →
  place_keys (drop (S own) requirements).*1 forward
    (place_keys (rev (take own requirements)).*1 back (replicate (length requirements) end_key))
  = rev back ++ end_key :: forward.
Proof.
  intros Hown Hb Hf. destruct (split_numbered own Hown) as [Hback Hforward].
  assert ((rev (take own requirements)).*1 = rev (seq 0 own)) as ->
    by (rewrite <- Hback; apply map_rev).
  rewrite Hforward, <- Hf, <- Hb.
  replace (length requirements) with (length back + S (length forward))%nat by lia.
  rewrite replicate_add, place_back by (by rewrite length_replicate). simpl.
  pose proof (place_forward (rev back ++ [end_key]) (replicate (length forward) end_key) [] forward)
    as Hp.
  rewrite length_replicate, length_app, length_rev, !app_nil_r, <- !app_assoc, Nat.add_comm in Hp.
  by apply Hp.
Qed.

Lemma link_declared_metered own :
  (own < length requirements)%nat →
  meter (link_declared link steps end_key last first requirements own) (count * work)
    (declared_keys link steps end_key last first requirements own).
Proof.
  intros Hown. set (rest := (length requirements - S own)%nat).
  unfold link_declared, declared_keys.
  apply metered_weaken with (Z.of_nat own * work + (Z.of_nat rest * work + 0));
    [unfold count, rest, work; nia|].
  eapply metered_bind; [unfold work; lia| |].
  { pose proof (walk_metered link steps end_key last first (range_back link steps end_key)
      (rev (take own requirements)) end_key (replicate (length requirements) end_key)
      range_back_length) as Hw.
    rewrite length_rev, length_take_le in Hw by lia. exact Hw. }
  destruct (walk_keys _ _ _ _ _ (rev _) _) as [back|] eqn:Hb; simpl;
    [|eapply metered_weaken; [|apply metered_ret]; unfold work; lia].
  apply walk_keys_length in Hb. rewrite length_rev, length_take_le in Hb by lia.
  eapply metered_bind; [done| |].
  { pose proof (walk_metered link steps end_key last first (range_forward link steps end_key)
      (drop (S own) requirements) end_key
      (place_keys (rev (take own requirements)).*1 back (replicate (length requirements) end_key))
      range_forward_length) as Hw.
    rewrite length_drop in Hw. exact Hw. }
  destruct (walk_keys _ _ _ _ _ (drop _ _) _) as [forward|] eqn:Hf; simpl; [|apply metered_ret].
  apply walk_keys_length in Hf. rewrite length_drop in Hf.
  rewrite place_declared by done. apply metered_ret.
Qed.

(** *** Any order *)

Lemma others_split own :
  (own < length requirements)%nat →
  List.filter (λ r : Requirement, negb (Nat.eqb r.1 own)) requirements =
  take own requirements ++ drop (S own) requirements.
Proof.
  intros Hown. destruct (split_numbered own Hown) as [Hback Hforward].
  destruct (lookup_lt_is_Some_2 requirements own Hown) as [r Hr].
  rewrite <- (take_drop_middle _ _ _ Hr) at 1. rewrite List.filter_app. simpl.
  assert (r.1 = own) as ->.
  { unfold numbered in requirements_numbered.
    assert (requirements.*1 !! own = Some r.1) as Hl by (by apply list_lookup_fmap_Some_2).
    rewrite requirements_numbered, lookup_seq_lt in Hl by done. by injection Hl as <-. }
  rewrite Nat.eqb_refl. simpl. f_equal; rewrite filter_all; try done; intros r' Hin;
    apply negb_true_iff, Nat.eqb_neq; apply (list_elem_of_fmap_2 fst) in Hin.
  - rewrite Hback, elem_of_seq in Hin. lia.
  - rewrite Hforward, elem_of_seq in Hin. lia.
Qed.

Lemma place_any own before after :
  (own < length requirements)%nat → length before = own →
  length after = (length requirements - S own)%nat →
  place_keys ((take own requirements).*1 ++ (drop (S own) requirements).*1) (before ++ after)
    (replicate (length requirements) end_key)
  = before ++ end_key :: after.
Proof.
  intros Hown Hb Hf. destruct (split_numbered own Hown) as [-> ->].
  rewrite place_keys_app by (by rewrite length_seq). rewrite <- Hf.
  replace (length requirements) with (length before + S (length after))%nat by lia.
  rewrite replicate_add. subst own.
  pose proof (place_forward [] (replicate (length before) end_key)
    (replicate (S (length after)) end_key) before) as Hp. simpl in Hp |- *.
  rewrite Hp by (by rewrite length_replicate). simpl.
  pose proof (place_forward (before ++ [end_key]) (replicate (length after) end_key) [] after) as Hq.
  rewrite length_replicate, length_app, !app_nil_r, <- !app_assoc, Nat.add_comm in Hq.
  by apply Hq.
Qed.

Lemma nearest_metered r :
  meter (nearest_of link steps end_key last first r) (2 * work)
    (nearest_key link steps end_key last first r).
Proof.
  unfold nearest_of, nearest_key. replace (2 * work) with (work + (work + 0)) by lia.
  eapply metered_bind; [unfold work; lia| |].
  { eapply metered_weaken; [|apply find_eligible_metered].
    pose proof (range_back_length end_key). unfold work. lia. }
  eapply metered_bind; [lia| |apply metered_ret].
  eapply metered_weaken; [|apply find_eligible_metered].
  pose proof (range_forward_length end_key). unfold work. lia.
Qed.

Lemma link_any_metered own :
  (own < length requirements)%nat →
  meter (link_any link steps end_key last first requirements own) (count * (2 * work))
    (any_keys link steps end_key last first requirements own).
Proof.
  intros Hown. unfold link_any, any_keys. rewrite others_split by done.
  set (others := take own requirements ++ drop (S own) requirements).
  assert (length others ≤ length requirements)%nat as Hothers.
  { unfold others. rewrite length_app, length_take, length_drop. lia. }
  apply metered_weaken with (Z.of_nat (length others) * (2 * work) + 0);
    [unfold count, work; nia|].
  eapply metered_bind; [done|apply metered_collect; [unfold work; lia|apply nearest_metered]|].
  unfold others. rewrite map_app. set (before := map _ (take _ _)). set (after := map _ (drop _ _)).
  destruct (List.find _ (reaches _ _)) as [reach|] eqn:Hfind; [|apply metered_ret].
  apply List.find_some in Hfind as [_ Hlinks%reach_links_picks].
  rewrite place_picks by done. apply Forall_app in Hlinks as [Hb Ha].
  rewrite map_app, omap_app. unfold before at 1, after at 1. rewrite !map_map. simpl.
  change (λ x : Requirement, x.1) with (@fst nat (bool * string)).
  rewrite place_any; [apply metered_ret|done|..]; rewrite omap_length_Some by done;
    unfold before, after; rewrite length_map, ?length_take, ?length_drop; lia.
Qed.

Lemma link_from_metered owns :
  Forall (λ r : Requirement, (r.1 < length requirements)%nat) owns →
  meter (link_from link steps end_key last first requirements owns)
    (Z.of_nat (length owns) * (1 + count * (2 * work)))
    (link_keys link steps end_key last first requirements owns).
Proof.
  assert (0 ≤ count * (2 * work)) as Hpos by (unfold count, work; nia).
  induction 1 as [|own owns Hown Howns IH]; simpl; [apply metered_ret|].
  apply metered_weaken with
    (1 + (count * (2 * work) + Z.of_nat (length owns) * (1 + count * (2 * work)))); [lia|].
  eapply metered_bind; [nia|apply eligible_metered|].
  destruct (fits _ _ _ _ own end_key last); [|eapply metered_weaken; [|apply IH]; lia].
  eapply metered_bind with (a := linked_keys link steps end_key last first requirements own.1); [nia| |].
  - unfold linked_keys. destruct (link_order link); [|by apply link_any_metered].
    eapply metered_weaken; [|by apply link_declared_metered]. lia.
  - destruct (linked_keys _ _ _ _ _ _ _); [|apply IH].
    eapply metered_weaken; [|apply metered_ret]. nia.
Qed.

End metered_search.

(** ** What a link is *)

Section link_spec.
Variables (link : ModifierLink) (steps : Steps) (end_key : Key) (last : Step)
  (first : Z → bool).

(** An observation of the session that satisfies a requirement. *)
Definition good (requirement : Requirement) (key : Key) : Prop :=
  ∃ step, bm_get key steps = Some step ∧ fits link end_key last first requirement key step = true.

(** One observation per requirement, the completing one among them, all within
    the window of calls, and in declared order when the link asks for it. *)
Record link_support (requirements : list Requirement) (chosen : list Key) : Prop := {
  ls_fits : Forall2 good requirements chosen;
  ls_end : end_key ∈ chosen;
  ls_span : ∀ a b, a ∈ chosen → b ∈ chosen → a.1 - b.1 ≤ link_calls link;
  ls_order : link_order link = DeclaredOrder → StronglySorted le_of chosen;
}.

Hypothesis steps_wf : bm_wf steps.
Hypothesis steps_u64 : Forall (λ e : Key * Step, u64 e.1.1 ∧ u64 e.1.2) steps.
Hypothesis end_last : bm_get end_key steps = Some last.
Hypothesis calls_nonneg : 0 ≤ link_calls link.

Lemma key_le_spec x y : key_le x y = true ↔ le_of x y.
Proof. unfold key_le, le_of. destruct (cmp x y); split; done. Qed.

Lemma le_of_fst (x y : Key) : le_of x y → x.1 ≤ y.1.
Proof.
  destruct x as [x1 x2], y as [y1 y2]. unfold le_of, cmp, ord_prod, then_with, cmp, ord_Z. simpl.
  destruct (Z.compare_spec x1 y1); intros; [lia|lia|done].
Qed.

Lemma le_of_pair (x y : Key) : x.1 < y.1 ∨ (x.1 = y.1 ∧ x.2 ≤ y.2) → le_of x y.
Proof.
  destruct x as [x1 x2], y as [y1 y2]. unfold le_of, cmp, ord_prod, then_with, cmp, ord_Z. simpl.
  intros [Hlt|[-> Hle]].
  - by rewrite (proj2 (Z.compare_lt_iff x1 y1) Hlt).
  - rewrite Z.compare_refl. by apply Z.compare_le_iff.
Qed.

Lemma step_u64 key step : bm_get key steps = Some step → u64 key.1 ∧ u64 key.2.
Proof.
  intros Hk%bm_get_elem; [|done]. rewrite Forall_forall in steps_u64. exact (steps_u64 _ Hk).
Qed.

Lemma key_in_window key step :
  bm_get key steps = Some step → end_key.1 - key.1 ≤ link_calls link →
  key.1 - end_key.1 ≤ link_calls link →
  le_of (lowest link end_key) key ∧ le_of key (highest link end_key).
Proof.
  intros [[] []]%step_u64 Hlow Hhigh. unfold lowest, highest, saturating_sub.
  split; apply le_of_pair; simpl; lia.
Qed.

(** *** Nearest first *)

(** A direction of travel over the keys, with the entries ahead of a bound. *)
Section direction.
Variables (R : Key → Key → Prop) (limit : Key) (range : Key → Steps).
Hypothesis R_refl : ∀ x, R x x.
Hypothesis R_trans : ∀ x y z, R x y → R y z → R x z.
Hypothesis range_elem : ∀ b e, e ∈ range b ↔ e ∈ steps ∧ R b e.1 ∧ R e.1 limit.
Hypothesis range_sorted : ∀ b, StronglySorted (λ e e' : Key * Step, R e.1 e'.1) (range b).

Lemma find_first {A} (p : A → bool) (Q : A → A → Prop) l :
  (∀ a, Q a a) → StronglySorted Q l →
  match List.find p l with
  | Some a => a ∈ l ∧ p a = true ∧ ∀ b, b ∈ l → p b = true → Q a b
  | None => ∀ b, b ∈ l → p b = false
  end.
Proof.
  intros Hrefl. induction 1 as [|a l Hl IH Ha]; simpl; [intros b Hb; by apply elem_of_nil in Hb|].
  rewrite Forall_forall in Ha. destruct (p a) eqn:Hp.
  - split_and!; [left|done|]. intros b [->|Hb]%elem_of_cons Hpb; auto.
  - destruct (List.find p l) as [c|].
    + destruct IH as (Hin & Hpc & Hfirst). split_and!; [by right|done|].
      intros b [->|Hb]%elem_of_cons Hpb; [congruence|auto].
    + intros b [->|Hb]%elem_of_cons; auto.
Qed.

Lemma found_key_first r b :
  match found_key link end_key last first r (range b) with
  | Some key => good r key ∧ R b key ∧ R key limit ∧
      ∀ key', good r key' → R b key' → R key' limit → R key key'
  | None => ∀ key', good r key' → R b key' → R key' limit → False
  end.
Proof.
  unfold found_key.
  pose proof (find_first (entry_fits link end_key last first r) _ _ (λ e, R_refl e.1)
    (range_sorted b)) as Hf. unfold entry_fits in Hf.
  destruct (List.find _ _) as [[key step]|]; simpl.
  - destruct Hf as ((Hin & Hb & Hlim)%range_elem & Hfit & Hfirst). simpl in *.
    split_and!; [|done..|].
    + exists step. split; [|done]. by apply bm_get_elem.
    + intros key' (step' & Hget & Hfit') Hb' Hlim'.
      apply (Hfirst (key', step')); [|done]. apply range_elem. split_and!; [|done..].
      by apply bm_get_elem.
  - intros key' (step' & Hget & Hfit') Hb' Hlim'.
    specialize (Hf (key', step')). simpl in Hf. rewrite Hf in Hfit'; [done|].
    apply range_elem. split_and!; [|done..]. by apply bm_get_elem.
Qed.

Lemma walk_keys_sound rs b keys :
  walk_keys link end_key last first range rs b = Some keys →
  Forall2 good rs keys ∧ StronglySorted R (b :: keys).
Proof.
  revert b keys; induction rs as [|r rs IH]; intros b keys; simpl.
  { intros [= <-]. by repeat constructor. }
  pose proof (found_key_first r b) as Hf. destruct (found_key _ _ _ _ _ _) as [key|]; [|done].
  destruct Hf as (Hgood & Hb & Hlim & _).
  destruct (walk_keys _ _ _ _ _ rs key) as [keys'|] eqn:Hw; [|done]. intros [= <-].
  apply IH in Hw as [Hall Hsorted]. split; [by constructor|]. constructor; [done|].
  apply StronglySorted_inv in Hsorted as [_ Hkey]. constructor; [done|].
  eapply Forall_impl; [done|]. intros k Hk. by eapply R_trans.
Qed.

(** Taking the nearest each time stays nearest: no other choice stops earlier. *)
Lemma walk_keys_nearest rs b b' keys' :
  Forall2 good rs keys' → StronglySorted R (b' :: keys') → R b b' →
  Forall (λ k, R k limit) keys' →
  ∃ keys, walk_keys link end_key last first range rs b = Some keys ∧ Forall2 R keys keys'.
Proof.
  intros Hall. revert b b'. induction Hall as [|r key' rs keys' Hgood Hall IH];
    intros b b' Hsorted Hb Hlim; simpl; [by exists []|].
  apply StronglySorted_inv in Hsorted as [Hsorted Hkey].
  apply Forall_cons in Hkey as [Hb' _]. apply Forall_cons in Hlim as [Hlk Hlim].
  pose proof (found_key_first r b) as Hf. destruct (found_key _ _ _ _ _ _) as [key|].
  - destruct Hf as (_ & _ & _ & Hfirst).
    destruct (IH key key' Hsorted) as (keys & -> & Hnear); [eauto|done|].
    exists (key :: keys). split; [done|]. constructor; eauto.
  - exfalso. eapply Hf; eauto.
Qed.

End direction.

Lemma steps_sorted : StronglySorted (λ e e' : Key * Step, le_of e.1 e'.1) steps.
Proof.
  unfold bm_wf in steps_wf. clear -steps_wf. induction steps as [|e l IH]; [constructor|].
  simpl in steps_wf. apply StronglySorted_inv in steps_wf as [Hl He]. constructor; [by apply IH|].
  rewrite Forall_map in He. eapply Forall_impl; [exact He|]. intros e' H. by apply lt_le_of.
Qed.

Lemma StronglySorted_filter {A} (Q : A → A → Prop) (p : A → bool) l :
  StronglySorted Q l → StronglySorted Q (List.filter p l).
Proof.
  induction 1 as [|a l Hl IH Ha]; simpl; [constructor|]. destruct (p a); [|done].
  constructor; [done|]. rewrite Forall_forall in Ha. apply Forall_forall.
  intros b [Hb _]%list_elem_of_In%List.filter_In. apply Ha. by apply list_elem_of_In.
Qed.

Lemma StronglySorted_rev {A} (Q : A → A → Prop) l :
  StronglySorted Q l → StronglySorted (flip Q) (rev l).
Proof.
  induction 1 as [|a l Hl IH Ha]; simpl; [constructor|]. apply StronglySorted_snoc; [done|].
  rewrite <- (Permutation_rev l). exact Ha.
Qed.

Lemma key_range_elem low high e :
  e ∈ key_range low high steps ↔ e ∈ steps ∧ le_of low e.1 ∧ le_of e.1 high.
Proof.
  unfold key_range. rewrite list_elem_of_In, List.filter_In, <- list_elem_of_In.
  by rewrite andb_true_iff, !key_le_spec.
Qed.

Lemma back_elem b e :
  e ∈ range_back link steps end_key b ↔
  e ∈ steps ∧ flip le_of b e.1 ∧ flip le_of e.1 (lowest link end_key).
Proof.
  unfold range_back. rewrite list_elem_of_In, <- List.in_rev, <- list_elem_of_In, key_range_elem.
  simpl. tauto.
Qed.

Lemma forward_elem b e :
  e ∈ range_forward link steps end_key b ↔
  e ∈ steps ∧ le_of b e.1 ∧ le_of e.1 (highest link end_key).
Proof. apply key_range_elem. Qed.

Lemma back_sorted b :
  StronglySorted (λ e e' : Key * Step, flip le_of e.1 e'.1) (range_back link steps end_key b).
Proof.
  apply (StronglySorted_rev (λ e e' : Key * Step, le_of e.1 e'.1)).
  apply StronglySorted_filter, steps_sorted.
Qed.

Lemma forward_sorted b :
  StronglySorted (λ e e' : Key * Step, le_of e.1 e'.1) (range_forward link steps end_key b).
Proof. apply StronglySorted_filter, steps_sorted. Qed.

Lemma le_refl (x : Key) : le_of x x.
Proof. by apply le_refl_of. Qed.

Lemma flip_trans (x y z : Key) : flip le_of x y → flip le_of y z → flip le_of x z.
Proof. simpl. intros. by eapply le_trans_of. Qed.

Definition back_sound := walk_keys_sound (flip le_of) _ _ le_refl flip_trans back_elem back_sorted.
Definition back_nearest := walk_keys_nearest (flip le_of) _ _ le_refl flip_trans back_elem back_sorted.
Definition forward_sound :=
  walk_keys_sound le_of _ _ le_refl le_trans_of forward_elem forward_sorted.
Definition forward_nearest :=
  walk_keys_nearest le_of _ _ le_refl le_trans_of forward_elem forward_sorted.
Definition back_first := found_key_first (flip le_of) _ _ le_refl back_elem back_sorted.
Definition forward_first :=
  found_key_first le_of _ _ le_refl forward_elem forward_sorted.

Lemma StronglySorted_app_intro {A} (Q : A → A → Prop) l k :
  StronglySorted Q l → StronglySorted Q k → (∀ a b, a ∈ l → b ∈ k → Q a b) →
  StronglySorted Q (l ++ k).
Proof.
  induction 1 as [|a l Hl IH Ha]; simpl; [done|]. intros Hk Hlk. constructor.
  - apply IH; [done|]. intros b c Hb Hc. apply Hlk; [by right|done].
  - apply Forall_app. split; [done|]. apply Forall_forall. intros b Hb. apply Hlk; [left|done].
Qed.

Lemma middle_sorted back forward :
  StronglySorted (flip le_of) (end_key :: back) → StronglySorted le_of (end_key :: forward) →
  StronglySorted le_of (rev back ++ end_key :: forward).
Proof.
  intros Hb Hf. apply StronglySorted_inv in Hb as [Hb Hbe]. rewrite Forall_forall in Hbe.
  apply StronglySorted_app_intro; [|done|].
  - by apply (StronglySorted_rev (flip le_of)).
  - intros a b Ha Hb'. rewrite list_elem_of_In, <- List.in_rev, <- list_elem_of_In in Ha.
    specialize (Hbe a Ha). simpl in Hbe.
    apply StronglySorted_inv in Hf as [_ Hfe]. rewrite Forall_forall in Hfe.
    apply elem_of_cons in Hb' as [->|Hb']; [done|]. eapply le_trans_of; [done|by apply Hfe].
Qed.

(** In a sorted vector the ends are the farthest apart. *)
Lemma sorted_span chosen a b :
  StronglySorted le_of chosen → a ∈ chosen → b ∈ chosen → a.1 - b.1 ≤ span end_key chosen.
Proof.
  intros Hs Ha Hb. unfold span. destruct chosen as [|c chosen]; [by apply elem_of_nil in Ha|].
  assert (∀ x, x ∈ c :: chosen → c.1 ≤ x.1) as Hhd.
  { apply StronglySorted_inv in Hs as [_ Hc]. rewrite Forall_forall in Hc.
    intros x [->|Hx]%elem_of_cons; [lia|]. by apply le_of_fst, Hc. }
  assert (∀ d x, x ∈ c :: chosen → x.1 ≤ (List.last (c :: chosen) d).1) as Hlast.
  { clear -Hs. induction Hs as [|y l Hl IH Hy]; [intros d x H; by apply elem_of_nil in H|].
    intros d x Hx. destruct l as [|z l]; [apply list_elem_of_singleton in Hx as ->; simpl; lia|].
    change (List.last (y :: z :: l) d) with (List.last (z :: l) d).
    apply elem_of_cons in Hx as [->|Hx]; [|by apply IH].
    apply Forall_cons in Hy as [Hyz _]. apply le_of_fst in Hyz.
    specialize (IH d z ltac:(left)). lia. }
  pose proof (Hhd b Hb). pose proof (Hlast end_key a Ha). simpl in *. lia.
Qed.

Lemma Forall2_rev {A B} (P : A → B → Prop) l k : Forall2 P l k → Forall2 P (rev l) (rev k).
Proof.
  induction 1 as [|a b l k Hab _ IH]; simpl; [constructor|]. apply Forall2_app; [done|].
  by repeat constructor.
Qed.

(** *** Declared order *)

Lemma declared_sound requirements own r chosen :
  link_order link = DeclaredOrder → requirements !! own = Some r → good r end_key →
  declared_keys link steps end_key last first requirements own = Some chosen →
  link_support requirements chosen.
Proof.
  intros Horder Hr Hgood. unfold declared_keys.
  destruct (walk_keys _ _ _ _ _ (rev _) _) as [back|] eqn:Hb; [|done].
  destruct (walk_keys _ _ _ _ _ (drop _ _) _) as [forward|] eqn:Hf; [|done].
  apply back_sound in Hb as [Hbg Hbs]. apply forward_sound in Hf as [Hfg Hfs].
  destruct (Z.leb_spec (span end_key (rev back ++ end_key :: forward)) (link_calls link)); [|done].
  intros [= <-]. pose proof (middle_sorted _ _ Hbs Hfs) as Hsorted. split; [| | |done].
  - rewrite <- (take_drop_middle _ _ _ Hr). apply Forall2_app; [|by constructor].
    rewrite <- (rev_involutive (take own requirements)). by apply Forall2_rev.
  - apply elem_of_app. right. left.
  - intros a b Ha Hb. pose proof (sorted_span _ _ _ Hsorted Ha Hb). lia.
Qed.

Lemma support_in_window requirements chosen k :
  link_support requirements chosen → k ∈ chosen →
  le_of (lowest link end_key) k ∧ le_of k (highest link end_key).
Proof.
  intros [Hfits Hend Hspan _] Hk.
  pose proof Hk as (i & Hi)%list_elem_of_lookup.
  destruct (Forall2_lookup_r _ _ _ _ _ Hfits Hi) as (r & _ & step & Hget & _).
  by apply (key_in_window k step); [|apply Hspan..].
Qed.

Lemma StronglySorted_app_elim {A} (Q : A → A → Prop) l k :
  StronglySorted Q (l ++ k) →
  StronglySorted Q l ∧ StronglySorted Q k ∧ ∀ a b, a ∈ l → b ∈ k → Q a b.
Proof.
  induction l as [|x l IH]; simpl.
  { intros. split_and!; [constructor|done|]. intros a b Ha. by apply elem_of_nil in Ha. }
  intros [Hlk Hx]%StronglySorted_inv. destruct (IH Hlk) as (Hl & Hk & Hab).
  apply Forall_app in Hx as [Hxl Hxk]. rewrite Forall_forall in Hxk.
  split_and!; [by constructor|done|]. intros a b [->|Ha]%elem_of_cons Hb; auto.
Qed.

Lemma span_middle X Y : span end_key (X ++ end_key :: Y) = (List.last Y end_key).1 - (hd end_key X).1.
Proof.
  unfold span. f_equal; [f_equal|by destruct X].
  induction X as [|x X IH]; simpl.
  - by destruct Y.
  - rewrite IH. by destruct X.
Qed.

Lemma Forall2_hd {A} (Q : A → A → Prop) d l k : Q d d → Forall2 Q l k → Q (hd d l) (hd d k).
Proof. intros Hd Hlk. by destruct Hlk. Qed.

Lemma Forall2_last {A} (Q : A → A → Prop) d l k :
  Q d d → Forall2 Q l k → Q (List.last l d) (List.last k d).
Proof.
  intros Hd. induction 1 as [|a b l k Hab Hlk IH]; simpl; [done|]. by destruct Hlk.
Qed.

Lemma last_elem {A} (d : A) l : List.last l d ∈ d :: l.
Proof.
  induction l as [|a l IH]; simpl; [left|]. destruct l as [|b l]; [right; left|].
  apply elem_of_cons in IH as [->|IH]; [left|]. right. by right.
Qed.

Lemma declared_complete requirements own chosen :
  link_order link = DeclaredOrder → link_support requirements chosen →
  chosen !! own = Some end_key →
  is_Some (declared_keys link steps end_key last first requirements own).
Proof.
  intros Horder Hls Hc. pose proof (λ k, support_in_window _ _ k Hls) as Hwin.
  destruct Hls as [Hfits Hend Hspan Hord]. specialize (Hord Horder).
  pose proof (Forall2_take _ _ _ own Hfits) as Hbg. pose proof (Forall2_drop _ _ _ (S own) Hfits) as Hfg.
  set (cb := take own chosen) in *. set (cf := drop (S own) chosen) in *.
  assert (chosen = cb ++ end_key :: cf) as Heq by (symmetry; by apply take_drop_middle).
  rewrite Heq in Hord, Hwin. apply StronglySorted_app_elim in Hord as (Hcb & Hcf & Hcross).
  destruct (back_nearest (rev (take own requirements)) end_key end_key (rev cb))
    as (back & Hb & Hbn).
  { by apply Forall2_rev. }
  { constructor; [by apply (StronglySorted_rev le_of)|]. rewrite <- Permutation_rev.
    apply Forall_forall. intros a Ha. apply Hcross; [done|left]. }
  { apply le_refl. }
  { rewrite <- Permutation_rev. apply Forall_forall. intros a Ha. apply Hwin. set_solver. }
  destruct (forward_nearest (drop (S own) requirements) end_key end_key cf) as (forward & Hf & Hfn).
  { done. }
  { done. }
  { apply le_refl. }
  { apply Forall_forall. intros a Ha. apply Hwin. set_solver. }
  unfold declared_keys. rewrite Hb, Hf. rewrite span_middle.
  apply Forall2_rev in Hbn. rewrite rev_involutive in Hbn.
  apply (Forall2_hd _ end_key) in Hbn; [|apply le_refl]. simpl in Hbn. apply le_of_fst in Hbn.
  apply (Forall2_last _ end_key) in Hfn; [|apply le_refl]. apply le_of_fst in Hfn.
  assert ((List.last cf end_key).1 - (hd end_key cb).1 ≤ link_calls link).
  { apply Hspan; rewrite Heq; apply elem_of_app.
    - right. apply last_elem.
    - destruct cb; [right; left|left; left]. }
  destruct (Z.leb_spec ((List.last forward end_key).1 - (hd end_key (rev back)).1) (link_calls link));
    [eauto|lia].
Qed.

(** *** Any order *)

Notation nearest := (nearest_key link steps end_key last first).

Lemma reaches_nonneg rs reach : reach ∈ reaches end_key (map nearest rs) → 0 ≤ reach.
Proof.
  unfold reaches. intros [->|Hin]%elem_of_cons; [done|].
  apply list_elem_of_omap in Hin as (n & Hn & Hk). apply list_elem_of_In, in_map_iff in Hn as (r & <- & _).
  simpl in Hk. pose proof (back_first r end_key) as Hf.
  destruct (found_key _ _ _ _ _ _) as [key|]; [|done]. destruct Hf as (_ & Hle & _).
  injection Hk as <-. simpl in Hle. apply le_of_fst in Hle. lia.
Qed.

Lemma pick_good reach g r :
  0 ≤ reach → 0 ≤ g →
  (∃ d, right_distance end_key reach (nearest r) = Some d ∧ d ≤ g) →
  ∃ k, pick end_key reach (nearest r) = Some k ∧
    good r k ∧ end_key.1 - k.1 ≤ reach ∧ k.1 - end_key.1 ≤ g.
Proof.
  intros Hreach Hg (d & Hd & Hle). unfold right_distance, pick in *. simpl in *.
  pose proof (back_first r end_key) as Hb. pose proof (forward_first r end_key) as Hf.
  assert (∀ after, (λ k : Key, k.1 - end_key.1) <$> after = Some d →
    found_key link end_key last first r (range_forward link steps end_key end_key) = after →
    ∃ k, after = Some k ∧ good r k ∧ end_key.1 - k.1 ≤ reach ∧ k.1 - end_key.1 ≤ g) as Hafter.
  { intros [k|] Hk Heq; [|done]. rewrite Heq in Hf. destruct Hf as (Hgood & Hend%le_of_fst & _).
    injection Hk as <-. exists k. split_and!; [done|done|lia|lia]. }
  destruct (found_key _ _ _ _ r (range_back _ _ _ _)) as [key|]; [|by apply Hafter].
  destruct (Z.leb_spec (end_key.1 - key.1) reach); [|by apply Hafter].
  destruct Hb as (Hgood & Hend & _). simpl in Hend. apply le_of_fst in Hend.
  exists key. split_and!; [done|done|lia|lia].
Qed.

Lemma picks_good reach g rs :
  0 ≤ reach → 0 ≤ g →
  (∀ n, n ∈ map nearest rs → ∃ d, right_distance end_key reach n = Some d ∧ d ≤ g) →
  Forall2 (λ r k, good r k ∧ end_key.1 - k.1 ≤ reach ∧ k.1 - end_key.1 ≤ g) rs
    (omap (pick end_key reach) (map nearest rs)).
Proof.
  intros Hreach Hg. induction rs as [|r rs IH]; simpl; [constructor|]. intros Hall.
  destruct (pick_good reach g r) as (k & -> & Hk); [done|done|apply Hall; left|].
  constructor; [done|]. apply IH. intros n Hn. apply Hall. by right.
Qed.

Lemma any_sound requirements own r chosen :
  link_order link = AnyOrder → requirements !! own = Some r → good r end_key →
  any_keys link steps end_key last first requirements own = Some chosen →
  link_support requirements chosen.
Proof.
  intros Horder Hr Hgood. unfold any_keys. rewrite <- map_app.
  destruct (List.find _ _) as [reach|] eqn:Hfind; [|done]. intros [= <-].
  apply List.find_some in Hfind as [Hin%list_elem_of_In Hlinks].
  apply reaches_nonneg in Hin. unfold reach_links in Hlinks.
  destruct (farthest_right _ _ _ _) as [g|] eqn:Hg; [|done]. apply Z.leb_le in Hlinks.
  apply farthest_right_Some in Hg as [Hg Hall]. rewrite map_app in Hall.
  set (near := λ (r : Requirement) (k : Key),
    good r k ∧ end_key.1 - k.1 ≤ reach ∧ k.1 - end_key.1 ≤ g).
  assert (Forall2 near requirements
    (omap (pick end_key reach) (map nearest (take own requirements))
     ++ end_key :: omap (pick end_key reach) (map nearest (drop (S own) requirements)))) as Hnear.
  { rewrite <- (take_drop_middle _ _ _ Hr) at 1. apply Forall2_app; [|constructor].
    - apply picks_good; [done|done|]. intros n Hn. apply Hall. apply elem_of_app. by left.
    - split_and!; [done|lia|lia].
    - apply picks_good; [done|done|]. intros n Hn. apply Hall. apply elem_of_app. by right. }
  split.
  - eapply Forall2_impl; [exact Hnear|]. by intros ? ? [].
  - apply elem_of_app. right. left.
  - intros a b [i Hi]%list_elem_of_lookup [j Hj]%list_elem_of_lookup.
    destruct (Forall2_lookup_r _ _ _ _ _ Hnear Hi) as (? & _ & _ & ? & ?).
    destruct (Forall2_lookup_r _ _ _ _ _ Hnear Hj) as (? & _ & _ & ? & ?). lia.
  - congruence.
Qed.

Lemma leftmost (chosen : list Key) k :
  k ∈ chosen → ∃ a, a ∈ chosen ∧ ∀ b, b ∈ chosen → a.1 ≤ b.1.
Proof.
  revert k; induction chosen as [|c chosen IH]; intros k Hk; [by apply elem_of_nil in Hk|].
  destruct chosen as [|d chosen].
  { exists c. split; [left|]. intros b Hb. apply list_elem_of_singleton in Hb as ->. lia. }
  destruct (IH d ltac:(left)) as (a & Ha & Hmin).
  destruct (Z.le_ge_cases c.1 a.1) as [Hca|Hac].
  - exists c. split; [left|]. intros b [->|Hb]%elem_of_cons; [lia|]. specialize (Hmin b Hb). lia.
  - exists a. split; [by right|]. intros b [->|Hb]%elem_of_cons; [lia|]. by apply Hmin.
Qed.

Lemma largest_below (l : list Z) limit x :
  x ∈ l → x ≤ limit → ∃ m, m ∈ l ∧ m ≤ limit ∧ ∀ c, c ∈ l → c ≤ limit → c ≤ m.
Proof.
  revert x; induction l as [|y l IH]; intros x Hx Hle; [by apply elem_of_nil in Hx|].
  destruct (decide (Exists (λ c, c ≤ limit) l)) as [(z & Hz & Hzl)%Exists_exists|Hno].
  - destruct (IH z Hz Hzl) as (m & Hm & Hml & Hmax).
    destruct (decide (y ≤ limit ∧ m < y)) as [[Hyl Hmy]|Hn].
    + exists y. split_and!; [left|done|]. intros c [->|Hc]%elem_of_cons Hcl; [lia|].
      specialize (Hmax c Hc Hcl). lia.
    + exists m. split_and!; [by right|done|]. intros c [->|Hc]%elem_of_cons Hcl; [lia|].
      by apply Hmax.
  - apply elem_of_cons in Hx as [->|Hx].
    + exists y. split_and!; [left|done|]. intros c [->|Hc]%elem_of_cons Hcl; [lia|].
      exfalso. apply Hno, Exists_exists. eauto.
    + exfalso. apply Hno, Exists_exists. eauto.
Qed.

(** With every left distance up to [reach] allowed, a requirement that some
    support fills stays within that support's right side. *)
Lemma right_distance_support reach limit_left limit_right r k :
  good r k → le_of (lowest link end_key) k ∧ le_of k (highest link end_key) →
  end_key.1 - k.1 ≤ limit_left → k.1 - end_key.1 ≤ limit_right → 0 ≤ limit_right →
  (∀ key, (nearest r).2.1 = Some key → end_key.1 - key.1 ≤ limit_left →
     end_key.1 - key.1 ≤ reach) →
  ∃ d, right_distance end_key reach (nearest r) = Some d ∧ d ≤ limit_right.
Proof.
  intros Hgood [Hlow Hhigh] Hleft Hright Hpos Hreach. unfold right_distance. simpl in *.
  pose proof (back_first r end_key) as Hb. pose proof (forward_first r end_key) as Hf.
  destruct (le_total_of k end_key) as [Hk|Hk].
  - destruct (found_key _ _ _ _ r (range_back _ _ _ _)) as [key|]; [|exfalso; by eapply Hb].
    destruct Hb as (_ & _ & _ & Hmin). specialize (Hmin k Hgood Hk Hlow). simpl in Hmin.
    apply le_of_fst in Hmin. specialize (Hreach key eq_refl).
    destruct (Z.leb_spec (end_key.1 - key.1) reach); [by exists 0|lia].
  - destruct (found_key _ _ _ _ r (range_forward _ _ _ _)) as [key|]; [|exfalso; by eapply Hf].
    destruct Hf as (_ & _ & _ & Hmin). specialize (Hmin k Hgood Hk Hhigh). apply le_of_fst in Hmin.
    destruct (found_key _ _ _ _ r (range_back _ _ _ _)) as [key'|]; simpl;
      [destruct (_ <=? _); [by exists 0|]|]; eexists; (split; [done|lia]).
Qed.

Lemma any_complete requirements own chosen :
  link_support requirements chosen → chosen !! own = Some end_key →
  is_Some (any_keys link steps end_key last first requirements own).
Proof.
  intros Hls Hc. pose proof (λ k, support_in_window _ _ k Hls) as Hwin.
  destruct Hls as [Hfits Hend Hspan _].
  destruct (leftmost chosen end_key Hend) as (a & Ha & Hmin).
  unfold any_keys. rewrite <- map_app. set (others := take own requirements ++ drop (S own) requirements).
  destruct (largest_below (reaches end_key (map nearest others)) (end_key.1 - a.1) 0)
    as (reach & Hin & Hle & Hmax); [left|specialize (Hmin end_key Hend); lia|].
  destruct (farthest_right_le end_key reach (map nearest others) 0
    (link_calls link - (end_key.1 - a.1))) as (g & Hg & Hgle).
  { specialize (Hspan end_key a Hend Ha). lia. }
  { intros n Hn. pose proof Hn as (r & <- & Hr)%list_elem_of_In%in_map_iff.
    assert (r ∈ requirements) as (i & Hi)%list_elem_of_lookup.
    { apply list_elem_of_In in Hr. unfold others in Hr. apply elem_of_app in Hr as [Hr|Hr];
        [by eapply elem_of_take in Hr as (? & ? & ?); eapply list_elem_of_lookup_2
        |by eapply subseteq_drop]. }
    destruct (Forall2_lookup_l _ _ _ _ _ Hfits Hi) as (k & Hk & Hgood).
    apply list_elem_of_lookup_2 in Hk.
    apply (right_distance_support reach (end_key.1 - a.1) _ r k); [done|by apply Hwin| | | |].
    - specialize (Hmin k Hk). lia.
    - specialize (Hspan k a Hk Ha). lia.
    - specialize (Hspan end_key a Hend Ha). lia.
    - intros key Hkey Hkl. apply Hmax; [|done]. right. apply list_elem_of_omap.
      exists (nearest r). by rewrite Hkey. }
  destruct (List.find _ _) eqn:Hfind; [eauto|].
  exfalso. assert (reach_links link end_key (map nearest others) reach = false) as Hbad
    by (by apply (List.find_none _ _ Hfind), list_elem_of_In).
  unfold reach_links in Hbad. rewrite Hg in Hbad. apply Z.leb_gt in Hbad. lia.
Qed.

(** *** Every requirement tried as the one completed *)

Lemma linked_keys_sound requirements own chosen :
  requirements !! own.1 = Some own → fits link end_key last first own end_key last = true →
  linked_keys link steps end_key last first requirements own.1 = Some chosen →
  link_support requirements chosen.
Proof.
  intros Hown Hfit. assert (good own end_key) by (by exists last).
  unfold linked_keys. destruct (link_order link) eqn:Horder.
  - by apply declared_sound with own.
  - by apply any_sound with own.
Qed.

Lemma linked_keys_complete requirements own chosen :
  link_support requirements chosen → chosen !! own = Some end_key →
  is_Some (linked_keys link steps end_key last first requirements own).
Proof.
  unfold linked_keys. destruct (link_order link) eqn:Horder; intros.
  - by apply declared_complete with chosen.
  - by apply any_complete with chosen.
Qed.

Lemma link_keys_correct requirements owns :
  Forall (λ own : Requirement, requirements !! own.1 = Some own) owns →
  match link_keys link steps end_key last first requirements owns with
  | Some chosen => link_support requirements chosen
  | None => ∀ chosen own, link_support requirements chosen → own ∈ owns →
              chosen !! own.1 ≠ Some end_key
  end.
Proof.
  induction 1 as [|own owns Hown _ IH]; simpl.
  { intros chosen own _ Hin. by apply elem_of_nil in Hin. }
  destruct (fits link end_key last first own end_key last) eqn:Hfit.
  - destruct (linked_keys _ _ _ _ _ _ _) as [chosen|] eqn:Hlinked.
    + by eapply linked_keys_sound.
    + destruct (link_keys _ _ _ _ _ _ _); [done|].
      intros chosen own' Hls [->|Hin]%elem_of_cons Hat; [|by eapply IH].
      pose proof (linked_keys_complete _ _ _ Hls Hat) as [? ?]. congruence.
  - destruct (link_keys _ _ _ _ _ _ _); [done|].
    intros chosen own' Hls [->|Hin]%elem_of_cons Hat; [|by eapply IH].
    destruct (Forall2_lookup_r _ _ _ _ _ (ls_fits _ _ Hls) Hat) as (r & Hr & step & Hget & Hfits).
    rewrite Hown in Hr. simplify_eq. congruence.
Qed.

End link_spec.

Lemma requirements_of_numbered modifier : numbered 0 (requirements_of modifier).
Proof.
  unfold numbered, requirements_of. set (l := map _ _ ++ map _ _).
  rewrite length_imap. apply list_eq. intros i.
  rewrite list_lookup_fmap, list_lookup_imap.
  destruct (l !! i) eqn:Hi; simpl.
  - symmetry. apply lookup_seq_lt. by eapply lookup_lt_Some.
  - symmetry. apply lookup_seq_ge. by apply lookup_ge_None.
Qed.

Lemma numbered_lookup rs r : numbered 0 rs → r ∈ rs → rs !! r.1 = Some r ∧ (r.1 < length rs)%nat.
Proof.
  intros Hn [i Hi]%list_elem_of_lookup.
  assert (rs.*1 !! i = Some r.1) as Hf by (by apply list_lookup_fmap_Some_2).
  unfold numbered in Hn. rewrite Hn, lookup_seq_lt in Hf by (by eapply lookup_lt_Some).
  simpl in Hf. injection Hf as <-. split; [done|by eapply lookup_lt_Some].
Qed.

(** ** Support *)

(** What the source calls a completed chain: the observations, one per
    requirement, that the step at [end_key] completes. *)
Definition completes (modifier : RuleV1CompatibilityModifier) (link : ModifierLink)
    (steps : Steps) (end_key : Key) (first : Z → bool) (chosen : list Key) : Prop :=
  ∃ last, bm_get end_key steps = Some last ∧
    link_support link steps end_key last first (requirements_of modifier) chosen.

Definition steps_ok (steps : Steps) : Prop :=
  bm_wf steps ∧ Forall (λ e : Key * Step, u64 e.1.1 ∧ u64 e.1.2) steps.

(** Work that always suffices for one completing step. *)
Definition support_work (modifier : RuleV1CompatibilityModifier) (steps : Steps) : Z :=
  let n := Z.of_nat (length (requirements_of modifier)) in
  n * (1 + n * (2 * Z.of_nat (length steps))).

Definition support_keys (modifier : RuleV1CompatibilityModifier) (link : ModifierLink)
    (steps : Steps) (end_key : Key) (first : Z → bool) : option (list Key) :=
  match bm_get end_key steps with
  | None => None
  | Some last => link_keys link steps end_key last first
                   (requirements_of modifier) (requirements_of modifier)
  end.

Lemma support_metered modifier link steps (end_key : Key) first :
  end_key.1 + link_calls link ≤ u64_max →
  metered (λ s : Z, s) (support modifier link steps end_key first) (support_work modifier steps)
    (map snd <$> support_keys modifier link steps end_key first).
Proof.
  intros Hfit. unfold support, support_keys, support_work.
  destruct (bm_get end_key steps) as [last|];
    [|eapply metered_weaken; [|apply metered_ret]; nia].
  destruct (checked_add end_key.1 (link_calls link)) eqn:Ha;
    [|apply checked_add_None in Ha; lia].
  rewrite <- (Z.add_0_r (_ * _)). eapply metered_bind; [done| |apply metered_ret].
  apply link_from_metered; [apply requirements_of_numbered|].
  apply Forall_forall. intros r Hr. by apply (numbered_lookup _ _ (requirements_of_numbered _)) in Hr as [].
Qed.

Lemma support_keys_correct modifier link steps (end_key : Key) first :
  steps_ok steps → 0 ≤ link_calls link →
  match support_keys modifier link steps end_key first with
  | Some chosen => completes modifier link steps end_key first chosen
  | None => ∀ chosen, ¬ completes modifier link steps end_key first chosen
  end.
Proof.
  intros [Hwf Hu64] Hcalls. unfold support_keys, completes.
  destruct (bm_get end_key steps) as [last|] eqn:Hlast; [|naive_solver].
  pose proof (link_keys_correct link steps end_key last first Hwf Hu64 Hlast Hcalls
    (requirements_of modifier) (requirements_of modifier)) as Hk.
  destruct (link_keys _ _ _ _ _ _ _) as [chosen|].
  - exists last. split; [done|]. apply Hk, Forall_forall. intros r Hr.
    by apply (numbered_lookup _ _ (requirements_of_numbered _)) in Hr as [].
  - intros chosen (last' & [= <-] & Hls). pose proof (ls_end _ _ _ _ _ _ _ Hls) as [i Hi]%list_elem_of_lookup.
    destruct (Forall2_lookup_r _ _ _ _ _ (ls_fits _ _ _ _ _ _ _ Hls) Hi) as (r & Hr & _).
    assert (r ∈ requirements_of modifier) as Hin by (by eapply list_elem_of_lookup_2).
    pose proof (numbered_lookup _ _ (requirements_of_numbered _) Hin) as [Hr' _].
    eapply Hk; [| |exact Hin|]; [|done|].
    + apply Forall_forall. intros r' Hr''.
      by apply (numbered_lookup _ _ (requirements_of_numbered _)) in Hr'' as [].
    + assert (r.1 = i) as ->; [|done].
      assert ((requirements_of modifier).*1 !! i = Some r.1) as Hf by (by apply list_lookup_fmap_Some_2).
      pose proof (requirements_of_numbered modifier) as Hn. unfold numbered in Hn.
      rewrite Hn, lookup_seq_lt in Hf by (by eapply lookup_lt_Some). by injection Hf as <-.
Qed.

(** C22: the search for a chain completed at [end_key] is exact.  It returns the
    indexes of observations that fill every requirement within the declared
    window, minutes and order, with the completing one among them; it returns
    nothing only when no such choice exists; and it fails only when the remaining
    work is below [support_work], or the window leaves the range of positions. *)
Theorem support_correct modifier link steps (end_key : Key) first remaining_work :
  steps_ok steps → 0 ≤ link_calls link → 0 ≤ remaining_work →
  match support modifier link steps end_key first remaining_work with
  | (_, Ok (Some indexes)) =>
      ∃ chosen, completes modifier link steps end_key first chosen ∧ indexes = map snd chosen
  | (_, Ok None) => ∀ chosen, ¬ completes modifier link steps end_key first chosen
  | (_, Err e) => e = Bounds ∧
      (remaining_work < support_work modifier steps ∨ u64_max < end_key.1 + link_calls link)
  end.
Proof.
  intros Hok Hcalls Hs.
  pose proof (support_keys_correct modifier link steps end_key first Hok Hcalls) as Hkeys.
  destruct (decide (u64_max < end_key.1 + link_calls link)) as [Hover|Hfit].
  - unfold support. unfold support_keys in Hkeys. destruct (bm_get end_key steps); [|done].
    apply checked_add_None in Hover as Hnone. rewrite Hnone. simpl. auto.
  - pose proof (support_metered modifier link steps end_key first ltac:(lia) _ Hs) as Hm.
    destruct (support modifier link steps end_key first remaining_work) as [s' [r|e]];
      [|split; [apply Hm|left; apply Hm]].
    destruct Hm as (-> & _). destruct (support_keys _ _ _ _ _) as [chosen|]; simpl; eauto.
Qed.

(** ** A whole session *)

Definition completed_at (modifier : RuleV1CompatibilityModifier) (link : ModifierLink)
    (steps : Steps) (end_key : Key) : bool :=
  match support_keys modifier link steps end_key (λ _, true) with Some _ => true | None => false end.

Lemma any_linked_metered modifier link steps ends :
  Forall (λ k : Key, k.1 + link_calls link ≤ u64_max) ends →
  metered (λ s : Z, s) (any_linked modifier link steps ends)
    (Z.of_nat (length ends) * support_work modifier steps)
    (existsb (completed_at modifier link steps) ends).
Proof.
  assert (0 ≤ support_work modifier steps) as Hpos by (unfold support_work; nia).
  induction 1 as [|k ends Hk Hends IH]; simpl; [apply metered_ret|].
  apply metered_weaken with
    (support_work modifier steps + Z.of_nat (length ends) * support_work modifier steps); [lia|].
  eapply metered_bind; [nia|by apply support_metered|]. unfold completed_at at 1.
  destruct (support_keys _ _ _ _ _); simpl; [|apply IH].
  eapply metered_weaken; [|apply metered_ret]. nia.
Qed.

(** A session completes a modifier's link exactly when some matched
    observation completes it; the check fails only when its million units of work
    cannot cover the session. *)
Theorem linked_in_session_correct modifier link steps :
  steps_ok steps → 0 ≤ link_calls link →
  Forall (λ e : Key * Step, e.1.1 + link_calls link ≤ u64_max) steps →
  match linked_in_session modifier link steps with
  | Ok linked => linked = true ↔
      ∃ end_key chosen, completes modifier link steps end_key (λ _, true) chosen
  | Err e => e = Bounds ∧ 1000000 < Z.of_nat (length steps) * support_work modifier steps
  end.
Proof.
  intros Hok Hcalls Hfit. unfold linked_in_session.
  assert (Forall (λ k : Key, k.1 + link_calls link ≤ u64_max) (bm_keys steps)) as Hkeys
    by (by apply Forall_map).
  pose proof (any_linked_metered modifier link steps _ Hkeys 1000000 ltac:(done)) as Hm.
  replace (length (bm_keys steps)) with (length steps) in Hm
    by (unfold bm_keys; by rewrite length_fmap).
  destruct (any_linked _ _ _ _ _) as [s' [linked|e]]; simpl in *; [|done].
  destruct Hm as [-> _]. rewrite existsb_exists. unfold completed_at. split.
  - intros (k & _ & Hk). pose proof (support_keys_correct modifier link steps k (λ _, true) Hok Hcalls).
    destruct (support_keys _ _ _ _ _); [eauto|done].
  - intros (k & chosen & Hc). exists k.
    pose proof (support_keys_correct modifier link steps k (λ _, true) Hok Hcalls) as Hk.
    destruct (support_keys _ _ _ _ _); [|by apply Hk in Hc]. split; [|done].
    destruct Hc as (last & Hget & _). apply bm_get_elem in Hget; [|apply Hok].
    apply list_elem_of_In. unfold bm_keys. by apply (list_elem_of_fmap_2 fst) in Hget.
Qed.

(** ** Positions *)

Definition tool_call (v : string) (o : Observation) : bool :=
  match kind o, call_id o with FTool, Some id => String.eqb (ci_value id) v | _, _ => false end.

Definition result_without_id (o : Observation) : bool :=
  match kind o, call_id o with
  | FTool, None => bool_decide (stage o = ToolResultReturned)
  | _, _ => false
  end.

(** A record of a call already counted. *)
Definition continues (pre : list Observation) (o : Observation) : bool :=
  match kind o, call_id o with
  | FTool, Some id => existsb (tool_call (ci_value id)) pre
  | FTool, None => bool_decide (stage o = ToolResultReturned)
  | _, _ => false
  end.

Definition starts_call (pre : list Observation) (o : Observation) : bool :=
  bool_decide (kind o = FTool) && negb (continues pre o).

(** The calls that start among the observations. *)
Fixpoint started_from (pre l : list Observation) : Z :=
  match l with
  | [] => 0
  | o :: l' => (if starts_call pre o then 1 else 0) + started_from (pre ++ [o]) l'
  end.
Definition calls_started (l : list Observation) : Z := started_from [] l.

Record positions_ok (l : list Observation) (ps : list Z) : Prop := {
  po_length : length ps = length l;
  (** Calls are numbered in order; other records take the number of the next call. *)
  po_next : ∀ i o p, l !! i = Some o → ps !! i = Some p → continues (take i l) o = false →
    p = calls_started (take i l);
  (** A result without a call id belongs to the last call. *)
  po_result : ∀ i o p, l !! i = Some o → ps !! i = Some p → result_without_id o = true →
    p = Z.max (calls_started (take i l) - 1) 0;
  (** A call and its results share a position through their call id. *)
  po_shared : ∀ v i j o o' p p', l !! i = Some o → l !! j = Some o' →
    tool_call v o = true → tool_call v o' = true → ps !! i = Some p → ps !! j = Some p' → p = p';
}.

Section position_facts.
Variable bounds : SourceBounds.

Definition call_pure (st : CallState) (o : Observation) : CallState :=
  match kind o, call_id o with
  | FTool, Some id =>
      match bm_get (ci_value id) (cs_calls st) with
      | Some position => push_position (cs_calls st) (cs_next st) st position
      | None => push_position (bm_insert (ci_value id) (cs_next st) (cs_calls st))
                  (cs_next st + 1) st (cs_next st)
      end
  | FTool, None =>
      if bool_decide (stage o = ToolResultReturned)
      then push_position (cs_calls st) (cs_next st) st (saturating_sub (cs_next st) 1)
      else push_position (cs_calls st) (cs_next st + 1) st (cs_next st)
  | _, _ => push_position (cs_calls st) (cs_next st) st (cs_next st)
  end.

(** Work charged for one observation: its call id. *)
Definition call_cost (o : Observation) : Z :=
  match kind o, call_id o with FTool, Some id => Z.max (len (ci_value id)) 1 | _, _ => 0 end.

Lemma call_step_metered st o :
  sb_work bounds < u64_max →
  metered (work_left bounds) (call_step bounds st o) (call_cost o) (call_pure st o).
Proof.
  intros Hsmall. unfold call_step, call_cost, call_pure.
  destruct (kind o), (call_id o); try apply metered_ret; [|destruct (bool_decide _); apply metered_ret].
  rewrite <- (Z.add_0_r (Z.max _ _)).
  eapply metered_bind; [done|by apply metered_charge|apply metered_ret].
Qed.

Definition call_init : CallState := {| cs_calls := []; cs_next := 0; cs_positions := [] |}.

Lemma started_from_snoc pre l o :
  started_from pre (l ++ [o]) =
  started_from pre l + (if starts_call (pre ++ l) o then 1 else 0).
Proof.
  revert pre; induction l as [|a l IH]; intros pre; simpl.
  - rewrite app_nil_r. lia.
  - rewrite IH, <- app_assoc. simpl. lia.
Qed.

Lemma calls_started_snoc l o :
  calls_started (l ++ [o]) = calls_started l + (if starts_call l o then 1 else 0).
Proof. apply started_from_snoc. Qed.

Record call_inv (l : list Observation) (st : CallState) : Prop := {
  ci_ok : positions_ok l (cs_positions st);
  ci_next : cs_next st = calls_started l;
  ci_unknown : ∀ v, bm_get v (cs_calls st) = None → existsb (tool_call v) l = false;
  ci_known : ∀ v p, bm_get v (cs_calls st) = Some p → existsb (tool_call v) l = true ∧
    ∀ i o p', l !! i = Some o → tool_call v o = true → cs_positions st !! i = Some p' → p' = p;
}.

(** One record more: its own position settles the three cases, the earlier
    records keep theirs. *)
Lemma positions_snoc l ps o p :
  positions_ok l ps →
  (continues l o = false → p = calls_started l) →
  (result_without_id o = true → p = Z.max (calls_started l - 1) 0) →
  (∀ v i o' p', tool_call v o = true → l !! i = Some o' → tool_call v o' = true →
     ps !! i = Some p' → p' = p) →
  positions_ok (l ++ [o]) (ps ++ [p]).
Proof.
  intros [Hlen Hnext Hres Hshared] Hn Hr Hs.
  assert (∀ i a q, (l ++ [o]) !! i = Some a → (ps ++ [p]) !! i = Some q →
    (l !! i = Some a ∧ ps !! i = Some q ∧ take i (l ++ [o]) = take i l) ∨
    (i = length l ∧ a = o ∧ q = p ∧ take i (l ++ [o]) = l)) as Hcases.
  { intros i a q Ha Hq. destruct (decide (i < length l)%nat).
    - left. rewrite lookup_app_l in Ha by done. rewrite lookup_app_l in Hq by lia.
      split_and!; [done|done|]. by rewrite take_app_le by lia.
    - right. assert (i = length l) as ->.
      { apply lookup_lt_Some in Ha. rewrite length_app in Ha. simpl in Ha. lia. }
      rewrite lookup_app_r, Nat.sub_diag in Ha by lia. rewrite lookup_app_r, Hlen, Nat.sub_diag in Hq by lia.
      simplify_eq/=. split_and!; try done. apply take_app_length. }
  split.
  - rewrite !length_app. simpl. lia.
  - intros i a q Ha Hq. destruct (Hcases i a q Ha Hq) as [(? & ? & ->)|(-> & -> & -> & ->)]; eauto.
  - intros i a q Ha Hq. destruct (Hcases i a q Ha Hq) as [(? & ? & ->)|(-> & -> & -> & ->)]; eauto.
  - intros v i j a a' q q' Ha Ha' Hv Hv' Hq Hq'.
    destruct (Hcases i a q Ha Hq) as [(? & ? & _)|(-> & -> & -> & _)],
      (Hcases j a' q' Ha' Hq') as [(? & ? & _)|(-> & -> & -> & _)]; eauto. symmetry. eauto.
Qed.

Lemma tool_call_spec v o :
  tool_call v o = true ↔ ∃ id, kind o = FTool ∧ call_id o = Some id ∧ ci_value id = v.
Proof.
  unfold tool_call. destruct (kind o), (call_id o) as [id|]; rewrite ?String.eqb_eq; naive_solver.
Qed.

(** A record with no call id touches no call. *)
Lemma call_inv_plain l st o p next :
  call_inv l st → (∀ v, tool_call v o = false) →
  (continues l o = false → p = calls_started l) →
  (result_without_id o = true → p = Z.max (calls_started l - 1) 0) →
  next = calls_started (l ++ [o]) →
  call_inv (l ++ [o]) (push_position (cs_calls st) next st p).
Proof.
  intros [Hok Hnext Hun Hkn] Hno Hc Hr Hnx. pose proof (po_length _ _ Hok) as Hlen.
  split; simpl; [|done|..].
  - apply positions_snoc; [done..|]. intros v ? ? ? Hv. by rewrite Hno in Hv.
  - intros v Hv. rewrite existsb_app. simpl. by rewrite (Hun v Hv), Hno.
  - intros v q Hv. destruct (Hkn v q Hv) as [Hex Hall]. rewrite existsb_app, Hex. split; [done|].
    intros i a q' Ha Hva Hq'. destruct (decide (i < length l)%nat).
    + rewrite lookup_app_l in Ha by done. rewrite lookup_app_l in Hq' by lia. eauto.
    + assert (i = length l) as ->.
      { apply lookup_lt_Some in Ha. rewrite length_app in Ha. simpl in Ha. lia. }
      rewrite lookup_app_r, Nat.sub_diag in Ha by lia. injection Ha as ->. by rewrite Hno in Hva.
Qed.

Lemma call_inv_call l st o id p calls next :
  call_inv l st → kind o = FTool → call_id o = Some id →
  bm_get (ci_value id) calls = Some p →
  (∀ v, v ≠ ci_value id → bm_get v calls = bm_get v (cs_calls st)) →
  (bm_get (ci_value id) (cs_calls st) = Some p ∨
   (bm_get (ci_value id) (cs_calls st) = None ∧ p = calls_started l)) →
  next = calls_started (l ++ [o]) →
  call_inv (l ++ [o]) (push_position calls next st p).
Proof.
  intros [Hok Hnext Hun Hkn] Hkind Hid Hget Hother Hcase Hnx.
  pose proof (po_length _ _ Hok) as Hlen.
  assert (∀ v, tool_call v o = true ↔ v = ci_value id) as Htc.
  { intros v. rewrite tool_call_spec. naive_solver. }
  assert (∀ i a q, l !! i = Some a → tool_call (ci_value id) a = true →
    cs_positions st !! i = Some q → q = p) as Hsame.
  { intros i a q Ha Hv Hq. destruct Hcase as [Hold|[Hnew _]].
    - destruct (Hkn _ _ Hold) as [_ Hall]. eauto.
    - apply Hun in Hnew. exfalso. apply list_elem_of_lookup_2, list_elem_of_In in Ha.
      assert (existsb (tool_call (ci_value id)) l = true) by (apply existsb_exists; eauto). congruence. }
  split; simpl; [|done|..].
  - apply positions_snoc; [done|..].
    + unfold continues. rewrite Hkind, Hid. destruct Hcase as [Hold|[_ ->]]; [|done].
      by rewrite (proj1 (Hkn _ _ Hold)).
    + unfold result_without_id. by rewrite Hkind, Hid.
    + intros v i a q ->%Htc. eauto.
  - intros v Hv. destruct (decide (v = ci_value id)) as [->|Hne]; [congruence|].
    rewrite Hother in Hv by done. rewrite existsb_app. simpl. rewrite (Hun v Hv).
    destruct (tool_call v o) eqn:Ht; [by apply Htc in Ht|done].
  - intros v q Hv. destruct (decide (v = ci_value id)) as [->|Hne].
    + rewrite Hget in Hv. injection Hv as <-. rewrite existsb_app. simpl.
      rewrite (proj2 (Htc (ci_value id)) eq_refl), orb_true_r. split; [done|].
      intros i a q' Ha Hva Hq'. destruct (decide (i < length l)%nat).
      * rewrite lookup_app_l in Ha by done. rewrite lookup_app_l in Hq' by lia. eauto.
      * rewrite lookup_app_r in Hq' by lia. apply list_lookup_singleton_Some in Hq' as [_ ->]. done.
    + rewrite Hother in Hv by done. destruct (Hkn v q Hv) as [Hex Hall].
      rewrite existsb_app, Hex. split; [done|]. intros i a q' Ha Hva Hq'.
      destruct (decide (i < length l)%nat).
      * rewrite lookup_app_l in Ha by done. rewrite lookup_app_l in Hq' by lia. eauto.
      * rewrite lookup_app_r in Ha by lia. apply list_lookup_singleton_Some in Ha as [_ ->].
        by apply Htc in Hva.
Qed.

Lemma call_inv_step l st o : call_inv l st → call_inv (l ++ [o]) (call_pure st o).
Proof.
  intros Hinv. pose proof (ci_next _ _ Hinv) as Hnext. pose proof (calls_started_snoc l o) as Hsnoc.
  unfold call_pure. unfold starts_call in Hsnoc.
  destruct (decide (kind o = FTool)) as [Hkind|Hkind].
  2: { rewrite bool_decide_false in Hsnoc by done. simpl in Hsnoc.
       assert (∀ v, tool_call v o = false) by (intros v; unfold tool_call; by destruct (kind o)).
       assert (call_inv (l ++ [o]) (push_position (cs_calls st) (cs_next st) st (cs_next st))).
       { apply call_inv_plain; [done|done|done| |lia].
         unfold result_without_id. by destruct (kind o). }
       by destruct (kind o). }
  rewrite bool_decide_true in Hsnoc by done. unfold continues in Hsnoc. rewrite Hkind in *. simpl in Hsnoc.
  destruct (call_id o) as [id|] eqn:Hid.
  - destruct (bm_get (ci_value id) (cs_calls st)) as [p|] eqn:Hget.
    + rewrite (proj1 (ci_known _ _ Hinv _ _ Hget)) in Hsnoc. simpl in Hsnoc.
      apply (call_inv_call l st o id); auto. lia.
    + rewrite (ci_unknown _ _ Hinv _ Hget) in Hsnoc. simpl in Hsnoc.
      apply (call_inv_call l st o id); auto; [apply bm_get_insert_eq| |lia].
      intros v Hv. by apply bm_get_insert_ne.
  - assert (∀ v, tool_call v o = false) by (intros v; unfold tool_call; by rewrite Hkind, Hid).
    destruct (bool_decide (stage o = ToolResultReturned)) eqn:Hres; simpl in Hsnoc.
    + apply call_inv_plain; [done|done| | |lia].
      * unfold continues. by rewrite Hkind, Hid, Hres.
      * intros _. unfold saturating_sub. lia.
    + apply call_inv_plain; [done|done|done| |lia].
      unfold result_without_id. by rewrite Hkind, Hid, Hres.
Qed.

Lemma call_inv_all l : call_inv l (foldl call_pure call_init l).
Proof.
  induction l as [|o l IH] using rev_ind.
  - split; [|done|done|done]. split; done.
  - rewrite foldl_app. by apply call_inv_step.
Qed.

Definition pure_positions (l : list Observation) : list Z := cs_positions (foldl call_pure call_init l).

Lemma call_positions_metered observations :
  sb_work bounds < u64_max →
  metered (work_left bounds) (call_positions bounds observations) (total call_cost observations)
    (pure_positions observations).
Proof.
  intros Hsmall. unfold call_positions. rewrite <- (Z.add_0_r (total _ _)).
  eapply metered_bind; [done| |apply metered_ret]. apply metered_fold.
  - intros o. unfold call_cost. destruct (kind o), (call_id o); lia.
  - intros b a _. by apply call_step_metered.
Qed.

Lemma pure_positions_bounded l :
  Forall (λ p, 0 ≤ p ≤ Z.of_nat (length l)) (pure_positions l).
Proof.
  enough (∀ l, let st := foldl call_pure call_init l in
    0 ≤ cs_next st ≤ Z.of_nat (length l) ∧
    Forall (λ p, 0 ≤ p ≤ cs_next st) (cs_positions st) ∧
    ∀ v p, bm_get v (cs_calls st) = Some p → 0 ≤ p ≤ cs_next st) as Hinv.
  { destruct (Hinv l) as (? & Hall & _). eapply Forall_impl; [exact Hall|]. simpl. lia. }
  clear l. intros l. induction l as [|o l IH] using rev_ind; simpl; [repeat split; [done|done|constructor|done|done]|].
  rewrite foldl_app, length_app. simpl. destruct IH as (Hn & Hall & Hget).
  set (st := foldl call_pure call_init l) in *.
  assert (∀ calls next p, cs_next st ≤ next ≤ cs_next st + 1 → 0 ≤ p ≤ next →
    (∀ v q, bm_get v calls = Some q → 0 ≤ q ≤ next) →
    let st' := push_position calls next st p in
    0 ≤ cs_next st' ≤ Z.of_nat (length l + 1) ∧
    Forall (λ p, 0 ≤ p ≤ cs_next st') (cs_positions st') ∧
    ∀ v p, bm_get v (cs_calls st') = Some p → 0 ≤ p ≤ cs_next st') as Hpush.
  { intros calls next p Hnx Hp Hc. simpl. split_and!; [lia|lia| |done].
    apply Forall_app. split; [|by apply Forall_singleton].
    eapply Forall_impl; [exact Hall|]. simpl. lia. }
  assert (∀ v q, bm_get v (cs_calls st) = Some q → 0 ≤ q ≤ cs_next st + 1) as Hget'.
  { intros v q Hq%Hget. lia. }
  unfold call_pure. destruct (kind o); try (apply Hpush; [lia|lia|done]).
  destruct (call_id o) as [id|].
  - destruct (bm_get (ci_value id) (cs_calls st)) as [p|] eqn:Hp.
    + apply Hpush; [lia|by eapply Hget|done].
    + apply Hpush; [lia|lia|]. intros v q. destruct (decide (v = ci_value id)) as [->|Hne].
      * rewrite bm_get_insert_eq. intros [= <-]. lia.
      * rewrite bm_get_insert_ne by done. apply Hget'.
  - destruct (bool_decide _); apply Hpush; unfold saturating_sub; try lia; done.
Qed.

End position_facts.

(** Tool-call positions.  Calls are numbered from zero in order of their
    first record; records of the same call id share its position; a result
    without an id belongs to the last call; anything else takes the position of
    the next call.  The only failure is running out of work. *)
Theorem call_positions_correct bounds observations st :
  sb_work bounds < u64_max → 0 ≤ work_left bounds st →
  match call_positions bounds observations st with
  | (_, Ok positions) => positions_ok observations positions
  | (_, Err e) => e = Bounds ∧ work_left bounds st < total call_cost observations
  end.
Proof.
  intros Hsmall Hst. pose proof (call_positions_metered bounds observations Hsmall st Hst) as Hm.
  destruct (call_positions bounds observations st) as [st' [ps|e]]; [|done].
  destruct Hm as [-> _]. apply (ci_ok _ _ (call_inv_all observations)).
Qed.

(** ** Session steps *)

(** Rule [id] matched the observation at [index]. *)
Definition occurs (occurrences : list (string * list Z)) (id : string) (index : Z) : Prop :=
  ∃ indexes, (id, indexes) ∈ occurrences ∧ index ∈ indexes.

Definition flat_occurrences (occurrences : list (string * list Z)) : list (string * Z) :=
  concat (map (λ oc : string * list Z, map (pair oc.1) oc.2) occurrences).

Lemma flat_occurs occurrences id index :
  (id, index) ∈ flat_occurrences occurrences ↔ occurs occurrences id index.
Proof.
  unfold flat_occurrences, occurs. rewrite list_elem_of_In, in_concat. split.
  - intros (l & (oc & <- & Hoc)%in_map_iff & (i & [= <- <-] & Hi)%in_map_iff).
    exists oc.2. destruct oc. by rewrite !list_elem_of_In.
  - intros (indexes & Hoc & Hi). exists (map (pair id) indexes). split.
    + apply in_map_iff. exists (id, indexes). split; [done|]. by apply list_elem_of_In.
    + apply in_map_iff. exists index. split; [done|]. by apply list_elem_of_In.
Qed.

Section steps_facts.
Context `{Rfc3339}.
Variables (bounds : SourceBounds) (export : RuleV1CompatibilityExport)
  (positions : list Z) (observations : list Observation).

(** The step an observation gets from the rules that matched it. *)
Record step_of (occurred : string → Prop) (o : Observation) (step : Step) : Prop := {
  so_time : step_time step = observation_time o;
  so_ids : ∀ id, id ∈ step_ids step ↔ occurred id;
  so_categories : ∀ c, c ∈ step_categories step ↔
    ∃ id, occurred id ∧ category_of export id = Some c;
}.

(** The steps of a session: one per matched observation, at its position. *)
Record steps_of (occurs : string → Z → Prop) (steps : Steps) : Prop := {
  sf_wf : bm_wf steps;
  sf_step : ∀ p i step, bm_get (p, i) steps = Some step →
    slice_get positions i = Some p ∧ (∃ id, occurs id i) ∧
    ∃ o, slice_get observations i = Some o ∧ step_of (λ id, occurs id i) o step;
  sf_all : ∀ id i p, occurs id i → slice_get positions i = Some p →
    is_Some (bm_get (p, i) steps);
}.

Definition fresh_step (o : Observation) : Step :=
  {| step_time := observation_time o; step_ids := []; step_categories := [] |}.

Definition add_pure (steps : Steps) (oc : string * Z) : Steps :=
  match slice_get positions oc.2, slice_get observations oc.2 with
  | Some p, Some o =>
      bm_update (p, oc.2) (fresh_step o) (step_insert oc.1 (category_of export oc.1)) steps
  | _, _ => steps
  end.

Definition in_range (index : Z) : Prop :=
  is_Some (slice_get positions index) ∧ is_Some (slice_get observations index).

Definition add_cost (index : Z) : Z :=
  1 + match slice_get observations index with
      | Some o => match occurred_at_text o with Some t => Z.max (len t) 1 | None => 0 end
      | None => 0
      end.

Lemma add_occurrence_metered id steps index :
  sb_work bounds < u64_max → in_range index →
  metered (work_left bounds)
    (add_occurrence bounds positions observations id (category_of export id) steps index)
    (add_cost index) (add_pure steps (id, index)).
Proof.
  intros Hsmall [[p Hp] [o Ho]]. unfold add_occurrence, add_cost, add_pure. simpl. rewrite Hp, Ho.
  assert (0 ≤ match occurred_at_text o with Some t => Z.max (len t) 1 | None => 0 end)
    by (destruct (occurred_at_text o); lia).
  eapply metered_bind; [done|by apply (metered_charge bounds 1)|].
  unfold bm_update. destruct (bm_get (p, index) steps) as [step|]; simpl.
  - eapply metered_weaken; [|apply metered_ret]. done.
  - unfold new_step, fresh_step, observation_time. destruct (occurred_at_text o) as [t|]; [|apply metered_ret].
    rewrite <- (Z.add_0_r (Z.max _ _)).
    eapply metered_bind; [done| |apply metered_ret]. rewrite <- (Z.add_0_r (Z.max _ _)).
    eapply metered_bind; [done|by apply metered_charge|apply metered_ret].
Qed.

Lemma add_occurrence_bad id category index :
  ¬ in_range index →
  ∀ steps s s' r, add_occurrence bounds positions observations id category steps index s ≠ (s', Ok r).
Proof.
  intros Hbad steps s s' r. unfold add_occurrence, ebind, in_range in *.
  destruct (charge bounds 1 s) as [s1 [u|e]]; [|done].
  destruct (slice_get positions index), (slice_get observations index); try done. naive_solver.
Qed.

Lemma add_occurrence_only_bounds id category steps index :
  only_bounds (add_occurrence bounds positions observations id category steps index).
Proof.
  unfold add_occurrence, new_step. apply only_bounds_bind; [apply only_bounds_charge|]. intros _.
  repeat case_match; eauto with telltale.
Qed.

Lemma step_insert_of (occ : string → Prop) id o step :
  step_of occ o step →
  step_of (λ id', occ id' ∨ id' = id) o (step_insert id (category_of export id) step).
Proof.
  intros [Htime Hids Hcats]. split; simpl; [done|..].
  - intros id'. rewrite bs_insert_elem, Hids. tauto.
  - intros c. rewrite bs_extend_elem, Hcats. destruct (category_of export id) eqn:Hc; simpl;
      rewrite ?list_elem_of_singleton, ?elem_of_nil; naive_solver.
Qed.

Lemma step_of_iff (occ occ' : string → Prop) o step :
  (∀ id, occ id ↔ occ' id) → step_of occ o step → step_of occ' o step.
Proof.
  intros Heq [Ht Hi Hc]. split; [done|..].
  - intros id. by rewrite Hi, Heq.
  - intros c. rewrite Hc. by setoid_rewrite Heq.
Qed.

Lemma fresh_step_of o : step_of (λ _, False) o (fresh_step o).
Proof.
  split; simpl; [done|..].
  - intros id. split; [intros H'; by apply elem_of_nil in H'|done].
  - intros c. split; [intros H'; by apply elem_of_nil in H'|naive_solver].
Qed.

Lemma add_pure_steps pre oc steps :
  in_range oc.2 → steps_of (λ id i, (id, i) ∈ pre) steps →
  steps_of (λ id i, (id, i) ∈ pre ++ [oc]) (add_pure steps oc).
Proof.
  destruct oc as [id i]. intros [[p Hp] [o Ho]] [Hwf Hstep Hall]. unfold add_pure, bm_update.
  simpl in *. rewrite Hp, Ho.
  assert (∀ id' i', (id', i') ∈ pre ++ [(id, i)] ↔ (id', i') ∈ pre ∨ (id' = id ∧ i' = i)) as Hin.
  { intros. rewrite elem_of_app, list_elem_of_singleton. naive_solver. }
  split.
  - by apply bm_insert_wf.
  - intros p' i' step. destruct (decide ((p', i') = (p, i))) as [[= -> ->]|Hne].
    + rewrite bm_get_insert_eq. intros [= <-]. split_and!; [done|exists id; apply Hin; naive_solver|].
      exists o. split; [done|]. apply step_of_iff with (λ id', (id', i) ∈ pre ∨ id' = id);
        [intros; rewrite Hin; naive_solver|]. apply step_insert_of.
      destruct (bm_get (p, i) steps) as [old|] eqn:Hold; simpl.
      * apply Hstep in Hold as (_ & _ & o' & Ho' & Hof). by simplify_eq.
      * eapply step_of_iff; [|apply fresh_step_of]. intros id'. split; [done|]. intros Hocc.
        destruct (Hall _ _ _ Hocc Hp) as [? Hsome]. congruence.
    + rewrite bm_get_insert_ne by done. intros (Hpos & [id' Hid'] & o' & Ho' & Hof)%Hstep.
      assert (i' ≠ i) by naive_solver.
      split_and!; [done|exists id'; apply Hin; naive_solver|]. exists o'. split; [done|].
      eapply step_of_iff; [|exact Hof]. intros. rewrite Hin. naive_solver.
  - intros id' i' p' [Hocc|[-> ->]]%Hin Hp'.
    + destruct (decide ((p', i') = (p, i))) as [[= -> ->]|Hne];
        [rewrite bm_get_insert_eq; eauto|rewrite bm_get_insert_ne by done; by eapply Hall].
    + simplify_eq. rewrite bm_get_insert_eq. eauto.
Qed.

Lemma add_pure_all flat :
  Forall (λ oc : string * Z, in_range oc.2) flat →
  steps_of (λ id i, (id, i) ∈ flat) (foldl add_pure [] flat).
Proof.
  induction flat as [|oc flat IH] using rev_ind.
  - intros _. split; [constructor|done|]. intros id i p Hin. by apply elem_of_nil in Hin.
  - rewrite Forall_app, Forall_singleton. intros [Hall Hoc]. rewrite foldl_app. simpl.
    by apply add_pure_steps, IH.
Qed.

End steps_facts.

Lemma slice_get_lt {A} (l : list A) i : is_Some (slice_get l i) ↔ 0 ≤ i < Z.of_nat (length l).
Proof.
  unfold slice_get. destruct (Z.ltb_spec i 0); [split; [by intros []|lia]|].
  rewrite lookup_lt_is_Some. lia.
Qed.

Section session_facts.
Context `{Rfc3339}.
Variables (bounds : SourceBounds) (export : RuleV1CompatibilityExport)
  (observations : list Observation).
Hypothesis work_small : sb_work bounds < u64_max.

Notation positions := (pure_positions observations).
Notation valid i := (is_Some (slice_get observations i)).

Lemma positions_in_range i : valid i → in_range positions observations i.
Proof.
  intros Hi. split; [|done]. apply slice_get_lt. apply slice_get_lt in Hi.
  unfold pure_positions. by rewrite (po_length _ _ (ci_ok _ _ (call_inv_all observations))).
Qed.

Definition pure_steps (occurrences : list (string * list Z)) : Steps :=
  foldl (add_pure export positions observations) [] (flat_occurrences occurrences).

(** Work that always suffices for a session's steps. *)
Definition steps_cost (occurrences : list (string * list Z)) : Z :=
  total (λ oc : string * list Z, total (add_cost observations) oc.2) occurrences.

Lemma foldl_concat_map {A B C} (f : C → B → C) (g : A → list B) acc l :
  foldl f acc (concat (map g l)) = foldl (λ acc a, foldl f acc (g a)) acc l.
Proof.
  revert acc; induction l as [|a l IH]; intros acc; simpl; [done|]. by rewrite foldl_app, IH.
Qed.

Lemma foldl_map_pair {A B C} (f : C → A * B → C) (a : A) acc l :
  foldl f acc (map (pair a) l) = foldl (λ acc b, f acc (a, b)) acc l.
Proof. revert acc; induction l as [|b l IH]; intros acc; simpl; [done|]. by rewrite IH. Qed.

Lemma add_cost_nonneg i : 0 ≤ add_cost observations i.
Proof. unfold add_cost. repeat case_match; lia. Qed.

Lemma session_steps_metered occurrences :
  (∀ id i, occurs occurrences id i → valid i) →
  metered (work_left bounds) (session_steps bounds export occurrences observations)
    (total call_cost observations + steps_cost occurrences) (pure_steps occurrences).
Proof.
  intros Hvalid. unfold session_steps.
  eapply metered_bind; [|by apply call_positions_metered|].
  { apply total_nonneg. intros oc. apply total_nonneg, add_cost_nonneg. }
  unfold pure_steps, flat_occurrences. rewrite foldl_concat_map.
  apply metered_fold; [intros oc; apply total_nonneg, add_cost_nonneg|].
  intros steps [id indexes] Hoc. simpl. rewrite foldl_map_pair.
  apply metered_fold; [apply add_cost_nonneg|]. intros steps' i Hi.
  apply add_occurrence_metered; [done|]. apply positions_in_range, (Hvalid id).
  by exists indexes.
Qed.

Lemma pure_steps_of occurrences : (∀ id i, occurs occurrences id i → valid i) →
  steps_of export positions observations (occurs occurrences) (pure_steps occurrences).
Proof.
  intros Hvalid. destruct (add_pure_all export positions observations (flat_occurrences occurrences)) as [Hwf Hs Ha].
  { apply Forall_forall. intros [id i] Hoc. by apply positions_in_range, (Hvalid id), flat_occurs. }
  split; [done| |].
  - intros p i step (Hp & [id Hid] & o & Ho & Hof)%Hs. split_and!; [done|exists id; by apply flat_occurs|].
    exists o. split; [done|]. eapply step_of_iff; [|exact Hof]. intros. by apply flat_occurs.
  - intros id i p Hoc%flat_occurs. by apply (Ha id).
Qed.

Lemma session_steps_bad occurrences id i st st' steps :
  0 ≤ work_left bounds st → occurs occurrences id i → ¬ valid i →
  session_steps bounds export occurrences observations st ≠ (st', Ok steps).
Proof.
  intros Hst (indexes & Hoc & Hi) Hbad. unfold session_steps, ebind.
  destruct (call_positions bounds observations st) as [st1 [ps|e]]; [|done].
  eapply efold_not_ok; [exact Hoc|]. intros steps' s s' r. simpl.
  eapply efold_not_ok; [exact Hi|]. intros steps'' s1 s2 r1.
  apply add_occurrence_bad. intros [_ Hv]. done.
Qed.

Lemma session_steps_only_bounds occurrences :
  only_bounds (session_steps bounds export occurrences observations).
Proof.
  unfold session_steps, call_positions. apply only_bounds_bind.
  - apply only_bounds_bind; [|eauto with telltale]. apply only_bounds_fold. intros st o.
    unfold call_step. repeat case_match; eauto with telltale.
  - intros ps. apply only_bounds_fold. intros steps [id indexes]. apply only_bounds_fold.
    intros. apply add_occurrence_only_bounds.
Qed.

Lemma steps_of_ok (occ : string → Z → Prop) steps :
  Z.of_nat (length observations) ≤ u64_max →
  steps_of export positions observations occ steps → steps_ok steps.
Proof.
  intros Hlen [Hwf Hstep _]. split; [done|]. apply Forall_forall. intros [[p i] step] Hin.
  apply bm_get_elem, Hstep in Hin as (Hp & _ & o & Ho & _); [|done]. simpl.
  assert (valid i) as Hi%slice_get_lt by eauto.
  pose proof (pure_positions_bounded observations) as Hb. rewrite Forall_forall in Hb.
  unfold slice_get in Hp. destruct (i <? 0); [done|].
  apply list_elem_of_lookup_2, Hb in Hp. unfold u64. lia.
Qed.

End session_facts.

(** A session's steps: one per observation that some rule matched, at its
    call position, holding its time and exactly the ids and categories of the
    rules that matched it.  Building them fails exactly on an index outside the
    session or for lack of work. *)
Theorem session_steps_correct `{Rfc3339} bounds export occurrences observations st :
  sb_work bounds < u64_max → 0 ≤ work_left bounds st →
  Z.of_nat (length observations) ≤ u64_max →
  match session_steps bounds export occurrences observations st with
  | (_, Ok steps) => steps_ok steps ∧
      (∀ id i, occurs occurrences id i → is_Some (slice_get observations i)) ∧
      ∃ positions, positions_ok observations positions ∧
        steps_of export positions observations (occurs occurrences) steps
  | (_, Err e) => e = Bounds ∧
      (work_left bounds st < total call_cost observations + steps_cost observations occurrences ∨
       ∃ id i, occurs occurrences id i ∧ slice_get observations i = None)
  end.
Proof.
  intros Hsmall Hst Hlen.
  destruct (decide (Forall (λ oc : string * Z, is_Some (slice_get observations oc.2))
    (flat_occurrences occurrences))) as [Hall|Hbad].
  - assert (∀ id i, occurs occurrences id i → is_Some (slice_get observations i)) as Hvalid.
    { intros id i Hoc%flat_occurs. rewrite Forall_forall in Hall. exact (Hall _ Hoc). }
    pose proof (session_steps_metered bounds export observations Hsmall occurrences Hvalid st Hst) as Hm.
    destruct (session_steps _ _ _ _ st) as [st' [steps|e]]; [|destruct Hm; auto].
    destruct Hm as [-> _].
    pose proof (pure_steps_of export observations occurrences Hvalid) as Hsteps.
    split_and!; [by eapply steps_of_ok|done|]. exists (pure_positions observations).
    split; [|done]. apply (ci_ok _ _ (call_inv_all observations)).
  - apply not_Forall_Exists, Exists_exists in Hbad as ([id i] & Hoc%flat_occurs & Hi); [|typeclasses eauto].
    destruct (session_steps _ _ _ _ st) as [st' [steps|e]] eqn:Hrun.
    + by apply (session_steps_bad _ _ _ _ id i) in Hrun.
    + split; [by eapply session_steps_only_bounds|]. right. exists id, i. split; [done|].
      by apply eq_None_not_Some.
Qed.

(** ** A small session *)

Definition clock : Rfc3339 := λ text,
  if String.eqb text "2026-01-01T00:00:00Z" then Some 0
  else if String.eqb text "2026-01-01T00:01:00Z" then Some (60 * 10 ^ 9) else None.

Definition record_of (k : ObservationFamily) (s : ObservationStage) (id time : option string)
    : Observation :=
  {| observation_id := "o"; kind := k; stage := s; occurred_at_text := time;
     sequence := None; source_sequence := None; child_ordinal := 0; session_id := None;
     call_id := (λ v, {| ci_origin := SourceReported; ci_value := v |}) <$> id |}.

(** A call with its result, a message in between, then a second call. *)
Definition small_session : list Observation :=
  [record_of FTool ToolRequested (Some "a") (Some "2026-01-01T00:00:00Z");
   record_of FMessage MessageObserved None None;
   record_of FTool ToolResultReturned (Some "a") None;
   record_of FTool ToolRequested (Some "b") (Some "2026-01-01T00:01:00Z");
   record_of FTool ToolResultReturned None None].

Definition small_rule (id category : string) : RuleV1CompatibilityRule :=
  {| rcr_id := id; rcr_title := None; rcr_description := None; rcr_category := category;
     rcr_detection_class := ""; rcr_signal_type := ""; rcr_analytic_intent := "";
     rcr_atlas_tags := []; rcr_severity := ""; rcr_score := 1; rcr_tags := [];
     rcr_explanation := ""; rcr_falsepositives := []; rcr_matchers := [] |}.

Definition small_export : RuleV1CompatibilityExport :=
  {| re_policy_name := None; re_rules := [small_rule "read" "access"; small_rule "send" "egress"];
     re_modifiers := [] |}.

Definition small_occurrences : list (string * list Z) := [("read", [0; 2]); ("send", [3])].

Definition small_modifier : RuleV1CompatibilityModifier :=
  {| rmo_id := "m"; rmo_score := 1; rmo_detection_class := ""; rmo_signal_type := "";
     rmo_analytic_intent := ""; rmo_atlas_tags := []; rmo_when_all_categories := ["access"];
     rmo_when_all_rule_ids := ["send"]; rmo_link := None; rmo_falsepositives := [];
     rmo_explanation := "" |}.

Definition small_link (order : ModifierLinkOrder) : ModifierLink :=
  {| link_calls := 1; link_order := order; link_minutes := Some 1 |}.

Definition small_steps : Steps :=
  match session_steps (bounds_of FLOOR) small_export small_occurrences small_session
          (new_budget 0) (H := clock) with
  | (_, Ok steps) => steps
  | (_, Err _) => []
  end.

Lemma call_positions_correct_witness :
  positions_ok small_session [0; 1; 0; 1; 1].
Proof.
  pose proof (call_positions_correct (bounds_of FLOOR) small_session (new_budget 0)
    ltac:(vm_compute; reflexivity) ltac:(vm_compute; discriminate)) as Hp.
  vm_compute (call_positions _ _ _) in Hp. exact Hp.
Defined.

Lemma session_steps_correct_witness :
  bm_keys small_steps = [(0, 0); (0, 2); (1, 3)] ∧
  steps_ok small_steps ∧
  ∃ positions, positions_ok small_session positions ∧
    steps_of (H := clock) small_export positions small_session (occurs small_occurrences) small_steps.
Proof.
  split; [vm_compute; reflexivity|].
  pose proof (session_steps_correct (H := clock) (bounds_of FLOOR) small_export small_occurrences
    small_session (new_budget 0)
    ltac:(vm_compute; reflexivity) ltac:(vm_compute; discriminate) ltac:(vm_compute; discriminate)) as Hs.
  unfold small_steps. destruct (session_steps _ _ _ _ _) as [st' [steps|e]] eqn:Hrun;
    [by destruct Hs as (? & _ & ?)|].
  exfalso. vm_compute in Hrun. discriminate.
Defined.

Lemma small_steps_ok : steps_ok small_steps.
Proof.
  split; [unfold bm_wf; vm_compute (small_steps.*1); repeat constructor|].
  unfold u64. refine (bool_decide_unpack _ _). vm_compute. exact I.
Qed.

Lemma support_correct_witness :
  (support small_modifier (small_link AnyOrder) small_steps (1, 3) (λ _, true) 100).2
    = Ok (Some [2; 3]) ∧
  ∃ chosen, completes small_modifier (small_link AnyOrder) small_steps (1, 3) (λ _, true) chosen ∧
    [2; 3] = map snd chosen.
Proof.
  split; [vm_compute; reflexivity|].
  pose proof (support_correct small_modifier (small_link AnyOrder) small_steps (1, 3) (λ _, true) 100
    small_steps_ok ltac:(simpl; lia) ltac:(lia)) as Hs.
  destruct (support _ _ _ _ _ _) as [s' r] eqn:Hrun. vm_compute in Hrun. injection Hrun as <- <-.
  exact Hs.
Defined.

Lemma linked_in_session_correct_witness :
  linked_in_session small_modifier (small_link DeclaredOrder) small_steps = Ok true ∧
  ∃ end_key chosen,
    completes small_modifier (small_link DeclaredOrder) small_steps end_key (λ _, true) chosen.
Proof.
  split; [vm_compute; reflexivity|].
  pose proof (linked_in_session_correct small_modifier (small_link DeclaredOrder) small_steps
    small_steps_ok ltac:(simpl; lia) 
    ltac:(refine (bool_decide_unpack _ _); vm_compute; exact I)) as Hs.
  destruct (linked_in_session _ _ _) as [b|e] eqn:Hrun; vm_compute in Hrun; [|discriminate].
  injection Hrun as <-. by apply Hs.
Defined.
