(* ===== verification/Json.v ===== *)
(** * JSON values and their numeric order

    crates/telltale-schema/src/observation/value.rs ([JsonValue] and its encoded
    size), and the comparison of values in
    crates/telltale-detect/src/v2/matcher.rs.

    An [f64] is a [spec_float] of precision 53 and maximal exponent 1024; a valid
    one is in the canonical form of IEEE 754 binary64.  A [BTreeMap] object is its
    list of members in key order. *)

From S2P Require Import Prelude Ordered Rstr.
From Stdlib Require Import SpecFloat Ascii.

Local Open Scope Z_scope.

Inductive JsonValue :=
| JNull
| JBool (b : bool)
| JInteger (z : Z)
| JUnsigned (n : Z)
| JNumber (f : spec_float)
| JString (s : string)
| JArray (items : list JsonValue)
| JObject (members : list (string * JsonValue)).

Inductive NonEvaluationReason :=
| RequiredCapabilityUnsupported
| RequiredCapabilityUnknown
| InsufficientVisibility
| MissingOrderingField
| MissingCorrelationKey
| TypeMismatch
| IneligibleInput.

#[export] Instance NonEvaluationReason_eq_dec : EqDecision NonEvaluationReason.
Proof. solve_decision. Defined.

(** The derived order: declaration order. *)
Definition reason_rank (r : NonEvaluationReason) : Z :=
  match r with
  | RequiredCapabilityUnsupported => 0
  | RequiredCapabilityUnknown => 1
  | InsufficientVisibility => 2
  | MissingOrderingField => 3
  | MissingCorrelationKey => 4
  | TypeMismatch => 5
  | IneligibleInput => 6
  end.

(** ** [f64] *)

Definition f64_of_int (z : Z) : spec_float := binary_normalize 53 1024 z 0 false.

Definition f64_is_finite (f : spec_float) : bool :=
  match f with S754_zero _ | S754_finite _ _ _ => true | _ => false end.

Definition i128_clamp (z : Z) : Z := Z.max (- 2 ^ 127) (Z.min z (2 ^ 127 - 1)).

(** [f as i128]: towards zero, saturating, NaN to zero. *)
Definition f64_to_i128 (f : spec_float) : Z :=
  match f with
  | S754_zero _ | S754_nan => 0
  | S754_infinity s => if s then - 2 ^ 127 else 2 ^ 127 - 1
  | S754_finite s m e =>
      i128_clamp (cond_Zopp s (if 0 <=? e then Z.pos m * 2 ^ e else Z.pos m / 2 ^ (- e)))
  end.

Definition f64_valid (f : spec_float) : bool := valid_binary 53 1024 f.

(** ** Encoded size *)

(** The text of a finite float, as the JSON library writes it. *)
Class FloatText : Type := float_text_len : spec_float → Z.

(** Decimal digits of [n > 0], with fuel for the 64-bit range. *)
Fixpoint decimal_len_fuel (fuel : nat) (n : Z) : Z :=
  match fuel with
  | O => 0
  | S fuel' => if n <? 10 then 1 else 1 + decimal_len_fuel fuel' (n / 10)
  end.

Definition encoded_number_len (z : Z) : Z :=
  if z <? 0 then 1 + decimal_len_fuel 20 (- z) else decimal_len_fuel 20 z.

Definition escaped_char_bytes (c : ascii) : Z :=
  let code := Z.of_N (N_of_ascii c) in
  if (code =? 34) || (code =? 92) then 2
  else if (code =? 8) || (code =? 12) || (code =? 10) || (code =? 13) || (code =? 9) then 2
  else if code <=? 31 then 6
  else 1.

Fixpoint escaped_bytes (s : string) : Z :=
  match s with
  | EmptyString => 0
  | String c s' => escaped_char_bytes c + escaped_bytes s'
  end.

(** [len_utf8] of a character is the number of its bytes, none of them special. *)
Definition escaped_string_bytes (value : string) : Z := 2 + escaped_bytes value.

Section encoded.
Context `{FloatText}.

(** [None] is an error: a non-finite number, or a size beyond [usize]. *)
Fixpoint encoded_byte_len (v : JsonValue) : option Z :=
  match v with
  | JNull => Some 4
  | JBool b => Some (if b then 4 else 5)
  | JInteger z => Some (encoded_number_len z)
  | JUnsigned n => Some (encoded_number_len n)
  | JNumber f => if f64_is_finite f then Some (float_text_len f) else None
  | JString s => Some (escaped_string_bytes s)
  | JArray items =>
      (fix go (first : bool) (total : Z) (items : list JsonValue) : option Z :=
         match items with
         | [] => Some total
         | item :: items' =>
             match encoded_byte_len item with
             | None => None
             | Some n =>
                 match checked_add total (n + if first then 0 else 1) with
                 | None => None
                 | Some total' => go false total' items'
                 end
             end
         end) true 2 items
  | JObject members =>
      (fix go (first : bool) (total : Z) (members : list (string * JsonValue)) : option Z :=
         match members with
         | [] => Some total
         | (key, item) :: members' =>
             match encoded_byte_len item with
             | None => None
             | Some n =>
                 match checked_add total
                         (escaped_string_bytes key + 1 + n + if first then 0 else 1) with
                 | None => None
                 | Some total' => go false total' members'
                 end
             end
         end) true 2 members
  end.

End encoded.

(** ** Equality *)

(** The derived [PartialEq]: variants differ, floats compare as numbers. *)
Fixpoint json_eqb (a b : JsonValue) : bool :=
  match a, b with
  | JNull, JNull => true
  | JBool x, JBool y => Bool.eqb x y
  | JInteger x, JInteger y => x =? y
  | JUnsigned x, JUnsigned y => x =? y
  | JNumber x, JNumber y => SFeqb x y
  | JString x, JString y => String.eqb x y
  | JArray xs, JArray ys =>
      (fix go (xs ys : list JsonValue) : bool :=
         match xs, ys with
         | [], [] => true
         | x :: xs', y :: ys' => json_eqb x y && go xs' ys'
         | _, _ => false
         end) xs ys
  | JObject xs, JObject ys =>
      (fix go (xs ys : list (string * JsonValue)) : bool :=
         match xs, ys with
         | [], [] => true
         | (k, x) :: xs', (l, y) :: ys' => String.eqb k l && json_eqb x y && go xs' ys'
         | _, _ => false
         end) xs ys
  | _, _ => false
  end.

(** ** Numeric order *)

Definition ordering_or (o : option comparison) : result comparison NonEvaluationReason :=
  ok_or o TypeMismatch.

Definition signed_float_order (integer : Z) (float : spec_float)
    : result comparison NonEvaluationReason :=
  if negb (f64_is_finite float) then Err TypeMismatch
  else
    let integer_as_float := f64_of_int integer in
    if negb (f64_to_i128 integer_as_float =? integer) then Err TypeMismatch
    else ordering_or (SFcompare integer_as_float float).

(** The same function at [u64]. *)
Definition unsigned_float_order (integer : Z) (float : spec_float)
    : result comparison NonEvaluationReason :=
  if negb (f64_is_finite float) then Err TypeMismatch
  else
    let integer_as_float := f64_of_int integer in
    if negb (f64_to_i128 integer_as_float =? integer) then Err TypeMismatch
    else ordering_or (SFcompare integer_as_float float).

Definition numeric_order (actual expected : JsonValue)
    : result comparison NonEvaluationReason :=
  match actual, expected with
  | JInteger l, JInteger r => Ok (l ?= r)
  | JUnsigned l, JUnsigned r => Ok (l ?= r)
  | JInteger l, JUnsigned r => if l <? 0 then Ok Lt else Ok (l ?= r)
  | JUnsigned l, JInteger r => if r <? 0 then Ok Gt else Ok (l ?= r)
  | JNumber l, JNumber r =>
      if f64_is_finite l && f64_is_finite r then ordering_or (SFcompare l r)
      else Err TypeMismatch
  | JInteger l, JNumber r => signed_float_order l r
  | JUnsigned l, JNumber r => unsigned_float_order l r
  | JNumber l, JInteger r => result_map CompOpp (signed_float_order r l)
  | JNumber l, JUnsigned r => result_map CompOpp (unsigned_float_order r l)
  | _, _ => Err TypeMismatch
  end.

Definition is_numeric (value : JsonValue) : bool :=
  match value with
  | JInteger _ | JUnsigned _ => true
  | JNumber f => f64_is_finite f
  | _ => false
  end.

Definition compatible_equals (actual expected : JsonValue)
    : result bool NonEvaluationReason :=
  match actual, expected with
  | JString l, JString r => Ok (String.eqb l r)
  | JBool l, JBool r => Ok (Bool.eqb l r)
  | l, r =>
      if is_numeric l && is_numeric r
      then result_map (λ o, match o with Eq => true | _ => false end) (numeric_order l r)
      else match l, r with
           | JNull, JNull => Ok true
           | JArray _, JArray _ | JObject _, JObject _ => Ok (json_eqb l r)
           | _, _ => Err TypeMismatch
           end
  end.

Definition string_pair (actual expected : JsonValue)
    : result (string * string) NonEvaluationReason :=
  match actual, expected with
  | JString a, JString e => Ok (a, e)
  | _, _ => Err TypeMismatch
  end.

(** ** Exact values *)

(** A finite number as mantissa and binary exponent. *)
Definition exact (v : JsonValue) : option (Z * Z) :=
  match v with
  | JInteger z | JUnsigned z => Some (z, 0)
  | JNumber (S754_zero _) => Some (0, 0)
  | JNumber (S754_finite s m e) => Some (cond_Zopp s (Z.pos m), e)
  | _ => None
  end.

(** [m1 * 2^e1] against [m2 * 2^e2], scaled to the smaller exponent. *)
Definition dyadic_compare (x y : Z * Z) : comparison :=
  let e := Z.min x.2 y.2 in
  x.1 * 2 ^ (x.2 - e) ?= y.1 * 2 ^ (y.2 - e).

Section dyadic.

Lemma dyadic_scale m1 e1 m2 e2 e :
  e ≤ e1 → e ≤ e2 → dyadic_compare (m1, e1) (m2, e2) = (m1 * 2 ^ (e1 - e) ?= m2 * 2 ^ (e2 - e)).
Proof.
  intros H1 H2. unfold dyadic_compare. simpl. set (k := Z.min e1 e2).
  assert (0 < 2 ^ (k - e)) by (apply Z.pow_pos_nonneg; lia).
  replace (e1 - e) with ((e1 - k) + (k - e)) by lia.
  replace (e2 - e) with ((e2 - k) + (k - e)) by lia.
  rewrite !Z.pow_add_r by lia. rewrite !Z.mul_assoc.
  set (p := 2 ^ (k - e)) in *. set (x := m1 * _). set (y := m2 * _).
  destruct (Z.compare_spec x y) as [->|?|?]; symmetry;
    [apply Z.compare_refl|apply Z.compare_lt_iff; nia|apply Z.compare_gt_iff; nia].
Qed.

Lemma dyadic_opp m1 e1 m2 e2 :
  dyadic_compare (- m1, e1) (- m2, e2) = CompOpp (dyadic_compare (m1, e1) (m2, e2)).
Proof. unfold dyadic_compare. simpl. rewrite !Z.mul_opp_l, Z.compare_opp. apply Z.compare_antisym. Qed.

Lemma dyadic_antisym x y : dyadic_compare y x = CompOpp (dyadic_compare x y).
Proof. unfold dyadic_compare. rewrite Z.min_comm. apply Z.compare_antisym. Qed.

Lemma digits2_bounds p : 2 ^ (Z.pos (digits2_pos p) - 1) ≤ Z.pos p < 2 ^ Z.pos (digits2_pos p).
Proof.
  induction p as [p IH|p IH|]; simpl digits2_pos; [| |done];
    rewrite Pos2Z.inj_succ; rewrite Z.sub_1_r, Z.pred_succ;
    (rewrite Z.pow_succ_r by lia);
    replace (2 ^ Z.pos (digits2_pos p)) with (2 * 2 ^ (Z.pos (digits2_pos p) - 1)) in *
      by (rewrite <- Z.pow_succ_r by lia; f_equal; lia); lia.
Qed.

Lemma digits2_unique p d : 2 ^ (d - 1) ≤ Z.pos p < 2 ^ d → Z.pos (digits2_pos p) = d.
Proof.
  intros [Hlo Hhi]. pose proof (digits2_bounds p) as [Hl Hh].
  assert (0 < d) by (destruct (Z.le_gt_cases d 0) as [Hd|]; [|done];
    destruct (Z.eq_dec d 0) as [->|]; [simpl in Hhi; lia|rewrite Z.pow_neg_r in Hhi by lia; lia]).
  assert (d - 1 < Z.pos (digits2_pos p)) by (apply (Z.pow_lt_mono_r_iff 2); lia).
  assert (Z.pos (digits2_pos p) - 1 < d) by (apply (Z.pow_lt_mono_r_iff 2); lia). lia.
Qed.

(** A canonical mantissa is full unless the exponent is the smallest. *)
Lemma bounded_mantissa m e :
  bounded 53 1024 m e = true →
  -1074 ≤ e ∧ Z.pos m < 2 ^ 53 ∧ (-1074 < e → 2 ^ 52 ≤ Z.pos m).
Proof.
  unfold bounded, canonical_mantissa, fexp, emin. rewrite andb_true_iff, Z.eqb_eq, Z.leb_le.
  intros [He _]. pose proof (digits2_bounds m) as [Hl Hh].
  assert (Z.pos (digits2_pos m) ≤ 53) by lia.
  assert (2 ^ Z.pos (digits2_pos m) ≤ 2 ^ 53) by (apply Z.pow_le_mono_r; lia).
  split_and!; [lia|lia|]. intros Hgt.
  assert (Z.pos (digits2_pos m) = 53) as Hd by lia. rewrite Hd in Hl. exact Hl.
Qed.

Lemma finite_compare m1 e1 m2 e2 :
  bounded 53 1024 m1 e1 = true → bounded 53 1024 m2 e2 = true →
  match e1 ?= e2 with Eq => Pos.compare_cont Eq m1 m2 | Lt => Lt | Gt => Gt end =
  dyadic_compare (Z.pos m1, e1) (Z.pos m2, e2).
Proof.
  assert (∀ m1 e1 m2 e2, bounded 53 1024 m1 e1 = true → bounded 53 1024 m2 e2 = true →
    e1 < e2 → dyadic_compare (Z.pos m1, e1) (Z.pos m2, e2) = Lt) as Hlt.
  { clear. intros m1 e1 m2 e2 (H1 & Hm1 & _)%bounded_mantissa (_ & _ & Hm2)%bounded_mantissa Hlt.
    specialize (Hm2 ltac:(lia)). rewrite (dyadic_scale _ _ _ _ e1) by lia.
    rewrite Z.sub_diag, Z.mul_1_r. apply Z.compare_lt_iff.
    assert (2 ^ 1 ≤ 2 ^ (e2 - e1)) by (apply Z.pow_le_mono_r; lia).
    assert (2 ^ 53 = 2 ^ 52 * 2 ^ 1) as Hp by reflexivity. nia. }
  intros H1 H2. destruct (Z.compare_spec e1 e2) as [<-|He|He].
  - rewrite (dyadic_scale _ _ _ _ e1) by lia. by rewrite Z.sub_diag, !Z.mul_1_r.
  - by rewrite Hlt.
  - by rewrite dyadic_antisym, Hlt.
Qed.

Lemma SFcompare_exact f g x y :
  f64_valid f = true → f64_valid g = true →
  exact (JNumber f) = Some x → exact (JNumber g) = Some y →
  SFcompare f g = Some (dyadic_compare x y).
Proof.
  assert (∀ m e, 0 < Z.pos m * 2 ^ (e - Z.min 0 e)) as Hpos.
  { intros. assert (0 < 2 ^ (e - Z.min 0 e)) by (apply Z.pow_pos_nonneg; lia). lia. }
  destruct f as [s|s| |s m e], g as [t|t| |t n d]; simpl; try done; intros Hf Hg [= <-] [= <-].
  - done.
  - f_equal. rewrite (dyadic_scale _ _ _ _ (Z.min 0 d)) by lia. rewrite Z.mul_0_l.
    specialize (Hpos n d). destruct t; cbn [cond_Zopp]; symmetry;
      [apply Z.compare_gt_iff; lia|apply Z.compare_lt_iff; lia].
  - f_equal. rewrite (dyadic_scale _ _ _ _ (Z.min 0 e)) by lia. rewrite Z.mul_0_l.
    specialize (Hpos m e). destruct s; cbn [cond_Zopp]; symmetry;
      [apply Z.compare_lt_iff; lia|apply Z.compare_gt_iff; lia].
  - f_equal. pose proof (finite_compare m e n d Hf Hg) as Hc.
    assert (0 < 2 ^ (e - Z.min e d)) by (apply Z.pow_pos_nonneg; lia).
    assert (0 < 2 ^ (d - Z.min e d)) by (apply Z.pow_pos_nonneg; lia).
    destruct s, t; simpl.
    + change (Z.neg m) with (- Z.pos m). change (Z.neg n) with (- Z.pos n).
      rewrite dyadic_opp, <- Hc. by destruct (e ?= d).
    + unfold dyadic_compare; simpl. symmetry. apply Z.compare_lt_iff. nia.
    + unfold dyadic_compare; simpl. symmetry. apply Z.compare_gt_iff. nia.
    + done.
Qed.

End dyadic.

(** ** Integers as floats *)

Section conversion.

Lemma iter_double p m : Z.pos (Pos.iter xO m p) = Z.pos m * 2 ^ Z.pos p.
Proof.
  induction p as [|p IH] using Pos.peano_ind; [simpl; lia|].
  rewrite Pos.iter_succ, Pos2Z.inj_xO, IH, Pos2Z.inj_succ, Z.pow_succ_r by lia. lia.
Qed.

Lemma shr_1_half mrs : 0 ≤ shr_m mrs → shr_m (shr_1 mrs) = shr_m mrs / 2.
Proof.
  destruct mrs as [m r s]. simpl. destruct m as [|[p|p|]|p]; simpl; intros; try done; try lia.
  - rewrite (Pos2Z.inj_xI p), Z.mul_comm, Z.div_add_l by lia. change (1 / 2) with 0. lia.
  - rewrite (Pos2Z.inj_xO p), Z.mul_comm, Z.div_mul by lia. done.
Qed.

Lemma shr_iter p mrs :
  0 ≤ shr_m mrs → shr_m (SpecFloat.iter_pos shr_1 p mrs) = shr_m mrs / 2 ^ Z.pos p.
Proof.
  assert (∀ n, 0 < 2 ^ Z.pos n) as Hpow by (intros; apply Z.pow_pos_nonneg; lia).
  revert mrs; induction p as [p IH|p IH|]; intros mrs Hpos; simpl SpecFloat.iter_pos;
    [| |by apply shr_1_half]; specialize (Hpow p).
  - assert (0 ≤ shr_m (shr_1 mrs)) by (rewrite shr_1_half by done; apply Z.div_pos; lia).
    assert (0 ≤ shr_m (SpecFloat.iter_pos shr_1 p (shr_1 mrs)))
      by (rewrite IH by done; apply Z.div_pos; lia).
    rewrite !IH, shr_1_half, !Z.div_div by (done || lia).
    f_equal. rewrite Pos2Z.inj_xI. replace (2 * Z.pos p + 1) with (1 + (Z.pos p + Z.pos p)) by lia.
    rewrite !Z.pow_add_r by lia. change (2 ^ 1) with 2. ring.
  - assert (0 ≤ shr_m (SpecFloat.iter_pos shr_1 p mrs))
      by (rewrite IH by done; apply Z.div_pos; lia).
    rewrite !IH, !Z.div_div by (done || lia).
    f_equal. rewrite (Pos2Z.inj_xO p). replace (2 * Z.pos p) with (Z.pos p + Z.pos p) by lia.
    by rewrite Z.pow_add_r by lia.
Qed.

Lemma Zdigits2_full m : 2 ^ 52 ≤ m < 2 ^ 53 → Zdigits2 m = 53.
Proof. intros Hm. destruct m as [|p|p]; [lia| |lia]. simpl. apply digits2_unique. lia. Qed.

Lemma shr_fexp_full m e :
  2 ^ 52 ≤ m < 2 ^ 53 → -1074 ≤ e →
  shr_fexp 53 1024 m e loc_Exact = ({| shr_m := m; shr_r := false; shr_s := false |}, e).
Proof.
  intros Hm He. unfold shr_fexp, fexp, emin. rewrite Zdigits2_full by done.
  replace (_ - e) with 0 by lia. done.
Qed.

Lemma full_bounded m e :
  2 ^ 52 ≤ Z.pos m < 2 ^ 53 → -1074 ≤ e ≤ 971 → bounded 53 1024 m e = true.
Proof.
  intros Hm He. pose proof (Zdigits2_full _ Hm) as Hd. simpl in Hd.
  unfold bounded, canonical_mantissa, fexp, emin. rewrite Hd.
  apply andb_true_iff. rewrite Z.eqb_eq, Z.leb_le. lia.
Qed.

(** Rounding a full mantissa keeps it full, perhaps one exponent up. *)
Lemma round_full sx m e l :
  2 ^ 52 ≤ m < 2 ^ 53 → 0 ≤ e ≤ 900 →
  ∃ m' e',
    (let '(mrs, e'') := shr_fexp 53 1024 (round_nearest_even m l) e loc_Exact in
     match shr_m mrs with
     | Z0 => S754_zero sx
     | Z.pos m => if e'' <=? 1024 - 53 then S754_finite sx m e'' else S754_infinity sx
     | Z.neg _ => S754_nan
     end) = S754_finite sx m' e' ∧
    bounded 53 1024 m' e' = true ∧ 0 ≤ e'.
Proof.
  intros Hm He. set (r := round_nearest_even m l).
  assert (r = m ∨ r = m + 1) as Hr
    by (unfold r, round_nearest_even; destruct l as [|[]]; auto; destruct (Z.even m); auto).
  destruct (Z.eq_dec r (2 ^ 53)) as [Hfull|Hne].
  - rewrite Hfull. exists (2 ^ 52)%positive, (e + 1).
    unfold shr_fexp, fexp, emin. replace (Zdigits2 (2 ^ 53)) with 54 by reflexivity.
    replace (_ - e) with 1 by lia. simpl shr. cbn [shr_m shr_1 Pos.iter].
    destruct (Z.leb_spec (e + 1) (1024 - 53)); [|lia]. split_and!; [done| |lia].
    apply full_bounded; lia.
  - assert (2 ^ 52 ≤ r < 2 ^ 53) as Hrb by lia. rewrite shr_fexp_full by lia. cbn [shr_m].
    destruct r as [|p|p]; [lia| |lia]. exists p, e.
    destruct (Z.leb_spec e (1024 - 53)); [|lia]. split_and!; [done| |lia]. apply full_bounded; lia.
Qed.

Lemma binary_round_small sx p :
  Z.pos p < 2 ^ 53 →
  ∃ m e, binary_round 53 1024 sx p 0 = S754_finite sx m e ∧ bounded 53 1024 m e = true ∧
    -1074 ≤ e ≤ 0 ∧ Z.pos m = Z.pos p * 2 ^ (- e).
Proof.
  intros Hp. pose proof (digits2_bounds p) as [Hl Hh]. set (d := Z.pos (digits2_pos p)) in *.
  assert (d ≤ 53) as Hd.
  { assert (d - 1 < 53); [|lia]. apply (Z.pow_lt_mono_r_iff 2); lia. }
  assert (0 < d) by (unfold d; lia).
  assert (∃ m, shl_align p 0 (fexp 53 1024 (d + 0)) = (m, d - 53) ∧ Z.pos m = Z.pos p * 2 ^ (53 - d))
    as (m & Halign & Hm).
  { unfold shl_align, fexp, emin. replace (Z.max _ _ - 0) with (d - 53) by lia.
    replace (Z.max _ _) with (d - 53) by lia.
    destruct (d - 53) as [|k|k] eqn:Hk; [|lia|].
    - exists p. split; [done|]. replace (53 - d) with 0 by lia. lia.
    - exists (Pos.iter xO p k). split; [done|]. rewrite iter_double. do 2 f_equal. lia. }
  assert (2 ^ 52 ≤ Z.pos m < 2 ^ 53) as Hfull.
  { rewrite Hm. assert (0 < 2 ^ (53 - d)) by (apply Z.pow_pos_nonneg; lia).
    replace 52 with ((d - 1) + (53 - d)) by lia. rewrite (Z.pow_add_r 2 (d - 1)) by lia.
    replace (2 ^ 53) with (2 ^ d * 2 ^ (53 - d)) by (rewrite <- Z.pow_add_r by lia; f_equal; lia).
    nia. }
  exists m, (d - 53). unfold binary_round. fold d. rewrite Halign. unfold binary_round_aux.
  rewrite shr_fexp_full by lia. simpl round_nearest_even. rewrite shr_fexp_full by lia. simpl shr_m.
  destruct (Z.leb_spec (d - 53) (1024 - 53)); [|lia]. split_and!; [done| |lia|lia|].
  - apply full_bounded; lia.
  - rewrite Hm. do 2 f_equal. lia.
Qed.

Lemma binary_round_large sx p :
  2 ^ 53 ≤ Z.pos p < 2 ^ 64 →
  ∃ m e, binary_round 53 1024 sx p 0 = S754_finite sx m e ∧ bounded 53 1024 m e = true ∧ 0 ≤ e.
Proof.
  intros [Hlo Hhi]. pose proof (digits2_bounds p) as [Hl Hh]. set (d := Z.pos (digits2_pos p)) in *.
  assert (53 < d) by (apply (Z.pow_lt_mono_r_iff 2); lia).
  assert (d - 1 < 64) by (apply (Z.pow_lt_mono_r_iff 2); lia).
  unfold binary_round. fold d. unfold shl_align, fexp, emin.
  replace (Z.max _ _ - 0) with (d - 53) by lia.
  destruct (d - 53) as [|k|k] eqn:Hk; [lia| |lia].
  unfold binary_round_aux. unfold shr_fexp at 1. simpl Zdigits2. fold d. unfold fexp, emin.
  replace (Z.max _ _ - 0) with (Z.pos k) by lia. cbn [shr shr_record_of_loc].
  pose proof (shr_iter k {| shr_m := Z.pos p; shr_r := false; shr_s := false |}) as Hq.
  cbn [shr_m] in Hq. specialize (Hq ltac:(lia)).
  apply round_full; [|lia]. rewrite Hq.
  assert (0 < 2 ^ Z.pos k) by (apply Z.pow_pos_nonneg; lia). split.
  - apply Z.div_le_lower_bound; [done|]. rewrite <- Z.pow_add_r by lia.
    replace (Z.pos k + 52) with (d - 1) by lia. done.
  - apply Z.div_lt_upper_bound; [done|]. rewrite <- Z.pow_add_r by lia.
    replace (Z.pos k + 53) with d by lia. done.
Qed.

End conversion.

Section order_facts.

Lemma dyadic_same m1 e1 m2 e2 k y :
  k ≤ e1 → k ≤ e2 → m1 * 2 ^ (e1 - k) = m2 * 2 ^ (e2 - k) →
  dyadic_compare (m1, e1) y = dyadic_compare (m2, e2) y.
Proof.
  intros H1 H2 Heq. destruct y as [n d]. set (j := Z.min k d).
  rewrite !(dyadic_scale _ _ _ _ j) by lia. f_equal.
  replace (e1 - j) with ((e1 - k) + (k - j)) by lia. replace (e2 - j) with ((e2 - k) + (k - j)) by lia.
  rewrite !Z.pow_add_r by lia. nia.
Qed.

(** A 64-bit integer as a float: valid, and exact whenever converting back
    returns the integer, which it does below [2^53]. *)
Lemma f64_of_int_exact z :
  Z.abs z < 2 ^ 64 →
  f64_valid (f64_of_int z) = true ∧
  (Z.abs z < 2 ^ 53 → f64_to_i128 (f64_of_int z) = z) ∧
  ∃ x, exact (JNumber (f64_of_int z)) = Some x ∧
    (f64_to_i128 (f64_of_int z) = z → ∀ y, dyadic_compare x y = dyadic_compare (z, 0) y).
Proof.
  intros Hz. destruct (Z.eq_dec z 0) as [->|Hnz]; [split_and!; [done|done|]; by exists (0, 0)|].
  assert (∃ sx p, f64_of_int z = binary_round 53 1024 sx p 0 ∧ z = cond_Zopp sx (Z.pos p))
    as (sx & p & Hf & Hp).
  { unfold f64_of_int, binary_normalize. destruct z as [|p|p]; [done| |];
      [by exists false, p|by exists true, p]. }
  assert (Z.abs z = Z.pos p) as Habs by (subst z; by destruct sx). rewrite Hf.
  destruct (Z.lt_ge_cases (Z.pos p) (2 ^ 53)) as [Hsmall|Hlarge].
  - destruct (binary_round_small sx p Hsmall) as (m & e & -> & Hb & He & Hm).
    assert (0 < 2 ^ (- e)) by (apply Z.pow_pos_nonneg; lia).
    split_and!; [done| |].
    + intros _. unfold f64_to_i128, i128_clamp.
      assert ((if 0 <=? e then Z.pos m * 2 ^ e else Z.pos m / 2 ^ (- e)) = Z.pos p) as ->.
      { destruct (Z.leb_spec 0 e).
        - replace e with 0 in * by lia. rewrite Hm. simpl Z.opp. lia.
        - rewrite Hm. apply Z.div_mul. lia. }
      rewrite <- Hp. lia.
    + eexists. split; [done|]. intros _ y. apply (dyadic_same _ _ _ _ e); [lia|lia|].
      rewrite Z.sub_diag, Z.mul_1_r, Z.sub_0_l, Hp, Hm. destruct sx; simpl cond_Zopp; lia.
  - destruct (binary_round_large sx p) as (m & e & -> & Hb & He); [lia|].
    split_and!; [done|lia|]. eexists. split; [done|]. intros Heq y.
    unfold f64_to_i128, i128_clamp in Heq. destruct (Z.leb_spec 0 e); [|lia].
    apply (dyadic_same _ _ _ _ 0); [lia|lia|]. rewrite !Z.sub_0_r, Z.mul_1_r.
    destruct sx; simpl cond_Zopp in *; lia.
Qed.

Lemma float_exact f : f64_is_finite f = true ↔ is_Some (exact (JNumber f)).
Proof. destruct f; simpl; split; (done || by intros [] || eauto). Qed.

Lemma float_order_exact z f :
  Z.abs z < 2 ^ 64 → f64_valid f = true →
  match signed_float_order z f with
  | Ok c => ∃ y, exact (JNumber f) = Some y ∧ c = dyadic_compare (z, 0) y
  | Err r => r = TypeMismatch ∧ (exact (JNumber f) = None ∨ 2 ^ 53 ≤ Z.abs z)
  end.
Proof.
  intros Hz Hf. unfold signed_float_order. destruct (f64_is_finite f) eqn:Hfin; simpl.
  2: { split; [done|left]. destruct (exact (JNumber f)) eqn:He; [|done].
       assert (f64_is_finite f = true) by (apply float_exact; eauto). congruence. }
  apply float_exact in Hfin as [y Hy].
  destruct (f64_of_int_exact z Hz) as (Hv & Hsmall & x & Hx & Hexact).
  destruct (Z.eqb_spec (f64_to_i128 (f64_of_int z)) z) as [Heq|Hne]; simpl.
  - rewrite (SFcompare_exact _ _ x y) by done. simpl. exists y. by rewrite Hexact.
  - split; [done|right]. destruct (Z.lt_ge_cases (Z.abs z) (2 ^ 53)) as [Hlt|]; [|done].
    by apply Hsmall in Hlt.
Qed.

End order_facts.

(** An integer of 64 bits, signed or unsigned. *)
Definition json_in_range (v : JsonValue) : Prop :=
  match v with
  | JInteger z => - 2 ^ 63 ≤ z < 2 ^ 63
  | JUnsigned n => 0 ≤ n < 2 ^ 64
  | JNumber f => f64_valid f = true
  | _ => True
  end.

(** An integer too large to have an exact float of every value, met with a float. *)
Definition lossy_pair (a b : JsonValue) : Prop :=
  match a, b with
  | (JInteger z | JUnsigned z), JNumber _ | JNumber _, (JInteger z | JUnsigned z) =>
      2 ^ 53 ≤ Z.abs z
  | _, _ => False
  end.

(** What [numeric_order_exact] says of one answer. *)
Definition order_exact (a b : JsonValue) (r : result comparison NonEvaluationReason) : Prop :=
  match r with
  | Ok c => ∃ x y, exact a = Some x ∧ exact b = Some y ∧ c = dyadic_compare x y
  | Err r => r = TypeMismatch ∧ (exact a = None ∨ exact b = None ∨ lossy_pair a b)
  end.

Lemma mixed_order_exact z f (v w : JsonValue) :
  exact v = Some (z, 0) → exact w = exact (JNumber f) → Z.abs z < 2 ^ 64 → f64_valid f = true →
  (2 ^ 53 ≤ Z.abs z → lossy_pair v w) → order_exact v w (signed_float_order z f).
Proof.
  intros Hv Hw Hz Hf Hl. pose proof (float_order_exact z f Hz Hf) as Ho.
  unfold order_exact. rewrite Hv, Hw. destruct (signed_float_order z f) as [c|r].
  - destruct Ho as (y & Hy & ->). by exists (z, 0), y.
  - destruct Ho as [-> [He|He]]; auto.
Qed.

Lemma order_exact_flip a b r :
  order_exact a b r → (lossy_pair a b → lossy_pair b a) → order_exact b a (result_map CompOpp r).
Proof.
  unfold order_exact. destruct r as [c|r]; simpl; [|naive_solver].
  intros (x & y & Hx & Hy & ->) _. exists y, x. by rewrite (dyadic_antisym x y).
Qed.

(** C28: the numeric order of two JSON numbers is exact.  When it answers, the
    answer is the order of the two numbers' exact values, across signed, unsigned
    and floating representations; it refuses only values that are not finite
    numbers, and pairs of a float with an integer of magnitude [2^53] or more. *)
Theorem numeric_order_exact a b :
  json_in_range a → json_in_range b →
  match numeric_order a b with
  | Ok c => ∃ x y, exact a = Some x ∧ exact b = Some y ∧ c = dyadic_compare x y
  | Err r => r = TypeMismatch ∧ (exact a = None ∨ exact b = None ∨ lossy_pair a b)
  end.
Proof.
  assert (∀ z n : Z, (z ?= n) = dyadic_compare (z, 0) (n, 0)) as Hint
    by (intros; unfold dyadic_compare; simpl; by rewrite !Z.mul_1_r).
  intros Ha Hb. destruct a as [|?|z|z|f|?|?|?]; try by (destruct b; simpl; auto).
  - destruct b as [|?|n|n|g|?|?|?]; simpl in Ha, Hb; try by (simpl; auto).
    + by exists (z, 0), (n, 0).
    + assert (numeric_order (JInteger z) (JUnsigned n) = Ok (z ?= n)) as ->; [|by exists (z, 0), (n, 0)].
      simpl. destruct (Z.ltb_spec z 0); [|done]. symmetry. f_equal. apply Z.compare_lt_iff. lia.
    + apply (mixed_order_exact z g); simpl; [done|done|lia|done|done].
  - destruct b as [|?|n|n|g|?|?|?]; simpl in Ha, Hb; try by (simpl; auto).
    + assert (numeric_order (JUnsigned z) (JInteger n) = Ok (z ?= n)) as ->; [|by exists (z, 0), (n, 0)].
      simpl. destruct (Z.ltb_spec n 0); [|done]. symmetry. f_equal. apply Z.compare_gt_iff. lia.
    + by exists (z, 0), (n, 0).
    + apply (mixed_order_exact z g); simpl; [done|done|lia|done|done].
  - destruct b as [|?|n|n|g|?|?|?]; simpl in Ha, Hb; try by (simpl; auto).
    + apply (order_exact_flip (JInteger n) (JNumber f)); [|done].
      apply (mixed_order_exact n f); simpl; [done|done|lia|done|done].
    + apply (order_exact_flip (JUnsigned n) (JNumber f)); [|done].
      apply (mixed_order_exact n f); simpl; [done|done|lia|done|done].
    + unfold numeric_order.
      destruct (f64_is_finite f) eqn:Hf; [destruct (f64_is_finite g) eqn:Hg|]; simpl andb; cbn iota.
      * apply float_exact in Hf as [x Hx]. apply float_exact in Hg as [y Hy].
        rewrite (SFcompare_exact f g x y) by done. simpl ordering_or. by exists x, y.
      * split; [done|]. right; left. destruct g; done.
      * split; [done|]. left. destruct f; done.
Qed.

(** [2^53 + 1] is refused against a float, [3] is below [3.5], [-1] below any
    unsigned. *)
Lemma numeric_order_exact_witness :
  numeric_order (JInteger 3) (JNumber (S754_finite false 7881299347898368 (-51))) = Ok Lt ∧
  numeric_order (JUnsigned (2 ^ 53 + 1)) (JNumber (S754_zero false)) = Err TypeMismatch ∧
  numeric_order (JInteger (-1)) (JUnsigned (2 ^ 64 - 1)) = Ok Lt ∧
  ∃ x y, exact (JInteger 3) = Some x ∧
    exact (JNumber (S754_finite false 7881299347898368 (-51))) = Some y ∧ Lt = dyadic_compare x y.
Proof.
  split_and!; [vm_compute; reflexivity..|].
  pose proof (numeric_order_exact (JInteger 3) (JNumber (S754_finite false 7881299347898368 (-51)))
    ltac:(simpl; lia) ltac:(vm_compute; reflexivity)) as Ho.
  vm_compute (numeric_order _ _) in Ho. exact Ho.
Defined.
