(* ===== verification/Matcher.v ===== *)
(** * The typed observation matcher

    crates/telltale-detect/src/v2/matcher.rs with the selector registry's
    identifiers (crates/telltale-detect/src/v2/selector.rs) and the capability
    types (crates/telltale-schema/src/observation/mod.rs).

    Predicates over an observation's facts, composed with all, any and not under
    three truth values: a predicate that cannot be decided is [NotEvaluated] with
    a reason.  Resolving a selector is the [Facts] interface. *)

From S2P Require Import Prelude Ordered Rstr Segment RuleMatch Budget Json.
From Stdlib Require Import Ascii.

Local Open Scope Z_scope.

Definition MAX_MATCHER_DEPTH : Z := 8.
Definition MAX_MATCHER_BRANCHES : Z := 64.
Definition MAX_PATTERN_BYTES : Z := 1024.

Inductive DetectionError :=
| InvalidId | InvalidText | InvalidStatus | InvalidReason | InvalidMetadata | InvalidBounds
| InvalidSelector | InvalidOperator | InvalidValue | InvalidCapability | InvalidPattern
| InvalidEvidenceReference | MissingObservationId | PatternTooLong | EmptyBooleanGroup
| BooleanDepthExceeded | BooleanBranchLimit | UnsupportedDetectorKind | UnmappableRuleClass
| ScoreOutOfRange | RuntimeEvaluation.

(** ** Capabilities and provenance *)

Inductive CapabilityId := ToolCall | ToolExecution | UserContext.
Inductive CapabilityAvailability := Supported | Unsupported | Unknown.
Inductive FactProvenance := Reported | Parsed | Derived | Inferred | Observed.

#[export] Instance CapabilityId_eq_dec : EqDecision CapabilityId.
Proof. solve_decision. Defined.
#[export] Instance CapabilityAvailability_eq_dec : EqDecision CapabilityAvailability.
Proof. solve_decision. Defined.
#[export] Instance FactProvenance_eq_dec : EqDecision FactProvenance.
Proof. solve_decision. Defined.

(** The derived order. *)
Definition capability_rank (c : CapabilityId) : Z :=
  match c with ToolCall => 0 | ToolExecution => 1 | UserContext => 2 end.
#[export] Instance ord_capability : Ord CapabilityId := cmp_via capability_rank.
#[export] Instance laws_capability : OrdLaws CapabilityId.
Proof. apply laws_via. by intros [] []. Qed.

Definition CapabilityContext : Type := list (CapabilityId * CapabilityAvailability).

Definition context_resolve (context : CapabilityContext) (capability : CapabilityId)
    : CapabilityAvailability := default Unknown (bm_get capability context).

(** ** Selectors *)

Definition SELECTORS : list string :=
  ["session.id"; "message.role"; "message.content"; "tool.name"; "tool.arguments";
   "tool.searchable_arguments"; "tool.result"; "tool.searchable_result";
   "tool.reported_status"; "tool.is_error"; "tool.exit_code"; "command.text";
   "resource.path"; "compat.v1.arguments"; "compat.v1.assistant_context";
   "compat.v1.command"; "compat.v1.file_path"; "compat.v1.tool_name";
   "compat.v1.tool_result"; "compat.v1.url"; "compat.v1.user_context";
   "compat.v1.written_path"; "message.text"; "tool.call_id"; "tool.stage";
   "tool.arguments.text"; "tool.arguments.keys"; "tool.result.text";
   "tool.result.is_error"; "tool.result.exit_code"; "resource.operation";
   "resource.path_class"; "network.domain"; "network.destination_class";
   "network.operation"; "network.port"; "network.protocol"; "process.name";
   "process.pid"; "process.instance_id"; "process.privilege"; "inference.provider";
   "inference.requested_model"; "inference.resolved_model"; "inference.streaming";
   "inference.stop_reason"; "mcp.server.id"; "mcp.server.transport";
   "mcp.server.location_class"; "mcp.tool.name"; "runtime.execution_mode";
   "runtime.isolation.state"; "runtime.privilege"; "runtime.workspace.class";
   "browser.surface"; "browser.origin_class"; "browser.navigation_id"].

Inductive SelectorId :=
| SessionId | MessageRole | MessageContent | ToolName | ToolArguments
| ToolSearchableArguments | ToolResult | ToolSearchableResult | ToolReportedStatus
| ToolIsError | ToolExitCode | CommandText | ResourcePath | CompatArguments
| CompatAssistantContext | CompatCommand | CompatFilePath | CompatToolName
| CompatToolResult | CompatUrl | CompatUserContext | CompatWrittenPath
| GovernedFacet (value : string).

Definition selector_as_str (s : SelectorId) : string :=
  match s with
  | SessionId => "session.id"
  | MessageRole => "message.role"
  | MessageContent => "message.content"
  | ToolName => "tool.name"
  | ToolArguments => "tool.arguments"
  | ToolSearchableArguments => "tool.searchable_arguments"
  | ToolResult => "tool.result"
  | ToolSearchableResult => "tool.searchable_result"
  | ToolReportedStatus => "tool.reported_status"
  | ToolIsError => "tool.is_error"
  | ToolExitCode => "tool.exit_code"
  | CommandText => "command.text"
  | ResourcePath => "resource.path"
  | CompatArguments => "compat.v1.arguments"
  | CompatAssistantContext => "compat.v1.assistant_context"
  | CompatCommand => "compat.v1.command"
  | CompatFilePath => "compat.v1.file_path"
  | CompatToolName => "compat.v1.tool_name"
  | CompatToolResult => "compat.v1.tool_result"
  | CompatUrl => "compat.v1.url"
  | CompatUserContext => "compat.v1.user_context"
  | CompatWrittenPath => "compat.v1.written_path"
  | GovernedFacet value => value
  end.

(** The literal arms of [SelectorId::parse], in order. *)
Definition parse_arms : list (string * SelectorId) :=
  [("session.id", SessionId); ("message.role", MessageRole);
   ("message.content", MessageContent); ("tool.name", ToolName);
   ("tool.arguments", ToolArguments); ("tool.searchable_arguments", ToolSearchableArguments);
   ("tool.result", ToolResult); ("tool.searchable_result", ToolSearchableResult);
   ("tool.reported_status", ToolReportedStatus); ("tool.is_error", ToolIsError);
   ("tool.exit_code", ToolExitCode); ("command.text", CommandText);
   ("resource.path", ResourcePath); ("compat.v1.arguments", CompatArguments);
   ("compat.v1.assistant_context", CompatAssistantContext);
   ("compat.v1.command", CompatCommand); ("compat.v1.file_path", CompatFilePath);
   ("compat.v1.tool_name", CompatToolName); ("compat.v1.tool_result", CompatToolResult);
   ("compat.v1.url", CompatUrl); ("compat.v1.user_context", CompatUserContext);
   ("compat.v1.written_path", CompatWrittenPath)].

Definition parse_selector (value : string) : result SelectorId DetectionError :=
  match List.find (λ arm, str_eqb arm.1 value) parse_arms with
  | Some (_, selector) => Ok selector
  | None =>
      ok_or (GovernedFacet <$> List.find (λ selector, str_eqb selector value) SELECTORS)
        InvalidSelector
  end.

Definition required_capability (s : SelectorId) : option CapabilityId :=
  match s with
  | CompatAssistantContext | CompatUserContext => Some UserContext
  | CompatArguments | CompatCommand | CompatFilePath | CompatToolName | CompatToolResult
  | CompatUrl | CompatWrittenPath => Some ToolCall
  | ToolName | ToolArguments | ToolSearchableArguments | ToolResult | ToolSearchableResult
  | ToolReportedStatus | ToolIsError | ToolExitCode => Some ToolCall
  | GovernedFacet value => if starts_with value "tool." then Some ToolCall else None
  | _ => None
  end.

Inductive SelectorPresence := Present | Absent | UnavailableVisibility | MetadataMissing.

#[export] Instance SelectorPresence_eq_dec : EqDecision SelectorPresence.
Proof. solve_decision. Defined.

(** Of the metadata the matcher reads the provenance. *)
Record SelectorResolution := {
  sr_presence : SelectorPresence;
  sr_value : option JsonValue;
  sr_provenance : option FactProvenance;
}.

(** ** Operators and specifications *)

Inductive MatcherOperator :=
| OpEquals | OpNotEquals | OpContains | OpRegex | OpGlob | OpExists | OpNotExists | OpIn
| OpNotIn | OpStartsWith | OpEndsWith | OpGt | OpGte | OpLt | OpLte.

#[export] Instance MatcherOperator_eq_dec : EqDecision MatcherOperator.
Proof. solve_decision. Defined.

Definition operator_as_str (op : MatcherOperator) : string :=
  match op with
  | OpEquals => "equals" | OpNotEquals => "not_equals" | OpContains => "contains"
  | OpRegex => "regex" | OpGlob => "glob" | OpExists => "exists"
  | OpNotExists => "not_exists" | OpIn => "in" | OpNotIn => "not_in"
  | OpStartsWith => "starts_with" | OpEndsWith => "ends_with" | OpGt => "gt"
  | OpGte => "gte" | OpLt => "lt" | OpLte => "lte"
  end.

Definition ALL_OPERATORS : list MatcherOperator :=
  [OpEquals; OpNotEquals; OpContains; OpRegex; OpGlob; OpExists; OpNotExists; OpIn; OpNotIn;
   OpStartsWith; OpEndsWith; OpGt; OpGte; OpLt; OpLte].

(** [MatcherOperator::parse]: one arm per operator, under its own name. *)
Definition parse_operator (value : string) : result MatcherOperator DetectionError :=
  ok_or (List.find (λ op, str_eqb (operator_as_str op) value) ALL_OPERATORS) InvalidOperator.

Definition is_presence (op : MatcherOperator) : bool :=
  match op with OpExists | OpNotExists => true | _ => false end.

Inductive MatcherSpec :=
| SPredicate (selector : string) (operator : MatcherOperator) (value : option JsonValue)
    (require_provenance : option FactProvenance) (require_capability : option CapabilityId)
| SAll (branches : list MatcherSpec)
| SAny (branches : list MatcherSpec)
| SNot (branch : MatcherSpec).

(** ** Compilation *)

(** [regex::escape] of the regex crate. *)
Class RegexEscape : Type := regex_escape : string → string.

(** [str::chars]: a byte that is not a continuation byte starts a character. *)
Fixpoint chars_of (l : list ascii) : list string :=
  match l with
  | [] => []
  | c :: l' =>
      match chars_of l' with
      | (String d t) :: rest =>
          if continuation d then String c (String d t) :: rest
          else String c "" :: String d t :: rest
      | rest => String c "" :: rest
      end
  end.

Definition chars (s : string) : list string := chars_of (bytes s).

Section compiling.
Context `{RegexEngine} `{RegexEscape} `{FloatText}.

Record CompiledPredicate := {
  cp_selector : SelectorId;
  cp_operator : MatcherOperator;
  cp_value : option JsonValue;
  cp_expected_bytes : Z;
  cp_require_provenance : option FactProvenance;
  cp_require_capability : option CapabilityId;
  cp_pattern : option Regex;
}.

Inductive CompiledMatcherNode :=
| NPredicate (p : CompiledPredicate)
| NAll (branches : list CompiledMatcherNode)
| NAny (branches : list CompiledMatcherNode)
| NNot (branch : CompiledMatcherNode).

Record CompiledMatcher := {
  cm_node : CompiledMatcherNode;
  cm_required_capabilities : list CapabilityId;
}.

(** The check at the end of each turn of the loop. *)
Definition glob_checked (expression : string) : result string DetectionError :=
  if MAX_PATTERN_BYTES * 2 <? len expression then Err PatternTooLong else Ok expression.

(** The loop of [compile_glob]; [in_class] while the inner loop reads a bracketed
    class. *)
Fixpoint glob_expression (in_class : bool) (cs : list string) (expression : string)
    : result string DetectionError :=
  match cs with
  | [] => if in_class then Err InvalidPattern else Ok expression
  | c :: cs' =>
      if in_class then
        if str_eqb c "]" then
          let? expression := glob_checked (expression +:+ "]") in
          glob_expression false cs' expression
        else if str_eqb c "\" then glob_expression true cs' (expression +:+ "\\")
        else glob_expression true cs' (expression +:+ c)
      else if str_eqb c "*" then
        let? expression := glob_checked (expression +:+ ".*") in
        glob_expression false cs' expression
      else if str_eqb c "?" then
        let? expression := glob_checked (expression +:+ ".") in
        glob_expression false cs' expression
      else if str_eqb c "[" then glob_expression true cs' (expression +:+ "[")
      else
        let? expression := glob_checked (expression +:+ regex_escape c) in
        glob_expression false cs' expression
  end.

Definition new_regex (pattern : string) : result Regex DetectionError :=
  map_err (λ _, InvalidPattern) (Regex_new pattern).

Definition compile_glob (pattern : string) : result Regex DetectionError :=
  let? expression := glob_expression false (chars pattern) "^" in
  new_regex (expression +:+ "$").

Definition compile_pattern (operator : MatcherOperator) (value : option JsonValue)
    : result (option Regex) DetectionError :=
  match operator with
  | OpRegex | OpGlob =>
      match value with
      | Some (JString pattern) =>
          if MAX_PATTERN_BYTES <? len pattern then Err PatternTooLong
          else
            let? regex := match operator with
                          | OpRegex => new_regex pattern
                          | _ => compile_glob pattern
                          end in
            Ok (Some regex)
      | _ => Err InvalidValue
      end
  | _ => Ok None
  end.

Definition compile_predicate (selector : string) (operator : MatcherOperator)
    (value : option JsonValue) (require_provenance : option FactProvenance)
    (require_capability : option CapabilityId) : result CompiledPredicate DetectionError :=
  let? selector := parse_selector selector in
  if negb (Bool.eqb (is_presence operator) (match value with None => true | _ => false end))
  then Err InvalidValue
  else
    let? pattern := compile_pattern operator value in
    Ok {| cp_selector := selector;
          cp_operator := operator;
          cp_value := value;
          cp_expected_bytes :=
            match value with Some v => default 1 (encoded_byte_len v) | None => 0 end;
          cp_require_provenance := require_provenance;
          cp_require_capability := require_capability;
          cp_pattern := pattern |}.

Definition validate_branches (branches : list MatcherSpec) : result unit DetectionError :=
  match branches with
  | [] => Err EmptyBooleanGroup
  | _ => if MAX_MATCHER_BRANCHES <? Z.of_nat (length branches) then Err BooleanBranchLimit
         else Ok tt
  end.

(** The two [&mut] arguments of [compile_node]. *)
Record CompileState := {
  cs_capabilities : list CapabilityId;
  cs_branch_count : Z;
}.

Definition insert_capabilities (p : CompiledPredicate) : Eff CompileState DetectionError unit := λ st,
  ({| cs_capabilities :=
        bs_extend (bs_extend (cs_capabilities st) (option_list (required_capability (cp_selector p))))
          (option_list (cp_require_capability p));
      cs_branch_count := cs_branch_count st |}, Ok tt).

Definition count_branches (n : Z) : Eff CompileState DetectionError unit := λ st,
  match checked_add (cs_branch_count st) n with
  | None => (st, Err BooleanBranchLimit)
  | Some count =>
      ({| cs_capabilities := cs_capabilities st; cs_branch_count := count |},
       if MAX_MATCHER_BRANCHES <? count then Err BooleanBranchLimit else Ok tt)
  end.

Fixpoint compile_node (spec : MatcherSpec) (depth : Z)
    : Eff CompileState DetectionError CompiledMatcherNode :=
  if MAX_MATCHER_DEPTH <? depth then efail BooleanDepthExceeded
  else
    match spec with
    | SPredicate selector operator value require_provenance require_capability =>
        let! p := elift (compile_predicate selector operator value require_provenance
                           require_capability) in
        do! insert_capabilities p in
        eret (NPredicate p)
    | SAll branches =>
        do! elift (validate_branches branches) in
        do! count_branches (Z.of_nat (length branches)) in
        let! nodes := ecollect (λ branch, compile_node branch (depth + 1)) branches in
        eret (NAll nodes)
    | SAny branches =>
        do! elift (validate_branches branches) in
        do! count_branches (Z.of_nat (length branches)) in
        let! nodes := ecollect (λ branch, compile_node branch (depth + 1)) branches in
        eret (NAny nodes)
    | SNot branch =>
        do! count_branches 1 in
        let! node := compile_node branch (depth + 1) in
        eret (NNot node)
    end.

(** [MatcherSpec::compile]; the depth check of [compile_matcher] is at depth 0. *)
Definition compile_matcher (spec : MatcherSpec) : result CompiledMatcher DetectionError :=
  match compile_node spec 0 {| cs_capabilities := []; cs_branch_count := 0 |} with
  | (st, Ok node) =>
      Ok {| cm_node := node; cm_required_capabilities := cs_capabilities st |}
  | (_, Err e) => Err e
  end.

End compiling.

(** ** Evaluation *)

Inductive MatchState :=
| MatchS
| NoMatch
| NotEvaluated (reason : NonEvaluationReason).

Record MatcherEvaluation := {
  me_state : MatchState;
  me_matched_selector_paths : list string;
}.

(** What the matcher asks of an observation. *)
Class Facts (Obs : Type) : Type := {
  capability_context : Obs → option CapabilityContext;
  retained_byte_len : Obs → Z;
  try_resolve : SourceBounds → SelectorId → Obs → Eff BudgetState ProcessingError SelectorResolution;
}.

(** What resolution promises: a fixed answer for the work it charges. *)
Class FactsLaws (Obs : Type) `{Facts Obs} : Type := {
  resolve : SelectorId → Obs → SelectorResolution;
  try_resolve_settles bounds selector o :
    sb_work bounds < u64_max →
    settles (work_left bounds) (try_resolve bounds selector o) (resolve selector o);
}.

Section evaluating.
Context `{RegexEngine} `{FloatText} {Obs : Type} `{Facts Obs}.
Variable bounds : SourceBounds.

Definition context_status (context : option CapabilityContext) (capability : CapabilityId)
    : CapabilityAvailability :=
  match context with Some c => context_resolve c capability | None => Unknown end.

Definition preflight_capabilities (capabilities : list CapabilityId)
    (context : option CapabilityContext) : option NonEvaluationReason :=
  let availability := map (context_status context) capabilities in
  if bool_decide (Unsupported ∈ availability) then Some RequiredCapabilityUnsupported
  else if bool_decide (Unknown ∈ availability) then Some RequiredCapabilityUnknown
  else None.

Definition preflight_capability (capability : CapabilityId)
    (context : option CapabilityContext) : option NonEvaluationReason :=
  match context_status context capability with
  | Supported => None
  | Unsupported => Some RequiredCapabilityUnsupported
  | Unknown => Some RequiredCapabilityUnknown
  end.

(** [iter().copied().min()]: the first of the strongest. *)
Fixpoint strongest_reason (reasons : list NonEvaluationReason) : option NonEvaluationReason :=
  match reasons with
  | [] => None
  | r :: reasons' =>
      match strongest_reason reasons' with
      | None => Some r
      | Some s => if reason_rank r <=? reason_rank s then Some r else Some s
      end
  end.

Definition normalize_paths (paths : list string) : list string := dedup (sort paths).

Fixpoint check_strings (values : list JsonValue) : Eff BudgetState ProcessingError bool :=
  match values with
  | [] => eret true
  | value :: values' =>
      do! charge bounds 1 in
      match value with JString _ => check_strings values' | _ => eret false end
  end.

Fixpoint find_string (actual : string) (values : list JsonValue)
    : Eff BudgetState ProcessingError bool :=
  match values with
  | [] => eret false
  | value :: values' =>
      match value with
      | JString expected =>
          do! charge bounds (saturating_add (len actual) (len expected)) in
          if str_eqb actual expected then eret true else find_string actual values'
      | _ => find_string actual values'
      end
  end.

Definition charged_membership (actual expected : JsonValue)
    : Eff BudgetState ProcessingError (result bool NonEvaluationReason) :=
  match expected with
  | JString _ | JArray _ =>
      let values := match expected with JArray values => values | _ => [expected] end in
      let! strings := check_strings values in
      if strings then
        match actual with
        | JString actual => let! found := find_string actual values in eret (Ok found)
        | _ => eret (Err TypeMismatch)
        end
      else eret (Err TypeMismatch)
  | _ => eret (Err TypeMismatch)
  end.

(** The operators that reach here are neither presence nor membership. *)
Definition apply_operator (p : CompiledPredicate) (actual expected : JsonValue)
    : result bool NonEvaluationReason :=
  match cp_operator p with
  | OpEquals => compatible_equals actual expected
  | OpNotEquals => result_map negb (compatible_equals actual expected)
  | OpContains => result_map (λ '(l, r), contains l r) (string_pair actual expected)
  | OpStartsWith => result_map (λ '(l, r), starts_with l r) (string_pair actual expected)
  | OpEndsWith => result_map (λ '(l, r), ends_with l r) (string_pair actual expected)
  | OpRegex | OpGlob =>
      match actual with
      | JString value =>
          Ok match cp_pattern p with Some pattern => Regex_is_match pattern value | None => false end
      | _ => Err TypeMismatch
      end
  | OpGt => result_map (λ o, match o with Gt => true | _ => false end) (numeric_order actual expected)
  | OpGte => result_map (λ o, match o with Lt => false | _ => true end) (numeric_order actual expected)
  | OpLt => result_map (λ o, match o with Lt => true | _ => false end) (numeric_order actual expected)
  | OpLte => result_map (λ o, match o with Gt => false | _ => true end) (numeric_order actual expected)
  | OpIn | OpNotIn | OpExists | OpNotExists => Err TypeMismatch
  end.

(** The gates of [evaluate_resolved_predicate] before any operator runs. *)
Definition predicate_gate (p : CompiledPredicate) (o : Obs) (resolved : SelectorResolution)
    : option NonEvaluationReason :=
  let capability := match cp_require_capability p with
                    | Some c => preflight_capability c (capability_context o)
                    | None => None
                    end in
  match capability with
  | Some reason => Some reason
  | None =>
      match sr_presence resolved with
      | UnavailableVisibility => Some InsufficientVisibility
      | MetadataMissing => Some IneligibleInput
      | Absent => None
      | Present =>
          match cp_require_provenance p with
          | None => None
          | Some required =>
              if bool_decide (sr_provenance resolved = Some required) then None
              else Some IneligibleInput
          end
      end
  end.

Definition evaluate_resolved_predicate (p : CompiledPredicate) (o : Obs)
    (resolved : SelectorResolution) : Eff BudgetState ProcessingError (MatchState * list string) :=
  do! charge bounds 1 in
  match predicate_gate p o resolved with
  | Some reason => eret (NotEvaluated reason, [])
  | None =>
      if negb (bool_decide (sr_presence resolved = Present)) then
        eret match cp_operator p with
             | OpNotExists => (MatchS, [selector_as_str (cp_selector p)])
             | OpNotEquals | OpNotIn => (NotEvaluated IneligibleInput, [])
             | _ => (NoMatch, [])
             end
      else if bool_decide (cp_operator p = OpNotExists) then eret (NoMatch, [])
      else if bool_decide (cp_operator p = OpExists)
      then eret (MatchS, [selector_as_str (cp_selector p)])
      else
        match sr_value resolved, cp_value p with
        | None, _ => eret (NotEvaluated IneligibleInput, [])
        | Some _, None => eret (NotEvaluated TypeMismatch, [])
        | Some actual, Some expected =>
            let! result :=
              match cp_operator p with
              | OpIn => charged_membership actual expected
              | OpNotIn =>
                  let! r := charged_membership actual expected in eret (result_map negb r)
              | _ =>
                  do! charge bounds (retained_byte_len o) in
                  do! charge bounds (saturating_add (default 1 (encoded_byte_len actual))
                                       (cp_expected_bytes p)) in
                  eret (apply_operator p actual expected)
              end in
            eret match result with
                 | Ok true => (MatchS, [selector_as_str (cp_selector p)])
                 | Ok false => (NoMatch, [])
                 | Err reason => (NotEvaluated reason, [])
                 end
        end
  end.

Definition evaluate_predicate (p : CompiledPredicate) (o : Obs)
    : Eff BudgetState ProcessingError (MatchState * list string) :=
  let! resolved := try_resolve bounds (cp_selector p) o in
  evaluate_resolved_predicate p o resolved.

(** What the loops over branch results collect. *)
Definition matched_paths (evaluations : list (MatchState * list string)) : list string :=
  concat (map (λ e : MatchState * list string, match e.1 with MatchS => e.2 | _ => [] end) evaluations).

Definition unknown_reasons (evaluations : list (MatchState * list string))
    : list NonEvaluationReason :=
  omap (λ e : MatchState * list string,
          match e.1 with NotEvaluated r => Some r | _ => None end) evaluations.

Definition is_match_state (e : MatchState * list string) : bool :=
  match e.1 with MatchS => true | _ => false end.
Definition is_no_match (e : MatchState * list string) : bool :=
  match e.1 with NoMatch => true | _ => false end.

Definition combine_all (evaluations : list (MatchState * list string)) : MatchState * list string :=
  if existsb is_no_match evaluations then (NoMatch, [])
  else match strongest_reason (unknown_reasons evaluations) with
       | Some reason => (NotEvaluated reason, [])
       | None => (MatchS, matched_paths evaluations)
       end.

Definition combine_any (evaluations : list (MatchState * list string)) : MatchState * list string :=
  if existsb is_match_state evaluations then (MatchS, matched_paths evaluations)
  else match strongest_reason (unknown_reasons evaluations) with
       | Some reason => (NotEvaluated reason, [])
       | None => (NoMatch, [])
       end.

Definition combine_not (evaluation : MatchState * list string) : MatchState * list string :=
  match evaluation with
  | (MatchS, _) => (NoMatch, [])
  | (NoMatch, paths) => (MatchS, paths)
  | (NotEvaluated reason, _) => (NotEvaluated reason, [])
  end.

Fixpoint evaluate_node (node : CompiledMatcherNode) (o : Obs)
    : Eff BudgetState ProcessingError (MatchState * list string) :=
  do! charge bounds 1 in
  match node with
  | NPredicate p => evaluate_predicate p o
  | NAll branches =>
      let! evaluations := ecollect (λ branch, evaluate_node branch o) branches in
      eret (combine_all evaluations)
  | NAny branches =>
      let! evaluations := ecollect (λ branch, evaluate_node branch o) branches in
      eret (combine_any evaluations)
  | NNot branch =>
      let! evaluation := evaluate_node branch o in
      eret (combine_not evaluation)
  end.

Definition try_evaluate (m : CompiledMatcher) (o : Obs)
    : Eff BudgetState ProcessingError MatcherEvaluation :=
  do! charge bounds 1 in
  match preflight_capabilities (cm_required_capabilities m) (capability_context o) with
  | Some reason =>
      eret {| me_state := NotEvaluated reason; me_matched_selector_paths := [] |}
  | None =>
      let! '(state, paths) := evaluate_node (cm_node m) o in
      eret {| me_state := state; me_matched_selector_paths := normalize_paths paths |}
  end.

End evaluating.

(** ** Compilation is exact *)

Section spec_induction.
Variable P : MatcherSpec → Prop.
Hypothesis Hpred : ∀ s op v rp rc, P (SPredicate s op v rp rc).
Hypothesis Hall : ∀ bs, Forall P bs → P (SAll bs).
Hypothesis Hany : ∀ bs, Forall P bs → P (SAny bs).
Hypothesis Hnot : ∀ b, P b → P (SNot b).

Fixpoint spec_induct (spec : MatcherSpec) : P spec :=
  let go := (fix go (bs : list MatcherSpec) : Forall P bs :=
               match bs with
               | [] => List.Forall_nil P
               | b :: bs' => List.Forall_cons P b bs' (spec_induct b) (go bs')
               end) in
  match spec with
  | SPredicate s op v rp rc => Hpred s op v rp rc
  | SAll bs => Hall bs (go bs)
  | SAny bs => Hany bs (go bs)
  | SNot b => Hnot b (spec_induct b)
  end.

End spec_induction.

Definition max_of (l : list Z) : Z := foldr Z.max 0 l.
Definition sum_of (l : list Z) : Z := foldr Z.add 0 l.

(** The nesting of groups, and the branches of all of them. *)
Fixpoint spec_depth (spec : MatcherSpec) : Z :=
  match spec with
  | SPredicate _ _ _ _ _ => 0
  | SAll bs | SAny bs => 1 + max_of (map spec_depth bs)
  | SNot b => 1 + spec_depth b
  end.

Fixpoint spec_branches (spec : MatcherSpec) : Z :=
  match spec with
  | SPredicate _ _ _ _ _ => 0
  | SAll bs | SAny bs => Z.of_nat (length bs) + sum_of (map spec_branches bs)
  | SNot b => 1 + spec_branches b
  end.

Section compile_facts.
Context `{RegexEngine} `{RegexEscape} `{FloatText}.

(** Every predicate compiles and no group is empty. *)
Fixpoint spec_compiles (spec : MatcherSpec) : bool :=
  match spec with
  | SPredicate s op v rp rc => is_ok (compile_predicate s op v rp rc)
  | SAll bs | SAny bs => negb (match bs with [] => true | _ => false end) && forallb spec_compiles bs
  | SNot b => spec_compiles b
  end.

(** The capabilities its predicates need. *)
Fixpoint spec_capabilities (spec : MatcherSpec) : list CapabilityId :=
  match spec with
  | SPredicate s _ _ _ rc =>
      option_list match parse_selector s with Ok id => required_capability id | Err _ => None end
      ++ option_list rc
  | SAll bs | SAny bs => concat (map spec_capabilities bs)
  | SNot b => spec_capabilities b
  end.

(** The same tree over compiled predicates. *)
Inductive compiled : MatcherSpec → CompiledMatcherNode → Prop :=
| compiled_predicate s op v rp rc p :
    compile_predicate s op v rp rc = Ok p → compiled (SPredicate s op v rp rc) (NPredicate p)
| compiled_all bs ns : Forall2 compiled bs ns → compiled (SAll bs) (NAll ns)
| compiled_any bs ns : Forall2 compiled bs ns → compiled (SAny bs) (NAny ns)
| compiled_not b n : compiled b n → compiled (SNot b) (NNot n).

Definition within_limits (spec : MatcherSpec) (depth count : Z) : bool :=
  spec_compiles spec && (depth + spec_depth spec <=? MAX_MATCHER_DEPTH)
  && ((count + spec_branches spec <=? MAX_MATCHER_BRANCHES)).

Definition after_compile (spec : MatcherSpec) (st : CompileState) : CompileState :=
  {| cs_capabilities := bs_extend (cs_capabilities st) (spec_capabilities spec);
     cs_branch_count := cs_branch_count st + spec_branches spec |}.

Definition compiles_as (spec : MatcherSpec) : Prop :=
  ∀ depth st, 0 ≤ depth → 0 ≤ cs_branch_count st ≤ MAX_MATCHER_BRANCHES →
    match compile_node spec depth st with
    | (st', Ok node) =>
        within_limits spec depth (cs_branch_count st) = true ∧
        st' = after_compile spec st ∧ compiled spec node
    | (_, Err _) => within_limits spec depth (cs_branch_count st) = false
    end.

Lemma spec_depth_nonneg spec : 0 ≤ spec_depth spec.
Proof.
  assert (∀ l, 0 ≤ max_of l) as Hmax by (intros l; induction l; simpl; lia).
  induction spec using spec_induct; simpl; try specialize (Hmax (map spec_depth bs)); lia.
Qed.

Lemma spec_branches_nonneg spec : 0 ≤ spec_branches spec.
Proof.
  assert (∀ bs, Forall (λ b, 0 ≤ spec_branches b) bs → 0 ≤ sum_of (map spec_branches bs)) as Hsum
    by (induction 1; simpl; lia).
  induction spec using spec_induct; simpl; try specialize (Hsum bs ltac:(done)); lia.
Qed.

(** Compiling the branches of a group, one after another. *)
Lemma branches_compile bs depth st :
  Forall compiles_as bs → 0 ≤ depth → 0 ≤ cs_branch_count st ≤ MAX_MATCHER_BRANCHES →
  match ecollect (λ b, compile_node b depth) bs st with
  | (st', Ok nodes) =>
      (forallb spec_compiles bs = true ∧
       Forall (λ b, depth + spec_depth b ≤ MAX_MATCHER_DEPTH) bs ∧
       cs_branch_count st + sum_of (map spec_branches bs) ≤ MAX_MATCHER_BRANCHES) ∧
      st' = {| cs_capabilities :=
                 bs_extend (cs_capabilities st) (concat (map spec_capabilities bs));
               cs_branch_count := cs_branch_count st + sum_of (map spec_branches bs) |} ∧
      Forall2 compiled bs nodes
  | (_, Err _) =>
      ¬ (forallb spec_compiles bs = true ∧
         Forall (λ b, depth + spec_depth b ≤ MAX_MATCHER_DEPTH) bs ∧
         cs_branch_count st + sum_of (map spec_branches bs) ≤ MAX_MATCHER_BRANCHES)
  end.
Proof.
  intros Hbs Hd. revert st; induction Hbs as [|b bs Hb Hbs IH]; intros st Hst; simpl.
  { split_and!; [done|constructor|lia| |constructor]. destruct st as [caps count]; simpl. f_equal; lia. }
  unfold ebind. specialize (Hb depth st Hd Hst). unfold within_limits in Hb.
  pose proof (spec_branches_nonneg b).
  assert (0 ≤ sum_of (map spec_branches bs)) as Hsum.
  { clear. induction bs as [|c bs IH]; simpl; [done|]. pose proof (spec_branches_nonneg c). lia. }
  destruct (compile_node b depth st) as [st1 [n|e]].
  - destruct Hb as (Hfit & -> & Hn). rewrite !andb_true_iff, !Z.leb_le in Hfit.
    destruct Hfit as [[Hok Hdep] Hbr]. specialize (IH (after_compile b st)). simpl in IH.
    specialize (IH ltac:(lia)).
    destruct (ecollect _ bs (after_compile b st)) as [st2 [ns|e]]; simpl.
    + destruct IH as ((Hoks & Hdeps & Hbrs) & -> & Hns). rewrite Hok, Hoks.
      split_and!; [done|by constructor|lia| |by constructor]. f_equal; [|lia].
      unfold bs_extend. by rewrite foldl_app.
    + intros (Hoks & Hdeps & Hbrs). apply IH. rewrite andb_true_iff in Hoks.
      apply Forall_cons in Hdeps as [_ Hdeps]. split_and!; [apply Hoks|done|lia].
  - intros (Hoks & Hdeps & Hbrs). rewrite andb_true_iff in Hoks. apply Forall_cons in Hdeps as [Hdep _].
    destruct Hoks as [Hok _]. rewrite Hok in Hb. simpl in Hb.
    apply andb_false_iff in Hb as [Hb|Hb]; apply Z.leb_gt in Hb; lia.
Qed.

Lemma max_of_nonneg l : 0 ≤ max_of l.
Proof. induction l; simpl; lia. Qed.

Lemma max_of_le bs limit :
  0 ≤ limit → max_of (map spec_depth bs) ≤ limit ↔ Forall (λ b, spec_depth b ≤ limit) bs.
Proof.
  intros Hl. induction bs as [|b bs IH]; simpl; [split; [constructor|done]|].
  rewrite Forall_cons, <- IH. lia.
Qed.

Definition group_limits (bs : list MatcherSpec) (depth count : Z) : Prop :=
  bs ≠ [] ∧ forallb spec_compiles bs = true ∧
  depth + (1 + max_of (map spec_depth bs)) ≤ MAX_MATCHER_DEPTH ∧
  count + (Z.of_nat (length bs) + sum_of (map spec_branches bs)) ≤ MAX_MATCHER_BRANCHES.

(** One group, under either constructor. *)
Lemma group_compile (mk : list CompiledMatcherNode → CompiledMatcherNode) bs depth st :
  Forall compiles_as bs → 0 ≤ depth → 0 ≤ cs_branch_count st ≤ MAX_MATCHER_BRANCHES →
  match (do! elift (validate_branches bs) in
         do! count_branches (Z.of_nat (length bs)) in
         let! nodes := ecollect (λ branch, compile_node branch (depth + 1)) bs in
         eret (mk nodes)) st with
  | (st', Ok node) =>
      group_limits bs depth (cs_branch_count st) ∧
      st' = {| cs_capabilities :=
                 bs_extend (cs_capabilities st) (concat (map spec_capabilities bs));
               cs_branch_count :=
                 cs_branch_count st + (Z.of_nat (length bs) + sum_of (map spec_branches bs)) |} ∧
      ∃ nodes, node = mk nodes ∧ Forall2 compiled bs nodes
  | (_, Err _) => ¬ group_limits bs depth (cs_branch_count st)
  end.
Proof.
  intros Hbs Hd Hst. unfold group_limits.
  assert (0 ≤ sum_of (map spec_branches bs)) as Hsum.
  { clear. induction bs as [|c bs IH]; simpl; [done|]. pose proof (spec_branches_nonneg c). lia. }
  unfold validate_branches. destruct bs as [|b0 bs0]; [simpl; by intros []|].
  set (bs := b0 :: bs0) in *. set (n := Z.of_nat (length bs)) in *.
  assert (0 ≤ n) by lia. destruct (Z.ltb_spec MAX_MATCHER_BRANCHES n);
    [intros (_ & _ & _ & ?); lia|].
  cbn [elift]. unfold ebind at 1, eret at 1. unfold ebind at 1, count_branches at 1.
  unfold MAX_MATCHER_BRANCHES in *.
  destruct (checked_add (cs_branch_count st) n) as [count|] eqn:Hadd;
    [|apply checked_add_None in Hadd; unfold u64_max in Hadd; lia].
  apply checked_add_Some in Hadd as [-> _].
  destruct (Z.ltb_spec 64 (cs_branch_count st + n)); [intros (_ & _ & _ & ?); lia|].
  set (st1 := {| cs_capabilities := _; cs_branch_count := _ |}).
  pose proof (branches_compile bs (depth + 1) st1 Hbs ltac:(lia)) as Hb.
  change (cs_branch_count st1) with (cs_branch_count st + n) in Hb.
  change (cs_capabilities st1) with (cs_capabilities st) in Hb.
  specialize (Hb ltac:(unfold MAX_MATCHER_BRANCHES; lia)). unfold ebind.
  assert (Forall (λ b, depth + 1 + spec_depth b ≤ MAX_MATCHER_DEPTH) bs ↔
    depth + (1 + max_of (map spec_depth bs)) ≤ MAX_MATCHER_DEPTH) as Hdepth.
  { split.
    - intros Hall. assert (0 ≤ MAX_MATCHER_DEPTH - (depth + 1)).
      { apply Forall_cons in Hall as [Hb0 _]. pose proof (spec_depth_nonneg b0). lia. }
      enough (max_of (map spec_depth bs) ≤ MAX_MATCHER_DEPTH - (depth + 1)) by lia.
      apply max_of_le; [done|]. eapply Forall_impl; [exact Hall|]. simpl. lia.
    - intros Hle. pose proof (max_of_nonneg (map spec_depth bs)).
      assert (Forall (λ b, spec_depth b ≤ MAX_MATCHER_DEPTH - (depth + 1)) bs) as Hall
        by (apply max_of_le; lia).
      eapply Forall_impl; [exact Hall|]. simpl. lia. }
  destruct (ecollect _ bs st1) as [st2 [ns|e]].
  - destruct Hb as ((Hok & Hdeps & Hbr) & -> & Hns). apply Hdepth in Hdeps. unfold MAX_MATCHER_BRANCHES in Hbr.
    split_and!; [done|done|done|lia|f_equal; lia|]. by exists ns.
  - intros (_ & Hok & Hdep & Hbr). apply Hb. unfold MAX_MATCHER_BRANCHES.
    split_and!; [done|by apply Hdepth|lia].
Qed.

Lemma group_within bs spec depth count :
  spec = SAll bs ∨ spec = SAny bs →
  within_limits spec depth count = true ↔ group_limits bs depth count.
Proof.
  intros Hspec. unfold within_limits, group_limits.
  destruct Hspec as [-> | ->]; simpl; rewrite !andb_true_iff, !Z.leb_le, negb_true_iff;
    destruct bs; naive_solver.
Qed.

Lemma not_compile b depth st :
  compiles_as b → 0 ≤ depth → 0 ≤ cs_branch_count st ≤ MAX_MATCHER_BRANCHES →
  match (do! count_branches 1 in
         let! node := compile_node b (depth + 1) in
         eret (NNot node)) st with
  | (st', Ok node) =>
      within_limits (SNot b) depth (cs_branch_count st) = true ∧
      st' = after_compile (SNot b) st ∧ compiled (SNot b) node
  | (_, Err _) => within_limits (SNot b) depth (cs_branch_count st) = false
  end.
Proof.
  intros IH Hd Hst. unfold ebind, count_branches, MAX_MATCHER_BRANCHES in *. unfold within_limits, after_compile. simpl.
  pose proof (spec_branches_nonneg b) as Hbn.
  destruct (checked_add (cs_branch_count st) 1) as [count|] eqn:Hadd;
    [|apply checked_add_None in Hadd; unfold u64_max in Hadd; lia].
  apply checked_add_Some in Hadd as [-> _].
  destruct (Z.ltb_spec 64 (cs_branch_count st + 1)).
  { apply andb_false_iff. right. apply Z.leb_gt. unfold MAX_MATCHER_BRANCHES. lia. }
  specialize (IH (depth + 1) {| cs_capabilities := cs_capabilities st;
    cs_branch_count := cs_branch_count st + 1 |} ltac:(lia)). simpl in IH.
  specialize (IH ltac:(unfold MAX_MATCHER_BRANCHES; lia)). unfold within_limits in IH.
  replace (depth + (1 + spec_depth b)) with (depth + 1 + spec_depth b) by lia.
  replace (cs_branch_count st + (1 + spec_branches b))
    with (cs_branch_count st + 1 + spec_branches b) by lia.
  destruct (compile_node b (depth + 1) _) as [st' [node|e]]; [|done].
  destruct IH as (Hfit & -> & Hn). split_and!; [done| |by constructor].
  unfold after_compile. simpl. f_equal.
Qed.

Lemma compile_node_exact spec : compiles_as spec.
Proof.
  assert (∀ b : bool, b = false ↔ ¬ b = true) as Hfalse by (intros []; split; done).
  induction spec as [s op v rp rc|bs IH|bs IH|b IH] using spec_induct; intros depth st Hd Hst;
    (destruct (Z.ltb_spec MAX_MATCHER_DEPTH depth) as [Hdeep|Hdeep];
     [ match goal with |- context [compile_node ?sp ?d ?t] =>
         assert (compile_node sp d t = (t, Err BooleanDepthExceeded)) as ->
           by (simpl; by rewrite (proj2 (Z.ltb_lt _ _) Hdeep));
         unfold within_limits; pose proof (spec_depth_nonneg sp);
         apply andb_false_iff; left; apply andb_false_iff; right; apply Z.leb_gt; lia end
     | apply Z.ltb_ge in Hdeep; cbn [compile_node]; rewrite Hdeep; apply Z.ltb_ge in Hdeep ]).
  - unfold within_limits. simpl. destruct (compile_predicate s op v rp rc) as [p|e] eqn:Hp; simpl; [|done].
    split_and!.
    + rewrite Z.add_0_r. apply andb_true_iff. rewrite !Z.leb_le. lia.
    + unfold after_compile. simpl. f_equal; [|lia]. unfold compile_predicate in Hp.
      destruct (parse_selector s) as [id|]; [|done]. simpl in Hp.
      destruct (negb _); [done|]. destruct (compile_pattern op v); [|done]. simpl in Hp.
      injection Hp as <-. simpl. unfold bs_extend. by rewrite foldl_app.
    + by constructor.
  - pose proof (group_compile NAll bs depth st IH Hd Hst) as Hg.
    destruct (ebind _ _ st) as [st' [node|e]].
    + destruct Hg as (Hl & -> & ns & -> & Hns). split_and!; [apply (group_within bs); auto|done|by constructor].
    + apply Hfalse. rewrite (group_within bs); auto.
  - pose proof (group_compile NAny bs depth st IH Hd Hst) as Hg.
    destruct (ebind _ _ st) as [st' [node|e]].
    + destruct Hg as (Hl & -> & ns & -> & Hns). split_and!; [apply (group_within bs); auto|done|by constructor].
    + apply Hfalse. rewrite (group_within bs); auto.
  - by apply not_compile.
Qed.

(** *** Compiled predicates *)

Fixpoint predicates_of (node : CompiledMatcherNode) : list CompiledPredicate :=
  match node with
  | NPredicate p => [p]
  | NAll ns | NAny ns => concat (map predicates_of ns)
  | NNot n => predicates_of n
  end.

Definition is_pattern (op : MatcherOperator) : bool :=
  match op with OpRegex | OpGlob => true | _ => false end.

Record predicate_wf (p : CompiledPredicate) : Prop := {
  pw_selector : selector_as_str (cp_selector p) ∈ SELECTORS;
  pw_value : cp_value p = None ↔ is_presence (cp_operator p) = true;
  pw_pattern : is_Some (cp_pattern p) ↔ is_pattern (cp_operator p) = true;
}.

(** Parsing a selector and printing it are inverse on the registry. *)
Lemma parse_selector_exact value :
  match parse_selector value with
  | Ok s => selector_as_str s = value ∧ value ∈ SELECTORS
  | Err e => e = InvalidSelector ∧ value ∉ SELECTORS
  end.
Proof.
  unfold parse_selector. destruct (List.find _ parse_arms) as [[name s]|] eqn:Harm.
  - apply List.find_some in Harm as [Hin Heq%str_eqb_spec]. simpl in Heq. subst name.
    assert (forallb (λ arm : string * SelectorId,
      str_eqb (selector_as_str arm.2) arm.1 && str_in arm.1 SELECTORS) parse_arms = true) as Hall
      by (vm_compute; reflexivity).
    rewrite forallb_forall in Hall. specialize (Hall _ Hin). cbn [fst snd] in Hall.
    apply andb_true_iff in Hall as [Hname Hsel]. by apply str_eqb_spec in Hname; apply str_in_spec in Hsel.
  - destruct (List.find _ SELECTORS) as [name|] eqn:Hfind; simpl.
    + apply List.find_some in Hfind as [Hin Heq%str_eqb_spec]. subst name.
      split; [done|]. by apply list_elem_of_In.
    + split; [done|]. intros Hin%list_elem_of_In. apply (List.find_none _ _ Hfind) in Hin.
      assert (str_eqb value value = true) by (by apply str_eqb_spec). congruence.
Qed.

Lemma compile_predicate_wf s op v rp rc p :
  compile_predicate s op v rp rc = Ok p → predicate_wf p.
Proof.
  unfold compile_predicate. pose proof (parse_selector_exact s) as Hs.
  destruct (parse_selector s) as [id|]; [|done]. destruct Hs as [Hname Hin]. simpl.
  destruct (negb _) eqn:Hval; [done|]. apply negb_false_iff, Bool.eqb_prop in Hval.
  destruct (compile_pattern op v) as [pat|] eqn:Hpat; [|done]. intros [= <-]. split; simpl.
  - by rewrite Hname.
  - rewrite Hval. by destruct v.
  - unfold compile_pattern in Hpat. destruct op; simpl;
      try (injection Hpat as <-; split; [by intros [? ?]|done]);
      (destruct v as [[]|]; try done; destruct (_ <? _); [done|];
       match type of Hpat with context [match ?c with _ => _ end] => destruct c; [|done] end;
       simpl in Hpat; injection Hpat as <-; split; eauto).
Qed.

Lemma compiled_predicates_wf spec : ∀ node, compiled spec node → Forall predicate_wf (predicates_of node).
Proof.
  assert (∀ bs ns, Forall (λ b, ∀ n, compiled b n → Forall predicate_wf (predicates_of n)) bs →
    Forall2 compiled bs ns → Forall predicate_wf (concat (map predicates_of ns))) as Hgroup.
  { intros bs ns Hbs. revert ns. induction Hbs as [|b bs Hb _ IH]; intros ns Hns; inversion Hns; subst; simpl;
      [constructor|]. apply Forall_app. split; auto. }
  induction spec as [s op v rp rc|bs IH|bs IH|b IH] using spec_induct; intros node Hc; inversion Hc; subst; simpl.
  - apply Forall_singleton. by eapply compile_predicate_wf.
  - by eapply Hgroup.
  - by eapply Hgroup.
  - by apply IH.
Qed.

End compile_facts.

(** Compiling a matcher accepts exactly the well-formed specifications: every
    predicate compiles, no group is empty, at most 8 levels of nesting and 64
    branches in all.  The result is the same tree, every predicate names a
    registered selector, has a value unless it tests presence and a pattern
    exactly when it is a regex or glob, and the required capabilities are those of
    its predicates. *)
Theorem compile_matcher_correct `{RegexEngine} `{RegexEscape} `{FloatText} spec :
  match compile_matcher spec with
  | Ok m =>
      spec_compiles spec = true ∧ spec_depth spec ≤ MAX_MATCHER_DEPTH ∧
      spec_branches spec ≤ MAX_MATCHER_BRANCHES ∧
      compiled spec (cm_node m) ∧ Forall predicate_wf (predicates_of (cm_node m)) ∧
      bs_wf (cm_required_capabilities m) ∧
      ∀ c, c ∈ cm_required_capabilities m ↔ c ∈ spec_capabilities spec
  | Err _ =>
      ¬ (spec_compiles spec = true ∧ spec_depth spec ≤ MAX_MATCHER_DEPTH ∧
         spec_branches spec ≤ MAX_MATCHER_BRANCHES)
  end.
Proof.
  unfold compile_matcher.
  pose proof (compile_node_exact spec 0 {| cs_capabilities := []; cs_branch_count := 0 |}
    ltac:(done) ltac:(done)) as Hc.
  unfold within_limits in Hc. simpl in Hc.
  destruct (compile_node spec 0 _) as [st [node|e]].
  - destruct Hc as (Hl & -> & Hn). rewrite !andb_true_iff, !Z.leb_le in Hl.
    destruct Hl as [[Hok Hd] Hb]. simpl.
    split_and!; [done|done|done|done|by eapply compiled_predicates_wf|apply bs_of_list_wf|].
    intros c. apply bs_of_list_elem.
  - intros (Hok & Hd & Hb). rewrite Hok in Hc. simpl in Hc.
    apply andb_false_iff in Hc as [Hc|Hc]; apply Z.leb_gt in Hc; lia.
Qed.

(** ** Evaluation without the budget *)

Section outcomes.
Context `{RegexEngine} `{FloatText} {Obs : Type} `{FactsLaws Obs}.

Definition is_string (v : JsonValue) : bool := match v with JString _ => true | _ => false end.
Definition string_is (s : string) (v : JsonValue) : bool :=
  match v with JString t => str_eqb s t | _ => false end.

Definition membership (actual expected : JsonValue) : result bool NonEvaluationReason :=
  match (match expected with JString _ => Some [expected] | JArray vs => Some vs | _ => None end),
        actual with
  | Some values, JString s =>
      if forallb is_string values then Ok (existsb (string_is s) values) else Err TypeMismatch
  | _, _ => Err TypeMismatch
  end.

Definition operator_result (p : CompiledPredicate) (actual expected : JsonValue)
    : result bool NonEvaluationReason :=
  match cp_operator p with
  | OpIn => membership actual expected
  | OpNotIn => result_map negb (membership actual expected)
  | _ => apply_operator p actual expected
  end.

Definition state_of (r : result bool NonEvaluationReason) : MatchState :=
  match r with Ok true => MatchS | Ok false => NoMatch | Err reason => NotEvaluated reason end.

(** The truth value of a predicate. *)
Definition outcome (p : CompiledPredicate) (o : Obs) : MatchState :=
  let resolved := resolve (cp_selector p) o in
  match predicate_gate p o resolved with
  | Some reason => NotEvaluated reason
  | None =>
      match sr_presence resolved, cp_operator p with
      | Present, OpNotExists => NoMatch
      | Present, OpExists => MatchS
      | Present, _ =>
          match sr_value resolved, cp_value p with
          | None, _ => NotEvaluated IneligibleInput
          | Some _, None => NotEvaluated TypeMismatch
          | Some actual, Some expected => state_of (operator_result p actual expected)
          end
      | _, OpNotExists => MatchS
      | _, OpNotEquals | _, OpNotIn => NotEvaluated IneligibleInput
      | _, _ => NoMatch
      end
  end.

Definition predicate_evaluation (p : CompiledPredicate) (o : Obs) : MatchState * list string :=
  (outcome p o, match outcome p o with MatchS => [selector_as_str (cp_selector p)] | _ => [] end).

Fixpoint node_evaluation (o : Obs) (node : CompiledMatcherNode) : MatchState * list string :=
  match node with
  | NPredicate p => predicate_evaluation p o
  | NAll ns => combine_all (map (node_evaluation o) ns)
  | NAny ns => combine_any (map (node_evaluation o) ns)
  | NNot n => combine_not (node_evaluation o n)
  end.

Section node_induction.
Variable P : CompiledMatcherNode → Prop.
Hypothesis Hpred : ∀ p, P (NPredicate p).
Hypothesis Hall : ∀ ns, Forall P ns → P (NAll ns).
Hypothesis Hany : ∀ ns, Forall P ns → P (NAny ns).
Hypothesis Hnot : ∀ n, P n → P (NNot n).

Fixpoint node_induct (node : CompiledMatcherNode) : P node :=
  let go := (fix go (ns : list CompiledMatcherNode) : Forall P ns :=
               match ns with
               | [] => List.Forall_nil P
               | n :: ns' => List.Forall_cons P n ns' (node_induct n) (go ns')
               end) in
  match node with
  | NPredicate p => Hpred p
  | NAll ns => Hall ns (go ns)
  | NAny ns => Hany ns (go ns)
  | NNot n => Hnot n (node_induct n)
  end.

End node_induction.

Variable bounds : SourceBounds.
Hypothesis work_small : sb_work bounds < u64_max.
Notation settled := (settles (work_left bounds)).

Lemma settles_charge_then {A} n (c : Eff BudgetState ProcessingError A) a :
  settled c a → settled (do! charge bounds n in c) a.
Proof. intros Hc. eapply settles_bind; [by apply settles_charge|done]. Qed.

Lemma check_strings_settles values : settled (check_strings bounds values) (forallb is_string values).
Proof.
  induction values as [|v values IH]; simpl; [apply settles_ret|].
  apply settles_charge_then. destruct v; simpl; (apply settles_ret || done).
Qed.

Lemma find_string_settles actual values :
  settled (find_string bounds actual values) (existsb (string_is actual) values).
Proof.
  induction values as [|v values IH]; simpl; [apply settles_ret|].
  destruct v; simpl; try done. apply settles_charge_then.
  destruct (str_eqb actual s); simpl; [apply settles_ret|done].
Qed.

Lemma membership_settles actual expected :
  settled (charged_membership bounds actual expected) (membership actual expected).
Proof.
  unfold charged_membership, membership.
  assert (∀ values, settled
    (let! strings := check_strings bounds values in
     if strings then
       match actual with
       | JString actual => let! found := find_string bounds actual values in eret (Ok found)
       | _ => eret (Err TypeMismatch)
       end
     else eret (Err TypeMismatch))
    match actual with
    | JString s => if forallb is_string values then Ok (existsb (string_is s) values) else Err TypeMismatch
    | _ => Err TypeMismatch
    end) as Hvalues.
  { intros values. eapply settles_bind; [apply check_strings_settles|].
    destruct (forallb is_string values), actual; try apply settles_ret.
    eapply settles_bind; [apply find_string_settles|apply settles_ret]. }
  destruct expected; try (apply settles_ret); [apply Hvalues|apply Hvalues].
Qed.

Lemma predicate_settles p o : settled (evaluate_predicate bounds p o) (predicate_evaluation p o).
Proof.
  unfold evaluate_predicate. eapply settles_bind; [by apply try_resolve_settles|].
  unfold evaluate_resolved_predicate, predicate_evaluation, outcome. apply settles_charge_then.
  destruct (predicate_gate _ _ _) as [reason|]; [apply settles_ret|].
  destruct (bool_decide_reflect (sr_presence (resolve (cp_selector p) o) = Present)) as [Hp|Hp]; simpl.
  2: { destruct (sr_presence (resolve (cp_selector p) o)); [done|..];
         destruct (cp_operator p); apply settles_ret. }
  rewrite Hp.
  assert (∀ r, settled
    (eret match r with
     | Ok true => (MatchS, [selector_as_str (cp_selector p)])
     | Ok false => (NoMatch, [])
     | Err reason => (NotEvaluated reason, [])
     end) (state_of r, match state_of r with MatchS => [selector_as_str (cp_selector p)] | _ => [] end))
    as Hret by (intros [[]|]; apply settles_ret).
  destruct (cp_operator p) eqn:Hop; simpl; try apply settles_ret;
    destruct (sr_value (resolve (cp_selector p) o)) as [actual|]; try apply settles_ret;
    destruct (cp_value p) as [expected|]; try apply settles_ret;
    unfold operator_result; rewrite Hop;
    (eapply settles_bind; [|apply Hret]);
    first [ by apply membership_settles
          | by (eapply settles_bind; [apply membership_settles|apply settles_ret])
          | by (do 2 apply settles_charge_then; apply settles_ret) ].
Qed.

Lemma node_settles o node : settled (evaluate_node bounds node o) (node_evaluation o node).
Proof.
  induction node as [p|ns IH|ns IH|n IH] using node_induct; simpl; apply settles_charge_then.
  - apply predicate_settles.
  - eapply settles_bind; [by apply settles_collect|apply settles_ret].
  - eapply settles_bind; [by apply settles_collect|apply settles_ret].
  - eapply settles_bind; [done|apply settles_ret].
Qed.

End outcomes.

(** ** Three truth values *)

Section kleene.
Context `{RegexEngine} `{FloatText} {Obs : Type} `{FactsLaws Obs}.

(** The matcher as a boolean formula over its predicates. *)
Fixpoint beval (v : CompiledPredicate → bool) (node : CompiledMatcherNode) : bool :=
  match node with
  | NPredicate p => v p
  | NAll ns => forallb (beval v) ns
  | NAny ns => existsb (beval v) ns
  | NNot n => negb (beval v n)
  end.

(** A valuation that settles every undecided predicate one way or the other. *)
Definition settles_unknowns (o : Obs) (ps : list CompiledPredicate) (v : CompiledPredicate → bool)
    : Prop :=
  ∀ p, p ∈ ps → (outcome p o = MatchS → v p = true) ∧ (outcome p o = NoMatch → v p = false).

(** A match or a non-match holds however the undecided predicates are settled;
    an undecided result has the reason of an undecided predicate.  Only a match
    has paths, each the selector of a predicate that matched. *)
Definition evaluation_ok (o : Obs) (node : CompiledMatcherNode) (e : MatchState * list string) : Prop :=
  match e.1 with
  | MatchS =>
      (∀ v, settles_unknowns o (predicates_of node) v → beval v node = true) ∧
      ∀ path, path ∈ e.2 →
        ∃ p, p ∈ predicates_of node ∧ outcome p o = MatchS ∧ path = selector_as_str (cp_selector p)
  | NoMatch => (∀ v, settles_unknowns o (predicates_of node) v → beval v node = false) ∧ e.2 = []
  | NotEvaluated r => (∃ p, p ∈ predicates_of node ∧ outcome p o = NotEvaluated r) ∧ e.2 = []
  end.

Lemma strongest_reason_elem reasons r : strongest_reason reasons = Some r → r ∈ reasons.
Proof.
  revert r; induction reasons as [|s reasons IH]; intros r; simpl; [done|].
  destruct (strongest_reason reasons) as [t|]; [destruct (_ <=? _)|]; intros [= <-];
    (left || (right; by apply IH)).
Qed.

Lemma strongest_reason_None reasons : strongest_reason reasons = None ↔ reasons = [].
Proof.
  destruct reasons as [|r reasons]; simpl; [done|]. split; [|done].
  destruct (strongest_reason reasons); [by destruct (_ <=? _)|done].
Qed.

Lemma in_group n ns p : n ∈ ns → p ∈ predicates_of n → p ∈ concat (map predicates_of ns).
Proof.
  intros Hn Hp. apply list_elem_of_In, in_concat. exists (predicates_of n).
  split; [|by apply list_elem_of_In]. apply in_map. by apply list_elem_of_In.
Qed.

Lemma settles_branch o n ns v :
  n ∈ ns → settles_unknowns o (concat (map predicates_of ns)) v →
  settles_unknowns o (predicates_of n) v.
Proof. intros Hn Hv p Hp. apply Hv. by eapply in_group. Qed.

(** What a group's result says, once its branches are understood. *)
Lemma group_unknown o ns r :
  Forall (λ n, evaluation_ok o n (node_evaluation o n)) ns →
  strongest_reason (unknown_reasons (map (node_evaluation o) ns)) = Some r →
  ∃ p, p ∈ concat (map predicates_of ns) ∧ outcome p o = NotEvaluated r.
Proof.
  intros Hns Hr%strongest_reason_elem. unfold unknown_reasons in Hr.
  apply list_elem_of_omap in Hr as (e & (n & <- & Hn)%list_elem_of_In%in_map_iff & He).
  apply list_elem_of_In in Hn. rewrite Forall_forall in Hns. specialize (Hns n Hn).
  unfold evaluation_ok in Hns. destruct (node_evaluation o n).1; try done. injection He as <-.
  destruct Hns as [(p & Hp & Ho) _]. exists p. split; [by eapply in_group|done].
Qed.

Lemma group_paths o ns path :
  Forall (λ n, evaluation_ok o n (node_evaluation o n)) ns →
  path ∈ matched_paths (map (node_evaluation o) ns) →
  ∃ p, p ∈ concat (map predicates_of ns) ∧ outcome p o = MatchS ∧
    path = selector_as_str (cp_selector p).
Proof.
  intros Hns Hpath. unfold matched_paths in Hpath. rewrite map_map in Hpath.
  apply list_elem_of_In, in_concat in Hpath as (l & (n & <- & Hn)%in_map_iff & Hin%list_elem_of_In).
  apply list_elem_of_In in Hn. rewrite Forall_forall in Hns. specialize (Hns n Hn).
  unfold evaluation_ok in Hns.
  destruct (node_evaluation o n).1; try by apply elem_of_nil in Hin.
  destruct Hns as [_ Hpaths]. destruct (Hpaths path Hin) as (p & Hp & Ho).
  exists p. split; [by eapply in_group|done].
Qed.

Lemma branch_state o ns (s : MatchState) n :
  n ∈ ns → unknown_reasons (map (node_evaluation o) ns) = [] →
  (node_evaluation o n).1 = MatchS ∨ (node_evaluation o n).1 = NoMatch.
Proof.
  intros Hn Hnil. destruct (node_evaluation o n).1 as [| |r] eqn:He; auto. exfalso.
  assert (r ∈ unknown_reasons (map (node_evaluation o) ns)) as Hr.
  { unfold unknown_reasons. apply list_elem_of_omap. exists (node_evaluation o n). rewrite He.
    split; [|done]. apply list_elem_of_In, in_map. by apply list_elem_of_In. }
  rewrite Hnil in Hr. by apply elem_of_nil in Hr.
Qed.

Lemma all_ok o ns :
  Forall (λ n, evaluation_ok o n (node_evaluation o n)) ns →
  evaluation_ok o (NAll ns) (node_evaluation o (NAll ns)).
Proof.
  intros Hns. pose proof Hns as Hns'. rewrite Forall_forall in Hns'. simpl. unfold combine_all.
  destruct (existsb is_no_match (map (node_evaluation o) ns)) eqn:Hno.
  { split; [|done]. intros v Hv. apply existsb_exists in Hno as (e & (n & <- & Hn)%in_map_iff & He).
    apply list_elem_of_In in Hn. specialize (Hns' n Hn). unfold evaluation_ok, is_no_match in *.
    destruct (node_evaluation o n).1; try done. destruct Hns' as [Hns' _]. simpl.
    apply not_true_iff_false. rewrite forallb_forall. intros Hall.
    specialize (Hall n ltac:(by apply list_elem_of_In)). rewrite Hns' in Hall; [done|].
    by eapply settles_branch. }
  destruct (strongest_reason _) as [r|] eqn:Hr.
  { split; [|done]. by eapply group_unknown. }
  split; [|intros path; by apply group_paths]. intros v Hv. simpl. apply forallb_forall.
  intros n Hn%list_elem_of_In. apply strongest_reason_None in Hr.
  destruct (branch_state o ns MatchS n Hn Hr) as [He|He]; specialize (Hns' n Hn);
    unfold evaluation_ok in Hns'; rewrite He in Hns'.
  - apply Hns'. by eapply settles_branch.
  - exfalso. apply not_true_iff_false in Hno. apply Hno, existsb_exists.
    exists (node_evaluation o n). unfold is_no_match. rewrite He. split; [|done].
    apply in_map. by apply list_elem_of_In.
Qed.

Lemma any_ok o ns :
  Forall (λ n, evaluation_ok o n (node_evaluation o n)) ns →
  evaluation_ok o (NAny ns) (node_evaluation o (NAny ns)).
Proof.
  intros Hns. pose proof Hns as Hns'. rewrite Forall_forall in Hns'. simpl. unfold combine_any.
  destruct (existsb is_match_state (map (node_evaluation o) ns)) eqn:Hyes.
  { split; [|intros path; by apply group_paths]. intros v Hv. simpl.
    apply existsb_exists in Hyes as (e & (n & <- & Hn)%in_map_iff & He). apply existsb_exists. exists n.
    split; [done|]. apply list_elem_of_In in Hn. specialize (Hns' n Hn).
    unfold evaluation_ok, is_match_state in *. destruct (node_evaluation o n).1; try done.
    apply Hns'. by eapply settles_branch. }
  destruct (strongest_reason _) as [r|] eqn:Hr.
  { split; [|done]. by eapply group_unknown. }
  split; [|done]. intros v Hv. simpl. apply not_true_iff_false. rewrite existsb_exists.
  intros (n & Hn%list_elem_of_In & Hb). apply strongest_reason_None in Hr.
  destruct (branch_state o ns MatchS n Hn Hr) as [He|He]; specialize (Hns' n Hn);
    unfold evaluation_ok in Hns'; rewrite He in Hns'.
  - apply not_true_iff_false in Hyes. apply Hyes, existsb_exists.
    exists (node_evaluation o n). unfold is_match_state. rewrite He. split; [|done].
    apply in_map. by apply list_elem_of_In.
  - destruct Hns' as [Hns' _]. rewrite Hns' in Hb; [done|]. by eapply settles_branch.
Qed.

Lemma node_ok o node : evaluation_ok o node (node_evaluation o node).
Proof.
  induction node as [p|ns IH|ns IH|n IH] using node_induct.
  - unfold evaluation_ok. simpl. destruct (outcome p o) eqn:Ho.
    + split; [intros v Hv; apply Hv; [left|done]|]. intros path Hp%list_elem_of_singleton.
      exists p. split; [left|done].
    + split; [|done]. intros v Hv. apply Hv; [left|done].
    + split; [|done]. exists p. split; [left|done].
  - by apply all_ok.
  - by apply any_ok.
  - unfold evaluation_ok in *. simpl. destruct (node_evaluation o n) as [[| |r] paths]; simpl in *.
    + split; [|done]. intros v Hv. destruct IH as [IH _]. by rewrite IH.
    + destruct IH as [IH ->]. split; [intros v Hv; by rewrite IH|]. intros path Hp. by apply elem_of_nil in Hp.
    + split; [apply IH|done].
Qed.

End kleene.


(** ** Predicates *)

Definition with_operator `{RegexEngine} (op : MatcherOperator) (p : CompiledPredicate)
    : CompiledPredicate :=
  {| cp_selector := cp_selector p; cp_operator := op; cp_value := cp_value p;
     cp_expected_bytes := cp_expected_bytes p;
     cp_require_provenance := cp_require_provenance p;
     cp_require_capability := cp_require_capability p; cp_pattern := cp_pattern p |}.

Definition negation_of (op : MatcherOperator) : option MatcherOperator :=
  match op with
  | OpEquals => Some OpNotEquals
  | OpIn => Some OpNotIn
  | OpExists => Some OpNotExists
  | _ => None
  end.

Definition negate_state (s : MatchState) : MatchState :=
  match s with MatchS => NoMatch | NoMatch => MatchS | NotEvaluated r => NotEvaluated r end.

Lemma state_of_negb r : state_of (result_map negb r) = negate_state (state_of r).
Proof. by destruct r as [[]|]. Qed.

(** With enough work evaluating a predicate returns its outcome, and a
    predicate decides only eligible facts.  When its outcome is a match or a
    non-match, the capability it requires is supported, the fact is present or
    known to be absent, and a present fact has the required provenance; an absent
    fact matches only [not_exists] and never settles [not_equals] or [not_in].  On
    a present fact each negative operator is the complement of its positive one,
    and undecided for the same reason. *)
Theorem predicate_outcome_sound `{RegexEngine} `{FloatText} {Obs} `{FactsLaws Obs}
    bounds (p : CompiledPredicate) (o : Obs) :
  sb_work bounds < u64_max →
  let fact := resolve (cp_selector p) o in
  settles (work_left bounds) (evaluate_predicate bounds p o)
    (outcome p o, match outcome p o with MatchS => [selector_as_str (cp_selector p)] | _ => [] end) ∧
  ((∀ r, outcome p o ≠ NotEvaluated r) →
   (∀ c, cp_require_capability p = Some c → context_status (capability_context o) c = Supported) ∧
   (sr_presence fact = Present ∧
      (∀ required, cp_require_provenance p = Some required → sr_provenance fact = Some required) ∨
    sr_presence fact = Absent ∧ cp_operator p ≠ OpNotEquals ∧ cp_operator p ≠ OpNotIn ∧
      (outcome p o = MatchS ↔ cp_operator p = OpNotExists))) ∧
  (∀ op negative, negation_of op = Some negative → sr_presence fact = Present →
     outcome (with_operator negative p) o = negate_state (outcome (with_operator op p) o)).
Proof.
  intros Hsmall fact. split_and!; [by apply predicate_settles|..].
  - unfold outcome. fold fact. intros Hdecided.
    destruct (predicate_gate p o fact) as [r|] eqn:Hgate; [by specialize (Hdecided r)|].
    unfold predicate_gate in Hgate. destruct (cp_require_capability p) as [c|] eqn:Hc.
    + unfold preflight_capability in Hgate.
      destruct (context_status (capability_context o) c) eqn:Hs; try done.
      split; [by intros ? [= <-]|]. destruct (sr_presence fact) eqn:Hp; try done.
      * left. split; [done|]. intros required Hreq. rewrite Hreq in Hgate.
        by destruct (bool_decide_reflect (sr_provenance fact = Some required)).
      * right. destruct (cp_operator p); try (by specialize (Hdecided IneligibleInput));
          split_and!; done.
    + split; [done|]. destruct (sr_presence fact) eqn:Hp; try done.
      * left. split; [done|]. intros required Hreq. rewrite Hreq in Hgate.
        by destruct (bool_decide_reflect (sr_provenance fact = Some required)).
      * right. destruct (cp_operator p); try (by specialize (Hdecided IneligibleInput));
          split_and!; done.
  - intros op negative Hneg Hp. unfold outcome. simpl. fold fact.
    change (predicate_gate (with_operator negative p) o fact) with (predicate_gate p o fact).
    change (predicate_gate (with_operator op p) o fact) with (predicate_gate p o fact).
    destruct (predicate_gate p o fact); [done|]. rewrite Hp.
    destruct op; try done; injection Hneg as <-; try done;
      destruct (sr_value fact) as [actual|]; try done; destruct (cp_value p) as [expected|]; try done;
      unfold operator_result; simpl; apply state_of_negb.
Qed.

(** ** A small matcher *)

Definition plain_escape : RegexEscape := λ s, s.
Definition short_floats : FloatText := λ _, 1.

(** Observations with a tool name and nothing else. *)
Definition tool_facts : Facts string := {|
  capability_context := λ _, Some [(ToolCall, Supported)];
  retained_byte_len := len;
  try_resolve := λ bounds selector o,
    do! charge bounds 1 in
    eret match selector with
         | ToolName => {| sr_presence := Present; sr_value := Some (JString o);
                          sr_provenance := Some Reported |}
         | _ => {| sr_presence := Absent; sr_value := None; sr_provenance := None |}
         end |}.

Definition tool_laws : @FactsLaws string tool_facts.
Proof.
  refine (@Build_FactsLaws string tool_facts (λ selector o,
    match selector with
    | ToolName => {| sr_presence := Present; sr_value := Some (JString o);
                     sr_provenance := Some Reported |}
    | _ => {| sr_presence := Absent; sr_value := None; sr_provenance := None |}
    end) _).
  intros bounds selector o Hsmall. eapply settles_bind; [by apply settles_charge|apply settles_ret].
Defined.

(** The tool is [bash] and there is no result, or the exit code is positive. *)
Definition small_spec : MatcherSpec :=
  SAny [SAll [SPredicate "tool.name" OpEquals (Some (JString "bash")) (Some Reported) None;
              SPredicate "tool.result" OpNotExists None None None];
        SPredicate "tool.exit_code" OpGt (Some (JInteger 0)) None None].

Example small_spec_compiles :
  match @compile_matcher literal_engine plain_escape short_floats small_spec with
  | Ok m => cm_required_capabilities m = [ToolCall]
  | Err _ => False
  end.
Proof. vm_compute. reflexivity. Qed.


(** On a present tool name [not_equals] is the complement of [equals]. *)
Definition name_is (name : string) : @CompiledPredicate literal_engine :=
  {| cp_selector := ToolName; cp_operator := OpEquals; cp_value := Some (JString name);
     cp_expected_bytes := 0; cp_require_provenance := Some Reported;
     cp_require_capability := Some ToolCall; cp_pattern := None |}.

Lemma predicate_outcome_sound_witness :
  @outcome literal_engine string tool_facts tool_laws (name_is "bash") "bash" = MatchS ∧
  @outcome literal_engine string tool_facts tool_laws (with_operator OpNotEquals (name_is "bash")) "bash"
    = negate_state (@outcome literal_engine string tool_facts tool_laws
        (with_operator OpEquals (name_is "bash")) "bash").
Proof.
  split; [vm_compute; reflexivity|].
  apply (proj2 (proj2 (@predicate_outcome_sound literal_engine short_floats string tool_facts tool_laws
    (bounds_of FLOOR) (name_is "bash") "bash" ltac:(vm_compute; reflexivity)))); reflexivity.
Defined.
