(* ===== verification/Delivery.v ===== *)
(** * Delivery errors, retry policy and canonical payloads

    The parts of src/sink/mod.rs and src/sink/outbox.rs that the outbox, the
    dispatcher and pruning share: structured delivery errors, delivery states and
    their stored text, the retry schedule, bounded text, and the validation of one
    canonical event record.

    SHA-256, JSON text and the privacy sanitizer are the interfaces [Digest],
    [JsonCodec] and [Diagnostics].  Messages are the ones of the source. *)

From S2P Require Import Prelude Ordered Rstr Json.
From stdpp Require Import pretty.
From Stdlib Require Import Ascii.

Local Open Scope Z_scope.

(** ** Interfaces *)

(** [Sha256::digest]. *)
Class Digest : Type := sha256 : list ascii → list ascii.
Class DigestLaws `{Digest} : Prop := sha256_length : ∀ b, length (sha256 b) = 32%nat.

(** [PrivacySanitizer::sanitize(SanitizationContext::Diagnostic, _)]. *)
Class Diagnostics : Type := sanitize : string → string.

(** serde_json on records and on the stored list of sink identities, and the walk
    [check_serialized_event_markers(bytes, "outbox-payload", &[])]. *)
Class JsonCodec : Type := {
  from_slice : list ascii → result JsonValue string;
  check_markers : list ascii → result unit string;
  ids_to_string : list string → string;
  ids_from_str : string → option (list string);
}.

(** Encoding then decoding a list of strings gives it back. *)
Class JsonCodecLaws `{JsonCodec} : Prop :=
  ids_roundtrip : ∀ ids, ids_from_str (ids_to_string ids) = Some ids.

(** ** Delivery errors *)

Inductive DeliveryErrorClass :=
| TransportNoResponse
| Timeout
| HttpStatus (status : Z)
| SinkApplicationRejected
| SinkApplicationRetryable
| SinkResponseBlocked
| AuthenticationBlocked (status : Z)
| PayloadCollision
| DurableStorage
| UnknownInternal.

#[export] Instance DeliveryErrorClass_eq_dec : EqDecision DeliveryErrorClass.
Proof. solve_decision. Defined.

Definition class_as_str (c : DeliveryErrorClass) : string :=
  match c with
  | TransportNoResponse => "transport_no_response"
  | Timeout => "timeout"
  | HttpStatus _ => "http_status"
  | SinkApplicationRejected => "sink_application_rejected"
  | SinkApplicationRetryable => "sink_application_retryable"
  | SinkResponseBlocked => "sink_response_blocked"
  | AuthenticationBlocked _ => "authentication_blocked"
  | PayloadCollision => "payload_collision"
  | DurableStorage => "durable_storage"
  | UnknownInternal => "unknown_internal"
  end.

Definition is_retryable (c : DeliveryErrorClass) : bool :=
  match c with
  | TransportNoResponse | Timeout | SinkApplicationRetryable => true
  | HttpStatus status =>
      (status =? 408) || (status =? 429) || ((500 <=? status) && (status <? 600))
  | SinkApplicationRejected | SinkResponseBlocked | AuthenticationBlocked _
  | PayloadCollision | DurableStorage | UnknownInternal => false
  end.

Record DeliveryError := {
  de_class : DeliveryErrorClass;
  de_attempts : Z;
  de_message : string;
}.

(** [Box<dyn Error>]: a structured error, or another error as its text. *)
Inductive BoxedError := Structured (e : DeliveryError) | Raw (text : string).

Section errors.
Context `{Diagnostics}.

Definition delivery_error_new (class : DeliveryErrorClass) (attempts : Z) (message : string)
    : DeliveryError :=
  {| de_class := class; de_attempts := attempts; de_message := sanitize message |}.

(** [impl Display for DeliveryError]. *)
Definition delivery_error_display (e : DeliveryError) : string :=
  de_message e +:+ " (after " +:+ pretty (de_attempts e) +:+ " attempts)".

Definition boxed_display (e : BoxedError) : string :=
  match e with Structured e => delivery_error_display e | Raw text => text end.

(** The class a failure is handled by, and its diagnostic. *)
Definition delivery_error_details (e : BoxedError) : DeliveryErrorClass * string :=
  match e with
  | Structured e => (de_class e, sanitize (de_message e))
  | Raw text => (UnknownInternal, sanitize text)
  end.

Definition storage_message (message : string) : DeliveryError :=
  delivery_error_new DurableStorage 0 (sanitize message).

Definition storage_error (context error : string) : DeliveryError :=
  storage_message ("outbox " +:+ context +:+ ": " +:+ error).

Definition storage_delivery_error (context error : string) : DeliveryError :=
  delivery_error_new DurableStorage 0 ("outbox " +:+ context +:+ ": " +:+ error).

Definition canonical_error (message : string) : DeliveryError :=
  delivery_error_new UnknownInternal 0 (sanitize message).

Definition payload_collision_error : DeliveryError :=
  delivery_error_new PayloadCollision 0
    "outbox event identity maps to different canonical payload bytes".

Definition capacity_exceeded_error (limit_kind : string) (current projected limit : Z)
    : DeliveryError :=
  delivery_error_new DurableStorage 0
    ("durable capacity exceeded: limit_kind=" +:+ limit_kind +:+ " current=" +:+
     pretty current +:+ " projected=" +:+ pretty projected +:+ " limit=" +:+ pretty limit).

End errors.

(** ** Delivery states and generation lifecycle, with their stored text *)

Inductive DeliveryState := Pending | Acked | Blocked | Dead.

#[export] Instance DeliveryState_eq_dec : EqDecision DeliveryState.
Proof. solve_decision. Defined.

Definition state_as_str (s : DeliveryState) : string :=
  match s with
  | Pending => "pending" | Acked => "acked" | Blocked => "blocked" | Dead => "dead"
  end.

Definition state_from_str (value : string) : option DeliveryState :=
  if str_eqb value "pending" then Some Pending
  else if str_eqb value "acked" then Some Acked
  else if str_eqb value "blocked" then Some Blocked
  else if str_eqb value "dead" then Some Dead
  else None.

Inductive GenerationLifecycle := Present | PrunePending | Pruned.

#[export] Instance GenerationLifecycle_eq_dec : EqDecision GenerationLifecycle.
Proof. solve_decision. Defined.

Definition lifecycle_from_str (value : string) : option GenerationLifecycle :=
  if str_eqb value "present" then Some Present
  else if str_eqb value "prune_pending" then Some PrunePending
  else if str_eqb value "pruned" then Some Pruned
  else None.

(** The text the UPDATE and INSERT statements write. *)
Definition lifecycle_text (l : GenerationLifecycle) : string :=
  match l with
  | Present => "present" | PrunePending => "prune_pending" | Pruned => "pruned"
  end.

Definition u16_try_from (z : Z) : option Z :=
  if (0 <=? z) && (z <=? 65535) then Some z else None.

Section codec.
Context `{Diagnostics}.

Definition encode_error_class (class : option DeliveryErrorClass) : option string * option Z :=
  match class with
  | None => (None, None)
  | Some (HttpStatus status) => (Some "http_status", Some status)
  | Some (AuthenticationBlocked status) => (Some "authentication_blocked", Some status)
  | Some class => (Some (class_as_str class), None)
  end.

Definition decode_error_class (class : option string) (status : option Z)
    : result (option DeliveryErrorClass) DeliveryError :=
  match class with
  | None =>
      match status with
      | Some _ => Err (storage_message "stored error status has no error class")
      | None => Ok None
      end
  | Some class =>
      let? status :=
        match status with
        | None => Ok None
        | Some z =>
            match u16_try_from z with
            | Some s => Ok (Some s)
            | None => Err (storage_message "stored error status is invalid")
            end
        end in
      let absent := match status with None => true | Some _ => false end in
      let invalid := storage_message "stored delivery error class is invalid" in
      let unit_class (c : DeliveryErrorClass) := if absent then Ok (Some c) else Err invalid in
      if str_eqb class "transport_no_response" then unit_class TransportNoResponse
      else if str_eqb class "timeout" then unit_class Timeout
      else if str_eqb class "http_status" then
        match status with
        | Some s => Ok (Some (HttpStatus s))
        | None => Err (storage_message "HTTP error status is missing")
        end
      else if str_eqb class "sink_application_rejected" then unit_class SinkApplicationRejected
      else if str_eqb class "sink_application_retryable" then
        unit_class SinkApplicationRetryable
      else if str_eqb class "sink_response_blocked" then unit_class SinkResponseBlocked
      else if str_eqb class "authentication_blocked" then
        match status with
        | Some s => Ok (Some (AuthenticationBlocked s))
        | None => Err (storage_message "authentication status is missing")
        end
      else if str_eqb class "payload_collision" then unit_class PayloadCollision
      else if str_eqb class "durable_storage" then unit_class DurableStorage
      else if str_eqb class "unknown_internal" then unit_class UnknownInternal
      else Err invalid
  end.

End codec.

(** A class whose status is a [u16]. *)
Definition class_in_range (c : DeliveryErrorClass) : Prop :=
  match c with
  | HttpStatus s | AuthenticationBlocked s => 0 ≤ s ≤ 65535
  | _ => True
  end.

(** ** Retry schedule *)

Definition MAX_RETRY_DELAY_MILLIS : Z := 24 * 60 * 60 * 1000.

Record RetryConfig := {
  max_attempts : Z;
  base_delay_ms : Z;
}.

Definition i64_min : Z := - 2 ^ 63.
Definition i64_saturating_add (a b : Z) : Z := Z.max i64_min (Z.min (a + b) i64_max).
Definition i64_saturating_sub (a b : Z) : Z := Z.max i64_min (Z.min (a - b) i64_max).

Definition next_retry_at (now_millis base_delay_millis attempt : Z) : Z :=
  let exponent := Z.min (saturating_sub attempt 1) 31 in
  let multiplier := Z.shiftl 1 exponent in
  let delay :=
    Z.min (saturating_mul (Z.max base_delay_millis 1) multiplier) MAX_RETRY_DELAY_MILLIS in
  i64_saturating_add now_millis (if delay <=? i64_max then delay else i64_max).

(** ** Bounded text and identities *)

Definition MAX_CURSOR_TEXT : Z := 128.

Section text.
Context `{Diagnostics}.

Definition bounded_cursor_text (value what : string) : result string DeliveryError :=
  if is_empty value || (MAX_CURSOR_TEXT <? len value) || has_control value
  then Err (storage_message ("durable ingest " +:+ what +:+ " is invalid"))
  else Ok value.

Definition is_lower_hex (c : ascii) : bool := is_ascii_digit c || byte_between 97 102 c.

Definition validate_journal_path_hash (value : string) : result string DeliveryError :=
  let? value := bounded_cursor_text value "journal path hash" in
  if negb (len value =? 64) || existsb (λ byte, negb (is_lower_hex byte)) (bytes value)
  then Err (storage_message "durable journal path identity is invalid")
  else Ok value.

(** The body of the loop of [validate_sink_ids]; [values] is the [BTreeSet]. *)
Definition validate_sink_id (values : list string) (sink_id : string)
    : result (list string) DeliveryError :=
  let sink_id := trim sink_id in
  if is_empty sink_id then Err (canonical_error "outbox sink identity is empty")
  else if MAX_CURSOR_TEXT <? len sink_id then
    Err (canonical_error "outbox sink identity is too long")
  else if has_control sink_id then
    Err (canonical_error "outbox sink identity contains control characters")
  else Ok (bs_insert sink_id values).

Definition validate_sink_ids (sink_ids : list string) (require_one : bool)
    : result (list string) DeliveryError :=
  let? values := try_fold validate_sink_id [] sink_ids in
  match values with
  | [] => if require_one
          then Err (canonical_error "durable ingest requires a configured sink identity")
          else Ok []
  | _ => Ok values
  end.

End text.

(** [is_native_event_id]: "telltale-" and a lowercase version 4 UUID. *)
Definition is_native_event_id (value : string) : bool :=
  match Rstr.strip_prefix value "telltale-" with
  | None => false
  | Some uuid =>
      let b := bytes uuid in
      let at_is (i : nat) (c : ascii) :=
        match b !! i with Some x => Ascii.eqb x c | None => false end in
      (length b =? 36)%nat
      && at_is 8%nat "-"%char && at_is 13%nat "-"%char
      && at_is 18%nat "-"%char && at_is 23%nat "-"%char
      && at_is 14%nat "4"%char
      && (at_is 19%nat "8"%char || at_is 19%nat "9"%char
          || at_is 19%nat "a"%char || at_is 19%nat "b"%char)
      && forallb (λ '(index, byte),
           bool_decide (index ∈ [8; 13; 18; 23]%nat)
           || byte_between 48 57 byte || byte_between 97 102 byte)
         (imap pair b)
  end.

(** ** Canonical payloads *)

Record Event3DurablePayload := {
  p_event_id : string;
  p_bytes : list ascii;
  p_hash : list ascii;
  p_generation_id : option string;
  p_generation_offset : option Z;
}.

Record CapacityLimits := {
  max_pending_events : Z;
  max_pending_bytes : Z;
}.

Definition DEFAULT_MAX_PENDING_EVENTS : Z := 100000.
Definition DEFAULT_MAX_PENDING_BYTES : Z := 512 * 1024 * 1024.
Definition capacity_limits_default : CapacityLimits :=
  {| max_pending_events := DEFAULT_MAX_PENDING_EVENTS;
     max_pending_bytes := DEFAULT_MAX_PENDING_BYTES |}.

(** [Value::get] with a key, and [Value::as_str]. *)
Definition json_member (key : string) (members : list (string * JsonValue)) : option JsonValue :=
  snd <$> List.find (λ m, str_eqb (fst m) key) members.
Definition json_get (v : JsonValue) (key : string) : option JsonValue :=
  match v with JObject members => json_member key members | _ => None end.
Definition json_as_str (v : JsonValue) : option string :=
  match v with JString s => Some s | _ => None end.
Definition json_get_str (v : JsonValue) (key : string) : option string :=
  json_get v key ≫= json_as_str.
Definition json_is_array (v : JsonValue) : bool :=
  match v with JArray _ => true | _ => false end.

Definition NATIVE_SCHEMA_VERSION : string := "3.0".

Definition REQUIRED_TEXT_FIELDS : list string :=
  ["schema_version"; "event_id"; "telltale_version"; "timestamp"; "observed_at";
   "ingested_at"; "time_source"; "time_confidence"; "event_type"; "severity";
   "client"; "session_id"].
Definition REQUIRED_ARRAY_FIELDS : list string := ["risk_contributions"; "tags"; "evidence"].

Section payload.
Context `{Digest, Diagnostics, JsonCodec}.

Definition validate_canonical_event_bytes (b : list ascii) (expected_event_id : option string)
    : result unit DeliveryError :=
  check? map_err (λ e, canonical_error ("serialized Event 3.0 check failed: " +:+ e))
           (check_markers b) in
  let? value := map_err (λ e, canonical_error ("serialized Event 3.0 is invalid: " +:+ e))
                  (from_slice b) in
  match value with
  | JObject object =>
      let text (field : string) := json_member field object ≫= json_as_str in
      check? collect (λ field,
          match text field with
          | Some v =>
              if negb (is_empty (trim v)) then Ok tt
              else Err (canonical_error
                ("serialized Event 3.0 is missing required field " +:+ field))
          | None => Err (canonical_error
              ("serialized Event 3.0 is missing required field " +:+ field))
          end) REQUIRED_TEXT_FIELDS in
      if bool_decide (text "schema_version" ≠ Some NATIVE_SCHEMA_VERSION) then
        Err (canonical_error "serialized event has an unsupported schema version")
      else
        match text "event_id" with
        (* [expect]: the field was checked by the loop, so this is never reached *)
        | None => Err (canonical_error "event_id was checked above")
        | Some serialized_event_id =>
            if negb (is_native_event_id serialized_event_id) then
              Err (canonical_error "serialized event has an invalid event ID")
            else if match expected_event_id with
                    | Some event_id => negb (str_eqb event_id serialized_event_id)
                    | None => false
                    end then
              Err (canonical_error "serialized event ID does not match its record identity")
            else
              check? collect (λ field,
                  if match json_member field object with
                     | Some v => json_is_array v | None => false end
                  then Ok tt
                  else Err (canonical_error
                    ("serialized Event 3.0 field " +:+ field +:+ " is not an array")))
                REQUIRED_ARRAY_FIELDS in
              Ok tt
        end
  | _ => Err (canonical_error "serialized Event 3.0 is not an object")
  end.

Definition canonical_payload_from_bytes (b : list ascii)
    : result Event3DurablePayload DeliveryError :=
  let? value := map_err (λ e, canonical_error ("canonical JSONL record is invalid: " +:+ e))
                  (from_slice b) in
  let? event_id := ok_or (json_get_str value "event_id")
                     (canonical_error "canonical JSONL record has no event ID") in
  check? validate_canonical_event_bytes b (Some event_id) in
  Ok {| p_event_id := event_id; p_bytes := b; p_hash := sha256 b;
        p_generation_id := None; p_generation_offset := None |}.

Definition is_delivery_failure_alert_payload (b : list ascii) : bool :=
  match from_slice b with
  | Err _ => false
  | Ok value =>
      bool_decide (json_get_str value "event_type" = Some "operational_alert")
      && bool_decide (json_get_str value "check_name" = Some "sink_delivery")
  end.

Definition validate_capacity_limits (limits : CapacityLimits) : result unit DeliveryError :=
  if max_pending_events limits =? 0 then
    Err (storage_message "durable max pending event capacity must be greater than zero")
  else if max_pending_bytes limits =? 0 then
    Err (storage_message "durable max pending byte capacity must be greater than zero")
  else if u64_max <? max_pending_events limits then
    Err (storage_message "durable max pending event capacity is too large")
  else if u64_max <? max_pending_bytes limits then
    Err (storage_message "durable max pending byte capacity is too large")
  else Ok tt.

Definition validate_capacity_payload (payload : Event3DurablePayload)
    : result unit DeliveryError :=
  check? validate_canonical_event_bytes (p_bytes payload) (Some (p_event_id payload)) in
  if bool_decide (sha256 (p_bytes payload) ≠ p_hash payload) then
    Err (storage_message "prospective durable payload hash does not match its bytes")
  else Ok tt.

End payload.

(** ** Lemmas *)

Lemma state_from_as_str s : state_from_str (state_as_str s) = Some s.
Proof. by destruct s. Qed.

Lemma state_from_str_inv v s : state_from_str v = Some s → v = state_as_str s.
Proof.
  unfold state_from_str.
  repeat case_match; intros [= <-]; by apply str_eqb_spec.
Qed.

Lemma lifecycle_from_text l : lifecycle_from_str (lifecycle_text l) = Some l.
Proof. by destruct l. Qed.

Lemma lifecycle_from_str_inv v l : lifecycle_from_str v = Some l → v = lifecycle_text l.
Proof.
  unfold lifecycle_from_str.
  repeat case_match; intros [= <-]; by apply str_eqb_spec.
Qed.

Lemma u16_try_from_Some z s : u16_try_from z = Some s ↔ s = z ∧ 0 ≤ z ≤ 65535.
Proof. unfold u16_try_from. case_match; naive_solver lia. Qed.

Section lemmas.
Context `{Digest, Diagnostics, JsonCodec}.

Lemma decode_encode_class c :
  (∀ k, c = Some k → class_in_range k) →
  let '(class, status) := encode_error_class c in decode_error_class class status = Ok c.
Proof.
  intros Hc. destruct c as [[]|]; simpl; try reflexivity;
    specialize (Hc _ eq_refl); simpl in Hc; unfold decode_error_class;
    by rewrite (proj2 (u16_try_from_Some _ _) (conj eq_refl Hc)).
Qed.

Lemma decode_class_in_range class status c k :
  decode_error_class class status = Ok c → c = Some k → class_in_range k.
Proof.
  intros Hd ->. revert Hd. unfold decode_error_class.
  destruct class as [class|]; [|by destruct status].
  destruct status as [z|].
  - destruct (u16_try_from z) as [s|] eqn:Hs; [|done].
    apply u16_try_from_Some in Hs as [-> Hz]. cbv beta iota zeta.
    repeat case_match; intros [= <-]; simpl; done.
  - cbv beta iota zeta. repeat case_match; intros [= <-]; simpl; done.
Qed.

Lemma bounded_cursor_text_Ok value what r :
  bounded_cursor_text value what = Ok r ↔
  r = value ∧ value ≠ "" ∧ len value ≤ MAX_CURSOR_TEXT ∧ has_control value = false.
Proof.
  unfold bounded_cursor_text.
  destruct (is_empty value) eqn:He; simpl.
  { apply is_empty_spec in He. naive_solver. }
  assert (value ≠ "") by (intros ->; done).
  destruct (Z.ltb_spec MAX_CURSOR_TEXT (len value)); simpl; [naive_solver lia|].
  destruct (has_control value); naive_solver.
Qed.

Lemma validate_journal_path_hash_Ok value r :
  validate_journal_path_hash value = Ok r → r = value.
Proof.
  unfold validate_journal_path_hash.
  destruct (bounded_cursor_text value _) as [v|] eqn:Hv; [|done].
  apply bounded_cursor_text_Ok in Hv as [-> _]. case_match; naive_solver.
Qed.

(** A sink identity the outbox accepts. *)
Definition sink_id_ok (s : string) : Prop :=
  s ≠ "" ∧ len s ≤ MAX_CURSOR_TEXT ∧ has_control s = false.

Lemma validate_sink_ids_Ok ids b vs :
  validate_sink_ids ids b = Ok vs →
  vs = bs_of_list (map trim ids) ∧ Forall (λ i, sink_id_ok (trim i)) ids.
Proof.
  unfold validate_sink_ids, bs_of_list.
  enough (∀ acc r, try_fold validate_sink_id acc ids = Ok r →
    r = bs_extend acc (map trim ids) ∧ Forall (λ i, sink_id_ok (trim i)) ids) as Hgen.
  { destruct (try_fold validate_sink_id [] ids) as [r|] eqn:Hr; [|done].
    apply Hgen in Hr as [-> Hok]. destruct (bs_extend [] (map trim ids)); [case_match|];
      intros [= <-]; split; done. }
  induction ids as [|i ids IH]; intros acc r; simpl.
  - intros [= <-]. split; [done | constructor].
  - unfold validate_sink_id at 1. destruct (is_empty (trim i)) eqn:He; [done|].
    destruct (Z.ltb_spec MAX_CURSOR_TEXT (len (trim i))); [done|].
    destruct (has_control (trim i)) eqn:Hc; [done|]. intros Hr.
    apply IH in Hr as [-> Hok]. split; [done|]. constructor; [|done].
    split; [|done]. intros Heq. by rewrite Heq in He.
Qed.

(** What a validated record is. *)
Lemma canonical_payload_from_bytes_Ok b p :
  canonical_payload_from_bytes b = Ok p →
  p_bytes p = b ∧ p_hash p = sha256 b ∧
  validate_canonical_event_bytes b (Some (p_event_id p)) = Ok tt ∧
  p_generation_id p = None ∧ p_generation_offset p = None.
Proof.
  unfold canonical_payload_from_bytes.
  destruct (map_err _ _) as [v|]; [|done]. destruct (ok_or _ _) as [id|]; [|done].
  destruct (validate_canonical_event_bytes b (Some id)) as [[]|] eqn:Hv; [|done].
  intros [= <-]. done.
Qed.

Lemma validate_canonical_event_id b id :
  validate_canonical_event_bytes b (Some id) = Ok tt → is_native_event_id id = true.
Proof.
  unfold validate_canonical_event_bytes.
  destruct (map_err _ (check_markers b)); [|done].
  destruct (map_err _ (from_slice b)) as [v|]; [|done].
  destruct v; try done. cbv zeta. destruct (collect _ _); [|done].
  case_bool_decide; [done|].
  destruct (json_member "event_id" members ≫= json_as_str) as [s|]; [|done].
  destruct (is_native_event_id s) eqn:Hs; cbn [negb]; [|done].
  destruct (str_eqb id s) eqn:He; cbn [negb]; [|done].
  apply str_eqb_spec in He as ->. done.
Qed.

Lemma validate_canonical_event_nonempty b id :
  validate_canonical_event_bytes b (Some id) = Ok tt → id ≠ "".
Proof. by intros Hv%validate_canonical_event_id ->. Qed.

End lemmas.

Lemma next_retry_at_bounds now base attempt :
  0 ≤ now ≤ i64_max - MAX_RETRY_DELAY_MILLIS →
  now < next_retry_at now base attempt ≤ now + MAX_RETRY_DELAY_MILLIS.
Proof.
  intros Hnow. unfold next_retry_at, i64_saturating_add, saturating_mul, saturating_sub.
  set (m := Z.shiftl 1 _).
  assert (1 ≤ m).
  { subst m. rewrite Z.shiftl_1_l.
    pose proof (Z.pow_pos_nonneg 2 (Z.min (Z.max (attempt - 1) 0) 31)). lia. }
  assert (1 ≤ Z.max base 1 * m) by nia.
  set (d := Z.min _ MAX_RETRY_DELAY_MILLIS).
  assert (1 ≤ d ≤ MAX_RETRY_DELAY_MILLIS) by (unfold d, u64_max, MAX_RETRY_DELAY_MILLIS; lia).
  assert (d <=? i64_max = true) as -> by
    (unfold MAX_RETRY_DELAY_MILLIS, i64_max in *; lia).
  unfold i64_min, i64_max, MAX_RETRY_DELAY_MILLIS in *. lia.
Qed.

Lemma next_retry_at_mono now base a b :
  a ≤ b → next_retry_at now base a ≤ next_retry_at now base b.
Proof.
  intros Hab. unfold next_retry_at, i64_saturating_add, saturating_mul, saturating_sub.
  rewrite !Z.shiftl_1_l.
  set (ea := Z.min (Z.max (a - 1) 0) 31). set (eb := Z.min (Z.max (b - 1) 0) 31).
  assert (0 ≤ 2 ^ ea ≤ 2 ^ eb) as Hp.
  { split; [apply Z.pow_nonneg; lia|]. apply Z.pow_le_mono_r; unfold ea, eb; lia. }
  assert (Z.max base 1 * 2 ^ ea ≤ Z.max base 1 * 2 ^ eb) by nia.
  repeat case_match; lia.
Qed.

(** ** A concrete instance

    A toy record format, digest and list encoding that satisfy the interfaces' laws: a
    record is an event identity followed by anything. *)

Module Sample.

Definition digest (b : list ascii) : list ascii := take 32 (rev b ++ replicate 32 "0"%char).

Definition record_of (b : list ascii) : JsonValue :=
  JObject (("schema_version", JString NATIVE_SCHEMA_VERSION)
    :: ("event_id", JString (of_bytes (take 45 b)))
    :: map (λ field, (field, JString "x")) (drop 2 REQUIRED_TEXT_FIELDS)
    ++ map (λ field, (field, JArray [])) REQUIRED_ARRAY_FIELDS).

Definition encode_ids (ids : list string) : list ascii :=
  concat (map (λ id, concat (map (λ c, ["x"%char; c]) (bytes id)) ++ ["."%char]) ids).

Fixpoint decode_ids (acc l : list ascii) : option (list string) :=
  match l with
  | [] => match acc with [] => Some [] | _ => None end
  | "."%char :: l => cons (of_bytes acc) <$> decode_ids [] l
  | "x"%char :: c :: l => decode_ids (acc ++ [c]) l
  | _ => None
  end.

#[export] Instance digest_instance : Digest := digest.
#[export] Instance diagnostics_instance : Diagnostics := λ text, text.
#[export] Instance codec_instance : JsonCodec := {|
  from_slice := λ b, if (45 <=? length b)%nat then Ok (record_of b) else Err "end of input";
  check_markers := λ _, Ok tt;
  ids_to_string := λ ids, of_bytes (encode_ids ids);
  ids_from_str := λ text, decode_ids [] (bytes text);
|}.

#[export] Instance digest_laws : DigestLaws.
Proof.
  intros b. unfold sha256, digest_instance, digest.
  rewrite length_take, length_app, length_replicate. lia.
Qed.

Lemma decode_id acc id l :
  decode_ids acc (concat (map (λ c, ["x"%char; c]) id) ++ l) = decode_ids (acc ++ id) l.
Proof.
  revert acc; induction id as [|c id IH]; intros acc; [by rewrite app_nil_r|].
  cbn [map concat app decode_ids]. rewrite IH. by rewrite <- app_assoc.
Qed.

#[export] Instance codec_laws : JsonCodecLaws.
Proof.
  intros ids. unfold ids_from_str, ids_to_string, codec_instance. rewrite bytes_of_bytes.
  induction ids as [|id ids IH]; [done|]. unfold encode_ids in *. cbn [map concat].
  rewrite <- app_assoc, decode_id. cbn [app decode_ids]. rewrite IH. cbn [fmap option_fmap option_map].
  by rewrite of_bytes_bytes.
Qed.

(** Event identities, and records of the first two. *)
Definition id_a : string := "telltale-00000000-0000-4000-8000-00000000000a".
Definition id_b : string := "telltale-00000000-0000-4000-8000-00000000000b".
Definition id_c : string := "telltale-00000000-0000-4000-8000-00000000000c".
Definition record_a : list ascii := bytes id_a ++ bytes " first".
Definition record_b : list ascii := bytes id_b ++ bytes " second".

Lemma records_canonical :
  is_ok (canonical_payload_from_bytes record_a) = true ∧
  is_ok (canonical_payload_from_bytes record_b) = true.
Proof. split; vm_compute; reflexivity. Qed.

End Sample.
