(* ===== verification/Journal.v ===== *)
(** * The canonical JSONL journal

    src/sink/outbox.rs: reading complete records of journal generations, the durable
    cursor with its integrity window, and the plan that resumes from it.

    Positions in a byte vector are [nat]: a Rust vector is shorter than 2^63 bytes,
    so [checked_add] on a position within one never fails.  Stored offsets are [Z]. *)

From S2P Require Import Prelude Ordered Rstr Json Delivery.
From Stdlib Require Import Ascii.

Local Open Scope Z_scope.

Definition newline : ascii := "010"%char.
Definition carriage_return : ascii := "013"%char.

Definition CURSOR_INTEGRITY_WINDOW : nat := 4 * 1024.

Record JournalSnapshot := {
  snap_identity : string;
  snap_bytes : list ascii;
}.

Record GenerationProgress := {
  next_offset : nat;
  complete : bool;
  gp_payloads : list Event3DurablePayload;
}.

Record IngestCursor := {
  journal_namespace : string;
  journal_path_hash : string;
  generation_id : string;
  byte_offset : Z;
  observed_length : Z;
  window_start : Z;
  prefix_hash : list ascii;
  window_hash : list ascii;
}.

Record ReconciliationPlan := {
  rp_payloads : list Event3DurablePayload;
  rp_cursor : option IngestCursor;
  rp_advance : bool;
  rp_ingested_bytes : Z;
}.

(** [iter().position(|byte| *byte == c)]. *)
Fixpoint position (c : ascii) (l : list ascii) : option nat :=
  match l with
  | [] => None
  | a :: l' => if Ascii.eqb a c then Some O else S <$> position c l'
  end.

Definition byte_at_is (b : list ascii) (i : nat) (c : ascii) : bool :=
  match b !! i with Some x => Ascii.eqb x c | None => false end.

(** [offset > 0 && bytes.get(offset - 1) != Some(&b'\n')]. *)
Definition off_boundary (b : list ascii) (offset : nat) : bool :=
  (0 <? offset)%nat && negb (byte_at_is b (offset - 1) newline).

Section journal.
Context `{Digest, Diagnostics, JsonCodec}.

(** The body of the loop of [parse_generation] on the line at [cursor]. *)
Definition parse_record (identity : string) (cursor : nat) (line : list ascii)
    : result Event3DurablePayload DeliveryError :=
  if bool_decide (last line = Some carriage_return) then
    Err (storage_message "canonical JSONL uses an invalid line ending")
  else
    let? payload :=
      map_err (λ e, storage_error "malformed non-tail canonical JSONL record"
                      (delivery_error_display e))
        (canonical_payload_from_bytes line) in
    Ok {| p_event_id := p_event_id payload; p_bytes := p_bytes payload;
          p_hash := p_hash payload;
          p_generation_id := Some identity;
          p_generation_offset := Some (Z.of_nat cursor) |}.

Fixpoint parse_loop (fuel : nat) (snapshot : JournalSnapshot) (cursor : nat)
    (payloads : list Event3DurablePayload) : result GenerationProgress DeliveryError :=
  match fuel with
  | O => Ok {| next_offset := cursor; complete := true; gp_payloads := payloads |}
  | S fuel' =>
      if (cursor <? length (snap_bytes snapshot))%nat then
        match position newline (drop cursor (snap_bytes snapshot)) with
        | None =>
            Ok {| next_offset := cursor; complete := false; gp_payloads := payloads |}
        | Some relative_end =>
            let fin := (cursor + relative_end)%nat in
            let line := take relative_end (drop cursor (snap_bytes snapshot)) in
            let? payload := parse_record (snap_identity snapshot) cursor line in
            parse_loop fuel' snapshot (fin + 1) (payloads ++ [payload])
        end
      else Ok {| next_offset := cursor; complete := true; gp_payloads := payloads |}
  end.

Definition parse_generation (snapshot : JournalSnapshot) (offset : nat)
    : result GenerationProgress DeliveryError :=
  if (length (snap_bytes snapshot) <? offset)%nat then
    Err (storage_message "durable ingest cursor points past the JSONL generation")
  else if off_boundary (snap_bytes snapshot) offset then
    Err (storage_message "durable ingest cursor is not at a complete line boundary")
  else
    parse_loop (S (length (snap_bytes snapshot))) snapshot offset [].

(** [&bytes[a..b]]. *)
Definition slice {A} (l : list A) (a b : nat) : list A := take (b - a) (drop a l).

Definition make_cursor (namespace path_hash : string) (snapshot : JournalSnapshot)
    (offset : nat) : result IngestCursor DeliveryError :=
  let wstart := (offset - CURSOR_INTEGRITY_WINDOW)%nat in
  let prefix_end := Nat.min offset CURSOR_INTEGRITY_WINDOW in
  let prefix := sha256 (take prefix_end (snap_bytes snapshot)) in
  let window := sha256 (slice (snap_bytes snapshot) wstart offset) in
  let? ns := bounded_cursor_text namespace "journal namespace" in
  let? ph := bounded_cursor_text path_hash "journal path hash" in
  let? gid := bounded_cursor_text (snap_identity snapshot) "generation identity" in
  Ok {| journal_namespace := ns; journal_path_hash := ph; generation_id := gid;
        byte_offset := Z.of_nat offset;
        observed_length := Z.of_nat (length (snap_bytes snapshot));
        window_start := Z.of_nat wstart;
        prefix_hash := prefix; window_hash := window |}.

(** The cursor's [u64] fields are non-negative, so [usize::try_from] keeps them. *)
Definition verify_cursor_against_snapshot (cursor : IngestCursor) (snapshot : JournalSnapshot)
    : result unit DeliveryError :=
  let b := snap_bytes snapshot in
  let offset := Z.to_nat (byte_offset cursor) in
  let observed := Z.to_nat (observed_length cursor) in
  let wstart := Z.to_nat (window_start cursor) in
  if (length b <? offset)%nat || (observed <? offset)%nat then
    Err (storage_message "durable JSONL generation was truncated")
  else if (length b <? observed)%nat then
    Err (storage_message "durable JSONL generation was truncated")
  else if off_boundary b offset then
    Err (storage_message "durable ingest cursor is not at a complete line boundary")
  else if negb (wstart =? offset - CURSOR_INTEGRITY_WINDOW)%nat || (offset <? wstart)%nat then
    Err (storage_message "durable ingest cursor integrity window is invalid")
  else
    let prefix_end := Nat.min offset CURSOR_INTEGRITY_WINDOW in
    if bool_decide (sha256 (take prefix_end b) ≠ prefix_hash cursor)
       || bool_decide (sha256 (slice b wstart offset) ≠ window_hash cursor) then
      Err (storage_message "durable JSONL generation integrity check failed")
    else Ok tt.

(** [enumerate().filter(..).map(|(index, _)| index)]: the indices whose identity is
    the cursor's. *)
Definition matching_indices {A} (ident : A → string) (gid : string) (l : list A) : list nat :=
  (filter (λ p : nat * A, ident p.2 = gid) (imap pair l)).*1.

(** Where reconciliation starts. *)
Definition plan_start (snapshots : list JournalSnapshot) (current : option IngestCursor)
    (namespace path_hash : string) : result (nat * nat) DeliveryError :=
  match current with
  | None => Ok (O, O)
  | Some cursor =>
      if negb (str_eqb (journal_namespace cursor) namespace) then
        Err (storage_message "durable ingest cursor journal namespace is invalid")
      else if negb (str_eqb (journal_path_hash cursor) path_hash) then
        Err (storage_message "durable ingest cursor belongs to a different JSONL journal")
      else
        match matching_indices snap_identity (generation_id cursor) snapshots with
        | [] => Err (storage_message
                  "durable ingest cursor generation cannot be identified safely")
        | index :: rest =>
            match rest with
            | _ :: _ => Err (storage_message
                "durable ingest cursor generation identity is ambiguous")
            | [] =>
                match snapshots !! index with
                | None => Err (storage_message "durable ingest cursor generation is invalid")
                | Some snapshot =>
                    check? verify_cursor_against_snapshot cursor snapshot in
                    Ok (index, Z.to_nat (byte_offset cursor))
                end
            end
        end
  end.

(** The locals of the loop of [build_reconciliation_plan]. *)
Record PlanState := {
  pl_payloads : list Event3DurablePayload;
  pl_bytes : Z;
  pl_index : nat;
  pl_offset : nat;
  pl_advance : bool;
}.

Definition payload_bytes_total (payloads : list Event3DurablePayload) : Z :=
  foldr (λ p acc, Z.of_nat (length (p_bytes p)) + acc) 0 payloads.

(** The loop over [snapshots.iter().enumerate().skip(start_index)], from [index]. *)
Fixpoint plan_loop (start_index start_offset index : nat) (rest : list JournalSnapshot)
    (st : PlanState) : result PlanState DeliveryError :=
  match rest with
  | [] => Ok st
  | snapshot :: rest' =>
      let offset := if (index =? start_index)%nat then start_offset else O in
      let? progress := parse_generation snapshot offset in
      let? total := ok_or (checked_add (pl_bytes st) (payload_bytes_total (gp_payloads progress)))
                      (storage_message "durable ingest byte count overflow") in
      let st' :=
        {| pl_payloads := pl_payloads st ++ gp_payloads progress;
           pl_bytes := total;
           pl_index := index;
           pl_offset := next_offset progress;
           pl_advance := pl_advance st
             || negb (bool_decide (gp_payloads progress = []))
             || negb (next_offset progress =? offset)%nat
             || negb (index =? start_index)%nat |} in
      if complete progress then plan_loop start_index start_offset (S index) rest' st'
      else Ok st'
  end.

Definition build_reconciliation_plan (snapshots : list JournalSnapshot)
    (current : option IngestCursor) (namespace path_hash : string)
    : result ReconciliationPlan DeliveryError :=
  let? start := plan_start snapshots current namespace path_hash in
  let '(start_index, start_offset) := start in
  if (length snapshots <=? start_index)%nat then
    Err (storage_message "durable ingest cursor generation is invalid")
  else
    let? st := plan_loop start_index start_offset start_index (drop start_index snapshots)
      {| pl_payloads := []; pl_bytes := 0; pl_index := start_index;
         pl_offset := start_offset;
         pl_advance := bool_decide (current = None) |} in
    let? cursor :=
      if pl_advance st then
        match snapshots !! pl_index st with
        | None => Err (storage_message "durable ingest cursor generation is invalid")
        | Some snapshot =>
            let? c := make_cursor namespace path_hash snapshot (pl_offset st) in
            Ok (Some c)
        end
      else Ok None in
    Ok {| rp_payloads := pl_payloads st; rp_cursor := cursor; rp_advance := pl_advance st;
          rp_ingested_bytes := pl_bytes st |}.

End journal.

(** ** The batch written to the journal

    Serializing an event is the event schema's part. *)

Class EventSerializer (Event : Type) : Type := {
  event_id_of : Event → string;
  serialize_event_for_emission : Event → result (list ascii) string;
}.

Record Event3DurableBatch := {
  batch_payloads : list Event3DurablePayload;
  batch_jsonl_bytes : list ascii;
}.

Section batch.
Context `{Digest, Diagnostics, JsonCodec} {Event : Type} `{EventSerializer Event}.

Definition canonical_payload (event : Event) : result Event3DurablePayload DeliveryError :=
  let? b := map_err (λ e, canonical_error ("serialize Event 3.0 payload: " +:+ e))
              (serialize_event_for_emission event) in
  check? validate_canonical_event_bytes b (Some (event_id_of event)) in
  Ok {| p_event_id := event_id_of event; p_bytes := b; p_hash := sha256 b;
        p_generation_id := None; p_generation_offset := None |}.

Definition batch_push (acc : Event3DurableBatch) (event : Event)
    : result Event3DurableBatch DeliveryError :=
  let? payload := canonical_payload event in
  Ok {| batch_payloads := batch_payloads acc ++ [payload];
        batch_jsonl_bytes := batch_jsonl_bytes acc ++ p_bytes payload ++ [newline] |}.

Definition event3_durable_batch (events : list Event) : result Event3DurableBatch DeliveryError :=
  try_fold batch_push {| batch_payloads := []; batch_jsonl_bytes := [] |} events.

End batch.

(** ** Reference: complete lines and the unfinished tail *)

Fixpoint split_lines (l : list ascii) : list (list ascii) * list ascii :=
  match l with
  | [] => ([], [])
  | a :: l' =>
      let '(lines, tail) := split_lines l' in
      if Ascii.eqb a newline then ([] :: lines, tail)
      else match lines with
           | [] => ([], a :: tail)
           | x :: lines' => ((a :: x) :: lines', tail)
           end
  end.

(** Each line with the offset it starts at. *)
Fixpoint located (o : nat) (lines : list (list ascii)) : list (nat * list ascii) :=
  match lines with
  | [] => []
  | x :: lines' => (o, x) :: located (o + length x + 1) lines'
  end.

Fixpoint unlines (lines : list (list ascii)) : list ascii :=
  match lines with
  | [] => []
  | x :: lines' => x ++ newline :: unlines lines'
  end.

Lemma split_lines_join l : unlines (split_lines l).1 ++ (split_lines l).2 = l.
Proof.
  induction l as [|a l IH]; [done|]. simpl. destruct (split_lines l) as [ls t].
  simpl in IH. destruct (Ascii.eqb_spec a newline) as [->|Ha]; simpl.
  - by rewrite <- IH.
  - destruct ls as [|x ls]; simpl in *; by rewrite <- IH.
Qed.

Lemma split_lines_tail l : newline ∉ (split_lines l).2.
Proof.
  induction l as [|a l IH]; simpl; [set_solver|]. destruct (split_lines l) as [ls t].
  destruct (Ascii.eqb_spec a newline) as [->|Ha]; simpl; [done|].
  destruct ls; simpl in *; set_solver.
Qed.

Lemma split_lines_no_newline l : Forall (λ x, newline ∉ x) (split_lines l).1.
Proof.
  induction l as [|a l IH]; simpl; [constructor|]. destruct (split_lines l) as [ls t].
  simpl in IH.
  destruct (Ascii.eqb_spec a newline) as [->|Ha]; simpl; [constructor; [set_solver|done]|].
  destruct ls as [|x ls]; simpl; [constructor|].
  inversion IH; subst. constructor; [set_solver|done].
Qed.

Lemma split_lines_none l : newline ∉ l → split_lines l = ([], l).
Proof.
  induction l as [|a l IH]; intros Hl; [done|]. simpl. rewrite IH by set_solver.
  destruct (Ascii.eqb_spec a newline) as [->|]; [set_solver|done].
Qed.

Lemma split_lines_line x l :
  newline ∉ x →
  split_lines (x ++ newline :: l) = (x :: (split_lines l).1, (split_lines l).2).
Proof.
  induction x as [|a x IH]; intros Hx.
  - simpl. by destruct (split_lines l).
  - simpl. rewrite IH by set_solver. destruct (Ascii.eqb_spec a newline); [set_solver|done].
Qed.

Lemma split_lines_app l k :
  split_lines (l ++ k) =
  ((split_lines l).1 ++ (split_lines ((split_lines l).2 ++ k)).1,
   (split_lines ((split_lines l).2 ++ k)).2).
Proof.
  rewrite <- (split_lines_join l) at 1.
  pose proof (split_lines_no_newline l) as Hn. revert Hn.
  destruct (split_lines l) as [ls t]. simpl. intros Hn.
  induction Hn as [|x ls Hx Hn IH]; simpl; [by destruct (split_lines (t ++ k))|].
  rewrite <- !app_assoc. simpl. rewrite split_lines_line by done.
  rewrite <- app_assoc in IH. by rewrite IH.
Qed.

Lemma split_lines_unlines lines :
  Forall (λ x, newline ∉ x) lines → split_lines (unlines lines) = (lines, []).
Proof.
  induction 1 as [|x lines Hx Hl IH]; [done|].
  simpl. rewrite split_lines_line by done. by rewrite IH.
Qed.

Lemma position_Some l i :
  position newline l = Some i →
  ∃ x l', l = x ++ newline :: l' ∧ newline ∉ x ∧ length x = i.
Proof.
  revert i; induction l as [|a l IH]; intros i; simpl; [done|].
  destruct (Ascii.eqb_spec a newline) as [->|Ha].
  - intros [= <-]. exists [], l. split; [done|]. split; [set_solver|done].
  - destruct (position newline l) as [j|]; [|done]. intros [= <-].
    destruct (IH j eq_refl) as (x & l' & -> & Hx & <-).
    exists (a :: x), l'. split; [done|]. split; [set_solver|done].
Qed.

Lemma position_None l : position newline l = None → newline ∉ l.
Proof.
  induction l as [|a l IH]; simpl; [set_solver|].
  destruct (Ascii.eqb_spec a newline) as [->|Ha]; [done|].
  destruct (position newline l); [done|]. set_solver.
Qed.

Lemma length_unlines lines :
  length (unlines lines) = foldr (λ x n, length x + 1 + n)%nat O lines.
Proof.
  induction lines as [|x lines IH]; [done|].
  simpl. rewrite length_app. simpl. rewrite IH. lia.
Qed.

Lemma located_app o l k :
  located o (l ++ k) = located o l ++ located (o + length (unlines l)) k.
Proof.
  revert o; induction l as [|x l IH]; intros o; simpl.
  - by rewrite Nat.add_0_r.
  - rewrite IH. f_equal. f_equal. rewrite length_app. simpl.
    f_equal. lia.
Qed.

Section parse_spec.
Context `{Digest, Diagnostics, JsonCodec}.

(** The lines of [b] from [offset], parsed as records of [identity]. *)
Definition parse_lines (identity : string) (offset : nat) (lines : list (list ascii))
    : result (list Event3DurablePayload) DeliveryError :=
  collect (λ '(o, line), parse_record identity o line) (located offset lines).

Lemma parse_lines_app identity o l k :
  parse_lines identity o (l ++ k) =
  (let? ps := parse_lines identity o l in
   let? qs := parse_lines identity (o + length (unlines l)) k in Ok (ps ++ qs)).
Proof.
  unfold parse_lines. rewrite located_app.
  generalize (located o l) as L, (located (o + length (unlines l)) k) as M. intros L M.
  induction L as [|[o' x] L IH]; simpl.
  - by destruct (collect _ M).
  - destruct (parse_record identity o' x); [|done]. rewrite IH.
    destruct (collect _ L); [|done]. by destruct (collect _ M).
Qed.

Definition progress_of (b : list ascii) (tail : list ascii) (ps : list Event3DurablePayload)
    : GenerationProgress :=
  {| next_offset := length b - length tail; complete := bool_decide (tail = []);
     gp_payloads := ps |}.

Lemma parse_loop_spec fuel snap cursor acc :
  (cursor ≤ length (snap_bytes snap))%nat →
  (length (snap_bytes snap) - cursor < fuel)%nat →
  parse_loop fuel snap cursor acc =
  (let? ps := parse_lines (snap_identity snap) cursor
                (split_lines (drop cursor (snap_bytes snap))).1 in
   Ok (progress_of (snap_bytes snap) (split_lines (drop cursor (snap_bytes snap))).2
         (acc ++ ps))).
Proof.
  revert cursor acc; induction fuel as [|fuel IH]; intros cursor acc Hc Hf; [lia|]. simpl.
  destruct (Nat.ltb_spec cursor (length (snap_bytes snap))) as [Hlt|Hge].
  - destruct (position newline _) as [i|] eqn:Hp.
    + apply position_Some in Hp as (x & l' & Hx & Hn & <-).
      rewrite Hx, take_app_length, split_lines_line by done. unfold parse_lines. simpl.
      destruct (parse_record _ cursor x) as [p|]; [|done].
      assert (drop (cursor + length x + 1) (snap_bytes snap) = l') as Hd.
      { replace (cursor + length x + 1)%nat with (cursor + S (length x))%nat by lia.
        rewrite <- drop_drop, Hx, drop_app_ge by lia.
        by replace (S (length x) - length x)%nat with 1%nat by lia. }
      assert (length (drop cursor (snap_bytes snap)) = length x + S (length l'))%nat as Hl
        by (rewrite Hx, length_app; done).
      rewrite length_drop in Hl. rewrite IH by lia. rewrite Hd. unfold parse_lines.
      destruct (collect _ _) as [ps|]; [|done]. by rewrite <- app_assoc.
    + rewrite (split_lines_none _ (position_None _ Hp)). unfold parse_lines, progress_of.
      simpl. rewrite length_drop, app_nil_r. rewrite bool_decide_false.
      * do 2 f_equal. lia.
      * intros Hnil. apply (f_equal length) in Hnil. rewrite length_drop in Hnil. simpl in *. lia.
  - rewrite drop_ge by lia. unfold parse_lines, progress_of. simpl. rewrite app_nil_r.
    do 2 f_equal. lia.
Qed.

(** An offset a cursor may point at: the start, or just past a newline. *)
Definition boundary (b : list ascii) (o : nat) : Prop :=
  (o ≤ length b)%nat ∧ off_boundary b o = false.

Lemma parse_generation_spec snap offset :
  boundary (snap_bytes snap) offset →
  parse_generation snap offset =
  (let? ps := parse_lines (snap_identity snap) offset
                (split_lines (drop offset (snap_bytes snap))).1 in
   Ok (progress_of (snap_bytes snap) (split_lines (drop offset (snap_bytes snap))).2 ps)).
Proof.
  intros [Hle Hb]. unfold parse_generation. rewrite (proj2 (Nat.ltb_ge _ _)), Hb by done.
  by rewrite parse_loop_spec by lia.
Qed.

Lemma parse_generation_Ok_boundary snap offset pr :
  parse_generation snap offset = Ok pr → boundary (snap_bytes snap) offset.
Proof.
  unfold parse_generation. destruct (Nat.ltb_spec (length (snap_bytes snap)) offset); [done|].
  destruct (off_boundary (snap_bytes snap) offset) eqn:Hb; [done|]. by split.
Qed.

End parse_spec.

(** ** Resuming *)

Section resume.
Context `{Digest, Diagnostics, JsonCodec}.

Lemma boundary_grow b c o : boundary b o → boundary (b ++ c) o.
Proof.
  unfold boundary, off_boundary, byte_at_is. intros [Hle Hb].
  split; [rewrite length_app; lia|].
  destruct o as [|o]; [done|]. simpl in *. rewrite Nat.sub_0_r in *.
  by rewrite lookup_app_l by lia.
Qed.

Lemma boundary_past_lines b o ls t :
  boundary b o → drop o b = unlines ls ++ t → boundary b (o + length (unlines ls)).
Proof.
  intros [Hle Hb] Hd.
  assert (length (drop o b) = length (unlines ls) + length t)%nat as Hl
    by (rewrite Hd, length_app; done).
  rewrite length_drop in Hl. split; [lia|].
  destruct (decide (ls = [])) as [->|Hne]; [by rewrite Nat.add_0_r|].
  assert (∃ u, unlines ls = u ++ [newline]) as [u Hu].
  { clear -Hne. induction ls as [|x ls IH]; [done|]. simpl. destruct ls as [|y ls].
    - exists x. done.
    - destruct IH as [u Hu]; [done|]. rewrite Hu. exists (x ++ newline :: u).
      by rewrite <- app_assoc. }
  unfold off_boundary, byte_at_is. rewrite Hu, length_app. simpl.
  replace (o + (length u + 1) - 1)%nat with (o + length u)%nat by lia.
  rewrite <- lookup_drop, Hd, Hu, <- app_assoc, lookup_app_r, Nat.sub_diag by lia. simpl.
  by rewrite andb_false_r.
Qed.

(** Where parsing stopped is where the unfinished tail starts. *)
Lemma parse_stop b o pr identity :
  parse_generation {| snap_identity := identity; snap_bytes := b |} o = Ok pr →
  let '(ls, t) := split_lines (drop o b) in
  next_offset pr = (o + length (unlines ls))%nat ∧ complete pr = bool_decide (t = []) ∧
  parse_lines identity o ls = Ok (gp_payloads pr) ∧
  boundary b (next_offset pr) ∧ drop (next_offset pr) b = t.
Proof.
  intros Hp. pose proof (parse_generation_Ok_boundary _ _ _ Hp) as Hb. simpl in Hb.
  rewrite parse_generation_spec in Hp by done. simpl in Hp.
  pose proof (split_lines_join (drop o b)) as Hj.
  destruct (split_lines (drop o b)) as [ls t]. simpl in *.
  destruct (parse_lines identity o ls) as [ps|] eqn:Hps; [|done]. injection Hp as <-. simpl.
  assert (length (drop o b) = length (unlines ls) + length t)%nat as Hl
    by (rewrite <- Hj, length_app; done).
  rewrite length_drop in Hl. destruct Hb as [Hle Hob].
  assert (length b - length t = o + length (unlines ls))%nat as -> by lia.
  split_and!; try done.
  - by apply boundary_past_lines with t.
  - rewrite <- drop_drop, <- Hj, drop_app_length. done.
Qed.

Lemma parse_generation_resume identity b c o pr :
  parse_generation {| snap_identity := identity; snap_bytes := b |} o = Ok pr →
  parse_generation {| snap_identity := identity; snap_bytes := b ++ c |} o =
  (let? pr' := parse_generation {| snap_identity := identity; snap_bytes := b ++ c |}
                 (next_offset pr) in
   Ok {| next_offset := next_offset pr'; complete := complete pr';
         gp_payloads := gp_payloads pr ++ gp_payloads pr' |}).
Proof.
  intros Hp. pose proof (parse_generation_Ok_boundary _ _ _ Hp) as Hb. simpl in Hb.
  pose proof (parse_stop _ _ _ _ Hp) as Hs.
  destruct (split_lines (drop o b)) as [ls t] eqn:Hsp.
  destruct Hs as (Hn & _ & Hps & Hbn & Hdn).
  rewrite !parse_generation_spec by (by apply boundary_grow). simpl.
  rewrite !drop_app_le, Hdn by (by destruct Hb, Hbn). rewrite split_lines_app, Hsp. simpl.
  rewrite parse_lines_app, Hps, <- Hn.
  by destruct (parse_lines identity (next_offset pr) _).
Qed.

(** Parsing from where it stopped, with nothing new, reads nothing. *)
Lemma parse_generation_again snap o pr :
  parse_generation snap o = Ok pr →
  parse_generation snap (next_offset pr) =
  Ok {| next_offset := next_offset pr; complete := complete pr; gp_payloads := [] |}.
Proof.
  destruct snap as [identity b]. intros Hp. pose proof (parse_stop _ _ _ _ Hp) as Hs.
  pose proof (split_lines_tail (drop o b)) as Hnt.
  destruct (split_lines (drop o b)) as [ls t]. destruct Hs as (Hn & Hc & Hps & Hb & Hd).
  rewrite parse_generation_spec by done. simpl in *. rewrite Hd, split_lines_none by done.
  simpl. unfold progress_of. rewrite Hc.
  assert (length t = length b - next_offset pr)%nat by (by rewrite <- Hd, length_drop).
  destruct Hb. do 2 f_equal. lia.
Qed.

(** What the plan's loop ingests: the records, how many generations it passed, and the
    offset in the last one it read. *)
Fixpoint ingest_from (o : nat) (l : list JournalSnapshot)
    : result (list Event3DurablePayload * nat * nat) DeliveryError :=
  match l with
  | [] => Ok ([], O, o)
  | s :: rest =>
      let? pr := parse_generation s o in
      match complete pr, rest with
      | true, _ :: _ =>
          let? r := ingest_from O rest in
          let '(ps, k, o') := r in
          Ok (gp_payloads pr ++ ps, S k, o')
      | _, _ => Ok (gp_payloads pr, O, next_offset pr)
      end
  end.

(** [S'] is [S] after more records were appended and files rotated: only the last
    generation grew, and new ones follow it. *)
Definition journal_grows (S S' : list JournalSnapshot) : Prop :=
  ∃ pre s c post,
    S = pre ++ [s] ∧
    S' = pre ++ {| snap_identity := snap_identity s; snap_bytes := snap_bytes s ++ c |} :: post.

Lemma ingest_resume pre s c post o ps k o' :
  let grown := {| snap_identity := snap_identity s; snap_bytes := snap_bytes s ++ c |} in
  ingest_from o (pre ++ [s]) = Ok (ps, k, o') →
  ingest_from o (pre ++ grown :: post) =
  (let? r := ingest_from o' (drop k (pre ++ grown :: post)) in
   let '(qs, k2, o2) := r in Ok (ps ++ qs, k + k2, o2)%nat).
Proof.
  intros grown. revert o ps k; induction pre as [|p pre IH]; intros o ps k.
  - simpl. destruct s as [identity b]. destruct (parse_generation _ o) as [pr|] eqn:Hp; [|done].
    intros Heq. assert (ps = gp_payloads pr ∧ k = O ∧ o' = next_offset pr) as (-> & -> & ->).
    { destruct (complete pr); by injection Heq as <- <- <-. }
    simpl. subst grown. simpl. rewrite (parse_generation_resume _ _ c _ _ Hp).
    destruct (parse_generation _ (next_offset pr)) as [pr'|]; [|done].
    simpl. destruct (complete pr'); [|done]. destruct post; [done|].
    destruct (ingest_from _ _) as [[[qs k2] o2]|]; [|done]. by rewrite app_assoc.
  - simpl. destruct (parse_generation p o) as [pr|] eqn:Hp; [|done].
    assert (∃ x r, pre ++ [s] = x :: r) as (x & r & Hx) by (destruct pre; eauto).
    assert (∃ y q, pre ++ grown :: post = y :: q) as (y & q & Hy) by (destruct pre; eauto).
    destruct (complete pr) eqn:Hc.
    + rewrite Hx. rewrite <- Hx. destruct (ingest_from 0 (pre ++ [s])) as [[[ps1 k1] o1]|] eqn:Hi;
        [|done].
      intros [= <- <- <-]. simpl. rewrite Hy, <- Hy.
      rewrite (IH _ _ _ Hi). destruct (ingest_from o1 _) as [[[qs k2] o2]|]; [|done].
      by rewrite app_assoc.
    + intros [= <- <- <-]. simpl. rewrite (parse_generation_again _ _ _ Hp). simpl. rewrite Hc.
      by rewrite app_nil_r.
Qed.

End resume.

(** ** Cursors *)

Section cursor.
Context `{Digest, Diagnostics, JsonCodec}.

Lemma take_grow {A} n (b c : list A) : (n ≤ length b)%nat → take n (b ++ c) = take n b.
Proof. intros. rewrite take_app_le by lia. done. Qed.

Lemma slice_grow {A} i j (b c : list A) :
  (j ≤ length b)%nat → slice (b ++ c) i j = slice b i j.
Proof.
  intros Hj. unfold slice. destruct (decide (i ≤ length b)%nat).
  - rewrite drop_app_le, take_app_le by (rewrite ?length_drop; lia). done.
  - replace (j - i)%nat with O by lia. done.
Qed.

Lemma make_cursor_Ok ns ph s o c :
  make_cursor ns ph s o = Ok c →
  journal_namespace c = ns ∧ journal_path_hash c = ph ∧ generation_id c = snap_identity s ∧
  byte_offset c = Z.of_nat o.
Proof.
  unfold make_cursor. destruct (bounded_cursor_text ns _) eqn:Hns; [|done].
  destruct (bounded_cursor_text ph _) eqn:Hph; [|done].
  destruct (bounded_cursor_text (snap_identity s) _) eqn:Hid; [|done].
  apply bounded_cursor_text_Ok in Hns as [-> _], Hph as [-> _], Hid as [-> _].
  intros [= <-]. done.
Qed.

(** Success depends on the texts only. *)
Lemma make_cursor_total ns ph s s' o o' c :
  snap_identity s = snap_identity s' →
  make_cursor ns ph s o = Ok c → ∃ c', make_cursor ns ph s' o' = Ok c'.
Proof.
  intros Hid. unfold make_cursor. rewrite <- Hid.
  destruct (bounded_cursor_text ns _); [|done]. destruct (bounded_cursor_text ph _); [|done].
  destruct (bounded_cursor_text (snap_identity s) _); [|done]. eauto.
Qed.

Definition cursor_matches (c : IngestCursor) (b : list ascii) : Prop :=
  let o := Z.to_nat (byte_offset c) in
  (o ≤ Z.to_nat (observed_length c) ≤ length b)%nat ∧
  off_boundary b o = false ∧
  Z.to_nat (window_start c) = (o - CURSOR_INTEGRITY_WINDOW)%nat ∧
  sha256 (take (Nat.min o CURSOR_INTEGRITY_WINDOW) b) = prefix_hash c ∧
  sha256 (slice b (Z.to_nat (window_start c)) o) = window_hash c.

Lemma verify_cursor_spec c s :
  verify_cursor_against_snapshot c s = Ok tt ↔ cursor_matches c (snap_bytes s).
Proof.
  unfold verify_cursor_against_snapshot, cursor_matches. cbv zeta.
  generalize (Z.to_nat (byte_offset c)) as o, (Z.to_nat (observed_length c)) as ob,
    (Z.to_nat (window_start c)) as w. intros o ob w.
  destruct (Nat.ltb_spec (length (snap_bytes s)) o); cbn [orb]; [naive_solver lia|].
  destruct (Nat.ltb_spec ob o); cbn [orb]; [naive_solver lia|].
  destruct (Nat.ltb_spec (length (snap_bytes s)) ob); [naive_solver lia|].
  destruct (off_boundary (snap_bytes s) o); [naive_solver|].
  destruct (Nat.eqb_spec w (o - CURSOR_INTEGRITY_WINDOW)) as [->|]; cbn [negb orb];
    [|naive_solver].
  destruct (Nat.ltb_spec o (o - CURSOR_INTEGRITY_WINDOW)); [naive_solver lia|].
  repeat case_bool_decide; cbn [orb]; naive_solver.
Qed.

Lemma make_cursor_matches ns ph s o c :
  boundary (snap_bytes s) o → make_cursor ns ph s o = Ok c → cursor_matches c (snap_bytes s).
Proof.
  intros [Hle Hb]. unfold make_cursor. repeat (destruct (bounded_cursor_text _ _); [|done]).
  intros [= <-]. unfold cursor_matches. cbn [byte_offset observed_length window_start
    prefix_hash window_hash]. rewrite !Nat2Z.id. done.
Qed.

Lemma cursor_matches_grow c b k :
  cursor_matches c b → cursor_matches c (b ++ k).
Proof.
  unfold cursor_matches. intros (Ho & Hb & Hw & Hp & Hh).
  split_and!; [lia | rewrite length_app; lia | | done | | ].
  - apply (boundary_grow b k). split; [lia|done].
  - by rewrite take_grow by lia.
  - by rewrite slice_grow by lia.
Qed.

(** The position a cursor stands for. *)
Definition cursor_position (c : IngestCursor) : string * Z := (generation_id c, byte_offset c).

(** The cursor after a plan is carried out. *)
Definition next_cursor (current : option IngestCursor) (plan : ReconciliationPlan)
    : option IngestCursor :=
  if rp_advance plan then rp_cursor plan else current.

End cursor.

(** ** Plans *)

Section plans.
Context `{Digest, Diagnostics, JsonCodec}.

Lemma matching_indices_elem {A} (ident : A → string) gid l i :
  i ∈ matching_indices ident gid l ↔ ∃ s, l !! i = Some s ∧ ident s = gid.
Proof.
  unfold matching_indices. rewrite list_elem_of_fmap. split.
  - intros ([j s] & -> & Hf). apply list_elem_of_filter in Hf as [Hid Hl].
    apply elem_of_lookup_imap in Hl as (j' & s' & [= -> ->] & Hj). eauto.
  - intros (s & Hs & Hid). exists (i, s). split; [done|].
    apply list_elem_of_filter. split; [done|]. apply elem_of_lookup_imap. eauto.
Qed.

Lemma matching_indices_nodup {A} (ident : A → string) gid l :
  NoDup (matching_indices ident gid l).
Proof.
  unfold matching_indices.
  apply (sublist_NoDup _ ((imap pair l).*1));
    [|apply fmap_sublist, sublist_filter].
  apply NoDup_alt. intros i j x. rewrite !list_lookup_fmap, !list_lookup_imap.
  destruct (l !! i), (l !! j); simpl; naive_solver.
Qed.

Lemma matching_indices_single {A} (ident : A → string) l i s :
  NoDup (map ident l) → l !! i = Some s → matching_indices ident (ident s) l = [i].
Proof.
  intros Hnd Hs.
  pose proof (matching_indices_nodup ident (ident s) l) as Hn.
  assert (∀ j, j ∈ matching_indices ident (ident s) l ↔ j = i) as Hel.
  { intros j. rewrite matching_indices_elem. split; [|intros ->; eauto].
    intros (s' & Hs' & Hid). eapply (NoDup_lookup (map ident l)); [done| |].
    - by rewrite list_lookup_fmap, Hs'.
    - by rewrite list_lookup_fmap, Hs, Hid. }
  destruct (matching_indices ident (ident s) l) as [|x [|y r]].
  - pose proof (proj2 (Hel i) eq_refl) as Hi. set_solver.
  - f_equal. apply Hel. set_solver.
  - inversion Hn as [|? ? Hx]; subst.
    assert (x = i) as -> by (apply Hel; set_solver).
    assert (y = i) as -> by (apply Hel; set_solver). set_solver.
Qed.

Lemma plan_start_Some S c ns ph i o :
  plan_start S (Some c) ns ph = Ok (i, o) →
  journal_namespace c = ns ∧ journal_path_hash c = ph ∧ o = Z.to_nat (byte_offset c) ∧
  ∃ s, S !! i = Some s ∧ snap_identity s = generation_id c ∧ cursor_matches c (snap_bytes s).
Proof.
  unfold plan_start. destruct (str_eqb (journal_namespace c) ns) eqn:Hns; [|done]. cbn [negb].
  destruct (str_eqb (journal_path_hash c) ph) eqn:Hph; [|done]. cbn [negb].
  apply str_eqb_spec in Hns as <-, Hph as <-.
  destruct (matching_indices _ _ _) as [|j [|]] eqn:Hm; try done.
  destruct (S !! j) as [s|] eqn:Hs; [|done].
  destruct (verify_cursor_against_snapshot c s) as [[]|] eqn:Hv; [|done].
  intros [= <- <-]. split_and!; try done. exists s. split; [done|].
  apply verify_cursor_spec in Hv. split; [|done].
  assert (j ∈ matching_indices snap_identity (generation_id c) S) as Hj
    by (rewrite Hm; set_solver).
  apply matching_indices_elem in Hj as (s' & Hs' & Hid). congruence.
Qed.

Lemma plan_start_intro S c ns ph i s :
  NoDup (map snap_identity S) → S !! i = Some s → generation_id c = snap_identity s →
  journal_namespace c = ns → journal_path_hash c = ph → cursor_matches c (snap_bytes s) →
  plan_start S (Some c) ns ph = Ok (i, Z.to_nat (byte_offset c)).
Proof.
  intros Hnd Hs Hid <- <- Hm. unfold plan_start.
  rewrite !(proj2 (str_eqb_spec _ _)) by done. cbn [negb].
  rewrite Hid, (matching_indices_single _ _ _ _ Hnd Hs), Hs.
  by rewrite (proj2 (verify_cursor_spec _ _) Hm).
Qed.

(** Bytes in the journal. *)
Definition journal_size (S : list JournalSnapshot) : Z :=
  foldr (λ s n, Z.of_nat (length (snap_bytes s)) + n) 0 S.

Lemma journal_size_nonneg S : 0 ≤ journal_size S.
Proof. induction S; simpl; lia. Qed.

Lemma payload_total_app p q :
  payload_bytes_total (p ++ q) = payload_bytes_total p + payload_bytes_total q.
Proof. induction p; simpl; lia. Qed.

Lemma parse_record_Ok identity o line p :
  parse_record identity o line = Ok p →
  p_bytes p = line ∧ p_hash p = sha256 line ∧
  validate_canonical_event_bytes line (Some (p_event_id p)) = Ok tt ∧
  p_generation_id p = Some identity ∧ p_generation_offset p = Some (Z.of_nat o).
Proof.
  unfold parse_record. case_bool_decide; [done|].
  destruct (canonical_payload_from_bytes line) as [q|] eqn:Hq; simpl; [|done].
  intros [= <-]. simpl. by apply canonical_payload_from_bytes_Ok in Hq as (? & ? & ? & _).
Qed.

Lemma parse_lines_total identity o ls ps :
  parse_lines identity o ls = Ok ps →
  0 ≤ payload_bytes_total ps ≤ Z.of_nat (length (unlines ls)).
Proof.
  unfold parse_lines. revert o ps; induction ls as [|x ls IH]; intros o ps; simpl.
  - intros [= <-]. simpl. lia.
  - destruct (parse_record identity o x) as [p|] eqn:Hp; [|done].
    destruct (collect _ _) as [qs|] eqn:Hq; [|done]. intros [= <-].
    apply parse_record_Ok in Hp as [Hp _]. apply IH in Hq. simpl. rewrite Hp, length_app.
    simpl. lia.
Qed.

Lemma parse_generation_total s o pr :
  parse_generation s o = Ok pr →
  0 ≤ payload_bytes_total (gp_payloads pr) ≤ Z.of_nat (length (snap_bytes s)).
Proof.
  destruct s as [identity b]. intros Hp. pose proof (parse_stop _ _ _ _ Hp) as Hs.
  pose proof (split_lines_join (drop o b)) as Hj.
  destruct (split_lines (drop o b)) as [ls t]. destruct Hs as (_ & _ & Hl & _).
  apply parse_lines_total in Hl. apply (f_equal length) in Hj. simpl in *.
  rewrite length_app, length_drop in Hj. lia.
Qed.

Lemma parse_generation_mono s o pr :
  parse_generation s o = Ok pr → (o ≤ next_offset pr)%nat.
Proof.
  destruct s as [identity b]. intros Hp. pose proof (parse_stop _ _ _ _ Hp) as Hs.
  destruct (split_lines (drop o b)) as [ls t]. destruct Hs as (-> & _). lia.
Qed.

Lemma ingest_boundary o l ps k o' :
  l ≠ [] → ingest_from o l = Ok (ps, k, o') →
  ∃ s, l !! k = Some s ∧ boundary (snap_bytes s) o'.
Proof.
  revert o ps k; induction l as [|s l IH]; intros o ps k Hne; [done|]. simpl.
  destruct (parse_generation s o) as [pr|] eqn:Hp; [|done].
  assert (boundary (snap_bytes s) (next_offset pr)) as Hb.
  { destruct s as [identity b]. pose proof (parse_stop _ _ _ _ Hp) as Hs.
    destruct (split_lines _) as [ls t]. by destruct Hs as (_ & _ & _ & Hs & _). }
  destruct (complete pr); [|intros [= <- <- <-]; eauto].
  destruct l as [|s2 l]; [intros [= <- <- <-]; eauto|].
  destruct (ingest_from 0 (s2 :: l)) as [[[qs k2] o2]|] eqn:Hi; [|done].
  intros [= <- <- <-]. apply IH in Hi; [|done]. done.
Qed.

Lemma ingest_mono o l ps k o' :
  ingest_from o l = Ok (ps, k, o') → k = O → (o ≤ o')%nat.
Proof.
  destruct l as [|s l]; simpl; [intros [= <- <- <-]; lia|].
  destruct (parse_generation s o) as [pr|] eqn:Hp; [|done].
  apply parse_generation_mono in Hp.
  destruct (complete pr), l; try (intros [= <- <- <-]; done).
  destruct (ingest_from _ _) as [[[??]?]|]; [|done]. intros [= <- <- <-]. done.
Qed.

End plans.

Section exactly_once.
Context `{Digest, Diagnostics, JsonCodec}.

Definition plan_state_after (st : PlanState) (start index off : nat)
    (r : list Event3DurablePayload * nat * nat) : PlanState :=
  let '(ps, k, o') := r in
  {| pl_payloads := pl_payloads st ++ ps;
     pl_bytes := pl_bytes st + payload_bytes_total ps;
     pl_index := index + k;
     pl_offset := o';
     pl_advance := pl_advance st || negb (bool_decide (ps = [])) || negb (o' =? off)%nat
       || negb (index + k =? start)%nat |}.

Lemma plan_loop_spec start so index rest st :
  rest ≠ [] → (start ≤ index)%nat →
  0 ≤ pl_bytes st → pl_bytes st + journal_size rest ≤ u64_max →
  let off := if (index =? start)%nat then so else O in
  plan_loop start so index rest st =
  (let? r := ingest_from off rest in Ok (plan_state_after st start index off r)).
Proof.
  revert index st; induction rest as [|s rest IH]; intros index st Hne Hi H0' Hsz off; [done|].
  simpl in Hsz |- *. fold off. pose proof (journal_size_nonneg rest).
  destruct (parse_generation s off) as [pr|] eqn:Hp; [|done].
  pose proof (parse_generation_total _ _ _ Hp) as Ht.
  unfold checked_add. rewrite (proj2 (Z.leb_le _ _)) by lia. simpl.
  destruct (complete pr); [|simpl; by rewrite Nat.add_0_r].
  destruct rest as [|s2 rest]; [simpl; by rewrite Nat.add_0_r|].
  rewrite IH; [|done|lia|simpl in *; lia|simpl in *; lia].
  rewrite (proj2 (Nat.eqb_neq (S index) start)) by lia.
  destruct (ingest_from 0 (s2 :: rest)) as [[[qs k2] o2]|]; [|done].
  unfold plan_state_after. cbn [pl_payloads pl_bytes pl_advance].
  rewrite payload_total_app, <- app_assoc, Z.add_assoc.
  rewrite (proj2 (Nat.eqb_neq (S index + k2) start)) by lia.
  rewrite (proj2 (Nat.eqb_neq (index + S k2) start)) by lia. cbn [negb].
  rewrite !orb_true_r. do 2 f_equal. lia.
Qed.

Definition plan_advances (cur : option IngestCursor) (ps : list Event3DurablePayload)
    (o o' i k : nat) : bool :=
  bool_decide (cur = None) || negb (bool_decide (ps = [])) || negb (o' =? o)%nat
    || negb (i + k =? i)%nat.

(** The plan in terms of what is ingested from the start position. *)
Definition plan_of (S : list JournalSnapshot) (cur : option IngestCursor)
    (ns ph : string) (i o : nat) (r : list Event3DurablePayload * nat * nat)
    : result ReconciliationPlan DeliveryError :=
  let '(ps, k, o') := r in
  let adv := plan_advances cur ps o o' i k in
  let? cursor :=
    if adv then
      match S !! (i + k)%nat with
      | None => Err (storage_message "durable ingest cursor generation is invalid")
      | Some s => let? c := make_cursor ns ph s o' in Ok (Some c)
      end
    else Ok None in
  Ok {| rp_payloads := ps; rp_cursor := cursor; rp_advance := adv;
        rp_ingested_bytes := payload_bytes_total ps |}.

Lemma drop_nonempty {A} i (l : list A) : (i < length l)%nat → drop i l ≠ [].
Proof. intros Hi Hd. apply (f_equal length) in Hd. rewrite length_drop in Hd. simpl in Hd. lia. Qed.

Lemma journal_size_drop i S : journal_size (drop i S) ≤ journal_size S.
Proof.
  revert i; induction S as [|s S IH]; intros [|i]; simpl; try lia. specialize (IH i). lia.
Qed.

Lemma build_plan_spec S cur ns ph i o :
  journal_size S ≤ u64_max → plan_start S cur ns ph = Ok (i, o) → (i < length S)%nat →
  build_reconciliation_plan S cur ns ph =
  (let? r := ingest_from o (drop i S) in plan_of S cur ns ph i o r).
Proof.
  intros Hsz Hst Hi. unfold build_reconciliation_plan. rewrite Hst.
  rewrite (proj2 (Nat.leb_gt _ _)) by done.
  pose proof (journal_size_drop i S).
  rewrite plan_loop_spec; [|by apply drop_nonempty|lia|simpl; lia|simpl; lia].
  rewrite Nat.eqb_refl. by destruct (ingest_from o (drop i S)) as [[[ps k] o']|].
Qed.

Lemma build_plan_inv S cur ns ph plan :
  journal_size S ≤ u64_max → build_reconciliation_plan S cur ns ph = Ok plan →
  ∃ i o r, plan_start S cur ns ph = Ok (i, o) ∧ (i < length S)%nat ∧
    ingest_from o (drop i S) = Ok r ∧ plan_of S cur ns ph i o r = Ok plan.
Proof.
  intros Hsz Hb. destruct (plan_start S cur ns ph) as [[i o]|] eqn:Hst.
  - destruct (decide (i < length S)%nat) as [Hi|Hi].
    + rewrite (build_plan_spec _ _ _ _ _ _ Hsz Hst Hi) in Hb.
      destruct (ingest_from o (drop i S)) as [r|] eqn:Hr; [|done]. eauto 8.
    + revert Hb. unfold build_reconciliation_plan. rewrite Hst.
      by rewrite (proj2 (Nat.leb_le _ _)) by lia.
  - revert Hb. unfold build_reconciliation_plan. by rewrite Hst.
Qed.

Lemma journal_grows_lookup S S' i s :
  journal_grows S S' → S !! i = Some s →
  ∃ c, S' !! i = Some {| snap_identity := snap_identity s; snap_bytes := snap_bytes s ++ c |}.
Proof.
  intros (pre & s0 & c & post & -> & ->) Hs.
  destruct (decide (i < length pre)%nat) as [Hi|Hi].
  - rewrite lookup_app_l in Hs |- * by done. exists []. destruct s. by rewrite app_nil_r.
  - rewrite lookup_app_r in Hs |- * by lia. destruct (i - length pre)%nat as [|n]; simpl in *.
    + injection Hs as <-. by exists c.
    + by destruct n.
Qed.

Lemma journal_grows_size S S' : journal_grows S S' → journal_size S ≤ journal_size S'.
Proof.
  intros (pre & s & c & post & -> & ->). pose proof (journal_size_nonneg post).
  induction pre as [|p pre IH]; simpl; [rewrite length_app|]; lia.
Qed.

Lemma plan_start_grows S S' cur ns ph i o :
  journal_grows S S' → NoDup (map snap_identity S') →
  plan_start S cur ns ph = Ok (i, o) → plan_start S' cur ns ph = Ok (i, o).
Proof.
  intros Hg Hnd Hst. destruct cur as [c|]; [|done].
  apply plan_start_Some in Hst as (Hn & Hp & -> & s & Hs & Hid & Hm).
  destruct (journal_grows_lookup _ _ _ _ Hg Hs) as [k Hs'].
  eapply plan_start_intro; [done | done | by simpl | done | done |].
  by apply cursor_matches_grow.
Qed.

Lemma ingest_grows S S' i o ps k o' :
  journal_grows S S' → (i < length S)%nat → ingest_from o (drop i S) = Ok (ps, k, o') →
  ingest_from o (drop i S') =
  (let? r := ingest_from o' (drop (i + k) S') in
   let '(qs, k2, o2) := r in Ok (ps ++ qs, k + k2, o2)%nat).
Proof.
  intros (pre & s & c & post & -> & ->) Hi. rewrite length_app in Hi. simpl in Hi.
  rewrite <- drop_drop, !drop_app_le by lia. apply ingest_resume.
Qed.

(** The cursor written by an advancing plan is found again in the grown journal, where
    it starts at the position the plan stopped. *)
Lemma plan_cursor_start S S' cur ns ph i o ps k o' plan c :
  journal_grows S S' → NoDup (map snap_identity S') → (i < length S)%nat →
  ingest_from o (drop i S) = Ok (ps, k, o') →
  plan_of S cur ns ph i o (ps, k, o') = Ok plan → rp_cursor plan = Some c →
  plan_start S' (Some c) ns ph = Ok (i + k, o')%nat ∧ (i + k < length S')%nat ∧
  ∃ s, S !! (i + k)%nat = Some s ∧ make_cursor ns ph s o' = Ok c.
Proof.
  intros Hg Hnd Hi Hr Hplan Hc.
  destruct (ingest_boundary _ _ _ _ _ (drop_nonempty _ _ Hi) Hr) as (s & Hs & Hb).
  rewrite lookup_drop in Hs. unfold plan_of in Hplan. rewrite Hs in Hplan.
  destruct (plan_advances _ _ _ _ _ _); [|injection Hplan as <-; done].
  destruct (make_cursor ns ph s o') as [c'|] eqn:Hmk; [|done].
  injection Hplan as <-. simpl in Hc. injection Hc as ->.
  destruct (journal_grows_lookup _ _ _ _ Hg Hs) as [z Hs'].
  pose proof (make_cursor_Ok _ _ _ _ _ Hmk) as (Hn & Hp & Hid & Ho).
  split_and!; [|by eapply lookup_lt_Some|eauto].
  rewrite <- (Nat2Z.id o'), <- Ho.
  eapply plan_start_intro; [done | done | done | done | done |].
  by eapply cursor_matches_grow, make_cursor_matches.
Qed.

End exactly_once.

(** ** Theorems *)

Section theorems.
Context `{Digest, Diagnostics, JsonCodec}.

Lemma plan_advances_false cur ps o o' i k :
  plan_advances cur ps o o' i k = false ↔ cur ≠ None ∧ ps = [] ∧ o' = o ∧ k = O.
Proof.
  unfold plan_advances. rewrite !orb_false_iff, !negb_false_iff, !Nat.eqb_eq,
    bool_decide_eq_true, bool_decide_eq_false. intuition lia.
Qed.

Lemma plan_of_idle J cur ns ph i o r plan :
  plan_of J cur ns ph i o r = Ok plan → rp_advance plan = false →
  r = ([], O, o) ∧ rp_payloads plan = [].
Proof.
  destruct r as [[ps k] o']. unfold plan_of.
  destruct (plan_advances _ _ _ _ _ _) eqn:Hadv.
  - destruct (J !! (i + k)%nat) as [s|]; [|done].
    destruct (make_cursor ns ph s o'); [|done]. by intros [= <-].
  - intros [= <-] _. apply plan_advances_false in Hadv as (_ & -> & -> & ->). done.
Qed.

Lemma plan_of_advance J cur ns ph i o ps k o' plan :
  plan_of J cur ns ph i o (ps, k, o') = Ok plan → rp_advance plan = true →
  plan_advances cur ps o o' i k = true ∧ ∃ c, rp_cursor plan = Some c.
Proof.
  unfold plan_of. destruct (plan_advances _ _ _ _ _ _) eqn:Hadv.
  - destruct (J !! (i + k)%nat) as [s|]; [|done].
    destruct (make_cursor ns ph s o') as [c|]; [|done]. intros [= <-] _. eauto.
  - by intros [= <-].
Qed.

(** Once a first pass advanced, so does the pass that does everything at once. *)
Lemma advance_mono cur ps qs (o o' o2 i k k2 : nat) :
  (k = O → o ≤ o')%nat → (k2 = O → o' ≤ o2)%nat →
  plan_advances cur ps o o' i k = true →
  plan_advances cur (ps ++ qs) o o2 i (k + k2) = true.
Proof.
  intros Ho Ho2 Hadv. apply not_false_iff_true. intros (Hn & Hps & -> & Hk)%plan_advances_false.
  apply app_nil in Hps as [-> ->]. assert (k = O ∧ k2 = O) as [-> ->] by lia.
  rewrite (proj2 (plan_advances_false cur [] o o' i 0)) in Hadv; [done|].
  split_and!; [done|done|lia|done].
Qed.

(** The plan of the second step and the plan of both, from the same end position. *)
Lemma plan_join J' cur ns ph i o ps k o' qs k2 o2 plan1 c s z :
  rp_payloads plan1 = ps →
  J' !! (i + k)%nat = Some {| snap_identity := snap_identity s; snap_bytes := snap_bytes s ++ z |} →
  make_cursor ns ph s o' = Ok c →
  plan_advances cur (ps ++ qs) o o2 i (k + k2) = true →
  match plan_of J' (Some c) ns ph (i + k) o' (qs, k2, o2),
        plan_of J' cur ns ph i o (ps ++ qs, k + k2, o2)%nat with
  | Ok plan2, Ok plan =>
      rp_payloads plan = rp_payloads plan1 ++ rp_payloads plan2 ∧
      cursor_position <$> next_cursor cur plan =
      cursor_position <$> next_cursor (Some c) plan2
  | Err e2, Err e => e2 = e
  | _, _ => False
  end.
Proof.
  intros Hps Hs Hmk Hadv.
  destruct (plan_of J' cur ns ph i o (ps ++ qs, k + k2, o2)%nat) as [plan|e] eqn:Hp;
    destruct (plan_of J' (Some c) ns ph (i + k) o' (qs, k2, o2)) as [plan2|e2] eqn:Hp2;
    unfold plan_of in Hp, Hp2; rewrite Hadv, Nat.add_assoc in Hp;
    (destruct (plan_advances (Some c) qs o' o2 (i + k) k2) eqn:Hadv2;
     [ destruct (J' !! (i + k + k2)%nat) as [s2|];
         [destruct (make_cursor ns ph s2 o2)|]; by simplify_eq
     | apply plan_advances_false in Hadv2 as (_ & -> & -> & ->);
       rewrite Nat.add_0_r, Hs in Hp;
       edestruct (make_cursor_total ns ph s {| snap_identity := snap_identity s;
         snap_bytes := snap_bytes s ++ z |} o' o' c) as [c' Hc']; [done|done|];
       rewrite Hc' in Hp; simplify_eq ]).
  split; [done|]. cbn. unfold cursor_position.
  apply make_cursor_Ok in Hmk as (_ & _ & -> & ->).
  by apply make_cursor_Ok in Hc' as (_ & _ & -> & ->).
Qed.

(** C16: reading the journal in steps is reading it at once.  After a first
    reconciliation, records are appended to the last generation and files rotated;
    the second reconciliation, started from the cursor the first one left, then reads
    exactly the records that a single reconciliation would read after the first's,
    fails exactly when it would, with the same error, and stops at the same position. *)
Theorem reconciliation_resumes J J' cur ns ph plan1 :
  journal_grows J J' → NoDup (map snap_identity J') → journal_size J' ≤ u64_max →
  build_reconciliation_plan J cur ns ph = Ok plan1 →
  match build_reconciliation_plan J' (next_cursor cur plan1) ns ph,
        build_reconciliation_plan J' cur ns ph with
  | Ok plan2, Ok plan =>
      rp_payloads plan = rp_payloads plan1 ++ rp_payloads plan2 ∧
      cursor_position <$> next_cursor cur plan =
      cursor_position <$> next_cursor (next_cursor cur plan1) plan2
  | Err e2, Err e => e2 = e
  | _, _ => False
  end.
Proof.
  intros Hg Hnd Hsz Hb1. pose proof (journal_grows_size _ _ Hg).
  apply build_plan_inv in Hb1 as (i & o & [[ps k] o'] & Hst & Hi & Hr & Hplan); [|lia].
  assert (next_cursor cur plan1 = if rp_advance plan1 then rp_cursor plan1 else cur)
    as -> by done.
  destruct (rp_advance plan1) eqn:Hadv.
  2:{ apply plan_of_idle in Hplan as [_ Hps]; [|done]. rewrite Hps.
      by destruct (build_reconciliation_plan J' cur ns ph). }
  destruct (plan_of_advance _ _ _ _ _ _ _ _ _ _ Hplan Hadv) as [Hcond [c Hc]].
  destruct (plan_cursor_start _ _ _ _ _ _ _ _ _ _ _ _ Hg Hnd Hi Hr Hplan Hc)
    as (Hst2 & Hik & s & Hs & Hmk).
  assert (rp_payloads plan1 = ps) as Hps.
  { revert Hplan. unfold plan_of. rewrite Hcond. rewrite Hs, Hmk. by intros [= <-]. }
  rewrite Hc, (build_plan_spec _ _ _ _ _ _ Hsz Hst2 Hik).
  rewrite (build_plan_spec _ _ _ _ _ _ Hsz (plan_start_grows _ _ _ _ _ _ _ Hg Hnd Hst))
    by (by eapply Nat.le_lt_trans, Hik; lia).
  rewrite (ingest_grows _ _ _ _ _ _ _ Hg Hi Hr).
  destruct (ingest_from o' (drop (i + k) J')) as [[[qs k2] o2]|] eqn:Hr2; [|done].
  pose proof (advance_mono cur ps qs o o' o2 i k k2
    (ingest_mono _ _ _ _ _ Hr) (ingest_mono _ _ _ _ _ Hr2) Hcond) as Hadv'.
  destruct (journal_grows_lookup _ _ _ _ Hg Hs) as [z Hs'].
  eapply plan_join; [done | exact Hs' | exact Hmk | exact Hadv' ].
Qed.

(** The cursor guards its generation.  A cursor made at a record boundary is
    accepted on that generation and on any extension of it by appends; it is refused
    when the generation has become shorter than it was seen, and whenever it is
    accepted the stored digests are those of the first and the last 4096 bytes before
    the position. *)
Theorem cursor_guards_generation ns ph s o c :
  boundary (snap_bytes s) o → make_cursor ns ph s o = Ok c →
  (∀ k, verify_cursor_against_snapshot c
          {| snap_identity := snap_identity s; snap_bytes := snap_bytes s ++ k |} = Ok tt) ∧
  (∀ s', (length (snap_bytes s') < length (snap_bytes s))%nat →
     verify_cursor_against_snapshot c s' =
     Err (storage_message "durable JSONL generation was truncated")) ∧
  (∀ s', verify_cursor_against_snapshot c s' = Ok tt →
     off_boundary (snap_bytes s') o = false ∧
     sha256 (take (Nat.min o CURSOR_INTEGRITY_WINDOW) (snap_bytes s')) =
       sha256 (take (Nat.min o CURSOR_INTEGRITY_WINDOW) (snap_bytes s)) ∧
     sha256 (slice (snap_bytes s') (o - CURSOR_INTEGRITY_WINDOW) o) =
       sha256 (slice (snap_bytes s) (o - CURSOR_INTEGRITY_WINDOW) o)).
Proof.
  intros Hb Hmk. pose proof (make_cursor_matches _ _ _ _ _ Hb Hmk) as Hm.
  pose proof (make_cursor_Ok _ _ _ _ _ Hmk) as (_ & _ & _ & Ho).
  assert (observed_length c = Z.of_nat (length (snap_bytes s))) as Hol.
  { revert Hmk. unfold make_cursor. repeat (destruct (bounded_cursor_text _ _); [|done]).
    by intros [= <-]. }
  split_and!.
  - intros k. apply verify_cursor_spec. by apply cursor_matches_grow.
  - intros s' Hs'. unfold verify_cursor_against_snapshot. rewrite Ho, Hol, !Nat2Z.id.
    destruct Hb as [Hle _].
    destruct ((_ <? o)%nat || _); [done|]. by rewrite (proj2 (Nat.ltb_lt _ _)) by done.
  - intros s' (Hr & Hob & Hw & Hp & Hh)%verify_cursor_spec.
    destruct Hm as (_ & _ & _ & Hp' & Hh').
    rewrite Ho, Nat2Z.id in Hob, Hw, Hp, Hh, Hp', Hh'. rewrite Hw in Hh, Hh'.
    split_and!; [done|congruence|congruence].
Qed.

End theorems.

(** ** What is written is what is read *)

Section batch_theorems.
Context `{Digest, Diagnostics, JsonCodec} {Event : Type} `{EventSerializer Event}.

(** The serializer writes compact JSON: one line that does not end in a carriage return. *)
Class SerializerLaws : Prop := serialized_line : ∀ e b,
  serialize_event_for_emission e = Ok b → newline ∉ b ∧ last b ≠ Some carriage_return.

Lemma canonical_from_validated b id :
  validate_canonical_event_bytes b (Some id) = Ok tt →
  canonical_payload_from_bytes b =
  Ok {| p_event_id := id; p_bytes := b; p_hash := sha256 b;
        p_generation_id := None; p_generation_offset := None |}.
Proof.
  intros Hv. unfold canonical_payload_from_bytes. revert Hv.
  unfold validate_canonical_event_bytes at 1.
  destruct (map_err _ (check_markers b)) eqn:Hc; [|done].
  destruct (from_slice b) as [v|] eqn:Hf; cbn [map_err]; [|done]. destruct v; try done.
  cbv zeta. destruct (collect _ _) eqn:Hcol; [|done].
  destruct (bool_decide _) eqn:Hver; [done|].
  unfold json_get_str, json_get.
  destruct (json_member "event_id" members ≫= json_as_str) as [s|] eqn:Hs; [|done].
  destruct (is_native_event_id s) eqn:Hn; cbn [negb]; [|done].
  destruct (str_eqb id s) eqn:He; cbn [negb]; [|done]. apply str_eqb_spec in He as ->.
  destruct (collect _ REQUIRED_ARRAY_FIELDS) eqn:Hcol2; [|done]. intros _. cbn [ok_or].
  unfold validate_canonical_event_bytes. rewrite Hc, Hf. cbn [map_err].
  cbv zeta. rewrite Hcol, Hver, Hs, Hn. cbn [negb].
  rewrite (proj2 (str_eqb_spec s s)) by done. cbn [negb]. by rewrite Hcol2.
Qed.

(** A payload as it is ingested from offset [o] of generation [gid]. *)
Definition ingested (gid : string) (p : Event3DurablePayload) (at_ : nat * list ascii)
    : Event3DurablePayload :=
  {| p_event_id := p_event_id p; p_bytes := p_bytes p; p_hash := p_hash p;
     p_generation_id := Some gid; p_generation_offset := Some (Z.of_nat at_.1) |}.

(** A payload of a batch: what [canonical_payload] makes of some event. *)
Definition batch_payload (p : Event3DurablePayload) : Prop := ∃ e, canonical_payload e = Ok p.

Lemma batch_payload_Ok `{!SerializerLaws} p :
  batch_payload p →
  newline ∉ p_bytes p ∧
  ∀ gid o, parse_record gid o (p_bytes p) = Ok (ingested gid p (o, p_bytes p)).
Proof.
  intros [e He]. revert He. unfold canonical_payload.
  destruct (serialize_event_for_emission e) as [b|] eqn:Hb; simpl; [|done].
  destruct (validate_canonical_event_bytes b _) as [[]|] eqn:Hv; [|done]. intros [= <-].
  destruct (serialized_line e b Hb) as [Hn Hcr]. split; [done|]. intros gid o. simpl.
  unfold parse_record. rewrite bool_decide_false by done.
  by rewrite (canonical_from_validated _ _ Hv).
Qed.

Lemma batch_spec events batch :
  event3_durable_batch events = Ok batch →
  batch_jsonl_bytes batch = unlines (map p_bytes (batch_payloads batch)) ∧
  Forall batch_payload (batch_payloads batch) ∧
  map p_event_id (batch_payloads batch) = map event_id_of events.
Proof.
  unfold event3_durable_batch.
  enough (∀ evs pre acc, try_fold batch_push acc evs = Ok batch →
    batch_jsonl_bytes acc = unlines (map p_bytes (batch_payloads acc)) →
    Forall batch_payload (batch_payloads acc) →
    map p_event_id (batch_payloads acc) = map event_id_of pre →
    batch_jsonl_bytes batch = unlines (map p_bytes (batch_payloads batch)) ∧
    Forall batch_payload (batch_payloads batch) ∧
    map p_event_id (batch_payloads batch) = map event_id_of (pre ++ evs)) as Hgen.
  { intros Hb. eapply (Hgen events []); [done|done|constructor|done]. }
  assert (∀ l x, unlines (l ++ [x]) = unlines l ++ x ++ [newline]) as Hsnoc.
  { intros l x. induction l as [|y l IH]; simpl; [done|]. rewrite IH. by rewrite <- app_assoc. }
  induction evs as [|e evs IH]; intros pre acc; simpl.
  - intros [= <-] ???. by rewrite app_nil_r.
  - unfold batch_push at 1. destruct (canonical_payload e) as [p|] eqn:Hp; [|done].
    intros Hf Hj Hall Hid. replace (pre ++ e :: evs) with ((pre ++ [e]) ++ evs)
      by (by rewrite <- app_assoc).
    eapply IH; [done| | |]; cbn [batch_payloads batch_jsonl_bytes].
    + rewrite map_app. cbn [map]. by rewrite Hsnoc, Hj.
    + apply Forall_app. split; [done|]. constructor; [by exists e|constructor].
    + rewrite !map_app, Hid. cbn [map]. f_equal. f_equal. revert Hp. unfold canonical_payload.
      destruct (map_err _ _); [|done]. destruct (validate_canonical_event_bytes _ _); [|done].
      by intros [= <-].
Qed.

(** Round trip of a batch through the journal.  The bytes that
    [event3_durable_batch] hands to the canonical log, appended to a journal that ends
    at a record boundary, are read back by [parse_generation] as the batch's payloads,
    one per event in order, each with its identity, bytes and digest and with the
    offset it was written at; the generation is then complete. *)
Theorem batch_roundtrip `{!SerializerLaws} events batch gid old :
  event3_durable_batch events = Ok batch → boundary old (length old) →
  map p_event_id (batch_payloads batch) = map event_id_of events ∧
  parse_generation {| snap_identity := gid; snap_bytes := old ++ batch_jsonl_bytes batch |}
    (length old) =
  Ok {| next_offset := length (old ++ batch_jsonl_bytes batch);
        complete := true;
        gp_payloads := zip_with (ingested gid) (batch_payloads batch)
          (located (length old) (map p_bytes (batch_payloads batch))) |}.
Proof.
  intros Hb Hold. apply batch_spec in Hb as (Hj & Hall & Hid). split; [done|].
  rewrite parse_generation_spec by (by apply boundary_grow).
  cbn [snap_bytes snap_identity]. rewrite drop_app_length, Hj.
  assert (Forall (λ x, newline ∉ x) (map p_bytes (batch_payloads batch))) as Hn.
  { apply Forall_map. eapply Forall_impl; [done|]. intros p Hp. by apply batch_payload_Ok. }
  rewrite split_lines_unlines by done. cbn [fst snd].
  unfold progress_of. simpl. rewrite Nat.sub_0_r.
  enough (∀ o, parse_lines gid o (map p_bytes (batch_payloads batch)) =
    Ok (zip_with (ingested gid) (batch_payloads batch)
          (located o (map p_bytes (batch_payloads batch))))) as ->; [done|].
  clear Hj Hid Hn. unfold parse_lines.
  induction Hall as [|p ps Hp Hall IH]; intros o; simpl; [done|].
  apply batch_payload_Ok in Hp as [_ Hp]. rewrite Hp, IH. done.
Qed.

End batch_theorems.

(** ** The theorems on a concrete journal *)

Module JournalSample.
Import Sample.

Definition line_a : list ascii := record_a ++ [newline].
Definition line_b : list ascii := record_b ++ [newline].
Definition first : JournalSnapshot := {| snap_identity := "g1"; snap_bytes := line_a |}.
Definition before : list JournalSnapshot := [first].
Definition after : list JournalSnapshot :=
  [{| snap_identity := "g1"; snap_bytes := line_a ++ [] |};
   {| snap_identity := "g2"; snap_bytes := line_b |}].

#[export] Instance serializer : EventSerializer string := {|
  event_id_of := λ id, id;
  serialize_event_for_emission := λ id,
    if bool_decide (newline ∈ bytes id) || bool_decide (last (bytes id) = Some carriage_return)
    then Err "invalid" else Ok (bytes id);
|}.

#[export] Instance serializer_laws : SerializerLaws.
Proof.
  intros id b. simpl. case_bool_decide; [done|]. case_bool_decide; [done|]. by intros [= <-].
Qed.

Lemma reconciliation_resumes_witness :
  ∃ plan1, build_reconciliation_plan before None "ns" "ph" = Ok plan1 ∧
  match build_reconciliation_plan after (next_cursor None plan1) "ns" "ph",
        build_reconciliation_plan after None "ns" "ph" with
  | Ok plan2, Ok plan =>
      rp_payloads plan = rp_payloads plan1 ++ rp_payloads plan2 ∧
      cursor_position <$> next_cursor None plan =
      cursor_position <$> next_cursor (next_cursor None plan1) plan2
  | Err e2, Err e => e2 = e
  | _, _ => False
  end.
Proof.
  destruct (build_reconciliation_plan before None "ns" "ph") as [plan1|] eqn:Hb;
    [|vm_compute in Hb; discriminate Hb].
  exists plan1. split; [reflexivity|].
  apply (reconciliation_resumes before after None "ns" "ph" plan1).
  - exists [], first, [], [{| snap_identity := "g2"; snap_bytes := line_b |}]. done.
  - apply (bool_decide_unpack _). vm_compute. exact I.
  - vm_compute. discriminate.
  - exact Hb.
Defined.

Lemma cursor_guards_generation_witness :
  ∃ c, make_cursor "ns" "ph" first (length line_a) = Ok c ∧
    verify_cursor_against_snapshot c first = Ok tt ∧
    verify_cursor_against_snapshot c {| snap_identity := "g1"; snap_bytes := [] |} =
      Err (storage_message "durable JSONL generation was truncated").
Proof.
  destruct (make_cursor "ns" "ph" first (length line_a)) as [c|] eqn:Hc;
    [|vm_compute in Hc; discriminate Hc].
  exists c. split; [reflexivity|].
  destruct (cursor_guards_generation "ns" "ph" first (length line_a) c) as (Hk & Ht & _).
  - split; [done|vm_compute; reflexivity].
  - exact Hc.
  - split.
    + specialize (Hk []). rewrite app_nil_r in Hk. exact Hk.
    + apply Ht. apply Nat.ltb_lt. vm_compute. reflexivity.
Defined.

Lemma batch_roundtrip_witness :
  ∃ batch, event3_durable_batch [id_a; id_b] = Ok batch ∧
    map p_event_id (batch_payloads batch) = [id_a; id_b] ∧
    is_ok (parse_generation
      {| snap_identity := "g1"; snap_bytes := line_a ++ batch_jsonl_bytes batch |}
      (length line_a)) = true.
Proof.
  destruct (event3_durable_batch [id_a; id_b]) as [batch|] eqn:Hb;
    [|vm_compute in Hb; discriminate Hb].
  exists batch. split; [reflexivity|].
  destruct (batch_roundtrip [id_a; id_b] batch "g1" line_a Hb) as [Hid Hp].
  - split; [done|vm_compute; reflexivity].
  - split; [exact Hid|]. rewrite Hp. reflexivity.
Defined.

End JournalSample.
