(* ===== verification/Outbox.v ===== *)
(** * The durable outbox

    src/sink/outbox.rs over its SQLite tables: ingestion of journal records, delivery
    states, the ingest cursor and the generation metadata.

    The tables are finite maps keyed by their primary keys; text columns keep the text
    that is stored.  A statement runs on the maps and its CHECK constraints are
    explicit.  Every call that can fail for a reason outside the program (a file, the
    lock, SQLite itself) consults [Io], which says for the source's own context text
    and the subject of the call whether it fails and with which message; all theorems
    are for every [Io].  A transaction that returns an error leaves the tables as they
    were.  The clock is read once per operation. *)

From S2P Require Import Prelude Ordered Rstr Json Delivery Journal.
From stdpp Require Import gmap.
From Stdlib Require Import Ascii.

Local Open Scope Z_scope.

(** ** Tables *)

Record EventCols := {
  ev_payload : list ascii;
  ev_payload_hash : list ascii;
  ev_created_at : Z;
}.

Record DeliveryCols := {
  dl_state : string;
  dl_attempt_count : Z;
  dl_next_attempt_at : option Z;
  dl_last_error_class : option string;
  dl_last_error_status : option Z;
  dl_updated_at : Z;
}.

Record GenerationCols := {
  gn_journal_path_hash : string;
  gn_observed_at : Z;
  gn_lifecycle : string;
  gn_pruned_at : option Z;
}.

Record HealthCols := {
  hl_last_success_at : option Z;
  hl_last_error_at : option Z;
  hl_last_error_class : option string;
  hl_last_error_status : option Z;
}.

Record CursorCols := {
  cu_journal_namespace : string;
  cu_journal_path_hash : string;
  cu_generation_id : string;
  cu_byte_offset : Z;
  cu_observed_length : Z;
  cu_window_start : Z;
  cu_prefix_hash : list ascii;
  cu_window_hash : list ascii;
  cu_updated_at : Z;
}.

#[export] Instance EventCols_eq_dec : EqDecision EventCols.
Proof. solve_decision. Defined.
#[export] Instance DeliveryCols_eq_dec : EqDecision DeliveryCols.
Proof. solve_decision. Defined.
#[export] Instance GenerationCols_eq_dec : EqDecision GenerationCols.
Proof. solve_decision. Defined.

Record Db := {
  db_meta : gmap string string;
  db_events : gmap string EventCols;
  db_deliveries : gmap (string * string) DeliveryCols;
  db_event_origins : gset (string * string * Z);
  db_generations : gmap string GenerationCols;
  db_sink_health : gmap string HealthCols;
  db_cursor : option CursorCols;
}.

Definition set_meta (m : gmap string string) (db : Db) : Db :=
  {| db_meta := m; db_events := db_events db; db_deliveries := db_deliveries db;
     db_event_origins := db_event_origins db; db_generations := db_generations db;
     db_sink_health := db_sink_health db; db_cursor := db_cursor db |}.
Definition set_events (m : gmap string EventCols) (db : Db) : Db :=
  {| db_meta := db_meta db; db_events := m; db_deliveries := db_deliveries db;
     db_event_origins := db_event_origins db; db_generations := db_generations db;
     db_sink_health := db_sink_health db; db_cursor := db_cursor db |}.
Definition set_deliveries (m : gmap (string * string) DeliveryCols) (db : Db) : Db :=
  {| db_meta := db_meta db; db_events := db_events db; db_deliveries := m;
     db_event_origins := db_event_origins db; db_generations := db_generations db;
     db_sink_health := db_sink_health db; db_cursor := db_cursor db |}.
Definition set_origins (m : gset (string * string * Z)) (db : Db) : Db :=
  {| db_meta := db_meta db; db_events := db_events db; db_deliveries := db_deliveries db;
     db_event_origins := m; db_generations := db_generations db;
     db_sink_health := db_sink_health db; db_cursor := db_cursor db |}.
Definition set_generations (m : gmap string GenerationCols) (db : Db) : Db :=
  {| db_meta := db_meta db; db_events := db_events db; db_deliveries := db_deliveries db;
     db_event_origins := db_event_origins db; db_generations := m;
     db_sink_health := db_sink_health db; db_cursor := db_cursor db |}.
Definition set_health (m : gmap string HealthCols) (db : Db) : Db :=
  {| db_meta := db_meta db; db_events := db_events db; db_deliveries := db_deliveries db;
     db_event_origins := db_event_origins db; db_generations := db_generations db;
     db_sink_health := m; db_cursor := db_cursor db |}.
Definition set_cursor (c : option CursorCols) (db : Db) : Db :=
  {| db_meta := db_meta db; db_events := db_events db; db_deliveries := db_deliveries db;
     db_event_origins := db_event_origins db; db_generations := db_generations db;
     db_sink_health := db_sink_health db; db_cursor := c |}.

(** ** Files

    The journal's files in discovery order, oldest first. *)

Record JournalFile := {
  jf_path : string;
  jf_identity : string;
  jf_active : bool;
  jf_bytes : list ascii;
}.

Record JsonlGeneration := {
  jg_path : string;
  jg_identity : string;
  jg_active : bool;
}.

#[export] Instance JournalFile_eq_dec : EqDecision JournalFile.
Proof. solve_decision. Defined.
#[export] Instance JsonlGeneration_eq_dec : EqDecision JsonlGeneration.
Proof. solve_decision. Defined.

Notation Fs := (list JournalFile).

Record World := { w_db : Db; w_fs : Fs }.

Definition find_file (fs : Fs) (path : string) : option JournalFile :=
  List.find (λ f, str_eqb (jf_path f) path) fs.

(** Whether the call named by its context fails on a subject, and the message. *)
Definition Io : Type := string → string → option string.

(** A run in which nothing outside the program fails. *)
Definition no_faults : Io := λ _ _, None.

Definition file_not_found : string := "No such file or directory (os error 2)".

Section io.
Context `{Diagnostics} (io : Io).

Definition io_try (context subject : string) : result unit DeliveryError :=
  match io context subject with
  | Some e => Err (storage_error context e)
  | None => Ok tt
  end.

Definition discover_jsonl_generations (fs : Fs) (context log_path : string)
    : result (list JsonlGeneration) DeliveryError :=
  check? io_try context log_path in
  Ok (map (λ f, {| jg_path := jf_path f; jg_identity := jf_identity f;
                   jg_active := jf_active f |}) fs).

Definition stable_file_identity (fs : Fs) (context path : string)
    : result string DeliveryError :=
  check? io_try context path in
  match find_file fs path with
  | Some f => Ok (jf_identity f)
  | None => Err (storage_error context file_not_found)
  end.

(** [open_pinned_read] and [snapshot], with the context of each. *)
Definition read_file (fs : Fs) (open_context read_context path : string)
    : result (list ascii) DeliveryError :=
  check? io_try open_context path in
  match find_file fs path with
  | None => Err (storage_error open_context file_not_found)
  | Some f =>
      check? io_try read_context path in
      Ok (jf_bytes f)
  end.

End io.

(** A row that breaks a CHECK constraint. *)
Definition check_failed (constraint : string) : string :=
  "CHECK constraint failed: " +:+ constraint.

(** ** Row types of the interface *)

Record OutboxEvent := {
  oe_event_id : string;
  oe_payload : list ascii;
  oe_payload_hash : list ascii;
  oe_created_at : Z;
}.

Record DeliveryRow := {
  dr_event_id : string;
  dr_sink_id : string;
  dr_state : DeliveryState;
  dr_attempts : Z;
  dr_next_attempt_at : option Z;
  dr_last_error_class : option DeliveryErrorClass;
  dr_updated_at : Z;
}.

Record ReadyDelivery := {
  rd_row : DeliveryRow;
  rd_payload : list ascii;
}.

Record DeliveryUpdate := {
  du_state : DeliveryState;
  du_attempts : Z;
  du_next_attempt_at : option Z;
  du_last_error_class : option DeliveryErrorClass;
  du_updated_at : Z;
}.

Record GenerationMetadata := {
  gm_generation_id : string;
  gm_journal_path_hash : string;
  gm_observed_at : Z;
  gm_lifecycle : GenerationLifecycle;
  gm_pruned_at : option Z;
}.

Record ReconcileResult := {
  rr_ingested_events : nat;
  rr_ingested_bytes : Z;
}.

(** ** Reading and writing the tables *)

(** [resolve_journal_path]: the canonical path, or the absolute path it could not
    resolve, as text. *)
Class PathResolver : Type := resolve_journal_path : string → result string string.

Definition hex_digit (n : N) : ascii :=
  if (n <? 10)%N then ascii_of_N (48 + n) else ascii_of_N (87 + n).
Definition hex_encode (b : list ascii) : list ascii :=
  concat (map (λ c, [hex_digit (N_of_ascii c / 16); hex_digit (N_of_ascii c mod 16)]%N) b).

Definition nul : list ascii := ["000"%char].

Section outbox.
Context `{Digest, Diagnostics, JsonCodec, PathResolver} (io : Io).

Definition journal_path_hash_of (path : string) : string :=
  of_bytes (hex_encode (sha256
    (bytes "telltale-jsonl-journal-v1" ++ nul ++
     match resolve_journal_path path with
     | Ok path => bytes path
     | Err absolute =>
         nul ++ bytes "journal-path-resolution-failed-v1" ++ nul ++ bytes absolute
     end))).

Definition journal_namespace_of (db : Db) : result string DeliveryError :=
  check? io_try io "read journal namespace" "" in
  let? value := ok_or (db_meta db !! "journal_namespace")
                  (storage_message "outbox journal namespace is missing") in
  bounded_cursor_text value "journal namespace".

Definition ensure_journal_path (db : Db) (path_hash : string) : result Db DeliveryError :=
  check? io_try io "read journal path identity" "" in
  match db_meta db !! "journal_path_hash" with
  | Some existing =>
      if negb (str_eqb existing path_hash)
      then Err (storage_message "outbox is bound to a different canonical JSONL journal")
      else Ok db
  | None =>
      check? io_try io "bind canonical JSONL journal" "" in
      Ok (set_meta (<["journal_path_hash" := path_hash]> (db_meta db)) db)
  end.

Definition ensure_sink_identities (db : Db) (sink_ids : list string) : result Db DeliveryError :=
  let expected := ids_to_string sink_ids in
  check? io_try io "read durable sink identities" "" in
  match db_meta db !! "durable_sink_ids" with
  | Some existing =>
      let? parsed := ok_or (ids_from_str existing)
                       (storage_message "stored durable sink identities are invalid") in
      if bool_decide (parsed ≠ sink_ids)
      then Err (storage_message "configured durable sink identities changed")
      else Ok db
  | None =>
      check? io_try io "bind durable sink identities" "" in
      Ok (set_meta (<["durable_sink_ids" := expected]> (db_meta db)) db)
  end.

(** [<[u8; 32]>::try_from]. *)
Definition hash32 (b : list ascii) (message : string) : result (list ascii) DeliveryError :=
  if (length b =? 32)%nat then Ok b else Err (storage_message message).

Definition u64_of_i64 (z : Z) (message : string) : result Z DeliveryError :=
  if 0 <=? z then Ok z else Err (storage_message message).

Definition i64_of_u64 (z : Z) (message : string) : result Z DeliveryError :=
  if z <=? i64_max then Ok z else Err (storage_message message).

Definition read_ingest_cursor (db : Db) : result (option IngestCursor) DeliveryError :=
  check? io_try io "read ingest cursor" "" in
  match db_cursor db with
  | None => Ok None
  | Some row =>
      let? prefix := hash32 (cu_prefix_hash row)
                       "stored ingest cursor prefix hash is invalid" in
      let? window := hash32 (cu_window_hash row)
                       "stored ingest cursor window hash is invalid" in
      let? ns := bounded_cursor_text (cu_journal_namespace row) "journal namespace" in
      let? ph := bounded_cursor_text (cu_journal_path_hash row) "journal path hash" in
      let? gid := bounded_cursor_text (cu_generation_id row) "generation identity" in
      let? off := u64_of_i64 (cu_byte_offset row) "stored ingest cursor offset is invalid" in
      let? obs := u64_of_i64 (cu_observed_length row)
                    "stored ingest cursor length is invalid" in
      let? win := u64_of_i64 (cu_window_start row) "stored ingest cursor window is invalid" in
      Ok (Some {| journal_namespace := ns; journal_path_hash := ph; generation_id := gid;
                  byte_offset := off; observed_length := obs; window_start := win;
                  prefix_hash := prefix; window_hash := window |})
  end.

Definition write_ingest_cursor (now : Z) (db : Db) (cursor : IngestCursor)
    : result Db DeliveryError :=
  let? off := i64_of_u64 (byte_offset cursor) "ingest cursor offset is too large" in
  let? obs := i64_of_u64 (observed_length cursor) "ingest cursor length is too large" in
  let? win := i64_of_u64 (window_start cursor) "ingest cursor window is too large" in
  check? io_try io "write ingest cursor" "" in
  Ok (set_cursor (Some {|
        cu_journal_namespace := journal_namespace cursor;
        cu_journal_path_hash := journal_path_hash cursor;
        cu_generation_id := generation_id cursor;
        cu_byte_offset := off; cu_observed_length := obs; cu_window_start := win;
        cu_prefix_hash := prefix_hash cursor; cu_window_hash := window_hash cursor;
        cu_updated_at := now |}) db).

(** One row of [read_generation_metadata]. *)
Definition decode_generation (generation_id : string) (row : GenerationCols)
    : result GenerationMetadata DeliveryError :=
  let? generation_id := bounded_cursor_text generation_id "generation identity" in
  let? path_hash := validate_journal_path_hash (gn_journal_path_hash row) in
  if gn_observed_at row <? 0 then
    Err (storage_message "generation observation timestamp is invalid")
  else
    let? lifecycle := ok_or (lifecycle_from_str (gn_lifecycle row))
                        (storage_message "stored generation lifecycle is unknown") in
    check?
      match lifecycle, gn_pruned_at row with
      | Pruned, None =>
          Err (storage_message "pruned generation metadata has no prune timestamp")
      | (Present | PrunePending), Some _ =>
          Err (storage_message "unpruned generation metadata has a prune timestamp")
      | _, _ => Ok tt
      end in
    if match gn_pruned_at row with Some v => v <? 0 | None => false end then
      Err (storage_message "generation prune timestamp is invalid")
    else
      Ok {| gm_generation_id := generation_id; gm_journal_path_hash := path_hash;
            gm_observed_at := gn_observed_at row; gm_lifecycle := lifecycle;
            gm_pruned_at := gn_pruned_at row |}.

(** The rows come in no stated order. *)
Definition read_generation_metadata (db : Db) : result (list GenerationMetadata) DeliveryError :=
  check? io_try io "read generation metadata" "" in
  collect (λ '(id, row), decode_generation id row) (map_to_list (db_generations db)).

(** ** Generations *)

Definition observe_generation (fs : Fs) (identities : list string) (g : JsonlGeneration)
    : result (list string) DeliveryError :=
  let? identity := bounded_cursor_text (jg_identity g) "generation identity" in
  if bs_contains identity identities then
    Err (storage_message "durable JSONL generation identity is ambiguous")
  else
    let? actual := stable_file_identity io fs "identify JSONL generation" (jg_path g) in
    if negb (str_eqb actual identity) then
      Err (storage_message "durable JSONL generation identity changed during inspection")
    else Ok (bs_insert identity identities).

Definition validate_observed_generations (fs : Fs) (generations : list JsonlGeneration)
    : result (list string) DeliveryError :=
  try_fold (observe_generation fs) [] generations.

(** The loop over the stored rows, shared by the read-only validation and by
    [ensure_generation_metadata], which differ in two messages. *)
Definition persist_record (ambiguous missing path_hash : string) (observed : list string)
    (persisted : list (string * GenerationLifecycle)) (record : GenerationMetadata)
    : result (list (string * GenerationLifecycle)) DeliveryError :=
  if negb (str_eqb (gm_journal_path_hash record) path_hash) then
    Err (storage_message "durable generation metadata belongs to a different JSONL journal")
  else if bm_contains_key (gm_generation_id record) persisted then
    Err (storage_message ambiguous)
  else
    let persisted := bm_insert (gm_generation_id record) (gm_lifecycle record) persisted in
    match gm_lifecycle record, bs_contains (gm_generation_id record) observed with
    | Present, false => Err (storage_message missing)
    | Pruned, true => Err (storage_message "pruned durable JSONL generation reappeared")
    | _, _ => Ok persisted
    end.

Definition validate_generation_metadata_readonly (fs : Fs) (db : Db) (path_hash : string)
    (generations : list JsonlGeneration) (allow_uninitialized : bool)
    : result unit DeliveryError :=
  let? path_hash := validate_journal_path_hash path_hash in
  let? observed := validate_observed_generations fs generations in
  let? metadata := read_generation_metadata db in
  if allow_uninitialized && bool_decide (metadata = []) then Ok tt
  else
    let? persisted := try_fold (persist_record
      "durable JSONL generation metadata is ambiguous"
      "durable JSONL generation metadata is missing a present generation"
      path_hash observed) [] metadata in
    check? collect (λ generation_id,
      match bm_get generation_id persisted with
      | Some (Present | PrunePending) => Ok tt
      | Some Pruned => Err (storage_message "pruned durable JSONL generation reappeared")
      | None => Err (storage_message
          "durable JSONL generation metadata is missing an observed generation")
      end) observed in
    Ok tt.

Definition insert_generation (now : Z) (path_hash : string)
    (persisted : list (string * GenerationLifecycle)) (db : Db) (g : JsonlGeneration)
    : result Db DeliveryError :=
  let? generation_id := bounded_cursor_text (jg_identity g) "generation identity" in
  match bm_get generation_id persisted with
  | Some (Present | PrunePending) => Ok db
  | Some Pruned => Err (storage_message "pruned durable JSONL generation reappeared")
  | None =>
      check? io_try io "insert generation metadata" generation_id in
      Ok (set_generations
            (<[generation_id := {| gn_journal_path_hash := path_hash; gn_observed_at := now;
                 gn_lifecycle := "present"; gn_pruned_at := None |}]> (db_generations db)) db)
  end.

Definition ensure_generation_metadata (now : Z) (fs : Fs) (db : Db) (path_hash : string)
    (generations : list JsonlGeneration) : result Db DeliveryError :=
  let? path_hash := validate_journal_path_hash path_hash in
  let? observed := validate_observed_generations fs generations in
  let? metadata := read_generation_metadata db in
  let? persisted := try_fold (persist_record
    "durable JSONL generation metadata is invalid or ambiguous"
    "durable JSONL generation metadata contains a missing present generation"
    path_hash observed) [] metadata in
  try_fold (insert_generation now path_hash persisted) db generations.

(** ** Inserting one payload *)

Definition event_is_already_stored (db : Db) (payload : Event3DurablePayload)
    : result bool DeliveryError :=
  check? io_try io "check existing JSONL event" (p_event_id payload) in
  match db_events db !! p_event_id payload with
  | None => Ok false
  | Some row =>
      let? stored_hash := hash32 (ev_payload_hash row)
                            "stored payload hash has an invalid length" in
      if negb (length (ev_payload row) =? length (p_bytes payload))%nat
         || bool_decide (stored_hash ≠ p_hash payload)
      then Err payload_collision_error
      else if bool_decide (ev_payload row = p_bytes payload) then Ok true
      else Err payload_collision_error
  end.

Definition empty_health : HealthCols :=
  {| hl_last_success_at := None; hl_last_error_at := None;
     hl_last_error_class := None; hl_last_error_status := None |}.

(** INSERT OR IGNORE INTO sink_health. *)
Definition init_sink_health (sink_id : string) (db : Db) : Db :=
  match db_sink_health db !! sink_id with
  | Some _ => db
  | None => set_health (<[sink_id := empty_health]> (db_sink_health db)) db
  end.

Definition new_delivery (now : Z) : DeliveryCols :=
  {| dl_state := "pending"; dl_attempt_count := 0; dl_next_attempt_at := None;
     dl_last_error_class := None; dl_last_error_status := None; dl_updated_at := now |}.

Definition insert_delivery (now : Z) (event_id : string) (db : Db) (sink_id : string)
    : result Db DeliveryError :=
  check? io_try io "insert delivery state" sink_id in
  let db :=
    match db_deliveries db !! (event_id, sink_id) with
    | Some _ => db
    | None => set_deliveries (<[(event_id, sink_id) := new_delivery now]> (db_deliveries db)) db
    end in
  check? io_try io "insert sink health" sink_id in
  Ok (init_sink_health sink_id db).

(** The row of [events]: found with the same bytes and digest, or inserted. *)
Definition ensure_event_row (now : Z) (db : Db) (payload : Event3DurablePayload)
    : result Db DeliveryError :=
  check? io_try io "read existing event" (p_event_id payload) in
  match db_events db !! p_event_id payload with
  | Some row =>
      if bool_decide (ev_payload row ≠ p_bytes payload) then Err payload_collision_error
      else
        let? stored_hash := hash32 (ev_payload_hash row)
                              "stored payload hash has an invalid length" in
        if bool_decide (stored_hash ≠ p_hash payload) then
          Err (storage_message "stored payload hash does not match its bytes")
        else Ok db
  | None =>
      check? io_try io "insert event" (p_event_id payload) in
      if is_empty (p_event_id payload) then
        Err (storage_error "insert event" (check_failed "length(event_id) > 0"))
      else if bool_decide (p_bytes payload = []) then
        Err (storage_error "insert event" (check_failed "length(payload) > 0"))
      else if negb (length (p_hash payload) =? 32)%nat then
        Err (storage_error "insert event" (check_failed "length(payload_hash) = 32"))
      else
        Ok (set_events (<[p_event_id payload :=
              {| ev_payload := p_bytes payload; ev_payload_hash := p_hash payload;
                 ev_created_at := now |}]> (db_events db)) db)
  end.

(** The row of [event_origins], when the payload has provenance. *)
Definition ensure_origin_row (db : Db) (payload : Event3DurablePayload)
    : result Db DeliveryError :=
  match p_generation_id payload, p_generation_offset payload with
  | Some generation_id, Some generation_offset =>
      let? off := i64_of_u64 generation_offset "durable event offset is too large" in
      check? io_try io "insert event provenance" (p_event_id payload) in
      Ok (set_origins ({[ (p_event_id payload, generation_id, off) ]} ∪ db_event_origins db) db)
  | _, _ => Ok db
  end.

Definition check_provenance (payload : Event3DurablePayload) : result unit DeliveryError :=
  match p_generation_id payload, p_generation_offset payload with
  | Some generation_id, Some _ =>
      check? bounded_cursor_text generation_id "generation identity" in Ok tt
  | None, None => Ok tt
  | _, _ => Err (storage_message "durable event provenance is incomplete")
  end.

Definition insert_payload_transaction (now : Z) (db : Db) (payload : Event3DurablePayload)
    (sink_ids : list string) : result Db DeliveryError :=
  check? check_provenance payload in
  let? db := ensure_event_row now db payload in
  let? db := ensure_origin_row db payload in
  if is_delivery_failure_alert_payload (p_bytes payload) then Ok db
  else try_fold (insert_delivery now (p_event_id payload)) db sink_ids.

(** ** Reconciliation *)

Definition read_snapshot (fs : Fs) (g : JsonlGeneration) : result JournalSnapshot DeliveryError :=
  let? b := read_file io fs "open JSONL generation" "read JSONL generation" (jg_path g) in
  let? identity := stable_file_identity io fs "identify JSONL generation" (jg_path g) in
  Ok {| snap_identity := identity; snap_bytes := b |}.

(** Carrying out a plan inside the transaction. *)
Definition apply_plan (now : Z) (db : Db) (plan : ReconciliationPlan) (sink_ids : list string)
    : result Db DeliveryError :=
  if rp_advance plan then
    let? db := try_fold (λ db payload, insert_payload_transaction now db payload sink_ids)
                 db (rp_payloads plan) in
    match rp_cursor plan with
    | Some cursor => write_ingest_cursor now db cursor
    | None => Ok db
    end
  else Ok db.

Definition reconcile_body (now : Z) (log_path : string) (sink_ids : list string) (w : World)
    : result (Db * ReconcileResult) DeliveryError :=
  let? sink_ids := validate_sink_ids sink_ids false in
  let path_hash := journal_path_hash_of log_path in
  check? io_try io "lock canonical JSONL" log_path in
  check? io_try io "begin JSONL ingest" "" in
  let? current_cursor := read_ingest_cursor (w_db w) in
  let? generations :=
    discover_jsonl_generations io (w_fs w) "discover JSONL generations" log_path in
  let? namespace := journal_namespace_of (w_db w) in
  let? db := ensure_journal_path (w_db w) path_hash in
  let? db := ensure_sink_identities db sink_ids in
  let? db := ensure_generation_metadata now (w_fs w) db path_hash generations in
  match generations with
  | [] =>
      match current_cursor with
      | Some _ => Err (storage_message "durable ingest cursor generation is missing")
      | None =>
          check? io_try io "commit empty JSONL ingest" "" in
          Ok (db, {| rr_ingested_events := 0; rr_ingested_bytes := 0 |})
      end
  | _ =>
      let? snapshots := collect (read_snapshot (w_fs w)) generations in
      let? plan := build_reconciliation_plan snapshots current_cursor namespace path_hash in
      let? db := apply_plan now db plan sink_ids in
      check? io_try io "verify canonical JSONL lock" log_path in
      check? io_try io "commit JSONL ingest" "" in
      Ok (db, {| rr_ingested_events := length (rp_payloads plan);
                 rr_ingested_bytes := rp_ingested_bytes plan |})
  end.

(** A transaction: its writes are kept when it returns, and dropped when it fails. *)
Definition transact {A} (w : World) (r : result (Db * A) DeliveryError)
    : World * result A DeliveryError :=
  match r with
  | Ok (db, a) => ({| w_db := db; w_fs := w_fs w |}, Ok a)
  | Err e => (w, Err e)
  end.

Definition reconcile_jsonl (now : Z) (log_path : string) (sink_ids : list string) (w : World)
    : World * result ReconcileResult DeliveryError :=
  transact w (reconcile_body now log_path sink_ids w).

(** ** Deliveries *)

Definition get_event (db : Db) (event_id : string) : result (option OutboxEvent) DeliveryError :=
  check? io_try io "get event" event_id in
  match db_events db !! event_id with
  | None => Ok None
  | Some row =>
      let? payload_hash := hash32 (ev_payload_hash row)
                             "stored payload hash has an invalid length" in
      if bool_decide (payload_hash ≠ sha256 (ev_payload row)) then
        Err (storage_message "stored payload hash does not match its bytes")
      else
        check? map_err (λ e, storage_error "validate stored event" (delivery_error_display e))
                 (validate_canonical_event_bytes (ev_payload row) (Some event_id)) in
        Ok (Some {| oe_event_id := event_id; oe_payload := ev_payload row;
                    oe_payload_hash := payload_hash; oe_created_at := ev_created_at row |})
  end.

Definition is_ready (sink_id : string) (now_millis : Z)
    (entry : (string * string) * DeliveryCols) : bool :=
  let '((_, sink), row) := entry in
  str_eqb sink sink_id && str_eqb (dl_state row) "pending"
  && match dl_next_attempt_at row with None => true | Some t => t <=? now_millis end.

(** ORDER BY COALESCE(next_attempt_at, 0), updated_at, event_id. *)
Definition ready_key (entry : (string * string) * DeliveryCols) : Z * Z * string :=
  (default 0 (dl_next_attempt_at (snd entry)), dl_updated_at (snd entry), fst (fst entry)).

(** LIMIT 1. *)
Definition select_ready (db : Db) (sink_id : string) (now_millis : Z)
    : option ((string * string) * DeliveryCols) :=
  head (sort_by_key ready_key
    (filter (λ entry, is_ready sink_id now_millis entry = true)
       (map_to_list (db_deliveries db)))).

Definition u32_of_i64 (z : Z) (message : string) : result Z DeliveryError :=
  if (0 <=? z) && (z <=? u32_max) then Ok z else Err (storage_message message).

Definition next_ready_delivery (db : Db) (sink_id : string) (now_millis : Z)
    : result (option ReadyDelivery) DeliveryError :=
  check? validate_sink_ids [sink_id] false in
  check? io_try io "get ready delivery" sink_id in
  match select_ready db sink_id now_millis with
  | None => Ok None
  | Some ((event_id, stored_sink_id), row) =>
      let? state := ok_or (state_from_str (dl_state row))
                      (storage_message "stored delivery state is unknown") in
      let? attempts := u32_of_i64 (dl_attempt_count row)
                         "stored delivery attempt count is invalid" in
      let? class := decode_error_class (dl_last_error_class row) (dl_last_error_status row) in
      let? event := get_event db event_id in
      let? event := ok_or event (storage_message "delivery state references a missing event") in
      Ok (Some {|
        rd_row := {| dr_event_id := event_id; dr_sink_id := stored_sink_id; dr_state := state;
                     dr_attempts := attempts; dr_next_attempt_at := dl_next_attempt_at row;
                     dr_last_error_class := class; dr_updated_at := dl_updated_at row |};
        rd_payload := oe_payload event |})
  end.

(** The two updates of [sink_health] at the end of [record_delivery_at]. *)
Definition record_success (updated_at : Z) (sink_id : string) (db : Db)
    : result Db DeliveryError :=
  check? io_try io "record sink success" sink_id in
  match db_sink_health db !! sink_id with
  | None => Ok db
  | Some h =>
      if updated_at <? 0 then
        Err (storage_error "record sink success"
               (check_failed "last_success_at IS NULL OR last_success_at >= 0"))
      else
        Ok (set_health (<[sink_id :=
              {| hl_last_success_at := Some updated_at; hl_last_error_at := hl_last_error_at h;
                 hl_last_error_class := hl_last_error_class h;
                 hl_last_error_status := hl_last_error_status h |}]> (db_sink_health db)) db)
  end.

Definition record_error (updated_at : Z) (class : option string) (status : option Z)
    (sink_id : string) (db : Db) : result Db DeliveryError :=
  check? io_try io "record sink error" sink_id in
  match db_sink_health db !! sink_id with
  | None => Ok db
  | Some h =>
      if updated_at <? 0 then
        Err (storage_error "record sink error"
               (check_failed "last_error_at IS NULL OR last_error_at >= 0"))
      else
        Ok (set_health (<[sink_id :=
              {| hl_last_success_at := hl_last_success_at h;
                 hl_last_error_at := Some updated_at;
                 hl_last_error_class := class;
                 hl_last_error_status := status |}]> (db_sink_health db)) db)
  end.


Definition record_body (event_id sink_id : string) (update : DeliveryUpdate) (db : Db)
    : result (Db * unit) DeliveryError :=
  if is_empty (trim event_id) || is_empty (trim sink_id) then
    Err (canonical_error "outbox delivery identity is empty")
  else if negb (bool_decide (du_state update = Pending))
          && is_some (du_next_attempt_at update) then
    Err (canonical_error "terminal delivery state cannot have a next attempt time")
  else if match du_next_attempt_at update with Some v => v <? 0 | None => false end then
    Err (canonical_error "outbox next attempt time is invalid")
  else
    let '(error_class, error_status) := encode_error_class (du_last_error_class update) in
    check? io_try io "begin delivery state update" event_id in
    check? io_try io "record delivery state" event_id in
    match db_deliveries db !! (event_id, sink_id) with
    | None => Err (storage_message "delivery state row does not exist")
    | Some _ =>
        let db := set_deliveries (<[(event_id, sink_id) :=
          {| dl_state := state_as_str (du_state update);
             dl_attempt_count := du_attempts update;
             dl_next_attempt_at := du_next_attempt_at update;
             dl_last_error_class := error_class; dl_last_error_status := error_status;
             dl_updated_at := du_updated_at update |}]> (db_deliveries db)) db in
        check? io_try io "initialize sink health" sink_id in
        let db := init_sink_health sink_id db in
        let? db := if bool_decide (du_state update = Acked)
                   then record_success (du_updated_at update) sink_id db else Ok db in
        let? db := if is_some (du_last_error_class update)
                   then record_error (du_updated_at update) error_class error_status sink_id db
                   else Ok db in
        check? io_try io "commit delivery state update" event_id in
        Ok (db, tt)
    end.

Definition record_delivery_at (event_id sink_id : string) (update : DeliveryUpdate) (w : World)
    : World * result unit DeliveryError :=
  transact w (record_body event_id sink_id update (w_db w)).

(** UPDATE deliveries SET state = 'pending' ... WHERE sink_id = ? AND state = 'blocked'. *)
Definition is_blocked_for (sink_id : string) (key : string * string) (row : DeliveryCols) : bool :=
  str_eqb (snd key) sink_id && str_eqb (dl_state row) "blocked".

Definition release_row (sink_id : string) (now : Z) (key : string * string) (row : DeliveryCols)
    : DeliveryCols :=
  if is_blocked_for sink_id key row then
    {| dl_state := "pending"; dl_attempt_count := dl_attempt_count row;
       dl_next_attempt_at := Some now; dl_last_error_class := dl_last_error_class row;
       dl_last_error_status := dl_last_error_status row; dl_updated_at := now |}
  else row.

Definition io_try_delivery (context subject : string) : result unit DeliveryError :=
  match io context subject with
  | Some e => Err (storage_delivery_error context e)
  | None => Ok tt
  end.

Definition release_body (sink_id : string) (now : Z) (db : Db) : result (Db * Z) DeliveryError :=
  let? sink_ids := validate_sink_ids [sink_id] false in
  let? sink_id := ok_or (head sink_ids)
    (delivery_error_new UnknownInternal 0 "validated sink identity is missing") in
  check? io_try_delivery "begin blocked delivery release" sink_id in
  check? io_try_delivery "release blocked deliveries" sink_id in
  let changed := filter (λ '(key, row), is_blocked_for sink_id key row = true)
                   (map_to_list (db_deliveries db)) in
  check? io_try_delivery "commit blocked delivery release" sink_id in
  Ok (set_deliveries (map_imap (λ key row, Some (release_row sink_id now key row))
                        (db_deliveries db)) db,
      Z.of_nat (length changed)).

Definition release_blocked_for_sink (sink_id : string) (now : Z) (w : World)
    : World * result Z DeliveryError :=
  transact w (release_body sink_id now (w_db w)).

(** ** Health *)

Record DurableSinkHealth := {
  sh_sink_id : string;
  sh_pending_depth : Z;
  sh_pending_bytes : Z;
  sh_oldest_pending_age_seconds : option Z;
  sh_dead_count : Z;
  sh_last_success_at : option Z;
  sh_last_error_at : option Z;
  sh_last_error_class : option DeliveryErrorClass;
  sh_last_error_status : option Z;
}.

Definition WINDOWS_DURABLE_STORAGE_UNSUPPORTED : string :=
  "persistent durable-delivery private storage is not supported on Windows yet".

Definition ensure_durable_storage_supported_for_platform (is_windows : bool)
    : result unit DeliveryError :=
  if is_windows
  then Err (delivery_error_new DurableStorage 0 WINDOWS_DURABLE_STORAGE_UNSUPPORTED)
  else Ok tt.

(** The rows of the sink joined with their events. *)
Definition sink_rows (db : Db) (sink_id : string) : list (DeliveryCols * EventCols) :=
  omap (λ '((event_id, sink), row),
    if str_eqb sink sink_id then (λ ev, (row, ev)) <$> db_events db !! event_id else None)
    (map_to_list (db_deliveries db)).

Definition in_queue (row : DeliveryCols) : bool := str_in (dl_state row) ["pending"; "blocked"].

Definition min_created (rows : list (DeliveryCols * EventCols)) : option Z :=
  foldr (λ '(_, ev) acc,
    Some (match acc with None => ev_created_at ev | Some m => Z.min (ev_created_at ev) m end))
    None rows.

Definition sum_payload (rows : list (DeliveryCols * EventCols)) : Z :=
  foldr (λ '(_, ev) n, Z.of_nat (length (ev_payload ev)) + n) 0 rows.

Definition sink_health_of (db : Db) (now_seconds : Z) (sink_id : string)
    : result DurableSinkHealth DeliveryError :=
  check? io_try io "query durable health" sink_id in
  let rows := sink_rows db sink_id in
  let queued := filter (λ '(row, _), in_queue row = true) rows in
  let dead := filter (λ '(row, _), str_eqb (dl_state row) "dead" = true) rows in
  let oldest := (λ created_at, Z.max (i64_saturating_sub now_seconds created_at) 0)
                <$> min_created queued in
  check? io_try io "query sink health history" sink_id in
  let history := default empty_health (db_sink_health db !! sink_id) in
  let? class := decode_error_class (hl_last_error_class history)
                  (hl_last_error_status history) in
  let? status := match hl_last_error_status history with
                 | None => Ok None
                 | Some z =>
                     match u16_try_from z with
                     | Some s => Ok (Some s)
                     | None => Err (storage_message
                         "stored sink health error status is invalid")
                     end
                 end in
  Ok {| sh_sink_id := sink_id;
        sh_pending_depth := Z.of_nat (length queued);
        sh_pending_bytes := sum_payload queued;
        sh_oldest_pending_age_seconds := oldest;
        sh_dead_count := Z.of_nat (length dead);
        sh_last_success_at := hl_last_success_at history;
        sh_last_error_at := hl_last_error_at history;
        sh_last_error_class := class;
        sh_last_error_status := status |}.

Definition health (is_windows : bool) (db : Db) (sink_ids : list string) (now_seconds : Z)
    : result (list DurableSinkHealth) DeliveryError :=
  check? ensure_durable_storage_supported_for_platform is_windows in
  let? sink_ids :=
    match sink_ids with
    | [] =>
        check? io_try io "list durable health sinks" "" in
        Ok (sort (map fst (map_to_list (db_sink_health db))))
    | _ => validate_sink_ids sink_ids false
    end in
  collect (sink_health_of db now_seconds) sink_ids.

End outbox.

(** ** What ingestion does to the tables *)

Section ingest.
Context `{Digest, Diagnostics, JsonCodec, PathResolver}.

Lemma io_try_Ok io context subject u :
  io_try io context subject = Ok u ↔ io context subject = None ∧ u = tt.
Proof. unfold io_try. destruct u. destruct (io context subject); naive_solver. Qed.

(** A payload that asks sink [s] to be sent event [e]. *)
Definition queues (sinks : list string) (e s : string) (p : Event3DurablePayload) : bool :=
  str_eqb (p_event_id p) e && str_in s sinks && negb (is_delivery_failure_alert_payload (p_bytes p)).

Definition origin_of (p : Event3DurablePayload) : option (string * string * Z) :=
  match p_generation_id p, p_generation_offset p with
  | Some g, Some o => Some (p_event_id p, g, o)
  | _, _ => None
  end.

Definition event_row (now : Z) (p : Event3DurablePayload) : EventCols :=
  {| ev_payload := p_bytes p; ev_payload_hash := p_hash p; ev_created_at := now |}.

(** [db'] is [db] after ingesting [ps] for [sinks]: what was stored stays as it was,
    every payload has its event and its origin, and exactly the payloads that are not
    delivery-failure alerts have a pending delivery per sink. *)
Record inserted (now : Z) (sinks : list string) (db : Db) (ps : list Event3DurablePayload)
    (db' : Db) : Prop := {
  ins_events_kept : db_events db ⊆ db_events db';
  ins_events_stored : ∀ p, p ∈ ps → ∃ row, db_events db' !! p_event_id p = Some row ∧
    ev_payload row = p_bytes p ∧ ev_payload_hash row = p_hash p;
  ins_events_new : ∀ id row, db_events db !! id = None → db_events db' !! id = Some row →
    ∃ p, p ∈ ps ∧ id = p_event_id p ∧ row = event_row now p;
  ins_deliveries : ∀ e s, db_deliveries db' !! (e, s) =
    match db_deliveries db !! (e, s) with
    | Some row => Some row
    | None => if existsb (queues sinks e s) ps then Some (new_delivery now) else None
    end;
  ins_origins : db_event_origins db' = list_to_set (omap origin_of ps) ∪ db_event_origins db;
  ins_health : ∀ s h, db_sink_health db' !! s = Some h →
    db_sink_health db !! s = Some h ∨ h = empty_health;
  ins_meta : db_meta db' = db_meta db;
  ins_generations : db_generations db' = db_generations db;
  ins_cursor : db_cursor db' = db_cursor db;
}.

Lemma inserted_nil now sinks db : inserted now sinks db [] db.
Proof.
  constructor; try done.
  - set_solver.
  - intros id row Hn Hs. congruence.
  - intros e s. by destruct (db_deliveries db !! (e, s)).
  - simpl. set_solver.
  - eauto.
Qed.

Lemma inserted_app now sinks db ps db1 qs db2 :
  inserted now sinks db ps db1 → inserted now sinks db1 qs db2 →
  inserted now sinks db (ps ++ qs) db2.
Proof.
  intros [K1 S1 N1 D1 O1 HL1 M1 G1 C1] [K2 S2 N2 D2 O2 HL2 M2 G2 C2].
  constructor; try congruence.
  - by transitivity (db_events db1).
  - intros p [Hp|Hp]%elem_of_app; [|eauto].
    destruct (S1 p Hp) as (row & Hr & ?). exists row. split; [|done].
    by eapply lookup_weaken.
  - intros id row Hn Hs. destruct (db_events db1 !! id) as [row1|] eqn:H1'.
    + destruct (N1 id row1 Hn H1') as (p & ? & ? & ?). exists p.
      assert (row = row1) as -> by (apply (lookup_weaken _ _ _ _ H1') in K2; congruence).
      split; [set_solver|done].
    + destruct (N2 id row H1' Hs) as (p & ? & ? & ?). exists p. split; [set_solver|done].
  - intros e s. rewrite D2, D1, existsb_app.
    destruct (db_deliveries db !! (e, s)); [done|]. by destruct (existsb (queues _ _ _) ps).
  - rewrite O2, O1, omap_app, list_to_set_app_L. set_solver.
  - intros s h Hh. destruct (HL2 s h Hh) as [?| ->]; eauto.
Qed.

Definition same_but_queue (db db' : Db) : Prop :=
  db_events db' = db_events db ∧ db_event_origins db' = db_event_origins db ∧
  db_meta db' = db_meta db ∧ db_generations db' = db_generations db ∧
  db_cursor db' = db_cursor db.

Lemma insert_delivery_spec io now e db s db' :
  insert_delivery io now e db s = Ok db' →
  same_but_queue db db' ∧
  (∀ k, db_deliveries db' !! k =
     match db_deliveries db !! k with
     | Some row => Some row
     | None => if bool_decide (k = (e, s)) then Some (new_delivery now) else None
     end) ∧
  (∀ s' h, db_sink_health db' !! s' = Some h → db_sink_health db !! s' = Some h ∨ h = empty_health).
Proof.
  unfold insert_delivery. destruct (io_try io "insert delivery state" s); [|done].
  destruct (io_try io "insert sink health" s); [|done]. intros [= <-].
  set (db1 := match db_deliveries db !! (e, s) with Some _ => db | None => _ end).
  assert (same_but_queue db db1 ∧ db_sink_health db1 = db_sink_health db ∧
    ∀ k, db_deliveries db1 !! k =
     match db_deliveries db !! k with
     | Some row => Some row
     | None => if bool_decide (k = (e, s)) then Some (new_delivery now) else None
     end) as (Hs & Hh & Hd).
  { unfold db1. destruct (db_deliveries db !! (e, s)) as [row|] eqn:Hr.
    - split_and!; [by split_and!|done|]. intros k. case_bool_decide as Hk; [subst; by rewrite Hr|].
      by destruct (db_deliveries db !! k).
    - split_and!; [by split_and!|done|]. intros k. simpl.
      destruct (decide (k = (e, s))) as [->|Hk].
      + rewrite lookup_insert_eq, Hr, bool_decide_true; done.
      + rewrite lookup_insert_ne, bool_decide_false by done. by destruct (db_deliveries db !! k). }
  unfold init_sink_health. rewrite Hh. destruct (db_sink_health db !! s) as [h0|] eqn:Hs'.
  - split_and!; [done|done|]. intros s' h. rewrite Hh. eauto.
  - split_and!; [done|done|]. intros s' h. simpl.
    destruct (decide (s' = s)) as [->|]; [rewrite lookup_insert_eq|rewrite lookup_insert_ne by done];
      naive_solver.
Qed.

Lemma insert_deliveries_spec io now e sinks db db' :
  try_fold (insert_delivery io now e) db sinks = Ok db' →
  same_but_queue db db' ∧
  (∀ e' s, db_deliveries db' !! (e', s) =
     match db_deliveries db !! (e', s) with
     | Some row => Some row
     | None => if str_eqb e e' && str_in s sinks then Some (new_delivery now) else None
     end) ∧
  (∀ s' h, db_sink_health db' !! s' = Some h → db_sink_health db !! s' = Some h ∨ h = empty_health).
Proof.
  revert db; induction sinks as [|s0 sinks IH]; intros db; simpl.
  - intros [= <-]. split_and!; [by split_and!| |eauto]. intros e' s.
    rewrite andb_false_r. by destruct (db_deliveries db !! (e', s)).
  - destruct (insert_delivery io now e db s0) as [db1|] eqn:H1'; [|done]. intros Hf.
    apply insert_delivery_spec in H1' as (Hsame1 & Hd1 & Hh1).
    apply IH in Hf as (Hsame2 & Hd2 & Hh2).
    split_and!.
    + unfold same_but_queue in *. naive_solver congruence.
    + intros e' s. rewrite Hd2, Hd1. destruct (db_deliveries db !! (e', s)); [done|].
      case_bool_decide as Hk.
      * injection Hk as -> ->. unfold str_in. cbn [existsb].
        by rewrite !(proj2 (str_eqb_spec _ _)) by done.
      * unfold str_in. cbn [existsb].
        destruct (str_eqb e e') eqn:He; [|done]. apply str_eqb_spec in He as ->.
        destruct (str_eqb s s0) eqn:Hs0; [|done]. apply str_eqb_spec in Hs0 as ->. congruence.
    + intros s' h Hs'. destruct (Hh2 s' h Hs') as [?| ->]; eauto.
Qed.

Lemma i64_of_u64_Ok z m r : i64_of_u64 z m = Ok r ↔ r = z ∧ z ≤ i64_max.
Proof. unfold i64_of_u64. case_match; naive_solver lia. Qed.

Lemma hash32_Ok b m r : hash32 b m = Ok r ↔ r = b ∧ length b = 32%nat.
Proof. unfold hash32. destruct (Nat.eqb_spec (length b) 32); naive_solver. Qed.

Definition same_but_events (db db' : Db) : Prop :=
  db_deliveries db' = db_deliveries db ∧ db_event_origins db' = db_event_origins db ∧
  db_sink_health db' = db_sink_health db ∧ db_meta db' = db_meta db ∧
  db_generations db' = db_generations db ∧ db_cursor db' = db_cursor db.

Lemma ensure_event_row_spec io now db p db' :
  ensure_event_row io now db p = Ok db' →
  same_but_events db db' ∧
  (db' = db ∧ (∃ row, db_events db !! p_event_id p = Some row ∧ ev_payload row = p_bytes p ∧
                      ev_payload_hash row = p_hash p) ∨
   db_events db !! p_event_id p = None ∧
   db_events db' = <[p_event_id p := event_row now p]> (db_events db)).
Proof.
  unfold ensure_event_row. destruct (io_try _ _ _); [|done].
  destruct (db_events db !! p_event_id p) as [row|] eqn:Hr.
  - case_bool_decide as Hb; [done|]. destruct (hash32 _ _) as [h|] eqn:Hh; [|done].
    apply hash32_Ok in Hh as [-> _]. case_bool_decide as Hh; [done|]. intros [= <-].
    split; [by split_and!|]. left. split; [done|]. exists row.
    split; [done|]. done.
  - destruct (io_try _ _ _); [|done]. destruct (is_empty _); [done|].
    case_bool_decide; [done|]. destruct (negb _); [done|]. intros [= <-].
    split; [by split_and!|]. right. done.
Qed.

Lemma ensure_origin_row_spec io db p db' :
  ensure_origin_row io db p = Ok db' →
  db' = set_origins (list_to_set (omap origin_of [p]) ∪ db_event_origins db) db.
Proof.
  unfold ensure_origin_row, origin_of. simpl.
  assert (set_origins (∅ ∪ db_event_origins db) db = db) as Hid
    by (rewrite union_empty_l_L; by destruct db).
  destruct (p_generation_id p), (p_generation_offset p); simpl;
    [|rewrite Hid; naive_solver..].
  destruct (i64_of_u64 _ _) as [o|] eqn:Ho; [|done]. apply i64_of_u64_Ok in Ho as [-> _].
  destruct (io_try _ _ _); [|done]. intros [= <-]. f_equal. set_solver.
Qed.

Lemma insert_payload_spec io now sinks db p db' :
  insert_payload_transaction io now db p sinks = Ok db' → inserted now sinks db [p] db'.
Proof.
  unfold insert_payload_transaction. destruct (check_provenance p); [|done].
  destruct (ensure_event_row io now db p) as [db1|] eqn:He; [|done].
  destruct (ensure_origin_row io db1 p) as [db2|] eqn:Ho; [|done]. intros Hd.
  apply ensure_origin_row_spec in Ho.
  assert (same_but_queue db2 db' ∧
    (∀ e s, db_deliveries db' !! (e, s) =
     match db_deliveries db2 !! (e, s) with
     | Some row => Some row
     | None => if queues sinks e s p then Some (new_delivery now) else None
     end) ∧
    (∀ s' h, db_sink_health db' !! s' = Some h →
       db_sink_health db2 !! s' = Some h ∨ h = empty_health)) as (Hsame & Hdel & Hh).
  { unfold queues. destruct (is_delivery_failure_alert_payload (p_bytes p)).
    - injection Hd as <-. split_and!; [by split_and!| |eauto]. intros e s.
      rewrite andb_false_r. by destruct (db_deliveries db2 !! (e, s)).
    - apply insert_deliveries_spec in Hd as (Hs & Hdd & Hhh). split_and!; [done| |done].
      intros e s. rewrite Hdd. by rewrite andb_true_r. }
  destruct Hsame as (Hev & Hor & Hme & Hge & Hcu). subst db2. simpl in *.
  apply ensure_event_row_spec in He as [(E1 & E2 & E3 & E4 & E5 & E6) Hrow].
  rewrite E1, E2, E3, E4, E5, E6 in *.
  constructor; rewrite ?Hev; try done.
  - destruct Hrow as [[-> _]|[Hn ->]]; [done|]. by apply insert_subseteq.
  - intros q Hq%list_elem_of_singleton. subst q.
    destruct Hrow as [[-> Hrow]|[Hn ->]]; [done|]. rewrite lookup_insert_eq. eexists. split; [done|].
    done.
  - intros id row Hn Hs. destruct Hrow as [[-> _]|[Hn' Heq]]; [congruence|].
    rewrite Heq in Hs. destruct (decide (id = p_event_id p)) as [->|Hne].
    + rewrite lookup_insert_eq in Hs. injection Hs as <-. exists p. set_solver.
    + rewrite lookup_insert_ne in Hs by done. congruence.
  - intros e s. rewrite Hdel. simpl. by rewrite orb_false_r.
Qed.

Lemma insert_payloads_spec io now sinks ps db db' :
  try_fold (λ db p, insert_payload_transaction io now db p sinks) db ps = Ok db' →
  inserted now sinks db ps db'.
Proof.
  revert db; induction ps as [|p ps IH]; intros db; simpl.
  - intros [= <-]. apply inserted_nil.
  - destruct (insert_payload_transaction _ _ _ _ _) as [db1|] eqn:H1'; [|done]. intros Hf.
    apply (inserted_app _ _ _ [p] db1); [by eapply insert_payload_spec | by apply IH].
Qed.

End ingest.
