(* ===== verification/OutboxInv.v ===== *)
(** * The outbox: invariant, ingestion and immutability

    Lemmas on the reads and writes of [Outbox], the invariant of the tables and its
    preservation by every operation of [Outbox], and what one reconciliation does. *)

From S2P Require Import Prelude Ordered Rstr Json Delivery Journal Outbox.
From stdpp Require Import gmap.
From Stdlib Require Import Ascii.

Local Open Scope Z_scope.

(** ** Generations *)

Definition generation_of (f : JournalFile) : JsonlGeneration :=
  {| jg_path := jf_path f; jg_identity := jf_identity f; jg_active := jf_active f |}.

Definition snapshot_of (f : JournalFile) : JournalSnapshot :=
  {| snap_identity := jf_identity f; snap_bytes := jf_bytes f |}.

Section generations.
Context `{Digest, Diagnostics, JsonCodec, PathResolver}.

Lemma discover_Ok io fs context path gs :
  discover_jsonl_generations io fs context path = Ok gs → gs = map generation_of fs.
Proof. unfold discover_jsonl_generations. destruct (io_try _ _ _); naive_solver. Qed.

Lemma observe_Ok io fs ids gs r :
  try_fold (observe_generation io fs) ids gs = Ok r →
  r = bs_extend ids (map jg_identity gs) ∧ NoDup (map jg_identity gs) ∧
  Forall (λ g, jg_identity g ∉ ids ∧
               bounded_cursor_text (jg_identity g) "generation identity" = Ok (jg_identity g) ∧
               ∃ f, find_file fs (jg_path g) = Some f ∧ jf_identity f = jg_identity g) gs.
Proof.
  revert ids; induction gs as [|g gs IH]; intros ids; simpl.
  - intros [= <-]. split_and!; [done|constructor|constructor].
  - unfold observe_generation at 1.
    destruct (bounded_cursor_text _ _) as [i|] eqn:Hi; [|done].
    pose proof Hi as Hi'. apply bounded_cursor_text_Ok in Hi' as [-> _].
    destruct (bs_contains _ ids) eqn:Hc; [done|].
    destruct (stable_file_identity _ _ _ _) as [a|] eqn:Ha; [|done].
    destruct (str_eqb a _) eqn:He; [|done]. apply str_eqb_spec in He as ->. intros Hf.
    apply IH in Hf as (-> & Hnd & Hall).
    assert (jg_identity g ∉ ids) as Hnin.
    { intros Hin. apply bs_contains_spec in Hin. congruence. }
    rewrite Forall_forall in Hall. split_and!; [done| |].
    + constructor; [|done]. intros (g' & Hg' & Hin)%list_elem_of_fmap.
      destruct (Hall g' Hin) as [Hn _]. apply Hn. apply bs_insert_elem. left. done.
    + constructor.
      * split_and!; [done|done|]. revert Ha. unfold stable_file_identity.
        destruct (io_try _ _ _); [|done]. destruct (find_file fs (jg_path g)) as [f|]; [|done].
        intros [= Hf]. eauto.
      * apply Forall_forall. intros g' Hg'. destruct (Hall g' Hg') as [Hn Hrest].
        split; [|done]. intros Hin. apply Hn. apply bs_insert_elem. auto.
Qed.

(** Files whose discovered generations validate are found at their paths. *)
Lemma observed_files io fs ids :
  validate_observed_generations io fs (map generation_of fs) = Ok ids →
  NoDup (map jf_identity fs) ∧
  (∀ i, i ∈ ids ↔ i ∈ map jf_identity fs) ∧
  (∀ f, f ∈ fs → find_file fs (jf_path f) = Some f ∧
     bounded_cursor_text (jf_identity f) "generation identity" = Ok (jf_identity f)).
Proof.
  intros Ho. apply observe_Ok in Ho as (-> & Hnd & Hall).
  rewrite map_map in *. cbn [generation_of jg_identity] in *. split_and!; [done| |].
  - intros i. rewrite bs_extend_elem. set_solver.
  - intros f Hf. rewrite Forall_forall in Hall.
    destruct (Hall (generation_of f)) as (_ & Hb & f' & Hfind & Hid).
    { apply list_elem_of_fmap. eauto. }
    split; [|done]. simpl in *. rewrite Hfind. f_equal.
    assert (f' ∈ fs) as Hf'.
    { unfold find_file in Hfind. apply List.find_some in Hfind as [Hin _].
      by apply list_elem_of_In. }
    apply list_elem_of_lookup in Hf as [i Hi], Hf' as [j Hj].
    assert (i = j) as ->; [|congruence].
    eapply (NoDup_lookup (map jf_identity fs)); [done| |].
    + by rewrite list_lookup_fmap, Hi.
    + by rewrite list_lookup_fmap, Hj, <- Hid.
Qed.

Lemma read_snapshot_Ok io fs f s :
  find_file fs (jf_path f) = Some f →
  read_snapshot io fs (generation_of f) = Ok s → s = snapshot_of f.
Proof.
  intros Hf. unfold read_snapshot, read_file, stable_file_identity. simpl. rewrite Hf.
  destruct (io_try _ _ _); [|done]. destruct (io_try _ _ _); [|done].
  destruct (io_try _ _ _); [|done]. by intros [= <-].
Qed.

Lemma read_snapshots_Ok io fs gs ss :
  (∀ f, f ∈ gs → find_file fs (jf_path f) = Some f) →
  collect (read_snapshot io fs) (map generation_of gs) = Ok ss → ss = map snapshot_of gs.
Proof.
  intros Hfind Hc. apply collect_Ok in Hc.
  revert ss Hc; induction gs as [|f gs IH]; intros ss Hc; inversion Hc as [|? s ? ss' Hs Hss];
    subst; [done|].
  simpl. f_equal.
  - eapply read_snapshot_Ok; [|done]. apply Hfind. set_solver.
  - apply IH; [|done]. intros f' Hf'. apply Hfind. set_solver.
Qed.

Lemma decode_generation_Ok id row m :
  decode_generation id row = Ok m →
  gm_generation_id m = id ∧ gm_journal_path_hash m = gn_journal_path_hash row ∧
  gn_lifecycle row = lifecycle_text (gm_lifecycle m) ∧ gm_pruned_at m = gn_pruned_at row.
Proof.
  unfold decode_generation. destruct (bounded_cursor_text _ _) as [i|] eqn:Hi; [|done].
  apply bounded_cursor_text_Ok in Hi as [-> _].
  destruct (validate_journal_path_hash _) as [h|] eqn:Hh; [|done].
  apply validate_journal_path_hash_Ok in Hh as ->. destruct (_ <? 0); [done|].
  destruct (lifecycle_from_str _) as [l|] eqn:Hl; [|done]. cbn [ok_or].
  apply lifecycle_from_str_inv in Hl.
  destruct l, (gn_pruned_at row); try done;
    (destruct (_ <? 0); [done|]) || idtac; intros [= <-]; done.
Qed.

Lemma read_metadata_elem io db ms m :
  read_generation_metadata io db = Ok ms →
  (m ∈ ms → ∃ row, db_generations db !! gm_generation_id m = Some row ∧
                   decode_generation (gm_generation_id m) row = Ok m).
Proof.
  unfold read_generation_metadata. destruct (io_try _ _ _); [|done]. intros Hc Hm.
  apply collect_Ok in Hc.
  apply list_elem_of_lookup in Hm as [i Hi].
  destruct (Forall2_lookup_r _ _ _ _ _ Hc Hi) as ([id row] & Hrow & Hd).
  pose proof (decode_generation_Ok _ _ _ Hd) as [-> _]. exists row. split; [|done].
  apply elem_of_map_to_list. by eapply list_elem_of_lookup_2.
Qed.

Lemma read_metadata_complete io db ms id row :
  read_generation_metadata io db = Ok ms → db_generations db !! id = Some row →
  ∃ m, m ∈ ms ∧ decode_generation id row = Ok m.
Proof.
  unfold read_generation_metadata. destruct (io_try _ _ _); [|done]. intros Hc Hr.
  apply collect_Ok in Hc. apply elem_of_map_to_list, list_elem_of_lookup in Hr as [i Hi].
  destruct (Forall2_lookup_l _ _ _ _ _ Hc Hi) as (m & Hm & Hd).
  exists m. split; [by eapply list_elem_of_lookup_2|done].
Qed.

Lemma persist_fold am mi ph obs acc ms r :
  try_fold (persist_record am mi ph obs) acc ms = Ok r →
  (∀ k v, bm_get k acc = Some v → bm_get k r = Some v) ∧
  (∀ k v, bm_get k r = Some v → bm_get k acc = Some v ∨ ∃ m, m ∈ ms ∧ gm_generation_id m = k) ∧
  Forall (λ m, bm_get (gm_generation_id m) r = Some (gm_lifecycle m) ∧
               gm_journal_path_hash m = ph ∧
               (gm_lifecycle m = Present → gm_generation_id m ∈ obs) ∧
               (gm_lifecycle m = Pruned → gm_generation_id m ∉ obs)) ms.
Proof.
  revert acc; induction ms as [|m ms IH]; intros acc; simpl.
  - intros [= <-]. split_and!; [done|auto|constructor].
  - unfold persist_record at 1.
    destruct (str_eqb _ ph) eqn:Hph; [|done]. apply str_eqb_spec in Hph. cbn [negb].
    destruct (bm_contains_key _ acc) eqn:Hc; [done|].
    assert (bm_get (gm_generation_id m) acc = None) as Hnone.
    { unfold bm_contains_key in Hc. by destruct (bm_get _ acc). }
    set (acc' := bm_insert _ _ acc). intros Hf.
    assert (try_fold (persist_record am mi ph obs) acc' ms = Ok r ∧
      (gm_lifecycle m = Present → gm_generation_id m ∈ obs) ∧
      (gm_lifecycle m = Pruned → gm_generation_id m ∉ obs)) as (Hf' & Hpres & Hprun).
    { pose proof (bs_contains_spec (gm_generation_id m) obs) as Hspec.
      destruct (gm_lifecycle m), (bs_contains (gm_generation_id m) obs); try done;
        (split; [done|]); split; intros Hl; try discriminate Hl; naive_solver. }
    apply IH in Hf' as (Hkeep & Hback & Hall). split_and!.
    + intros k v Hk. apply Hkeep. subst acc'. rewrite bm_get_insert_ne; [done|]. congruence.
    + intros k v Hk. destruct (Hback k v Hk) as [Ha|(m' & ? & ?)];
        [|right; exists m'; split; [set_solver|done]].
      destruct (decide (gm_generation_id m = k)) as [<-|Hne]; [right; exists m; set_solver|].
      left. subst acc'. by rewrite bm_get_insert_ne in Ha.
    + constructor; [|done]. split_and!; try done. apply Hkeep. apply bm_get_insert_eq.
Qed.

End generations.

(** ** The invariant *)

Section invariant.
Context `{Digest, Diagnostics, JsonCodec, PathResolver} `{!DigestLaws}.

Record delivery_wf (key : string * string) (row : DeliveryCols) : Prop := {
  dw_sink : sink_id_ok (snd key);
  dw_state : ∃ st, dl_state row = state_as_str st ∧
    (st ≠ Pending → dl_next_attempt_at row = None);
  dw_attempts : 0 ≤ dl_attempt_count row ≤ u32_max;
  dw_class : ∃ c, decode_error_class (dl_last_error_class row) (dl_last_error_status row) = Ok c;
}.

(** The stored cursor is the row of a well-formed cursor. *)
Record cursor_wf (row : CursorCols) : Prop := {
  cw_hashes : length (cu_prefix_hash row) = 32%nat ∧ length (cu_window_hash row) = 32%nat;
  cw_texts : ∀ what,
    bounded_cursor_text (cu_journal_namespace row) what = Ok (cu_journal_namespace row) ∧
    bounded_cursor_text (cu_journal_path_hash row) what = Ok (cu_journal_path_hash row) ∧
    bounded_cursor_text (cu_generation_id row) what = Ok (cu_generation_id row);
  cw_nonneg : 0 ≤ cu_byte_offset row ∧ 0 ≤ cu_observed_length row ∧ 0 ≤ cu_window_start row;
}.

Record db_wf (db : Db) : Prop := {
  wf_events : ∀ id row, db_events db !! id = Some row →
    ev_payload_hash row = sha256 (ev_payload row) ∧
    validate_canonical_event_bytes (ev_payload row) (Some id) = Ok tt;
  wf_deliveries : ∀ key row, db_deliveries db !! key = Some row →
    is_Some (db_events db !! key.1) ∧ delivery_wf key row;
  wf_origins : ∀ e g o, (e, g, o) ∈ db_event_origins db → is_Some (db_events db !! e);
  wf_generations : ∀ id row, db_generations db !! id = Some row →
    ∃ m, decode_generation id row = Ok m;
  wf_health : ∀ s h, db_sink_health db !! s = Some h →
    ∃ c, decode_error_class (hl_last_error_class h) (hl_last_error_status h) = Ok c;
  wf_cursor : ∀ row, db_cursor db = Some row → cursor_wf row;
}.

(** The tables of a new outbox. *)
Definition new_db (namespace : string) : Db :=
  {| db_meta := {["journal_namespace" := namespace]}; db_events := ∅; db_deliveries := ∅;
     db_event_origins := ∅; db_generations := ∅; db_sink_health := ∅; db_cursor := None |}.

Lemma new_db_wf ns : db_wf (new_db ns).
Proof. constructor; simpl; try done; intros ??; rewrite lookup_empty; done. Qed.

Definition payload_ok (p : Event3DurablePayload) : Prop :=
  p_hash p = sha256 (p_bytes p) ∧
  validate_canonical_event_bytes (p_bytes p) (Some (p_event_id p)) = Ok tt.

Lemma new_delivery_wf now e s : sink_id_ok s → delivery_wf (e, s) (new_delivery now).
Proof.
  intros Hs. constructor; [done| |by unfold u32_max; simpl|by exists None].
  exists Pending. done.
Qed.

Lemma inserted_wf now sinks db ps db' :
  Forall sink_id_ok sinks → Forall payload_ok ps →
  inserted now sinks db ps db' → db_wf db → db_wf db'.
Proof.
  intros Hsinks Hps [K S N D O HL M G C] [We Wd Wo Wg Wh Wc].
  rewrite Forall_forall in Hsinks. rewrite Forall_forall in Hps.
  assert (∀ e, is_Some (db_events db !! e) → is_Some (db_events db' !! e)) as Hmono.
  { intros e [row Hr]. exists row. by eapply lookup_weaken. }
  assert (∀ p, p ∈ ps → is_Some (db_events db' !! p_event_id p)) as Hst.
  { intros p Hp. destruct (S p Hp) as (row & ? & _). by exists row. }
  constructor.
  - intros id row Hr. destruct (db_events db !! id) as [row0|] eqn:H0'.
    + assert (row = row0) as -> by (apply (lookup_weaken _ _ _ _ H0') in K; congruence). eauto.
    + destruct (N id row H0' Hr) as (p & Hp & -> & ->). exact (Hps p Hp).
  - intros [e s] row. rewrite D. destruct (db_deliveries db !! (e, s)) as [row0|] eqn:H0'.
    + intros [= <-]. apply Wd in H0' as [? ?]. eauto.
    + destruct (existsb _ ps) eqn:Hex; [|done]. intros [= <-].
      apply existsb_exists in Hex as (p & Hp & Hq). apply list_elem_of_In in Hp.
      apply andb_true_iff in Hq as [[He Hs]%andb_true_iff _].
      apply str_eqb_spec in He as <-. apply str_in_spec in Hs. simpl.
      split; [eauto|]. apply new_delivery_wf. eauto.
  - intros e g o. rewrite O, elem_of_union, elem_of_list_to_set, list_elem_of_omap.
    intros [(p & Hp & Ho)|Ho]; [|eauto].
    unfold origin_of in Ho. repeat case_match; simplify_eq. eauto.
  - rewrite G. done.
  - intros s h Hh. destruct (HL s h Hh) as [?| ->]; [eauto|]. by exists None.
  - rewrite C. done.
Qed.

Lemma parse_lines_payloads identity o ls ps :
  parse_lines identity o ls = Ok ps → Forall payload_ok ps.
Proof.
  unfold parse_lines. intros Hc%collect_Ok. apply Forall_forall. intros p Hp.
  apply list_elem_of_lookup in Hp as [i Hi].
  destruct (Forall2_lookup_r _ _ _ _ _ Hc Hi) as ([o' line] & _ & Hr).
  apply parse_record_Ok in Hr as (Hb & Hh & Hv & _). unfold payload_ok. by rewrite Hb.
Qed.

Lemma parse_generation_payloads snap o pr :
  parse_generation snap o = Ok pr → Forall payload_ok (gp_payloads pr).
Proof.
  destruct snap as [identity b]. intros Hp. pose proof (parse_stop _ _ _ _ Hp) as Hs.
  destruct (split_lines _) as [ls t]. destruct Hs as (_ & _ & Hs & _).
  by eapply parse_lines_payloads.
Qed.

Lemma plan_loop_payloads si so i rest st st' :
  Forall payload_ok (pl_payloads st) → plan_loop si so i rest st = Ok st' →
  Forall payload_ok (pl_payloads st').
Proof.
  revert i st; induction rest as [|s rest IH]; intros i st Hst; simpl; [by intros [= <-]|].
  destruct (parse_generation s _) as [pr|] eqn:Hp; [|done].
  destruct (ok_or _ _) as [t|]; [|done]. apply parse_generation_payloads in Hp.
  destruct (complete pr); [intros Hr; eapply IH; [|exact Hr] | intros [= <-]];
    simpl; by apply Forall_app.
Qed.

Lemma build_plan_payloads J cur ns ph plan :
  build_reconciliation_plan J cur ns ph = Ok plan → Forall payload_ok (rp_payloads plan).
Proof.
  unfold build_reconciliation_plan. destruct (plan_start J cur ns ph) as [[i o]|]; [|done].
  destruct (_ <=? _)%nat; [done|]. destruct (plan_loop _ _ _ _ _) as [st|] eqn:Hl; [|done].
  apply plan_loop_payloads in Hl; [|constructor].
  destruct (if pl_advance st then _ else _); [|done]. by intros [= <-].
Qed.

Lemma make_cursor_wf ns ph s o c :
  make_cursor ns ph s o = Ok c → ∀ now, cursor_wf {|
    cu_journal_namespace := journal_namespace c; cu_journal_path_hash := journal_path_hash c;
    cu_generation_id := generation_id c; cu_byte_offset := byte_offset c;
    cu_observed_length := observed_length c; cu_window_start := window_start c;
    cu_prefix_hash := prefix_hash c; cu_window_hash := window_hash c; cu_updated_at := now |}.
Proof.
  unfold make_cursor. destruct (bounded_cursor_text ns _) eqn:Hn; [|done].
  destruct (bounded_cursor_text ph _) eqn:Hp; [|done].
  destruct (bounded_cursor_text (snap_identity s) _) eqn:Hi; [|done].
  apply bounded_cursor_text_Ok in Hn as (-> & Hn), Hp as (-> & Hp), Hi as (-> & Hi).
  intros [= <-] now. constructor; simpl.
  - split; apply sha256_length.
  - intros what. split_and!; by apply bounded_cursor_text_Ok.
  - lia.
Qed.

Lemma build_plan_cursor J cur ns ph plan c :
  build_reconciliation_plan J cur ns ph = Ok plan → rp_cursor plan = Some c →
  ∃ s o, make_cursor ns ph s o = Ok c.
Proof.
  unfold build_reconciliation_plan. destruct (plan_start J cur ns ph) as [[i o]|]; [|done].
  destruct (_ <=? _)%nat; [done|]. destruct (plan_loop _ _ _ _ _) as [st|]; [|done].
  destruct (pl_advance st); [|by intros [= <-]].
  destruct (J !! pl_index st) as [s|]; [|done].
  destruct (make_cursor ns ph s (pl_offset st)) as [c'|] eqn:Hm; [|done].
  intros [= <-] [= <-]. eauto.
Qed.

End invariant.

(** ** One reconciliation *)

Section reconcile.
Context `{Digest, Diagnostics, JsonCodec, PathResolver} `{!DigestLaws}.

Definition present_row (now : Z) (path_hash : string) : GenerationCols :=
  {| gn_journal_path_hash := path_hash; gn_observed_at := now;
     gn_lifecycle := "present"; gn_pruned_at := None |}.

(** [db0] is [db] with the journal, the sinks and the generations bound. *)
Record prepared (now : Z) (path_hash : string) (fs : Fs) (db db0 : Db) : Prop := {
  pr_events : db_events db0 = db_events db;
  pr_deliveries : db_deliveries db0 = db_deliveries db;
  pr_origins : db_event_origins db0 = db_event_origins db;
  pr_health : db_sink_health db0 = db_sink_health db;
  pr_cursor : db_cursor db0 = db_cursor db;
  pr_meta_kept : db_meta db ⊆ db_meta db0;
  pr_meta_path : db_meta db0 !! "journal_path_hash" = Some path_hash;
  pr_gens_kept : db_generations db ⊆ db_generations db0;
  pr_gens_new : ∀ id row, db_generations db !! id = None → db_generations db0 !! id = Some row →
    row = present_row now path_hash ∧ id ∈ map jf_identity fs ∧
    bounded_cursor_text id "generation identity" = Ok id;
  pr_gens_seen : ∀ f, f ∈ fs → ∃ row l, db_generations db0 !! jf_identity f = Some row ∧
    gn_lifecycle row = lifecycle_text l ∧ l ≠ Pruned;
  pr_hash : validate_journal_path_hash path_hash = Ok path_hash;
  pr_ids : NoDup (map jf_identity fs);
  pr_files : ∀ f, f ∈ fs → find_file fs (jf_path f) = Some f;
}.

Lemma ensure_journal_path_spec io db ph db' :
  ensure_journal_path io db ph = Ok db' →
  db' = set_meta (db_meta db') db ∧ db_meta db ⊆ db_meta db' ∧
  db_meta db' !! "journal_path_hash" = Some ph.
Proof.
  unfold ensure_journal_path. destruct (io_try _ _ _); [|done].
  destruct (db_meta db !! "journal_path_hash") as [e|] eqn:He.
  - destruct (str_eqb e ph) eqn:Hs; [|done]. apply str_eqb_spec in Hs as ->. intros [= <-].
    split_and!; [by destruct db|done|done].
  - destruct (io_try _ _ _); [|done]. intros [= <-].
    split_and!; [done| |by apply lookup_insert_eq]. by apply insert_subseteq.
Qed.

Lemma ensure_sink_identities_spec io db ids db' :
  ensure_sink_identities io db ids = Ok db' →
  db' = set_meta (db_meta db') db ∧ db_meta db ⊆ db_meta db'.
Proof.
  unfold ensure_sink_identities. destruct (io_try _ _ _); [|done].
  destruct (db_meta db !! "durable_sink_ids") as [e|] eqn:He.
  - destruct (ok_or _ _); [|done]. case_bool_decide; [done|]. intros [= <-].
    split; [by destruct db|done].
  - destruct (io_try _ _ _); [|done]. intros [= <-]. split; [done|]. by apply insert_subseteq.
Qed.

Lemma insert_generations_spec io now ph persisted gs db db' :
  (∀ id row, db_generations db !! id = Some row →
     is_Some (bm_get id persisted) ∨ id ∉ map jg_identity gs) →
  NoDup (map jg_identity gs) →
  try_fold (insert_generation io now ph persisted) db gs = Ok db' →
  db' = set_generations (db_generations db') db ∧ db_generations db ⊆ db_generations db' ∧
  (∀ id row, db_generations db !! id = None → db_generations db' !! id = Some row →
     row = present_row now ph ∧ id ∈ map jg_identity gs) ∧
  (∀ g, g ∈ gs → bm_get (jg_identity g) persisted = Some Present ∨
                 bm_get (jg_identity g) persisted = Some PrunePending ∨
                 db_generations db' !! jg_identity g = Some (present_row now ph)).
Proof.
  revert db; induction gs as [|g gs IH]; intros db Hcov Hnd; simpl.
  - intros [= <-]. split_and!; [by destruct db|done|congruence|set_solver].
  - inversion Hnd as [|? ? Hnin Hnd']; subst. unfold insert_generation at 1.
    destruct (bounded_cursor_text _ _) as [i|] eqn:Hi; [|done].
    apply bounded_cursor_text_Ok in Hi as [-> _].
    destruct (bm_get (jg_identity g) persisted) as [l|] eqn:Hl.
    + assert (l = Present ∨ l = PrunePending → try_fold (insert_generation io now ph persisted) db gs
        = Ok db' → db' = set_generations (db_generations db') db ∧
        db_generations db ⊆ db_generations db' ∧
        (∀ id row, db_generations db !! id = None → db_generations db' !! id = Some row →
           row = present_row now ph ∧ id ∈ jg_identity g :: map jg_identity gs) ∧
        (∀ g', g' ∈ g :: gs → bm_get (jg_identity g') persisted = Some Present ∨
           bm_get (jg_identity g') persisted = Some PrunePending ∨
           db_generations db' !! jg_identity g' = Some (present_row now ph))) as Hok.
      { intros Hlp Hf. apply IH in Hf as (? & ? & Hnew & Hseen);
          [|intros id row Hr; specialize (Hcov id row Hr); set_solver|done].
        split_and!; [done|done| |].
        - intros id row ??. destruct (Hnew id row) as [-> ?]; [done|done|]. set_solver.
        - intros g' [->|Hg']%elem_of_cons; [|eauto]. rewrite Hl. naive_solver. }
      destruct l; [apply Hok; auto | apply Hok; auto | done].
    + destruct (io_try _ _ _); [|done]. intros Hf.
      assert (db_generations db !! jg_identity g = None) as Hfresh.
      { destruct (db_generations db !! jg_identity g) as [row|] eqn:Hr; [|done].
        destruct (Hcov _ _ Hr) as [[? ?]|Hn]; [congruence|]. set_solver. }
      apply IH in Hf as (Hset & Hsub & Hnew & Hseen); [| |done]; simpl in *.
      2:{ intros id row. destruct (decide (id = jg_identity g)) as [->|Hne]; [auto|].
          rewrite lookup_insert_ne by done. intros Hr. specialize (Hcov id row Hr). set_solver. }
      split_and!.
      * by rewrite Hset.
      * etransitivity; [by apply insert_subseteq|exact Hsub].
      * intros id row Hn Hr. destruct (decide (id = jg_identity g)) as [->|Hne].
        -- rewrite (lookup_weaken _ _ _ _ (lookup_insert_eq _ _ _) Hsub) in Hr.
           injection Hr as <-. split; [done|set_solver].
        -- destruct (Hnew id row) as [-> ?]; [by rewrite lookup_insert_ne|done|]. set_solver.
      * intros g' [->|Hg']%elem_of_cons; [|eauto]. right. right.
        by eapply lookup_weaken; [apply lookup_insert_eq|].
Qed.

Lemma ensure_generation_metadata_spec io now fs db ph db' :
  ensure_generation_metadata io now fs db ph (map generation_of fs) = Ok db' →
  db' = set_generations (db_generations db') db ∧
  db_generations db ⊆ db_generations db' ∧
  (∀ id row, db_generations db !! id = None → db_generations db' !! id = Some row →
    row = present_row now ph ∧ id ∈ map jf_identity fs ∧
    bounded_cursor_text id "generation identity" = Ok id) ∧
  (∀ f, f ∈ fs → ∃ row l, db_generations db' !! jf_identity f = Some row ∧
    gn_lifecycle row = lifecycle_text l ∧ l ≠ Pruned) ∧
  validate_journal_path_hash ph = Ok ph ∧ NoDup (map jf_identity fs) ∧
  (∀ f, f ∈ fs → find_file fs (jf_path f) = Some f).
Proof.
  unfold ensure_generation_metadata.
  destruct (validate_journal_path_hash ph) as [ph'|] eqn:Hph; [|done].
  pose proof Hph as Heq. apply validate_journal_path_hash_Ok in Heq as ->.
  destruct (validate_observed_generations _ _ _) as [obs|] eqn:Ho; [|done].
  destruct (observed_files _ _ _ Ho) as (Hnd & Hobs & Hfile).
  destruct (read_generation_metadata io db) as [ms|] eqn:Hms; [|done].
  destruct (try_fold (persist_record _ _ _ _) [] ms) as [persisted|] eqn:Hp; [|done].
  apply persist_fold in Hp as (_ & Hback & Hall). rewrite Forall_forall in Hall.
  assert (map jg_identity (map generation_of fs) = map jf_identity fs) as Hmap
    by (by rewrite map_map).
  intros Hf. apply insert_generations_spec in Hf as (Hset & Hsub & Hnew & Hseen);
    [|intros id row Hr; left|by rewrite Hmap].
  2:{ destruct (read_metadata_complete _ _ _ _ _ Hms Hr) as (m & Hm & Hd).
      destruct (Hall m Hm) as [Hg _]. apply decode_generation_Ok in Hd as [<- _]. eauto. }
  rewrite Hmap in Hnew. split_and!; try done.
  - intros id row Hn Hr. destruct (Hnew id row Hn Hr) as [-> Hin]. split_and!; [done|done|].
    apply list_elem_of_fmap in Hin as (f & -> & Hf). by apply Hfile.
  - intros f Hf. destruct (Hseen (generation_of f)) as [Hs|[Hs|Hs]];
      [by apply list_elem_of_fmap; eauto| | |]; simpl in Hs.
    1,2: destruct (Hback _ _ Hs) as [Hb|(m & Hm & Hid)]; [done|];
      destruct (read_metadata_elem _ _ _ m Hms Hm) as (row & Hr & Hd);
      destruct (Hall m Hm) as (Hg & _); rewrite Hid in *;
      apply decode_generation_Ok in Hd as (_ & _ & Hl & _);
      exists row, (gm_lifecycle m); split_and!;
      [by eapply lookup_weaken|done|congruence].
    exists (present_row now ph), Present. done.
  - intros f Hf. by apply Hfile.
Qed.

(** What a successful reconciliation did. *)
Lemma reconcile_inv io now log sinks w db' r :
  reconcile_body io now log sinks w = Ok (db', r) →
  let ph := journal_path_hash_of log in
  ∃ ids cur ns db0,
    validate_sink_ids sinks false = Ok ids ∧
    read_ingest_cursor io (w_db w) = Ok cur ∧
    prepared now ph (w_fs w) (w_db w) db0 ∧
    (w_fs w = [] ∧ cur = None ∧ db' = db0 ∧
       r = {| rr_ingested_events := 0; rr_ingested_bytes := 0 |} ∨
     ∃ plan,
       build_reconciliation_plan (map snapshot_of (w_fs w)) cur ns ph = Ok plan ∧
       apply_plan io now db0 plan ids = Ok db' ∧
       r = {| rr_ingested_events := length (rp_payloads plan);
              rr_ingested_bytes := rp_ingested_bytes plan |}).
Proof.
  unfold reconcile_body. destruct (validate_sink_ids sinks false) as [ids|]; [|done].
  destruct (io_try _ _ _); [|done]. destruct (io_try _ _ _); [|done].
  destruct (read_ingest_cursor io (w_db w)) as [cur|]; [|done].
  destruct (discover_jsonl_generations _ _ _ _) as [gs|] eqn:Hg; [|done].
  apply discover_Ok in Hg as ->.
  destruct (journal_namespace_of io (w_db w)) as [ns|]; [|done].
  destruct (ensure_journal_path _ _ _) as [db1|] eqn:H1'; [|done].
  destruct (ensure_sink_identities _ _ _) as [db2|] eqn:H2'; [|done].
  destruct (ensure_generation_metadata _ _ _ _ _ _) as [db3|] eqn:H3'; [|done].
  apply ensure_journal_path_spec in H1' as (E1 & M1 & P1).
  apply ensure_sink_identities_spec in H2' as (E2 & M2).
  apply ensure_generation_metadata_spec in H3' as (E3 & G3 & N3 & S3 & V3 & I3 & F3).
  intros Hb. set (ph := journal_path_hash_of log) in *. exists ids, cur, ns, db3.
  assert (prepared now ph (w_fs w) (w_db w) db3) as Hprep.
  { rewrite E2, E1 in G3, N3. simpl in G3, N3.
    assert (db_meta db3 = db_meta db2) as Hm by (by rewrite E3).
    constructor; try done; try (rewrite E3, E2, E1; done).
    - rewrite Hm. by transitivity (db_meta db1).
    - rewrite Hm. by eapply lookup_weaken. }
  split_and!; try done.
  destruct (w_fs w) as [|f fs] eqn:Hfs; cbn [map] in Hb.
  - left. destruct cur; [done|]. destruct (io_try _ _ _); [|done]. by injection Hb as <- <-.
  - right. change (generation_of f :: map generation_of fs) with (map generation_of (f :: fs)) in Hb.
    destruct (collect _ _) as [ss|] eqn:Hss; [|done].
    apply read_snapshots_Ok in Hss as ->; [|intros f' Hf'; by apply (pr_files _ _ _ _ _ Hprep)].
    destruct (build_reconciliation_plan _ _ _ _) as [plan|] eqn:Hplan; [|done].
    destruct (apply_plan _ _ _ _ _) as [db4|] eqn:Ha; [|done].
    destruct (io_try _ _ _); [|done]. destruct (io_try _ _ _); [|done].
    injection Hb as <- <-. eauto.
Qed.

End reconcile.

(** ** Carrying out a plan *)

Section apply.
Context `{Digest, Diagnostics, JsonCodec, PathResolver} `{!DigestLaws}.

Definition cursor_row (now : Z) (c : IngestCursor) : CursorCols :=
  {| cu_journal_namespace := journal_namespace c; cu_journal_path_hash := journal_path_hash c;
     cu_generation_id := generation_id c; cu_byte_offset := byte_offset c;
     cu_observed_length := observed_length c; cu_window_start := window_start c;
     cu_prefix_hash := prefix_hash c; cu_window_hash := window_hash c; cu_updated_at := now |}.

Lemma write_cursor_spec io now db c db' :
  write_ingest_cursor io now db c = Ok db' →
  db' = set_cursor (Some (cursor_row now c)) db ∧
  byte_offset c ≤ i64_max ∧ observed_length c ≤ i64_max ∧ window_start c ≤ i64_max.
Proof.
  unfold write_ingest_cursor.
  destruct (i64_of_u64 (byte_offset c) _) eqn:E1; [|done].
  destruct (i64_of_u64 (observed_length c) _) eqn:E2; [|done].
  destruct (i64_of_u64 (window_start c) _) eqn:E3; [|done].
  apply i64_of_u64_Ok in E1 as [-> ?], E2 as [-> ?], E3 as [-> ?].
  destruct (io_try _ _ _); [|done]. by intros [= <-].
Qed.

Lemma plan_loop_idle si so i rest st st' :
  plan_loop si so i rest st = Ok st' → pl_advance st' = false →
  pl_payloads st' = pl_payloads st ∧ pl_advance st = false.
Proof.
  revert i st; induction rest as [|s rest IH]; intros i st; simpl; [by intros [= <-]|].
  destruct (parse_generation s _) as [pr|]; [|done]. destruct (ok_or _ _) as [t|]; [|done].
  assert (∀ a b c d, a || negb (bool_decide (gp_payloads pr = [])) || c || d = false →
    pl_payloads st ++ gp_payloads pr = pl_payloads st ∧ a = false ∧ b = b :> bool) as Hor.
  { intros a b c d. rewrite !orb_false_iff, negb_false_iff, bool_decide_eq_true.
    intros [[[-> ->] _] _]. by rewrite app_nil_r. }
  destruct (complete pr).
  - intros Hl Hadv. apply IH in Hl as [-> Hadv']; [|done]. simpl in *.
    apply (Hor _ true) in Hadv' as (? & ? & _). done.
  - intros [= <-] Hadv. simpl in *. apply (Hor _ true) in Hadv as (? & ? & _). done.
Qed.

Lemma build_plan_idle J cur ns ph plan :
  build_reconciliation_plan J cur ns ph = Ok plan → rp_advance plan = false →
  rp_payloads plan = [] ∧ rp_cursor plan = None ∧ is_Some cur.
Proof.
  unfold build_reconciliation_plan. destruct (plan_start J cur ns ph) as [[i o]|]; [|done].
  destruct (_ <=? _)%nat; [done|]. destruct (plan_loop _ _ _ _ _) as [st|] eqn:Hl; [|done].
  destruct (pl_advance st) eqn:Ha.
  - destruct (J !! pl_index st) as [s|]; [|done]. destruct (make_cursor _ _ _ _); [|done].
    by intros [= <-].
  - intros [= <-] _. apply plan_loop_idle in Hl as [Hp Hn]; [|done]. simpl in *.
    split_and!; [done|done|]. apply bool_decide_eq_false in Hn. destruct cur; [eauto|done].
Qed.

Lemma build_plan_advance J cur ns ph plan :
  build_reconciliation_plan J cur ns ph = Ok plan → rp_advance plan = true →
  ∃ c, rp_cursor plan = Some c.
Proof.
  unfold build_reconciliation_plan. destruct (plan_start J cur ns ph) as [[i o]|]; [|done].
  destruct (_ <=? _)%nat; [done|]. destruct (plan_loop _ _ _ _ _) as [st|]; [|done].
  destruct (pl_advance st); [|by intros [= <-]].
  destruct (J !! pl_index st) as [s|]; [|done].
  destruct (make_cursor _ _ _ _) as [c|]; [|done]. intros [= <-] _. eauto.
Qed.

(** The tables after a plan: the payloads are in, and the cursor is the plan's. *)
Lemma apply_plan_spec io now db plan ids db' J cur ns ph :
  build_reconciliation_plan J cur ns ph = Ok plan → apply_plan io now db plan ids = Ok db' →
  ∃ db1, inserted now ids db (rp_payloads plan) db1 ∧
    db' = set_cursor (match rp_cursor plan with
                      | Some c => Some (cursor_row now c) | None => db_cursor db1 end) db1.
Proof.
  intros Hplan. unfold apply_plan. destruct (rp_advance plan) eqn:Hadv.
  - destruct (build_plan_advance _ _ _ _ _ Hplan Hadv) as [c Hc]. rewrite Hc.
    destruct (try_fold _ _ _) as [db1|] eqn:Hf; [|done].
    intros [-> _]%write_cursor_spec. exists db1. split; [|done]. by eapply insert_payloads_spec.
  - destruct (build_plan_idle _ _ _ _ _ Hplan Hadv) as (-> & -> & _). intros [= <-].
    exists db. split; [apply inserted_nil|]. by destruct db.
Qed.

Lemma prepared_wf now ph fs db db0 :
  0 ≤ now → prepared now ph fs db db0 → db_wf db → db_wf db0.
Proof.
  intros Hnow P [We Wd Wo Wg Wh Wc].
  constructor; rewrite ?(pr_events _ _ _ _ _ P), ?(pr_deliveries _ _ _ _ _ P),
    ?(pr_origins _ _ _ _ _ P), ?(pr_health _ _ _ _ _ P), ?(pr_cursor _ _ _ _ _ P); try done.
  intros id row Hr. destruct (db_generations db !! id) as [row0|] eqn:H0'.
  - assert (row = row0) as ->; [|eauto].
    pose proof (lookup_weaken _ _ _ _ H0' (pr_gens_kept _ _ _ _ _ P)). congruence.
  - destruct (pr_gens_new _ _ _ _ _ P id row H0' Hr) as (-> & _ & Hb).
    unfold decode_generation. rewrite Hb. simpl. rewrite (pr_hash _ _ _ _ _ P).
    rewrite (proj2 (Z.ltb_ge _ _)) by lia. simpl. eauto.
Qed.

Lemma set_cursor_wf row db :
  (∀ r, row = Some r → cursor_wf r) → db_wf db → db_wf (set_cursor row db).
Proof. intros Hr [We Wd Wo Wg Wh Wc]. constructor; simpl; try done. Qed.

Lemma validated_sinks ids b vs :
  validate_sink_ids ids b = Ok vs → Forall sink_id_ok vs.
Proof.
  intros [-> Hok]%validate_sink_ids_Ok. apply Forall_forall. intros s.
  rewrite bs_of_list_elem. intros (i & -> & Hi)%list_elem_of_fmap.
  rewrite Forall_forall in Hok. auto.
Qed.

Lemma reconcile_wf io now log sinks w :
  0 ≤ now → db_wf (w_db w) → db_wf (w_db (reconcile_jsonl io now log sinks w).1).
Proof.
  intros Hnow Hwf. unfold reconcile_jsonl, transact.
  destruct (reconcile_body io now log sinks w) as [[db' r]|] eqn:Hr; [|done]. simpl.
  apply reconcile_inv in Hr as (ids & cur & ns & db0 & Hids & Hcur & Hprep & Hcase).
  pose proof (prepared_wf _ _ _ _ _ Hnow Hprep Hwf) as Hwf0.
  destruct Hcase as [(_ & _ & -> & _)|(plan & Hplan & Ha & _)]; [done|].
  destruct (apply_plan_spec _ _ _ _ _ _ _ _ _ _ Hplan Ha) as (db1 & Hins & ->).
  apply set_cursor_wf.
  - destruct (rp_cursor plan) as [c|] eqn:Hc.
    + destruct (build_plan_cursor _ _ _ _ _ _ Hplan Hc) as (s & o & Hm).
      intros r' [= <-]. by eapply make_cursor_wf.
    + intros r' Hr'. apply (wf_cursor db0); [done|].
      by rewrite <- (ins_cursor _ _ _ _ _ Hins).
  - eapply inserted_wf; [by eapply validated_sinks|by eapply build_plan_payloads|done|done].
Qed.

(** ** Deliveries *)

Definition update_ok (u : DeliveryUpdate) : Prop :=
  0 ≤ du_attempts u ≤ u32_max ∧ ∀ c, du_last_error_class u = Some c → class_in_range c.

Definition updated_row (u : DeliveryUpdate) : DeliveryCols :=
  {| dl_state := state_as_str (du_state u); dl_attempt_count := du_attempts u;
     dl_next_attempt_at := du_next_attempt_at u;
     dl_last_error_class := (encode_error_class (du_last_error_class u)).1;
     dl_last_error_status := (encode_error_class (du_last_error_class u)).2;
     dl_updated_at := du_updated_at u |}.

(** The error columns of every sink satisfy [P]. *)
Definition health_classes (P : option string → option Z → Prop)
    (m : gmap string HealthCols) : Prop :=
  ∀ s h, m !! s = Some h → P (hl_last_error_class h) (hl_last_error_status h).

Lemma health_classes_insert P m s h :
  health_classes P m → P (hl_last_error_class h) (hl_last_error_status h) →
  health_classes P (<[s := h]> m).
Proof.
  intros Hm Hh s' h'. destruct (decide (s' = s)) as [->|];
    [rewrite lookup_insert_eq; naive_solver | rewrite lookup_insert_ne by done; apply Hm].
Qed.

(** A step that changes the health rows only, and keeps their error columns in [P]. *)
Definition health_step (P : option string → option Z → Prop) (db db' : Db) : Prop :=
  ∃ m, db' = set_health m db ∧ (health_classes P (db_sink_health db) → health_classes P m).

Lemma health_step_refl P db : health_step P db db.
Proof. exists (db_sink_health db). split; [by destruct db|done]. Qed.

Lemma health_step_trans P db1 db2 db3 :
  health_step P db1 db2 → health_step P db2 db3 → health_step P db1 db3.
Proof. intros (m & -> & Hm) (n & -> & Hn). exists n. split; [done|]. auto. Qed.

Lemma init_health_step (P : option string → option Z → Prop) s db :
  P None None → health_step P db (init_sink_health s db).
Proof.
  intros HP. unfold init_sink_health. destruct (db_sink_health db !! s);
    [apply health_step_refl|]. eexists. split; [done|]. intros Hm.
  by apply health_classes_insert.
Qed.

Lemma record_success_step io P t s db db' :
  record_success io t s db = Ok db' → health_step P db db'.
Proof.
  unfold record_success. destruct (io_try _ _ _); [|done].
  destruct (db_sink_health db !! s) as [h|] eqn:Hh; [|intros [= <-]; apply health_step_refl].
  destruct (_ <? 0); [done|]. intros [= <-]. eexists. split; [done|]. intros Hm.
  apply health_classes_insert; [done|]. simpl. eauto.
Qed.

Lemma record_error_step io (P : option string → option Z → Prop) t c st s db db' :
  P c st → record_error io t c st s db = Ok db' → health_step P db db'.
Proof.
  intros HP. unfold record_error. destruct (io_try _ _ _); [|done].
  destruct (db_sink_health db !! s) as [h|] eqn:Hh; [|intros [= <-]; apply health_step_refl].
  destruct (_ <? 0); [done|]. intros [= <-]. eexists. split; [done|]. intros Hm.
  by apply health_classes_insert.
Qed.

(** What recording an attempt changes. *)
Lemma record_spec io e s u db db' (P : option string → option Z → Prop) :
  P None None →
  P (encode_error_class (du_last_error_class u)).1
    (encode_error_class (du_last_error_class u)).2 →
  record_body io e s u db = Ok (db', tt) →
  is_Some (db_deliveries db !! (e, s)) ∧
  (du_state u ≠ Pending → du_next_attempt_at u = None) ∧
  health_step P (set_deliveries (<[(e, s) := updated_row u]> (db_deliveries db)) db) db'.
Proof.
  intros HP0 HP. unfold record_body, updated_row. destruct (_ || _); [done|].
  destruct (negb (bool_decide (du_state u = Pending)) && is_some (du_next_attempt_at u)) eqn:Hn;
    [done|].
  destruct (match du_next_attempt_at u with Some v => v <? 0 | None => false end); [done|].
  destruct (encode_error_class (du_last_error_class u)) as [ec es] eqn:Henc. simpl in HP |- *.
  destruct (io_try _ _ _); [|done]. destruct (io_try _ _ _); [|done].
  destruct (db_deliveries db !! (e, s)) as [row|] eqn:Hrow; [|done].
  destruct (io_try _ _ _); [|done]. set (db1 := set_deliveries _ db).
  set (db2 := init_sink_health s db1).
  destruct (if bool_decide (du_state u = Acked) then _ else _) as [db3|] eqn:H3'; [|done].
  destruct (if is_some (du_last_error_class u) then _ else _) as [db4|] eqn:H4'; [|done].
  destruct (io_try _ _ _); [|done]. intros [= <-]. split_and!; [done| |].
  { intros Hst. rewrite bool_decide_false in Hn by done. by destruct (du_next_attempt_at u). }
  apply (health_step_trans P db1 db2 _ (init_health_step P s db1 HP0)).
  apply (health_step_trans P db2 db3).
  - destruct (bool_decide (du_state u = Acked)); [by eapply record_success_step|].
    injection H3' as <-. apply health_step_refl.
  - destruct (is_some (du_last_error_class u)); [by eapply (record_error_step io P)|].
    injection H4' as <-. apply health_step_refl.
Qed.

Lemma updated_row_wf e s u :
  update_ok u → (du_state u ≠ Pending → du_next_attempt_at u = None) → sink_id_ok s →
  delivery_wf (e, s) (updated_row u).
Proof.
  intros [Hatt Hcl] Hst Hs. constructor; simpl; [done| |done|].
  - exists (du_state u). done.
  - pose proof (decode_encode_class (du_last_error_class u) Hcl) as Hd.
    destruct (encode_error_class _) as [c st]. eauto.
Qed.

Lemma record_wf io e s u w :
  update_ok u → db_wf (w_db w) → db_wf (w_db (record_delivery_at io e s u w).1).
Proof.
  intros Hu Hwf. unfold record_delivery_at, transact.
  destruct (record_body io e s u (w_db w)) as [[db' []]|] eqn:Hr; [|done]. simpl.
  eapply (record_spec _ _ _ _ _ _ (λ c st, ∃ k, decode_error_class c st = Ok k)) in Hr
    as ([row Hrow] & Hst & m & -> & Hm); [|by exists None|].
  2:{ pose proof (decode_encode_class (du_last_error_class u) (proj2 Hu)) as Hd.
      destruct (encode_error_class _) as [c st]. eauto. }
  destruct Hwf as [We Wd Wo Wg Wh Wc]. constructor; simpl; try done; [|by apply Hm].
  intros key row'. destruct (decide (key = (e, s))) as [->|Hne].
  - rewrite lookup_insert_eq. intros [= <-]. destruct (Wd _ _ Hrow) as [He Hw]. split; [done|].
    apply updated_row_wf; [done|done|]. apply (dw_sink _ _ Hw).
  - rewrite lookup_insert_ne by done. apply Wd.
Qed.

Lemma release_wf io s now w :
  db_wf (w_db w) → db_wf (w_db (release_blocked_for_sink io s now w).1).
Proof.
  intros Hwf. unfold release_blocked_for_sink, transact.
  destruct (release_body io s now (w_db w)) as [[db' n]|] eqn:Hr; [|done]. simpl. revert Hr.
  unfold release_body. destruct (validate_sink_ids [s] false); [|done].
  destruct (ok_or _ _) as [s'|]; [|done].
  destruct (io_try_delivery _ _ _); [|done]. destruct (io_try_delivery _ _ _); [|done].
  destruct (io_try_delivery _ _ _); [|done]. intros [= <- _].
  destruct Hwf as [We Wd Wo Wg Wh Wc]. constructor; simpl; try done.
  intros key row. rewrite map_lookup_imap. destruct (db_deliveries (w_db w) !! key) as [r0|] eqn:H0';
    [|done]. simpl. intros [= <-]. destruct (Wd _ _ H0') as [He [Hs Hst Ha Hc]]. split; [done|].
  unfold release_row. destruct (is_blocked_for s' key r0); [|by constructor].
  constructor; simpl; try done. by exists Pending.
Qed.

End apply.

(** ** A concrete outbox

    Two records in one journal file, reconciled for one sink. *)

Module OutboxSample.
Export Sample.

#[export] Instance resolver : PathResolver := λ path, Ok path.

Definition journal : JournalFile :=
  {| jf_path := "log"; jf_identity := "g1"; jf_active := true;
     jf_bytes := JournalSample.line_a ++ JournalSample.line_b |}.
Definition w0 : World := {| w_db := new_db "ns"; w_fs := [journal] |}.
Definition w1 : World := (reconcile_jsonl no_faults 1000 "log" ["hec"] w0).1.

Lemma w1_reconciled :
  (reconcile_jsonl no_faults 1000 "log" ["hec"] w0).2 =
  Ok {| rr_ingested_events := 2; rr_ingested_bytes := 103 |}.
Proof. vm_compute. reflexivity. Qed.

Lemma w1_wf : db_wf (w_db w1).
Proof. apply reconcile_wf; [lia|]. apply new_db_wf. Qed.

Lemma w1_deliveries :
  db_deliveries (w_db w1) =
  {[ (id_a, "hec") := new_delivery 1000; (id_b, "hec") := new_delivery 1000 ]}.
Proof. apply (bool_decide_unpack _). vm_compute. exact I. Qed.

End OutboxSample.
