(* ===== verification/OutboxPrune.v ===== *)
(** * Pruning rotated generations

    src/sink/outbox.rs: which rotated journal files may be deleted, the claim and
    recovery protocol around the deletion, and the maintenance pass over them.

    A deletion happens inside a transaction that may still fail: the state is the
    tables and the files, and an error drops the table writes and keeps what happened
    to the files. *)

From S2P Require Import Prelude Ordered Rstr Json Delivery Journal Outbox.
From stdpp Require Import gmap.
From Stdlib Require Import Ascii.

Local Open Scope Z_scope.

Inductive PruneOutcome := OutcomePruned | OutcomeFinalizedAbsent | OutcomeProtected.

Record PruneReport := {
  pruned : nat;
  finalized_pending : nat;
  protected : nat;
  warnings : list string;
}.

Definition empty_report : PruneReport :=
  {| pruned := 0; finalized_pending := 0; protected := 0; warnings := [] |}.

(** [chars().take(n)] on UTF-8 bytes: [n] leading bytes with their continuation bytes. *)
Fixpoint take_chars (n : nat) (l : list ascii) : list ascii :=
  match l with
  | [] => []
  | a :: l' =>
      if byte_between 128 191 a then a :: take_chars n l'
      else match n with O => [] | S n' => a :: take_chars n' l' end
  end.

Section prune.
Context `{Digest, Diagnostics, JsonCodec, PathResolver} (io : Io).

Definition report_warning (context error : string) (r : PruneReport) : PruneReport :=
  let rendered := context +:+ ": " +:+ sanitize error in
  {| pruned := pruned r; finalized_pending := finalized_pending r; protected := protected r;
     warnings := warnings r ++ [of_bytes (take_chars 200 (bytes rendered))] |}.

(** ** Lifecycle updates *)

Definition set_lifecycle (lifecycle : string) (pruned_at : option Z) (row : GenerationCols)
    : GenerationCols :=
  {| gn_journal_path_hash := gn_journal_path_hash row; gn_observed_at := gn_observed_at row;
     gn_lifecycle := lifecycle; gn_pruned_at := pruned_at |}.

(** UPDATE journal_generations SET lifecycle, pruned_at WHERE generation_id AND
    lifecycle = [from]: the tables and whether a row changed. *)
Definition update_lifecycle (from to : string) (pruned_at : option Z) (generation_id : string)
    (db : Db) : Db * bool :=
  match db_generations db !! generation_id with
  | Some row =>
      if str_eqb (gn_lifecycle row) from then
        (set_generations (<[generation_id := set_lifecycle to pruned_at row]>
           (db_generations db)) db, true)
      else (db, false)
  | None => (db, false)
  end.

Definition io_raw (context subject : string) : result unit BoxedError :=
  match io context subject with Some e => Err (Raw e) | None => Ok tt end.
Definition io_boxed (context subject : string) : result unit BoxedError :=
  map_err Structured (io_try io context subject).

Definition mark_generation_prune_pending (generation_id : string) (db : Db)
    : result (Db * bool) BoxedError :=
  check? io_boxed "begin generation prune claim" generation_id in
  check? io_raw "update generation prune claim" generation_id in
  let r := update_lifecycle "present" "prune_pending" None generation_id db in
  check? io_boxed "commit generation prune claim" generation_id in
  Ok r.

Definition restore_present_transaction (generation_id : string) (db : Db)
    : result Db BoxedError :=
  check? io_raw "update restored generation" generation_id in
  let '(db, changed) := update_lifecycle "prune_pending" "present" None generation_id db in
  if changed then Ok db
  else Err (Structured (storage_message "generation is not pending prune during recovery")).

Definition finalize_prune_pending_transaction (now : Z) (generation_id : string) (db : Db)
    : result Db BoxedError :=
  check? io_raw "update finalized generation" generation_id in
  let '(db', changed) := update_lifecycle "prune_pending" "pruned" (Some now) generation_id db in
  if changed then
    if now <? 0 then Err (Raw (check_failed "pruned_at IS NULL OR pruned_at >= 0"))
    else Ok db'
  else Err (Structured (storage_message "generation is not pending prune during finalization")).

(** ** Eligibility *)

Definition is_newest_kept_generation (generations : list JsonlGeneration)
    (generation_id : string) (keep : nat) : bool :=
  existsb (λ g, str_eqb (jg_identity g) generation_id)
    (take keep (rev (filter (λ g, jg_active g = false) generations))).

Definition origins_of (db : Db) (generation_id : string) : list (string * string * Z) :=
  filter (λ '(_, g, _), g = generation_id) (elements (db_event_origins db)).

(** The row found first; there is no stated order. *)
Definition origin_event_at (db : Db) (generation_id : string) (offset : Z) : option string :=
  (λ '(e, _, _), e) <$> head (filter (λ '(_, _, o), o = offset) (origins_of db generation_id)).

(** The loop of [generation_origins_match]: [false] at the first record that differs. *)
Fixpoint origins_match_loop (db : Db) (generation_id : string)
    (payloads : list Event3DurablePayload) : result bool DeliveryError :=
  match payloads with
  | [] => Ok true
  | payload :: rest =>
      match p_generation_offset payload with
      | None => Ok false
      | Some offset =>
          let? off := i64_of_u64 offset "durable event origin offset is too large" in
          check? io_try io "read JSONL generation origin" generation_id in
          if bool_decide (origin_event_at db generation_id off ≠ Some (p_event_id payload))
          then Ok false
          else
            let? stored := event_is_already_stored io db payload in
            if stored then origins_match_loop db generation_id rest else Ok false
      end
  end.

Definition generation_origins_match (db : Db) (generation_id : string)
    (payloads : list Event3DurablePayload) : result bool DeliveryError :=
  check? io_try io "count JSONL generation origins" generation_id in
  if negb (length (origins_of db generation_id) =? length payloads)%nat then Ok false
  else origins_match_loop db generation_id payloads.

Definition identity_position (gid : string) (generations : list JsonlGeneration) : option nat :=
  fst <$> list_find (λ g, jg_identity g = gid) generations.

(** Reading a file between two checks of its identity. *)
Definition read_checked (fs : Fs) (g : JsonlGeneration)
    (open_ctx id_ctx id_msg read_ctx reid_ctx reid_msg : string)
    : result (list ascii) DeliveryError :=
  check? io_try io open_ctx (jg_path g) in
  match find_file fs (jg_path g) with
  | None => Err (storage_error open_ctx file_not_found)
  | Some f =>
      let? identity := stable_file_identity io fs id_ctx (jg_path g) in
      if negb (str_eqb identity (jg_identity g)) then Err (storage_message id_msg)
      else
        check? io_try io read_ctx (jg_path g) in
        let? identity_after := stable_file_identity io fs reid_ctx (jg_path g) in
        if negb (str_eqb identity_after (jg_identity g)) then Err (storage_message reid_msg)
        else Ok (jf_bytes f)
  end.

Definition generation_is_eligible_with_cursor_snapshot (db : Db) (cursor : IngestCursor)
    (generations : list JsonlGeneration) (candidate : JsonlGeneration)
    (candidate_index cursor_index : nat) (cursor_snapshot : JournalSnapshot)
    (progress : GenerationProgress) : result bool DeliveryError :=
  let? candidate_generation := ok_or (generations !! candidate_index)
    (storage_message "JSONL prune candidate index is invalid") in
  if negb (str_eqb (jg_identity candidate_generation) (jg_identity candidate)) then
    Err (storage_message "JSONL prune candidate changed during eligibility validation")
  else
    let? cursor_generation := ok_or (generations !! cursor_index)
      (storage_message "JSONL cursor generation index is invalid") in
    if negb (str_eqb (jg_identity cursor_generation) (snap_identity cursor_snapshot)) then
      Err (storage_message "JSONL cursor generation changed during eligibility validation")
    else
      check? verify_cursor_against_snapshot cursor cursor_snapshot in
      if (candidate_index =? cursor_index)%nat then Ok false
      else if negb (candidate_index <? cursor_index)%nat then Ok false
      else generation_origins_match db (jg_identity candidate) (gp_payloads progress).

Definition generation_is_eligible (fs : Fs) (db : Db) (log_path : string)
    (generations : list JsonlGeneration) (candidate : JsonlGeneration)
    : result bool DeliveryError :=
  if jg_active candidate then Ok false
  else
    let path_hash := journal_path_hash_of log_path in
    let? cursor := read_ingest_cursor io db in
    match cursor with
    | None => Ok false
    | Some cursor =>
        if negb (str_eqb (journal_path_hash cursor) path_hash) then
          Err (storage_message "durable ingest cursor belongs to a different JSONL journal")
        else
          let? candidate_index := ok_or (identity_position (jg_identity candidate) generations)
            (storage_message "JSONL prune candidate is not currently observed") in
          let? cursor_index := ok_or (identity_position (generation_id cursor) generations)
            (storage_message "durable ingest cursor generation is missing") in
          let? b := read_checked fs candidate
            "open JSONL prune candidate" "identify JSONL prune candidate"
            "JSONL prune candidate identity changed during inspection"
            "read JSONL prune candidate" "reidentify JSONL prune candidate"
            "JSONL prune candidate changed during inspection" in
          let snapshot := {| snap_identity := jg_identity candidate; snap_bytes := b |} in
          let? progress := parse_generation snapshot 0 in
          if negb (complete progress) then Ok false
          else if negb (cursor_index =? candidate_index)%nat then
            let? cursor_generation := ok_or (generations !! cursor_index)
              (storage_message "JSONL cursor generation index is invalid") in
            let? cb := read_checked fs cursor_generation
              "open JSONL cursor generation" "identify JSONL cursor generation"
              "JSONL cursor generation identity changed during inspection"
              "read JSONL cursor generation" "reidentify JSONL cursor generation"
              "JSONL cursor generation changed during inspection" in
            generation_is_eligible_with_cursor_snapshot db cursor generations candidate
              candidate_index cursor_index
              {| snap_identity := jg_identity cursor_generation; snap_bytes := cb |} progress
          else
            generation_is_eligible_with_cursor_snapshot db cursor generations candidate
              candidate_index cursor_index snapshot progress
    end.

(** ** Deleting a generation *)

(** [remove_verified_file] of src/file_lock.rs: the unlink may be done although the
    call fails afterwards. *)
Definition remove_verified_file (fs : Fs) (path expected_identity : string)
    : Fs * result unit string :=
  match io "reopen file for removal" path with
  | Some e => (fs, Err e)
  | None =>
      match find_file fs path with
      | None => (fs, Err file_not_found)
      | Some f =>
          if negb (str_eqb (jf_identity f) expected_identity) then
            (fs, Err "persistence target changed during verified deletion")
          else
            match io "remove file" path with
            | Some e => (fs, Err e)
            | None =>
                let fs' := filter (λ f, jf_path f ≠ path) fs in
                match io "sync parent of removed file" path with
                | Some e => (fs', Err e)
                | None => (fs', Ok tt)
                end
            end
      end
  end.

(** Commit after restoring the row of a generation that stays. *)
Definition protect (lock_ctx commit_ctx log_path generation_id : string) (db : Db)
    : result (Db * PruneOutcome) BoxedError :=
  let? db := restore_present_transaction generation_id db in
  check? io_boxed lock_ctx log_path in
  check? io_boxed commit_ctx generation_id in
  Ok (db, OutcomeProtected).

(** What [recover_prune_pending] decides before it touches a file: a committed result,
    or the generation to delete. *)
Definition recover_decide (now : Z) (log_path : string) (keep : nat) (generation_id : string)
    (fs : Fs) (db : Db) : result (Db * PruneOutcome + JsonlGeneration) BoxedError :=
  let path_hash := journal_path_hash_of log_path in
  check? io_boxed "begin JSONL prune recovery" generation_id in
  let? generations := map_err Structured (discover_jsonl_generations io fs
      "rediscover JSONL generations for pruning" log_path) in
  check? map_err Structured
    (validate_generation_metadata_readonly io fs db path_hash generations false) in
  match List.find (λ g, str_eqb (jg_identity g) generation_id) generations with
  | None =>
      check? io_boxed "verify JSONL lock before finalizing prune" log_path in
      let? db := finalize_prune_pending_transaction now generation_id db in
      check? io_boxed "commit absent JSONL prune recovery" generation_id in
      Ok (inl (db, OutcomeFinalizedAbsent))
  | Some generation =>
      if jg_active generation || is_newest_kept_generation generations generation_id keep then
        let? r := protect "verify JSONL lock while restoring generation"
          "commit restored JSONL generation" log_path generation_id db in
        Ok (inl r)
      else
        let? eligible := map_err Structured
          (generation_is_eligible fs db log_path generations generation) in
        if eligible then Ok (inr generation)
        else
          let? r := protect "verify JSONL lock while protecting generation"
            "commit protected JSONL generation" log_path generation_id db in
          Ok (inl r)
  end.

(** After the deletion: the parent is synchronized and the row finalized. *)
Definition recover_commit (now : Z) (log_path generation_id : string) (db : Db)
    : result (Db * PruneOutcome) BoxedError :=
  check? io_boxed "sync JSONL parent after pruning" log_path in
  check? io_boxed "verify JSONL lock after deleting generation" log_path in
  let? db := finalize_prune_pending_transaction now generation_id db in
  check? io_boxed "commit JSONL generation prune" generation_id in
  Ok (db, OutcomePruned).

(** Keeping the files and, on success, the tables. *)
Definition conclude {A} (w : World) (fs : Fs) (r : result (Db * A) BoxedError)
    : World * result A BoxedError :=
  match r with
  | Ok (db, a) => ({| w_db := db; w_fs := fs |}, Ok a)
  | Err e => ({| w_db := w_db w; w_fs := fs |}, Err e)
  end.

Definition recover_prune_pending (now : Z) (log_path : string) (keep : nat)
    (generation_id : string) (w : World) : World * result PruneOutcome BoxedError :=
  match recover_decide now log_path keep generation_id (w_fs w) (w_db w) with
  | Err e => (w, Err e)
  | Ok (inl r) => conclude w (w_fs w) (Ok r)
  | Ok (inr generation) =>
      match io_boxed "verify JSONL lock before deleting generation" log_path with
      | Err e => (w, Err e)
      | Ok _ =>
          let '(fs, removed) := remove_verified_file (w_fs w) (jg_path generation) generation_id in
          match removed with
          | Err e =>
              conclude w fs (A := PruneOutcome)
                (Err (Structured (storage_error "delete verified JSONL generation" e)))
          | Ok _ => conclude w fs (recover_commit now log_path generation_id (w_db w))
          end
      end
  end.

(** ** The maintenance pass *)

Definition count_pruned (r : PruneReport) : PruneReport :=
  {| pruned := S (pruned r); finalized_pending := finalized_pending r;
     protected := protected r; warnings := warnings r |}.
Definition count_finalized (r : PruneReport) : PruneReport :=
  {| pruned := pruned r; finalized_pending := S (finalized_pending r);
     protected := protected r; warnings := warnings r |}.
Definition count_protected (r : PruneReport) : PruneReport :=
  {| pruned := pruned r; finalized_pending := finalized_pending r;
     protected := S (protected r); warnings := warnings r |}.

(** The first loop: a generation found pending. *)
Definition recover_step (now : Z) (log_path : string) (keep : nat) (st : World * PruneReport)
    (record : GenerationMetadata) : World * PruneReport :=
  let '(w, report) := st in
  let '(w, r) := recover_prune_pending now log_path keep (gm_generation_id record) w in
  (w, match r with
      | Ok OutcomePruned => count_finalized (count_pruned report)
      | Ok OutcomeFinalizedAbsent => count_finalized report
      | Ok OutcomeProtected => count_finalized (count_protected report)
      | Err e => report_warning "recover pending JSONL prune" (boxed_display e) report
      end).

(** The second loop: a rotated generation outside the keep window. *)
Definition candidate_step (now : Z) (log_path : string) (keep : nat)
    (generations : list JsonlGeneration) (metadata : list GenerationMetadata)
    (st : World * PruneReport) (generation : JsonlGeneration) : World * PruneReport :=
  let '(w, report) := st in
  match List.find (λ r, str_eqb (gm_generation_id r) (jg_identity generation)
                        && bool_decide (gm_lifecycle r = Present)) metadata with
  | None => (w, report)
  | Some record =>
      match generation_is_eligible (w_fs w) (w_db w) log_path generations generation with
      | Ok false => (w, count_protected report)
      | Err e => (w, report_warning "validate JSONL generation eligibility"
                       (delivery_error_display e) report)
      | Ok true =>
          match mark_generation_prune_pending (gm_generation_id record) (w_db w) with
          | Err e => (w, report_warning "mark JSONL generation prune pending"
                           (boxed_display e) report)
          | Ok (db, false) =>
              ({| w_db := db; w_fs := w_fs w |},
               report_warning "claim JSONL generation for pruning"
                 "generation lifecycle changed before pruning" report)
          | Ok (db, true) =>
              let '(w, r) := recover_prune_pending now log_path keep (gm_generation_id record)
                               {| w_db := db; w_fs := w_fs w |} in
              (w, match r with
                  | Ok OutcomePruned => count_pruned report
                  | Ok OutcomeFinalizedAbsent => count_finalized report
                  | Ok OutcomeProtected => count_protected report
                  | Err e => report_warning "complete JSONL generation prune"
                               (boxed_display e) report
                  end)
          end
      end
  end.

Definition prune_candidates (generations : list JsonlGeneration) (keep : nat)
    : list JsonlGeneration :=
  filter (λ g, jg_active g = false ∧
               is_newest_kept_generation generations (jg_identity g) keep = false) generations.

Definition prune_eligible_rotations (now : Z) (log_path : string) (keep : nat) (w : World)
    : World * PruneReport :=
  match io "acquire JSONL rotation lock" log_path with
  | Some e => (w, report_warning "acquire JSONL rotation lock" e empty_report)
  | None =>
      let path_hash := journal_path_hash_of log_path in
      match io "discover JSONL generations for pruning" log_path with
      | Some e => (w, report_warning "discover JSONL generations for pruning" e empty_report)
      | None =>
          let generations := map (λ f, {| jg_path := jf_path f; jg_identity := jf_identity f;
                                          jg_active := jf_active f |}) (w_fs w) in
          if negb (existsb jg_active generations) then
            (w, report_warning "validate active JSONL generation for pruning"
                  "active JSONL generation is missing" empty_report)
          else
            match validate_generation_metadata_readonly io (w_fs w) (w_db w) path_hash
                    generations false with
            | Err e => (w, report_warning "validate JSONL generation metadata for pruning"
                             (delivery_error_display e) empty_report)
            | Ok _ =>
                match read_generation_metadata io (w_db w) with
                | Err e => (w, report_warning "read JSONL generation metadata for pruning"
                                 (delivery_error_display e) empty_report)
                | Ok metadata =>
                    let st := foldl (recover_step now log_path keep) (w, empty_report)
                      (filter (λ r, gm_lifecycle r = PrunePending) metadata) in
                    foldl (candidate_step now log_path keep generations metadata) st
                      (prune_candidates generations keep)
                end
            end
      end
  end.

End prune.
