(* ===== verification/OutboxPruneSafe.v ===== *)
(** * Pruning is safe

    Whatever fails along the way, a pruning pass deletes only rotated files outside
    the keep window whose every record is stored in the tables, changes no event,
    delivery, origin or cursor, and records a generation as pruned only when its file
    is gone. *)

From S2P Require Import Prelude Ordered Rstr Json Delivery Journal Outbox OutboxInv OutboxPrune.
From stdpp Require Import gmap.
From Stdlib Require Import Ascii.

Local Open Scope Z_scope.

Section safe.
Context `{Digest, Diagnostics, JsonCodec, PathResolver}.

(** The newest [keep] rotated files. *)
Definition kept (keep : nat) (fs : Fs) : list JournalFile :=
  take keep (rev (filter (λ f, jf_active f = false) fs)).

(** Every record of the file is an event of the tables, with the same bytes, ingested
    from this place of this file. *)
Definition fully_stored (db : Db) (f : JournalFile) : Prop :=
  ∃ pr, parse_generation (snapshot_of f) 0 = Ok pr ∧ complete pr = true ∧
    ∀ p, p ∈ gp_payloads pr →
      (∃ row, db_events db !! p_event_id p = Some row ∧ ev_payload row = p_bytes p) ∧
      ∃ o, p_generation_offset p = Some o ∧
           (p_event_id p, jf_identity f, o) ∈ db_event_origins db.

Record removable (keep : nat) (fs : Fs) (db : Db) (f : JournalFile) : Prop := {
  rm_rotated : jf_active f = false;
  rm_not_kept : f ∉ kept keep fs;
  rm_stored : fully_stored db f;
}.

(** Only the generation rows differ. *)
Definition same_but_generations (db db' : Db) : Prop :=
  db' = set_generations (db_generations db') db.

Lemma same_gens_refl db : same_but_generations db db.
Proof. by destruct db. Qed.

Lemma same_gens_set db m : same_but_generations db (set_generations m db).
Proof. done. Qed.

Lemma same_gens_trans db1 db2 db3 :
  same_but_generations db1 db2 → same_but_generations db2 db3 → same_but_generations db1 db3.
Proof. unfold same_but_generations. intros -> ->. done. Qed.

Lemma update_lifecycle_same from to at_ gid db :
  same_but_generations db (update_lifecycle from to at_ gid db).1.
Proof.
  unfold update_lifecycle. destruct (db_generations db !! gid); [|apply same_gens_refl].
  destruct (str_eqb _ _); [done|apply same_gens_refl].
Qed.

Lemma mark_same io gid db db' b :
  mark_generation_prune_pending io gid db = Ok (db', b) → same_but_generations db db'.
Proof.
  unfold mark_generation_prune_pending. destruct (io_boxed _ _ _); [|done].
  destruct (io_raw _ _ _); [|done]. destruct (io_boxed _ _ _); [|done].
  pose proof (update_lifecycle_same "present" "prune_pending" None gid db) as Hs.
  intros [= Heq]. by rewrite Heq in Hs.
Qed.

Lemma restore_Ok io gid db db' :
  restore_present_transaction io gid db = Ok db' →
  update_lifecycle "prune_pending" "present" None gid db = (db', true).
Proof.
  unfold restore_present_transaction. destruct (io_raw _ _ _); [|done].
  destruct (update_lifecycle _ _ _ _ _) as [d []]; naive_solver.
Qed.

Lemma finalize_Ok io now gid db db' :
  finalize_prune_pending_transaction io now gid db = Ok db' →
  update_lifecycle "prune_pending" "pruned" (Some now) gid db = (db', true) ∧ 0 ≤ now.
Proof.
  unfold finalize_prune_pending_transaction. destruct (io_raw _ _ _); [|done].
  destruct (update_lifecycle _ _ _ _ _) as [d []]; [|done].
  destruct (Z.ltb_spec now 0); [done|]. naive_solver.
Qed.

Lemma protect_Ok io l c log gid db db' out :
  protect io l c log gid db = Ok (db', out) →
  update_lifecycle "prune_pending" "present" None gid db = (db', true) ∧ out = OutcomeProtected.
Proof.
  unfold protect. destruct (restore_present_transaction _ _ _) as [d|] eqn:Hr; [|done].
  destruct (io_boxed _ _ _); [|done]. destruct (io_boxed _ _ _); [|done]. intros [= <- <-].
  split; [|done]. by eapply restore_Ok.
Qed.

(** ** Eligibility *)

Lemma origin_event_elem db gid o e :
  origin_event_at db gid o = Some e → (e, gid, o) ∈ db_event_origins db.
Proof.
  unfold origin_event_at, origins_of. rewrite fmap_Some.
  intros ([[e' g] o'] & Hh & ->).
  assert ((e', g, o') ∈ filter (λ '(_, _, o0), o0 = o)
    (filter (λ '(_, g0, _), g0 = gid) (elements (db_event_origins db)))) as Hin.
  { destruct (filter _ _); [done|]. injection Hh as ->. set_solver. }
  apply list_elem_of_filter in Hin as [-> [-> Hin]%list_elem_of_filter].
  by apply elem_of_elements.
Qed.

Lemma origins_match_sound io db gid ps :
  origins_match_loop io db gid ps = Ok true →
  ∀ p, p ∈ ps →
    (∃ row, db_events db !! p_event_id p = Some row ∧ ev_payload row = p_bytes p) ∧
    ∃ o, p_generation_offset p = Some o ∧ (p_event_id p, gid, o) ∈ db_event_origins db.
Proof.
  induction ps as [|q ps IH]; simpl; [set_solver|].
  destruct (p_generation_offset q) as [o|] eqn:Ho; [|done].
  destruct (i64_of_u64 _ _) as [off|] eqn:Hi; [|done]. apply i64_of_u64_Ok in Hi as [-> _].
  destruct (io_try _ _ _); [|done]. case_bool_decide as He; [done|].
  destruct (event_is_already_stored io db q) as [[]|] eqn:Hst; [|done..].
  intros Hrest p [->|Hp]%elem_of_cons; [|by apply IH]. split.
  - revert Hst. unfold event_is_already_stored. destruct (io_try _ _ _); [|done].
    destruct (db_events db !! p_event_id q) as [row|]; [|done].
    destruct (hash32 _ _); [|done]. destruct (_ || _); [done|]. case_bool_decide; [|done].
    eauto.
  - exists o. split; [done|]. by apply origin_event_elem.
Qed.

Lemma eligible_Ok io fs db log gs g f :
  find_file fs (jg_path g) = Some f → jf_identity f = jg_identity g →
  generation_is_eligible io fs db log gs g = Ok true →
  jg_active g = false ∧ fully_stored db f.
Proof.
  intros Hfind Hid. unfold generation_is_eligible. destruct (jg_active g); [done|].
  destruct (read_ingest_cursor io db) as [[c|]|]; [|done..]. destruct (negb _); [done|].
  destruct (ok_or _ _) as [ci|]; [|done]. destruct (ok_or _ _) as [cu|]; [|done].
  destruct (read_checked io fs g _ _ _ _ _ _) as [b|] eqn:Hb; [|done].
  assert (b = jf_bytes f) as ->.
  { revert Hb. unfold read_checked. rewrite Hfind. destruct (io_try _ _ _); [|done].
    destruct (stable_file_identity _ _ _ _); [|done]. destruct (negb _); [done|].
    destruct (io_try _ _ _); [|done]. destruct (stable_file_identity _ _ _ _); [|done].
    destruct (negb _); [done|]. by intros [= <-]. }
  rewrite <- Hid. destruct (parse_generation _ 0) as [pr|] eqn:Hp; [|done].
  destruct (complete pr) eqn:Hc; [|done]. cbn [negb].
  assert (∀ i j s, generation_is_eligible_with_cursor_snapshot io db c gs g i j s pr = Ok true →
    fully_stored db f) as Hgoal.
  { intros i j s. unfold generation_is_eligible_with_cursor_snapshot.
    destruct (ok_or _ _); [|done]. destruct (negb _); [done|].
    destruct (ok_or _ _); [|done]. destruct (negb _); [done|].
    destruct (verify_cursor_against_snapshot _ _); [|done].
    destruct (i =? j)%nat; [done|]. destruct (negb _); [done|].
    unfold generation_origins_match. destruct (io_try _ _ _); [|done].
    destruct (negb _); [done|]. intros Hm. exists pr. split_and!; [done|done|].
    intros p Hp'. rewrite Hid. eapply origins_match_sound; done. }
  destruct (negb (cu =? ci)%nat).
  - destruct (ok_or _ _) as [cg|]; [|done]. destruct (read_checked _ _ cg _ _ _ _ _ _); [|done].
    intros Hm. split; [done|]. by eapply Hgoal.
  - intros Hm. split; [done|]. by eapply Hgoal.
Qed.

(** ** The keep window *)

Lemma newest_kept_files fs gid keep f :
  f ∈ kept keep fs → jf_identity f = gid →
  is_newest_kept_generation (map generation_of fs) gid keep = true.
Proof.
  unfold kept, is_newest_kept_generation. intros Hf <-. apply existsb_exists.
  exists (generation_of f). split; [|by apply str_eqb_spec].
  apply list_elem_of_In.
  assert (rev (filter (λ g, jg_active g = false) (map generation_of fs)) =
    map generation_of (rev (filter (λ f, jf_active f = false) fs))) as ->.
  { rewrite map_rev. f_equal. clear. induction fs as [|f fs IH]; [done|].
    cbn [map]. destruct (decide (jf_active f = false)).
    - rewrite !filter_cons_True by done. cbn [map]. by rewrite IH.
    - rewrite !filter_cons_False by done. exact IH. }
  rewrite firstn_map. apply list_elem_of_fmap. eauto.
Qed.

Lemma take_filter_all {A} (P : A → Prop) `{∀ x, Decision (P x)} k (l : list A) :
  Forall P (take k l) → take k (filter P l) = take k l.
Proof.
  revert k; induction l as [|a l IH]; intros [|k]; try done. simpl. intros Hf.
  inversion Hf; subst. rewrite filter_cons_True by done. simpl. by rewrite IH.
Qed.

Lemma filter_comm {A} (P Q : A → Prop) `{∀ x, Decision (P x), ∀ x, Decision (Q x)} (l : list A) :
  filter P (filter Q l) = filter Q (filter P l).
Proof.
  induction l as [|a l IH]; [done|]. rewrite !filter_cons.
  destruct (decide (P a)), (decide (Q a)); rewrite ?filter_cons_True, ?filter_cons_False by done;
    by rewrite ?IH.
Qed.

Lemma filter_rev {A} (P : A → Prop) `{∀ x, Decision (P x)} (l : list A) :
  filter P (rev l) = rev (filter P l).
Proof.
  induction l as [|a l IH]; [done|]. simpl. rewrite filter_app, IH, !filter_cons, filter_nil.
  case_decide; simpl; by rewrite ?app_nil_r.
Qed.

(** Removing a file outside the window does not move the window. *)
Lemma kept_remove keep fs f :
  (∀ g, g ∈ fs → jf_path g = jf_path f → g = f) → f ∉ kept keep fs →
  kept keep (filter (λ g, jf_path g ≠ jf_path f) fs) = kept keep fs.
Proof.
  unfold kept. intros Huniq Hnk. rewrite filter_comm, <- filter_rev.
  apply take_filter_all. apply Forall_forall. intros g Hg Hpath.
  assert (g ∈ fs) as Hin.
  { apply elem_of_take in Hg as (i & Hi & _). apply list_elem_of_lookup_2 in Hi.
    apply list_elem_of_In, in_rev, list_elem_of_In, list_elem_of_filter in Hi. by destruct Hi. }
  apply Huniq in Hpath as ->; done.
Qed.

(** ** Steps of a pass *)

Definition decodes (db : Db) : Prop :=
  ∀ id row, db_generations db !! id = Some row → ∃ m, decode_generation id row = Ok m.

(** What every step of a pruning pass guarantees. *)
Record prune_step (keep : nat) (w w' : World) : Prop := {
  ps_db : same_but_generations (w_db w) (w_db w');
  ps_fs : w_fs w' `sublist_of` w_fs w;
  ps_kept : kept keep (w_fs w') = kept keep (w_fs w);
  ps_removed : ∀ f, f ∈ w_fs w → f ∉ w_fs w' → removable keep (w_fs w) (w_db w) f;
  ps_stays : ∀ id row, db_generations (w_db w) !! id = Some row →
    gn_lifecycle row = "pruned" → db_generations (w_db w') !! id = Some row;
  ps_newly : ∀ id row, db_generations (w_db w') !! id = Some row →
    gn_lifecycle row = "pruned" →
    db_generations (w_db w) !! id = Some row ∨ id ∉ map jf_identity (w_fs w');
  ps_decodes : decodes (w_db w) → decodes (w_db w');
}.

Lemma fully_stored_same db db' f :
  same_but_generations db db' → fully_stored db' f ↔ fully_stored db f.
Proof. intros Hs. unfold fully_stored. rewrite Hs. done. Qed.

Lemma prune_step_refl keep w : prune_step keep w w.
Proof. constructor; try done; [apply same_gens_refl | auto]. Qed.

Lemma prune_step_trans keep w1 w2 w3 :
  prune_step keep w1 w2 → prune_step keep w2 w3 → prune_step keep w1 w3.
Proof.
  intros [D1 F1 K1 R1 S1 N1 C1] [D2 F2 K2 R2 S2 N2 C2]. constructor.
  - by eapply same_gens_trans.
  - by etransitivity.
  - congruence.
  - intros f Hf Hf3. destruct (list_elem_of_dec f (w_fs w2)) as [Hf2|Hf2]; [|auto].
    destruct (R2 f Hf2 Hf3) as [Ha Hk Hs]. constructor; [done|congruence|].
    by apply (fully_stored_same _ _ _ D1).
  - auto.
  - intros id row Hr Hl. destruct (N2 id row Hr Hl) as [Hr2|?]; [|auto].
    destruct (N1 id row Hr2 Hl) as [?|Hn]; [auto|]. right. intros Hin. apply Hn.
    apply list_elem_of_fmap in Hin as (f & -> & Hf). apply list_elem_of_fmap.
    exists f. split; [done|]. by eapply sublist_subseteq.
  - auto.
Qed.

Lemma prune_step_foldl {A} keep (step : World * PruneReport → A → World * PruneReport) l st :
  (∀ st a, prune_step keep st.1 (step st a).1) → prune_step keep st.1 (foldl step st l).1.
Proof.
  intros Hstep. revert st; induction l as [|a l IH]; intros st; simpl; [apply prune_step_refl|].
  eapply prune_step_trans; [apply Hstep|apply IH].
Qed.

Lemma decode_set_lifecycle id row m l at_ :
  decode_generation id row = Ok m →
  match l, at_ with
  | Pruned, Some t => 0 ≤ t
  | (Present | PrunePending), None => True
  | _, _ => False
  end →
  ∃ m', decode_generation id (set_lifecycle (lifecycle_text l) at_ row) = Ok m'.
Proof.
  unfold decode_generation. destruct (bounded_cursor_text _ _); [|done]. cbn.
  destruct (validate_journal_path_hash _); [|done]. destruct (_ <? 0); [done|].
  intros _ Hat. destruct l, at_ as [t|]; try done; cbn; [eauto|eauto|].
  rewrite (proj2 (Z.ltb_ge t 0)) by lia. eauto.
Qed.

(** An update of a row that is not pruned; to prune it, its file must be gone. *)
Lemma update_lifecycle_step keep w fs' from l at_ gid db' changed :
  update_lifecycle from (lifecycle_text l) at_ gid (w_db w) = (db', changed) →
  from ≠ "pruned" →
  match l, at_ with
  | Pruned, Some t => 0 ≤ t ∧ gid ∉ map jf_identity fs'
  | (Present | PrunePending), None => True
  | _, _ => False
  end →
  prune_step keep w {| w_db := w_db w; w_fs := fs' |} →
  prune_step keep w {| w_db := db'; w_fs := fs' |}.
Proof.
  intros Hu Hfrom Hat [D F K R S N C]. unfold update_lifecycle in Hu.
  destruct (db_generations (w_db w) !! gid) as [row0|] eqn:H0'; [|by simplify_eq].
  destruct (str_eqb (gn_lifecycle row0) from) eqn:Hl; [|by simplify_eq].
  apply str_eqb_spec in Hl. simplify_eq. constructor; simpl in *; try done.
  - intros id row Hr Hp. destruct (decide (id = gid)) as [->|]; [congruence|].
    by rewrite lookup_insert_ne by done.
  - intros id row. destruct (decide (id = gid)) as [->|Hne].
    + rewrite lookup_insert_eq. intros [= <-]. simpl.
      destruct l; try done. destruct at_; [|done]. intros _. right. by destruct Hat.
    + rewrite lookup_insert_ne by done. auto.
  - intros Hd id row. simpl. destruct (decide (id = gid)) as [->|Hne].
    + rewrite lookup_insert_eq. intros [= <-]. destruct (Hd _ _ H0') as [m Hm].
      eapply decode_set_lifecycle; [done|]. destruct l, at_; naive_solver.
    + rewrite lookup_insert_ne by done. apply Hd.
Qed.

Lemma mark_step io keep gid w db' b :
  mark_generation_prune_pending io gid (w_db w) = Ok (db', b) →
  prune_step keep w {| w_db := db'; w_fs := w_fs w |}.
Proof.
  unfold mark_generation_prune_pending. destruct (io_boxed _ _ _); [|done].
  destruct (io_raw _ _ _); [|done]. destruct (io_boxed _ _ _); [|done]. intros [= Hu].
  apply (update_lifecycle_step keep w (w_fs w) "present" PrunePending None gid db' b Hu);
    [done|done|]. destruct w. apply prune_step_refl.
Qed.

Lemma readonly_observed io fs db ph gs b :
  validate_generation_metadata_readonly io fs db ph gs b = Ok tt →
  ∃ ids, validate_observed_generations io fs gs = Ok ids.
Proof.
  unfold validate_generation_metadata_readonly. destruct (validate_journal_path_hash ph); [|done].
  destruct (validate_observed_generations io fs gs); [eauto|done].
Qed.

Lemma find_generation fs gid g :
  List.find (λ g, str_eqb (jg_identity g) gid) (map generation_of fs) = Some g →
  ∃ f, f ∈ fs ∧ g = generation_of f ∧ jf_identity f = gid.
Proof.
  intros Hf. apply List.find_some in Hf as [Hin Hid]. apply str_eqb_spec in Hid as <-.
  apply list_elem_of_In, list_elem_of_fmap in Hin as (f & -> & Hf). eauto.
Qed.

Lemma find_generation_none fs gid :
  List.find (λ g, str_eqb (jg_identity g) gid) (map generation_of fs) = None →
  gid ∉ map jf_identity fs.
Proof.
  intros Hn (f & -> & Hf)%list_elem_of_fmap.
  eapply List.find_none in Hn; [|apply list_elem_of_In, list_elem_of_fmap; by exists f].
  simpl in Hn. by rewrite (proj2 (str_eqb_spec _ _)) in Hn.
Qed.

(** What was decided before a file is touched. *)
Lemma recover_decide_step io now log keep gid w r :
  recover_decide io now log keep gid (w_fs w) (w_db w) = Ok r →
  match r with
  | inl (db', _) => prune_step keep w {| w_db := db'; w_fs := w_fs w |}
  | inr g => ∃ f, f ∈ w_fs w ∧ g = generation_of f ∧ jf_identity f = gid ∧
      NoDup (map jf_identity (w_fs w)) ∧
      (∀ f', f' ∈ w_fs w → find_file (w_fs w) (jf_path f') = Some f') ∧
      removable keep (w_fs w) (w_db w) f
  end.
Proof.
  unfold recover_decide. destruct (io_boxed _ _ _); [|done].
  destruct (discover_jsonl_generations _ _ _ _) as [gs|] eqn:Hd; [|done].
  apply discover_Ok in Hd as ->. cbn [map_err].
  destruct (validate_generation_metadata_readonly _ _ _ _ _ _) as [[]|] eqn:Hv; [|done].
  cbn [map_err]. destruct (readonly_observed _ _ _ _ _ _ Hv) as [ids Hobs].
  destruct (observed_files _ _ _ Hobs) as (Hnd & _ & Hfile).
  assert (prune_step keep w {| w_db := w_db w; w_fs := w_fs w |}) as Hrefl
    by (destruct w; apply prune_step_refl).
  assert (∀ l c, match protect io l c log gid (w_db w) with
    | Ok (db', _) => prune_step keep w {| w_db := db'; w_fs := w_fs w |} | Err _ => True end) as Hprot.
  { intros l c. destruct (protect _ _ _ _ _ _) as [[db' out]|] eqn:Hp; [|done].
    apply protect_Ok in Hp as [Hu _].
    by apply (update_lifecycle_step keep w _ "prune_pending" Present None gid db' true Hu). }
  destruct (List.find _ _) as [g|] eqn:Hf.
  - apply find_generation in Hf as (f & Hin & -> & Hid).
    destruct (jg_active _ || _) eqn:Hact.
    { pose proof (Hprot "verify JSONL lock while restoring generation"
        "commit restored JSONL generation") as Hp.
      destruct (protect _ _ _ _ _ _) as [[db' out]|]; [|done]. by intros [= <-]. }
    apply orb_false_iff in Hact as [Hact Hnk].
    destruct (generation_is_eligible _ _ _ _ _ _) as [[]|] eqn:He; cbn [map_err]; [| |done].
    + intros [= <-]. exists f. split_and!; try done; [intros f' Hf'; by apply Hfile|].
      eapply eligible_Ok in He as [_ Hst]; [|apply Hfile, Hin|done].
      constructor; [done| |done]. intros Hk.
      by rewrite (newest_kept_files _ _ _ _ Hk Hid) in Hnk.
    + pose proof (Hprot "verify JSONL lock while protecting generation"
        "commit protected JSONL generation") as Hp.
      destruct (protect _ _ _ _ _ _) as [[db' out]|]; [|done]. by intros [= <-].
  - destruct (io_boxed _ _ _); [|done].
    destruct (finalize_prune_pending_transaction _ _ _ _) as [db'|] eqn:Hfin; [|done].
    destruct (io_boxed _ _ _); [|done]. intros [= <-]. apply finalize_Ok in Hfin as [Hu Hnow].
    apply (update_lifecycle_step keep w _ "prune_pending" Pruned (Some now) gid db' true Hu);
      [done| |done]. split; [done|]. by apply find_generation_none.
Qed.

(** Deleting the file of a removable generation. *)
Lemma remove_step io keep w f fs' r :
  f ∈ w_fs w → NoDup (map jf_identity (w_fs w)) →
  (∀ f', f' ∈ w_fs w → find_file (w_fs w) (jf_path f') = Some f') →
  removable keep (w_fs w) (w_db w) f →
  remove_verified_file io (w_fs w) (jf_path f) (jf_identity f) = (fs', r) →
  prune_step keep w {| w_db := w_db w; w_fs := fs' |} ∧
  (r = Ok tt → jf_identity f ∉ map jf_identity fs').
Proof.
  intros Hin Hnd Hfile Hrm. unfold remove_verified_file.
  assert (prune_step keep w {| w_db := w_db w; w_fs := w_fs w |}) as Hrefl
    by (destruct w; apply prune_step_refl).
  destruct (io _ _); [intros [= <- <-]; by split|]. rewrite (Hfile f Hin).
  destruct (negb _); [intros [= <- <-]; by split|].
  destruct (io _ _); [intros [= <- <-]; by split|].
  assert (∀ g, g ∈ w_fs w → jf_path g = jf_path f → g = f) as Huniq.
  { intros g Hg Hp. pose proof (Hfile g Hg) as Hg'. rewrite Hp, (Hfile f Hin) in Hg'. congruence. }
  set (fs1 := filter (λ g, jf_path g ≠ jf_path f) (w_fs w)).
  intros Heq. assert (fs' = fs1) as -> by (destruct (io _ _); by simplify_eq). split.
  - constructor; simpl; try done; [apply same_gens_refl|apply sublist_filter| | |auto].
    + apply kept_remove; [done|]. apply rm_not_kept with (w_db w), Hrm.
    + intros g Hg Hg'. assert (g = f) as ->; [|done]. apply Huniq; [done|].
      destruct (decide (jf_path g = jf_path f)) as [|Hne]; [done|].
      exfalso. apply Hg'. by apply list_elem_of_filter.
  - intros _ (g & Hid & [Hne Hg]%list_elem_of_filter)%list_elem_of_fmap. apply Hne. f_equal.
    apply list_elem_of_lookup in Hg as [i Hi], Hin as [j Hj].
    assert (i = j) as ->; [|congruence].
    eapply (NoDup_lookup (map jf_identity (w_fs w))); [done| |];
      rewrite list_lookup_fmap, ?Hi, ?Hj; simpl; [done|congruence].
Qed.

Lemma recover_prune_step io now log keep gid w :
  prune_step keep w (recover_prune_pending io now log keep gid w).1.
Proof.
  unfold recover_prune_pending.
  destruct (recover_decide io now log keep gid (w_fs w) (w_db w)) as [r|] eqn:Hd;
    [|apply prune_step_refl].
  apply recover_decide_step in Hd. destruct r as [[db' out]|g]; [done|].
  destruct Hd as (f & Hin & -> & Hid & Hnd & Hfile & Hrm).
  destruct (io_boxed _ _ _); [|apply prune_step_refl].
  destruct (remove_verified_file _ _ _ _) as [fs' removed] eqn:Hr. subst gid.
  apply (remove_step io keep w f) in Hr as [Hstep Hgone]; [|done..].
  destruct removed as [[]|]; [|done].
  destruct (recover_commit io now log (jf_identity f) (w_db w)) as [[db' out]|] eqn:Hc; [|done].
  simpl. revert Hc. unfold recover_commit. destruct (io_boxed _ _ _); [|done].
  destruct (io_boxed _ _ _); [|done].
  destruct (finalize_prune_pending_transaction _ _ _ _) as [d|] eqn:Hfin; [|done].
  destruct (io_boxed _ _ _); [|done]. intros [= <- <-].
  apply finalize_Ok in Hfin as [Hu Hnow].
  apply (update_lifecycle_step keep w _ "prune_pending" Pruned (Some now) _ d true Hu);
    [done| |done]. split; [done|]. auto.
Qed.

Lemma prune_pass_step io now log keep w :
  prune_step keep w (prune_eligible_rotations io now log keep w).1.
Proof.
  unfold prune_eligible_rotations.
  destruct (io _ _); [apply prune_step_refl|]. destruct (io _ _); [apply prune_step_refl|].
  destruct (negb _); [apply prune_step_refl|].
  destruct (validate_generation_metadata_readonly _ _ _ _ _ _); [|apply prune_step_refl].
  destruct (read_generation_metadata io (w_db w)) as [ms|]; [|apply prune_step_refl].
  eapply prune_step_trans; [|apply prune_step_foldl].
  - apply (prune_step_foldl keep (recover_step io now log keep) _ (w, empty_report)).
    intros [w1 rep] m. unfold recover_step.
    pose proof (recover_prune_step io now log keep (gm_generation_id m) w1) as Hs.
    destruct (recover_prune_pending _ _ _ _ _ _) as [w2 r]. done.
  - intros [w1 rep] g. unfold candidate_step. simpl.
    destruct (List.find _ ms) as [record|]; [|apply prune_step_refl].
    destruct (generation_is_eligible _ _ _ _ _ _) as [[]|]; [|apply prune_step_refl..].
    destruct (mark_generation_prune_pending _ _ _) as [[db' []]|] eqn:Hm;
      [|by eapply mark_step|apply prune_step_refl].
    apply (mark_step io keep _ w1) in Hm.
    pose proof (recover_prune_step io now log keep (gm_generation_id record)
      {| w_db := db'; w_fs := w_fs w1 |}) as Hs.
    destruct (recover_prune_pending _ _ _ _ _ _) as [w2 r]. simpl in *.
    by eapply prune_step_trans.
Qed.

(** C4: pruning loses nothing.  Whatever fails during a pruning pass (the lock, a
    read, a commit, the deletion itself or what follows it), every file that is gone
    afterwards was rotated, was outside the newest [keep] rotated files, and held only
    complete records that are all stored as events with exactly their bytes and their
    origin in that file; the other files are the same in the same order, and no event,
    delivery, origin, health or cursor row changed. *)
Theorem prune_loses_nothing io now log keep w :
  let w' := (prune_eligible_rotations io now log keep w).1 in
  (∀ f, f ∈ w_fs w → f ∉ w_fs w' →
     jf_active f = false ∧ f ∉ kept keep (w_fs w) ∧ fully_stored (w_db w') f) ∧
  w_fs w' `sublist_of` w_fs w ∧
  same_but_generations (w_db w) (w_db w').
Proof.
  intros w'. pose proof (prune_pass_step io now log keep w) as [D F _ R _ _ _].
  split_and!; [|done|done]. intros f Hf Hf'. destruct (R f Hf Hf') as [Ha Hk Hs].
  split_and!; [done|done|]. by apply (fully_stored_same _ _ _ D).
Qed.

End safe.
