(* ===== verification/Dispatch.v ===== *)
(** * Dispatching durable deliveries

    src/sink/mod.rs, [dispatch_durable_with_outbox]: a bounded share of due deliveries
    per sink, one transport attempt each, and the state the outcome leaves.

    A sink's transport is a function of the payload for one dispatch, [Transport]; the
    monotonic clock is [time_up], whether a sink's time share is used up before a row.
    The payloads handed to transports are recorded in order in [ds_sent]. *)

From S2P Require Import Prelude Ordered Rstr Json Delivery Journal Outbox.
From stdpp Require Import gmap.
From Stdlib Require Import Ascii.

Local Open Scope Z_scope.

Inductive DeliveryPolicy := BestEffort | Durable.
Inductive PersistenceRole := RoleNone | CanonicalFirstWrite | RoleDeliveryState.

#[export] Instance DeliveryPolicy_eq_dec : EqDecision DeliveryPolicy.
Proof. solve_decision. Defined.
#[export] Instance PersistenceRole_eq_dec : EqDecision PersistenceRole.
Proof. solve_decision. Defined.

Record SinkEntry := {
  se_name : string;
  se_transport : string;
  se_persistence_path : option string;
  se_rotation_keep : option nat;
  se_delivery_policy : DeliveryPolicy;
  se_persistence_role : PersistenceRole;
  se_retry : RetryConfig;
}.

Record SinkSet := {
  ss_entries : list SinkEntry;
  ss_durable_outbox_path : option string;
  ss_durable_sink_ids : list string;
  ss_durable_capacity_limits : CapacityLimits;
  ss_durable_replay_active : bool;
}.

Record SinkFailure := {
  sf_name : string;
  sf_kind : string;
  sf_class : DeliveryErrorClass;
  sf_attempts : Z;
  sf_error : string;
  sf_prior_attempts : Z;
  sf_prior_error_class : option DeliveryErrorClass;
}.

(** [emit_canonical_once] of the named sink. *)
Definition Transport : Type := string → list ascii → result unit BoxedError.

Record DispatchState := {
  ds_world : World;
  ds_failures : list SinkFailure;
  ds_sent : list (string * string);
}.

Definition with_world (w : World) (st : DispatchState) : DispatchState :=
  {| ds_world := w; ds_failures := ds_failures st; ds_sent := ds_sent st |}.
Definition sent (sink_id event_id : string) (st : DispatchState) : DispatchState :=
  {| ds_world := ds_world st; ds_failures := ds_failures st;
     ds_sent := ds_sent st ++ [(sink_id, event_id)] |}.
Definition failed (f : SinkFailure) (st : DispatchState) : DispatchState :=
  {| ds_world := ds_world st; ds_failures := ds_failures st ++ [f]; ds_sent := ds_sent st |}.

Definition MAX_ROWS_PER_SINK : nat := 16.

(** 401 and 403 are authentication failures. *)
Definition refine_class (class : DeliveryErrorClass) : DeliveryErrorClass :=
  match class with
  | HttpStatus status =>
      if (status =? 401) || (status =? 403) then AuthenticationBlocked status
      else HttpStatus status
  | class => class
  end.

(** The state and the time of the next attempt after a failure. *)
Definition failure_state (now : Z) (retry : RetryConfig) (attempt : Z)
    (class : DeliveryErrorClass) : DeliveryState * option Z :=
  match class with
  | AuthenticationBlocked _ | SinkResponseBlocked => (Blocked, None)
  | _ =>
      if is_retryable class && (attempt <? Z.max (max_attempts retry) 1)
      then (Pending, Some (next_retry_at now (base_delay_ms retry) attempt))
      else (Dead, None)
  end.

Section dispatch.
Context `{Digest, Diagnostics, JsonCodec, PathResolver}.
Context (io : Io) (transport : Transport) (time_up : string → nat → bool).

Definition record_outcome (sink_id : string) (update : DeliveryUpdate) (event_id : string)
    (st : DispatchState) : DispatchState * result unit BoxedError :=
  let '(w, r) := record_delivery_at io event_id sink_id update (ds_world st) in
  (with_world w st, map_err Structured r).

(** The body of the row loop on a selected delivery. *)
Definition dispatch_one (now : Z) (entry : SinkEntry) (sink_id : string) (ready : ReadyDelivery)
    (st : DispatchState) : DispatchState * result unit BoxedError :=
  let row := rd_row ready in
  let attempt := dr_attempts row + 1 in
  if u32_max <? attempt then (st, Err (Raw "durable delivery attempt count overflow"))
  else if is_delivery_failure_alert_payload (rd_payload ready) then
    record_outcome sink_id
      {| du_state := Dead; du_attempts := attempt; du_next_attempt_at := None;
         du_last_error_class := None; du_updated_at := now |} (dr_event_id row) st
  else
    let st := sent sink_id (dr_event_id row) st in
    match transport (se_name entry) (rd_payload ready) with
    | Ok _ =>
        record_outcome sink_id
          {| du_state := Acked; du_attempts := attempt; du_next_attempt_at := None;
             du_last_error_class := None; du_updated_at := now |} (dr_event_id row) st
    | Err error =>
        let '(class, message) := delivery_error_details error in
        if bool_decide (class = DurableStorage) then (st, Err error)
        else
          let class := refine_class class in
          let '(state, next_attempt_at) := failure_state now (se_retry entry) attempt class in
          let '(st, r) := record_outcome sink_id
            {| du_state := state; du_attempts := attempt; du_next_attempt_at := next_attempt_at;
               du_last_error_class := Some class; du_updated_at := now |} (dr_event_id row) st in
          match r with
          | Err e => (st, Err e)
          | Ok _ =>
              (failed {| sf_name := se_name entry; sf_kind := se_transport entry;
                         sf_class := class; sf_attempts := attempt;
                         sf_error := "durable delivery attempt for sink " +:+
                           sanitize (se_name entry) +:+ ": " +:+ message;
                         sf_prior_attempts := dr_attempts row;
                         sf_prior_error_class := dr_last_error_class row |} st, Ok tt)
          end
    end.

(** [for row in 0..16], from [row], with [n] rows left. *)
Fixpoint dispatch_rows (n row : nat) (now : Z) (entry : SinkEntry) (sink_id : string)
    (st : DispatchState) : DispatchState * result unit BoxedError :=
  match n with
  | O => (st, Ok tt)
  | S n' =>
      if (0 <? row)%nat && time_up sink_id row then (st, Ok tt)
      else
        match next_ready_delivery io (w_db (ds_world st)) sink_id now with
        | Err e => (st, Err (Structured e))
        | Ok None => (st, Ok tt)
        | Ok (Some ready) =>
            match dispatch_one now entry sink_id ready st with
            | (st, Err e) => (st, Err e)
            | (st, Ok _) => dispatch_rows n' (S row) now entry sink_id st
            end
        end
  end.

Fixpoint dispatch_sinks (now : Z) (entries : list SinkEntry) (sink_ids : list string)
    (st : DispatchState) : DispatchState * result unit BoxedError :=
  match sink_ids with
  | [] => (st, Ok tt)
  | sink_id :: rest =>
      match List.find (λ entry, str_eqb (se_name entry) sink_id) entries with
      | None =>
          (st, Err (Raw ("durable sink identity '" +:+ sink_id +:+ "' is not configured")))
      | Some entry =>
          match dispatch_rows MAX_ROWS_PER_SINK 0 now entry sink_id st with
          | (st, Err e) => (st, Err e)
          | (st, Ok _) => dispatch_sinks now entries rest st
          end
      end
  end.

(** The tables after the dispatch, the deliveries attempted, and the failures or the
    error that ended it. *)
Definition dispatch_durable_with_outbox (now : Z) (set : SinkSet) (w : World)
    : World * list (string * string) * result (list SinkFailure) BoxedError :=
  let '(st, r) := dispatch_sinks now (ss_entries set) (ss_durable_sink_ids set)
    {| ds_world := w; ds_failures := []; ds_sent := [] |} in
  (ds_world st, ds_sent st,
   match r with Ok _ => Ok (ds_failures st) | Err e => Err e end).

End dispatch.
