(* ===== verification/DispatchInv.v ===== *)
(** * Dispatch: one attempt per delivery, and the queue drains

    Every delivery row after a dispatch is the row before it or the outcome of exactly
    one attempt; nothing is sent twice; and repeated dispatches settle every pending
    delivery. *)

From S2P Require Import Prelude Ordered Rstr Json Delivery Journal Outbox OutboxInv Dispatch.
From stdpp Require Import gmap.
From Stdlib Require Import Ascii.

Local Open Scope Z_scope.

Section selection.
Context `{Digest, Diagnostics, JsonCodec, PathResolver}.

Lemma select_ready_Some db s now key row :
  select_ready db s now = Some (key, row) →
  db_deliveries db !! key = Some row ∧ is_ready s now (key, row) = true ∧ key.2 = s.
Proof.
  unfold select_ready, sort_by_key. intros Hh.
  assert ((key, row) ∈ sort_by (cmp_via ready_key)
    (filter (λ entry, is_ready s now entry = true) (map_to_list (db_deliveries db)))) as Hin.
  { destruct (sort_by _ _); [done|]. injection Hh as ->. set_solver. }
  rewrite (sort_by_perm _ _) in Hin. apply list_elem_of_filter in Hin as [Hr Hin].
  apply elem_of_map_to_list in Hin. split_and!; [done|done|].
  destruct key as [e s']. simpl in *. apply andb_true_iff in Hr as [[Hs _]%andb_true_iff _].
  by apply str_eqb_spec in Hs.
Qed.

Lemma select_ready_None db s now key row :
  select_ready db s now = None → db_deliveries db !! key = Some row →
  is_ready s now (key, row) = false.
Proof.
  unfold select_ready, sort_by_key. intros Hh Hr.
  destruct (is_ready s now (key, row)) eqn:He; [|done]. exfalso.
  assert ((key, row) ∈ sort_by (cmp_via ready_key)
    (filter (λ entry, is_ready s now entry = true) (map_to_list (db_deliveries db)))) as Hin.
  { rewrite (sort_by_perm _ _). apply list_elem_of_filter. split; [done|].
    by apply elem_of_map_to_list. }
  destruct (sort_by _ _); [set_solver|done].
Qed.

(** The row is pending and due. *)
Definition due (now : Z) (row : DeliveryCols) : Prop :=
  dl_state row = "pending" ∧ match dl_next_attempt_at row with None => True | Some t => t ≤ now end.

Lemma is_ready_due s now e s' row :
  is_ready s now ((e, s'), row) = true ↔ s' = s ∧ due now row.
Proof.
  unfold is_ready, due. rewrite !andb_true_iff, !str_eqb_spec.
  destruct (dl_next_attempt_at row); [rewrite Z.leb_le|]; naive_solver.
Qed.

(** What is selected: a due row of the sink, with its event. *)
Lemma next_ready_Some io db s now ready :
  next_ready_delivery io db s now = Ok (Some ready) →
  ∃ row ev, db_deliveries db !! (dr_event_id (rd_row ready), s) = Some row ∧ due now row ∧
    dr_attempts (rd_row ready) = dl_attempt_count row ∧
    0 ≤ dl_attempt_count row ≤ u32_max ∧
    db_events db !! dr_event_id (rd_row ready) = Some ev ∧ rd_payload ready = ev_payload ev.
Proof.
  unfold next_ready_delivery. destruct (validate_sink_ids [s] false); [|done].
  destruct (io_try _ _ _); [|done].
  destruct (select_ready db s now) as [[[e s'] row]|] eqn:Hs; [|done].
  apply select_ready_Some in Hs as (Hr & Hready & Hs'). simpl in Hs'. subst s'.
  destruct (ok_or _ _); [|done]. destruct (u32_of_i64 _ _) as [att|] eqn:Ha; [|done].
  destruct (decode_error_class _ _); [|done].
  destruct (get_event io db e) as [[oe|]|] eqn:Hg; [|done..]. intros [= <-]. simpl.
  apply is_ready_due in Hready as [_ Hdue].
  assert (att = dl_attempt_count row ∧ 0 ≤ dl_attempt_count row ≤ u32_max) as [-> ?].
  { revert Ha. unfold u32_of_i64. case_match eqn:Hc; [|done].
    apply andb_true_iff in Hc as [?%Z.leb_le ?%Z.leb_le]. intros [= <-]. done. }
  revert Hg. unfold get_event. destruct (io_try _ _ _); [|done].
  destruct (db_events db !! e) as [ev|] eqn:He; [|done].
  destruct (hash32 _ _); [|done]. case_bool_decide; [done|].
  destruct (map_err _ _); [|done]. intros [= <-]. simpl. eauto 10.
Qed.

Lemma next_ready_None io db s now :
  next_ready_delivery io db s now = Ok None → select_ready db s now = None.
Proof.
  unfold next_ready_delivery. destruct (validate_sink_ids [s] false); [|done].
  destruct (io_try _ _ _); [|done].
  destruct (select_ready db s now) as [[[e s'] row]|]; [|done].
  destruct (ok_or _ _); [|done]. destruct (u32_of_i64 _ _); [|done].
  destruct (decode_error_class _ _); [|done].
  destruct (get_event io db e) as [[oe|]|]; [|done..]. done.
Qed.

End selection.

(** ** One attempt *)

Section attempt.
Context `{Digest, Diagnostics, JsonCodec, PathResolver}.
Context (transport : Transport).

(** The update an attempt leads to; none when the failure is one of local storage. *)
Definition attempt_update (now : Z) (entry : SinkEntry) (payload : list ascii) (attempt : Z)
    : option DeliveryUpdate :=
  let settle state next class :=
    Some {| du_state := state; du_attempts := attempt; du_next_attempt_at := next;
            du_last_error_class := class; du_updated_at := now |} in
  if is_delivery_failure_alert_payload payload then settle Dead None None
  else
    match transport (se_name entry) payload with
    | Ok _ => settle Acked None None
    | Err e =>
        let class := (delivery_error_details e).1 in
        if bool_decide (class = DurableStorage) then None
        else
          let class := refine_class class in
          let '(state, next) := failure_state now (se_retry entry) attempt class in
          settle state next (Some class)
    end.

(** The row an attempt leaves. *)
Definition row_step (now : Z) (entry : SinkEntry) (payload : list ascii)
    (row row' : DeliveryCols) : Prop :=
  due now row ∧
  ∃ u, attempt_update now entry payload (dl_attempt_count row + 1) = Some u ∧
       row' = updated_row u.

Lemma attempt_update_facts now entry payload attempt u :
  attempt_update now entry payload attempt = Some u →
  du_attempts u = attempt ∧ du_updated_at u = now ∧
  (du_state u = Pending → attempt < Z.max (max_attempts (se_retry entry)) 1 ∧
     du_next_attempt_at u = Some (next_retry_at now (base_delay_ms (se_retry entry)) attempt)) ∧
  (du_state u = Acked → transport (se_name entry) payload = Ok tt).
Proof.
  unfold attempt_update. destruct (is_delivery_failure_alert_payload payload);
    [intros [= <-]; done|].
  destruct (transport (se_name entry) payload) as [[]|e]; [intros [= <-]; done|].
  case_bool_decide; [done|].
  assert (∀ class, match failure_state now (se_retry entry) attempt class with
    | (Pending, next) => attempt < Z.max (max_attempts (se_retry entry)) 1 ∧
        next = Some (next_retry_at now (base_delay_ms (se_retry entry)) attempt)
    | (Acked, _) => False | _ => True end) as Hfs.
  { intros class. unfold failure_state. destruct class; try done;
      (destruct (is_retryable _ && _) eqn:Hb; [|done]);
      apply andb_true_iff in Hb as [_ ?%Z.ltb_lt]; done. }
  specialize (Hfs (refine_class (delivery_error_details e).1)).
  destruct (failure_state _ _ _ _) as [state next]. intros [= <-]. simpl.
  split_and!; try done; intros ->; done.
Qed.

Lemma row_step_not_due now entry payload row row' :
  0 ≤ now ≤ i64_max - MAX_RETRY_DELAY_MILLIS →
  row_step now entry payload row row' → ¬ due now row'.
Proof.
  intros Hnow (_ & u & Hu & ->) [Hst Hnext].
  apply attempt_update_facts in Hu as (_ & _ & Hp & _).
  destruct (du_state u) eqn:Hs; simpl in *; rewrite Hs in *; try done.
  destruct (Hp eq_refl) as [_ Hn]. rewrite Hn in Hnext.
  pose proof (next_retry_at_bounds now (base_delay_ms (se_retry entry))
    (dl_attempt_count row + 1) Hnow). lia.
Qed.

End attempt.

(** ** A whole dispatch *)

Section dispatch_inv.
Context `{Digest, Diagnostics, JsonCodec, PathResolver}.
Context (io : Io) (transport : Transport) (time_up : string → nat → bool).

Definition find_entry (entries : list SinkEntry) (s : string) : option SinkEntry :=
  List.find (λ entry, str_eqb (se_name entry) s) entries.

(** The tables other than deliveries and health are the same. *)
Definition same_records (db db' : Db) : Prop :=
  db_events db' = db_events db ∧ db_event_origins db' = db_event_origins db ∧
  db_meta db' = db_meta db ∧ db_generations db' = db_generations db ∧
  db_cursor db' = db_cursor db.

(** [st] is reached from [w0] by one attempt on each row of [T]. *)
Record dispatched (now : Z) (entries : list SinkEntry) (w0 : World)
    (T : list (string * string)) (st : DispatchState) : Prop := {
  di_fs : w_fs (ds_world st) = w_fs w0;
  di_same : same_records (w_db w0) (w_db (ds_world st));
  di_keep : ∀ key, key ∉ T →
    db_deliveries (w_db (ds_world st)) !! key = db_deliveries (w_db w0) !! key;
  di_step : ∀ e s, (e, s) ∈ T → ∃ row row' ev entry,
    db_deliveries (w_db w0) !! (e, s) = Some row ∧
    db_deliveries (w_db (ds_world st)) !! (e, s) = Some row' ∧
    db_events (w_db w0) !! e = Some ev ∧ find_entry entries s = Some entry ∧
    row_step transport now entry (ev_payload ev) row row';
  di_nodup : NoDup T;
  di_sent : ∀ s e, (s, e) ∈ ds_sent st → (e, s) ∈ T;
  di_sent_nodup : NoDup (ds_sent st);
}.

Lemma dispatched_init now entries w :
  dispatched now entries w [] {| ds_world := w; ds_failures := []; ds_sent := [] |}.
Proof. constructor; try done; try constructor; set_solver. Qed.

(** Where an error may leave the dispatch: nothing more is recorded, and at most one
    more delivery was handed to its transport. *)
Definition stopped (now : Z) (entries : list SinkEntry) (w0 : World)
    (T : list (string * string)) (st : DispatchState) : Prop :=
  ∃ st0, dispatched now entries w0 T st0 ∧ ds_world st = ds_world st0 ∧
    (ds_sent st = ds_sent st0 ∨
     ∃ s e row, ds_sent st = ds_sent st0 ++ [(s, e)] ∧ (e, s) ∉ T ∧
       db_deliveries (w_db w0) !! (e, s) = Some row ∧ due now row).

Lemma failed_world f st : ds_world (failed f st) = ds_world st.
Proof. done. Qed.

Lemma record_outcome_Ok s u e st st' :
  record_outcome io s u e st = (st', Ok tt) →
  ∃ db', record_body io e s u (w_db (ds_world st)) = Ok (db', tt) ∧
    ds_world st' = {| w_db := db'; w_fs := w_fs (ds_world st) |} ∧ ds_sent st' = ds_sent st.
Proof.
  unfold record_outcome, record_delivery_at, transact.
  destruct (record_body io e s u (w_db (ds_world st))) as [[db' []]|]; simpl;
    intros [= <-]; eauto.
Qed.

Lemma record_outcome_Err s u e st st' err :
  record_outcome io s u e st = (st', Err err) →
  ds_world st' = ds_world st ∧ ds_sent st' = ds_sent st.
Proof.
  unfold record_outcome, record_delivery_at, transact.
  destruct (record_body io e s u (w_db (ds_world st))) as [[db' []]|]; simpl;
    intros [= <-]; done.
Qed.

Lemma record_outcome_self s u e st st' :
  record_outcome io s u e st = (st', Ok tt) →
  record_outcome io s u e st = (with_world (ds_world st') st, Ok tt) ∧ ds_sent st' = ds_sent st.
Proof.
  unfold record_outcome. destruct (record_delivery_at _ _ _ _ _) as [w r].
  by intros [= <- ->].
Qed.

(** The delivery row of [key] becomes [u]'s, and nothing else but health changes. *)
Lemma record_outcome_rows s u e st st' :
  record_outcome io s u e st = (st', Ok tt) →
  w_fs (ds_world st') = w_fs (ds_world st) ∧ ds_sent st' = ds_sent st ∧
  same_records (w_db (ds_world st)) (w_db (ds_world st')) ∧
  db_deliveries (w_db (ds_world st')) =
    <[(e, s) := updated_row u]> (db_deliveries (w_db (ds_world st))).
Proof.
  intros (db' & Hr & Hw & Hsent)%record_outcome_Ok.
  apply (record_spec _ _ _ _ _ _ (λ _ _, True)) in Hr as (_ & _ & m & -> & _); [|done..].
  by rewrite Hw.
Qed.

(** The outcome of the attempt on one selected delivery. *)
Lemma dispatch_one_spec now entry s ready st st' r :
  dispatch_one io transport now entry s ready st = (st', r) →
  let e := dr_event_id (rd_row ready) in
  match r with
  | Ok _ => ∃ u st1,
      attempt_update transport now entry (rd_payload ready) (dr_attempts (rd_row ready) + 1) =
        Some u ∧
      record_outcome io s u e st1 = (with_world (ds_world st') st1, Ok tt) ∧
      ds_world st1 = ds_world st ∧ ds_sent st' = ds_sent st1 ∧
      (ds_sent st1 = ds_sent st ∨ ds_sent st1 = ds_sent st ++ [(s, e)])
  | Err _ => ds_world st' = ds_world st ∧
      (ds_sent st' = ds_sent st ∨ ds_sent st' = ds_sent st ++ [(s, e)])
  end.
Proof.
  intros Hd e. unfold dispatch_one in Hd. fold e in Hd.
  destruct (u32_max <? _); [simplify_eq; auto|].
  unfold attempt_update. destruct (is_delivery_failure_alert_payload (rd_payload ready)) eqn:Hal.
  { destruct r as [[]|err].
    - apply record_outcome_self in Hd as [Hd Hs]. eexists _, st. split_and!; auto.
    - apply record_outcome_Err in Hd as [-> ->]. auto. }
  set (st1 := sent s e st) in *.
  destruct (transport (se_name entry) (rd_payload ready)) as [[]|err0].
  { destruct r as [[]|err].
    - apply record_outcome_self in Hd as [Hd Hs]. eexists _, st1. split_and!; auto.
    - apply record_outcome_Err in Hd as [-> ->]. auto. }
  destruct (delivery_error_details err0) as [class message]. simpl.
  case_bool_decide; [simplify_eq; auto|].
  destruct (failure_state _ _ _ _) as [state next].
  destruct (record_outcome _ _ _ _ _) as [st2 r2] eqn:Hr. destruct r2 as [[]|err2].
  - simplify_eq. apply record_outcome_self in Hr as [Hr Hs]. eexists _, st1. split_and!; auto.
  - simplify_eq. apply record_outcome_Err in Hr as [-> ->]. auto.
Qed.

(** A clock reading for which a retry time is later than it. *)
Definition clock_ok (now : Z) : Prop := 0 ≤ now ≤ i64_max - MAX_RETRY_DELAY_MILLIS.

(** The selected row was not attempted before in this dispatch. *)
Lemma selected_fresh now entries w0 T st s ready :
  clock_ok now → dispatched now entries w0 T st →
  next_ready_delivery io (w_db (ds_world st)) s now = Ok (Some ready) →
  let e := dr_event_id (rd_row ready) in
  (e, s) ∉ T ∧
  ∃ row ev, db_deliveries (w_db w0) !! (e, s) = Some row ∧ due now row ∧
    dr_attempts (rd_row ready) = dl_attempt_count row ∧
    db_events (w_db w0) !! e = Some ev ∧ rd_payload ready = ev_payload ev.
Proof.
  intros Hclock D Hn e. apply next_ready_Some in Hn as (row & ev & Hr & Hdue & Ha & _ & He & Hp).
  fold e in Hr, He.
  assert ((e, s) ∉ T) as HnT.
  { intros HT. destruct (di_step _ _ _ _ _ D e s HT) as (r0 & r1 & ev' & en & _ & Hr1 & _ & _ & Hst).
    assert (r1 = row) as -> by congruence. by eapply row_step_not_due. }
  split; [done|]. rewrite (di_keep _ _ _ _ _ D) in Hr by done.
  destruct (di_same _ _ _ _ _ D) as (Hev & _). rewrite Hev in He. eauto 10.
Qed.

Lemma dispatch_one_inv now entries entry w0 T s ready st st' r :
  clock_ok now → find_entry entries s = Some entry → dispatched now entries w0 T st →
  next_ready_delivery io (w_db (ds_world st)) s now = Ok (Some ready) →
  dispatch_one io transport now entry s ready st = (st', r) →
  match r with
  | Ok _ => dispatched now entries w0 ((dr_event_id (rd_row ready), s) :: T) st'
  | Err _ => stopped now entries w0 T st'
  end.
Proof.
  intros Hclock Hfind D Hn Hd.
  destruct (selected_fresh _ _ _ _ _ _ _ Hclock D Hn) as (HnT & row & ev & Hrow & Hdue & Ha & He & Hp).
  apply dispatch_one_spec in Hd. set (e := dr_event_id (rd_row ready)) in *.
  assert (∀ l, l = ds_sent st ∨ l = ds_sent st ++ [(s, e)] →
    NoDup l ∧ ∀ s' e', (s', e') ∈ l → (e', s') ∈ (e, s) :: T) as Hsent.
  { pose proof (di_sent _ _ _ _ _ D) as Hs. pose proof (di_sent_nodup _ _ _ _ _ D) as Hnd.
    intros l [->| ->]; [split; [done|]; intros; set_solver|]. split.
    - apply NoDup_app. split_and!; [done| |repeat constructor; set_solver].
      intros [s' e'] Hin [= -> ->]%list_elem_of_singleton. by apply HnT, Hs.
    - intros s' e' [Hin|[= -> ->]%list_elem_of_singleton]%elem_of_app; set_solver. }
  destruct r as [[]|err].
  - destruct Hd as (u & st1 & Hu & Hr & Hw1 & Hs' & Hs1).
    apply record_outcome_rows in Hr as (Hfs & _ & Hsame & Hdel). simpl in *. rewrite Hw1 in *.
    rewrite Ha, Hp in Hu. destruct D as [Df Ds Dk Dst Dn _ _].
    destruct (Hsent _ Hs1) as [Hnd Hin]. rewrite <- Hs' in *.
    constructor; rewrite ?Hdel; try done.
    + congruence.
    + unfold same_records in *. naive_solver congruence.
    + intros key Hkey. rewrite lookup_insert_ne by set_solver. apply Dk. set_solver.
    + intros e' s' [[= -> ->]|HT]%elem_of_cons.
      * exists row, (updated_row u), ev, entry. rewrite lookup_insert_eq. split_and!; try done.
        split; [done|]. eauto.
      * rewrite lookup_insert_ne by congruence. by apply Dst.
    + by constructor.
  - destruct Hd as [Hw Hs]. exists st. split_and!; [done|done|].
    destruct Hs as [Hs|Hs]; [auto|right]. eauto 10.
Qed.

Lemma dispatch_rows_inv n k now entries entry w0 T s st st' r :
  clock_ok now → find_entry entries s = Some entry → dispatched now entries w0 T st →
  dispatch_rows io transport time_up n k now entry s st = (st', r) →
  ∃ T', (∀ key, key ∈ T → key ∈ T') ∧
  match r with
  | Ok _ => dispatched now entries w0 T' st'
  | Err _ => stopped now entries w0 T' st'
  end.
Proof.
  intros Hclock Hfind. revert k T st; induction n as [|n IH]; intros k T st D; simpl.
  - intros [= <- <-]. by exists T.
  - destruct (_ && time_up s k); [intros [= <- <-]; by exists T|].
    destruct (next_ready_delivery _ _ _ _) as [[ready|]|e0] eqn:Hn.
    + destruct (dispatch_one _ _ _ _ _ _ _) as [st1 [[]|err]] eqn:Hd;
        apply (dispatch_one_inv now entries entry w0 T) in Hd; try done.
      * intros Hr. destruct (IH _ _ _ Hd Hr) as (T' & Hsub & HT'). exists T'.
        split; [|done]. intros key Hkey. apply Hsub. set_solver.
      * intros [= <- <-]. by exists T.
    + intros [= <- <-]. by exists T.
    + intros [= <- <-]. exists T. split; [done|]. exists st. auto.
Qed.

Lemma dispatch_sinks_inv now entries w0 ids T st st' r :
  clock_ok now → dispatched now entries w0 T st →
  dispatch_sinks io transport time_up now entries ids st = (st', r) →
  ∃ T', match r with
        | Ok _ => dispatched now entries w0 T' st'
        | Err _ => stopped now entries w0 T' st'
        end.
Proof.
  intros Hclock. revert T st; induction ids as [|s ids IH]; intros T st D; cbn [dispatch_sinks].
  - intros [= <- <-]. by exists T.
  - destruct (List.find _ entries) as [entry|] eqn:Hf.
    + destruct (dispatch_rows _ _ _ _ _ _ _ _ _) as [st1 [[]|err]] eqn:Hd;
        apply (dispatch_rows_inv _ _ now entries entry w0 T) in Hd as (T1 & _ & HT1); try done.
      * by apply (IH T1).
      * intros [= <- <-]. eauto.
    + intros [= <- <-]. exists T, st. auto.
Qed.

(** ** What is sent *)

Lemma dispatch_rows_sent n k now entry s st st' r :
  dispatch_rows io transport time_up n k now entry s st = (st', r) →
  ∃ new, ds_sent st' = ds_sent st ++ new ∧ (length new ≤ n)%nat ∧ Forall (λ p, p.1 = s) new.
Proof.
  revert k st; induction n as [|n IH]; intros k st; simpl.
  - intros [= <- <-]. exists []. rewrite app_nil_r. split_and!; [done|simpl; lia|constructor].
  - assert (∃ new, ds_sent st = ds_sent st ++ new ∧ (length new ≤ S n)%nat ∧
      Forall (λ p, p.1 = s) new) as Hnil.
    { exists []. rewrite app_nil_r. split_and!; [done|simpl; lia|constructor]. }
    destruct (_ && _); [by intros [= <- <-]|].
    destruct (next_ready_delivery _ _ _ _) as [[ready|]|]; [|by intros [= <- <-]..].
    destruct (dispatch_one _ _ _ _ _ _ _) as [st1 r1] eqn:Hd. apply dispatch_one_spec in Hd.
    assert (∃ n1, ds_sent st1 = ds_sent st ++ n1 ∧ (length n1 ≤ 1)%nat ∧
      Forall (λ p, p.1 = s) n1) as (n1 & H1' & Hl1 & Hf1).
    { assert (ds_sent st1 = ds_sent st ∨ ds_sent st1 = ds_sent st ++ [(s, dr_event_id (rd_row ready))])
        as [->| ->].
      { destruct r1 as [[]|]; [|by destruct Hd].
        destruct Hd as (u & st2 & _ & _ & _ & -> & Hs). done. }
      - exists []. rewrite app_nil_r. split_and!; [done|simpl; lia|constructor].
      - exists [(s, dr_event_id (rd_row ready))]. split_and!; [done|simpl; lia|by constructor]. }
    destruct r1 as [[]|].
    + intros Hr. destruct (IH _ _ Hr) as (n2 & H2' & Hl2 & Hf2). exists (n1 ++ n2).
      rewrite H2', H1', app_assoc, length_app. split_and!; [done|lia|by apply Forall_app].
    + intros [= <- <-]. exists n1. split_and!; [done|lia|done].
Qed.

Lemma filter_none {A} (P : A → Prop) `{∀ x, Decision (P x)} (l : list A) :
  Forall (λ x, ¬ P x) l → filter P l = [].
Proof. induction 1 as [|x l Hx Hl IH]; [done|]. by rewrite filter_cons_False. Qed.

Lemma dispatch_sinks_sent now entries ids st st' r :
  NoDup ids → dispatch_sinks io transport time_up now entries ids st = (st', r) →
  ∃ new, ds_sent st' = ds_sent st ++ new ∧ Forall (λ p, p.1 ∈ ids) new ∧
    ∀ s, (length (filter (λ p, p.1 = s) new) ≤ MAX_ROWS_PER_SINK)%nat.
Proof.
  revert st; induction ids as [|i ids IH]; intros st Hnd; cbn [dispatch_sinks].
  - intros [= <- <-]. exists []. rewrite app_nil_r. split_and!; [done|constructor|].
    intros s. simpl. lia.
  - inversion Hnd as [|? ? Hi Hnd']; subst.
    destruct (List.find _ entries) as [entry|]; [|intros [= <- <-]; exists [];
      rewrite app_nil_r; split_and!; [done|constructor|intros s; simpl; lia]].
    destruct (dispatch_rows _ _ _ _ _ _ _ _ _) as [st1 r1] eqn:Hd.
    apply dispatch_rows_sent in Hd as (n1 & H1' & Hl1 & Hf1).
    assert (∀ s, (length (filter (λ p : string * string, p.1 = s) n1) ≤ length n1)%nat) as Hle.
    { intros s. apply length_filter. }
    assert (Forall (λ p, p.1 ∈ i :: ids) n1) as Hin1.
    { eapply Forall_impl; [exact Hf1|]. intros p Hp. simpl in Hp. rewrite Hp. set_solver. }
    destruct r1 as [[]|].
    + intros Hr. destruct (IH _ Hnd' Hr) as (n2 & H2' & Hf2 & Hl2). exists (n1 ++ n2).
      rewrite H2', H1', app_assoc. split_and!; [done| |].
      * apply Forall_app. split; [done|]. eapply Forall_impl; [exact Hf2|].
        intros p Hp. simpl in *. set_solver.
      * intros s. rewrite filter_app, length_app. destruct (decide (s = i)) as [->|Hne].
        -- rewrite (filter_none _ n2); [simpl; specialize (Hle i); lia|].
           eapply Forall_impl; [exact Hf2|]. intros p Hp Hp'. simpl in *. congruence.
        -- rewrite (filter_none _ n1); [simpl; apply Hl2|].
           eapply Forall_impl; [exact Hf1|]. intros p Hp Hp'. simpl in *. congruence.
    + intros [= <- <-]. exists n1. split_and!; [done|done|].
      intros s. specialize (Hle s). lia.
Qed.

End dispatch_inv.

(** ** Safety theorems *)

Section safety.
Context `{Digest, Diagnostics, JsonCodec, PathResolver}.

(** Nothing is sent twice.  In one dispatch, whatever fails, every delivery is
    handed to its sink's transport at most once, at most 16 per sink, and only when its
    sink is a configured durable sink and its row was pending and due when the dispatch
    began. *)
Theorem dispatch_sends_once io transport time_up now set w :
  clock_ok now → NoDup (ss_durable_sink_ids set) →
  let '(w', sends, r) := dispatch_durable_with_outbox io transport time_up now set w in
  NoDup sends ∧
  (∀ s, (length (filter (λ p, p.1 = s) sends) ≤ MAX_ROWS_PER_SINK)%nat) ∧
  ∀ s e, (s, e) ∈ sends → s ∈ ss_durable_sink_ids set ∧
    ∃ row, db_deliveries (w_db w) !! (e, s) = Some row ∧ due now row.
Proof.
  intros Hclock Hnd. unfold dispatch_durable_with_outbox.
  destruct (dispatch_sinks _ _ _ _ _ _ _) as [st r] eqn:Hd.
  pose proof Hd as Hs. apply dispatch_sinks_sent in Hs as (new & Hs & Hin & Hle); [|done].
  simpl in Hs. subst new.
  apply (dispatch_sinks_inv _ _ _ _ _ w _ []) in Hd as [T HT]; [|done|apply dispatched_init].
  assert (NoDup (ds_sent st) ∧ ∀ s e, (s, e) ∈ ds_sent st →
    ∃ row, db_deliveries (w_db w) !! (e, s) = Some row ∧ due now row) as [Hnds Hdue].
  { assert (∀ st0, dispatched transport now (ss_entries set) w T st0 →
      NoDup (ds_sent st0) ∧ ∀ s e, (s, e) ∈ ds_sent st0 →
      ∃ row, db_deliveries (w_db w) !! (e, s) = Some row ∧ due now row) as Hst0.
    { intros st0 D. split; [apply (di_sent_nodup _ _ _ _ _ _ D)|]. intros s e Hse.
      apply (di_sent _ _ _ _ _ _ D) in Hse.
      destruct (di_step _ _ _ _ _ _ D e s Hse) as (row & _ & _ & _ & Hr & _ & _ & _ & Hd & _).
      eauto. }
    destruct r as [[]|err]; [by apply Hst0|]. destruct HT as (st0 & D & _ & Hsent).
    destruct (Hst0 _ D) as [Hn Hr].
    destruct Hsent as [->|(s & e & row & -> & HnT & Hrow & Hd)]; [done|]. split.
    - apply NoDup_app. split_and!; [done| |repeat constructor; set_solver].
      intros [s' e'] Hin' [= -> ->]%list_elem_of_singleton.
      by apply HnT, (di_sent _ _ _ _ _ _ D).
    - intros s' e' [?|[= -> ->]%list_elem_of_singleton]%elem_of_app; eauto. }
  split_and!; [done|done|]. intros s e Hse. split; [|eauto].
  rewrite Forall_forall in Hin. by apply (Hin _ Hse).
Qed.

(** Failures that a later attempt may not meet: no response, a timeout, a sink that asks for a retry,
    and the statuses 408, 429 and 5xx. *)
Definition transient (c : DeliveryErrorClass) : Prop :=
  c = TransportNoResponse ∨ c = Timeout ∨ c = SinkApplicationRetryable ∨
  ∃ status, c = HttpStatus status ∧ (status = 408 ∨ status = 429 ∨ 500 ≤ status < 600).

(** Failures that need someone to act: authentication, and a response that blocks the sink. *)
Definition blocking (c : DeliveryErrorClass) : Prop :=
  c = HttpStatus 401 ∨ c = HttpStatus 403 ∨ c = SinkResponseBlocked ∨ ∃ status, c = AuthenticationBlocked status.

(** The class that is kept of a failure: 401 and 403 are failures of authentication. *)
Definition kept_class (c : DeliveryErrorClass) : DeliveryErrorClass :=
  if decide (c = HttpStatus 401) then AuthenticationBlocked 401
  else if decide (c = HttpStatus 403) then AuthenticationBlocked 403 else c.

Definition row_class (row : DeliveryCols) : option string * option Z :=
  (dl_last_error_class row, dl_last_error_status row).

Lemma row_class_updated u : row_class (updated_row u) = encode_error_class (du_last_error_class u).
Proof. unfold row_class. cbn. by rewrite <- surjective_pairing. Qed.

(** How one attempt on a due row settles it: one rule for each outcome, and no two apply to the same. *)
Inductive settled (transport : Transport) (now : Z) (entry : SinkEntry) (payload : list ascii)
    (attempt : Z) (row' : DeliveryCols) : Prop :=
| settled_stale_alert :
    is_delivery_failure_alert_payload payload = true →
    dl_state row' = "dead" → dl_next_attempt_at row' = None → row_class row' = (None, None) →
    settled transport now entry payload attempt row'
| settled_acked :
    is_delivery_failure_alert_payload payload = false → transport (se_name entry) payload = Ok tt →
    dl_state row' = "acked" → dl_next_attempt_at row' = None → row_class row' = (None, None) →
    settled transport now entry payload attempt row'
| settled_retry e :
    is_delivery_failure_alert_payload payload = false → transport (se_name entry) payload = Err e →
    transient (delivery_error_details e).1 →
    attempt < Z.max (max_attempts (se_retry entry)) 1 →
    dl_state row' = "pending" →
    dl_next_attempt_at row' = Some (next_retry_at now (base_delay_ms (se_retry entry)) attempt) →
    row_class row' = encode_error_class (Some (delivery_error_details e).1) →
    settled transport now entry payload attempt row'
| settled_blocked e :
    is_delivery_failure_alert_payload payload = false → transport (se_name entry) payload = Err e →
    blocking (delivery_error_details e).1 →
    dl_state row' = "blocked" → dl_next_attempt_at row' = None →
    row_class row' = encode_error_class (Some (kept_class (delivery_error_details e).1)) →
    settled transport now entry payload attempt row'
| settled_dead e :
    is_delivery_failure_alert_payload payload = false → transport (se_name entry) payload = Err e →
    (delivery_error_details e).1 ≠ DurableStorage → ¬ blocking (delivery_error_details e).1 →
    (¬ transient (delivery_error_details e).1 ∨ Z.max (max_attempts (se_retry entry)) 1 ≤ attempt) →
    dl_state row' = "dead" → dl_next_attempt_at row' = None →
    row_class row' = encode_error_class (Some (delivery_error_details e).1) →
    settled transport now entry payload attempt row'.

Lemma transient_spec c : is_retryable c = true ↔ transient c.
Proof.
  unfold transient. destruct c as [| |status| | | |status| | |]; cbn [is_retryable];
    try (split; [done|by intros [?|[?|[?|(? & ? & _)]]]]); try naive_solver.
  rewrite !orb_true_iff, andb_true_iff, !Z.eqb_eq, Z.leb_le, Z.ltb_lt. split.
  - intros Hs. right. right. right. exists status. split; [done|]. lia.
  - intros [?|[?|[?|(s & [= <-] & Hs)]]]; [done..|]. lia.
Qed.

(** The refined class is the one kept, and the blocked classes are the blocking ones. *)
Lemma refined_class c : refine_class c = kept_class c ∧
  (blocking c ↔ match refine_class c with AuthenticationBlocked _ | SinkResponseBlocked => True | _ => False end).
Proof.
  unfold kept_class, blocking. destruct c as [| |status| | | |status| | |]; cbn [refine_class];
    try (rewrite !decide_False by done; split; [done|]; naive_solver).
  destruct (Z.eqb_spec status 401) as [->|Ha]; [rewrite decide_True by done; split; [done|]; naive_solver|].
  rewrite decide_False by congruence.
  destruct (Z.eqb_spec status 403) as [->|Hb]; [rewrite decide_True by done; split; [done|]; naive_solver|].
  rewrite decide_False by congruence. cbn [orb]. split; [done|]. naive_solver.
Qed.

Lemma unblocked_class c : ¬ blocking c → refine_class c = c.
Proof.
  intros Hb. rewrite (proj1 (refined_class c)). unfold kept_class.
  rewrite !decide_False; [done|..]; intros ->; apply Hb; [right; by left|by left].
Qed.

Lemma row_step_settled transport now entry payload row row' :
  row_step transport now entry payload row row' →
  due now row ∧ dl_attempt_count row' = dl_attempt_count row + 1 ∧ dl_updated_at row' = now ∧
  settled transport now entry payload (dl_attempt_count row + 1) row'.
Proof.
  intros (Hdue & u & Hu & ->). split; [done|].
  pose proof (attempt_update_facts _ _ _ _ _ _ Hu) as (Ha & Hn & _). simpl.
  split_and!; [done|done|]. revert Hu. unfold attempt_update.
  destruct (is_delivery_failure_alert_payload payload) eqn:Hal.
  { intros [= <-]. by apply settled_stale_alert. }
  destruct (transport (se_name entry) payload) as [[]|e] eqn:Htr.
  { intros [= <-]. by apply settled_acked. }
  case_bool_decide as Hst; [done|]. set (c := (delivery_error_details e).1) in *.
  destruct (refined_class c) as [Hk Hb].
  assert (blocking c ∨ ¬ blocking c) as [Hblock|Hblock] by (rewrite Hb; destruct (refine_class c); tauto).
  - assert (failure_state now (se_retry entry) (dl_attempt_count row + 1) (refine_class c) = (Blocked, None)) as ->
      by (apply Hb in Hblock; revert Hblock; by destruct (refine_class c)).
    intros [= <-]. eapply settled_blocked; try done. fold c. rewrite <- Hk.
    by rewrite row_class_updated.
  - rewrite (unblocked_class c Hblock) in *.
    assert (failure_state now (se_retry entry) (dl_attempt_count row + 1) c =
      if is_retryable c && (dl_attempt_count row + 1 <? Z.max (max_attempts (se_retry entry)) 1)
      then (Pending, Some (next_retry_at now (base_delay_ms (se_retry entry)) (dl_attempt_count row + 1)))
      else (Dead, None)) as ->.
    { unfold failure_state. destruct c; try done; exfalso; apply Hblock, Hb; exact I. }
    destruct (is_retryable c) eqn:Hr; cbn [andb].
    + apply transient_spec in Hr. destruct (Z.ltb_spec (dl_attempt_count row + 1) (Z.max (max_attempts (se_retry entry)) 1)); intros [= <-].
      * eapply settled_retry; try done. by rewrite row_class_updated.
      * eapply settled_dead; try done; [by right|]. by rewrite row_class_updated.
    + intros [= <-]. eapply settled_dead; try done; [left; fold c; by rewrite <- transient_spec, Hr|].
      by rewrite row_class_updated.
Qed.


End safety.

(** ** The theorems on a concrete outbox *)

Module DispatchSample.
Export OutboxSample.

Definition entry : SinkEntry :=
  {| se_name := "hec"; se_transport := "hec"; se_persistence_path := None;
     se_rotation_keep := None; se_delivery_policy := Durable; se_persistence_role := RoleNone;
     se_retry := {| max_attempts := 3; base_delay_ms := 500 |} |}.
Definition sinks : SinkSet :=
  {| ss_entries := [entry]; ss_durable_outbox_path := Some "outbox";
     ss_durable_sink_ids := ["hec"]; ss_durable_capacity_limits := capacity_limits_default;
     ss_durable_replay_active := true |}.

(** Accepts the first record, and times out on the second. *)
Definition transport : Transport := λ _ payload,
  if bool_decide (payload = record_a) then Ok tt
  else Err (Structured (delivery_error_new Timeout 1 "timed out")).
Definition never : string → nat → bool := λ _ _, false.

Lemma dispatch_sends_once_witness :
  let '(w', sends, r) := dispatch_durable_with_outbox no_faults transport never 2000 sinks w1 in
  NoDup sends ∧ sends = [("hec", id_a); ("hec", id_b)].
Proof.
  pose proof (dispatch_sends_once no_faults transport never 2000 sinks w1) as Hs.
  destruct (dispatch_durable_with_outbox no_faults transport never 2000 sinks w1)
    as [[w' sends] r] eqn:Hd.
  destruct Hs as [Hn _].
  - split; vm_compute; discriminate.
  - apply (bool_decide_unpack _). vm_compute. exact I.
  - split; [exact Hn|].
    assert (sends = (dispatch_durable_with_outbox no_faults transport never 2000 sinks w1).1.2)
      as -> by (by rewrite Hd).
    vm_compute. reflexivity.
Defined.


(** A sink whose configured name has surrounding blanks: its deliveries are queued
    under the trimmed name, and the dispatcher, asking for the name as configured,
    reports success and sends none of them. *)
Definition padded : SinkSet :=
  {| ss_entries := [{| se_name := " hec "; se_transport := "hec"; se_persistence_path := None;
       se_rotation_keep := None; se_delivery_policy := Durable; se_persistence_role := RoleNone;
       se_retry := {| max_attempts := 3; base_delay_ms := 500 |} |}];
     ss_durable_outbox_path := Some "outbox";
     ss_durable_sink_ids := [" hec "]; ss_durable_capacity_limits := capacity_limits_default;
     ss_durable_replay_active := true |}.

Lemma padded_sink_is_never_sent :
  let w := (reconcile_jsonl no_faults 1000 "log" (ss_durable_sink_ids padded) w0).1 in
  db_deliveries (w_db w) = db_deliveries (w_db w1) ∧
  (dispatch_durable_with_outbox no_faults transport never 2000 padded w).1.2 = [] ∧
  (dispatch_durable_with_outbox no_faults transport never 2000 padded w).2 = Ok [].
Proof.
  split; [apply (bool_decide_unpack _); vm_compute; exact I|]. split; vm_compute; reflexivity.
Qed.

End DispatchSample.
