(* ===== verification/DispatchLive.v ===== *)
(** * Dispatch: the queue drains

    Without faults and with well-formed tables a dispatch always returns; every pending
    delivery has a finite number of attempts left, each attempt uses one up, and so
    repeated dispatches settle every delivery of the configured sinks. *)

From S2P Require Import Prelude Ordered Rstr Json Delivery Journal Outbox OutboxInv Dispatch.
From S2P Require Import DispatchInv.
From stdpp Require Import gmap.
From Stdlib Require Import Ascii.

Local Open Scope Z_scope.

(** ** Event identities are not blank *)

Lemma drop_ws_rev_last l : drop_ws_rev (l ++ ["t"%char]) ≠ [].
Proof.
  induction l as [l IH] using (induction_ltof1 _ (@length ascii)). unfold ltof in IH.
  destruct l as [|a [|b [|c l]]]; cbn [app drop_ws_rev].
  - done.
  - destruct (ws1 a); [done|]. by change (ws2 "t" a) with false.
  - destruct (ws1 a); [apply (IH [b]); simpl; lia|].
    destruct (ws2 b a); [done|]. by change (ws3 "t" b a) with false.
  - destruct (ws1 a); [apply (IH (b :: c :: l)); simpl; lia|].
    destruct (ws2 b a); [apply (IH (c :: l)); simpl; lia|].
    destruct (ws3 c b a); [apply (IH l); simpl; lia|done].
Qed.

Lemma trim_nonblank s : trim (String "t" s) ≠ "".
Proof.
  unfold trim. set (l := drop_ws _).
  assert (l = bytes (String "t" s)) as ->.
  { subst l. change (bytes (String "t" s)) with ("t"%char :: bytes s).
    cbn [drop_ws]. change (ws1 "t") with false. destruct (bytes s) as [|b [|c k]]; [done| |];
      change (ws2 "t" b) with false; [done|]. by change (ws3 "t" b c) with false. }
  change (bytes (String "t" s)) with ("t"%char :: bytes s). cbn [rev]. intros Hof. apply (f_equal bytes) in Hof. rewrite bytes_of_bytes in Hof.
  apply (drop_ws_rev_last (rev (bytes s))).
  rewrite <- (rev_involutive (drop_ws_rev _)). by rewrite Hof.
Qed.

Lemma native_id_nonblank id : is_native_event_id id = true → is_empty (trim id) = false.
Proof.
  unfold is_native_event_id, Rstr.strip_prefix. destruct id as [|a id]; [done|].
  cbn [bytes String.list_ascii_of_string strip_prefix_b]. destruct (Ascii.eqb_spec "t"%char a);
    [subst|done]. intros _. destruct (is_empty (trim (String "t" id))) eqn:He; [|done].
  apply is_empty_spec in He. by apply trim_nonblank in He.
Qed.

(** ** Without faults every step returns *)

Section total.
Context `{Digest, Diagnostics, JsonCodec, PathResolver} `{!DigestLaws}.

Lemma no_faults_try context subject : io_try no_faults context subject = Ok tt.
Proof. done. Qed.

Lemma get_event_total db e ev :
  db_wf db → db_events db !! e = Some ev →
  get_event no_faults db e =
  Ok (Some {| oe_event_id := e; oe_payload := ev_payload ev;
              oe_payload_hash := ev_payload_hash ev; oe_created_at := ev_created_at ev |}).
Proof.
  intros Hwf He. destruct (wf_events _ Hwf _ _ He) as [Hh Hv].
  unfold get_event. rewrite no_faults_try, He. unfold hash32. rewrite Hh, sha256_length.
  cbn [Nat.eqb]. rewrite bool_decide_false by (intros Hne; done). by rewrite Hv.
Qed.

(** A sink identity that [next_ready_delivery] accepts as it is. *)
Definition sink_valid (s : string) : Prop := is_ok (validate_sink_ids [s] false) = true.

Lemma sink_valid_trim s : sink_valid s → is_empty (trim s) = false.
Proof.
  unfold sink_valid. destruct (validate_sink_ids [s] false) eqn:Hv; [|done]. intros _.
  apply validate_sink_ids_Ok in Hv as [_ Hok]. inversion Hok as [|? ? [Hne _] _]; subst.
  destruct (is_empty (trim s)) eqn:He; [|done]. apply is_empty_spec in He. done.
Qed.

Lemma next_ready_total db s now :
  db_wf db → sink_valid s →
  ∃ r, next_ready_delivery no_faults db s now = Ok r.
Proof.
  intros Hwf Hs. unfold next_ready_delivery. unfold sink_valid in Hs.
  destruct (validate_sink_ids [s] false); [|done]. rewrite no_faults_try.
  destruct (select_ready db s now) as [[[e s'] row]|] eqn:Hsel; [|eauto].
  apply select_ready_Some in Hsel as (Hr & _ & Hs'). simpl in Hs'. subst s'.
  destruct (wf_deliveries _ Hwf _ _ Hr) as [[ev He] [_ [st [-> _]] Ha [c Hc]]]. simpl in He.
  rewrite state_from_as_str. cbn [ok_or]. unfold u32_of_i64.
  rewrite (proj2 (Z.leb_le _ _)), (proj2 (Z.leb_le _ _)) by lia. cbn [andb].
  rewrite Hc, (get_event_total _ _ _ Hwf He). cbn [ok_or]. eauto.
Qed.

Lemma record_total db e s u :
  is_empty (trim e) = false → is_empty (trim s) = false →
  is_Some (db_deliveries db !! (e, s)) → 0 ≤ du_updated_at u →
  (du_state u ≠ Pending → du_next_attempt_at u = None) →
  (∀ t, du_next_attempt_at u = Some t → 0 ≤ t) →
  ∃ db', record_body no_faults e s u db = Ok (db', tt).
Proof.
  intros He Hs [row Hrow] Hup Hterm Hnext. unfold record_body. rewrite He, Hs. cbn [orb].
  destruct (negb (bool_decide (du_state u = Pending)) && is_some (du_next_attempt_at u)) eqn:Hb.
  { apply andb_true_iff in Hb as [Hst Hn]. apply negb_true_iff, bool_decide_eq_false in Hst.
    by rewrite (Hterm Hst) in Hn. }
  assert (match du_next_attempt_at u with Some v => v <? 0 | None => false end = false) as ->.
  { destruct (du_next_attempt_at u) as [t|]; [|done]. apply Z.ltb_ge. auto. }
  destruct (encode_error_class (du_last_error_class u)) as [ec es]. rewrite !no_faults_try, Hrow.
  set (db2 := init_sink_health s _).
  assert (∃ db3, (if bool_decide (du_state u = Acked)
    then record_success no_faults (du_updated_at u) s db2 else Ok db2) = Ok db3) as [db3 ->].
  { destruct (bool_decide (du_state u = Acked)); [|eauto]. unfold record_success. rewrite no_faults_try.
    destruct (db_sink_health db2 !! s); [|eauto]. rewrite (proj2 (Z.ltb_ge (du_updated_at u) 0)) by lia. eauto. }
  assert (∃ db4, (if is_some (du_last_error_class u)
    then record_error no_faults (du_updated_at u) ec es s db3 else Ok db3) = Ok db4) as [db4 ->];
    [|eauto].
  destruct (is_some (du_last_error_class u)); [|eauto]. unfold record_error. rewrite no_faults_try.
  destruct (db_sink_health db3 !! s); [|eauto]. rewrite (proj2 (Z.ltb_ge (du_updated_at u) 0)) by lia. eauto.
Qed.

(** A transport that never reports a failure of local storage. *)
Definition transport_ok (transport : Transport) : Prop :=
  ∀ s p e, transport s p = Err e →
    (delivery_error_details e).1 ≠ DurableStorage ∧ class_in_range (delivery_error_details e).1.

Lemma refine_class_in_range c : class_in_range c → class_in_range (refine_class c).
Proof. destruct c; simpl; try done. by destruct (_ || _). Qed.

Lemma attempt_update_total transport now entry payload attempt :
  transport_ok transport →
  ∃ u, attempt_update transport now entry payload attempt = Some u ∧
    (∀ c, du_last_error_class u = Some c → class_in_range c) ∧
    (du_state u ≠ Pending → du_next_attempt_at u = None).
Proof.
  intros Htr. unfold attempt_update.
  destruct (is_delivery_failure_alert_payload payload); [eexists; split; [done|]; done|].
  destruct (transport (se_name entry) payload) as [[]|e] eqn:He; [eexists; split; [done|]; done|].
  destruct (Htr _ _ _ He) as [Hne Hr]. rewrite bool_decide_false by done.
  destruct (failure_state _ _ _ _) as [state next] eqn:Hf. eexists. split; [done|]. simpl. split.
  - intros c [= <-]. by apply refine_class_in_range.
  - revert Hf. unfold failure_state. intros Hf Hst. repeat case_match; by simplify_eq.
Qed.

(** The attempt on a selected delivery returns, and records its outcome. *)
Lemma dispatch_one_total transport now entry s ready st :
  transport_ok transport → clock_ok now → sink_valid s → db_wf (w_db (ds_world st)) →
  next_ready_delivery no_faults (w_db (ds_world st)) s now = Ok (Some ready) →
  dr_attempts (rd_row ready) < u32_max →
  ∃ st' u,
    dispatch_one no_faults transport now entry s ready st = (st', Ok tt) ∧
    attempt_update transport now entry (rd_payload ready) (dr_attempts (rd_row ready) + 1) = Some u ∧
    db_deliveries (w_db (ds_world st')) =
      <[(dr_event_id (rd_row ready), s) := updated_row u]>
        (db_deliveries (w_db (ds_world st))) ∧
    db_wf (w_db (ds_world st')).
Proof.
  intros Htr Hclock Hs Hwf Hn Hatt.
  pose proof (next_ready_Some _ _ _ _ _ Hn) as (row & ev & Hrow & Hdue & Ha & Hra & He & Hp).
  set (e := dr_event_id (rd_row ready)) in *.
  destruct (attempt_update_total transport now entry (rd_payload ready)
    (dr_attempts (rd_row ready) + 1) Htr) as (u & Hu & Hcls & Hterm).
  pose proof (attempt_update_facts _ _ _ _ _ _ Hu) as (Hua & Hun & Hup & _).
  assert (update_ok u) as Hok by (split; [rewrite Hua; lia|done]).
  assert (∀ st1, ds_world st1 = ds_world st →
    ∃ st2, record_outcome no_faults s u e st1 = (st2, Ok tt) ∧
      db_deliveries (w_db (ds_world st2)) =
        <[(e, s) := updated_row u]> (db_deliveries (w_db (ds_world st))) ∧
      db_wf (w_db (ds_world st2))) as Hrec.
  { intros st1 Hw1. edestruct (record_total (w_db (ds_world st1)) e s u) as [db' Hdb'].
    - apply native_id_nonblank. destruct (wf_events _ Hwf _ _ He) as [_ Hv].
      by eapply validate_canonical_event_id.
    - by apply sink_valid_trim.
    - rewrite Hw1. eauto.
    - destruct Hclock. lia.
    - done.
    - intros t Ht. destruct (du_state u) eqn:Hst; try (rewrite Hterm in Ht; done).
      destruct (Hup eq_refl) as [_ Hnx]. rewrite Hnx in Ht. injection Ht as <-.
      pose proof (next_retry_at_bounds now (base_delay_ms (se_retry entry))
        (dr_attempts (rd_row ready) + 1) Hclock). destruct Hclock. lia.
    - exists (with_world {| w_db := db'; w_fs := w_fs (ds_world st1) |} st1).
      assert (record_outcome no_faults s u e st1 =
        (with_world {| w_db := db'; w_fs := w_fs (ds_world st1) |} st1, Ok tt)) as Hro.
      { unfold record_outcome, record_delivery_at. by rewrite Hdb'. }
      split; [done|].
      apply record_outcome_rows in Hro as (_ & _ & _ & Hd). rewrite Hd, Hw1. split; [done|].
      pose proof (record_wf no_faults e s u (ds_world st1) Hok) as Hrw. rewrite Hw1 in Hrw.
      specialize (Hrw Hwf). unfold record_delivery_at in Hrw. rewrite Hw1 in Hdb'.
      rewrite Hdb' in Hrw. done. }
  exists (dispatch_one no_faults transport now entry s ready st).1, u.
  unfold dispatch_one. rewrite (proj2 (Z.ltb_ge _ _)) by lia. fold e.
  revert Hu. unfold attempt_update.
  destruct (is_delivery_failure_alert_payload (rd_payload ready)).
  { intros [= Hu]. destruct (Hrec st eq_refl) as (st2 & Hr & Hd & Hw). rewrite Hu, Hr. done. }
  destruct (transport (se_name entry) (rd_payload ready)) as [[]|err] eqn:Herr.
  { intros [= Hu]. destruct (Hrec (sent s e st) eq_refl) as (st2 & Hr & Hd & Hw).
    rewrite Hu, Hr. done. }
  destruct (delivery_error_details err) as [class message]. cbn [fst].
  destruct (bool_decide _); [done|]. destruct (failure_state _ _ _ _) as [state next].
  intros [= Hu]. destruct (Hrec (sent s e st) eq_refl) as (st2 & Hr & Hd & Hw).
  rewrite Hu, Hr. done.
Qed.

End total.

(** ** Attempts left *)

Section measure.
Context `{Digest, Diagnostics, JsonCodec, PathResolver} `{!DigestLaws}.

(** Attempts a row may still take: none unless it is pending. *)
Definition row_weight (limit : Z) (row : DeliveryCols) : nat :=
  if str_eqb (dl_state row) "pending" then Z.to_nat (Z.max 1 (limit - dl_attempt_count row)) else O.

Definition attempt_limit (entry : SinkEntry) : Z := Z.max (max_attempts (se_retry entry)) 1.

(** Attempts the row of a configured sink may still take. *)
Definition key_weight (set : SinkSet) (key : string * string) (row : DeliveryCols) : nat :=
  match find_entry (ss_entries set) key.2 with
  | Some entry => if str_in key.2 (ss_durable_sink_ids set)
                  then row_weight (attempt_limit entry) row else O
  | None => O
  end.

Definition attempts_left (set : SinkSet) (db : Db) : nat :=
  map_fold (λ key row n, key_weight set key row + n)%nat O (db_deliveries db).

Lemma attempts_left_insert set m key row row' :
  m !! key = Some row →
  (map_fold (λ k r n, key_weight set k r + n) O (<[key := row']> m) + key_weight set key row =
   map_fold (λ k r n, key_weight set k r + n) O m + key_weight set key row')%nat.
Proof.
  intros Hk. set (f := λ k r n, (key_weight set k r + n)%nat).
  rewrite <- (insert_delete_eq m key row').
  rewrite <- (insert_delete_id m key row Hk) at 2.
  rewrite (map_fold_insert_L f O key row' (delete key m));
    [|intros; subst f; simpl; lia|apply lookup_delete_eq].
  rewrite (map_fold_insert_L f O key row (delete key m));
    [|intros; subst f; simpl; lia|apply lookup_delete_eq].
  unfold f. lia.
Qed.

(** An attempt uses up at least one. *)
Lemma row_step_weight transport now entry payload row row' :
  0 ≤ dl_attempt_count row →
  row_step transport now entry payload row row' →
  (row_weight (attempt_limit entry) row' < row_weight (attempt_limit entry) row)%nat.
Proof.
  intros Ha Hs. apply row_step_settled in Hs as ([Hp _] & Hc & _ & Hset).
  unfold row_weight, attempt_limit. rewrite Hp, Hc.
  change (str_eqb "pending" "pending") with true. cbv iota.
  destruct Hset as [_ Hst _ _|_ _ Hst _ _|e _ _ _ Hlt Hst _ _|e _ _ _ Hst _ _|e _ _ _ _ _ Hst _ _]; rewrite Hst;
    match goal with |- context [str_eqb ?a ?b] =>
      let v := eval vm_compute in (str_eqb a b) in change (str_eqb a b) with v end;
    cbv iota; lia.
Qed.

(** Pending rows have attempts left in 32 bits, and are due by [t]. *)
Definition rows_ok (t : Z) (db : Db) : Prop :=
  ∀ key row, db_deliveries db !! key = Some row → dl_state row = "pending" →
    dl_attempt_count row < u32_max ∧
    match dl_next_attempt_at row with None => True | Some next => next ≤ t end.

(** Every durable sink is configured under a valid identity, with 32-bit attempts. *)
Definition set_ok (set : SinkSet) : Prop :=
  ∀ s, s ∈ ss_durable_sink_ids set → sink_valid s ∧
    ∃ entry, find_entry (ss_entries set) s = Some entry ∧ max_attempts (se_retry entry) ≤ u32_max.

Definition due_row (set : SinkSet) (s : string) (now : Z) (db : Db) : Prop :=
  ∃ e row, db_deliveries db !! (e, s) = Some row ∧ due now row.

(** What [n] rows of a sink's share leave: fewer attempts, or nothing was due. *)
Definition progress (set : SinkSet) (t now : Z) (ids : list string) (w w' : World) : Prop :=
  db_wf (w_db w') ∧ rows_ok t (w_db w') ∧
  ((attempts_left set (w_db w') < attempts_left set (w_db w))%nat ∧ (∃ s, s ∈ ss_durable_sink_ids set ∧ due_row set s now (w_db w)) ∨
   w' = w ∧ ∀ s, s ∈ ids → ¬ due_row set s now (w_db w)).

Lemma attempt_progress transport t now set s entry ready st :
  now + MAX_RETRY_DELAY_MILLIS ≤ t → transport_ok transport → clock_ok now → set_ok set → s ∈ ss_durable_sink_ids set →
  find_entry (ss_entries set) s = Some entry →
  db_wf (w_db (ds_world st)) →
  rows_ok t (w_db (ds_world st)) →
  next_ready_delivery no_faults (w_db (ds_world st)) s now = Ok (Some ready) →
  ∃ st', dispatch_one no_faults transport now entry s ready st = (st', Ok tt) ∧
    db_wf (w_db (ds_world st')) ∧
    rows_ok t (w_db (ds_world st')) ∧
    (attempts_left set (w_db (ds_world st')) < attempts_left set (w_db (ds_world st)))%nat ∧
    due_row set s now (w_db (ds_world st)).
Proof.
  intros Hbound Htr Hclock Hset Hin Hfind Hwf Hrows Hn.
  pose proof (next_ready_Some _ _ _ _ _ Hn) as (row & ev & Hrow & Hdue & Ha & Hra & He & Hp).
  destruct (Hset s Hin) as [Hs (entry' & Hf' & Hmax)]. rewrite Hfind in Hf'. injection Hf' as <-.
  destruct (Hrows _ _ Hrow (proj1 Hdue)) as [Hlt _].
  destruct (dispatch_one_total transport now entry s ready st) as (st' & u & Hd & Hu & Hdel & Hwf');
    [done..|lia|].
  pose proof (attempt_update_facts _ _ _ _ _ _ Hu) as (Hua & _ & Hup & _). rewrite Ha in Hua, Hup.
  assert (row_step transport now entry (rd_payload ready) row (updated_row u)) as Hstep.
  { split; [done|]. exists u. by rewrite <- Ha. }
  exists st'. split_and!; [done|done| | |by exists (dr_event_id (rd_row ready)), row].
  - intros key row'. rewrite Hdel. destruct (decide (key = (dr_event_id (rd_row ready), s))) as [->|Hne].
    + rewrite lookup_insert_eq. intros [= <-] Hst. simpl in Hst |- *.
      destruct (du_state u) eqn:Hsu; try done. destruct (Hup eq_refl) as [Hlim Hnx].
      rewrite Hnx, Hua. split; [lia|].
      pose proof (next_retry_at_bounds now (base_delay_ms (se_retry entry))
        (dl_attempt_count row + 1) Hclock). lia.
    + rewrite lookup_insert_ne by done. apply Hrows.
  - unfold attempts_left. rewrite Hdel.
    pose proof (attempts_left_insert set _ _ row (updated_row u) Hrow) as Hsum.
    assert (key_weight set (dr_event_id (rd_row ready), s) (updated_row u) <
            key_weight set (dr_event_id (rd_row ready), s) row)%nat; [|lia].
    unfold key_weight. simpl. rewrite Hfind. rewrite (proj2 (str_in_spec _ _)) by done.
    eapply row_step_weight; [lia|done].
Qed.

Lemma dispatch_rows_progress transport time_up t now set s entry n k st :
  now + MAX_RETRY_DELAY_MILLIS ≤ t → transport_ok transport → clock_ok now → set_ok set → s ∈ ss_durable_sink_ids set →
  find_entry (ss_entries set) s = Some entry →
  db_wf (w_db (ds_world st)) →
  rows_ok t (w_db (ds_world st)) →
  ∃ st', dispatch_rows no_faults transport time_up n k now entry s st = (st', Ok tt) ∧
    progress set t now (if (0 <? n)%nat && (k =? 0)%nat then [s] else [])
      (ds_world st) (ds_world st').
Proof.
  intros Hbound Htr Hclock Hset Hin Hfind. revert k st.
  induction n as [|n IH]; intros k st Hwf Hrows; cbn [dispatch_rows].
  { exists st. split; [done|]. split_and!; [done|done|]. right. split; [done|].
    intros s' Hs'. simpl in Hs'. set_solver. }
  destruct ((0 <? k)%nat && time_up s k) eqn:Hk.
  { exists st. split; [done|]. split_and!; [done|done|]. right. split; [done|].
    apply andb_true_iff in Hk as [Hk%Nat.ltb_lt _].
    rewrite (proj2 (Nat.eqb_neq k 0)) by lia. rewrite andb_false_r. set_solver. }
  destruct (next_ready_total (w_db (ds_world st)) s now Hwf (proj1 (Hset s Hin))) as [r Hr].
  rewrite Hr. destruct r as [ready|].
  - destruct (attempt_progress transport t now set s entry ready st)
      as (st1 & -> & Hwf1 & Hrows1 & Hlt1 & Hdue); [done..|].
    destruct (IH (S k) st1 Hwf1 Hrows1) as (st' & Hd & Hwf' & Hrows' & Hp). exists st'.
    split; [done|]. split_and!; [done|done|]. left. split; [destruct Hp as [[Hlt _]|[-> _]]; lia|by exists s].
  - exists st. split; [done|]. split_and!; [done|done|]. right. split; [done|].
    intros s' Hs'. assert (s' = s) as ->.
    { revert Hs'. destruct ((0 <? S n)%nat && (k =? 0)%nat); set_solver. }
    intros (e & row & Hrow & Hdue). apply next_ready_None in Hr.
    pose proof (select_ready_None _ _ _ _ _ Hr Hrow) as Hnot.
    by rewrite (proj2 (is_ready_due s now e s row)) in Hnot.
Qed.

Lemma dispatch_sinks_progress transport time_up t now set ids st :
  now + MAX_RETRY_DELAY_MILLIS ≤ t → transport_ok transport → clock_ok now → set_ok set →
  (∀ s, s ∈ ids → s ∈ ss_durable_sink_ids set) →
  db_wf (w_db (ds_world st)) →
  rows_ok t (w_db (ds_world st)) →
  ∃ st', dispatch_sinks no_faults transport time_up now (ss_entries set) ids st = (st', Ok tt) ∧
    progress set t now ids (ds_world st) (ds_world st').
Proof.
  intros Hbound Htr Hclock Hset. revert st.
  induction ids as [|s ids IH]; intros st Hsub Hwf Hrows; cbn [dispatch_sinks].
  { exists st. split; [done|]. split_and!; [done|done|]. right. set_solver. }
  assert (s ∈ ss_durable_sink_ids set) as Hin by (apply Hsub; set_solver).
  destruct (Hset s Hin) as [Hs (entry & Hfind & Hmax)].
  pose proof Hfind as Hfind'. unfold find_entry in Hfind'. rewrite Hfind'.
  destruct (dispatch_rows_progress transport time_up t now set s entry MAX_ROWS_PER_SINK 0 st)
    as (st1 & -> & Hwf1 & Hrows1 & Hp1); [done..|].
  destruct (IH st1) as (st' & Hd & Hwf' & Hrows' & Hp'); [set_solver|done|done|].
  exists st'. split; [done|]. split_and!; [done|done|].
  change ((0 <? MAX_ROWS_PER_SINK)%nat && (0 =? 0)%nat) with true in Hp1. cbv iota in Hp1.
  destruct Hp1 as [[Hlt1 Hd1]|[Hw1 Hn1]], Hp' as [[Hlt' Hd']|[Hw' Hn']].
  - left. split; [lia|done].
  - left. split; [rewrite Hw'; lia|done].
  - left. by rewrite <- Hw1.
  - right. split; [congruence|]. intros s' [->|Hs']%elem_of_cons; [apply Hn1; set_solver|].
    rewrite <- Hw1. by apply Hn'.
Qed.

End measure.

(** ** Dispatching until nothing is pending *)

Section drain.
Context `{Digest, Diagnostics, JsonCodec, PathResolver} `{!DigestLaws}.

(** One dispatch: the transports, the time shares and the wall clock. *)
Record Round := {
  rnd_transport : Transport;
  rnd_time_up : string → nat → bool;
  rnd_now : Z;
}.

Definition run_round (set : SinkSet) (w : World) (rnd : Round) : World :=
  (dispatch_durable_with_outbox no_faults (rnd_transport rnd) (rnd_time_up rnd) (rnd_now rnd)
     set w).1.1.

Definition run_rounds (set : SinkSet) (rounds : list Round) (w : World) : World :=
  foldl (run_round set) w rounds.

(** Rounds a retry delay apart, the first at [t] or later. *)
Fixpoint rounds_ok (t : Z) (rounds : list Round) : Prop :=
  match rounds with
  | [] => True
  | rnd :: rest =>
      transport_ok (rnd_transport rnd) ∧ clock_ok (rnd_now rnd) ∧ t ≤ rnd_now rnd ∧
      rounds_ok (rnd_now rnd + MAX_RETRY_DELAY_MILLIS) rest
  end.

Lemma rows_ok_mono t t' db : t ≤ t' → rows_ok t db → rows_ok t' db.
Proof.
  intros Hle Hok key row Hr Hp. destruct (Hok key row Hr Hp) as [? Hn]. split; [done|].
  destruct (dl_next_attempt_at row); [lia|done].
Qed.

Lemma round_progress set w rnd t :
  set_ok set → transport_ok (rnd_transport rnd) → clock_ok (rnd_now rnd) → t ≤ rnd_now rnd →
  db_wf (w_db w) → rows_ok t (w_db w) →
  progress set (rnd_now rnd + MAX_RETRY_DELAY_MILLIS) (rnd_now rnd) (ss_durable_sink_ids set) w (run_round set w rnd).
Proof.
  intros Hset Htr Hclock Ht Hwf Hrows. unfold run_round, dispatch_durable_with_outbox.
  destruct (dispatch_sinks_progress (rnd_transport rnd) (rnd_time_up rnd)
    (rnd_now rnd + MAX_RETRY_DELAY_MILLIS) (rnd_now rnd) set (ss_durable_sink_ids set) {| ds_world := w; ds_failures := []; ds_sent := [] |})
    as (st' & -> & Hp); [done..| |done].
  eapply rows_ok_mono; [|done]. unfold MAX_RETRY_DELAY_MILLIS. lia.
Qed.

Lemma key_weight_pending set e s row entry :
  find_entry (ss_entries set) s = Some entry → s ∈ ss_durable_sink_ids set →
  dl_state row = "pending" → (0 < key_weight set (e, s) row)%nat.
Proof.
  intros Hf Hin Hst. unfold key_weight, row_weight. simpl.
  rewrite Hf, (proj2 (str_in_spec _ _)), Hst by done.
  change (str_eqb "pending" "pending") with true. cbv iota. lia.
Qed.

(** A pending delivery of a configured sink has attempts left. *)
Lemma attempts_left_pending set db e s row :
  set_ok set → s ∈ ss_durable_sink_ids set →
  db_deliveries db !! (e, s) = Some row → dl_state row = "pending" →
  (0 < attempts_left set db)%nat.
Proof.
  intros Hset Hin Hrow Hst. destruct (Hset s Hin) as [_ (entry & Hf & _)].
  pose proof (key_weight_pending set e s row entry Hf Hin Hst) as Hw.
  pose proof (attempts_left_insert set _ _ row
    {| dl_state := "acked"; dl_attempt_count := 0; dl_next_attempt_at := None;
       dl_last_error_class := None; dl_last_error_status := None; dl_updated_at := 0 |} Hrow) as Hsum.
  assert (key_weight set (e, s)
    {| dl_state := "acked"; dl_attempt_count := 0; dl_next_attempt_at := None;
       dl_last_error_class := None; dl_last_error_status := None; dl_updated_at := 0 |} = O) as Hz.
  { unfold key_weight, row_weight. simpl. rewrite Hf. by destruct (str_in _ _). }
  unfold attempts_left. lia.
Qed.

Lemma run_rounds_drain set rounds t w :
  set_ok set → rounds_ok t rounds → db_wf (w_db w) → rows_ok t (w_db w) →
  db_wf (w_db (run_rounds set rounds w)) ∧
  (attempts_left set (w_db (run_rounds set rounds w)) ≤
   attempts_left set (w_db w) - length rounds)%nat.
Proof.
  intros Hset. revert t w; induction rounds as [|rnd rounds IH]; intros t w Hr Hwf Hrows.
  { simpl. split; [done|lia]. }
  destruct Hr as (Htr & Hclock & Ht & Hrest).
  destruct (round_progress set w rnd t) as (Hwf' & Hrows' & Hp); [done..|].
  destruct (IH _ (run_round set w rnd) Hrest Hwf' Hrows') as [Hwf2 Hle].
  change (run_rounds set (rnd :: rounds) w) with (run_rounds set rounds (run_round set w rnd)).
  split; [done|]. cbn [length].
  destruct Hp as [[Hlt _]|[Hw Hnone]]; [lia|]. rewrite Hw in *.
  destruct (attempts_left set (w_db w)) eqn:Hz; [lia|].
  assert (∃ key row, db_deliveries (w_db w) !! key = Some row ∧ key_weight set key row ≠ O)
    as (key & row & Hrow & Hk).
  { clear -Hz. unfold attempts_left in Hz. revert n Hz.
    apply (map_fold_weak_ind (λ v m, ∀ n, v = S n →
      ∃ key row, m !! key = Some row ∧ key_weight set key row ≠ O)); [done|].
    intros key row m v Hm IHm n Hn. destruct (key_weight set key row) eqn:Hk.
    - destruct (IHm n) as (key' & row' & Hr & Hk'); [lia|]. exists key', row'.
      rewrite lookup_insert_ne by congruence. done.
    - exists key, row. rewrite lookup_insert_eq. split; [done|lia]. }
  destruct key as [e s]. unfold key_weight in Hk. simpl in Hk.
  destruct (find_entry (ss_entries set) s); [|done].
  destruct (str_in s (ss_durable_sink_ids set)) eqn:Hin; [|done]. apply str_in_spec in Hin.
  unfold row_weight in Hk. destruct (str_eqb (dl_state row) "pending") eqn:Hst; [|done].
  apply str_eqb_spec in Hst. exfalso. apply (Hnone s Hin). exists e, row.
  split; [done|]. split; [done|]. destruct (Hrows _ _ Hrow Hst) as [_ Hnx].
  destruct (dl_next_attempt_at row); [lia|done].
Qed.

(** Pending rows have attempts left in 32 bits. *)
Definition attempts_ok (db : Db) : Prop :=
  ∀ key row, db_deliveries db !! key = Some row → dl_state row = "pending" → dl_attempt_count row < u32_max.

(** Every row of a finite table is due by some time. *)
Lemma attempts_rows_ok m db : attempts_ok db → ∃ t, m ≤ t ∧ rows_ok t db.
Proof.
  intros Ha.
  assert (∃ t, m ≤ t ∧ ∀ key row, db_deliveries db !! key = Some row →
    match dl_next_attempt_at row with None => True | Some next => next ≤ t end) as (t & Hm & Ht).
  { clear Ha. induction (db_deliveries db) as [|key row rows _ (t & Hm & Ht)] using map_ind.
    - exists m. split; [lia|]. intros key row Hr. by rewrite lookup_empty in Hr.
    - exists (Z.max t (default m (dl_next_attempt_at row))). split; [lia|]. intros key' row'.
      rewrite lookup_insert_Some. intros [[_ <-]|[_ Hr]].
      + destruct (dl_next_attempt_at row); cbn; [lia|done].
      + specialize (Ht _ _ Hr). destruct (dl_next_attempt_at row'); [lia|done]. }
  exists t. split; [done|]. intros key row Hr Hp. split; [by eapply Ha|by eapply Ht].
Qed.

(** C29: a dispatch ends and makes progress.  Without faults, over well-formed tables,
    configured sinks and transports that do not report local storage failures, and whatever
    deliveries are still waiting for a retry, a dispatch returns its failures rather than an
    error and the tables stay well-formed.  If some delivery of a durable sink is due, the
    number of attempts the pending deliveries may still take strictly decreases; if none is,
    nothing changes. *)
Theorem dispatch_terminates set transport time_up now w :
  set_ok set → transport_ok transport → clock_ok now →
  db_wf (w_db w) → attempts_ok (w_db w) →
  let '(w', _, r) := dispatch_durable_with_outbox no_faults transport time_up now set w in
  (∃ failures, r = Ok failures) ∧ db_wf (w_db w') ∧ attempts_ok (w_db w') ∧
  ((∃ s e row, s ∈ ss_durable_sink_ids set ∧ db_deliveries (w_db w) !! (e, s) = Some row ∧ due now row) →
   (attempts_left set (w_db w') < attempts_left set (w_db w))%nat) ∧
  ((∀ s e row, s ∈ ss_durable_sink_ids set → db_deliveries (w_db w) !! (e, s) = Some row → ¬ due now row) →
   w' = w).
Proof.
  intros Hset Htr Hclock Hwf Hrows. unfold dispatch_durable_with_outbox.
  destruct (attempts_rows_ok (now + MAX_RETRY_DELAY_MILLIS) _ Hrows) as (t & Ht & Hrt).
  destruct (dispatch_sinks_progress transport time_up t now set (ss_durable_sink_ids set)
    {| ds_world := w; ds_failures := []; ds_sent := [] |}) as (st' & -> & Hwf' & Hrows' & Hp); [done..|].
  split_and!; [eauto|done|intros key row Hr Hpend; by apply (Hrows' key row)| |].
  - intros (s & e & row & Hs & Hrow & Hdue). destruct Hp as [[Hlt _]|[_ Hn]]; [done|].
    destruct (Hn s Hs). by exists e, row.
  - intros Hnone. destruct Hp as [[_ (s & Hs & e & row & Hrow & Hdue)]|[Hw _]]; [by destruct (Hnone s e row)|done].
Qed.

(** The queue drains.  Dispatches without faults, at least the maximal retry delay
    apart and as many as the attempts the pending deliveries may still take, leave no
    delivery of a durable sink pending, whatever the transports answer. *)
Theorem dispatch_drains set rounds t w :
  set_ok set → rounds_ok t rounds → db_wf (w_db w) → rows_ok t (w_db w) →
  (attempts_left set (w_db w) ≤ length rounds)%nat →
  ∀ e s row, s ∈ ss_durable_sink_ids set →
    db_deliveries (w_db (run_rounds set rounds w)) !! (e, s) = Some row →
    dl_state row ≠ "pending".
Proof.
  intros Hset Hr Hwf Hrows Hlen e s row Hs Hrow Hst.
  destruct (run_rounds_drain set rounds t w Hset Hr Hwf Hrows) as [_ Hle].
  pose proof (attempts_left_pending _ _ _ _ _ Hset Hs Hrow Hst). lia.
Qed.

End drain.

(** ** The theorems on a concrete outbox *)

Module DrainSample.
Export DispatchSample.

Lemma sinks_ok : set_ok sinks.
Proof.
  intros s Hs%list_elem_of_singleton. subst s. split; [vm_compute; reflexivity|].
  exists entry. split; [vm_compute; reflexivity|]. vm_compute. discriminate.
Qed.

Lemma transport_answers : transport_ok transport.
Proof.
  intros s p e. unfold transport. case_bool_decide; [done|]. intros [= <-]. by split.
Qed.

Lemma w1_rows : rows_ok 1000 (w_db w1).
Proof.
  intros key row. rewrite w1_deliveries. intros Hr _.
  assert (row = new_delivery 1000) as ->.
  { apply lookup_insert_Some in Hr as [[_ <-]|[_ Hr]]; [done|].
    apply lookup_singleton_Some in Hr as [_ <-]. done. }
  split; vm_compute; done.
Qed.

Definition rounds : list Round :=
  map (λ i, {| rnd_transport := transport; rnd_time_up := never;
               rnd_now := 1000 + i * MAX_RETRY_DELAY_MILLIS |}) [0; 1; 2; 3; 4; 5].

Lemma rounds_spaced : rounds_ok 1000 rounds.
Proof.
  unfold rounds. cbn [map rounds_ok rnd_transport rnd_now].
  repeat match goal with |- _ ∧ _ => split end; try exact transport_answers; try exact I;
    vm_compute; try split; discriminate.
Qed.

Lemma w1_attempts : attempts_left sinks (w_db w1) = 6%nat.
Proof. vm_compute. reflexivity. Qed.

Lemma dispatch_terminates_witness :
  let '(w', _, r) := dispatch_durable_with_outbox no_faults transport never 2000 sinks w1 in
  (∃ failures, r = Ok failures) ∧ db_wf (w_db w').
Proof.
  pose proof (dispatch_terminates sinks transport never 2000 w1) as Ht.
  destruct (dispatch_durable_with_outbox no_faults transport never 2000 sinks w1) as [[w' x] r].
  destruct Ht as (Hr & Hw & _).
  - exact sinks_ok.
  - exact transport_answers.
  - split; vm_compute; discriminate.
  - exact w1_wf.
  - intros key row Hr Hp. exact (proj1 (w1_rows key row Hr Hp)).
  - exact (conj Hr Hw).
Defined.

Lemma dispatch_drains_witness :
  ∃ row, db_deliveries (w_db (run_rounds sinks rounds w1)) !! (id_b, "hec") = Some row ∧
    dl_state row ≠ "pending".
Proof.
  assert (∃ row, db_deliveries (w_db (run_rounds sinks rounds w1)) !! (id_b, "hec") = Some row)
    as [row Hrow] by (eexists; vm_compute; reflexivity).
  exists row. split; [exact Hrow|].
  apply (dispatch_drains sinks rounds 1000 w1) with (e := id_b) (s := "hec") (row := row).
  - exact sinks_ok.
  - exact rounds_spaced.
  - exact w1_wf.
  - exact w1_rows.
  - rewrite w1_attempts. done.
  - apply list_elem_of_singleton. reflexivity.
  - exact Hrow.
Defined.

End DrainSample.

