(* ===== verification/OutboxSystem.v ===== *)
(** * The outbox as a system

    The outbox's operations in any order, with any faults, while the journal's files
    change underneath: the tables stay well-formed, stored values can be read back, and
    what is settled stays settled.  Reconciliation is then shown to store exactly the
    records it read, and, with dispatching, to settle every one of them. *)

From S2P Require Import Prelude Ordered Rstr Json Delivery Journal Outbox OutboxInv OutboxPrune.
From S2P Require Import OutboxPruneSafe Dispatch DispatchInv DispatchLive.
From stdpp Require Import gmap relations.
From Stdlib Require Import Ascii.

Local Open Scope Z_scope.

(** ** Dispatching keeps the tables well-formed *)

Section dispatch_wf.
Context `{Digest, Diagnostics, JsonCodec, PathResolver} `{!DigestLaws}.
Context (io : Io) (transport : Transport) (time_up : string → nat → bool).

(** HTTP status codes have 16 bits. *)
Definition transport_typed : Prop :=
  ∀ s p e, transport s p = Err e → class_in_range (delivery_error_details e).1.

Lemma record_outcome_wf s u e st :
  update_ok u → db_wf (w_db (ds_world st)) →
  db_wf (w_db (ds_world (record_outcome io s u e st).1)).
Proof.
  intros Hu Hwf. pose proof (record_wf io e s u (ds_world st) Hu Hwf) as Hr.
  unfold record_outcome. by destruct (record_delivery_at io e s u (ds_world st)).
Qed.

Lemma dispatch_one_wf now entry s ready st :
  transport_typed → 0 ≤ dr_attempts (rd_row ready) → db_wf (w_db (ds_world st)) →
  db_wf (w_db (ds_world (dispatch_one io transport now entry s ready st).1)).
Proof.
  intros Htr Ha Hwf. unfold dispatch_one.
  destruct (Z.ltb_spec u32_max (dr_attempts (rd_row ready) + 1)); [done|].
  destruct (is_delivery_failure_alert_payload _).
  { apply record_outcome_wf; [|done]. split; simpl; [lia|done]. }
  destruct (transport _ _) as [[]|err] eqn:Herr.
  { apply record_outcome_wf; [|done]. split; simpl; [lia|done]. }
  apply Htr in Herr. destruct (delivery_error_details err) as [class message]. simpl in Herr.
  case_bool_decide; [done|]. destruct (failure_state _ _ _ _) as [state next].
  match goal with |- context [record_outcome io s ?u ?e ?st1] =>
    pose proof (record_outcome_wf s u e st1) as Hr; destruct (record_outcome io s u e st1) as [st2 r2]
  end.
  simpl in Hr. destruct r2; simpl; apply Hr; try done;
    (split; simpl; [lia|]; intros c [= <-]; by apply refine_class_in_range).
Qed.

Lemma dispatch_rows_wf n k now entry s st :
  transport_typed → db_wf (w_db (ds_world st)) →
  db_wf (w_db (ds_world (dispatch_rows io transport time_up n k now entry s st).1)).
Proof.
  intros Htr. revert k st; induction n as [|n IH]; intros k st Hwf; cbn [dispatch_rows]; [done|].
  destruct (_ && _); [done|].
  destruct (next_ready_delivery _ _ _ _) as [[ready|]|] eqn:Hn; [|done..].
  apply next_ready_Some in Hn as (row & _ & _ & _ & Ha & Hra & _).
  pose proof (dispatch_one_wf now entry s ready st Htr) as Hd.
  destruct (dispatch_one _ _ _ _ _ _ _) as [st1 [[]|]]; simpl in Hd; [apply IH|]; apply Hd;
    by try lia.
Qed.

Lemma dispatch_wf now set w :
  transport_typed → db_wf (w_db w) →
  db_wf (w_db (dispatch_durable_with_outbox io transport time_up now set w).1.1).
Proof.
  intros Htr Hwf. unfold dispatch_durable_with_outbox.
  set (st0 := {| ds_world := w; ds_failures := []; ds_sent := [] |}).
  assert (db_wf (w_db (ds_world st0))) as H0' by done. clearbody st0.
  enough (db_wf (w_db (ds_world (dispatch_sinks io transport time_up now (ss_entries set)
    (ss_durable_sink_ids set) st0).1))) as Hd.
  { by destruct (dispatch_sinks _ _ _ _ _ _ _). }
  revert st0 H0'; induction (ss_durable_sink_ids set) as [|s ids IH]; intros st Hst;
    cbn [dispatch_sinks]; [done|].
  destruct (List.find _ _) as [entry|]; [|done].
  pose proof (dispatch_rows_wf MAX_ROWS_PER_SINK 0 now entry s st Htr Hst) as Hr.
  destruct (dispatch_rows _ _ _ _ _ _ _ _ _) as [st1 [[]|]]; [by apply IH|done].
Qed.

End dispatch_wf.

(** ** Steps *)

Section system.
Context `{Digest, Diagnostics, JsonCodec, PathResolver} `{!DigestLaws}.

(** One operation of the outbox, with any faults, or a change of the journal's files
    by the program that writes them. *)
Inductive outbox_step : World → World → Prop :=
| step_journal w fs :
    outbox_step w {| w_db := w_db w; w_fs := fs |}
| step_reconcile io now log sinks w :
    0 ≤ now → outbox_step w (reconcile_jsonl io now log sinks w).1
| step_dispatch io transport time_up now set w :
    clock_ok now → transport_typed transport →
    outbox_step w (dispatch_durable_with_outbox io transport time_up now set w).1.1
| step_release io sink now w :
    outbox_step w (release_blocked_for_sink io sink now w).1
| step_prune io now log keep w :
    outbox_step w (prune_eligible_rotations io now log keep w).1.

(** Reached from a new outbox. *)
Definition reachable (w : World) : Prop :=
  ∃ ns fs, rtc outbox_step {| w_db := new_db ns; w_fs := fs |} w.

Lemma same_gens_wf db db' : same_but_generations db db' → decodes db' → db_wf db → db_wf db'.
Proof.
  intros Hs Hd [We Wd Wo Wg Wh Wc]. rewrite Hs in Hd |- *. by constructor.
Qed.

Lemma step_wf w w' : outbox_step w w' → db_wf (w_db w) → db_wf (w_db w').
Proof.
  intros [w0 fs|io now log sinks w0 Hn|io tr tu now set w0 Hc Ht|io s now w0|io now log keep w0] Hwf.
  - done.
  - by apply reconcile_wf.
  - by apply dispatch_wf.
  - by apply release_wf.
  - pose proof (prune_pass_step io now log keep w0) as P.
    eapply same_gens_wf; [apply (ps_db _ _ _ P)| |done].
    apply (ps_decodes _ _ _ P). intros ??. apply (wf_generations _ Hwf).
Qed.

Lemma reachable_wf w : reachable w → db_wf (w_db w).
Proof.
  intros (ns & fs & Hr).
  assert (db_wf (w_db {| w_db := new_db ns; w_fs := fs |})) as H0' by apply new_db_wf.
  revert H0'. induction Hr as [|w1 w2 w3 H12 _ IH]; [done|]. intros Hwf. by apply IH, (step_wf w1).
Qed.

(** ** Stored values can be read back *)

Lemma collect_total {A B E} (f : A → result B E) l :
  (∀ x, x ∈ l → ∃ y, f x = Ok y) → ∃ ys, collect f l = Ok ys.
Proof.
  induction l as [|x l IH]; intros Hf; simpl; [eauto|].
  destruct (Hf x) as [y ->]; [set_solver|]. destruct IH as [ys ->]; [set_solver|]. eauto.
Qed.

Lemma read_cursor_total db : db_wf db → ∃ c, read_ingest_cursor no_faults db = Ok c.
Proof.
  intros Hwf. unfold read_ingest_cursor. rewrite no_faults_try.
  destruct (db_cursor db) as [row|] eqn:Hc; [|eauto].
  destruct (wf_cursor _ Hwf _ Hc) as [[Hp Hw] Ht (Ho & Hl & Hs)].
  unfold hash32, u64_of_i64. rewrite Hp, Hw. cbn [Nat.eqb].
  destruct (Ht "journal namespace") as (-> & _). destruct (Ht "journal path hash") as (_ & -> & _).
  destruct (Ht "generation identity") as (_ & _ & ->).
  rewrite !(proj2 (Z.leb_le _ _)) by done. eauto.
Qed.

Lemma read_metadata_total db :
  db_wf db → ∃ ms, read_generation_metadata no_faults db = Ok ms.
Proof.
  intros Hwf. unfold read_generation_metadata. rewrite no_faults_try. apply collect_total.
  intros [id row] Hin%elem_of_map_to_list. by apply (wf_generations _ Hwf).
Qed.

Lemma decode_status class status c :
  decode_error_class class status = Ok c →
  match status with None => True | Some z => is_Some (u16_try_from z) end.
Proof.
  unfold decode_error_class. destruct status as [z|]; [|done]. destruct class; [|done].
  destruct (u16_try_from z); [eauto|done].
Qed.

Lemma sink_health_total db now s :
  db_wf db → ∃ h, sink_health_of no_faults db now s = Ok h.
Proof.
  intros Hwf. unfold sink_health_of. rewrite !no_faults_try.
  set (history := default empty_health (db_sink_health db !! s)).
  assert (∃ c, decode_error_class (hl_last_error_class history) (hl_last_error_status history) = Ok c)
    as [c Hc].
  { unfold history. destruct (db_sink_health db !! s) as [h|] eqn:Hh; [|by exists None].
    by apply (wf_health _ Hwf s). }
  rewrite Hc. apply decode_status in Hc.
  destruct (hl_last_error_status history) as [z|]; [destruct Hc as [u ->]|]; eauto.
Qed.

(** What is stored can be read back.  In every state the outbox reaches, by its
    operations in any order and with any faults, reading without a fault succeeds: the
    cursor, the generations, each event (found exactly when its row exists, with its
    digest verified), the next due delivery of any valid sink and the health of any
    valid list of sinks. *)
Theorem stored_values_typed w :
  reachable w →
  (∃ c, read_ingest_cursor no_faults (w_db w) = Ok c) ∧
  (∃ ms, read_generation_metadata no_faults (w_db w) = Ok ms) ∧
  (∀ e, ∃ r, get_event no_faults (w_db w) e = Ok r ∧ (is_Some r ↔ is_Some (db_events (w_db w) !! e)) ∧
     ∀ ev, r = Some ev → oe_payload_hash ev = sha256 (oe_payload ev)) ∧
  (∀ s now, sink_valid s → ∃ r, next_ready_delivery no_faults (w_db w) s now = Ok r) ∧
  (∀ sinks now, is_ok (validate_sink_ids sinks false) = true →
     ∃ hs, health no_faults false (w_db w) sinks now = Ok hs).
Proof.
  intros Hwf%reachable_wf. split_and!.
  - by apply read_cursor_total.
  - by apply read_metadata_total.
  - intros e. destruct (db_events (w_db w) !! e) as [row|] eqn:He.
    + rewrite (get_event_total _ _ _ Hwf He). eexists. split; [done|]. split; [by split; eauto|].
      intros ev [= <-]. by apply (wf_events _ Hwf e).
    + exists None. unfold get_event. rewrite no_faults_try, He. split; [done|]. split; [done|]. done.
  - intros s now Hs. by apply next_ready_total.
  - intros sinks now Hs. unfold health. cbn [ensure_durable_storage_supported_for_platform].
    destruct (validate_sink_ids sinks false) as [ids|]; [|done].
    destruct sinks as [|s0 l]; apply collect_total; intros s Hin; by apply sink_health_total.
Qed.

(** ** What is settled stays settled *)

(** The text of a settled delivery. *)
Definition final_state (row : DeliveryCols) : Prop :=
  dl_state row = "acked" ∨ dl_state row = "dead".

(** How the tables may develop. *)
Record evolves (db db' : Db) : Prop := {
  evo_events : db_events db ⊆ db_events db';
  evo_origins : db_event_origins db ⊆ db_event_origins db';
  evo_rows : ∀ key row, db_deliveries db !! key = Some row →
    ∃ row', db_deliveries db' !! key = Some row' ∧
      dl_attempt_count row ≤ dl_attempt_count row' ∧ (final_state row → row' = row);
  evo_pruned : ∀ id row, db_generations db !! id = Some row →
    gn_lifecycle row = "pruned" → db_generations db' !! id = Some row;
}.

Lemma evolves_refl db : evolves db db.
Proof. constructor; try done. intros key row Hr. exists row. split_and!; [done|lia|done]. Qed.

Lemma evolves_trans db1 db2 db3 : evolves db1 db2 → evolves db2 db3 → evolves db1 db3.
Proof.
  intros [E1 O1 R1 P1] [E2 O2 R2 P2]. constructor.
  - by transitivity (db_events db2).
  - by transitivity (db_event_origins db2).
  - intros key row Hr. destruct (R1 key row Hr) as (row' & Hr' & Ha & Hf).
    destruct (R2 key row' Hr') as (row'' & Hr'' & Ha' & Hf'). exists row''.
    split_and!; [done|lia|]. intros Hfin. rewrite Hf' by (by rewrite Hf). by apply Hf.
  - eauto.
Qed.

#[export] Instance evolves_preorder : PreOrder evolves.
Proof. split; [exact evolves_refl|exact evolves_trans]. Qed.

Lemma reconcile_evolves io now log sinks w :
  evolves (w_db w) (w_db (reconcile_jsonl io now log sinks w).1).
Proof.
  unfold reconcile_jsonl, transact.
  destruct (reconcile_body io now log sinks w) as [[db' r]|] eqn:Hr; [|apply evolves_refl]. simpl.
  apply reconcile_inv in Hr as (ids & cur & ns & db0 & _ & _ & P & Hcase).
  assert (evolves (w_db w) db0) as Hprep.
  { constructor.
    - by rewrite (pr_events _ _ _ _ _ P).
    - by rewrite (pr_origins _ _ _ _ _ P).
    - intros key row Hrow. exists row. rewrite (pr_deliveries _ _ _ _ _ P). split_and!; [done|lia|done].
    - intros id row Hrow _. eapply lookup_weaken; [done|apply (pr_gens_kept _ _ _ _ _ P)]. }
  destruct Hcase as [(_ & _ & -> & _)|(plan & Hplan & Ha & _)]; [done|].
  transitivity db0; [done|].
  destruct (apply_plan_spec _ _ _ _ _ _ _ _ _ _ Hplan Ha) as (db1 & I & ->).
  constructor; cbn [set_cursor db_events db_event_origins db_deliveries db_generations].
  - apply (ins_events_kept _ _ _ _ _ I).
  - rewrite (ins_origins _ _ _ _ _ I). set_solver.
  - intros [e s] row Hrow. exists row. rewrite (ins_deliveries _ _ _ _ _ I), Hrow.
    split_and!; [done|lia|done].
  - intros id row Hrow _. by rewrite (ins_generations _ _ _ _ _ I).
Qed.

(** A dispatch changes deliveries and health only. *)
Lemma dispatch_rows_change io transport time_up now set w :
  clock_ok now →
  ∃ T st0, dispatched transport now (ss_entries set) w T st0 ∧
    (dispatch_durable_with_outbox io transport time_up now set w).1.1 = ds_world st0.
Proof.
  intros Hclock. unfold dispatch_durable_with_outbox.
  destruct (dispatch_sinks _ _ _ _ _ _ _) as [st r] eqn:Hd. simpl.
  apply (dispatch_sinks_inv _ _ _ _ _ w _ []) in Hd as [T HT]; [|done|apply dispatched_init].
  exists T. destruct r as [[]|]; [by exists st|]. destruct HT as (st0 & D & Hw & _). by exists st0.
Qed.

Lemma dispatch_same_records io transport time_up now set w :
  clock_ok now →
  same_records (w_db w) (w_db (dispatch_durable_with_outbox io transport time_up now set w).1.1).
Proof.
  intros Hclock. destruct (dispatch_rows_change io transport time_up now set w Hclock)
    as (T & st0 & D & ->). apply (di_same _ _ _ _ _ _ D).
Qed.

Lemma dispatch_evolves io transport time_up now set w :
  clock_ok now →
  evolves (w_db w) (w_db (dispatch_durable_with_outbox io transport time_up now set w).1.1).
Proof.
  intros Hclock. destruct (dispatch_rows_change io transport time_up now set w Hclock)
    as (T & st0 & D & ->).
  destruct (di_same _ _ _ _ _ _ D) as (He & Ho & _ & Hg & _).
  constructor; [by rewrite He|by rewrite Ho| |by rewrite Hg].
  intros [e s] row Hrow. destruct (list_elem_of_dec (e, s) T) as [HT'|HT'].
  - destruct (di_step _ _ _ _ _ _ D e s HT') as (row0 & row' & ev & en & Hr0 & Hr' & _ & _ & Hs).
    assert (row0 = row) as -> by congruence. exists row'.
    apply row_step_settled in Hs as ([Hp _] & Ha & _). split_and!; [done|lia|].
    intros [Hf|Hf]; rewrite Hf in Hp; done.
  - exists row. rewrite (di_keep _ _ _ _ _ _ D) by done. split_and!; [done|lia|done].
Qed.

Lemma release_evolves io s now w : evolves (w_db w) (w_db (release_blocked_for_sink io s now w).1).
Proof.
  unfold release_blocked_for_sink, transact.
  destruct (release_body io s now (w_db w)) as [[db' n]|] eqn:Hr; [|apply evolves_refl]. simpl. revert Hr.
  unfold release_body. destruct (validate_sink_ids [s] false); [|done].
  destruct (ok_or _ _) as [s'|]; [|done].
  destruct (io_try_delivery _ _ _); [|done]. destruct (io_try_delivery _ _ _); [|done].
  destruct (io_try_delivery _ _ _); [|done]. intros [= <- _].
  constructor; simpl; try done. intros key row Hrow. exists (release_row s' now key row).
  rewrite map_lookup_imap, Hrow. simpl. split; [done|]. unfold release_row, is_blocked_for.
  destruct (str_eqb _ _ && str_eqb (dl_state row) "blocked") eqn:Hb; simpl; [|split; [lia|done]].
  split; [lia|]. apply andb_true_iff in Hb as [_ Hb%str_eqb_spec]. intros [Hf|Hf]; rewrite Hf in Hb; done.
Qed.

Lemma step_evolves w w' : outbox_step w w' → evolves (w_db w) (w_db w').
Proof.
  intros [w0 fs|io now log sinks w0 Hn|io tr tu now set w0 Hc Ht|io s now w0|io now log keep w0].
  - apply evolves_refl.
  - apply reconcile_evolves.
  - by apply dispatch_evolves.
  - apply release_evolves.
  - pose proof (prune_pass_step io now log keep w0) as P. pose proof (ps_db _ _ _ P) as Hs.
    constructor; [by rewrite Hs|by rewrite Hs| |apply (ps_stays _ _ _ P)].
    intros key row Hr. exists row. rewrite Hs. split_and!; [done|lia|done].
Qed.

Lemma steps_evolve w w' : rtc outbox_step w w' → evolves (w_db w) (w_db w').
Proof.
  induction 1 as [w|w1 w2 w3 H12 _ IH]; [apply evolves_refl|].
  eapply evolves_trans; [by apply step_evolves|done].
Qed.

(** C19: the outbox is well-formed.  In every state reached from a new outbox by its
    operations in any order, with any faults and any changes of the journal's files,
    every event row holds the digest of its payload and a valid Event 3.0 with its
    identity; every delivery row belongs to an event and a valid sink, with a known
    state, a next attempt only while pending, a 32-bit attempt count and a decodable
    error class; origins refer to events; generation, health and cursor rows decode. *)
Theorem outbox_well_formed w : reachable w → db_wf (w_db w).
Proof. apply reachable_wf. Qed.

(** What is settled stays settled.  Over any further operations with any faults, no
    event is lost or changed, no origin is lost, no delivery row disappears or loses an
    attempt, acknowledged and dead deliveries never change again, and a pruned
    generation stays pruned. *)
Theorem outbox_evolves w w' : rtc outbox_step w w' → evolves (w_db w) (w_db w').
Proof. apply steps_evolve. Qed.

End system.

(** ** Reconciling *)

Section stores.
Context `{Digest, Diagnostics, JsonCodec, PathResolver} `{!DigestLaws}.

Lemma read_cursor_row now c db :
  (∃ ns ph s o, make_cursor ns ph s o = Ok c) →
  read_ingest_cursor no_faults (set_cursor (Some (cursor_row now c)) db) = Ok (Some c).
Proof.
  intros (ns & ph & s & o & Hm). destruct (make_cursor_wf _ _ _ _ _ Hm now) as [[Hp Hw] Ht (Ho & Hl & Hs)].
  unfold read_ingest_cursor, cursor_row. rewrite no_faults_try. cbn [db_cursor set_cursor].
  unfold hash32, u64_of_i64. cbn [cu_prefix_hash cu_window_hash cu_byte_offset cu_observed_length
    cu_window_start cu_journal_namespace cu_journal_path_hash cu_generation_id] in *.
  rewrite Hp, Hw. cbn [Nat.eqb].
  destruct (Ht "journal namespace") as (-> & _). destruct (Ht "journal path hash") as (_ & -> & _).
  destruct (Ht "generation identity") as (_ & _ & ->).
  rewrite !(proj2 (Z.leb_le _ _)) by done. by destruct c.
Qed.

Lemma read_cursor_no_faults io db cur :
  read_ingest_cursor io db = Ok cur → read_ingest_cursor no_faults db = Ok cur.
Proof. unfold read_ingest_cursor. rewrite no_faults_try. by destruct (io_try io _ _). Qed.

Lemma read_cursor_same db db' :
  db_cursor db' = db_cursor db → read_ingest_cursor no_faults db' = read_ingest_cursor no_faults db.
Proof. unfold read_ingest_cursor. by intros ->. Qed.

(** What a successful reconciliation of a journal with files did, as a whole. *)
Record reconciled (io : Io) (now : Z) (log : string) (sinks : list string) (w w' : World)
    (ids : list string) (cur : option IngestCursor) (plan : ReconciliationPlan) : Prop := {
  rec_sinks : validate_sink_ids sinks false = Ok ids;
  rec_start : read_ingest_cursor io (w_db w) = Ok cur;
  rec_plan : ∃ ns, build_reconciliation_plan (map snapshot_of (w_fs w)) cur ns
                     (journal_path_hash_of log) = Ok plan;
  rec_files : w_fs w' = w_fs w;
  rec_events : ∀ p, p ∈ rp_payloads plan → ∃ row,
    db_events (w_db w') !! p_event_id p = Some row ∧
    ev_payload row = p_bytes p ∧ ev_payload_hash row = sha256 (p_bytes p);
  rec_events_kept : db_events (w_db w) ⊆ db_events (w_db w');
  rec_events_new : ∀ id, is_Some (db_events (w_db w') !! id) →
    is_Some (db_events (w_db w) !! id) ∨ ∃ p, p ∈ rp_payloads plan ∧ p_event_id p = id;
  rec_deliveries : ∀ e s, db_deliveries (w_db w') !! (e, s) =
    match db_deliveries (w_db w) !! (e, s) with
    | Some row => Some row
    | None => if existsb (queues ids e s) (rp_payloads plan)
              then Some (new_delivery now) else None
    end;
  rec_cursor : read_ingest_cursor no_faults (w_db w') = Ok (next_cursor cur plan);
}.

Lemma reconcile_reconciled io now log sinks w w' r :
  w_fs w ≠ [] → reconcile_jsonl io now log sinks w = (w', Ok r) →
  ∃ ids cur plan, reconciled io now log sinks w w' ids cur plan ∧
    rr_ingested_events r = length (rp_payloads plan).
Proof.
  intros Hfs. unfold reconcile_jsonl, transact.
  destruct (reconcile_body io now log sinks w) as [[db' r']|] eqn:Hr; [|done]. intros [= <- <-].
  apply reconcile_inv in Hr as (ids & cur & ns & db0 & Hids & Hcur & P & Hcase).
  destruct Hcase as [(Hnil & _)|(plan & Hplan & Ha & ->)]; [done|].
  destruct (apply_plan_spec _ _ _ _ _ _ _ _ _ _ Hplan Ha) as (db1 & I & ->).
  pose proof (build_plan_payloads _ _ _ _ _ Hplan) as Hok. rewrite Forall_forall in Hok.
  exists ids, cur, plan. split; [|done].
  constructor; cbn [w_db w_fs set_cursor db_events db_deliveries]; try done.
  - eauto.
  - intros p Hp. destruct (ins_events_stored _ _ _ _ _ I p Hp) as (row & Hrow & Hb & Hh).
    exists row. destruct (Hok p Hp) as [Hsha _]. split_and!; [done|done|congruence].
  - rewrite <- (pr_events _ _ _ _ _ P). apply (ins_events_kept _ _ _ _ _ I).
  - intros id [row Hrow]. rewrite <- (pr_events _ _ _ _ _ P).
    destruct (db_events db0 !! id) as [row0|] eqn:H0'; [left; eauto|right].
    destruct (ins_events_new _ _ _ _ _ I id row H0' Hrow) as (p & Hp & -> & _). eauto.
  - intros e s. rewrite (ins_deliveries _ _ _ _ _ I). by rewrite (pr_deliveries _ _ _ _ _ P).
  - unfold next_cursor. destruct (rp_advance plan) eqn:Hadv.
    + destruct (build_plan_advance _ _ _ _ _ Hplan Hadv) as [c Hc]. rewrite Hc.
      apply read_cursor_row. destruct (build_plan_cursor _ _ _ _ _ _ Hplan Hc) as (s & o & Hm). eauto.
    + destruct (build_plan_idle _ _ _ _ _ Hplan Hadv) as (_ & -> & _).
      rewrite (read_cursor_same (w_db w)); [by eapply read_cursor_no_faults|].
      simpl. by rewrite (ins_cursor _ _ _ _ _ I), (pr_cursor _ _ _ _ _ P).
Qed.

(** Reconciling stores exactly what was read.  A reconciliation that returns has
    stored every record of its plan as an event with the record's bytes and digest,
    kept every earlier event, stored no other, queued one pending delivery for each
    record and sink exactly where none was (delivery-failure alerts apart), and left the
    cursor from which the next plan resumes. *)
Theorem reconcile_stores_records io now log sinks w w' r :
  w_fs w ≠ [] → reconcile_jsonl io now log sinks w = (w', Ok r) →
  ∃ ids cur plan, reconciled io now log sinks w w' ids cur plan ∧
    rr_ingested_events r = length (rp_payloads plan).
Proof. apply reconcile_reconciled. Qed.

End stores.

(** ** From the journal to the sinks *)

Section delivers.
Context `{Digest, Diagnostics, JsonCodec, PathResolver} `{!DigestLaws}.

Lemma reconciled_rows_ok t io now log sinks w w' ids cur plan :
  reconciled io now log sinks w w' ids cur plan → rows_ok t (w_db w) → rows_ok t (w_db w').
Proof.
  intros R Hok [e s] row. rewrite (rec_deliveries _ _ _ _ _ _ _ _ _ R).
  destruct (db_deliveries (w_db w) !! (e, s)) as [row0|] eqn:Hr; [intros [= <-]; by apply (Hok (e, s))|].
  destruct (existsb _ _); [|done]. by intros [= <-].
Qed.

Lemma transport_ok_typed transport : transport_ok transport → transport_typed transport.
Proof. intros Htr s p e He. by destruct (Htr s p e He). Qed.

Lemma rounds_steps set rounds t w :
  rounds_ok t rounds → rtc outbox_step w (run_rounds set rounds w).
Proof.
  revert t w; induction rounds as [|rnd rounds IH]; intros t w; [intros _; apply rtc_refl|].
  intros (Htr & Hclock & _ & Hrest).
  change (run_rounds set (rnd :: rounds) w) with (run_rounds set rounds (run_round set w rnd)).
  eapply rtc_l; [|by eapply IH]. apply step_dispatch; [done|by apply transport_ok_typed].
Qed.

(** The trimmed names of the configured sinks are the ones validated. *)
Lemma unpadded_sink sinks b ids s : validate_sink_ids sinks b = Ok ids → s ∈ sinks →
  trim s = s → s ∈ ids.
Proof.
  intros [-> _]%validate_sink_ids_Ok Hs Ht. rewrite bs_of_list_elem.
  apply list_elem_of_fmap. by exists s.
Qed.

(** C18: every record reaches its sinks.  After a reconciliation and then dispatches
    without faults, from when the pending deliveries are due, a retry delay apart and as
    many as they have attempts left, every record read has a delivery that is acknowledged,
    blocked or dead, unless it is a delivery-failure alert, for every configured sink whose
    name has no surrounding blanks: deliveries are queued under the trimmed names, and
    [padded_sink_is_never_sent] shows that a padded one is never dispatched.  No delivery
    of those sinks is left pending or lost. *)
Theorem records_reach_sinks io now log set rounds t w w' r :
  0 ≤ now → set_ok set → rounds_ok t rounds →
  db_wf (w_db w) → rows_ok t (w_db w) → w_fs w ≠ [] →
  reconcile_jsonl io now log (ss_durable_sink_ids set) w = (w', Ok r) →
  (attempts_left set (w_db w') ≤ length rounds)%nat →
  ∃ ids cur plan, reconciled io now log (ss_durable_sink_ids set) w w' ids cur plan ∧
    ∀ p s, p ∈ rp_payloads plan → is_delivery_failure_alert_payload (p_bytes p) = false →
      s ∈ ss_durable_sink_ids set → trim s = s →
      ∃ row, db_deliveries (w_db (run_rounds set rounds w')) !! (p_event_id p, s) = Some row ∧
        (dl_state row = "acked" ∨ dl_state row = "blocked" ∨ dl_state row = "dead").
Proof.
  intros Hnow Hset Hrounds Hwf Hrows Hfs Hrec Hlen.
  assert (db_wf (w_db w')) as Hwf'.
  { pose proof (reconcile_wf io now log (ss_durable_sink_ids set) w Hnow Hwf) as Hw.
    by rewrite Hrec in Hw. }
  apply reconcile_reconciled in Hrec as (ids & cur & plan & R & _); [|done].
  exists ids, cur, plan. split; [done|]. intros p s Hp Hal Hs' Htrim.
  pose proof (unpadded_sink _ _ _ _ (rec_sinks _ _ _ _ _ _ _ _ _ R) Hs' Htrim) as Hs.
  assert (∃ row, db_deliveries (w_db w') !! (p_event_id p, s) = Some row) as [row Hrow].
  { rewrite (rec_deliveries _ _ _ _ _ _ _ _ _ R).
    destruct (db_deliveries (w_db w) !! (p_event_id p, s)); [eauto|].
    assert (existsb (queues ids (p_event_id p) s) (rp_payloads plan) = true) as ->; [|eauto].
    apply existsb_exists. exists p. split; [by apply list_elem_of_In|]. unfold queues.
    rewrite Hal, (proj2 (str_eqb_spec _ _)), (proj2 (str_in_spec _ _)) by done. done. }
  pose proof (steps_evolve _ _ (rounds_steps set rounds t w' Hrounds)) as Hev.
  destruct (evo_rows _ _ Hev _ _ Hrow) as (row' & Hrow' & _). exists row'. split; [done|].
  destruct (run_rounds_drain set rounds t w' Hset Hrounds Hwf') as [Hwf2 Hle];
    [by eapply reconciled_rows_ok|].
  assert (dl_state row' ≠ "pending") as Hnp.
  { intros Hst. pose proof (attempts_left_pending _ _ _ _ _ Hset Hs' Hrow' Hst). lia. }
  destruct (wf_deliveries _ Hwf2 _ _ Hrow') as [_ [_ (st & Hst & _) _ _]].
  rewrite Hst in Hnp |- *. destruct st; simpl in *; auto; done.
Qed.

End delivers.

(** ** The theorems on a concrete outbox *)

Module SystemSample.
Export DrainSample.

Definition w2 : World := (dispatch_durable_with_outbox no_faults transport never 2000 sinks w1).1.1.

Lemma w2_steps : rtc outbox_step w0 w2.
Proof.
  apply (rtc_l _ w0 w1 w2).
  - unfold w1. by apply (step_reconcile no_faults 1000 "log" ["hec"] w0).
  - apply rtc_once. unfold w2. apply (step_dispatch no_faults transport never 2000 sinks w1).
    + split; vm_compute; discriminate.
    + apply transport_ok_typed, transport_answers.
Qed.

Lemma w2_reachable : reachable w2.
Proof. exists "ns", [journal]. exact w2_steps. Qed.

Lemma outbox_well_formed_witness :
  db_wf (w_db w2) ∧ dl_state <$> db_deliveries (w_db w2) !! (id_a, "hec") = Some "acked".
Proof. split; [apply (outbox_well_formed w2), w2_reachable | vm_compute; reflexivity]. Defined.

Lemma stored_values_typed_witness :
  ∃ r, next_ready_delivery no_faults (w_db w2) "hec" 2500 = Ok r.
Proof.
  destruct (stored_values_typed w2 w2_reachable) as (_ & _ & _ & Hn & _).
  apply Hn. vm_compute. reflexivity.
Defined.

Lemma outbox_evolves_witness : db_events (w_db w0) ⊆ db_events (w_db w2).
Proof. exact (evo_events _ _ (outbox_evolves w0 w2 w2_steps)). Defined.

Lemma w1_step : reconcile_jsonl no_faults 1000 "log" ["hec"] w0 =
  (w1, Ok {| rr_ingested_events := 2; rr_ingested_bytes := 103 |}).
Proof. rewrite <- w1_reconciled. unfold w1. by destruct (reconcile_jsonl _ _ _ _ _). Qed.

Lemma reconcile_stores_records_witness :
  ∃ ids cur plan, reconciled no_faults 1000 "log" ["hec"] w0 w1 ids cur plan ∧
    2%nat = length (rp_payloads plan).
Proof.
  apply (reconcile_stores_records no_faults 1000 "log" ["hec"] w0 w1
    {| rr_ingested_events := 2; rr_ingested_bytes := 103 |}).
  - discriminate.
  - exact w1_step.
Defined.

Lemma records_reach_sinks_witness :
  ∃ ids cur plan, reconciled no_faults 1000 "log" ["hec"] w0 w1 ids cur plan ∧
    ∀ p, p ∈ rp_payloads plan → is_delivery_failure_alert_payload (p_bytes p) = false →
      ∃ row, db_deliveries (w_db (run_rounds sinks rounds w1)) !! (p_event_id p, "hec") = Some row ∧
        (dl_state row = "acked" ∨ dl_state row = "blocked" ∨ dl_state row = "dead").
Proof.
  destruct (records_reach_sinks no_faults 1000 "log" sinks rounds 1000 w0 w1
    {| rr_ingested_events := 2; rr_ingested_bytes := 103 |}) as (ids & cur & plan & R & Hp).
  - lia.
  - exact sinks_ok.
  - exact rounds_spaced.
  - apply new_db_wf.
  - intros key row Hr. discriminate Hr.
  - discriminate.
  - exact w1_step.
  - rewrite w1_attempts. reflexivity.
  - exists ids, cur, plan. split; [exact R|]. intros p Hin Hal.
    apply (Hp p "hec" Hin Hal); [apply list_elem_of_singleton; reflexivity|vm_compute; reflexivity].
Defined.

End SystemSample.
