(* ===== verification/OutboxCapacity.v ===== *)
(** * Capacity of the durable queue

    src/sink/outbox.rs: before a batch is written to the journal, its unique records,
    the records of the journal not ingested yet and the queue are counted against the
    configured limits.  The unread part of the journal is scanned in bounded chunks. *)

From S2P Require Import Prelude Ordered Rstr Json Delivery Journal Outbox OutboxInv.
From stdpp Require Import gmap.
From Stdlib Require Import Ascii.

Local Open Scope Z_scope.

Definition MAX_CAPACITY_SCAN_BYTES : Z := 64 * 1024 * 1024.
Definition CAPACITY_READ_CHUNK_BYTES : Z := 64 * 1024.

Record CapacityUsage := {
  us_events : Z;
  us_bytes : Z;
}.

Definition no_usage : CapacityUsage := {| us_events := 0; us_bytes := 0 |}.

(** [payloads] is a [BTreeMap]. *)
Record CapacityInspection := {
  ci_base : CapacityUsage;
  ci_payloads : list (string * list ascii);
}.

(** The mutable borrows of [CapacityScanContext]. *)
Record ScanState := {
  sc_seen : list (string * list ascii);
  sc_scanned : Z;
  sc_base : CapacityUsage;
}.

Section capacity.
Context `{Digest, Diagnostics, JsonCodec, PathResolver} (io : Io).

(** [PinnedFile::read_range] of src/file_lock.rs. *)
Definition read_range (path context : string) (b : list ascii) (offset len : nat)
    : result (list ascii) DeliveryError :=
  check? io_try io context path in
  if (length b <? offset + len)%nat
  then Err (storage_error context "bounded read exceeds source length")
  else Ok (take len (drop offset b)).

Definition verify_journal_path_for_capacity (db : Db) (path_hash : string)
    : result bool DeliveryError :=
  let? path_hash := validate_journal_path_hash path_hash in
  check? io_try io "read journal path identity" "" in
  match db_meta db !! "journal_path_hash" with
  | None =>
      check? io_try io "inspect unbound journal state" "" in
      if bool_decide (db_events db = ∅) && bool_decide (db_cursor db = None)
         && bool_decide (db_generations db = ∅)
      then Ok false
      else Err (storage_message "durable canonical JSONL journal identity is missing")
  | Some persisted =>
      let? persisted := validate_journal_path_hash persisted in
      if negb (str_eqb persisted path_hash) then
        Err (storage_message "durable outbox is bound to a different canonical JSONL journal")
      else Ok true
  end.

(** The events with a pending or blocked delivery. *)
Definition has_queued (db : Db) (event_id : string) : bool :=
  existsb (λ '((e, _), row), str_eqb e event_id && in_queue row)
    (map_to_list (db_deliveries db)).

Definition queued_events (db : Db) : list (string * EventCols) :=
  filter (λ '(e, _), has_queued db e = true) (map_to_list (db_events db)).

(** COUNT and SUM of non-negative values are never negative. *)
Definition query_pending_capacity (db : Db) : result CapacityUsage DeliveryError :=
  check? io_try io "calculate pending capacity" "" in
  let rows := queued_events db in
  Ok {| us_events := Z.of_nat (length rows);
        us_bytes := foldr (λ '(_, ev) n, Z.of_nat (length (ev_payload ev)) + n) 0 rows |}.

(** [events + 1] and [bytes + length], both checked. *)
Definition add_usage (usage : CapacityUsage) (events bytes : Z)
    : result CapacityUsage DeliveryError :=
  let? e := ok_or (checked_add (us_events usage) events)
              (storage_message "durable capacity event count overflow") in
  let? b := ok_or (checked_add (us_bytes usage) bytes)
              (storage_message "durable capacity byte count overflow") in
  Ok {| us_events := e; us_bytes := b |}.

(** The common end of the two accounting loops: a payload that is neither stored nor
    seen is counted. *)
Definition account_payload (db : Db) (payload : Event3DurablePayload)
    (acc : list (string * list ascii) * CapacityUsage)
    : result (list (string * list ascii) * CapacityUsage) DeliveryError :=
  let '(seen, usage) := acc in
  let? stored := event_is_already_stored io db payload in
  if stored then Ok (seen, usage)
  else
    match bm_get (p_event_id payload) seen with
    | Some previous =>
        if bool_decide (previous ≠ p_bytes payload) then Err payload_collision_error
        else Ok (seen, usage)
    | None =>
        let? usage := add_usage usage 1 (Z.of_nat (length (p_bytes payload))) in
        Ok (bm_insert (p_event_id payload) (p_bytes payload) seen, usage)
    end.

Definition account_unread_payload (db : Db) (b : list ascii)
    (acc : list (string * list ascii) * CapacityUsage)
    : result (list (string * list ascii) * CapacityUsage) DeliveryError :=
  let? payload :=
    map_err (λ e, storage_error "malformed non-tail canonical JSONL record"
                    (delivery_error_display e))
      (canonical_payload_from_bytes b) in
  account_payload db payload acc.

(** [hash_file_range]; the range is at most the integrity window long. *)
Definition hash_file_range (path : string) (b : list ascii) (start fin : nat)
    : result (list ascii) DeliveryError :=
  if (fin <? start)%nat || (CURSOR_INTEGRITY_WINDOW <? fin - start)%nat then
    Err (storage_message "durable ingest cursor integrity range is invalid")
  else
    let? bytes := if (fin - start =? 0)%nat then Ok []
                  else read_range path "read JSONL cursor integrity range" b start (fin - start) in
    Ok (sha256 bytes).

Definition verify_cursor_against_file (cursor : IngestCursor) (path : string) (b : list ascii)
    : result unit DeliveryError :=
  let offset := Z.to_nat (byte_offset cursor) in
  let observed := Z.to_nat (observed_length cursor) in
  let wstart := Z.to_nat (window_start cursor) in
  if (length b <? offset)%nat || (observed <? offset)%nat || (length b <? observed)%nat then
    Err (storage_message "durable JSONL generation was truncated")
  else
    check? (if (0 <? offset)%nat then
              let? previous := read_range path "verify JSONL cursor boundary" b (offset - 1) 1 in
              if bool_decide (previous ≠ [newline]) then
                Err (storage_message "durable ingest cursor is not at a complete line boundary")
              else Ok tt
            else Ok tt) in
    if negb (wstart =? offset - CURSOR_INTEGRITY_WINDOW)%nat || (offset <? wstart)%nat then
      Err (storage_message "durable ingest cursor integrity window is invalid")
    else
      let? prefix := hash_file_range path b 0 (Nat.min offset CURSOR_INTEGRITY_WINDOW) in
      let? window := hash_file_range path b wstart offset in
      if bool_decide (prefix ≠ prefix_hash cursor) || bool_decide (window ≠ window_hash cursor)
      then Err (storage_message "durable JSONL generation integrity check failed")
      else Ok tt.

(** ** Scanning a generation in chunks *)

(** The body of the loop over the bytes of a chunk; the state is the current line,
    the payloads seen and the usage. *)
Definition scan_byte (db : Db) (max_scan_bytes : Z)
    (st : list ascii * (list (string * list ascii) * CapacityUsage)) (byte : ascii)
    : result (list ascii * (list (string * list ascii) * CapacityUsage)) DeliveryError :=
  let '(line, acc) := st in
  if Ascii.eqb byte newline then
    if bool_decide (last line = Some carriage_return) then
      Err (storage_message "canonical JSONL uses an invalid line ending")
    else
      let? acc := account_unread_payload db line acc in
      Ok ([], acc)
  else if max_scan_bytes <? Z.of_nat (length line) + 1 then
    Err (storage_message "durable JSONL record exceeds the bounded inspection range")
  else Ok (line ++ [byte], acc).

(** The loop over the chunks from [offset]; a chunk is never empty, so [fuel] chunks
    are enough for [fuel] bytes. *)
Fixpoint scan_chunks (fuel : nat) (db : Db) (max_scan_bytes : Z) (path : string)
    (b : list ascii) (offset : nat) (line : list ascii) (st : ScanState)
    : result (list ascii * ScanState) DeliveryError :=
  match fuel with
  | O => Ok (line, st)
  | S fuel' =>
      if (offset <? length b)%nat then
        let read_length :=
          Z.to_nat (Z.min (Z.of_nat (length b - offset)) CAPACITY_READ_CHUNK_BYTES) in
        let? chunk := read_range path "read JSONL capacity range" b offset read_length in
        let? scanned := ok_or (checked_add (sc_scanned st) (Z.of_nat read_length))
                          (storage_message "durable JSONL capacity scan overflow") in
        if max_scan_bytes <? scanned then
          Err (storage_message
            "durable JSONL capacity scan exceeds the bounded inspection range")
        else
          let? r := try_fold (scan_byte db max_scan_bytes) (line, (sc_seen st, sc_base st)) chunk in
          let '(line, (seen, base)) := r in
          scan_chunks fuel' db max_scan_bytes path b (offset + read_length) line
            {| sc_seen := seen; sc_scanned := scanned; sc_base := base |}
      else Ok (line, st)
  end.

Definition scan_jsonl_generation_capacity (db : Db) (max_scan_bytes : Z) (path : string)
    (b : list ascii) (start_offset : nat) (is_last_generation : bool) (st : ScanState)
    : result ScanState DeliveryError :=
  if (length b <? start_offset)%nat then
    Err (storage_message "durable ingest cursor points past the JSONL generation")
  else
    let? r := scan_chunks (length b) db max_scan_bytes path b start_offset [] st in
    let '(line, st) := r in
    if negb (bool_decide (line = [])) && negb is_last_generation then
      Err (storage_message "malformed non-tail canonical JSONL record")
    else Ok st.

(** ** The unread part of the journal *)

Definition unread_start (generations : list JsonlGeneration) (cursor : option IngestCursor)
    (namespace path_hash : string) : result (nat * nat) DeliveryError :=
  match cursor with
  | None => Ok (O, O)
  | Some cursor =>
      if negb (str_eqb (journal_namespace cursor) namespace) then
        Err (storage_message "durable ingest cursor journal namespace is invalid")
      else if negb (str_eqb (journal_path_hash cursor) path_hash) then
        Err (storage_message "durable ingest cursor belongs to a different JSONL journal")
      else
        match matching_indices jg_identity (generation_id cursor) generations with
        | [] => Err (storage_message
                  "durable ingest cursor generation cannot be identified safely")
        | [index] => Ok (index, Z.to_nat (byte_offset cursor))
        | _ => Err (storage_message "durable ingest cursor generation identity is ambiguous")
        end
  end.

(** One round of the loop over the generations, at [index]. *)
Definition inspect_generation (fs : Fs) (db : Db) (max_scan_bytes : Z)
    (cursor : option IngestCursor) (start_index start_offset total index : nat)
    (generation : JsonlGeneration) (st : ScanState) : result ScanState DeliveryError :=
  let path := jg_path generation in
  let? expected := bounded_cursor_text (jg_identity generation) "generation identity" in
  let? before := stable_file_identity io fs "identify JSONL generation" path in
  if negb (str_eqb before expected) then
    Err (storage_message "durable JSONL generation identity changed during inspection")
  else
    check? io_try io "open JSONL generation" path in
    match find_file fs path with
    | None => Err (storage_error "open JSONL generation" file_not_found)
    | Some f =>
        let? opened := stable_file_identity io fs "identify JSONL generation" path in
        if negb (str_eqb opened expected) then
          Err (storage_message "durable JSONL generation identity changed during inspection")
        else
          let first := (index =? start_index)%nat in
          check? match cursor with
                 | Some cursor =>
                     if first then verify_cursor_against_file cursor path (jf_bytes f) else Ok tt
                 | None => Ok tt
                 end in
          let? st := scan_jsonl_generation_capacity db max_scan_bytes path (jf_bytes f)
                       (if first then start_offset else O) (index + 1 =? total)%nat st in
          let? after := stable_file_identity io fs "identify JSONL generation" path in
          if negb (str_eqb after expected) then
            Err (storage_message "durable JSONL generation changed during inspection")
          else Ok st
    end.

Definition inspect_unread_jsonl_capacity (fs : Fs) (db : Db)
    (generations : list JsonlGeneration) (cursor : option IngestCursor)
    (namespace path_hash : string) (max_scan_bytes : Z)
    : result CapacityInspection DeliveryError :=
  let? namespace := bounded_cursor_text namespace "journal namespace" in
  let? path_hash := validate_journal_path_hash path_hash in
  let? observed := validate_observed_generations io fs generations in
  if negb (length observed =? length generations)%nat then
    Err (storage_message "durable JSONL generation identity is ambiguous")
  else
    let? start := unread_start generations cursor namespace path_hash in
    let '(start_index, start_offset) := start in
    if (length generations <=? start_index)%nat then
      match cursor with
      | Some _ => Err (storage_message "durable ingest cursor generation is invalid")
      | None => Ok {| ci_base := no_usage; ci_payloads := [] |}
      end
    else
      let? st := try_fold (λ st '(index, generation),
          inspect_generation fs db max_scan_bytes cursor start_index start_offset
            (length generations) index generation st)
        {| sc_seen := []; sc_scanned := 0; sc_base := no_usage |}
        (drop start_index (imap pair generations)) in
      Ok {| ci_base := sc_base st; ci_payloads := sc_seen st |}.

Definition inspect_capacity_inputs (capacity_scan_limit : Z) (log_path : string) (w : World)
    : result CapacityInspection DeliveryError :=
  let db := w_db w in
  let? namespace := journal_namespace_of io db in
  let path_hash := journal_path_hash_of log_path in
  let? journal_bound := verify_journal_path_for_capacity db path_hash in
  let? generations :=
    discover_jsonl_generations io (w_fs w) "discover JSONL generations for capacity" log_path in
  check? validate_generation_metadata_readonly io (w_fs w) db path_hash generations
           (negb journal_bound) in
  let? cursor := read_ingest_cursor io db in
  let? pending := query_pending_capacity db in
  let? unread := inspect_unread_jsonl_capacity (w_fs w) db generations cursor namespace path_hash
                   capacity_scan_limit in
  let? base := add_usage pending (us_events (ci_base unread)) (us_bytes (ci_base unread)) in
  Ok {| ci_base := base; ci_payloads := ci_payloads unread |}.

Definition check_capacity_totals (base projected : CapacityUsage) (limits : CapacityLimits)
    : result unit DeliveryError :=
  if (us_events projected =? 0) && (us_bytes projected =? 0) then Ok tt
  else
    let? total := add_usage base (us_events projected) (us_bytes projected) in
    if max_pending_events limits <? us_events total then
      Err (capacity_exceeded_error "pending_events" (us_events base) (us_events total)
             (max_pending_events limits))
    else if max_pending_bytes limits <? us_bytes total then
      Err (capacity_exceeded_error "pending_bytes" (us_bytes base) (us_bytes total)
             (max_pending_bytes limits))
    else Ok tt.

(** The body of the loop over the prospective payloads. *)
Definition account_prospective (db : Db) (acc : list (string * list ascii) * CapacityUsage)
    (payload : Event3DurablePayload)
    : result (list (string * list ascii) * CapacityUsage) DeliveryError :=
  check? validate_capacity_payload payload in
  account_payload db payload acc.

Definition check_capacity_payloads_locked (capacity_scan_limit : Z) (log_path : string)
    (prospective : list Event3DurablePayload) (limits : CapacityLimits) (w : World)
    : result unit DeliveryError :=
  let? inspection := inspect_capacity_inputs capacity_scan_limit log_path w in
  let? acc := try_fold (account_prospective (w_db w))
                (ci_payloads inspection, no_usage) prospective in
  check_capacity_totals (ci_base inspection) (snd acc) limits.

Definition check_capacity_for_payloads (log_path : string)
    (prospective : list Event3DurablePayload) (limits : CapacityLimits) (w : World)
    : result unit DeliveryError :=
  check? validate_capacity_limits limits in
  check? io_try io "lock canonical JSONL for capacity" log_path in
  check_capacity_payloads_locked MAX_CAPACITY_SCAN_BYTES log_path prospective limits w.

End capacity.

(** ** Scanning in chunks is reading by lines *)

Section scan.
Context `{Digest, Diagnostics, JsonCodec, PathResolver} (io : Io).

(** One complete line. *)
Definition account_line (db : Db) (acc : list (string * list ascii) * CapacityUsage)
    (line : list ascii) : result (list (string * list ascii) * CapacityUsage) DeliveryError :=
  if bool_decide (last line = Some carriage_return)
  then Err (storage_message "canonical JSONL uses an invalid line ending")
  else account_unread_payload io db line acc.

Lemma scan_bytes_spec db max bs line acc :
  newline ∉ line → Z.of_nat (length line) + Z.of_nat (length bs) ≤ max →
  try_fold (scan_byte io db max) (line, acc) bs =
  (let? acc := try_fold (account_line db) acc (split_lines (line ++ bs)).1 in
   Ok ((split_lines (line ++ bs)).2, acc)).
Proof.
  revert line acc; induction bs as [|c bs IH]; intros line acc Hl Hmax; simpl in *.
  { rewrite app_nil_r, split_lines_none by done. done. }
  destruct (Ascii.eqb_spec c newline) as [->|Hc].
  - rewrite split_lines_line by done. cbn [fst snd try_fold]. unfold account_line at 1.
    case_bool_decide; [done|]. destruct (account_unread_payload io db line acc) as [acc'|]; [|done].
    rewrite IH by (simpl; set_solver || lia). done.
  - rewrite (proj2 (Z.ltb_ge _ _)) by lia.
    rewrite IH by (rewrite ?length_app; simpl; set_solver || lia).
    by rewrite <- app_assoc.
Qed.

Lemma split_tail_length l : (length (split_lines l).2 ≤ length l)%nat.
Proof. rewrite <- (split_lines_join l) at 2. rewrite length_app. lia. Qed.

Lemma scan_chunks_spec fuel db max path b offset line st :
  io "read JSONL capacity range" path = None →
  (offset ≤ length b)%nat → (length b - offset ≤ fuel)%nat → newline ∉ line →
  Z.of_nat (length line) ≤ sc_scanned st →
  sc_scanned st + Z.of_nat (length b - offset) ≤ max → max ≤ u64_max →
  scan_chunks io fuel db max path b offset line st =
  (let? acc := try_fold (account_line db) (sc_seen st, sc_base st)
                 (split_lines (line ++ drop offset b)).1 in
   Ok ((split_lines (line ++ drop offset b)).2,
       {| sc_seen := acc.1; sc_base := acc.2;
          sc_scanned := sc_scanned st + Z.of_nat (length b - offset) |})).
Proof.
  intros Hio. revert offset line st.
  induction fuel as [|fuel IH]; intros offset line st Ho Hf Hl Hls Hmax Hu64; cbn [scan_chunks].
  { rewrite drop_ge, app_nil_r, split_lines_none by (done || lia). cbn [fst snd try_fold].
    replace (length b - offset)%nat with O by lia. rewrite Z.add_0_r. by destruct st. }
  destruct (Nat.ltb_spec offset (length b)) as [Hlt|Hge].
  2:{ rewrite drop_ge, app_nil_r, split_lines_none by (done || lia). cbn [fst snd try_fold].
      replace (length b - offset)%nat with O by lia. rewrite Z.add_0_r. by destruct st. }
  set (n := Z.to_nat (Z.min (Z.of_nat (length b - offset)) CAPACITY_READ_CHUNK_BYTES)).
  assert (0 < n ≤ length b - offset)%nat as Hn.
  { unfold n, CAPACITY_READ_CHUNK_BYTES. lia. }
  unfold read_range, io_try. rewrite Hio, (proj2 (Nat.ltb_ge _ _)) by lia.
  assert (checked_add (sc_scanned st) (Z.of_nat n) = Some (sc_scanned st + Z.of_nat n)) as ->.
  { apply checked_add_Some. lia. }
  cbn [ok_or]. rewrite (proj2 (Z.ltb_ge _ _)) by lia.
  assert (length (take n (drop offset b)) = n) as Hlen by (rewrite length_take, length_drop; lia).
  rewrite scan_bytes_spec by (rewrite ?Hlen; done || lia).
  set (chunk := take n (drop offset b)) in *.
  replace (drop offset b) with (chunk ++ drop (offset + n) b)
    by (unfold chunk; by rewrite <- drop_drop, take_drop).
  rewrite app_assoc. set (l := line ++ chunk). rewrite (split_lines_app l).
  cbn [fst snd]. rewrite try_fold_app.
  destruct (try_fold (account_line db) (sc_seen st, sc_base st) (split_lines l).1)
    as [[seen base]|]; [|done].
  pose proof (split_tail_length l). assert (length l = length line + n)%nat as Hll
    by (unfold l; rewrite length_app, Hlen; done).
  rewrite IH; cbn [sc_seen sc_base sc_scanned fst snd]; try lia; [|apply split_lines_tail].
  destruct (try_fold (account_line db) (seen, base) _); [|done]. do 3 f_equal. lia.
Qed.

(** More bytes than the bound allows are refused. *)
Lemma scan_chunks_bounded fuel db max path b offset line st r :
  (length b - offset ≤ fuel)%nat → (offset ≤ length b)%nat → sc_scanned st ≤ max →
  scan_chunks io fuel db max path b offset line st = Ok r →
  sc_scanned r.2 = sc_scanned st + Z.of_nat (length b - offset) ∧ sc_scanned r.2 ≤ max.
Proof.
  revert offset line st; induction fuel as [|fuel IH]; intros offset line st Hf Ho Hst;
    cbn [scan_chunks].
  { intros [= <-]. simpl. lia. }
  destruct (Nat.ltb_spec offset (length b)) as [Hlt|Hge]; [|intros [= <-]; simpl; lia].
  set (n := Z.to_nat (Z.min (Z.of_nat (length b - offset)) CAPACITY_READ_CHUNK_BYTES)).
  assert (0 < n ≤ length b - offset)%nat as Hn.
  { unfold n, CAPACITY_READ_CHUNK_BYTES. lia. }
  destruct (read_range _ _ _ _ _ _) as [chunk|]; [|done].
  destruct (checked_add (sc_scanned st) (Z.of_nat n)) as [scanned|] eqn:Hc; [|done]. cbn [ok_or].
  apply checked_add_Some in Hc as [-> _]. destruct (Z.ltb_spec max (sc_scanned st + Z.of_nat n)); [done|].
  destruct (try_fold _ _ _) as [[line' [seen base]]|]; [|done].
  intros Hr. apply IH in Hr; simpl in *; lia.
Qed.

(** The bounded scan is a scan by lines.  As long as the unread bytes fit the scan
    bound, counting a generation in 64 KiB chunks gives exactly what accounting its
    complete lines one after another gives, with the same error at the same line, and
    an unterminated tail is refused unless the generation is the last; and a scan that
    returns has read every byte and stayed within the bound. *)
Theorem scan_by_lines db max path b offset is_last st :
  io "read JSONL capacity range" path = None →
  (offset ≤ length b)%nat → 0 ≤ sc_scanned st ≤ max → max ≤ u64_max →
  let result := scan_jsonl_generation_capacity io db max path b offset is_last st in
  let total := sc_scanned st + Z.of_nat (length b - offset) in
  if total <=? max then
    result =
    (let? acc := try_fold (account_line db) (sc_seen st, sc_base st)
                   (split_lines (drop offset b)).1 in
     if negb (bool_decide ((split_lines (drop offset b)).2 = [])) && negb is_last
     then Err (storage_message "malformed non-tail canonical JSONL record")
     else Ok {| sc_seen := acc.1; sc_scanned := total; sc_base := acc.2 |})
  else is_ok result = false.
Proof.
  intros Hio Ho Hsc Hu result total. subst result. unfold scan_jsonl_generation_capacity.
  rewrite (proj2 (Nat.ltb_ge _ _)) by lia. destruct (Z.leb_spec total max) as [Hle|Hgt].
  - rewrite scan_chunks_spec; [|done|done|lia|set_solver|simpl; lia|done|done].
    cbn [app]. by destruct (try_fold _ _ _).
  - destruct (scan_chunks _ _ _ _ _ _ _ _ _) as [[line st']|] eqn:Hs; [|done].
    apply scan_chunks_bounded in Hs; [simpl in Hs; lia|lia|lia|lia].
Qed.

End scan.

(** ** What is counted *)

Section account.
Context `{Digest, Diagnostics, JsonCodec, PathResolver} (io : Io).

(** Bytes of the records of a map. *)
Definition weight (seen : list (string * list ascii)) : Z :=
  foldr (λ '(_, b) n, Z.of_nat (length b) + n) 0 seen.

(** The record is in the tables with these bytes. *)
Definition stored_as (db : Db) (id : string) (b : list ascii) : Prop :=
  ∃ row, db_events db !! id = Some row ∧ ev_payload row = b.

Lemma already_stored_Ok db p stored :
  event_is_already_stored io db p = Ok stored →
  if stored then stored_as db (p_event_id p) (p_bytes p) else db_events db !! p_event_id p = None.
Proof.
  unfold event_is_already_stored. destruct (io_try _ _ _); [|done].
  destruct (db_events db !! p_event_id p) as [row|] eqn:Hr; [|by intros [= <-]].
  destruct (hash32 _ _); [|done]. destruct (_ || _); [done|].
  case_bool_decide; [|done]. intros [= <-]. exists row. done.
Qed.

Lemma weight_insert id b seen :
  bm_wf seen → bm_get id seen = None →
  weight (bm_insert id b seen) = weight seen + Z.of_nat (length b) ∧
  length (bm_insert id b seen) = S (length seen).
Proof.
  unfold bm_wf. induction seen as [|[k v] seen IH]; intros Hwf Hg; simpl in *; [lia|].
  inversion Hwf as [|? ? Hs Hf]; subst.
  destruct (cmp id k) eqn:Hc; simpl; try lia; [done|].
  destruct (IH Hs Hg). simpl in *. lia.
Qed.

(** [seen] and [usage] agree up to the constant they started with. *)
Record counted (db : Db) (seen0 : list (string * list ascii)) (u0 : CapacityUsage)
    (acc : list (string * list ascii) * CapacityUsage) : Prop := {
  cn_wf : bm_wf acc.1;
  cn_kept : ∀ id b, bm_get id seen0 = Some b → bm_get id acc.1 = Some b;
  cn_fresh : ∀ id b, bm_get id acc.1 = Some b →
    bm_get id seen0 = Some b ∨ db_events db !! id = None;
  cn_events : us_events acc.2 - Z.of_nat (length acc.1) = us_events u0 - Z.of_nat (length seen0);
  cn_bytes : us_bytes acc.2 - weight acc.1 = us_bytes u0 - weight seen0;
}.

Lemma counted_refl db seen u : bm_wf seen → counted db seen u (seen, u).
Proof. intros Hwf. constructor; simpl; auto. Qed.

(** A payload that was accounted for: stored, or among the seen ones. *)
Definition covered (db : Db) (seen : list (string * list ascii)) (id : string) (b : list ascii)
    : Prop :=
  stored_as db id b ∨ bm_get id seen = Some b.

Lemma add_usage_Ok u e b u' :
  add_usage u e b = Ok u' →
  us_events u' = us_events u + e ∧ us_bytes u' = us_bytes u + b.
Proof.
  unfold add_usage. destruct (checked_add (us_events u) e) eqn:He; [|done].
  destruct (checked_add (us_bytes u) b) eqn:Hb; [|done]. cbn [ok_or].
  apply checked_add_Some in He as [-> _], Hb as [-> _]. by intros [= <-].
Qed.

Lemma account_payload_counted db p seen0 u0 acc acc' :
  counted db seen0 u0 acc → account_payload io db p acc = Ok acc' →
  counted db seen0 u0 acc' ∧ covered db acc'.1 (p_event_id p) (p_bytes p) ∧
  (∀ id b, bm_get id acc.1 = Some b → bm_get id acc'.1 = Some b).
Proof.
  destruct acc as [seen u]. intros C. unfold account_payload.
  destruct (event_is_already_stored io db p) as [[]|] eqn:Hst; [| |done];
    apply already_stored_Ok in Hst.
  { intros [= <-]. split_and!; [done|by left|done]. }
  destruct (bm_get (p_event_id p) seen) as [prev|] eqn:Hg.
  { case_bool_decide; [done|]. intros [= <-]. split_and!; [done| |done].
    right. simpl. by rewrite Hg; f_equal. }
  destruct (add_usage _ _ _) as [u'|] eqn:Hu; [|done]. intros [= <-].
  apply add_usage_Ok in Hu as [He Hb]. destruct C as [Cw Ck Cf Ce Cb]. simpl in *.
  destruct (weight_insert (p_event_id p) (p_bytes p) seen Cw Hg) as [Hw Hl].
  assert (∀ id b, bm_get id seen = Some b →
    bm_get id (bm_insert (p_event_id p) (p_bytes p) seen) = Some b) as Hkeep.
  { intros id b Hid. rewrite bm_get_insert_ne; [done|]. congruence. }
  split_and!; [|right; apply bm_get_insert_eq|done].
  constructor; simpl; [by apply bm_insert_wf|auto| |lia|lia].
  intros id b. destruct (decide (id = p_event_id p)) as [->|Hne]; [auto|].
  rewrite bm_get_insert_ne by done. apply Cf.
Qed.

(** Folding an accounting step that succeeds only through [account_payload]. *)
Lemma account_fold_counted {A} (step : list (string * list ascii) * CapacityUsage → A →
      result (list (string * list ascii) * CapacityUsage) DeliveryError)
    (id_of : A → string → Prop) (bytes_of : A → list ascii) db seen0 u0 acc l acc' :
  (∀ acc x acc', step acc x = Ok acc' →
     ∃ p, account_payload io db p acc = Ok acc' ∧ p_bytes p = bytes_of x ∧ id_of x (p_event_id p)) →
  counted db seen0 u0 acc → try_fold step acc l = Ok acc' →
  counted db seen0 u0 acc' ∧
  (∀ id b, bm_get id acc.1 = Some b → bm_get id acc'.1 = Some b) ∧
  ∀ x, x ∈ l → ∃ id, id_of x id ∧ covered db acc'.1 id (bytes_of x).
Proof.
  intros Hstep. revert acc; induction l as [|x l IH]; intros acc C; simpl.
  { intros [= <-]. split_and!; [done|done|set_solver]. }
  destruct (step acc x) as [acc1|] eqn:Hs; [|done]. intros Hf.
  destruct (Hstep _ _ _ Hs) as (p & Hp & Hb & Hid).
  destruct (account_payload_counted _ _ _ _ _ _ C Hp) as (C1 & Hcov & Hk1).
  destruct (IH _ C1 Hf) as (C' & Hk' & Hall). split_and!; [done|eauto|].
  intros y [->|Hy]%elem_of_cons; [|eauto]. exists (p_event_id p). split; [done|].
  rewrite <- Hb. destruct Hcov as [?|?]; [by left|right; eauto].
Qed.

(** The identity a line is recorded under. *)
Definition line_id (line : list ascii) (id : string) : Prop :=
  ∃ p, canonical_payload_from_bytes line = Ok p ∧ p_event_id p = id.

Lemma canonical_payload_bytes line p :
  canonical_payload_from_bytes line = Ok p → p_bytes p = line.
Proof.
  unfold canonical_payload_from_bytes. destruct (map_err _ (from_slice line)); [|done].
  destruct (ok_or _ _); [|done]. destruct (validate_canonical_event_bytes _ _); [|done].
  by intros [= <-].
Qed.

Lemma account_lines_counted db seen0 u0 acc lines acc' :
  counted db seen0 u0 acc → try_fold (account_line io db) acc lines = Ok acc' →
  counted db seen0 u0 acc' ∧
  (∀ id b, bm_get id acc.1 = Some b → bm_get id acc'.1 = Some b) ∧
  ∀ line, line ∈ lines → ∃ id, line_id line id ∧ covered db acc'.1 id line.
Proof.
  apply account_fold_counted. intros acc0 line acc1. unfold account_line, account_unread_payload.
  case_bool_decide; [done|].
  destruct (canonical_payload_from_bytes line) as [p|] eqn:Hp; simpl; [|done].
  intros Ha. exists p. split_and!; [done|by eapply canonical_payload_bytes|]. by exists p.
Qed.

Lemma account_prospective_counted db seen0 u0 acc ps acc' :
  counted db seen0 u0 acc → try_fold (account_prospective io db) acc ps = Ok acc' →
  counted db seen0 u0 acc' ∧
  (∀ id b, bm_get id acc.1 = Some b → bm_get id acc'.1 = Some b) ∧
  ∀ p, p ∈ ps → covered db acc'.1 (p_event_id p) (p_bytes p).
Proof.
  intros C Hf. apply (account_fold_counted _ (λ p id, id = p_event_id p) p_bytes db seen0 u0)
    in Hf as (C' & Hk & Hall); [| |done].
  - split_and!; [done|done|]. intros p Hp. by destruct (Hall p Hp) as (id & -> & ?).
  - intros acc0 p acc1. unfold account_prospective.
    destruct (validate_capacity_payload p); [|done]. eauto.
Qed.

End account.

(** ** The inspection of the journal *)

Section inspect.
Context `{Digest, Diagnostics, JsonCodec, PathResolver} (io : Io).

Lemma scan_Ok db max path b offset is_last st st' :
  0 ≤ sc_scanned st ≤ max → max ≤ u64_max →
  scan_jsonl_generation_capacity io db max path b offset is_last st = Ok st' →
  try_fold (account_line io db) (sc_seen st, sc_base st) (split_lines (drop offset b)).1 =
    Ok (sc_seen st', sc_base st') ∧ 0 ≤ sc_scanned st' ≤ max ∧ (offset ≤ length b)%nat.
Proof.
  intros Hsc Hu. unfold scan_jsonl_generation_capacity.
  destruct (Nat.ltb_spec (length b) offset); [done|].
  destruct (scan_chunks _ _ _ _ _ _ _ _ _) as [[line st1]|] eqn:Hs; [|done].
  pose proof Hs as Hb. apply scan_chunks_bounded in Hb as [Hb1 Hb2]; [|lia..]. simpl in Hb1, Hb2.
  destruct (_ && _); [done|]. intros [= <-]. split; [|split; lia].
  destruct (decide (offset < length b)%nat) as [Hlt|Hge].
  - assert (io "read JSONL capacity range" path = None) as Hio.
    { destruct (io "read JSONL capacity range" path) eqn:Hio; [|done].
      destruct (length b) as [|n] eqn:Hn; [lia|]. cbn [scan_chunks] in Hs. rewrite Hn in Hs.
      rewrite (proj2 (Nat.ltb_lt _ _)) in Hs by lia.
      unfold read_range, io_try in Hs. by rewrite Hio in Hs. }
    rewrite scan_chunks_spec in Hs; try done; simpl; try lia; [|set_solver].
    cbn [app] in Hs. destruct (try_fold _ _ _) as [[seen base]|]; [|done].
    by injection Hs as _ <-.
  - rewrite drop_ge by lia. simpl.
    destruct (length b) as [|n] eqn:Hn; cbn [scan_chunks] in Hs.
    + by injection Hs as _ <-.
    + rewrite Hn, (proj2 (Nat.ltb_ge _ _)) in Hs by lia. by injection Hs as _ <-.
Qed.

(** The lines of a file that the inspection reads. *)
Definition unread_from (start_index start_offset index : nat) : nat :=
  if (index =? start_index)%nat then start_offset else O.

Definition unread_lines (start_index start_offset index : nat) (f : JournalFile)
    : list (list ascii) :=
  (split_lines (drop (unread_from start_index start_offset index) (jf_bytes f))).1.

Lemma inspect_generation_Ok fs db max cursor si so total index f st st' :
  find_file fs (jf_path f) = Some f → 0 ≤ sc_scanned st ≤ max → max ≤ u64_max →
  inspect_generation io fs db max cursor si so total index (generation_of f) st = Ok st' →
  try_fold (account_line io db) (sc_seen st, sc_base st) (unread_lines si so index f) =
    Ok (sc_seen st', sc_base st') ∧ 0 ≤ sc_scanned st' ≤ max ∧
  (unread_from si so index ≤ length (jf_bytes f))%nat.
Proof.
  intros Hf Hsc Hu. unfold inspect_generation.
  destruct (bounded_cursor_text _ _); [|done]. destruct (stable_file_identity _ _ _ _); [|done].
  destruct (negb _); [done|]. destruct (io_try _ _ _); [|done].
  cbn [generation_of jg_path]. rewrite Hf.
  destruct (match cursor with Some _ => _ | None => _ end); [|done].
  destruct (scan_jsonl_generation_capacity _ _ _ _ _ _ _ _) as [st1|] eqn:Hs; [|done].
  intros [= <-]. by eapply scan_Ok.
Qed.

Lemma inspect_generations_Ok fs db max cursor si so total seen0 u0 L st st' :
  (∀ k g, (k, g) ∈ L → ∃ f, g = generation_of f ∧ find_file fs (jf_path f) = Some f) →
  0 ≤ sc_scanned st ≤ max → max ≤ u64_max →
  counted db seen0 u0 (sc_seen st, sc_base st) →
  try_fold (λ st '(index, generation),
    inspect_generation io fs db max cursor si so total index generation st) st L = Ok st' →
  counted db seen0 u0 (sc_seen st', sc_base st') ∧
  (∀ id b, bm_get id (sc_seen st) = Some b → bm_get id (sc_seen st') = Some b) ∧
  ∀ k f, (k, generation_of f) ∈ L → find_file fs (jf_path f) = Some f →
    (unread_from si so k ≤ length (jf_bytes f))%nat ∧
    ∀ line, line ∈ unread_lines si so k f →
    ∃ id, line_id line id ∧ covered db (sc_seen st') id line.
Proof.
  intros HL. revert st; induction L as [|[k g] L IH]; intros st Hsc Hu C; cbn [try_fold].
  { intros [= <-]. split_and!; [done|done|set_solver]. }
  destruct (inspect_generation _ _ _ _ _ _ _ _ _ _ _) as [st1|] eqn:Hi; [|done]. intros Hf.
  destruct (HL k g) as (f & -> & Hff); [set_solver|].
  apply inspect_generation_Ok in Hi as (Hl & Hsc1 & Hoff); [|done..].
  apply (account_lines_counted io db seen0 u0) in Hl as (C1 & Hk1 & Hc1); [|done].
  apply IH in Hf as (C' & Hk' & Hc'); [|intros k0 g0 Hin0; apply (HL k0); set_solver|done|done|done].
  cbn [fst] in *. split_and!; [done|eauto|].
  intros k' f' [Heq|Hin]%elem_of_cons Hff'; [|eauto].
  injection Heq as -> Hp Hid Ha. assert (f' = f) as -> by (rewrite Hp in Hff'; congruence).
  split; [done|]. intros line Hline.
  destruct (Hc1 line Hline) as (id & Hid' & [?|?]); exists id; (split; [done|]);
    [by left|right; eauto].
Qed.

Lemma inspect_unread_Ok fs db cursor ns ph max insp :
  0 ≤ max ≤ u64_max →
  inspect_unread_jsonl_capacity io fs db (map generation_of fs) cursor ns ph max = Ok insp →
  counted db [] no_usage (ci_payloads insp, ci_base insp) ∧
  (fs ≠ [] → ∃ i o, unread_start (map generation_of fs) cursor ns ph = Ok (i, o) ∧
     ∀ k f, fs !! k = Some f → (i ≤ k)%nat →
       (unread_from i o k ≤ length (jf_bytes f))%nat ∧
       ∀ line, line ∈ unread_lines i o k f →
       ∃ id, line_id line id ∧ covered db (ci_payloads insp) id line).
Proof.
  intros Hmax. unfold inspect_unread_jsonl_capacity.
  destruct (bounded_cursor_text ns _) as [ns'|] eqn:Hns; [|done].
  apply bounded_cursor_text_Ok in Hns as [-> _].
  destruct (validate_journal_path_hash ph) as [ph'|] eqn:Hph; [|done].
  apply validate_journal_path_hash_Ok in Hph as ->.
  destruct (validate_observed_generations _ _ _) as [obs|] eqn:Ho; [|done].
  destruct (observed_files _ _ _ Ho) as (_ & _ & Hfile). destruct (negb _); [done|].
  destruct (unread_start _ _ _ _) as [[i o]|] eqn:Hst; [|done].
  destruct (Nat.leb_spec (length (map generation_of fs)) i) as [Hge|Hlt].
  { destruct cursor; [done|]. intros [= <-]. simpl. split.
    - by apply counted_refl; constructor.
    - injection Hst as <- <-. destruct fs; [done|]. simpl in Hge. lia. }
  destruct (try_fold _ _ _) as [st|] eqn:Hf; [|done]. intros [= <-]. simpl.
  apply (inspect_generations_Ok _ _ _ _ _ _ _ [] no_usage) in Hf as (C & _ & Hc);
    [| |simpl; lia|lia|by apply counted_refl; constructor].
  - split; [done|]. intros _. exists i, o. split; [done|]. intros k f Hk Hik.
    apply Hc; [|by apply Hfile; eapply list_elem_of_lookup_2].
    apply list_elem_of_lookup. exists (k - i)%nat. rewrite lookup_drop.
    replace (i + (k - i))%nat with k by lia. rewrite list_lookup_imap, list_lookup_fmap, Hk. done.
  - intros k g Hin. apply list_elem_of_lookup in Hin as [j Hj]. rewrite lookup_drop in Hj.
    rewrite list_lookup_imap, list_lookup_fmap in Hj.
    destruct (fs !! (i + j)%nat) as [f|] eqn:Hfj; [|done]. injection Hj as <- <-. exists f.
    split; [done|]. apply Hfile. by eapply list_elem_of_lookup_2.
Qed.

End inspect.

(** ** The theorem on a concrete journal *)

Module CapacitySample.
Import OutboxSample.

Definition start : ScanState := {| sc_seen := []; sc_scanned := 0; sc_base := no_usage |}.

Lemma scan_by_lines_witness :
  is_ok (scan_jsonl_generation_capacity no_faults (new_db "ns") 1000 "log" (jf_bytes journal) 0 true
           start) = true ∧
  is_ok (scan_jsonl_generation_capacity no_faults (new_db "ns") 100 "log" (jf_bytes journal) 0 true
           start) = false.
Proof.
  pose proof (scan_by_lines no_faults (new_db "ns") 1000 "log" (jf_bytes journal) 0 true start) as H1.
  pose proof (scan_by_lines no_faults (new_db "ns") 100 "log" (jf_bytes journal) 0 true start) as H2.
  cbv zeta in H1, H2.
  replace (sc_scanned start + Z.of_nat (length (jf_bytes journal) - 0)) with 105 in H1, H2
    by (vm_compute; reflexivity).
  change (105 <=? 1000) with true in H1. change (105 <=? 100) with false in H2. cbv iota in H1, H2.
  split.
  - rewrite H1; [vm_compute; reflexivity|reflexivity|lia|simpl; lia|unfold u64_max; lia].
  - apply H2; [reflexivity|lia|simpl; lia|unfold u64_max; lia].
Defined.

End CapacitySample.
