(* ===== verification/OutboxAdmission.v ===== *)
(** * Admission bounds the queue

    A batch that the capacity check admits, written to the journal and ingested, never
    takes the queue past the configured limits: the check and the ingestion are separate
    code that reads the journal in different ways, and this file shows they agree. *)

From S2P Require Import Prelude Ordered Rstr Json Delivery Journal Outbox OutboxInv OutboxPrune.
From S2P Require Import OutboxPruneSafe Dispatch DispatchInv DispatchLive OutboxSystem OutboxCapacity.
From stdpp Require Import gmap relations.
From Stdlib Require Import Ascii.

Local Open Scope Z_scope.

(** ** Every stored event is queued for every bound sink *)

Section queued.
Context `{Digest, Diagnostics, JsonCodec, PathResolver} `{!DigestLaws, !JsonCodecLaws}.

Definition fully_queued (db : Db) : Prop :=
  match db_meta db !! "durable_sink_ids" with
  | None => db_events db = ∅
  | Some text => ∃ ids, ids_from_str text = Some ids ∧
      ∀ e row s, db_events db !! e = Some row →
        is_delivery_failure_alert_payload (ev_payload row) = false → s ∈ ids →
        is_Some (db_deliveries db !! (e, s))
  end.

Lemma ensure_sink_identities_binds io db ids db' :
  ensure_sink_identities io db ids = Ok db' →
  ∃ text, db_meta db' !! "durable_sink_ids" = Some text ∧ ids_from_str text = Some ids ∧
    (∀ t, db_meta db !! "durable_sink_ids" = Some t → t = text).
Proof.
  unfold ensure_sink_identities. destruct (io_try _ _ _); [|done].
  destruct (db_meta db !! "durable_sink_ids") as [e|] eqn:He.
  - destruct (ids_from_str e) as [parsed|] eqn:Hp; [|done]. cbn [ok_or].
    case_bool_decide as Hne; [done|]. intros [= <-]. exists e. rewrite He.
    split_and!; [done|by rewrite Hp; f_equal|congruence].
  - destruct (io_try _ _ _); [|done]. intros [= <-]. exists (ids_to_string ids).
    cbn [set_meta db_meta]. rewrite lookup_insert_eq, ids_roundtrip. done.
Qed.

(** A successful reconciliation binds its sinks, and they are the ones bound before. *)
Lemma reconcile_binds io now log sinks w db' r :
  reconcile_body io now log sinks w = Ok (db', r) →
  ∃ ids text, validate_sink_ids sinks false = Ok ids ∧
    db_meta db' !! "durable_sink_ids" = Some text ∧ ids_from_str text = Some ids ∧
    ∀ t, db_meta (w_db w) !! "durable_sink_ids" = Some t → t = text.
Proof.
  intros Hr. pose proof Hr as Hinv.
  apply reconcile_inv in Hinv as (ids & _ & _ & _ & Hids & _).
  revert Hr. unfold reconcile_body. rewrite Hids.
  destruct (io_try _ _ _); [|done]. destruct (io_try _ _ _); [|done].
  destruct (read_ingest_cursor io (w_db w)) as [cur'|]; [|done].
  destruct (discover_jsonl_generations _ _ _ _) as [gs|] eqn:Hg; [|done].
  destruct (journal_namespace_of io (w_db w)) as [ns'|]; [|done].
  destruct (ensure_journal_path _ _ _) as [db1|] eqn:H1'; [|done].
  destruct (ensure_sink_identities _ _ _) as [db2|] eqn:H2'; [|done].
  destruct (ensure_generation_metadata _ _ _ _ _ _) as [db3|] eqn:H3'; [|done].
  apply discover_Ok in Hg. rewrite Hg in *.
  apply ensure_generation_metadata_spec in H3' as (E3 & _).
  apply ensure_sink_identities_binds in H2' as (text & Ht & Hd & Hsame).
  assert (db_meta db3 !! "durable_sink_ids" = Some text) as Ht3 by (rewrite E3; exact Ht).
  intros Hr. exists ids, text. split_and!; [done| |done|].
  - assert (db_meta db' = db_meta db3) as ->; [|done]. revert Hr.
    destruct (w_fs w) as [|f fs]; cbn [map].
    + destruct cur'; [done|]. destruct (io_try _ _ _); [|done]. by intros [= <- _].
    + destruct (collect _ _) as [ss|]; [|done].
      destruct (build_reconciliation_plan _ _ _ _) as [plan|] eqn:Hplan; [|done].
      destruct (apply_plan _ _ _ _ _) as [db4|] eqn:Ha; [|done].
      destruct (io_try _ _ _); [|done]. destruct (io_try _ _ _); [|done]. intros [= <- _].
      destruct (apply_plan_spec _ _ _ _ _ _ _ _ _ _ Hplan Ha) as (db5 & I & ->). simpl.
      apply (ins_meta _ _ _ _ _ I).
  - intros t Hmeta. apply Hsame.
    apply ensure_journal_path_spec in H1' as (_ & Hsub & _). by eapply lookup_weaken.
Qed.

Lemma reconcile_queued io now log sinks w :
  fully_queued (w_db w) → fully_queued (w_db (reconcile_jsonl io now log sinks w).1).
Proof.
  intros Hq. destruct (reconcile_jsonl io now log sinks w) as [w' r] eqn:Hrec.
  pose proof Hrec as Hbody. unfold reconcile_jsonl, transact in Hbody.
  destruct (reconcile_body io now log sinks w) as [[db' r']|] eqn:Hr; simplify_eq/=; [|done].
  pose proof (reconcile_binds _ _ _ _ _ _ _ Hr) as (ids & text & Hids & Ht & Hd & Hsame).
  unfold fully_queued. rewrite Ht. exists ids. split; [done|].
  assert (∀ e row s, db_events (w_db w) !! e = Some row →
    is_delivery_failure_alert_payload (ev_payload row) = false → s ∈ ids →
    is_Some (db_deliveries (w_db w) !! (e, s))) as Hold.
  { unfold fully_queued in Hq. destruct (db_meta (w_db w) !! "durable_sink_ids") as [t|].
    - destruct Hq as (ids' & Hd' & Hq). rewrite (Hsame t eq_refl), Hd in Hd'.
      injection Hd' as <-. done.
    - intros e row s. by rewrite Hq, lookup_empty. }
  destruct (decide (w_fs w = [])) as [Hnil|Hfs].
  - apply reconcile_inv in Hr as (? & ? & ? & db0 & _ & _ & P & [(_ & _ & -> & _)|(plan & Hplan & _)]).
    + intros e row s. rewrite (pr_events _ _ _ _ _ P), (pr_deliveries _ _ _ _ _ P). apply Hold.
    + rewrite Hnil in Hplan. revert Hplan. unfold build_reconciliation_plan.
      destruct (plan_start _ _ _ _) as [[i o]|]; [|done]. done.
  - destruct (reconcile_reconciled _ _ _ _ _ _ _ Hfs Hrec) as (ids' & cur & plan & R & _).
    pose proof (rec_sinks _ _ _ _ _ _ _ _ _ R) as Hids'. rewrite Hids in Hids'.
    injection Hids' as <-. simpl in R.
    intros e row s He Hal Hs. rewrite (rec_deliveries _ _ _ _ _ _ _ _ _ R). simpl.
    destruct (db_deliveries (w_db w) !! (e, s)) as [d|] eqn:Hdel; [eauto|].
    destruct (db_events (w_db w) !! e) as [row0|] eqn:He0.
    { pose proof (lookup_weaken _ _ _ _ He0 (rec_events_kept _ _ _ _ _ _ _ _ _ R)) as Hk.
      simpl in Hk. assert (row0 = row) as -> by congruence.
      destruct (Hold e row s He0 Hal Hs) as [d Hd']. congruence. }
    destruct (rec_events_new _ _ _ _ _ _ _ _ _ R e) as [[? ?]|(p & Hp & Hid)];
      [by exists row|congruence|].
    destruct (rec_events _ _ _ _ _ _ _ _ _ R p Hp) as (row' & Hrow' & Hb & _).
    simpl in Hrow'. rewrite Hid in Hrow'. assert (row' = row) as -> by congruence.
    assert (existsb (queues ids e s) (rp_payloads plan) = true) as ->; [|eauto].
    apply existsb_exists. exists p. split; [by apply list_elem_of_In|]. unfold queues.
    rewrite <- Hb, Hal, (proj2 (str_eqb_spec _ _)), (proj2 (str_in_spec _ _)) by done. done.
Qed.

Lemma queued_same db db' :
  db_meta db' = db_meta db → db_events db' = db_events db → evolves db db' →
  fully_queued db → fully_queued db'.
Proof.
  unfold fully_queued. intros -> -> Hev. destruct (db_meta db !! _) as [text|]; [|done].
  intros (ids & Hd & Hq). exists ids. split; [done|]. intros e row s He Ha Hs.
  destruct (Hq e row s He Ha Hs) as [d Hdel].
  destruct (evo_rows _ _ Hev _ _ Hdel) as (d' & ? & _). eauto.
Qed.

Lemma step_queued w w' : outbox_step w w' → fully_queued (w_db w) → fully_queued (w_db w').
Proof.
  intros Hstep. pose proof (step_evolves _ _ Hstep) as Hev.
  destruct Hstep as [w0 fs|io now log sinks w0 Hn|io tr tu now set w0 Hc Ht|io s now w0|io now log keep w0].
  - done.
  - apply reconcile_queued.
  - destruct (dispatch_same_records io tr tu now set w0 Hc) as (He & _ & Hm & _).
    by apply queued_same.
  - apply queued_same; [| |done]; unfold release_blocked_for_sink, transact;
      (destruct (release_body io s now (w_db w0)) as [[db' n]|] eqn:Hr; [|done]); simpl;
      revert Hr; unfold release_body; destruct (validate_sink_ids [s] false); try done;
      destruct (ok_or _ _); try done; repeat (destruct (io_try_delivery _ _ _); [|done]);
      by intros [= <- _].
  - pose proof (prune_pass_step io now log keep w0) as P. pose proof (ps_db _ _ _ P) as Hs.
    by apply queued_same; [rewrite Hs|rewrite Hs|].
Qed.

Lemma reachable_queued w : reachable w → fully_queued (w_db w).
Proof.
  intros (ns & fs & Hr).
  assert (fully_queued (w_db {| w_db := new_db ns; w_fs := fs |})) as H0' by done.
  revert H0'. induction Hr as [|w1 w2 w3 H12 _ IH]; [done|]. intros Hq.
  by apply IH, (step_queued w1).
Qed.

End queued.

(** ** The records a plan reads *)

Section plan_lines.
Context `{Digest, Diagnostics, JsonCodec, PathResolver}.

Lemma line_id_fun line id id' : line_id line id → line_id line id' → id = id'.
Proof. intros (p & Hp & <-) (q & Hq & <-). congruence. Qed.

Lemma parse_record_id gid o line p :
  parse_record gid o line = Ok p → p_bytes p = line ∧ line_id line (p_event_id p).
Proof.
  intros Hr. pose proof (parse_record_Ok _ _ _ _ Hr) as (Hb & _). split; [done|].
  revert Hr. unfold parse_record. case_bool_decide; [done|].
  destruct (canonical_payload_from_bytes line) as [q|] eqn:Hq; simpl; [|done].
  intros [= <-]. by exists q.
Qed.

Lemma parse_generation_lines s o pr p :
  parse_generation s o = Ok pr → p ∈ gp_payloads pr →
  p_bytes p ∈ (split_lines (drop o (snap_bytes s))).1 ∧ line_id (p_bytes p) (p_event_id p).
Proof.
  destruct s as [gid b]. intros Hp Hin. pose proof (parse_stop _ _ _ _ Hp) as Hs.
  simpl. destruct (split_lines (drop o b)) as [ls t]. destruct Hs as (_ & _ & Hl & _). simpl.
  unfold parse_lines in Hl. apply collect_Ok in Hl.
  apply list_elem_of_lookup in Hin as [i Hi].
  destruct (Forall2_lookup_r _ _ _ _ _ Hl Hi) as ([o' line] & Hloc & Hr).
  apply parse_record_id in Hr as [Hb Hid]. subst line. split; [|done].
  apply list_elem_of_lookup_2 in Hloc. revert Hloc. clear. revert o.
  induction ls as [|x ls IH]; intros o; simpl; [set_solver|].
  intros [[= -> ->]|Hin]%elem_of_cons; [set_solver|]. apply elem_of_cons. eauto.
Qed.

Lemma plan_loop_lines si so index rest st st' J :
  drop index J = rest → (si ≤ index)%nat → plan_loop si so index rest st = Ok st' →
  ∀ p, p ∈ pl_payloads st' → p ∈ pl_payloads st ∨
    ∃ k s, J !! k = Some s ∧ (si ≤ k)%nat ∧ line_id (p_bytes p) (p_event_id p) ∧
      p_bytes p ∈ (split_lines (drop (unread_from si so k) (snap_bytes s))).1.
Proof.
  revert index st; induction rest as [|s rest IH]; intros index st Hd Hi; cbn [plan_loop].
  { intros [= <-]. auto. }
  destruct (parse_generation s _) as [pr|] eqn:Hp; [|done].
  destruct (ok_or _ _) as [t|]; [|done].
  assert (J !! index = Some s) as Hs.
  { rewrite <- (Nat.add_0_r index), <- lookup_drop, Hd. done. }
  assert (∀ p, p ∈ pl_payloads st ++ gp_payloads pr → p ∈ pl_payloads st ∨
    ∃ k s, J !! k = Some s ∧ (si ≤ k)%nat ∧ line_id (p_bytes p) (p_event_id p) ∧
      p_bytes p ∈ (split_lines (drop (unread_from si so k) (snap_bytes s))).1) as Hst.
  { intros p [?|Hin]%elem_of_app; [by left|right].
    destruct (parse_generation_lines _ _ _ _ Hp Hin). exists index, s. done. }
  destruct (complete pr); [|intros [= <-]; exact Hst].
  intros Hl p Hin. destruct (IH (S index) _ ltac:(
    rewrite <- Nat.add_1_r, <- drop_drop, Hd; done) ltac:(lia) Hl p Hin) as [Hin'|?]; [|by right].
  by apply Hst.
Qed.

Lemma plan_lines J cur ns ph plan :
  build_reconciliation_plan J cur ns ph = Ok plan →
  ∃ i o, plan_start J cur ns ph = Ok (i, o) ∧
  ∀ p, p ∈ rp_payloads plan →
    ∃ k s, J !! k = Some s ∧ (i ≤ k)%nat ∧ line_id (p_bytes p) (p_event_id p) ∧
      p_bytes p ∈ (split_lines (drop (unread_from i o k) (snap_bytes s))).1.
Proof.
  unfold build_reconciliation_plan. destruct (plan_start J cur ns ph) as [[i o]|]; [|done].
  destruct (_ <=? _)%nat; [done|]. destruct (plan_loop _ _ _ _ _) as [st|] eqn:Hl; [|done].
  destruct (if pl_advance st then _ else _); [|done]. intros [= <-].
  exists i, o. split; [done|]. intros p Hp.
  destruct (plan_loop_lines _ _ _ _ _ _ J eq_refl (Nat.le_refl _) Hl p Hp) as [Hn|?]; [|done].
  simpl in Hn. set_solver.
Qed.

(** The scan and the plan start at the same place. *)
Lemma starts_agree fs fs' cur ns ns' ph i o i' o' :
  map jf_identity fs' = map jf_identity fs → NoDup (map jf_identity fs) →
  unread_start (map generation_of fs) cur ns ph = Ok (i, o) →
  plan_start (map snapshot_of fs') cur ns' ph = Ok (i', o') → i' = i ∧ o' = o.
Proof.
  intros Hmap Hnd. destruct cur as [c|]; [|naive_solver]. intros Hu Hp.
  apply plan_start_Some in Hp as (_ & _ & -> & s & Hs & Hid & _). revert Hu. unfold unread_start.
  destruct (negb _); [done|]. destruct (negb _); [done|].
  destruct (matching_indices jg_identity (generation_id c) (map generation_of fs))
    as [|j [|? ?]] eqn:Hm; [done| |done]. intros [= <- <-]. split; [|done].
  assert (j ∈ matching_indices jg_identity (generation_id c) (map generation_of fs)) as Hj
    by (rewrite Hm; set_solver).
  apply matching_indices_elem in Hj as (g & Hg & Hgid).
  rewrite list_lookup_fmap in Hg. rewrite list_lookup_fmap in Hs.
  destruct (fs !! j) as [f|] eqn:Hf; [|done]. destruct (fs' !! i') as [f'|] eqn:Hf'; [|done].
  simpl in Hg, Hs. simplify_eq/=.
  eapply (NoDup_lookup (map jf_identity fs)); [done| |].
  - rewrite <- Hmap, list_lookup_fmap, Hf'. simpl. by rewrite Hid.
  - rewrite list_lookup_fmap, Hf. simpl. by rewrite Hgid.
Qed.

Lemma whole_lines b o : boundary b (length b) → (split_lines (drop o b)).2 = [].
Proof.
  intros [_ Hb]. pose proof (split_lines_join (drop o b)) as Hj.
  pose proof (split_lines_tail (drop o b)) as Ht.
  destruct (split_lines (drop o b)) as [ls t]. simpl in *.
  destruct t as [|x t _] using rev_ind; [done|]. exfalso.
  assert (∃ pre, b = pre ++ [x]) as [pre ->].
  { exists (take o b ++ unlines ls ++ t). by rewrite <- (take_drop o b) at 1; rewrite <- Hj, <- !app_assoc. }
  unfold off_boundary, byte_at_is in Hb. rewrite length_app in Hb. simpl in Hb.
  replace (length pre + 1 - 1)%nat with (length pre) in Hb by lia.
  rewrite list_lookup_middle in Hb by done.
  rewrite (proj2 (Nat.ltb_lt _ _)) in Hb by lia. cbn [andb] in Hb.
  apply negb_false_iff, Ascii.eqb_eq in Hb. subst x. set_solver.
Qed.

(** The lines of a grown file. *)
Lemma grown_lines b lines o :
  boundary b (length b) → (o ≤ length b)%nat → Forall (λ x, newline ∉ x) lines →
  (split_lines (drop o (b ++ unlines lines))).1 = (split_lines (drop o b)).1 ++ lines.
Proof.
  intros Hb Ho Hl. rewrite drop_app_le by lia. rewrite split_lines_app. cbn [fst].
  by rewrite (whole_lines b o Hb), app_nil_l, split_lines_unlines.
Qed.

End plan_lines.

(** ** The bound *)

Section bound.
Context `{Digest, Diagnostics, JsonCodec, PathResolver}.

Definition queue_entry (entry : string * EventCols) : string * list ascii :=
  (entry.1, ev_payload entry.2).

Lemma weight_app l k : weight (l ++ k) = weight l + weight k.
Proof. induction l as [|[i b] l IH]; simpl; lia. Qed.

Lemma weight_nonneg l : 0 ≤ weight l.
Proof. induction l as [|[i b] l IH]; simpl; lia. Qed.

#[local] Instance weight_perm : Proper (Permutation ==> eq) weight.
Proof. induction 1 as [|[i b]|[i b] [j c]|]; simpl; lia. Qed.

Lemma weight_submseteq l k : l ⊆+ k → weight l ≤ weight k.
Proof.
  intros (k' & ->)%submseteq_Permutation. rewrite weight_app. pose proof (weight_nonneg k'). lia.
Qed.

Lemma query_pending_Ok io db u :
  query_pending_capacity io db = Ok u →
  us_events u = Z.of_nat (length (queued_events db)) ∧
  us_bytes u = weight (map queue_entry (queued_events db)).
Proof.
  unfold query_pending_capacity. destruct (io_try _ _ _); [|done]. intros [= <-]. simpl.
  split; [done|]. induction (queued_events db) as [|[e row] l IH]; simpl; [done|]. by rewrite IH.
Qed.

Lemma queued_nodup db : NoDup (map queue_entry (queued_events db)).
Proof.
  apply (NoDup_fmap_1 fst). rewrite <- list_fmap_compose.
  change (fst ∘ queue_entry) with (@fst string EventCols).
  apply (sublist_NoDup _ (map_to_list (db_events db)).*1).
  - apply NoDup_fst_map_to_list.
  - apply fmap_sublist, sublist_filter.
Qed.

Lemma has_queued_spec db e :
  has_queued db e = true ↔ ∃ s row, db_deliveries db !! (e, s) = Some row ∧ in_queue row = true.
Proof.
  unfold has_queued. rewrite existsb_exists. split.
  - intros ([[e' s] row] & Hin & Hq). apply andb_true_iff in Hq as [He Hq].
    apply str_eqb_spec in He as ->. apply list_elem_of_In, elem_of_map_to_list in Hin. eauto.
  - intros (s & row & Hr & Hq). exists ((e, s), row). split.
    + by apply list_elem_of_In, elem_of_map_to_list.
    + by rewrite (proj2 (str_eqb_spec e e)), Hq.
Qed.

Lemma queued_events_spec db e row :
  (e, row) ∈ queued_events db ↔ db_events db !! e = Some row ∧ has_queued db e = true.
Proof. unfold queued_events. rewrite list_elem_of_filter, elem_of_map_to_list. naive_solver. Qed.

(** Entries that were queued, or are among counted records. *)
Lemma queue_within db db' seen :
  bm_wf seen →
  (∀ e row, (e, row) ∈ queued_events db' →
     (e, row) ∈ queued_events db ∨ bm_get e seen = Some (ev_payload row)) →
  Z.of_nat (length (queued_events db')) ≤
    Z.of_nat (length (queued_events db)) + Z.of_nat (length seen) ∧
  weight (map queue_entry (queued_events db')) ≤
    weight (map queue_entry (queued_events db)) + weight seen.
Proof.
  intros Hwf Hin.
  assert (map queue_entry (queued_events db') ⊆+ map queue_entry (queued_events db) ++ seen) as Hsub.
  { apply NoDup_submseteq; [apply queued_nodup|]. intros [e b] Hb.
    apply list_elem_of_fmap in Hb as ([e' row] & [= -> ->] & Hq).
    apply elem_of_app. destruct (Hin e' row Hq) as [Hold|Hs].
    - left. apply list_elem_of_fmap. by exists (e', row).
    - right. by apply bm_get_elem. }
  split.
  - apply submseteq_length in Hsub. rewrite length_app, !length_map in Hsub. lia.
  - apply weight_submseteq in Hsub. by rewrite weight_app in Hsub.
Qed.

(** What the inspection counted: the queue and the unread records that are not stored. *)
Record inspected (io : Io) (log : string) (w : World) (insp : CapacityInspection)
    (cur : option IngestCursor) : Prop := {
  isp_cursor : read_ingest_cursor io (w_db w) = Ok cur;
  isp_ids : NoDup (map jf_identity (w_fs w));
  isp_wf : bm_wf (ci_payloads insp);
  isp_events : us_events (ci_base insp) =
    Z.of_nat (length (queued_events (w_db w))) + Z.of_nat (length (ci_payloads insp));
  isp_bytes : us_bytes (ci_base insp) =
    weight (map queue_entry (queued_events (w_db w))) + weight (ci_payloads insp);
  isp_lines : w_fs w ≠ [] → ∃ ns i o,
    unread_start (map generation_of (w_fs w)) cur ns (journal_path_hash_of log) = Ok (i, o) ∧
    ∀ k f, w_fs w !! k = Some f → (i ≤ k)%nat →
      (unread_from i o k ≤ length (jf_bytes f))%nat ∧
      ∀ line, line ∈ unread_lines i o k f →
      ∃ id, line_id line id ∧ covered (w_db w) (ci_payloads insp) id line;
}.

Lemma inspect_inputs_Ok io log w insp :
  inspect_capacity_inputs io MAX_CAPACITY_SCAN_BYTES log w = Ok insp →
  ∃ cur, inspected io log w insp cur.
Proof.
  unfold inspect_capacity_inputs.
  destruct (journal_namespace_of _ _) as [ns|]; [|done].
  destruct (verify_journal_path_for_capacity _ _ _) as [bound|]; [|done].
  destruct (discover_jsonl_generations _ _ _ _) as [gs|] eqn:Hg; [|done].
  apply discover_Ok in Hg as ->.
  destruct (validate_generation_metadata_readonly _ _ _ _ _ _) as [[]|] eqn:Hv; [|done].
  apply readonly_observed in Hv as [obs Hobs].
  destruct (observed_files _ _ _ Hobs) as (Hnd & _ & _).
  destruct (read_ingest_cursor io (w_db w)) as [cur|] eqn:Hcur; [|done].
  destruct (query_pending_capacity _ _) as [pending|] eqn:Hq; [|done].
  destruct (inspect_unread_jsonl_capacity _ _ _ _ _ _ _ _) as [unread|] eqn:Hu; [|done].
  apply query_pending_Ok in Hq as [Hqe Hqb].
  apply inspect_unread_Ok in Hu as [C Hlines]; [|unfold MAX_CAPACITY_SCAN_BYTES, u64_max; lia].
  destruct (add_usage _ _ _) as [base|] eqn:Hbase; [|done]. intros [= <-].
  apply add_usage_Ok in Hbase as [Hbe Hbb].
  pose proof (cn_events _ _ _ _ C) as Ce. pose proof (cn_bytes _ _ _ _ C) as Cb.
  exists cur. constructor; cbn [ci_base ci_payloads fst snd length weight foldr us_events us_bytes
    no_usage] in *; [done|done|apply (cn_wf _ _ _ _ C)|lia|lia|].
  intros Hfs. destruct (Hlines Hfs) as (i & o & Hst & Hl). eauto.
Qed.

Lemma check_totals_Ok base proj limits :
  check_capacity_totals base proj limits = Ok tt →
  us_events base + us_events proj ≤ Z.max (us_events base) (max_pending_events limits) ∧
  us_bytes base + us_bytes proj ≤ Z.max (us_bytes base) (max_pending_bytes limits).
Proof.
  unfold check_capacity_totals. destruct ((us_events proj =? 0) && (us_bytes proj =? 0)) eqn:Hz.
  { apply andb_true_iff in Hz as [?%Z.eqb_eq ?%Z.eqb_eq]. lia. }
  destruct (add_usage base _ _) as [total|] eqn:Ht; [|done]. apply add_usage_Ok in Ht as [Hte Htb].
  destruct (Z.ltb_spec (max_pending_events limits) (us_events total)); [done|].
  destruct (Z.ltb_spec (max_pending_bytes limits) (us_bytes total)); [done|]. lia.
Qed.

(** What admission established: everything unread and everything in the batch is
    stored or counted, and the counts are within the limits unless the batch adds
    nothing. *)
Lemma admission_Ok io log ps limits w :
  check_capacity_for_payloads io log ps limits w = Ok tt →
  ∃ insp seen cur, inspect_capacity_inputs io MAX_CAPACITY_SCAN_BYTES log w = Ok insp ∧
    inspected io log w insp cur ∧ bm_wf seen ∧
    (∀ id b, bm_get id (ci_payloads insp) = Some b → bm_get id seen = Some b) ∧
    (∀ p, p ∈ ps → covered (w_db w) seen (p_event_id p) (p_bytes p)) ∧
    Z.of_nat (length (queued_events (w_db w))) + Z.of_nat (length seen) ≤
      Z.max (us_events (ci_base insp)) (max_pending_events limits) ∧
    weight (map queue_entry (queued_events (w_db w))) + weight seen ≤
      Z.max (us_bytes (ci_base insp)) (max_pending_bytes limits).
Proof.
  unfold check_capacity_for_payloads. destruct (validate_capacity_limits limits); [|done].
  destruct (io_try _ _ _); [|done]. unfold check_capacity_payloads_locked.
  destruct (inspect_capacity_inputs _ _ _ _) as [insp|] eqn:Hi; [|done].
  destruct (try_fold _ _ _) as [[seen proj]|] eqn:Hf; [|done]. cbn [snd]. intros Ht.
  apply check_totals_Ok in Ht as [Hte Htb].
  destruct (inspect_inputs_Ok _ _ _ _ Hi) as [cur I].
  pose proof (isp_events _ _ _ _ _ I). pose proof (isp_bytes _ _ _ _ _ I).
  apply (account_prospective_counted io (w_db w) (ci_payloads insp) no_usage)
    in Hf as (C & Hk & Hcov); [|apply counted_refl, (isp_wf _ _ _ _ _ I)].
  pose proof (cn_events _ _ _ _ C) as Ce. pose proof (cn_bytes _ _ _ _ C) as Cb.
  cbn [fst snd us_events us_bytes no_usage] in *.
  exists insp, seen, cur. split_and!; [done|done|apply (cn_wf _ _ _ _ C)|done|done|lia|lia].
Qed.

End bound.

(** ** Admission, then ingestion *)

Section admission.
Context `{Digest, Diagnostics, JsonCodec, PathResolver} `{!DigestLaws, !JsonCodecLaws}.
Context {Event : Type} `{EventSerializer Event} `{!SerializerLaws}.

(** The journal after the batch was appended to its last file. *)
Definition append_last (b : list ascii) (f : JournalFile) : JournalFile :=
  {| jf_path := jf_path f; jf_identity := jf_identity f; jf_active := jf_active f;
     jf_bytes := jf_bytes f ++ b |}.

Lemma batch_line_id p : batch_payload p → line_id (p_bytes p) (p_event_id p).
Proof.
  intros [_ Hr]%batch_payload_Ok. specialize (Hr "" O). by apply parse_record_id in Hr as [_ Hid].
Qed.

(** Every record the next reconciliation reads was stored or counted. *)
Lemma plan_covered io log w insp cur seen pre f batch ns plan :
  inspected io log w insp cur → w_fs w = pre ++ [f] →
  boundary (jf_bytes f) (length (jf_bytes f)) →
  Forall batch_payload (batch_payloads batch) →
  batch_jsonl_bytes batch = unlines (map p_bytes (batch_payloads batch)) →
  (∀ id b, bm_get id (ci_payloads insp) = Some b → bm_get id seen = Some b) →
  (∀ p, p ∈ batch_payloads batch → covered (w_db w) seen (p_event_id p) (p_bytes p)) →
  build_reconciliation_plan
    (map snapshot_of (pre ++ [append_last (batch_jsonl_bytes batch) f])) cur ns
    (journal_path_hash_of log) = Ok plan →
  ∀ p, p ∈ rp_payloads plan → covered (w_db w) seen (p_event_id p) (p_bytes p).
Proof.
  intros I Hfs Hb Hall Hj Hk Hcov Hplan p Hp.
  destruct (isp_lines _ _ _ _ _ I) as (ns0 & i & o & Hst & Hlines);
    [rewrite Hfs; by destruct pre|].
  apply plan_lines in Hplan as (i' & o' & Hst' & Hpl).
  destruct (starts_agree (w_fs w) (pre ++ [append_last (batch_jsonl_bytes batch) f])
    _ _ _ _ _ _ _ _ ltac:(rewrite Hfs, !map_app; done) (isp_ids _ _ _ _ _ I) Hst Hst') as [-> ->].
  destruct (Hpl p Hp) as (k & s & Hs & Hik & Hid & Hline). rewrite list_lookup_fmap in Hs.
  assert (∀ line, line = p_bytes p → (∃ id, line_id line id ∧ covered (w_db w) (ci_payloads insp) id line) →
    covered (w_db w) seen (p_event_id p) (p_bytes p)) as Hold.
  { intros line -> (id & Hid' & Hc). rewrite (line_id_fun _ _ _ Hid Hid').
    destruct Hc as [?|?]; [by left|right; auto]. }
  destruct (decide (k < length pre)%nat) as [Hlt|Hge].
  - rewrite lookup_app_l in Hs by done. destruct (pre !! k) as [fk|] eqn:Hpk; [|done].
    injection Hs as <-.
    destruct (Hlines k fk) as [_ Hl]; [by rewrite Hfs, lookup_app_l|done|].
    eapply Hold; [done|]. by apply Hl.
  - rewrite lookup_app_r in Hs by lia.
    destruct (k - length pre)%nat as [|n] eqn:Hkn; [|by destruct n]. injection Hs as <-.
    destruct (Hlines k f) as [Ho Hl]; [by rewrite Hfs, lookup_app_r, Hkn by lia|done|].
    cbn [snapshot_of snap_bytes append_last jf_bytes] in Hline. rewrite Hj, grown_lines in Hline.
    + apply elem_of_app in Hline as [Hline|Hline]; [eapply Hold; [done|]; by apply Hl|].
      apply list_elem_of_fmap in Hline as (q & Hq & Hin). rewrite Hq in *.
      rewrite Forall_forall in Hall. rewrite (line_id_fun _ _ _ Hid (batch_line_id q (Hall q Hin))).
      by apply Hcov.
    + done.
    + done.
    + apply Forall_map. eapply Forall_impl; [done|]. intros q Hq. by apply batch_payload_Ok.
Qed.

(** An entry of the queue after ingestion was in it before, or was counted. *)
Lemma queue_after io now log sinks w1 w2 ids cur plan seen :
  db_wf (w_db w1) → fully_queued (w_db w1) →
  (∃ text, ids_from_str text = Some ids ∧
     ∀ t, db_meta (w_db w1) !! "durable_sink_ids" = Some t → t = text) →
  reconciled io now log sinks w1 w2 ids cur plan →
  (∀ p, p ∈ rp_payloads plan → covered (w_db w1) seen (p_event_id p) (p_bytes p)) →
  ∀ e row, (e, row) ∈ queued_events (w_db w2) →
    (e, row) ∈ queued_events (w_db w1) ∨ bm_get e seen = Some (ev_payload row).
Proof.
  intros Hwf Hq (text & Htext & Hsame) R Hcov e row.
  rewrite !queued_events_spec, !has_queued_spec. intros [He (s & d & Hd & Hin)].
  rewrite (rec_deliveries _ _ _ _ _ _ _ _ _ R) in Hd.
  destruct (db_deliveries (w_db w1) !! (e, s)) as [d0|] eqn:Hd0.
  - injection Hd as ->. left. split; [|eauto].
    destruct (wf_deliveries _ Hwf _ _ Hd0) as [[row0 Hrow0] _]. simpl in Hrow0.
    pose proof (lookup_weaken _ _ _ _ Hrow0 (rec_events_kept _ _ _ _ _ _ _ _ _ R)). congruence.
  - destruct (existsb _ _) eqn:Hex; [|done]. right.
    apply existsb_exists in Hex as (p & Hp & Hqu). apply list_elem_of_In in Hp.
    apply andb_true_iff in Hqu as [[Hid Hs]%andb_true_iff Hal].
    apply str_eqb_spec in Hid. apply str_in_spec in Hs. apply negb_true_iff in Hal.
    destruct (rec_events _ _ _ _ _ _ _ _ _ R p Hp) as (row' & Hrow' & Hb & _).
    rewrite Hid in Hrow'. assert (row' = row) as -> by congruence.
    rewrite Hb, <- Hid. destruct (Hcov p Hp) as [(row1 & Hrow1 & Hb1)|?]; [exfalso|done].
    rewrite Hid in Hrow1. unfold fully_queued in Hq.
    destruct (db_meta (w_db w1) !! "durable_sink_ids") as [t|] eqn:Ht.
    + destruct Hq as (ids' & Hids' & Hq). rewrite (Hsame t eq_refl), Htext in Hids'.
      injection Hids' as <-. rewrite <- Hb1 in Hal.
      destruct (Hq e row1 s Hrow1 Hal Hs) as [? ?]. congruence.
    + by rewrite Hq, lookup_empty in Hrow1.
Qed.

(** C2: admission bounds the queue.  In any reachable state, when the capacity check
    admits a batch, the batch is appended to the journal's last file (which ends in a
    complete record) and the journal is ingested, then the number and the bytes of the
    queued events exceed neither the limits nor what the queue and the unread journal
    already held. *)
Theorem admission_bounds_queue io io' now log sinks limits events batch pre f w w2 r u :
  reachable w → w_fs w = pre ++ [f] → boundary (jf_bytes f) (length (jf_bytes f)) →
  event3_durable_batch events = Ok batch →
  check_capacity_for_payloads io log (batch_payloads batch) limits w = Ok tt →
  reconcile_jsonl io' now log sinks
    {| w_db := w_db w; w_fs := pre ++ [append_last (batch_jsonl_bytes batch) f] |} = (w2, Ok r) →
  query_pending_capacity no_faults (w_db w2) = Ok u →
  ∃ held, inspect_capacity_inputs io MAX_CAPACITY_SCAN_BYTES log w = Ok held ∧
    us_events u ≤ Z.max (us_events (ci_base held)) (max_pending_events limits) ∧
    us_bytes u ≤ Z.max (us_bytes (ci_base held)) (max_pending_bytes limits).
Proof.
  intros Hreach Hfs Hb Hbatch Hadm Hrec Hu.
  apply batch_spec in Hbatch as (Hj & Hall & _).
  apply admission_Ok in Hadm as (insp & seen & cur & Hi & I & Hwf & Hk & Hcov & He & Hby).
  exists insp. split; [done|]. set (w1 := {| w_db := w_db w; w_fs := _ |}) in Hrec.
  assert (∃ ids text, validate_sink_ids sinks false = Ok ids ∧ ids_from_str text = Some ids ∧
    ∀ t, db_meta (w_db w1) !! "durable_sink_ids" = Some t → t = text)
    as (ids & text & Hids & Htext & Hsame).
  { pose proof Hrec as Hr. unfold reconcile_jsonl, transact in Hr.
    destruct (reconcile_body io' now log sinks w1) as [[db' r']|] eqn:Hbody; [|done].
    apply reconcile_binds in Hbody as (ids & text & ? & _ & ? & ?). eauto 10. }
  apply reconcile_reconciled in Hrec as (ids' & cur' & plan & R & _); [|by destruct pre].
  pose proof (rec_sinks _ _ _ _ _ _ _ _ _ R) as Hids'. rewrite Hids in Hids'. injection Hids' as <-.
  assert (cur' = cur) as ->.
  { pose proof (read_cursor_no_faults _ _ _ (isp_cursor _ _ _ _ _ I)).
    pose proof (read_cursor_no_faults _ _ _ (rec_start _ _ _ _ _ _ _ _ _ R)). simpl in *. congruence. }
  destruct (rec_plan _ _ _ _ _ _ _ _ _ R) as [ns Hplan].
  pose proof (plan_covered _ _ _ _ _ seen _ _ _ _ _ I Hfs Hb Hall Hj Hk Hcov Hplan) as Hpc.
  apply query_pending_Ok in Hu as [-> ->].
  destruct (queue_within (w_db w) (w_db w2) seen Hwf) as [Hq1 Hq2]; [|lia].
  apply (queue_after io' now log sinks w1 w2 ids cur plan); try done.
  - exact (reachable_wf w Hreach).
  - exact (reachable_queued w Hreach).
  - eauto.
Qed.

End admission.

(** ** The theorem on a concrete outbox *)

Module AdmissionSample.
Import SystemSample JournalSample.

Definition limits : CapacityLimits := {| max_pending_events := 3; max_pending_bytes := 1000 |}.

Lemma w1_reachable : reachable w1.
Proof.
  exists "ns", [journal]. apply rtc_once. unfold w1.
  by apply (step_reconcile no_faults 1000 "log" ["hec"] w0).
Qed.

Lemma w1_files : w_fs w1 = [] ++ [journal].
Proof. vm_compute. reflexivity. Qed.

Lemma admission_bounds_queue_witness :
  ∃ batch w2 r u, event3_durable_batch [id_c] = Ok batch ∧
    reconcile_jsonl no_faults 3000 "log" ["hec"]
      {| w_db := w_db w1; w_fs := [] ++ [append_last (batch_jsonl_bytes batch) journal] |} =
      (w2, Ok r) ∧
    query_pending_capacity no_faults (w_db w2) = Ok u ∧ us_events u = 3 ∧
    ∃ held, us_events u ≤ Z.max (us_events (ci_base held)) (max_pending_events limits).
Proof.
  destruct (event3_durable_batch [id_c]) as [batch|] eqn:Hb; [|vm_compute in Hb; discriminate Hb].
  assert (batch = match event3_durable_batch [id_c] with Ok b => b | Err _ => batch end) as Hbatch
    by (by rewrite Hb).
  destruct (reconcile_jsonl no_faults 3000 "log" ["hec"]
    {| w_db := w_db w1; w_fs := [] ++ [append_last (batch_jsonl_bytes batch) journal] |})
    as [w2 [r|e]] eqn:Hr.
  2:{ apply (f_equal (λ x, is_ok x.2)) in Hr. rewrite Hbatch in Hr. vm_compute in Hr. discriminate Hr. }
  destruct (query_pending_capacity no_faults (w_db w2)) as [u|e] eqn:Hu; [|discriminate Hu].
  exists batch, w2, r, u. split; [reflexivity|]. split; [exact Hr|]. split; [exact Hu|]. split.
  - assert (w2 = (reconcile_jsonl no_faults 3000 "log" ["hec"]
      {| w_db := w_db w1; w_fs := [] ++ [append_last (batch_jsonl_bytes batch) journal] |}).1) as ->
      by (by rewrite Hr).
    rewrite Hbatch in Hu. vm_compute in Hu. injection Hu as <-. reflexivity.
  - destruct (admission_bounds_queue no_faults no_faults 3000 "log" ["hec"] limits [id_c] batch []
      journal w1 w2 r u) as (held & _ & He & _).
    + exact w1_reachable.
    + exact w1_files.
    + split; [done|vm_compute; reflexivity].
    + exact Hb.
    + rewrite Hbatch. vm_compute. reflexivity.
    + exact Hr.
    + exact Hu.
    + exists held. exact He.
Defined.

End AdmissionSample.
