(* ===== verification/JournalNames.v ===== *)
(** * Names of journal files

    crates/telltale-sources/src/journal.rs: what a rotated file is called and how its
    name is read back ([rotation_components], [parse_rotated_name], [valid_date]).
    src/sink/jsonl.rs: how the name is built ([rotated_path],
    [rotated_with_counter]) and the date in it ([date_from_days_since_epoch]).

    The theorems: the date is the proleptic Gregorian date of the day, names read back
    as they were built, and names order as the days and counters they carry. *)

From S2P Require Import Prelude Ordered Rstr.
From Stdlib Require Import Ascii.

Local Open Scope Z_scope.

(** ** Text of the standard library *)

(** [std::str::from_utf8(..).is_ok()], for [OsStr::to_str]. *)
Fixpoint utf8_valid (l : list ascii) : bool :=
  match l with
  | [] => true
  | a :: l1 =>
      if is_ascii a then utf8_valid l1
      else
        match l1 with
        | [] => false
        | b :: l2 =>
            if (byte_between 194 223 a && byte_between 128 191 b)%bool then utf8_valid l2
            else
              match l2 with
              | [] => false
              | c :: l3 =>
                  if (((byte_between 224 224 a && byte_between 160 191 b)
                       || (byte_between 225 236 a && byte_between 128 191 b)
                       || (byte_between 237 237 a && byte_between 128 159 b)
                       || (byte_between 238 239 a && byte_between 128 191 b))
                      && byte_between 128 191 c)%bool
                  then utf8_valid l3
                  else
                    match l3 with
                    | [] => false
                    | d :: l4 =>
                        if (((byte_between 240 240 a && byte_between 144 191 b)
                             || (byte_between 241 243 a && byte_between 128 191 b)
                             || (byte_between 244 244 a && byte_between 128 143 b))
                            && byte_between 128 191 c && byte_between 128 191 d)%bool
                        then utf8_valid l4
                        else false
                    end
              end
        end
  end.

Definition to_str (name : string) : option string :=
  if utf8_valid (bytes name) then Some name else None.

Definition dot : ascii := ".".
Definition dash : ascii := "-".

(** [rsplit_once(c)]: around the last [c]. *)
Fixpoint rsplit_once (c : ascii) (l : list ascii) : option (list ascii * list ascii) :=
  match l with
  | [] => None
  | a :: l' =>
      match rsplit_once c l' with
      | Some (before, after) => Some (a :: before, after)
      | None => if byte_eqb a c then Some ([], l') else None
      end
  end.

(** The two halves of a file name behind [Path::file_stem] and [Path::extension]. *)
Definition rsplit_file_at_dot (name : string) : option string * option string :=
  if str_eqb name ".." then (Some name, None)
  else
    match rsplit_once dot (bytes name) with
    | None => (None, Some name)
    | Some ([], _) => (Some name, None)
    | Some (before, after) => (Some (of_bytes before), Some (of_bytes after))
    end.

(** [Path::file_name] of a last component: [.] and [..] are not file names. *)
Definition file_name (name : string) : option string :=
  if str_in name [""; "."; ".."] then None else Some name.

Definition file_stem (name : string) : option string :=
  match file_name name with
  | None => None
  | Some n =>
      match rsplit_file_at_dot n with
      | (Some before, _) => Some before
      | (None, after) => after
      end
  end.

Definition extension (name : string) : option string :=
  match file_name name with
  | None => None
  | Some n =>
      match rsplit_file_at_dot n with
      | (Some _, after) => after
      | (None, _) => None
      end
  end.

Definition digit_value (c : ascii) : Z := Z.of_N (N_of_ascii c) - 48.
Definition digits_value (l : list ascii) : Z := foldl (λ acc c, 10 * acc + digit_value c) 0 l.

Definition strip_plus (l : list ascii) : list ascii :=
  match l with a :: l' => if byte_eqb a "+" then l' else l | [] => [] end.

(** [str::parse] to an unsigned integer of at most [max]. *)
Definition parse_unsigned (max : Z) (s : string) : option Z :=
  let ds := strip_plus (bytes s) in
  match ds with
  | [] => None
  | _ =>
      if forallb is_ascii_digit ds then
        let v := digits_value ds in
        if v <=? max then Some v else None
      else None
  end.

(** [Display] of an unsigned integer below 10^20. *)
Definition digit (z : Z) : ascii := ascii_of_N (Z.to_N (48 + z)).
Fixpoint dec_loop (fuel : nat) (n : Z) (acc : list ascii) : list ascii :=
  match fuel with
  | O => acc
  | S fuel' =>
      if n <? 10 then digit n :: acc else dec_loop fuel' (n / 10) (digit (n mod 10) :: acc)
  end.
Definition decimal (n : Z) : string := of_bytes (dec_loop 20 n []).

(** [{z:0width}]. *)
Definition zero_padded (width : nat) (z : Z) : string :=
  let '(sign, ds) :=
    if z <? 0 then (["-"%char], bytes (decimal (- z))) else ([], bytes (decimal z)) in
  of_bytes (sign ++ replicate (width - length sign - length ds) "0"%char ++ ds).

(** ** Reading a name *)

Definition utf8_required : string := "built-in rotation requires a UTF-8 filename".

Definition rotation_components (active : string) : result (string * string) string :=
  let? stem := ok_or (file_stem active ≫= to_str) utf8_required in
  let? ext := ok_or (extension active ≫= to_str) utf8_required in
  Ok (stem, ext).

(** [str::get] of a byte. *)
Definition byte_at (l : list ascii) (i : nat) (c : ascii) : bool :=
  match l !! i with Some b => byte_eqb b c | None => false end.

(** Positions 4 and 7 hold dashes, so before any other character that is not a digit
    character positions and byte positions agree. *)
Definition valid_date (value : string) : bool :=
  let l := bytes value in
  if negb ((len value =? 10) && byte_at l 4 dash && byte_at l 7 dash)%bool then false
  else if negb (forallb (λ ic : nat * ascii,
                   bool_decide (ic.1 = 4%nat) || bool_decide (ic.1 = 7%nat)
                   || is_ascii_digit ic.2)%bool (imap pair l))
  then false
  else
    let month := default 0 (parse_unsigned u32_max (of_bytes (take 2 (drop 5 l)))) in
    let day := default 0 (parse_unsigned u32_max (of_bytes (take 2 (drop 8 l)))) in
    ((1 <=? month) && (month <=? 12) && (1 <=? day) && (day <=? 31))%bool.

Definition parse_rotated_name (name stem extension : string) : option (string * Z) :=
  let suffix := "." +:+ extension in
  let prefix := stem +:+ "-" in
  match strip_prefix name prefix ≫= λ rest, strip_suffix rest suffix with
  | None => None
  | Some value =>
      match rsplit_once dot (bytes value) with
      | Some (date, counter) =>
          if valid_date (of_bytes date) then
            option_map (pair (of_bytes date)) (parse_unsigned u64_max (of_bytes counter))
          else None
      | None => if valid_date value then Some (value, 0) else None
      end
  end.

(** ** Building a name *)

(** Year, month and day of a day number, as [date_from_days_since_epoch] computes them;
    Rust's division truncates. *)
Definition civil_of_days (days : Z) : Z * Z * Z :=
  let z := days + 719468 in
  let era := Z.quot (if 0 <=? z then z else z - 146096) 146097 in
  let doe := z - era * 146097 in
  let yoe := Z.quot (doe - Z.quot doe 1460 + Z.quot doe 36524 - Z.quot doe 146096) 365 in
  let y := yoe + era * 400 in
  let doy := doe - (365 * yoe + Z.quot yoe 4 - Z.quot yoe 100) in
  let mp := Z.quot (5 * doy + 2) 153 in
  let d := doy - Z.quot (153 * mp + 2) 5 + 1 in
  let m := if mp <? 10 then mp + 3 else mp - 9 in
  let y := if m <=? 2 then y + 1 else y in
  (y, m, d).

Definition date_text (c : Z * Z * Z) : string :=
  let '(y, m, d) := c in
  zero_padded 4 y +:+ "-" +:+ zero_padded 2 m +:+ "-" +:+ zero_padded 2 d.

Definition date_from_days_since_epoch (days : Z) : string := date_text (civil_of_days days).

(** The clock's seconds since the epoch, zero when it is before it. *)
Definition current_date_utc (secs : Z) : string :=
  date_from_days_since_epoch (Z.quot secs 86400).

(** The last component of [rotated_path] and of [rotated_with_counter]. *)
Definition rotated_name (active date : string) : result string string :=
  let? (stem, ext) := rotation_components active in
  Ok (stem +:+ "-" +:+ date +:+ "." +:+ ext).

Definition rotated_name_with_counter (active date : string) (counter : Z)
    : result string string :=
  let? (stem, ext) := rotation_components active in
  Ok (stem +:+ "-" +:+ date +:+ "." +:+ decimal counter +:+ "." +:+ ext).

(** ** The calendar *)

Definition is_leap (y : Z) : bool :=
  ((y mod 4 =? 0) && (negb (y mod 100 =? 0) || (y mod 400 =? 0)))%bool.

Definition month_days (y m : Z) : Z :=
  if m =? 2 then if is_leap y then 29 else 28
  else if existsb (Z.eqb m) [4; 6; 9; 11] then 30 else 31.

Definition next_day (c : Z * Z * Z) : Z * Z * Z :=
  let '(y, m, d) := c in
  if d <? month_days y m then (y, m, d + 1)
  else if m <? 12 then (y, m + 1, 1) else (y + 1, 1, 1).

(** A check of every value below a bound. *)
Lemma forall_range (n : nat) (P : Z → bool) z :
  forallb P (map Z.of_nat (seq 0 n)) = true → 0 ≤ z < Z.of_nat n → P z = true.
Proof.
  intros HP Hz. rewrite forallb_forall in HP. apply HP. apply in_map_iff.
  exists (Z.to_nat z). split; [lia|]. apply in_seq. lia.
Qed.

(** The parts of [civil_of_days] for a day of a 400-year era that starts in March. *)
Definition year_of_era (doe : Z) : Z := (doe - doe / 1460 + doe / 36524 - doe / 146096) / 365.
Definition year_start (yoe : Z) : Z := 365 * yoe + yoe / 4 - yoe / 100.
Definition month_from_march (doy : Z) : Z := (5 * doy + 2) / 153.
Definition day_of_month (doy : Z) : Z := doy - (153 * month_from_march doy + 2) / 5 + 1.
Definition civil_of (y doy : Z) : Z * Z * Z :=
  let mp := month_from_march doy in
  let m := if mp <? 10 then mp + 3 else mp - 9 in
  (if m <=? 2 then y + 1 else y, m, day_of_month doy).

Lemma year_of_era_spec doe : 0 ≤ doe < 146097 →
  let y := year_of_era doe in
  0 ≤ y < 400 ∧ year_start y ≤ doe ∧ (y < 399 → doe < year_start (y + 1)).
Proof. unfold year_of_era, year_start. intros. cbv zeta. split_and!; Z.to_euclidean_division_equations; lia. Qed.

Lemma year_of_era_unique doe y : 0 ≤ doe < 146097 → 0 ≤ y < 400 → year_start y ≤ doe →
  (y < 399 → doe < year_start (y + 1)) → year_of_era doe = y.
Proof.
  intros Hd Hy Hl Hh. pose proof (year_of_era_spec doe Hd) as (Hy' & Hl' & Hh').
  assert (∀ a b, a < b → year_start (a + 1) ≤ year_start b) as Hm.
  { intros a b Hab. unfold year_start. Z.to_euclidean_division_equations. lia. }
  destruct (Z.lt_trichotomy (year_of_era doe) y) as [Hlt|[->|Hgt]]; [|done|].
  - specialize (Hm _ _ Hlt). lia.
  - specialize (Hm _ _ Hgt). lia.
Qed.

Lemma civil_of_days_eq days :
  let z := days + 719468 in
  let doe := z mod 146097 in
  civil_of_days days =
  civil_of (year_of_era doe + 400 * (z / 146097)) (doe - year_start (year_of_era doe)).
Proof.
  cbv zeta. unfold civil_of_days. set (z := days + 719468).
  assert (Z.quot (if 0 <=? z then z else z - 146096) 146097 = z / 146097) as ->.
  { destruct (Z.leb_spec 0 z); Z.to_euclidean_division_equations; lia. }
  replace (z - z / 146097 * 146097) with (z mod 146097) by (rewrite Z.mod_eq by lia; lia).
  pose proof (Z.mod_pos_bound z 146097 ltac:(lia)) as Hd. set (doe := z mod 146097) in *.
  pose proof (year_of_era_spec doe Hd) as (Hy & Hl & Hh). unfold year_of_era in *.
  rewrite (Z.quot_div_nonneg doe), (Z.quot_div_nonneg doe), (Z.quot_div_nonneg doe) by lia.
  assert (0 ≤ doe - doe / 1460 + doe / 36524 - doe / 146096).
  { Z.to_euclidean_division_equations. lia. }
  rewrite (Z.quot_div_nonneg (_ - _)) by lia. set (y := _ / 365) in *.
  rewrite !(Z.quot_div_nonneg y) by lia. fold (year_start y) in *.
  set (doy := doe - year_start y) in *.
  rewrite (Z.quot_div_nonneg (5 * doy + 2)) by lia. fold (month_from_march doy).
  assert (0 ≤ month_from_march doy) by (apply Z.div_pos; lia).
  rewrite Z.quot_div_nonneg by lia. unfold civil_of, day_of_month.
  repeat f_equal; case_match; lia.
Qed.

(** Month and day of a day of a year that starts in March, and the day after. *)
Definition month_day (doy : Z) : Z * Z :=
  let mp := month_from_march doy in
  (if mp <? 10 then mp + 3 else mp - 9, day_of_month doy).

Definition next_month_day (y : Z) (md : Z * Z) : Z * Z :=
  if md.2 <? month_days y md.1 then (md.1, md.2 + 1)
  else if md.1 <? 12 then (md.1 + 1, 1) else (1, 1).

(** The next day is the next of the calendar, and not in March. *)
Definition month_day_step (y doy : Z) : bool :=
  (bool_decide (month_day (doy + 1) = next_month_day y (month_day doy))
   && (negb ((month_day doy).1 =? 2) || ((month_day doy).2 <? month_days y 2))
   && (1 <=? (month_day doy).1) && ((month_day doy).1 <=? 12))%bool.

Lemma month_days_leap y y' m : is_leap y = is_leap y' → month_days y m = month_days y' m.
Proof. unfold month_days. by intros ->. Qed.

Lemma month_day_step_leap y y' doy : is_leap y = is_leap y' →
  month_day_step y doy = month_day_step y' doy.
Proof.
  intros Hy. unfold month_day_step, next_month_day.
  by rewrite !(month_days_leap y y' _ Hy).
Qed.

Lemma month_day_steps y doy : 0 ≤ doy < 365 → (doy = 364 → is_leap y = true) →
  month_day_step y doy = true.
Proof.
  intros Hd Hl. destruct (is_leap y) eqn:Hy.
  - rewrite (month_day_step_leap y 4) by done.
    apply (forall_range 365 (month_day_step 4)); [vm_compute; reflexivity|done].
  - rewrite (month_day_step_leap y 1) by done.
    apply (forall_range 364 (month_day_step 1)); [vm_compute; reflexivity|].
    assert (doy ≠ 364) by (intros H364; specialize (Hl H364); done). lia.
Qed.

Lemma civil_of_step y doy : 0 ≤ doy < 365 → (doy = 364 → is_leap (y + 1) = true) →
  civil_of y (doy + 1) = next_day (civil_of y doy).
Proof.
  intros Hd Hl. pose proof (month_day_steps (y + 1) doy Hd Hl) as Hs.
  unfold month_day_step in Hs. apply andb_true_iff in Hs as [[[Hs Hf]%andb_true_iff H1]%andb_true_iff H12].
  apply bool_decide_eq_true in Hs.
  assert (∀ n, civil_of y n =
    (if (month_day n).1 <=? 2 then y + 1 else y, (month_day n).1, (month_day n).2)) as Hc by done.
  rewrite !Hc, Hs. destruct (month_day doy) as [m d]. unfold next_month_day, next_day. cbn [fst snd] in *.
  assert (month_days (if m <=? 2 then y + 1 else y) m = month_days (y + 1) m) as ->.
  { destruct (Z.leb_spec m 2); [done|]. unfold month_days. by rewrite (proj2 (Z.eqb_neq m 2)) by lia. }
  destruct (Z.ltb_spec d (month_days (y + 1) m)) as [Hlt|Hge]; cbn [fst snd]; [done|].
  destruct (Z.ltb_spec m 12); cbn [fst snd].
  - destruct (Z.eqb_spec m 2) as [->|]; [by apply Z.ltb_ge in Hge; simpl in Hf; rewrite Hge in Hf|].
    f_equal. f_equal. destruct (Z.leb_spec m 2), (Z.leb_spec (m + 1) 2); lia.
  - f_equal. f_equal. destruct (Z.leb_spec m 2); simpl; lia.
Qed.

Lemma civil_of_end y : civil_of (y + 1) 0 = next_day (civil_of y (if is_leap (y + 1) then 365 else 364)).
Proof.
  unfold next_day, month_days. destruct (is_leap (y + 1)) eqn:Hl.
  - change (civil_of y 365) with (y + 1, 2, 29). cbn. by rewrite Hl.
  - change (civil_of y 364) with (y + 1, 2, 28). cbn. by rewrite Hl.
Qed.

Lemma is_leap_era y k : is_leap (y + 400 * k) = is_leap y.
Proof.
  unfold is_leap. replace (y + 400 * k) with (y + (100 * k) * 4) at 1 by lia.
  replace (y + 400 * k) with (y + (4 * k) * 100) at 1 by lia.
  replace (y + 400 * k) with (y + k * 400) by lia. by rewrite !Z_mod_plus_full.
Qed.

Definition year_last (y : Z) : Z := if is_leap (y + 1) then 365 else 364.

Lemma year_start_next y : year_start (y + 1) =
  year_start y + year_last y + 1 - (if (y + 1) mod 400 =? 0 then 1 else 0).
Proof.
  unfold year_start, year_last, is_leap.
  destruct (Z.eqb_spec ((y + 1) mod 4) 0), (Z.eqb_spec ((y + 1) mod 100) 0),
    (Z.eqb_spec ((y + 1) mod 400) 0); cbn [negb andb orb];
    Z.to_euclidean_division_equations; lia.
Qed.

Lemma day_in_year doe : 0 ≤ doe < 146097 →
  let y := year_of_era doe in 0 ≤ doe - year_start y ≤ year_last y.
Proof.
  intros Hd. cbv zeta. pose proof (year_of_era_spec doe Hd) as (Hy & Hl & Hh).
  set (y := year_of_era doe) in *. split; [lia|].
  pose proof (year_start_next y) as Hn. destruct (Z.eq_dec y 399) as [Hy'|].
  - rewrite Hy' in *. change (year_last 399) with 365. change (year_start 399) with 145731. lia.
  - rewrite (Z.mod_small (y + 1)) in Hn by lia. rewrite (proj2 (Z.eqb_neq (y + 1) 0)) in Hn by lia.
    lia.
Qed.

Lemma year_last_era y k : year_last (y + 400 * k) = year_last y.
Proof.
  unfold year_last. replace (y + 400 * k + 1) with (y + 1 + 400 * k) by lia.
  by rewrite is_leap_era.
Qed.

(** The next day within an era, where only the last year ends with the era. *)
Lemma next_in_era doe k : 0 ≤ doe < 146096 →
  let y := year_of_era doe in
  let y' := year_of_era (doe + 1) in
  civil_of (y' + 400 * k) (doe + 1 - year_start y') =
  next_day (civil_of (y + 400 * k) (doe - year_start y)).
Proof.
  intros Hd. cbv zeta. pose proof (year_of_era_spec doe ltac:(lia)) as (Hy & Hl & Hh).
  pose proof (day_in_year doe ltac:(lia)) as Hr. cbv zeta in *. set (y := year_of_era doe) in *.
  clearbody y. pose proof (year_start_next y) as Hn.
  assert (y < 399 → year_start (y + 1) = year_start y + year_last y + 1) as Hn'.
  { intros. rewrite (Z.mod_small (y + 1)), (proj2 (Z.eqb_neq (y + 1) 0)) in Hn by lia. lia. }
  destruct (Z.eq_dec (doe - year_start y) (year_last y)) as [He|Hlt].
  - assert (y < 399) as Hy399.
    { destruct (Z.eq_dec y 399) as [->|]; [|lia]. change (year_last 399) with 365 in He.
      change (year_start 399) with 145731 in He. lia. }
    specialize (Hn' Hy399). rewrite (year_of_era_unique (doe + 1) (y + 1)) by
      (try lia; intros; unfold year_start in *; Z.to_euclidean_division_equations; lia).
    rewrite He, <- (year_last_era y k). replace (doe + 1 - year_start (y + 1)) with 0 by lia.
    replace (y + 1 + 400 * k) with (y + 400 * k + 1) by lia. apply civil_of_end.
  - rewrite (year_of_era_unique (doe + 1) y) by lia.
    replace (doe + 1 - year_start y) with (doe - year_start y + 1) by lia.
    rewrite <- (year_last_era y k) in Hr, Hlt. unfold year_last in Hr, Hlt. apply civil_of_step.
    + case_match; lia.
    + intros H364. case_match; [done|lia].
Qed.

Lemma civil_next days : civil_of_days (days + 1) = next_day (civil_of_days days).
Proof.
  rewrite !civil_of_days_eq. cbv zeta. replace (days + 1 + 719468) with (days + 719468 + 1) by lia.
  set (z := days + 719468). clearbody z.
  pose proof (Z.mod_pos_bound z 146097 ltac:(lia)) as Hd.
  pose proof (Z.div_mod z 146097 ltac:(lia)) as Hz.
  set (era := z / 146097) in *. set (doe := z mod 146097) in *. clearbody era doe. subst z.
  destruct (Z.eq_dec doe 146096) as [->|Hne].
  - replace (146097 * era + 146096 + 1) with ((era + 1) * 146097) by lia.
    rewrite Z.mod_mul, Z.div_mul by lia. change (year_of_era 0) with 0. change (year_start 0) with 0.
    change (year_of_era 146096) with 399. change (146096 - year_start 399) with (year_last 399).
    replace (0 + 400 * (era + 1)) with (399 + 400 * era + 1) by lia.
    rewrite Z.sub_0_r, <- (year_last_era 399 era). apply civil_of_end.
  - assert ((146097 * era + doe + 1) mod 146097 = doe + 1) as ->
      by (symmetry; apply (Z.mod_unique_pos _ _ era); lia).
    assert ((146097 * era + doe + 1) / 146097 = era) as ->
      by (symmetry; apply (Z.div_unique_pos _ _ _ (doe + 1)); lia).
    apply next_in_era. lia.
Qed.

(** ** Calendar order *)

Definition civil_ok (c : Z * Z * Z) : Prop :=
  let '(y, m, d) := c in 1 ≤ m ≤ 12 ∧ 1 ≤ d ≤ month_days y m.

Lemma month_days_bounds y m : 28 ≤ month_days y m ≤ 31.
Proof. unfold month_days. repeat case_match; lia. Qed.

Lemma next_day_ok c : civil_ok c → civil_ok (next_day c).
Proof.
  destruct c as [[y m] d]. intros [Hm Hd]. unfold next_day.
  destruct (Z.ltb_spec d (month_days y m)); [split; lia|].
  destruct (Z.ltb_spec m 12); (split; [lia|]).
  - pose proof (month_days_bounds y (m + 1)). lia.
  - pose proof (month_days_bounds (y + 1) 1). lia.
Qed.

Lemma next_day_later c : lt_of c (next_day c).
Proof.
  destruct c as [[y m] d]. unfold next_day, lt_of, cmp, ord_prod, cmp, ord_prod, ord_Z, then_with.
  destruct (Z.ltb_spec d (month_days y m)); cbn [fst snd].
  - rewrite !Z.compare_refl. apply Z.compare_lt_iff. lia.
  - destruct (Z.ltb_spec m 12); cbn [fst snd].
    + rewrite !Z.compare_refl. by rewrite (proj2 (Z.compare_lt_iff m (m + 1))) by lia.
    + by rewrite (proj2 (Z.compare_lt_iff y (y + 1))) by lia.
Qed.

Lemma civil_of_days_ok days : 0 ≤ days → civil_ok (civil_of_days days).
Proof.
  intros Hd. pattern days. apply natlike_ind; [| |done].
  - vm_compute. repeat split; discriminate.
  - intros n _ IH. rewrite <- Z.add_1_r, civil_next. by apply next_day_ok.
Qed.

Lemma civil_of_days_later days n : 0 < n → lt_of (civil_of_days days) (civil_of_days (days + n)).
Proof.
  intros Hn. replace n with (n - 1 + 1) by lia. pattern (n - 1). apply natlike_ind; [| |lia].
  - rewrite civil_next. apply next_day_later.
  - intros k _ IH. replace (days + (Z.succ k + 1)) with (days + (k + 1) + 1) by lia.
    rewrite civil_next. exact (cmp_trans _ _ _ IH (next_day_later _)).
Qed.

(** ** Digits *)

Lemma is_ascii_digit_value c : is_ascii_digit c = true ↔ 0 ≤ digit_value c ≤ 9.
Proof.
  unfold is_ascii_digit, byte_between, digit_value. rewrite andb_true_iff, !N.leb_le. lia.
Qed.

Lemma digit_ok z : 0 ≤ z ≤ 9 → digit_value (digit z) = z ∧ is_ascii_digit (digit z) = true.
Proof.
  intros Hz. assert (digit_value (digit z) = z) as Hd.
  { unfold digit_value, digit. rewrite N_ascii_embedding by lia. lia. }
  split; [done|]. apply is_ascii_digit_value. lia.
Qed.

Lemma digits_value_app l k : digits_value (l ++ k) = digits_value l * 10 ^ Z.of_nat (length k) + digits_value k.
Proof.
  unfold digits_value. rewrite foldl_app. generalize (foldl (λ acc c, 10 * acc + digit_value c) 0 l).
  induction k as [|c k IH] using rev_ind; intros a; [simpl; lia|].
  rewrite !foldl_app, length_app. cbn [foldl length]. rewrite IH.
  replace (Z.of_nat (length k + 1)) with (Z.of_nat (length k) + 1) by lia.
  rewrite Z.pow_add_r by lia. lia.
Qed.

Lemma digits_value_bounds l : Forall (λ c, is_ascii_digit c = true) l →
  0 ≤ digits_value l < 10 ^ Z.of_nat (length l).
Proof.
  induction 1 as [|c l Hc _ IH]; [done|]. change (c :: l) with ([c] ++ l).
  rewrite digits_value_app. apply is_ascii_digit_value in Hc.
  change (digits_value [c]) with (digit_value c). rewrite length_app. cbn [length].
  replace (Z.of_nat (1 + length l)) with (Z.of_nat (length l) + 1) by lia.
  rewrite Z.pow_add_r by lia. nia.
Qed.

(** Digits of equal length order as the numbers they write. *)
Lemma digits_order l k : Forall (λ c, is_ascii_digit c = true) l →
  Forall (λ c, is_ascii_digit c = true) k → length l = length k →
  cmp l k = Z.compare (digits_value l) (digits_value k).
Proof.
  intros Hl. revert k; induction Hl as [|a l Ha Hl IH]; intros k Hk Hlen;
    destruct Hk as [|b k Hb Hk]; try done.
  injection Hlen as Hlen. change (cmp (a :: l) (b :: k)) with (then_with (cmp a b) (cmp l k)).
  rewrite (IH k Hk Hlen). change (a :: l) with ([a] ++ l). change (b :: k) with ([b] ++ k).
  rewrite !digits_value_app, <- Hlen. change (digits_value [a]) with (digit_value a).
  change (digits_value [b]) with (digit_value b).
  pose proof (digits_value_bounds l Hl). pose proof (digits_value_bounds k Hk) as Hb'.
  rewrite <- Hlen in Hb'. unfold cmp, ord_ascii. rewrite <- N2Z.inj_compare.
  replace (Z.of_N (N_of_ascii a)) with (digit_value a + 48) by (unfold digit_value; lia).
  replace (Z.of_N (N_of_ascii b)) with (digit_value b + 48) by (unfold digit_value; lia).
  destruct (Z.compare_spec (digit_value a + 48) (digit_value b + 48)) as [He|Hlt|Hgt];
    cbn [then_with].
  - replace (digit_value b) with (digit_value a) by lia.
    destruct (Z.compare_spec (digits_value l) (digits_value k)); symmetry;
      [apply Z.compare_eq_iff|apply Z.compare_lt_iff|apply Z.compare_gt_iff]; lia.
  - symmetry. apply Z.compare_lt_iff. nia.
  - symmetry. apply Z.compare_gt_iff. nia.
Qed.

Lemma dec_loop_acc fuel n acc : dec_loop fuel n acc = dec_loop fuel n [] ++ acc.
Proof.
  revert n acc; induction fuel as [|fuel IH]; intros n acc; cbn [dec_loop]; [done|].
  case_match; [done|]. rewrite IH, (IH _ [_]), <- app_assoc. done.
Qed.

Record digits_of (n : Z) (l : list ascii) : Prop := {
  dg_value : digits_value l = n;
  dg_digits : Forall (λ c, is_ascii_digit c = true) l;
  dg_nonempty : l ≠ [];
  dg_length : ∀ w, (1 ≤ w)%nat → n < 10 ^ Z.of_nat w → (length l ≤ w)%nat;
}.

Lemma dec_loop_digits fuel n : 0 ≤ n < 10 ^ Z.of_nat (S fuel) → digits_of n (dec_loop (S fuel) n []).
Proof.
  revert n; induction fuel as [|fuel IH]; intros n Hn; cbn [dec_loop];
    destruct (Z.ltb_spec n 10) as [Hlt|Hge].
  1, 3: destruct (digit_ok n ltac:(lia)) as [Hv Hd]; split; [cbn; lia|by repeat constructor|done|];
    cbn [length]; lia.
  - simpl in Hn. lia.
  - pose proof (Z.mod_pos_bound n 10 ltac:(lia)) as Hm. pose proof (Z.div_mod n 10 ltac:(lia)) as Hdm.
    destruct (IH (n / 10)) as [IV ID IN IL].
    { replace (Z.of_nat (S (S fuel))) with (Z.of_nat (S fuel) + 1) in Hn by lia.
      rewrite Z.pow_add_r in Hn by lia. nia. }
    destruct (digit_ok (n mod 10) ltac:(lia)) as [Hv Hd].
    change (digits_of n (dec_loop (S fuel) (n / 10) [digit (n mod 10)])). rewrite dec_loop_acc. split.
    + rewrite digits_value_app, IV. cbn [length digits_value foldl]. rewrite Hv. lia.
    + apply Forall_app. split; [done|by repeat constructor].
    + by destruct (dec_loop (S fuel) (n / 10) []).
    + intros [|w] Hw Hnw; [lia|]. rewrite length_app. cbn [length].
      destruct w as [|w]; [simpl in Hnw; lia|].
      enough ((length (dec_loop (S fuel) (n / 10) []) ≤ S w)%nat) by lia. apply IL; [lia|].
      replace (Z.of_nat (S (S w))) with (Z.of_nat (S w) + 1) in Hnw by lia.
      rewrite Z.pow_add_r in Hnw by lia. nia.
Qed.

Lemma decimal_digits n : 0 ≤ n < 10 ^ 20 → digits_of n (bytes (decimal n)).
Proof. intros Hn. unfold decimal. rewrite bytes_of_bytes. by apply dec_loop_digits. Qed.

(** ** Text of dates and names *)

Lemma bytes_app s t : bytes (s +:+ t) = bytes s ++ bytes t.
Proof. induction s as [|c s IH]; [done|]. simpl. by f_equal. Qed.

Lemma append_assoc s t u : s +:+ (t +:+ u) = (s +:+ t) +:+ u.
Proof. apply bytes_inj. by rewrite !bytes_app, app_assoc. Qed.

Lemma cmp_bytes s t : cmp s t = cmp (bytes s) (bytes t).
Proof.
  revert t; induction s as [|a s IH]; intros [|b t]; try done.
  change (then_with (cmp a b) (cmp s t) = then_with (cmp a b) (cmp (bytes s) (bytes t))).
  by rewrite IH.
Qed.

Lemma cmp_app (l k l' k' : list ascii) : length l = length k →
  cmp (l ++ l') (k ++ k') = then_with (cmp l k) (cmp l' k').
Proof.
  revert k; induction l as [|a l IH]; intros [|b k] Hlen; try done. injection Hlen as Hlen.
  change (then_with (cmp a b) (cmp (l ++ l') (k ++ k')) =
    then_with (then_with (cmp a b) (cmp l k)) (cmp l' k')).
  rewrite (IH k Hlen). by destruct (cmp a b).
Qed.

Lemma zero_padded_digits w z : (1 ≤ w ≤ 20)%nat → 0 ≤ z < 10 ^ Z.of_nat w →
  let l := bytes (zero_padded w z) in
  length l = w ∧ digits_value l = z ∧ Forall (λ c, is_ascii_digit c = true) l.
Proof.
  intros Hw Hz. assert (10 ^ Z.of_nat w ≤ 10 ^ 20) by (apply Z.pow_le_mono_r; lia).
  destruct (decimal_digits z) as [HV HD HN HL]; [lia|]. unfold zero_padded.
  rewrite (proj2 (Z.ltb_ge z 0)) by lia. cbv zeta. rewrite bytes_of_bytes. cbn [app length].
  specialize (HL w ltac:(lia) ltac:(lia)). split_and!.
  - rewrite length_app, length_replicate. lia.
  - rewrite digits_value_app, HV.
    enough (digits_value (replicate (w - 0 - length (bytes (decimal z))) "0"%char) = 0) as -> by lia.
    induction (w - 0 - length (bytes (decimal z)))%nat as [|n IH]; [done|].
    exact IH.
  - apply Forall_app. split; [|done]. apply Forall_forall. intros c Hc.
    by apply elem_of_replicate in Hc as [-> _].
Qed.

Lemma date_text_bytes y m d : bytes (date_text (y, m, d)) =
  bytes (zero_padded 4 y) ++ [dash] ++ bytes (zero_padded 2 m) ++ [dash] ++ bytes (zero_padded 2 d).
Proof. unfold date_text. by rewrite !bytes_app. Qed.

Definition four_digit_year (c : Z * Z * Z) : Prop := 0 ≤ c.1.1 ≤ 9999.

Lemma date_text_order c c' : civil_ok c → civil_ok c' → four_digit_year c → four_digit_year c' →
  cmp (date_text c) (date_text c') = cmp c c'.
Proof.
  destruct c as [[y m] d], c' as [[y' m'] d']. intros [Hm Hd] [Hm' Hd'] Hy Hy'.
  unfold four_digit_year in Hy, Hy'. cbn [fst snd] in Hy, Hy'.
  pose proof (month_days_bounds y m). pose proof (month_days_bounds y' m').
  rewrite cmp_bytes, !date_text_bytes.
  pose proof (zero_padded_digits 4 y ltac:(lia) ltac:(lia)) as (Ly & Vy & Fy).
  pose proof (zero_padded_digits 4 y' ltac:(lia) ltac:(lia)) as (Ly' & Vy' & Fy').
  pose proof (zero_padded_digits 2 m ltac:(lia) ltac:(lia)) as (Lm & Vm & Fm).
  pose proof (zero_padded_digits 2 m' ltac:(lia) ltac:(lia)) as (Lm' & Vm' & Fm').
  pose proof (zero_padded_digits 2 d ltac:(lia) ltac:(lia)) as (Ld & Vd & Fd).
  pose proof (zero_padded_digits 2 d' ltac:(lia) ltac:(lia)) as (Ld' & Vd' & Fd').
  cbv zeta in *. rewrite !cmp_app by congruence. change (cmp [dash] [dash]) with Eq.
  rewrite !digits_order, Vy, Vy', Vm, Vm', Vd, Vd' by (done || congruence).
  unfold cmp, ord_prod, cmp, ord_prod, ord_Z. cbn [fst snd].
  by destruct (y ?= y'), (m ?= m'), (d ?= d').
Qed.

Lemma parse_digits max l : Forall (λ c, is_ascii_digit c = true) l → l ≠ [] →
  digits_value l ≤ max → parse_unsigned max (of_bytes l) = Some (digits_value l).
Proof.
  intros HD HN Hmax. unfold parse_unsigned. rewrite bytes_of_bytes.
  assert (strip_plus l = l) as ->.
  { destruct HD as [|c l Hc _]; [done|]. cbn [strip_plus].
    destruct (Ascii.eqb_spec c "+"%char) as [->|]; [done|].
    unfold byte_eqb. by rewrite (proj2 (Ascii.eqb_neq c "+")). }
  destruct l as [|c l]; [done|].
  rewrite (proj2 (forallb_forall _ (c :: l))) by (intros x Hx; rewrite Forall_forall in HD;
    apply HD; by apply list_elem_of_In).
  by rewrite (proj2 (Z.leb_le _ max)).
Qed.

Lemma parse_decimal n : u64 n → parse_unsigned u64_max (decimal n) = Some n.
Proof.
  unfold u64, u64_max. intros Hn. destruct (decimal_digits n) as [HV HD HN _]; [lia|].
  rewrite <- (of_bytes_bytes (decimal n)), parse_digits, HV; try done. rewrite HV. unfold u64_max. lia.
Qed.

Lemma date_text_valid c : civil_ok c → four_digit_year c → valid_date (date_text c) = true.
Proof.
  destruct c as [[y m] d]. intros [Hm Hd] Hy. unfold four_digit_year in Hy. cbn [fst snd] in Hy.
  pose proof (month_days_bounds y m).
  pose proof (zero_padded_digits 4 y ltac:(lia) ltac:(lia)) as (Ly & Vy & Fy).
  pose proof (zero_padded_digits 2 m ltac:(lia) ltac:(lia)) as (Lm & Vm & Fm).
  pose proof (zero_padded_digits 2 d ltac:(lia) ltac:(lia)) as (Ld & Vd & Fd).
  cbv zeta in *. unfold valid_date. rewrite len_bytes, date_text_bytes.
  destruct (bytes (zero_padded 4 y)) as [|y1 [|y2 [|y3 [|y4 []]]]]; try done.
  destruct (bytes (zero_padded 2 m)) as [|m1 [|m2 []]]; try done.
  destruct (bytes (zero_padded 2 d)) as [|d1 [|d2 []]]; try done.
  cbn [app length]. rewrite !Forall_cons in *. destruct_and!.
  assert (parse_unsigned u32_max (of_bytes [m1; m2]) = Some m) as Pm.
  { rewrite <- Vm. apply parse_digits; [by repeat constructor|done|]. rewrite Vm. unfold u32_max. lia. }
  assert (parse_unsigned u32_max (of_bytes [d1; d2]) = Some d) as Pd.
  { rewrite <- Vd. apply parse_digits; [by repeat constructor|done|]. rewrite Vd. unfold u32_max. lia. }
  cbn -[parse_unsigned of_bytes u32_max is_ascii_digit].
  rewrite Pm, Pd.
  repeat match goal with Hd : is_ascii_digit _ = true |- _ => rewrite Hd end.
  change (((1 <=? m) && (m <=? 12) && (1 <=? d) && (d <=? 31))%bool = true).
  rewrite !andb_true_iff, !Z.leb_le. lia.
Qed.

Lemma valid_date_bytes date c : valid_date date = true → c ∈ bytes date →
  c = dash ∨ is_ascii_digit c = true.
Proof.
  unfold valid_date. destruct ((len date =? 10) && _ && _)%bool eqn:Hs; [|done].
  destruct (forallb _ (imap pair (bytes date))) eqn:Hf; [|done]. intros _ Hc. cbn [negb] in *.
  apply andb_true_iff in Hs as [[_ H4]%andb_true_iff H7].
  apply list_elem_of_lookup in Hc as [i Hi]. rewrite forallb_forall in Hf.
  assert (In (i, c) (imap pair (bytes date))) as Hin.
  { apply list_elem_of_In, list_elem_of_lookup. exists i. by rewrite list_lookup_imap, Hi. }
  specialize (Hf _ Hin). cbn [fst snd] in Hf. unfold byte_at in H4, H7.
  apply orb_true_iff in Hf as [[Hf|Hf]%orb_true_iff|Hf]; [left|left|by right].
  - apply bool_decide_eq_true in Hf as ->. rewrite Hi in H4. by apply Ascii.eqb_eq in H4.
  - apply bool_decide_eq_true in Hf as ->. rewrite Hi in H7. by apply Ascii.eqb_eq in H7.
Qed.

Lemma rsplit_once_none c l : c ∉ l → rsplit_once c l = None.
Proof.
  induction l as [|a l IH]; [done|]. rewrite not_elem_of_cons. intros [Ha Hl].
  cbn [rsplit_once]. rewrite (IH Hl). unfold byte_eqb. by rewrite (proj2 (Ascii.eqb_neq a c)) by done.
Qed.

Lemma rsplit_once_app c l k : c ∉ k → rsplit_once c (l ++ c :: k) = Some (l, k).
Proof.
  intros Hk. induction l as [|a l IH]; cbn [app rsplit_once].
  - rewrite (rsplit_once_none c k Hk). unfold byte_eqb. by rewrite Ascii.eqb_refl.
  - by rewrite IH.
Qed.

Lemma strip_prefix_b_app p l : strip_prefix_b p (p ++ l) = Some l.
Proof. induction p as [|a p IH]; [done|]. cbn [app strip_prefix_b]. by rewrite Ascii.eqb_refl. Qed.

Lemma strip_prefix_app s t : strip_prefix (s +:+ t) s = Some t.
Proof. unfold strip_prefix. rewrite bytes_app, strip_prefix_b_app. simpl. by rewrite of_bytes_bytes. Qed.

Lemma strip_suffix_app s t : strip_suffix (s +:+ t) t = Some s.
Proof.
  unfold strip_suffix. rewrite bytes_app, rev_app_distr, strip_prefix_b_app. simpl.
  by rewrite rev_involutive, of_bytes_bytes.
Qed.

Lemma parse_value stem ext value :
  parse_rotated_name (stem +:+ "-" +:+ value +:+ "." +:+ ext) stem ext =
  match rsplit_once dot (bytes value) with
  | Some (date, counter) =>
      if valid_date (of_bytes date) then
        option_map (pair (of_bytes date)) (parse_unsigned u64_max (of_bytes counter))
      else None
  | None => if valid_date value then Some (value, 0) else None
  end.
Proof.
  unfold parse_rotated_name. rewrite (append_assoc stem), strip_prefix_app. cbn [mbind option_bind].
  by rewrite strip_suffix_app.
Qed.

Lemma digit_not_dot l : Forall (λ c, is_ascii_digit c = true) l → dot ∉ l.
Proof. intros HD Hin. rewrite Forall_forall in HD. by apply HD in Hin. Qed.

Lemma valid_date_no_dot date : valid_date date = true → dot ∉ bytes date.
Proof. intros Hv Hin. by destruct (valid_date_bytes _ _ Hv Hin). Qed.

Lemma parse_base stem ext date : valid_date date = true →
  parse_rotated_name (stem +:+ "-" +:+ date +:+ "." +:+ ext) stem ext = Some (date, 0).
Proof.
  intros Hv. rewrite parse_value, rsplit_once_none by (by apply valid_date_no_dot). by rewrite Hv.
Qed.

Lemma parse_counter stem ext date counter : valid_date date = true → u64 counter →
  parse_rotated_name (stem +:+ "-" +:+ date +:+ "." +:+ decimal counter +:+ "." +:+ ext) stem ext =
  Some (date, counter).
Proof.
  intros Hv Hc. rewrite (append_assoc "."), (append_assoc date), parse_value, !bytes_app. cbn [bytes String.list_ascii_of_string].
  destruct (decimal_digits counter) as [_ HD _ _]; [unfold u64, u64_max in Hc; lia|].
  cbn [app]. rewrite rsplit_once_app by (by apply digit_not_dot).
  rewrite !of_bytes_bytes, Hv, parse_decimal; done.
Qed.

(** Text in UTF-8 may be concatenated. *)
Lemma utf8_valid_app l k : utf8_valid l = true → utf8_valid (l ++ k) = utf8_valid k.
Proof.
  remember (length l) as n eqn:Hn. revert l Hn.
  induction (lt_wf n) as [n _ IH]; intros l ->.
  assert (∀ l', (length l' < length l)%nat → utf8_valid l' = true →
    utf8_valid (l' ++ k) = utf8_valid k) as IH' by (intros l' Hl'; by apply (IH _ Hl')).
  clear IH. destruct l as [|a l1]; [done|]. cbn [utf8_valid app length] in *.
  destruct (is_ascii a); [intros H; apply IH'; [lia|done]|].
  destruct l1 as [|b l2]; [done|]. cbn [app length] in *.
  destruct (byte_between 194 223 a && byte_between 128 191 b)%bool;
    [intros H; apply IH'; [lia|done]|].
  destruct l2 as [|c l3]; [done|]. cbn [app length] in *.
  match goal with |- (if ?t then _ else _) = _ → _ => destruct t end;
    [intros H; apply IH'; [lia|done]|].
  destruct l3 as [|d l4]; [done|]. cbn [app length] in *.
  match goal with |- (if ?t then _ else _) = _ → _ => destruct t end;
    [intros H; apply IH'; [lia|done]|done].
Qed.

Lemma utf8_valid_ascii l : Forall (λ c, is_ascii c = true) l → utf8_valid l = true.
Proof. induction 1 as [|c l Hc _ IH]; [done|]. cbn. by rewrite Hc. Qed.

Lemma digit_ascii c : is_ascii_digit c = true → is_ascii c = true.
Proof.
  unfold is_ascii_digit, byte_between, is_ascii. rewrite andb_true_iff, !N.leb_le. lia.
Qed.

Lemma valid_date_utf8 date : valid_date date = true → utf8_valid (bytes date) = true.
Proof.
  intros Hv. apply utf8_valid_ascii, Forall_forall. intros c Hc.
  destruct (valid_date_bytes _ _ Hv Hc) as [->|Hd]; [done|by apply digit_ascii].
Qed.

Lemma decimal_utf8 n : u64 n → utf8_valid (bytes (decimal n)) = true.
Proof.
  intros Hn. destruct (decimal_digits n) as [_ HD _ _]; [unfold u64, u64_max in Hn; lia|].
  apply utf8_valid_ascii. eapply Forall_impl; [exact HD|]. intros c. apply digit_ascii.
Qed.

Lemma rotation_components_utf8 active stem ext : rotation_components active = Ok (stem, ext) →
  utf8_valid (bytes stem) = true ∧ utf8_valid (bytes ext) = true.
Proof.
  unfold rotation_components, to_str.
  destruct (file_stem active) as [s|]; [|done]. cbn [mbind option_bind].
  destruct (utf8_valid (bytes s)) eqn:Hs; [|done]. cbn [ok_or].
  destruct (extension active) as [e|]; [|done]. cbn [mbind option_bind].
  destruct (utf8_valid (bytes e)) eqn:He; [|done]. by intros [= <- <-].
Qed.

(** ** Theorems *)

(** A day's date is its date in the Gregorian calendar.  Day 0 is 1970-01-01, and the
    next day's date is the calendar's next, leap years included; the text of a day with
    a four-digit year is a date the journal accepts in a name; and texts of later days
    compare greater. *)
Theorem dates_follow_the_calendar :
  civil_of_days 0 = (1970, 1, 1) ∧
  (∀ days, civil_of_days (days + 1) = next_day (civil_of_days days)) ∧
  (∀ days, 0 ≤ days → four_digit_year (civil_of_days days) →
     valid_date (date_from_days_since_epoch days) = true) ∧
  (∀ days days', 0 ≤ days < days' → four_digit_year (civil_of_days days) →
     four_digit_year (civil_of_days days') →
     lt_of (date_from_days_since_epoch days) (date_from_days_since_epoch days')).
Proof.
  split_and!; [reflexivity|exact civil_next|..].
  - intros days Hd Hy. apply date_text_valid; [by apply civil_of_days_ok|done].
  - intros days days' Hd Hy Hy'. unfold lt_of, date_from_days_since_epoch.
    rewrite date_text_order; try done; try (apply civil_of_days_ok; lia).
    replace days' with (days + (days' - days)) by lia. apply civil_of_days_later. lia.
Qed.

(** C30: a rotated file's name reads back.  For an active file whose name has a stem and an
    extension, the name built from a valid date, and the one built from the date and a
    counter, are read back as that date and counter. *)
Theorem rotated_names_roundtrip active stem ext date counter :
  rotation_components active = Ok (stem, ext) → valid_date date = true → u64 counter →
  ∃ base numbered, rotated_name active date = Ok base ∧
    rotated_name_with_counter active date counter = Ok numbered ∧
    parse_rotated_name base stem ext = Some (date, 0) ∧
    parse_rotated_name numbered stem ext = Some (date, counter).
Proof.
  intros Hc Hv Hu. unfold rotated_name, rotated_name_with_counter. rewrite Hc.
  do 2 eexists. do 2 (split; [reflexivity|]). split; [by apply parse_base|by apply parse_counter].
Qed.

Module NamesSample.

Lemma rotated_names_roundtrip_witness :
  ∃ base numbered, rotated_name "telltale-events.jsonl" "2026-06-21" = Ok base ∧
    rotated_name_with_counter "telltale-events.jsonl" "2026-06-21" 3 = Ok numbered ∧
    parse_rotated_name base "telltale-events" "jsonl" = Some ("2026-06-21", 0) ∧
    parse_rotated_name numbered "telltale-events" "jsonl" = Some ("2026-06-21", 3).
Proof.
  apply (rotated_names_roundtrip "telltale-events.jsonl" "telltale-events" "jsonl" "2026-06-21" 3).
  - vm_compute. reflexivity.
  - vm_compute. reflexivity.
  - split; vm_compute; discriminate.
Defined.

End NamesSample.
