(* ===== verification/JournalDir.v ===== *)
(** * The journal's directory

    crates/telltale-sources/src/journal.rs: how the active file and its rotated
    generations are found in a directory and put in order ([discover_generations]).

    A directory maps names to nodes.  The order in which it is read is any order of its
    entries.  The journal of the outbox's model, a list of files, oldest first, is
    [journal_files] of a directory. *)

From S2P Require Import Prelude Ordered Rstr Json Delivery Journal Outbox OutboxInv JournalNames.
From stdpp Require Import gmap.
From Stdlib Require Import Ascii.

Local Open Scope Z_scope.

(** A regular file with the token of its physical identity and its link count; a
    symbolic link, to a file or dangling; anything else. *)
Inductive Node :=
| Regular (identity : string) (links : Z) (content : list ascii)
| Symlink (target : option (list ascii))
| Special (size : Z).

#[export] Instance Node_eq_dec : EqDecision Node.
Proof. solve_decision. Defined.

Notation Dir := (gmap string Node).

(** The path of the active file: its parent, empty for a bare name, and its name. *)
Record ActivePath := { ap_parent : string; ap_name : string }.

(** [Path::join] of a name. *)
Definition join_path (parent name : string) : string :=
  if is_empty parent then name
  else if ends_with parent "/" then parent +:+ name
  else parent +:+ "/" +:+ name.

Definition active_path (p : ActivePath) : string := join_path (ap_parent p) (ap_name p).

(** The parent that is read, the current directory for a bare name. *)
Definition parent_or_current (p : ActivePath) : string :=
  if is_empty (ap_parent p) then "." else ap_parent p.

(** A rotated file by date, counter and name, ordered as that tuple. *)
Notation RotatedEntry := (string * Z * string)%type.

Record FileMetadata := {
  fm_identity : string;
  fm_links : Z;
  fm_length : Z;
}.

Record JournalDiscovery := {
  generations : list JsonlGeneration;
  directory_bound_reached : bool;
}.

Definition is_file (node : Node) : bool :=
  match node with Regular _ _ _ => true | _ => false end.

Section discovery.
Context (io : Io).

(** A call that may fail with the operating system's message. *)
Definition os_try (context subject : string) : result unit string :=
  match io context subject with Some e => Err e | None => Ok tt end.

(** [path_metadata]: [None] is the not-found error. *)
Definition path_metadata (dir : Dir) (name : string) : result (option FileMetadata) string :=
  match dir !! name with
  | None => Ok None
  | Some node =>
      check? os_try "read journal metadata" name in
      match node with
      | Regular identity links content =>
          Ok (Some {| fm_identity := identity; fm_links := links;
                      fm_length := Z.of_nat (length content) |})
      | _ => Err "unsafe journal file"
      end
  end.

Definition validate_regular (info : FileMetadata) : result unit string :=
  if 1 <? fm_links info then Err "unsafe journal hard link" else Ok tt.

(** The loop over the directory's entries. *)
Fixpoint examine_entries (stem ext : string) (max_entries examined : Z)
    (entries : list (string * Node)) : result (list RotatedEntry * bool) string :=
  match entries with
  | [] => Ok ([], false)
  | (name, node) :: rest =>
      if max_entries <=? examined then Ok ([], true)
      else
        check? os_try "read directory entry" name in
        match to_str name ≫= λ name, parse_rotated_name name stem ext with
        | None => examine_entries stem ext max_entries (examined + 1) rest
        | Some (date, counter) =>
            check? os_try "read entry type" name in
            if is_file node then
              let? (rotated, bound) := examine_entries stem ext max_entries (examined + 1) rest in
              Ok ((date, counter, name) :: rotated, bound)
            else Err "unsafe journal generation"
        end
  end.

Definition rotated_generation (p : ActivePath) (dir : Dir) (entry : RotatedEntry)
    : result JsonlGeneration string :=
  let? info := path_metadata dir entry.2 in
  let? info := ok_or info file_not_found in
  check? validate_regular info in
  Ok {| jg_path := join_path (parent_or_current p) entry.2; jg_identity := fm_identity info;
        jg_active := false |}.

Definition distinct_identity (seen : list string) (g : JsonlGeneration)
    : result (list string) string :=
  if bs_contains (jg_identity g) seen then Err "ambiguous journal generation identity"
  else Ok (bs_insert (jg_identity g) seen).

Definition discover_generations (dir : Dir) (entries : list (string * Node)) (p : ActivePath)
    (max_entries : Z) : result JournalDiscovery string :=
  if max_entries =? 0 then Err "journal discovery bound must be positive"
  else
    let? info := path_metadata dir (ap_name p) in
    let? active :=
      match info with
      | None => Ok None
      | Some info =>
          check? validate_regular info in
          Ok (Some {| jg_path := active_path p; jg_identity := fm_identity info;
                      jg_active := true |})
      end in
    match rotation_components (ap_name p) with
    | Err _ => Ok {| generations := option_list active; directory_bound_reached := false |}
    | Ok (stem, ext) =>
        match io "read directory" (parent_or_current p) with
        | Some e =>
            if (str_eqb e file_not_found && negb (is_some active))%bool then
              Ok {| generations := []; directory_bound_reached := false |}
            else Err e
        | None =>
        let? (rotated, bound) := examine_entries stem ext max_entries 0 entries in
        let? older := collect (rotated_generation p dir) (sort rotated) in
        let generations := older ++ option_list active in
        check? try_fold distinct_identity [] generations in
        Ok {| generations := generations; directory_bound_reached := bound |}
        end
    end.

End discovery.

(** ** The journal of a directory *)

(** The entry a name stands for, when it is a rotated file of the active one. *)
Definition rotated_entry (p : ActivePath) (name : string) : option RotatedEntry :=
  match rotation_components (ap_name p) with
  | Err _ => None
  | Ok (stem, ext) =>
      match to_str name ≫= λ name, parse_rotated_name name stem ext with
      | None => None
      | Some (date, counter) => Some (date, counter, name)
      end
  end.

Definition rotated_of (p : ActivePath) (entries : list (string * Node)) : list RotatedEntry :=
  omap (λ e : string * Node, if is_file e.2 then rotated_entry p e.1 else None) entries.

(** The rotated files, oldest first. *)
Definition rotated_entries (p : ActivePath) (dir : Dir) : list RotatedEntry :=
  sort (rotated_of p (map_to_list dir)).

Definition file_at (dir : Dir) (path : string) (active : bool) (name : string)
    : option JournalFile :=
  match dir !! name with
  | Some (Regular identity _ content) =>
      Some {| jf_path := path; jf_identity := identity; jf_active := active;
              jf_bytes := content |}
  | _ => None
  end.

Definition rotated_file (p : ActivePath) (dir : Dir) (name : string) : option JournalFile :=
  file_at dir (join_path (parent_or_current p) name) false name.
Definition active_file (p : ActivePath) (dir : Dir) : option JournalFile :=
  file_at dir (active_path p) true (ap_name p).

Definition journal_files (p : ActivePath) (dir : Dir) : list JournalFile :=
  omap (λ e : RotatedEntry, rotated_file p dir e.2) (rotated_entries p dir) ++
  option_list (active_file p dir).

Section order.
Context {A : Type} `{OrdLaws A}.

(** Sorting distinct values orders them strictly, so any order of them sorts alike. *)
Lemma sort_strict (l : list A) : NoDup l → StronglySorted lt_of (sort l).
Proof.
  intros Hnd. pose proof (sort_by_sorted cmp l) as Hs.
  assert (NoDup (sort l)) as Hnd' by (by unfold sort; rewrite sort_by_perm).
  unfold sort in *. clear Hnd. induction Hs as [|a k Hs IH Ha]; [constructor|].
  apply NoDup_cons in Hnd' as [Hn Hnd']. constructor; [by apply IH|].
  rewrite Forall_forall in Ha |- *. intros b Hb. specialize (Ha b Hb).
  unfold lt_of. destruct (cmp a b) eqn:Hc; [|done|].
  - apply cmp_eq in Hc as ->. done.
  - done.
Qed.

Lemma sort_elem (l : list A) x : x ∈ sort l ↔ x ∈ l.
Proof. unfold sort. by rewrite sort_by_perm. Qed.

Lemma sort_unique (l k : list A) :
  NoDup l → StronglySorted lt_of k → (∀ x, x ∈ l ↔ x ∈ k) → sort l = k.
Proof.
  intros Hl Hk Hlk. apply (strict_sorted_ext lt_of); try done.
  - apply lt_irrefl.
  - intros x y z. apply cmp_trans.
  - by apply sort_strict.
  - intros x. by rewrite sort_elem.
Qed.

Lemma sort_perm (l k : list A) : NoDup l → l ≡ₚ k → sort l = sort k.
Proof.
  intros Hl Hp. apply sort_unique; [done|apply sort_strict; by rewrite <- Hp|].
  intros x. by rewrite sort_elem, Hp.
Qed.

End order.

Section journal.
Context (p : ActivePath).

Lemma rotated_entry_name name e : rotated_entry p name = Some e → e.2 = name.
Proof.
  unfold rotated_entry. destruct (rotation_components (ap_name p)) as [[stem ext]|]; [|done].
  destruct (to_str name ≫= _) as [[date counter]|]; [|done]. by intros [= <-].
Qed.

Lemma rotated_of_elem entries e : e ∈ rotated_of p entries ↔
  ∃ node, (e.2, node) ∈ entries ∧ is_file node = true ∧ rotated_entry p e.2 = Some e.
Proof.
  unfold rotated_of. rewrite list_elem_of_omap. split.
  - intros ([name node] & Hin & He). cbn [fst snd] in He. case_match eqn:Hf; [|done].
    pose proof (rotated_entry_name _ _ He) as ->. eauto.
  - intros (node & Hin & Hf & He). exists (e.2, node). cbn [fst snd]. by rewrite Hf.
Qed.

Lemma rotated_of_nodup entries : NoDup (entries.*1) → NoDup (rotated_of p entries).
Proof.
  induction entries as [|[name node] entries IH]; cbn; [constructor|].
  rewrite NoDup_cons. intros [Hn Hnd]. specialize (IH Hnd).
  assert (∀ e, rotated_entry p name = Some e → e ∉ rotated_of p entries) as Hfresh.
  { intros e He (node' & Hin & _)%rotated_of_elem. apply rotated_entry_name in He as Hname.
    apply Hn. apply list_elem_of_fmap. exists (e.2, node'). split; [by rewrite <- Hname|done]. }
  unfold rotated_of in *. cbn [omap list_omap fst snd]. destruct (is_file node); [|done].
  destruct (rotated_entry p name) as [e|]; [|done]. apply NoDup_cons. auto.
Qed.

Lemma rotated_entries_elem dir e : e ∈ rotated_entries p dir ↔
  ∃ node, dir !! e.2 = Some node ∧ is_file node = true ∧ rotated_entry p e.2 = Some e.
Proof.
  unfold rotated_entries. rewrite sort_elem, rotated_of_elem.
  by setoid_rewrite elem_of_map_to_list.
Qed.

Lemma rotated_entries_sorted dir : StronglySorted lt_of (rotated_entries p dir).
Proof. apply sort_strict, rotated_of_nodup, NoDup_fst_map_to_list. Qed.

Lemma rotated_entries_nodup dir : NoDup (rotated_entries p dir).
Proof.
  unfold rotated_entries, sort. rewrite sort_by_perm.
  apply rotated_of_nodup, NoDup_fst_map_to_list.
Qed.

(** Reading the directory in another order finds the same rotated files. *)
Lemma rotated_entries_read dir entries : entries ≡ₚ map_to_list dir →
  sort (rotated_of p entries) = rotated_entries p dir.
Proof.
  intros Hp. apply sort_unique.
  - apply rotated_of_nodup. rewrite Hp. apply NoDup_fst_map_to_list.
  - apply rotated_entries_sorted.
  - intros e. unfold rotated_entries. rewrite sort_elem, !rotated_of_elem. by setoid_rewrite Hp.
Qed.

Lemma examine_entries_Ok io stem ext max examined entries rotated :
  rotation_components (ap_name p) = Ok (stem, ext) →
  examine_entries io stem ext max examined entries = Ok (rotated, false) →
  rotated = rotated_of p entries.
Proof.
  intros Hc. revert examined rotated; induction entries as [|[name node] entries IH];
    intros examined rotated; cbn [examine_entries]; [by intros [= <-]|].
  case_match; [done|]. destruct (os_try io "read directory entry" name); [|done].
  assert (rotated_of p ((name, node) :: entries) =
    option_list (if is_file node then rotated_entry p name else None) ++ rotated_of p entries) as ->.
  { unfold rotated_of. cbn [omap list_omap fst snd]. by case_match. }
  unfold rotated_entry. rewrite Hc.
  destruct (to_str name ≫= _) as [[date counter]|].
  - destruct (os_try io "read entry type" name); [|done]. destruct (is_file node); [|done].
    destruct (examine_entries _ _ _ _ _ entries) as [[r b]|] eqn:He; [|done].
    intros [= <- ->]. apply IH in He as ->. done.
  - intros He. apply IH in He as ->. by case_match.
Qed.

Lemma rotated_generation_Ok io dir e g : rotated_generation io p dir e = Ok g →
  ∃ f, rotated_file p dir e.2 = Some f ∧ g = generation_of f.
Proof.
  unfold rotated_generation, path_metadata, rotated_file, file_at.
  destruct (dir !! e.2) as [node|]; [|done]. destruct (os_try io _ _); [|done].
  destruct node as [id links c| |]; try done. cbn.
  destruct (validate_regular _); [|done]. intros [= <-]. by eexists.
Qed.

Lemma collect_generations io dir l gs : collect (rotated_generation io p dir) l = Ok gs →
  gs = map generation_of (omap (λ e : RotatedEntry, rotated_file p dir e.2) l).
Proof.
  intros HF%collect_Ok. induction HF as [|e g l gs Hg _ IH]; [done|].
  apply rotated_generation_Ok in Hg as (f & Hf & ->). cbn. rewrite Hf. cbn. by f_equal.
Qed.

(** The active generation of a discovery. *)
Lemma active_generation io dir info active :
  path_metadata io dir (ap_name p) = Ok info →
  match info with
  | None => Ok None
  | Some info =>
      check? validate_regular info in
      Ok (Some {| jg_path := active_path p; jg_identity := fm_identity info;
                  jg_active := true |})
  end = Ok active →
  option_list active = map generation_of (option_list (active_file p dir)).
Proof.
  unfold path_metadata, active_file, file_at. destruct (dir !! ap_name p) as [node|].
  - destruct (os_try io _ _); [|done]. destruct node as [id links c| |]; try done.
    intros [= <-]. destruct (validate_regular _); [|done]. by intros [= <-].
  - intros [= <-]. by intros [= <-].
Qed.

Lemma distinct_seen gs seen seen' : try_fold distinct_identity seen gs = Ok seen' →
  NoDup (map jg_identity gs) ∧ ∀ g, g ∈ gs → jg_identity g ∉ seen.
Proof.
  revert seen; induction gs as [|g gs IH]; intros seen; cbn [try_fold map].
  - intros _. split; [constructor|]. by intros g ?%not_elem_of_nil.
  - unfold distinct_identity at 1. destruct (bs_contains _ seen) eqn:Hb; [done|].
    intros [Hnd Hnot]%IH. split.
    + apply NoDup_cons. split; [|done]. intros (g' & Heq & Hin)%list_elem_of_fmap.
      apply (Hnot g' Hin), bs_insert_elem. by left.
    + intros g' [->|Hin]%elem_of_cons.
      * intros Hs%bs_contains_spec. congruence.
      * intros Hs. apply (Hnot g' Hin), bs_insert_elem. by right.
Qed.

Lemma distinct_nodup gs seen : try_fold distinct_identity [] gs = Ok seen →
  NoDup (map jg_identity gs).
Proof. intros H. by apply distinct_seen in H as [? _]. Qed.

(** What discovery accepts: regular files with one link and distinct identities. *)
Definition journal_node (name : string) : Prop :=
  name = ap_name p ∨ is_some (rotated_entry p name) = true.

Record regular_journal (dir : Dir) : Prop := {
  rj_regular : ∀ name node, journal_node name → dir !! name = Some node →
    ∃ id links c, node = Regular id links c ∧ links ≤ 1;
  rj_distinct : NoDup (map jf_identity (journal_files p dir));
}.

Lemma examine_entries_total dir stem ext max examined entries :
  rotation_components (ap_name p) = Ok (stem, ext) → regular_journal dir →
  (∀ name node, (name, node) ∈ entries → dir !! name = Some node) →
  examined + Z.of_nat (length entries) ≤ max →
  examine_entries no_faults stem ext max examined entries = Ok (rotated_of p entries, false).
Proof.
  intros Hc [Hr _]. revert examined; induction entries as [|[name node] entries IH];
    intros examined Hd Hmax; [done|]. cbn [examine_entries length] in *.
  rewrite (proj2 (Z.leb_gt max examined)) by lia. cbn.
  rewrite (IH (examined + 1)); [|intros; apply Hd; by right|lia].
  assert (rotated_entry p name = match to_str name ≫= λ name, parse_rotated_name name stem ext with
    | None => None | Some (date, counter) => Some (date, counter, name) end) as He
    by (unfold rotated_entry; by rewrite Hc).
  unfold rotated_of at 2. cbn [omap list_omap fst snd].
  revert He. destruct (to_str name ≫= _) as [[date counter]|]; intros He;
    [|by rewrite He; destruct (is_file node)].
  destruct (Hr name node) as (id & links & c & -> & _); [right; by rewrite He|apply Hd; by left|].
  cbn. by rewrite He.
Qed.

Lemma rotated_generation_total dir e : regular_journal dir → e ∈ rotated_entries p dir →
  is_ok (rotated_generation no_faults p dir e) = true.
Proof.
  intros [Hr _] (node & Hn & _ & He)%rotated_entries_elem.
  destruct (Hr e.2 node) as (id & links & c & -> & Hl); [right; by rewrite He|done|].
  unfold rotated_generation, path_metadata, validate_regular. rewrite Hn. cbn.
  by rewrite (proj2 (Z.ltb_ge 1 links)).
Qed.

Lemma collect_generations_total dir l : regular_journal dir →
  (∀ e, e ∈ l → e ∈ rotated_entries p dir) →
  is_ok (collect (rotated_generation no_faults p dir) l) = true.
Proof.
  intros Hr. induction l as [|e l IH]; intros Hl; [done|]. cbn [collect].
  pose proof (rotated_generation_total dir e Hr (Hl e ltac:(by left))) as He.
  destruct (rotated_generation no_faults p dir e); [|done].
  specialize (IH (λ e' He', Hl e' (list_elem_of_further _ _ _ He'))). by destruct (collect _ l).
Qed.

Lemma distinct_total gs seen : NoDup (map jg_identity gs) →
  (∀ g, g ∈ gs → jg_identity g ∉ seen) → is_ok (try_fold distinct_identity seen gs) = true.
Proof.
  revert seen; induction gs as [|g gs IH]; intros seen Hnd Hs; [done|].
  cbn [try_fold map] in *. apply NoDup_cons in Hnd as [Hg Hnd]. unfold distinct_identity at 1.
  destruct (bs_contains (jg_identity g) seen) eqn:Hb.
  { apply bs_contains_spec in Hb. destruct (Hs g ltac:(by left) Hb). }
  apply IH; [done|]. intros g' Hg' [Heq|Hin]%bs_insert_elem.
  - apply Hg. rewrite <- Heq. by apply list_elem_of_fmap_2.
  - apply (Hs g' ltac:(by right) Hin).
Qed.

Lemma generation_identities l : map jg_identity (map generation_of l) = map jf_identity l.
Proof. by rewrite map_map. Qed.

Lemma active_regular dir : regular_journal dir →
  ∃ info active, path_metadata no_faults dir (ap_name p) = Ok info ∧
  match info with
  | None => Ok None
  | Some info =>
      check? validate_regular info in
      Ok (Some {| jg_path := active_path p; jg_identity := fm_identity info;
                  jg_active := true |})
  end = Ok active.
Proof.
  intros [Hr _]. unfold path_metadata. destruct (dir !! ap_name p) as [node|] eqn:Hn; [|by repeat eexists].
  destruct (Hr (ap_name p) node) as (id & links & c & -> & Hl); [by left|done|].
  eexists _, _. split; [reflexivity|]. unfold validate_regular. cbn [fm_links].
  by rewrite (proj2 (Z.ltb_ge 1 links)).
Qed.

Lemma discovery_succeeds dir entries max : regular_journal dir →
  is_ok (rotation_components (ap_name p)) = true →
  entries ≡ₚ map_to_list dir → 0 < max → Z.of_nat (size dir) ≤ max →
  ∃ d, discover_generations no_faults dir entries p max = Ok d ∧ directory_bound_reached d = false.
Proof.
  intros Hr Hc Hp Hpos Hmax. unfold discover_generations. rewrite (proj2 (Z.eqb_neq max 0)) by lia.
  destruct (active_regular dir Hr) as (info & active & Hinfo & Hactive). rewrite Hinfo, Hactive.
  destruct (rotation_components (ap_name p)) as [[stem ext]|] eqn:Hcomp; [|done]. cbn.
  rewrite (examine_entries_total dir stem ext max 0 entries Hcomp Hr).
  - rewrite (rotated_entries_read dir) by done.
    pose proof (collect_generations_total dir _ Hr (λ e He, He)) as Hg.
    destruct (collect _ (rotated_entries p dir)) as [older|] eqn:Hold; [|done].
    pose proof (distinct_total (older ++ option_list active) []) as Ht.
    rewrite (active_generation no_faults dir info active Hinfo Hactive),
      (collect_generations no_faults dir _ _ Hold), <- map_app, generation_identities in Ht.
    rewrite (active_generation no_faults dir info active Hinfo Hactive),
      (collect_generations no_faults dir _ _ Hold), <- map_app.
    specialize (Ht (rj_distinct _ Hr) (λ g _ Hg, not_elem_of_nil _ Hg)).
    unfold journal_files in Ht. destruct (try_fold _ _ _); [|done]. by eexists.
  - intros name node Hin. rewrite Hp in Hin. by apply elem_of_map_to_list in Hin.
  - rewrite Hp, length_map_to_list. lia.
Qed.

(** ** Theorems *)

Lemma discovery_sound io dir entries max d :
  entries ≡ₚ map_to_list dir →
  is_ok (rotation_components (ap_name p)) = true →
  io "read directory" (parent_or_current p) = None →
  discover_generations io dir entries p max = Ok d → directory_bound_reached d = false →
  generations d = map generation_of (journal_files p dir) ∧
  NoDup (map jg_identity (generations d)).
Proof.
  intros Hp Hc Hdir. unfold discover_generations. case_match; [done|].
  destruct (path_metadata io dir (ap_name p)) as [info|] eqn:Hinfo; [|done].
  destruct (match info with Some _ => _ | None => _ end) as [active|] eqn:Hactive; [|done].
  destruct (rotation_components (ap_name p)) as [[stem ext]|] eqn:Hcomp; [|done].
  rewrite Hdir. destruct (examine_entries _ _ _ _ _ entries) as [[rotated bound]|] eqn:He; [|done].
  destruct (collect _ (sort rotated)) as [older|] eqn:Hold; [|done].
  destruct (try_fold _ _ _) as [seen|] eqn:Hseen; [|done]. intros [= <-]. cbn. intros ->.
  split; [|by eapply distinct_nodup].
  apply (examine_entries_Ok io stem ext) in He as ->; [|done].
  apply collect_generations in Hold as ->. unfold journal_files.
  rewrite map_app, (rotated_entries_read dir) by done. f_equal.
  by apply (active_generation io dir info).
Qed.

(** Discovery finds the journal.  Whatever order the directory is read in and
    whatever fails, a discovery that was not cut short and could read the directory
    returns the regular rotated files ordered by date and counter, with the active file
    last, and their identities are distinct.  It succeeds without faults when the
    journal's files are regular, singly linked and distinct and the bound covers the
    directory. *)
Theorem discovery_finds_journal dir entries max :
  entries ≡ₚ map_to_list dir → is_ok (rotation_components (ap_name p)) = true → 0 < max →
  (∀ io d, io "read directory" (parent_or_current p) = None →
     discover_generations io dir entries p max = Ok d → directory_bound_reached d = false →
     generations d = map generation_of (journal_files p dir) ∧
     NoDup (map jg_identity (generations d))) ∧
  (regular_journal dir → Z.of_nat (size dir) ≤ max →
     ∃ d, discover_generations no_faults dir entries p max = Ok d ∧
       directory_bound_reached d = false ∧
       generations d = map generation_of (journal_files p dir)).
Proof.
  intros Hp Hc Hpos. split.
  - intros io d Hdir Hd Hb. by eapply discovery_sound.
  - intros Hr Hmax. destruct (discovery_succeeds dir entries max) as (d & Hd & Hb); try done.
    exists d. split_and!; [done..|].
    exact (proj1 (discovery_sound no_faults dir entries max d Hp Hc eq_refl Hd Hb)).
Qed.

End journal.

(** ** Discovery in a concrete directory *)

Module DirSample.

Definition path : ActivePath := {| ap_parent := "/var/log"; ap_name := "events.jsonl" |}.
Definition dir : Dir :=
  <["events.jsonl" := Regular "g3" 1 (bytes "c")]>
  (<["events-2026-06-20.1.jsonl" := Regular "g2" 1 (bytes "b")]>
  (<["events-2026-06-20.jsonl" := Regular "g1" 1 (bytes "a")]>
  (<["notes" := Special 0]> ∅))).

Lemma dir_regular : regular_journal path dir.
Proof.
  split.
  - intros name node Hj Hn.
    assert (map_Forall (λ name node, name = "notes" ∨ ∃ id c, node = Regular id 1 c) dir) as Hall.
    { repeat (apply map_Forall_insert_2; [naive_solver|]). apply map_Forall_empty. }
    destruct (Hall name node Hn) as [->|(id & c & ->)]; [|by repeat eexists].
    exfalso. destruct Hj as [Hj|Hj]; vm_compute in Hj; done.
  - apply (bool_decide_unpack _). vm_compute. exact I.
Qed.

Lemma discovery_finds_journal_witness :
  ∃ d, discover_generations no_faults dir (reverse (map_to_list dir)) path 16 = Ok d ∧
    map jg_identity (generations d) = ["g1"; "g2"; "g3"].
Proof.
  destruct (discovery_finds_journal path dir (reverse (map_to_list dir)) 16) as [_ Ht].
  - apply reverse_Permutation.
  - vm_compute. reflexivity.
  - reflexivity.
  - destruct (Ht dir_regular) as (d & Hd & _ & Hg); [vm_compute; discriminate|].
    exists d. split; [exact Hd|]. rewrite Hg. vm_compute. reflexivity.
Defined.

End DirSample.
