(* ===== verification/Jsonl.v ===== *)
(** * The local JSONL sink

    src/sink/jsonl.rs: the canonical first write, with append, tail check and rotation
    by date, over the directory of [JournalDir]; of src/file_lock.rs what it calls.

    A computation threads the directory and keeps it when it fails.  Any call of the
    operating system may fail; a failed write leaves a part of its bytes in the file.
    Then the rules by which [JsonlEmit] reasons about such computations, what a change of
    a file does to the journal, and the choice of a rotated file's name. *)

From S2P Require Import Prelude Ordered Rstr Json Delivery Journal Outbox OutboxInv JournalNames.
From S2P Require Import JournalDir.
From stdpp Require Import gmap.
From Stdlib Require Import Ascii.

Local Open Scope Z_scope.

Record RotationConfig := {
  max_size_bytes : Z;
  keep : nat;
}.

Definition rotation_default : RotationConfig :=
  {| max_size_bytes := 100 * 1024 * 1024; keep := 5 |}.

Definition rotation_enabled (c : RotationConfig) : bool := 0 <? max_size_bytes c.

Record LocalJsonlSink := {
  js_name : string;
  js_path : ActivePath;
  js_rotation : RotationConfig;
  js_preserve_rotated : bool;
}.

Definition with_rotation (path : ActivePath) (rotation : RotationConfig) : LocalJsonlSink :=
  {| js_name := "local"; js_path := path; js_rotation := rotation;
     js_preserve_rotated := false |}.

Definition with_name (sink : LocalJsonlSink) (name : string) : LocalJsonlSink :=
  {| js_name := name; js_path := js_path sink; js_rotation := js_rotation sink;
     js_preserve_rotated := js_preserve_rotated sink |}.

Definition with_durable_rotation (sink : LocalJsonlSink) : LocalJsonlSink :=
  {| js_name := js_name sink; js_path := js_path sink; js_rotation := js_rotation sink;
     js_preserve_rotated := true |}.

(** What the operating system decides during a run: which calls fail, the identity of
    a file created under a name, how much a failed write leaves, and the clock. *)
Record Os := {
  os_io : Io;
  os_fresh : string → string;
  os_partial : nat;
  os_seconds : Z;
}.

Notation DirM := (Eff Dir BoxedError).

Section jsonl.
Context (os : Os).

Definition fail {A} (message : string) : DirM A := efail (Raw message).

Definition attempt (context subject : string) : DirM unit :=
  elift (map_err Raw (os_try (os_io os) context subject)).

Definition node_at (name : string) : DirM (option Node) := λ dir, (dir, Ok (dir !! name)).
Definition put_node (name : string) (node : Node) : DirM unit :=
  λ dir, (<[name := node]> dir, Ok tt).
Definition remove_node (name : string) : DirM unit := λ dir, (delete name dir, Ok tt).

(** ** src/file_lock.rs *)

(** Times are not part of [FileInfo] here: a change between two looks is a failure of
    the call that compares them. *)
Definition safe_path_info (name : string) : DirM (option FileMetadata) :=
  let! node := node_at name in
  match node with
  | None => eret None
  | Some (Regular identity links content) =>
      do! attempt "open for metadata" name in
      if 1 <? links then fail "unsafe persistence target: hardlinked files are refused"
      else eret (Some {| fm_identity := identity; fm_links := links;
                         fm_length := Z.of_nat (length content) |})
  | Some _ => fail "unsafe persistence target: expected a regular file"
  end.

Definition sidecar_name (name : string) : string := name +:+ ".lock".

(** [open] with [create] and without following links. *)
Definition open_or_create (context name : string) : DirM unit :=
  do! attempt context name in
  let! node := node_at name in
  match node with
  | None => put_node name (Regular (os_fresh os name) 1 [])
  | Some (Regular _ _ _) => eret tt
  | Some _ => fail "Too many levels of symbolic links (os error 40)"
  end.

Definition verify_lock (name : string) (lock_info : FileMetadata) : DirM unit :=
  let! info := safe_path_info (sidecar_name name) in
  match info with
  | Some info =>
      if (str_eqb (fm_identity info) (fm_identity lock_info)
          && (fm_links info =? fm_links lock_info)
          && (fm_length info =? fm_length lock_info))%bool
      then attempt "persistence lock target changed during operation" name
      else fail "persistence lock target changed during operation"
  | None => fail "persistence lock target changed during operation"
  end.

(** [SidecarLock::acquire_lock_only]: the lock's file exists afterwards, and the target
    is absent or regular. *)
Definition acquire_lock_only (name : string) : DirM FileMetadata :=
  do! attempt "create parent" name in
  do! open_or_create "open lock" (sidecar_name name) in
  do! attempt "resource busy; retry later" name in
  do! attempt "set lock mode" name in
  let! lock_info := safe_path_info (sidecar_name name) in
  match lock_info with
  | None => fail "lock disappeared"
  | Some lock_info =>
      let! target := safe_path_info name in
      do! verify_lock name lock_info in
      let! current := safe_path_info name in
      do! attempt "persistence target changed during operation" name in
      eret lock_info
  end.

Definition sync_parent (p : ActivePath) : DirM unit :=
  attempt "sync parent" (parent_or_current p).

Definition atomic_rename_no_replace (p : ActivePath) (source destination : string) : DirM unit :=
  let! from := safe_path_info source in
  match from with
  | None => fail "rename source does not exist"
  | Some _ =>
      let! to := safe_path_info destination in
      match to with
      | Some _ => fail "rename destination already exists"
      | None =>
          do! attempt "rename" source in
          let! node := node_at source in
          match node with
          | None => fail file_not_found
          | Some node =>
              do! remove_node source in
              do! put_node destination node in
              sync_parent p
          end
      end
  end.

(** Whether the file was created. *)
Definition open_append (name : string) : DirM bool :=
  let! expected := safe_path_info name in
  do! open_or_create "open for append" name in
  let! info := safe_path_info name in
  do! attempt "log target changed during append preparation" name in
  eret (negb (is_some expected)).

(** ** src/sink/jsonl.rs *)

Definition partial_record : string :=
  "local JSONL ends with a partial record; repair or replace it before retrying".

(** The file is opened following links.  A special file is only met when the lock did
    not refuse it. *)
Definition ensure_jsonl_tail (name : string) : DirM unit :=
  let! node := node_at name in
  match node with
  | None | Some (Symlink None) => eret tt
  | Some (Regular _ _ content) | Some (Symlink (Some content)) =>
      do! attempt "open for tail" name in
      match last content with
      | None => eret tt
      | Some b => if byte_eqb b newline then eret tt else fail partial_record
      end
  | Some (Special _) => fail "not a regular file"
  end.

(** [write_all]: everything, or a part and an error. *)
Definition write_all (name : string) (data : list ascii) : DirM unit :=
  let! node := node_at name in
  match node with
  | Some (Regular identity links content) =>
      match os_io os "write" name with
      | Some e =>
          do! put_node name (Regular identity links (content ++ take (os_partial os) data)) in
          fail e
      | None => put_node name (Regular identity links (content ++ data))
      end
  | _ => fail file_not_found
  end.

Definition append_jsonl_bytes (name : string) (data : list ascii) : DirM bool :=
  do! ensure_jsonl_tail name in
  let! created := open_append name in
  do! write_all name data in
  do! attempt "flush" name in
  do! attempt "sync" name in
  let! current := safe_path_info name in
  match current with
  | None => fail "log target disappeared during append"
  | Some _ =>
      do! attempt "log target changed during append" name in
      eret created
  end.

(** [Path::exists], which follows links. *)
Definition exists_at (dir : Dir) (name : string) : bool :=
  match dir !! name with
  | None | Some (Symlink None) => false
  | Some _ => true
  end.

(** [while final_path.exists()]: the first free name.  The names differ, so as many
    steps as the directory has entries are enough. *)
Fixpoint free_name (fuel : nat) (dir : Dir) (active date final : string) (counter : Z)
    : result string string :=
  if exists_at dir final then
    match fuel with
    | O => Ok final
    | S fuel' =>
        let? next := rotated_name_with_counter active date counter in
        free_name fuel' dir active date next (counter + 1)
    end
  else Ok final.

Definition read_dir (p : ActivePath) : DirM (list (string * Node)) :=
  if is_empty (ap_parent p) then fail file_not_found
  else
    do! attempt "read directory" (ap_parent p) in
    λ dir, (dir, Ok (map_to_list dir)).

(** Best effort: a file that cannot be removed stays. *)
Definition remove_rotated (dir : Dir) (entry : RotatedEntry) : Dir :=
  match os_io os "remove rotated file" entry.2 with
  | Some _ => dir
  | None => delete entry.2 dir
  end.

Definition cleanup_rotated_files (p : ActivePath) (keep : nat) : DirM unit :=
  let! components := elift (map_err Raw (rotation_components (ap_name p))) in
  let! entries := read_dir p in
  let rotated := sort (rotated_of p entries) in
  let to_delete :=
    if (keep =? 0)%nat then rotated
    else if (keep <? length rotated)%nat then take (length rotated - keep) rotated
    else [] in
  λ dir, (foldl remove_rotated dir to_delete, Ok tt).

Definition rotate_file (p : ActivePath) (config : RotationConfig) (preserve_rotated : bool)
    : DirM bool :=
  let date := current_date_utc (os_seconds os) in
  let! rotated := elift (map_err Raw (rotated_name (ap_name p) date)) in
  let! final := λ dir, (dir, map_err Raw (free_name (size dir) dir (ap_name p) date rotated 1)) in
  do! atomic_rename_no_replace p (ap_name p) final in
  do! (if preserve_rotated then eret tt else cleanup_rotated_files p (keep config)) in
  do! sync_parent p in
  eret true.

(** The size is of what the path leads to. *)
Definition maybe_rotate_with_mode (p : ActivePath) (config : RotationConfig)
    (preserve_rotated : bool) : DirM bool :=
  let! node := node_at (ap_name p) in
  match node with
  | None | Some (Symlink None) => eret false
  | Some node =>
      do! attempt "read size" (ap_name p) in
      let size :=
        match node with
        | Regular _ _ content | Symlink (Some content) => Z.of_nat (length content)
        | Special size => size
        | Symlink None => 0
        end in
      if size <? max_size_bytes config then eret false
      else rotate_file p config preserve_rotated
  end.

Definition emit_jsonl_bytes (sink : LocalJsonlSink) (data : list ascii) : DirM unit :=
  match data with
  | [] => eret tt
  | _ =>
      let p := js_path sink in
      do! (if rotation_enabled (js_rotation sink) then
             let! components := elift (map_err Raw (rotation_components (ap_name p))) in eret tt
           else eret tt) in
      let! lock := acquire_lock_only (ap_name p) in
      do! ensure_jsonl_tail (ap_name p) in
      let! rotated :=
        (if rotation_enabled (js_rotation sink) then
           maybe_rotate_with_mode p (js_rotation sink) (js_preserve_rotated sink)
         else eret false) in
      let! created := append_jsonl_bytes (ap_name p) data in
      do! (if (rotated || created)%bool then sync_parent p else eret tt) in
      verify_lock (ap_name p) lock
  end.

End jsonl.

(** ** Rules for directory computations *)

Section rules.

(** From a directory in [P], [c] ends in [Q] of its value, or in [X] when it fails. *)
Definition triple {A} (P : Dir → Prop) (c : DirM A) (Q : A → Dir → Prop) (X : Dir → Prop) : Prop :=
  ∀ dir, P dir → match c dir with (dir', Ok a) => Q a dir' | (dir', Err _) => X dir' end.

Definition readonly {A} (c : DirM A) : Prop := ∀ dir, (c dir).1 = dir.

Lemma triple_bind {A B} P (c : DirM A) (k : A → DirM B) R Q X :
  triple P c R X → (∀ a, triple (R a) (k a) Q X) → triple P (ebind c k) Q X.
Proof.
  intros Hc Hk dir HP. specialize (Hc dir HP). unfold ebind.
  destruct (c dir) as [dir' [a|e]]; [|done]. by apply Hk.
Qed.

Lemma triple_readonly {A} P (c : DirM A) (Q : A → Dir → Prop) (X : Dir → Prop) :
  readonly c → (∀ dir, P dir → X dir) → (∀ dir a, P dir → c dir = (dir, Ok a) → Q a dir) →
  triple P c Q X.
Proof.
  intros Hr HX HQ dir HP. specialize (Hr dir). destruct (c dir) as [dir' [a|e]] eqn:Hc;
    cbn in Hr; subst dir'; auto.
Qed.

Lemma triple_ret {A} (P : Dir → Prop) (a : A) (Q : A → Dir → Prop) X :
  (∀ dir, P dir → Q a dir) → triple P (eret a) Q X.
Proof. intros HQ dir HP. by apply HQ. Qed.

Lemma triple_weaken {A} (P P' : Dir → Prop) (c : DirM A) (Q Q' : A → Dir → Prop) (X X' : Dir → Prop) :
  (∀ dir, P' dir → P dir) → (∀ a dir, Q a dir → Q' a dir) → (∀ dir, X dir → X' dir) →
  triple P c Q X → triple P' c Q' X'.
Proof.
  intros HP HQ HX Hc dir Hd. specialize (Hc dir (HP dir Hd)).
  destruct (c dir) as [dir' [a|e]]; auto.
Qed.

Lemma readonly_ret {A} (a : A) : readonly (eret a).
Proof. done. Qed.
Lemma readonly_fail {A} e : readonly (efail e : DirM A).
Proof. done. Qed.
Lemma readonly_lift {A} (r : result A BoxedError) : readonly (elift r).
Proof. by destruct r. Qed.
Lemma readonly_bind {A B} (c : DirM A) (k : A → DirM B) :
  readonly c → (∀ a, readonly (k a)) → readonly (ebind c k).
Proof.
  intros Hc Hk dir. specialize (Hc dir). unfold ebind. destruct (c dir) as [dir' [a|e]];
    cbn in Hc; subst; [apply Hk|done].
Qed.
Lemma readonly_node name : readonly (node_at name).
Proof. done. Qed.

End rules.

#[export] Hint Resolve readonly_ret readonly_fail readonly_lift readonly_node : telltale.
#[export] Hint Extern 1 (readonly (ebind _ _)) => (apply readonly_bind; [|intros]) : telltale.
#[export] Hint Extern 1 (readonly (fail _)) => (apply readonly_fail) : telltale.
#[export] Hint Extern 2 (readonly (match ?x with _ => _ end)) => (destruct x) : telltale.

Section effects.
Context (os : Os).

Lemma readonly_attempt context subject : readonly (attempt os context subject).
Proof. apply readonly_lift. Qed.
#[local] Hint Resolve readonly_attempt : telltale.

Lemma readonly_safe_path_info name : readonly (safe_path_info os name).
Proof. unfold safe_path_info. auto 10 with telltale. Qed.
#[local] Hint Resolve readonly_safe_path_info : telltale.

Lemma readonly_verify_lock name info : readonly (verify_lock os name info).
Proof. unfold verify_lock. auto 10 with telltale. Qed.

Lemma readonly_ensure_tail name : readonly (ensure_jsonl_tail os name).
Proof. unfold ensure_jsonl_tail. auto 10 with telltale. Qed.

Lemma readonly_sync_parent p : readonly (sync_parent os p).
Proof. apply readonly_attempt. Qed.

(** What a look at a path tells. *)
Lemma safe_path_info_Ok name dir dir' info : safe_path_info os name dir = (dir', Ok info) →
  match info with
  | None => dir !! name = None
  | Some info => ∃ links c, dir !! name = Some (Regular (fm_identity info) links c) ∧ links ≤ 1
  end.
Proof.
  unfold safe_path_info, ebind, node_at, attempt, os_try.
  destruct (dir !! name) as [[id links c| |]|]; try done; [|by intros [= <- <-]].
  destruct (os_io os _ _); [done|]. cbn. destruct (Z.ltb_spec 1 links); [done|].
  intros [= <- <-]. cbn. eauto.
Qed.

(** A file may be appended to when it is empty or ends with a newline. *)
Definition whole (content : list ascii) : Prop := last content = None ∨ last content = Some newline.

Lemma ensure_tail_Ok name dir dir' : ensure_jsonl_tail os name dir = (dir', Ok tt) →
  ∀ id links c, dir !! name = Some (Regular id links c) → whole c.
Proof.
  intros Ht id links c Hn. revert Ht. unfold ensure_jsonl_tail, ebind, node_at, attempt, os_try.
  rewrite Hn. destruct (os_io os _ _); [done|]. cbn. unfold whole.
  destruct (last c) as [b|]; [|by left]. unfold byte_eqb.
  destruct (Ascii.eqb_spec b newline) as [->|]; [by right|done].
Qed.

End effects.

(** ** Journal names in a directory *)

Lemma omap_elem_ext {A B} (f g : A → option B) (l : list A) :
  (∀ x, x ∈ l → f x = g x) → omap f l = omap g l.
Proof.
  induction l as [|x l IH]; intros Hl; [done|]. cbn. rewrite (Hl x) by (by left).
  rewrite IH; [done|]. intros y Hy. apply Hl. by right.
Qed.

Section names.
Context (p : ActivePath).

Lemma rsplit_once_Some c l before after :
  rsplit_once c l = Some (before, after) → l = before ++ c :: after.
Proof.
  revert before after; induction l as [|a l IH]; intros before after; cbn [rsplit_once]; [done|].
  destruct (rsplit_once c l) as [[b k]|].
  - intros [= <- <-]. cbn. f_equal. by apply IH.
  - unfold byte_eqb. destruct (Ascii.eqb_spec a c) as [->|]; [|done]. by intros [= <- <-].
Qed.

Lemma rotation_components_name stem ext :
  rotation_components (ap_name p) = Ok (stem, ext) → ap_name p = stem +:+ "." +:+ ext.
Proof.
  unfold rotation_components, file_stem, extension, to_str.
  destruct (file_name (ap_name p)) as [n|] eqn:Hn; [|done].
  assert (n = ap_name p) as ->.
  { unfold file_name in Hn. case_match; [done|]. by injection Hn. }
  unfold rsplit_file_at_dot. destruct (str_eqb (ap_name p) "..").
  { cbn [mbind option_bind]. by destruct (utf8_valid (bytes (ap_name p))). }
  destruct (rsplit_once dot (bytes (ap_name p))) as [[[|x b] a]|] eqn:Hr;
    cbn [mbind option_bind]; [by destruct (utf8_valid (bytes (ap_name p)))| |
                              by destruct (utf8_valid (bytes (ap_name p)))].
  apply rsplit_once_Some in Hr. remember (x :: b) as before. destruct (utf8_valid (bytes (of_bytes before))); [|done].
  destruct (utf8_valid (bytes (of_bytes a))); [|done].
  cbn [ok_or]. intros [= <- <-]. apply bytes_inj. rewrite Hr, !bytes_app, !bytes_of_bytes. done.
Qed.

Lemma strip_prefix_b_differ q a b l : a ≠ b → strip_prefix_b (q ++ [a]) (q ++ b :: l) = None.
Proof.
  intros Hab. induction q as [|c q IH]; cbn [app strip_prefix_b].
  - by rewrite (proj2 (Ascii.eqb_neq a b)).
  - by rewrite Ascii.eqb_refl.
Qed.

(** The active file and its lock are no rotated files. *)
Lemma not_rotated suffix : rotated_entry p (ap_name p +:+ suffix) = None.
Proof.
  unfold rotated_entry. destruct (rotation_components (ap_name p)) as [[stem ext]|] eqn:Hc; [|done].
  apply rotation_components_name in Hc as Hname. unfold to_str.
  destruct (utf8_valid (bytes (ap_name p +:+ suffix))); [|done].
  cbn [mbind option_bind]. unfold parse_rotated_name, Rstr.strip_prefix.
  rewrite Hname, !bytes_app. cbn [bytes String.list_ascii_of_string app]. rewrite <- app_assoc.
  rewrite <- app_comm_cons, strip_prefix_b_differ by done. done.
Qed.

Lemma active_not_rotated : rotated_entry p (ap_name p) = None.
Proof.
  rewrite <- (not_rotated ""). f_equal. apply bytes_inj. by rewrite bytes_app, app_nil_r.
Qed.

Lemma sidecar_not_journal : ¬ journal_node p (sidecar_name (ap_name p)).
Proof.
  unfold sidecar_name. intros [Heq|Hr].
  - apply (f_equal (λ s, length (bytes s))) in Heq. rewrite bytes_app, length_app in Heq.
    cbn in Heq. lia.
  - by rewrite not_rotated in Hr.
Qed.

(** A directory's journal depends on its journal files only. *)
Definition same_journal (dir dir' : Dir) : Prop :=
  ∀ name, journal_node p name → dir !! name = dir' !! name.

Lemma rotated_entries_ext dir dir' :
  (∀ name e, rotated_entry p name = Some e → dir !! name = dir' !! name) →
  rotated_entries p dir = rotated_entries p dir' ∧
  omap (λ e : RotatedEntry, rotated_file p dir e.2) (rotated_entries p dir) =
  omap (λ e : RotatedEntry, rotated_file p dir' e.2) (rotated_entries p dir').
Proof.
  intros Hsame. assert (rotated_entries p dir = rotated_entries p dir') as Heq.
  { unfold rotated_entries at 1. apply sort_unique.
    - apply rotated_of_nodup, NoDup_fst_map_to_list.
    - apply rotated_entries_sorted.
    - intros e. rewrite <- sort_elem. fold (rotated_entries p dir).
      rewrite !rotated_entries_elem. split; intros (node & Hn & Hf & He); exists node;
        (split_and!; [|done..]); [by rewrite <- (Hsame _ _ He)|by rewrite (Hsame _ _ He)]. }
  split; [done|]. rewrite <- Heq. apply omap_elem_ext.
  intros e (node & _ & _ & He)%rotated_entries_elem. unfold rotated_file, file_at.
  by rewrite (Hsame _ _ He).
Qed.

Lemma same_journal_files dir dir' : same_journal dir dir' →
  journal_files p dir = journal_files p dir' ∧ rotated_entries p dir = rotated_entries p dir'.
Proof.
  intros Hs. destruct (rotated_entries_ext dir dir') as [He Ho].
  { intros name e He. apply Hs. right. by rewrite He. }
  split; [|done]. unfold journal_files. rewrite Ho. f_equal. unfold active_file, file_at.
  by rewrite (Hs (ap_name p)) by (by left).
Qed.

Lemma same_journal_insert dir name node : ¬ journal_node p name →
  same_journal dir (<[name := node]> dir).
Proof. intros Hn name' Hj. rewrite lookup_insert_ne; [done|]. congruence. Qed.

End names.

(** ** Changes of the journal *)

(** How an emission changes the generations: not at all, the last one grows from a whole
    record on, or a new one follows. *)
Inductive journal_extends (fresh : string) (S S' : list JournalSnapshot) (w : list ascii) : Prop :=
| extends_same : S' = S → w = [] → journal_extends fresh S S' w
| extends_last pre s :
    S = pre ++ [s] → whole (snap_bytes s) →
    S' = pre ++ [{| snap_identity := snap_identity s; snap_bytes := snap_bytes s ++ w |}] →
    journal_extends fresh S S' w
| extends_new :
    S' = S ++ [{| snap_identity := fresh; snap_bytes := w |}] → journal_extends fresh S S' w.

(** The same generations; and in the same order, when what it takes for rotation to keep
    it holds. *)
Definition rearranged (ordered : Prop) (S S' : list JournalSnapshot) : Prop :=
  S ≡ₚ S' ∧ (ordered → S' = S).

(** An emission: the generations, then the bytes at their end. *)
Definition journal_grows (ordered : Prop) (fresh : string) (S S' : list JournalSnapshot)
    (w : list ascii) : Prop :=
  ∃ A, rearranged ordered S A ∧ journal_extends fresh A S' w.

Lemma rearranged_refl ordered S : rearranged ordered S S.
Proof. by split. Qed.

Lemma journal_grows_ordered (ordered : Prop) fresh S S' w :
  journal_grows ordered fresh S S' w → ordered → journal_extends fresh S S' w.
Proof. intros (A & [_ Hs] & He) Ho. by rewrite <- (Hs Ho). Qed.

Section changes.
Context (p : ActivePath).

Definition snapshots (dir : Dir) : list JournalSnapshot := map snapshot_of (journal_files p dir).

Lemma snapshots_active dir id links c : dir !! ap_name p = Some (Regular id links c) →
  snapshots dir = map snapshot_of (omap (λ e : RotatedEntry, rotated_file p dir e.2)
    (rotated_entries p dir)) ++ [{| snap_identity := id; snap_bytes := c |}].
Proof.
  intros Ha. unfold snapshots, journal_files, active_file, file_at. by rewrite Ha, map_app.
Qed.

Lemma snapshots_inactive dir : dir !! ap_name p = None →
  snapshots dir = map snapshot_of (omap (λ e : RotatedEntry, rotated_file p dir e.2)
    (rotated_entries p dir)).
Proof.
  intros Ha. unfold snapshots, journal_files, active_file, file_at. by rewrite Ha, map_app, app_nil_r.
Qed.

(** The active file changes, the rotated ones do not. *)
Lemma rotated_active_insert dir node :
  rotated_entries p (<[ap_name p := node]> dir) = rotated_entries p dir ∧
  omap (λ e : RotatedEntry, rotated_file p (<[ap_name p := node]> dir) e.2)
    (rotated_entries p (<[ap_name p := node]> dir)) =
  omap (λ e : RotatedEntry, rotated_file p dir e.2) (rotated_entries p dir).
Proof.
  apply rotated_entries_ext. intros name e He. rewrite lookup_insert_ne; [done|].
  intros <-. by rewrite active_not_rotated in He.
Qed.

(** The active file becomes a rotated one. *)
Lemma rotated_rename_elem dir final e node : rotated_entry p final = Some e →
  dir !! final = None → is_file node = true →
  ∀ e', e' ∈ rotated_entries p (<[final := node]> (delete (ap_name p) dir)) ↔
    e' ∈ rotated_entries p dir ++ [e].
Proof.
  intros He Hfree Hfile e'. pose proof (rotated_entry_name _ _ _ He) as Hname.
  rewrite elem_of_app, list_elem_of_singleton, !rotated_entries_elem. split.
  - intros (n & Hn & Hf & Hr). destruct (decide (e'.2 = final)) as [Heq|Hne].
    + right. rewrite Heq in Hr. congruence.
    + left. exists n. rewrite lookup_insert_ne, lookup_delete_Some in Hn by done. naive_solver.
  - intros [(n & Hn & Hf & Hr)| ->].
    + exists n. split_and!; [|done..]. rewrite lookup_insert_ne by (intros Hx; congruence).
      rewrite lookup_delete_ne; [done|]. intros Hx. rewrite <- Hx, active_not_rotated in Hr. done.
    + exists node. rewrite Hname, lookup_insert_eq. done.
Qed.

(** It is the newest, when the others come before it. *)
Lemma rotated_rename dir final e node : rotated_entry p final = Some e →
  dir !! final = None → is_file node = true →
  (∀ e', e' ∈ rotated_entries p dir → lt_of e' e) →
  rotated_entries p (<[final := node]> (delete (ap_name p) dir)) = rotated_entries p dir ++ [e].
Proof.
  intros He Hfree Hfile Hlast. unfold rotated_entries at 1. apply sort_unique.
  - apply rotated_of_nodup, NoDup_fst_map_to_list.
  - apply StronglySorted_snoc; [apply rotated_entries_sorted|]. by apply Forall_forall.
  - intros e'. rewrite <- sort_elem. by apply rotated_rename_elem.
Qed.

(** It is somewhere among them, in any case. *)
Lemma rotated_rename_perm dir final e node : rotated_entry p final = Some e →
  dir !! final = None → is_file node = true →
  rotated_entries p (<[final := node]> (delete (ap_name p) dir)) ≡ₚ rotated_entries p dir ++ [e].
Proof.
  intros He Hfree Hfile. apply NoDup_Permutation; [apply rotated_entries_nodup| |].
  - apply NoDup_app. split_and!; [apply rotated_entries_nodup| |apply NoDup_singleton].
    intros x (n & Hn & _ & Hr)%rotated_entries_elem ->%list_elem_of_singleton.
    rewrite (rotated_entry_name _ _ _ He) in Hn. congruence.
  - by apply rotated_rename_elem.
Qed.

Section rename.
Context (dir : Dir) (final : string) (e : RotatedEntry) (id : string) (links : Z) (c : list ascii).
Context (He : rotated_entry p final = Some e) (Hfree : dir !! final = None).
Context (Ha : dir !! ap_name p = Some (Regular id links c)).
Let dir' : Dir := <[final := Regular id links c]> (delete (ap_name p) dir).

Lemma rename_inactive :
  snapshots dir' = map snapshot_of (omap (λ e : RotatedEntry, rotated_file p dir' e.2)
    (rotated_entries p dir')).
Proof using He.
  apply snapshots_inactive. unfold dir'. rewrite lookup_insert_ne, lookup_delete_eq; [done|].
  intros Hx. pose proof He as Hr. by rewrite Hx, active_not_rotated in Hr.
Qed.

(** The files read under their names, before and after. *)
Lemma rename_files :
  map snapshot_of (omap (λ e : RotatedEntry, rotated_file p dir' e.2) (rotated_entries p dir ++ [e]))
  = snapshots dir.
Proof using He Hfree Ha.
  pose proof (rotated_entry_name _ _ _ He) as Hname.
  rewrite (snapshots_active dir id links c Ha), omap_app, map_app. f_equal.
  - f_equal. apply omap_elem_ext. intros e' (node & Hn & _ & Hr)%rotated_entries_elem.
    unfold dir', rotated_file, file_at. rewrite lookup_insert_ne by (intros Hx; congruence).
    rewrite lookup_delete_ne; [done|]. intros Hx. rewrite <- Hx, active_not_rotated in Hr. done.
  - cbn. unfold dir', rotated_file, file_at. by rewrite Hname, lookup_insert_eq.
Qed.

Lemma snapshots_rename : (∀ e', e' ∈ rotated_entries p dir → lt_of e' e) →
  snapshots dir' = snapshots dir.
Proof using He Hfree Ha.
  intros Hlast. rewrite rename_inactive, <- rename_files. unfold dir' at 2.
  by rewrite (rotated_rename dir final e).
Qed.

Lemma snapshots_rename_perm : snapshots dir ≡ₚ snapshots dir'.
Proof using He Hfree Ha.
  rewrite rename_inactive, <- rename_files. apply Permutation_map, omap_Permutation.
  symmetry. by apply rotated_rename_perm.
Qed.

End rename.

End changes.

(** ** The name of the next rotated file *)

Section rotation.
Context (p : ActivePath) (stem ext : string).
Context (components : rotation_components (ap_name p) = Ok (stem, ext)).

(** The names tried for a date. *)
Definition candidate (date : string) (k : Z) : string :=
  if k =? 0 then stem +:+ "-" +:+ date +:+ "." +:+ ext
  else stem +:+ "-" +:+ date +:+ "." +:+ decimal k +:+ "." +:+ ext.

Lemma rotated_name_candidate date : rotated_name (ap_name p) date = Ok (candidate date 0).
Proof using components. unfold rotated_name. by rewrite components. Qed.

Lemma rotated_counter_candidate date k : 0 < k →
  rotated_name_with_counter (ap_name p) date k = Ok (candidate date k).
Proof using components.
  intros Hk. unfold rotated_name_with_counter, candidate. rewrite components.
  by rewrite (proj2 (Z.eqb_neq k 0)) by lia.
Qed.

Lemma parse_candidate date k : valid_date date = true → u64 k →
  parse_rotated_name (candidate date k) stem ext = Some (date, k).
Proof.
  intros Hv Hk. unfold candidate. destruct (Z.eqb_spec k 0) as [->|];
    [by apply parse_base|by apply parse_counter].
Qed.

Lemma candidate_entry date k : valid_date date = true → u64 k →
  rotated_entry p (candidate date k) = Some (date, k, candidate date k).
Proof using components.
  intros Hv Hk. unfold rotated_entry. rewrite components.
  destruct (rotation_components_utf8 _ _ _ components) as [Hs He].
  assert (to_str (candidate date k) = Some (candidate date k)) as ->.
  { unfold to_str. enough (utf8_valid (bytes (candidate date k)) = true) as -> by done.
    unfold candidate. destruct (k =? 0); rewrite !bytes_app, !utf8_valid_app;
      eauto using valid_date_utf8, decimal_utf8. }
  cbn [mbind option_bind]. by rewrite parse_candidate.
Qed.

Lemma candidate_inj date k k' : valid_date date = true → u64 k → u64 k' →
  candidate date k = candidate date k' → k = k'.
Proof.
  intros Hv Hk Hk' Heq. pose proof (parse_candidate date k Hv Hk) as Hp.
  rewrite Heq, parse_candidate in Hp by done. by injection Hp.
Qed.

Lemma free_name_spec fuel dir date i : 0 ≤ i → ∃ j, i ≤ j ≤ i + Z.of_nat fuel ∧
  free_name fuel dir (ap_name p) date (candidate date i) (i + 1) = Ok (candidate date j) ∧
  (∀ k, i ≤ k < j → exists_at dir (candidate date k) = true) ∧
  (exists_at dir (candidate date j) = true → j = i + Z.of_nat fuel).
Proof using components.
  revert i; induction fuel as [|fuel IH]; intros i Hi; cbn [free_name];
    destruct (exists_at dir (candidate date i)) eqn:He.
  1, 2, 4: exists i; split_and!; try lia; try done; try (intros; lia); by rewrite He.
  rewrite rotated_counter_candidate by lia.
  destruct (IH (i + 1) ltac:(lia)) as (j & Hj & -> & Hall & Hlast). exists j.
  split_and!; try lia; [done| |].
  - intros k Hk. destruct (Z.eq_dec k i) as [->|]; [done|]. apply Hall. lia.
  - intros Hx. specialize (Hlast Hx). lia.
Qed.

(** A directory has no more names than entries. *)
Lemma candidates_bounded dir date j : valid_date date = true → u64 j →
  (∀ k, 0 ≤ k < j → exists_at dir (candidate date k) = true) → j ≤ Z.of_nat (size dir).
Proof.
  intros Hv Hj Hall.
  set (names := map (λ k, candidate date (Z.of_nat k)) (seq 0 (Z.to_nat j))).
  assert (NoDup names) as Hnd.
  { apply NoDup_fmap_2_strong; [|apply NoDup_seq].
    intros k k' Hk%elem_of_seq Hk'%elem_of_seq Heq. unfold u64 in *.
    apply candidate_inj in Heq; [lia|done|split; lia..]. }
  assert (list_to_set names ⊆ dom dir) as Hsub.
  { intros name (k & -> & Hk%elem_of_seq)%elem_of_list_to_set%list_elem_of_fmap.
    apply elem_of_dom. specialize (Hall (Z.of_nat k) ltac:(lia)). unfold exists_at in Hall.
    destruct (dir !! _) as [node|]; [by eexists|done]. }
  apply subseteq_size in Hsub. rewrite size_dom, size_list_to_set in Hsub by done.
  unfold names in Hsub. rewrite length_map, length_seq in Hsub. unfold u64 in Hj. lia.
Qed.

Lemma free_name_found dir date : valid_date date = true → Z.of_nat (size dir) < u64_max →
  ∃ j, u64 j ∧ free_name (size dir) dir (ap_name p) date (candidate date 0) 1 =
      Ok (candidate date j) ∧
    exists_at dir (candidate date j) = false ∧
    ∀ k, 0 ≤ k < j → exists_at dir (candidate date k) = true.
Proof using components.
  intros Hv Hs. destruct (free_name_spec (size dir) dir date 0 ltac:(lia)) as (j & Hj & Hf & Hall & Hl).
  exists j. assert (u64 j) by (unfold u64 in *; lia). split_and!; [done..| |done].
  destruct (exists_at dir (candidate date j)) eqn:He; [|done]. exfalso.
  specialize (Hl eq_refl). assert (j + 1 ≤ Z.of_nat (size dir)); [|lia].
  apply (candidates_bounded dir date); [done|unfold u64 in *; lia|].
  intros k Hk. destruct (Z.eq_dec k j) as [->|]; [done|]. apply Hall. lia.
Qed.

End rotation.
