(* ===== verification/JsonlEmit.v ===== *)
(** * Emissions extend the journal

    The theorems about the JSONL sink: an emission, failed or not, loses no generation and
    appends to the last, exactly the bytes it was given when it succeeds, and keeps the
    order of the generations where the rotated names of the day are dense; it succeeds
    when nothing fails; cleanup keeps the newest rotated files. *)

From S2P Require Import Prelude Ordered Rstr Json Delivery Journal Outbox OutboxInv JournalNames.
From S2P Require Import JournalDir Jsonl.
From stdpp Require Import gmap.
From Stdlib Require Import Ascii.

Local Open Scope Z_scope.

(** ** Emission *)

(** The rotated files are of earlier dates, or of the current date with all the names
    up to theirs in use: what rotation leaves behind when nothing of the date is removed.
    The next rotated file then takes a name after theirs. *)
Definition dense (p : ActivePath) (dir : Dir) (date : string) : Prop :=
  ∀ stem ext, rotation_components (ap_name p) = Ok (stem, ext) →
  ∀ e, e ∈ rotated_entries p dir →
    lt_of e.1.1 date ∨
    (e.1.1 = date ∧ ∀ k, 0 ≤ k ≤ e.1.2 → exists_at dir (candidate stem ext date k) = true).

(** The rotated files end with a whole record. *)
Definition rotated_whole (p : ActivePath) (dir : Dir) : Prop :=
  ∀ name e id links c, rotated_entry p name = Some e →
    dir !! name = Some (Regular id links c) → whole c.

Lemma rotated_counter p name e : rotated_entry p name = Some e → u64 e.1.2.
Proof.
  unfold rotated_entry, parse_rotated_name, parse_unsigned.
  destruct (rotation_components (ap_name p)) as [[stem ext]|]; [|done].
  destruct (to_str name) as [n|]; [|done]. cbn [mbind option_bind].
  destruct (Rstr.strip_prefix n (stem +:+ "-")) as [rest|]; [|done]. cbn [mbind option_bind].
  destruct (Rstr.strip_suffix rest ("." +:+ ext)) as [value|]; [|done].
  destruct (rsplit_once dot (bytes value)) as [[date counter]|].
  - destruct (valid_date (of_bytes date)); [|done]. rewrite bytes_of_bytes.
    destruct (strip_plus counter) as [|c ds] eqn:Hds; [done|].
    destruct (forallb is_ascii_digit (c :: ds)) eqn:Hf; [|done].
    destruct (Z.leb_spec (digits_value (c :: ds)) u64_max); [|done]. intros [= <-]. cbn [fst snd].
    split; [|done]. apply digits_value_bounds. rewrite forallb_forall in Hf.
    apply Forall_forall. intros x Hx. apply Hf. by apply list_elem_of_In.
  - destruct (valid_date value); [|done]. intros [= <-]. by split.
Qed.

Section emit.
Context (os : Os) (p : ActivePath) (date : string) (date_valid : valid_date date = true).
Context (ordered : Prop).

(** The rotated files are whole, and dense when the names are in order. *)
Record tidy (dir : Dir) : Prop := {
  td_whole : rotated_whole p dir;
  td_dense : ordered → dense p dir date;
}.

Lemma dense_same dir dir' :
  (∀ name e, rotated_entry p name = Some e → dir !! name = dir' !! name) →
  dense p dir date → dense p dir' date.
Proof using date_valid.
  intros Hs Hd stem ext Hc e He. destruct (rotated_entries_ext p dir dir' Hs) as [Hr _].
  rewrite <- Hr in He. destruct (Hd stem ext Hc e He) as [Hlt|[Hdate Hall]]; [by left|right].
  split; [done|]. intros k Hk. rewrite <- (Hall k Hk). unfold exists_at.
  apply rotated_entries_elem in He as (_ & _ & _ & He). apply rotated_counter in He.
  rewrite (Hs (candidate stem ext date k) (date, k, candidate stem ext date k)); [done|].
  apply (candidate_entry p stem ext Hc); [done|unfold u64 in *; lia].
Qed.

(** The next rotated file comes last. *)
Lemma dense_last dir stem ext j : rotation_components (ap_name p) = Ok (stem, ext) →
  dense p dir date → 0 ≤ j → dir !! candidate stem ext date j = None →
  ∀ e, e ∈ rotated_entries p dir → lt_of e (date, j, candidate stem ext date j).
Proof.
  intros Hc Hd Hj Hfree [[d c] name] He.
  change (then_with (then_with (cmp d date) (cmp c j)) (cmp name (candidate stem ext date j)) = Lt).
  destruct (Hd stem ext Hc _ He) as [Hlt|[Hdate Hall]]; cbn [fst snd] in *.
  - unfold lt_of in Hlt. by rewrite Hlt.
  - rewrite Hdate, (proj2 (cmp_eq date date)) by done. cbn [then_with].
    destruct (Z.lt_ge_cases c j) as [Hlt|Hge].
    + unfold cmp, ord_Z. by rewrite (proj2 (Z.compare_lt_iff c j)).
    + specialize (Hall j ltac:(lia)). unfold exists_at in Hall. by rewrite Hfree in Hall.
Qed.

Lemma dense_rename dir stem ext j id links c :
  rotation_components (ap_name p) = Ok (stem, ext) → u64 j → dense p dir date →
  dir !! candidate stem ext date j = None →
  (∀ k, 0 ≤ k < j → exists_at dir (candidate stem ext date k) = true) →
  dense p (<[candidate stem ext date j := Regular id links c]> (delete (ap_name p) dir)) date.
Proof using date_valid.
  intros Hc Hj Hd Hfree Hall. set (final := candidate stem ext date j) in *.
  assert (∀ k, u64 k → exists_at dir (candidate stem ext date k) = true →
    exists_at (<[final := Regular id links c]> (delete (ap_name p) dir))
      (candidate stem ext date k) = true) as Hkeep.
  { intros k Hk Hx. unfold exists_at. destruct (decide (final = candidate stem ext date k)) as [->|Hne].
    - by rewrite lookup_insert_eq.
    - rewrite lookup_insert_ne, lookup_delete_ne by (done || intros Heq;
        pose proof (candidate_entry p stem ext Hc date k date_valid Hk) as He;
        by rewrite <- Heq, active_not_rotated in He). exact Hx. }
  intros stem' ext' Hc' e. rewrite Hc in Hc'. injection Hc' as <- <-.
  rewrite (rotated_rename p dir final (date, j, final)); [|by apply candidate_entry|done..|].
  2: { apply dense_last; unfold u64 in *; try done; lia. }
  rewrite elem_of_app, list_elem_of_singleton. intros [He| ->].
  - destruct (Hd stem ext Hc e He) as [Hlt|[Hdate Hex]]; [by left|right]. split; [done|].
    intros k Hk. apply rotated_entries_elem in He as (_ & _ & _ & He). apply rotated_counter in He.
    apply Hkeep; [unfold u64 in *; lia|auto].
  - right. split; [done|]. cbn [fst snd]. intros k Hk.
    destruct (Z.eq_dec k j) as [->|]; [unfold exists_at, final; by rewrite lookup_insert_eq|].
    apply Hkeep; [unfold u64 in *; lia|]. apply Hall. lia.
Qed.

Lemma tidy_same dir dir' :
  (∀ name e, rotated_entry p name = Some e → dir !! name = dir' !! name) →
  tidy dir → tidy dir'.
Proof using date_valid.
  intros Hs [Hw Hd]. split; [|intros Ho; by apply (dense_same dir), Hd].
  intros name e id links c He. rewrite <- (Hs _ _ He). by eapply Hw.
Qed.

Lemma tidy_rename dir stem ext j id links c :
  rotation_components (ap_name p) = Ok (stem, ext) → u64 j → tidy dir →
  dir !! candidate stem ext date j = None → whole c →
  (∀ k, 0 ≤ k < j → exists_at dir (candidate stem ext date k) = true) →
  tidy (<[candidate stem ext date j := Regular id links c]> (delete (ap_name p) dir)).
Proof using date_valid.
  intros Hc Hj [Hw Hd] Hfree Hcw Hall. split; [|intros Ho; by apply dense_rename; auto].
  intros name e id' links' c' He. rewrite lookup_insert_Some. intros [[_ [= _ _ <-]]|[_ Hn]]; [done|].
  apply lookup_delete_Some in Hn as [_ Hn]. by eapply Hw.
Qed.

Lemma tidy_active dir node : tidy dir → tidy (<[ap_name p := node]> dir).
Proof using date_valid.
  apply tidy_same. intros name e He. rewrite lookup_insert_ne; [done|].
  intros <-. by rewrite active_not_rotated in He.
Qed.

(** Nothing was written yet: the generations are the ones of the start. *)
Record steady (start : list JournalSnapshot) (dir : Dir) : Prop := {
  st_snapshots : rearranged ordered start (snapshots p dir);
  st_tidy : tidy dir;
}.

(** The active file is absent, or regular and ends with a whole record. *)
Definition ready (dir : Dir) : Prop :=
  ∀ node, dir !! ap_name p = Some node → ∃ id links c, node = Regular id links c ∧ whole c.

Definition safe (dir : Dir) : Prop :=
  ∀ node, dir !! ap_name p = Some node → ∃ id links c, node = Regular id links c.

Definition sized (dir : Dir) : Prop := Z.of_nat (size dir) ≤ u64_max.

Context (start : list JournalSnapshot).

Lemma steady_same dir dir' : same_journal p dir dir' → steady start dir → steady start dir'.
Proof using date_valid.
  intros Hs [H1 H2]. split.
  2: { apply (tidy_same dir); [|done]. intros name e He. apply Hs. right. by rewrite He. }
  unfold snapshots. by rewrite <- (proj1 (same_journal_files p dir dir' Hs)).
Qed.

(** A step that only looks keeps what is known. *)
Tactic Notation "pass_by" tactic3(x) :=
  eapply triple_bind;
  [apply triple_readonly;
   [first [apply readonly_attempt | apply readonly_safe_path_info | apply readonly_verify_lock
          | apply readonly_ensure_tail | apply readonly_sync_parent | apply readonly_lift
          | apply readonly_node]
   |x|intros ? ? HP _; exact HP]
  |intros ?; cbv beta].
Ltac pass := pass_by naive_solver.

Lemma lock_triple :
  triple (λ dir, steady start dir ∧ Z.of_nat (size dir) < u64_max) (acquire_lock_only os (ap_name p))
    (λ _ dir, steady start dir ∧ sized dir ∧ safe dir) (steady start).
Proof using date_valid.
  unfold acquire_lock_only. pass.
  apply (triple_bind _ _ _ (λ _ dir, steady start dir ∧ sized dir)).
  { intros dir [Hs Hsz]. unfold open_or_create, ebind, attempt, os_try, sized.
    destruct (os_io os _ _); [done|]. cbn.
    destruct (dir !! sidecar_name (ap_name p)) as [[| |]|] eqn:Hl; cbn; try (split; [done|lia]); [done..|].
    split.
    - apply (steady_same dir); [|done]. apply same_journal_insert, sidecar_not_journal.
    - rewrite map_size_insert_None by done. lia. }
  intros ?; cbv beta. do 3 pass. case_match; [|by intros ? [? _]]. eapply triple_bind.
  { apply (triple_readonly _ _ (λ _ dir, steady start dir ∧ sized dir ∧ safe dir));
      [apply readonly_safe_path_info|by intros ? [? _]|].
    intros dir info [Hs Hsz] Hi%safe_path_info_Ok. split_and!; [done..|]. intros node Hnode.
    destruct info as [info|]; [|congruence]. destruct Hi as (links & c & Hc & _). naive_solver. }
  intros ?; cbv beta. do 3 pass. by apply triple_ret.
Qed.

Lemma tail_triple :
  triple (λ dir, steady start dir ∧ sized dir ∧ safe dir) (ensure_jsonl_tail os (ap_name p))
    (λ _ dir, steady start dir ∧ sized dir ∧ ready dir) (steady start).
Proof.
  apply triple_readonly; [apply readonly_ensure_tail|by intros ? [? _]|].
  intros dir [] (Hs & Hsz & Hsafe) Ht. split_and!; [done..|]. intros node Hn.
  destruct (Hsafe node Hn) as (id & links & c & ->). exists id, links, c. split; [done|].
  by eapply ensure_tail_Ok.
Qed.

(** Rotation renames the active file to the newest name. *)
Lemma rename_triple stem ext :
  rotation_components (ap_name p) = Ok (stem, ext) →
  ∀ final, triple (λ dir, steady start dir ∧ ready dir ∧ ∃ j, u64 j ∧
      final = candidate stem ext date j ∧
      ∀ k, 0 ≤ k < j → exists_at dir (candidate stem ext date k) = true)
    (atomic_rename_no_replace os p (ap_name p) final)
    (λ _ dir, steady start dir ∧ ready dir) (steady start).
Proof using date_valid.
  intros Hc final. unfold atomic_rename_no_replace. pass. case_match; [|by intros ? [? _]].
  eapply triple_bind.
  { apply (triple_readonly _ _ (λ to dir, steady start dir ∧ ready dir ∧ (∃ j, u64 j ∧
      final = candidate stem ext date j ∧
      ∀ k, 0 ≤ k < j → exists_at dir (candidate stem ext date k) = true) ∧
      (to = None → dir !! final = None))); [apply readonly_safe_path_info|by intros ? [? _]|].
    intros dir to (Hs & Hr & Hj) Ht%safe_path_info_Ok. split_and!; try done. by intros ->. }
  intros [|]; [by intros ? [? _]|]. pass.
  intros dir (Hs & Hr & (j & Hj & -> & Hall) & Hfree). specialize (Hfree eq_refl).
  unfold ebind, node_at. destruct (dir !! ap_name p) as [node|] eqn:Ha; [|done].
  destruct (Hr node Ha) as (id & links & c & -> & Hw). cbn.
  set (final := candidate stem ext date j) in *.
  assert (steady start (<[final := Regular id links c]> (delete (ap_name p) dir))) as Hs'.
  { destruct Hs as [[Hsn Hin] Hd]. split; [|by apply tidy_rename].
    assert (rotated_entry p final = Some (date, j, final)) as He by (by apply candidate_entry).
    split; [rewrite Hsn; by eapply snapshots_rename_perm|]. intros Ho. rewrite <- (Hin Ho).
    eapply snapshots_rename; [done..|]. destruct Hd as [_ Hd]. specialize (Hd Ho).
    apply dense_last; unfold u64 in *; try done; lia. }
  unfold sync_parent, attempt. destruct (os_try _ _ _); cbn; [|done]. split; [done|].
  intros node. rewrite lookup_insert_ne, lookup_delete_eq; [done|]. intros Heq.
  pose proof (candidate_entry p stem ext Hc date j date_valid Hj) as He.
  fold final in He. by rewrite Heq, active_not_rotated in He.
Qed.

Lemma rotate_triple config : current_date_utc (os_seconds os) = date →
  triple (λ dir, steady start dir ∧ sized dir ∧ ready dir) (rotate_file os p config true)
    (λ _ dir, steady start dir ∧ ready dir) (steady start).
Proof using date_valid.
  intros Hnow. unfold rotate_file. rewrite Hnow.
  destruct (rotation_components (ap_name p)) as [[stem ext]|e] eqn:Hc.
  2: { unfold rotated_name. rewrite Hc. by intros dir [Hs _]. }
  rewrite (rotated_name_candidate p stem ext Hc). cbn [map_err elift].
  apply (triple_bind _ _ _ (λ name dir, name = candidate stem ext date 0 ∧
    steady start dir ∧ sized dir ∧ ready dir)); [by apply triple_ret|].
  intros name. eapply triple_bind.
  { intros dir (-> & Hs & Hsz & Hr).
    destruct (free_name_spec p stem ext Hc (size dir) dir date 0 ltac:(lia))
      as (j & Hj & Hf & Hall & _). change (0 + 1) with 1 in Hf. rewrite Hf. cbn [map_err].
    instantiate (1 := λ final dir, steady start dir ∧ ready dir ∧ ∃ j, u64 j ∧
      final = candidate stem ext date j ∧
      ∀ k, 0 ≤ k < j → exists_at dir (candidate stem ext date k) = true).
    split_and!; [done..|]. exists j. split_and!; [|done..]. unfold sized, u64 in *. lia. }
  intros final. eapply triple_bind; [apply (rename_triple stem ext Hc)|]. intros ?; cbv beta.
  apply (triple_bind _ _ _ (λ _ dir, steady start dir ∧ ready dir)); [by apply triple_ret|].
  intros ?; cbv beta. pass. by apply triple_ret.
Qed.

Lemma maybe_rotate_triple config : current_date_utc (os_seconds os) = date →
  triple (λ dir, steady start dir ∧ sized dir ∧ ready dir)
    (maybe_rotate_with_mode os p config true)
    (λ _ dir, steady start dir ∧ ready dir) (steady start).
Proof using date_valid.
  intros Hnow. unfold maybe_rotate_with_mode. pass.
  assert (triple (λ dir, steady start dir ∧ sized dir ∧ ready dir) (eret false : DirM bool)
    (λ _ dir, steady start dir ∧ ready dir) (steady start)) by (apply triple_ret; naive_solver).
  destruct a as [[id links c|[c|]|sz]|]; try done; pass; case_match; try done;
    by apply rotate_triple.
Qed.

(** The active file is open, and what is written to it extends the journal. *)
Definition opened (dir : Dir) : Prop :=
  tidy dir ∧ ∃ id links c, dir !! ap_name p = Some (Regular id links c) ∧
  ∀ w, journal_grows ordered (os_fresh os (ap_name p)) start
         (snapshots p (<[ap_name p := Regular id links (c ++ w)]> dir)) w.

Definition written (w : list ascii) (dir : Dir) : Prop :=
  journal_grows ordered (os_fresh os (ap_name p)) start (snapshots p dir) w ∧ tidy dir.

Lemma snapshots_write dir id links c : snapshots p (<[ap_name p := Regular id links c]> dir) =
  map snapshot_of (omap (λ e : RotatedEntry, rotated_file p dir e.2) (rotated_entries p dir)) ++
  [{| snap_identity := id; snap_bytes := c |}].
Proof.
  rewrite (snapshots_active p _ id links c) by apply lookup_insert_eq.
  by rewrite (proj2 (rotated_active_insert p dir (Regular id links c))).
Qed.

Lemma steady_written dir : steady start dir → written [] dir.
Proof. intros [Hs Hd]. split; [|done]. eexists. split; [exact Hs|]. by apply extends_same. Qed.

Lemma opened_written dir : opened dir → written [] dir.
Proof.
  intros (Hd & id & links & c & Ha & Hw). split; [|done]. specialize (Hw []).
  by rewrite app_nil_r, insert_id in Hw.
Qed.

Lemma open_triple :
  triple (λ dir, steady start dir ∧ ready dir) (open_append os (ap_name p))
    (λ _ dir, opened dir) (written []).
Proof using date_valid.
  unfold open_append. pass_by (intros ? [? _]; by apply steady_written).
  apply (triple_bind _ _ _ (λ _, opened)).
  { intros dir [Hs Hr]. unfold open_or_create, ebind, attempt, node_at.
    destruct (os_try _ _ _); cbn; [|by apply steady_written].
    destruct (dir !! ap_name p) as [node|] eqn:Ha.
    - destruct (Hr node Ha) as (id & links & c & -> & Hc). cbn. destruct Hs as [Hs Hd].
      split; [done|]. exists id, links, c. split; [done|]. intros w. rewrite snapshots_write.
      eexists. split; [exact Hs|]. rewrite (snapshots_active p dir id links c Ha).
      by eapply extends_last.
    - cbn. destruct Hs as [Hs Hd]. split; [by apply tidy_active|].
      eexists _, _, _. split; [apply lookup_insert_eq|]. intros w.
      rewrite insert_insert_eq, snapshots_write. eexists. split; [exact Hs|].
      apply extends_new. by rewrite (snapshots_inactive p dir Ha). }
  intros ?; cbv beta. do 2 pass_by (intros ?; apply opened_written). by apply triple_ret.
Qed.

(** Some prefix of the data was written. *)
Definition partly (data : list ascii) (dir : Dir) : Prop :=
  ∃ w, w `prefix_of` data ∧ written w dir.

Lemma partly_nil data dir : written [] dir → partly data dir.
Proof. intros Hw. exists []. split; [apply prefix_nil|done]. Qed.

Lemma partly_all data dir : written data dir → partly data dir.
Proof. by exists data. Qed.

Lemma write_triple data :
  triple opened (write_all os (ap_name p) data) (λ _, written data) (partly data).
Proof using date_valid.
  intros dir (Hd & id & links & c & Ha & Hw). unfold write_all, ebind, node_at. rewrite Ha.
  destruct (os_io os "write" (ap_name p)); cbn.
  - exists (take (os_partial os) data). split; [apply prefix_take|].
    split; [apply Hw|by apply tidy_active].
  - split; [apply Hw|by apply tidy_active].
Qed.

Lemma append_triple data :
  triple (λ dir, steady start dir ∧ ready dir) (append_jsonl_bytes os (ap_name p) data)
    (λ _, written data) (partly data).
Proof using date_valid.
  unfold append_jsonl_bytes. pass_by (intros ? [? _]; by apply partly_nil, steady_written).
  eapply triple_bind.
  { eapply triple_weaken; [..|apply open_triple]; [done|done|]. intros dir. apply partly_nil. }
  intros ?; cbv beta. eapply triple_bind; [apply write_triple|intros ?; cbv beta].
  do 3 pass_by (intros ?; apply partly_all). case_match; [|intros dir; apply partly_all].
  pass_by (intros ?; apply partly_all). by apply triple_ret.
Qed.

Lemma emit_triple sink data :
  js_path sink = p → js_preserve_rotated sink = true → current_date_utc (os_seconds os) = date →
  triple (λ dir, steady start dir ∧ Z.of_nat (size dir) < u64_max) (emit_jsonl_bytes os sink data)
    (λ _, written data) (partly data).
Proof using date_valid.
  intros Hp Hpres Hnow. unfold emit_jsonl_bytes. rewrite Hp, Hpres.
  destruct data as [|b data]; [apply triple_ret; intros dir [? _]; by apply steady_written|].
  generalize (b :: data). clear b data. intros data.
  assert (∀ dir, steady start dir → partly data dir) as Hx
    by (intros dir Hs; by apply partly_nil, steady_written).
  apply (triple_bind _ _ _ (λ _ dir, steady start dir ∧ Z.of_nat (size dir) < u64_max)).
  { case_match; [|by apply triple_ret]. pass_by (naive_solver). by apply triple_ret. }
  intros ?; cbv beta. eapply triple_bind.
  { eapply triple_weaken; [..|apply lock_triple]; [done|intros ? ? HP; exact HP|done]. }
  intros lock; cbv beta. eapply triple_bind.
  { eapply triple_weaken; [..|apply tail_triple]; [done|intros ? ? HP; exact HP|done]. }
  intros ?; cbv beta. apply (triple_bind _ _ _ (λ _ dir, steady start dir ∧ ready dir)).
  { case_match; [|apply triple_ret; naive_solver].
    eapply triple_weaken; [..|by apply maybe_rotate_triple]; done. }
  intros rotated. eapply triple_bind; [apply append_triple|]. intros created; cbv beta.
  apply (triple_bind _ _ _ (λ _, written data)).
  { case_match; [|by apply triple_ret]. apply triple_readonly;
      [apply readonly_sync_parent|intros ?; apply partly_all|done]. }
  intros ?. apply triple_readonly; [apply readonly_verify_lock|intros ?; apply partly_all|done].
Qed.

End emit.

(** Rotated names stay dense as time passes. *)
Lemma dense_later p dir date date' : lt_of date date' → dense p dir date → dense p dir date'.
Proof.
  intros Hlt Hd stem ext Hc e He. left.
  destruct (Hd stem ext Hc e He) as [He'|[-> _]]; [|done]. exact (cmp_trans _ _ _ He' Hlt).
Qed.

Definition journal_text (S : list JournalSnapshot) : list ascii := concat (map snap_bytes S).

Lemma extends_text fresh S S' w : journal_extends fresh S S' w →
  journal_text S' = journal_text S ++ w.
Proof.
  unfold journal_text. intros [-> ->|pre s -> _ ->| ->].
  - by rewrite app_nil_r.
  - rewrite !map_app, !concat_app. cbn. by rewrite !app_nil_r, app_assoc.
  - rewrite map_app, concat_app. cbn. by rewrite app_nil_r.
Qed.

(** What an emission of a durable sink leaves behind, whether it returns or fails. *)
Lemma emit_grows os sink data dir :
  let p := js_path sink in
  let date := current_date_utc (os_seconds os) in
  js_preserve_rotated sink = true → valid_date date = true → rotated_whole p dir →
  Z.of_nat (size dir) < u64_max →
  let '(dir', r) := emit_jsonl_bytes os sink data dir in
  ∃ w, w `prefix_of` data ∧ (is_ok r = true → w = data) ∧
    journal_grows (dense p dir date) (os_fresh os (ap_name p))
      (snapshots p dir) (snapshots p dir') w ∧
    rotated_whole p dir' ∧ (dense p dir date → dense p dir' date).
Proof.
  intros p date Hpres Hv Hd Hsz.
  pose proof (emit_triple os p date Hv (dense p dir date) (snapshots p dir) sink data
    eq_refl Hpres eq_refl dir) as Ht.
  specialize (Ht (conj {| st_snapshots := rearranged_refl _ _;
                          st_tidy := {| td_whole := Hd; td_dense := λ Hx, Hx |} |} Hsz)).
  destruct (emit_jsonl_bytes os sink data dir) as [dir' [[]|e]].
  - destruct Ht as [He [Hw' Hd']]. exists data. by split_and!.
  - destruct Ht as (w & Hw & He & [Hw' Hd']). exists w. by split_and!.
Qed.

(** C11: an emission extends the journal.  A durable sink, whatever fails, keeps every
    generation with its bytes, none lost and none duplicated, and appends a prefix of its
    data, all of it when it succeeds: to the last file, which ended with a whole record,
    or to a new file that comes last.  Rotated files still end with a whole record.
    Where the rotated names of the day are dense (all the counters up to the highest are
    in use) the generations also keep their order, so the journal's text is the old text
    followed by the new bytes, and the names are dense afterwards.  Where a file of the
    day was removed, the file rotated next takes the free name and may come before others
    ([pruned_base_name_is_reused]): the order is then not claimed. *)
Theorem emit_extends_journal os sink data dir :
  let p := js_path sink in
  let date := current_date_utc (os_seconds os) in
  let fresh := os_fresh os (ap_name p) in
  js_preserve_rotated sink = true → valid_date date = true → rotated_whole p dir →
  Z.of_nat (size dir) < u64_max →
  let '(dir', r) := emit_jsonl_bytes os sink data dir in
  ∃ w, w `prefix_of` data ∧ (is_ok r = true → w = data) ∧
    (∃ A, A ≡ₚ snapshots p dir ∧ journal_extends fresh A (snapshots p dir') w) ∧
    rotated_whole p dir' ∧
    (dense p dir date →
       journal_extends fresh (snapshots p dir) (snapshots p dir') w ∧
       journal_text (snapshots p dir') = journal_text (snapshots p dir) ++ w ∧
       dense p dir' date).
Proof.
  intros p date fresh Hpres Hv Hd Hsz.
  pose proof (emit_grows os sink data dir Hpres Hv Hd Hsz) as Ht.
  destruct (emit_jsonl_bytes os sink data dir) as [dir' r].
  destruct Ht as (w & Hw & Hall & Hg & Hw' & Hd'). exists w. split_and!; [done|done| |done|].
  - destruct Hg as (A & [HA _] & He). by exists A.
  - intros Ho. pose proof (journal_grows_ordered _ _ _ _ _ Hg Ho) as He.
    split_and!; [done|by eapply extends_text|by apply Hd'].
Qed.

(** ** Cleanup *)

Section cleanup.
Context (os : Os) (p : ActivePath).

Lemma remove_rotated_other dir l name : name ∉ l.*2 →
  foldl (remove_rotated os) dir l !! name = dir !! name.
Proof.
  revert dir; induction l as [|e l IH]; intros dir; cbn; [done|].
  rewrite not_elem_of_cons. intros [Hne Hl]. rewrite IH by done. unfold remove_rotated.
  case_match; [done|]. by rewrite lookup_delete_ne.
Qed.

Lemma remove_rotated_all dir l name : os_io os = no_faults → name ∈ l.*2 →
  foldl (remove_rotated os) dir l !! name = None.
Proof.
  intros Hio. revert dir; induction l as [|e l IH]; intros dir; cbn; [by intros ?%not_elem_of_nil|].
  destruct (decide (name ∈ l.*2)) as [Hin|Hout]; [intros _; by apply IH|].
  intros [->|Hin]%elem_of_cons; [|done]. rewrite remove_rotated_other by done.
  unfold remove_rotated. rewrite Hio. cbn. apply lookup_delete_eq.
Qed.

Lemma StronglySorted_drop {A} (R : A → A → Prop) n l :
  StronglySorted R l → StronglySorted R (drop n l).
Proof.
  revert l; induction n as [|n IH]; intros l Hl; [done|].
  destruct Hl; [constructor|]. by apply IH.
Qed.

Lemma rotated_entry_of dir e e' : e ∈ rotated_entries p dir → e' ∈ rotated_entries p dir →
  e.2 = e'.2 → e = e'.
Proof.
  rewrite !rotated_entries_elem. intros (_ & _ & _ & He) (_ & _ & _ & He') Heq. congruence.
Qed.

(** Removing the first files of the order leaves the others. *)
Lemma rotated_after_removal dir n : os_io os = no_faults →
  rotated_entries p (foldl (remove_rotated os) dir (take n (rotated_entries p dir))) =
  drop n (rotated_entries p dir).
Proof.
  intros Hio. set (l := rotated_entries p dir). set (dir' := foldl _ dir _).
  apply (strict_sorted_ext lt_of); [apply lt_irrefl|intros ? ? ?; apply cmp_trans| | |].
  { apply rotated_entries_sorted. }
  { apply StronglySorted_drop, rotated_entries_sorted. }
  pose proof (rotated_of_nodup p (map_to_list dir) (NoDup_fst_map_to_list dir)) as Hnd.
  assert (NoDup l) as Hndl by (unfold l, rotated_entries, sort; by rewrite sort_by_perm).
  rewrite <- (take_drop n l) in Hndl. apply NoDup_app in Hndl as (_ & Hdisj & _).
  intros e. split.
  - intros (node & Hn & Hf & He)%rotated_entries_elem.
    assert (e.2 ∉ (take n l).*2) as Hout.
    { intros Hin. unfold dir' in Hn. by rewrite remove_rotated_all in Hn. }
    unfold dir' in Hn. rewrite remove_rotated_other in Hn by done.
    assert (e ∈ l) as Hel by (apply rotated_entries_elem; eauto).
    rewrite <- (take_drop n l), elem_of_app in Hel. destruct Hel as [Hel|]; [|done].
    destruct Hout. by apply list_elem_of_fmap_2.
  - intros Hin. assert (e ∈ l) as Hel by (rewrite <- (take_drop n l), elem_of_app; by right).
    assert (e.2 ∉ (take n l).*2) as Hout.
    { intros (e' & Heq & Hin')%list_elem_of_fmap. apply (Hdisj e' Hin').
      rewrite <- (rotated_entry_of dir e e'); try done.
      fold l. rewrite <- (take_drop n l), elem_of_app. by left. }
    apply rotated_entries_elem in Hel as (node & Hn & Hf & He). apply rotated_entries_elem.
    exists node. unfold dir'. by rewrite remove_rotated_other.
Qed.

(** The files a cleanup removes. *)
Definition surplus (keep : nat) (l : list RotatedEntry) : list RotatedEntry :=
  take (length l - keep) l.

Lemma cleanup_deletes keep dir entries : entries ≡ₚ map_to_list dir →
  let rotated := sort (rotated_of p entries) in
  (if (keep =? 0)%nat then rotated
   else if (keep <? length rotated)%nat then take (length rotated - keep) rotated
   else []) = surplus keep (rotated_entries p dir).
Proof.
  intros Hp. cbv zeta. rewrite (rotated_entries_read p dir entries Hp). unfold surplus.
  destruct (Nat.eqb_spec keep 0) as [->|]; [by rewrite Nat.sub_0_r, firstn_all|].
  destruct (Nat.ltb_spec keep (length (rotated_entries p dir))); [done|].
  by replace (length (rotated_entries p dir) - keep)%nat with 0%nat by lia.
Qed.

End cleanup.

(** Cleanup keeps the newest.  In a directory with a name for its parent, cleanup
    removes only rotated files beyond the newest [keep], whatever fails; without faults
    exactly the newest [keep] remain.  Other files are never touched. *)
Theorem cleanup_keeps_newest os p n dir :
  is_ok (rotation_components (ap_name p)) = true → is_empty (ap_parent p) = false →
  let '(dir', r) := cleanup_rotated_files os p n dir in
  (∀ name, name ∉ (surplus n (rotated_entries p dir)).*2 → dir' !! name = dir !! name) ∧
  (os_io os = no_faults → r = Ok tt ∧
     rotated_entries p dir' = drop (length (rotated_entries p dir) - n) (rotated_entries p dir)).
Proof.
  intros Hc Hp. unfold cleanup_rotated_files.
  destruct (rotation_components (ap_name p)) as [comps|]; [|done].
  unfold ebind, read_dir. rewrite Hp. cbn [map_err elift eret]. unfold attempt, os_try.
  destruct (os_io os "read directory" (ap_parent p)) eqn:Hio; cbn [map_err elift efail eret].
  { split; [done|]. intros Hno. by rewrite Hno in Hio. }
  cbn [ebind eret].   rewrite (cleanup_deletes p n dir) by done. split.
  - intros name Hn. by apply remove_rotated_other.
  - intros Hno. split; [done|]. by apply rotated_after_removal.
Qed.

(** ** Success *)

Section success.
Context (os : Os) (quiet : os_io os = no_faults) (p : ActivePath).

Notation total P c Q := (triple P c Q (λ _ : Dir, False)).

(** A file that may be opened, with a single link. *)
Definition plain (dir : Dir) (name : string) : Prop :=
  ∀ node, dir !! name = Some node → ∃ id links c, node = Regular id links c ∧ links ≤ 1.

(** What an emission needs: a plain lock and a plain active file that ends with a whole
    record, no dangling link under a rotated name, and a bound on the names. *)
Record serviceable (bound : Z) (dir : Dir) : Prop := {
  sv_lock : plain dir (sidecar_name (ap_name p));
  sv_active : plain dir (ap_name p);
  sv_whole : ∀ id links c, dir !! ap_name p = Some (Regular id links c) → whole c;
  sv_links : ∀ name e, rotated_entry p name = Some e → dir !! name ≠ Some (Symlink None);
  sv_size : Z.of_nat (size dir) < bound;
}.

Lemma total_attempt P context subject :
  total P (attempt os context subject) (λ _, P).
Proof using quiet. intros dir HP. unfold attempt, os_try. by rewrite quiet. Qed.

Lemma total_look (P : Dir → Prop) name : (∀ dir, P dir → plain dir name) →
  total P (safe_path_info os name)
    (λ info dir, P dir ∧
       match info with
       | None => dir !! name = None
       | Some info => ∃ c, dir !! name = Some (Regular (fm_identity info) (fm_links info) c) ∧
           fm_length info = Z.of_nat (length c)
       end).
Proof using quiet.
  intros Hplain dir HP. unfold safe_path_info, ebind, node_at, attempt, os_try. rewrite quiet.
  destruct (dir !! name) as [node|] eqn:Hn; [|by split].
  destruct (Hplain dir HP node Hn) as (id & links & c & -> & Hl). cbn.
  rewrite (proj2 (Z.ltb_ge 1 links)) by done. cbn. split; [done|]. exists c. by rewrite Hn.
Qed.

(** The lock is held. *)
Definition held (lock : FileMetadata) (dir : Dir) : Prop :=
  ∃ c, dir !! sidecar_name (ap_name p) = Some (Regular (fm_identity lock) (fm_links lock) c) ∧
    fm_length lock = Z.of_nat (length c) ∧ fm_links lock ≤ 1.

Lemma total_verify (P : Dir → Prop) lock : (∀ dir, P dir → held lock dir) →
  total P (verify_lock os (ap_name p) lock) (λ _, P).
Proof using quiet.
  intros Hheld. unfold verify_lock. eapply triple_bind.
  - apply (total_look P). intros dir HP node Hn.
    destruct (Hheld dir HP) as (c & Hc & _ & Hl). naive_solver.
  - intros info dir [HP Hi]. destruct (Hheld dir HP) as (c & Hc & Hlen & Hl).
    destruct info as [info|]; [|congruence]. destruct Hi as (c' & Hc' & Hlen').
    rewrite Hc in Hc'. injection Hc' as -> -> ->. rewrite Hlen, Hlen'.
    unfold str_eqb. rewrite String.eqb_refl, !Z.eqb_refl. by apply total_attempt.
Qed.

Lemma active_ne_sidecar : ap_name p ≠ sidecar_name (ap_name p).
Proof. intros Heq. apply (sidecar_not_journal p). left. by rewrite <- Heq. Qed.

Lemma serviceable_lock dir bound id : serviceable bound dir →
  dir !! sidecar_name (ap_name p) = None →
  serviceable (bound + 1) (<[sidecar_name (ap_name p) := Regular id 1 []]> dir).
Proof.
  intros [Hl Ha Hw Hs Hz] Hnone. pose proof active_ne_sidecar as Hne. split.
  - intros node. rewrite lookup_insert_eq. intros [= <-]. by repeat eexists.
  - intros node. rewrite lookup_insert_ne by done. apply Ha.
  - intros ? ? ?. rewrite lookup_insert_ne by done. apply Hw.
  - intros name e He. rewrite lookup_insert_ne; [by eapply Hs|].
    intros Heq. apply (sidecar_not_journal p). right. by rewrite Heq, He.
  - rewrite map_size_insert_None by done. lia.
Qed.

Lemma serviceable_mono bound bound' dir : bound ≤ bound' → serviceable bound dir →
  serviceable bound' dir.
Proof. intros Hb [? ? ? ? ?]. split; [done..|lia]. Qed.

Lemma total_lock bound :
  total (serviceable bound) (acquire_lock_only os (ap_name p))
    (λ lock dir, serviceable (bound + 1) dir ∧ held lock dir).
Proof using quiet.
  unfold acquire_lock_only. eapply triple_bind; [apply total_attempt|intros ?; cbv beta].
  apply (triple_bind _ _ _ (λ _ dir, serviceable (bound + 1) dir ∧
    is_some (dir !! sidecar_name (ap_name p)) = true)).
  { intros dir Hs. unfold open_or_create, ebind, attempt, os_try, node_at. rewrite quiet. cbn.
    destruct (dir !! sidecar_name (ap_name p)) as [node|] eqn:Hl.
    - destruct (sv_lock _ _ Hs node Hl) as (id & links & c & -> & _). cbn. rewrite Hl.
      split; [|done]. eapply serviceable_mono; [|done]. lia.
    - cbn. rewrite lookup_insert_eq. split; [|done]. by apply serviceable_lock. }
  intros ?; cbv beta. do 2 (eapply triple_bind; [apply total_attempt|intros ?; cbv beta]).
  eapply triple_bind; [apply total_look; intros dir [Hs _]; apply Hs|]. intros [lock|]; cbv beta.
  2: { intros dir [[_ Hsome] Hnone]. by rewrite Hnone in Hsome. }
  apply (triple_weaken (λ dir, serviceable (bound + 1) dir ∧ held lock dir) _ _
    (λ l dir, l = lock ∧ serviceable (bound + 1) dir ∧ held lock dir) _ (λ _, False));
    [|by intros ? ? (-> & ? & ?)|done|].
  { intros dir [[Hs _] (c & Hc & Hlen)]. split; [done|]. exists c. split_and!; try done.
    destruct (sv_lock _ _ Hs _ Hc) as (? & ? & ? & [= <- <- <-] & ?). done. }
  eapply triple_bind; [apply total_look; intros dir [Hs _]; apply Hs|intros ?; cbv beta].
  eapply triple_bind; [apply total_verify; intros dir [[_ ?] _]; done|intros ?; cbv beta].
  eapply triple_bind; [apply total_look; intros dir [[Hs _] _]; apply Hs|intros ?; cbv beta].
  eapply triple_bind; [apply total_attempt|intros ?; cbv beta]. apply triple_ret. naive_solver.
Qed.

(** The active file may be appended to while the lock is held. *)
Definition appendable (lock : FileMetadata) (dir : Dir) : Prop :=
  plain dir (ap_name p) ∧ held lock dir ∧
  ∀ id links c, dir !! ap_name p = Some (Regular id links c) → whole c.

Lemma serviceable_appendable bound lock dir : serviceable bound dir → held lock dir →
  appendable lock dir.
Proof. intros Hs Hh. split_and!; [apply Hs|done|]. apply Hs. Qed.

Lemma total_tail (P : Dir → Prop) lock : (∀ dir, P dir → appendable lock dir) →
  total P (ensure_jsonl_tail os (ap_name p)) (λ _, P).
Proof using quiet.
  intros Ha dir HP. unfold ensure_jsonl_tail, ebind, node_at, attempt, os_try. rewrite quiet.
  destruct (Ha dir HP) as (Hplain & _ & Hwhole).
  destruct (dir !! ap_name p) as [node|] eqn:Hn; [|done].
  destruct (Hplain node Hn) as (id & links & c & -> & _). cbn.
  destruct (Hwhole _ _ _ eq_refl) as [-> | ->]; done.
Qed.

(** The active file was renamed away. *)
Definition vacated (lock : FileMetadata) (dir : Dir) : Prop :=
  dir !! ap_name p = None ∧ held lock dir.

Lemma vacated_appendable lock dir : vacated lock dir → appendable lock dir.
Proof. intros [Hn Hh]. split_and!; [|done|]; [intros node|intros ? ? ?]; by rewrite Hn. Qed.

Lemma vacated_cleanup lock dir l : (∀ e, e ∈ l → e ∈ rotated_entries p dir) →
  vacated lock dir → vacated lock (foldl (remove_rotated os) dir l).
Proof.
  intros Hl [Hn Hh]. assert (∀ name, rotated_entry p name = None →
    foldl (remove_rotated os) dir l !! name = dir !! name) as Hkeep.
  { intros name Hname. apply remove_rotated_other. intros (e & -> & He)%list_elem_of_fmap.
    apply Hl, rotated_entries_elem in He as (_ & _ & _ & He). congruence. }
  split; [by rewrite Hkeep by apply active_not_rotated|].
  destruct Hh as (c & Hc & Hrest). exists c. by rewrite Hkeep by apply not_rotated.
Qed.

Lemma total_cleanup lock n : is_ok (rotation_components (ap_name p)) = true →
  is_empty (ap_parent p) = false →
  total (vacated lock) (cleanup_rotated_files os p n) (λ _, vacated lock).
Proof using quiet.
  intros Hc Hparent dir Hv. unfold cleanup_rotated_files.
  destruct (rotation_components (ap_name p)); [|done]. unfold ebind, read_dir, attempt, os_try.
  rewrite Hparent, quiet. cbn. apply vacated_cleanup; [|done].
  rewrite (cleanup_deletes p n dir) by done. unfold surplus. intros e He.
  rewrite <- (take_drop (length (rotated_entries p dir) - n) (rotated_entries p dir)).
  apply elem_of_app. by left.
Qed.

Lemma total_rename lock stem ext date j :
  rotation_components (ap_name p) = Ok (stem, ext) → valid_date date = true → u64 j →
  total (λ dir, serviceable u64_max dir ∧ held lock dir ∧ is_some (dir !! ap_name p) = true ∧
      exists_at dir (candidate stem ext date j) = false)
    (atomic_rename_no_replace os p (ap_name p) (candidate stem ext date j)) (λ _, vacated lock).
Proof using quiet.
  intros Hc Hv Hj. pose proof (candidate_entry p stem ext Hc date j Hv Hj) as He.
  set (final := candidate stem ext date j) in *. unfold atomic_rename_no_replace.
  eapply triple_bind; [apply total_look; intros dir [Hs _]; apply Hs|].
  intros [info|]; [|intros dir [(_ & _ & Hsome & _) Hn]; by rewrite Hn in Hsome].
  apply (triple_bind _ _ _ (λ to dir, to = None ∧ serviceable u64_max dir ∧ held lock dir ∧
    is_some (dir !! ap_name p) = true ∧ dir !! final = None)).
  { intros dir [(Hs & Hh & Hsome & Hx) _]. assert (dir !! final = None) as Hfree.
    { unfold exists_at in Hx. pose proof (sv_links _ _ Hs _ _ He) as Hl.
      destruct (dir !! final) as [[| [|] |]|]; done. }
    unfold safe_path_info, ebind, node_at. by rewrite Hfree. }
  intros to dir (-> & Hs & Hh & Hsome & Hfree). unfold ebind, attempt, os_try, node_at, sync_parent.
  rewrite quiet. cbn. destruct (dir !! ap_name p) as [node|]; [|done]. cbn.
  unfold attempt, os_try. rewrite quiet. cbn.
  assert (ap_name p ≠ final) as H1 by (intros Heq; by rewrite <- Heq, active_not_rotated in He).
  assert (sidecar_name (ap_name p) ≠ final) as H2.
  { intros Heq. unfold sidecar_name in Heq. by rewrite <- Heq, not_rotated in He. }
  pose proof active_ne_sidecar. split; [by rewrite lookup_insert_ne, lookup_delete_eq|].
  destruct Hh as (c & Hc' & Hrest). exists c.
  by rewrite lookup_insert_ne, lookup_delete_ne.
Qed.

Lemma total_rotate lock config preserve : is_ok (rotation_components (ap_name p)) = true →
  valid_date (current_date_utc (os_seconds os)) = true →
  (preserve = false → is_empty (ap_parent p) = false) →
  total (λ dir, serviceable u64_max dir ∧ held lock dir ∧ is_some (dir !! ap_name p) = true)
    (rotate_file os p config preserve) (λ _, vacated lock).
Proof using quiet.
  intros Hok Hv Hparent. unfold rotate_file. set (date := current_date_utc _) in *.
  destruct (rotation_components (ap_name p)) as [[stem ext]|] eqn:Hc; [|done].
  rewrite (rotated_name_candidate p stem ext Hc). cbn [map_err elift].
  apply (triple_bind _ _ _ (λ name dir, name = candidate stem ext date 0 ∧ serviceable u64_max dir ∧
    held lock dir ∧ is_some (dir !! ap_name p) = true)); [by apply triple_ret|].
  intros name dir (-> & Hs & Hh & Hsome).
  destruct (free_name_found p stem ext Hc dir date Hv (sv_size _ _ Hs)) as (j & Hj & Hf & Hx & _).
  unfold ebind at 1. rewrite Hf. cbn [map_err].
  revert dir Hs Hh Hsome Hf Hx.
  assert (total (λ dir, serviceable u64_max dir ∧ held lock dir ∧ is_some (dir !! ap_name p) = true ∧
      exists_at dir (candidate stem ext date j) = false)
    (do! atomic_rename_no_replace os p (ap_name p) (candidate stem ext date j) in
     do! (if preserve then eret tt else cleanup_rotated_files os p (keep config)) in
     do! sync_parent os p in eret true) (λ _, vacated lock)) as Ht.
  { eapply triple_bind; [by apply total_rename|intros ?; cbv beta].
    apply (triple_bind _ _ _ (λ _, vacated lock)).
    - destruct preserve; [by apply triple_ret|]. apply total_cleanup; [by rewrite Hc|by apply Hparent].
    - intros ?. eapply triple_bind; [apply total_attempt|intros ?; by apply triple_ret]. }
  intros dir Hs Hh Hsome _ Hx. exact (Ht dir (conj Hs (conj Hh (conj Hsome Hx)))).
Qed.

Lemma total_maybe_rotate lock config preserve : is_ok (rotation_components (ap_name p)) = true →
  valid_date (current_date_utc (os_seconds os)) = true →
  (preserve = false → is_empty (ap_parent p) = false) →
  total (λ dir, serviceable u64_max dir ∧ held lock dir)
    (maybe_rotate_with_mode os p config preserve) (λ _, appendable lock).
Proof using quiet.
  intros Hok Hv Hparent dir [Hs Hh]. pose proof (serviceable_appendable _ _ _ Hs Hh) as Ha.
  unfold maybe_rotate_with_mode, ebind, node_at, attempt, os_try. rewrite quiet.
  destruct (dir !! ap_name p) as [node|] eqn:Hn; [|done].
  destruct (sv_active _ _ Hs node Hn) as (id & links & c & -> & _). cbn.
  destruct (Z.of_nat (length c) <? max_size_bytes config); [done|].
  pose proof (total_rotate lock config preserve Hok Hv Hparent dir) as Ht.
  specialize (Ht (conj Hs (conj Hh (f_equal is_some Hn)))).
  destruct (rotate_file os p config preserve dir) as [dir' [b|]]; [|done].
  by apply vacated_appendable.
Qed.

Lemma total_append lock data :
  total (appendable lock) (append_jsonl_bytes os (ap_name p) data) (λ _, held lock).
Proof using quiet.
  set (open_file dir := held lock dir ∧ plain dir (ap_name p) ∧ is_some (dir !! ap_name p) = true).
  assert (∀ dir id links c, held lock dir → links ≤ 1 →
    open_file (<[ap_name p := Regular id links c]> dir)) as Hput.
  { intros dir id links c (c' & Hc & Hrest) Hl. pose proof active_ne_sidecar. split_and!.
    - exists c'. by rewrite lookup_insert_ne.
    - intros node. rewrite lookup_insert_eq. intros [= <-]. eauto.
    - by rewrite lookup_insert_eq. }
  unfold append_jsonl_bytes. eapply triple_bind; [by apply (total_tail _ lock)|intros ?; cbv beta].
  apply (triple_bind _ _ _ (λ _, open_file)).
  { unfold open_append. eapply triple_bind;
      [apply (total_look (appendable lock)); intros dir Ha; apply Ha|intros ?; cbv beta].
    apply (triple_bind _ _ _ (λ _, open_file)).
    - intros dir [(Hp & Hh & _) _]. unfold open_or_create, ebind, attempt, os_try, node_at.
      rewrite quiet. cbn. destruct (dir !! ap_name p) as [node|] eqn:Hn.
      + destruct (Hp node Hn) as (id & links & c & -> & Hl). cbn. split_and!; [done..|by rewrite Hn].
      + cbn. by apply Hput.
    - intros ?. eapply triple_bind; [apply total_look; intros dir Ho; apply Ho|intros ?; cbv beta].
      eapply triple_bind; [apply total_attempt|intros ?; apply triple_ret; naive_solver]. }
  intros created. apply (triple_bind _ _ _ (λ _, open_file)).
  { intros dir (Hh & Hp & Hsome). unfold write_all, ebind, node_at. rewrite quiet. cbn.
    destruct (dir !! ap_name p) as [node|] eqn:Hn; [|done].
    destruct (Hp node Hn) as (id & links & c & -> & Hl). cbn. by apply Hput. }
  intros ?; cbv beta. do 2 (eapply triple_bind; [apply total_attempt|intros ?; cbv beta]).
  eapply triple_bind; [apply total_look; intros dir Ho; apply Ho|].
  intros [info|]; [|intros dir [(_ & _ & Hsome) Hn]; by rewrite Hn in Hsome].
  eapply triple_bind; [apply total_attempt|intros ?; cbv beta].
  apply triple_ret. intros dir [Ho _]. apply Ho.
Qed.

Lemma total_emit sink data : js_path sink = p →
  (rotation_enabled (js_rotation sink) = true → is_ok (rotation_components (ap_name p)) = true ∧
     valid_date (current_date_utc (os_seconds os)) = true ∧
     (js_preserve_rotated sink = false → is_empty (ap_parent p) = false)) →
  total (serviceable (u64_max - 1)) (emit_jsonl_bytes os sink data) (λ _ _, True).
Proof using quiet.
  intros Hp Hrot. unfold emit_jsonl_bytes. rewrite Hp.
  destruct data as [|b data]; [by apply triple_ret|]. generalize (b :: data); intros d.
  apply (triple_bind _ _ _ (λ _, serviceable (u64_max - 1))).
  { case_match; [|by apply triple_ret]. destruct (Hrot eq_refl) as [Hok _].
    destruct (rotation_components (ap_name p)); [|done]. by intros dir Hs. }
  intros ?; cbv beta. eapply triple_bind; [apply total_lock|]. intros lock; cbv beta.
  replace (u64_max - 1 + 1) with u64_max by lia. eapply triple_bind.
  { apply (total_tail _ lock). intros dir [Hs Hh]. by eapply serviceable_appendable. }
  intros ?; cbv beta. apply (triple_bind _ _ _ (λ _, appendable lock)).
  { case_match.
    - destruct (Hrot eq_refl) as (Hok & Hv & Hparent). by apply total_maybe_rotate.
    - apply triple_ret. intros dir [Hs Hh]. by eapply serviceable_appendable. }
  intros ?. eapply triple_bind; [apply total_append|]. intros ?; cbv beta.
  apply (triple_bind _ _ _ (λ _, held lock)).
  { case_match; [apply total_attempt|by apply triple_ret]. }
  intros ?. eapply triple_weaken; [..|by apply total_verify]; done.
Qed.

End success.

(** An emission succeeds.  Without faults, a sink whose lock and active file are plain
    files, the active one ending with a whole record, whose rotated names are not
    dangling links, and which when it rotates has a name with an extension, and a named
    parent if it cleans up, accepts its data: a free name for the rotated file is found
    within as many tries as the directory has entries. *)
Theorem emit_succeeds os sink data dir :
  let p := js_path sink in
  os_io os = no_faults → serviceable p (u64_max - 1) dir →
  (rotation_enabled (js_rotation sink) = true → is_ok (rotation_components (ap_name p)) = true ∧
     valid_date (current_date_utc (os_seconds os)) = true ∧
     (js_preserve_rotated sink = false → is_empty (ap_parent p) = false)) →
  (emit_jsonl_bytes os sink data dir).2 = Ok tt.
Proof.
  intros p Hq Hs Hrot. pose proof (total_emit os Hq p sink data eq_refl Hrot dir Hs) as Ht.
  by destruct (emit_jsonl_bytes os sink data dir) as [dir' [[]|]].
Qed.

(** ** The sink on a concrete directory *)

Module JsonlSample.

Definition path : ActivePath := {| ap_parent := "/var/log"; ap_name := "events.jsonl" |}.
Definition sink : LocalJsonlSink := with_rotation path {| max_size_bytes := 2; keep := 1 |}.

(** June 20, 2026, without faults. *)
Definition day (fresh : string) : Os :=
  {| os_io := no_faults; os_fresh := λ name, name +:+ fresh; os_partial := 0;
     os_seconds := 1781999999 |}.

(** The same, when a write stops after one byte. *)
Definition faulty : Os :=
  {| os_io := λ context _, if str_eqb context "write" then Some "no space left" else None;
     os_fresh := λ name, name +:+ "x"; os_partial := 1; os_seconds := 1781999999 |}.

Definition line (s : string) : list ascii := bytes s ++ [newline].
Definition emit (sink : LocalJsonlSink) (dir : Dir) (s : string) : Dir :=
  (emit_jsonl_bytes (day s) sink (line s) dir).1.
Definition emit_all (sink : LocalJsonlSink) (l : list string) : Dir := foldl (emit sink) ∅ l.

Definition contents (dir : Dir) : list (string * string) :=
  map (λ f, (jf_path f, of_bytes (jf_bytes f))) (journal_files path dir).

Definition nl (s : string) : string := of_bytes (line s).

(** Four emissions on one day, each rotating the one before, keeping them all. *)
Example durable_rotations : contents (emit_all (with_durable_rotation sink) ["a"; "b"; "c"; "d"]) =
  [("/var/log/events-2026-06-20.jsonl", nl "a"); ("/var/log/events-2026-06-20.1.jsonl", nl "b");
   ("/var/log/events-2026-06-20.2.jsonl", nl "c"); ("/var/log/events.jsonl", nl "d")].
Proof. vm_compute. reflexivity. Qed.

(** With one file kept, the third rotation of a day takes the base name that cleanup has
    freed.  It then counts as the oldest and is removed at once: [b] is kept and the
    newer [c] and [d] are lost. *)
Example cleanup_removes_the_newest : contents (emit_all sink ["a"; "b"; "c"; "d"; "e"]) =
  [("/var/log/events-2026-06-20.1.jsonl", nl "b"); ("/var/log/events.jsonl", nl "e")].
Proof. vm_compute. reflexivity. Qed.

(** With a bare name for its path, the sink renames the active file and then fails to
    read the directory: the data is not written. *)
Example bare_name_fails :
  let sink := with_rotation {| ap_parent := ""; ap_name := "events.jsonl" |}
                {| max_size_bytes := 2; keep := 1 |} in
  emit_jsonl_bytes (day "b") sink (line "b") (emit sink ∅ "a") =
  (<["events-2026-06-20.jsonl" := Regular "events.jsonla" 1 (line "a")]>
     (delete "events.jsonl" (emit sink ∅ "a")), Err (Raw file_not_found)).
Proof. vm_compute. reflexivity. Qed.

Definition dir2 : Dir := emit_all (with_durable_rotation sink) ["a"; "b"].

Lemma dir2_whole : rotated_whole path dir2.
Proof.
  intros name e id links c _ Hn.
  assert (map_Forall (λ _ node, match node with
    | Regular _ _ c => last c = None ∨ last c = Some newline | _ => True end) dir2) as Hf.
  { apply map_Forall_to_list. vm_compute. repeat constructor; by (left + right). }
  by apply Hf in Hn.
Qed.

Lemma dir2_dense : dense path dir2 "2026-06-20".
Proof.
  intros stem ext Hc e He. right. vm_compute in Hc. injection Hc as <- <-.
  assert (rotated_entries path dir2 = [("2026-06-20", 0, "events-2026-06-20.jsonl")]) as Hr
    by (vm_compute; reflexivity).
  rewrite Hr in He. apply list_elem_of_singleton in He as ->. split; [done|]. cbn [fst snd].
  intros k Hk. assert (k = 0) as -> by lia. vm_compute. reflexivity.
Qed.

Lemma emit_extends_journal_witness :
  let '(dir', r) := emit_jsonl_bytes faulty (with_durable_rotation sink) (line "c") dir2 in
  r = Err (Raw "no space left") ∧
  ∃ w, w `prefix_of` line "c" ∧
    journal_text (snapshots path dir') = journal_text (snapshots path dir2) ++ w.
Proof.
  pose proof (emit_extends_journal faulty (with_durable_rotation sink) (line "c") dir2) as Ht.
  cbv zeta in Ht.
  specialize (Ht eq_refl ltac:(vm_compute; reflexivity) dir2_whole ltac:(vm_compute; reflexivity)).
  assert (current_date_utc (os_seconds faulty) = "2026-06-20") as Hd by (vm_compute; reflexivity).
  rewrite Hd in Ht.
  destruct (emit_jsonl_bytes faulty (with_durable_rotation sink) (line "c") dir2) as [dir' r] eqn:He.
  split.
  - replace r with (emit_jsonl_bytes faulty (with_durable_rotation sink) (line "c") dir2).2
      by (by rewrite He). vm_compute. reflexivity.
  - destruct Ht as (w & Hw & _ & _ & _ & Ho). exists w. split; [exact Hw|].
    destruct (Ho dir2_dense) as (_ & Htext & _). exact Htext.
Defined.

(** The durable prune removes the oldest rotated file, which has the base name; the file
    rotated next takes the base name and sorts first, before the older "b". *)
Example pruned_base_name_is_reused :
  let dir := emit_all (with_durable_rotation sink) ["a"; "b"; "c"] in
  let pruned : Dir := delete "events-2026-06-20.jsonl" dir in
  let dir' := (emit_jsonl_bytes (day "d") (with_durable_rotation sink) (line "d") pruned).1 in
  journal_text (snapshots path pruned) = line "b" ++ line "c" ∧
  journal_text (snapshots path dir') = line "c" ++ line "b" ++ line "d".
Proof. vm_compute. split; reflexivity. Qed.

Lemma cleanup_keeps_newest_witness :
  let '(dir', r) := cleanup_rotated_files (day "c") path 1
                      (emit_all (with_durable_rotation sink) ["a"; "b"; "c"]) in
  r = Ok tt ∧ rotated_entries path dir' = [("2026-06-20", 1, "events-2026-06-20.1.jsonl")].
Proof.
  set (dir := emit_all (with_durable_rotation sink) ["a"; "b"; "c"]).
  pose proof (cleanup_keeps_newest (day "c") path 1 dir eq_refl eq_refl) as Ht.
  destruct (cleanup_rotated_files (day "c") path 1 dir) as [dir' r].
  destruct Ht as [_ Ht]. specialize (Ht eq_refl). destruct Ht as [Hr He].
  split; [exact Hr|]. rewrite He. vm_compute. reflexivity.
Defined.

Lemma dir2_serviceable : serviceable path (u64_max - 1) dir2.
Proof.
  assert (dir2 !! sidecar_name (ap_name path) = Some (Regular "events.jsonl.locka" 1 [])) as Hl
    by (vm_compute; reflexivity).
  assert (dir2 !! ap_name path = Some (Regular "events.jsonlb" 1 (line "b"))) as Ha
    by (vm_compute; reflexivity).
  split.
  - intros node Hn. rewrite Hl in Hn. injection Hn as <-. by repeat eexists.
  - intros node Hn. rewrite Ha in Hn. injection Hn as <-. by repeat eexists.
  - intros id links c Hn. rewrite Ha in Hn. injection Hn as <- <- <-. by right.
  - intros name e _ Hn. assert (map_Forall (λ _ node, is_file node = true) dir2) as Hf
      by (apply (bool_decide_unpack _); vm_compute; exact I).
    by apply Hf in Hn.
  - vm_compute. reflexivity.
Qed.

Lemma emit_succeeds_witness :
  (emit_jsonl_bytes (day "c") sink (line "c") dir2).2 = Ok tt.
Proof.
  apply (emit_succeeds (day "c") sink (line "c") dir2).
  - reflexivity.
  - exact dir2_serviceable.
  - intros _. split_and!; [vm_compute; reflexivity|vm_compute; reflexivity|reflexivity].
Defined.

End JsonlSample.
