(* ===== verification/Deliver.v ===== *)
(** * Delivering events

    src/sink/mod.rs: the ordered set of sinks, the durable admission of a batch
    ([persist_for_durable_replay_with_failures_for_platform]), best-effort delivery and
    the alerts that follow failures.

    The state is the outbox's tables and the journal's directory.  The journal the
    outbox reads is [journal_files] of the directory.  Each phase of a delivery has its
    own faults and its own clock reading.  Sinks that are called are recorded in order. *)

From S2P Require Import Prelude Ordered Rstr Json Delivery Journal Outbox OutboxInv OutboxPrune.
From S2P Require Import Dispatch OutboxCapacity JournalNames JournalDir Jsonl.
From stdpp Require Import gmap.
From Stdlib Require Import Ascii.

Local Open Scope Z_scope.

Inductive DeliveryPosture := DurableFirstWrite | BestEffortNoReplay | NoEnabledSinks.

Definition posture_as_str (p : DeliveryPosture) : string :=
  match p with
  | DurableFirstWrite => "durable_first_write"
  | BestEffortNoReplay => "best_effort_no_replay"
  | NoEnabledSinks => "no_enabled_sinks"
  end.

Definition has_durable_first_write (p : DeliveryPosture) : bool :=
  match p with DurableFirstWrite => true | _ => false end.

(** ** The set of sinks *)

Definition retry_default : RetryConfig := {| max_attempts := 3; base_delay_ms := 500 |}.

Definition is_canonical (entry : SinkEntry) : bool :=
  bool_decide (se_persistence_role entry = CanonicalFirstWrite).

Definition empty_set : SinkSet :=
  {| ss_entries := []; ss_durable_outbox_path := None; ss_durable_sink_ids := [];
     ss_durable_capacity_limits := capacity_limits_default; ss_durable_replay_active := false |}.

Definition with_entries (entries : list SinkEntry) (set : SinkSet) : SinkSet :=
  {| ss_entries := entries; ss_durable_outbox_path := ss_durable_outbox_path set;
     ss_durable_sink_ids := ss_durable_sink_ids set;
     ss_durable_capacity_limits := ss_durable_capacity_limits set;
     ss_durable_replay_active := ss_durable_replay_active set |}.

Definition add_with_roles_and_retry (transport name : string) (policy : DeliveryPolicy)
    (role : PersistenceRole) (retry : RetryConfig) (set : SinkSet) : SinkSet :=
  with_entries (ss_entries set ++
    [{| se_name := name; se_transport := transport; se_persistence_path := None;
        se_rotation_keep := None; se_delivery_policy := policy; se_persistence_role := role;
        se_retry := retry |}]) set.

Definition add_with_roles (transport name : string) (policy : DeliveryPolicy)
    (role : PersistenceRole) (set : SinkSet) : SinkSet :=
  add_with_roles_and_retry transport name policy role retry_default set.

Definition add_canonical_first_write_path_with_rotation_and_keep (transport name path : string)
    (rotation_keep : option nat) (set : SinkSet) : SinkSet :=
  with_entries (ss_entries set ++
    [{| se_name := name; se_transport := transport; se_persistence_path := Some path;
        se_rotation_keep := rotation_keep; se_delivery_policy := BestEffort;
        se_persistence_role := CanonicalFirstWrite; se_retry := retry_default |}]) set.

Definition add_canonical_first_write_path_with_rotation (transport name path : string)
    (set : SinkSet) : SinkSet :=
  add_canonical_first_write_path_with_rotation_and_keep transport name path None set.

Definition add_best_effort (transport name : string) (set : SinkSet) : SinkSet :=
  add_with_roles transport name BestEffort RoleNone set.

Definition add_best_effort_with_retry (transport name : string) (retry : RetryConfig)
    (set : SinkSet) : SinkSet :=
  add_with_roles_and_retry transport name BestEffort RoleNone retry set.

Definition make_durable (sink_ids : list string) (entry : SinkEntry) : SinkEntry :=
  if str_in (se_name entry) sink_ids then
    {| se_name := se_name entry; se_transport := se_transport entry;
       se_persistence_path := se_persistence_path entry;
       se_rotation_keep := se_rotation_keep entry; se_delivery_policy := Durable;
       se_persistence_role := RoleDeliveryState; se_retry := se_retry entry |}
  else entry.

Definition enable_persistent_replay_with_capacity (outbox_path : string) (sink_ids : list string)
    (limits : CapacityLimits) (set : SinkSet) : SinkSet :=
  {| ss_entries := map (make_durable sink_ids) (ss_entries set);
     ss_durable_outbox_path := Some outbox_path; ss_durable_sink_ids := sink_ids;
     ss_durable_capacity_limits := limits; ss_durable_replay_active := false |}.

Definition has_persistent_replay (set : SinkSet) : bool := is_some (ss_durable_outbox_path set).

Definition delivery_sink_ids (set : SinkSet) : list string :=
  map se_name (filter (λ e, is_canonical e = false) (ss_entries set)).

Definition local_persistence_paths (set : SinkSet) : list string :=
  omap se_persistence_path (ss_entries set).

Definition has_canonical_first_write (set : SinkSet) : bool := existsb is_canonical (ss_entries set).

Definition delivery_posture (set : SinkSet) : DeliveryPosture :=
  match ss_entries set with
  | [] => NoEnabledSinks
  | _ => if has_canonical_first_write set then DurableFirstWrite else BestEffortNoReplay
  end.

(** ** Runs *)

Record Store := {
  so_db : Db;
  so_dir : Dir;
  so_calls : list string;
}.

Definition with_db (db : Db) (s : Store) : Store :=
  {| so_db := db; so_dir := so_dir s; so_calls := so_calls s |}.
Definition with_dir (dir : Dir) (s : Store) : Store :=
  {| so_db := so_db s; so_dir := dir; so_calls := so_calls s |}.
Definition called (name : string) (s : Store) : Store :=
  {| so_db := so_db s; so_dir := so_dir s; so_calls := so_calls s ++ [name] |}.

(** The parts of a delivery, in the order they run. *)
Inductive Phase := Opening | Recovery | Predrain | Admission | Append | Ingest | Pruning | Dispatching
  | Repruning | Sending.

(** What the world decides during a delivery: faults and clock of each phase, the
    operating system during an append, the transports and their time shares, and the
    answer of each best-effort sink. *)
Record Run := {
  rn_windows : bool;
  rn_io : Phase → Io;
  rn_now : Phase → Z;
  rn_os : Os;
  rn_transport : Transport;
  rn_time_up : string → nat → bool;
  rn_emit : string → result unit BoxedError;
}.

Notation StoreM := (Eff Store BoxedError).

Section deliver.
Context `{Digest, Diagnostics, JsonCodec, PathResolver} {Event : Type} `{EventSerializer Event}.
(** The sink behind a canonical entry. *)
Context (run : Run) (local : string → LocalJsonlSink).

Definition storage_admission_error (context error : string) : DeliveryError :=
  delivery_error_new DurableStorage 0
    ("durable capacity admission " +:+ context +:+ " failed: " +:+ error).

Definition lift_delivery {A} (r : result A DeliveryError) : StoreM A :=
  elift (map_err Structured r).

Definition try_phase (phase : Phase) (context subject : string) : StoreM unit :=
  elift (map_err Raw (os_try (rn_io run phase) context subject)).

(** The checks of the two paths are the file system's. *)
Definition validate_persistent_replay_paths (phase : Phase) (set : SinkSet) : StoreM unit :=
  match ss_durable_outbox_path set with
  | None => eret tt
  | Some outbox_path =>
      match local_persistence_paths set with
      | [] => try_phase phase "validate outbox path" outbox_path
      | [jsonl] =>
          do! try_phase phase "validate outbox and JSONL paths" jsonl in
          try_phase phase "validate outbox path" outbox_path
      | _ =>
          efail (Structured (delivery_error_new DurableStorage 0
            "durable downstream delivery requires exactly one canonical JSONL path"))
      end
  end.

Definition acquire_admission_lock (phase : Phase) (outbox_path : string)
    (wrap : string → DeliveryError) : StoreM unit :=
  match rn_io run phase "lock outbox" outbox_path with
  | Some e => efail (Structured (wrap e))
  | None => eret tt
  end.

Definition verify_admission_lock (phase : Phase) (outbox_path : string) : StoreM unit :=
  match rn_io run phase "verify outbox lock" outbox_path with
  | Some e => efail (Structured (storage_admission_error "verify" e))
  | None => eret tt
  end.

(** The tables and the journal as the outbox sees them. *)
Definition world_of (p : ActivePath) (s : Store) : World :=
  {| w_db := so_db s; w_fs := journal_files p (so_dir s) |}.

Definition reconcile (phase : Phase) (p : ActivePath) (log_path : string) (set : SinkSet)
    : StoreM unit :=
  λ s,
    let '(w, r) := reconcile_jsonl (rn_io run phase) (rn_now run phase) log_path
                     (ss_durable_sink_ids set) (world_of p s) in
    (with_db (w_db w) s, map_err Structured (result_map (λ _, tt) r)).

Definition dispatch (phase : Phase) (p : ActivePath) (set : SinkSet)
    : StoreM (list SinkFailure) :=
  λ s,
    let '(w, _, r) := dispatch_durable_with_outbox (rn_io run phase) (rn_transport run)
                        (rn_time_up run) (rn_now run phase) set (world_of p s) in
    (with_db (w_db w) s, r).

Definition check_capacity (p : ActivePath) (log_path : string)
    (payloads : list Event3DurablePayload) (set : SinkSet) : StoreM unit :=
  λ s, (s, map_err Structured
             (check_capacity_for_payloads (rn_io run Admission) log_path payloads
                (ss_durable_capacity_limits set) (world_of p s))).

Definition emit_local (name : string) (data : list ascii) : StoreM unit :=
  λ s,
    let '(dir, r) := emit_jsonl_bytes (rn_os run) (local name) data (so_dir s) in
    (with_dir dir (called name s), r).

(** The directory without the rotated files that are no longer in the journal. *)
Definition remove_pruned (p : ActivePath) (fs : list JournalFile) (dir : Dir) : Dir :=
  filter (λ entry : string * Node,
            is_some (rotated_entry p entry.1) && is_file entry.2 = true →
            join_path (parent_or_current p) entry.1 ∈ map jf_path fs) dir.

Definition prune_entry (phase : Phase) (s : Store) (entry : SinkEntry) : Store :=
  match se_persistence_path entry, se_rotation_keep entry with
  | Some path, Some keep =>
      let p := js_path (local (se_name entry)) in
      let '(w, _) := prune_eligible_rotations (rn_io run phase) (rn_now run phase) path keep
                       (world_of p s) in
      with_dir (remove_pruned p (w_fs w) (so_dir s)) (with_db (w_db w) s)
  | _, _ => s
  end.

(** Warnings apart, whatever fails is ignored. *)
Definition prune_durable_rotations (phase : Phase) (set : SinkSet) (s : Store) : Store :=
  match ss_durable_outbox_path set with
  | None => s
  | Some outbox_path =>
      match validate_persistent_replay_paths phase set s with
      | (_, Err _) => s
      | (_, Ok _) =>
          match rn_io run phase "open outbox" outbox_path with
          | Some _ => s
          | None => foldl (prune_entry phase) s (filter is_canonical (ss_entries set))
          end
      end
  end.

Definition canonical_path (set : SinkSet) : ActivePath :=
  match List.find is_canonical (ss_entries set) with
  | Some entry => js_path (local (se_name entry))
  | None => {| ap_parent := ""; ap_name := "" |}
  end.

Definition all_configured (set : SinkSet) : bool :=
  forallb (λ id, existsb (λ entry, str_eqb (se_name entry) id) (ss_entries set))
    (ss_durable_sink_ids set).

Definition persist_for_durable_replay_with_failures_for_platform (set : SinkSet)
    (events : list Event) : StoreM (list SinkFailure) :=
  if negb (has_persistent_replay set) then eret []
  else
    do! lift_delivery (ensure_durable_storage_supported_for_platform (rn_windows run)) in
    let! batch := lift_delivery (event3_durable_batch events) in
    match local_persistence_paths set with
    | [log_path] =>
        match ss_durable_outbox_path set with
        | None => eret []
        | Some outbox_path =>
            let p := canonical_path set in
            do! validate_persistent_replay_paths Opening set in
            do! acquire_admission_lock Opening outbox_path (λ e,
                  delivery_error_new DurableStorage 0
                    ("durable capacity admission lock unavailable: " +:+ e)) in
            do! try_phase Opening "open outbox" outbox_path in
            do! reconcile Recovery p log_path set in
            let! failures :=
              (if all_configured set then dispatch Predrain p set else eret []) in
            do! match events with
                | [] => eret tt
                | _ =>
                    do! check_capacity p log_path (batch_payloads batch) set in
                    do! efold (λ _ entry, emit_local (se_name entry) (batch_jsonl_bytes batch)) tt
                          (filter is_canonical (ss_entries set)) in
                    reconcile Ingest p log_path set
                end in
            do! verify_admission_lock Ingest outbox_path in
            λ s, (prune_durable_rotations Pruning set s, Ok failures)
        end
    | _ =>
        efail (Structured (delivery_error_new DurableStorage 0
          "durable replay requires exactly one canonical JSONL path"))
    end.

Definition persist_for_durable_replay (set : SinkSet) (events : list Event) : StoreM unit :=
  let! failures := persist_for_durable_replay_with_failures_for_platform set events in eret tt.

(** ** Best effort *)

Fixpoint serialize_jsonl_events (events : list Event) : result (list ascii) string :=
  match events with
  | [] => Ok []
  | event :: rest =>
      let? b := serialize_event_for_emission event in
      let? bs := serialize_jsonl_events rest in
      Ok (b ++ newline :: bs)
  end.

Definition emit_first_write (entry : SinkEntry) (events : list Event) : StoreM unit :=
  match serialize_jsonl_events events with
  | Err e => λ s, (called (se_name entry) s, Err (Raw e))
  | Ok data => emit_local (se_name entry) data
  end.

(** [emit] of a network sink, with its answer. *)
Definition emit_remote (entry : SinkEntry) : StoreM (result unit BoxedError) :=
  λ s, (called (se_name entry) s, Ok (rn_emit run (se_name entry))).

Definition sink_failure (entry : SinkEntry) (error : BoxedError) : SinkFailure :=
  {| sf_name := se_name entry; sf_kind := se_transport entry;
     sf_class := match error with Structured e => de_class e | Raw _ => UnknownInternal end;
     sf_attempts := match error with Structured e => de_attempts e | Raw _ => 1 end;
     sf_error := sanitize (boxed_display error);
     sf_prior_attempts := 0; sf_prior_error_class := None |}.

Definition first_writes (set : SinkSet) : list SinkEntry :=
  filter (λ e, is_canonical e && negb (has_persistent_replay set) = true) (ss_entries set).

Definition best_effort_entries (set : SinkSet) : list SinkEntry :=
  filter (λ e, negb (has_persistent_replay set)
               || bool_decide (se_delivery_policy e ≠ Durable) = true)
    (filter (λ e, negb (is_canonical e) = true) (ss_entries set)).

Definition deliver_best_effort (set : SinkSet) (events : list Event)
    : StoreM (list SinkFailure) :=
  do! efold (λ _ entry, emit_first_write entry events) tt (first_writes set) in
  efold (λ failures entry,
           let! r := emit_remote entry in
           eret match r with
                | Ok _ => failures
                | Err error => failures ++ [sink_failure entry error]
                end) [] (best_effort_entries set).

Definition dispatch_durable_with_clock (set : SinkSet) : StoreM (list SinkFailure) :=
  match ss_durable_outbox_path set with
  | None => eret []
  | Some outbox_path =>
      do! validate_persistent_replay_paths Dispatching set in
      do! acquire_admission_lock Dispatching outbox_path (storage_admission_error "dispatch lock") in
      do! try_phase Dispatching "open outbox" outbox_path in
      let! failures := dispatch Dispatching (canonical_path set) set in
      do! verify_admission_lock Dispatching outbox_path in
      eret failures
  end.

Definition deliver_durable (set : SinkSet) : StoreM (list SinkFailure) :=
  do! (if has_persistent_replay set
       then lift_delivery (ensure_durable_storage_supported_for_platform (rn_windows run))
       else eret tt) in
  let! failures := dispatch_durable_with_clock set in
  λ s, (prune_durable_rotations Repruning set s, Ok failures).

Definition deliver (set : SinkSet) (events : list Event) : StoreM (list SinkFailure) :=
  if has_persistent_replay set then
    let! persisted := persist_for_durable_replay_with_failures_for_platform set events in
    let! durable := deliver_durable set in
    let! rest := deliver_best_effort set events in
    eret (persisted ++ durable ++ rest)
  else deliver_best_effort set events.

(** ** Alerts *)

(** An event that cannot be read counts as not stored. *)
Definition durable_alerts_admitted (set : SinkSet) (events : list Event) (s : Store) : bool :=
  match events with
  | [] => true
  | _ =>
      match ss_durable_outbox_path set with
      | None => true
      | Some outbox_path =>
          match rn_io run Sending "open outbox" outbox_path with
          | Some _ => false
          | None =>
              forallb (λ event,
                match get_event (rn_io run Sending) (so_db s) (event_id_of event) with
                | Ok (Some _) => true
                | _ => false
                end) events
          end
      end
  end.

(** One alert to one sink, unless it is skipped; whether any was accepted so far. *)
Definition alert_first_write (skip : list string) (events : list Event) (accepted : bool)
    (entry : SinkEntry) : StoreM bool :=
  if str_in (se_name entry) skip then eret accepted
  else do! emit_first_write entry events in eret true.

Definition alert_remote (skip : list string) (accepted : bool) (entry : SinkEntry)
    : StoreM bool :=
  if str_in (se_name entry) skip then eret accepted
  else
    let! r := emit_remote entry in
    eret match r with Ok _ => true | Err _ => accepted end.

Definition durable_entries (set : SinkSet) (admitted : bool) : list SinkEntry :=
  filter (λ e, negb (is_canonical e) && bool_decide (se_delivery_policy e = Durable)
               && (negb (has_persistent_replay set) || admitted) = true) (ss_entries set).

Definition plain_entries (set : SinkSet) : list SinkEntry :=
  filter (λ e, negb (is_canonical e) && bool_decide (se_delivery_policy e ≠ Durable) = true)
    (ss_entries set).

Definition deliver_alerts (set : SinkSet) (events : list Event) (skip : list string)
    : StoreM bool :=
  λ s,
    let admitted := durable_alerts_admitted set events s in
    if negb admitted then (s, Ok false)
    else
      (let! accepted :=
         efold (alert_first_write skip events) (has_persistent_replay set) (first_writes set) in
       let! accepted := efold (alert_remote skip) accepted (durable_entries set admitted) in
       efold (alert_remote skip) accepted (plain_entries set)) s.

End deliver.
