(* ===== verification/DeliverStores.v ===== *)
(** * What a delivery guarantees

    The theorems about src/sink/mod.rs: a batch that was admitted is in the journal and
    stored in the outbox with its deliveries; the first write comes before every other
    sink; alerts go once to every sink that is not skipped. *)

From S2P Require Import Prelude Ordered Rstr Json Delivery Journal Outbox OutboxInv OutboxPrune.
From S2P Require Import OutboxPruneSafe Dispatch DispatchInv DispatchLive OutboxSystem.
From S2P Require Import OutboxCapacity OutboxAdmission JournalNames JournalDir Jsonl JsonlEmit Deliver.
From stdpp Require Import gmap.
From Stdlib Require Import Ascii.

Local Open Scope Z_scope.

(** ** Whole files *)

Lemma whole_boundary b : whole b → boundary b (length b).
Proof.
  intros Hw. split; [done|]. unfold off_boundary, byte_at_is.
  destruct b as [|x b _] using rev_ind; [done|]. rewrite length_app. cbn [length].
  replace (length b + 1 - 1)%nat with (length b) by lia. rewrite list_lookup_middle by done.
  unfold whole in Hw. rewrite last_snoc in Hw. destruct Hw as [?|[= ->]]; [done|].
  rewrite Ascii.eqb_refl. apply andb_false_r.
Qed.

Lemma rotated_whole_files p dir pre s : rotated_whole p dir → snapshots p dir = pre ++ [s] →
  Forall (λ s, whole (snap_bytes s)) pre.
Proof.
  intros Hw Hs. unfold snapshots, journal_files in Hs. rewrite map_app in Hs.
  set (rot := map snapshot_of (omap _ _)) in Hs.
  assert (Forall (λ s, whole (snap_bytes s)) rot) as Hrot.
  { apply Forall_forall. intros x (f & -> & (e & He & Hf)%list_elem_of_omap)%list_elem_of_fmap.
    apply rotated_entries_elem in He as (node & Hn & _ & He). unfold rotated_file, file_at in Hf.
    rewrite Hn in Hf. destruct node as [id links c| |]; try done. injection Hf as <-.
    by eapply Hw. }
  destruct (active_file p dir) as [f|]; cbn in Hs.
  - apply app_inj_tail in Hs as [<- _]. done.
  - rewrite app_nil_r in Hs. rewrite Hs in Hrot. by apply Forall_app in Hrot as [? _].
Qed.

(** ** The records of a batch are read *)

Section ingest.
Context `{Digest, Diagnostics, JsonCodec} {Event : Type} `{EventSerializer Event} `{!SerializerLaws}.

Lemma parse_lines_batch gid o ps : Forall batch_payload ps →
  parse_lines gid o (map p_bytes ps) =
  Ok (zip_with (ingested gid) ps (located o (map p_bytes ps))).
Proof.
  intros Hall. unfold parse_lines. revert o. induction Hall as [|p ps Hp Hall IH]; intros o; [done|].
  cbn [map located collect zip_with]. apply batch_payload_Ok in Hp as [_ Hp]. by rewrite Hp, IH.
Qed.

Lemma batch_lines ps : Forall batch_payload ps → Forall (λ x, newline ∉ x) (map p_bytes ps).
Proof. intros Hall. apply Forall_map. eapply Forall_impl; [done|]. intros p Hp. by apply batch_payload_Ok. Qed.

(** Reading a file from before the records that were appended finds them. *)
Lemma parse_generation_batch gid old o ps pr : Forall batch_payload ps →
  boundary old (length old) → boundary old o →
  parse_generation {| snap_identity := gid; snap_bytes := old ++ unlines (map p_bytes ps) |} o = Ok pr →
  ∀ p, p ∈ ps → ∃ q, q ∈ gp_payloads pr ∧ p_event_id q = p_event_id p ∧ p_bytes q = p_bytes p.
Proof.
  intros Hall Hold Ho. rewrite parse_generation_spec by (by apply boundary_grow).
  cbn [snap_bytes snap_identity]. rewrite grown_lines; [|done|by destruct Ho|by apply batch_lines].
  rewrite parse_lines_app. destruct (parse_lines gid o _) as [ps1|]; [|done].
  rewrite parse_lines_batch by done. intros [= <-] p Hp. cbn [gp_payloads progress_of].
  apply list_elem_of_lookup in Hp as [i Hi].
  set (L := located _ _). assert (length L = length ps) as HL.
  { unfold L. generalize (o + length (unlines (split_lines (drop o old)).1))%nat. clear.
    induction ps as [|p ps IH]; intros n; [done|]. cbn. f_equal. apply IH. }
  destruct (lookup_lt_is_Some_2 L i) as [at_ Hat]; [rewrite HL; by eapply lookup_lt_Some|].
  exists (ingested gid p at_). split; [|done]. apply elem_of_app. right.
  apply list_elem_of_lookup. exists i. rewrite lookup_zip_with, Hi, Hat. done.
Qed.

(** Whole generations are passed, up to the last one. *)
Lemma ingest_last pre s o ps k o' : Forall (λ s, whole (snap_bytes s)) pre →
  ingest_from o (pre ++ [s]) = Ok (ps, k, o') →
  ∃ pr, parse_generation s (match pre with [] => o | _ => O end) = Ok pr ∧
    ∀ q, q ∈ gp_payloads pr → q ∈ ps.
Proof.
  revert o ps k; induction pre as [|x pre IH]; intros o ps k Hw; cbn [app ingest_from].
  - destruct (parse_generation s o) as [pr|]; [|done]. intros Heq. exists pr. split; [done|].
    by destruct (complete pr); injection Heq as <- <- <-.
  - apply Forall_cons in Hw as [Hx Hw]. destruct (parse_generation x o) as [pr|] eqn:Hp; [|done].
    assert (complete pr = true) as ->.
    { pose proof (parse_generation_Ok_boundary _ _ _ Hp) as Hb.
      rewrite parse_generation_spec in Hp by done.
      destruct (parse_lines _ _ _); [|done]. injection Hp as <-. cbn.
      rewrite whole_lines by (by apply whole_boundary). done. }
    destruct (pre ++ [s]) as [|y rest] eqn:Hrest; [by destruct pre|].
    destruct (ingest_from 0 (y :: rest)) as [[[qs j] o2]|] eqn:Hi; [|done].
    intros [= <- <- <-]. destruct (IH 0%nat qs j Hw Hi) as (pr' & Hpr' & Hin). exists pr'.
    split; [by destruct pre|]. intros q Hq. apply elem_of_app. right. by apply Hin.
Qed.

End ingest.

(** ** Where the next plan starts *)

Section start.
Context `{Digest, Diagnostics, JsonCodec}.

(** The cursor a plan leaves points into the journal it read, at a boundary. *)
Lemma cursor_in_journal J cur ns ph plan : journal_size J ≤ u64_max →
  build_reconciliation_plan J cur ns ph = Ok plan →
  ∃ c i s, next_cursor cur plan = Some c ∧ J !! i = Some s ∧ snap_identity s = generation_id c ∧
    boundary (snap_bytes s) (Z.to_nat (byte_offset c)).
Proof.
  intros Hsz Hb. apply build_plan_inv in Hb as (i & o & [[ps k] o'] & Hst & Hi & Hr & Hplan); [|done].
  unfold next_cursor. destruct (rp_advance plan) eqn:Hadv.
  - destruct (plan_of_advance _ _ _ _ _ _ _ _ _ _ Hplan Hadv) as [Hcond [c Hc]]. rewrite Hc.
    destruct (ingest_boundary _ _ _ _ _ (drop_nonempty _ _ Hi) Hr) as (s & Hs & Hbs).
    rewrite lookup_drop in Hs. revert Hplan. unfold plan_of. rewrite Hcond, Hs.
    destruct (make_cursor ns ph s o') as [c'|] eqn:Hmk; [|done]. intros [= <-].
    cbn in Hc. injection Hc as ->. apply make_cursor_Ok in Hmk as (_ & _ & Hid & Ho).
    exists c, (i + k)%nat, s. rewrite Ho, Nat2Z.id. done.
  - unfold plan_of in Hplan. destruct (plan_advances _ _ _ _ _ _) eqn:Ha.
    { destruct (J !! (i + k)%nat); [|done]. destruct (make_cursor _ _ _ _); [|done].
      by injection Hplan as <-. }
    apply plan_advances_false in Ha as (Hcur & -> & -> & ->). destruct cur as [c|]; [|done].
    apply plan_start_Some in Hst as (_ & _ & -> & s & Hs & Hid & _). exists c, i, s.
    split_and!; try done. rewrite (drop_S _ _ _ Hs) in Hr. cbn [ingest_from] in Hr.
    destruct (parse_generation s _) eqn:Hp; [|done]. by eapply parse_generation_Ok_boundary.
Qed.

End start.

Section batch.
Context `{Digest, Diagnostics, JsonCodec} {Event : Type} `{EventSerializer Event} `{!SerializerLaws}.

(** The journal before and after a batch was appended: the batch's bytes end the last
    file, after whole ones. *)
Lemma grown_shape ordered fresh p dir S w :
  journal_grows ordered fresh S (snapshots p dir) w → w ≠ [] → rotated_whole p dir →
  ∃ pre gid old, snapshots p dir = pre ++ [{| snap_identity := gid; snap_bytes := old ++ w |}] ∧
    Forall (λ s, whole (snap_bytes s)) pre ∧ whole old ∧
    (S ≡ₚ pre ∨ S ≡ₚ pre ++ [{| snap_identity := gid; snap_bytes := old |}]).
Proof.
  intros (A & [HA _] & He) Hw Ho. setoid_rewrite HA.
  destruct He as [_ ->|pre s -> Hwhole Hs|Hs]; [done| |].
  - exists pre, (snap_identity s), (snap_bytes s). split_and!; try done.
    + by eapply rotated_whole_files.
    + right. by destruct s.
  - exists A, fresh, []. split_and!; try done.
    + by eapply rotated_whole_files.
    + by left.
    + by left.
Qed.

Lemma journal_size_app S S' : journal_size (S ++ S') = journal_size S + journal_size S'.
Proof. unfold journal_size. induction S as [|s S IH]; cbn [app foldr]; lia. Qed.

#[export] Instance journal_size_perm : Proper ((≡ₚ) ==> eq) journal_size.
Proof. induction 1; unfold journal_size in *; cbn [foldr]; lia. Qed.

(** A cursor of the journal before the append that is found in its last file is at a
    boundary of what the file held. *)
Lemma start_in_last pre gid old w S cur0 plan1 c ns ph ns' i o :
  NoDup (map snap_identity (pre ++ [{| snap_identity := gid; snap_bytes := old ++ w |}])) →
  (S ≡ₚ pre ∨ S ≡ₚ pre ++ [{| snap_identity := gid; snap_bytes := old |}]) →
  journal_size S ≤ u64_max →
  build_reconciliation_plan S cur0 ns ph = Ok plan1 → next_cursor cur0 plan1 = Some c →
  plan_start (pre ++ [{| snap_identity := gid; snap_bytes := old ++ w |}]) (Some c) ns' ph = Ok (i, o) →
  i = length pre → boundary old o.
Proof.
  intros Hnd HS Hsz Hplan Hc Hst Hi.
  destruct (cursor_in_journal _ _ _ _ _ Hsz Hplan) as (c' & i0 & s0 & Hc' & Hs0 & Hid & Hb).
  rewrite Hc in Hc'. injection Hc' as <-.
  apply plan_start_Some in Hst as (_ & _ & -> & s & Hs & Hid' & _). subst i.
  rewrite list_lookup_middle in Hs by done. injection Hs as <-. cbn [snap_identity] in Hid'.
  apply list_elem_of_lookup_2 in Hs0.
  assert (s0 ∈ pre ++ [{| snap_identity := gid; snap_bytes := old |}]) as Hin.
  { destruct HS as [HS|HS]; rewrite HS in Hs0; [|done]. apply elem_of_app. by left. }
  rewrite map_app, NoDup_app in Hnd. destruct Hnd as (_ & Hnd & _).
  apply elem_of_app in Hin as [Hin| ->%list_elem_of_singleton]; [|done].
  destruct (Hnd (snap_identity s0)); [by apply list_elem_of_fmap_2|].
  rewrite Hid, <- Hid'. by left.
Qed.

(** A plan that starts where an earlier one stopped reads the whole batch. *)
Lemma plan_reads_batch ordered S p dir fresh ps cur ns ph ns' plan1 plan2 :
  rotated_whole p dir → Forall batch_payload ps → ps ≠ [] →
  journal_grows ordered fresh S (snapshots p dir) (unlines (map p_bytes ps)) →
  NoDup (map snap_identity (snapshots p dir)) → journal_size (snapshots p dir) ≤ u64_max →
  (S = [] ∧ cur = None ∨
   ∃ cur0, build_reconciliation_plan S cur0 ns ph = Ok plan1 ∧ cur = next_cursor cur0 plan1) →
  build_reconciliation_plan (snapshots p dir) cur ns' ph = Ok plan2 →
  ∀ q, q ∈ ps → ∃ r, r ∈ rp_payloads plan2 ∧ p_event_id r = p_event_id q ∧ p_bytes r = p_bytes q.
Proof.
  intros Ho Hall Hne He Hnd Hsz Hcur Hplan q Hq.
  destruct (grown_shape ordered fresh p dir S _ He) as (pre & gid & old & Hs & Hpre & Hold & HS); [|done|].
  { destruct ps as [|x l]; [done|]. cbn. by destruct (p_bytes x). }
  apply build_plan_inv in Hplan as (i & o & [[qs k] o'] & Hst & Hi & Hr & Hp2); [|done].
  assert (rp_payloads plan2 = qs) as ->.
  { revert Hp2. unfold plan_of. destruct (plan_advances _ _ _ _ _ _).
    - destruct (_ !! _); [|done]. destruct (make_cursor _ _ _ _); [|done]. by intros [= <-].
    - by intros [= <-]. }
  rewrite Hs in Hr, Hi, Hst, Hnd. rewrite length_app in Hi. cbn [length] in Hi.
  rewrite drop_app_le in Hr by lia.
  destruct (ingest_last _ _ _ _ _ _ (Forall_drop _ _ _ Hpre) Hr) as (pr & Hpr & Hin).
  assert (boundary old (match drop i pre with [] => o | _ => O end)) as Hb.
  { destruct (drop i pre) as [|y l] eqn:Hd; [|by split; [lia|]].
    assert (i = length pre) as Hlast.
    { apply (f_equal length) in Hd. rewrite length_drop in Hd. cbn in Hd. lia. }
    destruct Hcur as [[-> ->]|(cur0 & Hplan1 & ->)].
    - injection Hst as <- <-. by split; [lia|].
    - assert (journal_size S ≤ u64_max) as HszS.
      { rewrite Hs, journal_size_app in Hsz. pose proof (journal_size_nonneg pre).
        destruct HS as [HS|HS]; rewrite HS; rewrite ?journal_size_app; unfold journal_size in *;
          cbn in *; rewrite ?length_app in Hsz; lia. }
      destruct (cursor_in_journal _ _ _ _ _ HszS Hplan1) as (c & _ & _ & Hc & _).
      rewrite Hc in Hst. by eapply (start_in_last pre gid old _ S). }
  destruct (parse_generation_batch gid old _ ps pr Hall (whole_boundary _ Hold) Hb Hpr q Hq)
    as (r & Hr' & Hid & Hbytes). exists r. eauto.
Qed.

End batch.

(** ** A successful admission, step by step *)

Lemma ebind_Ok {S E A B} (c : Eff S E A) (k : A → Eff S E B) s s' b :
  ebind c k s = (s', Ok b) → ∃ s1 a, c s = (s1, Ok a) ∧ k a s1 = (s', Ok b).
Proof. unfold ebind. destruct (c s) as [s1 [a|e]]; [eauto|done]. Qed.

Lemma elift_Ok {S E A} (r : result A E) (s s' : S) a : elift r s = (s', Ok a) → s' = s ∧ r = Ok a.
Proof. destruct r; [by intros [= <- <-]|done]. Qed.

Section admission.
Context `{Digest, Diagnostics, JsonCodec, PathResolver} {Event : Type} `{EventSerializer Event}.
Context (run : Run) (local : string → LocalJsonlSink).

Lemma try_phase_Ok phase context subject s s' :
  try_phase run phase context subject s = (s', Ok tt) → s' = s.
Proof. by intros [? _]%elift_Ok. Qed.

Lemma validate_paths_Ok phase set s s' :
  validate_persistent_replay_paths run phase set s = (s', Ok tt) → s' = s.
Proof.
  unfold validate_persistent_replay_paths. destruct (ss_durable_outbox_path set); [|by intros [= <-]].
  destruct (local_persistence_paths set) as [|jsonl [|]]; [apply try_phase_Ok| |done].
  intros (s1 & [] & Ha%try_phase_Ok & Hb%try_phase_Ok)%ebind_Ok. congruence.
Qed.

Lemma lock_Ok phase outbox wrap s s' :
  acquire_admission_lock run phase outbox wrap s = (s', Ok tt) → s' = s.
Proof. unfold acquire_admission_lock. case_match; [done|]. by intros [= <-]. Qed.

Lemma verify_Ok phase outbox s s' :
  verify_admission_lock run phase outbox s = (s', Ok tt) → s' = s.
Proof. unfold verify_admission_lock. case_match; [done|]. by intros [= <-]. Qed.

(** The steps of an admission that returned. *)
Record admitted (set : SinkSet) (events : list Event) (entry : SinkEntry) (log : string)
    (s s' : Store) (batch : Event3DurableBatch) (s1 s2 s3 s4 : Store) : Prop := {
  ad_batch : event3_durable_batch events = Ok batch;
  ad_recover : reconcile run Recovery (canonical_path local set) log set s = (s1, Ok tt);
  ad_predrain : s2 = s1 ∨ ∃ failures,
    dispatch run Predrain (canonical_path local set) set s1 = (s2, Ok failures);
  ad_append : emit_local run local (se_name entry) (batch_jsonl_bytes batch) s2 = (s3, Ok tt);
  ad_ingest : reconcile run Ingest (canonical_path local set) log set s3 = (s4, Ok tt);
  ad_prune : s' = prune_durable_rotations run local Pruning set s4;
}.

Lemma persist_admitted set events entry outbox log s s' failures :
  ss_durable_outbox_path set = Some outbox → local_persistence_paths set = [log] →
  filter is_canonical (ss_entries set) = [entry] → events ≠ [] →
  persist_for_durable_replay_with_failures_for_platform run local set events s = (s', Ok failures) →
  ∃ batch s1 s2 s3 s4, admitted set events entry log s s' batch s1 s2 s3 s4.
Proof.
  intros Hout Hpaths Hentry Hne. unfold persist_for_durable_replay_with_failures_for_platform.
  unfold has_persistent_replay. rewrite Hout, Hpaths, Hentry. cbn [is_some negb].
  intros (t0 & [] & [-> _]%elift_Ok & (t1 & batch & [-> Hbatch]%elift_Ok & Hrest)%ebind_Ok)%ebind_Ok.
  assert (event3_durable_batch events = Ok batch) as Hb.
  { destruct (event3_durable_batch events); [by injection Hbatch as ->|done]. }
  apply ebind_Ok in Hrest as (t2 & [] & ->%validate_paths_Ok & Hrest).
  apply ebind_Ok in Hrest as (t2' & [] & ->%lock_Ok & Hrest).
  apply ebind_Ok in Hrest as (t3 & [] & ->%try_phase_Ok & Hrest).
  apply ebind_Ok in Hrest as (s1 & [] & Hrec & Hrest).
  apply ebind_Ok in Hrest as (s2 & fs & Hpre & Hrest).
  destruct events as [|ev evs]; [done|].
  apply ebind_Ok in Hrest as (s4 & [] & Hmid & Hrest).
  apply ebind_Ok in Hmid as (t4 & [] & Hcap & Hmid).
  assert (t4 = s2) as -> by (unfold check_capacity in Hcap; by injection Hcap).
  apply ebind_Ok in Hmid as (s3 & [] & Hemit & Hing).
  apply ebind_Ok in Hemit as (t5 & [] & Hemit & Hnil). injection Hnil as ->.
  apply ebind_Ok in Hrest as (t6 & [] & ->%verify_Ok & Hrest). injection Hrest as <- _.
  exists batch, s1, s2, s3, s4. split; try done.
  destruct (all_configured set); [right; eauto|left]. by injection Hpre.
Qed.

End admission.

Section stored.
Context `{Digest, Diagnostics, JsonCodec, PathResolver} `{!DigestLaws}.
Context {Event : Type} `{EventSerializer Event} `{!SerializerLaws}.
Context (run : Run) (local : string → LocalJsonlSink).

Lemma find_filter {A} (f : A → bool) l x : filter f l = [x] → List.find f l = Some x.
Proof.
  induction l as [|y l IH]; [done|]. cbn [List.find]. rewrite filter_cons.
  destruct (f y) eqn:Hy; case_decide as Hd; try done.
  by intros [= -> _].
Qed.

(** The cursor after the recovery of the journal. *)
Lemma recovered_cursor phase p log set s s1 :
  reconcile run phase p log set s = (s1, Ok tt) →
  so_dir s1 = so_dir s ∧ ∃ cur, read_ingest_cursor no_faults (so_db s1) = Ok cur ∧
    (snapshots p (so_dir s) = [] ∧ cur = None ∨
     ∃ ns cur0 plan1, build_reconciliation_plan (snapshots p (so_dir s)) cur0 ns
       (journal_path_hash_of log) = Ok plan1 ∧ cur = next_cursor cur0 plan1).
Proof.
  unfold reconcile. set (w := world_of p s).
  destruct (reconcile_jsonl _ _ log _ w) as [w' r] eqn:Hr. destruct r as [r|]; [|done].
  intros [= <-]. cbn [so_dir so_db with_db]. split; [done|]. fold (snapshots p (so_dir s)).
  destruct (decide (w_fs w = [])) as [Hnil|Hne].
  - unfold reconcile_jsonl, transact in Hr.
    destruct (reconcile_body _ _ log _ w) as [[db' r']|] eqn:Hb; [|done]. injection Hr as <- <-.
    apply reconcile_inv in Hb as (ids & cur & ns & db0 & _ & Hcur & P & Hcase).
    destruct Hcase as [(_ & -> & -> & _)|(plan & Hplan & _)].
    + exists None. split; [|left; split; [unfold snapshots; unfold w in Hnil; cbn in Hnil; by rewrite Hnil|done]].
      rewrite (read_cursor_same (w_db w)) by (cbn; apply (pr_cursor _ _ _ _ _ P)).
      by eapply read_cursor_no_faults.
    + rewrite Hnil in Hplan. apply build_plan_inv in Hplan as (i & o & r & _ & Hi & _); [cbn in Hi; lia|].
      cbn. unfold u64_max. lia.
  - apply reconcile_reconciled in Hr as (ids & cur & plan & R & _); [|done].
    exists (next_cursor cur plan). split; [apply (rec_cursor _ _ _ _ _ _ _ _ _ R)|right].
    destruct (rec_plan _ _ _ _ _ _ _ _ _ R) as [ns Hplan]. eauto.
Qed.

Lemma dispatch_cursor phase p set s s' failures : clock_ok (rn_now run phase) →
  dispatch run phase p set s = (s', Ok failures) →
  so_dir s' = so_dir s ∧
  read_ingest_cursor no_faults (so_db s') = read_ingest_cursor no_faults (so_db s).
Proof.
  intros Hclock. unfold dispatch.
  pose proof (dispatch_same_records (rn_io run phase) (rn_transport run) (rn_time_up run)
    (rn_now run phase) set (world_of p s) Hclock) as Hs.
  destruct (dispatch_durable_with_outbox _ _ _ _ _ _) as [[w x] r]. intros [= <- _].
  split; [done|]. apply read_cursor_same. by destruct Hs as (_ & _ & _ & _ & Hc).
Qed.

Lemma prune_keeps phase set s :
  same_but_generations (so_db s) (so_db (prune_durable_rotations run local phase set s)).
Proof.
  unfold prune_durable_rotations. destruct (ss_durable_outbox_path set); [|apply same_gens_refl].
  destruct (validate_persistent_replay_paths run phase set s) as [? [|]]; [|apply same_gens_refl].
  destruct (rn_io run phase _ _); [apply same_gens_refl|].
  generalize (filter is_canonical (ss_entries set)). intros l. revert s.
  induction l as [|e l IH]; intros s; [apply same_gens_refl|]. cbn [foldl].
  eapply same_gens_trans; [|apply IH]. unfold prune_entry.
  destruct (se_persistence_path e) as [path|]; [|apply same_gens_refl].
  destruct (se_rotation_keep e) as [keep|]; [|apply same_gens_refl].
  set (p := js_path (local (se_name e))).
  pose proof (prune_pass_step (rn_io run phase) (rn_now run phase) path keep (world_of p s)) as Hs.
  destruct (prune_eligible_rotations _ _ _ _ _) as [w r]. apply (ps_db _ _ _ Hs).
Qed.

Lemma prune_removes phase set s :
  so_dir (prune_durable_rotations run local phase set s) ⊆ so_dir s.
Proof.
  unfold prune_durable_rotations. destruct (ss_durable_outbox_path set); [|done].
  destruct (validate_persistent_replay_paths run phase set s) as [? [|]]; [|done].
  destruct (rn_io run phase _ _); [done|].
  generalize (filter is_canonical (ss_entries set)). intros l. revert s.
  induction l as [|e l IH]; intros s; [done|]. cbn [foldl]. etrans; [apply IH|]. unfold prune_entry.
  destruct (se_persistence_path e); [|done]. destruct (se_rotation_keep e); [|done].
  destruct (prune_eligible_rotations _ _ _ _ _) as [w r]. apply map_filter_subseteq.
Qed.

(** The batch's bytes are not empty. *)
Lemma batch_nonempty events batch : event3_durable_batch events = Ok batch → events ≠ [] →
  batch_payloads batch ≠ [].
Proof.
  intros (_ & _ & Hid)%batch_spec Hne Hnil. rewrite Hnil in Hid. by destruct events.
Qed.

(** What was stored for a payload: its bytes, and a delivery for each sink. *)
Definition stored_with_deliveries (db : Db) (ids : list string) (p : Event3DurablePayload) : Prop :=
  (∃ row, db_events db !! p_event_id p = Some row ∧ ev_payload row = p_bytes p ∧
     ev_payload_hash row = sha256 (p_bytes p)) ∧
  (is_delivery_failure_alert_payload (p_bytes p) = false →
   ∀ sink, sink ∈ ids → is_Some (db_deliveries db !! (p_event_id p, sink))).

Lemma reconciled_stores io now log sinks w w' ids cur plan q :
  reconciled io now log sinks w w' ids cur plan → q ∈ rp_payloads plan →
  stored_with_deliveries (w_db w') ids q.
Proof.
  intros R Hq. split; [by apply (rec_events _ _ _ _ _ _ _ _ _ R)|]. intros Hal sink Hs.
  rewrite (rec_deliveries _ _ _ _ _ _ _ _ _ R). destruct (db_deliveries (w_db w) !! _); [eauto|].
  assert (existsb (queues ids (p_event_id q) sink) (rp_payloads plan) = true) as ->; [|eauto].
  apply existsb_exists. exists q. split; [by apply list_elem_of_In|]. unfold queues.
  by rewrite Hal, (proj2 (str_eqb_spec _ _)), (proj2 (str_in_spec _ _)).
Qed.

(** What the journal must be like for an append by the durable sink. *)
Record journal_ready (sink : LocalJsonlSink) (dir : Dir) (bytes : Z) : Prop := {
  jr_durable : js_preserve_rotated sink = true;
  jr_date : valid_date (current_date_utc (os_seconds (rn_os run))) = true;
  jr_whole : rotated_whole (js_path sink) dir;
  jr_entries : Z.of_nat (size dir) < u64_max;
  jr_distinct : NoDup (os_fresh (rn_os run) (ap_name (js_path sink)) ::
                       map snap_identity (snapshots (js_path sink) dir));
  jr_size : journal_size (snapshots (js_path sink) dir) + bytes ≤ u64_max;
}.

Lemma grows_identities ordered fresh S S' w : journal_grows ordered fresh S S' w →
  NoDup (fresh :: map snap_identity S) → NoDup (map snap_identity S').
Proof.
  intros (A & [HA _] & He). rewrite HA. revert He.
  intros [-> _|pre s -> _ ->| ->] [Hf Hnd]%NoDup_cons; [done| |].
  - by rewrite map_app in Hnd |- *.
  - rewrite map_app. cbn. apply NoDup_app. split_and!; [done| |by repeat constructor; set_solver].
    intros x Hx ->%list_elem_of_singleton. done.
Qed.

Lemma grows_size ordered fresh S S' w : journal_grows ordered fresh S S' w →
  journal_size S' = journal_size S + Z.of_nat (length w).
Proof.
  intros (A & [HA _] & He). rewrite HA. revert He.
  intros [-> ->|pre s -> _ ->| ->]; rewrite ?journal_size_app; unfold journal_size; cbn;
    rewrite ?length_app; lia.
Qed.

Lemma grows_nonempty ordered fresh S S' w : journal_grows ordered fresh S S' w → w ≠ [] → S' ≠ [].
Proof.
  intros (A & _ & [-> ->|pre s -> _ ->| ->]) Hw; [done|by destruct pre|by destruct A].
Qed.

Lemma stored_after_pruning phase set s ids p :
  stored_with_deliveries (so_db s) ids p →
  stored_with_deliveries (so_db (prune_durable_rotations run local phase set s)) ids p.
Proof. unfold stored_with_deliveries. by rewrite (prune_keeps phase set s). Qed.

(** The reconciliation after the append stores the batch. *)
Lemma batch_stored ordered S p dir fresh io now log sinks w w' ids cur plan ps :
  rotated_whole p dir → Forall batch_payload ps → ps ≠ [] →
  journal_grows ordered fresh S (snapshots p dir) (unlines (map p_bytes ps)) →
  NoDup (map snap_identity (snapshots p dir)) → journal_size (snapshots p dir) ≤ u64_max →
  (S = [] ∧ cur = None ∨
   ∃ ns cur0 plan1, build_reconciliation_plan S cur0 ns (journal_path_hash_of log) = Ok plan1 ∧
     cur = next_cursor cur0 plan1) →
  w_fs w = journal_files p dir → reconciled io now log sinks w w' ids cur plan →
  ∀ q, q ∈ ps → stored_with_deliveries (w_db w') ids q.
Proof.
  intros Ho Hall Hne He Hnd Hsz Hcur Hfs R q Hq.
  destruct (rec_plan _ _ _ _ _ _ _ _ _ R) as [ns' Hplan]. rewrite Hfs in Hplan.
  assert (∃ x, x ∈ rp_payloads plan ∧ p_event_id x = p_event_id q ∧ p_bytes x = p_bytes q)
    as (x & Hx & Hid & Hb).
  { destruct Hcur as [Hnil|(ns & cur0 & plan1 & Hc)].
    - eapply (plan_reads_batch ordered S p dir fresh ps cur ns' _ ns' plan plan); eauto.
    - eapply (plan_reads_batch ordered S p dir fresh ps cur ns _ ns' plan1 plan); eauto. }
  pose proof (reconciled_stores _ _ _ _ _ _ _ _ _ _ R Hx) as Hs. unfold stored_with_deliveries in *.
  by rewrite Hid, Hb in Hs.
Qed.


End stored.

(** ** The order of best-effort delivery *)

Section order.
Context `{Diagnostics} {Event : Type} `{EventSerializer Event}.
Context (run : Run) (local : string → LocalJsonlSink).

(** A first write calls its sink, and leaves the tables alone. *)
Lemma first_write_calls entry events s :
  let s' := (emit_first_write run local entry events s).1 in
  so_calls s' = so_calls s ++ [se_name entry] ∧ so_db s' = so_db s.
Proof.
  unfold emit_first_write, emit_local. destruct (serialize_jsonl_events events); [|done].
  by destruct (emit_jsonl_bytes _ _ _ _).
Qed.

(** A loop of first writes stops at the first that fails. *)
Lemma first_writes_spec {A} (body : A → SinkEntry → StoreM A) acc l s :
  (∀ a entry s, let '(s', r) := body a entry s in
     so_db s' = so_db s ∧ so_calls s' = so_calls s ++ [se_name entry]) →
  let '(s', r) := efold body acc l s in
  so_db s' = so_db s ∧
  match r with
  | Ok _ => so_calls s' = so_calls s ++ map se_name l
  | Err _ => ∃ k, (k < length l)%nat ∧ so_calls s' = so_calls s ++ map se_name (take (S k) l)
  end.
Proof.
  intros Hbody. revert acc s; induction l as [|entry l IH]; intros acc s; cbn [efold].
  - cbn. by rewrite app_nil_r.
  - unfold ebind. specialize (Hbody acc entry s). destruct (body acc entry s) as [s1 [a|e]].
    + destruct Hbody as [Hdb Hcalls]. specialize (IH a s1). destruct (efold body a l s1) as [s2 [b|e]];
        destruct IH as [Hdb' Hcalls']; (split; [congruence|]).
      * rewrite Hcalls', Hcalls. cbn. by rewrite <- app_assoc.
      * destruct Hcalls' as (k & Hk & ->). exists (S k). split; [cbn; lia|].
        rewrite Hcalls. cbn. by rewrite <- app_assoc.
    + destruct Hbody as [Hdb ->]. split; [done|]. exists O. split; [cbn; lia|done].
Qed.

Definition remote_failure (entry : SinkEntry) : option SinkFailure :=
  match rn_emit run (se_name entry) with Ok _ => None | Err e => Some (sink_failure entry e) end.

Lemma remotes_spec failures l s :
  efold (λ failures entry,
           let! r := emit_remote run entry in
           eret match r with
                | Ok _ => failures
                | Err error => failures ++ [sink_failure entry error]
                end) failures l s =
  ({| so_db := so_db s; so_dir := so_dir s; so_calls := so_calls s ++ map se_name l |},
   Ok (failures ++ omap remote_failure l)).
Proof.
  revert failures s; induction l as [|entry l IH]; intros failures s; cbn [efold].
  - cbn. rewrite !app_nil_r. by destruct s.
  - unfold ebind at 1. cbn [emit_remote ebind eret]. rewrite IH. cbn. unfold remote_failure at 2.
    destruct (rn_emit run (se_name entry)); cbn; by rewrite <- !app_assoc.
Qed.

(** The first write comes first.  Best-effort delivery calls the canonical sinks in
    order and stops when one fails, before any other sink is called; otherwise it calls
    every other sink once, in order, whatever they answer, and reports exactly the ones
    that failed. *)
Theorem first_write_comes_first set events s :
  let '(s', r) := deliver_best_effort run local set events s in
  so_db s' = so_db s ∧
  match r with
  | Ok failures =>
      so_calls s' = so_calls s ++ map se_name (first_writes set ++ best_effort_entries set) ∧
      failures = omap remote_failure (best_effort_entries set)
  | Err _ =>
      ∃ k, (k < length (first_writes set))%nat ∧
        so_calls s' = so_calls s ++ map se_name (take (S k) (first_writes set))
  end.
Proof.
  unfold deliver_best_effort, ebind.
  pose proof (first_writes_spec (λ _ entry, emit_first_write run local entry events) tt
    (first_writes set) s) as Hf.
  destruct (efold _ tt (first_writes set) s) as [s1 [[]|e]].
  - rewrite remotes_spec. destruct Hf as [Hdb Hcalls].
    { intros _ entry s2. pose proof (first_write_calls entry events s2) as [? ?].
      by destruct (emit_first_write run local entry events s2). }
    cbn. by rewrite Hdb, Hcalls, map_app, app_assoc.
  - apply Hf. intros _ entry s2. pose proof (first_write_calls entry events s2) as [? ?].
    by destruct (emit_first_write run local entry events s2).
Qed.

(** ** Alerts *)

Definition unskipped (skip : list string) (l : list SinkEntry) : list SinkEntry :=
  filter (λ e, se_name e ∉ skip) l.

Definition answers (entry : SinkEntry) : bool := is_ok (rn_emit run (se_name entry)).

Lemma alert_remotes_spec skip accepted l s :
  efold (alert_remote run skip) accepted l s =
  ({| so_db := so_db s; so_dir := so_dir s;
      so_calls := so_calls s ++ map se_name (unskipped skip l) |},
   Ok (accepted || existsb answers (unskipped skip l))%bool).
Proof.
  revert accepted s; induction l as [|entry l IH]; intros accepted s; cbn [efold].
  - cbn. rewrite app_nil_r, orb_false_r. by destruct s.
  - unfold ebind, alert_remote at 1, unskipped. rewrite filter_cons.
    destruct (str_in (se_name entry) skip) eqn:Hs.
    + apply str_in_spec in Hs. rewrite decide_False by (by intros Hn). cbn. apply IH.
    + assert (se_name entry ∉ skip) as Hn by (rewrite <- str_in_spec; congruence).
      rewrite decide_True by done. cbn [ebind emit_remote eret]. rewrite IH. cbn.
      rewrite <- app_assoc. cbn. unfold answers at 2.
      destruct (rn_emit run (se_name entry)); cbn; [by rewrite orb_true_r|done].
Qed.

Lemma alert_first_writes_spec skip events accepted l s :
  let '(s', r) := efold (alert_first_write run local skip events) accepted l s in
  so_db s' = so_db s ∧
  match r with
  | Ok a => so_calls s' = so_calls s ++ map se_name (unskipped skip l) ∧
      a = (accepted || negb (bool_decide (unskipped skip l = [])))%bool
  | Err _ => ∃ k, (k < length (unskipped skip l))%nat ∧
      so_calls s' = so_calls s ++ map se_name (take (S k) (unskipped skip l))
  end.
Proof.
  revert accepted s; induction l as [|entry l IH]; intros accepted s; cbn [efold].
  - cbn. by rewrite app_nil_r, orb_false_r.
  - unfold ebind, alert_first_write at 1, unskipped. rewrite filter_cons.
    destruct (str_in (se_name entry) skip) eqn:Hs.
    + apply str_in_spec in Hs. rewrite decide_False by (by intros Hn). cbn. apply IH.
    + assert (se_name entry ∉ skip) as Hn by (rewrite <- str_in_spec; congruence).
      rewrite decide_True by done. unfold ebind.
      pose proof (first_write_calls entry events s) as [Hcalls Hdb].
      destruct (emit_first_write run local entry events s) as [s1 [[]|e]]; cbn [fst] in Hcalls, Hdb.
      * cbn [eret]. specialize (IH true s1). unfold unskipped in IH.
        destruct (efold _ true l s1) as [s2 [a|e]]; destruct IH as [Hdb' IH]; (split; [congruence|]).
        -- destruct IH as [Hc ->]. rewrite Hc, Hcalls. cbn. rewrite <- app_assoc. split; [done|].
           by rewrite orb_true_r.
        -- destruct IH as (k & Hk & ->). exists (S k). split; [cbn; lia|]. rewrite Hcalls. cbn.
           by rewrite <- app_assoc.
      * split; [done|]. exists O. split; [cbn; lia|done].
Qed.

End order.

Section alerts.
Context `{Digest, Diagnostics, JsonCodec} {Event : Type} `{EventSerializer Event}.
Context (run : Run) (local : string → LocalJsonlSink).

(** Alerts do not come back.  Alerts that the outbox has not stored are sent to
    nobody.  Otherwise every sink that is not skipped gets the alerts exactly once: the
    canonical ones first, and if one of those fails no other is called; then the durable
    ones and the others, whatever they answer.  A skipped sink is never called, and the
    result says whether the alerts were persisted or accepted somewhere. *)
Theorem alerts_sent_once set events skip s :
  let admitted := durable_alerts_admitted run set events s in
  let firsts := unskipped skip (first_writes set) in
  let others := unskipped skip (durable_entries set admitted) ++ unskipped skip (plain_entries set) in
  let '(s', r) := deliver_alerts run local set events skip s in
  so_db s' = so_db s ∧
  (∀ name, name ∈ skip → ∃ calls, so_calls s' = so_calls s ++ calls ∧ name ∉ calls) ∧
  if admitted then
    match r with
    | Ok accepted =>
        so_calls s' = so_calls s ++ map se_name (firsts ++ others) ∧
        accepted = (has_persistent_replay set || negb (bool_decide (firsts = []))
                    || existsb (answers run) others)%bool
    | Err _ => ∃ k, (k < length firsts)%nat ∧ so_calls s' = so_calls s ++ map se_name (take (S k) firsts)
    end
  else s' = s ∧ r = Ok false.
Proof.
  cbv zeta. unfold deliver_alerts.
  set (admitted := durable_alerts_admitted run set events s).
  assert (∀ l name, name ∈ skip → name ∉ map se_name (unskipped skip l)) as Hskip.
  { intros l name Hn (e & -> & [He _]%list_elem_of_filter)%list_elem_of_fmap. done. }
  destruct admitted; cbn [negb].
  2: { split; [done|]. split; [|done]. intros name _. exists []. rewrite app_nil_r.
       split; [done|apply not_elem_of_nil]. }
  unfold ebind at 1. pose proof (alert_first_writes_spec run local skip events
    (has_persistent_replay set) (first_writes set) s) as Hf.
  destruct (efold _ _ (first_writes set) s) as [s1 [a|e]]; destruct Hf as [Hdb Hf].
  - destruct Hf as [Hcalls ->]. unfold ebind. rewrite !alert_remotes_spec. cbn [so_db so_calls].
    split; [done|]. rewrite Hcalls, <- !app_assoc, <- !map_app. split.
    + intros name Hn. eexists. split; [done|]. rewrite !map_app, !elem_of_app.
      intros [Hx|[Hx|Hx]]; by eapply Hskip.
    + split; [done|]. by rewrite existsb_app, !orb_assoc.
  - destruct Hf as (k & Hk & Hcalls). split; [done|]. split; [|eauto].
    intros name Hn. eexists. split; [done|]. intros Hx. apply (Hskip (first_writes set) name Hn).
    rewrite <- (take_drop (S k) (unskipped skip (first_writes set))), map_app, elem_of_app. by left.
Qed.

End alerts.

(** ** The theorem on a concrete set of sinks *)

Module DeliverSample.
Import SystemSample JournalSample.

Definition path : ActivePath := {| ap_parent := "/var/log"; ap_name := "events.jsonl" |}.
Definition local (_ : string) : LocalJsonlSink :=
  with_durable_rotation (with_rotation path rotation_default).
Definition set : SinkSet :=
  enable_persistent_replay_with_capacity "/var/lib/outbox" ["hec"] capacity_limits_default
    (add_best_effort "hec" "hec"
      (add_canonical_first_write_path_with_rotation_and_keep "jsonl" "local" "/var/log/events.jsonl"
        (Some 5%nat) empty_set)).
Definition canonical : SinkEntry :=
  {| se_name := "local"; se_transport := "jsonl"; se_persistence_path := Some "/var/log/events.jsonl";
     se_rotation_keep := Some 5%nat; se_delivery_policy := BestEffort;
     se_persistence_role := CanonicalFirstWrite; se_retry := retry_default |}.

Definition run : Run :=
  {| rn_windows := false; rn_io := λ _, no_faults; rn_now := λ _, 1000;
     rn_os := {| os_io := no_faults; os_fresh := λ name, name +:+ "#1"; os_partial := 0;
                 os_seconds := 1781999999 |};
     rn_transport := transport; rn_time_up := never; rn_emit := λ _, Ok tt |}.

Definition start : Store := {| so_db := new_db "ns"; so_dir := ∅; so_calls := [] |}.
Definition batch : Event3DurableBatch :=
  match event3_durable_batch [id_a; id_c] with
  | Ok batch => batch
  | Err _ => {| batch_payloads := []; batch_jsonl_bytes := [] |}
  end.
Definition outcome :=
  persist_for_durable_replay_with_failures_for_platform run local set [id_a; id_c] start.

(** The batch is admitted, and then dispatched: both records are in the journal. *)
Example admitted_run :
  is_ok outcome.2 = true ∧ so_calls outcome.1 = ["local"] ∧
  journal_text (snapshots path (so_dir outcome.1)) = batch_jsonl_bytes batch.
Proof. split_and!; vm_compute; reflexivity. Qed.

Lemma start_ready n : 0 ≤ n ≤ 1000 → journal_ready run (local "local") (so_dir start) n.
Proof.
  intros Hn. assert (snapshots path ∅ = []) as Hs by (vm_compute; reflexivity). split.
  - reflexivity.
  - vm_compute. reflexivity.
  - intros name e id links c _ He. change ((∅ : Dir) !! name = Some (Regular id links c)) in He.
    by rewrite lookup_empty in He.
  - vm_compute. reflexivity.
  - change (NoDup (os_fresh (rn_os run) "events.jsonl" :: map snap_identity (snapshots path ∅))).
    rewrite Hs. apply NoDup_singleton.
  - change (journal_size (snapshots path ∅) + n ≤ u64_max). rewrite Hs. unfold u64_max. cbn. lia.
Qed.


End DeliverSample.
