(* ===== verification/Unicode.v ===== *)
(** * Text as characters

    The privacy code of crates/telltale-schema/src/event works on the characters of a
    [str].  Here a [text] is the list of its Unicode scalar values.  A byte offset of
    the source, always on a character boundary, is the number of characters before it;
    a byte length is [str_len].  An ASCII byte never occurs inside the encoding of
    another character, so a scan for ASCII bytes is the scan for those characters. *)

From S2P Require Import Prelude Ordered Rstr.
From Stdlib Require Import Ascii.

Local Open Scope N_scope.

Notation char := N.
Notation text := (list N).

(** An ASCII literal. *)
Definition lit (s : string) : text := map N_of_ascii (bytes s).
Definition ch (c : ascii) : char := N_of_ascii c.

Definition between (lo hi c : char) : bool := (lo <=? c) && (c <=? hi).
Definition among (cs : string) (c : char) : bool := existsb (N.eqb c) (lit cs).

(** ** Characters *)

Definition utf8_len (c : char) : Z :=
  if c <? 128 then 1 else if c <? 2048 then 2 else if c <? 65536 then 3 else 4.

Definition str_len (t : text) : Z := foldr (λ c n, utf8_len c + n)%Z 0%Z t.

Definition ascii_lower (c : char) : bool := between 97 122 c.
Definition ascii_upper (c : char) : bool := between 65 90 c.
Definition ascii_digit (c : char) : bool := between 48 57 c.
Definition ascii_alphabetic (c : char) : bool := ascii_lower c || ascii_upper c.
Definition ascii_alphanumeric (c : char) : bool := ascii_alphabetic c || ascii_digit c.
Definition ascii_hexdigit (c : char) : bool := ascii_digit c || between 97 102 c || between 65 70 c.
Definition ascii_space (c : char) : bool := among " " c || existsb (N.eqb c) [9; 10; 12; 13].

Definition lower (c : char) : char := if ascii_upper c then c + 32 else c.
Definition lowercase (t : text) : text := map lower t.

(** [char::is_whitespace], the property White_Space. *)
Definition whitespace (c : char) : bool :=
  between 9 13 c || (c =? 32) || (c =? 133) || (c =? 160) || (c =? 5760)
  || between 8192 8202 c || (c =? 8232) || (c =? 8233) || (c =? 8239) || (c =? 8287)
  || (c =? 12288).

(** [char::is_control], category Cc. *)
Definition control (c : char) : bool := (c <? 32) || between 127 159 c.

(** [char::from_u32]. *)
Definition from_u32 (n : N) : option char :=
  if (n <? 55296) || between 57344 1114111 n then Some n else None.

(** [char::to_digit(16)]. *)
Definition hex_digit (c : char) : option N :=
  if ascii_digit c then Some (c - 48)
  else if between 97 102 c then Some (c - 87)
  else if between 65 70 c then Some (c - 55)
  else None.

(** ** UTF-8 *)

Definition utf8_char (c : char) : list N :=
  if c <? 128 then [c]
  else if c <? 2048 then [192 + c / 64; 128 + c mod 64]
  else if c <? 65536 then [224 + c / 4096; 128 + c / 64 mod 64; 128 + c mod 64]
  else [240 + c / 262144 mod 8; 128 + c / 4096 mod 64; 128 + c / 64 mod 64; 128 + c mod 64].

Definition utf8_encode (t : text) : list N := concat (map utf8_char t).

Definition cont (b : N) : bool := between 128 191 b.

(** The second byte that may follow a lead byte of three or four. *)
Definition second3 (a b : N) : bool :=
  if a =? 224 then between 160 191 b else if a =? 237 then between 128 159 b else cont b.
Definition second4 (a b : N) : bool :=
  if a =? 240 then between 144 191 b else if a =? 244 then between 128 143 b else cont b.

Definition replacement : char := 65533.

(** [String::from_utf8_lossy]: each maximal part of an ill-formed sequence is replaced. *)
Fixpoint from_utf8_lossy (l : list N) : text :=
  match l with
  | [] => []
  | a :: l1 =>
      if a <? 128 then a :: from_utf8_lossy l1
      else if between 194 223 a then
        match l1 with
        | b :: l2 => if cont b then (a - 192) * 64 + (b - 128) :: from_utf8_lossy l2
                     else replacement :: from_utf8_lossy l1
        | [] => [replacement]
        end
      else if between 224 239 a then
        match l1 with
        | b :: l2 =>
            if second3 a b then
              match l2 with
              | c :: l3 =>
                  if cont c then (a - 224) * 4096 + (b - 128) * 64 + (c - 128) :: from_utf8_lossy l3
                  else replacement :: from_utf8_lossy l2
              | [] => [replacement]
              end
            else replacement :: from_utf8_lossy l1
        | [] => [replacement]
        end
      else if between 240 244 a then
        match l1 with
        | b :: l2 =>
            if second4 a b then
              match l2 with
              | c :: l3 =>
                  if cont c then
                    match l3 with
                    | d :: l4 =>
                        if cont d then
                          (a - 240) * 262144 + (b - 128) * 4096 + (c - 128) * 64 + (d - 128)
                            :: from_utf8_lossy l4
                        else replacement :: from_utf8_lossy l3
                    | [] => [replacement]
                    end
                  else replacement :: from_utf8_lossy l2
              | [] => [replacement]
              end
            else replacement :: from_utf8_lossy l1
        | [] => [replacement]
        end
      else replacement :: from_utf8_lossy l1
  end.

(** ** Searching *)

Definition text_eqb (a b : text) : bool := bool_decide (a = b).
Definition text_in (t : text) (l : list text) : bool := existsb (text_eqb t) l.

Fixpoint strip (p t : text) : option text :=
  match p, t with
  | [], _ => Some t
  | a :: p', b :: t' => if a =? b then strip p' t' else None
  | _ :: _, [] => None
  end.

Definition starts (p t : text) : bool := is_some (strip p t).
Definition strip_end (p t : text) : option text := option_map reverse (strip (reverse p) (reverse t)).
Definition ends (p t : text) : bool := is_some (strip_end p t).

(** The first position with the property. *)
Fixpoint position (p : char → bool) (t : text) : option nat :=
  match t with
  | [] => None
  | c :: t' => if p c then Some 0%nat else option_map S (position p t')
  end.

Definition position_or_end (p : char → bool) (t : text) : nat :=
  match position p t with Some i => i | None => length t end.

(** [find(&str)]. *)
Fixpoint find_text (p t : text) : option nat :=
  if starts p t then Some 0%nat
  else match t with [] => None | _ :: t' => option_map S (find_text p t') end.

Definition has_text (p t : text) : bool := is_some (find_text p t).

Definition split_once (p t : text) : option (text * text) :=
  match find_text p t with
  | Some i => Some (take i t, drop (i + length p) t)
  | None => None
  end.

Definition rsplit_once_char (c : char) (t : text) : option (text * text) :=
  match position (N.eqb c) (reverse t) with
  | Some i => Some (take (length t - S i) t, drop (length t - i) t)
  | None => None
  end.

(** [str::split] on characters, and [split_inclusive]. *)
Fixpoint split_chars (p : char → bool) (t : text) : list text :=
  match t with
  | [] => [[]]
  | c :: t' =>
      if p c then [] :: split_chars p t'
      else match split_chars p t' with
           | w :: ws => (c :: w) :: ws
           | [] => [[c]]
           end
  end.

Fixpoint split_inclusive (p : char → bool) (t : text) : list text :=
  match t with
  | [] => []
  | c :: t' =>
      if p c then [c] :: split_inclusive p t'
      else match split_inclusive p t' with
           | w :: ws => (c :: w) :: ws
           | [] => [[c]]
           end
  end.

(** [str::split_whitespace]. *)
Definition split_whitespace (t : text) : list text :=
  filter (λ w, w ≠ []) (split_chars whitespace t).

Fixpoint join_text (sep : text) (l : list text) : text :=
  match l with
  | [] => []
  | [t] => t
  | t :: l' => t ++ sep ++ join_text sep l'
  end.

Definition trim_front (p : char → bool) (t : text) : text := drop_while p t.

(** [str::replace]: occurrences from the left, without overlap. *)
Fixpoint replace_loop (skip : nat) (from to t : text) : text :=
  match t with
  | [] => []
  | c :: t' =>
      match skip with
      | S skip' => replace_loop skip' from to t'
      | O => if starts from t then to ++ replace_loop (length from - 1) from to t'
             else c :: replace_loop 0 from to t'
      end
  end.
Definition replace_text (from to t : text) : text := replace_loop 0 from to t.

Definition slice (t : text) (a b : nat) : text := take (b - a) (drop a t).
