(* ===== verification/Regex.v ===== *)
(** * Regular expressions

    The redaction code searches with fixed patterns of the regex crate.  A pattern is a
    [re]; [mt] says which ranges of a text it matches.  The crate is the interface
    [Regexes]: its matches are those of [scan], leftmost and without overlap, each a
    range that matches.  [Reference] is a matcher with the priorities of the crate,
    which satisfies the interface. *)

From S2P Require Import Prelude Ordered Rstr Unicode.
From Stdlib Require Import Ascii.

(** [Rep greedy min max r] repeats [r].  [Grp] is the group whose range the code reads. *)
Inductive re :=
| Eps
| Cls (p : char → bool)
| Cat (a b : re)
| Alt (a b : re)
| Rep (greedy : bool) (min : nat) (max : option nat) (r : re)
| TextStart
| TextEnd
| WordB
| Grp (r : re).

Definition star (r : re) : re := Rep true 0 None r.
Definition plus (r : re) : re := Rep true 1 None r.
Definition maybe (r : re) : re := Rep true 0 (Some 1) r.
Definition at_least (n : nat) (r : re) : re := Rep true n None r.
Definition times (n : nat) (r : re) : re := Rep true n (Some n) r.
Definition cats (l : list re) : re := foldr Cat Eps l.
Definition alts (r : re) (l : list re) : re := foldl Alt r l.

(** A literal, and under the flag [i] the simple case folding of Unicode: besides the
    other case, the long s and the Kelvin sign. *)
Definition word (s : string) : re := cats (map (λ c, Cls (N.eqb c)) (lit s)).

Definition variants (c : char) : list char :=
  if existsb (N.eqb c) [115; 83; 383]%N then [115; 83; 383]%N
  else if existsb (N.eqb c) [107; 75; 8490]%N then [107; 75; 8490]%N
  else if ascii_lower c then [c; c - 32]%N
  else if ascii_upper c then [c; c + 32]%N
  else [c].

Definition ci (p : char → bool) (c : char) : bool := existsb p (variants c).
Definition iword (s : string) : re := cats (map (λ c, Cls (ci (N.eqb c))) (lit s)).

Definition not_cls (p : char → bool) : re := Cls (λ c, negb (p c)).
Definition any : re := Cls (λ _, true).
Definition space : re := Cls whitespace.

Section matching.
Context (word_char : char → bool) (t : text).

Definition word_at (i : option nat) : bool :=
  match i with
  | Some i => match t !! i with Some c => word_char c | None => false end
  | None => false
  end.

Definition word_boundary (i : nat) : bool :=
  xorb (word_at (match i with O => None | S i' => Some i' end)) (word_at (Some i)).

Inductive mt : re → nat → nat → Prop :=
| mt_eps i : mt Eps i i
| mt_cls p i c : t !! i = Some c → p c = true → mt (Cls p) i (S i)
| mt_cat a b i k j : mt a i k → mt b k j → mt (Cat a b) i j
| mt_alt_l a b i j : mt a i j → mt (Alt a b) i j
| mt_alt_r a b i j : mt b i j → mt (Alt a b) i j
| mt_stop g mx r i : mt (Rep g 0 mx r) i i
| mt_step g mn mx r i k j :
    mx ≠ Some 0%nat → mt r i k → mt (Rep g (pred mn) (pred <$> mx) r) k j → mt (Rep g mn mx r) i j
| mt_text_start : mt TextStart 0 0
| mt_text_end : mt TextEnd (length t) (length t)
| mt_word_b i : word_boundary i = true → mt WordB i i
| mt_grp r i j : mt r i j → mt (Grp r) i j.

End matching.

(** May match the empty range; may look around. *)
Fixpoint nullable (r : re) : bool :=
  match r with
  | Cls _ => false
  | Cat a b => nullable a && nullable b
  | Alt a b => nullable a || nullable b
  | Rep _ mn _ r => (mn =? 0)%nat || nullable r
  | Grp r => nullable r
  | Eps | TextStart | TextEnd | WordB => true
  end.

Fixpoint local (r : re) : bool :=
  match r with
  | Eps | Cls _ => true
  | Cat a b | Alt a b => local a && local b
  | Rep _ _ _ r | Grp r => local r
  | TextStart | TextEnd | WordB => false
  end.

(** Loops that make progress. *)
Fixpoint loops (r : re) : bool :=
  match r with
  | Cat a b | Alt a b => loops a && loops b
  | Rep _ _ _ r => negb (nullable r) && loops r
  | Grp r => loops r
  | _ => true
  end.

Definition searchable (r : re) : bool := loops r && negb (nullable r).

(** ** The interface *)

Record Match := {
  m_start : nat;
  m_end : nat;
  m_group : option (nat * nat);
}.

(** The matches of a search that starts at [i]: the first one starts where a match
    first can, and the search goes on behind it. *)
Inductive scan (w : char → bool) (r : re) (t : text) : nat → list Match → Prop :=
| scan_nil i : (∀ a b, i ≤ a → ¬ mt w t r a b) → scan w r t i []
| scan_cons i m ms :
    i ≤ m_start m → m_start m < m_end m → mt w t r (m_start m) (m_end m) →
    (∀ a b, i ≤ a < m_start m → ¬ mt w t r a b) →
    (∀ a b, m_group m = Some (a, b) → m_start m ≤ a ≤ b ∧ b ≤ m_end m) →
    scan w r t (m_end m) ms → scan w r t i (m :: ms).

Class Regexes : Type := {
  word_char : char → bool;
  find_iter : re → text → list Match;
}.

Class RegexesLaws `{Regexes} : Prop := {
  word_char_ascii c : (c < 128)%N → word_char c = (ascii_alphanumeric c || (c =? 95)%N);
  word_char_whitespace c : whitespace c = true → word_char c = false;
  find_iter_scan r t : searchable r = true → scan word_char r t 0 (find_iter r t);
}.

Section use.
Context `{Regexes}.

Definition is_match (r : re) (t : text) : bool :=
  match find_iter r t with [] => false | _ => true end.

Definition find_first (r : re) (t : text) : option Match := head (find_iter r t).

(** [replace_all]: the text between the matches is kept. *)
Fixpoint splice (t : text) (pos : nat) (f : Match → text) (ms : list Match) : text :=
  match ms with
  | [] => drop pos t
  | m :: ms' => slice t pos (m_start m) ++ f m ++ splice t (m_end m) f ms'
  end.

Definition replace_all (r : re) (f : Match → text) (t : text) : text :=
  splice t 0 f (find_iter r t).

Definition matched (t : text) (m : Match) : text := slice t (m_start m) (m_end m).
Definition group_text (t : text) (m : Match) : text :=
  match m_group m with Some (a, b) => slice t a b | None => [] end.

End use.

(** ** Facts about matches *)

Section facts.
Context (w : char → bool).

Lemma mt_bounds t r i j : mt w t r i j → i ≤ j ∧ (i ≤ length t → j ≤ length t).
Proof.
  induction 1; try (split; [|intros]; lia).
  apply lookup_lt_Some in H. lia.
Qed.

Lemma mt_nonempty t r i j : mt w t r i j → nullable r = false → i < j.
Proof.
  assert (∀ r i j, mt w t r i j → i ≤ j) as Hle by (intros; by eapply mt_bounds).
  induction 1 as [| | ? ? ? ? ? Ha IHa Hb IHb | | | |? ? ? ? ? ? ? ? Ha IHa Hb _| | | |]; cbn;
    rewrite ?andb_false_iff, ?orb_false_iff; intros Hn; try done; try lia.
  - apply Hle in Ha as ?, Hb as ?. destruct Hn as [Hn|Hn]; [apply IHa in Hn|apply IHb in Hn]; lia.
  - destruct Hn as [Hn _]. auto.
  - destruct Hn as [_ Hn]. auto.
  - apply Hle in Hb as ?. destruct Hn as [_ Hn]. apply IHa in Hn. lia.
  - auto.
Qed.

Lemma mt_inside t r i j : mt w t r i j → i < j → j ≤ length t.
Proof.
  assert (∀ r i j, mt w t r i j → i ≤ j) as Hle by (intros; by eapply mt_bounds).
  induction 1 as [|? ? ? Hc| ? ? ? ? ? Ha IHa Hb IHb | | | |? ? ? ? ? ? ? ? Ha IHa Hb IHb| | | |];
    intros Hlt; try done; try lia; auto.
  - by apply lookup_lt_Some in Hc.
Qed.

(** A pattern that does not look around matches a range by its characters alone. *)
Lemma mt_agree t r i j : mt w t r i j → local r = true → ∀ t' i',
  (∀ n, i ≤ n < j → t' !! (i' + (n - i)) = t !! n) → mt w t' r i' (i' + (j - i)).
Proof.
  assert (∀ r i j, mt w t r i j → i ≤ j) as Hle by (intros; by eapply mt_bounds).
  induction 1 as [i|p i c Hc Hp|a b i k j Ha IHa Hb IHb|a b i j Ha IH|a b i j Hb IH|g mx r i
                 |g mn mx r i k j Hmx Ha IHa Hb IHb| | | |r i j Hr IH]; cbn; intros Hl t' i' Hag; try done.
  - rewrite Nat.sub_diag, Nat.add_0_r. constructor.
  - replace (i' + (S i - i)) with (S i') by lia. econstructor; [|done].
    rewrite <- Hc, <- (Hag i) by lia. f_equal. lia.
  - apply andb_true_iff in Hl as [Hl1 Hl2]. apply Hle in Ha as ?, Hb as ?.
    apply (mt_cat _ _ _ _ _ (i' + (k - i))); [apply IHa; [done|]; intros n Hn; apply Hag; lia|].
    replace (i' + (j - i)) with (i' + (k - i) + (j - k)) by lia.
    apply IHb; [done|]. intros n Hn. rewrite <- Hag by lia. f_equal. lia.
  - apply andb_true_iff in Hl as [Hl1 Hl2]. apply mt_alt_l. by apply IH.
  - apply andb_true_iff in Hl as [Hl1 Hl2]. apply mt_alt_r. by apply IH.
  - rewrite Nat.sub_diag, Nat.add_0_r. constructor.
  - apply Hle in Ha as ?, Hb as ?.
    apply (mt_step _ _ _ _ _ _ _ (i' + (k - i))); [done|apply IHa; [done|]; intros n Hn; apply Hag; lia|].
    replace (i' + (j - i)) with (i' + (k - i) + (j - k)) by lia.
    apply IHb; [done|]. intros n Hn. rewrite <- Hag by lia. f_equal. lia.
  - constructor. by apply IH.
Qed.

(** The characters a match may hold. *)
Fixpoint alphabet (r : re) (c : char) : bool :=
  match r with
  | Cls p => p c
  | Cat a b | Alt a b => alphabet a c || alphabet b c
  | Rep _ _ _ r | Grp r => alphabet r c
  | _ => false
  end.

Lemma mt_alphabet t r i j n : mt w t r i j → i ≤ n < j →
  ∃ c, t !! n = Some c ∧ alphabet r c = true.
Proof.
  assert (∀ r i j, mt w t r i j → i ≤ j) as Hle by (intros; by eapply mt_bounds).
  induction 1 as [i|p i c Hc Hp|a b i k j Ha IHa Hb IHb|a b i j Ha IH|a b i j Hb IH|g mx r i
                 |g mn mx r i k j Hmx Ha IHa Hb IHb| | | |r i j Hr IH]; cbn; intros Hn; try lia.
  - assert (n = i) as -> by lia. eauto.
  - destruct (decide (n < k)); [destruct IHa as (c & ? & Hc)|destruct IHb as (c & ? & Hc)]; try lia;
      exists c; by rewrite Hc, ?orb_true_r.
  - destruct IH as (c & ? & Hc); [lia|]. exists c. by rewrite Hc.
  - destruct IH as (c & ? & Hc); [lia|]. exists c. by rewrite Hc, orb_true_r.
  - destruct (decide (n < k)); [apply IHa|apply IHb]; lia.
  - auto.
Qed.

(** ** Texts without a match *)

Definition clean (r : re) (t : text) : Prop := ∀ a b, ¬ mt w t r a b.

(** A pattern of which every match is a range of characters. *)
Definition plain (r : re) : bool := local r && negb (nullable r).

Lemma clean_agree r t t' d : plain r = true → clean r t →
  (∀ n c, t' !! n = Some c → t !! (d + n) = Some c) → clean r t'.
Proof.
  unfold plain. rewrite andb_true_iff, negb_true_iff. intros [Hl Hn] Ht Hsub a b Hm.
  pose proof (mt_nonempty _ _ _ _ Hm Hn). pose proof (mt_inside _ _ _ _ Hm ltac:(lia)).
  apply (Ht (d + a) (d + a + (b - a))). apply (mt_agree t' r a b); [done..|].
  intros n Hn'. destruct (lookup_lt_is_Some_2 t' n ltac:(lia)) as [c Hc].
  rewrite Hc. replace (d + a + (n - a)) with (d + n) by lia. by apply Hsub.
Qed.

Lemma clean_app r x u y : plain r = true → clean r (x ++ u ++ y) → clean r u.
Proof.
  intros Hp Ht. apply (clean_agree r (x ++ u ++ y) u (length x)); [done..|].
  intros n c Hc. rewrite lookup_app_r by lia. replace (length x + n - length x) with n by lia.
  by apply lookup_app_l_Some.
Qed.

Lemma clean_take r n t : plain r = true → clean r t → clean r (take n t).
Proof. intros Hp Ht. apply (clean_app r [] _ (drop n t)); [done|]. by rewrite take_drop. Qed.

Lemma clean_nil r : plain r = true → clean r [].
Proof.
  unfold plain. rewrite andb_true_iff, negb_true_iff. intros [_ Hn] a b Hm.
  pose proof (mt_nonempty _ _ _ _ Hm Hn). pose proof (mt_inside _ _ _ _ Hm ltac:(lia)). cbn in *. lia.
Qed.

(** A character outside the alphabet separates. *)
Lemma clean_sep r x c y : plain r = true → alphabet r c = false → clean r x → clean r y →
  clean r (x ++ c :: y).
Proof.
  intros Hp Hc Hx Hy a b Hm. pose proof Hp as Hp'. unfold plain in Hp'.
  rewrite andb_true_iff, negb_true_iff in Hp'. destruct Hp' as [Hl Hn].
  pose proof (mt_nonempty _ _ _ _ Hm Hn). pose proof (mt_inside _ _ _ _ Hm ltac:(lia)) as Hb.
  rewrite length_app in Hb. cbn in Hb.
  destruct (decide (b ≤ length x)).
  { apply (Hx a (a + (b - a))). apply (mt_agree (x ++ c :: y) r a b); [done..|]. intros q Hq.
    rewrite lookup_app_l by lia. f_equal. lia. }
  destruct (decide (a ≤ length x)).
  { destruct (mt_alphabet _ _ _ _ (length x) Hm ltac:(lia)) as (c' & Hc' & Ha).
    rewrite lookup_app_r, Nat.sub_diag in Hc' by lia. injection Hc' as <-. congruence. }
  apply (Hy (a - S (length x)) (a - S (length x) + (b - a))).
  apply (mt_agree (x ++ c :: y) r a b); [done..|]. intros q Hq.
  rewrite lookup_app_r by lia. replace (q - length x) with (S (a - S (length x) + (q - a))) by lia. done.
Qed.

(** ** Masking

    [masked ok t t']: some ranges of [t] are replaced in [t'] by a bracketed marker. *)

Inductive masked (ok : text → Prop) : text → text → Prop :=
| masked_nil : masked ok [] []
| masked_keep c t t' : masked ok t t' → masked ok (c :: t) (c :: t')
| masked_mask v inner t t' :
    ok inner → masked ok t t' → masked ok (v ++ t) (91%N :: inner ++ 93%N :: t').

Lemma masked_refl ok t : masked ok t t.
Proof. induction t; by constructor. Qed.

Lemma masked_app ok a a' b b' : masked ok a a' → masked ok b b' → masked ok (a ++ b) (a' ++ b').
Proof.
  induction 1 as [|c t t' _ IH|v inner t t' Hok _ IH]; cbn; [done|intros ?; constructor; auto|].
  intros Hb. rewrite <- app_assoc, <- app_assoc. cbn. constructor; auto.
Qed.

Definition bracketed (ok : text → Prop) (t : text) : Prop := ∃ inner, t = 91%N :: inner ++ [93%N] ∧ ok inner.

Lemma masked_marker ok v marker : bracketed ok marker → masked ok v marker.
Proof. intros (inner & -> & Hok). rewrite <- (app_nil_r v). constructor; [done|constructor]. Qed.

(** What a masked text shows without brackets was there before. *)
Lemma masked_prefix ok t t' u y : masked ok t t' → t' = u ++ y → 91%N ∉ u → ∃ z, t = u ++ z.
Proof.
  intros Hm. revert u; induction Hm as [|c t t' _ IH|v inner t t' _ _ IH]; intros u Hu Hb.
  - symmetry in Hu. apply app_eq_nil in Hu as [-> _]. by exists [].
  - destruct u as [|c' u]; [by eexists|]. injection Hu as <- ->.
    destruct (IH u eq_refl) as [z ->]; [set_solver|]. by exists z.
  - destruct u as [|c' u]; [by eexists|]. injection Hu as <- _. set_solver.
Qed.

Definition unbracketed (r : re) : bool := plain r && negb (alphabet r 91%N) && negb (alphabet r 93%N).

Lemma unbracketed_spec r : unbracketed r = true →
  plain r = true ∧ alphabet r 91%N = false ∧ alphabet r 93%N = false.
Proof. unfold unbracketed. rewrite !andb_true_iff, !negb_true_iff. tauto. Qed.

Lemma clean_masked r ok t t' : unbracketed r = true → (∀ inner, ok inner → clean r inner) →
  masked ok t t' → clean r t → clean r t'.
Proof.
  intros (Hp & Ho & Hc)%unbracketed_spec Hok Hm.
  induction Hm as [|c t t' Hm IH|v inner t t' Hi _ IH]; intros Ht; [done| |].
  - assert (clean r t) as Hct.
    { apply (clean_app r [c] t []); [done|]. by rewrite app_nil_r. }
    intros a b Hmt. pose proof Hp as Hp'. unfold plain in Hp'.
    rewrite andb_true_iff, negb_true_iff in Hp'. destruct Hp' as [Hl Hn].
    pose proof (mt_nonempty _ _ _ _ Hmt Hn). pose proof (mt_inside _ _ _ _ Hmt ltac:(lia)) as Hb.
    destruct a as [|a].
    + destruct (masked_prefix ok (c :: t) (c :: t') (take b (c :: t')) (drop b (c :: t'))) as [z Hz].
      { by constructor. } { by rewrite take_drop. }
      { intros [n Hn']%list_elem_of_lookup. apply lookup_take_Some in Hn' as [Hn' Hlt].
        destruct (mt_alphabet _ _ _ _ n Hmt ltac:(lia)) as (d & Hd & Hal). congruence. }
      apply (Ht 0 (0 + (b - 0))). apply (mt_agree (c :: t') r 0 b); [done..|]. intros n Hn'.
      rewrite Hz. rewrite lookup_app_l by (rewrite length_take; lia).
      rewrite lookup_take_lt by lia. f_equal. lia.
    + apply (IH Hct a (a + (b - S a))). apply (mt_agree (c :: t') r (S a) b); [done..|].
      intros n Hn'. replace n with (S (a + (n - S a))) at 2 by lia. done.
  - apply (clean_sep r []); [done..|by apply clean_nil|]. apply clean_sep; [done..|by apply Hok|].
    apply IH. apply (clean_app r v t []); [done|]. by rewrite app_nil_r.
Qed.

(** *** Replacing the matches of a search *)

Lemma drop_slices (t : text) i s e : i ≤ s ≤ e → drop i t = slice t i s ++ slice t s e ++ drop e t.
Proof.
  intros [His Hse]. unfold slice. rewrite <- (take_drop (s - i) (drop i t)) at 1. f_equal.
  rewrite drop_drop. replace (i + (s - i)) with s by lia.
  rewrite <- (take_drop (e - s) (drop s t)) at 1. f_equal. rewrite drop_drop. f_equal. lia.
Qed.

Lemma splice_masked ok r t i f ms : scan w r t i ms →
  (∀ m, m ∈ ms → masked ok (matched t m) (f m)) → masked ok (drop i t) (splice t i f ms).
Proof.
  intros Hs. induction Hs as [i _|i m ms Hi Hlt _ _ _ _ IH]; intros Hf; cbn [splice].
  - apply masked_refl.
  - rewrite (drop_slices t i (m_start m) (m_end m)) by lia.
    apply masked_app; [apply masked_refl|]. apply masked_app; [apply Hf; by left|].
    apply IH. intros m' Hm'. apply Hf. by right.
Qed.

(** Every match of [q] has a match of [r] start inside it. *)
Definition covers (r q : re) : Prop := ∀ t a b, mt w t q a b → ∃ a' b', a ≤ a' < b ∧ mt w t r a' b'.

Lemma covers_refl r : nullable r = false → covers r r.
Proof. intros Hn t a b Hm. exists a, b. pose proof (mt_nonempty _ _ _ _ Hm Hn). split; [lia|done]. Qed.

Lemma slice_lookup (t : text) a b n c : slice t a b !! n = Some c → t !! (a + n) = Some c ∧ n < b - a.
Proof. unfold slice. intros [Hn Hlt]%lookup_take_Some. by rewrite lookup_drop in Hn. Qed.

Lemma splice_clean r q ok t i f ms : unbracketed q = true → covers r q → scan w r t i ms →
  (∀ inner, ok inner → clean q inner) → (∀ m, m ∈ ms → bracketed ok (f m)) →
  clean q (splice t i f ms).
Proof.
  intros (Hp & Ho & Hc)%unbracketed_spec Hcov Hs Hok.
  pose proof Hp as Hp'. unfold plain in Hp'. rewrite andb_true_iff, negb_true_iff in Hp'.
  destruct Hp' as [Hl Hn].
  assert (∀ i k t', (∀ n c, t' !! n = Some c → t !! (i + n) = Some c ∧ i + n < k) →
    (∀ a b, i ≤ a < k → ¬ mt w t r a b) → clean q t') as Hgap.
  { intros i' k t' Hsub Hno a b Hm.
    pose proof (mt_nonempty _ _ _ _ Hm Hn). pose proof (mt_inside _ _ _ _ Hm ltac:(lia)) as Hb.
    assert (mt w t q (i' + a) (i' + a + (b - a))) as Hm'.
    { apply (mt_agree t' q a b); [done..|]. intros n Hn'.
      destruct (lookup_lt_is_Some_2 t' n ltac:(lia)) as [c Hc'].
      rewrite Hc'. destruct (Hsub _ _ Hc') as [<- _]. f_equal. lia. }
    apply Hcov in Hm' as (a' & b' & Ha' & Hr). apply (Hno a' b'); [|done].
    destruct (lookup_lt_is_Some_2 t' (b - 1) ltac:(lia)) as [c Hc']. destruct (Hsub _ _ Hc'). lia. }
  induction Hs as [i Hno|i m ms Hi Hlt _ Hno _ _ IH]; intros Hf; cbn [splice].
  - apply (Hgap i (length t)); [|intros a b Ha; apply Hno; lia].
    intros n c Hc'. rewrite lookup_drop in Hc'. split; [done|]. by apply lookup_lt_Some in Hc'.
  - destruct (Hf m) as (inner & -> & Hi'); [by left|]. cbn.
    rewrite <- app_assoc. cbn. apply clean_sep; [done..| |].
    + apply (Hgap i (m_start m)); [|done]. intros n c [Hc' ?]%slice_lookup. split; [done|lia].
    + apply clean_sep; [done..|by apply Hok|]. apply IH. intros m' Hm'. apply Hf. by right.
Qed.

End facts.
