(* ===== verification/RegexRef.v ===== *)
(** * A reference matcher

    [ends_at r i]: the ends of the matches of [r] at [i], the one the regex crate
    prefers first, each with the group's range.  The search built from it satisfies
    [RegexesLaws], so the laws have a model and examples can be evaluated. *)

From S2P Require Import Prelude Ordered Rstr Unicode Regex.
From Stdlib Require Import Ascii.

Notation hit := (nat * option (nat * nat))%type.

Fixpoint first_of_end (l : list hit) : list hit :=
  match l with
  | [] => []
  | h :: l' => h :: filter (λ h', h'.1 ≠ h.1) (first_of_end l')
  end.

Section reference.
Context (w : char → bool) (t : text).

Definition through (hits : list hit) (k : nat → list hit) : list hit :=
  first_of_end (concat (map (λ h, map (λ h', (h'.1, match h'.2 with Some g => Some g | None => h.2 end)) (k h.1)) hits)).

Fixpoint rep_ends (body : nat → list hit) (fuel : nat) (greedy : bool) (mn : nat) (mx : option nat)
    (i : nat) : list hit :=
  let stop := match mn with O => [(i, None)] | _ => [] end in
  match fuel with
  | O => stop
  | S fuel' =>
      let more := match mx with
                  | Some O => []
                  | _ => through (body i) (rep_ends body fuel' greedy (pred mn) (pred <$> mx))
                  end in
      first_of_end (if greedy then more ++ stop else stop ++ more)
  end.

Fixpoint ends_at (r : re) (i : nat) : list hit :=
  match r with
  | Eps => [(i, None)]
  | Cls p => match t !! i with Some c => if p c then [(S i, None)] else [] | None => [] end
  | Cat a b => through (ends_at a i) (ends_at b)
  | Alt a b => first_of_end (ends_at a i ++ ends_at b i)
  | Rep g mn mx r => rep_ends (ends_at r) (length t - i) g mn mx i
  | TextStart => match i with O => [(O, None)] | _ => [] end
  | TextEnd => if (i =? length t)%nat then [(i, None)] else []
  | WordB => if word_boundary w t i then [(i, None)] else []
  | Grp r => map (λ h, (h.1, Some (i, h.1))) (ends_at r i)
  end.

(** The leftmost match from [i] on. *)
Fixpoint find_from (fuel : nat) (r : re) (i : nat) : option Match :=
  match ends_at r i with
  | (j, g) :: _ => Some {| m_start := i; m_end := j; m_group := g |}
  | [] => match fuel with O => None | S fuel' => find_from fuel' r (S i) end
  end.

Fixpoint iterate (fuel : nat) (r : re) (i : nat) : list Match :=
  match fuel with
  | O => []
  | S fuel' =>
      match find_from (length t - i) r i with
      | Some m => m :: iterate fuel' r (m_end m)
      | None => []
      end
  end.

(** ** It finds what matches *)

Lemma first_of_end_elem l j : j ∈ (first_of_end l).*1 ↔ j ∈ l.*1.
Proof.
  induction l as [|h l IH]; cbn; [done|]. rewrite !elem_of_cons.
  split; intros [->|Hj]; try (by left).
  - right. apply IH. apply list_elem_of_fmap in Hj as (h' & -> & [_ Hh]%list_elem_of_filter).
    by apply list_elem_of_fmap_2.
  - apply IH in Hj. apply list_elem_of_fmap in Hj as (h' & -> & Hh).
    destruct (decide (h'.1 = h.1)) as [->|]; [by left|right].
    apply list_elem_of_fmap_2, list_elem_of_filter. done.
Qed.

Lemma first_of_end_sub l h : h ∈ first_of_end l → h ∈ l.
Proof.
  induction l as [|h' l IH]; cbn; [done|]. rewrite !elem_of_cons.
  intros [->|[_ Hh]%list_elem_of_filter]; auto.
Qed.

Lemma first_of_end_nil l : first_of_end l = [] → l = [].
Proof. by destruct l. Qed.

Lemma through_elem hits k j : j ∈ (through hits k).*1 ↔ ∃ i, i ∈ hits.*1 ∧ j ∈ (k i).*1.
Proof.
  unfold through. rewrite first_of_end_elem. induction hits as [|h hits IH]; cbn.
  - split; [by intros ?%not_elem_of_nil|]. by intros (i & ?%not_elem_of_nil & _).
  - rewrite fmap_app, elem_of_app, IH. setoid_rewrite elem_of_cons.
    rewrite <- list_fmap_compose. cbn. naive_solver.
Qed.

Lemma rep_ends_complete r body fuel g mn mx i j :
  (∀ i j, mt w t r i j → i < j ≤ length t ∧ j ∈ (body i).*1) →
  length t - i ≤ fuel → mt w t (Rep g mn mx r) i j → j ∈ (rep_ends body fuel g mn mx i).*1.
Proof.
  intros Hbody. revert mn mx i; induction fuel as [|fuel IH]; intros mn mx i Hfuel Hm.
  - inversion Hm as [| | | | |? ? ? ?|? ? ? ? ? k ? Hmx Hk Hj| | | |]; subst; cbn; [by left|].
    apply Hbody in Hk. lia.
  - cbn. rewrite first_of_end_elem.
    inversion Hm as [| | | | |? ? ? ?|? ? ? ? ? k ? Hmx Hk Hj| | | |]; subst.
    + destruct g; rewrite fmap_app, elem_of_app; [right|left]; by left.
    + assert (j ∈ (match mx with Some O => [] | _ => through (body i)
        (rep_ends body fuel g (pred mn) (pred <$> mx)) end).*1) as Hin.
      { destruct (Hbody _ _ Hk) as [? Hb].
        assert (j ∈ (through (body i) (rep_ends body fuel g (pred mn) (pred <$> mx))).*1).
        { apply through_elem. exists k. split; [done|]. apply IH; [lia|done]. }
        by destruct mx as [[|]|]. }
      destruct g; rewrite fmap_app, elem_of_app; [left|right]; done.
Qed.

Lemma rep_ends_sound r body fuel g mn mx i j :
  (∀ i j, i ≤ length t → j ∈ (body i).*1 → mt w t r i j) → i ≤ length t →
  j ∈ (rep_ends body fuel g mn mx i).*1 → mt w t (Rep g mn mx r) i j.
Proof.
  intros Hbody. revert mn mx i; induction fuel as [|fuel IH]; intros mn mx i Hi; cbn.
  - destruct mn; [|by intros ?%not_elem_of_nil]. intros ->%list_elem_of_singleton. constructor.
  - rewrite first_of_end_elem. intros Hin.
    assert (j ∈ (match mn with O => [(i, None)] | _ => [] end : list hit).*1 ∨
      j ∈ (match mx with Some O => [] | _ => through (body i)
        (rep_ends body fuel g (pred mn) (pred <$> mx)) end).*1) as [Hs|Hm].
    { destruct g; rewrite fmap_app, elem_of_app in Hin; tauto. }
    + destruct mn; [|by apply not_elem_of_nil in Hs]. apply list_elem_of_singleton in Hs as ->. constructor.
    + assert (mx ≠ Some O) as Hmx by (destruct mx as [[|]|]; [by apply not_elem_of_nil in Hm|done..]).
      assert (j ∈ (through (body i) (rep_ends body fuel g (pred mn) (pred <$> mx))).*1) as Hth
        by (by destruct mx as [[|]|]).
      apply through_elem in Hth as (k & Hk & Hj). apply Hbody in Hk; [|done].
      pose proof (proj2 (mt_bounds _ _ _ _ _ Hk) Hi). econstructor; eauto.
Qed.

Lemma ends_at_spec r i j : loops r = true → i ≤ length t →
  (j ∈ (ends_at r i).*1 ↔ mt w t r i j).
Proof.
  revert i j; induction r as [|p|a IHa b IHb|a IHa b IHb|g mn mx r IH| | | |r IH]; intros i j; cbn.
  - intros _ _. rewrite list_elem_of_singleton. split; [intros ->; constructor|by inversion 1].
  - intros _ _. split.
    + destruct (t !! i) as [c|] eqn:Hc; [|by intros ?%not_elem_of_nil].
      destruct (p c) eqn:Hp; [|by intros ?%not_elem_of_nil].
      intros ->%list_elem_of_singleton. by econstructor.
    + inversion 1 as [|? ? c Hc Hp| | | | | | | | |]; subst. rewrite Hc, Hp. by left.
  - intros [Ha Hb]%andb_true_iff Hi. rewrite through_elem. split.
    + intros (k & Hk & Hj). apply IHa in Hk; [|done..].
      pose proof (proj2 (mt_bounds _ _ _ _ _ Hk) Hi). apply IHb in Hj; [|done..]. by econstructor.
    + inversion 1 as [| |? ? ? k ? Hk Hj| | | | | | | |]; subst. exists k.
      pose proof (proj2 (mt_bounds _ _ _ _ _ Hk) Hi). split; [by apply IHa|by apply IHb].
  - intros [Ha Hb]%andb_true_iff Hi. rewrite first_of_end_elem, fmap_app, elem_of_app, IHa, IHb by done.
    split; [intros [?|?]; by constructor|]. inversion 1; auto.
  - intros [Hn Hl]%andb_true_iff Hi. apply negb_true_iff in Hn. split.
    + apply rep_ends_sound; [|done]. intros i' j' Hi'. by apply IH.
    + intros Hm. eapply rep_ends_complete; [|done|done]. intros i' j' Hm'.
      pose proof (mt_nonempty _ _ _ _ _ Hm' Hn). pose proof (mt_inside _ _ _ _ _ Hm' ltac:(lia)).
      split; [lia|]. apply IH; [done|lia|done].
  - intros _ _. split.
    + destruct i; [|by intros ?%not_elem_of_nil]. intros ->%list_elem_of_singleton. constructor.
    + inversion 1; subst. by left.
  - intros _ _. destruct (Nat.eqb_spec i (length t)) as [->|Hne]; cbn.
    + rewrite list_elem_of_singleton. split; [intros ->; constructor|by inversion 1].
    + split; [by intros ?%not_elem_of_nil|]. by inversion 1.
  - intros _ _. destruct (word_boundary w t i) eqn:Hw; cbn.
    + rewrite list_elem_of_singleton. split; [intros ->; by constructor|by inversion 1].
    + split; [by intros ?%not_elem_of_nil|]. inversion 1; congruence.
  - intros Hl Hi. rewrite <- list_fmap_compose. cbn. split.
    + intros Hj. constructor. by apply IH.
    + inversion 1; subst. by apply IH.
Qed.

(** A group lies inside the match. *)
Definition inside (i : nat) (h : hit) : Prop :=
  i ≤ h.1 ∧ match h.2 with Some (a, b) => i ≤ a ≤ b ∧ b ≤ h.1 | None => True end.

Lemma through_inside i hits k : (∀ h, h ∈ hits → inside i h) → (∀ j h, h ∈ k j → inside j h) →
  ∀ h, h ∈ through hits k → inside i h.
Proof.
  intros Hh Hk h Hin%first_of_end_sub.
  apply list_elem_of_In, in_concat in Hin as (l & Hl & Hin).
  apply in_map_iff in Hl as (h1 & <- & Hh1). apply in_map_iff in Hin as (h2 & <- & Hh2).
  apply list_elem_of_In, Hh in Hh1 as [H1 H1']. apply list_elem_of_In, Hk in Hh2 as [H2 H2'].
  split; cbn; [lia|]. destruct h2 as [j2 [[a b]|]]; cbn in *; [lia|].
  destruct h1 as [j1 [[a b]|]]; cbn in *; [lia|done].
Qed.

Lemma rep_ends_inside body fuel g mn mx i : (∀ j h, h ∈ body j → inside j h) →
  ∀ h, h ∈ rep_ends body fuel g mn mx i → inside i h.
Proof.
  intros Hbody. revert mn mx i; induction fuel as [|fuel IH]; intros mn mx i h; cbn.
  - destruct mn; [|by intros ?%not_elem_of_nil]. intros ->%list_elem_of_singleton. by split; cbn.
  - intros Hin%first_of_end_sub.
    assert (h ∈ (match mn with O => [(i, None)] | _ => [] end : list hit) ∨
      h ∈ (match mx with Some O => [] | _ => through (body i)
        (rep_ends body fuel g (pred mn) (pred <$> mx)) end)) as [Hs|Hm].
    { destruct g; apply elem_of_app in Hin; tauto. }
    + destruct mn; [|by apply not_elem_of_nil in Hs]. apply list_elem_of_singleton in Hs as ->. by split; cbn.
    + destruct mx as [[|]|]; [by apply not_elem_of_nil in Hm|..];
        (eapply through_inside; [..|exact Hm]; [auto|]; intros j h'; apply IH).
Qed.

Lemma ends_at_inside r i h : h ∈ ends_at r i → inside i h.
Proof.
  revert i h; induction r as [|p|a IHa b IHb|a IHa b IHb|g mn mx r IH| | | |r IH]; intros i h; cbn.
  - intros ->%list_elem_of_singleton. by split; cbn.
  - destruct (t !! i) as [c|]; [|by intros ?%not_elem_of_nil].
    destruct (p c); [|by intros ?%not_elem_of_nil]. intros ->%list_elem_of_singleton. split; cbn; [lia|done].
  - apply through_inside; [apply IHa|apply IHb].
  - intros [?|?]%first_of_end_sub%elem_of_app; auto.
  - by apply rep_ends_inside.
  - destruct i; [|by intros ?%not_elem_of_nil]. intros ->%list_elem_of_singleton. by split; cbn.
  - destruct (_ =? _); [|by intros ?%not_elem_of_nil]. intros ->%list_elem_of_singleton. by split; cbn.
  - destruct (word_boundary w t i); [|by intros ?%not_elem_of_nil].
    intros ->%list_elem_of_singleton. by split; cbn.
  - intros (h' & -> & Hh)%list_elem_of_fmap. apply IH in Hh as [? _]. split; cbn; lia.
Qed.

(** ** The search *)

Lemma find_from_spec fuel r i : searchable r = true → i ≤ length t → length t - i = fuel →
  match find_from fuel r i with
  | Some m => i ≤ m_start m ∧ m_start m < m_end m ≤ length t ∧ mt w t r (m_start m) (m_end m) ∧
      (∀ a b, i ≤ a < m_start m → ¬ mt w t r a b) ∧
      (∀ a b, m_group m = Some (a, b) → m_start m ≤ a ≤ b ∧ b ≤ m_end m)
  | None => ∀ a b, i ≤ a → ¬ mt w t r a b
  end.
Proof.
  unfold searchable. rewrite andb_true_iff, negb_true_iff. intros [Hl Hn].
  assert (∀ a b, mt w t r a b → a < b ≤ length t) as Hnon.
  { intros a b Hm. pose proof (mt_nonempty _ _ _ _ _ Hm Hn).
    pose proof (mt_inside _ _ _ _ _ Hm ltac:(lia)). lia. }
  revert i; induction fuel as [|fuel IH]; intros i Hi Hf; cbn [find_from];
    destruct (ends_at r i) as [|[j g] l] eqn:He.
  - intros a b Ha Hm. apply Hnon in Hm as ?. lia.
  - assert (mt w t r i j) as Hm by (apply ends_at_spec; [done..|]; rewrite He; by left).
    apply Hnon in Hm as ?. split_and!; cbn; [done|lia|lia|done|intros; lia|].
    intros a b ->. destruct (ends_at_inside r i (j, Some (a, b))) as [_ Hg]; [rewrite He; by left|]. done.
  - assert (∀ b, ¬ mt w t r i b) as Hno.
    { intros b Hm%ends_at_spec; [|done..]. rewrite He in Hm. by apply not_elem_of_nil in Hm. }
    specialize (IH (S i) ltac:(lia) ltac:(lia)). destruct (find_from fuel r (S i)) as [m|].
    + destruct IH as (? & ? & ? & Hgap & ?). split_and!; try done; try lia.
      intros a b Ha. destruct (decide (a = i)) as [->|]; [apply Hno|apply Hgap; lia].
    + intros a b Ha. destruct (decide (a = i)) as [->|]; [apply Hno|apply IH; lia].
  - assert (mt w t r i j) as Hm by (apply ends_at_spec; [done..|]; rewrite He; by left).
    apply Hnon in Hm as ?. split_and!; cbn; [done|lia|lia|done|intros; lia|].
    intros a b ->. destruct (ends_at_inside r i (j, Some (a, b))) as [_ Hg]; [rewrite He; by left|]. done.
Qed.

Lemma iterate_scan fuel r i : searchable r = true → i ≤ length t → length t - i < fuel →
  scan w r t i (iterate fuel r i).
Proof.
  intros Hr. revert i; induction fuel as [|fuel IH]; intros i Hi Hf; [lia|]. cbn [iterate].
  pose proof (find_from_spec _ r i Hr Hi eq_refl) as Hfind.
  destruct (find_from _ r i) as [m|]; [|by constructor].
  destruct Hfind as (? & ? & ? & ? & ?). constructor; try done; try lia. apply IH; lia.
Qed.

End reference.

(** The word characters of the examples: ASCII, the long s and the Kelvin sign. *)
Definition example_word (c : char) : bool :=
  ascii_alphanumeric c || existsb (N.eqb c) [95; 383; 8490]%N.

Module Reference.

#[export] Instance regexes : Regexes := {
  word_char := example_word;
  find_iter r t := iterate example_word t (S (length t)) r 0;
}.

#[export] Instance regexes_laws : RegexesLaws.
Proof.
  split; cbn.
  - intros c Hc. unfold example_word. cbn.
    rewrite (proj2 (N.eqb_neq c 383)), (proj2 (N.eqb_neq c 8490)) by lia. by rewrite !orb_false_r.
  - intros c Hc. unfold whitespace, between in Hc. unfold example_word, ascii_alphanumeric, ascii_alphabetic,
      ascii_lower, ascii_upper, ascii_digit, between. cbn.
    repeat (rewrite orb_true_iff in Hc || rewrite andb_true_iff in Hc).
    rewrite !N.leb_le, !N.eqb_eq in Hc.
    repeat match goal with |- context [(?a <=? ?b)%N] => destruct (N.leb_spec a b) end;
    repeat match goal with |- context [(?a =? ?b)%N] => destruct (N.eqb_spec a b) end; cbn; try done; lia.
  - intros r t Hr. apply (iterate_scan example_word t (S (length t)) r 0); [done|lia|lia].
Qed.

End Reference.
