(* ===== verification/RedactPatterns.v ===== *)
(** * The patterns of the sanitizer

    crates/telltale-schema/src/event/redaction.rs, lines 13 to 145: the bounds, the
    markers and the regular expressions.  A class under the flag [i] is closed under
    case folding before it is negated. *)

From S2P Require Import Prelude Ordered Rstr Unicode Regex.
From Stdlib Require Import Ascii.

Local Open Scope N_scope.

Definition MAX_INPUT_BYTES : Z := 4096.
Definition MAX_REDACTED_EVIDENCE_BYTES : Z := 512.
Definition MAX_DIAGNOSTIC_BYTES : Z := 200.
Definition MAX_PATH_BYTES : Z := 256.
Definition MAX_EVIDENCE_TOKENS : nat := 80.

Definition TRUNCATED_SUFFIX : text := lit "[truncated]".
Definition TRUNCATED_TAIL_MARKER : text := lit "[truncated-tail]".
Definition REDACTED_SECRET : text := lit "[redacted-secret]".
Definition REDACTED_URL : text := lit "[redacted-url]".
Definition SENSITIVE_PATH : text := lit "[sensitive-path]".
Definition DIAGNOSTIC_PATH : text := lit "<path>".

(** ** Classes *)

Definition quote_char : char := 34.
Definition upper_digit_space (c : char) : bool := ci (λ c, ascii_upper c || ascii_digit c || (c =? 32)) c.
Definition delimiter (c : char) : bool :=
  whitespace c || (c =? quote_char) || among "<>'`,;()[]{}:&|" c.

Definition one_of_words (w : string) (ws : list string) : re := alts (iword w) (map iword ws).

(** ** Private keys *)

Definition key_header : re :=
  Alt (cats [maybe (Cat (plus (Cls upper_digit_space)) (plus space)); iword "PRIVATE"; plus space; iword "KEY"])
      (cats [iword "PGP"; plus space; iword "PRIVATE"; plus space; iword "KEY"; plus space; iword "BLOCK"]).

Definition key_line (w : string) : re :=
  cats [word "-----"; star space; iword w; plus space; key_header; star space; word "-----"].

Definition PRIVATE_KEY_BLOCK_RE : re :=
  cats [key_line "BEGIN"; Rep false 0 None any; Alt (key_line "END") TextEnd].

Definition PRIVATE_KEY_END_RE : re := key_line "END".

Definition PRIVATE_KEY_PHRASE_RE : re :=
  cats [WordB; maybe (Cat (one_of_words "RSA" ["OPENSSH"; "EC"; "DSA"]) (plus space));
        iword "PRIVATE"; plus space; iword "KEY"; WordB].

(** ** URLs and paths *)

Definition URL_RE : re :=
  cats [maybe (cats [WordB; Cls (ci ascii_lower);
                     star (Cls (ci (λ c, ascii_lower c || ascii_digit c || among "+.-" c))); word ":"]);
        word "//"; plus (not_cls (λ c, whitespace c || (c =? quote_char) || among "<>'" c))].

Definition win_seg : re := plus (not_cls (λ c, delimiter c || among "\" c)).
Definition win_dirs : re := star (cats [win_seg; star (Cat (plus space) win_seg); word "\"]).

Definition WINDOWS_OR_UNC_PATH_RE : re :=
  Alt (cats [WordB; Cls (ci ascii_upper); word ":\"; win_dirs; win_seg])
      (cats [word "\\"; win_seg; word "\"; win_dirs; win_seg]).

Definition posix_seg : re := plus (not_cls (λ c, delimiter c || among "/" c)).

Definition POSIX_PRIVATE_PATH_RE : re :=
  cats [Grp (Alt TextStart (not_cls (ci (λ c, ascii_upper c || ascii_digit c || among "_~/" c))));
        Alt (word "/") (Cat (word "~") (Cls (among "/\")));
        star (cats [posix_seg; star (Cat (plus space) posix_seg); word "/"]); posix_seg].

Definition path_char : re := not_cls delimiter.

(** The optional directory part of a credential file. *)
Definition path_root : re :=
  alts (Cat (Cls (ci ascii_upper)) (word ":\")) [word "\\"; word "/"; Cat (word "~") (Cls (among "/\"))].
Definition path_dir : re := maybe (cats [path_root; star path_char; Cls (among "/\")]).

Definition key_extension : re := one_of_words "pem" ["p12"; "pfx"; "key"].

Definition CREDENTIAL_PATH_RE : re :=
  cats [path_dir;
        alts (iword ".npmrc")
          [iword ".netrc"; iword "credentials"; Cat (iword "id_") (one_of_words "rsa" ["dsa"; "ecdsa"; "ed25519"]);
           Cat (word ".") key_extension; cats [plus path_char; word "."; key_extension]]].

Definition DOT_ENV_PATH_RE : re :=
  cats [path_dir; iword ".env";
        maybe (Cat (word ".") (one_of_words "local" ["development"; "production"; "test"; "staging"]));
        Grp (Alt TextEnd (not_cls (ci (λ c, ascii_upper c || ascii_digit c || among "_.-" c))))].

(** ** Labels and commands *)

Definition SENSITIVE_LABEL_RE : re :=
  cats [WordB; Alt (cats [iword "api"; plus space; one_of_words "key" ["token"]])
                   (Cat (iword "credential") (maybe (iword "s"))); WordB].

Definition PACKAGE_MANAGER_RE : re :=
  cats [WordB; one_of_words "npm" ["pnpm"; "yarn"; "bun"; "pip"; "pipx"; "uv"; "cargo"; "go"; "brew";
                                   "apt"; "apt-get"; "dnf"; "yum"]; WordB; plus space;
        one_of_words "install" ["add"; "i"; "get"; "run"; "create"; "x"];
        maybe (Cat (plus space) (plus (not_cls whitespace)))].

Definition STARTUP_TARGET_RE : re :=
  alts (cats [maybe (word "~/"); word "."; one_of_words "bashrc" ["zshrc"; "profile"; "bash_profile"]; WordB])
       [iword "config/fish/config.fish"; iword "crontab"].

Definition ENCODED_DECODER_RE : re :=
  cats [WordB; iword "base64"; plus space; one_of_words "-d" ["--decode"]; WordB].

(** ** Credentials *)

Definition token_char (more : string) : re := Cls (ci (λ c, ascii_alphanumeric c || among more c)).

Definition CREDENTIAL_GH_TOKEN_RE : re :=
  cats [WordB; iword "gh"; Cls (ci (among "pousr")); word "_"; at_least 16 (token_char "_-"); WordB].
Definition CREDENTIAL_SK_KEY_RE : re := cats [WordB; iword "sk-"; at_least 16 (token_char "_-"); WordB].
Definition CREDENTIAL_AKIA_RE : re :=
  cats [WordB; iword "AKIA"; times 16 (Cls (ci (λ c, ascii_digit c || ascii_upper c))); WordB].
Definition CREDENTIAL_XOX_RE : re :=
  cats [WordB; iword "xox"; Cls (ci (among "baprs")); word "-"; at_least 20 (token_char "-"); WordB].
Definition CREDENTIAL_JWT_RE : re :=
  cats [WordB; iword "eyJ"; at_least 10 (token_char "_-"); word "."; at_least 10 (token_char "_-"); word ".";
        at_least 10 (token_char "_-"); WordB].
Definition CREDENTIAL_BEARER_RE : re :=
  cats [WordB; one_of_words "Bearer" ["Basic"]; plus space; at_least 8 (token_char "._~+/=:-");
        Alt (plus (word "=")) WordB].
Definition ENCODED_BLOB_RE : re :=
  cats [WordB; at_least 20 (Cls (λ c, ascii_alphanumeric c || among "+/" c)); Rep true 0 (Some 2%nat) (word "="); WordB].

Definition HIGH_CONFIDENCE_GH_TOKEN_RE : re := Cat (iword "ghp_") (at_least 8 (token_char "")).
Definition HIGH_CONFIDENCE_SK_KEY_RE : re := Cat (iword "sk-") (at_least 8 (token_char "")).
Definition HIGH_CONFIDENCE_AKIA_RE : re :=
  Cat (iword "AKIA") (at_least 12 (Cls (ci (λ c, ascii_upper c || ascii_digit c)))).
Definition HIGH_CONFIDENCE_XOX_RE : re :=
  cats [iword "xox"; Cls (ci (among "baprs")); word "-"; at_least 8 (token_char "-")].
Definition HIGH_CONFIDENCE_JWT_RE : re :=
  cats [iword "eyJ"; at_least 8 (token_char "_-"); word "."; at_least 8 (token_char "_-"); word ".";
        at_least 8 (token_char "_-")].
Definition HIGH_CONFIDENCE_PRIVATE_KEY_RE : re :=
  cats [word "-----"; iword "BEGIN "; plus (Cls upper_digit_space); iword " PRIVATE KEY"; word "-----"].

Definition UNSCANNED_LINE_VALUE_RE : re := alts (word "\") [iword "auth"; iword "bearer"].

(** Every pattern the code searches with. *)
Definition patterns : list re :=
  [PRIVATE_KEY_BLOCK_RE; PRIVATE_KEY_END_RE; PRIVATE_KEY_PHRASE_RE; URL_RE; WINDOWS_OR_UNC_PATH_RE;
   POSIX_PRIVATE_PATH_RE; CREDENTIAL_PATH_RE; DOT_ENV_PATH_RE; SENSITIVE_LABEL_RE; PACKAGE_MANAGER_RE;
   STARTUP_TARGET_RE; ENCODED_DECODER_RE; CREDENTIAL_GH_TOKEN_RE; CREDENTIAL_SK_KEY_RE; CREDENTIAL_AKIA_RE;
   CREDENTIAL_XOX_RE; CREDENTIAL_JWT_RE; CREDENTIAL_BEARER_RE; ENCODED_BLOB_RE; HIGH_CONFIDENCE_GH_TOKEN_RE;
   HIGH_CONFIDENCE_SK_KEY_RE; HIGH_CONFIDENCE_AKIA_RE; HIGH_CONFIDENCE_XOX_RE; HIGH_CONFIDENCE_JWT_RE;
   HIGH_CONFIDENCE_PRIVATE_KEY_RE; UNSCANNED_LINE_VALUE_RE].

Lemma patterns_searchable r : r ∈ patterns → searchable r = true.
Proof.
  intros Hr. assert (forallb searchable patterns = true) as Hall by (vm_compute; reflexivity).
  rewrite forallb_forall in Hall. apply Hall. by apply list_elem_of_In.
Qed.
