(* ===== verification/Redaction.v ===== *)
(** * The privacy sanitizer

    crates/telltale-schema/src/event/redaction.rs: assignments, URLs, paths, encoded
    data, and [PrivacySanitizer::try_sanitize], which runs every pass in order over
    bounded text.  Offsets count characters; charges count bytes. *)

From S2P Require Import Prelude Ordered Rstr Unicode Regex RedactPatterns.
From Stdlib Require Import Ascii.

Local Open Scope Z_scope.

Inductive SanitizationContext :=
| Evidence | Diagnostic | Url | Path | CommandResult | Summary | Metadata.

#[export] Instance SanitizationContext_eq_dec : EqDecision SanitizationContext.
Proof. solve_decision. Defined.

Definition is_char (c : ascii) (o : option char) : bool :=
  match o with Some d => N.eqb d (ch c) | None => false end.
Definition is_quote (c : char) : bool := N.eqb c quote_char || N.eqb c (ch "'").
Definition newline (c : char) : bool := N.eqb c 10 || N.eqb c 13.

(** ** Assignments *)

Definition SECRET_KEY_WORDS : list text :=
  map lit ["apikey"; "accesstoken"; "accesskey"; "authorization"; "auth"; "bearer"; "clientsecret";
           "credential"; "credentials"; "password"; "passwd"; "secret"; "token"; "privatekey"; "key"].

(** The parts of a key: what is between other characters, split again before a
    capital that follows a small letter. *)
Fixpoint key_parts_loop (current : text) (previous_was_lowercase : bool) (key : text) : list text :=
  match key with
  | [] => match current with [] => [] | _ => [current] end
  | c :: key' =>
      if negb (ascii_alphanumeric c) then
        match current with
        | [] => key_parts_loop [] false key'
        | _ => current :: key_parts_loop [] false key'
        end
      else if ascii_upper c && previous_was_lowercase && negb (text_eqb current []) then
        current :: key_parts_loop [lower c] (ascii_lower c) key'
      else key_parts_loop (current ++ [lower c]) (ascii_lower c) key'
  end.
Definition secret_key_parts (key : text) : list text := key_parts_loop [] false key.

Definition is_secret_key (key : text) : bool :=
  let parts := secret_key_parts key in
  text_in (concat parts) SECRET_KEY_WORDS
  || match last parts with Some part => text_in part SECRET_KEY_WORDS | None => false end.

Definition compact (t : text) : text := lowercase (filter (λ c, ascii_alphanumeric c = true) t).

Definition is_authorization_key (key : text) : bool :=
  text_in (compact key) (map lit ["authorization"; "auth"; "bearer"]).

Definition line_end (t : text) (start : nat) : nat := start + position_or_end newline (drop start t).
Definition authorization_value_end (t : text) (start : nat) : nat :=
  start + position_or_end (λ c, newline c || N.eqb c (ch ";")) (drop start t).

Fixpoint find_quote_loop (previous : option char) (t : text) (quote : char) : option nat :=
  match t with
  | [] => None
  | c :: t' =>
      if newline c then None
      else if N.eqb c quote && negb (is_char "\" previous) then Some O
      else option_map S (find_quote_loop (Some c) t' quote)
  end.
Definition find_quote (t : text) (start : nat) (quote : char) : option nat :=
  option_map (Nat.add start) (find_quote_loop None (drop start t) quote).

Fixpoint find_escaped_loop (t : text) (quote : char) : option nat :=
  match t with
  | a :: (b :: _) as t' =>
      if N.eqb a (ch "\") && N.eqb b quote then Some O
      else if newline a then None
      else option_map S (find_escaped_loop t' quote)
  | _ => None
  end.
Definition find_escaped_quote (t : text) (start : nat) (quote : char) : option nat :=
  option_map (Nat.add start) (find_escaped_loop (drop start t) quote).

Definition skip_assignment_whitespace (t : text) (cursor : nat) : nat :=
  cursor + position_or_end (λ c, negb (whitespace c)) (drop cursor t).

(** A block value ends before the first line that is neither indented nor empty. *)
Fixpoint block_lines (fuel : nat) (t : text) (cursor : nat) : nat * bool :=
  match fuel with
  | O => (length t, false)
  | S fuel' =>
      let line_end := line_end t cursor in
      let line_is_indented := is_char " " (t !! cursor) || is_char "009" (t !! cursor) in
      let line_is_empty := Nat.eqb cursor line_end in
      if negb line_is_indented && negb line_is_empty then (cursor, true)
      else if Nat.eqb line_end (length t) then (length t, false)
      else block_lines fuel' t
             (if is_char "013" (t !! line_end) && is_char "010" (t !! S line_end)
              then line_end + 2 else line_end + 1)
  end.

Definition redact_block_assignment_value (t : text) (value_start : nat) : nat * text :=
  let style_line_end := line_end t value_start in
  if Nat.eqb style_line_end (length t) then (style_line_end, take value_start t ++ REDACTED_SECRET)
  else
    let block_line_break : text :=
      if is_char "013" (t !! style_line_end) && is_char "010" (t !! S style_line_end)
      then [13; 10]%N else [10]%N in
    match block_lines (S (length t)) t (style_line_end + length block_line_break) with
    | (line_start, true) => (line_start, take value_start t ++ REDACTED_SECRET ++ block_line_break)
    | (e, false) => (e, take value_start t ++ REDACTED_SECRET)
    end.

Definition value_delimiter (c : char) : bool :=
  whitespace c || N.eqb c quote_char || among ",;}])'&#" c.

Definition escaped_value (t : text) (value_start : nat) : option (nat * text) :=
  match t !! value_start, t !! S value_start with
  | Some a, Some b =>
      if N.eqb a (ch "\") && is_quote b then
        let closing := find_escaped_quote t (value_start + 2) b in
        let e := match closing with Some i => i + 2 | None => line_end t value_start end%nat in
        let closing_text := match closing with Some i => slice t i (i + 2) | None => [] end in
        Some (e, take value_start t ++ slice t value_start (value_start + 2) ++ REDACTED_SECRET ++ closing_text)
      else None
  | _, _ => None
  end.

(** Where the value ends, and the text up to there with the value masked. *)
Definition redact_assignment_value (t : text) (value_start : nat) (authorization : bool) : nat * text :=
  if starts REDACTED_SECRET (drop value_start t) then
    let e := (value_start + length REDACTED_SECRET)%nat in (e, take e t)
  else if authorization then
    (authorization_value_end t value_start, take value_start t ++ REDACTED_SECRET)
  else if is_char "|" (t !! value_start) || is_char ">" (t !! value_start) then
    redact_block_assignment_value t value_start
  else
    match escaped_value t value_start with
    | Some r => r
    | None =>
        match t !! value_start with
        | Some quote =>
            if is_quote quote then
              let closing := find_quote t (S value_start) quote in
              let e := match closing with Some i => S i | None => line_end t value_start end in
              let closing_text := match closing with Some i => slice t i (S i) | None => [] end in
              (e, take value_start t ++ slice t value_start (S value_start) ++ REDACTED_SECRET ++ closing_text)
            else (value_start + position_or_end value_delimiter (drop value_start t),
                  take value_start t ++ REDACTED_SECRET)%nat
        | None => (value_start, take value_start t ++ REDACTED_SECRET)
        end
    end.

Record SecretAssignment := {
  sa_end : nat;
  sa_value_start : nat;
  sa_authorization : bool;
}.

Definition key_char (c : char) : bool := ascii_alphanumeric c || among "_.-" c.

(** The key at the start: its range, where it is over, and whether it is a flag. *)
Definition scan_key (t : text) : option (nat * nat * nat * bool) :=
  match t with
  | [] => None
  | c :: _ =>
      if is_quote c then
        match find_quote t 1 c with
        | Some key_end => Some (1%nat, key_end, S key_end, false)
        | None => None
        end
      else
        let flag := starts (lit "--") t in
        let key_start := if flag then 2%nat else 0%nat in
        let cursor := (key_start + position_or_end (λ c, negb (key_char c)) (drop key_start t))%nat in
        Some (key_start, cursor, cursor, flag)
  end.

Definition scan_secret_assignment (t : text) (allow_flags : bool) : option SecretAssignment :=
  match scan_key t with
  | None => None
  | Some (key_start, key_end, cursor, flag) =>
      let key := slice t key_start key_end in
      if text_eqb key [] || negb (is_secret_key key) then None
      else
        let separator := skip_assignment_whitespace t cursor in
        let authorization := is_authorization_key key in
        let found (value_start : nat) :=
          Some {| sa_end := (redact_assignment_value t value_start authorization).1;
                  sa_value_start := value_start; sa_authorization := authorization |} in
        if is_char "=" (t !! separator) || is_char ":" (t !! separator) then
          found (skip_assignment_whitespace t (S separator))
        else if negb flag || negb allow_flags || Nat.eqb separator cursor then None
        else found separator
  end.

(** *** Escaped syntax *)

Record SyntaxCharacter := {
  sc_character : char;
  sc_source_start : nat;
  sc_source_end : nat;
}.

Record DecodedAssignmentSyntax := {
  das_text : text;
  das_source_boundaries : list nat;
}.

Definition hex_of (l : list SyntaxCharacter) : option N :=
  foldl (λ acc c, match acc, hex_digit (sc_character c) with
                  | Some v, Some d => Some (v * 16 + d)%N
                  | _, _ => None
                  end) (Some 0%N) l.

Definition decode_hex (l : list SyntaxCharacter) (digits : nat) : option (char * nat) :=
  if Nat.ltb (length l) (2 + digits) then None
  else match hex_of (take digits (drop 2 l)) with
       | Some value => match from_u32 value with Some c => Some (c, 2 + digits)%nat | None => None end
       | None => None
       end.

Definition decode_escaped_syntax_character (l : list SyntaxCharacter) : option (char * nat) :=
  match l with
  | a :: b :: _ =>
      if negb (N.eqb (sc_character a) (ch "\")) then None
      else if is_quote (sc_character b) || N.eqb (sc_character b) (ch "\") then Some (sc_character b, 2%nat)
      else if N.eqb (sc_character b) (ch "x") then decode_hex l 2
      else if N.eqb (sc_character b) (ch "u") then decode_hex l 4
      else None
  | _ => None
  end.

Fixpoint decode_loop (fuel : nat) (l : list SyntaxCharacter) : list SyntaxCharacter * bool :=
  match fuel, l with
  | S fuel', a :: l' =>
      match decode_escaped_syntax_character l with
      | Some (c, consumed) =>
          let source_end := match l !! (consumed - 1)%nat with
                            | Some e => sc_source_end e | None => sc_source_end a end in
          let '(rest, _) := decode_loop fuel' (drop consumed l) in
          ({| sc_character := c; sc_source_start := sc_source_start a; sc_source_end := source_end |} :: rest,
           true)
      | None => let '(rest, changed) := decode_loop fuel' l' in (a :: rest, changed)
      end
  | _, _ => ([], false)
  end.
Definition decode_assignment_syntax_once (l : list SyntaxCharacter) : list SyntaxCharacter * bool :=
  decode_loop (length l) l.

Definition syntax_characters (t : text) : list SyntaxCharacter :=
  imap (λ i c, {| sc_character := c; sc_source_start := i; sc_source_end := S i |}) t.

Definition from_characters (l : list SyntaxCharacter) : DecodedAssignmentSyntax :=
  {| das_text := map sc_character l; das_source_boundaries := O :: map sc_source_end l |}.

(** Two rounds at most; nothing when nothing is escaped. *)
Definition decode_assignment_syntax (t : text) : option DecodedAssignmentSyntax :=
  match decode_assignment_syntax_once (syntax_characters t) with
  | (_, false) => None
  | (l, true) => Some (from_characters (decode_assignment_syntax_once l).1)
  end.

Definition source_offset (d : DecodedAssignmentSyntax) (decoded_offset : nat) : nat :=
  nth decoded_offset (das_source_boundaries d) O.

Definition redact_classified_assignment (source : text) (d : DecodedAssignmentSyntax)
    (assignment_start : nat) (a : SecretAssignment) : text :=
  let value_start := (assignment_start + sa_value_start a)%nat in
  let value_end := (assignment_start + sa_end a)%nat in
  let source_start := source_offset d assignment_start in
  let source_value_start := source_offset d value_start in
  let source_end := source_offset d value_end in
  let value := slice (das_text d) value_start value_end in
  if starts REDACTED_SECRET value then slice source source_start source_end
  else if sa_authorization a || is_char "|" (head value) || is_char ">" (head value) then
    slice source source_start source_value_start ++ REDACTED_SECRET
  else if Nat.leb 2 (length value)
          && match head value, last value with Some a, Some b => is_quote a && N.eqb a b | _, _ => false end then
    let opening_end := source_offset d (value_start + 1) in
    let closing_start := source_offset d (value_end - 1) in
    slice source source_start source_value_start ++ slice source source_value_start opening_end
      ++ REDACTED_SECRET ++ slice source closing_start source_end
  else slice source source_start source_value_start ++ REDACTED_SECRET.

(** ** Percent encoding and URL structure *)

Definition MAX_PERCENT_DECODE_DEPTH : nat := 2.
Definition MAX_NESTED_URL_DEPTH : nat := 2.

Fixpoint has_percent_escape (t : text) : bool :=
  match t with
  | a :: (b :: c :: _) as t' =>
      N.eqb a (ch "%") && ascii_hexdigit b && ascii_hexdigit c || has_percent_escape t'
  | _ => false
  end.

(** On the bytes of the text. *)
Fixpoint percent_bytes (l : list N) : list N :=
  match l with
  | a :: ((b :: c :: l') as rest) =>
      if N.eqb a (ch "%") then
        match hex_digit b, hex_digit c with
        | Some high, Some low => (high * 16 + low)%N :: percent_bytes l'
        | _, _ => a :: percent_bytes rest
        end
      else a :: percent_bytes rest
  | a :: rest => a :: percent_bytes rest
  | [] => []
  end.
Definition percent_decode_once (t : text) : text := from_utf8_lossy (percent_bytes (utf8_encode t)).

Fixpoint percent_decode_rounds (n : nat) (t : text) : text :=
  match n with
  | O => t
  | S n' => let next := percent_decode_once t in
            if text_eqb next t then t else percent_decode_rounds n' next
  end.
Definition percent_decode_bounded (t : text) : text := percent_decode_rounds MAX_PERCENT_DECODE_DEPTH t.

Definition is_supported_url_scheme (scheme : text) : bool :=
  match scheme with
  | c :: rest => ascii_alphabetic c && forallb (λ c, ascii_alphanumeric c || among "+.-" c) rest
  | [] => false
  end.

Definition url_prefix_and_authority (url : text) : option (text * text) :=
  match split_once (lit "://") url with
  | Some (scheme, rest) =>
      if is_supported_url_scheme scheme then Some (take (length scheme + 3) url, rest)
      else option_map (λ rest, (lit "//", rest)) (strip (lit "//") url)
  | None => option_map (λ rest, (lit "//", rest)) (strip (lit "//") url)
  end.

Definition has_supported_absolute_url_prefix (url : text) : bool :=
  match url_prefix_and_authority url with
  | Some (prefix, _) => negb (text_eqb prefix (lit "//"))
  | None => false
  end.

Fixpoint decode_until_scheme (passes : nat) (representation : text) : option text :=
  if has_supported_absolute_url_prefix representation then Some representation
  else match passes with
       | O => None
       | S passes' =>
           let decoded := percent_decode_once representation in
           if text_eqb decoded representation then None else decode_until_scheme passes' decoded
       end.
Definition decode_url_candidate_until_scheme (candidate : text) : option text :=
  decode_until_scheme MAX_PERCENT_DECODE_DEPTH candidate.

Definition encoded_url_candidate_boundary (t : text) (start : nat) : bool :=
  match last (take start t) with
  | Some previous => negb (ascii_alphanumeric previous) && negb (among "_%" previous)
  | None => true
  end.

Definition encoded_url_candidate_end (t : text) (start : nat) : nat :=
  start + position_or_end (λ c, whitespace c || N.eqb c quote_char || among "<>'" c) (drop start t).

Definition candidate_at (t : text) (literal_urls : list (nat * nat)) (start : nat)
    : option (nat * nat * text) :=
  if existsb (λ u, Nat.leb u.1 start && Nat.ltb start u.2) literal_urls
     || negb (encoded_url_candidate_boundary t start) then None
  else
    let e := encoded_url_candidate_end t start in
    let candidate := slice t start e in
    if existsb (N.eqb (ch "%")) candidate && negb (is_some (url_prefix_and_authority candidate)) then
      option_map (λ decoded, (start, e, decoded)) (decode_url_candidate_until_scheme candidate)
    else None.

Definition find_encoded_url_candidate (t : text) (offset : nat) (literal_urls : list (nat * nat))
    : option (nat * nat * text) :=
  if negb (has_percent_escape (drop offset t)) then None
  else head (omap (candidate_at t literal_urls) (seq offset (length t - offset))).

(** The characters of trailing punctuation are not part of a URL; a marker is. *)
Fixpoint trailing_punctuation (fuel : nat) (url : text) : nat :=
  match fuel with
  | O => length url
  | S fuel' =>
      match last url with
      | Some c =>
          if negb (ends REDACTED_SECRET url) && among ".,;!)]}" c
          then trailing_punctuation fuel' (take (length url - 1) url) else length url
      | None => O
      end
  end.
Definition split_url_trailing_punctuation (url : text) : text * text :=
  let e := trailing_punctuation (length url) url in (take e url, drop e url).

Definition decoded_authority_has_structural_delimiter (authority : text) : bool :=
  existsb (λ c, among "/\?#@" c || control c || whitespace c) authority.

Definition is_port (port : text) : bool := negb (text_eqb port []) && forallb ascii_digit port.

Definition valid_url_authority (authority : text) : bool :=
  if text_eqb authority [] || existsb ascii_space authority then false
  else if starts (lit "[") authority then
    match position (N.eqb (ch "]")) authority with
    | None => false
    | Some closing =>
        let suffix := drop (S closing) authority in
        Nat.ltb 1 closing
        && (text_eqb suffix [] || match strip (lit ":") suffix with Some port => is_port port | None => false end)
    end
  else if existsb (among "[]") authority then false
  else match split_once (lit ":") authority with
       | None => true
       | Some (host, port) =>
           negb (text_eqb host []) && negb (existsb (N.eqb (ch ":")) port) && is_port port
       end.

Definition sensitive_query_name (name : text) : bool :=
  let normalized := compact (percent_decode_bounded name) in
  text_in normalized
    (map lit ["apikey"; "accesstoken"; "accesskey"; "authorization"; "auth"; "bearer"; "clientsecret";
              "credential"; "credentials"; "key"; "password"; "passwd"; "privatekey"; "refreshtoken";
              "secret"; "sig"; "signature"; "token"; "xamzsignature"])
  || existsb (λ suffix, ends suffix normalized)
       (map lit ["apikey"; "accesstoken"; "accesskey"; "clientsecret"; "credential"; "password";
                 "secret"; "token"]).

Definition path_component_replacement (value replacement : text) : text :=
  if starts (lit "/") value then lit "/" ++ replacement else replacement.

(** ** Encoded data, flags, bounds *)

Definition looks_encoded (token : text) : bool :=
  Nat.leb 2 (length (filter (λ c, ascii_digit c = true) token)) || existsb (among "+/=") token
  || negb (existsb ascii_upper token && existsb ascii_lower token).

Definition is_flag_like (path : text) : bool :=
  match strip (lit "/") path with
  | None => false
  | Some w => negb (text_eqb w []) && (str_len w <=? 16)
              && forallb (λ c, ascii_alphanumeric c || among "-_" c) w
  end.

(** The first separator that a slash follows. *)
Fixpoint absolute_path_after (t : text) : option nat :=
  match t with
  | a :: (b :: _) as t' =>
      if among ";,|`([{" a && N.eqb b (ch "/") then Some 1%nat
      else option_map S (absolute_path_after t')
  | _ => None
  end.
Definition split_url_before_absolute_path (url : text) : text * text :=
  match absolute_path_after url with Some i => (take i url, drop i url) | None => (url, []) end.

Definition path_marker (context : SanitizationContext) : text :=
  if decide (context = Diagnostic) then DIAGNOSTIC_PATH else SENSITIVE_PATH.

Definition max_output_bytes (context : SanitizationContext) : Z :=
  match context with
  | Diagnostic => MAX_DIAGNOSTIC_BYTES
  | Path => MAX_PATH_BYTES
  | Evidence | Url | CommandResult | Summary | Metadata => MAX_REDACTED_EVIDENCE_BYTES
  end.

(** The number of characters that end within the first [n] bytes. *)
Fixpoint char_floor (n : Z) (t : text) : nat :=
  match t with
  | [] => O
  | c :: t' => if utf8_len c <=? n then S (char_floor (n - utf8_len c) t') else O
  end.

Definition truncate_utf8_bytes (t : text) (maximum : Z) (suffix : text) : text :=
  if str_len t <=? maximum then t
  else if maximum <=? str_len suffix then []
  else take (char_floor (maximum - str_len suffix) t) t ++ suffix.

Record FragmentScanner := {
  fs_quote : option char;
  fs_escaped : bool;
}.
Definition scanner_default : FragmentScanner := {| fs_quote := None; fs_escaped := false |}.

(** [step]: the next state, and whether the character is a boundary. *)
Definition scanner_step (s : FragmentScanner) (c : char) : FragmentScanner * bool :=
  match fs_quote s with
  | Some active_quote =>
      (if fs_escaped s then {| fs_quote := fs_quote s; fs_escaped := false |}
       else if N.eqb c (ch "\") then {| fs_quote := fs_quote s; fs_escaped := true |}
       else if N.eqb c active_quote then {| fs_quote := None; fs_escaped := fs_escaped s |}
       else s, false)
  | None =>
      if is_quote c then ({| fs_quote := Some c; fs_escaped := fs_escaped s |}, false)
      else (s, whitespace c)
  end.

Fixpoint fragment_start_loop (s : FragmentScanner) (offset start : nat) (t : text) : nat :=
  match t with
  | [] => start
  | c :: t' =>
      let '(s', boundary) := scanner_step s c in
      fragment_start_loop s' (S offset) (if boundary then S offset else start) t'
  end.

Definition truncated_fragment_start (t : text) : option nat :=
  match last t with
  | None => None
  | Some c => if whitespace c then None else Some (fragment_start_loop scanner_default 0 0 t)
  end.

Definition neutralize_truncated_tail (bounded : text) : text :=
  match truncated_fragment_start bounded with
  | None => bounded
  | Some fragment_start =>
      let prefix_limit := saturating_sub MAX_INPUT_BYTES (str_len TRUNCATED_TAIL_MARKER) in
      truncate_utf8_bytes (take fragment_start bounded) prefix_limit [] ++ TRUNCATED_TAIL_MARKER
  end.

(** ** Searches *)

Section searches.
Context `{Regexes}.

Definition url_ranges (t : text) : list (nat * nat) :=
  map (λ m, (m_start m, m_end m)) (find_iter URL_RE t).

Definition contains_high_confidence_credential_marker (t : text) : bool :=
  is_match HIGH_CONFIDENCE_GH_TOKEN_RE t || is_match HIGH_CONFIDENCE_SK_KEY_RE t
  || is_match HIGH_CONFIDENCE_AKIA_RE t || is_match HIGH_CONFIDENCE_XOX_RE t
  || is_match HIGH_CONFIDENCE_JWT_RE t || is_match HIGH_CONFIDENCE_PRIVATE_KEY_RE t.

Fixpoint contains_secret_assignment (t : text) : bool :=
  match t with
  | [] => false
  | _ :: t' => is_some (scan_secret_assignment t true) || contains_secret_assignment t'
  end.

Definition url_has_userinfo (url : text) : bool :=
  match url_prefix_and_authority url with
  | None => false
  | Some (_, rest) =>
      match rsplit_once_char (ch "@") (take (position_or_end (among "/?#") rest) rest) with
      | Some (userinfo, _) => negb (text_eqb userinfo [])
      | None => false
      end
  end.
Definition contains_url_userinfo (t : text) : bool :=
  existsb (λ m, url_has_userinfo (matched t m)) (find_iter URL_RE t).

Definition contains_credential_material (t : text) : bool :=
  contains_high_confidence_credential_marker t
  || is_match CREDENTIAL_GH_TOKEN_RE t || is_match CREDENTIAL_SK_KEY_RE t || is_match CREDENTIAL_AKIA_RE t
  || is_match CREDENTIAL_XOX_RE t || is_match CREDENTIAL_JWT_RE t || is_match CREDENTIAL_BEARER_RE t
  || is_match ENCODED_BLOB_RE t || contains_secret_assignment t || contains_url_userinfo t.

(** A pass over the text between URLs; [on_url] is what is written for a URL. *)
Fixpoint weave (t : text) (pos : nat) (f on_url : text → text) (ms : list Match) : text :=
  match ms with
  | [] => f (drop pos t)
  | m :: ms' => f (slice t pos (m_start m)) ++ on_url (matched t m) ++ weave t (m_end m) f on_url ms'
  end.
Definition outside_urls (f on_url : text → text) (t : text) : text := weave t 0 f on_url (find_iter URL_RE t).

Definition label_is_assignment_key (suffix : text) : bool :=
  let suffix := drop_while whitespace suffix in
  let suffix := match suffix with c :: rest => if is_quote c then rest else suffix | [] => [] end in
  let suffix := drop_while whitespace suffix in
  is_char "=" (head suffix) || is_char ":" (head suffix).

Definition redact_sensitive_labels_outside_urls (t : text) : text :=
  replace_all SENSITIVE_LABEL_RE
    (λ m, if label_is_assignment_key (drop (m_end m) t) then matched t m else REDACTED_SECRET) t.
Definition redact_sensitive_labels : text → text := outside_urls redact_sensitive_labels_outside_urls id.

Definition redact_paths_outside_urls (t marker : text) : text :=
  let t := replace_all WINDOWS_OR_UNC_PATH_RE (λ _, marker) t in
  let t := replace_all POSIX_PRIVATE_PATH_RE (λ m,
             let whole := matched t m in
             let prefix := group_text t m in
             if is_flag_like (drop (length prefix) whole) then whole else prefix ++ marker) t in
  let t := replace_all DOT_ENV_PATH_RE (λ m, marker ++ group_text t m) t in
  replace_all CREDENTIAL_PATH_RE (λ _, marker) t.

Definition redact_paths (t marker : text) : text :=
  outside_urls (λ s, redact_paths_outside_urls s marker)
    (λ url, let '(url_text, path_text) := split_url_before_absolute_path url in
            url_text ++ redact_paths_outside_urls path_text marker) t.

Definition mask_encoded_blobs (t : text) : text :=
  replace_all ENCODED_BLOB_RE
    (λ m, if looks_encoded (matched t m) then lit "[encoded-blob]" else matched t m) t.
Definition redact_encoded_blobs_outside_urls : text → text := outside_urls mask_encoded_blobs id.

End searches.

(** ** Charged passes *)

Section charged.
Context `{Regexes} {St E : Type} (charge : Z → Eff St E unit).
Notation M := (Eff St E).

(** One unit for each of [n] bytes. *)
Fixpoint charge_each (n : nat) : M unit :=
  match n with O => eret tt | S n' => do! charge 1 in charge_each n' end.

(** The bytes of a quoted key, up to a line end or the closing quote. *)
Fixpoint reserve_quoted (quote : char) (whole : text) (index : nat) (previous : option char) (t : text)
    : M unit :=
  match t with
  | [] => charge (saturating_mul (str_len whole) 16)
  | c :: t' =>
      let at_byte := str_len (take index whole) in
      if newline c then do! charge 1 in charge (saturating_mul at_byte 16)
      else if N.eqb c quote && (Nat.eqb index 1 || negb (is_char "\" previous)) then
        do! charge 1 in
        do! charge (saturating_mul at_byte 16) in
        if is_secret_key (slice whole 1 index) then charge (saturating_mul (str_len whole) 16) else eret tt
      else
        do! charge_each (Z.to_nat (utf8_len c)) in
        reserve_quoted quote whole (index + 1) (Some c) t'
  end.

Fixpoint reserve_key (t : text) : M nat :=
  match t with
  | [] => eret O
  | c :: t' =>
      do! charge 1 in
      if key_char c then let! n := reserve_key t' in eret (S n) else eret O
  end.

Definition reserve_assignment_scan (t : text) : M unit :=
  match t with
  | c :: t' =>
      if is_quote c then reserve_quoted c t 1 (Some c) t'
      else
        let! e := reserve_key t in
        do! charge (saturating_mul (Z.of_nat e) 16) in
        if negb (Nat.eqb e 0) && is_secret_key (take e t) then charge (saturating_mul (str_len t) 16)
        else eret tt
  | [] => do! charge 0 in eret tt
  end.

Fixpoint literal_loop (fuel : nat) (allow_flags : bool) (t : text) : M text :=
  match fuel, t with
  | S fuel', c :: t' =>
      do! reserve_assignment_scan t in
      match scan_secret_assignment t allow_flags with
      | Some a =>
          let '(_, replacement) := redact_assignment_value t (sa_value_start a) (sa_authorization a) in
          let! rest := literal_loop fuel' allow_flags (drop (sa_end a) t) in
          eret (replacement ++ rest)
      | None => let! rest := literal_loop fuel' allow_flags t' in eret (c :: rest)
      end
  | _, _ => eret []
  end.
Definition redact_literal_assignments (t : text) (allow_flags : bool) : M text :=
  literal_loop (length t) allow_flags t.

Fixpoint classified_loop (fuel : nat) (allow_flags : bool) (t : text) (d : DecodedAssignmentSyntax)
    (offset source_pos : nat) : M text :=
  match fuel with
  | O => eret (drop source_pos t)
  | S fuel' =>
      let suffix := drop offset (das_text d) in
      match suffix with
      | [] => eret (drop source_pos t)
      | _ :: _ =>
          do! reserve_assignment_scan suffix in
          match scan_secret_assignment suffix allow_flags with
          | Some a =>
              let assignment_start := source_offset d offset in
              let assignment_end := source_offset d (offset + sa_end a) in
              let! rest := classified_loop fuel' allow_flags t d (offset + sa_end a) assignment_end in
              eret (slice t source_pos assignment_start ++ redact_classified_assignment t d offset a ++ rest)
          | None => classified_loop fuel' allow_flags t d (offset + 1) source_pos
          end
      end
  end.

Definition redact_assignments_outside_urls (allow_flags : bool) (t : text) : M text :=
  match decode_assignment_syntax t with
  | None => redact_literal_assignments t allow_flags
  | Some d => classified_loop (length (das_text d)) allow_flags t d 0 0
  end.

(** The charged [weave]: both passes may fail. *)
Fixpoint eweave (t : text) (pos : nat) (f on_url : text → M text) (ms : list Match) : M text :=
  match ms with
  | [] => f (drop pos t)
  | m :: ms' =>
      let! before := f (slice t pos (m_start m)) in
      let! url := on_url (matched t m) in
      let! rest := eweave t (m_end m) f on_url ms' in
      eret (before ++ url ++ rest)
  end.

Definition redact_assignments (t : text) (allow_flags : bool) : M text :=
  do! charge (str_len t) in
  do! charge (saturating_mul (str_len t) 16) in
  eweave t 0 (redact_assignments_outside_urls allow_flags) eret (find_iter URL_RE t).

(** *** URLs *)

(** Decoded for inspection only: a candidate that decodes to a URL is decoded no
    further than its scheme. *)
Fixpoint inspect_loop (fuel : nat) (value : text) (literal_urls : list (nat * nat)) (offset : nat) : text :=
  match fuel with
  | O => percent_decode_bounded (drop offset value)
  | S fuel' =>
      match find_encoded_url_candidate value offset literal_urls with
      | Some (start, e, candidate) =>
          percent_decode_bounded (slice value offset start) ++ candidate
            ++ inspect_loop fuel' value literal_urls e
      | None => percent_decode_bounded (drop offset value)
      end
  end.

Definition encoded_reservation (t : text) : Z :=
  if has_percent_escape t then saturating_mul (saturating_mul (str_len t) (Z.max (str_len t) 1)) 4
  else saturating_mul (str_len t) 4.

Definition decode_url_component_for_inspection (value : text) : M text :=
  do! charge (str_len value) in
  do! charge (encoded_reservation value) in
  eret (inspect_loop (length value) value (url_ranges value) 0).

Definition is_sensitive_url_path (value : text) (file_url : bool) : M bool :=
  do! charge (saturating_mul (str_len value) 4) in
  if text_eqb value [] then eret false
  else if file_url then eret true
  else
    let! decoded := decode_url_component_for_inspection value in
    do! charge (saturating_mul (str_len decoded) 8) in
    if is_match CREDENTIAL_PATH_RE decoded || is_match DOT_ENV_PATH_RE decoded then eret true
    else
      let normalized := lowercase (replace_text (lit "\") (lit "/") decoded) in
      eret (existsb (λ p, starts p normalized)
              (map lit ["/home/"; "/root/"; "/users/"; "/private/"; "/tmp/"; "/var/lib/"; "/var/log/"; "/var/run/"])
            || match normalized with
               | a :: b :: rest => N.eqb a (ch "/") && ascii_alphabetic b && starts (lit ":/users/") rest
               | _ => false
               end
            || starts (lit "//") normalized && has_text (lit "/users/") normalized
            || has_text (lit "/.ssh/") normalized || has_text (lit "/.aws/") normalized).

(** What follows is one level of nesting: [nested] redacts the URLs inside a component. *)
Section level.
Context (nested : text → M text) (depth : nat).

Definition redact_url_component (value : text) : M text :=
  let! decoded := decode_url_component_for_inspection value in
  do! charge (saturating_mul (str_len decoded) 16) in
  if contains_credential_material decoded then eret REDACTED_SECRET
  else if Nat.leb MAX_NESTED_URL_DEPTH depth && is_match URL_RE decoded then eret (lit "[nested-url]")
  else
    let! inspected := nested decoded in
    let! inspected := redact_assignments inspected true in
    do! charge (saturating_mul (str_len inspected) 16) in
    let inspected := redact_paths_outside_urls inspected SENSITIVE_PATH in
    eret (if text_eqb inspected decoded then value
          else if existsb (among "&;?#") inspected then REDACTED_SECRET
          else inspected).

Definition redact_url_path (value : text) (sensitive_path : bool) : M text :=
  do! charge (str_len value) in
  if sensitive_path then eret (path_component_replacement value SENSITIVE_PATH)
  else
    let! decoded := decode_url_component_for_inspection value in
    do! charge (saturating_mul (str_len decoded) 16) in
    if contains_credential_material decoded then eret (path_component_replacement value REDACTED_SECRET)
    else if Nat.leb MAX_NESTED_URL_DEPTH depth && is_match URL_RE decoded
    then eret (path_component_replacement value (lit "[nested-url]"))
    else
      let! inspected := nested decoded in
      let! inspected := redact_assignments inspected true in
      do! charge (str_len inspected) in
      eret (if text_eqb inspected decoded then value
            else if existsb (among "?#") inspected then path_component_replacement value REDACTED_SECRET
            else inspected).

Definition redact_query_segment (segment : text) : M text :=
  let '(body, separator) :=
    match strip_end (lit "&") segment with
    | Some body => (body, lit "&")
    | None => match strip_end (lit ";") segment with
              | Some body => (body, lit ";")
              | None => (segment, [])
              end
    end in
  match split_once (lit "=") body with
  | None => eret segment
  | Some (name, value) =>
      if sensitive_query_name name then eret (name ++ lit "=" ++ REDACTED_SECRET ++ separator)
      else let! value := redact_url_component value in eret (name ++ lit "=" ++ value ++ separator)
  end.

Definition redact_query_values (query : text) : M text :=
  do! charge (saturating_mul (str_len query) 8) in
  let! segments := ecollect redact_query_segment (split_inclusive (among "&;") query) in
  eret (concat segments).

Definition split_option (sep : string) (t : text) : text * option text :=
  match split_once (lit sep) t with Some (a, b) => (a, Some b) | None => (t, None) end.

Definition sanitize_url (url : text) : M text :=
  do! charge (saturating_mul (str_len url) 64) in
  match url_prefix_and_authority url with
  | None => eret url
  | Some (prefix, rest) =>
      let file_url := text_eqb (lowercase prefix) (lit "file://") in
      let authority_end := position_or_end (among "/?#") rest in
      let suffix := drop authority_end rest in
      let authority := match rsplit_once_char (ch "@") (take authority_end rest) with
                       | Some (_, authority) => authority | None => take authority_end rest end in
      let decoded_authority := percent_decode_bounded authority in
      if decoded_authority_has_structural_delimiter decoded_authority
         || negb (valid_url_authority decoded_authority || file_url && text_eqb authority [])
      then eret REDACTED_URL
      else
        let shown := if contains_credential_material decoded_authority then REDACTED_SECRET else authority in
        let '(before_fragment, fragment) := split_option "#" suffix in
        let '(path, query) := split_option "?" before_fragment in
        let! sensitive_path := is_sensitive_url_path path file_url in
        let! sanitized_path := redact_url_path path sensitive_path in
        let! sanitized_query :=
          match query with
          | Some query => let! q := redact_query_values query in eret (lit "?" ++ q)
          | None => eret []
          end in
        let! sanitized_fragment :=
          match fragment with
          | Some fragment => let! f := redact_url_component fragment in eret (lit "#" ++ f)
          | None => eret []
          end in
        eret (prefix ++ (if file_url && sensitive_path then [] else shown)
                ++ sanitized_path ++ sanitized_query ++ sanitized_fragment)
  end.

End level.

(** [sanitize_url_at_depth] and [redact_urls_at_depth].  At depth 2 a component with a
    URL is replaced, so at depth 3 there is none left to sanitize: [levels] is the number
    of depths below. *)
Definition sanitize_with_punctuation (sanitize : text → M text) (url : text) : M text :=
  let '(url, trailing) := split_url_trailing_punctuation url in
  let! sanitized := sanitize url in
  eret (sanitized ++ trailing).

Fixpoint redact_urls (levels depth : nat) (t : text) : M text :=
  do! charge (str_len t) in
  eweave t 0 eret
    (sanitize_with_punctuation
       match levels with
       | O => eret
       | S levels' => sanitize_url (redact_urls levels' (S depth)) depth
       end) (find_iter URL_RE t).

Definition MAX_LEVELS : nat := S MAX_NESTED_URL_DEPTH.
Definition redact_urls_at_depth (depth : nat) (t : text) : M text := redact_urls (MAX_LEVELS - depth) depth t.
Definition sanitize_url_at_depth (depth : nat) (url : text) : M text :=
  sanitize_url (redact_urls_at_depth (S depth)) depth url.

Fixpoint encoded_candidates_loop (fuel : nat) (t : text) (literal_urls : list (nat * nat)) (offset : nat)
    : M text :=
  match fuel with
  | O => eret (drop offset t)
  | S fuel' =>
      match find_encoded_url_candidate t offset literal_urls with
      | Some (start, e, decoded) =>
          let! url := sanitize_with_punctuation (sanitize_url_at_depth 0) decoded in
          let! rest := encoded_candidates_loop fuel' t literal_urls e in
          eret (slice t offset start ++ url ++ rest)
      | None => eret (drop offset t)
      end
  end.

Definition redact_encoded_url_candidates (t : text) : M text :=
  if negb (has_percent_escape t) then eret t
  else encoded_candidates_loop (length t) t (url_ranges t) 0.

(** ** The sanitizer *)

Definition pass (r : re) (marker : string) (t : text) : M text :=
  do! charge (str_len t) in eret (replace_all r (λ _, lit marker) t).

Definition redact_bounded (context : SanitizationContext) (t : text) : M text :=
  do! charge (str_len t) in
  do! charge (encoded_reservation t) in
  let! t := redact_encoded_url_candidates t in
  let! t := redact_urls_at_depth 0 t in
  let! t := pass PRIVATE_KEY_BLOCK_RE "[redacted-secret]" t in
  let! t := redact_assignments t true in
  do! charge (str_len t) in
  let t := replace_text (lit "https://darkroastcyber.io/mcp-lab") (lit "https://darkroastcyber.io/[redacted]") t in
  do! charge (str_len t) in
  let t := replace_text (lit "darkroastcyber.io") (lit "[controlled-domain]") t in
  do! charge (saturating_mul (str_len t) 4) in
  let t := redact_sensitive_labels t in
  let! t := pass PACKAGE_MANAGER_RE "[package-manager-command]" t in
  let! t := pass STARTUP_TARGET_RE "[startup-target]" t in
  let! t := pass ENCODED_DECODER_RE "[encoded-decoder]" t in
  do! charge (saturating_mul (str_len t) 16) in
  let t := redact_paths t (path_marker context) in
  let! t := (if decide (context = Diagnostic)
             then do! charge (str_len t) in eret (replace_text SENSITIVE_PATH DIAGNOSTIC_PATH t)
             else eret t) in
  let! t := pass PRIVATE_KEY_PHRASE_RE "[redacted-secret]" t in
  let! t := pass CREDENTIAL_GH_TOKEN_RE "[redacted-secret]" t in
  let! t := pass CREDENTIAL_SK_KEY_RE "[redacted-secret]" t in
  let! t := pass CREDENTIAL_AKIA_RE "[redacted-secret]" t in
  let! t := pass CREDENTIAL_XOX_RE "[redacted-secret]" t in
  let! t := pass CREDENTIAL_JWT_RE "[redacted-secret]" t in
  let! t := pass CREDENTIAL_BEARER_RE "[redacted-secret]" t in
  let! t := pass HIGH_CONFIDENCE_GH_TOKEN_RE "[redacted-secret]" t in
  let! t := pass HIGH_CONFIDENCE_SK_KEY_RE "[redacted-secret]" t in
  let! t := pass HIGH_CONFIDENCE_AKIA_RE "[redacted-secret]" t in
  let! t := pass HIGH_CONFIDENCE_XOX_RE "[redacted-secret]" t in
  let! t := pass HIGH_CONFIDENCE_JWT_RE "[redacted-secret]" t in
  let! t := pass HIGH_CONFIDENCE_PRIVATE_KEY_RE "[redacted-secret]" t in
  do! charge (saturating_mul (str_len t) 4) in
  eret (redact_encoded_blobs_outside_urls t).

Definition try_sanitize (context : SanitizationContext) (t : text) : M text :=
  do! charge (Z.min (str_len t) MAX_INPUT_BYTES) in
  let bounded := truncate_utf8_bytes t MAX_INPUT_BYTES [] in
  do! charge (str_len bounded) in
  let redacted := if MAX_INPUT_BYTES <? str_len t then neutralize_truncated_tail bounded else bounded in
  let! redacted := redact_bounded context redacted in
  do! charge (str_len redacted) in
  let normalized := if decide (context = CommandResult) then redacted
                    else join_text (lit " ") (take MAX_EVIDENCE_TOKENS (split_whitespace redacted)) in
  do! charge (str_len normalized) in
  eret (truncate_utf8_bytes normalized (max_output_bytes context) TRUNCATED_SUFFIX).

End charged.

(** [PrivacySanitizer::sanitize], with the charge that never fails. *)
Definition value_of {A} (c : Eff unit Empty_set A) : A :=
  match (c tt).2 with Ok a => a | Err e => match e with end end.

Section sanitize.
Context `{Regexes}.

Definition sanitize (context : SanitizationContext) (t : text) : text :=
  value_of (try_sanitize free_charge context t).
Definition redact_sensitive_text (t : text) : text := sanitize Evidence t.
Definition redact_error_message (t : text) : text := sanitize Diagnostic t.

End sanitize.
