(* ===== verification/RedactionRun.v ===== *)
(** * Running the sanitizer

    The budgeted sanitizer of a source, [try_sanitize], and the plain one, [sanitize]:
    charging never changes a value.  Then the assignments: what follows a secret key is
    masked, and the result does not depend on it. *)

From S2P Require Import Prelude Ordered Rstr Unicode Regex RegexRef RedactPatterns Redaction.
From Stdlib Require Import Ascii.

Local Open Scope nat_scope.

(** ** Charges *)

Section agree.
Context {St E : Type} (charge : Z → Eff St E unit).

(** The charged computation computes the value of the free one, and can be afforded when the
    charges can. *)
Definition agrees {A} (c : Eff St E A) (d : Eff unit Empty_set A) : Prop :=
  computes c (infallible charge) (value_of d) ∧
  ∀ left exhausted, (∀ n, affordable left exhausted (charge n) tt) → affordable left exhausted c (value_of d).

Lemma value_of_bind {A B} (d : Eff unit Empty_set A) (k : A → Eff unit Empty_set B) :
  value_of (ebind d k) = value_of (k (value_of d)).
Proof. unfold value_of, ebind. destruct (d tt) as [[] [a|[]]]. done. Qed.

Lemma agrees_ret {A} (a : A) : agrees (eret a) (eret a).
Proof. split; [by apply computes_ret|]. intros left exhausted _. apply affordable_ret. Qed.

Lemma agrees_charge n : agrees (charge n) (free_charge n).
Proof.
  split; [split; [by intros s s' []|]|].
  - intros Hf s. destruct (Hf n s) as [s' Hs]. by exists s', tt.
  - intros left exhausted Hc. apply Hc.
Qed.

Lemma agrees_bind {A B} (c : Eff St E A) d (k : A → Eff St E B) k' :
  agrees c d → (∀ a, agrees (k a) (k' a)) → agrees (ebind c k) (ebind d k').
Proof.
  intros [Hc Ha] Hk. unfold agrees in *. rewrite value_of_bind. split; [eapply computes_bind; [done|apply Hk]|].
  intros left exhausted Hch. eapply affordable_bind; [by apply Ha|by apply Hk].
Qed.

Lemma agrees_collect {A B} (f : A → Eff St E B) f' l : (∀ a, agrees (f a) (f' a)) →
  agrees (ecollect f l) (ecollect f' l).
Proof.
  intros Hf. induction l as [|a l IH]; cbn; [apply agrees_ret|].
  apply agrees_bind; [done|]. intros b. apply agrees_bind; [done|]. intros bs. apply agrees_ret.
Qed.

End agree.

Create HintDb agree.
#[export] Hint Resolve agrees_ret agrees_charge agrees_collect : agree.

(** Both computations have the same shape. *)
Ltac agree_step :=
  match goal with
  | |- agrees _ (ebind _ _) (ebind _ _) => apply agrees_bind; [|intros ?]
  | |- agrees _ (eret _) (eret _) => apply agrees_ret
  | |- agrees _ (match ?x with _ => _ end) (match ?x with _ => _ end) => destruct x
  | |- agrees _ (if ?x then _ else _) (if ?x then _ else _) => destruct x
  | |- agrees _ (let '(_, _) := ?x in _) _ => destruct x
  end.
Ltac agree := repeat (agree_step || solve [auto with agree]).

Section agreement.
Context `{Regexes} {St E : Type} (charge : Z → Eff St E unit).

Lemma charge_each_agrees n : agrees charge (charge_each charge n) (charge_each free_charge n).
Proof. induction n; cbn; agree. Qed.
Hint Resolve charge_each_agrees : agree.

Lemma reserve_quoted_agrees quote whole i p t :
  agrees charge (reserve_quoted charge quote whole i p t) (reserve_quoted free_charge quote whole i p t).
Proof. revert i p; induction t; intros i p; cbn; agree. Qed.
Hint Resolve reserve_quoted_agrees : agree.

Lemma reserve_key_agrees t : agrees charge (reserve_key charge t) (reserve_key free_charge t).
Proof. induction t; cbn; agree. Qed.
Hint Resolve reserve_key_agrees : agree.

Lemma reserve_assignment_scan_agrees t :
  agrees charge (reserve_assignment_scan charge t) (reserve_assignment_scan free_charge t).
Proof. unfold reserve_assignment_scan. agree. Qed.
Hint Resolve reserve_assignment_scan_agrees : agree.

Lemma literal_loop_agrees fuel f t : agrees charge (literal_loop charge fuel f t) (literal_loop free_charge fuel f t).
Proof. revert t; induction fuel; intros t; cbn; agree. Qed.

Lemma classified_loop_agrees fuel f t d o p :
  agrees charge (classified_loop charge fuel f t d o p) (classified_loop free_charge fuel f t d o p).
Proof. revert o p; induction fuel; intros o p; cbn; agree. Qed.
Hint Resolve literal_loop_agrees classified_loop_agrees : agree.

Lemma eweave_agrees t i f f' g g' ms : (∀ s, agrees charge (f s) (f' s)) → (∀ s, agrees charge (g s) (g' s)) →
  agrees charge (eweave t i f g ms) (eweave t i f' g' ms).
Proof. intros Hf Hg. revert i; induction ms; intros i; cbn; agree. Qed.
Hint Resolve eweave_agrees : agree.

Lemma redact_assignments_agrees t f :
  agrees charge (redact_assignments charge t f) (redact_assignments free_charge t f).
Proof.
  unfold redact_assignments. agree. apply eweave_agrees; intros s; [|agree].
  unfold redact_assignments_outside_urls, redact_literal_assignments. agree.
Qed.
Hint Resolve redact_assignments_agrees : agree.

Lemma inspection_agrees t :
  agrees charge (decode_url_component_for_inspection charge t) (decode_url_component_for_inspection free_charge t).
Proof. unfold decode_url_component_for_inspection. agree. Qed.
Hint Resolve inspection_agrees : agree.

Lemma is_sensitive_url_path_agrees t f :
  agrees charge (is_sensitive_url_path charge t f) (is_sensitive_url_path free_charge t f).
Proof. unfold is_sensitive_url_path. agree. Qed.
Hint Resolve is_sensitive_url_path_agrees : agree.

Lemma redact_url_component_agrees n n' d t : (∀ s, agrees charge (n s) (n' s)) →
  agrees charge (redact_url_component charge n d t) (redact_url_component free_charge n' d t).
Proof. intros Hn. unfold redact_url_component. agree. Qed.
Hint Resolve redact_url_component_agrees : agree.

Lemma redact_url_path_agrees n n' d t f : (∀ s, agrees charge (n s) (n' s)) →
  agrees charge (redact_url_path charge n d t f) (redact_url_path free_charge n' d t f).
Proof. intros Hn. unfold redact_url_path. agree. Qed.
Hint Resolve redact_url_path_agrees : agree.

Lemma redact_query_segment_agrees n n' d t : (∀ s, agrees charge (n s) (n' s)) →
  agrees charge (redact_query_segment charge n d t) (redact_query_segment free_charge n' d t).
Proof. intros Hn. unfold redact_query_segment. agree. Qed.
Hint Resolve redact_query_segment_agrees : agree.

Lemma sanitize_url_agrees n n' d t : (∀ s, agrees charge (n s) (n' s)) →
  agrees charge (sanitize_url charge n d t) (sanitize_url free_charge n' d t).
Proof. intros Hn. unfold sanitize_url, redact_query_values. agree. Qed.

Lemma redact_urls_agrees levels d t : agrees charge (redact_urls charge levels d t) (redact_urls free_charge levels d t).
Proof.
  revert d t; induction levels as [|levels IH]; intros d t; cbn; agree; apply eweave_agrees; intros s; agree;
    unfold sanitize_with_punctuation; agree. apply sanitize_url_agrees. auto.
Qed.
Hint Resolve redact_urls_agrees : agree.

Lemma encoded_candidates_agrees fuel t l o :
  agrees charge (encoded_candidates_loop charge fuel t l o) (encoded_candidates_loop free_charge fuel t l o).
Proof.
  revert o; induction fuel; intros o; cbn; agree. unfold sanitize_with_punctuation. agree.
  apply sanitize_url_agrees. intros s. apply redact_urls_agrees.
Qed.
Hint Resolve encoded_candidates_agrees : agree.

Lemma redact_bounded_agrees context t :
  agrees charge (redact_bounded charge context t) (redact_bounded free_charge context t).
Proof. unfold redact_bounded, redact_encoded_url_candidates, redact_urls_at_depth, pass. agree. Qed.
Hint Resolve redact_bounded_agrees : agree.

Lemma try_sanitize_agrees context t : agrees charge (try_sanitize charge context t) (try_sanitize free_charge context t).
Proof. unfold try_sanitize. agree. Qed.

(** The budgeted sanitizer computes the plain one.  Whatever the charge does, when
    [try_sanitize] returns a text it is the text [sanitize] returns, and when no charge
    fails it returns one: privacy does not depend on how much work is left. *)
Theorem try_sanitize_computes context t :
  computes (try_sanitize charge context t) (infallible charge) (sanitize context t).
Proof. apply (try_sanitize_agrees context t). Qed.

(** A budget with enough left affords the sanitizer. *)
Lemma try_sanitize_affordable left exhausted context t : (∀ n, affordable left exhausted (charge n) tt) →
  affordable left exhausted (try_sanitize charge context t) (sanitize context t).
Proof. apply (try_sanitize_agrees context t). Qed.

End agreement.

(** ** Nested URLs

    Computations that charge and return the same, from every state. *)

#[export] Instance eff_equiv {S E A} : Equiv (Eff S E A) := λ c d, ∀ s, c s = d s.

#[export] Instance eff_equivalence {S E A} : Equivalence (≡@{Eff S E A}).
Proof. split; [by intros c s|by intros c d Hc s|intros c d e Hc Hd s; by rewrite Hc]. Qed.

Lemma ebind_equiv {S E A B} (c d : Eff S E A) (k k' : A → Eff S E B) :
  c ≡ d → (∀ a, k a ≡ k' a) → ebind c k ≡ ebind d k'.
Proof. intros Hc Hk s. unfold ebind. rewrite Hc. destruct (d s) as [s' [a|e]]; [apply Hk|done]. Qed.

Lemma ecollect_equiv {S E A B} (f g : A → Eff S E B) l : (∀ a, f a ≡ g a) → ecollect f l ≡ ecollect g l.
Proof.
  intros Hf. induction l as [|a l IH]; cbn; [done|].
  apply ebind_equiv; [done|]. intros b. by apply ebind_equiv.
Qed.

Ltac same_step :=
  match goal with
  | |- ebind _ _ ≡ ebind _ _ => apply ebind_equiv; [|intros ?]
  | |- (match ?x with _ => _ end) ≡ (match ?x with _ => _ end) => destruct x eqn:?
  | |- ?c ≡ ?c => reflexivity
  end.
Ltac same := repeat same_step.

Section levels.
Context `{Regexes} {St E : Type} (charge : Z → Eff St E unit).

(** Only text without URLs goes below the last level. *)
Lemma sanitize_url_equiv (nested nested' : text → Eff St E text) depth url :
  (∀ t, Nat.leb MAX_NESTED_URL_DEPTH depth && is_match URL_RE t = false → nested t ≡ nested' t) →
  sanitize_url charge nested depth url ≡ sanitize_url charge nested' depth url.
Proof.
  intros Hn.
  assert (∀ v, redact_url_component charge nested depth v ≡ redact_url_component charge nested' depth v) as Hcomp.
  { intros v. unfold redact_url_component. same. by apply Hn. }
  unfold sanitize_url. same; [| |apply Hcomp..].
  - unfold redact_url_path. same. by apply Hn.
  - unfold redact_query_values. same. apply ecollect_equiv. intros segment.
    unfold redact_query_segment. same. apply Hcomp.
Qed.

Lemma redact_urls_none levels depth t : is_match URL_RE t = false →
  redact_urls charge levels depth t ≡ do! charge (str_len t) in eret t.
Proof. unfold is_match. destruct levels; cbn [redact_urls]; destruct (find_iter URL_RE t); intros [=]; reflexivity. Qed.
Lemma eweave_equiv t i (f f' g g' : text → Eff St E text) ms : (∀ s, f s ≡ f' s) → (∀ s, g s ≡ g' s) →
  eweave t i f g ms ≡ eweave t i f' g' ms.
Proof.
  intros Hf Hg. revert i; induction ms as [|m ms IH]; intros i; cbn; [apply Hf|].
  same; [apply Hf|apply Hg|apply IH].
Qed.

Lemma redact_urls_more levels k depth t : MAX_LEVELS ≤ levels + depth → 0 < levels →
  redact_urls charge (levels + k) depth t ≡ redact_urls charge levels depth t.
Proof.
  revert depth t; induction levels as [|levels IH]; intros depth t Hl Hp; [lia|]. cbn [Nat.add redact_urls].
  apply ebind_equiv; [done|]. intros _. apply eweave_equiv; [done|]. intros url.
  unfold sanitize_with_punctuation. destruct (split_url_trailing_punctuation url) as [u trailing].
  apply ebind_equiv; [|done]. destruct (decide (0 < levels)) as [Hlv|Hlv].
  - apply sanitize_url_equiv. intros s _. apply IH; lia.
  - assert (levels = 0) as -> by lia. unfold MAX_LEVELS in Hl. apply sanitize_url_equiv.
    assert (Nat.leb MAX_NESTED_URL_DEPTH depth = true) as -> by (apply Nat.leb_le; lia).
    intros s Hs. cbn [andb] in Hs. rewrite !redact_urls_none by done. done.
Qed.

(** C31: The nesting of URLs is cut at a fixed depth: giving the recursion of
    [redact_urls_at_depth] and [sanitize_url_at_depth] any number of levels beyond
    [MAX_NESTED_URL_DEPTH] changes neither the text, the charges nor the failure, because
    below that depth a component that still shows a URL is replaced as a whole. *)
Theorem nested_urls_bounded k depth t : depth ≤ MAX_NESTED_URL_DEPTH →
  redact_urls charge (MAX_LEVELS - depth + k) depth t ≡ redact_urls_at_depth charge depth t.
Proof. intros Hd. unfold redact_urls_at_depth. apply redact_urls_more; unfold MAX_LEVELS; lia. Qed.

End levels.

(** ** Assignments *)

Definition falls (p : char → bool) (t : text) : Prop := match t with c :: _ => p c = true | [] => True end.

Lemma position_or_end_app p x y : Forall (λ c, p c = false) x → falls p y → position_or_end p (x ++ y) = length x.
Proof.
  unfold position_or_end. intros Hx Hy. induction Hx as [|c x Hc _ IH]; cbn.
  - destruct y; cbn in *; [done|]. by rewrite Hy.
  - rewrite Hc. destruct (position p (x ++ y)); cbn in *; lia.
Qed.

Lemma position_or_end_bound p t : position_or_end p t ≤ length t.
Proof.
  unfold position_or_end. induction t as [|c t IH]; cbn; [done|]. destruct (p c); [lia|].
  destruct (position p t); cbn in *; lia.
Qed.

Lemma block_lines_end fuel t i n e : n ≤ i → n ≤ length t → block_lines fuel t i = (e.1, e.2) → n ≤ e.1.
Proof.
  revert i; induction fuel as [|fuel IH]; intros i Hi Hn; cbn; [intros [= <- _]; lia|].
  repeat case_match; try (intros [= <- _]; lia); apply IH; unfold line_end; lia.
Qed.

(** The end of an assignment is behind its key. *)
Lemma value_end_start t i auth : i ≤ length t → i ≤ (redact_assignment_value t i auth).1.
Proof.
  intros Hi. unfold redact_assignment_value, redact_block_assignment_value, authorization_value_end, escaped_value,
    find_escaped_quote, find_quote, line_end.
  repeat case_match; cbn; simplify_eq; try lia;
    repeat match goal with H : context [option_map _ ?o] |- _ => destruct o; cbn in H; simplify_eq end; cbn; try lia;
    match goal with H : block_lines _ _ _ = _ |- _ =>
      eapply (block_lines_end _ _ _ i (_, _)) in H; cbn in H; unfold line_end in *; lia end.
Qed.

Lemma scan_progress t f a : scan_secret_assignment t f = Some a → 0 < sa_end a.
Proof.
  unfold scan_secret_assignment. destruct (scan_key t) as [[[[ks ke] cursor] flag]|] eqn:Hk; [|done].
  destruct (text_eqb (slice t ks ke) [] || _) eqn:Hne; [done|].
  assert (0 < cursor) as Hc.
  { apply orb_false_iff in Hne as [Hne _]. unfold text_eqb in Hne. apply bool_decide_eq_false in Hne.
    unfold scan_key in Hk. destruct t as [|c t']; [done|]. destruct (is_quote c).
    - destruct (find_quote _ _ _); simplify_eq. lia.
    - simplify_eq. destruct (starts _ _); [lia|]. destruct (position_or_end _ _); [|lia]. by destruct Hne. }
  assert (∀ i, 0 < i → i ≤ length t → ∀ auth, 0 < (redact_assignment_value t i auth).1) as Hend.
  { intros i Hi Hl auth. pose proof (value_end_start t i auth Hl). lia. }
  assert (∀ i, i ≤ length t → skip_assignment_whitespace t i ≤ length t) as Hskip.
  { intros i Hi. unfold skip_assignment_whitespace. pose proof (position_or_end_bound (λ c, negb (whitespace c)) (drop i t)).
    rewrite length_drop in *. lia. }
  assert (∀ i, i ≤ skip_assignment_whitespace t i) as Hskip' by (unfold skip_assignment_whitespace; intros; lia).
  pose proof (Hskip' cursor). case_match eqn:Hsep.
  - intros [= <-]. cbn [sa_end]. apply Hend; [pose proof (Hskip' (S (skip_assignment_whitespace t cursor))); lia|].
    apply (Hskip (S _)). apply orb_true_iff in Hsep. unfold is_char in Hsep.
    destruct (t !! skip_assignment_whitespace t cursor) eqn:Hl; [|naive_solver]. by apply lookup_lt_Some in Hl.
  - case_match eqn:Hflag; [done|]. intros [= <-]. cbn. apply Hend; [lia|].
    rewrite !orb_false_iff, Nat.eqb_neq in Hflag. apply Hskip. destruct Hflag as [_ Hflag].
    unfold skip_assignment_whitespace in Hflag. destruct (decide (cursor ≤ length t)); [done|].
    rewrite drop_ge in Hflag by lia. cbn in Hflag. lia.
Qed.

(** The literal pass as a function. *)
Definition literal (allow_flags : bool) (t : text) : text :=
  value_of (redact_literal_assignments free_charge t allow_flags).

Lemma literal_loop_fuel f n m t : length t ≤ n → length t ≤ m →
  value_of (literal_loop free_charge n f t) = value_of (literal_loop free_charge m f t).
Proof.
  revert m t; induction n as [|n IH]; intros m t Hn Hm; [destruct t; [by destruct m|cbn in Hn; lia]|].
  destruct t as [|c t]; [by destruct m|]. destruct m as [|m]; [cbn in Hm; lia|].
  cbn [literal_loop]. rewrite !value_of_bind. destruct (scan_secret_assignment (c :: t) f) as [a|] eqn:Ha.
  - apply scan_progress in Ha. destruct (redact_assignment_value _ _ _) as [e r]. rewrite !value_of_bind.
    by rewrite (IH m) by (rewrite length_drop; cbn in *; lia).
  - rewrite !value_of_bind. by rewrite (IH m) by (cbn in *; lia).
Qed.

Lemma literal_some f t a : scan_secret_assignment t f = Some a →
  literal f t = (redact_assignment_value t (sa_value_start a) (sa_authorization a)).2 ++ literal f (drop (sa_end a) t).
Proof.
  intros Ha. unfold literal, redact_literal_assignments. destruct t as [|c t]; [done|].
  cbn [length literal_loop]. rewrite value_of_bind, Ha. apply scan_progress in Ha.
  destruct (redact_assignment_value _ _ _) as [e r]. rewrite value_of_bind. change (value_of (eret ?x)) with x. cbn [snd]. f_equal.
  apply literal_loop_fuel; rewrite length_drop; cbn; lia.
Qed.

(** A value as it stands behind a key, with what follows it and what is shown. *)
Inductive masks : bool → text → text → text → Prop :=
| masks_plain value rest :
    value ≠ [] → Forall (λ c, value_delimiter c = false) value → falls value_delimiter rest →
    existsb (λ c, is_char c (head value)) ["|"; ">"; "\"]%char = false →
    starts REDACTED_SECRET (value ++ rest) = false →
    masks false value rest REDACTED_SECRET
| masks_quoted q inner rest :
    is_quote q = true → Forall (λ c, newline c = false ∧ c ≠ q ∧ c ≠ ch "\") inner →
    masks false (q :: inner ++ [q]) rest (q :: REDACTED_SECRET ++ [q])
| masks_authorization value rest :
    value ≠ [] → Forall (λ c, newline c || N.eqb c (ch ";") = false) value →
    falls (λ c, newline c || N.eqb c (ch ";")) rest → falls (λ c, negb (whitespace c)) value →
    starts REDACTED_SECRET (value ++ rest) = false →
    masks true value rest REDACTED_SECRET.

Lemma find_quote_inner q inner rest p : is_quote q = true →
  Forall (λ c, newline c = false ∧ c ≠ q ∧ c ≠ ch "\") inner → is_char "\" p = false →
  find_quote_loop p (inner ++ q :: rest) q = Some (length inner).
Proof.
  intros Hq Hin. revert p; induction Hin as [|c inner (Hn & Hne & Hb) _ IH]; intros p Hp; cbn [app find_quote_loop].
  - assert (newline q = false) as ->.
    { unfold is_quote in Hq. apply orb_true_iff in Hq. rewrite !N.eqb_eq in Hq. by destruct Hq; subst. }
    by rewrite N.eqb_refl, Hp.
  - rewrite Hn. apply N.eqb_neq in Hne as ->. cbn [andb]. rewrite IH; [done|].
    cbn. by apply N.eqb_neq.
Qed.

Lemma quote_cases q : is_quote q = true → q = quote_char ∨ q = ch "'".
Proof. unfold is_quote. by rewrite orb_true_iff, !N.eqb_eq. Qed.

Lemma masks_value pre value rest shown auth : masks auth value rest shown →
  redact_assignment_value (pre ++ value ++ rest) (length pre) auth
  = (length pre + length value, pre ++ shown).
Proof.
  assert (∀ l : text, drop (length pre) (pre ++ l) = l) as Hdrop by (intros; apply drop_app_length).
  assert (∀ l : text, take (length pre) (pre ++ l) = pre) as Htake by (intros; by apply take_app_length').
  assert (∀ c l, (pre ++ c :: l) !! length pre = Some (c : char)) as Hlook.
  { intros c l. by apply list_lookup_middle. }
  intros Hm. unfold redact_assignment_value. rewrite Hdrop, Htake.
  destruct Hm as [value rest Hne Hin Hfall Hhead Hst|q inner rest Hq Hin|value rest Hne Hin Hfall _ Hst].
  - rewrite Hst, (position_or_end_app _ value rest) by done. destruct value as [|c value]; [done|]. cbn [app].
    unfold escaped_value. rewrite Hlook. cbn [existsb head] in Hhead. rewrite !orb_false_iff in Hhead.
    destruct Hhead as (-> & -> & Hb & _). cbn [orb]. inversion Hin as [|? ? Hd _]; subst.
    assert (is_quote c = false) as Hq.
    { destruct (is_quote c) eqn:Hq; [|done]. by apply quote_cases in Hq as [-> | ->]. }
    cbn [is_char] in Hb. rewrite Hq. by destruct (_ !! S _); rewrite ?Hb.
  - cbn [app]. rewrite <- app_assoc. cbn [app]. unfold escaped_value. rewrite Hlook.
    assert (starts REDACTED_SECRET (q :: inner ++ q :: rest) = false
            ∧ is_char "|" (Some q) || is_char ">" (Some q) = false ∧ N.eqb q (ch "\") = false) as (-> & -> & Hb).
    { by apply quote_cases in Hq as [-> | ->]. }
    assert (∀ k, drop (S (length pre) + k) (pre ++ q :: inner ++ q :: rest) = drop k (inner ++ q :: rest)) as Hd.
    { intros k. replace (S (length pre) + k) with (length pre + S k) by lia. by rewrite <- drop_drop, Hdrop. }
    pose proof (Hd 0) as Hd0. rewrite Nat.add_0_r, drop_0 in Hd0. unfold find_quote. rewrite Hd0.
    rewrite find_quote_inner by done. cbn [option_map].
    replace (slice _ (length pre) (S (length pre))) with [q]
      by (unfold slice; rewrite Hdrop; by replace (S (length pre) - length pre) with 1 by lia).
    replace (slice _ (S (length pre) + length inner) (S (S (length pre) + length inner))) with [q].
    2:{ unfold slice. replace (S (S (length pre) + length inner) - (S (length pre) + length inner)) with 1 by lia.
        by rewrite Hd, drop_app_length. }
    rewrite Hq. destruct (_ !! S _) as [b|]; cbn [andb]; rewrite ?Hb; cbn [andb]; f_equal; cbn;
      rewrite length_app; cbn; lia.
  - rewrite Hst. unfold authorization_value_end. by rewrite Hdrop, position_or_end_app.
Qed.

(** A key that needs no quotes, and what may stand between it and its value. *)
Definition bare_key (key : text) : Prop :=
  Forall (λ c, key_char c = true) key ∧ starts (lit "--") key = false ∧ is_secret_key key = true.

Inductive separates : text → Prop :=
| separates_with before d after :
    Forall (λ c, whitespace c = true) before → d = ch "=" ∨ d = ch ":" →
    Forall (λ c, whitespace c = true) after → separates (before ++ d :: after).

Lemma skip_blanks pre b rest : Forall (λ c, whitespace c = true) b → falls (λ c, negb (whitespace c)) rest →
  skip_assignment_whitespace (pre ++ b ++ rest) (length pre) = length pre + length b.
Proof.
  intros Hb Hr. unfold skip_assignment_whitespace. rewrite drop_app_length.
  rewrite position_or_end_app; [done| |done]. eapply Forall_impl; [exact Hb|]. cbn. by intros c ->.
Qed.

Lemma masks_head auth value rest shown : masks auth value rest shown →
  ∃ c v, value = c :: v ∧ whitespace c = false.
Proof.
  destruct 1 as [[|c v] rest Hne Hin|q inner rest Hq _|[|c v] rest Hne _ _ Hb]; try done.
  - exists c, v. split; [done|]. inversion Hin as [|? ? Hd _]; subst. unfold value_delimiter in Hd.
    rewrite !orb_false_iff in Hd. tauto.
  - exists q, (inner ++ [q]). split; [done|]. by apply quote_cases in Hq as [-> | ->].
  - exists c, v. split; [done|]. cbn in Hb. by destruct (whitespace c).
Qed.

Lemma scan_bare_key key rest : bare_key key → falls (λ c, negb (key_char c)) rest →
  scan_key (key ++ rest) = Some (0, length key, length key, false).
Proof.
  intros (Hk & Hf & Hs) Hr. destruct key as [|c key]; [done|]. cbn [app scan_key]. inversion Hk as [|? ? Hc Hk']; subst.
  assert (is_quote c = false) as ->.
  { destruct (is_quote c) eqn:Hq; [|done]. by apply quote_cases in Hq as [-> | ->]. }
  assert (starts (lit "--") (c :: key ++ rest) = false) as ->.
  { change (lit "--") with [45; 45]%N in *. unfold starts in *. cbn [strip] in Hf |- *.
    destruct (45 =? c)%N; [|done]. destruct key as [|d key]; cbn [app strip] in *; [|by destruct (45 =? d)%N].
    destruct rest as [|d rest]; [done|]. cbn [falls] in Hr. destruct (N.eqb_spec 45 d); [|done]. by subst. }
  change (c :: key ++ rest) with ((c :: key) ++ rest). rewrite drop_0, position_or_end_app; [done| |done].
  eapply Forall_impl; [exact Hk|]. cbn. by intros d ->.
Qed.

Lemma blank_not_key c : whitespace c = true → key_char c = false.
Proof.
  unfold whitespace, key_char, ascii_alphanumeric, ascii_alphabetic, ascii_lower, ascii_upper, ascii_digit, between, among.
  cbn. rewrite !orb_true_iff, !andb_true_iff, !N.leb_le, !N.eqb_eq. intros Hc.
  rewrite !orb_false_iff, !andb_false_iff, !N.leb_gt, !N.eqb_neq. lia.
Qed.

(** The scan finds the assignment and its value. *)
Lemma scan_assignment f key before d after value rest shown (pre := key ++ before ++ d :: after) :
  bare_key key → Forall (λ c, whitespace c = true) before → d = ch "=" ∨ d = ch ":" →
  Forall (λ c, whitespace c = true) after → masks (is_authorization_key key) value rest shown →
  scan_secret_assignment (pre ++ value ++ rest) f
  = Some {| sa_end := length pre + length value; sa_value_start := length pre;
            sa_authorization := is_authorization_key key |}.
Proof.
  intros Hkey Hb Hd Ha Hm. destruct (masks_head _ _ _ _ Hm) as (c & v & Hv & Hc).
  set (t := pre ++ value ++ rest).
  assert (t = key ++ before ++ d :: after ++ value ++ rest) as Ht
    by (unfold t, pre; rewrite <- !app_assoc; cbn; by rewrite <- ?app_assoc).
  assert (scan_key t = Some (0, length key, length key, false)) as Hscan.
  { rewrite Ht. apply scan_bare_key; [done|]. destruct before as [|b before]; cbn; [by destruct Hd as [-> | ->]|].
    inversion Hb as [|? ? Hb' _]; subst. by rewrite blank_not_key. }
  unfold scan_secret_assignment. rewrite Hscan.
  assert (slice t 0 (length key) = key) as ->
    by (unfold slice; rewrite Ht; by rewrite Nat.sub_0_r, drop_0, take_app_length).
  destruct Hkey as (_ & _ & Hs). rewrite Hs. assert (text_eqb key [] = false) as -> by (by destruct key).
  assert (skip_assignment_whitespace t (length key) = length key + length before) as ->.
  { rewrite Ht. apply skip_blanks; [done|]. by destruct Hd as [-> | ->]. }
  assert (t !! (length key + length before) = Some d) as ->.
  { rewrite Ht, app_assoc, <- length_app. by apply list_lookup_middle. }
  assert (is_char "=" (Some d) || is_char ":" (Some d) = true) as -> by (by destruct Hd as [-> | ->]).
  assert (skip_assignment_whitespace t (S (length key + length before)) = length pre) as ->.
  { replace (S (length key + length before)) with (length (key ++ before ++ [d])) by (rewrite !length_app; cbn; lia).
    replace t with ((key ++ before ++ [d]) ++ after ++ value ++ rest) by (rewrite Ht; by rewrite <- !app_assoc).
    rewrite skip_blanks; [unfold pre; rewrite !length_app; cbn; lia|done|]. subst value. cbn. by rewrite Hc. }
  cbn [orb negb]. unfold t. by rewrite (masks_value pre value rest shown).
Qed.

(** What is assigned to a secret key does not show.  For a secret key, any
    separator and any plain, quoted or authorization value, the literal pass writes the
    key and the separator, the marker where the value was, and goes on behind the value:
    nothing of what it writes depends on the value. *)
Theorem assigned_secret_masked f key sep value rest shown :
  bare_key key → separates sep → masks (is_authorization_key key) value rest shown →
  literal f (key ++ sep ++ value ++ rest) = key ++ sep ++ shown ++ literal f rest.
Proof.
  intros Hkey [before d after Hb Hd Ha] Hm.
  pose proof (scan_assignment f key before d after value rest shown Hkey Hb Hd Ha Hm) as Hscan.
  rewrite (app_assoc key). rewrite (literal_some f _ _ Hscan). cbn [sa_value_start sa_authorization sa_end].
  rewrite (masks_value _ value rest shown) by done. cbn [snd].
  rewrite <- drop_drop, drop_app_length, drop_app_length. by rewrite <- !app_assoc.
Qed.

Module Sample.
Import Reference.

(** A budget that is the state. *)
Definition tight (n : Z) : Eff Z unit unit :=
  λ left, if (n <=? left)%Z then ((left - n)%Z, Ok tt) else (left, Err tt).

Definition phrase : text := lit "password = hunter2, next".

Lemma assigned_secret_masked_witness :
  literal true phrase = lit "password = [redacted-secret], next"
  ∧ literal true (lit "api_key: 'a b' x") = lit "api_key: '[redacted-secret]' x".
Proof.
  split.
  - refine (eq_trans (assigned_secret_masked true (lit "password") (lit " = ") (lit "hunter2") (lit ", next")
      REDACTED_SECRET _ _ _) _); [|apply (separates_with (lit " ") _ (lit " ")); [|by left|]; repeat constructor| |vm_compute; reflexivity].
    + split_and!; [repeat constructor|reflexivity|vm_compute; reflexivity].
    + constructor; [done|repeat constructor|reflexivity..].
  - refine (eq_trans (assigned_secret_masked true (lit "api_key") (lit ": ") (lit "'a b'") (lit " x")
      (lit "'[redacted-secret]'") _ _ _) _); [|apply (separates_with [] _ (lit " ")); [|by right|]; repeat constructor| |vm_compute; reflexivity].
    + split_and!; [repeat constructor|reflexivity|vm_compute; reflexivity].
    + apply (masks_quoted (ch "'") (lit "a b")); [reflexivity|]. repeat constructor; done.
Defined.

Definition nested : text := lit "see https://a.io/?next=https://b.io/?next=https://c.io/?token=1 now".

Lemma nested_urls_bounded_witness :
  redact_urls tight 6 0 nested 1000000%Z = redact_urls_at_depth tight 0 nested 1000000%Z.
Proof. apply (nested_urls_bounded tight 3 0 nested). unfold MAX_NESTED_URL_DEPTH. lia. Defined.

End Sample.
