(* ===== verification/EventIdentifiers.v ===== *)
(** * Terminal identifiers

    crates/telltale-schema/src/event/identifier.rs, and the small recognizers of
    crates/telltale-schema/src/event/mod.rs: which values an event may show as they are,
    and the opaque markers that stand for the others. *)

From S2P Require Import Prelude Ordered Rstr Scoring Unicode Regex RedactPatterns Redaction.
From Stdlib Require Import Ascii.

Local Open Scope Z_scope.

(** The bytes of a text, and back. *)
Definition encode_str (t : text) : string := of_bytes (map ascii_of_N (utf8_encode t)).
Definition decode_str (s : string) : text := from_utf8_lossy (map N_of_ascii (bytes s)).

#[export] Instance ord_char : Ord N := N.compare.
#[export] Instance laws_char : OrdLaws N.
Proof.
  split; unfold cmp, ord_char.
  - intros x y. apply N.compare_eq_iff.
  - intros x y. apply N.compare_antisym.
  - intros x y z. rewrite !N.compare_lt_iff. lia.
Qed.

(** ** What the events use of other crates

    [evidence_hash] is SHA-256 in lower-case hexadecimal; [parse_event_timestamp] is the
    RFC 3339 parser of the time crate, which takes any one character between the date and
    the time; the UUIDs are those of the uuid crate. *)

Definition hex_lower (c : char) : bool := ascii_digit c || between 97 102 c.

Definition is_canonical_sha256_hex (value : text) : bool := (str_len value =? 64) && forallb hex_lower value.

Definition timestamp_chars : list char := lit "0123456789-:.+TtZz".
Definition uuid_chars : list char := lit "0123456789abcdef-".

Class EventServices : Type := {
  evidence_hash : text → text;
  parse_event_timestamp : text → option Z;
  uuid : Type;
  parse_uuid : text → option uuid;
  get_version_num : uuid → Z;
  uuid_text : uuid → text;
}.

Class EventServicesLaws `{EventServices} : Prop := {
  evidence_hash_hex t : is_canonical_sha256_hex (evidence_hash t) = true;
  timestamp_shape t : is_some (parse_event_timestamp t) = true →
    (length (filter (λ c, c ∉ timestamp_chars) t) ≤ 1)%nat;
  uuid_shape u : Forall (λ c, c ∈ uuid_chars) (uuid_text u);
}.

Definition lits (l : list string) (t : text) : bool := text_in t (map lit l).

(** The sanitizer, as risk accounting uses it. *)
Definition sanitizer_privacy `{Regexes} : Privacy := {|
  Scoring.contains_high_confidence_credential_marker s := contains_high_confidence_credential_marker (decode_str s);
  Scoring.contains_credential_material s := contains_credential_material (decode_str s);
  Scoring.redact_sensitive_text s := encode_str (redact_sensitive_text (decode_str s));
|}.

(** ** Markers *)

Definition CANONICAL_OPAQUE_IDENTIFIER_KINDS : list string :=
  ["agent"; "analytic-intent"; "atlas-tag"; "call"; "category"; "client"; "dedup"; "detection-class";
   "event"; "event-type"; "evidence-field"; "host"; "invalid-event-time"; "invalid-timestamp";
   "metadata-key"; "metadata-value"; "model"; "policy"; "process"; "process-adjustment";
   "process-config"; "process-rule"; "provider"; "provenance-kind"; "risk-summary"; "rule";
   "rule-source"; "session"; "severity"; "sink"; "signal-type"; "source-event"; "suppression"; "tag";
   "time-confidence"; "time-source"; "tool"; "user"].

Record CanonicalOpaqueIdentifier := {
  coi_kind : text;
  coi_digest : text;
}.

Definition parse_canonical_opaque_identifier (value : text) : option CanonicalOpaqueIdentifier :=
  match strip (lit "[") value with
  | Some body =>
      match strip_end (lit "]") body with
      | Some body =>
          match split_once (lit ":") body with
          | Some (kind, digest) =>
              if negb (lits CANONICAL_OPAQUE_IDENTIFIER_KINDS kind) || negb (str_len digest =? 64)
                 || negb (forallb hex_lower digest)
              then None
              else Some {| coi_kind := kind; coi_digest := digest |}
          | None => None
          end
      | None => None
      end
  | None => None
  end.

Definition is_canonical_opaque_identifier_for_kind (kind : string) (value : text) : bool :=
  match parse_canonical_opaque_identifier value with
  | Some marker => text_eqb (coi_kind marker) (lit kind)
  | None => false
  end.

(** ** Recognizers *)

Definition identifier_char (more : string) (c : char) : bool :=
  ascii_lower c || ascii_digit c || among more c.

Definition is_safe_structured_identifier (value : text) : bool :=
  negb (text_eqb value []) && (str_len value <=? 128) && forallb (identifier_char "_-.:") value.

Definition is_supported_client_identifier (value : text) : bool :=
  lits ["codex"; "claude"; "gemini"; "openclaw"; "qwen"; "roocode"; "kilocode"; "opencode"; "copilot"] value.

Definition is_supported_source_kind_identifier (value : text) : bool :=
  lits ["json"; "jsonl"; "archived_jsonl"; "headless_jsonl"; "sqlite"; "legacy_json"; "ui_messages_json";
        "copilot_process_log"] value.

Definition KNOWN_HARNESS_TOOL_NAMES : list string :=
  ["Agent"; "Bash"; "BashOutput"; "Edit"; "ExitPlanMode"; "Glob"; "Grep"; "KillShell"; "LS"; "MultiEdit";
   "NotebookEdit"; "NotebookRead"; "Read"; "SlashCommand"; "Skill"; "Task"; "TodoRead"; "TodoWrite";
   "WebFetch"; "WebSearch"; "Write"].

Definition is_canonical_mitre_attack_technique (value : text) : bool :=
  (Nat.eqb (length value) 5 || Nat.eqb (length value) 9)
  && is_char "T" (value !! 0%nat) && forallb ascii_digit (take 4 (drop 1 value))
  && (Nat.eqb (length value) 5 || is_char "." (value !! 5%nat) && forallb ascii_digit (drop 6 value)).

Definition is_canonical_mitre_hash (value : text) : bool :=
  match strip (lit "mitre:") value with Some digest => is_canonical_sha256_hex digest | None => false end.

Definition digits_suffix (digest suffix : text) : bool :=
  is_canonical_sha256_hex digest && negb (text_eqb suffix []) && forallb ascii_digit suffix.

Definition is_canonical_source_count_key (value : text) : bool :=
  let known_source :=
    match split_once (lit ".") value with
    | Some (client, kind) => is_supported_client_identifier client && is_supported_source_kind_identifier kind
    | None => false
    end in
  if known_source then true
  else match strip (lit "source_count:") value with
       | None => false
       | Some value =>
           match split_once (lit ":") value with
           | None => is_canonical_sha256_hex value
           | Some (digest, suffix) => digits_suffix digest suffix
           end
       end.

(** ** Policies *)

Section policies.
Context `{Regexes} `{EventServices}.

Definition opaque_identifier_for_hash_input (kind : string) (hash_input : text) : text :=
  lit "[" ++ lit kind ++ lit ":" ++ evidence_hash hash_input ++ lit "]".
Definition opaque_identifier (kind : string) (value : text) : text :=
  opaque_identifier_for_hash_input kind value.

Definition terminal_identifier (kind : string) (value : text) : text :=
  if (str_len value <=? 128) && negb (contains_credential_material value)
     && forallb (identifier_char "_-.:>+") value
  then value else opaque_identifier kind value.

Definition terminal_tag (tag : text) : text :=
  match strip (lit "allowlist:") tag with
  | Some name => lit "allowlist:" ++ opaque_identifier "suppression" name
  | None => terminal_identifier "tag" tag
  end.

Definition terminal_session_id (value : text) : text :=
  if is_safe_structured_identifier value && negb (contains_credential_material value) then value
  else opaque_identifier_for_hash_input "session" (lit "session-id:v1" ++ [0%N] ++ value).

Definition terminal_client_id (value : text) : text :=
  if lits ["scanner"; "none"; "install_inventory"] value
     || forallb is_supported_client_identifier (split_chars (N.eqb (ch ",")) value)
  then value else opaque_identifier "client" value.

Definition is_safe_product_metadata (kind : string) (value : text) : bool :=
  if negb (is_safe_structured_identifier value) || contains_credential_material value then false
  else if String.eqb kind "agent" then is_supported_client_identifier value
  else if String.eqb kind "provider" then
    lits ["openai"; "anthropic"; "google"; "github"; "microsoft"; "azure"; "ollama"; "openrouter"] value
  else if String.eqb kind "model" then
    existsb (λ prefix, starts (lit prefix) value)
      ["gpt-"; "o1"; "o3"; "o4"; "claude-"; "gemini-"; "qwen"; "llama"; "mistral"; "deepseek-"]
  else false.

Definition terminal_product_metadata (kind : string) (value : text) : text :=
  if is_safe_product_metadata kind value then value else opaque_identifier kind value.

Definition terminal_rule_identifier (value : text) : text :=
  if is_canonical_contribution_id (encode_str value) && negb (contains_credential_material value) then value
  else lit "redacted." ++ evidence_hash value.

Definition terminal_tool_label (value : text) : text :=
  if lits KNOWN_HARNESS_TOOL_NAMES value then value else terminal_identifier "tool" value.

Definition is_safe_atlas_tag (value : text) : bool :=
  (str_len value <=? 128) && starts (lit "atlas:") value && negb (contains_credential_material value)
  && forallb (λ c, identifier_char "_-.:" c || ascii_upper c) value.
Definition terminal_atlas_tag (value : text) : text :=
  if is_safe_atlas_tag value then value else lit "atlas:" ++ evidence_hash value.

(** *** Values of events that were emitted before

    [historical kind terminal value]: an exact marker of the kind is kept. *)

Definition historical (kind : string) (terminal : text → text) (value : text) : text :=
  if is_canonical_opaque_identifier_for_kind kind value then value else terminal value.

Definition terminal_historical_session_id : text → text := historical "session" terminal_session_id.
Definition terminal_historical_product_metadata (kind : string) : text → text :=
  historical kind (terminal_product_metadata kind).
Definition terminal_historical_client_id : text → text := historical "client" terminal_client_id.
Definition terminal_historical_identifier (kind : string) : text → text :=
  historical kind (terminal_identifier kind).
Definition terminal_historical_opaque_identifier (kind : string) : text → text :=
  historical kind (opaque_identifier kind).
Definition terminal_historical_tool_label : text → text := historical "tool" terminal_tool_label.

Definition terminal_imported_session_id (canonical_event : bool) : text → text :=
  if canonical_event then terminal_historical_session_id else terminal_session_id.
Definition terminal_imported_product_metadata (canonical_event : bool) (kind : string) : text → text :=
  if canonical_event then terminal_historical_product_metadata kind else terminal_product_metadata kind.
Definition terminal_imported_opaque_identifier (canonical_event : bool) (kind : string) : text → text :=
  if canonical_event then terminal_historical_opaque_identifier kind else opaque_identifier kind.
Definition terminal_imported_client_id (canonical_event : bool) : text → text :=
  if canonical_event then terminal_historical_client_id else terminal_client_id.
Definition terminal_imported_identifier (canonical_event : bool) (kind : string) : text → text :=
  if canonical_event then terminal_historical_identifier kind else terminal_identifier kind.

Definition terminal_imported_tag (canonical_event : bool) (tag : text) : text :=
  if canonical_event then
    if is_canonical_opaque_identifier_for_kind "tag" tag then tag
    else if match strip (lit "allowlist:") tag with
            | Some value => is_canonical_opaque_identifier_for_kind "suppression" value | None => false end
    then tag
    else terminal_tag tag
  else terminal_tag tag.

(** *** Hashes, times and identities *)

Definition terminal_evidence_hash (value : text) : text :=
  if is_canonical_sha256_hex value then value else evidence_hash value.

Definition terminal_source_count_key (value : text) : text :=
  if is_canonical_source_count_key value then value else lit "source_count:" ++ evidence_hash value.

Definition terminal_mitre_attack_technique (value : text) : text :=
  if is_canonical_mitre_attack_technique value || is_canonical_mitre_hash value then value
  else lit "mitre:" ++ evidence_hash value.

Definition terminal_imported_timestamp (value : text) : text :=
  if is_some (parse_event_timestamp value)
     || is_canonical_opaque_identifier_for_kind "invalid-timestamp" value
  then value else opaque_identifier "invalid-timestamp" value.

Definition is_valid_terminal_event_time (value : text) : bool :=
  is_some (parse_event_timestamp value) || is_canonical_opaque_identifier_for_kind "invalid-event-time" value.
Definition terminal_event_time (value : text) : text :=
  if is_valid_terminal_event_time value then value else opaque_identifier "invalid-event-time" value.
Definition terminal_imported_event_time (canonical_event : bool) (value : text) : text :=
  if canonical_event && is_canonical_opaque_identifier_for_kind "invalid-event-time" value then value
  else terminal_event_time value.

Definition is_canonical_event_id (value : text) : bool :=
  match strip (lit "telltale-") value with
  | None => false
  | Some u =>
      (str_len u =? 36)
      && match parse_uuid u with
         | Some uuid =>
             (get_version_num uuid =? 4)
             && match u !! 19%nat with Some c => among "89ab" c | None => false end
             && text_eqb (uuid_text uuid) u
         | None => false
         end
  end.

Definition terminal_imported_event_id (value : text) : text :=
  if is_canonical_event_id value then value
  else
    let digest := <[16%nat := ch "8"]> (<[12%nat := ch "4"]> (evidence_hash value)) in
    lit "telltale-" ++ slice digest 0 8 ++ lit "-" ++ slice digest 8 12 ++ lit "-" ++ slice digest 12 16
      ++ lit "-" ++ slice digest 16 20 ++ lit "-" ++ slice digest 20 32.

Definition terminal_imported_enum (kind : string) (allowed : list string) (value : text) : text :=
  if lits allowed value || is_canonical_opaque_identifier_for_kind kind value then value
  else opaque_identifier kind value.

End policies.
