(* ===== verification/EventEmit.v ===== *)
(** * Emission of an event

    crates/telltale-schema/src/event/mod.rs: the [Event] record, the terminal privacy
    policy that every serialization of it goes through, and the checks of its controlled
    fields.  [serialize] gives the event that is written, or the error. *)

From S2P Require Import Prelude Ordered Rstr Scoring JournalNames Unicode Regex RedactPatterns Redaction EventIdentifiers.
From Stdlib Require Import Ascii.

Local Open Scope Z_scope.

(** ** Data *)

Record TimelineAnchor := {
  ta_entry_index : Z;
  ta_rule_ids : list text;
  ta_categories : list text;
  ta_evidence_fields : list text;
}.

Record ProcessContext := {
  pc_host : option text;
  pc_user : option text;
  pc_source_process_name : text;
  pc_source_process_path : option text;
  pc_source_process_id : option Z;
  pc_source_process_command_line : option text;
  pc_target_process_name : text;
  pc_target_process_path : option text;
  pc_target_process_id : option Z;
  pc_target_process_command_line : option text;
  pc_parent_process_name : option text;
  pc_parent_process_path : option text;
  pc_source_event_id : option text;
  pc_source_process_inferred : bool;
  pc_rule_name : text;
  pc_secondary_rule_ids : list text;
  pc_investigation_fields : list text;
  pc_falsepositives : list text;
  pc_dedup_key : text;
  pc_suppression_window_seconds : Z;
  pc_rule_severity : text;
  pc_risk_adjustment : option text;
}.

Record Evidence := {
  evd_field : text;
  evd_redacted_value : text;
  evd_hash : option text;
  evd_rule_id : option text;
}.

Record ResponseMetadata := {
  rm_recommended_action : text;
  rm_response_playbook : text;
  rm_investigation_summary : text;
  rm_escalation : text;
}.

(** [source_counts] is a [BTreeMap], in the order of its keys. *)
Record Event := {
  ev_timestamp : text;
  ev_event_time : option text;
  ev_observed_at : text;
  ev_ingested_at : text;
  ev_time_source : text;
  ev_time_confidence : text;
  ev_time_override_reason : option text;
  ev_schema_version : text;
  ev_event_id : text;
  ev_telltale_version : text;
  ev_event_type : text;
  ev_severity : text;
  ev_risk_score : Z;
  ev_risk_contributions : list RiskContribution;
  ev_client : text;
  ev_agent : option text;
  ev_model : option text;
  ev_provider : option text;
  ev_session_id : text;
  ev_source_path_hash : option text;
  ev_tool_name : option text;
  ev_rule_ids : list text;
  ev_categories : list text;
  ev_detection_classes : list text;
  ev_signal_types : list text;
  ev_analytic_intents : list text;
  ev_atlas_tags : list text;
  ev_tags : list text;
  ev_evidence : list Evidence;
  ev_timeline_anchors : list TimelineAnchor;
  ev_response : option ResponseMetadata;
  ev_source_counts : option (list (text * Z));
  ev_component : option text;
  ev_check_name : option text;
  ev_status : option text;
  ev_scan_duration_ms : option Z;
  ev_rule_count : option Z;
  ev_threshold_config : option RiskThresholds;
  ev_active_policy_name : option text;
  ev_emitted_count : option Z;
  ev_suppressed_count : option Z;
  ev_scanner_error_count : option Z;
  ev_informational : option bool;
  ev_confidence : option text;
  ev_detection_reason : option text;
  ev_mitre_attack_techniques : list text;
  ev_risk_entity_type : option text;
  ev_risk_entity_value : option text;
  ev_process : option ProcessContext;
}.

Definition NATIVE_SCHEMA_VERSION : text := lit "3.0".
(** [CARGO_PKG_VERSION] of the workspace. *)
Definition TELLTALE_VERSION : text := lit "0.7.0".

Definition TEXT_BEARING_EVENT_TYPES : list string :=
  ["detection"; "activity"; "health"; "scanner_error"; "operational_alert"; "session_risk_summary";
   "correlation"; "process_chain"].
Definition VALID_TIME_SOURCES : list string := ["observed"; "source"; "override"].
Definition VALID_TIME_CONFIDENCES : list string := ["low"; "medium"; "high"].
Definition VALID_SEVERITIES : list string := ["informational"; "low"; "medium"; "high"; "critical"; "warning"].
Definition VALID_DETECTION_CLASSES : list string :=
  ["security_detection"; "policy_violation"; "threat_hunting"; "compliance_observation";
   "operational_health"; "baseline_deviation"].
Definition VALID_SIGNAL_TYPES : list string := ["atomic"; "chain"; "correlation"; "baseline_deviation"].
Definition VALID_ANALYTIC_INTENTS : list string := ["alert"; "hunt"; "enrich"; "baseline"; "audit"].
Definition VALID_CONFIDENCES : list string := ["low"; "medium"; "high"].
Definition VALID_RISK_ENTITY_TYPES : list string := ["host"; "user"; "session"].
Definition VALID_DETECTION_SEVERITIES : list string := ["informational"; "low"; "medium"; "high"; "critical"].
Definition VALID_RESPONSE_ACTIONS : list string :=
  ["monitor"; "review"; "investigate"; "investigate_immediately"].
Definition VALID_RESPONSE_PLAYBOOKS : list string :=
  ["telltale-playbook-mcp-prompt-injection"; "telltale-playbook-credential-access";
   "telltale-playbook-network-egress"; "telltale-playbook-persistence";
   "telltale-playbook-general-investigation"].
Definition VALID_RESPONSE_ESCALATIONS : list string := ["routine_review"; "security_review_required"].
Definition VALID_OPERATIONAL_CHECK_NAMES : list string :=
  ["scanner_error_threshold"; "scan_duration_threshold"; "sink_delivery"; "operational_alert"].

Definition INVALID_CONTROLLED_EVENT_ERROR : text := lit "event contains invalid controlled metadata".

Definition is_empty_list {A} (l : list A) : bool := match l with [] => true | _ => false end.
Definition is_lit (s : string) (t : text) : bool := text_eqb t (lit s).
Definition some_lit (s : string) (t : option text) : bool :=
  match t with Some t => is_lit s t | None => false end.
(** [is_some_and(|value| !p(value))], negated. *)
Definition opt_all {A} (p : A → bool) (o : option A) : bool := match o with Some a => p a | None => true end.

(** ** The terminal policy *)

Section emission.
Context `{Regexes} `{EventServices}.

(** [RiskContribution::for_emission]. *)
Definition emitted_rationale (rationale : string) : string :=
  normalize_risk_rationale (encode_str (sanitize Summary (decode_str rationale))).
Definition for_emission (c : RiskContribution) : RiskContribution :=
  {| rc_id := encode_str (terminal_rule_identifier (decode_str (rc_id c)));
     rc_type := rc_type c;
     rc_points := rc_points c;
     rc_rationale := emitted_rationale (rc_rationale c) |}.

(** *** Source counts *)

Definition source_count_collision_base (value : text) : text :=
  match strip (lit "source_count:") value with
  | None => lit "source_count:" ++ evidence_hash value
  | Some value =>
      match split_once (lit ":") value with
      | None => lit "source_count:" ++ value
      | Some (digest, suffix) =>
          if digits_suffix digest suffix then lit "source_count:" ++ digest
          else lit "source_count:" ++ evidence_hash value
      end
  end.

(** The first free suffix, from 2: one more candidate than there are keys. *)
Fixpoint free_suffix (tries : nat) (key_exists : text → bool) (base : text) (suffix : nat) : text :=
  let candidate := base ++ lit ":" ++ lit (decimal (Z.of_nat suffix)) in
  match tries with
  | O => candidate
  | S tries' => if key_exists candidate then free_suffix tries' key_exists base (S suffix) else candidate
  end.

Definition unique_source_count_key (keys : list text) (key : text) : text :=
  if text_in key keys then free_suffix (length keys) (λ candidate, text_in candidate keys)
                             (source_count_collision_base key) 2
  else key.

(** A canonical key is kept; the others come after, under keys that are free. *)
Definition terminal_source_counts (source_counts : list (text * Z)) : list (text * Z) :=
  let emitted := foldl (λ m kv, bm_insert (terminal_source_count_key kv.1) kv.2 m) []
                   (filter (λ kv, is_canonical_source_count_key kv.1 = true) source_counts) in
  let pending := map (λ kv, (terminal_source_count_key kv.1, kv.2))
                   (filter (λ kv, is_canonical_source_count_key kv.1 = false) source_counts) in
  foldl (λ m kv, bm_insert (unique_source_count_key (m.*1) kv.1) kv.2 m) emitted pending.

(** *** Evidence, anchors, processes, responses *)

Definition contains (s : string) (t : text) : bool := has_text (lit s) t.

Definition evidence_context (field : text) : SanitizationContext :=
  if contains "error" field then Diagnostic
  else if contains "path" field || is_lit "workspace" field then Path
  else if is_lit "url" field || ends (lit "_url") field then Url
  else if lits ["command"; "arguments"; "tool_result"; "result"] field then CommandResult
  else Redaction.Evidence.

(** [value.split("; ")]. *)
Fixpoint split_text_loop (fuel : nat) (sep t : text) : list text :=
  match fuel with
  | O => [t]
  | S fuel' => match split_once sep t with
               | Some (a, b) => a :: split_text_loop fuel' sep b
               | None => [t]
               end
  end.
Definition split_text (sep t : text) : list text := split_text_loop (length t) sep t.

Definition related_parts (value : text) : option (text * text * text * text * text) :=
  match split_text (lit "; ") value with
  | [a; b; c; d; e] =>
      match strip (lit "session_id=") a, strip (lit "event_id=") b, strip (lit "timestamp=") c,
            strip (lit "severity=") d, strip (lit "risk_score=") e with
      | Some session_id, Some event_id, Some timestamp, Some severity, Some risk_score =>
          if is_some (parse_unsigned u64_max (encode_str risk_score))
          then Some (session_id, event_id, timestamp, severity, risk_score) else None
      | _, _, _, _, _ => None
      end
  | _ => None
  end.

Definition terminal_related_detection (canonical_event : bool) (value : text) : text :=
  match related_parts value with
  | None => sanitize Redaction.Evidence value
  | Some (session_id, event_id, timestamp, severity, risk_score) =>
      lit "session_id=" ++ terminal_imported_session_id canonical_event session_id
      ++ lit "; event_id="
      ++ (if canonical_event && is_canonical_opaque_identifier_for_kind "event" event_id then event_id
          else terminal_identifier "event" event_id)
      ++ lit "; timestamp=" ++ terminal_event_time timestamp
      ++ lit "; severity=" ++ terminal_identifier "severity" severity
      ++ lit "; risk_score=" ++ risk_score
  end.

Definition terminal_evidence (e : Evidence) : Evidence :=
  {| evd_redacted_value :=
       if is_lit "related_detection" (evd_field e) then terminal_related_detection false (evd_redacted_value e)
       else if is_lit "allowlist" (evd_field e) then opaque_identifier "suppression" (evd_redacted_value e)
       else sanitize (evidence_context (evd_field e)) (evd_redacted_value e);
     evd_field := terminal_identifier "evidence-field" (evd_field e);
     evd_hash := terminal_evidence_hash <$> evd_hash e;
     evd_rule_id := terminal_rule_identifier <$> evd_rule_id e |}.

Definition terminal_imported_evidence (canonical_event : bool) (e : Evidence) : Evidence :=
  if canonical_event && is_lit "allowlist" (evd_field e)
     && is_canonical_opaque_identifier_for_kind "suppression" (evd_redacted_value e)
  then e
  else if is_lit "related_detection" (evd_field e) then
    {| evd_redacted_value := terminal_related_detection canonical_event (evd_redacted_value e);
       evd_field := evd_field e; evd_hash := evd_hash e; evd_rule_id := evd_rule_id e |}
  else terminal_evidence e.

Definition terminal_timeline_anchor (a : TimelineAnchor) : TimelineAnchor :=
  {| ta_entry_index := ta_entry_index a;
     ta_rule_ids := map terminal_rule_identifier (ta_rule_ids a);
     ta_categories := map (terminal_identifier "category") (ta_categories a);
     ta_evidence_fields := map (terminal_identifier "evidence-field") (ta_evidence_fields a) |}.

Definition terminal_process_context (p : ProcessContext) : ProcessContext :=
  {| pc_host := opaque_identifier "host" <$> pc_host p;
     pc_user := opaque_identifier "user" <$> pc_user p;
     pc_source_process_name := terminal_identifier "process" (pc_source_process_name p);
     pc_source_process_path := sanitize Path <$> pc_source_process_path p;
     pc_source_process_id := pc_source_process_id p;
     pc_source_process_command_line := sanitize CommandResult <$> pc_source_process_command_line p;
     pc_target_process_name := terminal_identifier "process" (pc_target_process_name p);
     pc_target_process_path := sanitize Path <$> pc_target_process_path p;
     pc_target_process_id := pc_target_process_id p;
     pc_target_process_command_line := sanitize CommandResult <$> pc_target_process_command_line p;
     pc_parent_process_name := terminal_identifier "process" <$> pc_parent_process_name p;
     pc_parent_process_path := sanitize Path <$> pc_parent_process_path p;
     pc_source_event_id := opaque_identifier "source-event" <$> pc_source_event_id p;
     pc_source_process_inferred := pc_source_process_inferred p;
     pc_rule_name := opaque_identifier "process-rule" (pc_rule_name p);
     pc_secondary_rule_ids := map terminal_rule_identifier (pc_secondary_rule_ids p);
     pc_investigation_fields := map (opaque_identifier "process-config") (pc_investigation_fields p);
     pc_falsepositives := map (opaque_identifier "process-config") (pc_falsepositives p);
     pc_dedup_key := opaque_identifier "dedup" (pc_dedup_key p);
     pc_suppression_window_seconds := pc_suppression_window_seconds p;
     pc_rule_severity := pc_rule_severity p;
     pc_risk_adjustment := opaque_identifier "process-adjustment" <$> pc_risk_adjustment p |}.

Definition sanitize_response_text (field : string) (value : text) : text :=
  let known_static_value :=
    if String.eqb field "recommended_action" then lits VALID_RESPONSE_ACTIONS value
    else if String.eqb field "escalation" then lits VALID_RESPONSE_ESCALATIONS value
    else if String.eqb field "response_playbook" then lits VALID_RESPONSE_PLAYBOOKS value
    else false in
  if known_static_value then value else sanitize Summary value.

Definition terminal_response_metadata (r : ResponseMetadata) : ResponseMetadata :=
  {| rm_recommended_action := sanitize_response_text "recommended_action" (rm_recommended_action r);
     rm_response_playbook := sanitize_response_text "response_playbook" (rm_response_playbook r);
     rm_investigation_summary := sanitize_response_text "investigation_summary" (rm_investigation_summary r);
     rm_escalation := sanitize_response_text "escalation" (rm_escalation r) |}.

Definition terminal_risk_entity_value (entity_type : option text) (value : text) : text :=
  if some_lit "host" entity_type then opaque_identifier "host" value
  else if some_lit "user" entity_type then opaque_identifier "user" value
  else if some_lit "session" entity_type then terminal_session_id value
  else sanitize Summary value.

Definition terminal_emittable_event (e : Event) : Event :=
  {| ev_timestamp := ev_timestamp e;
     ev_event_time := terminal_event_time <$> ev_event_time e;
     ev_observed_at := ev_observed_at e;
     ev_ingested_at := ev_ingested_at e;
     ev_time_source := ev_time_source e;
     ev_time_confidence := ev_time_confidence e;
     ev_time_override_reason := sanitize Diagnostic <$> ev_time_override_reason e;
     ev_schema_version := ev_schema_version e;
     ev_event_id := ev_event_id e;
     ev_telltale_version := TELLTALE_VERSION;
     ev_event_type := ev_event_type e;
     ev_severity := ev_severity e;
     ev_risk_score := ev_risk_score e;
     ev_risk_contributions := map for_emission (ev_risk_contributions e);
     ev_client := terminal_client_id (ev_client e);
     ev_agent := terminal_product_metadata "agent" <$> ev_agent e;
     ev_model := terminal_product_metadata "model" <$> ev_model e;
     ev_provider := terminal_product_metadata "provider" <$> ev_provider e;
     ev_session_id := terminal_session_id (ev_session_id e);
     ev_source_path_hash := terminal_evidence_hash <$> ev_source_path_hash e;
     ev_tool_name := terminal_identifier "tool" <$> ev_tool_name e;
     ev_rule_ids := map terminal_rule_identifier (ev_rule_ids e);
     ev_categories := map (terminal_identifier "category") (ev_categories e);
     ev_detection_classes := ev_detection_classes e;
     ev_signal_types := ev_signal_types e;
     ev_analytic_intents := ev_analytic_intents e;
     ev_atlas_tags := map terminal_atlas_tag (ev_atlas_tags e);
     ev_tags := map terminal_tag (ev_tags e);
     ev_evidence := map terminal_evidence (ev_evidence e);
     ev_timeline_anchors := map terminal_timeline_anchor (ev_timeline_anchors e);
     ev_response := terminal_response_metadata <$> ev_response e;
     ev_source_counts := terminal_source_counts <$> ev_source_counts e;
     ev_component := ev_component e;
     ev_check_name := ev_check_name e;
     ev_status := ev_status e;
     ev_scan_duration_ms := ev_scan_duration_ms e;
     ev_rule_count := ev_rule_count e;
     ev_threshold_config := ev_threshold_config e;
     ev_active_policy_name := opaque_identifier "policy" <$> ev_active_policy_name e;
     ev_emitted_count := ev_emitted_count e;
     ev_suppressed_count := ev_suppressed_count e;
     ev_scanner_error_count := ev_scanner_error_count e;
     ev_informational := ev_informational e;
     ev_confidence := ev_confidence e;
     ev_detection_reason := sanitize Summary <$> ev_detection_reason e;
     ev_mitre_attack_techniques := map terminal_mitre_attack_technique (ev_mitre_attack_techniques e);
     ev_risk_entity_type := ev_risk_entity_type e;
     ev_risk_entity_value := terminal_risk_entity_value (ev_risk_entity_type e) <$> ev_risk_entity_value e;
     ev_process := terminal_process_context <$> ev_process e |}.

(** ** Controlled fields *)

Definition no_detection_dimensions (e : Event) : bool :=
  is_empty_list (ev_rule_ids e) && is_empty_list (ev_categories e)
  && is_empty_list (ev_detection_classes e) && is_empty_list (ev_signal_types e)
  && is_empty_list (ev_analytic_intents e) && is_empty_list (ev_atlas_tags e)
  && is_empty_list (ev_timeline_anchors e).

Definition none {A} (o : option A) : bool := negb (is_some o).

Definition no_process_fields (e : Event) : bool :=
  none (ev_informational e) && none (ev_confidence e) && none (ev_detection_reason e)
  && is_empty_list (ev_mitre_attack_techniques e) && none (ev_risk_entity_type e)
  && none (ev_risk_entity_value e) && none (ev_process e).

Definition is_exact_controlled_values (values : list text) (expected : list string) : bool :=
  Nat.eqb (length values) (length expected) && forallb (λ ve, is_lit ve.2 ve.1) (zip values expected).

Definition all_dimensions (e : Event) : bool :=
  negb (is_empty_list (ev_categories e)) && negb (is_empty_list (ev_detection_classes e))
  && negb (is_empty_list (ev_signal_types e)) && negb (is_empty_list (ev_analytic_intents e)).

Definition no_checks (e : Event) : bool :=
  none (ev_component e) && none (ev_check_name e) && none (ev_status e).
Definition scanner_check (check_name status : string) (e : Event) : bool :=
  some_lit "scanner" (ev_component e) && some_lit check_name (ev_check_name e)
  && some_lit status (ev_status e).

Definition is_schema_valid_part (part : text) : bool :=
  negb (text_eqb part []) && forallb (λ c, ascii_alphanumeric c || among ".-" c) part.

Definition is_schema_valid_telltale_version (value : text) : bool :=
  let '(version, build) := split_option "+" value in
  if negb (opt_all is_schema_valid_part build) then false
  else
    let '(core, prerelease) := split_option "-" version in
    if negb (opt_all is_schema_valid_part prerelease) then false
    else forallb (λ c, negb (text_eqb c []) && forallb ascii_digit c) (split_chars (N.eqb (ch ".")) core)
         && Nat.eqb (length (filter (λ c, c = ch ".") core)) 2.

Definition terminal_historical_telltale_version (value : text) : text :=
  if is_schema_valid_telltale_version value && negb (contains_credential_material value) then value
  else TELLTALE_VERSION.

(** The checks of every event. *)
Definition common_controls (historical_version : bool) (e : Event) : bool :=
  let version_valid :=
    if historical_version
    then is_schema_valid_telltale_version (ev_telltale_version e)
         && negb (contains_credential_material (ev_telltale_version e))
    else text_eqb (ev_telltale_version e) TELLTALE_VERSION in
  is_canonical_event_id (ev_event_id e)
  && is_some (parse_event_timestamp (ev_timestamp e))
  && is_some (parse_event_timestamp (ev_observed_at e))
  && is_some (parse_event_timestamp (ev_ingested_at e))
  && opt_all is_valid_terminal_event_time (ev_event_time e)
  && text_eqb (ev_schema_version e) NATIVE_SCHEMA_VERSION
  && version_valid
  && lits VALID_TIME_SOURCES (ev_time_source e)
  && lits VALID_TIME_CONFIDENCES (ev_time_confidence e)
  && lits TEXT_BEARING_EVENT_TYPES (ev_event_type e)
  && lits VALID_SEVERITIES (ev_severity e)
  && forallb (lits VALID_DETECTION_CLASSES) (ev_detection_classes e)
  && forallb (lits VALID_SIGNAL_TYPES) (ev_signal_types e)
  && forallb (lits VALID_ANALYTIC_INTENTS) (ev_analytic_intents e)
  && opt_all (lits VALID_CONFIDENCES) (ev_confidence e)
  && opt_all (lits VALID_RISK_ENTITY_TYPES) (ev_risk_entity_type e)
  && opt_all (λ r, lits VALID_RESPONSE_ACTIONS (rm_recommended_action r)
                   && lits VALID_RESPONSE_PLAYBOOKS (rm_response_playbook r)
                   && lits VALID_RESPONSE_ESCALATIONS (rm_escalation r)) (ev_response e)
  && opt_all (λ p, lits VALID_DETECTION_SEVERITIES (pc_rule_severity p)) (ev_process e).

(** The profile of each event type. *)
Definition inventory_profile (e : Event) : bool :=
  is_lit "observed" (ev_time_source e) && is_lit "low" (ev_time_confidence e)
  && is_lit "informational" (ev_severity e) && is_lit "scanner" (ev_session_id e)
  && (ev_risk_score e =? 0) && is_empty_list (ev_risk_contributions e) && none (ev_source_path_hash e)
  && Nat.eqb (length (ev_tags e)) 3
  && forallb (lits ["scanner"; "install_inventory"; "metadata_only"]) (ev_tags e)
  && existsb (is_lit "scanner") (ev_tags e) && existsb (is_lit "install_inventory") (ev_tags e)
  && existsb (is_lit "metadata_only") (ev_tags e) && negb (is_empty_list (ev_evidence e))
  && scanner_check "install_inventory" "ok" e
  && no_detection_dimensions e && no_process_fields e && none (ev_response e) && none (ev_source_counts e).

Definition activity_profile (e : Event) : bool :=
  if is_lit "install_inventory" (ev_client e) then inventory_profile e
  else negb (is_lit "warning" (ev_severity e)) && is_some (ev_source_path_hash e) && no_checks e
       && no_detection_dimensions e && no_process_fields e && none (ev_response e)
       && none (ev_source_counts e).

Definition detection_profile (e : Event) : bool :=
  let suppressed := existsb (is_lit "suppressed") (ev_tags e) in
  let response_controls_valid :=
    if suppressed
    then none (ev_response e) && is_lit "informational" (ev_severity e) && (ev_risk_score e =? 0)
         && is_empty_list (ev_risk_contributions e) && is_empty_list (ev_timeline_anchors e)
    else is_some (ev_response e) in
  negb (is_lit "warning" (ev_severity e)) && negb (is_empty_list (ev_rule_ids e)) && all_dimensions e
  && is_some (ev_source_path_hash e) && no_checks e && none (ev_confidence e)
  && none (ev_risk_entity_type e) && none (ev_process e) && none (ev_source_counts e)
  && none (ev_informational e) && none (ev_detection_reason e)
  && is_empty_list (ev_mitre_attack_techniques e) && response_controls_valid.

Definition session_risk_summary_profile (e : Event) : bool :=
  negb (is_lit "warning" (ev_severity e)) && no_checks e && no_process_fields e && none (ev_response e)
  && none (ev_source_counts e).

Definition health_profile (e : Event) : bool :=
  is_lit "informational" (ev_severity e) && is_lit "scanner" (ev_session_id e)
  && scanner_check "source_discovery" "ok" e && is_some (ev_source_counts e)
  && no_detection_dimensions e && no_process_fields e && none (ev_response e).

Definition scanner_error_profile (e : Event) : bool :=
  is_lit "informational" (ev_severity e) && is_lit "scanner" (ev_session_id e)
  && is_some (ev_source_path_hash e) && scanner_check "source_parse" "degraded" e
  && no_detection_dimensions e && no_process_fields e && none (ev_response e)
  && none (ev_source_counts e).

Definition operational_alert_profile (e : Event) : bool :=
  is_lit "warning" (ev_severity e) && is_lit "scanner" (ev_client e) && is_lit "scanner" (ev_session_id e)
  && all_dimensions e && forallb (is_lit "operational_health") (ev_detection_classes e)
  && forallb (is_lit "atomic") (ev_signal_types e) && forallb (is_lit "alert") (ev_analytic_intents e)
  && some_lit "scanner" (ev_component e)
  && match ev_check_name e with Some value => lits VALID_OPERATIONAL_CHECK_NAMES value | None => false end
  && some_lit "degraded" (ev_status e)
  && no_process_fields e && none (ev_response e) && none (ev_source_counts e).

Definition process_chain_profile (e : Event) : bool :=
  negb (is_lit "warning" (ev_severity e)) && negb (is_empty_list (ev_rule_ids e)) && all_dimensions e
  && is_some (ev_source_path_hash e) && no_checks e && is_some (ev_informational e)
  && is_some (ev_confidence e) && is_some (ev_risk_entity_type e) && is_some (ev_risk_entity_value e)
  && is_some (ev_process e) && is_some (ev_response e) && none (ev_source_counts e).

Definition correlation_profile (e : Event) : bool :=
  negb (is_lit "warning" (ev_severity e)) && is_lit "correlation" (ev_session_id e)
  && is_some (ev_event_time e) && negb (is_empty_list (ev_rule_ids e))
  && is_exact_controlled_values (ev_categories e) ["cross_session_correlation"]
  && is_exact_controlled_values (ev_detection_classes e) ["security_detection"]
  && is_exact_controlled_values (ev_signal_types e) ["correlation"]
  && is_exact_controlled_values (ev_analytic_intents e) ["alert"]
  && no_checks e && no_process_fields e && none (ev_response e) && none (ev_source_counts e).

Definition profile (e : Event) : bool :=
  let typed := λ t, is_lit t (ev_event_type e) in
  if typed "activity" then activity_profile e
  else if typed "detection" then detection_profile e
  else if typed "session_risk_summary" then session_risk_summary_profile e
  else if typed "health" then health_profile e
  else if typed "scanner_error" then scanner_error_profile e
  else if typed "operational_alert" then operational_alert_profile e
  else if typed "process_chain" then process_chain_profile e
  else if typed "correlation" then correlation_profile e
  else false.

Definition terminal_controlled_fields_are_valid (historical_version : bool) (e : Event) : bool :=
  common_controls historical_version e && profile e.

Definition response_playbooks_are_valid (e : Event) : bool :=
  opt_all (λ r, lits VALID_RESPONSE_PLAYBOOKS (rm_response_playbook r)) (ev_response e).

(** ** Serialization *)

Definition terminal_historical_derived_event (e : Event) : Event :=
  let emitted := terminal_emittable_event e in
  {| ev_timestamp := ev_timestamp emitted;
     ev_event_time := ev_event_time emitted;
     ev_observed_at := ev_observed_at emitted;
     ev_ingested_at := ev_ingested_at emitted;
     ev_time_source := ev_time_source emitted;
     ev_time_confidence := ev_time_confidence emitted;
     ev_time_override_reason := ev_time_override_reason emitted;
     ev_schema_version := ev_schema_version emitted;
     ev_event_id := ev_event_id emitted;
     ev_telltale_version := terminal_historical_telltale_version (ev_telltale_version e);
     ev_event_type := ev_event_type emitted;
     ev_severity := ev_severity emitted;
     ev_risk_score := ev_risk_score emitted;
     ev_risk_contributions := ev_risk_contributions emitted;
     ev_client := terminal_historical_client_id (ev_client e);
     ev_agent := terminal_historical_product_metadata "agent" <$> ev_agent e;
     ev_model := terminal_historical_product_metadata "model" <$> ev_model e;
     ev_provider := terminal_historical_product_metadata "provider" <$> ev_provider e;
     ev_session_id := terminal_historical_session_id (ev_session_id e);
     ev_source_path_hash := ev_source_path_hash emitted;
     ev_tool_name := ev_tool_name emitted;
     ev_rule_ids := map terminal_rule_identifier (ev_rule_ids e);
     ev_categories := map (terminal_historical_identifier "category") (ev_categories e);
     ev_detection_classes := ev_detection_classes emitted;
     ev_signal_types := ev_signal_types emitted;
     ev_analytic_intents := ev_analytic_intents emitted;
     ev_atlas_tags := ev_atlas_tags emitted;
     ev_tags := ev_tags emitted;
     ev_evidence := map (terminal_imported_evidence true) (ev_evidence e);
     ev_timeline_anchors := ev_timeline_anchors emitted;
     ev_response := ev_response emitted;
     ev_source_counts := ev_source_counts emitted;
     ev_component := ev_component emitted;
     ev_check_name := ev_check_name emitted;
     ev_status := ev_status emitted;
     ev_scan_duration_ms := ev_scan_duration_ms emitted;
     ev_rule_count := ev_rule_count emitted;
     ev_threshold_config := ev_threshold_config emitted;
     ev_active_policy_name := ev_active_policy_name emitted;
     ev_emitted_count := ev_emitted_count emitted;
     ev_suppressed_count := ev_suppressed_count emitted;
     ev_scanner_error_count := ev_scanner_error_count emitted;
     ev_informational := ev_informational emitted;
     ev_confidence := ev_confidence emitted;
     ev_detection_reason := ev_detection_reason emitted;
     ev_mitre_attack_techniques := ev_mitre_attack_techniques emitted;
     ev_risk_entity_type := ev_risk_entity_type emitted;
     ev_risk_entity_value := ev_risk_entity_value emitted;
     ev_process := ev_process emitted |}.

(** What [EventWire] is given. *)
Definition serialize (e : Event) : result Event text :=
  if negb (response_playbooks_are_valid e) then Err INVALID_CONTROLLED_EVENT_ERROR
  else
    let emitted := terminal_emittable_event e in
    if negb (terminal_controlled_fields_are_valid false emitted) then Err INVALID_CONTROLLED_EVENT_ERROR
    else Ok emitted.

Definition serialize_historical (e : Event) : result Event text :=
  if negb (response_playbooks_are_valid e) then Err INVALID_CONTROLLED_EVENT_ERROR
  else
    let emitted := terminal_historical_derived_event e in
    if negb (terminal_controlled_fields_are_valid true emitted) then Err INVALID_CONTROLLED_EVENT_ERROR
    else Ok emitted.

End emission.
