(* ===== verification/EventPrivacy.v ===== *)
(** * What an emitted event shows

    Every text of a serialized event is free of high-confidence credential markers:
    sanitized text by [RedactionSafe], identifiers and controlled fields by their own
    rules. *)

From S2P Require Import Prelude Ordered Rstr Scoring JournalNames Unicode Regex RegexRef RedactPatterns Redaction RedactionSafe EventIdentifiers EventEmit.
From Stdlib Require Import Ascii.

Local Open Scope nat_scope.

(** ** Texts over few characters *)

Definition foreign (A : list char) (t : text) : nat := length (filter (λ c, c ∉ A) t).

(** A match of the pattern has at least so many characters that are not in [A]. *)
Fixpoint least (A : list char) (r : re) : nat :=
  match r with
  | Cls p => if forallb (λ c, negb (p c)) A then 1 else 0
  | Cat a b => least A a + least A b
  | Alt a b => Nat.min (least A a) (least A b)
  | Rep _ mn _ r => mn * least A r
  | Grp r => least A r
  | _ => 0
  end.

Section few.
Context (w : char → bool) (A : list char).

Lemma foreign_app x y : foreign A (x ++ y) = foreign A x + foreign A y.
Proof. unfold foreign. by rewrite filter_app, length_app. Qed.

Lemma foreign_slice t i k j : i ≤ k ≤ j → foreign A (slice t i j) = foreign A (slice t i k) + foreign A (slice t k j).
Proof.
  intros Hk. rewrite <- foreign_app. f_equal. unfold slice.
  rewrite <- (take_drop (k - i) (take (j - i) (drop i t))), take_take, skipn_firstn_comm, drop_drop.
  f_equal; [f_equal; lia|]. f_equal; [lia|f_equal; lia].
Qed.

Lemma foreign_slice_le t i j : foreign A (slice t i j) ≤ foreign A t.
Proof.
  rewrite <- (take_drop i t) at 2. rewrite foreign_app.
  rewrite <- (take_drop (j - i) (drop i t)) at 1. rewrite foreign_app. unfold slice. lia.
Qed.

Lemma least_spec t r i j : mt w t r i j → least A r ≤ foreign A (slice t i j).
Proof.
  assert (∀ r i j, mt w t r i j → i ≤ j) as Hle by (intros; by eapply mt_bounds).
  induction 1 as [i|p i c Hc Hp|a b i k j Ha IHa Hb IHb|a b i j Ha IH|a b i j Hb IH|g mx r i
    |g mn mx r i k j _ Ha IHa Hb IHb| | |i|r i j Ha IH]; cbn [least]; try lia.
  - case_match eqn:HA; [|lia]. unfold slice. replace (S i - i) with 1 by lia. rewrite (drop_S _ _ _ Hc). cbn [take].
    unfold foreign. rewrite filter_cons_True; [rewrite take_0; cbn; lia|]. intros Hin%list_elem_of_In.
    rewrite forallb_forall in HA. apply HA in Hin. by rewrite Hp in Hin.
  - apply Hle in Ha, Hb. rewrite (foreign_slice t i k j) by lia. lia.
  - apply Hle in Ha, Hb. rewrite (foreign_slice t i k j) by lia. cbn in IHb. destruct mn; cbn in *; lia.
Qed.

End few.

(** ** Rationales

    Normalization drops and joins, but what has no space in the result stood together
    in the text. *)

Definition factor {A} (u l : list A) : Prop := ∃ x y, l = x ++ u ++ y.
Definition solid (u : list ascii) : Prop := Forall (λ c, c ≠ " "%char) u.

Lemma factor_trans {A} (u v l : list A) : factor u v → factor v l → factor u l.
Proof. intros (x & y & ->) (x' & y' & ->). exists (x' ++ x), (y ++ y'). by rewrite <- !app_assoc. Qed.

Lemma factor_app_l {A} (u l k : list A) : factor u l → factor u (l ++ k).
Proof. intros (x & y & ->). exists x, (y ++ k). by rewrite <- !app_assoc. Qed.

(** The buffer of the loop, after [raw]. *)
Record buffered (raw normalized : list ascii) (pending : bool) : Prop := {
  bf_factor : ∀ u, solid u → factor u normalized → factor u raw;
  bf_suffix : pending = false → ∀ x u, solid u → normalized = x ++ u → ∃ z, raw = z ++ u;
}.

(** A solid part of a longer buffer ends where it ends, or is a part of the buffer. *)
Lemma solid_snoc (u l : list ascii) (c : ascii) : factor u (l ++ [c]) → factor u l ∨ ∃ x v, l ++ [c] = x ++ v ++ [c] ∧ u = v ++ [c].
Proof.
  intros (x & y & Hl). destruct y as [|d y _] using rev_ind.
  - rewrite app_nil_r in Hl. destruct u as [|d u _] using rev_ind; [left; exists l, []; by rewrite app_nil_r|].
    right. rewrite app_assoc in Hl. apply app_inj_tail in Hl as [Hl <-]. exists x, u. by rewrite Hl, app_assoc.
  - left. rewrite !app_assoc in Hl. apply app_inj_tail in Hl as [-> _]. exists x, y. by rewrite app_assoc.
Qed.

Lemma buffered_skip raw l p p' c : buffered raw l p → (p' = false → l = []) → buffered (raw ++ [c]) l p'.
Proof.
  intros [Hf Hs] Hp. split.
  - intros u Hu Hl. by apply factor_app_l, Hf.
  - intros ->%Hp x u _ Hl. destruct x, u; try done. exists (raw ++ [c]). by rewrite app_nil_r.
Qed.

Lemma buffered_push raw l c : (∀ x u, solid u → l = x ++ u → ∃ z, raw = z ++ u) →
  (∀ u, solid u → factor u l → factor u raw) → buffered (raw ++ [c]) (l ++ [c]) false.
Proof.
  intros Hs Hf. assert (∀ x u, solid u → l ++ [c] = x ++ u → ∃ z, raw ++ [c] = z ++ u) as Hsuf.
  { intros x u Hu Hl. destruct u as [|d u _] using rev_ind; [exists (raw ++ [c]); by rewrite app_nil_r|].
    rewrite app_assoc in Hl. apply app_inj_tail in Hl as [Hl <-]. apply Forall_app in Hu as [Hu _].
    destruct (Hs _ _ Hu Hl) as [z ->]. exists z. by rewrite app_assoc. }
  split; [|by intros _].
  intros u Hu [Hl|(x & v & Hl & ->)]%solid_snoc; [by apply factor_app_l, Hf|].
  destruct (Hsuf x (v ++ [c]) Hu Hl) as [z ->]. exists z, []. by rewrite app_nil_r.
Qed.

Lemma last_space l : ends_with_space l = true → ∃ k, l = k ++ [" "%char].
Proof.
  unfold ends_with_space. destruct l as [|c l _] using rev_ind; [done|]. rewrite last_snoc.
  intros ->%Ascii.eqb_eq. by exists l.
Qed.

Lemma after_space l x u : ends_with_space l = true → solid u → l = x ++ u → u = [].
Proof.
  intros [k ->]%last_space Hu Hl. destruct u as [|d u _] using rev_ind; [done|].
  rewrite app_assoc in Hl. apply app_inj_tail in Hl as [_ <-]. apply Forall_app in Hu as [_ Hu].
  by inversion Hu.
Qed.

Lemma snoc_space_factor u l : solid u → factor u (l ++ [" "%char]) → factor u l.
Proof.
  intros Hu [?|(x & v & _ & ->)]%solid_snoc; [done|]. apply Forall_app in Hu as [_ Hu]. by inversion Hu.
Qed.

Lemma rationale_step_buffered raw l p c : (zlength l < MAX_RISK_RATIONALE_LENGTH)%Z → buffered raw l p →
  buffered (raw ++ [c]) (rationale_step l p c).1 (rationale_step l p c).2.
Proof.
  intros Hlen Hb. unfold rationale_step.
  assert (∀ l : list ascii, negb (bool_decide (l = [])) = false → l = []) as Hemp.
  { intros k Hk. by apply negb_false_iff, bool_decide_eq_true in Hk. }
  destruct (is_ascii_whitespace c); [cbn [fst snd]; eapply buffered_skip; eauto|].
  destruct (rationale_char c); [|cbn [fst snd]; eapply buffered_skip; eauto]. cbn [fst snd].
  assert ((zlength l <? MAX_RISK_RATIONALE_LENGTH)%Z = true) as Hlt by (by apply Z.ltb_lt).
  destruct Hb as [Hf Hs]. rewrite Hlt, andb_true_r.
  destruct (p && negb (ends_with_space l)) eqn:Hp.
  - assert (∀ x u, solid u → l ++ [" "%char] = x ++ u → ∃ z, raw = z ++ u) as Hs'.
    { intros x u Hu Hl. apply (after_space (l ++ [" "%char])) in Hl as ->; [exists raw; by rewrite app_nil_r| |done].
      unfold ends_with_space. by rewrite last_snoc. }
    case_match.
    + apply buffered_push; [done|]. intros u Hu Hl. apply Hf; [done|]. by apply snoc_space_factor.
    + split; [intros u Hu Hl%snoc_space_factor; [by apply factor_app_l, Hf|done]|].
      intros _ x u Hu Hl. apply (after_space (l ++ [" "%char])) in Hl as ->; [exists (raw ++ [c]); by rewrite app_nil_r| |done].
      unfold ends_with_space. by rewrite last_snoc.
  - rewrite Hlt. apply buffered_push; [|done]. intros x u Hu Hl. destruct p; [|by eapply Hs].
    cbn [andb] in Hp. apply negb_false_iff in Hp. apply (after_space l x u Hp Hu) in Hl as ->.
    exists raw. by rewrite app_nil_r.
Qed.

Lemma rationale_loop_factor rest raw l p u : (zlength l < MAX_RISK_RATIONALE_LENGTH)%Z → buffered raw l p →
  solid u → factor u (rationale_loop rest l p) → factor u (raw ++ rest).
Proof.
  revert raw l p; induction rest as [|c rest IH]; intros raw l p Hlen Hb Hu; cbn [rationale_loop].
  - rewrite app_nil_r. by apply (bf_factor _ _ _ Hb).
  - pose proof (rationale_step_buffered raw l p c Hlen Hb) as Hb'.
    destruct (rationale_step l p c) as [l' p']. cbn [fst snd] in Hb'.
    destruct (Z.leb_spec MAX_RISK_RATIONALE_LENGTH (zlength l')).
    + intros Hl%(bf_factor _ _ _ Hb' u Hu). replace (raw ++ c :: rest) with ((raw ++ [c]) ++ rest) by (by rewrite <- app_assoc).
      by apply factor_app_l.
    + intros Hl. eapply IH in Hl; [|lia|done|done]. by rewrite <- app_assoc in Hl.
Qed.

Lemma normalized_factor s u : solid u → factor u (bytes (normalize_risk_rationale s)) →
  factor u (bytes s) ∨ normalize_risk_rationale s = DEFAULT_RISK_RATIONALE.
Proof.
  intros Hu. unfold normalize_risk_rationale.
  set (l := rationale_loop (bytes s) [] false). set (m := drop_while _ l).
  set (n := rev (drop_while (Ascii.eqb " ") (rev m))).
  assert (factor n l) as Hn.
  { destruct (drop_while_suffix (λ c, negb (is_ascii_alphanumeric c)) l) as [pre Hpre]. fold m in Hpre.
    destruct (drop_while_suffix (Ascii.eqb " ") (rev m)) as [tl Htl].
    apply (f_equal (@rev _)) in Htl. rewrite rev_involutive, rev_app_distr in Htl. fold n in Htl.
    exists pre, (rev tl). by rewrite <- Htl. }
  destruct n as [|c n'] eqn:Hn'; [by right|]. rewrite bytes_of_bytes. intros Hf. left.
  apply (rationale_loop_factor (bytes s) [] [] false u); [done| |done|by eapply factor_trans].
  split; [done|]. intros _ x v _ Hl. destruct x, v; try done. by exists [].
Qed.

(** ** The texts of an event *)

Definition evidence_texts (e : Evidence) : list text :=
  [evd_field e; evd_redacted_value e] ++ option_list (evd_hash e) ++ option_list (evd_rule_id e).

Definition anchor_texts (a : TimelineAnchor) : list text :=
  ta_rule_ids a ++ ta_categories a ++ ta_evidence_fields a.

Definition response_texts (r : ResponseMetadata) : list text :=
  [rm_recommended_action r; rm_response_playbook r; rm_investigation_summary r; rm_escalation r].

Definition process_texts (p : ProcessContext) : list text :=
  option_list (pc_host p) ++ option_list (pc_user p)
  ++ [pc_source_process_name p; pc_target_process_name p; pc_rule_name p; pc_dedup_key p; pc_rule_severity p]
  ++ option_list (pc_source_process_path p) ++ option_list (pc_source_process_command_line p)
  ++ option_list (pc_target_process_path p) ++ option_list (pc_target_process_command_line p)
  ++ option_list (pc_parent_process_name p) ++ option_list (pc_parent_process_path p)
  ++ option_list (pc_source_event_id p) ++ option_list (pc_risk_adjustment p)
  ++ pc_secondary_rule_ids p ++ pc_investigation_fields p ++ pc_falsepositives p.

(** Every text that is written, keys included, but the rationales. *)
Definition event_texts (e : Event) : list text :=
  [ev_timestamp e; ev_observed_at e; ev_ingested_at e; ev_time_source e; ev_time_confidence e;
   ev_schema_version e; ev_event_id e; ev_telltale_version e; ev_event_type e; ev_severity e; ev_client e;
   ev_session_id e]
  ++ option_list (ev_event_time e) ++ option_list (ev_time_override_reason e)
  ++ map (λ c, decode_str (rc_id c)) (ev_risk_contributions e)
  ++ option_list (ev_agent e) ++ option_list (ev_model e) ++ option_list (ev_provider e)
  ++ option_list (ev_source_path_hash e) ++ option_list (ev_tool_name e)
  ++ ev_rule_ids e ++ ev_categories e ++ ev_detection_classes e ++ ev_signal_types e
  ++ ev_analytic_intents e ++ ev_atlas_tags e ++ ev_tags e
  ++ concat (map evidence_texts (ev_evidence e)) ++ concat (map anchor_texts (ev_timeline_anchors e))
  ++ concat (map response_texts (option_list (ev_response e)))
  ++ concat (map (λ m, m.*1) (option_list (ev_source_counts e)))
  ++ option_list (ev_component e) ++ option_list (ev_check_name e) ++ option_list (ev_status e)
  ++ option_list (ev_active_policy_name e) ++ option_list (ev_confidence e)
  ++ option_list (ev_detection_reason e) ++ ev_mitre_attack_techniques e
  ++ option_list (ev_risk_entity_type e) ++ option_list (ev_risk_entity_value e)
  ++ concat (map process_texts (option_list (ev_process e))).

(** ** Texts without markers *)

Section privacy.
Context `{RegexesLaws}.

Notation clean := (clean word_char).

Definition no_markers (t : text) : Prop := Forall (λ q, clean q t) markers.

Lemma markers_plain q : q ∈ markers → plain q = true.
Proof. intros Hq. by apply guarded_plain, markers_guarded. Qed.

Lemma markers_searchable q : q ∈ markers → searchable q = true.
Proof.
  intros Hq%list_elem_of_In. assert (forallb searchable markers = true) as Hall by (vm_compute; reflexivity).
  rewrite forallb_forall in Hall. auto.
Qed.

Lemma clean_is_match r t : searchable r = true → is_match r t = false → clean r t.
Proof.
  intros Hr Hm a b Hab. pose proof (find_iter_scan r t Hr) as Hs. unfold is_match in Hm.
  destruct (find_iter r t); [|done]. inversion Hs as [? Hno|]; subst. apply (Hno a b); [lia|done].
Qed.

Lemma no_markers_contains t : contains_high_confidence_credential_marker t = false → no_markers t.
Proof.
  unfold contains_high_confidence_credential_marker, no_markers, markers, token_markers. cbn [app].
  rewrite !orb_false_iff. intros (((((? & ?) & ?) & ?) & ?) & ?).
  repeat apply Forall_cons_2; try apply Forall_nil_2; apply clean_is_match; (reflexivity || done).
Qed.

Lemma no_markers_credential t : contains_credential_material t = false → no_markers t.
Proof.
  unfold contains_credential_material. rewrite !orb_false_iff. intros Hc. apply no_markers_contains. tauto.
Qed.

(** A character no marker has. *)
Definition foreign_char (c : char) : bool := forallb (λ q, negb (alphabet q c)) markers.

Lemma no_markers_sep c x y : foreign_char c = true → no_markers x → no_markers y → no_markers (x ++ c :: y).
Proof.
  unfold foreign_char, no_markers. rewrite forallb_forall, !Forall_forall. intros Hc Hx Hy q Hq.
  apply clean_sep; [by apply markers_plain| |auto..]. apply negb_true_iff, Hc. by apply list_elem_of_In.
Qed.

Lemma no_markers_cons c y : foreign_char c = true → no_markers y → no_markers (c :: y).
Proof.
  intros Hc Hy. apply (no_markers_sep c [] y Hc); [|done]. apply Forall_forall. intros q Hq.
  by apply clean_nil, markers_plain.
Qed.

Lemma no_markers_few n A t : forallb (λ q, Nat.ltb n (least A q)) markers = true → foreign A t ≤ n → no_markers t.
Proof.
  rewrite forallb_forall. intros Hn Ht. apply Forall_forall. intros q Hq a b Hm.
  apply (least_spec _ A) in Hm. apply list_elem_of_In, Hn, Nat.ltb_lt in Hq.
  pose proof (foreign_slice_le A t a b). lia.
Qed.

Lemma no_markers_over A t : forallb (λ q, Nat.ltb 0 (least A q)) markers = true → Forall (λ c, c ∈ A) t → no_markers t.
Proof.
  intros Hn Ht. apply (no_markers_few 0 A); [done|]. unfold foreign.
  induction Ht as [|c t Hc _ IH]; [done|]. by rewrite filter_cons_False by naive_solver.
Qed.

Definition searched_clean (t : text) : bool :=
  forallb (λ q, negb (is_some (find_from word_char t (length t) q 0))) markers.

Lemma no_markers_searched t : searched_clean t = true → no_markers t.
Proof.
  unfold searched_clean. rewrite forallb_forall. intros Hs. apply Forall_forall. intros q Hq.
  apply clean_by_search; [by apply markers_searchable|]. apply list_elem_of_In, Hs in Hq.
  by destruct (find_from _ _ _ _ _).
Qed.

Lemma no_markers_lits l t : forallb (λ s, searched_clean (lit s)) l = true → lits l t = true → no_markers t.
Proof.
  unfold lits, text_in. rewrite forallb_forall. intros Hl Ht. apply existsb_exists in Ht as (u & Hu & He).
  apply bool_decide_eq_true in He as ->. apply in_map_iff in Hu as (s & <- & Hs).
  by apply no_markers_searched, Hl.
Qed.

Lemma no_markers_nil : no_markers [].
Proof. by apply no_markers_searched. Qed.

(** *** Identifiers *)

Context `{EventServicesLaws}.

Definition hex_chars : list char := lit "0123456789abcdef".

Lemma hex_lower_in c : hex_lower c = true → c ∈ hex_chars.
Proof.
  unfold hex_lower, ascii_digit, between. rewrite orb_true_iff, !andb_true_iff, !N.leb_le. intros Hc.
  change hex_chars with [48;49;50;51;52;53;54;55;56;57;97;98;99;100;101;102]%N. rewrite !elem_of_cons. lia.
Qed.

Lemma digit_in c : ascii_digit c = true → c ∈ hex_chars.
Proof. intros Hc. apply hex_lower_in. unfold hex_lower. by rewrite Hc. Qed.

Lemma hex_over p A t : (∀ c, p c = true → c ∈ hex_chars) → hex_chars ⊆ A → forallb p t = true → Forall (λ c, c ∈ A) t.
Proof. intros Hp HA. rewrite forallb_forall, Forall_forall. intros Ht c Hc%list_elem_of_In. auto. Qed.

Lemma no_markers_hex p t : (∀ c, p c = true → c ∈ hex_chars) → forallb p t = true → no_markers t.
Proof. intros Hp Ht. apply (no_markers_over hex_chars); [vm_compute; reflexivity|]. by eapply hex_over. Qed.

Lemma no_markers_sha256 t : is_canonical_sha256_hex t = true → no_markers t.
Proof. unfold is_canonical_sha256_hex. rewrite andb_true_iff. intros [_ Ht]. by apply (no_markers_hex hex_lower _ hex_lower_in). Qed.

Lemma no_markers_hash t : no_markers (evidence_hash t).
Proof. apply no_markers_sha256, evidence_hash_hex. Qed.

(** The marker [kind:digest] in brackets. *)
Lemma no_markers_marker k d : no_markers k → no_markers d → no_markers (lit "[" ++ k ++ lit ":" ++ d ++ lit "]").
Proof.
  intros Hk Hd. apply (no_markers_sep (ch "[") []); [reflexivity|apply no_markers_nil|].
  apply (no_markers_sep (ch ":") k); [reflexivity|done|].
  apply (no_markers_sep (ch "]") d []); [reflexivity|done|apply no_markers_nil].
Qed.

Lemma no_markers_opaque kind t : searched_clean (lit kind) = true → no_markers (opaque_identifier_for_hash_input kind t).
Proof. intros Hk. apply no_markers_marker; [by apply no_markers_searched|apply no_markers_hash]. Qed.

Lemma no_markers_prefixed s c t : foreign_char c = true → searched_clean (lit s) = true → no_markers t →
  no_markers (lit s ++ c :: t).
Proof. intros Hc Hs Ht. apply no_markers_sep; [done|by apply no_markers_searched|done]. Qed.

Lemma strip_spec p t r : strip p t = Some r → t = p ++ r.
Proof.
  revert t; induction p as [|a p IH]; intros t; cbn; [by intros [= <-]|]. destruct t as [|b t]; [done|].
  destruct (N.eqb_spec a b) as [->|]; [|done]. by intros <-%IH.
Qed.

Lemma find_text_spec p t i : find_text p t = Some i → t = take i t ++ p ++ drop (i + length p) t.
Proof.
  revert i; induction t as [|c t IH]; intros i; cbn [find_text].
  - unfold starts. destruct (strip p []) as [r|] eqn:Hs; [|done]. intros [= <-]. apply strip_spec in Hs.
    by destruct p.
  - unfold starts. destruct (strip p (c :: t)) as [r|] eqn:Hs; cbn [is_some].
    + intros [= <-]. apply strip_spec in Hs. rewrite Hs. cbn. by rewrite drop_app_length.
    + destruct (find_text p t) as [k|] eqn:Hk; [|done]. intros [= <-]. cbn. by rewrite <- (IH k eq_refl).
Qed.

Lemma split_once_spec p t a b : split_once p t = Some (a, b) → t = a ++ p ++ b.
Proof. unfold split_once. destruct (find_text p t) as [i|] eqn:Hi; [|done]. intros [= <- <-]. by apply find_text_spec. Qed.

Lemma no_markers_canonical_marker kind t : is_canonical_opaque_identifier_for_kind kind t = true → no_markers t.
Proof.
  unfold is_canonical_opaque_identifier_for_kind, parse_canonical_opaque_identifier, strip_end.
  destruct (strip (lit "[") t) as [b|] eqn:Hb; [|done]. apply strip_spec in Hb as ->.
  destruct (strip (reverse (lit "]")) (reverse b)) as [rb|] eqn:Hrb; [|done]. cbn [option_map].
  apply strip_spec in Hrb. apply (f_equal reverse) in Hrb. rewrite reverse_involutive, reverse_app in Hrb.
  rewrite Hrb. clear Hrb b. generalize (reverse rb). clear rb. intros b.
  destruct (split_once (lit ":") b) as [[k d]|] eqn:Hs; [|done]. apply split_once_spec in Hs as ->.
  destruct (_ || _ || _) eqn:Hc; [done|]. intros _. rewrite !orb_false_iff, !negb_false_iff in Hc.
  destruct Hc as [[Hk _] Hd]. change (reverse (reverse (lit "]"))) with (lit "]").
  rewrite <- !app_assoc. apply no_markers_marker.
  - eapply no_markers_lits; [|exact Hk]. vm_compute. reflexivity.
  - by apply (no_markers_hex hex_lower _ hex_lower_in).
Qed.

Ltac searched := vm_compute; reflexivity.

Lemma no_markers_identifier kind t : searched_clean (lit kind) = true → no_markers (terminal_identifier kind t).
Proof.
  intros Hk. unfold terminal_identifier. case_match eqn:Hc; [|by apply no_markers_opaque].
  rewrite !andb_true_iff, negb_true_iff in Hc. apply no_markers_credential. tauto.
Qed.

Lemma no_markers_tag t : no_markers (terminal_tag t).
Proof.
  unfold terminal_tag. destruct (strip _ t) as [name|]; [|apply no_markers_identifier; searched].
  apply (no_markers_prefixed "allowlist" (ch ":")); [reflexivity|searched|]. apply no_markers_opaque. searched.
Qed.

Lemma no_markers_session t : no_markers (terminal_session_id t).
Proof.
  unfold terminal_session_id. case_match eqn:Hc; [|apply no_markers_opaque; searched].
  rewrite andb_true_iff, negb_true_iff in Hc. apply no_markers_credential; tauto.
Qed.

Lemma split_chars_first p t w ws : split_chars p t = w :: ws →
  t = w ∧ ws = [] ∨ ∃ c t', p c = true ∧ t = w ++ c :: t' ∧ ws = split_chars p t'.
Proof.
  revert w ws; induction t as [|c t IH]; intros w ws; cbn; [intros [= <- <-]; by left|].
  destruct (p c) eqn:Hc; [intros [= <- <-]; right; by exists c, t|].
  destruct (split_chars p t) as [|w' ws'] eqn:Hs; [by destruct (split_chars_cons p t) as (? & ? & ?); congruence|].
  intros [= <- <-]. destruct (IH _ _ eq_refl) as [[-> ->]|(d & t' & Hd & -> & ->)]; [by left|right].
  by exists d, t'.
Qed.

Lemma no_markers_split c t : foreign_char c = true → Forall no_markers (split_chars (N.eqb c) t) → no_markers t.
Proof.
  intros Hc. induction t as [t IH] using (well_founded_induction (Wf_nat.well_founded_ltof _ (@length char))).
  destruct (split_chars_cons (N.eqb c) t) as (w & ws & Hs). rewrite Hs. intros [Hw Hws]%Forall_cons.
  apply split_chars_first in Hs as [[-> _]|(d & t' & Hd & -> & ->)]; [done|].
  apply N.eqb_eq in Hd as <-. apply no_markers_sep; [done..|]. apply IH; [|done].
  unfold Wf_nat.ltof. rewrite length_app. cbn. lia.
Qed.

Lemma no_markers_client t : no_markers (terminal_client_id t).
Proof.
  unfold terminal_client_id. case_match eqn:Hc; [|apply no_markers_opaque; searched].
  apply orb_true_iff in Hc as [Hc|Hc]; [by eapply no_markers_lits; [|exact Hc]; vm_compute|].
  apply (no_markers_split (ch ",")); [reflexivity|]. rewrite forallb_forall in Hc. apply Forall_forall.
  intros u Hu%list_elem_of_In%Hc. by eapply no_markers_lits; [|exact Hu]; vm_compute.
Qed.

Lemma no_markers_product kind t : searched_clean (lit kind) = true → no_markers (terminal_product_metadata kind t).
Proof.
  intros Hk. unfold terminal_product_metadata. case_match eqn:Hc; [|by apply no_markers_opaque].
  unfold is_safe_product_metadata in Hc. destruct (_ || contains_credential_material t) eqn:Ho; [done|].
  apply orb_false_iff in Ho as [_ Ho]. by apply no_markers_credential.
Qed.

Definition redacted_chars : list char := lit "redact." ++ hex_chars.

Lemma redacted_over t : Forall (λ c, c ∈ redacted_chars) (lit "redacted." ++ evidence_hash t).
Proof.
  apply Forall_app. split.
  - repeat constructor; apply (bool_decide_unpack _); vm_compute; exact I.
  - pose proof (evidence_hash_hex t) as Hh. unfold is_canonical_sha256_hex in Hh. rewrite andb_true_iff in Hh.
    destruct Hh as [_ Hh]. eapply hex_over; [exact hex_lower_in| |exact Hh].
    unfold redacted_chars. intros c Hin. apply elem_of_app. by right.
Qed.

Lemma no_markers_rule t : no_markers (terminal_rule_identifier t).
Proof.
  unfold terminal_rule_identifier. case_match eqn:Hc.
  - rewrite andb_true_iff, negb_true_iff in Hc. apply no_markers_credential; tauto.
  - apply (no_markers_over redacted_chars); [vm_compute; reflexivity|apply redacted_over].
Qed.

Lemma no_markers_atlas t : no_markers (terminal_atlas_tag t).
Proof.
  unfold terminal_atlas_tag. case_match eqn:Hc.
  - unfold is_safe_atlas_tag in Hc. rewrite !andb_true_iff, negb_true_iff in Hc. apply no_markers_credential. tauto.
  - apply (no_markers_prefixed "atlas" (ch ":")); [reflexivity|searched|apply no_markers_hash].
Qed.

Lemma no_markers_evidence_hash t : no_markers (terminal_evidence_hash t).
Proof. unfold terminal_evidence_hash. case_match; [by apply no_markers_sha256|apply no_markers_hash]. Qed.

Definition digit_chars : list char := lit "0123456789".

Lemma digit_char_in c : ascii_digit c = true → c ∈ digit_chars.
Proof.
  unfold ascii_digit, between. rewrite andb_true_iff, !N.leb_le. intros Hc.
  change digit_chars with [48;49;50;51;52;53;54;55;56;57]%N. rewrite !elem_of_cons. lia.
Qed.

Lemma no_markers_mitre t : no_markers (terminal_mitre_attack_technique t).
Proof.
  unfold terminal_mitre_attack_technique. case_match eqn:Hc;
    [|apply (no_markers_prefixed "mitre" (ch ":")); [reflexivity|searched|apply no_markers_hash]].
  apply orb_true_iff in Hc as [Hc|Hc].
  - apply (no_markers_few 2 digit_chars); [vm_compute; reflexivity|].
    unfold is_canonical_mitre_attack_technique in Hc. rewrite !andb_true_iff in Hc.
    destruct Hc as [[[Hlen HT] H4] H9].
    assert (∀ u, forallb ascii_digit u = true → foreign digit_chars u = 0) as Hdig.
    { intros u Hu. rewrite forallb_forall in Hu. unfold foreign.
      induction u as [|c u IH]; [done|]. rewrite filter_cons_False; [apply IH; intros; apply Hu; by right|].
      pose proof (digit_char_in c (Hu c ltac:(by left))). naive_solver. }
    destruct t as [|T t]; [done|]. rewrite <- (take_drop 4 t). cbn [drop take] in *.
    change (T :: ?l) with ([T] ++ l). rewrite !foreign_app. rewrite drop_0 in H4. rewrite (Hdig (take 4 t)) by done.
    assert (foreign digit_chars [T] ≤ 1) as HT1 by (unfold foreign; etrans; [apply length_filter|done]).
    apply orb_true_iff in H9 as [H9|H9].
    + apply Nat.eqb_eq in H9. cbn in H9. rewrite drop_ge by lia. change (foreign digit_chars []) with 0. lia.
    + apply andb_true_iff in H9 as [_ H9]. destruct (drop 4 t) as [|d u] eqn:Hd; [change (foreign digit_chars []) with 0; lia|].
      change (d :: u) with ([d] ++ u). rewrite foreign_app.
      assert (u = drop 5 t) as -> by (change 5 with (4 + 1); by rewrite <- drop_drop, Hd).
      rewrite (Hdig _ H9).
      assert (foreign digit_chars [d] ≤ 1) by (unfold foreign; etrans; [apply length_filter|done]). lia.
  - unfold is_canonical_mitre_hash in Hc. destruct (strip _ t) as [d|] eqn:Hs; [|done]. apply strip_spec in Hs as ->.
    apply (no_markers_prefixed "mitre" (ch ":")); [reflexivity|searched|by apply no_markers_sha256].
Qed.

Lemma no_markers_timestamp t : is_some (parse_event_timestamp t) = true → no_markers t.
Proof. intros Ht%timestamp_shape. apply (no_markers_few 1 timestamp_chars); [vm_compute; reflexivity|done]. Qed.

Lemma no_markers_valid_time t : is_valid_terminal_event_time t = true → no_markers t.
Proof.
  unfold is_valid_terminal_event_time. intros [Ht|Ht]%orb_true_iff;
    [by apply no_markers_timestamp|by eapply no_markers_canonical_marker].
Qed.

Lemma no_markers_event_time t : no_markers (terminal_event_time t).
Proof. unfold terminal_event_time. case_match; [by apply no_markers_valid_time|apply no_markers_opaque; searched]. Qed.

Lemma no_markers_event_id t : is_canonical_event_id t = true → no_markers t.
Proof.
  unfold is_canonical_event_id. destruct (strip _ t) as [u|] eqn:Hs; [|done]. apply strip_spec in Hs as ->.
  destruct (parse_uuid u) as [v|]; [|by rewrite andb_false_r]. rewrite !andb_true_iff. intros (_ & _ & Hu).
  apply bool_decide_eq_true in Hu. pose proof (uuid_shape v) as Hv. rewrite Hu in Hv.
  apply (no_markers_over (lit "telltale-" ++ uuid_chars)); [vm_compute; reflexivity|]. apply Forall_app. split.
  - repeat constructor; apply (bool_decide_unpack _); vm_compute; exact I.
  - eapply Forall_impl; [exact Hv|]. cbn beta. intros c Hc. apply elem_of_app. by right.
Qed.

(** *** Source counts *)

Definition known_sources : list text :=
  concat (map (λ c, map (λ k, lit c ++ lit "." ++ lit k)
    ["json"; "jsonl"; "archived_jsonl"; "headless_jsonl"; "sqlite"; "legacy_json"; "ui_messages_json";
     "copilot_process_log"])
    ["codex"; "claude"; "gemini"; "openclaw"; "qwen"; "roocode"; "kilocode"; "opencode"; "copilot"]).

Lemma text_in_spec t l : text_in t l = true ↔ t ∈ l.
Proof.
  unfold text_in. rewrite existsb_exists. split.
  - intros (u & Hu & He). apply bool_decide_eq_true in He as ->. by apply list_elem_of_In.
  - intros Ht%list_elem_of_In. exists t. split; [done|]. by apply bool_decide_eq_true.
Qed.

Lemma no_markers_source_prefix t : no_markers t → no_markers (lit "source_count:" ++ t).
Proof. apply (no_markers_prefixed "source_count" (ch ":")); [reflexivity|searched]. Qed.

Lemma no_markers_digits_suffix d s : digits_suffix d s = true → no_markers (d ++ lit ":" ++ s).
Proof.
  unfold digits_suffix. rewrite !andb_true_iff. intros [[Hd _] Hs]. apply (no_markers_sep (ch ":")); [reflexivity|..].
  - by apply no_markers_sha256.
  - by apply (no_markers_hex ascii_digit _ digit_in).
Qed.

Lemma no_markers_canonical_source t : is_canonical_source_count_key t = true → no_markers t.
Proof.
  unfold is_canonical_source_count_key. case_match eqn:Hk.
  - intros _. destruct (split_once _ t) as [[c k]|] eqn:Hs; [|done]. apply split_once_spec in Hs as ->.
    apply andb_true_iff in Hk as [Hc Hk]. unfold is_supported_client_identifier, is_supported_source_kind_identifier, lits in *.
    rewrite text_in_spec in Hc, Hk. apply list_elem_of_In in Hc, Hk.
    assert (In (c ++ lit "." ++ k) known_sources) as Hin.
    { apply in_map_iff in Hc as (c' & <- & Hc), Hk as (k' & <- & Hk). unfold known_sources. apply in_concat.
      eexists. split; [by apply (in_map _ _ c')|]. cbn beta. apply in_map_iff. by exists k'. }
    assert (forallb searched_clean known_sources = true) as Hall by (vm_compute; reflexivity).
    rewrite forallb_forall in Hall. by apply no_markers_searched, Hall.
  - destruct (strip _ t) as [v|] eqn:Hs; [|done]. apply strip_spec in Hs as ->.
    destruct (split_once _ v) as [[d s]|] eqn:Hv; intros Hc; apply no_markers_source_prefix.
    + apply split_once_spec in Hv as ->. by apply no_markers_digits_suffix.
    + by apply no_markers_sha256.
Qed.

Lemma no_markers_source_key t : no_markers (terminal_source_count_key t).
Proof.
  unfold terminal_source_count_key. case_match; [by apply no_markers_canonical_source|].
  apply no_markers_source_prefix, no_markers_hash.
Qed.

Lemma dec_loop_all fuel n acc : (0 ≤ n)%Z → Forall (λ c, is_ascii_digit c = true) acc →
  Forall (λ c, is_ascii_digit c = true) (dec_loop fuel n acc).
Proof.
  revert n acc; induction fuel as [|fuel IH]; intros n acc Hn Hacc; cbn [dec_loop]; [done|].
  pose proof (Z.mod_pos_bound n 10 ltac:(lia)). pose proof (Z.div_pos n 10 Hn ltac:(lia)).
  destruct (Z.ltb_spec n 10).
  - constructor; [apply digit_ok; lia|done].
  - apply IH; [done|]. constructor; [apply digit_ok; lia|done].
Qed.

Lemma ascii_digit_text c : is_ascii_digit c = true → ascii_digit (N_of_ascii c) = true.
Proof. by destruct c as [[] [] [] [] [] [] [] []]. Qed.

Lemma no_markers_decimal n : no_markers (lit (decimal (Z.of_nat n))).
Proof.
  apply (no_markers_hex ascii_digit _ digit_in). unfold lit, decimal. rewrite bytes_of_bytes.
  apply forallb_forall. intros c (a & <- & Ha%list_elem_of_In)%in_map_iff. apply ascii_digit_text.
  pose proof (dec_loop_all 20 (Z.of_nat n) [] ltac:(lia) (Forall_nil_2 _)) as Hall. rewrite Forall_forall in Hall. auto.
Qed.

Lemma no_markers_collision_base t : no_markers t → no_markers (source_count_collision_base t).
Proof.
  intros Ht. unfold source_count_collision_base. destruct (strip _ t) as [v|] eqn:Hs.
  - apply strip_spec in Hs as ->. destruct (split_once _ v) as [[d s]|]; [|done].
    case_match eqn:Hd; apply no_markers_source_prefix; [|apply no_markers_hash]. unfold digits_suffix in Hd. rewrite !andb_true_iff in Hd.
    apply no_markers_sha256. tauto.
  - apply no_markers_source_prefix, no_markers_hash.
Qed.

Lemma no_markers_free_suffix tries ex base k : no_markers base → no_markers (free_suffix tries ex base k).
Proof.
  intros Hb. assert (∀ k, no_markers (base ++ lit ":" ++ lit (decimal (Z.of_nat k)))) as Hc.
  { intros k'. apply (no_markers_sep (ch ":")); [reflexivity|done|apply no_markers_decimal]. }
  revert k; induction tries as [|tries IH]; intros k; cbn [free_suffix]; [apply Hc|].
  destruct (ex _); [apply IH|apply Hc].
Qed.

Lemma no_markers_unique keys t : no_markers t → no_markers (unique_source_count_key keys t).
Proof.
  intros Ht. unfold unique_source_count_key. case_match; [|done].
  by apply no_markers_free_suffix, no_markers_collision_base.
Qed.

Lemma no_markers_inserted {A} (key : list (text * Z) → A → text) (value : A → Z) l m :
  Forall no_markers m.*1 → (∀ m a, a ∈ l → no_markers (key m a)) →
  Forall no_markers (foldl (λ m a, bm_insert (key m a) (value a) m) m l).*1.
Proof.
  revert m; induction l as [|a l IH]; intros m Hm Hk; cbn [foldl]; [done|]. apply IH.
  - apply Forall_forall. intros t [->|Ht]%bm_insert_keys; [apply Hk; by left|].
    rewrite Forall_forall in Hm. auto.
  - intros m' a' Ha'. apply Hk. by right.
Qed.

Lemma no_markers_source_counts m : Forall no_markers (terminal_source_counts m).*1.
Proof.
  unfold terminal_source_counts.
  apply (no_markers_inserted (λ m kv, unique_source_count_key (m.*1) kv.1) (λ kv, kv.2)).
  - apply (no_markers_inserted (λ _ kv, terminal_source_count_key kv.1) (λ kv, kv.2)); [constructor|].
    intros ? ? _. apply no_markers_source_key.
  - intros m' [k v] Hin. cbn [fst]. apply no_markers_unique. apply list_elem_of_In, in_map_iff in Hin as (kv & [= <- <-] & _).
    apply no_markers_source_key.
Qed.

(** *** Strings *)

Definition ascii_text (t : text) : Prop := Forall (λ c, (c < 128)%N) t.

Lemma N_of_ascii_small n : (n < 256)%N → N_of_ascii (ascii_of_N n) = n.
Proof. intros Hn. by apply N_ascii_embedding. Qed.

Lemma utf8_high c : (128 ≤ c)%N → Forall (λ b, 128 ≤ b < 256)%N (utf8_char c) ∧ utf8_char c ≠ [].
Proof.
  intros Hc. unfold utf8_char. destruct (N.ltb_spec c 128); [lia|].
  pose proof (N.mod_lt c 64). pose proof (N.mod_lt (c / 64) 64). pose proof (N.mod_lt (c / 4096) 64).
  pose proof (N.mod_lt (c / 262144) 8). pose proof (N.le_0_l (c / 64)). pose proof (N.le_0_l (c / 4096)).
  pose proof (N.le_0_l (c mod 64)). pose proof (N.le_0_l (c / 64 mod 64)). pose proof (N.le_0_l (c / 4096 mod 64)).
  pose proof (N.le_0_l (c / 262144 mod 8)).
  destruct (N.ltb_spec c 2048); [|destruct (N.ltb_spec c 65536)]; split; try done.
  - assert (c / 64 < 32)%N by (apply N.Div0.div_lt_upper_bound; lia). repeat (apply Forall_cons_2; [cbn beta; lia|]); apply Forall_nil_2.
  - assert (c / 4096 < 16)%N by (apply N.Div0.div_lt_upper_bound; lia). repeat (apply Forall_cons_2; [cbn beta; lia|]); apply Forall_nil_2.
  - repeat (apply Forall_cons_2; [cbn beta; lia|]); apply Forall_nil_2.
Qed.

Lemma utf8_low c : (c < 128)%N → utf8_char c = [c].
Proof. intros Hc. unfold utf8_char. by destruct (N.ltb_spec c 128); [|lia]. Qed.

Lemma encode_bytes t : bytes (encode_str t) = map ascii_of_N (utf8_encode t).
Proof. unfold encode_str. by rewrite bytes_of_bytes. Qed.

Lemma is_ascii_code c : is_ascii c = true ↔ (N_of_ascii c < 128)%N.
Proof. split; [|intros Hc]; destruct c as [[] [] [] [] [] [] [] []]; vm_compute; try done; by destruct Hc. Qed.

Lemma encode_ascii t : forallb is_ascii (bytes (encode_str t)) = true → ascii_text t.
Proof.
  rewrite encode_bytes. unfold utf8_encode. induction t as [|c t IH]; [constructor|]. cbn [map concat].
  rewrite map_app, forallb_app, andb_true_iff. intros [Hc Ht]. constructor; [|by apply IH].
  destruct (N.ltb_spec c 128) as [|Hge]; [done|]. destruct (utf8_high c Hge) as [Hall Hne].
  destruct (utf8_char c) as [|b l]; [done|]. inversion Hall as [|? ? Hb _]; subst. cbn in Hc.
  rewrite andb_true_iff, is_ascii_code, N_of_ascii_small in Hc by lia. lia.
Qed.

Lemma decode_ascii s : forallb is_ascii (bytes s) = true → decode_str s = map N_of_ascii (bytes s).
Proof.
  unfold decode_str. induction (bytes s) as [|c l IH]; [done|]. cbn [forallb map]. rewrite andb_true_iff, is_ascii_code.
  intros [Hc Hl]. cbn [from_utf8_lossy]. destruct (N.ltb_spec (N_of_ascii c) 128); [|lia]. by rewrite IH.
Qed.

Lemma encode_of_ascii t : ascii_text t → bytes (encode_str t) = map ascii_of_N t.
Proof.
  intros Ht. rewrite encode_bytes. f_equal. unfold utf8_encode. induction Ht as [|c t Hc _ IH]; [done|].
  cbn [map concat]. by rewrite utf8_low, IH.
Qed.

Lemma decode_encode t : ascii_text t → decode_str (encode_str t) = t.
Proof.
  intros Ht. rewrite decode_ascii; rewrite encode_of_ascii by done.
  - rewrite map_map. induction Ht as [|c t Hc _ IH]; [done|]. cbn [map]. by rewrite N_of_ascii_small, IH by lia.
  - induction Ht as [|c t Hc _ IH]; [done|]. cbn [map forallb]. rewrite IH, andb_true_r.
    apply is_ascii_code. by rewrite N_of_ascii_small by lia.
Qed.

Lemma over_ascii A t : forallb (λ c, (c <? 128)%N) A = true → Forall (λ c, c ∈ A) t → ascii_text t.
Proof.
  rewrite forallb_forall. intros HA Ht. eapply Forall_impl; [exact Ht|]. cbn beta.
  intros c Hc%list_elem_of_In%HA. by apply N.ltb_lt.
Qed.

Lemma rule_identifier_ascii t : ascii_text (terminal_rule_identifier t).
Proof.
  unfold terminal_rule_identifier. case_match eqn:Hc.
  - apply andb_true_iff in Hc as [Hc _]. apply encode_ascii. unfold is_canonical_contribution_id in Hc.
    destruct (negb _ || negb (forallb is_ascii _)) eqn:Ho; [done|]. apply orb_false_iff in Ho as [_ Ho].
    by apply negb_false_iff in Ho.
  - apply (over_ascii redacted_chars); [vm_compute; reflexivity|apply redacted_over].
Qed.

(** *** Parts of an event *)

Lemma no_markers_sanitize context t : no_markers (sanitize context t).
Proof. apply sanitize_markers. Qed.

Lemma no_markers_historical kind f t : no_markers (f t) → no_markers (historical kind f t).
Proof. unfold historical. case_match eqn:Hc; [intros _; by eapply no_markers_canonical_marker|done]. Qed.

Lemma Forall_mapped {A B} (P : B → Prop) (f : A → B) l : (∀ a, P (f a)) → Forall P (map f l).
Proof. intros Hf. induction l; constructor; auto. Qed.

Lemma Forall_optional {A B} (P : B → Prop) (f : A → B) o : (∀ a, P (f a)) → Forall P (option_list (f <$> o)).
Proof. intros Hf. destruct o; [by apply Forall_singleton|constructor]. Qed.

Lemma Forall_concat_map {A B} (P : B → Prop) (f : A → list B) l : (∀ a, a ∈ l → Forall P (f a)) →
  Forall P (concat (map f l)).
Proof.
  induction l as [|a l IH]; intros Hf; cbn; [constructor|]. apply Forall_app. split; [apply Hf; by left|].
  apply IH. intros b Hb. apply Hf. by right.
Qed.

Lemma Forall_concat_optional {A B C} (P : B → Prop) (f : A → list B) (g : C → A) o :
  (∀ c, o = Some c → Forall P (f (g c))) → Forall P (concat (map f (option_list (g <$> o)))).
Proof. destruct o; intros Hf; cbn; [|constructor]. rewrite app_nil_r. by apply Hf. Qed.

Lemma no_markers_of_lit t s : searched_clean (lit s) = true → is_lit s t = true → no_markers t.
Proof. intros Hs Ht. apply bool_decide_eq_true in Ht as ->. by apply no_markers_searched. Qed.

Lemma no_markers_some_lit s o : searched_clean (lit s) = true → some_lit s o = true → Forall no_markers (option_list o).
Proof. destruct o; [|done]. intros Hs Ht. apply Forall_singleton. by eapply no_markers_of_lit. Qed.

Lemma no_markers_opt_lits l o : forallb (λ s, searched_clean (lit s)) l = true → opt_all (lits l) o = true →
  Forall no_markers (option_list o).
Proof. destruct o; intros Hs Ht; [|constructor]. apply Forall_singleton. by eapply no_markers_lits. Qed.

Lemma no_markers_all_lits l ts : forallb (λ s, searched_clean (lit s)) l = true → forallb (lits l) ts = true →
  Forall no_markers ts.
Proof.
  intros Hs. rewrite forallb_forall. intros Ht. apply Forall_forall. intros t Hin%list_elem_of_In%Ht.
  by eapply no_markers_lits.
Qed.

Lemma no_markers_none {A} (f : A → text) (o : option A) : none o = true → Forall no_markers (option_list (f <$> o)).
Proof. by destruct o. Qed.

Lemma no_markers_score t : is_some (parse_unsigned u64_max (encode_str t)) = true → no_markers t.
Proof.
  unfold parse_unsigned. intros Ht. assert (forallb (λ c, is_ascii_digit c || byte_eqb c "+") (bytes (encode_str t)) = true) as Hall.
  { revert Ht. unfold strip_plus. destruct (bytes (encode_str t)) as [|c l]; [done|].
    assert (∀ l, forallb is_ascii_digit l = true → forallb (λ c, is_ascii_digit c || byte_eqb c "+") l = true) as Himp.
    { intros k. rewrite !forallb_forall. intros Hk x Hx. by rewrite (Hk x Hx). }
    destruct (byte_eqb c "+") eqn:Hc.
    - cbn [forallb]. rewrite Hc, orb_true_r. destruct l as [|d l]; [done|]. case_match eqn:Hd; [|done].
      intros _. by apply Himp.
    - case_match eqn:Hd; [|done]. intros _. by apply Himp. }
  clear Ht. assert (ascii_text t) as Hasc.
  { apply encode_ascii. rewrite forallb_forall in *. intros c Hc%Hall. clear -Hc.
    destruct c as [[] [] [] [] [] [] [] []]; vm_compute in Hc |- *; congruence. }
  rewrite encode_of_ascii in Hall by done. apply (no_markers_over (lit "+" ++ digit_chars)); [vm_compute; reflexivity|].
  rewrite forallb_forall in Hall. unfold ascii_text in Hasc. rewrite Forall_forall in *. intros c Hc.
  specialize (Hasc c Hc). specialize (Hall (ascii_of_N c) ltac:(by apply in_map, list_elem_of_In)).
  apply orb_true_iff in Hall as [Hd|Hp].
  - apply elem_of_app. right. apply digit_char_in. apply ascii_digit_text in Hd. by rewrite N_of_ascii_small in Hd by lia.
  - apply elem_of_app. left. unfold byte_eqb in Hp. apply Ascii.eqb_eq in Hp.
    apply (f_equal N_of_ascii) in Hp. rewrite N_of_ascii_small in Hp by lia. subst c. by left.
Qed.

Lemma no_markers_imported_session c t : no_markers (terminal_imported_session_id c t).
Proof. destruct c; [apply no_markers_historical|]; apply no_markers_session. Qed.

Lemma no_markers_labelled s t u : searched_clean (lit s) = true → no_markers t → no_markers u →
  no_markers (t ++ ch ";" :: lit s ++ ch "=" :: u).
Proof.
  intros Hs Ht Hu. apply no_markers_sep; [reflexivity|done|].
  apply no_markers_sep; [reflexivity|by apply no_markers_searched|done].
Qed.

Lemma no_markers_related c t : no_markers (terminal_related_detection c t).
Proof.
  unfold terminal_related_detection, related_parts.
  destruct (split_text _ t) as [|a [|b [|cc [|d [|e []]]]]]; try apply no_markers_sanitize.
  repeat (destruct (strip _ _); [|apply no_markers_sanitize]).
  destruct (is_some _) eqn:Hr; [|apply no_markers_sanitize].
  apply (no_markers_prefixed "session_id" (ch "=")); [reflexivity|searched|].
  apply (no_markers_labelled " event_id"); [searched|apply no_markers_imported_session|].
  apply (no_markers_labelled " timestamp"); [searched| |].
  { destruct (c && _) eqn:Hc; [|apply no_markers_identifier; searched].
    apply andb_true_iff in Hc as [_ Hc]. by eapply no_markers_canonical_marker. }
  apply (no_markers_labelled " severity"); [searched|apply no_markers_event_time|].
  apply (no_markers_labelled " risk_score"); [searched|apply no_markers_identifier; searched|].
  by apply no_markers_score.
Qed.

Ltac clean_text :=
  first
    [ apply no_markers_sanitize | apply no_markers_rule | apply no_markers_event_time | apply no_markers_session
    | apply no_markers_client | apply no_markers_tag | apply no_markers_atlas | apply no_markers_mitre
    | apply no_markers_evidence_hash | apply no_markers_related
    | apply no_markers_identifier; searched | apply no_markers_product; searched
    | apply no_markers_opaque; searched ].

(** Splits a list of texts; what is terminal by its own rule is done. *)
Ltac clean_texts :=
  repeat match goal with
  | |- Forall no_markers (_ ++ _) => apply Forall_app; split
  | |- Forall no_markers [] => apply Forall_nil_2
  | |- Forall no_markers (_ :: _) => apply Forall_cons_2
  | |- Forall no_markers (option_list (_ <$> _)) => apply Forall_optional; intros ?; clean_text
  | |- Forall no_markers (map _ _) => apply Forall_mapped; intros ?; clean_text
  | |- no_markers _ => clean_text
  end.

Lemma no_markers_evidence e : Forall no_markers (evidence_texts (terminal_evidence e)).
Proof. unfold evidence_texts, terminal_evidence. cbn [evd_field evd_redacted_value evd_hash evd_rule_id].
  clean_texts. repeat case_match; clean_text. Qed.

Lemma no_markers_anchor a : Forall no_markers (anchor_texts (terminal_timeline_anchor a)).
Proof. unfold anchor_texts, terminal_timeline_anchor. cbn [ta_rule_ids ta_categories ta_evidence_fields]. clean_texts. Qed.

Lemma no_markers_response_text f t : no_markers (sanitize_response_text f t).
Proof.
  unfold sanitize_response_text. case_match eqn:Hk; [|apply no_markers_sanitize].
  destruct (String.eqb f "recommended_action"); [by eapply no_markers_lits; [|exact Hk]; vm_compute|].
  destruct (String.eqb f "escalation"); [by eapply no_markers_lits; [|exact Hk]; vm_compute|].
  destruct (String.eqb f "response_playbook"); [by eapply no_markers_lits; [|exact Hk]; vm_compute|done].
Qed.

Lemma no_markers_response r : Forall no_markers (response_texts (terminal_response_metadata r)).
Proof. unfold response_texts. repeat (apply Forall_cons_2; [apply no_markers_response_text|]). apply Forall_nil_2. Qed.

Lemma no_markers_process p : lits VALID_DETECTION_SEVERITIES (pc_rule_severity p) = true →
  Forall no_markers (process_texts (terminal_process_context p)).
Proof.
  intros Hs. unfold process_texts, terminal_process_context. cbn [pc_host pc_user pc_source_process_name pc_source_process_path pc_source_process_id pc_source_process_command_line pc_target_process_name pc_target_process_path pc_target_process_id pc_target_process_command_line pc_parent_process_name pc_parent_process_path pc_source_event_id pc_source_process_inferred pc_rule_name pc_secondary_rule_ids pc_investigation_fields pc_falsepositives pc_dedup_key pc_suppression_window_seconds pc_rule_severity pc_risk_adjustment]. clean_texts.
  by eapply no_markers_lits; [|exact Hs]; vm_compute.
Qed.

Lemma no_markers_entity o t : no_markers (terminal_risk_entity_value o t).
Proof. unfold terminal_risk_entity_value. repeat case_match; clean_text. Qed.

Lemma no_markers_contribution c : no_markers (decode_str (rc_id (for_emission c))).
Proof. cbn [for_emission rc_id]. rewrite decode_encode by apply rule_identifier_ascii. apply no_markers_rule. Qed.

(** The fields that only the checks control. *)
Definition checks (e : Event) : list text :=
  option_list (ev_component e) ++ option_list (ev_check_name e) ++ option_list (ev_status e).

Lemma no_checks_clean e : no_checks e = true → Forall no_markers (checks e).
Proof.
  unfold no_checks, checks. rewrite !andb_true_iff.
  destruct (ev_component e), (ev_check_name e), (ev_status e); intros [[? ?] ?]; done.
Qed.

Lemma scanner_check_clean n s e : searched_clean (lit n) = true → searched_clean (lit s) = true →
  scanner_check n s e = true → Forall no_markers (checks e).
Proof.
  unfold scanner_check, checks. rewrite !andb_true_iff. intros Hn Hs [[Hc Hk] Ht].
  repeat (apply Forall_app; split); eapply no_markers_some_lit; [|exact Hc| |exact Hk| |exact Ht]; done || searched.
Qed.

Lemma profile_checks e : profile e = true → Forall no_markers (checks e).
Proof.
  unfold profile, activity_profile, inventory_profile, detection_profile, session_risk_summary_profile,
    health_profile, scanner_error_profile, operational_alert_profile, process_chain_profile, correlation_profile.
  repeat match goal with |- (if ?b then _ else _) = true → _ => destruct b end;
    rewrite ?andb_true_iff; intros Hp; try done; try (apply no_checks_clean; tauto).
  - apply (scanner_check_clean "install_inventory" "ok"); [searched..|tauto].
  - apply (scanner_check_clean "source_discovery" "ok"); [searched..|tauto].
  - apply (scanner_check_clean "source_parse" "degraded"); [searched..|tauto].
  - unfold checks. assert (some_lit "scanner" (ev_component e) = true ∧ some_lit "degraded" (ev_status e) = true ∧
      match ev_check_name e with Some v => lits VALID_OPERATIONAL_CHECK_NAMES v | None => false end = true)
      as (Hc & Hs & Hn) by tauto.
    repeat (apply Forall_app; split).
    + eapply no_markers_some_lit; [|exact Hc]. searched.
    + apply (no_markers_opt_lits VALID_OPERATIONAL_CHECK_NAMES); [searched|]. by destruct (ev_check_name e).
    + eapply no_markers_some_lit; [|exact Hs]. searched.
Qed.

(** What the checks say of any event. *)
Record controlled_texts (e : Event) : Prop := {
  ct_times : Forall no_markers [ev_timestamp e; ev_observed_at e; ev_ingested_at e];
  ct_words : Forall no_markers [ev_time_source e; ev_time_confidence e; ev_schema_version e; ev_event_id e;
                                ev_telltale_version e; ev_event_type e; ev_severity e];
  ct_classes : Forall no_markers (ev_detection_classes e);
  ct_signals : Forall no_markers (ev_signal_types e);
  ct_intents : Forall no_markers (ev_analytic_intents e);
  ct_confidence : Forall no_markers (option_list (ev_confidence e));
  ct_entity : Forall no_markers (option_list (ev_risk_entity_type e));
  ct_component : Forall no_markers (option_list (ev_component e));
  ct_check : Forall no_markers (option_list (ev_check_name e));
  ct_status : Forall no_markers (option_list (ev_status e));
  ct_process : opt_all (λ p, lits VALID_DETECTION_SEVERITIES (pc_rule_severity p)) (ev_process e) = true;
}.

Lemma controlled_clean h e : terminal_controlled_fields_are_valid h e = true → controlled_texts e.
Proof.
  unfold terminal_controlled_fields_are_valid. rewrite andb_true_iff. intros [Hc Hp%profile_checks].
  unfold checks in Hp. rewrite !Forall_app in Hp. destruct Hp as (Hcomp & Hname & Hstat).
  unfold common_controls in Hc. rewrite !andb_true_iff in Hc.
  destruct Hc as (((((((((((((((((Hid & Hts) & Hobs) & Hing) & Het) & Hsch) & Hver) & Hsrc) & Hconf) & Hty) & Hsev)
    & Hdc) & Hst) & Hai) & Hcf) & Hret) & Hresp) & Hproc).
  apply bool_decide_eq_true in Hsch.
  assert (no_markers (ev_telltale_version e)) as Hv.
  { destruct h; [apply andb_true_iff in Hver as [_ Hver%negb_true_iff]; by apply no_markers_credential|].
    apply bool_decide_eq_true in Hver as ->. apply no_markers_searched. searched. }
  split; try done.
  - repeat (apply Forall_cons_2; [by apply no_markers_timestamp|]). apply Forall_nil_2.
  - clean_texts; try assumption.
    + by eapply no_markers_lits; [|exact Hsrc]; vm_compute.
    + by eapply no_markers_lits; [|exact Hconf]; vm_compute.
    + rewrite Hsch. apply no_markers_searched. searched.
    + by apply no_markers_event_id.
    + by eapply no_markers_lits; [|exact Hty]; vm_compute.
    + by eapply no_markers_lits; [|exact Hsev]; vm_compute.
  - by eapply no_markers_all_lits; [|exact Hdc]; vm_compute.
  - by eapply no_markers_all_lits; [|exact Hst]; vm_compute.
  - by eapply no_markers_all_lits; [|exact Hai]; vm_compute.
  - by eapply no_markers_opt_lits; [|exact Hcf]; vm_compute.
  - by eapply no_markers_opt_lits; [|exact Hret]; vm_compute.
Qed.

Ltac clean_times Ht := apply Forall_cons in Ht as [? Ht].

Lemma emitted_clean e : terminal_controlled_fields_are_valid false (terminal_emittable_event e) = true →
  Forall no_markers (event_texts (terminal_emittable_event e)).
Proof.
  intros [Ht Hw Hdc Hst Hai Hcf Het Hco Hch Hsta Hpr]%controlled_clean.
  revert Ht Hw Hdc Hst Hai Hcf Het Hco Hch Hsta Hpr.
  unfold event_texts, terminal_emittable_event. cbn [ev_timestamp ev_event_time ev_observed_at ev_ingested_at ev_time_source ev_time_confidence ev_time_override_reason ev_schema_version ev_event_id ev_telltale_version ev_event_type ev_severity ev_risk_score ev_risk_contributions ev_client ev_agent ev_model ev_provider ev_session_id ev_source_path_hash ev_tool_name ev_rule_ids ev_categories ev_detection_classes ev_signal_types ev_analytic_intents ev_atlas_tags ev_tags ev_evidence ev_timeline_anchors ev_response ev_source_counts ev_component ev_check_name ev_status ev_scan_duration_ms ev_rule_count ev_threshold_config ev_active_policy_name ev_emitted_count ev_suppressed_count ev_scanner_error_count ev_informational ev_confidence ev_detection_reason ev_mitre_attack_techniques ev_risk_entity_type ev_risk_entity_value ev_process].
  intros. repeat clean_times Ht. repeat clean_times Hw. clean_texts; try assumption.
  - rewrite map_map. apply Forall_mapped. apply no_markers_contribution.
  - rewrite map_map. apply Forall_concat_map. intros x _. apply no_markers_evidence.
  - rewrite map_map. apply Forall_concat_map. intros x _. apply no_markers_anchor.
  - apply Forall_concat_optional. intros. apply no_markers_response.
  - apply (Forall_concat_optional _ (λ m, m.*1)). intros. apply no_markers_source_counts.
  - apply Forall_optional. intros. apply no_markers_entity.
  - apply Forall_concat_optional. intros p Hp. rewrite Hp in Hpr. by apply no_markers_process.
Qed.

(** *** Historical events *)

(** Evidence that [terminal_imported_evidence] may keep with its hash and rule. *)
Definition kept_evidence (x : Evidence) : bool :=
  is_lit "related_detection" (evd_field x) || is_lit "allowlist" (evd_field x).

Lemma imported_evidence_clean c x :
  (kept_evidence x = true → Forall no_markers (option_list (evd_hash x) ++ option_list (evd_rule_id x))) →
  Forall no_markers (evidence_texts (terminal_imported_evidence c x)).
Proof.
  intros Hx. unfold terminal_imported_evidence. unfold kept_evidence in Hx.
  destruct (c && _ && _) eqn:Ha; [|destruct (is_lit "related_detection" (evd_field x)) eqn:Hr; [|apply no_markers_evidence]].
  - rewrite !andb_true_iff in Ha. destruct Ha as [[_ Hal] Hm]. rewrite Hal, orb_true_r in Hx. unfold evidence_texts.
    apply Forall_app. split; [|by apply Hx]. clean_texts.
    + eapply no_markers_of_lit; [|exact Hal]. searched.
    + by eapply no_markers_canonical_marker.
  - unfold evidence_texts. cbn [evd_field evd_redacted_value evd_hash evd_rule_id]. apply Forall_app.
    split; [|by apply Hx]. clean_texts. eapply no_markers_of_lit; [|exact Hr]. searched.
Qed.

Lemma historical_clean e : terminal_controlled_fields_are_valid true (terminal_historical_derived_event e) = true →
  Forall (λ x, kept_evidence x = true → Forall no_markers (option_list (evd_hash x) ++ option_list (evd_rule_id x)))
    (ev_evidence e) →
  Forall no_markers (event_texts (terminal_historical_derived_event e)).
Proof.
  intros [Ht Hw Hdc Hst Hai Hcf Het Hco Hch Hsta Hpr]%controlled_clean Hev.
  revert Ht Hw Hdc Hst Hai Hcf Het Hco Hch Hsta Hpr.
  unfold event_texts, terminal_historical_derived_event, terminal_emittable_event. cbn [ev_timestamp ev_event_time ev_observed_at ev_ingested_at ev_time_source ev_time_confidence ev_time_override_reason ev_schema_version ev_event_id ev_telltale_version ev_event_type ev_severity ev_risk_score ev_risk_contributions ev_client ev_agent ev_model ev_provider ev_session_id ev_source_path_hash ev_tool_name ev_rule_ids ev_categories ev_detection_classes ev_signal_types ev_analytic_intents ev_atlas_tags ev_tags ev_evidence ev_timeline_anchors ev_response ev_source_counts ev_component ev_check_name ev_status ev_scan_duration_ms ev_rule_count ev_threshold_config ev_active_policy_name ev_emitted_count ev_suppressed_count ev_scanner_error_count ev_informational ev_confidence ev_detection_reason ev_mitre_attack_techniques ev_risk_entity_type ev_risk_entity_value ev_process].
  intros. repeat clean_times Ht. repeat clean_times Hw. clean_texts; try assumption;
    try (apply no_markers_historical; clean_text);
    try (apply Forall_optional; intros; apply no_markers_historical; clean_text);
    try (apply Forall_mapped; intros; apply no_markers_historical; clean_text).
  - rewrite map_map. apply Forall_mapped. apply no_markers_contribution.
  - rewrite map_map. apply Forall_concat_map. intros x Hx. apply imported_evidence_clean.
    rewrite Forall_forall in Hev. by apply Hev.
  - rewrite map_map. apply Forall_concat_map. intros x _. apply no_markers_anchor.
  - apply Forall_concat_optional. intros. apply no_markers_response.
  - apply (Forall_concat_optional _ (λ m, m.*1)). intros. apply no_markers_source_counts.
  - apply Forall_optional. intros. apply no_markers_entity.
  - apply Forall_concat_optional. intros p Hp. rewrite Hp in Hpr. by apply no_markers_process.
Qed.

(** *** Rationales *)

Lemma encode_cons c t : bytes (encode_str (c :: t)) = map ascii_of_N (utf8_char c) ++ bytes (encode_str t).
Proof. rewrite !encode_bytes. unfold utf8_encode. cbn [map concat]. by rewrite map_app. Qed.

Lemma high_bytes c : (128 ≤ c)%N → Forall (λ b, is_ascii b = false) (map ascii_of_N (utf8_char c)).
Proof.
  intros [Hall _]%utf8_high. induction Hall as [|b l Hb _ IH]; [constructor|]. cbn [map]. constructor; [|done].
  destruct (is_ascii (ascii_of_N b)) eqn:Ha; [|done]. rewrite is_ascii_code, N_of_ascii_small in Ha by lia. lia.
Qed.

Lemma ascii_prefix u t y : forallb is_ascii u = true → bytes (encode_str t) = u ++ y →
  ∃ z, t = map N_of_ascii u ++ z.
Proof.
  revert t; induction u as [|b u IH]; intros t Hu Ht; [by exists t|]. cbn in Hu. apply andb_true_iff in Hu as [Hb Hu].
  destruct t as [|c t]; [done|]. rewrite encode_cons in Ht. destruct (N.ltb_spec c 128) as [Hc|Hc].
  - rewrite utf8_low in Ht by done. injection Ht as <- Ht. destruct (IH t Hu Ht) as [z ->].
    exists z. cbn. by rewrite N_of_ascii_small by lia.
  - pose proof (high_bytes c Hc) as Hh. destruct (utf8_high c Hc) as [_ Hne].
    destruct (utf8_char c) as [|d l]; [done|]. cbn in Ht, Hh. injection Ht as <- _. inversion Hh; subst. congruence.
Qed.

Lemma ascii_factor u t : forallb is_ascii u = true → u ≠ [] → factor u (bytes (encode_str t)) →
  factor (map N_of_ascii u) t.
Proof.
  intros Hu Hne. induction t as [|c t IH]; intros (x & y & Ht).
  - destruct x, u; done.
  - pose proof Ht as Ht0. rewrite encode_cons in Ht. apply app_eq_app in Ht as (l & [[Hx Ht]|[Hx Ht]]).
    + destruct (decide (l = [])) as [->|Hl].
      { rewrite app_nil_r in Hx. destruct (IH ltac:(exists [], y; done)) as (x' & y' & ->). by exists (c :: x'), y'. }
      destruct (N.ltb_spec c 128) as [Hc|Hc].
      * rewrite utf8_low in Hx by done. destruct x as [|? x]; cbn in Hx; [|destruct x; cbn in Hx; by destruct l].
        destruct (ascii_prefix u (c :: t) y Hu Ht0) as [z ->]. by exists [], z.
      * exfalso. pose proof (high_bytes c Hc) as Hh. rewrite Hx in Hh. apply Forall_app in Hh as [_ Hh].
        destruct l as [|d l]; [done|]. destruct u as [|b u]; [done|]. injection Ht as <- _. inversion Hh; subst.
        cbn in Hu. apply andb_true_iff in Hu as [Hu _]. congruence.
    + destruct IH as (x' & y' & ->); [exists l, y; by rewrite Ht|]. by exists (c :: x'), y'.
Qed.

Lemma rationale_ascii s : rationale_ok s → forallb is_ascii (bytes s) = true.
Proof.
  intros (_ & Hc & _). apply forallb_forall. intros c Hin%list_elem_of_In. rewrite Forall_forall in Hc.
  specialize (Hc c Hin). clear Hin. destruct c as [[] [] [] [] [] [] [] []]; vm_compute in Hc |- *; congruence.
Qed.

Lemma token_clean q t : q ∈ token_markers → no_markers t → clean q t.
Proof. intros Hq Ht. unfold no_markers in Ht. rewrite Forall_forall in Ht. apply Ht. unfold markers. set_solver. Qed.

Lemma normalized_tokens q t : q ∈ token_markers → no_markers t →
  clean q (decode_str (normalize_risk_rationale (encode_str t))).
Proof.
  intros Hq Ht a b Hm. set (s := normalize_risk_rationale (encode_str t)) in *.
  pose proof (rationale_ascii s (normalize_rationale_ok _)) as Hasc. pose proof Hm as Hm0.
  rewrite decode_ascii in Hm by done.
  assert (q ∈ guarded) as Hg by (unfold guarded; set_solver).
  destruct (match_factor word_char _ q a b (guarded_plain q Hg) Hm) as (x & u & y & Hn & Hx & Hu & Hsp).
  rewrite Hn in Hm. pose proof (token_inked word_char q x u y a b Hq Hm Hx Hu) as Hink.
  apply map_eq_app in Hn as (bx & l & Hb & Hbx & Hl).
  apply map_eq_app in Hl as (bu & by_ & -> & Hbu & Hby).
  assert (solid bu) as Hsolid.
  { apply Forall_forall. intros c Hc ->. unfold inked in Hink. rewrite <- Hbu, Forall_forall in Hink.
    assert (32%N ∈ map N_of_ascii bu) as Hin.
    { apply list_elem_of_In, in_map_iff. exists " "%char. split; [done|]. by apply list_elem_of_In. }
    by specialize (Hink _ Hin). }
  destruct (normalized_factor (encode_str t) bu Hsolid) as [Hf|Hd]; [exists bx, by_; done| |].
  - apply ascii_factor in Hf as (p & z & ->).
    + rewrite Hbu in Ht. apply (token_clean q _ Hq) in Ht. by apply (spells_dirty word_char q p u z) in Ht.
    + rewrite Hb, !forallb_app, !andb_true_iff in Hasc. tauto.
    + intros ->. subst u. pose proof (mt_nonempty _ _ _ _ _ Hm) as Hlt.
      apply guarded_plain, andb_true_iff in Hg as [_ Hg]. apply negb_true_iff in Hg. apply Hlt in Hg. cbn in Hu. lia.
  - fold s in Hd. rewrite Hd in Hm0. revert Hm0. apply (token_clean q); [done|].
    apply no_markers_searched. searched.
Qed.

(** The rationale of an emitted contribution. *)
Lemma emitted_rationale_tokens c q : q ∈ token_markers → clean q (decode_str (rc_rationale (for_emission c))).
Proof. intros Hq. apply normalized_tokens; [done|]. apply no_markers_sanitize. Qed.

(** C3: Emitted events hold no credential marker.  When an event serializes, no text it is
    written with, keys of maps included and the rationales of contributions apart, holds a
    high-confidence credential marker (the six patterns of the check), and no rationale
    holds one of the five token patterns: whatever its fields were, each is sanitized,
    replaced by a marker with a digest, or refused.  Private key headers in rationales are
    not claimed here: normalization joins words again, and it is the constructor of a
    contribution that refuses them. *)
Theorem emitted_event_private e w : serialize e = Ok w →
  Forall (λ t, contains_high_confidence_credential_marker t = false) (event_texts w) ∧
  Forall (λ c, Forall (λ q, is_match q (decode_str (rc_rationale c)) = false) token_markers) (ev_risk_contributions w).
Proof.
  unfold serialize. destruct (negb _); [done|]. destruct (negb _) eqn:Hv; [done|]. intros [= <-].
  apply negb_false_iff in Hv. split.
  - eapply Forall_impl; [by apply emitted_clean|]. intros t Ht. by apply marker_free.
  - apply Forall_mapped. intros c. apply Forall_forall. intros q Hq. apply is_match_clean.
    + apply markers_searchable. unfold markers. set_solver.
    + by apply emitted_rationale_tokens.
Qed.

End privacy.
