(* ===== verification/EventHistory.v ===== *)
(** * Events that were emitted before

    What the historical policies keep of values that Telltale wrote, which event texts
    they let through, and that no source count is lost when its key is replaced. *)

From S2P Require Import Prelude Ordered Rstr Scoring JournalNames Unicode Regex RegexRef RedactPatterns Redaction RedactionSafe EventIdentifiers EventEmit EventPrivacy.
From Stdlib Require Import Ascii.

Local Open Scope nat_scope.

(** ** Markers are recognized *)

Lemma strip_app p t : strip p (p ++ t) = Some t.
Proof. induction p as [|a p IH]; cbn; [done|]. by rewrite N.eqb_refl. Qed.

Lemma strip_end_app p t : strip_end p (t ++ p) = Some t.
Proof. unfold strip_end. rewrite reverse_app, strip_app. cbn. by rewrite reverse_involutive. Qed.

Lemma split_once_char c a b : Forall (λ d, d ≠ c) a → split_once [c] (a ++ c :: b) = Some (a, b).
Proof.
  intros Ha. unfold split_once. assert (find_text [c] (a ++ c :: b) = Some (length a)) as ->.
  { induction Ha as [|d a Hd _ IH]; cbn [app find_text].
    - unfold starts. cbn. by rewrite N.eqb_refl.
    - unfold starts. cbn [strip]. destruct (N.eqb_spec c d); [congruence|]. cbn [is_some]. by rewrite IH. }
  rewrite take_app_length. do 2 f_equal. rewrite <- drop_drop, drop_app_length. done.
Qed.

Section history.
Context `{RegexesLaws} `{EventServicesLaws}.

Definition registered (kind : string) : Prop := kind ∈ CANONICAL_OPAQUE_IDENTIFIER_KINDS.

Lemma registered_kind kind : registered kind →
  lits CANONICAL_OPAQUE_IDENTIFIER_KINDS (lit kind) = true ∧ Forall (λ d, d ≠ ch ":") (lit kind).
Proof.
  intros Hk. split; [apply text_in_spec, list_elem_of_In, in_map, list_elem_of_In, Hk|].
  assert (forallb (λ k, forallb (λ d, negb (N.eqb d (ch ":"))) (lit k)) CANONICAL_OPAQUE_IDENTIFIER_KINDS = true) as Hall
    by (vm_compute; reflexivity).
  rewrite forallb_forall in Hall. apply list_elem_of_In, Hall in Hk. rewrite forallb_forall in Hk.
  apply Forall_forall. intros d Hd%list_elem_of_In%Hk. by apply negb_true_iff, N.eqb_neq in Hd.
Qed.

Lemma opaque_canonical kind t : registered kind →
  is_canonical_opaque_identifier_for_kind kind (opaque_identifier_for_hash_input kind t) = true.
Proof.
  intros [Hl Hk]%registered_kind. unfold is_canonical_opaque_identifier_for_kind, parse_canonical_opaque_identifier,
    opaque_identifier_for_hash_input.
  rewrite strip_app, !app_assoc, strip_end_app, <- app_assoc. change (lit ":") with [ch ":"].
  cbn [app]. rewrite split_once_char by done. rewrite Hl.
  pose proof (evidence_hash_hex t) as Hh. unfold is_canonical_sha256_hex in Hh. apply andb_true_iff in Hh as [-> ->].
  cbn. by apply bool_decide_eq_true.
Qed.

(** A policy that keeps a value or gives a marker of its kind. *)
Definition marks (kind : string) (f : text → text) : Prop :=
  ∀ t, f t = t ∨ ∃ u, f t = opaque_identifier_for_hash_input kind u.

Lemma historical_marks kind f t : registered kind → marks kind f → historical kind f (f t) = f t.
Proof.
  intros Hk Hf. unfold historical. destruct (Hf t) as [Ht|[u Hu]].
  - rewrite !Ht. by case_match.
  - rewrite Hu at 1. by rewrite opaque_canonical.
Qed.

Lemma marks_identifier kind : marks kind (terminal_identifier kind).
Proof. intros t. unfold terminal_identifier. case_match; [by left|right; by eexists]. Qed.
Lemma marks_product kind : marks kind (terminal_product_metadata kind).
Proof. intros t. unfold terminal_product_metadata. case_match; [by left|right; by eexists]. Qed.
Lemma marks_session : marks "session" terminal_session_id.
Proof. intros t. unfold terminal_session_id. case_match; [by left|right; by eexists]. Qed.
Lemma marks_client : marks "client" terminal_client_id.
Proof. intros t. unfold terminal_client_id. case_match; [by left|right; by eexists]. Qed.
Lemma marks_tool : marks "tool" terminal_tool_label.
Proof. intros t. unfold terminal_tool_label. case_match; [by left|apply marks_identifier]. Qed.

(** C32: What Telltale wrote stays as it was written.  The historical policies give back
    every session, client, tool label, product name and identifier of a registered kind
    that the native policies produced, whether it was kept or replaced by a marker, so
    these values stay correlatable when an event is read again.  It is not so of rule
    identifiers ([replaced_rule_identifier_unstable]). *)
Theorem historical_keeps_emitted kind t : registered kind →
  terminal_historical_session_id (terminal_session_id t) = terminal_session_id t ∧
  terminal_historical_client_id (terminal_client_id t) = terminal_client_id t ∧
  terminal_historical_tool_label (terminal_tool_label t) = terminal_tool_label t ∧
  terminal_historical_identifier kind (terminal_identifier kind t) = terminal_identifier kind t ∧
  terminal_historical_product_metadata kind (terminal_product_metadata kind t) = terminal_product_metadata kind t.
Proof.
  intros Hk. assert (∀ k, In k CANONICAL_OPAQUE_IDENTIFIER_KINDS → registered k) as Hr by (intros k; apply list_elem_of_In).
  split_and!; apply historical_marks; auto using marks_session, marks_client, marks_tool, marks_identifier, marks_product;
    apply Hr; cbn; tauto.
Qed.

(** ** Replaced rule identifiers *)

Lemma str_len_hex l : Forall (λ c, hex_lower c = true) l → str_len l = Z.of_nat (length l).
Proof.
  induction 1 as [|c l Hc _ IH]; [done|]. cbn [str_len foldr length]. fold (str_len l). rewrite IH.
  assert (utf8_len c = 1%Z) as ->; [|lia]. unfold hex_lower, ascii_digit, between, utf8_len in *.
  rewrite orb_true_iff, !andb_true_iff, !N.leb_le in Hc. destruct (N.ltb_spec c 128); [done|lia].
Qed.

Lemma digest_spec t : length (evidence_hash t) = 64 ∧ Forall (λ c, hex_lower c = true) (evidence_hash t).
Proof.
  pose proof (evidence_hash_hex t) as Hh. unfold is_canonical_sha256_hex in Hh. apply andb_true_iff in Hh as [Hl Hh].
  rewrite forallb_forall in Hh. assert (Forall (λ c, hex_lower c = true) (evidence_hash t)) as Hall.
  { apply Forall_forall. intros c Hc%list_elem_of_In. auto. }
  split; [|done]. apply Z.eqb_eq in Hl.
  rewrite str_len_hex in Hl by done. lia.
Qed.

Lemma replaced_ascii t : ascii_text (lit "redacted." ++ evidence_hash t).
Proof. apply (over_ascii redacted_chars); [vm_compute; reflexivity|apply redacted_over]. Qed.

(** The replacement is a canonical identifier. *)
Lemma replaced_canonical t : is_canonical_contribution_id (encode_str (lit "redacted." ++ evidence_hash t)) = true.
Proof.
  destruct (digest_spec t) as [Hlen Hhex]. unfold is_canonical_contribution_id.
  rewrite len_bytes, encode_of_ascii by apply replaced_ascii. rewrite map_app.
  set (h := map ascii_of_N (evidence_hash t)).
  assert (Forall (λ c, id_char c = true ∧ is_ascii c = true ∧ Ascii.eqb "." c = false) h) as Hh.
  { unfold h. clear Hlen h. induction Hhex as [|c l Hc _ IH]; constructor; [|done]. clear IH.
    apply hex_lower_in in Hc. unfold hex_chars, lit in Hc. apply list_elem_of_In, in_map_iff in Hc as (b & <- & Hb).
    rewrite ascii_N_embedding. assert (forallb (λ c, id_char c && is_ascii c && negb (Ascii.eqb "." c)) (bytes "0123456789abcdef") = true)
      as Hall by (vm_compute; reflexivity). rewrite forallb_forall in Hall. apply Hall in Hb.
    rewrite !andb_true_iff, negb_true_iff in Hb. tauto. }
  assert (length h = 64) as Hl by (unfold h; by rewrite length_map).
  change (map ascii_of_N (lit "redacted.")) with (bytes "redacted" ++ ["."%char]). rewrite <- app_assoc. cbn [app].
  assert (split_on (Ascii.eqb ".") h = [h]) as Hsp.
  { clear Hl. clearbody h. induction Hh as [|c l (_ & _ & Hc) _ IH]; [done|]. cbn [split_on]. by rewrite Hc, IH. }
  assert (forallb is_ascii h = true ∧ forallb id_char h = true) as [Ha Hi].
  { clear -Hh. clearbody h. split; induction Hh as [|c l (? & ? & ?) _ IH]; [done| |done|]; cbn; by rewrite IH, andb_true_r. }
  rewrite !length_app. cbn [length]. rewrite Hl. cbn [Z.of_nat]. rewrite forallb_app. cbn [forallb]. rewrite Ha.
  cbn. rewrite Hsp. cbn. rewrite Hi. destruct h; [done|]. done.
Qed.

Lemma is_match_found r t a b : searchable r = true → mt word_char t r a b → is_match r t = true.
Proof.
  intros Hr Hm. destruct (is_match r t) eqn:Hn; [done|]. by apply (clean_is_match r t Hr Hn) in Hm.
Qed.

(** The digest of a replacement looks like encoded data. *)
Lemma replaced_blob t : is_match ENCODED_BLOB_RE (lit "redacted." ++ evidence_hash t) = true.
Proof.
  destruct (digest_spec t) as [Hlen Hhex]. set (h := evidence_hash t) in *.
  assert (∀ k c, h !! k = Some c → word_char c = true ∧ ascii_alphanumeric c = true) as Hword.
  { intros k c Hk. eapply Forall_lookup in Hhex; [|exact Hk]. cbn in Hhex.
    assert (ascii_alphanumeric c = true ∧ (c < 128)%N) as [Ha Hc].
    { unfold hex_lower, ascii_alphanumeric, ascii_alphabetic, ascii_lower, ascii_upper, ascii_digit, between in *.
      rewrite !orb_true_iff, !andb_true_iff, !N.leb_le in *. lia. }
    split; [|done]. by rewrite word_char_ascii, Ha by done. }
  apply (is_match_found _ _ 9 73); [reflexivity|]. unfold ENCODED_BLOB_RE. cbn [cats foldr].
  apply (mt_cat _ _ _ _ _ 9).
  { constructor. unfold word_boundary, word_at. change ((lit "redacted." ++ h) !! 9) with (h !! 0).
    destruct (lookup_lt_is_Some_2 h 0 ltac:(lia)) as [c Hc]. rewrite Hc. destruct (Hword _ _ Hc) as [-> _].
    change ((lit "redacted." ++ h) !! 8) with (Some 46%N). cbn iota. by rewrite (word_char_ascii 46). }
  apply (mt_cat _ _ _ _ _ 73).
  { pose proof (spells_repeat word_char (λ c, ascii_alphanumeric c || among "+/" c) 20 h) as Hsp.
    specialize (Hsp ltac:(apply Forall_lookup; intros k c Hk; by destruct (Hword _ _ Hk) as [_ ->]) ltac:(lia)).
    specialize (Hsp (lit "redacted.") []). rewrite app_nil_r, Hlen in Hsp. exact Hsp. }
  apply (mt_cat _ _ _ _ _ 73); [constructor|]. apply (mt_cat _ _ _ _ _ 73); [|constructor]. constructor.
  unfold word_boundary, word_at. rewrite (lookup_ge_None_2 _ 73) by (rewrite length_app, Hlen; cbn; lia).
  destruct (lookup_lt_is_Some_2 h 63 ltac:(lia)) as [c Hc].
  change ((lit "redacted." ++ h) !! 72) with (h !! 63). rewrite Hc. by destruct (Hword _ _ Hc) as [-> _].
Qed.

(** A replaced rule identifier is replaced again.  [redacted.<digest>] is a canonical
    rule identifier, but [terminal_rule_identifier] takes its digest for encoded data and
    gives the digest of the replacement: reading an emitted event again changes the
    identifier, unlike the identifiers of the other kinds. *)
Theorem replaced_rule_identifier_unstable t : terminal_rule_identifier t ≠ t →
  let replaced := terminal_rule_identifier t in
  is_canonical_contribution_id (encode_str replaced) = true ∧
  terminal_rule_identifier replaced = lit "redacted." ++ evidence_hash replaced.
Proof.
  unfold terminal_rule_identifier at 1 2. intros Ht. case_match; [done|]. cbn zeta.
  split; [apply replaced_canonical|]. unfold terminal_rule_identifier. rewrite replaced_canonical.
  assert (contains_credential_material (lit "redacted." ++ evidence_hash t) = true) as ->; [|done].
  unfold contains_credential_material. rewrite replaced_blob, !orb_true_r. done.
Qed.

(** ** Contributions *)

Lemma encode_decode s : forallb is_ascii (bytes s) = true → encode_str (decode_str s) = s.
Proof.
  intros Hs. apply bytes_inj. rewrite decode_ascii by done. rewrite encode_of_ascii.
  - rewrite map_map. clear Hs. induction (bytes s) as [|c l IH]; cbn; [done|]. by rewrite ascii_N_embedding, IH.
  - rewrite forallb_forall in Hs. apply Forall_forall. intros c (b & -> & Hb)%list_elem_of_fmap.
    by apply is_ascii_code, Hs, list_elem_of_In.
Qed.

Lemma canonical_id_ascii s : is_canonical_contribution_id s = true → forallb is_ascii (bytes s) = true.
Proof.
  unfold is_canonical_contribution_id. destruct (negb _ || negb (forallb is_ascii (bytes s))) eqn:Ho; [done|].
  apply orb_false_iff in Ho as [_ Ho]. by apply negb_false_iff in Ho.
Qed.

(** Emission keeps what was accounted.  A contribution that risk accounting validates
    with the sanitizer keeps its identifier, its type and its points when it is emitted, so
    contributions still sum to the score and still name the rules of the event. *)
Theorem emitted_contribution_kept (c : RiskContribution) : @validate sanitizer_privacy c = Ok tt →
  rc_id (for_emission c) = rc_id c ∧ rc_type (for_emission c) = rc_type c ∧
  rc_points (for_emission c) = rc_points c.
Proof.
  unfold validate. destruct (is_empty _); [done|]. destruct (negb (is_canonical_contribution_id (rc_id c)) || _) eqn:Hid; [done|].
  intros _. apply orb_false_iff in Hid as [Hid Hcred]. apply negb_false_iff in Hid. cbn in Hcred.
  split; [|done]. cbn [for_emission rc_id]. pose proof (canonical_id_ascii _ Hid) as Ha.
  unfold terminal_rule_identifier. rewrite (encode_decode _ Ha), Hid, Hcred. cbn [andb negb]. by apply encode_decode.
Qed.

(** ** Historical events *)

(** Derived events keep the boundary.  An event serialized from historical ones
    writes no high-confidence credential marker either, provided that the hash and the
    rule of evidence of the fields [related_detection] and [allowlist], which the
    historical policy copies as they are, hold none. *)
Theorem historical_event_private e w : serialize_historical e = Ok w →
  Forall (λ x, kept_evidence x = true →
    Forall (λ t, contains_high_confidence_credential_marker t = false)
      (option_list (evd_hash x) ++ option_list (evd_rule_id x))) (ev_evidence e) →
  Forall (λ t, contains_high_confidence_credential_marker t = false) (event_texts w).
Proof.
  unfold serialize_historical. destruct (negb _); [done|]. destruct (negb _) eqn:Hv; [done|]. intros [= <-] Hev.
  apply negb_false_iff in Hv. eapply Forall_impl; [apply historical_clean; [done|]|intros t Ht; by apply marker_free].
  eapply Forall_impl; [exact Hev|]. cbn beta. intros x Hx Hk. eapply Forall_impl; [by apply Hx|].
  intros t Ht. by apply no_markers_contains.
Qed.

(** ** Source counts *)

Definition candidate (base : text) (n : nat) : text := base ++ lit ":" ++ lit (decimal (Z.of_nat n)).

Lemma lit_inj s t : lit s = lit t → s = t.
Proof.
  unfold lit. intros Hl. apply bytes_inj. revert Hl. generalize (bytes s) (bytes t).
  induction l as [|a l IH]; intros [|b k]; cbn; try done. intros [= Ha Hl]. f_equal; [|auto].
  rewrite <- (ascii_N_embedding a), <- (ascii_N_embedding b). by rewrite Ha.
Qed.

Lemma suffixed_inj base i j : (Z.of_nat i < 10 ^ 20)%Z → (Z.of_nat j < 10 ^ 20)%Z →
  candidate base i = candidate base j → i = j.
Proof.
  intros Hi Hj He. unfold candidate in He. apply app_inv_head, app_inv_head, lit_inj in He.
  destruct (decimal_digits (Z.of_nat i)) as [Vi _ _ _]; [lia|].
  destruct (decimal_digits (Z.of_nat j)) as [Vj _ _ _]; [lia|]. rewrite He in Vi. lia.
Qed.

Lemma free_suffix_spec tries ex base k : ∃ j, k ≤ j ≤ k + tries ∧ free_suffix tries ex base k = candidate base j ∧
  (∀ i, k ≤ i < j → ex (candidate base i) = true) ∧ (ex (candidate base j) = false ∨ j = k + tries).
Proof.
  revert k; induction tries as [|tries IH]; intros k; cbn [free_suffix]; fold (candidate base k).
  - exists k. split_and!; [lia|lia|done|intros; lia|right; lia].
  - destruct (ex (candidate base k)) eqn:Hk.
    + destruct (IH (S k)) as (j & Hj & Hf & Hall & Hend). exists j. split_and!; [lia|lia|done| |].
      * intros i Hi. destruct (decide (i = k)) as [->|]; [done|]. apply Hall. lia.
      * destruct Hend; [by left|right; lia].
    + exists k. split_and!; [lia|lia|done|intros; lia|by left].
Qed.

(** There is one candidate more than there are keys. *)
Lemma unique_fresh keys t : (Z.of_nat (length keys) + 2 < 10 ^ 20)%Z → unique_source_count_key keys t ∉ keys.
Proof.
  intros Hl. unfold unique_source_count_key. destruct (text_in t keys) eqn:Ht.
  2:{ intros Hin%text_in_spec. congruence. }
  set (base := source_count_collision_base t).
  destruct (free_suffix_spec (length keys) (λ c, text_in c keys) base 2) as (j & Hj & -> & Hall & Hend).
  intros Hin. apply text_in_spec in Hin as Hin'. destruct Hend as [Hend|Hend]; [congruence|].
  assert (NoDup (map (candidate base) (seq 2 (S (length keys))))) as Hnd.
  { apply NoDup_fmap_2_strong; [|apply NoDup_seq]. intros i i' Hi%elem_of_seq Hi'%elem_of_seq.
    apply suffixed_inj; lia. }
  assert (map (candidate base) (seq 2 (S (length keys))) ⊆ keys) as Hsub.
  { intros c Hc%list_elem_of_In. apply in_map_iff in Hc as (i & <- & Hi%in_seq). apply text_in_spec.
    destruct (decide (i = j)) as [->|]; [done|]. apply (Hall i). lia. }
  pose proof (submseteq_length _ _ (NoDup_submseteq _ _ Hnd Hsub)) as Hle.
  rewrite length_map, length_seq in Hle. lia.
Qed.

Lemma bm_insert_fresh (k : text) (v : Z) m : k ∉ m.*1 → bm_insert k v m ≡ₚ (k, v) :: m.
Proof.
  induction m as [|[k' v'] m IH]; intros Hk; cbn [bm_insert]; [done|].
  destruct (cmp k k') eqn:Hc.
  - apply cmp_eq in Hc as ->. exfalso. apply Hk. by left.
  - done.
  - rewrite IH by (intros ?; apply Hk; by right). apply Permutation_swap.
Qed.

Notation counts := (list (text * Z)).

Lemma canonical_counts (l m : counts) : NoDup l.*1 → (∀ k, k ∈ l.*1 → k ∉ m.*1) →
  Forall (λ kv, is_canonical_source_count_key kv.1 = true) l → bm_wf m →
  let r := foldl (λ m kv, bm_insert (terminal_source_count_key kv.1) kv.2 m) m l in
  r ≡ₚ m ++ l ∧ bm_wf r.
Proof.
  revert m; induction l as [|[k v] l IH]; intros m Hnd Hfresh Hcan Hwf; cbn [foldl]; [by rewrite app_nil_r|].
  cbn in Hnd. apply NoDup_cons in Hnd as [Hk Hnd]. apply Forall_cons in Hcan as [Hc Hcan]. cbn [fst snd] in *.
  assert (terminal_source_count_key k = k) as -> by (unfold terminal_source_count_key; by rewrite Hc).
  assert (k ∉ m.*1) as Hkm by (apply Hfresh; by left).
  destruct (IH (bm_insert k v m)) as [Hp Hw]; [done| |done|by apply bm_insert_wf|].
  - intros k' Hk' [->|Hin]%bm_insert_keys; [done|]. eapply Hfresh; [|done]. by right.
  - split; [|done]. rewrite Hp, (bm_insert_fresh k v m Hkm). apply (Permutation_middle m l (k, v)).
Qed.

Lemma pending_counts (l m : counts) : (Z.of_nat (length m + length l) + 2 < 10 ^ 20)%Z → bm_wf m →
  let r := foldl (λ m kv, bm_insert (unique_source_count_key (m.*1) kv.1) kv.2 m) m l in
  r.*2 ≡ₚ m.*2 ++ l.*2 ∧ bm_wf r ∧ m ⊆ r.
Proof.
  revert m; induction l as [|[k v] l IH]; intros m Hlen Hwf; cbn [foldl fst snd].
  - rewrite app_nil_r. done.
  - cbn [length] in Hlen. set (k' := unique_source_count_key (m.*1) k).
    assert (k' ∉ m.*1) as Hk by (apply unique_fresh; rewrite length_fmap; lia).
    pose proof (bm_insert_fresh k' v m Hk) as Hp.
    destruct (IH (bm_insert k' v m)) as (Hv & Hw & Hsub); [rewrite Hp; cbn [length]; lia|by apply bm_insert_wf|].
    split_and!; [|done|].
    + rewrite Hv, Hp. cbn. by rewrite Permutation_middle.
    + intros kv Hkv. apply Hsub. rewrite Hp. by right.
Qed.

(** No source count is lost.  Replacing keys that are not canonical keeps the map well
    formed and every count in it, also when two replaced keys collide, with each other or
    with a key that is kept; a canonical key keeps its own count.  The search for a free
    suffix ends. *)
Theorem source_counts_kept (m : counts) : bm_wf m → (Z.of_nat (length m) + 2 < 10 ^ 20)%Z →
  let r := terminal_source_counts m in
  bm_wf r ∧ r.*2 ≡ₚ m.*2 ∧
  (∀ k v, (k, v) ∈ m → is_canonical_source_count_key k = true → bm_get k r = Some v).
Proof.
  intros Hwf Hlen. unfold terminal_source_counts.
  set (can := filter (λ kv, is_canonical_source_count_key kv.1 = true) m).
  set (oth := filter (λ kv, is_canonical_source_count_key kv.1 = false) m).
  assert (m ≡ₚ can ++ oth) as Hm.
  { unfold can, oth. clear. induction m as [|kv m IH]; [done|]. rewrite !filter_cons.
    destruct (is_canonical_source_count_key kv.1); cbn; [by rewrite IH at 1|].
    rewrite IH at 1. by rewrite Permutation_middle. }
  assert (NoDup can.*1) as Hnd.
  { pose proof (bm_wf_nodup m Hwf) as Hn. rewrite Hm, fmap_app in Hn. by apply NoDup_app in Hn as [? _]. }
  destruct (canonical_counts can []) as [Hp Hw]; [done|by intros k _ ?%not_elem_of_nil| |constructor|].
  { apply Forall_forall. intros kv Hkv. unfold can in Hkv. by apply list_elem_of_filter in Hkv as [? _]. }
  set (emitted := foldl _ [] can) in *. cbn [app] in Hp.
  set (pending := map _ oth). assert (pending.*2 = oth.*2) as Hv.
  { unfold pending. clear. induction oth as [|kv l IH]; cbn; [done|]. by f_equal. }
  assert (length m = length can + length oth) as Hl by (by rewrite Hm, length_app).
  destruct (pending_counts pending emitted) as (Hpv & Hpw & Hsub); [|done|].
  { rewrite Hp. unfold pending. rewrite length_map. lia. }
  split_and!; [done| |].
  - rewrite Hpv, Hp, Hv, <- fmap_app, <- Hm. done.
  - intros k v Hkv Hk. apply bm_get_elem; [done|]. apply Hsub. rewrite Hp. unfold can.
    by apply list_elem_of_filter.
Qed.

End history.

Module Sample.
Import Reference.

Definition stamp : text := lit "2026-01-02T03:04:05Z".
Definition sample_uuid : text := lit "0b1f2c3d-4e5f-4a6b-8c7d-8e9fa0b1c2d3".
Definition digest : text := lit "00112233445566778899aabbccddeeff00112233445566778899aabbccddeeff".

#[local] Instance services : EventServices := {
  evidence_hash _ := digest;
  parse_event_timestamp t := if text_eqb t stamp then Some 0%Z else None;
  uuid := unit;
  parse_uuid t := if text_eqb t sample_uuid then Some tt else None;
  get_version_num _ := 4%Z;
  uuid_text _ := sample_uuid;
}.

#[local] Instance services_laws : EventServicesLaws.
Proof.
  split.
  - intros t. vm_compute. reflexivity.
  - intros t. cbn [parse_event_timestamp services]. destruct (text_eqb t stamp) eqn:Ht; [|done]. intros _.
    apply bool_decide_eq_true in Ht as ->. apply (bool_decide_unpack _). vm_compute. exact I.
  - intros []. repeat constructor; apply (bool_decide_unpack _); vm_compute; exact I.
Qed.

Definition token : text := lit "ghp_abcdefghijklmnop".

Definition contribution : RiskContribution :=
  {| rc_id := "secret.env"; rc_type := DeterministicRule; rc_points := 5%Z; rc_rationale := "read (a) file" |}.

(** A summary with evidence. *)
Definition summary (x : Evidence) : Event :=
  {| ev_timestamp := stamp; ev_event_time := Some (lit "yesterday"); ev_observed_at := stamp; ev_ingested_at := stamp;
     ev_time_source := lit "source"; ev_time_confidence := lit "high"; ev_time_override_reason := None;
     ev_schema_version := NATIVE_SCHEMA_VERSION; ev_event_id := lit "telltale-" ++ sample_uuid;
     ev_telltale_version := TELLTALE_VERSION; ev_event_type := lit "session_risk_summary";
     ev_severity := lit "high"; ev_risk_score := 5%Z; ev_risk_contributions := [contribution];
     ev_client := lit "codex"; ev_agent := Some (lit "codex"); ev_model := None; ev_provider := None;
     ev_session_id := token; ev_source_path_hash := None; ev_tool_name := Some (lit "Bash");
     ev_rule_ids := [lit "secret.env"; token]; ev_categories := []; ev_detection_classes := [];
     ev_signal_types := []; ev_analytic_intents := []; ev_atlas_tags := []; ev_tags := [];
     ev_evidence := [x]; ev_timeline_anchors := []; ev_response := None; ev_source_counts := None;
     ev_component := None; ev_check_name := None; ev_status := None; ev_scan_duration_ms := None;
     ev_rule_count := None; ev_threshold_config := None; ev_active_policy_name := None;
     ev_emitted_count := None; ev_suppressed_count := None; ev_scanner_error_count := None;
     ev_informational := None; ev_confidence := None; ev_detection_reason := None;
     ev_mitre_attack_techniques := []; ev_risk_entity_type := None; ev_risk_entity_value := None;
     ev_process := None |}.

Definition command : Evidence :=
  {| evd_field := lit "command"; evd_redacted_value := lit "echo ghp_abcdefghijklmnop"; evd_hash := None;
     evd_rule_id := Some token |}.
Definition related : Evidence :=
  {| evd_field := lit "related_detection"; evd_redacted_value := lit "none"; evd_hash := None;
     evd_rule_id := Some token |}.

Lemma emitted_event_private_witness : ∃ w, serialize (summary command) = Ok w ∧
  Forall (λ t, contains_high_confidence_credential_marker t = false) (event_texts w).
Proof.
  exists (terminal_emittable_event (summary command)).
  assert (serialize (summary command) = Ok (terminal_emittable_event (summary command))) as He
    by (unfold serialize; replace (terminal_controlled_fields_are_valid false _) with true
          by (vm_compute; reflexivity); reflexivity).
  split; [exact He|]. apply (emitted_event_private (summary command) _ He).
Defined.

Lemma historical_event_private_witness : ∃ w, serialize_historical (summary command) = Ok w ∧
  Forall (λ t, contains_high_confidence_credential_marker t = false) (event_texts w).
Proof.
  exists (terminal_historical_derived_event (summary command)).
  assert (serialize_historical (summary command) = Ok (terminal_historical_derived_event (summary command))) as He
    by (unfold serialize_historical; replace (terminal_controlled_fields_are_valid true _) with true
          by (vm_compute; reflexivity); reflexivity).
  split; [exact He|]. apply (historical_event_private (summary command) _ He).
  apply Forall_singleton. intros Hk. vm_compute in Hk. discriminate Hk.
Defined.

(** The historical policy lets a credential through.  Evidence of the field
    [related_detection] keeps its rule identifier when an event is serialized as a
    derived one: a rule identifier that is a token is written out, while the native
    policy replaces it. *)
Theorem related_evidence_leaks :
  (∃ w, serialize (summary related) = Ok w ∧
     existsb contains_high_confidence_credential_marker (concat (map evidence_texts (ev_evidence w))) = false) ∧
  ∃ w, serialize_historical (summary related) = Ok w ∧
     existsb contains_high_confidence_credential_marker (concat (map evidence_texts (ev_evidence w))) = true.
Proof.
  split.
  - exists (terminal_emittable_event (summary related)). split; [|vm_compute; reflexivity].
    unfold serialize. replace (terminal_controlled_fields_are_valid false _) with true by (vm_compute; reflexivity).
    reflexivity.
  - exists (terminal_historical_derived_event (summary related)). split; [|vm_compute; reflexivity].
    unfold serialize_historical.
    replace (terminal_controlled_fields_are_valid true _) with true by (vm_compute; reflexivity). reflexivity.
Qed.

Lemma historical_keeps_emitted_witness :
  terminal_session_id token ≠ token ∧
  terminal_historical_session_id (terminal_session_id token) = terminal_session_id token.
Proof.
  split; [apply (bool_decide_unpack _); vm_compute; exact I|].
  refine (proj1 (historical_keeps_emitted "tool" token _)). apply (bool_decide_unpack _). vm_compute. exact I.
Defined.

Lemma replaced_rule_identifier_unstable_witness :
  terminal_rule_identifier (terminal_rule_identifier token) = lit "redacted." ++ digest.
Proof.
  refine (proj2 (replaced_rule_identifier_unstable token _)). apply (bool_decide_unpack _). vm_compute. exact I.
Defined.

Lemma emitted_contribution_kept_witness : rc_id (for_emission contribution) = "secret.env".
Proof. refine (proj1 (emitted_contribution_kept contribution _)). vm_compute. reflexivity. Defined.

Definition sources : list (text * Z) :=
  [(lit "codex.jsonl", 1%Z); (lit "other", 2%Z); (lit "source_count:" ++ digest, 3%Z)].

Lemma source_counts_kept_witness : (terminal_source_counts sources).*2 ≡ₚ [1%Z; 2%Z; 3%Z].
Proof.
  refine (proj1 (proj2 (source_counts_kept sources _ _))); [|vm_compute; reflexivity].
  unfold bm_wf, sources. cbn [fmap list_fmap fst map]. repeat constructor.
Defined.

End Sample.
