(* ===== verification/EventBuild.v ===== *)
(** * Construction of events

    crates/telltale-schema/src/event/mod.rs, from [DetectionEventInput] on, with
    event/time.rs, event/inventory.rs and the clients of clients.rs and source.rs: the
    builder, the validation of inputs and the constructors of every family of events.  The
    assertion of [build] that its two constants name the same family is left out. *)

From S2P Require Import Prelude Ordered Rstr Scoring JournalNames Unicode Regex RedactPatterns Redaction EventIdentifiers EventEmit.
From Stdlib Require Import Ascii.

Local Open Scope Z_scope.

(** ** Clients and sources *)

Inductive ClientId := Codex | Claude | OpenClaw | Qwen | OpenCode | Copilot.

Definition ClientId_as_str (c : ClientId) : text :=
  lit match c with
      | Codex => "codex" | Claude => "claude" | OpenClaw => "openclaw" | Qwen => "qwen"
      | OpenCode => "opencode" | Copilot => "copilot"
      end.

Inductive SourceKind := Json | Jsonl | ArchivedJsonl | HeadlessJsonl | Sqlite | CopilotProcessLog.

Definition SourceKind_as_str (k : SourceKind) : text :=
  lit match k with
      | Json => "json" | Jsonl => "jsonl" | ArchivedJsonl => "archived_jsonl"
      | HeadlessJsonl => "headless_jsonl" | Sqlite => "sqlite" | CopilotProcessLog => "copilot_process_log"
      end.

(** A path is its lossy text. *)
Record Source := {
  so_client : ClientId;
  so_kind : SourceKind;
  so_source_id : text;
  so_path : text;
}.

Record SourceInventoryChangeSummary := {
  sic_baseline : bool;
  sic_added : Z;
  sic_removed : Z;
  sic_unchanged : Z;
  sic_hash : text;
}.

Definition number (z : Z) : text := lit (decimal z).
Definition boolean (b : bool) : text := lit (if b then "true" else "false").

(** [Path::file_name]: the last component that is a name. *)
Definition path_file_name (path : text) : option text :=
  match last (filter (λ c, c ≠ [] ∧ c ≠ lit ".") (split_chars (N.eqb (ch "/")) path)) with
  | Some c => if is_lit ".." c then None else Some c
  | None => None
  end.
Definition display_name (s : Source) : text := default (lit "unknown") (path_file_name (so_path s)).

(** ** Times

    Instants are nanoseconds.  The formatter of the time crate is [format_utc_millis];
    a representable instant has a year of four digits. *)

Class EventTimes `{EventServices} : Type := {
  format_utc_millis : Z → text;
}.

Definition second : Z := 1000000000.
Definition representable (t : Z) : Prop := -62167219200 * second ≤ t ≤ 253402300799 * second.

Class EventTimesLaws `{EventTimes} : Prop := {
  format_parses t : representable t → is_some (parse_event_timestamp (format_utc_millis t)) = true;
}.

(** [Uuid::new_v4]. *)
Class NewUuid `{EventServices} (u : uuid) : Prop := {
  new_uuid_length : str_len (uuid_text u) = 36;
  new_uuid_version : get_version_num u = 4;
  new_uuid_variant : match uuid_text u !! 19%nat with Some c => among "89ab" c | None => false end = true;
  new_uuid_parses : parse_uuid (uuid_text u) = Some u;
}.

Record ResolvedEventTime := {
  rt_timestamp : text;
  rt_event_time : option text;
  rt_time_source : text;
  rt_time_confidence : text;
  rt_time_override_reason : option text;
}.

Section build.
Context `{Regexes} `{EventTimes}.
#[local] Existing Instance sanitizer_privacy.

(** The sub-second part is dropped. *)
Definition format_timestamp (t : Z) : text := format_utc_millis (t / second * second).

Definition future_skew_limit : Z := 5 * 60 * second.

Definition resolve_event_time (source_event_time : option text) (observed_at : Z) : ResolvedEventTime :=
  let observed_timestamp := format_timestamp observed_at in
  match source_event_time with
  | None => {| rt_timestamp := observed_timestamp; rt_event_time := None; rt_time_source := lit "observed";
               rt_time_confidence := lit "low";
               rt_time_override_reason := Some (lit "missing_source_timestamp") |}
  | Some raw =>
      match parse_event_timestamp raw with
      | None => {| rt_timestamp := observed_timestamp; rt_event_time := Some raw;
                   rt_time_source := lit "override"; rt_time_confidence := lit "low";
                   rt_time_override_reason := Some (lit "unparseable_source_timestamp") |}
      | Some parsed =>
          let normalized := format_timestamp parsed in
          if observed_at + future_skew_limit <? parsed
          then {| rt_timestamp := observed_timestamp; rt_event_time := Some normalized;
                  rt_time_source := lit "override"; rt_time_confidence := lit "low";
                  rt_time_override_reason := Some (lit "source_timestamp_future_skew") |}
          else {| rt_timestamp := normalized; rt_event_time := Some normalized;
                  rt_time_source := lit "source"; rt_time_confidence := lit "high";
                  rt_time_override_reason := None |}
      end
  end.

(** ** Responses *)

Definition recommended_action (severity : text) : text :=
  if is_lit "critical" severity then lit "investigate_immediately"
  else if is_lit "high" severity then lit "investigate"
  else if is_lit "medium" severity then lit "review"
  else lit "monitor".

Definition response_playbook (rule_ids categories : list text) : text :=
  let has_rule needle := existsb (contains needle) rule_ids in
  let has_category needle := existsb (contains needle) categories in
  if has_rule "mcp" || has_category "mcp" then lit "telltale-playbook-mcp-prompt-injection"
  else if has_rule "credential" || has_rule "secret" || has_category "credential"
  then lit "telltale-playbook-credential-access"
  else if has_rule "exfil" || has_category "network" || has_category "exfil"
  then lit "telltale-playbook-network-egress"
  else if has_rule "persistence" || has_category "persistence" then lit "telltale-playbook-persistence"
  else lit "telltale-playbook-general-investigation".

Definition investigation_summary (severity : text) (rule_ids categories : list text) : text :=
  let rule_summary := if is_empty_list rule_ids then lit "no rule id" else join_text (lit ",") rule_ids in
  let category_summary := if is_empty_list categories then lit "uncategorized" else join_text (lit ",") categories in
  severity ++ lit " Telltale detection matched " ++ rule_summary ++ lit " in " ++ category_summary
  ++ lit "; review redacted evidence, timeline anchors when present, and the local source session before containment.".

Definition response_metadata (severity : text) (rule_ids categories : list text) (high_required : bool)
    : ResponseMetadata :=
  {| rm_recommended_action := recommended_action severity;
     rm_response_playbook := response_playbook rule_ids categories;
     rm_investigation_summary := investigation_summary severity rule_ids categories;
     rm_escalation := lit (if high_required then "security_review_required" else "routine_review") |}.

(** ** Source inventory *)

Definition path_hash (path : text) : text := evidence_hash path.

Definition source_counts (sources : list Source) : list (text * Z) :=
  foldl (λ counts s,
    bm_update (ClientId_as_str (so_client s) ++ lit "." ++ SourceKind_as_str (so_kind s)) 0 (λ n, n + 1) counts)
    [] sources.

Definition inventory_line (s : Source) : text :=
  ClientId_as_str (so_client s) ++ lit ":" ++ SourceKind_as_str (so_kind s) ++ lit ":" ++ path_hash (so_path s).

Definition source_inventory_evidence (sources : list Source) : Evidence :=
  {| evd_field := lit "source_inventory";
     evd_redacted_value := lit "sources=" ++ number (Z.of_nat (length sources))
       ++ lit "; client_source_kinds=" ++ number (Z.of_nat (length (source_counts sources)));
     evd_hash := Some (evidence_hash (concat (map (λ l, l ++ [10%N]) (sort (map inventory_line sources)))));
     evd_rule_id := None |}.

Definition source_inventory_change_evidence (c : SourceInventoryChangeSummary) : Evidence :=
  {| evd_field := lit "source_inventory_change";
     evd_redacted_value := lit "baseline=" ++ boolean (sic_baseline c) ++ lit "; added=" ++ number (sic_added c)
       ++ lit "; removed=" ++ number (sic_removed c) ++ lit "; unchanged=" ++ number (sic_unchanged c);
     evd_hash := Some (sic_hash c);
     evd_rule_id := None |}.

(** ** The builder *)

Definition canonicalize_timeline_anchors (anchors : list TimelineAnchor) : list TimelineAnchor :=
  let fix dedup_by_key (previous : option Z) (l : list TimelineAnchor) :=
    match l with
    | [] => []
    | a :: l' => if bool_decide (previous = Some (ta_entry_index a)) then dedup_by_key previous l'
                 else a :: dedup_by_key (Some (ta_entry_index a)) l'
    end in
  dedup_by_key None (sort_by_key ta_entry_index anchors).

Record EventBuilder := {
  eb_event_time : option text;
  eb_event_type : string;
  eb_severity : text;
  eb_risk_score : Z;
  eb_risk_contributions : list RiskContribution;
  eb_client : text;
  eb_agent : option text;
  eb_model : option text;
  eb_provider : option text;
  eb_session_id : text;
  eb_source_path_hash : option text;
  eb_tool_name : option text;
  eb_rule_ids : list text;
  eb_categories : list text;
  eb_detection_classes : list text;
  eb_signal_types : list text;
  eb_analytic_intents : list text;
  eb_atlas_tags : list text;
  eb_tags : list text;
  eb_evidence : list Evidence;
  eb_timeline_anchors : list TimelineAnchor;
  eb_response : option ResponseMetadata;
  eb_source_counts : option (list (text * Z));
  eb_component : option text;
  eb_check_name : option text;
  eb_status : option text;
  eb_scan_duration_ms : option Z;
  eb_rule_count : option Z;
  eb_threshold_config : option RiskThresholds;
  eb_active_policy_name : option text;
  eb_emitted_count : option Z;
  eb_suppressed_count : option Z;
  eb_scanner_error_count : option Z;
}.

Context (now : Z) (new_uuid : uuid) (thresholds : RiskThresholds).

Definition build (b : EventBuilder) : Event :=
  let observed_at := format_timestamp now in
  let resolved := resolve_event_time (eb_event_time b) now in
  {| ev_timestamp := rt_timestamp resolved;
     ev_event_time := rt_event_time resolved;
     ev_observed_at := observed_at;
     ev_ingested_at := observed_at;
     ev_time_source := rt_time_source resolved;
     ev_time_confidence := rt_time_confidence resolved;
     ev_time_override_reason := rt_time_override_reason resolved;
     ev_schema_version := NATIVE_SCHEMA_VERSION;
     ev_event_id := lit "telltale-" ++ uuid_text new_uuid;
     ev_telltale_version := TELLTALE_VERSION;
     ev_event_type := lit (eb_event_type b);
     ev_severity := eb_severity b;
     ev_risk_score := eb_risk_score b;
     ev_risk_contributions := eb_risk_contributions b;
     ev_client := eb_client b;
     ev_agent := eb_agent b;
     ev_model := eb_model b;
     ev_provider := eb_provider b;
     ev_session_id := eb_session_id b;
     ev_source_path_hash := eb_source_path_hash b;
     ev_tool_name := match eb_tool_name b with
                     | Some value => if is_lit "null" value then None else Some value
                     | None => None
                     end;
     ev_rule_ids := eb_rule_ids b;
     ev_categories := eb_categories b;
     ev_detection_classes := eb_detection_classes b;
     ev_signal_types := eb_signal_types b;
     ev_analytic_intents := eb_analytic_intents b;
     ev_atlas_tags := eb_atlas_tags b;
     ev_tags := eb_tags b;
     ev_evidence := eb_evidence b;
     ev_timeline_anchors := canonicalize_timeline_anchors (eb_timeline_anchors b);
     ev_response := eb_response b;
     ev_source_counts := eb_source_counts b;
     ev_component := eb_component b;
     ev_check_name := eb_check_name b;
     ev_status := eb_status b;
     ev_scan_duration_ms := eb_scan_duration_ms b;
     ev_rule_count := eb_rule_count b;
     ev_threshold_config := eb_threshold_config b;
     ev_active_policy_name := eb_active_policy_name b;
     ev_emitted_count := eb_emitted_count b;
     ev_suppressed_count := eb_suppressed_count b;
     ev_scanner_error_count := eb_scanner_error_count b;
     ev_informational := None;
     ev_confidence := None;
     ev_detection_reason := None;
     ev_mitre_attack_techniques := [];
     ev_risk_entity_type := None;
     ev_risk_entity_value := None;
     ev_process := None |}.

(** ** Validation *)

Notation R := (result unit RiskAccountingError).

Definition blank_text (t : text) : bool := forallb whitespace t.

Definition require_non_empty (event_type field : string) (value : text) : R :=
  if blank_text value then Err (EmptyEventField event_type field) else Ok tt.

Definition require_optional_non_empty (event_type field : string) (value : option text) : R :=
  match value with Some value => require_non_empty event_type field value | None => Ok tt end.

Definition require_non_empty_array (event_type field : string) (values : list text) : R :=
  if is_empty_list values || existsb blank_text values then Err (EmptyEventField event_type field) else Ok tt.

Definition validate_optional_metadata (event_type : string) (agent model provider : option text) : R :=
  check? require_optional_non_empty event_type "agent" agent in
  check? require_optional_non_empty event_type "model" model in
  require_optional_non_empty event_type "provider" provider.

Fixpoint validate_rule_ids (rule_ids : list text) : R :=
  match rule_ids with
  | [] => Ok tt
  | rule_id :: rest =>
      if negb (is_canonical_contribution_id (encode_str rule_id)) || contains_credential_material rule_id
      then Err (InvalidRuleId (encode_str rule_id))
      else validate_rule_ids rest
  end.

Fixpoint validate_evidence (event_type : string) (evidence : list Evidence) : R :=
  match evidence with
  | [] => Ok tt
  | item :: rest =>
      check? require_non_empty event_type "evidence.field" (evd_field item) in
      check? require_optional_non_empty event_type "evidence.hash" (evd_hash item) in
      check? match evd_rule_id item with Some rule_id => validate_rule_ids [rule_id] | None => Ok tt end in
      validate_evidence event_type rest
  end.

Definition validate_allowed_values (event_type field : string) (values : list text) (allowed : list string) : R :=
  if forallb (lits allowed) values then Ok tt else Err (InvalidEventValue event_type field).

Definition validate_optional_array_values (event_type field : string) (values : list text) : R :=
  if existsb blank_text values then Err (EmptyEventField event_type field) else Ok tt.

Definition validate_dimension_values (event_type : string) (classes signals intents : list text) : R :=
  check? validate_allowed_values event_type "detection_classes" classes VALID_DETECTION_CLASSES in
  check? validate_allowed_values event_type "signal_types" signals VALID_SIGNAL_TYPES in
  validate_allowed_values event_type "analytic_intents" intents VALID_ANALYTIC_INTENTS.

Definition validate_detection_dimensions (event_type : string)
    (rule_ids categories classes signals intents : list text) : R :=
  check? require_non_empty_array event_type "rule_ids" rule_ids in
  check? require_non_empty_array event_type "categories" categories in
  check? require_non_empty_array event_type "detection_classes" classes in
  check? require_non_empty_array event_type "signal_types" signals in
  check? require_non_empty_array event_type "analytic_intents" intents in
  validate_dimension_values event_type classes signals intents.

(** The first check that fails. *)
Fixpoint all_checks (checks : list R) : R :=
  match checks with
  | [] => Ok tt
  | c :: rest => check? c in all_checks rest
  end.

Definition validate_process_context (p : ProcessContext) : R :=
  check? all_checks (map (λ fv, require_non_empty "process_chain" fv.1 fv.2)
    [("source_process_name", pc_source_process_name p); ("target_process_name", pc_target_process_name p);
     ("rule_name", pc_rule_name p); ("dedup_key", pc_dedup_key p); ("rule_severity", pc_rule_severity p)]) in
  check? all_checks (map (λ fv, validate_optional_array_values "process_chain" fv.1 fv.2)
    [("secondary_rule_ids", pc_secondary_rule_ids p); ("investigation_fields", pc_investigation_fields p);
     ("falsepositives", pc_falsepositives p)]) in
  check? all_checks (map (λ fv, require_optional_non_empty "process_chain" fv.1 fv.2)
    [("host", pc_host p); ("user", pc_user p); ("source_process_path", pc_source_process_path p);
     ("source_process_command_line", pc_source_process_command_line p);
     ("target_process_path", pc_target_process_path p);
     ("target_process_command_line", pc_target_process_command_line p);
     ("parent_process_name", pc_parent_process_name p); ("parent_process_path", pc_parent_process_path p);
     ("source_event_id", pc_source_event_id p); ("risk_adjustment", pc_risk_adjustment p)]) in
  check? validate_rule_ids (pc_secondary_rule_ids p) in
  validate_allowed_values "process_chain" "rule_severity" [pc_rule_severity p] VALID_DETECTION_SEVERITIES.

Definition rule_backed (t : RiskContributionType) : bool :=
  match t with DeterministicRule | ChainModifier => true | BaselineDeviation => false end.

Fixpoint validate_risk_accounting_scope (event_type : string) (rule_ids : list text)
    (contributions : list RiskContribution) : R :=
  match contributions with
  | [] => Ok tt
  | c :: rest =>
      let type_allowed :=
        if String.eqb event_type "activity" then bool_decide (rc_type c = BaselineDeviation)
        else if String.eqb event_type "detection" then rule_backed (rc_type c)
        else true in
      if negb type_allowed then Err (ContributionTypeNotAllowed event_type (rc_id c) (rc_type c))
      else if (String.eqb event_type "detection"
               || String.eqb event_type "session_risk_summary" && rule_backed (rc_type c))
              && negb (text_in (decode_str (rc_id c)) rule_ids)
      then Err (ContributionRuleIdMissing (rc_id c))
      else validate_risk_accounting_scope event_type rule_ids rest
  end.

(** *** Correlations *)

Record CorrelationSessionInput := {
  csi_session_id : text;
  csi_event_id : text;
  csi_timestamp : text;
  csi_severity : text;
  csi_risk_score : Z;
}.

Record CorrelationEventInput := {
  cei_client : text;
  cei_agent : option text;
  cei_model : option text;
  cei_provider : option text;
  cei_shared_rule_ids : list text;
  cei_sessions : list CorrelationSessionInput;
  cei_window_start : text;
  cei_window_end : text;
  cei_max_risk_score : Z;
}.

Definition invalid_correlation (field : string) : RiskAccountingError := InvalidEventValue "correlation" field.

Fixpoint validate_sessions (window_start window_end : Z) (session_ids event_ids : list text)
    (sessions : list CorrelationSessionInput) : R :=
  match sessions with
  | [] => Ok tt
  | s :: rest =>
      check? require_non_empty "correlation" "session_id" (csi_session_id s) in
      check? require_non_empty "correlation" "event_id" (csi_event_id s) in
      check? require_non_empty "correlation" "timestamp" (csi_timestamp s) in
      let? timestamp := ok_or (parse_event_timestamp (csi_timestamp s)) (invalid_correlation "timestamp") in
      if (timestamp <? window_start) || (window_end <? timestamp) then Err (invalid_correlation "timestamp")
      else
        check? require_non_empty "correlation" "severity" (csi_severity s) in
        check? validate_allowed_values "correlation" "severity" [csi_severity s] VALID_DETECTION_SEVERITIES in
        if text_in (csi_session_id s) session_ids then Err (DuplicateCorrelationValue "session_id")
        else if text_in (csi_event_id s) event_ids then Err (DuplicateCorrelationValue "event_id")
        else validate_sessions window_start window_end (csi_session_id s :: session_ids)
               (csi_event_id s :: event_ids) rest
  end.

Definition maximum (l : list Z) : Z := foldr Z.max 0 l.

Definition validate_correlation_input (input : CorrelationEventInput) : R :=
  check? require_non_empty "correlation" "client" (cei_client input) in
  check? require_non_empty_array "correlation" "shared_rule_ids" (cei_shared_rule_ids input) in
  if negb (Nat.eqb (length (bs_of_list (cei_shared_rule_ids input))) (length (cei_shared_rule_ids input)))
  then Err (DuplicateCorrelationValue "shared_rule_ids")
  else
    check? require_non_empty "correlation" "window_start" (cei_window_start input) in
    check? require_non_empty "correlation" "window_end" (cei_window_end input) in
    let? window_start := ok_or (parse_event_timestamp (cei_window_start input)) (invalid_correlation "window_start") in
    let? window_end := ok_or (parse_event_timestamp (cei_window_end input)) (invalid_correlation "window_end") in
    if window_end <? window_start then Err (invalid_correlation "window")
    else if Nat.ltb (length (cei_sessions input)) 2
    then Err (InvalidCorrelationCardinality (Z.of_nat (length (cei_sessions input))))
    else
      check? validate_sessions window_start window_end [] [] (cei_sessions input) in
      let session_ids := bs_of_list (map csi_session_id (cei_sessions input)) in
      if Nat.ltb (length session_ids) 2
      then Err (InvalidCorrelationCardinality (Z.of_nat (length session_ids)))
      else if negb (maximum (map csi_risk_score (cei_sessions input)) =? cei_max_risk_score input)
      then Err (invalid_correlation "max_risk_score")
      else Ok tt.

(** ** Constructors *)

Record DetectionEventInput := {
  di_client : ClientId;
  di_agent : option text;
  di_model : option text;
  di_provider : option text;
  di_session_id : text;
  di_source_path_hash : text;
  di_tool_name : option text;
  di_rule_ids : list text;
  di_categories : list text;
  di_detection_classes : list text;
  di_signal_types : list text;
  di_analytic_intents : list text;
  di_atlas_tags : list text;
  di_tags : list text;
  di_evidence : list Evidence;
  di_risk_contributions : list RiskContribution;
  di_event_time : option text;
}.

Definition severity_text (a : RiskAssessment) : text := lit (RiskSeverity_as_str (severity a)).

Definition score_for_contributions (c : list RiskContribution) : result Z RiskAccountingError := checked_risk_sum c.

Definition detection_event (input : DetectionEventInput) : result Event RiskAccountingError :=
  check? require_non_empty "detection" "session_id" (di_session_id input) in
  check? require_non_empty "detection" "source_path_hash" (di_source_path_hash input) in
  check? validate_optional_metadata "detection" (di_agent input) (di_model input) (di_provider input) in
  check? require_optional_non_empty "detection" "tool_name" (di_tool_name input) in
  check? validate_rule_ids (di_rule_ids input) in
  check? validate_detection_dimensions "detection" (di_rule_ids input) (di_categories input)
           (di_detection_classes input) (di_signal_types input) (di_analytic_intents input) in
  check? validate_optional_array_values "detection" "atlas_tags" (di_atlas_tags input) in
  if negb (forallb is_safe_atlas_tag (di_atlas_tags input)) then Err (InvalidEventValue "detection" "atlas_tags")
  else
    check? validate_evidence "detection" (di_evidence input) in
    let? risk_contributions := canonicalize_contributions (di_risk_contributions input) in
    check? validate_risk_accounting_scope "detection" (di_rule_ids input) risk_contributions in
    let? risk_score := score_for_contributions risk_contributions in
    let assessment := assess_risk_with_thresholds risk_score thresholds in
    let response := response_metadata (severity_text assessment) (di_rule_ids input) (di_categories input)
                      (high_required assessment) in
    Ok (build
      {| eb_event_time := di_event_time input; eb_event_type := "detection";
         eb_severity := severity_text assessment; eb_risk_score := risk_score;
         eb_risk_contributions := risk_contributions; eb_client := ClientId_as_str (di_client input);
         eb_agent := di_agent input; eb_model := di_model input; eb_provider := di_provider input;
         eb_session_id := di_session_id input; eb_source_path_hash := Some (di_source_path_hash input);
         eb_tool_name := di_tool_name input; eb_rule_ids := di_rule_ids input;
         eb_categories := di_categories input; eb_detection_classes := di_detection_classes input;
         eb_signal_types := di_signal_types input; eb_analytic_intents := di_analytic_intents input;
         eb_atlas_tags := di_atlas_tags input; eb_tags := di_tags input; eb_evidence := di_evidence input;
         eb_timeline_anchors := []; eb_response := Some response; eb_source_counts := None;
         eb_component := None; eb_check_name := None; eb_status := None; eb_scan_duration_ms := None;
         eb_rule_count := None; eb_threshold_config := None; eb_active_policy_name := None;
         eb_emitted_count := None; eb_suppressed_count := None; eb_scanner_error_count := None |}).

Record ProcessChainEventInput := {
  pi_client : ClientId;
  pi_agent : option text;
  pi_model : option text;
  pi_provider : option text;
  pi_session_id : text;
  pi_source_path_hash : text;
  pi_tool_name : option text;
  pi_rule_ids : list text;
  pi_categories : list text;
  pi_detection_classes : list text;
  pi_signal_types : list text;
  pi_analytic_intents : list text;
  pi_tags : list text;
  pi_evidence : list Evidence;
  pi_risk_contributions : list RiskContribution;
  pi_event_time : option text;
  pi_confidence : text;
  pi_detection_reason : text;
  pi_mitre_attack_techniques : list text;
  pi_risk_entity_type : text;
  pi_risk_entity_value : option text;
  pi_process : ProcessContext;
}.

(** The fields a process-chain event has beyond the builder. *)
Definition with_process (e : Event) (informational : bool) (input : ProcessChainEventInput) : Event :=
  {| ev_timestamp := ev_timestamp e; ev_event_time := ev_event_time e; ev_observed_at := ev_observed_at e;
     ev_ingested_at := ev_ingested_at e; ev_time_source := ev_time_source e;
     ev_time_confidence := ev_time_confidence e; ev_time_override_reason := ev_time_override_reason e;
     ev_schema_version := ev_schema_version e; ev_event_id := ev_event_id e;
     ev_telltale_version := ev_telltale_version e; ev_event_type := ev_event_type e; ev_severity := ev_severity e;
     ev_risk_score := ev_risk_score e; ev_risk_contributions := ev_risk_contributions e; ev_client := ev_client e;
     ev_agent := ev_agent e; ev_model := ev_model e; ev_provider := ev_provider e; ev_session_id := ev_session_id e;
     ev_source_path_hash := ev_source_path_hash e; ev_tool_name := ev_tool_name e; ev_rule_ids := ev_rule_ids e;
     ev_categories := ev_categories e; ev_detection_classes := ev_detection_classes e;
     ev_signal_types := ev_signal_types e; ev_analytic_intents := ev_analytic_intents e;
     ev_atlas_tags := ev_atlas_tags e; ev_tags := ev_tags e; ev_evidence := ev_evidence e;
     ev_timeline_anchors := ev_timeline_anchors e; ev_response := ev_response e;
     ev_source_counts := ev_source_counts e; ev_component := ev_component e; ev_check_name := ev_check_name e;
     ev_status := ev_status e; ev_scan_duration_ms := ev_scan_duration_ms e; ev_rule_count := ev_rule_count e;
     ev_threshold_config := ev_threshold_config e; ev_active_policy_name := ev_active_policy_name e;
     ev_emitted_count := ev_emitted_count e; ev_suppressed_count := ev_suppressed_count e;
     ev_scanner_error_count := ev_scanner_error_count e;
     ev_informational := Some informational;
     ev_confidence := Some (pi_confidence input);
     ev_detection_reason := Some (pi_detection_reason input);
     ev_mitre_attack_techniques := pi_mitre_attack_techniques input;
     ev_risk_entity_type := Some (pi_risk_entity_type input);
     ev_risk_entity_value := pi_risk_entity_value input;
     ev_process := Some (pi_process input) |}.

Definition process_chain_event (input : ProcessChainEventInput) : result Event RiskAccountingError :=
  let family : string := "process_chain" in
  check? require_non_empty family "session_id" (pi_session_id input) in
  check? require_non_empty family "source_path_hash" (pi_source_path_hash input) in
  check? validate_optional_metadata family (pi_agent input) (pi_model input) (pi_provider input) in
  check? require_optional_non_empty family "tool_name" (pi_tool_name input) in
  check? validate_detection_dimensions family (pi_rule_ids input) (pi_categories input)
           (pi_detection_classes input) (pi_signal_types input) (pi_analytic_intents input) in
  check? require_non_empty family "confidence" (pi_confidence input) in
  check? validate_allowed_values family "confidence" [pi_confidence input] VALID_CONFIDENCES in
  check? require_non_empty family "detection_reason" (pi_detection_reason input) in
  check? require_non_empty family "risk_entity_type" (pi_risk_entity_type input) in
  check? validate_allowed_values family "risk_entity_type" [pi_risk_entity_type input] VALID_RISK_ENTITY_TYPES in
  let? risk_entity_value := ok_or (pi_risk_entity_value input) (EmptyEventField family "risk_entity_value") in
  check? require_non_empty family "risk_entity_value" risk_entity_value in
  check? validate_process_context (pi_process input) in
  check? validate_evidence family (pi_evidence input) in
  check? validate_optional_array_values family "mitre_attack_techniques" (pi_mitre_attack_techniques input) in
  check? validate_rule_ids (pi_rule_ids input) in
  let? risk_contributions := canonicalize_contributions (pi_risk_contributions input) in
  check? validate_risk_accounting_scope "detection" (pi_rule_ids input) risk_contributions in
  let? risk_score := score_for_contributions risk_contributions in
  let assessment := assess_risk_with_thresholds risk_score thresholds in
  let response := response_metadata (severity_text assessment) (pi_rule_ids input) (pi_categories input)
                    (high_required assessment) in
  let event := build
    {| eb_event_time := pi_event_time input; eb_event_type := family;
       eb_severity := severity_text assessment; eb_risk_score := risk_score;
       eb_risk_contributions := risk_contributions; eb_client := ClientId_as_str (pi_client input);
       eb_agent := pi_agent input; eb_model := pi_model input; eb_provider := pi_provider input;
       eb_session_id := pi_session_id input; eb_source_path_hash := Some (pi_source_path_hash input);
       eb_tool_name := pi_tool_name input; eb_rule_ids := pi_rule_ids input;
       eb_categories := pi_categories input; eb_detection_classes := pi_detection_classes input;
       eb_signal_types := pi_signal_types input; eb_analytic_intents := pi_analytic_intents input;
       eb_atlas_tags := []; eb_tags := pi_tags input; eb_evidence := pi_evidence input;
       eb_timeline_anchors := []; eb_response := Some response; eb_source_counts := None;
       eb_component := None; eb_check_name := None; eb_status := None; eb_scan_duration_ms := None;
       eb_rule_count := None; eb_threshold_config := None; eb_active_policy_name := None;
       eb_emitted_count := None; eb_suppressed_count := None; eb_scanner_error_count := None |} in
  Ok (with_process event (risk_score =? 0) input).

Record ActivityEventInput := {
  ai_client : ClientId;
  ai_agent : option text;
  ai_model : option text;
  ai_provider : option text;
  ai_session_id : text;
  ai_source_path_hash : text;
  ai_tool_name : option text;
  ai_tags : list text;
  ai_evidence : list Evidence;
  ai_risk_contributions : list RiskContribution;
  ai_event_time : option text;
}.

Definition activity_event (input : ActivityEventInput) : result Event RiskAccountingError :=
  check? require_non_empty "activity" "session_id" (ai_session_id input) in
  check? require_non_empty "activity" "source_path_hash" (ai_source_path_hash input) in
  check? validate_optional_metadata "activity" (ai_agent input) (ai_model input) (ai_provider input) in
  check? require_optional_non_empty "activity" "tool_name" (ai_tool_name input) in
  check? validate_evidence "activity" (ai_evidence input) in
  let? risk_contributions := canonicalize_contributions (ai_risk_contributions input) in
  check? validate_risk_accounting_scope "activity" [] risk_contributions in
  let? risk_score := score_for_contributions risk_contributions in
  let assessment := assess_risk_with_thresholds risk_score thresholds in
  Ok (build
    {| eb_event_time := ai_event_time input; eb_event_type := "activity";
       eb_severity := severity_text assessment; eb_risk_score := risk_score;
       eb_risk_contributions := risk_contributions; eb_client := ClientId_as_str (ai_client input);
       eb_agent := ai_agent input; eb_model := ai_model input; eb_provider := ai_provider input;
       eb_session_id := ai_session_id input; eb_source_path_hash := Some (ai_source_path_hash input);
       eb_tool_name := ai_tool_name input; eb_rule_ids := []; eb_categories := [];
       eb_detection_classes := []; eb_signal_types := []; eb_analytic_intents := []; eb_atlas_tags := [];
       eb_tags := ai_tags input; eb_evidence := ai_evidence input; eb_timeline_anchors := [];
       eb_response := None; eb_source_counts := None; eb_component := None; eb_check_name := None;
       eb_status := None; eb_scan_duration_ms := None; eb_rule_count := None; eb_threshold_config := None;
       eb_active_policy_name := None; eb_emitted_count := None; eb_suppressed_count := None;
       eb_scanner_error_count := None |}).

Definition install_inventory_event (evidence : list Evidence) : result Event RiskAccountingError :=
  if is_empty_list evidence then Err (EmptyEventField "activity" "evidence")
  else
    check? validate_evidence "activity" evidence in
    Ok (build
      {| eb_event_time := None; eb_event_type := "activity"; eb_severity := lit "informational";
         eb_risk_score := 0; eb_risk_contributions := []; eb_client := lit "install_inventory";
         eb_agent := None; eb_model := None; eb_provider := None; eb_session_id := lit "scanner";
         eb_source_path_hash := None; eb_tool_name := None; eb_rule_ids := []; eb_categories := [];
         eb_detection_classes := []; eb_signal_types := []; eb_analytic_intents := []; eb_atlas_tags := [];
         eb_tags := [lit "scanner"; lit "install_inventory"; lit "metadata_only"]; eb_evidence := evidence;
         eb_timeline_anchors := []; eb_response := None; eb_source_counts := None;
         eb_component := Some (lit "scanner"); eb_check_name := Some (lit "install_inventory");
         eb_status := Some (lit "ok"); eb_scan_duration_ms := None; eb_rule_count := None;
         eb_threshold_config := None; eb_active_policy_name := None; eb_emitted_count := None;
         eb_suppressed_count := None; eb_scanner_error_count := None |}).

Record SessionRiskSummaryEventInput := {
  si_client : text;
  si_agent : option text;
  si_model : option text;
  si_provider : option text;
  si_session_id : text;
  si_source_path_hash : option text;
  si_rule_ids : list text;
  si_categories : list text;
  si_detection_classes : list text;
  si_signal_types : list text;
  si_analytic_intents : list text;
  si_atlas_tags : list text;
  si_tags : list text;
  si_evidence : list Evidence;
  si_risk_contributions : list RiskContribution;
  si_event_time : option text;
}.

Definition session_risk_summary_event (input : SessionRiskSummaryEventInput) : result Event RiskAccountingError :=
  let family : string := "session_risk_summary" in
  check? require_non_empty family "client" (si_client input) in
  check? require_non_empty family "session_id" (si_session_id input) in
  check? validate_optional_metadata family (si_agent input) (si_model input) (si_provider input) in
  check? require_optional_non_empty family "source_path_hash" (si_source_path_hash input) in
  check? validate_rule_ids (si_rule_ids input) in
  check? validate_optional_array_values family "categories" (si_categories input) in
  check? validate_optional_array_values family "detection_classes" (si_detection_classes input) in
  check? validate_optional_array_values family "signal_types" (si_signal_types input) in
  check? validate_optional_array_values family "analytic_intents" (si_analytic_intents input) in
  check? validate_dimension_values family (si_detection_classes input) (si_signal_types input)
           (si_analytic_intents input) in
  check? validate_optional_array_values family "atlas_tags" (si_atlas_tags input) in
  if negb (forallb is_safe_atlas_tag (si_atlas_tags input)) then Err (InvalidEventValue family "atlas_tags")
  else
    check? validate_evidence family (si_evidence input) in
    let? risk_contributions := canonicalize_contributions (si_risk_contributions input) in
    check? validate_risk_accounting_scope family (si_rule_ids input) risk_contributions in
    let? risk_score := score_for_contributions risk_contributions in
    let assessment := assess_risk_with_thresholds risk_score thresholds in
    Ok (build
      {| eb_event_time := si_event_time input; eb_event_type := family;
         eb_severity := severity_text assessment; eb_risk_score := risk_score;
         eb_risk_contributions := risk_contributions; eb_client := si_client input;
         eb_agent := si_agent input; eb_model := si_model input; eb_provider := si_provider input;
         eb_session_id := si_session_id input; eb_source_path_hash := si_source_path_hash input;
         eb_tool_name := None; eb_rule_ids := si_rule_ids input; eb_categories := si_categories input;
         eb_detection_classes := si_detection_classes input; eb_signal_types := si_signal_types input;
         eb_analytic_intents := si_analytic_intents input; eb_atlas_tags := si_atlas_tags input;
         eb_tags := si_tags input; eb_evidence := si_evidence input; eb_timeline_anchors := [];
         eb_response := None; eb_source_counts := None; eb_component := None; eb_check_name := None;
         eb_status := None; eb_scan_duration_ms := None; eb_rule_count := None; eb_threshold_config := None;
         eb_active_policy_name := None; eb_emitted_count := None; eb_suppressed_count := None;
         eb_scanner_error_count := None |}).

Definition plain_evidence (field : string) (value : text) : Evidence :=
  {| evd_field := lit field; evd_redacted_value := value; evd_hash := None; evd_rule_id := None |}.

Definition related_detection (s : CorrelationSessionInput) : Evidence :=
  {| evd_field := lit "related_detection";
     evd_redacted_value :=
       lit "session_id=" ++ csi_session_id s ++ lit "; event_id=" ++ csi_event_id s
       ++ lit "; timestamp=" ++ csi_timestamp s ++ lit "; severity=" ++ csi_severity s
       ++ lit "; risk_score=" ++ number (csi_risk_score s);
     evd_hash := Some (evidence_hash (csi_event_id s)); evd_rule_id := None |}.

Definition correlation_event (input : CorrelationEventInput) : result Event RiskAccountingError :=
  check? validate_optional_metadata "correlation" (cei_agent input) (cei_model input) (cei_provider input) in
  check? validate_rule_ids (cei_shared_rule_ids input) in
  check? validate_correlation_input input in
  let assessment := assess_risk_with_thresholds (cei_max_risk_score input) thresholds in
  let evidence :=
    [plain_evidence "shared_rule_ids" (join_text (lit ",") (cei_shared_rule_ids input));
     plain_evidence "correlation_window" (cei_window_start input ++ lit ".." ++ cei_window_end input)]
    ++ map related_detection (cei_sessions input) in
  Ok (build
    {| eb_event_time := Some (cei_window_end input); eb_event_type := "correlation";
       eb_severity := severity_text assessment; eb_risk_score := cei_max_risk_score input;
       eb_risk_contributions := []; eb_client := cei_client input; eb_agent := cei_agent input;
       eb_model := cei_model input; eb_provider := cei_provider input; eb_session_id := lit "correlation";
       eb_source_path_hash := None; eb_tool_name := None; eb_rule_ids := cei_shared_rule_ids input;
       eb_categories := [lit "cross_session_correlation"];
       eb_detection_classes := [lit "security_detection"]; eb_signal_types := [lit "correlation"];
       eb_analytic_intents := [lit "alert"]; eb_atlas_tags := [];
       eb_tags := [lit "correlation"; lit "cross_session"]; eb_evidence := evidence;
       eb_timeline_anchors := []; eb_response := None; eb_source_counts := None; eb_component := None;
       eb_check_name := None; eb_status := None; eb_scan_duration_ms := None; eb_rule_count := None;
       eb_threshold_config := None; eb_active_policy_name := None; eb_emitted_count := None;
       eb_suppressed_count := None; eb_scanner_error_count := None |}).

(** [error] is the text of the error. *)
Definition scanner_error_event (source : Source) (error : text) : Event :=
  let error_msg := redact_error_message error in
  let client := ClientId_as_str (so_client source) in
  let source_label := client ++ lit ":" ++ SourceKind_as_str (so_kind source) ++ lit ":" ++ display_name source in
  let evidence :=
    [plain_evidence "error" error_msg;
     {| evd_field := lit "source_path"; evd_redacted_value := source_label;
        evd_hash := Some (path_hash (so_path source)); evd_rule_id := None |}] in
  build
    {| eb_event_time := None; eb_event_type := "scanner_error"; eb_severity := lit "informational";
       eb_risk_score := 0; eb_risk_contributions := []; eb_client := client; eb_agent := None;
       eb_model := None; eb_provider := None; eb_session_id := lit "scanner";
       eb_source_path_hash := Some (path_hash (so_path source)); eb_tool_name := None; eb_rule_ids := [];
       eb_categories := []; eb_detection_classes := []; eb_signal_types := []; eb_analytic_intents := [];
       eb_atlas_tags := []; eb_tags := [lit "scanner"; lit "parse_failure"]; eb_evidence := evidence;
       eb_timeline_anchors := []; eb_response := None; eb_source_counts := None;
       eb_component := Some (lit "scanner"); eb_check_name := Some (lit "source_parse");
       eb_status := Some (lit "degraded"); eb_scan_duration_ms := None; eb_rule_count := None;
       eb_threshold_config := None; eb_active_policy_name := None; eb_emitted_count := None;
       eb_suppressed_count := None; eb_scanner_error_count := None |}.

Record OperationalAlertInput := {
  oa_alert_type : text;
  oa_threshold : text;
  oa_actual_value : text;
  oa_scan_duration_ms : option Z;
  oa_scanner_error_count : option Z;
}.

Definition operational_alert_check_name (alert_type : text) : text :=
  lit (if is_lit "scanner_error_threshold_exceeded" alert_type then "scanner_error_threshold"
       else if is_lit "scan_duration_threshold_exceeded" alert_type then "scan_duration_threshold"
       else if is_lit "sink_delivery_failure" alert_type then "sink_delivery"
       else "operational_alert").

Definition operational_alert_event (input : OperationalAlertInput) : Event :=
  let evidence :=
    [plain_evidence "alert_type" (oa_alert_type input); plain_evidence "threshold" (oa_threshold input);
     plain_evidence "actual_value" (oa_actual_value input)]
    ++ match oa_scan_duration_ms input with
       | Some duration => [plain_evidence "scan_duration_ms" (number duration)] | None => [] end
    ++ match oa_scanner_error_count input with
       | Some count => [plain_evidence "scanner_error_count" (number count)] | None => [] end in
  build
    {| eb_event_time := None; eb_event_type := "operational_alert"; eb_severity := lit "warning";
       eb_risk_score := 0; eb_risk_contributions := []; eb_client := lit "scanner"; eb_agent := None;
       eb_model := None; eb_provider := None; eb_session_id := lit "scanner"; eb_source_path_hash := None;
       eb_tool_name := None; eb_rule_ids := []; eb_categories := [lit "operational"];
       eb_detection_classes := [lit "operational_health"]; eb_signal_types := [lit "atomic"];
       eb_analytic_intents := [lit "alert"]; eb_atlas_tags := [];
       eb_tags := [lit "operational"; lit "scanner_health"]; eb_evidence := evidence;
       eb_timeline_anchors := []; eb_response := None; eb_source_counts := None;
       eb_component := Some (lit "scanner");
       eb_check_name := Some (operational_alert_check_name (oa_alert_type input));
       eb_status := Some (lit "degraded"); eb_scan_duration_ms := oa_scan_duration_ms input;
       eb_rule_count := None; eb_threshold_config := None; eb_active_policy_name := None;
       eb_emitted_count := None; eb_suppressed_count := None; eb_scanner_error_count := None |}.

Record HealthEventInput := {
  hi_sources : list Source;
  hi_source_inventory_change : option SourceInventoryChangeSummary;
  hi_scan_duration_ms : Z;
  hi_rule_count : Z;
  hi_threshold_config : RiskThresholds;
  hi_active_policy_name : option text;
  hi_emitted_count : Z;
  hi_suppressed_count : Z;
  hi_scanner_error_count : Z;
}.

Definition health_event_with_metadata (input : HealthEventInput) : Event :=
  let sources := hi_sources input in
  let clients := bs_of_list (map (λ s, ClientId_as_str (so_client s)) sources) in
  let evidence := source_inventory_evidence sources
    :: match hi_source_inventory_change input with
       | Some change => [source_inventory_change_evidence change] | None => [] end in
  build
    {| eb_event_time := None; eb_event_type := "health"; eb_severity := lit "informational";
       eb_risk_score := 0; eb_risk_contributions := [];
       eb_client := (if is_empty_list clients then lit "none" else join_text (lit ",") clients);
       eb_agent := None; eb_model := None; eb_provider := None; eb_session_id := lit "scanner";
       eb_source_path_hash := None; eb_tool_name := None; eb_rule_ids := []; eb_categories := [];
       eb_detection_classes := []; eb_signal_types := []; eb_analytic_intents := []; eb_atlas_tags := [];
       eb_tags := [lit "scanner"; lit "discovery"]; eb_evidence := evidence; eb_timeline_anchors := [];
       eb_response := None; eb_source_counts := Some (source_counts sources);
       eb_component := Some (lit "scanner"); eb_check_name := Some (lit "source_discovery");
       eb_status := Some (lit "ok"); eb_scan_duration_ms := Some (hi_scan_duration_ms input);
       eb_rule_count := Some (hi_rule_count input); eb_threshold_config := Some (hi_threshold_config input);
       eb_active_policy_name := match hi_active_policy_name input with Some name => if blank_text name then None else Some name | None => None end;
       eb_emitted_count := Some (hi_emitted_count input);
       eb_suppressed_count := Some (hi_suppressed_count input);
       eb_scanner_error_count := Some (hi_scanner_error_count input) |}.

End build.
