(* ===== verification/EventBuildSafe.v ===== *)
(** * Constructed events can be emitted

    Every event a constructor returns passes the checks of its own serialization, and
    its score is the sum of its contributions. *)

From S2P Require Import Prelude Ordered Rstr Scoring JournalNames Unicode Regex RegexRef RedactPatterns Redaction RedactionSafe EventIdentifiers EventEmit EventPrivacy EventHistory EventBuild.
From Stdlib Require Import Ascii.

Local Open Scope Z_scope.

(** ** Fixed texts are no credentials

    On ASCII every word predicate agrees. *)

Definition ascii_word (c : char) : bool := ascii_alphanumeric c || (c =? 95)%N.

Lemma mt_word (w w' : char → bool) t r i j : Forall (λ c, w c = w' c) t → mt w t r i j → mt w' t r i j.
Proof.
  intros Hw. assert (∀ k, word_boundary w t k = word_boundary w' t k) as Hb.
  { assert (∀ o, word_at w t o = word_at w' t o) as Ha.
    { intros [k|]; [|done]. unfold word_at. destruct (t !! k) eqn:Hk; [|done].
      by eapply Forall_lookup in Hw; [|exact Hk]. }
    intros k. unfold word_boundary. by rewrite !Ha. }
  induction 1; try (by econstructor; eauto).
Qed.

Section fixed.
Context `{RegexesLaws}.

Definition searched_ascii (r : re) (t : text) : bool :=
  forallb (λ c, (c <? 128)%N) t && negb (is_some (find_from ascii_word t (length t) r 0)).

Lemma is_match_ascii r t : searchable r = true → searched_ascii r t = true → is_match r t = false.
Proof.
  unfold searched_ascii. rewrite andb_true_iff, negb_true_iff. intros Hr [Ha Hf]. apply is_match_clean; [done|].
  intros a b Hm. apply (mt_word word_char ascii_word) in Hm.
  - revert Hm. apply (clean_by_search ascii_word); [done|]. by destruct (find_from _ _ _ _ _).
  - rewrite forallb_forall in Ha. apply Forall_forall. intros c Hc%list_elem_of_In%Ha.
    rewrite word_char_ascii; [done|]. by apply N.ltb_lt.
Qed.

Definition credential_patterns : list re :=
  markers ++ [CREDENTIAL_GH_TOKEN_RE; CREDENTIAL_SK_KEY_RE; CREDENTIAL_AKIA_RE; CREDENTIAL_XOX_RE;
              CREDENTIAL_JWT_RE; CREDENTIAL_BEARER_RE; ENCODED_BLOB_RE; URL_RE].

Definition credential_free (t : text) : bool :=
  forallb (λ r, searchable r && searched_ascii r t) credential_patterns && negb (contains_secret_assignment t).

Lemma credential_free_spec t : credential_free t = true → contains_credential_material t = false.
Proof.
  unfold credential_free. rewrite andb_true_iff, negb_true_iff. intros [Hall Hs].
  rewrite forallb_forall in Hall.
  assert (∀ r, In r credential_patterns → is_match r t = false) as Hm.
  { intros r Hr. specialize (Hall r Hr). apply andb_true_iff in Hall as [??]. by apply is_match_ascii. }
  unfold contains_credential_material, contains_high_confidence_credential_marker, contains_url_userinfo.
  assert (find_iter URL_RE t = []) as ->.
  { assert (is_match URL_RE t = false) as Hu by (apply Hm; unfold credential_patterns, markers, token_markers; cbn; tauto).
    unfold is_match in Hu. by destruct (find_iter URL_RE t). }
  rewrite Hs, !Hm by (unfold credential_patterns, markers, token_markers; cbn; tauto). done.
Qed.

Context `{EventServices}.

Lemma terminal_session_fixed t : is_safe_structured_identifier t = true → credential_free t = true →
  terminal_session_id t = t.
Proof. intros Hs Hc. unfold terminal_session_id. by rewrite Hs, (credential_free_spec t Hc). Qed.

Lemma terminal_identifier_fixed kind t :
  (str_len t <=? 128) && forallb (identifier_char "_-.:>+") t && credential_free t = true → terminal_identifier kind t = t.
Proof.
  rewrite !andb_true_iff. intros [[Hl Hc] Hf]. unfold terminal_identifier. by rewrite Hl, Hc, (credential_free_spec t Hf).
Qed.

End fixed.

(** ** Common checks *)

(** Reduces the projections of builders and of the events made of them, one layer at a time. *)
Ltac builder := cbn [eb_event_time eb_event_type eb_severity eb_risk_score eb_risk_contributions eb_client eb_agent
       eb_model eb_provider eb_session_id eb_source_path_hash eb_tool_name eb_rule_ids eb_categories
       eb_detection_classes eb_signal_types eb_analytic_intents eb_atlas_tags eb_tags eb_evidence
       eb_timeline_anchors eb_response eb_source_counts eb_component eb_check_name eb_status
       eb_scan_duration_ms eb_rule_count eb_threshold_config eb_active_policy_name eb_emitted_count
       eb_suppressed_count eb_scanner_error_count].
Ltac event := cbn [ev_timestamp ev_event_time ev_observed_at ev_ingested_at ev_time_source ev_time_confidence
       ev_time_override_reason ev_schema_version ev_event_id ev_telltale_version ev_event_type ev_severity
       ev_risk_score ev_risk_contributions ev_client ev_agent ev_model ev_provider ev_session_id
       ev_source_path_hash ev_tool_name ev_rule_ids ev_categories ev_detection_classes ev_signal_types
       ev_analytic_intents ev_atlas_tags ev_tags ev_evidence ev_timeline_anchors ev_response
       ev_source_counts ev_component ev_check_name ev_status ev_scan_duration_ms ev_rule_count
       ev_threshold_config ev_active_policy_name ev_emitted_count ev_suppressed_count ev_scanner_error_count
       ev_informational ev_confidence ev_detection_reason ev_mitre_attack_techniques ev_risk_entity_type
       ev_risk_entity_value ev_process].
Ltac fields :=
  match goal with |- context [terminal_emittable_event ?x] =>
    let e := fresh "e" in set (e := x); unfold terminal_emittable_event; event; subst e end;
  try match goal with |- context [with_process ?x _ _] =>
    let e := fresh "e" in set (e := x); unfold with_process; event; subst e end;
  match goal with |- context [build _ _ ?x] =>
    let b := fresh "b" in set (b := x); unfold build; event; subst b end;
  builder.

(** Follows the checks of a constructor that returned an event. *)
Ltac passed H :=
  cbn zeta in H;
  repeat match type of H with
  | match ?c with Ok _ => _ | Err _ => _ end = Ok _ =>
      let E := fresh "Hpass" in destruct c eqn:E; [cbn zeta in H|discriminate H]
  | (if ?b then _ else _) = Ok _ => let E := fresh "Hif" in destruct b eqn:E; try discriminate H; cbn zeta in H
  end.

Section built.
Context `{RegexesLaws} `{EventTimes} `{!EventServicesLaws} `{!EventTimesLaws}.
Context (now : Z) (new_uuid : uuid) (thresholds : RiskThresholds) `{!NewUuid new_uuid}.
#[local] Existing Instance sanitizer_privacy.

Lemma format_timestamp_parses t : representable t → is_some (parse_event_timestamp (format_timestamp t)) = true.
Proof.
  intros Ht. unfold format_timestamp. apply format_parses. unfold representable, second in *.
  pose proof (Z.div_mod t 1000000000 ltac:(lia)). pose proof (Z.mod_pos_bound t 1000000000 ltac:(lia)).
  assert (-62167219200 ≤ t / 1000000000) by (apply Z.div_le_lower_bound; lia). lia.
Qed.

Lemma event_id_canonical : is_canonical_event_id (lit "telltale-" ++ uuid_text new_uuid) = true.
Proof.
  unfold is_canonical_event_id. rewrite strip_app, new_uuid_length, new_uuid_parses, new_uuid_version, new_uuid_variant.
  cbn. by apply bool_decide_eq_true.
Qed.

Lemma terminal_time_valid t : is_valid_terminal_event_time (terminal_event_time t) = true.
Proof.
  unfold terminal_event_time. destruct (is_valid_terminal_event_time t) eqn:Ht; [done|].
  unfold is_valid_terminal_event_time. apply orb_true_iff. right. apply opaque_canonical.
  unfold registered. apply (bool_decide_unpack _). vm_compute. exact I.
Qed.

(** The time of the source, when there is one, has a year of four digits. *)
Definition datable (t : option text) : Prop :=
  ∀ v i, t = Some v → parse_event_timestamp v = Some i → representable i.

Definition response_valid (r : ResponseMetadata) : Prop :=
  lits VALID_RESPONSE_ACTIONS (rm_recommended_action r) = true ∧
  lits VALID_RESPONSE_PLAYBOOKS (rm_response_playbook r) = true ∧
  lits VALID_RESPONSE_ESCALATIONS (rm_escalation r) = true.

Lemma response_metadata_valid a rules categories :
  response_valid (response_metadata (severity_text a) rules categories (high_required a)).
Proof.
  split_and!.
  - unfold response_metadata, recommended_action. cbn [rm_recommended_action]. by repeat case_match.
  - unfold response_metadata, response_playbook. cbn [rm_response_playbook]. by repeat case_match.
  - cbn [response_metadata rm_escalation]. by destruct (high_required a).
Qed.

Lemma severity_valid a : lits VALID_SEVERITIES (severity_text a) = true ∧ is_lit "warning" (severity_text a) = false.
Proof. unfold severity_text. by destruct (severity a). Qed.

(** What a builder needs for the checks of every event. *)
Record buildable (b : EventBuilder) : Prop := {
  bl_time : datable (eb_event_time b);
  bl_type : lits TEXT_BEARING_EVENT_TYPES (lit (eb_event_type b)) = true;
  bl_severity : lits VALID_SEVERITIES (eb_severity b) = true;
  bl_classes : forallb (lits VALID_DETECTION_CLASSES) (eb_detection_classes b) = true;
  bl_signals : forallb (lits VALID_SIGNAL_TYPES) (eb_signal_types b) = true;
  bl_intents : forallb (lits VALID_ANALYTIC_INTENTS) (eb_analytic_intents b) = true;
  bl_response : ∀ r, eb_response b = Some r → response_valid r;
}.

Lemma resolved_valid b : representable now → datable (eb_event_time b) →
  let r := resolve_event_time (eb_event_time b) now in
  is_some (parse_event_timestamp (rt_timestamp r)) = true ∧ lits VALID_TIME_SOURCES (rt_time_source r) = true ∧
  lits VALID_TIME_CONFIDENCES (rt_time_confidence r) = true.
Proof.
  intros Hn Ht. unfold resolve_event_time. pose proof (format_timestamp_parses now Hn) as Hf.
  destruct (eb_event_time b) as [v|]; [|by split_and!].
  destruct (parse_event_timestamp v) as [i|] eqn:Hv; [|by split_and!].
  pose proof (format_timestamp_parses i (Ht v i eq_refl Hv)). case_match; by split_and!.
Qed.

Lemma sanitize_response_known field t : field ∈ ["recommended_action"; "escalation"; "response_playbook"] →
  (field = "recommended_action" → lits VALID_RESPONSE_ACTIONS t = true) →
  (field = "escalation" → lits VALID_RESPONSE_ESCALATIONS t = true) →
  (field = "response_playbook" → lits VALID_RESPONSE_PLAYBOOKS t = true) → sanitize_response_text field t = t.
Proof.
  intros Hin Ha He Hp. unfold sanitize_response_text.
  apply list_elem_of_In in Hin as [<-|[<-|[<-|[]]]]; cbn [String.eqb Ascii.eqb Bool.eqb];
    rewrite ?Ha, ?He, ?Hp by done; done.
Qed.

Lemma terminal_response_valid r : response_valid r → response_valid (terminal_response_metadata r).
Proof.
  intros (Ha & Hp & He). unfold terminal_response_metadata, response_valid.
  cbn [rm_recommended_action rm_response_playbook rm_escalation].
  rewrite (sanitize_response_known "recommended_action"), (sanitize_response_known "response_playbook"),
    (sanitize_response_known "escalation") by (done || (apply (bool_decide_unpack _); vm_compute; exact I)).
  done.
Qed.

(** The checks of every event hold of what the builder makes. *)
Lemma built_controls b : representable now → buildable b →
  common_controls false (terminal_emittable_event (build now new_uuid b)) = true.
Proof.
  intros Hn [Ht Hty Hsev Hcl Hsi Hin Hre]. destruct (resolved_valid b Hn Ht) as (Hts & Hso & Hco).
  pose proof (format_timestamp_parses now Hn) as Hf.
  unfold common_controls. fields.
  rewrite event_id_canonical, Hts, Hf, Hso, Hco, Hty, Hsev, Hcl, Hsi, Hin.
  assert (opt_all is_valid_terminal_event_time
            (terminal_event_time <$> rt_event_time (resolve_event_time (eb_event_time b) now)) = true) as ->
    by (destruct (rt_event_time _); [apply terminal_time_valid|done]).
  destruct (eb_response b) as [r|]; [|vm_compute; reflexivity].
  destruct (terminal_response_valid r (Hre r eq_refl)) as (Ha & Hp & He).
  cbn [fmap option_fmap option_map opt_all]. rewrite Ha, Hp, He. vm_compute. reflexivity.
Qed.

Lemma built_serializes b : representable now → buildable b →
  profile (terminal_emittable_event (build now new_uuid b)) = true →
  serialize (build now new_uuid b) = Ok (terminal_emittable_event (build now new_uuid b)).
Proof.
  intros Hn Hb Hp. unfold serialize, terminal_controlled_fields_are_valid. rewrite (built_controls b Hn Hb), Hp.
  assert (response_playbooks_are_valid (build now new_uuid b) = true) as ->; [|done].
  unfold response_playbooks_are_valid. cbn [build ev_response]. destruct (eb_response b) as [r|] eqn:Hr; [|done].
  by destruct (bl_response b Hb r Hr) as (_ & ? & _).
Qed.

(** ** The constructors *)

Lemma nonempty_array fam f l u : require_non_empty_array fam f l = Ok u → is_empty_list l = false.
Proof. unfold require_non_empty_array. by destruct (is_empty_list l). Qed.

Lemma allowed_values fam f l allowed u : validate_allowed_values fam f l allowed = Ok u → forallb (lits allowed) l = true.
Proof. unfold validate_allowed_values. by destruct (forallb _ l). Qed.

Lemma dimension_values fam c si i u : validate_dimension_values fam c si i = Ok u →
  forallb (lits VALID_DETECTION_CLASSES) c = true ∧ forallb (lits VALID_SIGNAL_TYPES) si = true ∧
  forallb (lits VALID_ANALYTIC_INTENTS) i = true.
Proof. unfold validate_dimension_values. intros Hv. passed Hv. split_and!; by eapply allowed_values. Qed.

Lemma detection_dimensions fam r ca c si i u : validate_detection_dimensions fam r ca c si i = Ok u →
  (is_empty_list r = false ∧ is_empty_list ca = false ∧ is_empty_list c = false ∧ is_empty_list si = false ∧
   is_empty_list i = false) ∧
  forallb (lits VALID_DETECTION_CLASSES) c = true ∧ forallb (lits VALID_SIGNAL_TYPES) si = true ∧
  forallb (lits VALID_ANALYTIC_INTENTS) i = true.
Proof.
  unfold validate_detection_dimensions. intros Hv. passed Hv. split; [|by eapply dimension_values].
  split_and!; by eapply nonempty_array.
Qed.

Lemma is_empty_map {A B} (f : A → B) l : is_empty_list (map f l) = is_empty_list l.
Proof. by destruct l. Qed.

Lemma tag_suppressed tags : lit "suppressed" ∉ tags → existsb (is_lit "suppressed") (map terminal_tag tags) = false.
Proof.
  intros Ht. apply not_true_is_false. intros (u & Hu & He)%existsb_exists. apply bool_decide_eq_true in He as ->.
  apply in_map_iff in Hu as (t & He & Hin). apply Ht. unfold terminal_tag in He.
  destruct (strip _ t); [done|]. unfold terminal_identifier in He. case_match; [|done]. subst. by apply list_elem_of_In.
Qed.

Notation emitted b := (terminal_emittable_event (build now new_uuid b)).

(** The type decides the profile. *)
Lemma profile_typed e ty : ev_event_type e = lit ty → profile e =
  (if String.eqb ty "activity" then activity_profile e
   else if String.eqb ty "detection" then detection_profile e
   else if String.eqb ty "session_risk_summary" then session_risk_summary_profile e
   else if String.eqb ty "health" then health_profile e
   else if String.eqb ty "scanner_error" then scanner_error_profile e
   else if String.eqb ty "operational_alert" then operational_alert_profile e
   else if String.eqb ty "process_chain" then process_chain_profile e
   else if String.eqb ty "correlation" then correlation_profile e
   else false).
Proof.
  intros Ht. unfold profile. rewrite Ht. assert (∀ s, is_lit s (lit ty) = String.eqb ty s) as Hl.
  { intros u. unfold is_lit, text_eqb. destruct (String.eqb_spec ty u) as [->|Hne]; [by apply bool_decide_eq_true|].
    apply bool_decide_eq_false. intros ?%lit_inj. done. }
  by rewrite !Hl.
Qed.

Lemma detection_serializes input e : representable now → datable (di_event_time input) → lit "suppressed" ∉ di_tags input →
  detection_event now new_uuid thresholds input = Ok e → ∃ w, serialize e = Ok w.
Proof.
  intros Hn Ht Hs He. unfold detection_event in He. passed He. injection He as <-.
  apply detection_dimensions in Hpass4 as ((Hr & Hca & Hc & Hsi & Hi) & Vc & Vs & Vi).
  set (ass := assess_risk_with_thresholds _ _). destruct (severity_valid ass) as [Hsev Hw].
  eexists. apply built_serializes; [done| |].
  - split; builder; try done. intros r [= <-]. apply response_metadata_valid.
  - erewrite profile_typed by reflexivity. cbn [String.eqb Ascii.eqb Bool.eqb].
    unfold detection_profile, all_dimensions, no_checks. fields.
    rewrite tag_suppressed, Hw, !is_empty_map, Hr, Hca, Hc, Hsi, Hi by done. done.
Qed.

Lemma scanner_session : terminal_session_id (lit "scanner") = lit "scanner".
Proof. apply terminal_session_fixed; vm_compute; reflexivity. Qed.

Lemma correlation_session : terminal_session_id (lit "correlation") = lit "correlation".
Proof. apply terminal_session_fixed; vm_compute; reflexivity. Qed.

Lemma correlation_category : terminal_identifier "category" (lit "cross_session_correlation") = lit "cross_session_correlation".
Proof. apply terminal_identifier_fixed; vm_compute; reflexivity. Qed.

Lemma terminal_tag_fixed t : strip (lit "allowlist:") t = None →
  (str_len t <=? 128) && forallb (identifier_char "_-.:>+") t && credential_free t = true → terminal_tag t = t.
Proof. intros Hs Ht. unfold terminal_tag. rewrite Hs. by apply terminal_identifier_fixed. Qed.

Lemma inventory_tags : map terminal_tag [lit "scanner"; lit "install_inventory"; lit "metadata_only"] =
  [lit "scanner"; lit "install_inventory"; lit "metadata_only"].
Proof. cbn [map]. rewrite !terminal_tag_fixed by (vm_compute; reflexivity). done. Qed.

Lemma client_not_inventory c : terminal_client_id (ClientId_as_str c) = ClientId_as_str c ∧
  is_lit "install_inventory" (ClientId_as_str c) = false.
Proof. by destruct c. Qed.

Lemma activity_serializes input e : representable now → datable (ai_event_time input) →
  activity_event now new_uuid thresholds input = Ok e → ∃ w, serialize e = Ok w.
Proof.
  intros Hn Ht He. unfold activity_event in He. passed He. injection He as <-.
  set (ass := assess_risk_with_thresholds _ _). destruct (severity_valid ass) as [Hsev Hw].
  destruct (client_not_inventory (ai_client input)) as [Hc Hi].
  eexists. apply built_serializes; [done|by split; builder|].
  erewrite profile_typed by reflexivity. cbn [String.eqb Ascii.eqb Bool.eqb].
  unfold activity_profile, no_checks, no_detection_dimensions, no_process_fields. fields.
  by rewrite Hc, Hi, Hw.
Qed.

Lemma install_inventory_serializes evidence e : representable now →
  install_inventory_event now new_uuid evidence = Ok e → ∃ w, serialize e = Ok w.
Proof.
  intros Hn He. unfold install_inventory_event in He. passed He. injection He as <-.
  eexists. apply built_serializes; [done|by split; builder|].
  erewrite profile_typed by reflexivity. cbn [String.eqb Ascii.eqb Bool.eqb].
  unfold activity_profile, inventory_profile, scanner_check, no_detection_dimensions, no_process_fields. fields.
  rewrite inventory_tags, scanner_session, (is_empty_map terminal_evidence), Hif. vm_compute. reflexivity.
Qed.

Lemma summary_serializes input e : representable now → datable (si_event_time input) →
  session_risk_summary_event now new_uuid thresholds input = Ok e → ∃ w, serialize e = Ok w.
Proof.
  intros Hn Ht He. unfold session_risk_summary_event in He. passed He. injection He as <-.
  set (ass := assess_risk_with_thresholds _ _). destruct (severity_valid ass) as [Hsev Hw].
  match goal with H : validate_dimension_values _ _ _ _ = Ok _ |- _ => apply dimension_values in H as (Vc & Vs & Vi) end.
  eexists. apply built_serializes; [done|by split; builder|].
  erewrite profile_typed by reflexivity. cbn [String.eqb Ascii.eqb Bool.eqb].
  unfold session_risk_summary_profile, no_checks, no_process_fields. fields. by rewrite Hw.
Qed.

Lemma resolved_some t : is_some (rt_event_time (resolve_event_time (Some t) now)) = true.
Proof. unfold resolve_event_time. by repeat case_match. Qed.

Lemma is_some_fmap {A B} (f : A → B) o : is_some (f <$> o) = is_some o.
Proof. by destruct o. Qed.

Lemma correlation_serializes input e : representable now → datable (Some (cei_window_end input)) →
  correlation_event now new_uuid thresholds input = Ok e → ∃ w, serialize e = Ok w.
Proof.
  intros Hn Ht He. unfold correlation_event in He. passed He. injection He as <-.
  set (ass := assess_risk_with_thresholds _ _). destruct (severity_valid ass) as [Hsev Hw].
  assert (is_empty_list (cei_shared_rule_ids input) = false) as Hr.
  { unfold validate_correlation_input in Hpass1. passed Hpass1. by eapply nonempty_array. }
  eexists. apply built_serializes; [done|by split; builder|].
  erewrite profile_typed by reflexivity. cbn [String.eqb Ascii.eqb Bool.eqb].
  unfold correlation_profile, no_checks, no_process_fields. fields. cbn [map].
  rewrite correlation_session, correlation_category, is_some_fmap, resolved_some, is_empty_map, Hr, Hw.
  vm_compute. reflexivity.
Qed.

Lemma scanner_error_serializes source error : representable now →
  ∃ w, serialize (scanner_error_event now new_uuid source error) = Ok w.
Proof.
  intros Hn. eexists. apply built_serializes; [done|by split; builder|].
  erewrite profile_typed by reflexivity. cbn [String.eqb Ascii.eqb Bool.eqb].
  unfold scanner_error_profile, scanner_check, no_detection_dimensions, no_process_fields. fields.
  rewrite scanner_session. vm_compute. reflexivity.
Qed.

Lemma alert_check_valid t : lits VALID_OPERATIONAL_CHECK_NAMES (operational_alert_check_name t) = true.
Proof. unfold operational_alert_check_name. by repeat case_match. Qed.

Lemma operational_alert_serializes input : representable now →
  ∃ w, serialize (operational_alert_event now new_uuid input) = Ok w.
Proof.
  intros Hn. eexists. apply built_serializes; [done|by split; builder|].
  erewrite profile_typed by reflexivity. cbn [String.eqb Ascii.eqb Bool.eqb].
  unfold operational_alert_profile, all_dimensions, no_process_fields. fields. cbn [map].
  rewrite scanner_session, alert_check_valid. vm_compute. reflexivity.
Qed.

Lemma health_serializes input : representable now →
  ∃ w, serialize (health_event_with_metadata now new_uuid input) = Ok w.
Proof.
  intros Hn. eexists. apply built_serializes; [done|by split; builder|].
  erewrite profile_typed by reflexivity. cbn [String.eqb Ascii.eqb Bool.eqb].
  unfold health_profile, scanner_check, no_detection_dimensions, no_process_fields. fields.
  rewrite scanner_session. vm_compute. reflexivity.
Qed.

(** A process-chain event adds three controlled values. *)
Lemma with_process_controls b i input : common_controls false (emitted b) = true →
  lits VALID_CONFIDENCES (pi_confidence input) = true →
  lits VALID_RISK_ENTITY_TYPES (pi_risk_entity_type input) = true →
  lits VALID_DETECTION_SEVERITIES (pc_rule_severity (pi_process input)) = true →
  common_controls false (terminal_emittable_event (with_process (build now new_uuid b) i input)) = true.
Proof.
  intros Hb Hc Ht Hs. revert Hb. unfold common_controls. fields. rewrite !andb_true_iff. intros Hb.
  cbn [fmap option_fmap option_map opt_all] in *.
  assert (pc_rule_severity (terminal_process_context (pi_process input)) = pc_rule_severity (pi_process input)) as -> by done.
  intuition.
Qed.

Lemma process_chain_serializes input e : representable now → datable (pi_event_time input) →
  process_chain_event now new_uuid thresholds input = Ok e → ∃ w, serialize e = Ok w.
Proof.
  intros Hn Ht He. unfold process_chain_event in He. passed He. injection He as <-.
  set (ass := assess_risk_with_thresholds _ _). destruct (severity_valid ass) as [Hsev Hw].
  match goal with H : validate_detection_dimensions _ _ _ _ _ _ = Ok _ |- _ =>
    apply detection_dimensions in H as ((Hr & Hca & Hc & Hsi & Hi) & Vc & Vs & Vi) end.
  match goal with H : validate_process_context _ = Ok _ |- _ => unfold validate_process_context in H; passed H end.
  repeat match goal with H : validate_allowed_values _ _ [_] _ = Ok _ |- _ =>
    apply allowed_values in H; cbn [forallb] in H; rewrite andb_true_r in H end.
  match goal with |- context [with_process (build now new_uuid ?b') ?i' _] => set (b := b'); set (i := i') end.
  assert (buildable b) as Hb by (split; builder; try done; intros r [= <-]; apply response_metadata_valid).
  assert (common_controls false (terminal_emittable_event (with_process (build now new_uuid b) i input)) = true) as Hcc
    by (apply with_process_controls; [by apply built_controls|assumption..]).
  assert (profile (terminal_emittable_event (with_process (build now new_uuid b) i input)) = true) as Hp.
  { erewrite profile_typed by reflexivity. cbn [String.eqb Ascii.eqb Bool.eqb].
    unfold process_chain_profile, all_dimensions, no_checks. fields. subst b. builder.
    rewrite Hw, !is_empty_map, Hr, Hca, Hc, Hsi, Hi, !is_some_fmap. by destruct (pi_risk_entity_value input). }
  assert (response_playbooks_are_valid (with_process (build now new_uuid b) i input) = true) as Hpb
    by apply response_metadata_valid.
  eexists. unfold serialize, terminal_controlled_fields_are_valid. by rewrite Hpb, Hcc, Hp.
Qed.

(** ** All constructors *)

(** The events the constructors return, with the source time they were given. *)
Inductive constructed : option text → Event → Prop :=
  | constructed_detection input e :
      detection_event now new_uuid thresholds input = Ok e → constructed (di_event_time input) e
  | constructed_process_chain input e :
      process_chain_event now new_uuid thresholds input = Ok e → constructed (pi_event_time input) e
  | constructed_activity input e :
      activity_event now new_uuid thresholds input = Ok e → constructed (ai_event_time input) e
  | constructed_inventory evidence e : install_inventory_event now new_uuid evidence = Ok e → constructed None e
  | constructed_summary input e :
      session_risk_summary_event now new_uuid thresholds input = Ok e → constructed (si_event_time input) e
  | constructed_correlation input e :
      correlation_event now new_uuid thresholds input = Ok e → constructed (Some (cei_window_end input)) e
  | constructed_scanner_error source error : constructed None (scanner_error_event now new_uuid source error)
  | constructed_alert input : constructed None (operational_alert_event now new_uuid input)
  | constructed_health input : constructed None (health_event_with_metadata now new_uuid input).

(** The tag the allowlist adds later, which changes what a detection must carry. *)
Definition tagged_suppressed (e : Event) : Prop :=
  ev_event_type e = lit "detection" ∧ lit "suppressed" ∈ ev_tags e.

(** A detection with the tag still has its response, and is refused. *)
Lemma tagged_detection_refused input e : detection_event now new_uuid thresholds input = Ok e →
  lit "suppressed" ∈ ev_tags e → is_ok (serialize e) = false.
Proof.
  intros He Hs. unfold detection_event in He. passed He. injection He as <-.
  match goal with |- context [build now new_uuid ?b'] => set (b := b') in * end.
  assert (existsb (is_lit "suppressed") (ev_tags (emitted b)) = true) as Ht.
  { apply existsb_exists. exists (lit "suppressed"). split; [|by apply bool_decide_eq_true].
    apply in_map_iff. exists (lit "suppressed"). split; [apply terminal_tag_fixed; vm_compute; reflexivity|by apply list_elem_of_In]. }
  assert (detection_profile (emitted b) = false) as Hp.
  { unfold detection_profile. rewrite Ht. assert (none (ev_response (emitted b)) = false) as -> by done. cbn [andb]. by rewrite !andb_false_r. }
  unfold serialize. unfold terminal_controlled_fields_are_valid.
  erewrite profile_typed by reflexivity. cbn [String.eqb Ascii.eqb Bool.eqb]. rewrite Hp, andb_false_r. by destruct (negb (response_playbooks_are_valid (build now new_uuid b))).
Qed.

(** C5: An event that any of the nine constructors returned is accepted by its own serialization,
    but for one: a detection whose rules gave it the tag [suppressed], which is always refused.  The
    clock and the source time, if it parses, are in the years 0 to 9999.  No other input that passes
    the validation of a constructor makes an event that cannot be written. *)
Theorem constructed_events_serialize (time : option text) (e : Event) :
  representable now → datable time → constructed time e →
  (∃ w, serialize e = Ok w) ↔ ¬ tagged_suppressed e.
Proof.
  intros Hn Ht He. split.
  - intros [w Hw] [Hty Hs]. destruct He as [i e He|i e He|i e He|i e He|i e He|i e He| | |]; try discriminate Hty.
    + pose proof (tagged_detection_refused i e He Hs) as Hr. by rewrite Hw in Hr.
    + unfold process_chain_event in He. passed He. injection He as <-. discriminate Hty.
    + unfold activity_event in He. passed He. injection He as <-. discriminate Hty.
    + unfold install_inventory_event in He. passed He. injection He as <-. discriminate Hty.
    + unfold session_risk_summary_event in He. passed He. injection He as <-. discriminate Hty.
    + unfold correlation_event in He. passed He. injection He as <-. discriminate Hty.
  - intros Hs. destruct He as [i e He|i e He|i e He|i e He|i e He|i e He| | |];
      eauto using process_chain_serializes, activity_serializes, install_inventory_serializes,
        summary_serializes, correlation_serializes, scanner_error_serializes, operational_alert_serializes,
        health_serializes.
    apply (detection_serializes i e); [done|done| |done]. intros Hin. apply Hs.
    unfold detection_event in He. passed He. by injection He as <-.
Qed.

(** What the accounting of an event owes its reader. *)
Definition rule_backed_contributions (e : Event) : Prop :=
  Forall (λ c, rule_backed (rc_type c) = true ∧ decode_str (rc_id c) ∈ ev_rule_ids e) (ev_risk_contributions e).

Lemma detection_scope rule_ids l u : validate_risk_accounting_scope "detection" rule_ids l = Ok u →
  Forall (λ c, rule_backed (rc_type c) = true ∧ decode_str (rc_id c) ∈ rule_ids) l.
Proof.
  revert u. induction l as [|c l IH]; [constructor|]. intros u. cbn [validate_risk_accounting_scope String.eqb Ascii.eqb Bool.eqb orb andb].
  destruct (rule_backed (rc_type c)) eqn:Hb; [|done]. cbn [negb].
  destruct (text_in _ rule_ids) eqn:Hin; [|done]. cbn [negb]. intros Hl. constructor; [|by eapply IH].
  split; [done|]. by apply text_in_spec.
Qed.

(** The severity a type of event has: that of its score, or a fixed one of an event without risk. *)
Definition severity_accounted (e : Event) : Prop :=
  let scored := ev_severity e = severity_text (assess_risk_with_thresholds (ev_risk_score e) thresholds) in
  let fixed severity := ev_risk_score e = 0 ∧ ev_risk_contributions e = [] ∧ ev_severity e = lit severity in
  if lits ["detection"; "process_chain"; "session_risk_summary"; "correlation"] (ev_event_type e) then scored
  else if is_lit "activity" (ev_event_type e) then scored ∨ fixed "informational"
  else fixed (if is_lit "operational_alert" (ev_event_type e) then "warning" else "informational").

Definition accounted (e : Event) : Prop :=
  (if is_lit "correlation" (ev_event_type e) then ev_risk_contributions e = []
   else checked_risk_sum (ev_risk_contributions e) = Ok (ev_risk_score e)) ∧
  severity_accounted e ∧
  (lits ["detection"; "process_chain"] (ev_event_type e) = true → rule_backed_contributions e).

(** The highest of some scores, of which there is none below zero. *)
Definition highest (scores : list Z) (score : Z) : Prop :=
  Forall (λ s, s ≤ score) scores ∧ (score ∈ scores ∨ score = 0).

Lemma maximum_highest l : highest l (maximum l).
Proof.
  unfold highest, maximum. induction l as [|x l [Hle Hin]]; cbn [foldr]; [split; [constructor|by right]|]. split.
  - constructor; [lia|]. eapply Forall_impl; [exact Hle|]. cbn beta. intros. lia.
  - destruct (Z.max_spec x (foldr Z.max 0 l)) as [[_ ->]|[_ ->]]; [|left; by left]. destruct Hin; [left; by right|by right].
Qed.

(** C33: The risk of a constructed event is accounted for.  Its score is the checked sum of the
    contributions it carries, or, for a correlation, which carries none, the highest score of its
    sessions.  The severity of a detection, process chain, summary or correlation is the one the
    thresholds give its score; that of an activity too, or it has no risk and is informational, and
    events of the scanner have no risk and a fixed severity.  Each contribution of a detection or of a
    process chain comes from a rule the event names. *)
Theorem constructed_events_accounted (time : option text) (e : Event) : constructed time e →
  accounted e ∧
  ∀ input, correlation_event now new_uuid thresholds input = Ok e →
    highest (map csi_risk_score (cei_sessions input)) (ev_risk_score e).
Proof.
  intros He. split.
  - destruct He as [i e He|i e He|i e He|i e He|i e He|i e He| | |]; unfold accounted, severity_accounted;
      try (split_and!; [done|done|by vm_compute]).
    + unfold detection_event in He. passed He. injection He as <-. split_and!; [done|done|]. intros _. by eapply detection_scope.
    + unfold process_chain_event in He. passed He. injection He as <-. split_and!; [done|done|]. intros _. by eapply detection_scope.
    + unfold activity_event in He. passed He. injection He as <-. split_and!; [done|by left|by vm_compute].
    + unfold install_inventory_event in He. passed He. injection He as <-. split_and!; [done|by right|by vm_compute].
    + unfold session_risk_summary_event in He. passed He. injection He as <-. split_and!; [done|done|by vm_compute].
    + unfold correlation_event in He. passed He. injection He as <-. split_and!; [done|done|by vm_compute].
  - clear He. intros input He. unfold correlation_event in He. passed He. injection He as <-. cbn [build ev_risk_score].
    match goal with Hv : validate_correlation_input _ = Ok _ |- _ => unfold validate_correlation_input in Hv; passed Hv end.
    match goal with Hm : negb (_ =? _) = false |- _ => apply negb_false_iff, Z.eqb_eq in Hm; rewrite <- Hm end.
    apply maximum_highest.
Qed.

End built.

(** ** Concrete services

    Ten stamps, a minute apart, one digest and one identifier. *)
Module BuildSample.
Import Reference.

Definition minute : Z := 60 * second.
Definition stamp (k : N) : text := lit "2026-01-02T03:0" ++ [(48 + k)%N] ++ lit ":00.000Z".
Definition stamp_index (t : text) : option N :=
  find (λ k, text_eqb t (stamp k)) [0; 1; 2; 3; 4; 5; 6; 7; 8; 9]%N.

Definition sample_uuid : text := lit "0b1f2c3d-4e5f-4a6b-8c7d-8e9fa0b1c2d3".
Definition digest : text := lit "00112233445566778899aabbccddeeff00112233445566778899aabbccddeeff".

#[export] Instance services : EventServices := {
  evidence_hash _ := digest;
  parse_event_timestamp t := (λ k, Z.of_N k * minute) <$> stamp_index t;
  uuid := unit;
  parse_uuid t := if text_eqb t sample_uuid then Some tt else None;
  get_version_num _ := 4;
  uuid_text _ := sample_uuid;
}.

Definition last_digit (t : Z) : N := N.min 9 (Z.to_N (t / minute)).

#[export] Instance times : EventTimes := { format_utc_millis t := stamp (last_digit t) }.

Lemma stamp_index_some t k : stamp_index t = Some k → t = stamp k ∧ (k < 10)%N.
Proof.
  intros [Hin Ht]%find_some. apply bool_decide_eq_true in Ht as ->. cbn in Hin.
  repeat destruct Hin as [<-|Hin]; done.
Qed.

Lemma stamp_index_stamp k : (k < 10)%N → stamp_index (stamp k) = Some k.
Proof.
  intros Hk. assert (k ∈ [0; 1; 2; 3; 4; 5; 6; 7; 8; 9]%N) as Hin.
  { rewrite !elem_of_cons. lia. }
  apply list_elem_of_In in Hin. cbn in Hin. repeat destruct Hin as [<-|Hin]; done.
Qed.

#[export] Instance services_laws : EventServicesLaws.
Proof.
  split.
  - intros t. vm_compute. reflexivity.
  - intros t. cbn [parse_event_timestamp services]. destruct (stamp_index t) as [k|] eqn:Ht; [|done]. intros _.
    apply stamp_index_some in Ht as [-> Hk].
    assert (k ∈ [0; 1; 2; 3; 4; 5; 6; 7; 8; 9]%N) as Hin by (rewrite !elem_of_cons; lia).
    apply list_elem_of_In in Hin. cbn [In] in Hin.
    repeat destruct Hin as [<-|Hin]; try (apply (bool_decide_unpack _); vm_compute; exact I). done.
  - intros []. repeat constructor; apply (bool_decide_unpack _); vm_compute; exact I.
Qed.

#[export] Instance times_laws : EventTimesLaws.
Proof.
  split. intros t _. cbn [parse_event_timestamp services format_utc_millis times].
  rewrite stamp_index_stamp; [done|]. unfold last_digit. lia.
Qed.

#[export] Instance fresh_uuid : NewUuid tt.
Proof. split; vm_compute; reflexivity. Qed.

Definition contribution : RiskContribution :=
  {| rc_id := "secret.env"; rc_type := DeterministicRule; rc_points := 75; rc_rationale := "read a file" |}.

Definition detection_input (session : text) (points : Z) (time : N) : DetectionEventInput :=
  {| di_client := Codex; di_agent := Some (lit "codex"); di_model := None; di_provider := None;
     di_session_id := session; di_source_path_hash := digest; di_tool_name := Some (lit "Bash");
     di_rule_ids := [lit "secret.env"]; di_categories := [lit "credential"];
     di_detection_classes := [lit "security_detection"]; di_signal_types := [lit "atomic"];
     di_analytic_intents := [lit "alert"]; di_atlas_tags := []; di_tags := [lit "secret"];
     di_evidence := [plain_evidence "command" (lit "cat .env")];
     di_risk_contributions :=
       [{| rc_id := "secret.env"; rc_type := DeterministicRule; rc_points := points; rc_rationale := "read a file" |}];
     di_event_time := Some (stamp time) |}.

Definition now : Z := 9 * minute.

Lemma now_representable : representable now.
Proof. split; apply Z.leb_le; vm_compute; reflexivity. Qed.

Lemma stamps_datable t : datable (Some t).
Proof.
  intros v i [= <-] Hi. cbn [parse_event_timestamp services] in Hi. destruct (stamp_index t) as [k|] eqn:Ht; [|done].
  injection Hi as <-. apply stamp_index_some in Ht as [_ Hk]. unfold representable, minute, second. lia.
Qed.

Definition detection (session : text) (points : Z) (time : N) : Event :=
  match detection_event now tt default_thresholds (detection_input session points time) with
  | Ok e => e
  | Err _ => operational_alert_event now tt
      {| oa_alert_type := []; oa_threshold := []; oa_actual_value := []; oa_scan_duration_ms := None;
         oa_scanner_error_count := None |}
  end.

Lemma detection_made : detection_event now tt default_thresholds (detection_input (lit "a") 75 1) = Ok (detection (lit "a") 75 1).
Proof.
  unfold detection. assert (is_ok (detection_event now tt default_thresholds (detection_input (lit "a") 75 1)) = true) as H
    by (vm_compute; reflexivity).
  by destruct (detection_event _ _ _ _).
Qed.

Lemma detection_constructed : constructed now tt default_thresholds (Some (stamp 1)) (detection (lit "a") 75 1).
Proof. exact (constructed_detection _ _ _ (detection_input (lit "a") 75 1) _ detection_made). Qed.

Lemma constructed_events_serialize_witness : ∃ w, serialize (detection (lit "a") 75 1) = Ok w.
Proof.
  apply (proj2 (constructed_events_serialize _ _ _ _ _
    now_representable (stamps_datable (stamp 1)) detection_constructed)).
  intros [_ Hs]. revert Hs. apply (bool_decide_unpack _). vm_compute. exact I.
Defined.

Lemma constructed_events_accounted_witness : ev_risk_score (detection (lit "a") 75 1) = 75 ∧
  accounted default_thresholds (detection (lit "a") 75 1).
Proof.
  split; [vm_compute; reflexivity|]. exact (proj1 (constructed_events_accounted now tt default_thresholds _ _ detection_constructed)).
Defined.

End BuildSample.
