(* ===== verification/Allowlist.v ===== *)
(** * Allowlist suppression

    crates/telltale-detect/src/allowlist.rs and the marking loop of src/cli/scan.rs:
    which suppression an event matches, what marking changes, and the provenance of the
    effective suppressions.  Reading the YAML file is left to the caller. *)

From S2P Require Import Prelude Ordered Rstr Scoring JournalNames Unicode Regex RegexRef RedactPatterns Redaction RedactionSafe EventIdentifiers EventEmit EventPrivacy EventHistory EventBuild EventBuildSafe.

Local Open Scope Z_scope.

(** ** Suppressions *)

Record Suppression := {
  sp_name : option text;
  sp_clients : list text;
  sp_session_ids : list text;
  sp_tool_names : list text;
  sp_rule_ids : list text;
  sp_categories : list text;
  sp_source_path_hashes : list text;
}.

Record Allowlist := {
  al_version : option Z;
  al_description : option text;
  al_suppressions : list Suppression;
  al_configured : bool;
}.

Definition Allowlist_default : Allowlist :=
  {| al_version := None; al_description := None; al_suppressions := []; al_configured := false |}.

(** [from_yaml], after the document was read. *)
Definition configured (a : Allowlist) : Allowlist :=
  {| al_version := al_version a; al_description := al_description a; al_suppressions := al_suppressions a;
     al_configured := true |}.

Record SuppressionMatch := { sm_name : text }.

Definition unnamed_suppression : text := lit "unnamed_suppression".

Definition has_any_criteria (s : Suppression) : bool :=
  negb (is_empty_list (sp_clients s)) || negb (is_empty_list (sp_session_ids s))
  || negb (is_empty_list (sp_tool_names s)) || negb (is_empty_list (sp_rule_ids s))
  || negb (is_empty_list (sp_categories s)) || negb (is_empty_list (sp_source_path_hashes s)).

Definition matches_optional (allowed values : list text) : bool :=
  is_empty_list allowed || existsb (λ a, existsb (text_eqb a) values) allowed.

Definition optional_slice (value : option text) : list text := option_list value.

Definition matches (s : Suppression) (source : Source) (e : Event) : bool :=
  has_any_criteria s
  && matches_optional (sp_clients s) [ClientId_as_str (so_client source); ev_client e]
  && matches_optional (sp_session_ids s) [ev_session_id e]
  && matches_optional (sp_tool_names s) (optional_slice (ev_tool_name e))
  && matches_optional (sp_rule_ids s) (ev_rule_ids e)
  && matches_optional (sp_categories s) (ev_categories e)
  && matches_optional (sp_source_path_hashes s) (optional_slice (ev_source_path_hash e)).

Definition suppression_for (a : Allowlist) (source : Source) (e : Event) : option SuppressionMatch :=
  if negb (is_lit "detection" (ev_event_type e)) then None
  else (λ s, {| sm_name := default unnamed_suppression (sp_name s) |})
         <$> find (λ s, matches s source e) (al_suppressions a).

(** ** Marking *)

Definition push_tag (tags : list text) (tag : text) : list text :=
  if existsb (text_eqb tag) tags then tags else tags ++ [tag].

Definition suppressed_tags (tags : list text) (m : SuppressionMatch) : list text :=
  push_tag (push_tag tags (lit "suppressed")) (lit "allowlist:" ++ sm_name m).

Definition allowlist_evidence (m : SuppressionMatch) : Evidence :=
  {| evd_field := lit "allowlist"; evd_redacted_value := sm_name m; evd_hash := None; evd_rule_id := None |}.

Definition suppress_detection (e : Event) (m : SuppressionMatch) : Event :=
  if negb (is_lit "detection" (ev_event_type e)) then e
  else
  {| ev_timestamp := ev_timestamp e; ev_event_time := ev_event_time e; ev_observed_at := ev_observed_at e;
     ev_ingested_at := ev_ingested_at e; ev_time_source := ev_time_source e;
     ev_time_confidence := ev_time_confidence e; ev_time_override_reason := ev_time_override_reason e;
     ev_schema_version := ev_schema_version e; ev_event_id := ev_event_id e;
     ev_telltale_version := ev_telltale_version e; ev_event_type := ev_event_type e;
     ev_severity := lit "informational"; ev_risk_score := 0; ev_risk_contributions := [];
     ev_client := ev_client e; ev_agent := ev_agent e; ev_model := ev_model e; ev_provider := ev_provider e;
     ev_session_id := ev_session_id e; ev_source_path_hash := ev_source_path_hash e;
     ev_tool_name := ev_tool_name e; ev_rule_ids := ev_rule_ids e; ev_categories := ev_categories e;
     ev_detection_classes := ev_detection_classes e; ev_signal_types := ev_signal_types e;
     ev_analytic_intents := ev_analytic_intents e; ev_atlas_tags := ev_atlas_tags e;
     ev_tags := suppressed_tags (ev_tags e) m; ev_evidence := ev_evidence e ++ [allowlist_evidence m];
     ev_timeline_anchors := []; ev_response := None; ev_source_counts := ev_source_counts e;
     ev_component := ev_component e; ev_check_name := ev_check_name e; ev_status := ev_status e;
     ev_scan_duration_ms := ev_scan_duration_ms e; ev_rule_count := ev_rule_count e;
     ev_threshold_config := ev_threshold_config e; ev_active_policy_name := ev_active_policy_name e;
     ev_emitted_count := ev_emitted_count e; ev_suppressed_count := ev_suppressed_count e;
     ev_scanner_error_count := ev_scanner_error_count e; ev_informational := ev_informational e;
     ev_confidence := ev_confidence e; ev_detection_reason := ev_detection_reason e;
     ev_mitre_attack_techniques := ev_mitre_attack_techniques e; ev_risk_entity_type := ev_risk_entity_type e;
     ev_risk_entity_value := ev_risk_entity_value e; ev_process := ev_process e |}.

(** The loop of a scan: the marked detections and how many were marked. *)
Fixpoint mark_suppressed (a : Allowlist) (detections : list (Source * Event)) (suppressed_count : Z)
    : list (Source * Event) * Z :=
  match detections with
  | [] => ([], suppressed_count)
  | (source, detection) :: rest =>
      let is_detection := is_lit "detection" (ev_event_type detection) in
      match (if is_detection then suppression_for a source detection else None) with
      | Some m =>
          let '(marked, n) := mark_suppressed a rest (suppressed_count + 1) in
          ((source, suppress_detection detection m) :: marked, n)
      | None =>
          let '(marked, n) := mark_suppressed a rest suppressed_count in
          ((source, detection) :: marked, n)
      end
  end.

(** ** Provenance *)

Inductive ProducerSuppressionState := SuppressionNone | SuppressionConfigured.

Record ProducerSuppressionProvenance := {
  psp_canonicalization : text;
  psp_state : ProducerSuppressionState;
  psp_fingerprint : option text;
  psp_count : Z;
}.

Definition SUPPRESSION_V1_CANONICALIZATION : text := lit "suppression-v1-effective-v1".

Definition no_suppression_provenance : ProducerSuppressionProvenance :=
  {| psp_canonicalization := SUPPRESSION_V1_CANONICALIZATION; psp_state := SuppressionNone;
     psp_fingerprint := None; psp_count := 0 |}.

Record CanonicalSuppression := {
  cs_name : text;
  cs_clients : list text;
  cs_session_ids : list text;
  cs_tool_names : list text;
  cs_rule_ids : list text;
  cs_categories : list text;
  cs_source_path_hashes : list text;
}.

Definition sorted_unique (values : list text) : list text := dedup (sort values).

Section provenance.
Context `{Regexes} `{EventServices}.

Definition canonical_suppression_name (s : Suppression) : text :=
  opaque_identifier "suppression" (default unnamed_suppression (sp_name s)).

Definition canonical_suppression (s : Suppression) : CanonicalSuppression :=
  {| cs_name := canonical_suppression_name s; cs_clients := sorted_unique (sp_clients s);
     cs_session_ids := sorted_unique (sp_session_ids s); cs_tool_names := sorted_unique (sp_tool_names s);
     cs_rule_ids := sorted_unique (sp_rule_ids s); cs_categories := sorted_unique (sp_categories s);
     cs_source_path_hashes := sorted_unique (sp_source_path_hashes s) |}.

(** [digest] is the SHA-256 of the domain and of the JSON of the canonical entries. *)
Definition suppression_provenance (digest : list CanonicalSuppression → text) (a : Allowlist)
    : ProducerSuppressionProvenance :=
  if negb (al_configured a) then no_suppression_provenance
  else
    {| psp_canonicalization := SUPPRESSION_V1_CANONICALIZATION; psp_state := SuppressionConfigured;
       psp_fingerprint := Some (lit "sha256:" ++ digest (map canonical_suppression (al_suppressions a)));
       psp_count := Z.of_nat (length (al_suppressions a)) |}.

End provenance.

(** ** Which events are suppressed *)

(** A criterion that is set must share a value with the event. *)
Definition criterion (allowed values : list text) : Prop := allowed = [] ∨ ∃ v, v ∈ allowed ∧ v ∈ values.

Lemma matches_optional_spec allowed values : matches_optional allowed values = true ↔ criterion allowed values.
Proof.
  unfold matches_optional, criterion. rewrite orb_true_iff. split.
  - intros [He|He]; [left; by destruct allowed|right]. apply existsb_exists in He as (v & Hv & Hx).
    apply existsb_exists in Hx as (u & Hu & ->%bool_decide_eq_true). exists u. by rewrite !list_elem_of_In.
  - intros [->|(v & Hv & Hu)]; [by left|right]. apply existsb_exists. exists v. split; [by apply list_elem_of_In|].
    apply existsb_exists. exists v. split; [by apply list_elem_of_In|]. by apply bool_decide_eq_true.
Qed.

Definition same_values (l k : list text) : Prop := ∀ v, v ∈ l ↔ v ∈ k.

#[export] Instance same_values_equiv : Equivalence same_values.
Proof.
  split; unfold same_values.
  - intros l v. done.
  - intros l k Hl v. by rewrite Hl.
  - intros l k m Hl Hk v. by rewrite Hl, Hk.
Qed.

Lemma same_values_empty l k : same_values l k → l = [] → k = [].
Proof. intros Hs ->. apply elem_of_nil_inv. intros v Hv. apply Hs in Hv. by apply elem_of_nil in Hv. Qed.

#[export] Instance criterion_proper : Proper (same_values ==> eq ==> iff) criterion.
Proof.
  assert (∀ l k v, same_values l k → criterion l v → criterion k v) as Hc.
  { intros l k v Hs [He|(u & Hu & Hv)]; [left; by eapply same_values_empty|]. right. exists u. by rewrite <- (Hs u). }
  intros l k Hs v ? <-. split; apply Hc; [done|by symmetry].
Qed.

#[export] Instance matches_optional_proper : Proper (same_values ==> eq ==> eq) matches_optional.
Proof. intros l k Hs v ? <-. apply eq_true_iff_eq. by rewrite !matches_optional_spec, Hs. Qed.

#[export] Instance is_empty_proper : Proper (same_values ==> eq) (is_empty_list (A := text)).
Proof.
  intros l k Hs. pose proof (same_values_empty l k Hs) as H1. pose proof (same_values_empty k l ltac:(by symmetry)) as H2.
  destruct l, k; try done; [by specialize (H1 eq_refl)|by specialize (H2 eq_refl)].
Qed.

(** Suppressions that list the same values under each criterion. *)
Definition same_criteria (s t : Suppression) : Prop :=
  same_values (sp_clients s) (sp_clients t) ∧ same_values (sp_session_ids s) (sp_session_ids t) ∧
  same_values (sp_tool_names s) (sp_tool_names t) ∧ same_values (sp_rule_ids s) (sp_rule_ids t) ∧
  same_values (sp_categories s) (sp_categories t) ∧
  same_values (sp_source_path_hashes s) (sp_source_path_hashes t).

#[export] Instance matches_proper : Proper (same_criteria ==> eq ==> eq ==> eq) matches.
Proof.
  intros s t (H1 & H2 & H3 & H4 & H5 & H6) source ? <- e ? <-. unfold matches, has_any_criteria.
  by rewrite H1, H2, H3, H4, H5, H6.
Qed.

Lemma find_matches_same a b source e : Forall2 same_criteria a b →
  is_some (find (λ s, matches s source e) a) = is_some (find (λ s, matches s source e) b).
Proof.
  induction 1 as [|s t a b Hs _ IH]; [done|]. cbn [find]. rewrite (matches_proper s t Hs source source eq_refl e e eq_refl).
  by destruct (matches t source e).
Qed.

Lemma sorted_unique_same l k : sorted_unique l = sorted_unique k ↔ same_values l k.
Proof.
  unfold sorted_unique. rewrite !dedup_sort_bset. split.
  - intros He v. by rewrite <- (bs_of_list_elem v l), He, bs_of_list_elem.
  - intros Hs. apply bs_ext; [apply bs_of_list_wf..|]. intros v. by rewrite !bs_of_list_elem.
Qed.

Section canonical.
Context `{Regexes} `{EventServices}.

Lemma canonical_same_criteria s t : canonical_suppression s = canonical_suppression t ↔
  canonical_suppression_name s = canonical_suppression_name t ∧ same_criteria s t.
Proof.
  unfold same_criteria. rewrite <- !sorted_unique_same. split.
  { intros He. split_and!; [exact (f_equal cs_name He)|exact (f_equal cs_clients He)|exact (f_equal cs_session_ids He)|
      exact (f_equal cs_tool_names He)|exact (f_equal cs_rule_ids He)|exact (f_equal cs_categories He)|
      exact (f_equal cs_source_path_hashes He)]. }
  intros (Hn & H1 & H2 & H3 & H4 & H5 & H6). unfold canonical_suppression. by rewrite Hn, H1, H2, H3, H4, H5, H6.
Qed.

Lemma canonical_lists a b : map canonical_suppression a = map canonical_suppression b ↔
  Forall2 (λ s t, canonical_suppression_name s = canonical_suppression_name t ∧ same_criteria s t) a b.
Proof.
  split.
  - revert b. induction a as [|s a IH]; intros [|t b] He; try done.
    constructor; [apply canonical_same_criteria; exact (f_equal (hd (canonical_suppression s)) He)|].
    apply IH. exact (f_equal tail He).
  - induction 1 as [|s t a b Hs _ IH]; [done|]. cbn [map]. by rewrite IH, (proj2 (canonical_same_criteria s t) Hs).
Qed.


End canonical.

(** ** What marking leaves *)

(** The event a scan emits for a detection of a source. *)
Definition marked (a : Allowlist) (source : Source) (e : Event) : Event :=
  match suppression_for a source e with Some m => suppress_detection e m | None => e end.

Lemma mark_suppressed_map a l n : mark_suppressed a l n =
  (map (λ se, (se.1, marked a se.1 se.2)) l,
   n + Z.of_nat (length (filter (λ se, is_some (suppression_for a se.1 se.2)) l))).
Proof.
  revert n. induction l as [|[source e] l IH]; intros n; cbn [mark_suppressed map fst snd].
  - f_equal. cbn. lia.
  - assert ((if is_lit "detection" (ev_event_type e) then suppression_for a source e else None)
            = suppression_for a source e) as -> by (unfold suppression_for; by destruct (is_lit _ _)).
    rewrite filter_cons. unfold marked. cbn [fst snd]. destruct (suppression_for a source e) as [m|]; rewrite IH.
    + case_decide as Hd; [|by destruct Hd]. cbn [length]. f_equal. lia.
    + case_decide as Hd; [by destruct Hd|done].
Qed.

Lemma push_tag_elem tags tag t : t ∈ push_tag tags tag ↔ t ∈ tags ∨ t = tag.
Proof.
  unfold push_tag. destruct (existsb (text_eqb tag) tags) eqn:He.
  - apply existsb_exists in He as (u & Hu%list_elem_of_In & <-%bool_decide_eq_true). naive_solver.
  - rewrite elem_of_app, list_elem_of_singleton. done.
Qed.

Lemma suppressed_tagged tags m : lit "suppressed" ∈ suppressed_tags tags m.
Proof. unfold suppressed_tags. rewrite !push_tag_elem. tauto. Qed.

Lemma is_some_exists {A} (o : option A) : is_some o = true ↔ ∃ x, o = Some x.
Proof. destruct o; cbn; naive_solver. Qed.

Lemma find_is_some {A} (f : A → bool) l : is_some (find f l) = true ↔ ∃ x, x ∈ l ∧ f x = true.
Proof.
  rewrite is_some_exists. split.
  - intros (x & [Hin Hf]%find_some). exists x. by rewrite list_elem_of_In.
  - intros (x & Hin%list_elem_of_In & Hf). destruct (find f l) eqn:He; [by eexists|].
    by rewrite (find_none f l He x Hin) in Hf.
Qed.

(** What an entry of the allowlist asks of an event. *)
Definition suppresses (source : Source) (e : Event) (s : Suppression) : Prop :=
  has_any_criteria s = true ∧
  criterion (sp_clients s) [ClientId_as_str (so_client source); ev_client e] ∧
  criterion (sp_session_ids s) [ev_session_id e] ∧
  criterion (sp_tool_names s) (option_list (ev_tool_name e)) ∧
  criterion (sp_rule_ids s) (ev_rule_ids e) ∧
  criterion (sp_categories s) (ev_categories e) ∧
  criterion (sp_source_path_hashes s) (option_list (ev_source_path_hash e)).

Lemma suppresses_spec s source e : matches s source e = true ↔ suppresses source e s.
Proof. unfold matches, suppresses, optional_slice. rewrite !andb_true_iff, !matches_optional_spec. tauto. Qed.

(** A scan marks the detections some entry of the allowlist matches on every criterion it sets,
    and nothing else: an entry with no criterion matches nothing, other events pass unchanged,
    the order and the sources are kept, and the count reported is the number of marked
    detections. *)
Theorem scan_marks_suppressed (a : Allowlist) (l : list (Source * Event)) :
  mark_suppressed a l 0 =
    (map (λ se, (se.1, marked a se.1 se.2)) l,
     Z.of_nat (length (filter (λ se, is_some (suppression_for a se.1 se.2)) l))) ∧
  ∀ source e, is_some (suppression_for a source e) = true ↔
    ev_event_type e = lit "detection" ∧ ∃ s, s ∈ al_suppressions a ∧ suppresses source e s.
Proof.
  split; [by rewrite mark_suppressed_map|]. intros source e. unfold suppression_for.
  destruct (is_lit "detection" (ev_event_type e)) eqn:Ht; cbn [negb].
  - apply bool_decide_eq_true in Ht as ->. rewrite is_some_fmap, find_is_some.
    split; [intros (s & Hs & Hm%suppresses_spec); split; [done|]; by exists s|].
    intros (_ & s & Hs & Hm%suppresses_spec). by exists s.
  - apply bool_decide_eq_false in Ht. split; [done|by intros [? _]].
Qed.

Section marking.
Context `{RegexesLaws} `{EventTimes} `{!EventServicesLaws} `{!EventTimesLaws}.
Context (now : Z) (new_uuid : uuid) (thresholds : RiskThresholds) `{!NewUuid new_uuid}.
#[local] Existing Instance sanitizer_privacy.

Lemma suppressed_tag_emitted tags : lit "suppressed" ∈ tags → existsb (is_lit "suppressed") (map terminal_tag tags) = true.
Proof.
  intros Ht. apply existsb_exists. exists (lit "suppressed"). split; [|by apply bool_decide_eq_true].
  apply in_map_iff. exists (lit "suppressed"). split; [|by apply list_elem_of_In].
  apply terminal_tag_fixed; vm_compute; reflexivity.
Qed.

Lemma existsb_tagged t tags : existsb (is_lit t) tags = true → lit t ∈ tags.
Proof. intros (u & Hu & <-%bool_decide_eq_true)%existsb_exists. by apply list_elem_of_In. Qed.

(** Marking what the builder of a detection made is building with the marks. *)
Definition suppressed_builder (b : EventBuilder) (m : SuppressionMatch) : EventBuilder :=
  {| eb_event_time := eb_event_time b; eb_event_type := eb_event_type b; eb_severity := lit "informational";
     eb_risk_score := 0; eb_risk_contributions := []; eb_client := eb_client b; eb_agent := eb_agent b;
     eb_model := eb_model b; eb_provider := eb_provider b; eb_session_id := eb_session_id b;
     eb_source_path_hash := eb_source_path_hash b; eb_tool_name := eb_tool_name b; eb_rule_ids := eb_rule_ids b;
     eb_categories := eb_categories b; eb_detection_classes := eb_detection_classes b;
     eb_signal_types := eb_signal_types b; eb_analytic_intents := eb_analytic_intents b;
     eb_atlas_tags := eb_atlas_tags b; eb_tags := suppressed_tags (eb_tags b) m;
     eb_evidence := eb_evidence b ++ [allowlist_evidence m]; eb_timeline_anchors := []; eb_response := None;
     eb_source_counts := eb_source_counts b; eb_component := eb_component b; eb_check_name := eb_check_name b;
     eb_status := eb_status b; eb_scan_duration_ms := eb_scan_duration_ms b; eb_rule_count := eb_rule_count b;
     eb_threshold_config := eb_threshold_config b; eb_active_policy_name := eb_active_policy_name b;
     eb_emitted_count := eb_emitted_count b; eb_suppressed_count := eb_suppressed_count b;
     eb_scanner_error_count := eb_scanner_error_count b |}.

(** What a suppressed detection still says: what the detection itself would have been written with,
    its evidence and tags in their places before what the suppression adds, and no risk. *)
Definition still_recorded (e w : Event) (m : SuppressionMatch) : Prop :=
  let written := terminal_emittable_event e in
  ev_event_id w = ev_event_id written ∧ ev_event_type w = ev_event_type written ∧
  ev_timestamp w = ev_timestamp written ∧ ev_event_time w = ev_event_time written ∧
  ev_client w = ev_client written ∧ ev_agent w = ev_agent written ∧ ev_model w = ev_model written ∧
  ev_provider w = ev_provider written ∧ ev_session_id w = ev_session_id written ∧
  ev_source_path_hash w = ev_source_path_hash written ∧ ev_tool_name w = ev_tool_name written ∧
  ev_rule_ids w = ev_rule_ids written ∧ ev_categories w = ev_categories written ∧
  ev_detection_classes w = ev_detection_classes written ∧ ev_signal_types w = ev_signal_types written ∧
  ev_analytic_intents w = ev_analytic_intents written ∧ ev_atlas_tags w = ev_atlas_tags written ∧
  ev_evidence w = ev_evidence written ++
    [terminal_evidence {| evd_field := lit "allowlist"; evd_redacted_value := sm_name m; evd_hash := None; evd_rule_id := None |}] ∧
  ev_tags written ⊆ ev_tags w ∧ lit "suppressed" ∈ ev_tags w ∧
  ev_risk_score w = 0 ∧ ev_risk_contributions w = [] ∧ ev_severity w = lit "informational" ∧
  ev_response w = None ∧ ev_timeline_anchors w = [].

Lemma suppressed_tags_keep tags m : tags ⊆ suppressed_tags tags m.
Proof. unfold suppressed_tags, push_tag. repeat case_match; set_solver. Qed.

(** C15: A detection an allowlist suppresses is still written: whatever the name of the suppression
    and whatever tags the rules gave the event, the marked event passes its serialization, with
    the score, the contributions, the severity and the response withdrawn, the tag and the piece of
    evidence that say so added, and the rest as the detection itself would have been written: its
    identity, time, client, session, tool, rules, dimensions, tags and each piece of its evidence. *)
Theorem suppressed_detection_recorded (input : DetectionEventInput) (e : Event) (m : SuppressionMatch) :
  representable now → datable (di_event_time input) → detection_event now new_uuid thresholds input = Ok e →
  ∃ w, serialize (suppress_detection e m) = Ok w ∧ still_recorded e w m.
Proof.
  intros Hn Ht He. unfold detection_event in He. passed He. injection He as <-.
  apply detection_dimensions in Hpass4 as ((Hr & Hca & Hc & Hsi & Hi) & Vc & Vs & Vi).
  match goal with |- context [build now new_uuid ?b'] => set (b := b') end.
  set (b' := suppressed_builder b m). assert (suppress_detection (build now new_uuid b) m = build now new_uuid b') as ->
    by reflexivity.
  exists (terminal_emittable_event (build now new_uuid b')). split.
  - refine (built_serializes now new_uuid b' Hn _ _); [split; subst b' b; unfold suppressed_builder; builder; done|].
    erewrite profile_typed by reflexivity. cbn [String.eqb Ascii.eqb Bool.eqb].
    unfold detection_profile, all_dimensions, no_checks. fields. subst b' b. unfold suppressed_builder. builder.
    rewrite suppressed_tag_emitted, !is_empty_map, Hr, Hca, Hc, Hsi, Hi by apply suppressed_tagged. done.
  - assert (ev_tags (terminal_emittable_event (build now new_uuid b')) = map terminal_tag (eb_tags b')) as Htags by done.
    unfold still_recorded. rewrite Htags. split_and!; try done.
    + fields. subst b' b. cbn [suppressed_builder eb_evidence]. by rewrite map_app.
    + fields. subst b'. cbn [suppressed_builder eb_tags]. intros t (u & -> & Hu)%list_elem_of_fmap.
      apply list_elem_of_fmap. exists u. split; [done|]. by apply suppressed_tags_keep.
    + by apply existsb_tagged, suppressed_tag_emitted, suppressed_tagged.
Qed.

End marking.

Module AllowlistSample.
Import Reference BuildSample.

Definition by_tool : Suppression :=
  {| sp_name := Some (lit "ghp_abcdefghijklmnop"); sp_clients := []; sp_session_ids := [];
     sp_tool_names := [lit "Bash"; lit "Read"]; sp_rule_ids := []; sp_categories := [];
     sp_source_path_hashes := [] |}.
Definition by_tool_again : Suppression :=
  {| sp_name := Some (lit "ghp_abcdefghijklmnop"); sp_clients := []; sp_session_ids := [];
     sp_tool_names := [lit "Read"; lit "Bash"; lit "Read"]; sp_rule_ids := []; sp_categories := [];
     sp_source_path_hashes := [] |}.
Definition allowlist (s : Suppression) : Allowlist :=
  {| al_version := Some 1; al_description := None; al_suppressions := [s]; al_configured := true |}.


Lemma suppressed_detection_recorded_witness :
  ∃ w, serialize (suppress_detection (detection (lit "a") 75 1) {| sm_name := lit "ghp_abcdefghijklmnop" |}) = Ok w ∧
       still_recorded (detection (lit "a") 75 1) w {| sm_name := lit "ghp_abcdefghijklmnop" |}.
Proof.
  exact (suppressed_detection_recorded now tt default_thresholds (detection_input (lit "a") 75 1) _ _
           now_representable (stamps_datable _) detection_made).
Defined.

(** A rule that uses the allowlist's tag makes detections that cannot be written. *)
Definition tagged_input : DetectionEventInput :=
  {| di_client := Codex; di_agent := None; di_model := None; di_provider := None;
     di_session_id := lit "a"; di_source_path_hash := digest; di_tool_name := None;
     di_rule_ids := [lit "secret.env"]; di_categories := [lit "credential"];
     di_detection_classes := [lit "security_detection"]; di_signal_types := [lit "atomic"];
     di_analytic_intents := [lit "alert"]; di_atlas_tags := []; di_tags := [lit "suppressed"];
     di_evidence := []; di_risk_contributions := [contribution]; di_event_time := None |}.

Lemma suppressed_tag_refused :
  match detection_event now tt default_thresholds tagged_input with
  | Ok e => is_ok (serialize e) = false
  | Err _ => False
  end.
Proof. vm_compute. reflexivity. Qed.

End AllowlistSample.
