(* ===== verification/Correlation.v ===== *)
(** * Cross-session correlation

    crates/telltale-detect/src/correlation.rs: detections of one actor that share a rule
    and fall into one window are reported together. *)

From S2P Require Import Prelude Ordered Rstr Scoring JournalNames Unicode Regex RegexRef RedactPatterns Redaction RedactionSafe EventIdentifiers EventEmit EventPrivacy EventHistory EventBuild EventBuildSafe.

Local Open Scope Z_scope.

(** ** Times with their offset *)

Record OffsetDateTime := { od_instant : Z; od_offset : Z }.

(** [OffsetDateTime::parse] and [format] with the RFC 3339 description. *)
Class Rfc3339 `{EventServices} : Type := {
  parse_rfc3339 : text → option OffsetDateTime;
  format_rfc3339 : OffsetDateTime → text;
}.

Class Rfc3339Laws `{Rfc3339} : Prop := {
  parse_instant t : parse_event_timestamp t = od_instant <$> parse_rfc3339 t;
  format_parse t d : parse_rfc3339 t = Some d → parse_rfc3339 (format_rfc3339 d) = Some d;
  parse_not_blank t d : parse_rfc3339 t = Some d → blank_text t = false;
}.

(** ** Data *)

Record CorrelationConfig := {
  cc_window : Z;
  cc_min_sessions : nat;
  cc_min_risk_score : Z;
}.

Definition CorrelationConfig_default : CorrelationConfig :=
  {| cc_window := 3600 * second; cc_min_sessions := 2; cc_min_risk_score := 70 |}.

Record ActorKey := {
  ak_client : text;
  ak_agent : option text;
  ak_model : option text;
  ak_provider : option text;
}.

Record CorrelatedSession := {
  cos_session_id : text;
  cos_event_id : text;
  cos_timestamp : text;
  cos_severity : text;
  cos_risk_score : Z;
}.

(** The derived orders compare the fields in turn. *)
Definition actor_fields (a : ActorKey) : text * option text * option text * option text :=
  (ak_client a, ak_agent a, ak_model a, ak_provider a).
Definition session_fields (s : CorrelatedSession) : text * text * text * text * Z :=
  (cos_session_id s, cos_event_id s, cos_timestamp s, cos_severity s, cos_risk_score s).

#[export] Instance ord_actor : Ord ActorKey := cmp_via actor_fields.
#[export] Instance laws_actor : OrdLaws ActorKey.
Proof. apply laws_via. by intros [] [] [=]; subst. Qed.
#[export] Instance ord_session : Ord CorrelatedSession := cmp_via session_fields.
#[export] Instance laws_session : OrdLaws CorrelatedSession.
Proof. apply laws_via. by intros [] [] [=]; subst. Qed.

Record CrossSessionCorrelation := {
  csc_actor : ActorKey;
  csc_shared_rule_ids : list text;
  csc_sessions : list CorrelatedSession;
  csc_window_start : text;
  csc_window_end : text;
  csc_max_risk_score : Z;
}.

Record Candidate := { cd_event : Event; cd_timestamp : OffsetDateTime }.

Definition actor_key (e : Event) : ActorKey :=
  {| ak_client := ev_client e; ak_agent := ev_agent e; ak_model := ev_model e; ak_provider := ev_provider e |}.

Definition instant (c : Candidate) : Z := od_instant (cd_timestamp c).
Definition session_of (c : Candidate) : text := ev_session_id (cd_event c).

Definition unique_session_count (candidates : list Candidate) : nat :=
  length (bs_of_list (map session_of candidates)).

Section correlation.
Context `{Regexes} `{EventTimes} `{!Rfc3339}.

Definition correlated_session (c : Candidate) : CorrelatedSession :=
  {| cos_session_id := session_of c; cos_event_id := ev_event_id (cd_event c);
     cos_timestamp := format_rfc3339 (cd_timestamp c); cos_severity := ev_severity (cd_event c);
     cos_risk_score := ev_risk_score (cd_event c) |}.

(** The first candidate of each session. *)
Fixpoint first_of_sessions (seen : list text) (candidates : list Candidate) : list Candidate :=
  match candidates with
  | [] => []
  | c :: rest =>
      if bs_contains (session_of c) seen then first_of_sessions seen rest
      else c :: first_of_sessions (bs_insert (session_of c) seen) rest
  end.

Definition correlated_sessions (candidates : list Candidate) : list CorrelatedSession :=
  map correlated_session (first_of_sessions [] candidates).

(** ** The window of a rule *)

(** [candidates[start..=end]]. *)
Definition slice (candidates : list Candidate) (start last : nat) : list Candidate :=
  take (S last - start) (drop start candidates).

(** The inner loop; [None] is an index out of range.  The start passes each candidate
    at most once. *)
Fixpoint advance_start (fuel : nat) (window : Z) (candidates : list Candidate) (last start : nat) : option nat :=
  match fuel with
  | O => None
  | S fuel =>
      match candidates !! last, candidates !! start with
      | Some l, Some s =>
          if window <? instant l - instant s then advance_start fuel window candidates last (S start) else Some start
      | _, _ => None
      end
  end.

Definition better (config : CorrelationConfig) (best : option (list Candidate)) (w : list Candidate) : bool :=
  Nat.leb (cc_min_sessions config) (unique_session_count w)
  && match best with None => true | Some current => Nat.ltb (length current) (length w) end.

Definition window_step (config : CorrelationConfig) (candidates : list Candidate)
    (state : option (nat * option (list Candidate))) (last : nat) : option (nat * option (list Candidate)) :=
  match state with
  | None => None
  | Some (start, best) =>
      match advance_start (S (length candidates)) (cc_window config) candidates last start with
      | None => None
      | Some start =>
          let w := slice candidates start last in
          Some (start, if better config best w then Some w else best)
      end
  end.

(** [None] is a panic; [Some None] that no window qualifies. *)
Definition best_window (config : CorrelationConfig) (candidates : list Candidate) : option (option (list Candidate)) :=
  snd <$> foldl (window_step config candidates) (Some (0%nat, None)) (seq 0 (length candidates)).

Definition window_correlation (actor : ActorKey) (rule_id : text) (best : list Candidate) : option CrossSessionCorrelation :=
  match head best, last best with
  | Some f, Some l =>
      Some {| csc_actor := actor; csc_shared_rule_ids := [rule_id]; csc_sessions := correlated_sessions best;
              csc_window_start := format_rfc3339 (cd_timestamp f);
              csc_window_end := format_rfc3339 (cd_timestamp l);
              csc_max_risk_score := maximum (map (λ c, ev_risk_score (cd_event c)) best) |}
  | _, _ => None
  end.

Definition correlate_rule_window (actor : ActorKey) (rule_id : text) (candidates : list Candidate)
    (config : CorrelationConfig) : option (option CrossSessionCorrelation) :=
  match best_window config candidates with
  | None => None
  | Some None => Some None
  | Some (Some best) => Some (window_correlation actor rule_id best)
  end.

(** ** Grouping and aggregation *)

Definition candidate (config : CorrelationConfig) (e : Event) : option Candidate :=
  if negb (is_lit "detection" (ev_event_type e)) || (ev_risk_score e <? cc_min_risk_score config) then None
  else (λ d, {| cd_event := e; cd_timestamp := d |}) <$> parse_rfc3339 (ev_timestamp e).

(** One entry per rule of each candidate. *)
Definition rule_entries (config : CorrelationConfig) (e : Event) : list (text * Candidate) :=
  match candidate config e with
  | None => []
  | Some c => map (λ rule_id, (rule_id, c)) (ev_rule_ids e)
  end.

Definition entry_key (x : text * Candidate) : ActorKey * text := (actor_key (cd_event x.2), x.1).

Definition candidate_groups (config : CorrelationConfig) (events : list Event)
    : list ((ActorKey * text) * list (text * Candidate)) :=
  foldl (group_push entry_key) [] (concat (map (rule_entries config) events)).

Definition correlate_group (config : CorrelationConfig) (group : (ActorKey * text) * list (text * Candidate))
    : option (option CrossSessionCorrelation) :=
  let '((actor, rule_id), entries) := group in
  correlate_rule_window actor rule_id (sort_by_key instant (map snd entries)) config.

(** [filter_map] over the groups. *)
Fixpoint correlate_groups (config : CorrelationConfig) (groups : list ((ActorKey * text) * list (text * Candidate)))
    : option (list CrossSessionCorrelation) :=
  match groups with
  | [] => Some []
  | g :: rest =>
      match correlate_group config g, correlate_groups config rest with
      | Some (Some c), Some l => Some (c :: l)
      | Some None, Some l => Some l
      | _, _ => None
      end
  end.

Definition with_rules (c : CrossSessionCorrelation) (rules : list text) : CrossSessionCorrelation :=
  {| csc_actor := csc_actor c; csc_shared_rule_ids := rules; csc_sessions := csc_sessions c;
     csc_window_start := csc_window_start c; csc_window_end := csc_window_end c;
     csc_max_risk_score := csc_max_risk_score c |}.

Definition aggregate_key (c : CrossSessionCorrelation) : ActorKey * list CorrelatedSession * text * text * Z :=
  (csc_actor c, csc_sessions c, csc_window_start c, csc_window_end c, csc_max_risk_score c).

Definition aggregate_step (aggregated : list ((ActorKey * list CorrelatedSession * text * text * Z) * CrossSessionCorrelation))
    (correlation : CrossSessionCorrelation) :=
  let correlation := with_rules correlation (dedup (sort (csc_shared_rule_ids correlation))) in
  match bm_get (aggregate_key correlation) aggregated with
  | Some existing =>
      bm_insert (aggregate_key correlation)
        (with_rules existing (dedup (sort (csc_shared_rule_ids existing ++ csc_shared_rule_ids correlation)))) aggregated
  | None => bm_insert (aggregate_key correlation) correlation aggregated
  end.

Definition aggregate_correlations (correlations : list CrossSessionCorrelation) : list CrossSessionCorrelation :=
  bm_values (foldl aggregate_step [] correlations).

Definition correlation_order (l r : CrossSessionCorrelation) : comparison :=
  then_with (cmp (csc_window_start l) (csc_window_start r))
    (then_with (cmp (csc_actor l) (csc_actor r)) (cmp (csc_shared_rule_ids l) (csc_shared_rule_ids r))).

Definition correlate_detection_events (events : list Event) (config : CorrelationConfig)
    : option (list CrossSessionCorrelation) :=
  if Nat.ltb (cc_min_sessions config) 2 then Some []
  else
    (λ l, sort_by correlation_order (aggregate_correlations l))
      <$> correlate_groups config (candidate_groups config events).

(** ** Events *)

Definition session_input (s : CorrelatedSession) : CorrelationSessionInput :=
  {| csi_session_id := cos_session_id s; csi_event_id := cos_event_id s; csi_timestamp := cos_timestamp s;
     csi_severity := cos_severity s; csi_risk_score := cos_risk_score s |}.

Definition correlation_input (c : CrossSessionCorrelation) : CorrelationEventInput :=
  {| cei_client := ak_client (csc_actor c); cei_agent := ak_agent (csc_actor c);
     cei_model := ak_model (csc_actor c); cei_provider := ak_provider (csc_actor c);
     cei_shared_rule_ids := csc_shared_rule_ids c; cei_sessions := map session_input (csc_sessions c);
     cei_window_start := csc_window_start c; cei_window_end := csc_window_end c;
     cei_max_risk_score := csc_max_risk_score c |}.

(** The clock and the identifier drawn for the [n]th event. *)
Context (clock : nat → Z) (fresh : nat → uuid) (thresholds : RiskThresholds).

Definition correlation_to_event (nc : nat * CrossSessionCorrelation) : result Event RiskAccountingError :=
  correlation_event (clock nc.1) (fresh nc.1) thresholds (correlation_input nc.2).

Definition correlation_events_from_detections (events : list Event) (config : CorrelationConfig)
    : option (result (list Event) RiskAccountingError) :=
  (λ l, collect correlation_to_event (imap pair l)) <$> correlate_detection_events events config.

End correlation.

(** ** The window is the longest *)

Lemma bs_wf_nodup {A} `{OrdLaws A} (s : list A) : bs_wf s → NoDup s.
Proof.
  unfold bs_wf. induction 1 as [|k ks Hks IH Hk]; constructor; [|done].
  rewrite Forall_forall in Hk. intros Hin. by apply (lt_irrefl k), Hk.
Qed.

Lemma sessions_subset w v : (∀ c, c ∈ w → c ∈ v) → (unique_session_count w ≤ unique_session_count v)%nat.
Proof.
  intros Hwv. unfold unique_session_count. apply submseteq_length, NoDup_submseteq; [apply bs_wf_nodup, bs_of_list_wf|].
  intros t. rewrite !bs_of_list_elem, !list_elem_of_fmap. intros (c & -> & Hc). exists c. auto.
Qed.

Section windows.
Context (config : CorrelationConfig) (candidates : list Candidate).

Definition in_time_order : Prop :=
  ∀ i j a b, (i ≤ j)%nat → candidates !! i = Some a → candidates !! j = Some b → instant a ≤ instant b.

(** From [i] to [j] no more time passes than the window allows. *)
Definition within (i j : nat) : Prop :=
  ∃ a b, candidates !! i = Some a ∧ candidates !! j = Some b ∧ instant b - instant a ≤ cc_window config.

Definition qualifies (i j : nat) : Prop :=
  (i ≤ j)%nat ∧ within i j ∧ (cc_min_sessions config ≤ unique_session_count (slice candidates i j))%nat.

Lemma slice_window_length i j : (i ≤ j < length candidates)%nat → length (slice candidates i j) = (S j - i)%nat.
Proof. intros Hij. unfold slice. rewrite length_take, length_drop. lia. Qed.

Lemma slice_alt i j : (i ≤ S j)%nat → slice candidates i j = drop i (take (S j) candidates).
Proof. intros Hij. unfold slice. rewrite take_drop_commute. do 2 f_equal. lia. Qed.

Lemma slice_elem i k j c : (i ≤ k ≤ j)%nat → c ∈ slice candidates k j → c ∈ slice candidates i j.
Proof.
  intros Hij. rewrite !slice_alt by lia. replace k with (i + (k - i))%nat by lia. rewrite <- drop_drop.
  apply subseteq_drop.
Qed.

Lemma sessions_grow i k j : (i ≤ k ≤ j)%nat →
  (unique_session_count (slice candidates k j) ≤ unique_session_count (slice candidates i j))%nat.
Proof. intros Hij. apply sessions_subset. intros c. by apply slice_elem. Qed.

Context (Hordered : in_time_order) (Hwindow : 0 ≤ cc_window config).

(** Later ends leave the start behind. *)
Lemma within_earlier i k j : (k ≤ j)%nat → is_Some (candidates !! k) → within i j → (i ≤ k)%nat → within i k.
Proof.
  intros Hkj [m Hm] (a & b & Ha & Hb & Hd) Hik. exists a, m. split_and!; [done..|].
  pose proof (Hordered k j m b Hkj Hm Hb). lia.
Qed.

Lemma within_later i k j : (i ≤ k ≤ j)%nat → within i j → within k j.
Proof.
  intros Hik (a & b & Ha & Hb & Hd). destruct (candidates !! k) as [m|] eqn:Hm.
  - exists m, b. split_and!; [done..|]. pose proof (Hordered i k a m ltac:(lia) Ha Hm). lia.
  - apply lookup_ge_None in Hm. apply lookup_lt_Some in Hb. lia.
Qed.

Lemma advance_start_spec fuel j start : (start ≤ j < length candidates)%nat → (j - start < fuel)%nat →
  ∃ s, advance_start fuel (cc_window config) candidates j start = Some s ∧ (start ≤ s ≤ j)%nat ∧ within s j ∧
       ∀ k, (start ≤ k < s)%nat → ¬ within k j.
Proof.
  revert start. induction fuel as [|fuel IH]; intros start Hj Hf; [lia|]. cbn [advance_start].
  destruct (lookup_lt_is_Some_2 candidates j) as [l Hl]; [lia|].
  destruct (lookup_lt_is_Some_2 candidates start) as [s Hs]; [lia|]. rewrite Hl, Hs.
  destruct (Z.ltb_spec (cc_window config) (instant l - instant s)) as [Hlt|Hle].
  - assert (start ≠ j) by (intros ->; simplify_eq; lia).
    destruct (IH (S start)) as (x & Hx & Hr & Hw & Hno); [lia..|]. exists x. split_and!; [done|lia|lia|done|].
    intros k Hk. destruct (decide (k = start)) as [->|]; [|apply Hno; lia].
    intros (a & b & Ha & Hb & Hd). simplify_eq. lia.
  - exists start. split_and!; [done|lia|lia| |intros; lia]. by exists s, l.
Qed.

(** Every window that ends before [n] was considered. *)
Definition best_of (n : nat) (best : option (list Candidate)) : Prop :=
  match best with
  | None => ∀ i j, (j < n)%nat → ¬ qualifies i j
  | Some w => (∃ i j, (j < n)%nat ∧ qualifies i j ∧ w = slice candidates i j) ∧
      ∀ i j, (j < n)%nat → qualifies i j → (length (slice candidates i j) ≤ length w)%nat
  end.

Definition loop_inv (n : nat) (state : option (nat * option (list Candidate))) : Prop :=
  ∃ start best, state = Some (start, best) ∧ (start ≤ n)%nat ∧
    (∀ k j, (k < start)%nat → (n ≤ j)%nat → ¬ within k j) ∧ best_of n best.

Lemma qualifies_extends s i j : (s ≤ i)%nat → within s j → qualifies i j →
  qualifies s j ∧ (length (slice candidates i j) ≤ length (slice candidates s j))%nat.
Proof.
  intros Hs Hw (Hij & Hw' & Hm). split.
  - split_and!; [lia|done|]. pose proof (sessions_grow s i j ltac:(lia)). lia.
  - destruct Hw' as (_ & b & _ & Hb%lookup_lt_Some & _). rewrite !slice_window_length by lia. lia.
Qed.

Lemma window_step_inv n state : (n < length candidates)%nat → loop_inv n state →
  loop_inv (S n) (window_step config candidates state n).
Proof.
  intros Hn (start & best & -> & Hle & Hpast & Hbest). unfold window_step.
  destruct (advance_start_spec (S (length candidates)) n start) as (s & -> & Hs & Hw & Hno); [lia..|].
  assert (∀ k, within k n → (k ≤ n)%nat → (s ≤ k)%nat) as Hleft.
  { intros k Hk Hkn. destruct (decide (s ≤ k)%nat) as [|Hlt]; [done|]. exfalso.
    destruct (decide (k < start)%nat); [by apply (Hpast k n)|]. apply (Hno k); [lia|done]. }
  eexists s, _. split; [done|]. split; [lia|]. split.
  - intros k j Hk Hj Hkj. assert (within k n) as Hkn
      by (apply (within_earlier k n j); [lia|apply lookup_lt_is_Some; lia|done|lia]).
    specialize (Hleft k Hkn ltac:(lia)). lia.
  - assert (∀ i, qualifies i n → qualifies s n ∧ (length (slice candidates i n) ≤ length (slice candidates s n))%nat) as Hext.
    { intros i Hq. apply qualifies_extends; [|done..]. destruct Hq as (? & ? & _). by apply Hleft. }
    unfold better. destruct (Nat.leb_spec (cc_min_sessions config) (unique_session_count (slice candidates s n))) as [Hm|Hm]; cbn [andb].
    + assert (qualifies s n) as Hq by (split_and!; [lia|done|done]).
      destruct best as [w|]; [destruct (Nat.ltb_spec (length w) (length (slice candidates s n))) as [Hl|Hl]|].
      * destruct Hbest as [_ Hmax]. split; [exists s, n; split_and!; [lia|done..]|]. intros i j Hj Hqj.
        destruct (decide (j = n)) as [->|]; [by apply Hext|]. specialize (Hmax i j ltac:(lia) Hqj). lia.
      * destruct Hbest as [(i & j & Hj & Hqj & ->) Hmax]. split; [exists i, j; split_and!; [lia|done..]|].
        intros i' j' Hj' Hq'. destruct (decide (j' = n)) as [->|]; [apply Hext in Hq'; lia|]. apply Hmax; [lia|done].
      * split; [exists s, n; split_and!; [lia|done..]|]. intros i j Hj Hqj.
        destruct (decide (j = n)) as [->|]; [by apply Hext|]. exfalso. apply (Hbest i j); [lia|done].
    + assert (∀ i, ¬ qualifies i n) as Hnone by (intros i Hq; destruct (Hext i Hq) as [(_ & _ & ?) _]; lia).
      destruct best as [w|].
      * destruct Hbest as [(i & j & Hj & Hqj & ->) Hmax]. split; [exists i, j; split_and!; [lia|done..]|].
        intros i' j' Hj' Hq'. destruct (decide (j' = n)) as [->|]; [by apply Hnone in Hq'|]. apply Hmax; [lia|done].
      * intros i j Hj Hqj. destruct (decide (j = n)) as [->|]; [by apply Hnone in Hqj|]. apply (Hbest i j); [lia|done].
Qed.

Lemma best_window_spec : ∃ best, best_window config candidates = Some best ∧ best_of (length candidates) best.
Proof.
  assert (∀ n, (n ≤ length candidates)%nat →
    loop_inv n (foldl (window_step config candidates) (Some (0%nat, None)) (seq 0 n))) as Hinv.
  { induction n as [|n IH]; intros Hn.
    - exists 0%nat, None. split_and!; [done|lia|intros; lia|]. intros i j Hj. lia.
    - rewrite seq_S, foldl_app. cbn [foldl Nat.add]. apply window_step_inv; [lia|]. apply IH. lia. }
  destruct (Hinv (length candidates)) as (s & best & He & _ & _ & Hb); [done|].
  exists best. unfold best_window. by rewrite He.
Qed.

End windows.

(** ** One candidate per session *)

Lemma first_of_sessions_elem seen l c : c ∈ first_of_sessions seen l → c ∈ l ∧ session_of c ∉ seen.
Proof.
  revert seen. induction l as [|x l IH]; intros seen; cbn [first_of_sessions]; [by intros ?%elem_of_nil|].
  destruct (bs_contains (session_of x) seen) eqn:Hx.
  - intros [Hin Hs]%IH. split; [by right|done].
  - rewrite elem_of_cons. intros [->|[Hin Hs]%IH].
    + split; [by left|]. intros Hin%bs_contains_spec. congruence.
    + split; [by right|]. rewrite bs_insert_elem in Hs. naive_solver.
Qed.

Lemma first_of_sessions_nodup seen l : NoDup (map session_of (first_of_sessions seen l)).
Proof.
  revert seen. induction l as [|x l IH]; intros seen; cbn [first_of_sessions]; [constructor|].
  destruct (bs_contains (session_of x) seen); [done|]. cbn [map]. constructor; [|done].
  rewrite list_elem_of_fmap. intros (c & He & [_ Hc]%first_of_sessions_elem). apply Hc. rewrite bs_insert_elem. by left.
Qed.

Lemma first_of_sessions_covers seen l c : c ∈ l → session_of c ∉ seen →
  session_of c ∈ map session_of (first_of_sessions seen l).
Proof.
  revert seen. induction l as [|x l IH]; intros seen; cbn [first_of_sessions]; [by intros ?%elem_of_nil|].
  intros Hin Hs. destruct (bs_contains (session_of x) seen) eqn:Hx.
  - apply elem_of_cons in Hin as [->|Hin]; [|by apply IH]. by apply bs_contains_spec in Hx.
  - cbn [map]. rewrite elem_of_cons. destruct (decide (session_of c = session_of x)) as [|Hne]; [by left|right].
    apply elem_of_cons in Hin as [->|Hin]; [done|]. apply IH; [done|]. rewrite bs_insert_elem. naive_solver.
Qed.

Lemma first_of_sessions_length l : length (first_of_sessions [] l) = unique_session_count l.
Proof.
  unfold unique_session_count. rewrite <- (length_map session_of (first_of_sessions [] l)).
  apply Permutation_length, NoDup_Permutation; [apply first_of_sessions_nodup|apply bs_wf_nodup, bs_of_list_wf|].
  intros t. rewrite bs_of_list_elem. split.
  - intros (c & -> & [Hc _]%first_of_sessions_elem)%list_elem_of_fmap. apply list_elem_of_fmap. by exists c.
  - intros (c & -> & Hc)%list_elem_of_fmap. apply first_of_sessions_covers; [done|]. by intros ?%elem_of_nil.
Qed.

(** ** Aggregation *)

Section aggregation.

Notation shared_of g := (concat (map csc_shared_rule_ids g)).

Lemma with_rules_key c c' r r' : aggregate_key c = aggregate_key c' → r = r' → with_rules c r = with_rules c' r'.
Proof. intros He ->. destruct c, c'. unfold aggregate_key in He. cbn in He. by simplify_eq. Qed.

Lemma bs_of_list_app {A} `{OrdLaws A} (a b : list A) : bs_of_list (bs_of_list a ++ bs_of_list b) = bs_of_list (a ++ b).
Proof.
  apply bs_ext; [apply bs_of_list_wf..|]. intros x. by rewrite !bs_of_list_elem, !elem_of_app, !bs_of_list_elem.
Qed.

Lemma aggregate_get l k : bm_get k (foldl aggregate_step [] l) =
  match List.filter (same_key aggregate_key k) l with
  | [] => None
  | (c :: _) as g => Some (with_rules c (bs_of_list (shared_of g)))
  end.
Proof.
  induction l as [|x l IH] using rev_ind; [done|]. rewrite foldl_app, List.filter_app. cbn [foldl List.filter].
  set (m := foldl aggregate_step [] l) in *. unfold aggregate_step. rewrite dedup_sort_bset.
  set (x' := with_rules x _). assert (aggregate_key x' = aggregate_key x) as Hk by done. rewrite Hk.
  destruct (same_key aggregate_key k x) eqn:Hs; [apply same_key_spec in Hs as <-|].
  - rewrite IH.
    destruct (List.filter _ l) as [|c g] eqn:Hg; rewrite bm_get_insert_eq; cbn [app].
    + cbn [map concat]. by rewrite app_nil_r.
    + f_equal. assert (aggregate_key c = aggregate_key x) as Hc.
      { apply (same_key_spec aggregate_key). apply (filter_In (same_key aggregate_key (aggregate_key x)) c l). rewrite Hg. by left. }
      rewrite dedup_sort_bset. apply with_rules_key; [done|]. subst x'. cbn [with_rules csc_shared_rule_ids].
      rewrite (map_app _ (c :: g) [x]), concat_app, bs_of_list_app. cbn [map concat]. by rewrite app_nil_r.
  - assert (k ≠ aggregate_key x) as Hne.
    { intros ->. by rewrite (proj2 (same_key_spec aggregate_key _ x) eq_refl) in Hs. }
    rewrite app_nil_r, <- IH. destruct (bm_get (aggregate_key x) m); by rewrite bm_get_insert_ne.
Qed.

Lemma aggregate_wf l : bm_wf (foldl aggregate_step [] l).
Proof.
  induction l as [|x l IH] using rev_ind; [constructor|]. rewrite foldl_app. cbn [foldl]. unfold aggregate_step.
  case_match; by apply bm_insert_wf.
Qed.

(** An aggregate stands for the correlations of its key and names all their rules. *)
Lemma aggregate_elem l c : c ∈ aggregate_correlations l ↔
  ∃ k x g, List.filter (same_key aggregate_key k) l = x :: g ∧ c = with_rules x (bs_of_list (shared_of (x :: g))).
Proof.
  unfold aggregate_correlations, bm_values. rewrite list_elem_of_fmap. split.
  - intros ([k c'] & -> & Hin). apply bm_get_elem in Hin; [|apply aggregate_wf]. rewrite aggregate_get in Hin.
    exists k. destruct (List.filter _ l) as [|x g] eqn:Hg; [done|]. exists x, g. split; [done|]. cbn [snd]. congruence.
  - intros (k & x & g & Hg & ->). exists (k, with_rules x (bs_of_list (shared_of (x :: g)))). split; [done|].
    apply bm_get_elem; [apply aggregate_wf|]. by rewrite aggregate_get, Hg.
Qed.

(** What holds of a correlation and each of its rules holds of an aggregate and each of its rules. *)
Lemma aggregate_sound (P : text → CrossSessionCorrelation → Prop) l c rule :
  (∀ r x y, aggregate_key x = aggregate_key y → P r x → P r y) →
  (∀ x r, x ∈ l → r ∈ csc_shared_rule_ids x → P r x) →
  c ∈ aggregate_correlations l → rule ∈ csc_shared_rule_ids c → P rule c.
Proof.
  intros Hkey Hl (k & x & g & Hg & ->)%aggregate_elem. cbn [with_rules csc_shared_rule_ids]. rewrite bs_of_list_elem.
  intros Hr. apply list_elem_of_In, in_concat in Hr as (rs & Hrs & Hr). apply in_map_iff in Hrs as (y & <- & Hy).
  assert (∀ z, In z (x :: g) → z ∈ l ∧ aggregate_key z = k) as Hz.
  { intros z Hz. rewrite <- Hg in Hz. apply filter_In in Hz as [Hz Hk]. apply (proj1 (same_key_spec aggregate_key k z)) in Hk. split; [by apply list_elem_of_In|done]. }
  destruct (Hz y Hy) as [Hyl Hyk]. destruct (Hz x (or_introl eq_refl)) as [_ Hxk].
  apply (Hkey rule y); [transitivity (aggregate_key x); [congruence|done]|]. apply Hl; [done|]. by apply list_elem_of_In.
Qed.

Lemma aggregate_complete l x rule : x ∈ l → rule ∈ csc_shared_rule_ids x →
  ∃ c, c ∈ aggregate_correlations l ∧ aggregate_key c = aggregate_key x ∧ rule ∈ csc_shared_rule_ids c.
Proof.
  intros Hx Hr. destruct (List.filter (same_key aggregate_key (aggregate_key x)) l) as [|y g] eqn:Hg.
  - exfalso. assert (In x []) as []. rewrite <- Hg. apply filter_In. split; [by apply list_elem_of_In|]. by apply same_key_spec.
  - assert (In x (y :: g)) as Hin.
    { rewrite <- Hg. apply filter_In. split; [by apply list_elem_of_In|]. by apply same_key_spec. }
    assert (aggregate_key y = aggregate_key x) as Hy.
    { apply (same_key_spec aggregate_key). apply (filter_In (same_key aggregate_key (aggregate_key x)) y l). rewrite Hg. by left. }
    exists (with_rules y (bs_of_list (shared_of (y :: g)))). split_and!; [|done|].
    + apply aggregate_elem. by exists (aggregate_key x), y, g.
    + cbn [with_rules csc_shared_rule_ids]. rewrite bs_of_list_elem. apply list_elem_of_In, in_concat.
      exists (csc_shared_rule_ids x). split; [by apply in_map|by apply list_elem_of_In].
Qed.

End aggregation.

(** ** What is correlated *)

Lemma sorted_lookup {A} (R : A → A → Prop) l i j a b : StronglySorted R l → (i < j)%nat →
  l !! i = Some a → l !! j = Some b → R a b.
Proof.
  intros Hs. revert i j. induction Hs as [|x l Hl IH Hx]; intros i j Hij Ha Hb; [done|].
  destruct j as [|j]; [lia|]. cbn in Hb. destruct i as [|i]; cbn in Ha.
  - injection Ha as <-. rewrite Forall_forall in Hx. apply Hx. by eapply list_elem_of_lookup_2.
  - apply (IH i j); [lia|done..].
Qed.

Section correct.
Context `{Regexes} `{EventTimes} `{!Rfc3339}.
Context (config : CorrelationConfig) (events : list Event).

(** A detection of the input that can be correlated under a rule. *)
Definition eligible (actor : ActorKey) (rule : text) (c : Candidate) : Prop :=
  cd_event c ∈ events ∧ ev_event_type (cd_event c) = lit "detection" ∧
  cc_min_risk_score config ≤ ev_risk_score (cd_event c) ∧
  parse_rfc3339 (ev_timestamp (cd_event c)) = Some (cd_timestamp c) ∧
  actor_key (cd_event c) = actor ∧ rule ∈ ev_rule_ids (cd_event c).

Definition together (w : list Candidate) : Prop :=
  ∀ x y, x ∈ w → y ∈ w → instant y - instant x ≤ cc_window config.

Lemma candidate_spec e c : candidate config e = Some c ↔
  cd_event c = e ∧ ev_event_type e = lit "detection" ∧ cc_min_risk_score config ≤ ev_risk_score e ∧
  parse_rfc3339 (ev_timestamp e) = Some (cd_timestamp c).
Proof.
  unfold candidate. destruct (is_lit "detection" (ev_event_type e)) eqn:Ht; cbn [negb orb].
  - apply bool_decide_eq_true in Ht. destruct (Z.ltb_spec (ev_risk_score e) (cc_min_risk_score config)).
    + split; [done|]. intros (_ & _ & ? & _). lia.
    + destruct (parse_rfc3339 (ev_timestamp e)) as [d|]; cbn; [|split; [done|by intros (_ & _ & _ & ?)]].
      split; [intros [= <-]; done|]. intros (He & _ & _ & [= Hd]). destruct c. cbn in *. by subst.
  - apply bool_decide_eq_false in Ht. split; [done|by intros (_ & ? & _)].
Qed.

Lemma entries_spec rule c : (rule, c) ∈ concat (map (rule_entries config) events) ↔
  eligible (actor_key (cd_event c)) rule c.
Proof.
  rewrite list_elem_of_In, in_concat. unfold eligible. split.
  - intros (l & Hl & Hin). apply in_map_iff in Hl as (e & <- & He). unfold rule_entries in Hin.
    destruct (candidate config e) as [c'|] eqn:Hc; [|done]. apply in_map_iff in Hin as (r & [= <- <-] & Hr).
    apply candidate_spec in Hc as (<- & ? & ? & ?). rewrite !list_elem_of_In. done.
  - intros (He & Ht & Hs & Hp & _ & Hr). exists (rule_entries config (cd_event c)). split; [by apply in_map, list_elem_of_In|].
    unfold rule_entries. rewrite (proj2 (candidate_spec _ c)) by done. apply in_map_iff. exists rule.
    split; [done|]. by apply list_elem_of_In.
Qed.

Lemma group_spec actor rule g : ((actor, rule), g) ∈ candidate_groups config events →
  ∀ c, c ∈ map snd g ↔ eligible actor rule c.
Proof.
  intros Hg. pose proof (group_pairs entry_key (concat (map (rule_entries config) events))) as Hp.
  rewrite Forall_forall in Hp. destruct (Hp _ Hg) as [Hf _]. cbn [fst snd] in Hf. subst g.
  intros c. rewrite list_elem_of_fmap. split.
  - intros ([r c'] & -> & Hin). apply list_elem_of_In, filter_In in Hin as [Hin Hk].
    apply (proj1 (same_key_spec entry_key _ _)) in Hk. unfold entry_key in Hk. cbn in *. injection Hk as <- <-.
    apply entries_spec. by apply list_elem_of_In.
  - intros He. assert (actor_key (cd_event c) = actor) as <- by apply He. exists (rule, c). split; [done|].
    apply list_elem_of_In, filter_In. split; [by apply list_elem_of_In, entries_spec|]. by apply same_key_spec.
Qed.

Lemma group_exists actor rule c : eligible actor rule c → ∃ g, ((actor, rule), g) ∈ candidate_groups config events.
Proof.
  intros He. assert (actor_key (cd_event c) = actor) as <- by apply He. apply entries_spec in He.
  set (l := concat _) in He. assert (bm_wf (foldl (group_push entry_key) [] l)) as Hwf by (apply group_push_wf; constructor).
  destruct (List.filter (same_key entry_key (actor_key (cd_event c), rule)) l) as [|x g] eqn:Hg.
  - exfalso. assert (In (rule, c) []) as []. rewrite <- Hg. apply filter_In. split; [by apply list_elem_of_In|].
    by apply same_key_spec.
  - exists (x :: g). unfold candidate_groups. fold l. apply bm_get_elem; [done|]. by rewrite group_get, Hg.
Qed.

Lemma sorted_in_order l : in_time_order (sort_by_key instant l).
Proof.
  intros i j a b Hij Ha Hb. destruct (decide (i = j)) as [->|]; [simplify_eq; lia|].
  pose proof (sort_by_sorted (cmp_via instant) l) as Hs. unfold sort_by_key in *.
  pose proof (sorted_lookup _ _ i j a b Hs ltac:(lia) Ha Hb) as Hc. cbv beta in Hc.
  unfold cmp_via, cmp, ord_Z in Hc. by apply Z.compare_le_iff in Hc.
Qed.

(** The window of a group, as a set of candidates. *)
Lemma slice_together l i j : in_time_order l → qualifies config l i j → together (slice l i j).
Proof.
  intros Ho (Hij & (a & b & Ha & Hb & Hd) & _) x y Hx Hy.
  assert (∀ z, z ∈ slice l i j → instant a ≤ instant z ≤ instant b) as Hz.
  { intros z Hz. rewrite slice_alt in Hz by lia. apply list_elem_of_lookup in Hz as (k & Hk).
    rewrite lookup_drop in Hk. assert (i + k < S j)%nat as Hlt.
    { apply lookup_lt_Some in Hk. rewrite length_take in Hk. lia. }
    rewrite lookup_take_lt in Hk by done.
    split; [apply (Ho i (i + k)%nat a z); [lia|done..]|apply (Ho (i + k)%nat j z b); [lia|done..]]. }
  pose proof (Hz x Hx). pose proof (Hz y Hy). lia.
Qed.

Lemma slice_sub l i j c : c ∈ slice l i j → c ∈ l.
Proof. unfold slice. intros Hc%subseteq_take%subseteq_drop. done. Qed.

(** Candidates of a list lie between two of them. *)
Lemma slice_covers l w : w ≠ [] → (∀ c, c ∈ w → c ∈ l) →
  ∃ i j a b, (i ≤ j)%nat ∧ l !! i = Some a ∧ l !! j = Some b ∧ a ∈ w ∧ b ∈ w ∧ ∀ c, c ∈ w → c ∈ slice l i j.
Proof.
  induction w as [|c w IH]; [done|]. intros _ Hin. destruct (list_elem_of_lookup_1 l c) as [k Hk]; [apply Hin; by left|].
  assert (∀ i j, (i ≤ k ≤ j)%nat → c ∈ slice l i j) as Hc.
  { intros i j Hij. rewrite slice_alt by lia. apply (list_elem_of_lookup_2 _ (k - i)).
    rewrite lookup_drop, lookup_take_lt by lia. by replace (i + (k - i))%nat with k by lia. }
  destruct (decide (w = [])) as [->|Hne].
  { exists k, k, c, c. split_and!; [done..|by left|by left|]. intros d ->%list_elem_of_singleton. by apply Hc. }
  destruct IH as (i & j & a & b & Hij & Ha & Hb & Haw & Hbw & Hall); [done|intros d Hd; apply Hin; by right|].
  assert (∀ i' j' d, (i' ≤ i)%nat → (j ≤ j')%nat → d ∈ w → d ∈ slice l i' j') as Hgrow.
  { intros i' j' d Hi Hj Hd. apply (slice_elem _ i' i j'); [lia|]. specialize (Hall d Hd). revert Hall. unfold slice.
    intros [m Hm]%list_elem_of_lookup. apply (list_elem_of_lookup_2 _ m).
    assert (m < S j - i)%nat by (apply lookup_lt_Some in Hm; rewrite length_take in Hm; lia).
    rewrite lookup_take_lt in * by lia. done. }
  exists (min k i), (max k j). destruct (Nat.min_spec k i) as [[? ->]|[? ->]], (Nat.max_spec k j) as [[? ->]|[? ->]].
  - exists c, b. split_and!; [lia|done..|by left|by right|]. intros d [->|Hd]%elem_of_cons; [apply Hc|apply Hgrow]; (lia || done).
  - exists c, c. split_and!; [lia|done..|by left|by left|]. intros d [->|Hd]%elem_of_cons; [apply Hc|apply Hgrow]; (lia || done).
  - exists a, b. split_and!; [lia|done..|by right|by right|]. intros d [->|Hd]%elem_of_cons; [apply Hc|apply Hgrow]; (lia || done).
  - exists a, c. split_and!; [lia|done..|by right|by left|]. intros d [->|Hd]%elem_of_cons; [apply Hc|apply Hgrow]; (lia || done).
Qed.

Lemma covered_qualifies l w : (1 ≤ cc_min_sessions config)%nat → (∀ c, c ∈ w → c ∈ l) → together w →
  (cc_min_sessions config ≤ unique_session_count w)%nat →
  ∃ i j, qualifies config l i j ∧ (j < length l)%nat ∧ ∀ c, c ∈ w → c ∈ slice l i j.
Proof.
  intros Hm Hin Ht Hc. assert (w ≠ []) as Hne by (intros ->; cbn in Hc; lia).
  destruct (slice_covers l w Hne Hin) as (i & j & a & b & Hij & Ha & Hb & Haw & Hbw & Hall).
  exists i, j. split; [|split; [by eapply lookup_lt_Some|done]]. split_and!; [done| |].
  - exists a, b. split_and!; [done..|]. by apply Ht.
  - pose proof (sessions_subset w (slice l i j) Hall). lia.
Qed.

(** A slice goes from its first candidate to its last. *)
Lemma slice_ends l i j f z : in_time_order l → (i ≤ j < length l)%nat → head (slice l i j) = Some f → last (slice l i j) = Some z →
  f ∈ slice l i j ∧ z ∈ slice l i j ∧ ∀ x, x ∈ slice l i j → instant f ≤ instant x ≤ instant z.
Proof.
  intros Ho Hij Hf Hz. assert (∀ n, (slice l i j) !! n = if decide (n < S j - i)%nat then l !! (i + n)%nat else None) as Hn.
  { intros n. unfold slice. case_decide; [by rewrite lookup_take_lt, lookup_drop by done|by apply lookup_take_ge; lia]. }
  rewrite head_lookup, Hn in Hf. rewrite decide_True in Hf by lia. rewrite last_lookup in Hz.
  assert (length (slice l i j) = (S j - i)%nat) as Hl by (unfold slice; rewrite length_take, length_drop; lia).
  rewrite Hl, Hn, decide_True in Hz by lia. replace (i + 0)%nat with i in Hf by lia.
  replace (i + pred (S j - i))%nat with j in Hz by lia. split_and!.
  - apply (list_elem_of_lookup_2 _ 0). rewrite Hn, decide_True by lia. by replace (i + 0)%nat with i by lia.
  - apply (list_elem_of_lookup_2 _ (j - i)). rewrite Hn, decide_True by lia. by replace (i + (j - i))%nat with j by lia.
  - intros x [n Hx]%list_elem_of_lookup. rewrite Hn in Hx. case_decide; [|done].
    split; [by apply (Ho i (i + n)%nat f x); [lia|..]|by apply (Ho (i + n)%nat j x z); [lia|..]].
Qed.

Context (Hwindow : 0 ≤ cc_window config) (Hmin : (2 ≤ cc_min_sessions config)%nat).

(** A window a correlation reports of a rule. *)
Definition window_of (rule : text) (c : CrossSessionCorrelation) (w : list Candidate) : Prop :=
  Forall (eligible (csc_actor c) rule) w ∧ together w ∧
  (cc_min_sessions config ≤ unique_session_count w)%nat ∧ csc_sessions c = correlated_sessions w ∧
  csc_max_risk_score c = maximum (map (λ x, ev_risk_score (cd_event x)) w).

(** It goes from its first detection to its last, and it is a longest: no other detections of the
    actor and the rule, as close together and of enough sessions, are more. *)
Definition longest_window_of (rule : text) (c : CrossSessionCorrelation) (w : list Candidate) : Prop :=
  window_of rule c w ∧
  (∃ f z, f ∈ w ∧ z ∈ w ∧ csc_window_start c = format_rfc3339 (cd_timestamp f) ∧
     csc_window_end c = format_rfc3339 (cd_timestamp z) ∧ ∀ x, x ∈ w → instant f ≤ instant x ≤ instant z) ∧
  (∀ w', Forall (eligible (csc_actor c) rule) w' → together w' → NoDup w' →
     (cc_min_sessions config ≤ unique_session_count w')%nat → (length w' ≤ length w)%nat).

Lemma group_correlates actor rule g : ((actor, rule), g) ∈ candidate_groups config events →
  ∃ r, correlate_group config ((actor, rule), g) = Some r ∧
    (∀ c, r = Some c → csc_actor c = actor ∧ csc_shared_rule_ids c = [rule] ∧ ∃ w, longest_window_of rule c w) ∧
    (∀ w, Forall (eligible actor rule) w → together w → (cc_min_sessions config ≤ unique_session_count w)%nat → is_Some r).
Proof.
  intros Hg. pose proof (group_spec actor rule g Hg) as Hin. unfold correlate_group, correlate_rule_window.
  set (l := sort_by_key instant (map snd g)). pose proof (sorted_in_order (map snd g)) as Ho. fold l in Ho.
  assert (∀ c, c ∈ l ↔ eligible actor rule c) as Hl
    by (intros c; rewrite <- Hin; unfold l, sort_by_key; by rewrite (sort_by_perm _ (map snd g))).
  destruct (best_window_spec config l Ho Hwindow) as (best & -> & Hb). destruct best as [w|].
  - destruct Hb as [(i & j & Hj & Hq & ->) Hmax]. set (w := slice l i j).
    assert (w ≠ []) as Hne.
    { intros He. destruct Hq as (_ & _ & Hc). fold w in Hc. rewrite He in Hc. cbn in Hc. lia. }
    unfold window_correlation. destruct (head w) as [f|] eqn:Hf; [|by destruct w].
    destruct (last w) as [z|] eqn:Hz; [|by apply last_None in Hz].
    eexists. split; [done|]. split; [|by eexists]. intros c [= <-]. split_and!; [done..|]. exists w. split; [split_and!; [|by apply slice_together|apply Hq|done..]|split].
    + apply Forall_forall. intros c Hc. apply Hl. by eapply slice_sub.
    + exists f, z. destruct (slice_ends l i j f z Ho) as (? & ? & ?); [destruct Hq; lia|done..].
    + intros w' Hw' Ht' Hnd Hc'. destruct (covered_qualifies l w') as (i' & j' & Hq' & Hj' & Hall); [lia| |done..|].
      { intros c Hcw. apply Hl. rewrite Forall_forall in Hw'. by apply Hw'. }
      specialize (Hmax i' j' Hj' Hq'). fold w in Hmax. etrans; [|exact Hmax]. apply submseteq_length, NoDup_submseteq; [done|exact Hall].
  - exists None. split_and!; [done..|]. intros w Hw Ht Hc. exfalso.
    destruct (covered_qualifies l w) as (i & j & Hq & Hj & _); [lia| |done..|by apply (Hb i j)].
    intros c Hcw. apply Hl. rewrite Forall_forall in Hw. by apply Hw.
Qed.

Lemma groups_correlate groups : (∀ g, g ∈ groups → g ∈ candidate_groups config events) →
  ∃ l, correlate_groups config groups = Some l ∧
    ∀ c, c ∈ l ↔ ∃ g, g ∈ groups ∧ correlate_group config g = Some (Some c).
Proof.
  induction groups as [|[[actor rule] g] groups IH]; intros Hg.
  - exists []. split; [done|]. intros c. split; [by intros ?%elem_of_nil|]. by intros (? & ?%elem_of_nil & _).
  - destruct IH as (l & Hl & Hc); [intros; apply Hg; by right|].
    destruct (group_correlates actor rule g) as (r & Hr & _); [apply Hg; by left|].
    cbn [correlate_groups]. rewrite Hr, Hl.
    exists (option_list r ++ l). split; [by destruct r|]. intros c. rewrite elem_of_app, Hc. split.
    + intros [Hin|(x & Hx & He)]; [|exists x; split; [by right|done]].
      exists ((actor, rule), g). split; [by left|]. rewrite Hr. destruct r; [|by apply elem_of_nil in Hin].
      apply list_elem_of_singleton in Hin. by subst.
    + intros (x & [->|Hx]%elem_of_cons & He); [left|right; by exists x]. rewrite Hr in He. injection He as ->.
      by apply list_elem_of_singleton.
Qed.

(** What the groups give. *)
Definition group_results (l : list CrossSessionCorrelation) : Prop :=
  ∀ c, c ∈ l ↔ ∃ g, g ∈ candidate_groups config events ∧ correlate_group config g = Some (Some c).

Lemma result_window l c : group_results l → c ∈ l → ∃ rule w, csc_shared_rule_ids c = [rule] ∧ longest_window_of rule c w.
Proof.
  intros Hl ([[actor rule] g] & Hg & He)%Hl. destruct (group_correlates actor rule g Hg) as (o & Ho & Hw & _).
  rewrite He in Ho. injection Ho as <-. destruct (Hw c eq_refl) as (_ & Hs & w & ?). by exists rule, w.
Qed.

Lemma aggregate_named l c : group_results l → c ∈ aggregate_correlations l → csc_shared_rule_ids c ≠ [].
Proof.
  intros Hl (k & x & g & Hg & ->)%aggregate_elem. cbn [with_rules csc_shared_rule_ids].
  assert (x ∈ l) as Hx.
  { apply list_elem_of_In. apply (filter_In (same_key aggregate_key k) x l). rewrite Hg. by left. }
  destruct (result_window l x Hl Hx) as (rule & _ & Hs & _). apply (elem_of_not_nil rule), bs_of_list_elem.
  cbn [map concat]. rewrite Hs. by left.
Qed.

Lemma aggregate_window l c rule : group_results l → c ∈ aggregate_correlations l → rule ∈ csc_shared_rule_ids c →
  ∃ w, longest_window_of rule c w.
Proof.
  intros Hl. apply (aggregate_sound (λ r x, ∃ w, longest_window_of r x w)).
  - intros r x y [= Ha Hs Hb He Hm] (w & Hw). exists w. unfold longest_window_of, window_of in *. by rewrite <- Ha, <- Hs, <- Hm, <- Hb, <- He.
  - intros x r Hx Hr. destruct (result_window l x Hl Hx) as (rule' & w & Hs & Hw). exists w.
    rewrite Hs in Hr. by apply list_elem_of_singleton in Hr as ->.
Qed.

Lemma window_sessions rule c w : window_of rule c w →
  NoDup (map cos_session_id (csc_sessions c)) ∧ (cc_min_sessions config ≤ length (csc_sessions c))%nat.
Proof.
  intros (_ & _ & Hcount & -> & _). unfold correlated_sessions. rewrite map_map, length_map.
  split; [apply first_of_sessions_nodup|by rewrite first_of_sessions_length].
Qed.

(** The aggregates of distinct keys are distinct. *)
Lemma aggregate_same l c c' : c ∈ aggregate_correlations l → c' ∈ aggregate_correlations l →
  aggregate_key c = aggregate_key c' → c = c'.
Proof.
  intros (k & x & g & Hg & ->)%aggregate_elem (k' & x' & g' & Hg' & ->)%aggregate_elem Hk.
  assert (∀ k x g, List.filter (same_key aggregate_key k) l = x :: g → aggregate_key x = k) as Hkey.
  { clear. intros k x g Hg. apply (same_key_spec aggregate_key).
    apply (filter_In (same_key aggregate_key k) x l). rewrite Hg. by left. }
  change (aggregate_key x = aggregate_key x') in Hk.
  rewrite (Hkey _ _ _ Hg), (Hkey _ _ _ Hg') in Hk. subst k'. rewrite Hg in Hg'. by injection Hg' as -> ->.
Qed.

(** A rule of an aggregate comes from the group of its actor. *)
Lemma aggregate_group l c rule : group_results l → c ∈ aggregate_correlations l → rule ∈ csc_shared_rule_ids c →
  ∃ g x, ((csc_actor c, rule), g) ∈ candidate_groups config events ∧
    correlate_group config ((csc_actor c, rule), g) = Some (Some x) ∧ aggregate_key x = aggregate_key c.
Proof.
  intros Hl. apply (aggregate_sound (λ r y, ∃ g x, ((csc_actor y, r), g) ∈ candidate_groups config events ∧
    correlate_group config ((csc_actor y, r), g) = Some (Some x) ∧ aggregate_key x = aggregate_key y)).
  - intros r x y Hk (g & z & Hg & Hz & Hzk). assert (csc_actor x = csc_actor y) as Ha by (by injection Hk).
    exists g, z. rewrite <- Ha, <- Hk. done.
  - intros x r Hx Hr. apply Hl in Hx as ([[actor rule'] g] & Hg & He).
    destruct (group_correlates actor rule' g Hg) as (o & Ho & Hact & _). rewrite He in Ho. injection Ho as <-.
    destruct (Hact x eq_refl) as (-> & Hs & _). rewrite Hs in Hr. apply list_elem_of_singleton in Hr as ->. by exists g, x.
Qed.

Lemma candidate_groups_unique k g g' : (k, g) ∈ candidate_groups config events → (k, g') ∈ candidate_groups config events → g = g'.
Proof.
  unfold candidate_groups. set (l := concat _). intros Hg Hg'.
  assert (bm_wf (foldl (group_push entry_key) [] l)) as Hwf by (apply (group_push_wf entry_key); constructor).
  apply bm_get_elem in Hg, Hg'; [|done..]. congruence.
Qed.


(** Of the windows of a rule the longest is reported.  On candidates in the order of time the search
    returns a window that meets the configuration and that no window of consecutive candidates
    that meets it exceeds, and it returns none only when none meets it. *)
Theorem rule_window_longest (candidates : list Candidate) : in_time_order candidates →
  match best_window config candidates with
  | None => False
  | Some None => ∀ i j, ¬ qualifies config candidates i j
  | Some (Some w) => (∃ i j, qualifies config candidates i j ∧ w = slice candidates i j) ∧
      ∀ i j, qualifies config candidates i j → (length (slice candidates i j) ≤ length w)%nat
  end.
Proof.
  intros Ho. destruct (best_window_spec config candidates Ho Hwindow) as (best & -> & Hb).
  assert (∀ i j, qualifies config candidates i j → (j < length candidates)%nat) as Hlt
    by (intros i j (_ & (_ & b & _ & Hb' & _) & _); by eapply lookup_lt_Some).
  destruct best as [w|].
  - destruct Hb as [(i & j & _ & Hq & ->) Hmax]. split; [by exists i, j|]. intros i' j' Hq'. apply Hmax; eauto.
  - intros i j Hq. apply (Hb i j); eauto.
Qed.

End correct.

(** ** A session that repeats *)

Section refused.
Context `{RegexesLaws} `{EventTimes} `{!Rfc3339}.
Context (clock : nat → Z) (fresh : nat → uuid) (thresholds : RiskThresholds).
Notation scores w := (map (λ x, ev_risk_score (cd_event x)) w).

Lemma correlation_scores c input e now u : input = correlation_input c →
  correlation_event now u thresholds input = Ok e → maximum (map cos_risk_score (csc_sessions c)) = csc_max_risk_score c.
Proof.
  intros -> He. unfold correlation_event in He. passed He.
  match goal with Hv : validate_correlation_input _ = Ok _ |- _ => unfold validate_correlation_input in Hv; passed Hv end.
  match goal with Hm : negb (_ =? _) = false |- _ => apply negb_false_iff, Z.eqb_eq in Hm; cbn [correlation_input cei_sessions cei_max_risk_score] in Hm; rewrite map_map in Hm; exact Hm end.
Qed.

(** C35: The export of correlations fails as a whole when, in a window it reports, the highest score
    belongs to a later detection of a session that already occurred: the score of the correlation
    is that of all detections of the window, while its sessions keep only the first detection of
    each, and the constructor of the event refuses the difference. *)
Theorem repeated_session_refused (config : CorrelationConfig) (events : list Event) l c rule w :
  correlate_detection_events events config = Some l → c ∈ l → window_of config events rule c w →
  maximum (scores (first_of_sessions [] w)) ≠ maximum (scores w) →
  ∀ emitted, correlation_events_from_detections clock fresh thresholds events config ≠ Some (Ok emitted).
Proof.
  intros Hl Hc (_ & _ & _ & Hs & Hm) Hne emitted. unfold correlation_events_from_detections. rewrite Hl. cbn.
  intros [= Hok]. apply collect_Ok in Hok. apply list_elem_of_lookup in Hc as (n & Hn).
  assert (imap pair l !! n = Some (n, c)) as Hi by (by rewrite list_lookup_imap, Hn).
  destruct (Forall2_lookup_l _ _ _ _ _ Hok Hi) as (e & _ & He). apply Hne.
  apply (correlation_scores c) in He; [|done]. rewrite <- Hm, <- He, Hs. unfold correlated_sessions. by rewrite map_map.
Qed.

End refused.

Module CorrelationSample.
Import Reference BuildSample.

#[export] Instance rfc3339 : Rfc3339 := {
  parse_rfc3339 t := (λ k, {| od_instant := Z.of_N k * minute; od_offset := 0 |}) <$> stamp_index t;
  format_rfc3339 d := stamp (last_digit (od_instant d));
}.

Lemma last_digit_minute k : (k < 10)%N → last_digit (Z.of_N k * minute) = k.
Proof. intros Hk. unfold last_digit. rewrite Z.div_mul by done. lia. Qed.

#[export] Instance rfc3339_laws : Rfc3339Laws.
Proof.
  split; cbn [parse_rfc3339 format_rfc3339 rfc3339 parse_event_timestamp services].
  - intros t. by destruct (stamp_index t).
  - intros t d Hd. destruct (stamp_index t) as [k|] eqn:Ht; [|done]. injection Hd as <-. cbn [od_instant].
    apply stamp_index_some in Ht as [_ Hk]. by rewrite last_digit_minute, stamp_index_stamp by done.
  - intros t d Hd. destruct (stamp_index t) as [k|] eqn:Ht; [|done]. apply stamp_index_some in Ht as [-> _].
    vm_compute. reflexivity.
Qed.

Definition at_minute (session : text) (points : Z) (k : N) : Candidate :=
  {| cd_event := detection session points k;
     cd_timestamp := {| od_instant := Z.of_N k * minute; od_offset := 0 |} |}.

(** The session [a] comes back with a higher score. *)
Definition window : list Candidate := [at_minute (lit "a") 70 1; at_minute (lit "b") 70 2; at_minute (lit "a") 90 3].
Definition found : list CrossSessionCorrelation :=
  default [] (correlate_detection_events (map cd_event window) CorrelationConfig_default).
Definition reported : CrossSessionCorrelation :=
  {| csc_actor := actor_key (detection (lit "a") 70 1); csc_shared_rule_ids := [lit "secret.env"];
     csc_sessions := correlated_sessions window; csc_window_start := stamp 1; csc_window_end := stamp 3;
     csc_max_risk_score := 90 |}.

Lemma window_eligible : Forall (eligible CorrelationConfig_default (map cd_event window)
  (actor_key (detection (lit "a") 70 1)) (lit "secret.env")) window.
Proof.
  repeat constructor; try (apply list_elem_of_In; cbn [map window]; cbn; tauto); try (vm_compute; reflexivity);
    try (vm_compute; discriminate); apply (bool_decide_unpack _); vm_compute; exact I.
Qed.

Lemma window_together : together CorrelationConfig_default window.
Proof.
  intros x y Hx%list_elem_of_In Hy%list_elem_of_In. cbn [window In] in Hx, Hy.
  destruct Hx as [<-|[<-|[<-|[]]]], Hy as [<-|[<-|[<-|[]]]]; apply Z.leb_le; vm_compute; reflexivity.
Qed.


Lemma rule_window_longest_witness : ∃ w, best_window CorrelationConfig_default window = Some (Some w) ∧
  ∀ i j, qualifies CorrelationConfig_default window i j → (length (slice window i j) ≤ length w)%nat.
Proof.
  assert (in_time_order window) as Ho.
  { assert (window = sort_by_key instant window) as -> by (vm_compute; reflexivity). apply sorted_in_order. }
  pose proof (rule_window_longest CorrelationConfig_default ltac:(done) window Ho) as Hb.
  assert (is_some (default None (best_window CorrelationConfig_default window)) = true) as Hs by (vm_compute; reflexivity).
  destruct (best_window CorrelationConfig_default window) as [[w|]|]; [|done..]. exists w. split; [done|]. apply Hb.
Defined.

Lemma repeated_session_refused_witness :
  match correlation_events_from_detections (λ _, now) (λ _, tt) default_thresholds (map cd_event window)
          CorrelationConfig_default with
  | Some (Ok _) => False
  | _ => True
  end.
Proof.
  assert (∀ emitted, correlation_events_from_detections (λ _, now) (λ _, tt) default_thresholds (map cd_event window)
            CorrelationConfig_default ≠ Some (Ok emitted)) as Hno.
  { refine (repeated_session_refused (λ _, now) (λ _, tt) default_thresholds CorrelationConfig_default
              (map cd_event window) found reported (lit "secret.env") window _ _ _ _).
    - vm_compute. reflexivity.
    - apply list_elem_of_In. vm_compute. left. reflexivity.
    - split_and!; [exact window_eligible|exact window_together|apply Nat.leb_le; vm_compute; reflexivity|done|vm_compute; reflexivity].
    - vm_compute. discriminate. }
  destruct (correlation_events_from_detections _ _ _ _ _) as [[e|]|]; [by apply (Hno e)|done..].
Defined.

End CorrelationSample.
