(* ===== verification/SessionSummary.v ===== *)
(** * Session risk summaries

    src/cli/scan.rs, [summarize_session_risk_events] and its helpers: the activities and
    detections of a scan, gathered per client, source and session into one summary event
    whose score counts each contribution once. *)

From S2P Require Import Prelude Ordered Rstr Scoring JournalNames Unicode Regex RegexRef RedactPatterns Redaction RedactionSafe EventIdentifiers EventEmit EventPrivacy EventHistory EventBuild EventBuildSafe Allowlist.

Local Open Scope Z_scope.

(** ** Accumulation *)

Record SessionRiskSummaryAccumulator := {
  sa_source : Source;
  sa_first_event : Event;
  sa_contributions : list ((RiskContributionType * string) * RiskContribution);
  sa_event_time : option text;
  sa_event_counts : list (text * Z);
  sa_tool_call_count : option Z;
  sa_detection_count : Z;
  sa_rule_ids : list text;
  sa_categories : list text;
  sa_detection_classes : list text;
  sa_signal_types : list text;
  sa_analytic_intents : list text;
  sa_atlas_tags : list text;
}.

Definition new_accumulator (source : Source) (e : Event) : SessionRiskSummaryAccumulator :=
  {| sa_source := source; sa_first_event := e; sa_contributions := []; sa_event_time := None;
     sa_event_counts := []; sa_tool_call_count := None; sa_detection_count := 0; sa_rule_ids := [];
     sa_categories := []; sa_detection_classes := []; sa_signal_types := []; sa_analytic_intents := [];
     sa_atlas_tags := [] |}.

Definition extend_set (target values : list text) : list text := bs_extend target values.

(** A contribution counts once; another with its key must be the same. *)
Definition merge_contribution (contributions : list ((RiskContributionType * string) * RiskContribution))
    (c : RiskContribution) : result (list ((RiskContributionType * string) * RiskContribution)) RiskAccountingError :=
  match bm_get (contribution_key c) contributions with
  | Some existing =>
      if negb (bool_decide (existing = c)) then Err (ConflictingContribution (rc_id c)) else Ok contributions
  | None => Ok (bm_insert (contribution_key c) c contributions)
  end.

(** What the summaries use of the JSON crate: the count of tool calls in the text of
    the record counts, when it is an object with such a number. *)
Class RecordCounts : Type := { tool_call_of_json : text → option Z }.

Definition summary_key (se : Source * Event) : text * text * text :=
  (ev_client se.2, so_source_id se.1, ev_session_id se.2).

Section summaries.
Context `{Regexes} `{EventTimes} `{RecordCounts}.
#[local] Existing Instance sanitizer_privacy.

Definition extract_tool_call_count_from_evidence (evidence : list Evidence) : option Z :=
  match find (λ item, is_lit "record_counts" (evd_field item)) evidence with
  | Some item => tool_call_of_json (evd_redacted_value item)
  | None => None
  end.

Definition later (current : option text) (timestamp : text) : option text :=
  match current with
  | Some t => match cmp timestamp t with Gt => Some timestamp | _ => current end
  | None => Some timestamp
  end.

Definition accumulate (summary : SessionRiskSummaryAccumulator) (e : Event)
    : result SessionRiskSummaryAccumulator RiskAccountingError :=
  let? contributions := try_fold merge_contribution (sa_contributions summary) (ev_risk_contributions e) in
  let is_detection := is_lit "detection" (ev_event_type e) in
  let extended (values : Event → list text) (target : list text) :=
    if is_detection then extend_set target (values e) else target in
  Ok {| sa_source := sa_source summary;
        sa_first_event := sa_first_event summary;
        sa_contributions := contributions;
        sa_event_time := later (sa_event_time summary) (ev_timestamp e);
        sa_event_counts := bm_update (ev_event_type e) 0 (λ n, n + 1) (sa_event_counts summary);
        sa_tool_call_count :=
          if is_lit "activity" (ev_event_type e) && negb (is_some (sa_tool_call_count summary))
          then extract_tool_call_count_from_evidence (ev_evidence e) else sa_tool_call_count summary;
        sa_detection_count := (if is_detection then sa_detection_count summary + 1 else sa_detection_count summary);
        sa_rule_ids := extended ev_rule_ids (sa_rule_ids summary);
        sa_categories := extended ev_categories (sa_categories summary);
        sa_detection_classes := extended ev_detection_classes (sa_detection_classes summary);
        sa_signal_types := extended ev_signal_types (sa_signal_types summary);
        sa_analytic_intents := extended ev_analytic_intents (sa_analytic_intents summary);
        sa_atlas_tags := extended ev_atlas_tags (sa_atlas_tags summary) |}.

Definition summarized (e : Event) : bool :=
  lits ["activity"; "detection"] (ev_event_type e) && negb (is_lit "scanner" (ev_session_id e)).

(** The checks before an event is added. *)
Definition check_score (e : Event) : result unit RiskAccountingError :=
  let? contribution_score := checked_risk_sum (ev_risk_contributions e) in
  if (negb (is_empty_list (ev_risk_contributions e)) || is_lit "2.0" (ev_schema_version e))
     && negb (ev_risk_score e =? contribution_score)
  then Err (ScoreMismatch (ev_risk_score e) contribution_score)
  else Ok tt.

Definition summary_step (summaries : list ((text * text * text) * SessionRiskSummaryAccumulator)) (se : Source * Event)
    : result (list ((text * text * text) * SessionRiskSummaryAccumulator)) RiskAccountingError :=
  if negb (summarized se.2) then Ok summaries
  else
    check? check_score se.2 in
    let summary := default (new_accumulator se.1 se.2) (bm_get (summary_key se) summaries) in
    let? summary := accumulate summary se.2 in
    Ok (bm_insert (summary_key se) summary summaries).

(** ** The summary of a session *)

Definition session_risk_summary_tags (s : SessionRiskSummaryAccumulator) : list text :=
  let tags := [lit "risk_summary"; lit "session"] in
  let tags := if 0 <? sa_detection_count s then tags ++ [lit "risky_action"] else tags in
  let tags := if bm_contains_key (lit "activity") (sa_event_counts s) then tags ++ [lit "activity"] else tags in
  dedup (sort tags).

(** The JSON of the counts; their keys are event types, which need no escape. *)
Definition counts_json (counts : list (text * Z)) : text :=
  lit "{" ++ join_text (lit ",") (map (λ kv, [34%N] ++ kv.1 ++ [34%N] ++ lit ":" ++ number kv.2) counts) ++ lit "}".

Definition session_risk_summary_evidence (s : SessionRiskSummaryAccumulator) : list Evidence :=
  let event_counts := counts_json (sa_event_counts s) in
  [{| evd_field := lit "event_counts"; evd_redacted_value := event_counts;
      evd_hash := Some (evidence_hash event_counts); evd_rule_id := None |};
   plain_evidence "risky_action_count" (number (sa_detection_count s))]
  ++ match sa_tool_call_count s with
     | Some count => [plain_evidence "tool_call_count" (number count)]
     | None => []
     end.

Definition summary_input (s : SessionRiskSummaryAccumulator) (risk_contributions : list RiskContribution)
    : SessionRiskSummaryEventInput :=
  let first := sa_first_event s in
  {| si_client := ev_client first; si_agent := ev_agent first; si_model := ev_model first;
     si_provider := ev_provider first; si_session_id := ev_session_id first;
     si_source_path_hash := ev_source_path_hash first; si_rule_ids := sa_rule_ids s;
     si_categories := sa_categories s; si_detection_classes := sa_detection_classes s;
     si_signal_types := sa_signal_types s; si_analytic_intents := sa_analytic_intents s;
     si_atlas_tags := sa_atlas_tags s; si_tags := session_risk_summary_tags s;
     si_evidence := session_risk_summary_evidence s; si_risk_contributions := risk_contributions;
     si_event_time := sa_event_time s |}.

(** The clock and the identifier drawn for the [n]th summary. *)
Context (clock : nat → Z) (fresh : nat → uuid) (thresholds : RiskThresholds).

Definition summary_event (ns : nat * SessionRiskSummaryAccumulator) : result (Source * Event) RiskAccountingError :=
  let? risk_contributions := canonicalize_contributions (bm_values (sa_contributions ns.2)) in
  let? event := session_risk_summary_event (clock ns.1) (fresh ns.1) thresholds (summary_input ns.2 risk_contributions) in
  Ok (sa_source ns.2, event).

Definition summarize_session_risk_events (activities detections : list (Source * Event))
    : result (list (Source * Event)) RiskAccountingError :=
  let? summaries := try_fold summary_step [] (activities ++ detections) in
  collect summary_event (imap pair (bm_values summaries)).

Definition session_risk_summaries_for_scan (emit_session_risk_summary : bool)
    (activities detections : list (Source * Event)) : result (list (Source * Event)) RiskAccountingError :=
  if emit_session_risk_summary then summarize_session_risk_events activities detections else Ok [].

End summaries.

(** ** What a summary holds *)

Section correct.
Context `{Regexes} `{EventTimes} `{RecordCounts}.
#[local] Existing Instance sanitizer_privacy.

Definition detections_of (l : list Event) : list Event := List.filter (λ e, is_lit "detection" (ev_event_type e)) l.

Definition gathers (values : Event → list text) (l : list Event) (target : list text) : Prop :=
  bs_wf target ∧ ∀ v, v ∈ target ↔ ∃ e, e ∈ detections_of l ∧ v ∈ values e.

Definition latest (l : list Event) (t : option text) : Prop :=
  match t with
  | None => l = []
  | Some t => t ∈ map ev_timestamp l ∧ Forall (λ e, le_of (ev_timestamp e) t) l
  end.

(** What the accumulator of a session knows after a list of its events. *)
Record accumulated (l : list Event) (s : SessionRiskSummaryAccumulator) : Prop := {
  ac_keyed : keyed (sa_contributions s);
  ac_contributions c : c ∈ bm_values (sa_contributions s) ↔ ∃ e, e ∈ l ∧ c ∈ ev_risk_contributions e;
  ac_time : latest l (sa_event_time s);
  ac_count : sa_detection_count s = Z.of_nat (length (detections_of l));
  ac_rules : gathers ev_rule_ids l (sa_rule_ids s);
  ac_categories : gathers ev_categories l (sa_categories s);
  ac_classes : gathers ev_detection_classes l (sa_detection_classes s);
  ac_signals : gathers ev_signal_types l (sa_signal_types s);
  ac_intents : gathers ev_analytic_intents l (sa_analytic_intents s);
  ac_atlas : gathers ev_atlas_tags l (sa_atlas_tags s);
}.

Lemma new_accumulated source e : accumulated [] (new_accumulator source e).
Proof.
  assert (∀ values, gathers values [] []) as Hg.
  { intros values. split; [constructor|]. intros v. split; [by intros ?%elem_of_nil|].
    by intros (x & Hx%elem_of_nil & _). }
  split; try done; [by repeat constructor|].
  intros c. split; [by intros ?%elem_of_nil|]. by intros (x & Hx%elem_of_nil & _).
Qed.

Lemma detections_of_snoc l e : detections_of (l ++ [e]) =
  detections_of l ++ (if is_lit "detection" (ev_event_type e) then [e] else []).
Proof. unfold detections_of. by rewrite List.filter_app. Qed.

Lemma gathers_snoc values l e target : gathers values l target →
  gathers values (l ++ [e]) (if is_lit "detection" (ev_event_type e) then extend_set target (values e) else target).
Proof.
  intros [Hwf Hv]. unfold gathers. rewrite detections_of_snoc. destruct (is_lit _ _).
  - split; [by apply bs_extend_wf|]. intros v. unfold extend_set. rewrite bs_extend_elem, Hv.
    setoid_rewrite elem_of_app. setoid_rewrite list_elem_of_singleton. naive_solver.
  - by rewrite app_nil_r.
Qed.

Lemma merge_fold l m m' : keyed m → try_fold merge_contribution m l = Ok m' →
  keyed m' ∧ ∀ c, c ∈ bm_values m' ↔ c ∈ bm_values m ∨ c ∈ l.
Proof.
  unfold bm_values. revert m; induction l as [|c l IH]; intros m Hm; cbn [try_fold].
  { intros [= <-]. split; [done|]. intros c. rewrite elem_of_nil. tauto. }
  unfold merge_contribution at 1. destruct (bm_get (contribution_key c) m) as [x|] eqn:Hg.
  - destruct (bool_decide (x = c)) eqn:Hx; [|done]. apply bool_decide_eq_true in Hx as ->. cbn [negb]. intros Hf.
    apply IH in Hf as [? Hel]; [|done]. split; [done|]. intros y. rewrite Hel, elem_of_cons.
    assert (c ∈ m.*2) by (by apply keyed_lookup). naive_solver.
  - intros Hf. apply IH in Hf as [? Hel]; [|by apply keyed_insert]. split; [done|].
    intros y. rewrite Hel, keyed_insert_elem, elem_of_cons by done. tauto.
Qed.

Lemma later_latest l t e : latest l t → latest (l ++ [e]) (later t (ev_timestamp e)).
Proof.
  unfold latest, later. destruct t as [t|]; [|intros ->; split; [by left|by repeat constructor; apply le_refl_of]].
  intros [Hin Hall]. rewrite map_app. destruct (cmp (ev_timestamp e) t) eqn:Hc.
  1,2: split; [apply elem_of_app; by left|]; apply Forall_app; split; [done|]; constructor; [|constructor];
       unfold le_of; by rewrite Hc.
  split; [apply elem_of_app; right; by left|]. apply cmp_gt_lt in Hc. apply Forall_app. split.
  - eapply Forall_impl; [exact Hall|]. cbn. intros x Hx. eapply le_trans_of; [exact Hx|]. by apply lt_le_of.
  - constructor; [apply le_refl_of|constructor].
Qed.

Lemma accumulate_spec l s e s' : accumulated l s → accumulate s e = Ok s' →
  accumulated (l ++ [e]) s' ∧ sa_source s' = sa_source s ∧ sa_first_event s' = sa_first_event s.
Proof.
  intros [Hk Hc Ht Hn Hg1 Hg2 Hg3 Hg4 Hg5 Hg6] He. unfold accumulate in He.
  destruct (try_fold _ _ _) as [m|] eqn:Hf; [|done]. injection He as <-. split; [|done].
  apply merge_fold in Hf as [Hm Hel]; [|done]. split; cbn; try by apply gathers_snoc.
  - done.
  - intros c. rewrite Hel, Hc. setoid_rewrite elem_of_app. setoid_rewrite list_elem_of_singleton. naive_solver.
  - by apply later_latest.
  - rewrite detections_of_snoc, length_app, Hn. destruct (is_lit _ _); cbn; lia.
Qed.

Lemma accumulate_fold l s0 s : accumulated [] s0 → try_fold accumulate s0 l = Ok s →
  accumulated l s ∧ sa_source s = sa_source s0 ∧ sa_first_event s = sa_first_event s0.
Proof.
  intros Hinit. revert s. induction l as [|e l IH] using rev_ind; intros s.
  - intros [= <-]. done.
  - rewrite try_fold_app. destruct (try_fold accumulate s0 l) as [s1|] eqn:Hf; [|done]. cbn.
    destruct (accumulate s1 e) as [s2|] eqn:Ha; [|done]. intros [= <-].
    destruct (IH s1 eq_refl) as (Hacc & Hs & Hfirst). destruct (accumulate_spec l s1 e s2 Hacc Ha) as (? & ? & ?).
    split_and!; [done|congruence..].
Qed.

(** *** Sessions *)

Definition session_events (k : text * text * text) (l : list (Source * Event)) : list (Source * Event) :=
  List.filter (λ se, summarized se.2 && same_key summary_key k se) l.

(** The accumulator of each session is that of its events alone. *)
Definition gathered (l : list (Source * Event)) (m : list ((text * text * text) * SessionRiskSummaryAccumulator)) : Prop :=
  bm_wf m ∧ ∀ k, match session_events k l with
                 | [] => bm_get k m = None
                 | (se :: _) as g => ∃ s, bm_get k m = Some s ∧
                     try_fold accumulate (new_accumulator se.1 se.2) (map snd g) = Ok s
                 end.

Lemma session_events_snoc k l se : session_events k (l ++ [se]) =
  session_events k l ++ (if summarized se.2 && same_key summary_key k se then [se] else []).
Proof. unfold session_events. by rewrite List.filter_app. Qed.

Lemma gathered_step l m se m' : gathered l m → summary_step m se = Ok m' → gathered (l ++ [se]) m'.
Proof.
  intros [Hwf Hg] Hs. unfold summary_step in Hs. destruct (summarized se.2) eqn:Hsum; cbn [negb] in Hs.
  2:{ injection Hs as <-. split; [done|]. intros k. rewrite session_events_snoc, Hsum, app_nil_r. apply Hg. }
  passed Hs. injection Hs as <-. split; [by apply bm_insert_wf|]. intros k. rewrite session_events_snoc, Hsum.
  cbn [andb]. specialize (Hg k). destruct (same_key summary_key k se) eqn:Hk.
  - apply (proj1 (same_key_spec summary_key k se)) in Hk as <-.
    destruct (session_events _ l) as [|x g] eqn:Hl; cbn [app].
    + eexists. split; [apply bm_get_insert_eq|]. cbn [map try_fold]. rewrite Hg in Hpass0. cbn in Hpass0. by rewrite Hpass0.
    + destruct Hg as (s & Hget & Hf). eexists. split; [apply bm_get_insert_eq|]. rewrite Hget in Hpass0. cbn in Hpass0.
      change (x :: g ++ [se]) with ((x :: g) ++ [se]). rewrite map_app, try_fold_app, Hf. cbn. by rewrite Hpass0.
  - rewrite app_nil_r, bm_get_insert_ne; [done|]. intros <-. 
    by rewrite (proj2 (same_key_spec summary_key _ se) eq_refl) in Hk.
Qed.

Lemma gathered_fold l m : try_fold summary_step [] l = Ok m → gathered l m.
Proof.
  revert m. induction l as [|se l IH] using rev_ind; intros m.
  - intros [= <-]. split; [constructor|done].
  - rewrite try_fold_app. destruct (try_fold summary_step [] l) as [m1|]; [|done]. cbn.
    destruct (summary_step m1 se) as [m2|] eqn:Hs; [|done]. intros [= <-]. eapply gathered_step; [by apply IH|done].
Qed.

Context (clock : nat → Z) (fresh : nat → uuid) (thresholds : RiskThresholds).

(** [out] is the summary of the session [k]. *)
Definition summary_of (l : list (Source * Event)) (k : text * text * text) (out : Source * Event) : Prop :=
  let events := map snd (session_events k l) in
  (∃ first rest, session_events k l = first :: rest ∧ out.1 = first.1 ∧
     (ev_client out.2, so_source_id out.1, ev_session_id out.2) = k ∧
     ev_source_path_hash out.2 = ev_source_path_hash first.2) ∧
  ev_event_type out.2 = lit "session_risk_summary" ∧
  canonical_order (ev_risk_contributions out.2) ∧
  (∀ c, c ∈ ev_risk_contributions out.2 ↔ ∃ e, e ∈ events ∧ c ∈ ev_risk_contributions e) ∧
  checked_risk_sum (ev_risk_contributions out.2) = Ok (ev_risk_score out.2) ∧
  ev_severity out.2 = severity_text (assess_risk_with_thresholds (ev_risk_score out.2) thresholds) ∧
  gathers ev_rule_ids events (ev_rule_ids out.2) ∧ gathers ev_categories events (ev_categories out.2).

Lemma session_key k l se : se ∈ session_events k l → summary_key se = k ∧ summarized se.2 = true ∧ se ∈ l.
Proof.
  intros Hin. apply list_elem_of_In, filter_In in Hin as [Hin Hk]. apply andb_true_iff in Hk as [Hs Hk].
  apply (proj1 (same_key_spec summary_key k se)) in Hk. by rewrite list_elem_of_In.
Qed.

Lemma summary_event_correct l k first rest s n out : session_events k l = first :: rest →
  try_fold accumulate (new_accumulator first.1 first.2) (map snd (first :: rest)) = Ok s →
  summary_event clock fresh thresholds (n, s) = Ok out → summary_of l k out.
Proof.
  intros Hl Hf He. destruct (accumulate_fold _ _ s (new_accumulated first.1 first.2) Hf) as (Hacc & Hsrc & Hfst).
  cbn in Hsrc, Hfst. destruct (session_key k l first) as (Hk & _); [rewrite Hl; by left|].
  unfold summary_event in He. cbn [fst snd] in He. destruct (canonicalize_contributions _) as [cs|] eqn:Hcs; [|done].
  destruct (session_risk_summary_event _ _ _ _) as [ev|] eqn:Hev; [|done]. injection He as <-.
  unfold session_risk_summary_event in Hev. passed Hev. injection Hev as <-. cbn [si_risk_contributions summary_input] in *.
  match goal with Hp : canonicalize_contributions cs = Ok ?x |- _ => apply canonicalize_Ok in Hp as (Hord & Hel & _) end.
  apply canonicalize_Ok in Hcs as (_ & Hcs & _).
  unfold summary_of. cbn [fst snd]. rewrite Hl. split_and!; try done.
  - exists first, rest. rewrite Hsrc. fold (summary_key first) in Hk. cbn. rewrite Hfst. by split_and!.
  - intros c. rewrite <- (ac_contributions _ _ Hacc c), <- Hcs. apply Hel.
  - apply (ac_rules _ _ Hacc).
  - apply (ac_categories _ _ Hacc).
Qed.

(** C8: The summaries of a scan account for its events.  When they are made, there is exactly one for
    each client, source and session that an activity or a detection of the scan names, in the
    order of these keys.  A summary carries every contribution of the events of its session once
    and no other, its score is their checked sum with the severity the thresholds give it, and
    it names exactly the rules and the categories of the detections of the session. *)
Theorem session_summaries_correct (activities detections : list (Source * Event)) out :
  summarize_session_risk_events clock fresh thresholds activities detections = Ok out →
  ∃ keys, StronglySorted lt_of keys ∧
    (∀ k, k ∈ keys ↔ session_events k (activities ++ detections) ≠ []) ∧
    Forall2 (summary_of (activities ++ detections)) keys out.
Proof.
  unfold summarize_session_risk_events. set (l := activities ++ detections).
  destruct (try_fold summary_step [] l) as [m|] eqn:Hm; [|done]. intros Hc%collect_Ok.
  apply gathered_fold in Hm as [Hwf Hg]. exists (m.*1). split_and!; [done| |].
  - intros k. specialize (Hg k). destruct (session_events k l) as [|se g].
    + apply bm_get_None in Hg. split; [done|]. intros Hn. by destruct Hn.
    + destruct Hg as (s & Hs & _). split; [done|]. intros _. apply bm_get_elem in Hs; [|done].
      apply list_elem_of_fmap. by exists (k, s).
  - apply Forall2_same_length_lookup_2.
    { apply Forall2_length in Hc. rewrite length_imap in Hc. unfold bm_values in Hc. rewrite length_fmap in Hc. by rewrite length_fmap. }
    intros i k o Hk Ho. apply list_lookup_fmap_Some in Hk as ([k' s] & -> & Hks). cbn [fst].
    assert (imap pair (bm_values m) !! i = Some (i, s)) as Hi.
    { rewrite list_lookup_imap. unfold bm_values. by rewrite list_lookup_fmap, Hks. }
    destruct (Forall2_lookup_l _ _ _ _ _ Hc Hi) as (o' & Ho' & He). assert (o' = o) as -> by congruence.
    assert (bm_get k' m = Some s) as Hget by (apply bm_get_elem; [done|]; by eapply list_elem_of_lookup_2).
    specialize (Hg k'). destruct (session_events k' l) as [|first rest] eqn:Hl; [congruence|].
    destruct Hg as (s' & Hs' & Hf). assert (s' = s) as -> by congruence. by eapply summary_event_correct.
Qed.

End correct.

(** ** When summaries fail *)

Section errors.
Context `{RegexesLaws} `{EventTimes} `{!EventServicesLaws} `{RecordCounts}.
#[local] Existing Instance sanitizer_privacy.

Definition present (t : text) : bool := negb (blank_text t).

(** What the summaries need of an event. *)
Record summarizable (e : Event) : Prop := {
  sb_client : present (ev_client e) = true;
  sb_session : present (ev_session_id e) = true;
  sb_agent : opt_all present (ev_agent e) = true;
  sb_model : opt_all present (ev_model e) = true;
  sb_provider : opt_all present (ev_provider e) = true;
  sb_path : opt_all present (ev_source_path_hash e) = true;
  sb_rules : validate_rule_ids (ev_rule_ids e) = Ok tt;
  sb_categories : forallb present (ev_categories e) = true;
  sb_classes : forallb (lits VALID_DETECTION_CLASSES) (ev_detection_classes e) = true;
  sb_signals : forallb (lits VALID_SIGNAL_TYPES) (ev_signal_types e) = true;
  sb_intents : forallb (lits VALID_ANALYTIC_INTENTS) (ev_analytic_intents e) = true;
  sb_atlas : forallb (λ t, present t && is_safe_atlas_tag t) (ev_atlas_tags e) = true;
  sb_score : check_score e = Ok tt;
  sb_scope : ev_event_type e = lit "detection" → rule_backed_contributions e;
  sb_baseline : ev_event_type e = lit "activity" → Forall (λ c, rc_type c = BaselineDeviation) (ev_risk_contributions e);
}.

Definition accounting_limit (e : RiskAccountingError) : Prop :=
  e = Overflow ∨ ∃ id, e = ConflictingContribution id.

(** A result that is refused only for a limit of the accounting. *)
Definition limited {A} (r : result A RiskAccountingError) : Prop :=
  match r with Ok _ => True | Err e => accounting_limit e end.

Lemma limited_bind {A B} (r : result A RiskAccountingError) (f : A → result B RiskAccountingError) :
  limited r → (∀ a, r = Ok a → limited (f a)) → limited (let? a := r in f a).
Proof. destruct r as [a|e]; cbn; auto. Qed.

Lemma limited_fold {A B} (f : B → A → result B RiskAccountingError) acc l :
  (∀ b a, a ∈ l → limited (f b a)) → limited (try_fold f acc l).
Proof.
  revert acc. induction l as [|a l IH]; intros acc Hf; [done|]. cbn [try_fold].
  apply limited_bind; [apply Hf; by left|]. intros b _. apply IH. intros b' a' Ha'. apply Hf. by right.
Qed.

Lemma limited_collect {A B} (f : A → result B RiskAccountingError) l :
  (∀ a, a ∈ l → limited (f a)) → limited (collect f l).
Proof.
  induction l as [|a l IH]; intros Hf; [done|]. cbn [collect]. apply limited_bind; [apply Hf; by left|]. intros b _.
  apply limited_bind; [|done]. apply IH. intros a' Ha'. apply Hf. by right.
Qed.

Lemma sum_valid l total : checked_risk_sum l = Ok total → Forall (λ c, validate c = Ok tt) l.
Proof.
  unfold checked_risk_sum. generalize 0. induction l as [|c l IH]; intros acc; [constructor|]. cbn [try_fold].
  destruct (validate c) as [[]|] eqn:Hv; [|done]. destruct (ok_or _ _); [|done]. intros Hf. constructor; [done|]. by eapply IH.
Qed.

Lemma sum_limited l : Forall (λ c, validate c = Ok tt) l → limited (checked_risk_sum l).
Proof.
  intros Hl. rewrite Forall_forall in Hl. apply limited_fold. intros b c Hc. rewrite (Hl c Hc).
  destruct (checked_add b (rc_points c)); cbn; [done|by left].
Qed.

Lemma canonicalize_limited l : Forall (λ c, validate c = Ok tt) l → limited (canonicalize_contributions l).
Proof.
  intros Hl. pose proof Hl as Hall. rewrite Forall_forall in Hall. unfold canonicalize_contributions. apply limited_bind.
  - apply limited_fold. intros m c Hc. unfold canonicalize_step. rewrite (Hall c Hc).
    destruct (bm_get _ m); [|done]. case_bool_decide; [done|]. right. by eexists.
  - intros m Hm. apply canonicalize_fold_values in Hm as [_ Hel]; [|by repeat constructor].
    apply limited_bind; [|done]. apply sum_limited, Forall_forall. intros c Hc. apply Hall. apply Hel in Hc as [?%elem_of_nil|]; done.
Qed.

Lemma merge_limited m c : limited (merge_contribution m c).
Proof. unfold merge_contribution. repeat case_match; cbn; try done. right. by eexists. Qed.

Lemma step_limited m se : (summarized se.2 = true → summarizable se.2) → limited (summary_step m se).
Proof.
  intros Hs. unfold summary_step. destruct (summarized se.2) eqn:Hsum; [|done]. cbn [negb].
  rewrite (sb_score _ (Hs eq_refl)). unfold accumulate.
  apply limited_bind; [|done]. apply limited_bind; [|done]. apply limited_fold. intros. apply merge_limited.
Qed.

(** *** The event of a session *)

Lemma require_present fam f t : present t = true → require_non_empty fam f t = Ok tt.
Proof. unfold present, require_non_empty. by destruct (blank_text t). Qed.

Lemma require_optional_present fam f o : opt_all present o = true → require_optional_non_empty fam f o = Ok tt.
Proof. destruct o; [apply require_present|done]. Qed.

Lemma metadata_present fam a m p : opt_all present a = true → opt_all present m = true → opt_all present p = true →
  validate_optional_metadata fam a m p = Ok tt.
Proof. intros. unfold validate_optional_metadata. by rewrite !require_optional_present. Qed.

Definition valid_rule_id (r : text) : bool :=
  negb (negb (is_canonical_contribution_id (encode_str r)) || contains_credential_material r).

Lemma validate_rule_ids_spec l : validate_rule_ids l = Ok tt ↔ forallb valid_rule_id l = true.
Proof.
  unfold valid_rule_id. induction l as [|r l IH]; cbn [validate_rule_ids forallb]; [done|].
  destruct (negb _ || _); cbn [negb andb]; [done|exact IH].
Qed.

Lemma gathered_all values p events target : gathers values events target →
  (∀ e, e ∈ events → forallb p (values e) = true) → forallb p target = true.
Proof.
  intros [_ Hv] He. apply forallb_forall. intros v Hin%list_elem_of_In. apply Hv in Hin as (e & Hde & Hin).
  apply list_elem_of_In, filter_In in Hde as [Hde%list_elem_of_In _]. specialize (He e Hde).
  rewrite forallb_forall in He. by apply He, list_elem_of_In.
Qed.

Lemma array_present fam f l : forallb present l = true → validate_optional_array_values fam f l = Ok tt.
Proof.
  intros Hl. unfold validate_optional_array_values. assert (existsb blank_text l = false) as ->; [|done].
  apply not_true_is_false. intros (t & Ht & Hb)%existsb_exists. rewrite forallb_forall in Hl. specialize (Hl t Ht).
  unfold present in Hl. by rewrite Hb in Hl.
Qed.

(** The allowed values are not blank. *)
Lemma allowed_present (allowed : list string) l : forallb (λ v, present (lit v)) allowed = true →
  forallb (lits allowed) l = true → forallb present l = true.
Proof.
  intros Ha Hl. apply forallb_forall. intros t Ht. rewrite forallb_forall in Hl. specialize (Hl t Ht).
  apply text_in_spec, list_elem_of_In, in_map_iff in Hl as (v & <- & Hv). rewrite forallb_forall in Ha. by apply Ha.
Qed.

Lemma dimensions_allowed fam c si i : forallb (lits VALID_DETECTION_CLASSES) c = true →
  forallb (lits VALID_SIGNAL_TYPES) si = true → forallb (lits VALID_ANALYTIC_INTENTS) i = true →
  validate_dimension_values fam c si i = Ok tt.
Proof. intros Hc Hs Hi. unfold validate_dimension_values, validate_allowed_values. by rewrite Hc, Hs, Hi. Qed.

Lemma hash_present t : present (evidence_hash t) = true.
Proof.
  pose proof (evidence_hash_hex t) as Hh. unfold is_canonical_sha256_hex in Hh. apply andb_true_iff in Hh as [Hn Hh].
  unfold present, blank_text. destruct (evidence_hash t) as [|c l]; [by vm_compute in Hn|]. cbn [forallb] in Hh |- *.
  apply andb_true_iff in Hh as [Hc _]. assert (whitespace c = false) as ->; [|done].
  unfold hex_lower, ascii_digit, whitespace, between in *. rewrite orb_true_iff, !andb_true_iff, !N.leb_le in Hc.
  apply not_true_is_false. rewrite !orb_true_iff, !andb_true_iff, !N.leb_le, !N.eqb_eq. lia.
Qed.

Lemma summary_evidence_valid s : validate_evidence "session_risk_summary" (session_risk_summary_evidence s) = Ok tt.
Proof.
  assert (∀ f v rest, present (lit f) = true → validate_evidence "session_risk_summary" (plain_evidence f v :: rest) =
    validate_evidence "session_risk_summary" rest) as Hp.
  { intros f v rest Hf. cbn [validate_evidence plain_evidence evd_field evd_hash evd_rule_id].
    by rewrite (require_present _ _ _ Hf). }
  unfold session_risk_summary_evidence. cbn [app]. set (rest := plain_evidence _ _ :: _).
  assert (validate_evidence "session_risk_summary" rest = Ok tt) as Hr
    by (unfold rest; rewrite Hp by done; destruct (sa_tool_call_count s); [by rewrite Hp|done]).
  cbn [validate_evidence evd_field evd_hash evd_rule_id]. rewrite (require_present _ _ (lit "event_counts")) by done.
  cbn [require_optional_non_empty]. by rewrite require_present by apply hash_present.
Qed.

Lemma summary_scope rule_ids l :
  Forall (λ c, rule_backed (rc_type c) = true → decode_str (rc_id c) ∈ rule_ids) l →
  validate_risk_accounting_scope "session_risk_summary" rule_ids l = Ok tt.
Proof.
  induction 1 as [|c l Hc _ IH]; [done|]. cbn [validate_risk_accounting_scope String.eqb Ascii.eqb Bool.eqb orb andb negb].
  destruct (rule_backed (rc_type c)); cbn [andb]; [|done].
  by rewrite (proj2 (text_in_spec _ rule_ids) (Hc eq_refl)).
Qed.

Context (clock : nat → Z) (fresh : nat → uuid) (thresholds : RiskThresholds).

(** What the events of one session give its accumulator. *)
Section session.
Context (events : list Event) (s : SessionRiskSummaryAccumulator).
Context (Hall : ∀ e, e ∈ events → summarized e = true ∧ summarizable e) (Hacc : accumulated events s).

Lemma session_valid c : c ∈ bm_values (sa_contributions s) → validate c = Ok tt.
Proof.
  intros (e & Hin & Hc)%(ac_contributions _ _ Hacc). destruct (Hall e Hin) as [_ Hs]. pose proof (sb_score e Hs) as Hsc.
  unfold check_score in Hsc. destruct (checked_risk_sum _) as [t|] eqn:Ht; [|done]. apply sum_valid in Ht.
  rewrite Forall_forall in Ht. by apply Ht.
Qed.

Lemma session_scope c : c ∈ bm_values (sa_contributions s) → rule_backed (rc_type c) = true →
  decode_str (rc_id c) ∈ sa_rule_ids s.
Proof.
  intros (e & Hin & Hc)%(ac_contributions _ _ Hacc) Hb. destruct (Hall e Hin) as [Ht Hs].
  apply andb_true_iff in Ht as [Ht _]. apply text_in_spec in Ht. cbn [map] in Ht.
  apply list_elem_of_In in Ht as [Ht|[Ht|[]]].
  - pose proof (sb_baseline e Hs (eq_sym Ht)) as Hbase. rewrite Forall_forall in Hbase. by rewrite (Hbase c Hc) in Hb.
  - pose proof (sb_scope e Hs (eq_sym Ht)) as Hr. unfold rule_backed_contributions in Hr. rewrite Forall_forall in Hr.
    apply (ac_rules _ _ Hacc). exists e. split; [|by apply Hr]. apply list_elem_of_In, filter_In.
    split; [by apply list_elem_of_In|]. by apply bool_decide_eq_true.
Qed.

Lemma session_set values p target : (∀ e, summarizable e → forallb p (values e) = true) → gathers values events target →
  forallb p target = true.
Proof. intros Hp Hg. eapply gathered_all; [exact Hg|]. intros e Hin. apply Hp, (Hall e Hin). Qed.

Lemma session_event_limited first n : sa_first_event s = first → summarizable first →
  limited (summary_event clock fresh thresholds (n, s)).
Proof.
  intros Hfirst Hf.
  pose proof (session_set _ _ _ (λ e Hs, proj1 (validate_rule_ids_spec _) (sb_rules e Hs)) (ac_rules _ _ Hacc)) as Hrules.
  pose proof (session_set _ _ _ sb_categories (ac_categories _ _ Hacc)) as Hcat.
  pose proof (session_set _ _ _ sb_classes (ac_classes _ _ Hacc)) as Hcl.
  pose proof (session_set _ _ _ sb_signals (ac_signals _ _ Hacc)) as Hsi.
  pose proof (session_set _ _ _ sb_intents (ac_intents _ _ Hacc)) as Hin.
  pose proof (session_set _ _ _ sb_atlas (ac_atlas _ _ Hacc)) as Hat.
  assert (forallb present (sa_atlas_tags s) = true ∧ forallb is_safe_atlas_tag (sa_atlas_tags s) = true) as [Hap Has].
  { rewrite !forallb_forall. rewrite forallb_forall in Hat.
    split; intros t Ht; specialize (Hat t Ht); by apply andb_true_iff in Hat as [? ?]. }
  unfold summary_event. cbn [fst snd]. apply limited_bind.
  { apply canonicalize_limited, Forall_forall, session_valid. }
  intros cs Hcs. apply canonicalize_Ok in Hcs as (_ & Hel & _). apply limited_bind; [|done].
  unfold session_risk_summary_event, summary_input. cbn [si_client si_agent si_model si_provider si_session_id si_source_path_hash si_rule_ids si_categories si_detection_classes si_signal_types si_analytic_intents si_atlas_tags si_evidence si_risk_contributions].
  rewrite Hfirst, !require_present, metadata_present, require_optional_present by (destruct Hf; assumption).
  rewrite (proj2 (validate_rule_ids_spec _) Hrules), !array_present, dimensions_allowed, Has, summary_evidence_valid
    by (done || (eapply allowed_present; [|eassumption]; vm_compute; reflexivity)).
  cbn [negb]. apply limited_bind; [apply canonicalize_limited, Forall_forall; intros c Hc; by apply session_valid, Hel|].
  intros cs' Hcs'. pose proof Hcs' as (_ & Hel' & Hok)%canonicalize_Ok.
  rewrite summary_scope by (apply Forall_forall; intros c Hc; by apply session_scope, Hel, Hel').
  unfold score_for_contributions. by destruct (checked_risk_sum cs').
Qed.

End session.

(** *** The events of a scan *)

Lemma present_of fam f t u : require_non_empty fam f t = Ok u → present t = true.
Proof. unfold require_non_empty, present. by destruct (blank_text t). Qed.

Lemma optional_present_of fam f o u : require_optional_non_empty fam f o = Ok u → opt_all present o = true.
Proof. destruct o; [apply present_of|done]. Qed.

Lemma metadata_of fam a m p u : validate_optional_metadata fam a m p = Ok u →
  opt_all present a = true ∧ opt_all present m = true ∧ opt_all present p = true.
Proof. unfold validate_optional_metadata. intros Hv. passed Hv. split_and!; by eapply optional_present_of. Qed.

Lemma not_blank_present l : existsb blank_text l = false → forallb present l = true.
Proof.
  intros He. apply forallb_forall. intros t Ht. unfold present. destruct (blank_text t) eqn:Hb; [|done].
  exfalso. assert (existsb blank_text l = true) by (apply existsb_exists; by exists t). congruence.
Qed.

Lemma array_of fam f l u : require_non_empty_array fam f l = Ok u → forallb present l = true.
Proof.
  unfold require_non_empty_array. destruct (is_empty_list l); [done|]. destruct (existsb blank_text l) eqn:He; [done|].
  intros _. by apply not_blank_present.
Qed.

Lemma optional_array_of fam f l u : validate_optional_array_values fam f l = Ok u → forallb present l = true.
Proof. unfold validate_optional_array_values. destruct (existsb blank_text l) eqn:He; [done|]. intros _. by apply not_blank_present. Qed.

Lemma client_present c : present (ClientId_as_str c) = true.
Proof. by destruct c. Qed.

Lemma unit_ok (r : result unit RiskAccountingError) u : r = Ok u → r = Ok tt.
Proof. by destruct u. Qed.

Lemma check_score_sum e total : checked_risk_sum (ev_risk_contributions e) = Ok total → ev_risk_score e = total →
  check_score e = Ok tt.
Proof. intros He <-. unfold check_score. rewrite He, Z.eqb_refl. by rewrite andb_false_r. Qed.

Lemma detection_summarizable now u input e : detection_event now u thresholds input = Ok e → summarizable e.
Proof.
  intros He. unfold detection_event in He. passed He. injection He as <-.
  apply negb_false_iff in Hif. pose proof (detection_dimensions _ _ _ _ _ _ _ Hpass4) as (_ & Vc & Vs & Vi).
  unfold validate_detection_dimensions in Hpass4. passed Hpass4. apply metadata_of in Hpass1 as (Ha & Hm & Hp).
  split; unfold build; event; builder; try done; try (by eapply present_of); try (by eapply array_of); try (by eapply unit_ok).
  - apply client_present.
  - apply optional_array_of in Hpass5. rewrite forallb_forall in *. intros t Ht. by rewrite (Hpass5 t Ht), (Hif t Ht).
  - by eapply check_score_sum.
  - intros _. by eapply detection_scope.
Qed.

Lemma activity_scope rule_ids l u : validate_risk_accounting_scope "activity" rule_ids l = Ok u →
  Forall (λ c, rc_type c = BaselineDeviation) l.
Proof.
  revert u. induction l as [|c l IH]; intros u; [constructor|].
  cbn [validate_risk_accounting_scope String.eqb Ascii.eqb Bool.eqb orb andb].
  destruct (bool_decide (rc_type c = BaselineDeviation)) eqn:Ht; cbn [negb]; [|done].
  intros Hl. constructor; [by apply bool_decide_eq_true in Ht|by eapply IH].
Qed.

Lemma activity_summarizable now u input e : activity_event now u thresholds input = Ok e → summarizable e.
Proof.
  intros He. unfold activity_event in He. passed He. injection He as <-. apply metadata_of in Hpass1 as (Ha & Hm & Hp).
  split; unfold build; event; builder; try done; try (by eapply present_of).
  - apply client_present.
  - by eapply check_score_sum.
  - intros _. by eapply activity_scope.
Qed.

Lemma suppressed_summarizable e m : ev_schema_version e = NATIVE_SCHEMA_VERSION → summarizable e →
  summarizable (suppress_detection e m).
Proof.
  intros Hv Hs. unfold suppress_detection. destruct (is_lit "detection" (ev_event_type e)); cbn [negb]; [|done].
  destruct Hs. split; event; try done; [|intros _; constructor..].
  unfold check_score. event. rewrite Hv. done.
Qed.

(** An activity or a detection that was made by its constructor, and perhaps suppressed. *)
Inductive scan_event : Event → Prop :=
  | scan_activity now u input e : activity_event now u thresholds input = Ok e → scan_event e
  | scan_detection now u input e : detection_event now u thresholds input = Ok e → scan_event e
  | scan_suppressed now u input e m : detection_event now u thresholds input = Ok e → scan_event (suppress_detection e m).

Lemma scan_summarizable e : scan_event e → summarizable e.
Proof.
  intros [now u input e' He|now u input e' He|now u input e' m He];
    [by eapply activity_summarizable|by eapply detection_summarizable|].
  apply suppressed_summarizable; [|by eapply detection_summarizable].
  unfold detection_event in He. passed He. by injection He as <-.
Qed.

Lemma summarize_limited l : (∀ se, se ∈ l → summarized se.2 = true → summarizable se.2) →
  limited (let? m := try_fold summary_step [] l in collect (summary_event clock fresh thresholds) (imap pair (bm_values m))).
Proof.
  intros Hl. apply limited_bind; [apply limited_fold; intros m se Hse; apply step_limited; auto|].
  intros m [Hwf Hg]%gathered_fold. apply limited_collect. intros [n s] Hin.
  apply list_elem_of_lookup in Hin as (i & Hi). apply list_lookup_imap_Some in Hi as (s0 & Hs0 & [= -> ->]).
  apply list_lookup_fmap_Some in Hs0 as ([k s'] & -> & Hks). apply list_elem_of_lookup_2 in Hks.
  apply bm_get_elem in Hks; [|done]. specialize (Hg k). destruct (session_events k l) as [|first rest] eqn:He; [congruence|].
  destruct Hg as (x & Hx & Hf). assert (x = s') as -> by congruence.
  destruct (accumulate_fold _ _ s' (new_accumulated first.1 first.2) Hf) as (Hacc & _ & Hfst).
  assert (∀ e, e ∈ map snd (first :: rest) → summarized e = true ∧ summarizable e) as Hall.
  { intros e (se & -> & Hse)%list_elem_of_fmap. rewrite <- He in Hse. apply session_key in Hse as (_ & Hsum & Hin). auto. }
  apply (session_event_limited _ _ Hall Hacc first.2); [done|]. apply Hall. by left.
Qed.

(** The summaries of a scan fail for two reasons only.  Whatever activities and detections the
    constructors made, suppressed or not, and whatever else the scan found, summarizing them gives
    the summaries, or reports that two events of a session disagree about a contribution, or that
    a sum of points exceeds 64 bits: no other check of the accounting or of the constructor can
    stop the scan. *)
Theorem session_summaries_errors (activities detections : list (Source * Event)) :
  Forall (λ se, summarized se.2 = true → scan_event se.2) (activities ++ detections) →
  match summarize_session_risk_events clock fresh thresholds activities detections with
  | Ok _ => True
  | Err e => e = Overflow ∨ ∃ id, e = ConflictingContribution id
  end.
Proof.
  intros Hl. apply summarize_limited. rewrite Forall_forall in Hl. intros se Hse Hs. by apply scan_summarizable, Hl.
Qed.

End errors.

Module SummarySample.
Import Reference BuildSample.

#[export] Instance record_counts : RecordCounts := { tool_call_of_json t := if is_empty_list t then None else Some 4 }.

Definition source : Source :=
  {| so_client := Codex; so_kind := Jsonl; so_source_id := lit "codex.jsonl"; so_path := lit "/tmp/rollout.jsonl" |}.
Definition found : list (Source * Event) := [(source, detection (lit "a") 75 1); (source, detection (lit "a") 75 2)].

Definition drawn : nat → uuid := λ _, tt.

Notation summaries := (summarize_session_risk_events (λ _, now) drawn default_thresholds [] found).

Lemma session_summaries_correct_witness : ∃ out keys, summaries = Ok out ∧ length out = 1%nat ∧
  Forall2 (summary_of default_thresholds found) keys out.
Proof.
  assert (match summaries with Ok out => length out | Err _ => 0%nat end = 1%nat) as Hl by (vm_compute; reflexivity).
  destruct summaries as [out|] eqn:Hs; [|discriminate Hl].
  pose proof (session_summaries_correct (λ _, now) drawn default_thresholds [] found) as Hc.
  destruct (Hc out Hs) as (keys & _ & _ & Hk).
  exists out, keys. exact (conj eq_refl (conj Hl Hk)).
Defined.

Definition one_found : list (Source * Event) := [(source, detection (lit "a") 75 1)].

Lemma session_summaries_errors_witness :
  match summarize_session_risk_events (λ _, now) drawn default_thresholds [] one_found with
  | Ok _ => True
  | Err e => e = Overflow ∨ ∃ id, e = ConflictingContribution id
  end.
Proof.
  pose proof (session_summaries_errors (λ _, now) drawn default_thresholds [] one_found) as He. apply He.
  constructor; [|constructor]. intros _. exact (scan_detection _ now tt (detection_input (lit "a") 75 1) _ detection_made).
Defined.

End SummarySample.
