(* ===== verification/Baseline.v ===== *)
(** * Baselines of activity

    crates/telltale-detect/src/baseline.rs and baseline/accounting.rs: the summary of what a
    client, agent, model and provider did, its merging, the identity of network hosts, and
    the deviation of a session from what was seen before. *)

From S2P Require Import Prelude Ordered Rstr Scoring JournalNames Unicode Regex RegexRef RedactPatterns Redaction RedactionSafe EventIdentifiers EventEmit EventPrivacy EventHistory EventBuild EventBuildSafe.

Local Open Scope Z_scope.

(** ** Data *)

Record BaselineDeviationConfig := { bd_enabled : bool; bd_min_previous_tool_calls : Z }.

Definition BaselineDeviationConfig_default : BaselineDeviationConfig :=
  {| bd_enabled := false; bd_min_previous_tool_calls := 5 |}.

Record Deviation := {
  dv_risk_modifier : Z;
  dv_new_tool_names : Z;
  dv_new_path_classes : Z;
  dv_new_network_hosts : Z;
}.

Record BaselineKey := {
  bk_client : text;
  bk_agent : option text;
  bk_model : option text;
  bk_provider : option text;
}.

Inductive PathClass :=
| PathSource | PathTest | PathDocumentation | PathConfig | PathBuildManifest | PathSecretStore | PathHome
| PathTemp | PathOther.

Definition path_class_rank (c : PathClass) : Z :=
  match c with
  | PathSource => 0 | PathTest => 1 | PathDocumentation => 2 | PathConfig => 3 | PathBuildManifest => 4
  | PathSecretStore => 5 | PathHome => 6 | PathTemp => 7 | PathOther => 8
  end.
#[export] Instance ord_path_class : Ord PathClass := cmp_via path_class_rank.
#[export] Instance laws_path_class : OrdLaws PathClass.
Proof. apply laws_via. intros [] []; done. Qed.

Record BaselineObservationTotals := {
  bt_records : Z;
  bt_user_messages : Z;
  bt_assistant_messages : Z;
  bt_tool_calls : Z;
  bt_tool_results : Z;
  bt_session_meta : Z;
  bt_other : Z;
}.

Record BaselineSummary := {
  bs_key : BaselineKey;
  bs_observations : BaselineObservationTotals;
  bs_tool_call_counts : list (text * Z);
  bs_path_class_counts : list (PathClass * Z);
  bs_network_host_counts : list (text * Z);
}.

(** ** Merging *)

#[local] Notation R A := (result A RiskAccountingError).

Definition add (a b : Z) : R Z := ok_or (checked_add a b) Overflow.

Definition totals_merge_from (t o : BaselineObservationTotals) : R BaselineObservationTotals :=
  let? records := add (bt_records t) (bt_records o) in
  let? user_messages := add (bt_user_messages t) (bt_user_messages o) in
  let? assistant_messages := add (bt_assistant_messages t) (bt_assistant_messages o) in
  let? tool_calls := add (bt_tool_calls t) (bt_tool_calls o) in
  let? tool_results := add (bt_tool_results t) (bt_tool_results o) in
  let? session_meta := add (bt_session_meta t) (bt_session_meta o) in
  let? other := add (bt_other t) (bt_other o) in
  Ok {| bt_records := records; bt_user_messages := user_messages; bt_assistant_messages := assistant_messages;
        bt_tool_calls := tool_calls; bt_tool_results := tool_results; bt_session_meta := session_meta;
        bt_other := other |}.

(** [entry(key).or_insert(0)] and the addition. *)
Definition add_count {K} `{Ord K} (counts : list (K * Z)) (kv : K * Z) : R (list (K * Z)) :=
  let? value := add (default 0 (bm_get kv.1 counts)) kv.2 in
  Ok (bm_insert kv.1 value counts).

Definition merge_counts {K} `{Ord K} (target source : list (K * Z)) : R (list (K * Z)) :=
  try_fold add_count target source.

Definition checked_merge_from (s o : BaselineSummary) : R BaselineSummary :=
  let? observations := totals_merge_from (bs_observations s) (bs_observations o) in
  let? tools := merge_counts (bs_tool_call_counts s) (bs_tool_call_counts o) in
  let? paths := merge_counts (bs_path_class_counts s) (bs_path_class_counts o) in
  let? hosts := merge_counts (bs_network_host_counts s) (bs_network_host_counts o) in
  Ok {| bs_key := bs_key s; bs_observations := observations; bs_tool_call_counts := tools;
        bs_path_class_counts := paths; bs_network_host_counts := hosts |}.

(** ** Hosts *)

Definition BASELINE_HOST_HASH_PREFIX : text := lit "sha256:".

Definition trim (t : text) : text := reverse (trim_front whitespace (reverse (trim_front whitespace t))).

Section hosts.
Context `{EventServices}.

Definition is_canonical_host_hash (host : text) : bool :=
  match strip BASELINE_HOST_HASH_PREFIX host with
  | None => false
  | Some hex => is_canonical_sha256_hex hex
  end.

Definition baseline_host_identity (host : text) : text :=
  if is_canonical_host_hash host then host
  else BASELINE_HOST_HASH_PREFIX ++ evidence_hash (lowercase (trim host)).

Definition hash_network_hosts_for_state (s : BaselineSummary) : R BaselineSummary :=
  let? counts := try_fold (λ counts hc, add_count counts (baseline_host_identity hc.1, hc.2)) []
                   (bs_network_host_counts s) in
  Ok {| bs_key := bs_key s; bs_observations := bs_observations s; bs_tool_call_counts := bs_tool_call_counts s;
        bs_path_class_counts := bs_path_class_counts s; bs_network_host_counts := counts |}.

(** ** Deviation *)

Definition new_keys {K} `{Ord K} (previous current : list (K * Z)) : Z :=
  Z.of_nat (length (List.filter (λ k, negb (bm_contains_key k previous)) (bm_keys current))).

Definition new_hosts (previous current : list (text * Z)) : Z :=
  let previous_network_hosts := bs_of_list (map baseline_host_identity (bm_keys previous)) in
  Z.of_nat (length (List.filter (λ h, negb (bs_contains h previous_network_hosts))
                      (map baseline_host_identity (bm_keys current)))).

(** Five points for each kind of thing not seen before. *)
Definition modifier (tools paths hosts : Z) : R Z :=
  let? t := ok_or (checked_mul tools 5) Overflow in
  let? p := ok_or (checked_mul paths 5) Overflow in
  let? tp := add t p in
  let? h := ok_or (checked_mul hosts 5) Overflow in
  add tp h.

Definition assess_baseline_deviation (previous : option BaselineSummary) (current : BaselineSummary)
    (config : BaselineDeviationConfig) : R (option Deviation) :=
  if negb (bd_enabled config) || negb (is_some (bk_model (bs_key current)))
     || negb (is_some (bk_provider (bs_key current))) then Ok None
  else
    match previous with
    | None => Ok None
    | Some previous =>
        if bt_tool_calls (bs_observations previous) <? bd_min_previous_tool_calls config then Ok None
        else
          let new_tool_names := new_keys (bs_tool_call_counts previous) (bs_tool_call_counts current) in
          let new_path_classes := new_keys (bs_path_class_counts previous) (bs_path_class_counts current) in
          let new_network_hosts := new_hosts (bs_network_host_counts previous) (bs_network_host_counts current) in
          let? risk_modifier := modifier new_tool_names new_path_classes new_network_hosts in
          if risk_modifier =? 0 then Ok None
          else Ok (Some {| dv_risk_modifier := risk_modifier; dv_new_tool_names := new_tool_names;
                           dv_new_path_classes := new_path_classes; dv_new_network_hosts := new_network_hosts |})
    end.

End hosts.

(** ** The summary of a session *)

Inductive AttestedValue := Missing | Known (value : text) | Ambiguous.

Definition known (v : AttestedValue) : option text := match v with Known value => Some value | _ => None end.

Record SessionMetadata := { sm_agent : AttestedValue; sm_model : AttestedValue; sm_provider : AttestedValue }.

Record NativeRecordCounts := {
  nc_user_message : Z;
  nc_assistant_message : Z;
  nc_tool_call : Z;
  nc_tool_result : Z;
  nc_session_meta : Z;
  nc_other : Z;
}.

(** What the acquisition of a session counted. *)
Record SessionAccounting := {
  sx_metadata : SessionMetadata;
  sx_record_counts : NativeRecordCounts;
  sx_tool_calls : list (text * Z);
  sx_path_classes : list (PathClass * Z);
  sx_network_hosts : list (text * Z);
}.

Definition blank_to_none (value : text) : option text :=
  let trimmed := trim value in if is_empty_list trimmed then None else Some trimmed.

Definition is_ambiguous (v : AttestedValue) : bool := match v with Ambiguous => true | _ => false end.

Definition summary `{EventServices} (client : ClientId) (session : SessionAccounting) : R (option BaselineSummary) :=
  let metadata := sx_metadata session in
  if is_ambiguous (sm_agent metadata) || is_ambiguous (sm_model metadata) || is_ambiguous (sm_provider metadata)
  then Ok None
  else
    let counts := sx_record_counts session in
    let? records := try_fold add 0 [nc_user_message counts; nc_assistant_message counts; nc_tool_call counts;
                                    nc_tool_result counts; nc_session_meta counts; nc_other counts] in
    let? network_host_counts :=
      try_fold (λ counts hc, add_count counts (baseline_host_identity hc.1, hc.2)) [] (sx_network_hosts session) in
    Ok (Some
      {| bs_key := {| bk_client := ClientId_as_str client; bk_agent := known (sm_agent metadata) ≫= blank_to_none;
                      bk_model := known (sm_model metadata) ≫= blank_to_none;
                      bk_provider := known (sm_provider metadata) ≫= blank_to_none |};
         bs_observations :=
           {| bt_records := records; bt_user_messages := nc_user_message counts;
              bt_assistant_messages := nc_assistant_message counts; bt_tool_calls := nc_tool_call counts;
              bt_tool_results := nc_tool_result counts; bt_session_meta := nc_session_meta counts;
              bt_other := nc_other counts |};
         bs_tool_call_counts := sx_tool_calls session; bs_path_class_counts := sx_path_classes session;
         bs_network_host_counts := network_host_counts |}).

(** ** Snapshots *)

Definition BASELINE_STATE_VERSION : Z := 3.

Record BaselineSnapshotStore := {
  st_schema_version : Z;
  st_snapshots : list (text * BaselineSummary);
}.

Definition BaselineSnapshotStore_default : BaselineSnapshotStore :=
  {| st_schema_version := BASELINE_STATE_VERSION; st_snapshots := [] |}.

Definition baseline_snapshot_id (key : BaselineKey) : text :=
  join_text [31%N] [bk_client key; default [] (bk_agent key); default [] (bk_model key); default [] (bk_provider key)].

(** ** Counts add up *)

Lemma ok_or_Ok {A E} (o : option A) (e : E) x : ok_or o e = Ok x → o = Some x.
Proof. destruct o; cbn; [by intros [= ->]|done]. Qed.

Definition count {K} `{Ord K} (k : K) (m : list (K * Z)) : Z := default 0 (bm_get k m).

Section counts.
Context {K : Type} `{OrdLaws K}.

Lemma add_Ok a b c : add a b = Ok c ↔ c = a + b ∧ a + b ≤ u64_max.
Proof.
  unfold add. destruct (checked_add a b) as [x|] eqn:Ha; cbn.
  - apply checked_add_Some in Ha as [-> ?]. naive_solver.
  - apply checked_add_None in Ha. split; [done|]. intros [_ ?]. lia.
Qed.

(** What an entry adds to a key. *)
Definition entry_count (k : K) (kv : K * Z) : Z := match cmp k kv.1 with Eq => kv.2 | _ => 0 end.

Definition entries_count (k : K) (l : list (K * Z)) : Z := foldr (λ kv n, entry_count k kv + n) 0 l.

Lemma add_count_Ok (m m' : list (K * Z)) kv : bm_wf m → add_count m kv = Ok m' →
  bm_wf m' ∧ (∀ k, count k m' = count k m + entry_count k kv) ∧ ∀ k, k ∈ bm_keys m' ↔ k ∈ bm_keys m ∨ k = kv.1.
Proof.
  intros Hm. unfold add_count. destruct (add _ _) as [v|] eqn:Ha; [|done]. intros [= <-]. apply add_Ok in Ha as [-> _].
  split_and!; [by apply bm_insert_wf| |].
  - intros k. unfold count, entry_count. rewrite bm_get_insert, (cmp_antisym kv.1 k).
    destruct (cmp kv.1 k) eqn:Hc; cbn [CompOpp]; [apply cmp_eq in Hc as <-|lia..]. cbn. lia.
  - intros k. unfold bm_keys. rewrite bm_insert_keys. tauto.
Qed.

Lemma add_counts_Ok (l m m' : list (K * Z)) : bm_wf m → try_fold add_count m l = Ok m' →
  bm_wf m' ∧ (∀ k, count k m' = count k m + entries_count k l) ∧ ∀ k, k ∈ bm_keys m' ↔ k ∈ bm_keys m ∨ k ∈ l.*1.
Proof.
  revert m. induction l as [|kv l IH]; intros m Hm; cbn [try_fold entries_count foldr fmap list_fmap].
  - intros [= <-]. split_and!; [done|intros; lia|]. intros k. rewrite elem_of_nil. tauto.
  - destruct (add_count m kv) as [m1|] eqn:Ha; [|done]. intros Hf. apply add_count_Ok in Ha as (Hw & Hc & Hk); [|done].
    apply IH in Hf as (Hw' & Hc' & Hk'); [|done]. split_and!; [done| |].
    + intros k. rewrite Hc', Hc. unfold entries_count. lia.
    + intros k. rewrite Hk', Hk, elem_of_cons. tauto.
Qed.

Lemma entries_count_wf k (m : list (K * Z)) : bm_wf m → entries_count k m = count k m.
Proof.
  unfold bm_wf, count, entries_count. induction m as [|[k' v] m IH]; cbn [foldr bm_get fmap list_fmap fst]; [done|].
  intros [Hm Hk]%StronglySorted_inv. specialize (IH Hm). unfold entry_count at 1. cbn [fst snd].
  rewrite IH. destruct (cmp k k') eqn:Hc; [|lia..]. apply cmp_eq in Hc as <-.
  replace (bm_get k m) with (@None Z); [cbn; lia|]. symmetry. apply bm_get_None. intros Hin.
  rewrite Forall_forall in Hk. by apply (lt_irrefl k), Hk.
Qed.

Lemma merge_counts_Ok (t s m : list (K * Z)) : bm_wf t → bm_wf s → merge_counts t s = Ok m →
  bm_wf m ∧ (∀ k, count k m = count k t + count k s) ∧ ∀ k, k ∈ bm_keys m ↔ k ∈ bm_keys t ∨ k ∈ bm_keys s.
Proof.
  intros Ht Hs Hm. apply add_counts_Ok in Hm as (Hw & Hc & Hk); [|done]. split_and!; [done| |done].
  intros k. by rewrite Hc, entries_count_wf.
Qed.

End counts.

Definition summary_wf (s : BaselineSummary) : Prop :=
  bm_wf (bs_tool_call_counts s) ∧ bm_wf (bs_path_class_counts s) ∧ bm_wf (bs_network_host_counts s).

(** ** Measures of a summary

    What merging adds: the totals and the count of any tool, class of path or host. *)
Inductive measure :=
| Records | UserMessages | AssistantMessages | ToolCalls | ToolResults | SessionMeta | OtherRecords
| Tool (name : text) | Path (class : PathClass) | Host (host : text).

Definition measured (x : measure) (s : BaselineSummary) : Z :=
  let o := bs_observations s in
  match x with
  | Records => bt_records o | UserMessages => bt_user_messages o | AssistantMessages => bt_assistant_messages o
  | ToolCalls => bt_tool_calls o | ToolResults => bt_tool_results o | SessionMeta => bt_session_meta o
  | OtherRecords => bt_other o
  | Tool name => count name (bs_tool_call_counts s)
  | Path class => count class (bs_path_class_counts s)
  | Host host => count host (bs_network_host_counts s)
  end.

(** Follows the steps of a merge that succeeded. *)
Ltac steps H :=
  repeat match type of H with
  | match ?c with Ok _ => _ | Err _ => _ end = Ok _ =>
      let E := fresh "Hstep" in destruct c eqn:E; [|discriminate H]
  end.

Lemma merge_measured s o m : summary_wf s → summary_wf o → checked_merge_from s o = Ok m →
  summary_wf m ∧ bs_key m = bs_key s ∧ ∀ x, measured x m = measured x s + measured x o.
Proof.
  intros (Ht & Hp & Hh) (Ht' & Hp' & Hh') Hm. unfold checked_merge_from in Hm. steps Hm. injection Hm as <-.
  unfold totals_merge_from in Hstep. steps Hstep. injection Hstep as <-.
  repeat match goal with H : add _ _ = Ok _ |- _ => apply add_Ok in H as [-> _] end.
  repeat match goal with H : merge_counts _ _ = Ok _ |- _ => apply merge_counts_Ok in H as (? & ? & _); [|done..] end.
  split; [done|]. split; [done|]. intros []; cbn [measured bs_observations bs_tool_call_counts bs_path_class_counts bs_network_host_counts]; auto.
Qed.

(** ** Novelty *)

Section novelty.
Context `{EventServices}.

Lemma no_new_keys {K} `{OrdLaws K} (previous current : list (K * Z)) :
  (∀ k, k ∈ bm_keys current → k ∈ bm_keys previous) → new_keys previous current = 0.
Proof.
  intros Hk. unfold new_keys. assert (List.filter (λ k, negb (bm_contains_key k previous)) (bm_keys current) = []) as ->; [|done].
  apply elem_of_nil_inv. intros k Hin%list_elem_of_In. apply filter_In in Hin as [Hin%list_elem_of_In Hn].
  apply negb_true_iff in Hn. apply Hk in Hin. unfold bm_contains_key in Hn.
  destruct (bm_get k previous) eqn:Hg; [done|]. by apply bm_get_None in Hg.
Qed.

Lemma no_new_hosts (previous current : list (text * Z)) :
  (∀ h, h ∈ bm_keys current → h ∈ bm_keys previous) → new_hosts previous current = 0.
Proof.
  intros Hk. unfold new_hosts. set (f := List.filter _ _). assert (f = []) as ->; [|done].
  apply elem_of_nil_inv. intros k Hin%list_elem_of_In. apply filter_In in Hin as [Hin Hn].
  apply in_map_iff in Hin as (h & <- & Hh). apply negb_true_iff in Hn.
  assert (bs_contains (baseline_host_identity h) (bs_of_list (map baseline_host_identity (bm_keys previous))) = true); [|congruence].
  apply bs_contains_spec, bs_of_list_elem, list_elem_of_In, in_map, list_elem_of_In, Hk, list_elem_of_In, Hh.
Qed.

Lemma modifier_value a b c n : modifier a b c = Ok n → n = 5 * (a + b + c).
Proof.
  unfold modifier, add. intros Hm. steps Hm.
  repeat match goal with H : ok_or (checked_mul _ _) _ = Ok _ |- _ =>
    apply ok_or_Ok, checked_mul_Some in H as [-> _] end.
  repeat match goal with H : ok_or (checked_add _ _) _ = Ok _ |- _ => apply ok_or_Ok, checked_add_Some in H as [-> _] end.
  lia.
Qed.

(** C36: A baseline that has learned a session no longer deviates from it.  Merging the summary of a
    session into the baseline keeps the key of the baseline and adds every total and every count of
    a tool, of a class of paths and of a host exactly; and the merged baseline assesses no
    deviation for that session, under any configuration. *)
Theorem learned_baseline_quiet (previous current merged : BaselineSummary) (config : BaselineDeviationConfig) :
  summary_wf previous → summary_wf current → checked_merge_from previous current = Ok merged →
  bs_key merged = bs_key previous ∧ (∀ x, measured x merged = measured x previous + measured x current) ∧
  assess_baseline_deviation (Some merged) current config = Ok None.
Proof.
  intros Hp Hc Hm. destruct (merge_measured _ _ _ Hp Hc Hm) as (_ & Hk & Hx). split_and!; [done..|].
  unfold checked_merge_from in Hm. steps Hm. injection Hm as <-. destruct Hp as (Hp1 & Hp2 & Hp3), Hc as (Hc1 & Hc2 & Hc3).
  unfold assess_baseline_deviation. cbn [bs_tool_call_counts bs_path_class_counts bs_network_host_counts bs_observations].
  repeat match goal with H : merge_counts _ _ = Ok _ |- _ => apply merge_counts_Ok in H as (_ & _ & ?); [|done..] end.
  rewrite !no_new_keys, no_new_hosts by naive_solver. assert (modifier 0 0 0 = Ok 0) as -> by (vm_compute; reflexivity).
  by repeat case_match.
Qed.

(** The deviation of a session counts what the baseline had not seen: five points for each new tool,
    each new class of paths and each new host, and it is assessed only when it is enabled, the model and
    the provider are known, a baseline exists with enough tool calls, and something is new. *)
Theorem deviation_counts_novelty previous current config d :
  assess_baseline_deviation previous current config = Ok (Some d) →
  bd_enabled config = true ∧ is_Some (bk_model (bs_key current)) ∧ is_Some (bk_provider (bs_key current)) ∧
  ∃ p, previous = Some p ∧ bd_min_previous_tool_calls config ≤ bt_tool_calls (bs_observations p) ∧
    dv_new_tool_names d = new_keys (bs_tool_call_counts p) (bs_tool_call_counts current) ∧
    dv_new_path_classes d = new_keys (bs_path_class_counts p) (bs_path_class_counts current) ∧
    dv_new_network_hosts d = new_hosts (bs_network_host_counts p) (bs_network_host_counts current) ∧
    dv_risk_modifier d = 5 * (dv_new_tool_names d + dv_new_path_classes d + dv_new_network_hosts d) ∧
    0 < dv_risk_modifier d.
Proof.
  unfold assess_baseline_deviation. destruct (bd_enabled config); [|done]. destruct (bk_model _); [|done].
  destruct (bk_provider _); [|done]. cbn [negb orb is_some]. destruct previous as [p|]; [|done].
  destruct (Z.ltb_spec (bt_tool_calls (bs_observations p)) (bd_min_previous_tool_calls config)) as [|Hn]; [done|].
  destruct (modifier _ _ _) as [n|] eqn:Hm; [|done]. apply modifier_value in Hm. destruct (Z.eqb_spec n 0) as [|Hz]; [done|].
  intros [= <-]. split_and!; [done|by eexists|by eexists|]. exists p. cbn [dv_risk_modifier dv_new_tool_names dv_new_path_classes dv_new_network_hosts]. split_and!; [done..|].
  unfold new_keys, new_hosts in *. lia.
Qed.

(** *** Hosts *)

Context `{!EventServicesLaws}.

Lemma host_identity_canonical h : is_canonical_host_hash (baseline_host_identity h) = true.
Proof.
  unfold baseline_host_identity. destruct (is_canonical_host_hash h) eqn:Hh; [done|].
  unfold is_canonical_host_hash. rewrite strip_app. apply evidence_hash_hex.
Qed.

Lemma host_identity_idem h : baseline_host_identity (baseline_host_identity h) = baseline_host_identity h.
Proof. unfold baseline_host_identity at 1. by rewrite host_identity_canonical. Qed.

End novelty.

Module BaselineSample.
Import Reference BuildSample.

Definition totals (calls : Z) : BaselineObservationTotals :=
  {| bt_records := calls; bt_user_messages := 0; bt_assistant_messages := 0; bt_tool_calls := calls;
     bt_tool_results := 0; bt_session_meta := 0; bt_other := 0 |}.
Definition sample (calls : Z) (tools : list (text * Z)) : BaselineSummary :=
  {| bs_key := {| bk_client := lit "codex"; bk_agent := None; bk_model := Some (lit "m"); bk_provider := Some (lit "p") |};
     bs_observations := totals calls; bs_tool_call_counts := tools; bs_path_class_counts := [];
     bs_network_host_counts := [(lit "example.org", 2)] |}.
Definition before := sample 9 [(lit "Bash", 9)].
Definition session := sample 3 [(lit "Bash", 1); (lit "Read", 2)].
Definition enabled : BaselineDeviationConfig := {| bd_enabled := true; bd_min_previous_tool_calls := 5 |}.

Lemma sample_wf calls tools : bm_wf tools → summary_wf (sample calls tools).
Proof. intros Ht. split_and!; [done|constructor|repeat constructor]. Qed.

Lemma learned_baseline_quiet_witness : ∃ m, checked_merge_from before session = Ok m ∧
  assess_baseline_deviation (Some m) session enabled = Ok None.
Proof.
  assert (is_ok (checked_merge_from before session) = true) as Hm by (vm_compute; reflexivity).
  destruct (checked_merge_from before session) as [m|] eqn:He; [|done]. exists m. split; [done|].
  refine (proj2 (proj2 (learned_baseline_quiet before session m enabled _ _ He))); apply sample_wf; repeat constructor.
Defined.

Lemma deviation_counts_novelty_witness : ∃ d, assess_baseline_deviation (Some before) session enabled = Ok (Some d) ∧
  0 < dv_risk_modifier d.
Proof.
  assert (match assess_baseline_deviation (Some before) session enabled with Ok (Some _) => True | _ => False end) as Hd
    by (vm_compute; exact I).
  destruct (assess_baseline_deviation (Some before) session enabled) as [[d|]|] eqn:He; [|done..]. exists d. split; [done|].
  destruct (deviation_counts_novelty _ _ _ _ He) as (_ & _ & _ & p & _ & _ & _ & _ & _ & _ & Hpos). exact Hpos.
Defined.

End BaselineSample.
