(* ===== verification/ScanState.v ===== *)
(** * The state of the scanner

    src/state.rs and the parts of src/cli/scan.rs that use it: which events a scan reports
    and which it has reported before, the latches of the operational alerts, the time of the
    last heartbeat, the baselines each source contributed, the sources seen last and the
    cursors of their databases.  The file of the state is in StateFile.v. *)

From S2P Require Import Prelude Ordered Rstr Scoring JournalNames Unicode Regex RedactPatterns Redaction EventIdentifiers EventEmit EventPrivacy EventHistory EventBuild EventBuildSafe Baseline.
From Stdlib Require Import Ascii.

Local Open Scope Z_scope.

(** ** Digests

    [sha256_hex] is SHA-256 in lower-case hexadecimal, of the sha2 and hex crates. *)

Class StateServices : Type := {
  sha256_hex : list N → text;
}.

Definition digest_text `{StateServices} (t : text) : text := sha256_hex (utf8_encode t).

(** [to_le_bytes] of an integer of that many bytes. *)
Fixpoint to_le_bytes (width : nat) (z : Z) : list N :=
  match width with
  | O => []
  | S width => Z.to_N (z mod 256) :: to_le_bytes width (z / 256)
  end.

(** ** Data *)

Record SourceObservation := {
  ob_client : text;
  ob_source_id : text;
  ob_source_instance_id : text;
  ob_last_seen_unix_ms : Z;
}.

Record SqliteIngestionCursor := {
  cu_client : text;
  cu_source_id : text;
  cu_source_instance_id : text;
  cu_table : text;
  cu_last_time_updated : Z;
  cu_observed_at_unix_ms : Z;
  cu_draining : bool;
  cu_continue_after_time_updated : option Z;
}.

Record BaselineSourceContribution := {
  co_client : text;
  co_source_id : text;
  co_source_instance_id : text;
  co_source_fingerprint : text;
  co_snapshots : list (text * BaselineSummary);
}.

(** What crates/telltale-sources/src/install_inventory.rs observed of the installed agents. *)
Inductive InstallConfidence := Confirmed | Partial | Absent.

Record InstallSignal := {
  is_kind : text;
  is_name : text;
  is_present : bool;
  is_path_hash : option text;
}.

Record AgentInstallObservation := {
  ai_agent : text;
  ai_installed : bool;
  ai_confidence : InstallConfidence;
  ai_signals : list InstallSignal;
}.

Record InstallInventorySnapshot := {
  ii_observed_at_unix_ms : Z;
  ii_hash : text;
  ii_agents : list AgentInstallObservation;
}.

Record ScanState := {
  ss_seen_source_fingerprints : list text;
  ss_seen_detection_fingerprints : list text;
  ss_baseline_snapshots : BaselineSnapshotStore;
  ss_baseline_source_contributions : list (text * BaselineSourceContribution);
  ss_source_observations : list (text * SourceObservation);
  ss_sqlite_ingestion_cursors : list (text * SqliteIngestionCursor);
  ss_install_inventory : option InstallInventorySnapshot;
}.

Definition ScanState_default : ScanState :=
  {| ss_seen_source_fingerprints := []; ss_seen_detection_fingerprints := [];
     ss_baseline_snapshots := BaselineSnapshotStore_default; ss_baseline_source_contributions := [];
     ss_source_observations := []; ss_sqlite_ingestion_cursors := []; ss_install_inventory := None |}.

(** ** Fields *)

Section fields.
Context `{StateServices}.

Definition set_seen (sources detections : list text) (s : ScanState) : ScanState :=
  {| ss_seen_source_fingerprints := sources; ss_seen_detection_fingerprints := detections;
     ss_baseline_snapshots := ss_baseline_snapshots s;
     ss_baseline_source_contributions := ss_baseline_source_contributions s;
     ss_source_observations := ss_source_observations s;
     ss_sqlite_ingestion_cursors := ss_sqlite_ingestion_cursors s; ss_install_inventory := ss_install_inventory s |}.

Definition set_baselines (store : BaselineSnapshotStore) (contributions : list (text * BaselineSourceContribution))
    (s : ScanState) : ScanState :=
  {| ss_seen_source_fingerprints := ss_seen_source_fingerprints s;
     ss_seen_detection_fingerprints := ss_seen_detection_fingerprints s;
     ss_baseline_snapshots := store; ss_baseline_source_contributions := contributions;
     ss_source_observations := ss_source_observations s;
     ss_sqlite_ingestion_cursors := ss_sqlite_ingestion_cursors s; ss_install_inventory := ss_install_inventory s |}.

Definition set_observations (observations : list (text * SourceObservation)) (s : ScanState) : ScanState :=
  {| ss_seen_source_fingerprints := ss_seen_source_fingerprints s;
     ss_seen_detection_fingerprints := ss_seen_detection_fingerprints s;
     ss_baseline_snapshots := ss_baseline_snapshots s;
     ss_baseline_source_contributions := ss_baseline_source_contributions s;
     ss_source_observations := observations;
     ss_sqlite_ingestion_cursors := ss_sqlite_ingestion_cursors s; ss_install_inventory := ss_install_inventory s |}.

Definition set_cursors (cursors : list (text * SqliteIngestionCursor)) (s : ScanState) : ScanState :=
  {| ss_seen_source_fingerprints := ss_seen_source_fingerprints s;
     ss_seen_detection_fingerprints := ss_seen_detection_fingerprints s;
     ss_baseline_snapshots := ss_baseline_snapshots s;
     ss_baseline_source_contributions := ss_baseline_source_contributions s;
     ss_source_observations := ss_source_observations s;
     ss_sqlite_ingestion_cursors := cursors; ss_install_inventory := ss_install_inventory s |}.

(** The insertion of one fingerprint of each kind. *)
Definition saw (source_fingerprint fingerprint : text) (s : ScanState) : ScanState :=
  set_seen (bs_insert source_fingerprint (ss_seen_source_fingerprints s))
           (bs_insert fingerprint (ss_seen_detection_fingerprints s)) s.

Definition seen (fingerprint : text) (s : ScanState) : bool := bs_contains fingerprint (ss_seen_detection_fingerprints s).

(** ** Keys *)

Definition source_instance_id (source : Source) : text := digest_text (so_path source).

Definition unit_separator : text := [31%N].

Definition source_observation_key (source : Source) : text :=
  ClientId_as_str (so_client source) ++ unit_separator ++ so_source_id source ++ unit_separator
  ++ source_instance_id source.

Definition sqlite_ingestion_cursor_key_for_instance (client source_id source_instance_id table : text) : text :=
  client ++ unit_separator ++ source_id ++ unit_separator ++ source_instance_id ++ unit_separator ++ table.

Definition sqlite_ingestion_cursor_key (source : Source) (table : text) : text :=
  sqlite_ingestion_cursor_key_for_instance (ClientId_as_str (so_client source)) (so_source_id source)
    (source_instance_id source) table.

(** ** The fingerprint of a source

    What the file system answers is an argument: for a database its size and the time of its last
    change, and otherwise the size of the open file, if it is a regular one, and the results of the
    reads that follow; after them the file is at its end. *)

Inductive read_result := ReadBytes (bytes : list N) | ReadInterrupted | ReadFailed.

Record FileProbe := {
  fp_metadata : option (Z * option (Z * Z));
  fp_regular : option Z;
  fp_reads : list read_result;
}.

Definition FINGERPRINT_LIMIT : Z := 128 * 1024 * 1024.

(** What the loop adds to the hash; nothing when it breaks off. *)
Fixpoint read_loop (total : Z) (candidate : list N) (reads : list read_result) : list N :=
  match reads with
  | [] => candidate
  | ReadBytes [] :: _ => candidate
  | ReadBytes bytes :: reads =>
      let total := total + Z.of_nat (length bytes) in
      if FINGERPRINT_LIMIT <? total then [] else read_loop total (candidate ++ bytes) reads
  | ReadInterrupted :: reads => read_loop total candidate reads
  | ReadFailed :: _ => []
  end.

Definition source_fingerprint (probe : FileProbe) (source : Source) : text :=
  let path := utf8_encode (so_path source) in
  match so_kind source with
  | Sqlite =>
      match fp_metadata probe with
      | None => sha256_hex path
      | Some (len, modified) =>
          sha256_hex (path ++ to_le_bytes 8 len
            ++ match modified with Some (secs, nanos) => to_le_bytes 8 secs ++ to_le_bytes 4 nanos | None => [] end)
      end
  | _ =>
      match fp_regular probe with
      | Some len => if len <=? FINGERPRINT_LIMIT then sha256_hex (path ++ read_loop 0 [] (fp_reads probe)) else sha256_hex path
      | None => sha256_hex path
      end
  end.

(** ** The fingerprints of events *)

Definition hash_text_option (t : option text) : list N := match t with Some t => utf8_encode t | None => [] end.

Definition hash_source (event : Event) (source_fingerprint : text) : list N :=
  utf8_encode (default source_fingerprint (ev_source_path_hash event)).

Definition hash_score (score : Z) : list N :=
  if score <=? u32_max then to_le_bytes 4 score else utf8_encode (lit "risk_score:u64:") ++ to_le_bytes 8 score.

Definition hash_texts (l : list text) : list N := concat (map utf8_encode l).

Definition hash_event_posture (event : Event) (source_fingerprint : text) : list N :=
  utf8_encode (ev_client event) ++ hash_source event source_fingerprint ++ utf8_encode (ev_session_id event)
  ++ utf8_encode (ev_event_type event) ++ utf8_encode (ev_severity event) ++ hash_score (ev_risk_score event)
  ++ hash_text_option (ev_agent event) ++ hash_text_option (ev_model event) ++ hash_text_option (ev_provider event)
  ++ hash_text_option (ev_tool_name event) ++ hash_texts (ev_rule_ids event) ++ hash_texts (ev_categories event)
  ++ hash_texts (ev_tags event).

Definition hash_evidence_item (evidence : Evidence) : list N :=
  utf8_encode (evd_field evidence) ++ utf8_encode (evd_redacted_value evidence) ++ hash_text_option (evd_hash evidence).

Definition detection_fingerprint (event : Event) (source_fingerprint : text) : text :=
  sha256_hex (hash_event_posture event source_fingerprint ++ concat (map hash_evidence_item (ev_evidence event))).

Definition detection_evidence_reemits (evidence : Evidence) (routine_evidence_rules : list text) : bool :=
  match evd_rule_id evidence with
  | None => true
  | Some rule_id => is_lit "network.download" rule_id || negb (bs_contains rule_id routine_evidence_rules)
  end.

Definition reemitting (routine_evidence_rules : list text) (event : Event) : list Evidence :=
  List.filter (λ evidence, detection_evidence_reemits evidence routine_evidence_rules) (ev_evidence event).

Definition detection_emission_fingerprint (event : Event) (source_fingerprint : text)
    (routine_evidence_rules : list text) : text :=
  sha256_hex (hash_event_posture event source_fingerprint
              ++ concat (map hash_evidence_item (reemitting routine_evidence_rules event))).

Definition hash_values (values : list text) : list N :=
  to_le_bytes 8 (Z.of_nat (length values))
  ++ concat (map (λ value, to_le_bytes 8 (str_len value) ++ utf8_encode value) values).

Definition classification_fingerprint (event : Event) : text :=
  sha256_hex (concat (map hash_values [ev_detection_classes event; ev_signal_types event; ev_analytic_intents event;
                                       ev_atlas_tags event])).

Definition session_risk_summary_fingerprint (event : Event) (source_fingerprint : text) : text :=
  sha256_hex (utf8_encode (lit "telltale:session_risk_summary") ++ [0%N]
    ++ utf8_encode (ev_client event) ++ hash_source event source_fingerprint ++ utf8_encode (ev_session_id event)
    ++ utf8_encode (ev_event_type event) ++ utf8_encode (ev_severity event) ++ hash_score (ev_risk_score event)
    ++ hash_text_option (ev_agent event) ++ hash_text_option (ev_model event) ++ hash_text_option (ev_provider event)
    ++ hash_texts (ev_rule_ids event) ++ hash_texts (ev_categories event) ++ hash_texts (ev_tags event)).

(** ** Reporting an event once *)

(** [range(prefix..).take_while(|key| key.starts_with(prefix))] *)
Fixpoint take_while {A} (p : A → bool) (l : list A) : list A :=
  match l with
  | [] => []
  | x :: l => if p x then x :: take_while p l else []
  end.

Definition before (bound key : text) : bool := match cmp key bound with Lt => true | _ => false end.

Definition keys_with_prefix (prefix : text) (keys : list text) : list text :=
  take_while (starts prefix) (drop_while (before prefix) keys).

Definition posture_prefix (event : Event) (source_fingerprint kind : text) : text :=
  lit "telltale:" ++ kind ++ lit ":" ++ sha256_hex (hash_event_posture event source_fingerprint) ++ lit ":".

Definition classified_prefix (event : Event) (source_fingerprint kind : text) : text :=
  posture_prefix event source_fingerprint kind ++ classification_fingerprint event ++ lit ":".

Definition should_emit_posture (source_fingerprint : text) (event : Event) (kind posture : text) (s : ScanState)
    : ScanState * bool :=
  let prefix := posture_prefix event source_fingerprint kind in
  let classified := classified_prefix event source_fingerprint kind in
  let fingerprint := classified ++ posture in
  if seen fingerprint s then (s, false)
  else
    let classification_changed :=
      existsb (λ key, negb (starts classified key)) (keys_with_prefix prefix (ss_seen_detection_fingerprints s)) in
    let legacy_seen := negb classification_changed && seen (detection_fingerprint event source_fingerprint) s in
    (saw source_fingerprint fingerprint s, negb legacy_seen).

Definition should_emit_session_risk_summary (probe : FileProbe) (source : Source) (event : Event) (s : ScanState)
    : ScanState * bool :=
  let source_fingerprint := source_fingerprint probe source in
  should_emit_posture source_fingerprint event (lit "session_risk_summary")
    (session_risk_summary_fingerprint event source_fingerprint) s.

Definition should_emit (probe : FileProbe) (source : Source) (event : Event) (routine_evidence_rules : list text)
    (s : ScanState) : ScanState * bool :=
  if is_lit "session_risk_summary" (ev_event_type event) then should_emit_session_risk_summary probe source event s
  else
    let source_fingerprint := source_fingerprint probe source in
    if is_lit "detection" (ev_event_type event) then
      should_emit_posture source_fingerprint event (lit "detection_emission")
        (detection_emission_fingerprint event source_fingerprint routine_evidence_rules) s
    else
      let fingerprint := detection_fingerprint event source_fingerprint in
      if seen fingerprint s then (s, false) else (saw source_fingerprint fingerprint s, true).

(** ** Latches *)

Definition source_outage_fingerprint (client : text) : text :=
  digest_text (lit "telltale:source_parse_outage:" ++ client).

Definition scanner_error_threshold_fingerprint : text :=
  digest_text (lit "telltale:scanner_error_threshold_exceeded").

(** [BTreeSet::insert], which says whether the key is new, and [BTreeSet::remove]. *)
Definition latch (fingerprint : text) (s : ScanState) : ScanState * bool :=
  (set_seen (ss_seen_source_fingerprints s) (bs_insert fingerprint (ss_seen_detection_fingerprints s)) s,
   negb (seen fingerprint s)).

Definition unlatch (fingerprint : text) (s : ScanState) : ScanState :=
  set_seen (ss_seen_source_fingerprints s)
    (List.filter (λ key, negb (text_eqb key fingerprint)) (ss_seen_detection_fingerprints s)) s.

Definition enter_source_outage (client : text) : ScanState → ScanState * bool := latch (source_outage_fingerprint client).
Definition clear_source_outage (client : text) : ScanState → ScanState := unlatch (source_outage_fingerprint client).
Definition enter_scanner_error_threshold : ScanState → ScanState * bool := latch scanner_error_threshold_fingerprint.
Definition clear_scanner_error_threshold : ScanState → ScanState := unlatch scanner_error_threshold_fingerprint.

(** ** Heartbeats *)

Definition HEALTH_HEARTBEAT_PREFIX : text := lit "telltale:health_heartbeat_v1@".

(** [str::parse::<u64>] *)
Definition parse_u64 (t : text) : option Z := parse_unsigned u64_max (encode_str t).

Definition max_of (l : list Z) : option Z :=
  foldr (λ z best, Some (match best with Some b => Z.max z b | None => z end)) None l.

Definition last_health_heartbeat_unix_ms (s : ScanState) : option Z :=
  max_of (omap (λ key, strip HEALTH_HEARTBEAT_PREFIX key ≫= parse_u64)
            (keys_with_prefix HEALTH_HEARTBEAT_PREFIX (ss_seen_detection_fingerprints s))).

Definition record_health_heartbeat (unix_ms : Z) (s : ScanState) : ScanState :=
  let kept := List.filter (λ key, negb (starts HEALTH_HEARTBEAT_PREFIX key)) (ss_seen_detection_fingerprints s) in
  set_seen (ss_seen_source_fingerprints s) (bs_insert (HEALTH_HEARTBEAT_PREFIX ++ number unix_ms) kept) s.

(** Milliseconds to wait. *)
Definition health_heartbeat_wait (last_health_unix_ms : option Z) (now_unix_ms interval_seconds : Z) : Z :=
  match last_health_unix_ms with
  | Some last =>
      if last <=? now_unix_ms then saturating_sub (saturating_mul interval_seconds 1000) (now_unix_ms - last) else 0
  | None => 0
  end.

(** ** Baselines *)

Definition reset_legacy_baseline (s : ScanState) : ScanState :=
  if st_schema_version (ss_baseline_snapshots s) =? BASELINE_STATE_VERSION then s
  else set_baselines BaselineSnapshotStore_default [] s.

Definition record_baseline_source_contribution `{EventServices} (source : Source) (source_fingerprint : text)
    (snapshots : list BaselineSummary) (s : ScanState) : result ScanState RiskAccountingError :=
  let? hashed := collect hash_network_hosts_for_state snapshots in
  let snapshots := foldl (λ m summary, bm_insert (baseline_snapshot_id (bs_key summary)) summary m) [] hashed in
  let contribution :=
    {| co_client := ClientId_as_str (so_client source); co_source_id := so_source_id source;
       co_source_instance_id := source_instance_id source; co_source_fingerprint := source_fingerprint;
       co_snapshots := snapshots |} in
  Ok (set_baselines (ss_baseline_snapshots s)
        (bm_insert (source_observation_key source) contribution (ss_baseline_source_contributions s)) s).

Definition stage (staged : list (text * BaselineSummary)) (snapshot : BaselineSummary)
    : result (list (text * BaselineSummary)) RiskAccountingError :=
  let id := baseline_snapshot_id (bs_key snapshot) in
  match bm_get id staged with
  | Some existing => let? merged := checked_merge_from existing snapshot in Ok (bm_insert id merged staged)
  | None => Ok (bm_insert id snapshot staged)
  end.

Definition contributed (contributions : list (text * BaselineSourceContribution)) : list BaselineSummary :=
  concat (map (λ contribution, bm_values (co_snapshots contribution)) (bm_values contributions)).

Definition rebuild_baseline_snapshots_from_source_contributions (s : ScanState)
    : result ScanState RiskAccountingError :=
  let? staged := try_fold stage [] (contributed (ss_baseline_source_contributions s)) in
  Ok (set_baselines {| st_schema_version := BASELINE_STATE_VERSION; st_snapshots := staged |}
        (ss_baseline_source_contributions s) s).

(** ** Sources *)

(** [as u32] *)
Definition as_u32 (n : nat) : Z := Z.of_nat n mod 2 ^ 32.

Definition change_lines (label : string) (keys : list text) : list N :=
  concat (map (λ key, utf8_encode (lit label) ++ utf8_encode key ++ [10%N]) keys).

Definition source_inventory_change_summary (current_sources : list Source) (s : ScanState)
    : SourceInventoryChangeSummary :=
  let previous_keys := bs_of_list (bm_keys (ss_source_observations s)) in
  let current_keys := bs_of_list (map source_observation_key current_sources) in
  let added := List.filter (λ key, negb (bs_contains key previous_keys)) current_keys in
  let removed := List.filter (λ key, negb (bs_contains key current_keys)) previous_keys in
  let unchanged := List.filter (λ key, bs_contains key previous_keys) current_keys in
  {| sic_baseline := is_empty_list previous_keys; sic_added := as_u32 (length added);
     sic_removed := as_u32 (length removed); sic_unchanged := as_u32 (length unchanged);
     sic_hash := sha256_hex (change_lines "added:" added ++ change_lines "removed:" removed) |}.

Definition observe_sources (sources : list Source) (observed_at_unix_ms : Z) (s : ScanState) : ScanState :=
  set_observations
    (foldl (λ observations source,
              bm_insert (source_observation_key source)
                {| ob_client := ClientId_as_str (so_client source); ob_source_id := so_source_id source;
                   ob_source_instance_id := source_instance_id source;
                   ob_last_seen_unix_ms := observed_at_unix_ms |} observations)
           (ss_source_observations s) sources) s.

Definition replace_source_observations (sources : list Source) (observed_at_unix_ms : Z) (s : ScanState) : ScanState :=
  observe_sources sources observed_at_unix_ms (set_observations [] s).

(** ** Cursors *)

Definition sqlite_ingestion_cursor_time_updated (source : Source) (table : text) (s : ScanState) : option Z :=
  cu_last_time_updated <$> bm_get (sqlite_ingestion_cursor_key source table) (ss_sqlite_ingestion_cursors s).

Definition sqlite_ingestion_continue_after (source : Source) (table : text) (s : ScanState) : option Z :=
  bm_get (sqlite_ingestion_cursor_key source table) (ss_sqlite_ingestion_cursors s) ≫= cu_continue_after_time_updated.

Definition insert_sqlite_ingestion_cursor (source : Source) (table : text) (last_time_updated observed_at_unix_ms : Z)
    (continue_after_time_updated : option Z) (s : ScanState) : ScanState :=
  set_cursors
    (bm_insert (sqlite_ingestion_cursor_key source table)
       {| cu_client := ClientId_as_str (so_client source); cu_source_id := so_source_id source;
          cu_source_instance_id := source_instance_id source; cu_table := table;
          cu_last_time_updated := last_time_updated; cu_observed_at_unix_ms := observed_at_unix_ms;
          cu_draining := is_some continue_after_time_updated;
          cu_continue_after_time_updated := continue_after_time_updated |} (ss_sqlite_ingestion_cursors s)) s.

Definition checkpoint (source : Source) (table : text) (last_time_updated : Z) (s : ScanState) : Z :=
  match bm_get (sqlite_ingestion_cursor_key source table) (ss_sqlite_ingestion_cursors s) with
  | None => last_time_updated
  | Some prior => Z.max last_time_updated (cu_last_time_updated prior)
  end.

Definition observe_sqlite_ingestion_cursor (source : Source) (table : text)
    (last_time_updated observed_at_unix_ms : Z) (s : ScanState) : ScanState :=
  insert_sqlite_ingestion_cursor source table (checkpoint source table last_time_updated s) observed_at_unix_ms None s.

Definition observe_sqlite_ingestion_drain (source : Source) (table : text)
    (last_time_updated observed_at_unix_ms : Z) (s : ScanState) : ScanState :=
  insert_sqlite_ingestion_cursor source table (checkpoint source table last_time_updated s) observed_at_unix_ms
    (Some last_time_updated) s.

(** ** The inventory of agents *)

Definition install_inventory_due (previous : option InstallInventorySnapshot)
    (observed_at_unix_ms interval_seconds : Z) : bool :=
  if interval_seconds =? 0 then true
  else
    match previous with
    | None => true
    | Some previous =>
        saturating_mul interval_seconds 1000
        <=? saturating_sub observed_at_unix_ms (ii_observed_at_unix_ms previous)
    end.

End fields.

(** ** What a scan does with the state *)

Section scan.
Context `{StateServices}.

Record SelectedSourceEvents := {
  se_events : list Event;
  se_emitted_detection_count : Z;
  se_deduplicated_detection_count : Z;
  se_scanner_error_emitted : bool;
}.

(** An event with its source, and what reading the source answers when its turn comes. *)
Definition SourceEvent : Type := Source * FileProbe * Event.

Definition select_activity (backfill : bool) (routine_evidence_rules : list text)
    (acc : ScanState * SelectedSourceEvents) (item : SourceEvent) : ScanState * SelectedSourceEvents :=
  let '(s, selected) := acc in
  let '(source, probe, activity) := item in
  let '(s, emit) := if backfill then (s, true) else should_emit probe source activity routine_evidence_rules s in
  (s, if emit then {| se_events := se_events selected ++ [activity];
                      se_emitted_detection_count := se_emitted_detection_count selected;
                      se_deduplicated_detection_count := se_deduplicated_detection_count selected;
                      se_scanner_error_emitted := se_scanner_error_emitted selected |} else selected).

Definition select_detection (backfill : bool) (routine_evidence_rules : list text)
    (acc : ScanState * SelectedSourceEvents) (item : SourceEvent) : ScanState * SelectedSourceEvents :=
  let '(s, selected) := acc in
  let '(source, probe, detection) := item in
  let is_detection := is_lit "detection" (ev_event_type detection) in
  let '(s, emit) := if backfill then (s, true) else should_emit probe source detection routine_evidence_rules s in
  (s, {| se_events := if emit then se_events selected ++ [detection] else se_events selected;
         se_emitted_detection_count :=
           if is_detection && emit then se_emitted_detection_count selected + 1
           else se_emitted_detection_count selected;
         se_deduplicated_detection_count :=
           if is_detection && negb emit then se_deduplicated_detection_count selected + 1
           else se_deduplicated_detection_count selected;
         se_scanner_error_emitted :=
           if emit then se_scanner_error_emitted selected || is_lit "scanner_error" (ev_event_type detection)
           else se_scanner_error_emitted selected |}).

Definition select_summary (backfill : bool) (acc : ScanState * SelectedSourceEvents) (item : SourceEvent)
    : ScanState * SelectedSourceEvents :=
  let '(s, selected) := acc in
  let '(source, probe, summary) := item in
  let '(s, emit) := if backfill then (s, true) else should_emit_session_risk_summary probe source summary s in
  (s, if emit then {| se_events := se_events selected ++ [summary];
                      se_emitted_detection_count := se_emitted_detection_count selected;
                      se_deduplicated_detection_count := se_deduplicated_detection_count selected;
                      se_scanner_error_emitted := se_scanner_error_emitted selected |} else selected).

Definition nothing_selected : SelectedSourceEvents :=
  {| se_events := []; se_emitted_detection_count := 0; se_deduplicated_detection_count := 0;
     se_scanner_error_emitted := false |}.

Definition select_source_events (backfill : bool) (activities detections session_risk_summaries : list SourceEvent)
    (routine_evidence_rules : list text) (s : ScanState) : ScanState * SelectedSourceEvents :=
  foldl (select_summary backfill)
    (foldl (select_detection backfill routine_evidence_rules)
       (foldl (select_activity backfill routine_evidence_rules) (s, nothing_selected) activities) detections)
    session_risk_summaries.

Definition scanner_error_threshold_should_alert (scanner_error_count max_scanner_errors : Z)
    (targeted persist_latch : bool) (s : ScanState) : ScanState * bool :=
  if targeted then (s, false)
  else
    let above := max_scanner_errors <? scanner_error_count in
    if negb persist_latch then (s, above)
    else if above then enter_scanner_error_threshold s
    else (clear_scanner_error_threshold s, false).

Record OperationalAlertConfig := { oc_max_scanner_errors : Z; oc_max_scan_duration_ms : Z }.

Definition error_threshold_input (config : OperationalAlertConfig) (scanner_error_count scan_duration_ms : Z)
    : OperationalAlertInput :=
  {| oa_alert_type := lit "scanner_error_threshold_exceeded";
     oa_threshold := lit "max_scanner_errors=" ++ number (oc_max_scanner_errors config);
     oa_actual_value := lit "scanner_error_count=" ++ number scanner_error_count;
     oa_scan_duration_ms := Some scan_duration_ms; oa_scanner_error_count := Some (scanner_error_count mod 2 ^ 32) |}.

Definition duration_threshold_input (config : OperationalAlertConfig) (scanner_error_count scan_duration_ms : Z)
    : OperationalAlertInput :=
  {| oa_alert_type := lit "scan_duration_threshold_exceeded";
     oa_threshold := lit "max_scan_duration_ms=" ++ number (oc_max_scan_duration_ms config);
     oa_actual_value := lit "scan_duration_ms=" ++ number scan_duration_ms;
     oa_scan_duration_ms := Some scan_duration_ms; oa_scanner_error_count := Some (scanner_error_count mod 2 ^ 32) |}.

Definition scanner_health_alerts (config : OperationalAlertConfig) (scanner_error_count scan_duration_ms : Z)
    (emit_scanner_error_threshold : bool) : list OperationalAlertInput :=
  (if emit_scanner_error_threshold && (oc_max_scanner_errors config <? scanner_error_count)
   then [error_threshold_input config scanner_error_count scan_duration_ms] else [])
  ++ (if oc_max_scan_duration_ms config <? scan_duration_ms
      then [duration_threshold_input config scanner_error_count scan_duration_ms] else []).

Definition count_outcome (per_client : list (text * (ClientId * Z * bool))) (result : ClientId * bool)
    : list (text * (ClientId * Z * bool)) :=
  let '(client, failed) := result in
  bm_update (ClientId_as_str client) (client, 0, true)
    (λ '(client, selected, all_failed), (client, selected + 1, all_failed && failed)) per_client.

Definition client_parse_outcomes (results : list (ClientId * bool)) : list (ClientId * Z * bool) :=
  bm_values (foldl count_outcome [] results).

Definition source_parse_outage_input (client : ClientId) (selected : Z) : OperationalAlertInput :=
  {| oa_alert_type := lit "source_parse_outage"; oa_threshold := lit "min_processed_sources_per_client=1";
     oa_actual_value := lit "client=" ++ ClientId_as_str client ++ lit "; selected_sources=" ++ number selected
                        ++ lit "; processed_sources=0";
     oa_scan_duration_ms := None; oa_scanner_error_count := None |}.

Definition outage_step (backfill : bool) (acc : ScanState * list OperationalAlertInput)
    (outcome : ClientId * Z * bool) : ScanState * list OperationalAlertInput :=
  let '(s, alerts) := acc in
  let '(client, selected_sources, all_failed) := outcome in
  if negb all_failed then (clear_source_outage (ClientId_as_str client) s, alerts)
  else
    let '(s, new) := enter_source_outage (ClientId_as_str client) s in
    (s, if new || backfill then alerts ++ [source_parse_outage_input client selected_sources] else alerts).

Definition outage_alerts (backfill : bool) (outcomes : list (ClientId * Z * bool)) (s : ScanState)
    : ScanState * list OperationalAlertInput :=
  foldl (outage_step backfill) (s, []) outcomes.

End scan.

(** ** Prefixes in a sorted set *)

Lemma starts_spec p t : starts p t = true ↔ ∃ r, t = p ++ r.
Proof.
  unfold starts. split.
  - destruct (strip p t) as [r|] eqn:Hs; [|done]. intros _. exists r. by apply strip_spec.
  - intros [r ->]. by rewrite strip_app.
Qed.

Lemma starts_prefix p t : starts p (p ++ t) = true.
Proof. apply starts_spec. by eexists. Qed.

Lemma starts_below p q t : starts (p ++ q) t = true → starts p t = true.
Proof. rewrite !starts_spec. intros [r ->]. exists (q ++ r). by rewrite app_assoc. Qed.

Lemma prefix_not_before p z : starts p z = true → before p z = false.
Proof.
  intros [r ->]%starts_spec. unfold before. assert (cmp (p ++ r) p ≠ Lt); [|by destruct (cmp (p ++ r) p)].
  induction p as [|a p IH]; [by destruct r|]. change (then_with (cmp a a) (cmp (p ++ r) p) ≠ Lt).
  rewrite cmp_refl. exact IH.
Qed.

(** A text between a prefix and one of its extensions has the prefix. *)
Lemma between_prefix p x z : starts p z = true → before p x = false → cmp x z = Lt → starts p x = true.
Proof.
  unfold starts, before. revert x z. induction p as [|a p IH]; intros x z; [done|].
  destruct z as [|c z]; [done|]. destruct x as [|b x]; [done|]. cbn [strip].
  change (cmp (b :: x) (a :: p)) with (then_with (cmp b a) (cmp x p)).
  change (cmp (b :: x) (c :: z)) with (then_with (cmp b c) (cmp x z)).
  destruct (N.eqb_spec a c) as [<-|]; [|done]. intros Hz Hb Hx.
  destruct (cmp b a) eqn:Hc; cbn [then_with] in *; [|done..]. apply cmp_eq in Hc as ->. rewrite N.eqb_refl.
  by apply (IH x z).
Qed.

(** Scanning the range of a prefix finds the keys that have it. *)
Lemma keys_with_prefix_filter p keys : bs_wf keys → keys_with_prefix p keys = List.filter (starts p) keys.
Proof.
  unfold keys_with_prefix, bs_wf. induction 1 as [|x keys Hs IH Hx]; [done|]. cbn [drop_while List.filter].
  destruct (before p x) eqn:Hb.
  - destruct (starts p x) eqn:Hp; [|exact IH]. by rewrite (prefix_not_before p x Hp) in Hb.
  - clear IH. revert x Hx Hb. induction Hs as [|y keys Hs IH Hy]; intros x Hx Hb; cbn [take_while List.filter].
    + by destruct (starts p x).
    + apply Forall_cons in Hx as [Hxy Hx]. assert (before p y = false) as Hby.
      { unfold before in *. destruct (cmp y p) eqn:Hc; [done| |done]. by rewrite (cmp_trans x y p Hxy Hc) in Hb. }
      specialize (IH y Hy Hby). cbn [take_while] in IH. destruct (starts p x) eqn:Hp; [by rewrite IH|].
      assert (starts p y = false) as Hpy.
      { destruct (starts p y) eqn:Hpy; [|done]. by rewrite (between_prefix p x y Hpy Hb Hxy) in Hp. }
      rewrite Hpy. rewrite Hpy in IH. exact IH.
Qed.

(** ** Sets *)

Lemma filter_wf (p : text → bool) (l : list text) : bs_wf l → bs_wf (List.filter p l).
Proof.
  unfold bs_wf. induction 1 as [|x l Hl IH Hx]; cbn [List.filter]; [constructor|]. destruct (p x); [|done].
  constructor; [done|]. rewrite Forall_forall in *. intros y Hy%list_elem_of_In.
  apply filter_In in Hy as [Hy _]. by apply Hx, list_elem_of_In.
Qed.

Lemma elem_of_bfilter {A} (p : A → bool) (l : list A) x : x ∈ List.filter p l ↔ x ∈ l ∧ p x = true.
Proof. rewrite !list_elem_of_In. apply filter_In. Qed.

Section seen.
Context `{StateServices}.
Implicit Types s : ScanState.

Lemma seen_spec k s : seen k s = true ↔ k ∈ ss_seen_detection_fingerprints s.
Proof. apply bs_contains_spec. Qed.

Lemma seen_ext k s s' : (k ∈ ss_seen_detection_fingerprints s ↔ k ∈ ss_seen_detection_fingerprints s') → seen k s = seen k s'.
Proof. rewrite <- !seen_spec. intros Hk. destruct (seen k s), (seen k s'); naive_solver. Qed.

Lemma seen_saw f k s k' : seen k' (saw f k s) = true ↔ k' = k ∨ seen k' s = true.
Proof. rewrite !seen_spec. apply bs_insert_elem. Qed.

Lemma seen_latch k s k' : seen k' (latch k s).1 = true ↔ k' = k ∨ seen k' s = true.
Proof. rewrite !seen_spec. apply bs_insert_elem. Qed.

Lemma seen_unlatch k s k' : seen k' (unlatch k s) = true ↔ k' ≠ k ∧ seen k' s = true.
Proof.
  rewrite !seen_spec. cbn [unlatch set_seen ss_seen_detection_fingerprints]. rewrite elem_of_bfilter.
  unfold text_eqb. rewrite negb_true_iff, bool_decide_eq_false. naive_solver.
Qed.

Lemma seen_heartbeat t s k : seen k (record_health_heartbeat t s) = true ↔
  k = HEALTH_HEARTBEAT_PREFIX ++ number t ∨ starts HEALTH_HEARTBEAT_PREFIX k = false ∧ seen k s = true.
Proof.
  rewrite !seen_spec. cbn [record_health_heartbeat set_seen ss_seen_detection_fingerprints].
  rewrite bs_insert_elem, elem_of_bfilter, negb_true_iff. naive_solver.
Qed.

(** ** Deciding to report *)

(** The key an event is remembered by. *)
Definition emission_key (probe : FileProbe) (source : Source) (event : Event) (routine : list text) : text :=
  let f := source_fingerprint probe source in
  if is_lit "session_risk_summary" (ev_event_type event) then
    classified_prefix event f (lit "session_risk_summary") ++ session_risk_summary_fingerprint event f
  else if is_lit "detection" (ev_event_type event) then
    classified_prefix event f (lit "detection_emission") ++ detection_emission_fingerprint event f routine
  else detection_fingerprint event f.

Definition emission_kind (event : Event) : option text :=
  if is_lit "session_risk_summary" (ev_event_type event) then Some (lit "session_risk_summary")
  else if is_lit "detection" (ev_event_type event) then Some (lit "detection_emission") else None.

(** A key of the same posture and another classification is remembered. *)
Definition reclassified (s : ScanState) (event : Event) (f kind : text) : Prop :=
  ∃ key, key ∈ ss_seen_detection_fingerprints s ∧ starts (posture_prefix event f kind) key = true ∧
    starts (classified_prefix event f kind) key = false.

Lemma should_emit_posture_seen f event kind posture s k :
  seen k (should_emit_posture f event kind posture s).1 = true ↔
  k = classified_prefix event f kind ++ posture ∨ seen k s = true.
Proof.
  unfold should_emit_posture. set (key := _ ++ posture). destruct (seen key s) eqn:Hk; cbn [fst]; [naive_solver|].
  apply seen_saw.
Qed.

Lemma should_emit_seen probe source event routine s k :
  seen k (should_emit probe source event routine s).1 = true ↔
  k = emission_key probe source event routine ∨ seen k s = true.
Proof.
  unfold should_emit, emission_key. destruct (is_lit "session_risk_summary" _); [apply should_emit_posture_seen|].
  destruct (is_lit "detection" _); [apply should_emit_posture_seen|].
  set (key := detection_fingerprint _ _). destruct (seen key s) eqn:Hk; cbn [fst]; [naive_solver|apply seen_saw].
Qed.

Lemma should_emit_posture_known f event kind posture s :
  seen (classified_prefix event f kind ++ posture) s = true → (should_emit_posture f event kind posture s).2 = false.
Proof. unfold should_emit_posture. by intros ->. Qed.

Lemma should_emit_known probe source event routine s :
  seen (emission_key probe source event routine) s = true → should_emit probe source event routine s = (s, false).
Proof.
  unfold should_emit, emission_key, should_emit_session_risk_summary, should_emit_posture.
  destruct (is_lit "session_risk_summary" _); [by intros ->|]. destruct (is_lit "detection" _); by intros ->.
Qed.

Lemma should_emit_posture_rule f event kind posture s : bs_wf (ss_seen_detection_fingerprints s) →
  (should_emit_posture f event kind posture s).2 = true ↔
  seen (classified_prefix event f kind ++ posture) s = false ∧
  (seen (detection_fingerprint event f) s = false ∨ reclassified s event f kind).
Proof.
  intros Hw. unfold should_emit_posture. destruct (seen (_ ++ posture) s) eqn:Hk; cbn [snd]; [naive_solver|].
  rewrite keys_with_prefix_filter, negb_true_iff, andb_false_iff, negb_false_iff by done.
  unfold reclassified. rewrite existsb_exists. setoid_rewrite filter_In. setoid_rewrite list_elem_of_In.
  setoid_rewrite negb_true_iff. naive_solver.
Qed.

End seen.

(** ** Numbers and suffixes *)

Lemma dec_loop_digit fuel n acc : 0 ≤ n → Forall (λ c, ascii_digit (N_of_ascii c) = true) acc →
  Forall (λ c, ascii_digit (N_of_ascii c) = true) (dec_loop fuel n acc).
Proof.
  assert (∀ z, 0 ≤ z < 10 → ascii_digit (N_of_ascii (digit z)) = true) as Hd.
  { intros z Hz. unfold digit. rewrite N_ascii_embedding by lia. unfold ascii_digit, between. rewrite andb_true_iff, !N.leb_le. lia. }
  revert n acc. induction fuel as [|fuel IH]; intros n acc Hn Ha; cbn [dec_loop]; [done|].
  destruct (Z.ltb_spec n 10); [constructor; [by apply Hd|done]|].
  apply IH; [by apply Z.div_pos|]. constructor; [|done]. apply Hd, Z.mod_pos_bound. lia.
Qed.

Lemma number_digits z : 0 ≤ z → forallb ascii_digit (number z) = true.
Proof.
  intros Hz. unfold number, lit, decimal. rewrite bytes_of_bytes. apply forallb_forall. intros c [a [<- Ha]]%in_map_iff.
  pose proof (dec_loop_digit 20 z [] Hz ltac:(constructor)) as Hall. rewrite Forall_forall in Hall. by apply Hall, list_elem_of_In.
Qed.

Lemma dec_loop_nonempty fuel n acc : fuel ≠ O ∨ acc ≠ [] → dec_loop fuel n acc ≠ [].
Proof.
  revert n acc. induction fuel as [|fuel IH]; intros n acc Ha; cbn [dec_loop]; [by destruct Ha|].
  destruct (n <? 10); [done|]. apply IH. by right.
Qed.

Lemma number_nonempty z : number z ≠ [].
Proof.
  unfold number, lit, decimal. rewrite bytes_of_bytes. intros Hm%map_eq_nil. revert Hm. apply dec_loop_nonempty. by left.
Qed.

Lemma ends_spec p t : ends p t = true ↔ ∃ r, t = r ++ p.
Proof.
  unfold ends, strip_end. transitivity (starts (reverse p) (reverse t) = true).
  { unfold starts. by destruct (strip (reverse p) (reverse t)). }
  rewrite starts_spec. split.
  - intros [r Hr]. exists (reverse r). by rewrite <- (reverse_involutive t), Hr, reverse_app, reverse_involutive.
  - intros [r ->]. exists (reverse r). by rewrite reverse_app.
Qed.

(** ** Laws of the digests

    A digest is 64 hexadecimal digits, and the latches of the alerts do not collide. *)

Definition all_clients : list ClientId := [Codex; Claude; OpenClaw; Qwen; OpenCode; Copilot].

Class StateServicesLaws `{StateServices} : Prop := {
  sha256_hex_hex l : is_canonical_sha256_hex (sha256_hex l) = true;
  latches_distinct :
    NoDup (scanner_error_threshold_fingerprint :: map (λ c, source_outage_fingerprint (ClientId_as_str c)) all_clients);
}.

(** ** Concrete digests

    The bytes as a number in base 257, in 64 hexadecimal digits. *)
Module StateSample.

Definition hex_digit (n : N) : N := if (n <? 10)%N then (48 + n)%N else (87 + n)%N.

Fixpoint hex_digits (width : nat) (n : N) : text :=
  match width with
  | O => []
  | S width => hex_digits width (n / 16)%N ++ [hex_digit (n mod 16)]
  end.

Definition toy_digest (l : list N) : text := hex_digits 64 (foldl (λ h b, (h * 257 + b + 1) mod 2 ^ 256)%N 0%N l).

#[export] Instance state_services : StateServices := { sha256_hex := toy_digest }.

Lemma hex_digit_lower n : (n < 16)%N → hex_lower (hex_digit n) = true.
Proof.
  intros Hn. unfold hex_digit, hex_lower, ascii_digit, between.
  destruct (N.ltb_spec n 10); rewrite orb_true_iff, !andb_true_iff, !N.leb_le; lia.
Qed.

Lemma hex_digits_ok width n : length (hex_digits width n) = width ∧ Forall (λ c, hex_lower c = true) (hex_digits width n).
Proof.
  revert n. induction width as [|width IH]; intros n; [by split|]. cbn [hex_digits]. destruct (IH (n / 16)%N) as [Hl Hh].
  rewrite length_app, Hl. split; [cbn; lia|]. apply Forall_app. split; [done|]. constructor; [|constructor].
  by apply hex_digit_lower, N.mod_upper_bound.
Qed.

#[export] Instance state_laws : StateServicesLaws.
Proof.
  split.
  - intros l. cbn [sha256_hex state_services]. unfold toy_digest.
    destruct (hex_digits_ok 64 (foldl (λ h b, (h * 257 + b + 1) mod 2 ^ 256)%N 0%N l)) as [Hl Hh].
    unfold is_canonical_sha256_hex. rewrite str_len_hex, Hl by done. cbn [Z.of_nat Z.eqb andb].
    apply forallb_forall. intros c Hc. rewrite Forall_forall in Hh. by apply Hh, list_elem_of_In.
  - apply (bool_decide_unpack _). vm_compute. exact I.
Qed.

End StateSample.
