(* ===== verification/SinkEpisodes.v ===== *)
(** * Episodes of a failing sink

    src/cli/scan.rs: the alerts about sinks that failed.  A sink that refuses every delivery
    alerts when that starts and stays quiet until it is seen to succeed; which episodes are
    open is kept among the detection fingerprints of the state. *)

From S2P Require Import Prelude Ordered Rstr Scoring Delivery Outbox JournalNames Unicode Regex RegexRef RedactPatterns Redaction RedactionSafe EventIdentifiers EventEmit EventPrivacy EventHistory EventBuild EventBuildSafe Dispatch Baseline ScanState.
From Stdlib Require Import Ascii.

Local Open Scope Z_scope.

(** ** Identities *)

Definition sink_failure_episode_identity (class : DeliveryErrorClass) : option text :=
  match class with
  | AuthenticationBlocked status => Some (lit "authentication_blocked:" ++ number status)
  | SinkResponseBlocked => Some (lit "sink_response_blocked")
  | _ => None
  end.

Definition is_sink_failure_episode_identity (identity : text) : bool :=
  is_lit "sink_response_blocked" identity
  || match strip (lit "authentication_blocked:") identity with
     | Some status => negb (is_empty_list status) && forallb ascii_digit status
     | None => false
     end.

Definition success_reference (success : option Z) : text :=
  match success with
  | Some value => if value <? 0 then lit "-" ++ number (- value) else number value
  | None => lit "none"
  end.

(** [split('@').next()] *)
Fixpoint before_at (t : text) : text :=
  match t with
  | [] => []
  | c :: t => if N.eqb c (ch "@") then [] else c :: before_at t
  end.

(** ** Open episodes

    The name of a sink is the text of its bytes. *)

Section episodes.
Context `{StateServices} `{EventServices}.

Definition episode_prefix (sink : text) : text :=
  lit "telltale:sink_failure_episode_v2:" ++ evidence_hash sink ++ lit ":".

Definition sink_failure_episode_latch (sink identity : text) : text := episode_prefix sink ++ identity.

Definition sink_failure_episode_open (s : ScanState) (sink identity : text) : bool :=
  let prefix := sink_failure_episode_latch sink identity ++ lit "@" in
  match drop_while (before prefix) (ss_seen_detection_fingerprints s) with
  | key :: _ => starts prefix key
  | [] => false
  end.

Definition legacy_episode_prefix (sink : text) : text := lit "telltale:sink_failure_episode:" ++ sink ++ lit ":".

Definition episode_marker (prefix fingerprint : text) : bool :=
  match strip prefix fingerprint with
  | Some suffix => is_sink_failure_episode_identity (before_at suffix)
  | None => false
  end.

Definition record_sink_failure_episode (sink : text) (identity : option text) (last_success : option Z) (s : ScanState)
    : ScanState * bool :=
  let current :=
    (λ identity, sink_failure_episode_latch sink identity ++ lit "@" ++ success_reference last_success) <$> identity in
  let keys := ss_seen_detection_fingerprints s in
  let kept :=
    List.filter (λ fingerprint, bool_decide (current = Some fingerprint)
                   || negb (episode_marker (episode_prefix sink) fingerprint
                            || episode_marker (legacy_episode_prefix sink) fingerprint)) keys in
  let removed := negb (length kept =? length keys)%nat in
  match current with
  | Some key => (set_seen (ss_seen_source_fingerprints s) (bs_insert key kept) s, removed || negb (bs_contains key kept))
  | None => (set_seen (ss_seen_source_fingerprints s) kept s, removed)
  end.

Definition clear_sink_failure_episodes (sink : text) (s : ScanState) : ScanState * bool :=
  record_sink_failure_episode sink None None s.

(** ** Alerts *)

Definition sink_name (failure : SinkFailure) : text := decode_str (sf_name failure).

Definition released_blocked_row_failed_again (failure : SinkFailure) : bool :=
  (0 <? sf_prior_attempts failure)
  && match sf_prior_error_class failure with
     | Some (AuthenticationBlocked _) | Some SinkResponseBlocked => true
     | _ => false
     end.

Record SinkFailureAlertSelection := {
  sas_alerts : list SinkFailure;
  sas_episode_keys : list (text * option text);
}.

(** The loop also keeps the episodes it selected. *)
Definition SelectionLoop : Type := list SinkFailure * list (text * option text) * list (text * text).

Definition is_released (failures : list SinkFailure) (sink identity : text) : bool :=
  existsb (λ other, text_eqb (sink_name other) sink
                    && bool_decide (sink_failure_episode_identity (sf_class other) = Some identity)
                    && released_blocked_row_failed_again other) failures.

Definition select_failure (s : ScanState) (failures : list SinkFailure) (honor_open_episode : bool)
    (acc : SelectionLoop) (failure : SinkFailure) : SelectionLoop :=
  let '(alerts, episode_keys, selected_episodes) := acc in
  let name := sink_name failure in
  match sink_failure_episode_identity (sf_class failure) with
  | Some identity =>
      let already_open :=
        match bm_get name episode_keys with
        | None => honor_open_episode && sink_failure_episode_open s name identity
        | Some current => bool_decide (current = Some identity)
        end in
      let episode_keys := bm_insert name (Some identity) episode_keys in
      if negb (is_released failures name identity) && already_open then (alerts, episode_keys, selected_episodes)
      else if bs_contains (name, identity) selected_episodes then (alerts, episode_keys, selected_episodes)
      else (alerts ++ [failure], episode_keys, bs_insert (name, identity) selected_episodes)
  | None => (alerts ++ [failure], bm_insert name None episode_keys, selected_episodes)
  end.

Definition select_sink_failure_alerts (s : ScanState) (failures : list SinkFailure) (honor_open_episode : bool)
    : SinkFailureAlertSelection :=
  let '(alerts, episode_keys, _) := foldl (select_failure s failures honor_open_episode) ([], [], []) failures in
  {| sas_alerts := alerts; sas_episode_keys := episode_keys |}.

Definition sink_failure_alert_input `{Regexes} (failure : SinkFailure) : OperationalAlertInput :=
  {| oa_alert_type := lit "sink_delivery_failure";
     oa_threshold := lit "attempts_made=" ++ number (sf_attempts failure);
     oa_actual_value := lit "sink=" ++ terminal_identifier "sink" (sink_name failure) ++ lit " type="
                        ++ decode_str (sf_kind failure) ++ lit " class=" ++ lit (class_as_str (sf_class failure))
                        ++ lit " error=" ++ decode_str (sf_error failure);
     oa_scan_duration_ms := None; oa_scanner_error_count := None |}.

(** ** What the outbox knows

    The read-only look at the health of the sinks is an argument: [None] when the file or its
    tables cannot be read, and no sinks when there is no outbox. *)

Record SinkHealth := { sh_sink_id : text; sh_last_success_at : option Z; sh_last_error_at : option Z }.

Record DurableSuccessSnapshot := { sn_success : list (text * option Z); sn_unordered : list text }.

Definition observe_health (snapshot : DurableSuccessSnapshot) (sink : SinkHealth) : DurableSuccessSnapshot :=
  {| sn_success := bm_insert (sh_sink_id sink) (sh_last_success_at sink) (sn_success snapshot);
     sn_unordered :=
       if is_some (sh_last_success_at sink) && bool_decide (sh_last_success_at sink = sh_last_error_at sink)
       then bs_insert (sh_sink_id sink) (sn_unordered snapshot) else sn_unordered snapshot |}.

Definition snapshot_durable_sink_success (health : option (list SinkHealth)) : option DurableSuccessSnapshot :=
  foldl observe_health {| sn_success := []; sn_unordered := [] |} <$> health.

Definition clear_if_stale (acc : ScanState * bool) (after : text * option Z) : ScanState * bool :=
  let '(s, changed) := acc in
  let '(sink, after_success) := after in
  let expected := lit "@" ++ success_reference after_success in
  let stale :=
    existsb (λ key, negb (ends expected key)) (keys_with_prefix (episode_prefix sink) (ss_seen_detection_fingerprints s)) in
  if stale then let '(s, cleared) := clear_sink_failure_episodes sink s in (s, changed || cleared) else (s, changed).

Definition clear_sinks_with_new_success (after : list (text * option Z)) (s : ScanState) : ScanState * bool :=
  foldl clear_if_stale (s, false) after.

Definition clear_all (sinks : list text) (acc : ScanState * bool) : ScanState * bool :=
  foldl (λ '(s, changed) sink, let '(s, cleared) := clear_sink_failure_episodes sink s in (s, changed || cleared)) acc sinks.

Definition delivery_sink_ids (sinks : SinkSet) : list string :=
  map se_name (List.filter (λ entry, bool_decide (se_persistence_role entry ≠ CanonicalFirstWrite)) (ss_entries sinks)).

(** The best-effort sinks that were called and did not fail. *)
Definition successful_best_effort (sinks : SinkSet) (failures : list SinkFailure) : list text :=
  map decode_str
    (List.filter (λ name,
       (negb (is_some (ss_durable_outbox_path sinks)) || negb (bool_decide (name ∈ ss_durable_sink_ids sinks)))
       && negb (bool_decide (name ∈ map sf_name failures))) (delivery_sink_ids sinks)).

Definition clear_successful_best_effort_episodes (sinks : SinkSet) (failures : list SinkFailure) (attempted : bool)
    (s : ScanState) : ScanState * bool :=
  if negb attempted then (s, false) else clear_all (successful_best_effort sinks failures) (s, false).

Record EpisodeObservation := {
  eo_honor_open_episode : bool;
  eo_cleared : bool;
  eo_durable_success : list (text * option Z);
}.

Definition observe_sink_failure_episode_success (sinks : SinkSet) (health : option (list SinkHealth))
    (failures : list SinkFailure) (attempted_events : bool) (s : ScanState) : ScanState * EpisodeObservation :=
  let '(s, honor, cleared, success) :=
    match snapshot_durable_sink_success health with
    | Some after =>
        let '(s, cleared) := clear_all (sn_unordered after) (clear_sinks_with_new_success (sn_success after) s) in
        (s, true, cleared, sn_success after)
    | None => (s, false, false, [])
    end in
  let '(s, changed) := clear_successful_best_effort_episodes sinks failures attempted_events s in
  (s, {| eo_honor_open_episode := honor; eo_cleared := cleared || changed; eo_durable_success := success |}).

(** ** After a delivery

    The alerts of a scan that persists its latches, and the state it then saves; [accepted] is what
    delivering the alerts reports, [true] when there are none. *)
Definition record_selection (durable_success : list (text * option Z)) (alerts_accepted : bool)
    (acc : ScanState * bool) (entry : text * option text) : ScanState * bool :=
  let '(s, latch_changed) := acc in
  let '(sink, identity) := entry in
  let identity := if alerts_accepted then identity else None in
  let '(s, changed) :=
    record_sink_failure_episode sink identity (default None (bm_get sink durable_success)) s in
  (s, latch_changed || changed).

Definition sink_failure_alerts (sinks : SinkSet) (health : option (list SinkHealth)) (failures : list SinkFailure)
    (attempted_events : bool) (deliver_alerts : list SinkFailure → bool) (s : ScanState)
    : ScanState * list SinkFailure * bool :=
  let '(s, observation) := observe_sink_failure_episode_success sinks health failures attempted_events s in
  let selection := select_sink_failure_alerts s failures (eo_honor_open_episode observation) in
  let alerts_accepted := if is_empty_list (sas_alerts selection) then true else deliver_alerts (sas_alerts selection) in
  let '(s, latch_changed) :=
    foldl (record_selection (eo_durable_success observation) alerts_accepted) (s, eo_cleared observation)
      (sas_episode_keys selection) in
  (s, sas_alerts selection, latch_changed).

End episodes.

(** ** The episode of one sink

    What the state says about a sink: the identity of its open episode and the success that was
    known when it was latched. *)

Section spec.
Context `{StateServices} `{EventServices}.

Definition episode_key (sink identity reference : text) : text :=
  sink_failure_episode_latch sink identity ++ lit "@" ++ reference.

Definition plain (t : text) : Prop := ch "@" ∉ t.

Definition episode_is (s : ScanState) (sink : text) (episode : option (text * text)) : Prop :=
  (∀ key, starts (episode_prefix sink) key = true →
    (seen key s = true ↔ ∃ identity reference, episode = Some (identity, reference) ∧ key = episode_key sink identity reference)) ∧
  ∀ identity reference, episode = Some (identity, reference) →
    is_sink_failure_episode_identity identity = true ∧ plain identity ∧ plain reference.

(** A success that the latch does not know, or one that cannot be ordered, ends the episode. *)
Definition after_observation (snapshot : option DurableSuccessSnapshot) (sink : text) (episode : option (text * text))
    : option (text * text) :=
  match snapshot, episode with
  | Some snapshot, Some (identity, reference) =>
      match bm_get sink (sn_success snapshot) with
      | Some success => if negb (text_eqb (success_reference success) reference) then None
                        else if bs_contains sink (sn_unordered snapshot) then None else episode
      | None => if bs_contains sink (sn_unordered snapshot) then None else episode
      end
  | _, _ => episode
  end.

(** The alerts of one sink, in order: every failure that is no blocked row, and each identity once
    unless its episode is open and no released row failed again. *)
Fixpoint alerts_of (released already_open : text → bool) (last : option (option text)) (chosen : list text)
    (failures : list SinkFailure) : list SinkFailure :=
  match failures with
  | [] => []
  | failure :: failures =>
      match sink_failure_episode_identity (sf_class failure) with
      | None => failure :: alerts_of released already_open (Some None) chosen failures
      | Some identity =>
          let opened := match last with
                        | None => already_open identity
                        | Some current => bool_decide (current = Some identity) end in
          if (negb (released identity) && opened) || bool_decide (identity ∈ chosen)
          then alerts_of released already_open (Some (Some identity)) chosen failures
          else failure :: alerts_of released already_open (Some (Some identity)) (identity :: chosen) failures
      end
  end.

Definition failures_of (sink : text) (failures : list SinkFailure) : list SinkFailure :=
  List.filter (λ failure, text_eqb (sink_name failure) sink) failures.

Definition last_identity (sink : text) (failures : list SinkFailure) : option (option text) :=
  (λ failure, sink_failure_episode_identity (sf_class failure)) <$> last (failures_of sink failures).

(** Each identity remains text without the separator. *)
Lemma digits_plain t : forallb ascii_digit t = true → plain t.
Proof. unfold plain. rewrite forallb_forall. intros Hd Hc%list_elem_of_In%Hd. by vm_compute in Hc. Qed.

End spec.

Lemma success_reference_plain success : plain (success_reference success).
Proof.
  unfold success_reference. destruct success as [z|]; [|apply (bool_decide_unpack _); vm_compute; exact I].
  destruct (Z.ltb_spec z 0); [|by apply digits_plain, number_digits].
  unfold plain. rewrite elem_of_app. intros [Hc|Hc]; [revert Hc; apply (bool_decide_unpack (ch "@" ∉ lit "-")); vm_compute; exact I|].
  revert Hc. by apply digits_plain, number_digits; lia.
Qed.

(** An HTTP status is an unsigned integer. *)
Definition status_ok (class : DeliveryErrorClass) : Prop :=
  match class with AuthenticationBlocked status => 0 ≤ status | _ => True end.

Lemma identity_ok class identity : status_ok class → sink_failure_episode_identity class = Some identity →
  is_sink_failure_episode_identity identity = true ∧ plain identity.
Proof.
  destruct class; try done; cbn [sink_failure_episode_identity status_ok]; intros Hs He; apply (inj Some) in He as <-.
  - split; [by vm_compute|]. apply (bool_decide_unpack _); vm_compute; exact I.
  - split.
    + unfold is_sink_failure_episode_identity. rewrite strip_app, number_digits by done.
      destruct (number status) eqn:Hn; [by destruct (number_nonempty status)|]. by rewrite orb_true_r.
    + unfold plain. rewrite elem_of_app. intros [Hc|Hc]; [|revert Hc; by apply digits_plain, number_digits].
      revert Hc. apply (bool_decide_unpack (ch "@" ∉ lit "authentication_blocked:")); vm_compute; exact I.
Qed.

Lemma before_at_plain t r : plain t → before_at (t ++ lit "@" ++ r) = t.
Proof.
  unfold plain. induction t as [|c t IH]; intros Ht; [done|]. cbn [app before_at].
  destruct (N.eqb_spec c (ch "@")) as [->|]; [set_solver|]. rewrite IH; set_solver.
Qed.

(** Texts split at the separator in one way. *)
Lemma at_inj t r t' r' : plain t → plain t' → t ++ lit "@" ++ r = t' ++ lit "@" ++ r' → t = t' ∧ r = r'.
Proof.
  intros Ht Ht' He. assert (t = t') as <-; [by rewrite <- (before_at_plain t r Ht), He, before_at_plain|].
  apply app_inv_head in He. by injection He as ->.
Qed.

Lemma ends_reference t r r' : plain r → plain r' → ends (lit "@" ++ r') (t ++ lit "@" ++ r) = text_eqb r' r.
Proof.
  intros Hr Hr'. unfold text_eqb. destruct (ends _ _) eqn:He; symmetry.
  - apply bool_decide_eq_true. apply ends_spec in He as [u Hu]. apply (f_equal reverse) in Hu. rewrite !reverse_app in Hu.
    change (reverse (lit "@")) with (lit "@") in Hu. rewrite <- !app_assoc in Hu. unfold plain in *.
    apply at_inj in Hu as [Hu _]; [|unfold plain; by rewrite elem_of_reverse..].
    by rewrite <- (reverse_involutive r), Hu, reverse_involutive.
  - apply bool_decide_eq_false. intros ->. assert (ends (lit "@" ++ r) (t ++ lit "@" ++ r) = true); [|congruence].
    apply ends_spec. by exists t.
Qed.

(** ** The markers of a sink *)

Section proofs.
Context `{StateServices} `{!EventServices} `{!EventServicesLaws}.
Implicit Types (s : ScanState) (sink : text) (episode : option (text * text)).

Lemma prefix_apart sink sink' key : evidence_hash sink' ≠ evidence_hash sink →
  starts (episode_prefix sink) key = true → starts (episode_prefix sink') key = false.
Proof.
  intros Hne Hs. destruct (starts (episode_prefix sink') key) eqn:Hs'; [|done]. apply starts_spec in Hs as [r ->].
  apply starts_spec in Hs' as [r' Hr]. unfold episode_prefix in Hr. rewrite <- !app_assoc in Hr. apply app_inv_head in Hr.
  apply app_inj_1 in Hr as [Hr _]; [by rewrite Hr in Hne|].
  by rewrite (proj1 (digest_spec sink)), (proj1 (digest_spec sink')).
Qed.

Lemma legacy_apart sink sink' key : starts (episode_prefix sink) key = true → strip (legacy_episode_prefix sink') key = None.
Proof. intros [r ->]%starts_spec. reflexivity. Qed.

Lemma not_marker p key : strip p key = None → episode_marker p key = false.
Proof. unfold episode_marker. by intros ->. Qed.

Lemma marker_apart sink sink' key : evidence_hash sink' ≠ evidence_hash sink → starts (episode_prefix sink) key = true →
  episode_marker (episode_prefix sink') key = false ∧ episode_marker (legacy_episode_prefix sink') key = false.
Proof.
  intros Hne Hk. split; apply not_marker; [|by eapply legacy_apart]. pose proof (prefix_apart _ _ _ Hne Hk) as Hf.
  unfold starts in Hf. by destruct (strip (episode_prefix sink') key).
Qed.

#[local] Opaque episode_prefix legacy_episode_prefix.

Lemma episode_key_prefix sink identity reference : starts (episode_prefix sink) (episode_key sink identity reference) = true.
Proof. unfold episode_key, sink_failure_episode_latch. rewrite <- !app_assoc. apply starts_prefix. Qed.

Lemma episode_key_inj sink identity reference identity' reference' : plain identity → plain identity' →
  episode_key sink identity reference = episode_key sink identity' reference' → identity = identity' ∧ reference = reference'.
Proof. unfold episode_key, sink_failure_episode_latch. rewrite <- !app_assoc. intros ?? He%app_inv_head. by apply at_inj in He. Qed.

Lemma episode_key_marker sink identity reference : is_sink_failure_episode_identity identity = true → plain identity →
  episode_marker (episode_prefix sink) (episode_key sink identity reference) = true.
Proof.
  intros Hi Hp. unfold episode_marker, episode_key, sink_failure_episode_latch. rewrite <- !app_assoc, strip_app.
  by rewrite before_at_plain.
Qed.

Lemma episode_ext s s' sink episode : (∀ key, starts (episode_prefix sink) key = true → seen key s' = seen key s) →
  episode_is s sink episode → episode_is s' sink episode.
Proof. intros He [Hk Hi]. split; [|done]. intros key Hs. rewrite He by done. by apply Hk. Qed.

Lemma seen_record sink identity success s key :
  seen key (record_sink_failure_episode sink identity success s).1 = true ↔
  (∃ i, identity = Some i ∧ key = episode_key sink i (success_reference success)) ∨
  seen key s = true ∧ episode_marker (episode_prefix sink) key = false ∧ episode_marker (legacy_episode_prefix sink) key = false.
Proof.
  rewrite !seen_spec. unfold record_sink_failure_episode.
  generalize (episode_marker (episode_prefix sink)), (episode_marker (legacy_episode_prefix sink)). intros m m'.
  destruct identity as [identity|]; cbn [fmap option_fmap option_map]; cbv zeta.
  - change (sink_failure_episode_latch sink identity ++ lit "@" ++ success_reference success)
      with (episode_key sink identity (success_reference success)).
    generalize (episode_key sink); intros current; generalize (success_reference success); intros reference.
    cbn [fst set_seen ss_seen_detection_fingerprints]. rewrite bs_insert_elem, elem_of_bfilter.
    rewrite orb_true_iff, negb_true_iff, orb_false_iff, bool_decide_eq_true. split.
    + intros [->|(? & [He|?])]; [left; by exists identity| |tauto]. apply Some_inj in He as <-. left. by exists identity.
    + intros [(i & Hi & ->)|?]; [|tauto]. left. by apply Some_inj in Hi as ->.
  - cbn [fst set_seen ss_seen_detection_fingerprints]. rewrite elem_of_bfilter.
    rewrite orb_true_iff, negb_true_iff, orb_false_iff, bool_decide_eq_true. split.
    + intros (? & [He|?]); [done|tauto].
    + intros [(i & Hi & _)|?]; [done|tauto].
Qed.

Lemma episode_record_wf sink identity success s : bs_wf (ss_seen_detection_fingerprints s) →
  bs_wf (ss_seen_detection_fingerprints (record_sink_failure_episode sink identity success s).1).
Proof.
  intros Hw. unfold record_sink_failure_episode. destruct identity; cbn [fmap option_fmap option_map fst set_seen ss_seen_detection_fingerprints].
  - by apply bs_insert_wf, filter_wf.
  - by apply filter_wf.
Qed.

Lemma record_other sink sink' identity success s episode : evidence_hash sink' ≠ evidence_hash sink →
  episode_is s sink episode → episode_is (record_sink_failure_episode sink' identity success s).1 sink episode.
Proof.
  intros Hne. apply episode_ext. intros key Hk. apply eq_true_iff_eq. rewrite seen_record.
  destruct (marker_apart _ _ _ Hne Hk) as [Hm Hm']. split; [|intros Hs; right; exact (conj Hs (conj Hm Hm'))].
  intros [(i & _ & ->)|?]; [|tauto]. pose proof (prefix_apart _ _ _ Hne Hk) as Hf. by rewrite episode_key_prefix in Hf.
Qed.

Lemma record_same sink identity success s episode : episode_is s sink episode →
  (∀ i, identity = Some i → is_sink_failure_episode_identity i = true ∧ plain i) →
  episode_is (record_sink_failure_episode sink identity success s).1 sink
    ((λ i, (i, success_reference success)) <$> identity).
Proof.
  intros [Hk Hi] Hid. split.
  - intros key Hs. rewrite seen_record. split.
    + intros [(i & -> & ->)|(Hseen & Hm & _)]; [by exists i, (success_reference success)|].
      apply Hk in Hseen as (i & r & -> & ->); [|done]. destruct (Hi i r eq_refl) as (? & ? & _).
      by rewrite episode_key_marker in Hm.
    + intros (i & r & He & ->). left. destruct identity as [i'|]; [|done]. exists i'. split; [done|].
      cbn [fmap option_fmap option_map] in He. apply Some_inj in He. by apply pair_eq in He as [-> ->].
  - intros i r He. destruct identity as [i'|]; [|done]. cbn [fmap option_fmap option_map] in He.
    apply Some_inj, pair_eq in He as [<- <-]. destruct (Hid i' eq_refl). split_and!; [done..|apply success_reference_plain].
Qed.

(** A fold over a map treats one key once. *)
Lemma fold_on_key {A V X} (f : A → text * V → A) (P : X → A → Prop) (step : V → X → X) (key : text) (l : list (text * V)) a x :
  (∀ a v x, (key, v) ∈ l → P x a → P (step v x) (f a (key, v))) →
  (∀ a k v x, (k, v) ∈ l → k ≠ key → P x a → P x (f a (k, v))) → NoDup l.*1 → P x a →
  P (match bm_get key l with Some v => step v x | None => x end) (foldl f a l).
Proof.
  revert a x. induction l as [|[k v] l IH]; intros a x Hsame Hother Hd Hx; [done|].
  cbn [bm_get foldl]. apply NoDup_cons in Hd as [Hk Hd]. fold (@fmap list _ _ _ fst l) in *.
  assert (∀ a v x, (key, v) ∈ l → P x a → P (step v x) (f a (key, v))) as Hsl by (intros; apply Hsame; [by right|done]).
  assert (∀ a k v x, (k, v) ∈ l → k ≠ key → P x a → P x (f a (k, v))) as Hl by (intros; apply Hother; [by right|done..]).
  destruct (decide (k = key)) as [->|Hne].
  - rewrite cmp_refl. specialize (IH (f a (key, v)) (step v x) Hsl Hl Hd (Hsame _ _ _ ltac:(left) Hx)).
    by rewrite (proj2 (bm_get_None key l) Hk) in IH.
  - specialize (IH (f a (k, v)) x Hsl Hl Hd). destruct (cmp key k) eqn:Hc; [by apply cmp_eq in Hc as ->|..];
    apply IH, Hother; (done || by left).
Qed.
(** *** Observing successes *)

(** The state of a fold, as the sink sees it. *)
Definition tracks sink episode (acc : ScanState * bool) : Prop :=
  bs_wf (ss_seen_detection_fingerprints acc.1) ∧ episode_is acc.1 sink episode.

Lemma tracks_clear sink s episode : bs_wf (ss_seen_detection_fingerprints s) → episode_is s sink episode →
  tracks sink None (clear_sink_failure_episodes sink s).
Proof. intros Hw He. split; [by apply episode_record_wf|]. by apply (record_same sink None None s episode). Qed.

Lemma tracks_clear_other sink sink' s episode : evidence_hash sink' ≠ evidence_hash sink →
  bs_wf (ss_seen_detection_fingerprints s) → episode_is s sink episode → tracks sink episode (clear_sink_failure_episodes sink' s).
Proof. intros Hne Hw He. split; [by apply episode_record_wf|by apply record_other]. Qed.

Lemma tracks_flag sink episode s b b' : tracks sink episode (s, b) → tracks sink episode (s, b').
Proof. done. Qed.

Definition after_success (success : option Z) episode : option (text * text) :=
  match episode with
  | Some (identity, reference) => if text_eqb (success_reference success) reference then episode else None
  | None => None
  end.

Lemma stale_spec sink s episode success : bs_wf (ss_seen_detection_fingerprints s) → episode_is s sink episode →
  existsb (λ key, negb (ends (lit "@" ++ success_reference success) key))
    (keys_with_prefix (episode_prefix sink) (ss_seen_detection_fingerprints s)) =
  match episode with Some (_, reference) => negb (text_eqb (success_reference success) reference) | None => false end.
Proof.
  intros Hw [Hk Hi]. rewrite keys_with_prefix_filter by done. apply eq_true_iff_eq. rewrite existsb_exists.
  setoid_rewrite filter_In. setoid_rewrite <- list_elem_of_In. setoid_rewrite <- seen_spec. split.
  - intros (key & [Hs Hp] & He). apply Hk in Hs as (i & r & -> & ->); [|done].
    destruct (Hi i r eq_refl) as (_ & _ & Hr). unfold episode_key in He.
    by rewrite ends_reference in He by (done || apply success_reference_plain).
  - destruct episode as [[i r]|]; [|done]. intros Hr. destruct (Hi i r eq_refl) as (_ & _ & Hpr).
    exists (episode_key sink i r). split_and!; [|apply episode_key_prefix|].
    + apply Hk; [apply episode_key_prefix|]. by exists i, r.
    + unfold episode_key. by rewrite ends_reference by (done || apply success_reference_plain).
Qed.

Lemma clear_if_stale_same sink episode acc success : tracks sink episode acc →
  tracks sink (after_success success episode) (clear_if_stale acc (sink, success)).
Proof.
  destruct acc as [s changed]. intros [Hw He]. cbn [fst] in *. unfold clear_if_stale.
  rewrite (stale_spec sink s episode success Hw He). unfold after_success. destruct episode as [[i r]|]; [|done].
  destruct (text_eqb _ r); cbn [negb]; [done|]. pose proof (tracks_clear sink s _ Hw He) as Ht.
  by destruct (clear_sink_failure_episodes sink s).
Qed.

Lemma clear_if_stale_other sink sink' episode acc success : evidence_hash sink' ≠ evidence_hash sink →
  tracks sink episode acc → tracks sink episode (clear_if_stale acc (sink', success)).
Proof.
  intros Hne. destruct acc as [s changed]. intros [Hw He]. cbn [fst] in *. unfold clear_if_stale.
  destruct (existsb _ _); [|done]. pose proof (tracks_clear_other sink sink' s _ Hne Hw He) as Ht.
  by destruct (clear_sink_failure_episodes sink' s).
Qed.

(** No other name of the list has the digest of the sink. *)
Definition apart sink (names : list text) : Prop := ∀ name, name ∈ names → name ≠ sink → evidence_hash name ≠ evidence_hash sink.

Lemma clear_all_tracks sink names acc episode : apart sink names → tracks sink episode acc →
  tracks sink (if bool_decide (sink ∈ names) then None else episode) (clear_all names acc).
Proof.
  unfold clear_all. revert acc episode. induction names as [|name names IH]; intros [s changed] episode Ha Ht; [done|].
  cbn [foldl]. assert (apart sink names) as Ha' by (intros n Hn; apply Ha; by right). destruct Ht as [Hw He]. cbn [fst] in *.
  destruct (decide (name = sink)) as [->|Hne].
  - rewrite bool_decide_true by left. pose proof (tracks_clear sink s _ Hw He) as Ht.
    destruct (clear_sink_failure_episodes sink s) as [s1 c]. specialize (IH (s1, changed || c) None Ha' Ht).
    by destruct (bool_decide (sink ∈ names)).
  - pose proof (tracks_clear_other sink name s _ (Ha name ltac:(left) Hne) Hw He) as Ht.
    destruct (clear_sink_failure_episodes name s) as [s1 c]. specialize (IH (s1, changed || c) _ Ha' Ht).
    assert (bool_decide (sink ∈ name :: names) = bool_decide (sink ∈ names)) as ->; [|done].
    apply bool_decide_ext. rewrite elem_of_cons. naive_solver.
Qed.

Lemma snapshot_wf health snapshot : snapshot_durable_sink_success health = Some snapshot → bm_wf (sn_success snapshot).
Proof.
  destruct health as [sinks|]; [|done]. cbn [snapshot_durable_sink_success fmap option_fmap option_map]. intros [= <-].
  assert (∀ l sn, bm_wf (sn_success sn) → bm_wf (sn_success (foldl observe_health sn l))) as Hf; [|by apply Hf; constructor].
  induction l as [|h l IH]; intros sn Hs; [done|]. apply IH. by apply bm_insert_wf.
Qed.

Definition observed_names (snapshot : option DurableSuccessSnapshot) : list text :=
  match snapshot with Some snapshot => bm_keys (sn_success snapshot) ++ sn_unordered snapshot | None => [] end.

(** What the observation of a delivery leaves of the episode. *)
Definition after_delivery (sinks : SinkSet) (health : option (list SinkHealth)) (failures : list SinkFailure)
    (attempted : bool) sink episode : option (text * text) :=
  if attempted && bool_decide (sink ∈ successful_best_effort sinks failures) then None
  else after_observation (snapshot_durable_sink_success health) sink episode.

Lemma observe_tracks sinks health failures attempted sink s episode :
  bs_wf (ss_seen_detection_fingerprints s) → episode_is s sink episode →
  apart sink (observed_names (snapshot_durable_sink_success health)) → apart sink (successful_best_effort sinks failures) →
  let o := observe_sink_failure_episode_success sinks health failures attempted s in
  tracks sink (after_delivery sinks health failures attempted sink episode) (o.1, false) ∧
  eo_honor_open_episode o.2 = is_some (snapshot_durable_sink_success health) ∧
  eo_durable_success o.2 = match snapshot_durable_sink_success health with Some sn => sn_success sn | None => [] end.
Proof.
  intros Hw He Ha Hb. unfold observe_sink_failure_episode_success, after_delivery.
  destruct (snapshot_durable_sink_success health) as [sn|] eqn:Hsn.
  - pose proof (snapshot_wf _ _ Hsn) as Hwf. cbn [observed_names] in Ha.
    assert (tracks sink (match bm_get sink (sn_success sn) with Some v => after_success v episode | None => episode end)
              (clear_sinks_with_new_success (sn_success sn) s)) as Ht.
    { unfold clear_sinks_with_new_success. apply (fold_on_key clear_if_stale (tracks sink) after_success).
      - intros. by apply clear_if_stale_same.
      - intros a k v x Hin Hk. apply clear_if_stale_other, Ha; [|done].
        apply elem_of_app. left. unfold bm_keys. apply list_elem_of_fmap. by exists (k, v).
      - by apply bm_wf_nodup.
      - done. }
    apply (clear_all_tracks sink (sn_unordered sn)) in Ht; [|intros n Hn; apply Ha, elem_of_app; by right].
    destruct (clear_all _ _) as [s1 c1]. unfold clear_successful_best_effort_episodes.
    assert (tracks sink (after_observation (Some sn) sink episode) (s1, c1)) as Ht1.
    { revert Ht. unfold after_observation, after_success. destruct episode as [[i r]|]; [|by repeat case_match].
      assert (bs_contains sink (sn_unordered sn) = bool_decide (sink ∈ sn_unordered sn)) as ->.
      { apply eq_true_iff_eq. by rewrite bs_contains_spec, bool_decide_eq_true. }
      destruct (bm_get _ _) as [v|]; [|done]. by destruct (text_eqb _ r), (bool_decide _). }
    destruct attempted; cbn [negb andb]; [|done]. apply (clear_all_tracks sink _ (s1, false) _ Hb) in Ht1.
    by destruct (clear_all _ _).
  - cbn [after_observation]. unfold clear_successful_best_effort_episodes. destruct attempted; cbn [negb andb]; [|done].
    assert (tracks sink episode (s, false)) as Ht by done. apply (clear_all_tracks sink _ (s, false) _ Hb) in Ht.
    by destruct (clear_all _ _).
Qed.

(** *** Selecting alerts *)

Lemma open_spec sink s episode identity : bs_wf (ss_seen_detection_fingerprints s) → episode_is s sink episode →
  plain identity → sink_failure_episode_open s sink identity = bool_decide (fst <$> episode = Some identity).
Proof.
  intros Hw [Hk Hi] Hp. set (p := sink_failure_episode_latch sink identity ++ lit "@").
  assert (sink_failure_episode_open s sink identity = negb (is_empty_list (keys_with_prefix p (ss_seen_detection_fingerprints s)))) as ->.
  { unfold sink_failure_episode_open, keys_with_prefix. fold p. destruct (drop_while _ _) as [|key keys]; [done|].
    cbn [take_while]. by destruct (starts p key). }
  rewrite keys_with_prefix_filter by done. apply eq_true_iff_eq. rewrite bool_decide_eq_true. split.
  - destruct (List.filter _ _) as [|key l] eqn:Hf; [done|]. intros _.
    assert (key ∈ List.filter (starts p) (ss_seen_detection_fingerprints s)) as [Hin Hs]%elem_of_bfilter by (rewrite Hf; left).
    apply starts_spec in Hs as [r ->]. unfold p in Hin. rewrite <- app_assoc in Hin. fold (episode_key sink identity r) in Hin.
    apply seen_spec, Hk in Hin as (i & r' & -> & He); [|apply episode_key_prefix].
    destruct (Hi i r' eq_refl) as (_ & Hpi & _). by apply episode_key_inj in He as [-> _].
  - destruct episode as [[i r]|]; [|done]. intros He. cbn [fmap option_fmap option_map fst] in He. apply Some_inj in He as ->.
    assert (episode_key sink identity r ∈ List.filter (starts p) (ss_seen_detection_fingerprints s)) as Hin.
    { apply elem_of_bfilter. split.
      - apply seen_spec, Hk; [apply episode_key_prefix|by exists identity, r].
      - unfold episode_key, p. rewrite app_assoc. apply starts_prefix. }
    destruct (List.filter _ _); [by apply elem_of_nil in Hin|done].
Qed.

Definition statuses_ok (failures : list SinkFailure) : Prop := Forall (λ failure, status_ok (sf_class failure)) failures.

(** What the loop knows of the sink. *)
Definition loop_of sink (last : option (option text)) (chosen : list text) (alerts : list SinkFailure) (acc : SelectionLoop) : Prop :=
  failures_of sink acc.1.1 = alerts ∧ bm_get sink acc.1.2 = last ∧ bm_wf acc.1.2 ∧
  ∀ identity, bs_contains (sink, identity) acc.2 = bool_decide (identity ∈ chosen).

Lemma failures_of_app sink l k : failures_of sink (l ++ k) = failures_of sink l ++ failures_of sink k.
Proof. apply List.filter_app. Qed.

Lemma failures_of_one sink failure : failures_of sink [failure] = if text_eqb (sink_name failure) sink then [failure] else [].
Proof. done. Qed.

Lemma chosen_insert sink (identity : text) (chosen : list text) (selected : list (text * text)) : (∀ i, bs_contains (sink, i) selected = bool_decide (i ∈ chosen)) →
  ∀ i, bs_contains (sink, i) (bs_insert (sink, identity) selected) = bool_decide (i ∈ identity :: chosen).
Proof.
  intros Hc i. apply eq_true_iff_eq. rewrite bs_contains_spec, bs_insert_elem, bool_decide_eq_true, elem_of_cons.
  rewrite <- bs_contains_spec, Hc, bool_decide_eq_true. naive_solver.
Qed.

Lemma chosen_other sink sink' (identity : text) (chosen : list text) (selected : list (text * text)) : sink' ≠ sink →
  (∀ i, bs_contains (sink, i) selected = bool_decide (i ∈ chosen)) →
  ∀ i, bs_contains (sink, i) (bs_insert (sink', identity) selected) = bool_decide (i ∈ chosen).
Proof.
  intros Hne Hc i. rewrite <- Hc. apply eq_true_iff_eq. rewrite !bs_contains_spec, bs_insert_elem. naive_solver.
Qed.

Lemma select_other s all honor sink last chosen alerts acc failure : sink_name failure ≠ sink →
  loop_of sink last chosen alerts acc → loop_of sink last chosen alerts (select_failure s all honor acc failure).
Proof.
  destruct acc as [[found keys] selected]. intros Hne (Hf & Hg & Hw & Hc). cbn [fst snd] in *.
  assert (failures_of sink (found ++ [failure]) = alerts) as Happ.
  { rewrite failures_of_app, failures_of_one. unfold text_eqb. by rewrite bool_decide_false, app_nil_r. }
  unfold select_failure. destruct (sink_failure_episode_identity _) as [i|].
  - cbv zeta. match goal with |- context [if ?b then _ else if ?c then _ else _] => destruct b; [|destruct c] end.
    + split_and!; [done|by cbn [fst snd]; rewrite bm_get_insert_ne|by apply bm_insert_wf|done].
    + split_and!; [done|by cbn [fst snd]; rewrite bm_get_insert_ne|by apply bm_insert_wf|done].
    + split_and!; [done|by cbn [fst snd]; rewrite bm_get_insert_ne|by apply bm_insert_wf|by cbn [fst snd]; apply chosen_other].
  - split_and!; [done|by cbn [fst snd]; rewrite bm_get_insert_ne|by apply bm_insert_wf|done].
Qed.

Lemma select_fold s all honor sink failures last' chosen alerts acc :
  loop_of sink last' chosen alerts acc →
  ∃ chosen', loop_of sink (match last (failures_of sink failures) with
                           | Some failure => Some (sink_failure_episode_identity (sf_class failure)) | None => last' end) chosen'
    (alerts ++ alerts_of (is_released all sink) (λ i, honor && sink_failure_episode_open s sink i) last' chosen (failures_of sink failures))
    (foldl (select_failure s all honor) acc failures).
Proof.
  revert last' chosen alerts acc. induction failures as [|failure failures IH]; intros last' chosen alerts acc Hl.
  - exists chosen. by rewrite app_nil_r.
  - cbn [foldl]. change (failure :: failures) with ([failure] ++ failures). rewrite failures_of_app, failures_of_one.
    unfold text_eqb. destruct (decide (sink_name failure = sink)) as [Hn|Hne].
    2: { rewrite bool_decide_false by done. cbn [app]. by apply IH, select_other. }
    rewrite bool_decide_true by done. cbn [app]. destruct acc as [[found keys] selected]. destruct Hl as (Hf & Hg & Hw & Hc).
    cbn [fst snd] in *.
    assert (failures_of sink (found ++ [failure]) = alerts ++ [failure]) as Happ.
    { rewrite failures_of_app, failures_of_one, Hf. unfold text_eqb. by rewrite bool_decide_true. }
    rewrite last_cons. unfold select_failure. cbn [alerts_of]. rewrite Hn, Hg.
    destruct (sink_failure_episode_identity _) as [i|] eqn:Hi.
    + rewrite Hc. set (opened := match last' with Some current => _ | None => _ end).
      destruct (negb (is_released all sink i) && opened) eqn:Hq; [|destruct (bool_decide (i ∈ chosen)) eqn:Hch]; cbn [orb].
      * destruct (IH (Some (Some i)) chosen alerts (found, bm_insert sink (Some i) keys, selected)) as [c Hcc].
        { split_and!; [done|apply bm_get_insert_eq|by apply bm_insert_wf|done]. }
        exists c. by destruct (last (failures_of sink failures)); rewrite ?Hi.
      * destruct (IH (Some (Some i)) chosen alerts (found, bm_insert sink (Some i) keys, selected)) as [c Hcc].
        { split_and!; [done|apply bm_get_insert_eq|by apply bm_insert_wf|done]. }
        exists c. by destruct (last (failures_of sink failures)); rewrite ?Hi.
      * destruct (IH (Some (Some i)) (i :: chosen) (alerts ++ [failure])
          (found ++ [failure], bm_insert sink (Some i) keys, bs_insert (sink, i) selected)) as [c Hcc].
        { split_and!; [done|apply bm_get_insert_eq|by apply bm_insert_wf|by cbn [fst snd]; apply chosen_insert]. }
        exists c. rewrite <- app_assoc in Hcc. by destruct (last (failures_of sink failures)); rewrite ?Hi.
    + destruct (IH (Some None) chosen (alerts ++ [failure]) (found ++ [failure], bm_insert sink None keys, selected)) as [c Hcc].
      { split_and!; [done|apply bm_get_insert_eq|by apply bm_insert_wf|done]. }
      exists c. rewrite <- app_assoc in Hcc. by destruct (last (failures_of sink failures)); rewrite ?Hi.
Qed.

Lemma select_keys s all honor failures acc k : k ∈ bm_keys (foldl (select_failure s all honor) acc failures).1.2 →
  k ∈ bm_keys acc.1.2 ∨ k ∈ map sink_name failures.
Proof.
  revert acc. induction failures as [|failure failures IH]; intros acc Hk; [by left|]. cbn [foldl map] in *.
  apply IH in Hk as [Hk|Hk]; [|right; by right]. destruct acc as [[found keys] selected]. unfold select_failure in Hk.
  assert (∀ v, k ∈ bm_keys (bm_insert (sink_name failure) v keys) → k ∈ bm_keys keys ∨ k ∈ sink_name failure :: map sink_name failures) as Hi.
  { unfold bm_keys. intros v. rewrite bm_insert_keys. intros [->|?]; [right; by left|by left]. }
  destruct (sink_failure_episode_identity _) as [i|]; [|by apply Hi in Hk]. cbv zeta in Hk.
  match type of Hk with context [if ?b then _ else if ?c then _ else _] => destruct b; [|destruct c] end; by apply Hi in Hk.
Qed.

Lemma alerts_of_ext released f g last' chosen failures :
  (∀ failure i, failure ∈ failures → sink_failure_episode_identity (sf_class failure) = Some i → f i = g i) →
  alerts_of released f last' chosen failures = alerts_of released g last' chosen failures.
Proof.
  revert last' chosen. induction failures as [|failure failures IH]; intros last' chosen Hfg; [done|]. cbn [alerts_of].
  assert (∀ last' chosen, alerts_of released f last' chosen failures = alerts_of released g last' chosen failures) as IH'.
  { intros. apply IH. intros fl i Hin. apply Hfg. by right. }
  destruct (sink_failure_episode_identity _) as [i|] eqn:Hi; [|by rewrite IH'].
  rewrite (Hfg failure i ltac:(left) Hi). by rewrite !IH'.
Qed.

(** A sink that fails in one way alerts once, and not while that episode is open. *)
Lemma alerts_of_one released already_open i failures :
  Forall (λ failure, sink_failure_episode_identity (sf_class failure) = Some i) failures →
  alerts_of released already_open None [] failures = if negb (released i) && already_open i then [] else take 1 failures.
Proof.
  assert (∀ chosen l, (i ∈ chosen ∨ released i = false) →
    Forall (λ failure, sink_failure_episode_identity (sf_class failure) = Some i) l →
    alerts_of released already_open (Some (Some i)) chosen l = []) as Hrest.
  { intros chosen l Hc. induction 1 as [|failure l Hi _ IH]; [done|]. cbn [alerts_of]. rewrite Hi.
    rewrite (bool_decide_true (Some i = Some i)) by done. destruct Hc as [Hc|Hr].
    - rewrite (bool_decide_true (i ∈ chosen)) by done. by rewrite orb_true_r.
    - rewrite Hr. cbn [negb andb orb]. done. }
  destruct 1 as [|failure l Hi Hl]; [by destruct (_ && _)|]. cbn [alerts_of]. rewrite Hi.
  rewrite (bool_decide_false (i ∈ [])) by (by intros ?%elem_of_nil). rewrite orb_false_r.
  destruct (released i) eqn:Hr, (already_open i); cbn [negb andb]; cbn [take]; rewrite Hrest; (done || (left; left) || by right).
Qed.

Definition involved_names (sinks : SinkSet) (health : option (list SinkHealth)) (failures : list SinkFailure) : list text :=
  observed_names (snapshot_durable_sink_success health) ++ successful_best_effort sinks failures ++ map sink_name failures.

Definition known_success (health : option (list SinkHealth)) sink : option Z :=
  match snapshot_durable_sink_success health with
  | Some snapshot => default None (bm_get sink (sn_success snapshot))
  | None => None
  end.

Lemma record_selection_tracks accepted success sink episode s b keys :
  tracks sink episode (s, b) → apart sink (bm_keys keys) → bm_wf keys →
  (∀ i, bm_get sink keys = Some (Some i) → is_sink_failure_episode_identity i = true ∧ plain i) →
  tracks sink (match bm_get sink keys with
               | Some identity => (λ i, (i, success_reference (default None (bm_get sink success))))
                                    <$> (if (accepted : bool) then identity else None)
               | None => episode end)
    (foldl (record_selection success accepted) (s, b) keys).
Proof.
  intros Ht Ha Hw Hi. apply (fold_on_key (record_selection success accepted) (tracks sink)
    (λ identity _, (λ i, (i, success_reference (default None (bm_get sink success)))) <$> (if accepted then identity else None))).
  - intros [s1 b1] v x Hin [Hs He]. cbn [fst] in *. unfold record_selection.
    pose proof (episode_record_wf sink (if accepted then v else None) (default None (bm_get sink success)) s1 Hs) as Hs'.
    pose proof (record_same sink (if accepted then v else None) (default None (bm_get sink success)) s1 x He) as He'.
    destruct (record_sink_failure_episode _ _ _ s1). split; [done|]. apply He'. intros i Hv. apply Hi.
    apply bm_get_elem; [done|]. destruct accepted; [by rewrite <- Hv|done].
  - intros [s1 b1] k v x Hin Hk [Hs He]. cbn [fst] in *. unfold record_selection.
    assert (evidence_hash k ≠ evidence_hash sink) as Hne.
    { apply Ha; [|done]. unfold bm_keys. apply list_elem_of_fmap. by exists (k, v). }
    pose proof (episode_record_wf k (if accepted then v else None) (default None (bm_get k success)) s1 Hs) as Hs'.
    pose proof (record_other sink k (if accepted then v else None) (default None (bm_get k success)) s1 x Hne He) as He'.
    by destruct (record_sink_failure_episode k _ _ s1).
  - by apply bm_wf_nodup.
  - done.
Qed.

Lemma sink_episodes_steps sinks health failures attempted deliver s sink episode :
  bs_wf (ss_seen_detection_fingerprints s) → episode_is s sink episode → statuses_ok failures →
  apart sink (involved_names sinks health failures) →
  let '(s', alerts, _) := sink_failure_alerts sinks health failures attempted deliver s in
  let observed := after_delivery sinks health failures attempted sink episode in
  let accepted := is_empty_list alerts || deliver alerts in
  failures_of sink alerts =
    alerts_of (is_released failures sink)
      (λ i, is_some (snapshot_durable_sink_success health) && bool_decide (fst <$> observed = Some i)) None []
      (failures_of sink failures) ∧
  bs_wf (ss_seen_detection_fingerprints s') ∧
  episode_is s' sink
    (match last_identity sink failures with
     | Some identity => (λ i, (i, success_reference (known_success health sink))) <$> (if accepted then identity else None)
     | None => observed
     end).
Proof.
  intros Hw He Hst Ha. unfold sink_failure_alerts, select_sink_failure_alerts.
  assert (apart sink (observed_names (snapshot_durable_sink_success health))) as Ha1.
  { intros n Hn. apply Ha. unfold involved_names. rewrite !elem_of_app. tauto. }
  assert (apart sink (successful_best_effort sinks failures)) as Ha2.
  { intros n Hn. apply Ha. unfold involved_names. rewrite !elem_of_app. tauto. }
  pose proof (observe_tracks sinks health failures attempted sink s episode Hw He Ha1 Ha2) as Hobs. cbv zeta in Hobs.
  destruct (observe_sink_failure_episode_success _ _ _ _ s) as [s1 o]. cbn [fst snd] in Hobs. destruct Hobs as ([Hw1 He1] & Hh & Hd).
  cbn [fst] in *. set (observed := after_delivery _ _ _ _ _ _) in *. rewrite Hh.
  set (honor := is_some (snapshot_durable_sink_success health)).
  destruct (select_fold s1 failures honor sink failures None [] [] ([], [], [])) as [chosen Hl].
  { split_and!; [done|done|constructor|]. intros i. by rewrite bool_decide_false by (by intros ?%elem_of_nil). }
  pose proof (select_keys s1 failures honor failures ([], [], [])) as Hkeys.
  destruct (foldl (select_failure s1 failures honor) _ failures) as [[alerts keys] selected].
  destruct Hl as (Hal & Hk & Hkw & _). cbn [fst snd sas_alerts sas_episode_keys app] in *.
  assert (∀ failure i, failure ∈ failures → sink_failure_episode_identity (sf_class failure) = Some i →
    is_sink_failure_episode_identity i = true ∧ plain i) as Hids.
  { intros failure i Hin Hi. eapply identity_ok; [|exact Hi]. unfold statuses_ok in Hst. rewrite Forall_forall in Hst. by apply Hst. }
  assert (∀ failure, failure ∈ failures_of sink failures → failure ∈ failures) as Hsub.
  { intros failure Hin. by apply elem_of_bfilter in Hin as [? _]. }
  assert ((if is_empty_list alerts then true else deliver alerts) = is_empty_list alerts || deliver alerts) as Hacc
    by (by destruct alerts).
  rewrite Hacc. set (accepted := is_empty_list alerts || deliver alerts).
  assert (bm_get sink keys = last_identity sink failures) as Hlast.
  { rewrite Hk. unfold last_identity. by destruct (last (failures_of sink failures)). }
  pose proof (record_selection_tracks accepted (eo_durable_success o) sink observed s1 (eo_cleared o) keys) as Hr.
  destruct (foldl (record_selection _ _) _ keys) as [s' changed]. split.
  - rewrite Hal. apply alerts_of_ext. intros failure i Hin%Hsub Hi. destruct (Hids failure i Hin Hi) as [_ Hp].
    by rewrite (open_spec sink s1 observed i Hw1 He1 Hp).
  - rewrite Hlast, Hd in Hr. unfold known_success.
    destruct Hr as [Hw' He'].
    + by split.
    + intros n Hn. apply Ha. unfold involved_names. rewrite !elem_of_app.
      destruct (Hkeys n Hn) as [Hnil|?]; [by apply elem_of_nil in Hnil|tauto].
    + done.
    + intros i Hi. unfold last_identity in Hi. destruct (last (failures_of sink failures)) as [failure|] eqn:Hf; [|done].
      cbn [fmap option_fmap option_map] in Hi. apply Some_inj in Hi. apply (Hids failure i); [|done].
      by apply Hsub, last_Some_elem_of.
    + split; [done|]. cbn [fst] in He'. by destruct (snapshot_durable_sink_success health).
Qed.

(** C14: The markers in the state implement one episode per sink.  Let a sink have an open episode, an
    identity of blocking and the success known when it was latched, or none.  After a delivery with any
    failures, the alerts about the sink are those of its own failures alone: every failure that is not
    a blocked row, and each identity of blocking once unless its episode is still open and no released
    row failed again, where a success the latch did not know, one that cannot be ordered, or a
    best-effort success ends an episode before the alerts are chosen.  The state then says that the
    episode is the sink's last identity with the success known now when its alerts were delivered,
    none when they were not, and is unchanged when the sink did not fail.  The digests of the names
    involved must tell them from the name of the sink. *)
Theorem sink_episodes_refine sinks health failures attempted deliver s sink episode :
  bs_wf (ss_seen_detection_fingerprints s) → episode_is s sink episode → statuses_ok failures →
  apart sink (involved_names sinks health failures) →
  let '(s', alerts, _) := sink_failure_alerts sinks health failures attempted deliver s in
  let observed := after_delivery sinks health failures attempted sink episode in
  let accepted := is_empty_list alerts || deliver alerts in
  failures_of sink alerts =
    alerts_of (is_released failures sink)
      (λ i, is_some (snapshot_durable_sink_success health) && bool_decide (fst <$> observed = Some i)) None []
      (failures_of sink failures) ∧
  bs_wf (ss_seen_detection_fingerprints s') ∧
  episode_is s' sink
    (match last_identity sink failures with
     | Some identity => (λ i, (i, success_reference (known_success health sink))) <$> (if accepted then identity else None)
     | None => observed
     end).
Proof. apply sink_episodes_steps. Qed.

End proofs.

(** ** A run of deliveries *)

Section run.
Context `{StateServices} `{!EventServices} `{!EventServicesLaws}.

Record Delivered := {
  dl_sinks : SinkSet;
  dl_health : option (list SinkHealth);
  dl_failures : list SinkFailure;
  dl_attempted : bool;
  dl_deliver_alerts : list SinkFailure → bool;
}.

Fixpoint alerts_of_run (deliveries : list Delivered) (s : ScanState) : list (list SinkFailure) :=
  match deliveries with
  | [] => []
  | d :: deliveries =>
      let '(s, alerts, _) :=
        sink_failure_alerts (dl_sinks d) (dl_health d) (dl_failures d) (dl_attempted d) (dl_deliver_alerts d) s in
      alerts :: alerts_of_run deliveries s
  end.

(** The sink is blocked in one way, its last success is the same and its alerts are delivered. *)
Definition blocked_alike (sink identity : text) (success : option Z) (d : Delivered) : Prop :=
  statuses_ok (dl_failures d) ∧ apart sink (involved_names (dl_sinks d) (dl_health d) (dl_failures d)) ∧
  failures_of sink (dl_failures d) ≠ [] ∧
  Forall (λ failure, sink_failure_episode_identity (sf_class failure) = Some identity) (failures_of sink (dl_failures d)) ∧
  is_released (dl_failures d) sink identity = false ∧
  (∃ snapshot, snapshot_durable_sink_success (dl_health d) = Some snapshot ∧ bs_contains sink (sn_unordered snapshot) = false) ∧
  known_success (dl_health d) sink = success ∧ sink ∉ successful_best_effort (dl_sinks d) (dl_failures d) ∧
  ∀ alerts, dl_deliver_alerts d alerts = true.

Lemma blocked_step sink identity success d s episode :
  blocked_alike sink identity success d → bs_wf (ss_seen_detection_fingerprints s) → episode_is s sink episode →
  (episode = None ∨ episode = Some (identity, success_reference success)) →
  let '(s', alerts, _) :=
    sink_failure_alerts (dl_sinks d) (dl_health d) (dl_failures d) (dl_attempted d) (dl_deliver_alerts d) s in
  failures_of sink alerts = (if is_some episode then [] else take 1 (failures_of sink (dl_failures d))) ∧
  bs_wf (ss_seen_detection_fingerprints s') ∧ episode_is s' sink (Some (identity, success_reference success)).
Proof.
  intros (Hst & Ha & Hown & Hall & Hrel & (sn & Hsn & Hun) & Hks & Hbest & Hdel) Hw He Hep.
  pose proof (sink_episodes_steps (dl_sinks d) (dl_health d) (dl_failures d) (dl_attempted d) (dl_deliver_alerts d) s sink episode Hw He Hst Ha) as Hr.
  destruct (sink_failure_alerts _ _ _ _ _ s) as [[s' alerts] changed]. destruct Hr as (Hal & Hw' & He').
  assert (after_delivery (dl_sinks d) (dl_health d) (dl_failures d) (dl_attempted d) sink episode = episode) as Had.
  { unfold after_delivery. rewrite bool_decide_false, andb_false_r by done. rewrite Hsn. unfold after_observation.
    destruct Hep as [->| ->]; [done|]. unfold known_success in Hks. rewrite Hsn in Hks. rewrite Hun.
    destruct (bm_get sink (sn_success sn)) as [v|]; [|done]. change (v = success) in Hks. subst success.
    unfold text_eqb. by rewrite bool_decide_true. }
  split; [|split; [done|]].
  - rewrite Hal, (alerts_of_one _ _ identity) by done. rewrite Hrel, Hsn, Had. cbn [negb is_some andb].
    destruct Hep as [->| ->]; cbn [is_some fmap option_fmap option_map fst]; [by rewrite bool_decide_false|by rewrite bool_decide_true].
  - unfold last_identity in He'. destruct (last (failures_of sink (dl_failures d))) as [failure|] eqn:Hl;
      [|by apply last_None in Hl].
    cbn [fmap option_fmap option_map] in He'. rewrite Forall_forall in Hall. rewrite (Hall failure) in He' by (by apply last_Some_elem_of).
    rewrite Hks, Hdel, orb_true_r in He'. exact He'.
Qed.

(** While a sink stays blocked in the same way and is not seen to succeed, a run of deliveries alerts
    about it once, in the first of them. *)
Theorem blocked_sink_alerts_once sink identity success d deliveries s :
  bs_wf (ss_seen_detection_fingerprints s) → episode_is s sink None →
  Forall (blocked_alike sink identity success) (d :: deliveries) →
  map (failures_of sink) (alerts_of_run (d :: deliveries) s) =
    take 1 (failures_of sink (dl_failures d)) :: map (λ _, []) deliveries.
Proof.
  intros Hw He [Hd Hds]%Forall_cons. cbn [alerts_of_run].
  pose proof (blocked_step sink identity success d s None Hd Hw He (or_introl eq_refl)) as Hs.
  destruct (sink_failure_alerts _ _ _ _ _ s) as [[s' alerts] c]. destruct Hs as (Hal & Hw' & He'). cbn [map]. f_equal; [exact Hal|].
  clear Hal Hw He s alerts c Hd d. revert s' Hw' He'. induction Hds as [|d deliveries Hd _ IH]; intros s Hw He; [done|].
  cbn [alerts_of_run]. pose proof (blocked_step sink identity success d s _ Hd Hw He (or_intror eq_refl)) as Hs.
  destruct (sink_failure_alerts _ _ _ _ _ s) as [[s' alerts] c]. destruct Hs as (Hal & Hw' & He'). cbn [map]. f_equal; [exact Hal|].
  by apply IH.
Qed.

End run.

Module SinkSample.
Import Reference BuildSample StateSample.

Definition siem : text := lit "siem".
Definition sinks : SinkSet :=
  {| ss_entries := [{| se_name := "siem"; se_transport := "webhook"; se_persistence_path := None; se_rotation_keep := None;
                       se_delivery_policy := Durable; se_persistence_role := RoleNone;
                       se_retry := {| max_attempts := 3; base_delay_ms := 500 |} |}];
     ss_durable_outbox_path := Some "outbox.sqlite3"; ss_durable_sink_ids := ["siem"];
     ss_durable_capacity_limits := capacity_limits_default; ss_durable_replay_active := true |}.
Definition health : option (list SinkHealth) :=
  Some [{| sh_sink_id := siem; sh_last_success_at := Some 5; sh_last_error_at := Some 9 |}].
Definition refused (event : string) : SinkFailure :=
  {| sf_name := "siem"; sf_kind := "webhook"; sf_class := AuthenticationBlocked 401; sf_attempts := 1;
     sf_error := event; sf_prior_attempts := 0; sf_prior_error_class := None |}.
Definition failures : list SinkFailure := [refused "first"; refused "second"].
Definition accept (alerts : list SinkFailure) : bool := true.
Definition delivered : Delivered :=
  {| dl_sinks := sinks; dl_health := health; dl_failures := failures; dl_attempted := true; dl_deliver_alerts := accept |}.

Lemma only_siem : apart siem (involved_names sinks health failures).
Proof.
  assert (involved_names sinks health failures = [siem; siem; siem]) as -> by (vm_compute; reflexivity).
  intros name Hin Hne. exfalso. apply Hne. rewrite !elem_of_cons, elem_of_nil in Hin. tauto.
Qed.

Lemma no_episode : episode_is ScanState_default siem None.
Proof. split; [|done]. intros key _. split; [done|]. by intros (i & r & ? & _). Qed.

Lemma failures_typed : statuses_ok failures.
Proof. by repeat constructor. Qed.

Lemma sink_episodes_refine_witness :
  failures_of siem (sink_failure_alerts sinks health failures true accept ScanState_default).1.2 = [refused "first"].
Proof.
  pose proof (sink_episodes_refine sinks health failures true accept ScanState_default siem None
    (SSorted_nil _) no_episode failures_typed only_siem) as Hr.
  destruct (sink_failure_alerts sinks health failures true accept ScanState_default) as [[s' alerts] c].
  etransitivity; [exact (proj1 Hr)|vm_compute; reflexivity].
Defined.

Lemma blocked : blocked_alike siem (lit "authentication_blocked:401") (Some 5) delivered.
Proof.
  split_and!; [exact failures_typed|exact only_siem|by vm_compute| | | | | |done].
  - repeat constructor; vm_compute; reflexivity.
  - vm_compute. reflexivity.
  - eexists. split; [reflexivity|vm_compute; reflexivity].
  - vm_compute. reflexivity.
  - apply (bool_decide_unpack _). vm_compute. exact I.
Qed.

Lemma blocked_sink_alerts_once_witness :
  map (failures_of siem) (alerts_of_run [delivered; delivered; delivered] ScanState_default) = [[refused "first"]; []; []].
Proof.
  pose proof (blocked_sink_alerts_once siem (lit "authentication_blocked:401") (Some 5) delivered [delivered; delivered]
    ScanState_default (SSorted_nil _) no_episode (Forall_cons_2 _ _ _ blocked (Forall_cons_2 _ _ _ blocked (Forall_cons_2 _ _ _ blocked (Forall_nil_2 _))))) as Hr.
  etransitivity; [exact Hr|vm_compute; reflexivity].
Defined.

End SinkSample.
