(* ===== verification/ScanSteps.v ===== *)
(** * How the state of the scanner evolves

    The operations of ScanState.v and SinkEpisodes.v as steps of the state: what every
    reachable state satisfies, that a finding is reported once, that the alerts about the
    scanner's health follow the edges of their conditions, and what the rebuilt baselines,
    the cursors, the heartbeat and the inventory of sources contain. *)

From S2P Require Import Prelude Ordered Rstr Scoring JournalNames Unicode Regex RegexRef RedactPatterns Redaction RedactionSafe EventIdentifiers EventEmit EventPrivacy EventHistory EventBuild EventBuildSafe Baseline ScanState SinkEpisodes.
From stdpp Require Import relations.
From Stdlib Require Import Ascii.

Local Open Scope Z_scope.

(** ** Steps *)

Section steps.
Context `{StateServices} `{EventServices}.

Definition with_install_inventory (snapshot : InstallInventorySnapshot) (s : ScanState) : ScanState :=
  {| ss_seen_source_fingerprints := ss_seen_source_fingerprints s;
     ss_seen_detection_fingerprints := ss_seen_detection_fingerprints s;
     ss_baseline_snapshots := ss_baseline_snapshots s;
     ss_baseline_source_contributions := ss_baseline_source_contributions s;
     ss_source_observations := ss_source_observations s;
     ss_sqlite_ingestion_cursors := ss_sqlite_ingestion_cursors s; ss_install_inventory := Some snapshot |}.

Inductive state_step (s : ScanState) : ScanState → Prop :=
| step_emit probe source event routine : state_step s (should_emit probe source event routine s).1
| step_summary probe source event : state_step s (should_emit_session_risk_summary probe source event s).1
| step_enter_outage client : state_step s (enter_source_outage client s).1
| step_clear_outage client : state_step s (clear_source_outage client s)
| step_enter_threshold : state_step s (enter_scanner_error_threshold s).1
| step_clear_threshold : state_step s (clear_scanner_error_threshold s)
| step_episode sink identity success : state_step s (record_sink_failure_episode sink identity success s).1
| step_heartbeat unix_ms : state_step s (record_health_heartbeat unix_ms s)
| step_reset : state_step s (reset_legacy_baseline s)
| step_contribution source fingerprint snapshots s' : Forall summary_wf snapshots →
    record_baseline_source_contribution source fingerprint snapshots s = Ok s' → state_step s s'
| step_rebuild s' : rebuild_baseline_snapshots_from_source_contributions s = Ok s' → state_step s s'
| step_observe sources unix_ms : state_step s (observe_sources sources unix_ms s)
| step_replace sources unix_ms : state_step s (replace_source_observations sources unix_ms s)
| step_cursor source table time unix_ms : state_step s (observe_sqlite_ingestion_cursor source table time unix_ms s)
| step_drain source table time unix_ms : state_step s (observe_sqlite_ingestion_drain source table time unix_ms s)
| step_inventory snapshot : state_step s (with_install_inventory snapshot s).

End steps.

(** ** Keys that stay *)

Section keys.
Context `{StateServices} `{!StateServicesLaws} `{!EventServices}.
Implicit Types s : ScanState.

(** The keys of detections and of summaries. *)
Definition lasting (key : text) : Prop :=
  starts (lit "telltale:detection_emission:") key = true ∨ starts (lit "telltale:session_risk_summary:") key = true.

Lemma sha_hex l : Forall (λ c, hex_lower c = true) (sha256_hex l).
Proof.
  pose proof (sha256_hex_hex l) as Hh. unfold is_canonical_sha256_hex in Hh. apply andb_true_iff in Hh as [_ Hh].
  rewrite forallb_forall in Hh. apply Forall_forall. intros c Hc%list_elem_of_In. auto.
Qed.

Lemma lasting_not_digest key l : lasting key → key ≠ sha256_hex l.
Proof.
  intros Hk ->. pose proof (sha_hex l) as Hh. destruct Hk as [Hk|Hk]; apply starts_spec in Hk as [r Hr]; rewrite Hr in Hh;
    apply Forall_app in Hh as [Hh _]; inversion Hh as [|? ? Ht _]; by vm_compute in Ht.
Qed.

Lemma lasting_not_heartbeat key : lasting key → starts HEALTH_HEARTBEAT_PREFIX key = false.
Proof. intros [[r ->]%starts_spec|[r ->]%starts_spec]; reflexivity. Qed.

Lemma lasting_not_marker key sink : lasting key →
  episode_marker (episode_prefix sink) key = false ∧ episode_marker (legacy_episode_prefix sink) key = false.
Proof. intros [[r ->]%starts_spec|[r ->]%starts_spec]; split; apply not_marker; reflexivity. Qed.

Lemma seen_set_seen k sources detections s s' : seen k (set_seen sources detections s) = seen k (set_seen sources detections s').
Proof. done. Qed.

Lemma state_step_keeps s s' key : state_step s s' → lasting key → seen key s = true → seen key s' = true.
Proof.
  intros Hstep Hl Hs. destruct Hstep.
  - apply should_emit_seen. by right.
  - unfold should_emit_session_risk_summary. apply should_emit_posture_seen. by right.
  - apply seen_latch. by right.
  - apply seen_unlatch. split; [by apply lasting_not_digest|done].
  - apply seen_latch. by right.
  - apply seen_unlatch. split; [by apply lasting_not_digest|done].
  - apply seen_record. right. split; [done|by apply lasting_not_marker].
  - apply seen_heartbeat. right. split; [by apply lasting_not_heartbeat|done].
  - unfold reset_legacy_baseline. by destruct (_ =? _).
  - unfold record_baseline_source_contribution in *. destruct (collect _ _); [|done].
    match goal with H : Ok _ = Ok _ |- _ => injection H as <- end. exact Hs.
  - unfold rebuild_baseline_snapshots_from_source_contributions in *. destruct (try_fold _ _ _); [|done].
    match goal with H : Ok _ = Ok _ |- _ => injection H as <- end. exact Hs.
  - exact Hs.
  - exact Hs.
  - exact Hs.
  - exact Hs.
  - exact Hs.
Qed.

Lemma steps_keep s s' key : rtc state_step s s' → lasting key → seen key s = true → seen key s' = true.
Proof. induction 1 as [|s1 s2 s3 Hstep _ IH]; [done|]. intros Hl Hs. apply IH; [done|]. by eapply state_step_keeps. Qed.

(** ** Findings are reported once *)

Definition is_finding (event : Event) : Prop := is_Some (emission_kind event).

(** The same posture, classification and evidence that counts; routine evidence, times, identifiers
    and whatever else an event holds may differ. *)
Record same_finding (routine : list text) (e e' : Event) : Prop := {
  fd_type : ev_event_type e = ev_event_type e';
  fd_client : ev_client e = ev_client e';
  fd_path : ev_source_path_hash e = ev_source_path_hash e';
  fd_session : ev_session_id e = ev_session_id e';
  fd_severity : ev_severity e = ev_severity e';
  fd_score : ev_risk_score e = ev_risk_score e';
  fd_agent : ev_agent e = ev_agent e';
  fd_model : ev_model e = ev_model e';
  fd_provider : ev_provider e = ev_provider e';
  fd_tool : ev_tool_name e = ev_tool_name e';
  fd_rules : ev_rule_ids e = ev_rule_ids e';
  fd_categories : ev_categories e = ev_categories e';
  fd_tags : ev_tags e = ev_tags e';
  fd_classes : ev_detection_classes e = ev_detection_classes e';
  fd_signals : ev_signal_types e = ev_signal_types e';
  fd_intents : ev_analytic_intents e = ev_analytic_intents e';
  fd_atlas : ev_atlas_tags e = ev_atlas_tags e';
  fd_evidence : is_lit "detection" (ev_event_type e) = true →
    map hash_evidence_item (reemitting routine e) = map hash_evidence_item (reemitting routine e');
}.

Lemma same_posture routine e e' f f' : same_finding routine e e' → ev_source_path_hash e ≠ None ∨ f = f' →
  hash_event_posture e f = hash_event_posture e' f'.
Proof.
  intros Hs Hf. unfold hash_event_posture, hash_source. destruct Hs as [-> -> Hp -> -> -> -> -> -> -> -> -> -> _ _ _ _ _].
  rewrite Hp in *. destruct (ev_source_path_hash e'); [done|]. by destruct Hf as [Hf| ->].
Qed.

Lemma same_classification routine e e' : same_finding routine e e' → classification_fingerprint e = classification_fingerprint e'.
Proof. intros Hs. unfold classification_fingerprint. by destruct Hs as [_ _ _ _ _ _ _ _ _ _ _ _ _ -> -> -> -> _]. Qed.

Lemma same_summary routine e e' f f' : same_finding routine e e' → ev_source_path_hash e ≠ None ∨ f = f' →
  session_risk_summary_fingerprint e f = session_risk_summary_fingerprint e' f'.
Proof.
  intros Hs Hf. unfold session_risk_summary_fingerprint, hash_source.
  destruct Hs as [-> -> Hp -> -> -> -> -> -> _ -> -> -> _ _ _ _ _].
  rewrite Hp in *. destruct (ev_source_path_hash e'); [done|]. by destruct Hf as [Hf| ->].
Qed.

Lemma same_key probe probe' source source' routine e e' : is_finding e → same_finding routine e e' →
  ev_source_path_hash e ≠ None ∨ source_fingerprint probe source = source_fingerprint probe' source' →
  emission_key probe source e routine = emission_key probe' source' e' routine.
Proof.
  intros Hi Hs Hf. pose proof (same_posture _ _ _ _ _ Hs Hf) as Hp. unfold emission_key, is_finding, emission_kind in *.
  unfold classified_prefix, posture_prefix. rewrite <- (fd_type _ _ _ Hs), <- (same_classification _ _ _ Hs), Hp.
  rewrite (same_summary _ _ _ _ _ Hs Hf).
  destruct (is_lit "session_risk_summary" _); [done|]. destruct (is_lit "detection" _) eqn:Hd; [|by destruct Hi].
  unfold detection_emission_fingerprint. by rewrite Hp, (fd_evidence _ _ _ Hs Hd).
Qed.

Lemma kind_prefix kind r : starts (lit "telltale:" ++ kind ++ lit ":") (lit "telltale:" ++ kind ++ lit ":" ++ r) = true.
Proof. apply starts_spec. exists r. by rewrite <- !app_assoc. Qed.

Lemma finding_key_lasting probe source e routine : is_finding e → lasting (emission_key probe source e routine).
Proof.
  unfold is_finding, emission_kind, emission_key, lasting, classified_prefix, posture_prefix.
  destruct (is_lit "session_risk_summary" _).
  - intros _. right. rewrite <- !app_assoc. apply (kind_prefix (lit "session_risk_summary")).
  - destruct (is_lit "detection" _); [|by intros []]. intros _. left. rewrite <- !app_assoc. apply (kind_prefix (lit "detection_emission")).
Qed.

(** C12: A finding is reported once.  When neither the key of a detection or of a session summary nor
    its fingerprint of earlier releases is remembered, it is reported.  Whatever the scanner's state
    then goes through, the raising and clearing of alerts, heartbeats, episodes of sinks, other
    findings, baselines, cursors and inventories included, a finding with the same posture, the same
    classification and the same evidence that is not routine is not reported again, even if the file it
    came from has grown, as long as the event names its source by its path. *)
Theorem finding_reported_once s s' probe probe' source source' routine e e' :
  is_finding e → same_finding routine e e' →
  ev_source_path_hash e ≠ None ∨ source_fingerprint probe source = source_fingerprint probe' source' →
  rtc state_step (should_emit probe source e routine s).1 s' →
  (seen (emission_key probe source e routine) s = false →
   seen (detection_fingerprint e (source_fingerprint probe source)) s = false →
   (should_emit probe source e routine s).2 = true) ∧
  should_emit probe' source' e' routine s' = (s', false).
Proof.
  intros Hi Hs Hf Hsteps. split.
  - unfold is_finding, emission_kind, emission_key in *. unfold should_emit, should_emit_session_risk_summary, should_emit_posture.
    intros Hk Hl. destruct (is_lit "session_risk_summary" _); [|destruct (is_lit "detection" _); [|by destruct Hi]];
      by rewrite Hk, Hl, andb_false_r.
  - apply should_emit_known. rewrite <- (same_key probe probe' source source' routine e e' Hi Hs Hf).
    eapply steps_keep; [exact Hsteps|by apply finding_key_lasting|]. apply should_emit_seen. by left.
Qed.

End keys.

(** ** What a reachable state satisfies *)

Section invariant.
Context `{StateServices} `{!EventServices} `{!EventServicesLaws}.
Implicit Types s : ScanState.

(** A summary the state may keep: its hosts are digests. *)
Definition summary_saved (summary : BaselineSummary) : Prop :=
  summary_wf summary ∧ ∀ host, host ∈ bm_keys (bs_network_host_counts summary) → is_canonical_host_hash host = true.

Definition filed (entry : text * BaselineSummary) : Prop :=
  entry.1 = baseline_snapshot_id (bs_key entry.2) ∧ summary_saved entry.2.

Definition contribution_ok (entry : text * BaselineSourceContribution) : Prop :=
  let c := entry.2 in
  entry.1 = co_client c ++ unit_separator ++ co_source_id c ++ unit_separator ++ co_source_instance_id c ∧
  bm_wf (co_snapshots c) ∧ Forall filed (co_snapshots c).

Definition observation_ok (entry : text * SourceObservation) : Prop :=
  let o := entry.2 in
  entry.1 = ob_client o ++ unit_separator ++ ob_source_id o ++ unit_separator ++ ob_source_instance_id o.

(** A cut is of an unfinished window and never after the checkpoint. *)
Definition cursor_ok (entry : text * SqliteIngestionCursor) : Prop :=
  let c := entry.2 in
  entry.1 = sqlite_ingestion_cursor_key_for_instance (cu_client c) (cu_source_id c) (cu_source_instance_id c) (cu_table c) ∧
  cu_draining c = is_some (cu_continue_after_time_updated c) ∧
  ∀ cut, cu_continue_after_time_updated c = Some cut → cut ≤ cu_last_time_updated c.

Record state_wf s : Prop := {
  wf_sources : bs_wf (ss_seen_source_fingerprints s);
  wf_detections : bs_wf (ss_seen_detection_fingerprints s);
  wf_snapshots : bm_wf (st_snapshots (ss_baseline_snapshots s)) ∧ Forall filed (st_snapshots (ss_baseline_snapshots s));
  wf_contributions : bm_wf (ss_baseline_source_contributions s) ∧ Forall contribution_ok (ss_baseline_source_contributions s);
  wf_observations : bm_wf (ss_source_observations s) ∧ Forall observation_ok (ss_source_observations s);
  wf_cursors : bm_wf (ss_sqlite_ingestion_cursors s) ∧ Forall cursor_ok (ss_sqlite_ingestion_cursors s);
}.

Lemma bm_insert_Forall {V} (P : text * V → Prop) k v (m : list (text * V)) :
  P (k, v) → Forall P m → Forall P (bm_insert k v m).
Proof.
  intros Hp. induction 1 as [|[k' v'] m Hkv Hm IH]; cbn [bm_insert]; [by constructor|].
  destruct (cmp k k'); by repeat constructor.
Qed.

Lemma insert_ok {V} (P : text * V → Prop) k v (m : list (text * V)) :
  P (k, v) → bm_wf m ∧ Forall P m → bm_wf (bm_insert k v m) ∧ Forall P (bm_insert k v m).
Proof. intros Hp [Hw Hm]. split; [by apply bm_insert_wf|by apply bm_insert_Forall]. Qed.

Lemma fold_insert_ok {A V} (P : text * V → Prop) (key : A → text) (value : A → V) l m :
  Forall (λ a, P (key a, value a)) l → bm_wf m ∧ Forall P m →
  bm_wf (foldl (λ m a, bm_insert (key a) (value a) m) m l) ∧ Forall P (foldl (λ m a, bm_insert (key a) (value a) m) m l).
Proof. intros Hl. revert m. induction Hl as [|a l Ha _ IH]; intros m Hm; [done|]. by apply IH, insert_ok. Qed.

(** *** Summaries *)

Lemma add_hosts_canonical l counts counts' :
  bm_wf counts → (∀ host, host ∈ bm_keys counts → is_canonical_host_hash host = true) →
  try_fold (λ counts hc, add_count counts (baseline_host_identity hc.1, hc.2)) counts l = Ok counts' →
  bm_wf counts' ∧ ∀ host, host ∈ bm_keys counts' → is_canonical_host_hash host = true.
Proof.
  revert counts. induction l as [|hc l IH]; intros counts Hw Hc; cbn [try_fold]; [by intros [= <-]|].
  destruct (add_count _ _) as [counts1|] eqn:Ha; [|done]. apply add_count_Ok in Ha as (Hw1 & _ & Hk1); [|done].
  apply IH; [done|]. intros host. rewrite Hk1. intros [Hh| ->]; [by apply Hc|apply host_identity_canonical].
Qed.

Lemma hashed_saved summary hashed : summary_wf summary → hash_network_hosts_for_state summary = Ok hashed → summary_saved hashed.
Proof.
  intros (Ht & Hp & _). unfold hash_network_hosts_for_state. destruct (try_fold _ _ _) as [counts|] eqn:Hf; [|done].
  intros [= <-]. apply add_hosts_canonical in Hf as [Hw Hc]; [|constructor|by intros ? ?%elem_of_nil]. by split; [split_and!|].
Qed.

Lemma merge_saved a b m : summary_saved a → summary_saved b → checked_merge_from a b = Ok m →
  summary_saved m ∧ bs_key m = bs_key a ∧ ∀ x, measured x m = measured x a + measured x b.
Proof.
  intros [Ha Hca] [Hb Hcb] Hm. destruct (merge_measured _ _ _ Ha Hb Hm) as (Hw & Hk & Hx). split; [|done]. split; [done|].
  unfold checked_merge_from in Hm. destruct Ha as (_ & _ & Ha), Hb as (_ & _ & Hb).
  repeat match type of Hm with match ?c with Ok _ => _ | Err _ => _ end = Ok _ =>
    let E := fresh "Hstep" in destruct c eqn:E; [|discriminate Hm] end.
  injection Hm as <-. cbn [bs_network_host_counts]. apply merge_counts_Ok in Hstep2 as (_ & _ & Hkeys); [|done..].
  intros host. rewrite Hkeys. intros [?|?]; auto.
Qed.

Lemma stage_ok staged summary staged' : bm_wf staged ∧ Forall filed staged → summary_saved summary →
  stage staged summary = Ok staged' → bm_wf staged' ∧ Forall filed staged'.
Proof.
  intros [Hw Hf] Hs. unfold stage. destruct (bm_get _ staged) as [existing|] eqn:Hg.
  - destruct (checked_merge_from existing summary) as [merged|] eqn:Hm; [|done]. intros [= <-].
    apply bm_get_elem in Hg; [|done]. rewrite Forall_forall in Hf. apply Hf in Hg as Hfe. destruct Hfe as [Hid He].
    destruct (merge_saved _ _ _ He Hs Hm) as (Hsm & Hk & _). apply insert_ok; [|split; [done|by rewrite Forall_forall]].
    split; [|done]. cbn [fst snd] in *. by rewrite Hk.
  - intros [= <-]. by apply insert_ok.
Qed.

Lemma contributed_saved contributions : Forall contribution_ok contributions → Forall summary_saved (contributed contributions).
Proof.
  unfold contributed, bm_values. induction 1 as [|[k c] contributions (_ & _ & Hc) _ IH]; [constructor|].
  cbn [map fmap list_fmap concat snd] in *. apply Forall_app. split; [|done]. clear IH.
  induction Hc as [|[id summary] l [_ Hs] _ IHl]; [constructor|]. cbn [fmap list_fmap snd]. by constructor.
Qed.

Lemma stages_ok l staged staged' : bm_wf staged ∧ Forall filed staged → Forall summary_saved l →
  try_fold stage staged l = Ok staged' → bm_wf staged' ∧ Forall filed staged'.
Proof.
  intros Hs Hl. revert staged Hs. induction Hl as [|summary l Hsum _ IH]; intros staged Hs; cbn [try_fold]; [by intros [= <-]|].
  destruct (stage staged summary) as [staged1|] eqn:Hstage; [|done]. apply IH. by eapply stage_ok.
Qed.

(** *** Operations *)

Lemma should_emit_posture_wf f event kind posture s : state_wf s → state_wf (should_emit_posture f event kind posture s).1.
Proof. intros []. unfold should_emit_posture. destruct (seen _ s); [done|]. split; cbn [fst saw set_seen]; try done; by apply bs_insert_wf. Qed.

Lemma should_emit_wf probe source event routine s : state_wf s → state_wf (should_emit probe source event routine s).1.
Proof.
  intros Hs. unfold should_emit. destruct (is_lit "session_risk_summary" _); [by apply should_emit_posture_wf|].
  destruct (is_lit "detection" _); [by apply should_emit_posture_wf|]. destruct (seen _ s); [done|].
  destruct Hs. split; cbn [fst saw set_seen]; try done; by apply bs_insert_wf.
Qed.

Lemma insert_cursor_wf source table time unix_ms cut s : state_wf s →
  (∀ c, cut = Some c → c ≤ time) → state_wf (insert_sqlite_ingestion_cursor source table time unix_ms cut s).
Proof.
  intros [] Hc. split; try done. unfold insert_sqlite_ingestion_cursor. cbn [set_cursors ss_sqlite_ingestion_cursors].
  apply insert_ok; [|done]. split; [done|]. split; [done|exact Hc].
Qed.

Lemma observe_wf sources unix_ms s : state_wf s → state_wf (observe_sources sources unix_ms s).
Proof.
  intros []. split; try done. cbn [observe_sources set_observations ss_source_observations].
  apply (fold_insert_ok observation_ok source_observation_key); [|done]. apply Forall_forall. by intros source _.
Qed.

Lemma set_detections_wf detections s : bs_wf detections → state_wf s →
  state_wf (set_seen (ss_seen_source_fingerprints s) detections s).
Proof. intros Hd []. by split. Qed.

Lemma state_step_wf s s' : state_step s s' → state_wf s → state_wf s'.
Proof.
  intros Hstep Hw. pose proof (wf_detections _ Hw) as Hd. destruct Hstep.
  - by apply should_emit_wf.
  - by apply should_emit_posture_wf.
  - by apply set_detections_wf; [apply bs_insert_wf|].
  - by apply set_detections_wf; [apply filter_wf|].
  - by apply set_detections_wf; [apply bs_insert_wf|].
  - by apply set_detections_wf; [apply filter_wf|].
  - unfold record_sink_failure_episode. destruct identity; cbn [fmap option_fmap option_map fst]; apply set_detections_wf; try done.
    + by apply bs_insert_wf, filter_wf.
    + by apply filter_wf.
  - by apply set_detections_wf; [apply bs_insert_wf, filter_wf|].
  - unfold reset_legacy_baseline. destruct (_ =? _); [done|]. destruct Hw. split; try done; by repeat constructor.
  - match goal with H : Forall summary_wf _ |- _ => rename H into Hs end.
    match goal with H : record_baseline_source_contribution _ _ _ _ = _ |- _ => rename H into Hr end. unfold record_baseline_source_contribution in Hr.
    destruct (collect _ snapshots) as [hashed|] eqn:Hc; [|done]. injection Hr as <-. destruct Hw. split; try done.
    cbn [set_baselines ss_baseline_source_contributions]. apply insert_ok; [|done]. split; [done|].
    assert (Forall summary_saved hashed) as Hh.
    { apply collect_Ok in Hc. revert Hs. induction Hc as [|a b l k Hab _ IH]; intros Hs; [constructor|].
      apply Forall_cons in Hs as [Ha Hl]. constructor; [by eapply hashed_saved|by apply IH]. }
    cbn [co_snapshots snd]. apply (fold_insert_ok filed (λ summary, baseline_snapshot_id (bs_key summary)) (λ summary, summary)).
    + eapply Forall_impl; [exact Hh|]. intros summary Hsum. by split.
    + split; constructor.
  - match goal with H : rebuild_baseline_snapshots_from_source_contributions _ = _ |- _ => rename H into Hr end. unfold rebuild_baseline_snapshots_from_source_contributions in Hr.
    destruct (try_fold _ _ _) as [staged|] eqn:Hf; [|done]. injection Hr as <-. destruct Hw as [? ? ? [Hcw Hc] ? ?].
    split; try done. cbn [set_baselines ss_baseline_snapshots st_snapshots].
    eapply stages_ok; [|by apply contributed_saved|exact Hf]. split; constructor.
  - by apply observe_wf.
  - apply observe_wf. destruct Hw. split; try done. split; constructor.
  - apply insert_cursor_wf; [done|]. by intros ? [=].
  - apply insert_cursor_wf; [done|]. intros c [= <-]. unfold checkpoint. destruct (bm_get _ _); lia.
  - destruct Hw. by split.
Qed.

Lemma default_wf : state_wf ScanState_default.
Proof. split; repeat constructor. Qed.

Lemma checkpoint_advances source table time unix_ms cut s key c :
  bm_get key (ss_sqlite_ingestion_cursors s) = Some c →
  ∃ c', bm_get key (ss_sqlite_ingestion_cursors
    (insert_sqlite_ingestion_cursor source table (checkpoint source table time s) unix_ms cut s)) = Some c' ∧
    cu_last_time_updated c ≤ cu_last_time_updated c'.
Proof.
  intros Hc. unfold insert_sqlite_ingestion_cursor. cbn [set_cursors ss_sqlite_ingestion_cursors]. unfold checkpoint.
  destruct (decide (sqlite_ingestion_cursor_key source table = key)) as [->|Hne].
  - rewrite bm_get_insert_eq, Hc. eexists. split; [done|]. cbn [cu_last_time_updated]. lia.
  - rewrite bm_get_insert_ne by done. eauto with lia.
Qed.

Lemma state_step_checkpoint s s' key c : state_step s s' → bm_get key (ss_sqlite_ingestion_cursors s) = Some c →
  ∃ c', bm_get key (ss_sqlite_ingestion_cursors s') = Some c' ∧ cu_last_time_updated c ≤ cu_last_time_updated c'.
Proof.
  intros Hstep Hc.
  assert (ss_sqlite_ingestion_cursors s' = ss_sqlite_ingestion_cursors s →
    ∃ c', bm_get key (ss_sqlite_ingestion_cursors s') = Some c' ∧ cu_last_time_updated c ≤ cu_last_time_updated c') as Hsame.
  { intros ->. eauto with lia. }
  destruct Hstep; try (apply Hsame; reflexivity); try by apply checkpoint_advances.
  - apply Hsame. unfold should_emit, should_emit_session_risk_summary, should_emit_posture. by repeat case_match.
  - apply Hsame. unfold should_emit_session_risk_summary, should_emit_posture. by repeat case_match.
  - apply Hsame. unfold record_sink_failure_episode. by destruct identity.
  - apply Hsame. unfold reset_legacy_baseline. by destruct (_ =? _).
  - apply Hsame. unfold record_baseline_source_contribution in *. destruct (collect _ _); [|done].
    by match goal with H : Ok _ = Ok _ |- _ => injection H as <- end.
  - apply Hsame. unfold rebuild_baseline_snapshots_from_source_contributions in *. destruct (try_fold _ _ _); [|done].
    by match goal with H : Ok _ = Ok _ |- _ => injection H as <- end.
Qed.

(** C37: Every state the scanner can reach from a fresh one is well formed: its sets and maps are
    sorted and free of duplicates, each entry is filed under the key its fields spell, every host of a
    baseline and of a contribution is a digest, so that no host name reaches the state file, and the
    cut of an unfinished window of a database is marked as draining and never lies after the
    checkpoint, as the reader of the state file demands.  Checkpoints never move back. *)
Theorem reachable_states_well_formed s s' : rtc state_step ScanState_default s → rtc state_step s s' →
  state_wf s ∧
  (∀ key c, bm_get key (ss_sqlite_ingestion_cursors s) = Some c →
     ∃ c', bm_get key (ss_sqlite_ingestion_cursors s') = Some c' ∧ cu_last_time_updated c ≤ cu_last_time_updated c').
Proof.
  intros Hs Hs'. split.
  - assert (∀ a b, rtc state_step a b → state_wf a → state_wf b) as Hsteps; [|by eapply Hsteps; [exact Hs|apply default_wf]].
    induction 1 as [|a b c Hab _ IH]; [done|]. intros Ha. by eapply IH, state_step_wf.
  - clear Hs. intros key. induction Hs' as [s|s1 s2 s3 Hstep _ IH]; [eauto with lia|]. intros c Hc.
    destruct (state_step_checkpoint s1 s2 key c Hstep Hc) as (c2 & Hc2 & Hle). destruct (IH c2 Hc2) as (c3 & ? & ?).
    eauto with lia.
Qed.

End invariant.

(** ** Rebuilt baselines *)

Section rebuilt.
Context `{StateServices} `{!EventServices} `{!EventServicesLaws}.
Implicit Types s : ScanState.

(** The measure of what is filed under an identifier, and of what sources contributed to it. *)
Definition filed_measure (id : text) (x : measure) (m : list (text * BaselineSummary)) : Z :=
  match bm_get id m with Some summary => measured x summary | None => 0 end.

Definition contributes (id : text) (summary : BaselineSummary) : bool := text_eqb (baseline_snapshot_id (bs_key summary)) id.

Definition contributed_measure (id : text) (x : measure) (l : list BaselineSummary) : Z :=
  foldr (λ summary n, measured x summary + n) 0 (List.filter (contributes id) l).

Lemma stage_sum staged summary staged' id x : bm_wf staged ∧ Forall filed staged → summary_saved summary →
  stage staged summary = Ok staged' →
  filed_measure id x staged' = filed_measure id x staged + (if contributes id summary then measured x summary else 0) ∧
  (is_Some (bm_get id staged') ↔ is_Some (bm_get id staged) ∨ contributes id summary = true).
Proof.
  intros [Hw Hf] Hs Hst. unfold stage in Hst. unfold contributes, text_eqb.
  set (key := baseline_snapshot_id (bs_key summary)) in *.
  assert (∃ v, staged' = bm_insert key v staged ∧ measured x v = filed_measure key x staged + measured x summary) as (v & -> & Hv).
  { unfold filed_measure. destruct (bm_get key staged) as [existing|] eqn:Hg.
    - destruct (checked_merge_from existing summary) as [merged|] eqn:Hm; [|done]. injection Hst as <-. exists merged.
      split; [done|]. apply bm_get_elem in Hg; [|done]. rewrite Forall_forall in Hf. destruct (Hf _ Hg) as [_ He].
      by destruct (merge_saved _ _ _ He Hs Hm) as (_ & _ & ->).
    - injection Hst as <-. exists summary. split; [done|]. lia. }
  destruct (decide (key = id)) as [<-|Hne].
  - rewrite bool_decide_true by done. split; [unfold filed_measure at 1; rewrite bm_get_insert_eq; lia|].
    rewrite bm_get_insert_eq. split; [by right|by eexists].
  - rewrite bool_decide_false by done. unfold filed_measure. rewrite bm_get_insert_ne by done. split; [lia|]. naive_solver.
Qed.

Lemma stages_sum l staged staged' id x : bm_wf staged ∧ Forall filed staged → Forall summary_saved l →
  try_fold stage staged l = Ok staged' →
  filed_measure id x staged' = filed_measure id x staged + contributed_measure id x l ∧
  (is_Some (bm_get id staged') ↔ is_Some (bm_get id staged) ∨ List.filter (contributes id) l ≠ []).
Proof.
  intros Hs Hl. revert staged Hs. induction Hl as [|summary l Hsum _ IH]; intros staged Hs; cbn [try_fold].
  - intros [= <-]. cbn. split; [lia|]. naive_solver.
  - destruct (stage staged summary) as [staged1|] eqn:Hstage; [|done]. intros Hf.
    destruct (stage_sum _ _ _ id x Hs Hsum Hstage) as [Hm Hi]. apply IH in Hf as [-> Hi']; [|by eapply stage_ok].
    rewrite Hm, Hi', Hi. unfold contributed_measure. cbn [List.filter]. destruct (contributes id summary); cbn [foldr].
    + split; [lia|]. naive_solver.
    + split; [lia|]. naive_solver.
Qed.

(** C38: Rebuilding the baselines adds up exactly what the sources contributed.  From any reachable state,
    when the rebuild succeeds, a baseline is filed under an identifier if and only if some source
    contributed a summary of that identifier, and each of its totals and counts, of any tool, class of
    paths or host, is the sum over all the summaries the sources contributed to it; the contributions
    stay as they were, so rebuilding again gives the same baselines. *)
Theorem rebuilt_baselines_sum s s' : rtc state_step ScanState_default s →
  rebuild_baseline_snapshots_from_source_contributions s = Ok s' →
  (∀ id x, filed_measure id x (st_snapshots (ss_baseline_snapshots s')) =
     contributed_measure id x (contributed (ss_baseline_source_contributions s))) ∧
  (∀ id, is_Some (bm_get id (st_snapshots (ss_baseline_snapshots s'))) ↔
     List.filter (contributes id) (contributed (ss_baseline_source_contributions s)) ≠ []) ∧
  rebuild_baseline_snapshots_from_source_contributions s' = Ok s'.
Proof.
  intros Hs Hr. assert (state_wf s) as [_ _ _ [_ Hc] _ _].
  { assert (∀ a b, rtc state_step a b → state_wf a → state_wf b) as Hsteps; [|by eapply Hsteps; [exact Hs|apply default_wf]].
    induction 1 as [|a b c Hab _ IH]; [done|]. intros Ha. by eapply IH, state_step_wf. }
  unfold rebuild_baseline_snapshots_from_source_contributions in *.
  destruct (try_fold stage [] _) as [staged|] eqn:Hf; [|done]. injection Hr as <-.
  assert (bm_wf ([] : list (text * BaselineSummary)) ∧ Forall filed []) as H0' by (split; constructor).
  split_and!.
  - intros id x. exact (proj1 (stages_sum _ _ _ id x H0' (contributed_saved _ Hc) Hf)).
  - intros id. destruct (stages_sum _ _ _ id Records H0' (contributed_saved _ Hc) Hf) as [_ Hi]. cbn [set_baselines ss_baseline_snapshots st_snapshots].
    rewrite Hi. cbn [bm_get]. split; [intros [[? [=]]|?]; done|by right].
  - cbn [set_baselines ss_baseline_source_contributions]. by rewrite Hf.
Qed.

End rebuilt.

(** ** The heartbeat *)

Section heartbeat.
Context `{StateServices}.
Implicit Types s : ScanState.

Lemma encode_lit t : forallb is_ascii (bytes t) = true → encode_str (lit t) = t.
Proof.
  intros Ha. assert (ascii_text (lit t)) as Ht.
  { unfold lit. induction (bytes t) as [|c l IH]; [constructor|]. cbn [forallb map] in *. apply andb_true_iff in Ha as [Hc Hl].
    constructor; [by apply is_ascii_code|by apply IH]. }
  rewrite <- (of_bytes_bytes (encode_str (lit t))), encode_of_ascii by done. rewrite <- (of_bytes_bytes t) at 2. f_equal.
  unfold lit. rewrite map_map. etransitivity; [|apply map_id]. apply map_ext. apply ascii_N_embedding.
Qed.

Lemma parse_number z : u64 z → parse_u64 (number z) = Some z.
Proof.
  intros Hz. unfold parse_u64, number. rewrite encode_lit; [by apply parse_decimal|].
  unfold u64, u64_max in Hz. destruct (decimal_digits z) as [_ HD _ _]; [lia|]. apply forallb_forall.
  intros c Hc%list_elem_of_In. rewrite Forall_forall in HD. apply HD in Hc. unfold is_ascii_digit, is_ascii in *.
  destruct c as [[] [] [] [] [] [] [] []]; vm_compute in Hc |- *; done.
Qed.

(** The heartbeat that was recorded is the one that is read, and it is due again when the interval has
    passed or the clock was set back. *)
Theorem heartbeat_recorded unix_ms now interval s : bs_wf (ss_seen_detection_fingerprints s) → u64 unix_ms → 0 ≤ interval →
  last_health_heartbeat_unix_ms (record_health_heartbeat unix_ms s) = Some unix_ms ∧
  (health_heartbeat_wait (last_health_heartbeat_unix_ms (record_health_heartbeat unix_ms s)) now interval = 0 ↔
   now < unix_ms ∨ Z.min (interval * 1000) u64_max ≤ now - unix_ms).
Proof.
  intros Hw Hu Hi.
  assert (last_health_heartbeat_unix_ms (record_health_heartbeat unix_ms s) = Some unix_ms) as Hlast.
  { unfold last_health_heartbeat_unix_ms. cbn [record_health_heartbeat set_seen ss_seen_detection_fingerprints].
    rewrite keys_with_prefix_filter by (by apply bs_insert_wf, filter_wf).
    set (key := HEALTH_HEARTBEAT_PREFIX ++ number unix_ms).
    assert (List.filter (starts HEALTH_HEARTBEAT_PREFIX) (bs_insert key
      (List.filter (λ k, negb (starts HEALTH_HEARTBEAT_PREFIX k)) (ss_seen_detection_fingerprints s))) = [key]) as ->.
    { apply bs_ext; [by apply filter_wf, bs_insert_wf, filter_wf|repeat constructor|]. intros k.
      rewrite elem_of_bfilter, bs_insert_elem, elem_of_bfilter, negb_true_iff, list_elem_of_singleton.
      split; [|intros ->; split; [by left|apply starts_prefix]]. intros [[?|[_ Hf]] Hs]; [done|congruence]. }
    unfold key. cbn [omap list_omap]. rewrite strip_app. cbn [mbind option_bind]. by rewrite parse_number. }
  split; [exact Hlast|]. rewrite Hlast. unfold health_heartbeat_wait, saturating_sub, saturating_mul, u64 in *.
  destruct (Z.leb_spec unix_ms now); [|lia]. lia.
Qed.

End heartbeat.

(** ** Sources *)

Section sources.
Context `{StateServices}.
Implicit Types s : ScanState.

Lemma observed_keys sources unix_ms s key : key ∈ bm_keys (ss_source_observations (observe_sources sources unix_ms s)) ↔
  key ∈ bm_keys (ss_source_observations s) ∨ key ∈ map source_observation_key sources.
Proof.
  cbn [observe_sources set_observations ss_source_observations]. generalize (ss_source_observations s).
  induction sources as [|source sources IH]; intros m; cbn [foldl map]; [rewrite elem_of_nil; tauto|].
  rewrite IH. unfold bm_keys. rewrite bm_insert_keys, elem_of_cons. tauto.
Qed.

(** A full scan that replaced the observed sources finds no change when it sees the same sources again. *)
Theorem inventory_settles sources again unix_ms s : (∀ source, source ∈ again ↔ source ∈ sources) →
  let change := source_inventory_change_summary again (replace_source_observations sources unix_ms s) in
  sic_added change = 0 ∧ sic_removed change = 0 ∧
  sic_unchanged change = as_u32 (length (bs_of_list (map source_observation_key sources))) ∧
  (sic_baseline change = true ↔ sources = []).
Proof.
  intros Hsame. unfold source_inventory_change_summary, replace_source_observations. cbn [sic_added sic_removed sic_unchanged sic_baseline].
  assert (bs_of_list (bm_keys (ss_source_observations (observe_sources sources unix_ms (set_observations [] s)))) =
          bs_of_list (map source_observation_key sources)) as ->.
  { apply bs_ext; [apply bs_of_list_wf..|]. intros key. rewrite !bs_of_list_elem, observed_keys.
    cbn [set_observations ss_source_observations bm_keys fmap list_fmap]. rewrite elem_of_nil. tauto. }
  assert (bs_of_list (map source_observation_key again) = bs_of_list (map source_observation_key sources)) as ->.
  { apply bs_ext; [apply bs_of_list_wf..|]. intros key. rewrite !bs_of_list_elem, !list_elem_of_In, !in_map_iff.
    setoid_rewrite <- list_elem_of_In. by setoid_rewrite Hsame. }
  set (keys := bs_of_list (map source_observation_key sources)).
  assert (∀ key, In key keys → bs_contains key keys = true) as Hin by (intros key Hk; by apply bs_contains_spec, list_elem_of_In).
  assert (List.filter (λ key, negb (bs_contains key keys)) keys = []) as ->.
  { apply elem_of_nil_inv. intros key [Hk Hn]%elem_of_bfilter. by rewrite Hin in Hn by (by apply list_elem_of_In). }
  assert (List.filter (λ key, bs_contains key keys) keys = keys) as ->.
  { rewrite (filter_ext_in _ (λ _, true)) by exact Hin. generalize keys. intros l. induction l as [|k l IH]; [done|]. cbn. by rewrite IH. }
  split_and!; [done..|]. unfold keys. split.
  - destruct sources as [|source sources]; [done|]. destruct (bs_of_list _) as [|k l] eqn:Hk; [|done]. intros _.
    assert (source_observation_key source ∈ ([] : list text)) as Hn%elem_of_nil; [|done].
    rewrite <- Hk. apply bs_of_list_elem. left.
  - by intros ->.
Qed.

End sources.

(** ** Selecting the events of a scan *)

Section selection.
Context `{StateServices}.
Implicit Types s : ScanState.

(** The key of an item, as the three loops use it. *)
Definition item_key (routine : list text) (item : SourceEvent) : text := emission_key item.1.2 item.1.1 item.2 routine.

Definition summary_key (item : SourceEvent) : text :=
  let f := source_fingerprint item.1.2 item.1.1 in
  classified_prefix item.2 f (lit "session_risk_summary") ++ session_risk_summary_fingerprint item.2 f.

Lemma should_emit_summary_seen probe source event s k :
  seen k (should_emit_session_risk_summary probe source event s).1 = true ↔
  k = summary_key (source, probe, event) ∨ seen k s = true.
Proof. apply should_emit_posture_seen. Qed.

Lemma select_activity_seen routine acc item k :
  seen k (select_activity false routine acc item).1 = true ↔ k = item_key routine item ∨ seen k acc.1 = true.
Proof.
  destruct acc as [s selected], item as [[source probe] event]. unfold select_activity.
  pose proof (should_emit_seen probe source event routine s k) as Hs. by destruct (should_emit _ _ _ _ s).
Qed.

Lemma select_detection_seen routine acc item k :
  seen k (select_detection false routine acc item).1 = true ↔ k = item_key routine item ∨ seen k acc.1 = true.
Proof.
  destruct acc as [s selected], item as [[source probe] event]. unfold select_detection.
  pose proof (should_emit_seen probe source event routine s k) as Hs. by destruct (should_emit _ _ _ _ s).
Qed.

Lemma select_summary_seen acc item k :
  seen k (select_summary false acc item).1 = true ↔ k = summary_key item ∨ seen k acc.1 = true.
Proof.
  destruct acc as [s selected], item as [[source probe] event]. unfold select_summary.
  pose proof (should_emit_summary_seen probe source event s k) as Hs. by destruct (should_emit_session_risk_summary _ _ _ s).
Qed.

Lemma fold_seen (step : ScanState * SelectedSourceEvents → SourceEvent → ScanState * SelectedSourceEvents) key items acc k :
  (∀ acc item, seen k (step acc item).1 = true ↔ k = key item ∨ seen k acc.1 = true) →
  seen k (foldl step acc items).1 = true ↔ k ∈ map key items ∨ seen k acc.1 = true.
Proof.
  intros Hstep. revert acc. induction items as [|item items IH]; intros acc; cbn [foldl map]; [rewrite elem_of_nil; tauto|].
  rewrite IH, Hstep, elem_of_cons. tauto.
Qed.

Definition selected_keys (routine : list text) (activities detections summaries : list SourceEvent) : list text :=
  map (item_key routine) (activities ++ detections) ++ map summary_key summaries.

(** Selecting remembers the keys of the events, and nothing else. *)
Lemma select_seen routine activities detections summaries s k :
  seen k (select_source_events false activities detections summaries routine s).1 = true ↔
  k ∈ selected_keys routine activities detections summaries ∨ seen k s = true.
Proof.
  unfold select_source_events, selected_keys.
  rewrite (fold_seen (select_summary false) summary_key) by (intros; apply select_summary_seen).
  rewrite (fold_seen (select_detection false routine) (item_key routine)) by (intros; apply select_detection_seen).
  rewrite (fold_seen (select_activity false routine) (item_key routine)) by (intros; apply select_activity_seen).
  rewrite map_app, !elem_of_app. cbn [fst]. tauto.
Qed.

Definition detection_count (items : list SourceEvent) : Z :=
  Z.of_nat (length (List.filter (λ item : SourceEvent, is_lit "detection" (ev_event_type item.2)) items)).

Definition emitted_nothing (deduplicated : Z) : SelectedSourceEvents :=
  {| se_events := []; se_emitted_detection_count := 0; se_deduplicated_detection_count := deduplicated;
     se_scanner_error_emitted := false |}.

Lemma select_known_activities routine items s n : (∀ item, item ∈ items → seen (item_key routine item) s = true) →
  foldl (select_activity false routine) (s, emitted_nothing n) items = (s, emitted_nothing n).
Proof.
  induction items as [|[[source probe] event] items IH]; intros Hk; [done|]. cbn [foldl select_activity].
  rewrite should_emit_known; [|by apply (Hk (source, probe, event)); left]. apply IH. intros item Hi. apply Hk. by right.
Qed.

Lemma select_known_detections routine items s n : (∀ item, item ∈ items → seen (item_key routine item) s = true) →
  foldl (select_detection false routine) (s, emitted_nothing n) items = (s, emitted_nothing (n + detection_count items)).
Proof.
  revert n. induction items as [|[[source probe] event] items IH]; intros n Hk.
  - unfold detection_count. cbn. by rewrite Z.add_0_r.
  - cbn [foldl select_detection]. rewrite should_emit_known; [|by apply (Hk (source, probe, event)); left].
    cbn [se_events se_emitted_detection_count se_deduplicated_detection_count se_scanner_error_emitted emitted_nothing negb].
    rewrite andb_false_r, andb_true_r.
    assert (∀ item, item ∈ items → seen (item_key routine item) s = true) as Hk' by (intros item Hi; apply Hk; by right).
    unfold detection_count. cbn [List.filter snd]. destruct (is_lit "detection" _).
    + pose proof (IH (n + 1) Hk') as He. unfold emitted_nothing in He |- *. rewrite He. unfold detection_count. cbn [length].
      do 2 f_equal. lia.
    + pose proof (IH n Hk') as He. exact He.
Qed.

Lemma select_known_summaries items s n : (∀ item, item ∈ items → seen (summary_key item) s = true) →
  foldl (select_summary false) (s, emitted_nothing n) items = (s, emitted_nothing n).
Proof.
  induction items as [|[[source probe] event] items IH]; intros Hk; [done|]. cbn [foldl select_summary].
  unfold should_emit_session_risk_summary, should_emit_posture.
  pose proof (Hk (source, probe, event) ltac:(left)) as Hs. unfold summary_key in Hs. cbn [fst snd] in Hs. rewrite Hs.
  apply IH. intros item Hi. apply Hk. by right.
Qed.

(** Selecting the same events again reports none of them, counts every detection as a duplicate and
    leaves the state as it is. *)
Theorem selection_idempotent routine activities detections summaries s :
  let s' := (select_source_events false activities detections summaries routine s).1 in
  select_source_events false activities detections summaries routine s' =
  (s', emitted_nothing (detection_count detections)).
Proof.
  cbv zeta. set (s' := (select_source_events false activities detections summaries routine s).1).
  assert (∀ k, k ∈ selected_keys routine activities detections summaries → seen k s' = true) as Hk.
  { intros k Hk. apply select_seen. by left. }
  unfold select_source_events at 1. change nothing_selected with (emitted_nothing 0).
  unfold selected_keys in Hk. setoid_rewrite map_app in Hk. setoid_rewrite elem_of_app in Hk. setoid_rewrite elem_of_app in Hk.
  rewrite select_known_activities by (intros item Hi; apply Hk; left; left; by apply list_elem_of_In, in_map, list_elem_of_In).
  rewrite select_known_detections by (intros item Hi; apply Hk; left; right; by apply list_elem_of_In, in_map, list_elem_of_In).
  by rewrite select_known_summaries by (intros item Hi; apply Hk; right; by apply list_elem_of_In, in_map, list_elem_of_In).
Qed.

End selection.

(** ** Alerts about the scanner's health *)

Section health.
Context `{StateServices}.

(** A durable full scan, as far as the alerts go: the events it found, how long it took and which
    source of which client failed. *)
Record ScanHealth := {
  sc_activities : list SourceEvent;
  sc_detections : list SourceEvent;
  sc_session_risk_summaries : list SourceEvent;
  sc_routine_evidence_rules : list text;
  sc_scan_duration_ms : Z;
  sc_results : list (ClientId * bool);
}.

Definition scanner_error_count (scan : ScanHealth) : Z :=
  Z.of_nat (length (List.filter (λ item : SourceEvent, is_lit "scanner_error" (ev_event_type item.2)) (sc_detections scan))).

(** The operational alerts of the scan, and then the outages. *)
Definition scan_health (config : OperationalAlertConfig) (scan : ScanHealth) (s : ScanState)
    : ScanState * list OperationalAlertInput :=
  let count := scanner_error_count scan in
  let '(s, emit_scanner_error_threshold) :=
    scanner_error_threshold_should_alert count (oc_max_scanner_errors config) false true s in
  let operational_alerts := scanner_health_alerts config count (sc_scan_duration_ms scan) emit_scanner_error_threshold in
  let '(s, _) := select_source_events false (sc_activities scan) (sc_detections scan) (sc_session_risk_summaries scan)
                   (sc_routine_evidence_rules scan) s in
  let '(s, outage_alerts) := outage_alerts false (client_parse_outcomes (sc_results scan)) s in
  (s, operational_alerts ++ outage_alerts).

Fixpoint scans_health (config : OperationalAlertConfig) (scans : list ScanHealth) (s : ScanState)
    : ScanState * list (list OperationalAlertInput) :=
  match scans with
  | [] => (s, [])
  | scan :: scans =>
      let '(s, alerts) := scan_health config scan s in
      let '(s, rest) := scans_health config scans s in
      (s, alerts :: rest)
  end.

(** *** The conditions that alert on their edges *)

Record Latches := { lt_errors : bool; lt_outage : ClientId → bool }.

#[export] Instance ClientId_eq_dec : EqDecision ClientId.
Proof. solve_decision. Defined.

(** The number of sources of a client and whether all of them failed. *)
Definition outcome_of (results : list (ClientId * bool)) (c : ClientId) : option (Z * bool) :=
  match List.filter (λ r : ClientId * bool, bool_decide (r.1 = c)) results with
  | [] => None
  | own => Some (Z.of_nat (length own), forallb snd own)
  end.

Definition clients_by_name : list ClientId := [Claude; Codex; Copilot; OpenClaw; OpenCode; Qwen].

Definition outcomes (results : list (ClientId * bool)) : list (ClientId * Z * bool) :=
  omap (λ c, (λ o, (c, o.1, o.2)) <$> outcome_of results c) clients_by_name.

Definition spec_outages (l : Latches) (outcomes : list (ClientId * Z * bool)) : list OperationalAlertInput :=
  omap (λ o : ClientId * Z * bool, if o.2 && negb (lt_outage l o.1.1) then Some (source_parse_outage_input o.1.1 o.1.2) else None) outcomes.

Definition spec_scan (config : OperationalAlertConfig) (scan : ScanHealth) (l : Latches) : Latches * list OperationalAlertInput :=
  let count := scanner_error_count scan in
  let above := oc_max_scanner_errors config <? count in
  ({| lt_errors := above;
      lt_outage c := match outcome_of (sc_results scan) c with Some o => o.2 | None => lt_outage l c end |},
   (if above && negb (lt_errors l) then [error_threshold_input config count (sc_scan_duration_ms scan)] else [])
   ++ (if oc_max_scan_duration_ms config <? sc_scan_duration_ms scan
       then [duration_threshold_input config count (sc_scan_duration_ms scan)] else [])
   ++ spec_outages l (outcomes (sc_results scan))).

Fixpoint spec_scans (config : OperationalAlertConfig) (scans : list ScanHealth) (l : Latches)
    : Latches * list (list OperationalAlertInput) :=
  match scans with
  | [] => (l, [])
  | scan :: scans =>
      let '(l, alerts) := spec_scan config scan l in
      let '(l, rest) := spec_scans config scans l in
      (l, alerts :: rest)
  end.

Definition outage_key (c : ClientId) : text := source_outage_fingerprint (ClientId_as_str c).

Definition latched (s : ScanState) (l : Latches) : Prop :=
  seen scanner_error_threshold_fingerprint s = lt_errors l ∧ ∀ c, seen (outage_key c) s = lt_outage l c.

(** The fingerprints of events that are neither detections nor summaries differ from the latches. *)
Definition distinguishable (scan : ScanHealth) : Prop :=
  ∀ item, item ∈ sc_activities scan ++ sc_detections scan → emission_kind item.2 = None →
    item_key (sc_routine_evidence_rules scan) item ∉ scanner_error_threshold_fingerprint :: map outage_key all_clients.

(** *** Outcomes per client *)

Lemma outcome_of_snoc results c failed c' :
  outcome_of (results ++ [(c, failed)]) c' =
  if bool_decide (c = c') then Some (default 0 (fst <$> outcome_of results c) + 1,
                                     default true (snd <$> outcome_of results c) && failed)
  else outcome_of results c'.
Proof.
  unfold outcome_of. rewrite List.filter_app. cbn [List.filter fst].
  destruct (decide (c = c')) as [<-|Hne]; [|by rewrite !bool_decide_false, app_nil_r].
  rewrite !bool_decide_true by done. destruct (List.filter _ results) as [|r l]; [cbn; by rewrite andb_true_r|].
  cbn [app fmap option_fmap option_map from_option id fst snd]. f_equal. f_equal.
  - cbn [length]. rewrite length_app. cbn [length]. lia.
  - cbn [forallb]. rewrite forallb_app. cbn [forallb snd]. by rewrite andb_true_r, andb_assoc.
Qed.

Lemma client_name_inj c c' : ClientId_as_str c = ClientId_as_str c' → c = c'.
Proof. by destruct c, c'. Qed.

Lemma outcomes_map results :
  let m := foldl count_outcome [] results in
  bm_wf m ∧ (∀ c, bm_get (ClientId_as_str c) m = (λ o, (c, o.1, o.2)) <$> outcome_of results c) ∧
  ∀ k, k ∈ bm_keys m → ∃ c, k = ClientId_as_str c.
Proof.
  induction results as [|[c failed] results IH] using rev_ind; [split_and!; [constructor|done|by intros ? ?%elem_of_nil]|].
  cbv zeta. rewrite foldl_app. cbn [foldl]. destruct IH as (Hw & Hg & Hk). set (m := foldl count_outcome [] results) in *.
  unfold count_outcome, bm_update. split_and!; [by apply bm_insert_wf| |].
  - intros c'. rewrite outcome_of_snoc. destruct (decide (c = c')) as [<-|Hne].
    + rewrite bm_get_insert_eq, bool_decide_true, Hg by done. by destruct (outcome_of results c).
    + rewrite bm_get_insert_ne, bool_decide_false by (done || by intros ?%client_name_inj). apply Hg.
  - intros k. unfold bm_keys. rewrite bm_insert_keys. intros [->|Hin]; [by exists c|by apply Hk].
Qed.

Lemma omap_ext_in {A B} (f g : A → option B) (l : list A) : (∀ x, x ∈ l → f x = g x) → omap f l = omap g l.
Proof.
  induction l as [|x l IH]; intros Hfg; [done|]. cbn [omap list_omap]. rewrite (Hfg x) by left.
  by rewrite IH by (intros y Hy; apply Hfg; by right).
Qed.

(** A map whose keys are among sorted ones is read off them. *)
Lemma map_by_keys {V} (ks : list text) (m : list (text * V)) : bm_wf m → StronglySorted lt_of ks →
  (∀ k, k ∈ bm_keys m → k ∈ ks) → m = omap (λ k, pair k <$> bm_get k m) ks.
Proof.
  unfold bm_keys, bm_wf. revert m. induction ks as [|k ks IH]; intros m Hw Hs Hk.
  { destruct m as [|[k v] m]; [done|]. by specialize (Hk k ltac:(left)) as ?%elem_of_nil. }
  apply StronglySorted_inv in Hs as [Hs Hks]. rewrite Forall_forall in Hks. cbn [omap list_omap].
  destruct (decide (k ∈ m.*1)) as [Hin|Hnin].
  - destruct m as [|[k0 v0] m]; [by apply elem_of_nil in Hin|]. apply StronglySorted_inv in Hw as [Hw H0]. rewrite Forall_forall in H0.
    assert (k0 = k) as ->.
    { apply elem_of_cons in Hin as [Hin|Hin]; [done|]. specialize (H0 _ Hin).
      destruct (proj1 (elem_of_cons _ _ _) (Hk k0 ltac:(left))) as [->|Hin0]; [done|].
      destruct (lt_irrefl k0). by eapply cmp_trans; [exact H0|apply Hks]. }
    cbn [bm_get]. rewrite cmp_refl. cbn [fmap option_fmap option_map]. f_equal.
    rewrite (IH m Hw Hs) at 1.
    + apply omap_ext_in. intros k' Hk'%Hks. destruct (cmp k' k) eqn:Hc; [apply cmp_eq in Hc as ->|..|done].
      * by destruct (lt_irrefl k).
      * destruct (lt_irrefl k). by eapply cmp_trans.
    + intros k' Hk'. destruct (proj1 (elem_of_cons _ _ _) (Hk k' ltac:(by right))) as [->|?]; [|done].
      specialize (H0 _ Hk'). by destruct (lt_irrefl k).
  - rewrite (proj2 (bm_get_None k m) Hnin). cbn [fmap option_fmap option_map]. apply IH; [done..|]. intros k' Hk'.
    destruct (proj1 (elem_of_cons _ _ _) (Hk k' Hk')) as [->|?]; done.
Qed.

Lemma client_parse_outcomes_spec results : client_parse_outcomes results = outcomes results.
Proof.
  destruct (outcomes_map results) as (Hw & Hg & Hk). unfold client_parse_outcomes. set (m := foldl count_outcome [] results) in *.
  rewrite (map_by_keys (map ClientId_as_str clients_by_name) m Hw).
  - unfold outcomes. clear Hw Hk. induction clients_by_name as [|c cs IH]; [done|]. cbn [map omap list_omap].
    rewrite Hg. destruct (outcome_of results c) as [o|]; cbn [fmap option_fmap option_map bm_values list_fmap]; [|exact IH].
    f_equal. exact IH.
  - repeat constructor; vm_compute; reflexivity.
  - intros k Hin. destruct (Hk k Hin) as [c ->]. apply list_elem_of_In, in_map. destruct c; cbn; tauto.
Qed.

(** *** The latches *)

Context `{!StateServicesLaws}.

Definition latch_keys : list text := scanner_error_threshold_fingerprint :: map outage_key all_clients.

Definition client_index (c : ClientId) : nat :=
  match c with Codex => 0 | Claude => 1 | OpenClaw => 2 | Qwen => 3 | OpenCode => 4 | Copilot => 5 end.

Lemma latch_at c : latch_keys !! S (client_index c) = Some (outage_key c).
Proof. by destruct c. Qed.

Lemma outage_key_threshold c : outage_key c ≠ scanner_error_threshold_fingerprint.
Proof.
  intros He. pose proof latches_distinct as Hd. fold outage_key in Hd. change (NoDup latch_keys) in Hd.
  rewrite NoDup_alt in Hd. by pose proof (Hd _ 0%nat _ (latch_at c) (f_equal Some (eq_sym He))).
Qed.

Lemma outage_key_inj c c' : outage_key c = outage_key c' → c = c'.
Proof.
  intros He. pose proof latches_distinct as Hd. fold outage_key in Hd. change (NoDup latch_keys) in Hd.
  rewrite NoDup_alt in Hd. pose proof (latch_at c) as Hc. rewrite He in Hc.
  pose proof (Hd _ _ _ Hc (latch_at c')) as Hi. by destruct c, c'.
Qed.

Lemma latch_key_digest k : k ∈ latch_keys → ∃ l, k = sha256_hex l.
Proof.
  unfold latch_keys, outage_key, source_outage_fingerprint, scanner_error_threshold_fingerprint, digest_text.
  rewrite elem_of_cons, list_elem_of_In, in_map_iff. intros [->|(c & <- & _)]; by eexists.
Qed.

(** Selecting events leaves the latches. *)
Lemma select_latches scan s k : distinguishable scan → k ∈ latch_keys →
  seen k (select_source_events false (sc_activities scan) (sc_detections scan) (sc_session_risk_summaries scan)
    (sc_routine_evidence_rules scan) s).1 = seen k s.
Proof.
  intros Hd Hk. apply eq_true_iff_eq. rewrite select_seen. split; [|by right]. intros [Hin|?]; [|done]. exfalso.
  apply latch_key_digest in Hk as Hl. destruct Hl as [l Hl]. unfold selected_keys in Hin.
  rewrite elem_of_app, !list_elem_of_In, !in_map_iff in Hin. destruct Hin as [(item & <- & Hi)|(item & Hi & _)].
  - apply list_elem_of_In in Hi. destruct (emission_kind item.2) as [kind|] eqn:He.
    + apply (lasting_not_digest (item_key (sc_routine_evidence_rules scan) item) l); [|done].
      apply finding_key_lasting. unfold is_finding. by rewrite He.
    + by apply (Hd item Hi He).
  - apply (lasting_not_digest k l); [|done]. rewrite <- Hi. right. unfold summary_key, classified_prefix, posture_prefix.
    rewrite <- !app_assoc. apply (kind_prefix (lit "session_risk_summary")).
Qed.

Lemma outages_refine outs s l found : latched s l → NoDup (map (λ o : ClientId * Z * bool, o.1.1) outs) →
  let r := foldl (outage_step false) (s, found) outs in
  r.2 = found ++ spec_outages l outs ∧
  latched r.1 {| lt_errors := lt_errors l;
                 lt_outage c := match find (λ o : ClientId * Z * bool, bool_decide (o.1.1 = c)) outs with
                                | Some o => o.2 | None => lt_outage l c end |}.
Proof.
  revert s l found. induction outs as [|[[c n] failed] outs IH]; intros s l found Hl Hn; cbn [foldl map] in *.
  { cbn. rewrite app_nil_r. by destruct l. }
  apply NoDup_cons in Hn as [Hc Hn]. cbn [fst snd] in *. destruct Hl as [Ht Ho].
  set (l1 := {| lt_errors := lt_errors l; lt_outage c' := if bool_decide (c = c') then failed else lt_outage l c' |}).
  assert (∃ s1, outage_step false (s, found) (c, n, failed) =
      (s1, found ++ if failed && negb (lt_outage l c) then [source_parse_outage_input c n] else []) ∧ latched s1 l1) as (s1 & He & Hl1).
  { unfold outage_step. destruct failed; cbn [negb andb].
    - unfold enter_source_outage. fold (outage_key c). exists (latch (outage_key c) s).1. split.
      + cbn [latch fst]. rewrite Ho, orb_false_r. destruct (lt_outage l c); cbn [negb]; [by rewrite app_nil_r|reflexivity].
      + split; cbn [l1 lt_errors lt_outage].
        * rewrite <- Ht. apply eq_true_iff_eq. rewrite seen_latch. split; [|by right].
          intros [He|?]; [by destruct (outage_key_threshold c)|done].
        * intros c'. destruct (decide (c = c')) as [<-|Hne].
          -- rewrite bool_decide_true by done. apply seen_latch. by left.
          -- rewrite bool_decide_false by done. rewrite <- Ho. apply eq_true_iff_eq. rewrite seen_latch. split; [|by right].
             intros [He|?]; [by apply outage_key_inj in He|done].
    - unfold clear_source_outage. fold (outage_key c). eexists. split; [by rewrite app_nil_r|]. split; cbn [l1 lt_errors lt_outage].
      + rewrite <- Ht. apply eq_true_iff_eq. rewrite seen_unlatch. split; [tauto|]. split; [|done].
        intros He. by destruct (outage_key_threshold c).
      + intros c'. destruct (decide (c = c')) as [<-|Hne].
        * rewrite bool_decide_true by done. apply not_true_is_false. rewrite seen_unlatch. tauto.
        * rewrite bool_decide_false by done. rewrite <- Ho. apply eq_true_iff_eq. rewrite seen_unlatch. split; [tauto|].
          split; [|done]. by intros ?%outage_key_inj. }
  rewrite He. destruct (IH s1 l1 (found ++ if failed && negb (lt_outage l c) then [source_parse_outage_input c n] else []) Hl1 Hn)
    as [Hr [Hrt Hro]]. clear IH. cbv zeta. split.
  - rewrite Hr, <- app_assoc. f_equal. unfold spec_outages. cbn [omap list_omap fst snd].
    assert (∀ o, o ∈ outs → o.1.1 ≠ c) as Hoc.
    { intros o Hin Heq. apply Hc. rewrite <- Heq. by apply list_elem_of_In, (in_map (λ o : ClientId * Z * bool, o.1.1)), list_elem_of_In. }
    assert (omap (λ o : ClientId * Z * bool, if o.2 && negb (lt_outage l1 o.1.1) then Some (source_parse_outage_input o.1.1 o.1.2) else None) outs =
            omap (λ o : ClientId * Z * bool, if o.2 && negb (lt_outage l o.1.1) then Some (source_parse_outage_input o.1.1 o.1.2) else None) outs) as ->.
    { apply omap_ext_in. intros o Hin. cbn [l1 lt_outage]. by rewrite bool_decide_false by (intros ->; by apply (Hoc o)). }
    by destruct (failed && negb (lt_outage l c)).
  - split; [exact Hrt|]. intros c'. rewrite Hro. cbn [lt_outage l1 find fst snd].
    destruct (decide (c = c')) as [<-|Hne]; [|by rewrite !bool_decide_false].
    rewrite !bool_decide_true by done. destruct (find _ outs) as [o|] eqn:Hf; [|done].
    apply find_some in Hf as [Hin Heq]. apply bool_decide_eq_true in Heq. destruct Hc. rewrite <- Heq.
    by apply list_elem_of_In, (in_map (λ o : ClientId * Z * bool, o.1.1)).
Qed.

Lemma outcomes_find results c :
  find (λ o : ClientId * Z * bool, bool_decide (o.1.1 = c)) (outcomes results) = (λ o, (c, o.1, o.2)) <$> outcome_of results c.
Proof.
  assert (c ∈ clients_by_name) as Hin by (destruct c; unfold clients_by_name; rewrite !elem_of_cons; tauto).
  unfold outcomes. induction clients_by_name as [|c' cs IH]; [by apply elem_of_nil in Hin|]. cbn [omap list_omap].
  destruct (decide (c' = c)) as [->|Hne].
  - destruct (outcome_of results c) as [o|] eqn:Ho; cbn [fmap option_fmap option_map find fst]; [by rewrite bool_decide_true|].
    clear IH Hin. induction cs as [|c' cs IH]; [done|]. cbn [omap list_omap].
    destruct (outcome_of results c') as [o|] eqn:Ho'; cbn [fmap option_fmap option_map find fst]; [|exact IH].
    rewrite bool_decide_false; [exact IH|]. intros ->. by rewrite Ho in Ho'.
  - apply elem_of_cons in Hin as [->|Hin]; [done|].
    destruct (outcome_of results c') as [o|]; cbn [fmap option_fmap option_map find fst]; [rewrite bool_decide_false by done|]; by apply IH.
Qed.

Lemma outcomes_nodup results : NoDup (map (λ o : ClientId * Z * bool, o.1.1) (outcomes results)).
Proof.
  assert (NoDup clients_by_name) as Hn by (apply (bool_decide_unpack _); vm_compute; exact I).
  unfold outcomes. induction Hn as [|c cs Hc _ IH]; [constructor|]. cbn [omap list_omap].
  destruct (outcome_of results c) as [o|]; cbn [fmap option_fmap option_map map fst]; [|exact IH]. constructor; [|exact IH].
  rewrite list_elem_of_In, in_map_iff. intros (x & Hx & Hin). apply Hc. apply list_elem_of_In, list_elem_of_omap in Hin as (c' & Hin & He).
  destruct (outcome_of results c'); [|done]. injection He as <-. cbn [fst] in Hx. by rewrite Hx in Hin.
Qed.

(** C13: The alerts about the scanner's health follow the edges of their conditions.  Over any sequence of
    durable full scans, starting from a state whose latches say what has been alerted, the fingerprints
    the state keeps implement one latch for the number of scanner errors and one for every client: a scan
    alerts about errors exactly when their number is above the limit and was not above it at the last
    scan, and about a client exactly when all of its sources failed and it was not recorded as lost; a
    client is recorded as lost until a scan processes one of its sources, and scans that see none of its
    sources change nothing.  A scan that took too long always alerts.  The fingerprints of the events that
    are neither detections nor summaries must differ from the latches. *)
Theorem health_alerts_refine config scans s l : latched s l → Forall distinguishable scans →
  (scans_health config scans s).2 = (spec_scans config scans l).2 ∧
  latched (scans_health config scans s).1 (spec_scans config scans l).1.
Proof.
  intros Hl Hd. revert s l Hl. induction Hd as [|scan scans Hd _ IH]; intros s l Hl; [done|].
  assert (∃ s', scan_health config scan s = (s', (spec_scan config scan l).2) ∧ latched s' (spec_scan config scan l).1) as (s' & He & Hl').
  { unfold scan_health. destruct Hl as [Ht Ho].
    set (above := oc_max_scanner_errors config <? scanner_error_count scan).
    assert (∃ s1, scanner_error_threshold_should_alert (scanner_error_count scan) (oc_max_scanner_errors config) false true s =
      (s1, above && negb (lt_errors l)) ∧ latched s1 {| lt_errors := above; lt_outage := lt_outage l |}) as (s1 & -> & Hl1).
    { unfold scanner_error_threshold_should_alert. fold above. cbn [negb]. destruct above; cbn [andb].
      - unfold enter_scanner_error_threshold. exists (latch scanner_error_threshold_fingerprint s).1.
        split; [unfold latch at 1; by rewrite Ht|]. split; cbn [lt_errors lt_outage].
        + apply seen_latch. by left.
        + intros c. rewrite <- Ho. apply eq_true_iff_eq. rewrite seen_latch. split; [|by right].
          intros [He|?]; [by destruct (outage_key_threshold c)|done].
      - unfold clear_scanner_error_threshold. eexists. split; [done|]. split; cbn [lt_errors lt_outage].
        + apply not_true_is_false. rewrite seen_unlatch. tauto.
        + intros c. rewrite <- Ho. apply eq_true_iff_eq. rewrite seen_unlatch. split; [tauto|]. split; [|done]. apply outage_key_threshold. }
    destruct Hl1 as [Ht1 Ho1].
    pose proof (λ k, select_latches scan s1 k Hd) as Hsel. destruct (select_source_events _ _ _ _ _ s1) as [s2 selected]. cbn [fst] in Hsel.
    assert (latched s2 {| lt_errors := above; lt_outage := lt_outage l |}) as Hl2.
    { split; [rewrite Hsel by left; done|]. intros c. rewrite Hsel; [apply Ho1|]. right.
      apply list_elem_of_In, in_map. destruct c; cbn; tauto. }
    unfold outage_alerts. rewrite client_parse_outcomes_spec.
    destruct (outages_refine (outcomes (sc_results scan)) s2 _ [] Hl2 (outcomes_nodup _)) as [Hr [Hrt Hro]].
    destruct (foldl (outage_step false) (s2, []) _) as [s3 outs]. cbn [fst snd app] in *. exists s3. split.
    - f_equal. unfold spec_scan, scanner_health_alerts. fold above. cbn [snd]. rewrite Hr, <- app_assoc. f_equal.
      by destruct above, (lt_errors l).
    - split; [exact Hrt|]. intros c. rewrite Hro. cbn [spec_scan fst lt_outage]. rewrite outcomes_find.
      by destruct (outcome_of (sc_results scan) c). }
  cbn [scans_health spec_scans]. rewrite He. destruct (spec_scan config scan l) as [l' alerts]. cbn [fst snd] in *.
  destruct (IH s' l' Hl') as [Hr Hlr]. destruct (scans_health config scans s'), (spec_scans config scans l'). cbn [fst snd] in *.
  split; [by rewrite Hr|done].
Qed.

End health.

(** ** Concrete scans *)

Module ScanSample.
Import Reference BuildSample StateSample.

Definition source : Source :=
  {| so_client := Codex; so_kind := Jsonl; so_source_id := lit "codex.sessions"; so_path := lit "/home/u/.codex/a.jsonl" |}.
Definition file (size : Z) (bytes : list N) : FileProbe :=
  {| fp_metadata := None; fp_regular := Some size; fp_reads := [ReadBytes bytes] |}.
Definition shorter : FileProbe := file 2 [123; 125]%N.
Definition longer : FileProbe := file 4 [123; 125; 123; 125]%N.
Definition finding : Event := detection (lit "a") 75 1.
Definition later_finding : Event := detection (lit "a") 75 7.

Lemma same_attack : same_finding [] finding later_finding.
Proof. split; vm_compute; try reflexivity. Qed.

Definition first_scan : ScanState := (should_emit shorter source finding [] ScanState_default).1.
Definition next_scan : ScanState := clear_source_outage (lit "codex") (record_health_heartbeat 1700000000000 first_scan).

Lemma next_steps : rtc state_step first_scan next_scan.
Proof.
  eapply rtc_l; [exact (step_heartbeat first_scan 1700000000000)|].
  apply rtc_once. exact (step_clear_outage (record_health_heartbeat 1700000000000 first_scan) (lit "codex")).
Qed.

Lemma finding_reported_once_witness :
  (should_emit shorter source finding [] ScanState_default).2 = true ∧
  should_emit longer source later_finding [] next_scan = (next_scan, false).
Proof.
  pose proof (finding_reported_once ScanState_default next_scan shorter longer source source [] finding later_finding) as Hr.
  assert (is_finding finding) as Hi by (vm_compute; eexists; reflexivity).
  assert (ev_source_path_hash finding ≠ None) as Hp by (by vm_compute).
  destruct (Hr Hi same_attack (or_introl Hp) next_steps) as [Hfirst Hnext]. split; [|exact Hnext].
  apply Hfirst; vm_compute; reflexivity.
Defined.

(** *** Cursors and baselines *)

Import BaselineSample.

Definition database : Source :=
  {| so_client := OpenCode; so_kind := Sqlite; so_source_id := lit "opencode.sqlite"; so_path := lit "/home/u/opencode.db" |}.
Definition messages : text := lit "session_message".
Definition drained : ScanState := observe_sqlite_ingestion_drain database messages 40 7 ScanState_default.
Definition overlapped : ScanState := observe_sqlite_ingestion_cursor database messages 30 8 drained.

Lemma drained_step : rtc state_step ScanState_default drained.
Proof. apply rtc_once. exact (step_drain ScanState_default database messages 40 7). Qed.

Lemma overlapped_step : rtc state_step drained overlapped.
Proof. apply rtc_once. exact (step_cursor drained database messages 30 8). Qed.

Lemma reachable_states_well_formed_witness : state_wf drained ∧
  sqlite_ingestion_cursor_time_updated database messages overlapped = Some 40.
Proof.
  destruct (reachable_states_well_formed drained overlapped drained_step overlapped_step) as [Hw _].
  split; [exact Hw|vm_compute; reflexivity].
Defined.

Definition contribute (source : Source) (summaries : list BaselineSummary) (s : ScanState) : ScanState :=
  match record_baseline_source_contribution source (lit "f") summaries s with Ok s => s | Err _ => s end.
Definition one_source : ScanState := contribute source [before] ScanState_default.
Definition two_sources : ScanState := contribute database [session] one_source.

Lemma contribute_step source summaries s : Forall summary_wf summaries → rtc state_step s (contribute source summaries s).
Proof.
  intros Hw. unfold contribute. destruct (record_baseline_source_contribution _ _ _ s) eqn:Hr; [|apply rtc_refl].
  apply rtc_once. by eapply (step_contribution s).
Qed.

Lemma two_sources_reachable : rtc state_step ScanState_default two_sources.
Proof.
  transitivity one_source; apply contribute_step; (constructor; [|constructor]); apply sample_wf; repeat constructor.
Qed.

Lemma rebuilt_baselines_sum_witness : ∃ s', rebuild_baseline_snapshots_from_source_contributions two_sources = Ok s' ∧
  filed_measure (baseline_snapshot_id (bs_key before)) (Tool (lit "Bash")) (st_snapshots (ss_baseline_snapshots s')) = 10.
Proof.
  assert (is_ok (rebuild_baseline_snapshots_from_source_contributions two_sources) = true) as Hok by (vm_compute; reflexivity).
  destruct (rebuild_baseline_snapshots_from_source_contributions two_sources) as [s'|] eqn:Hr; [|done]. exists s'. split; [done|].
  destruct (rebuilt_baselines_sum two_sources s' two_sources_reachable Hr) as [Hm _]. rewrite Hm. vm_compute. reflexivity.
Defined.

(** *** Alerts *)

Definition config : OperationalAlertConfig := {| oc_max_scanner_errors := 0; oc_max_scan_duration_ms := 1000 |}.
Definition failed_scan : ScanHealth :=
  {| sc_activities := []; sc_detections := [(source, shorter, finding)]; sc_session_risk_summaries := [];
     sc_routine_evidence_rules := []; sc_scan_duration_ms := 5; sc_results := [(Codex, true); (Claude, false)] |}.
Definition quiet : Latches := {| lt_errors := false; lt_outage _ := false |}.

Lemma failed_distinguishable : distinguishable failed_scan.
Proof. intros item Hin He. apply list_elem_of_singleton in Hin as ->. vm_compute in He. done. Qed.

Lemma health_alerts_refine_witness :
  (scans_health config [failed_scan; failed_scan] ScanState_default).2 = [[source_parse_outage_input Codex 1]; []].
Proof.
  assert (latched ScanState_default quiet) as Hq by (by split; intros).
  pose proof (health_alerts_refine config [failed_scan; failed_scan] ScanState_default quiet Hq
    (Forall_cons_2 _ _ _ failed_distinguishable (Forall_cons_2 _ _ _ failed_distinguishable (Forall_nil_2 _)))) as Hr.
  etransitivity; [exact (proj1 Hr)|vm_compute; reflexivity].
Defined.

(** *** Postures that cannot be told apart

    The fields of a posture are hashed without separators, so a detection attributed to an agent
    and one attributed to a model of the same name have one key, and the second is not reported. *)

Definition attributed (agent model : option text) : Event :=
  match detection_event now tt default_thresholds
    {| di_client := Codex; di_agent := agent; di_model := model; di_provider := None;
       di_session_id := lit "a"; di_source_path_hash := digest; di_tool_name := Some (lit "Bash");
       di_rule_ids := [lit "secret.env"]; di_categories := [lit "credential"];
       di_detection_classes := [lit "security_detection"]; di_signal_types := [lit "atomic"];
       di_analytic_intents := [lit "alert"]; di_atlas_tags := []; di_tags := [lit "secret"];
       di_evidence := [plain_evidence "command" (lit "cat .env")]; di_risk_contributions := [contribution];
       di_event_time := Some (stamp 1) |} with
  | Ok e => e
  | Err _ => finding
  end.

Definition of_agent : Event := attributed (Some (lit "codex")) None.
Definition of_model : Event := attributed None (Some (lit "codex")).

Lemma postures_collide :
  ev_agent of_agent ≠ ev_agent of_model ∧ ev_model of_agent ≠ ev_model of_model ∧
  (should_emit shorter source of_agent [] ScanState_default).2 = true ∧
  (should_emit shorter source of_model [] (should_emit shorter source of_agent [] ScanState_default).1).2 = false.
Proof.
  assert (emission_key shorter source of_agent [] = emission_key shorter source of_model []) as Hk by (vm_compute; reflexivity).
  split_and!; [by vm_compute|by vm_compute|vm_compute; reflexivity|]. rewrite should_emit_known; [done|].
  rewrite <- Hk. apply should_emit_seen. by left.
Qed.

End ScanSample.
