(* ===== verification/StateValue.v ===== *)
(** * The value of the scanner's state

    src/state.rs, with the structures it keeps: what the derived code writes for a state and reads
    from a value.  A structure is an object with a member for each field; the attributes of its
    declaration say what an absent member means.  An array in the place of an object, which the
    derived reader takes too, has been refused before it reads. *)

From S2P Require Import Prelude Ordered Rstr Json Scoring Delivery JournalNames Unicode Regex RegexRef RedactPatterns Redaction RedactionSafe EventIdentifiers EventEmit EventPrivacy EventHistory EventBuild EventBuildSafe Baseline ScanState SinkEpisodes ScanSteps.
From stdpp Require Import sorting relations.
From Stdlib Require Import Ascii.

Local Open Scope Z_scope.

Definition STATE_SCHEMA_VERSION : string := "1.0".

(** ** Writing

    A structure is an object with a member for each field; an object is its members, whose order
    the checks do not see. *)

Definition text_value (t : text) : JsonValue := JString (encode_str t).
Definition option_value (o : option text) : JsonValue := match o with Some t => text_value t | None => JNull end.
Definition integer_value (z : Z) : JsonValue := if z <? 0 then JInteger z else JUnsigned z.

Definition map_value {V} (value : V → JsonValue) (m : list (text * V)) : JsonValue :=
  JObject (map (λ kv, (encode_str kv.1, value kv.2)) m).

Definition path_class_name (c : PathClass) : string :=
  match c with
  | PathSource => "source" | PathTest => "test" | PathDocumentation => "documentation" | PathConfig => "config"
  | PathBuildManifest => "build_manifest" | PathSecretStore => "secret_store" | PathHome => "home"
  | PathTemp => "temp" | PathOther => "other"
  end.

Definition key_value (k : BaselineKey) : JsonValue :=
  JObject [("client", text_value (bk_client k)); ("agent", option_value (bk_agent k));
           ("model", option_value (bk_model k)); ("provider", option_value (bk_provider k))].

Definition totals_value (t : BaselineObservationTotals) : JsonValue :=
  JObject [("records", JUnsigned (bt_records t)); ("user_messages", JUnsigned (bt_user_messages t));
           ("assistant_messages", JUnsigned (bt_assistant_messages t)); ("tool_calls", JUnsigned (bt_tool_calls t));
           ("tool_results", JUnsigned (bt_tool_results t)); ("session_meta", JUnsigned (bt_session_meta t));
           ("other", JUnsigned (bt_other t))].

Definition summary_value (b : BaselineSummary) : JsonValue :=
  JObject [("key", key_value (bs_key b)); ("observations", totals_value (bs_observations b));
           ("tool_call_counts", map_value JUnsigned (bs_tool_call_counts b));
           ("path_class_counts", JObject (map (λ kv, (path_class_name kv.1, JUnsigned kv.2)) (bs_path_class_counts b)));
           ("network_host_counts", map_value JUnsigned (bs_network_host_counts b))].

Definition store_value (store : BaselineSnapshotStore) : JsonValue :=
  JObject [("schema_version", JUnsigned (st_schema_version store));
           ("snapshots", map_value summary_value (st_snapshots store))].

Definition contribution_value (c : BaselineSourceContribution) : JsonValue :=
  JObject [("client", text_value (co_client c)); ("source_id", text_value (co_source_id c));
           ("source_instance_id", text_value (co_source_instance_id c));
           ("source_fingerprint", text_value (co_source_fingerprint c));
           ("snapshots", map_value summary_value (co_snapshots c))].

Definition observation_value (o : SourceObservation) : JsonValue :=
  JObject [("client", text_value (ob_client o)); ("source_id", text_value (ob_source_id o));
           ("source_instance_id", text_value (ob_source_instance_id o));
           ("last_seen_unix_ms", JUnsigned (ob_last_seen_unix_ms o))].

(** [draining] and the cut are written only when set. *)
Definition cursor_value (c : SqliteIngestionCursor) : JsonValue :=
  JObject ([("client", text_value (cu_client c)); ("source_id", text_value (cu_source_id c));
            ("source_instance_id", text_value (cu_source_instance_id c)); ("table", text_value (cu_table c));
            ("last_time_updated", integer_value (cu_last_time_updated c));
            ("observed_at_unix_ms", JUnsigned (cu_observed_at_unix_ms c))]
           ++ (if cu_draining c then [("draining", JBool true)] else [])
           ++ match cu_continue_after_time_updated c with
              | Some cut => [("continue_after_time_updated", integer_value cut)] | None => [] end).

Definition confidence_name (c : InstallConfidence) : string :=
  match c with Confirmed => "confirmed" | Partial => "partial" | Absent => "absent" end.

Definition signal_value (s : InstallSignal) : JsonValue :=
  JObject [("kind", text_value (is_kind s)); ("name", text_value (is_name s)); ("present", JBool (is_present s));
           ("path_hash", option_value (is_path_hash s))].

Definition agent_value (a : AgentInstallObservation) : JsonValue :=
  JObject [("agent", text_value (ai_agent a)); ("installed", JBool (ai_installed a));
           ("confidence", JString (confidence_name (ai_confidence a))); ("signals", JArray (map signal_value (ai_signals a)))].

Definition inventory_value (i : InstallInventorySnapshot) : JsonValue :=
  JObject [("observed_at_unix_ms", JUnsigned (ii_observed_at_unix_ms i)); ("hash", text_value (ii_hash i));
           ("agents", JArray (map agent_value (ii_agents i)))].

Definition state_members (s : ScanState) : list (string * JsonValue) :=
  [("seen_source_fingerprints", JArray (map text_value (ss_seen_source_fingerprints s)));
   ("seen_detection_fingerprints", JArray (map text_value (ss_seen_detection_fingerprints s)));
   ("baseline_snapshots", store_value (ss_baseline_snapshots s));
   ("baseline_source_contributions", map_value contribution_value (ss_baseline_source_contributions s));
   ("source_observations", map_value observation_value (ss_source_observations s));
   ("sqlite_ingestion_cursors", map_value cursor_value (ss_sqlite_ingestion_cursors s));
   ("install_inventory", match ss_install_inventory s with Some i => inventory_value i | None => JNull end)].

Definition native_state_value (s : ScanState) : JsonValue :=
  JObject (("state_schema_version", JString STATE_SCHEMA_VERSION) :: state_members s).

(** ** Reading *)

Definition as_u64 (v : JsonValue) : option Z := match v with JUnsigned n => Some n | _ => None end.
Definition as_i64 (v : JsonValue) : option Z :=
  match v with
  | JUnsigned n => if n <=? i64_max then Some n else None
  | JInteger n => Some n
  | _ => None
  end.

Definition read_u16 (v : JsonValue) : option Z := n ← as_u64 v; if n <=? 65535 then Some n else None.
Definition read_bool (v : JsonValue) : option bool := match v with JBool b => Some b | _ => None end.
Definition read_text (v : JsonValue) : option text := match v with JString s => Some (decode_str s) | _ => None end.

Definition read_option {A} (read : JsonValue → option A) (v : JsonValue) : option (option A) :=
  match v with JNull => Some None | _ => Some <$> read v end.

Definition read_list {A} (read : JsonValue → option A) (v : JsonValue) : option (list A) :=
  match v with JArray items => mapM read items | _ => None end.

Definition read_set (v : JsonValue) : option (list text) := bs_of_list <$> read_list read_text v.

Definition read_map {K V} `{Ord K} (read_key : string → option K) (read : JsonValue → option V) (v : JsonValue)
    : option (list (K * V)) :=
  match v with
  | JObject object =>
      entries ← mapM (λ m : string * JsonValue, k ← read_key m.1; x ← read m.2; Some (k, x)) object;
      Some (foldl (λ m kv, bm_insert kv.1 kv.2 m) [] entries)
  | _ => None
  end.

Definition text_key (s : string) : option text := Some (decode_str s).

Definition members (v : JsonValue) : option (list (string * JsonValue)) :=
  match v with JObject object => Some object | _ => None end.
Definition field {A} (read : JsonValue → option A) (name : string) (object : list (string * JsonValue)) : option A :=
  v ← json_member name object; read v.
Definition field_or {A} (missing : A) (read : JsonValue → option A) (name : string) (object : list (string * JsonValue))
    : option A :=
  match json_member name object with Some v => read v | None => Some missing end.

Definition read_path_class (s : string) : option PathClass :=
  find (λ c, str_eqb (path_class_name c) s)
    [PathSource; PathTest; PathDocumentation; PathConfig; PathBuildManifest; PathSecretStore; PathHome; PathTemp; PathOther].

Definition read_key (v : JsonValue) : option BaselineKey :=
  object ← members v;
  client ← field read_text "client" object;
  agent ← field_or None (read_option read_text) "agent" object;
  model ← field_or None (read_option read_text) "model" object;
  provider ← field_or None (read_option read_text) "provider" object;
  Some {| bk_client := client; bk_agent := agent; bk_model := model; bk_provider := provider |}.

Definition read_totals (v : JsonValue) : option BaselineObservationTotals :=
  object ← members v;
  records ← field as_u64 "records" object;
  user_messages ← field as_u64 "user_messages" object;
  assistant_messages ← field as_u64 "assistant_messages" object;
  tool_calls ← field as_u64 "tool_calls" object;
  tool_results ← field as_u64 "tool_results" object;
  session_meta ← field as_u64 "session_meta" object;
  other ← field as_u64 "other" object;
  Some {| bt_records := records; bt_user_messages := user_messages; bt_assistant_messages := assistant_messages;
          bt_tool_calls := tool_calls; bt_tool_results := tool_results; bt_session_meta := session_meta; bt_other := other |}.

Definition read_summary (v : JsonValue) : option BaselineSummary :=
  object ← members v;
  key ← field read_key "key" object;
  observations ← field read_totals "observations" object;
  tool_call_counts ← field (read_map text_key as_u64) "tool_call_counts" object;
  path_class_counts ← field (read_map read_path_class as_u64) "path_class_counts" object;
  network_host_counts ← field (read_map text_key as_u64) "network_host_counts" object;
  Some {| bs_key := key; bs_observations := observations; bs_tool_call_counts := tool_call_counts;
          bs_path_class_counts := path_class_counts; bs_network_host_counts := network_host_counts |}.

Definition read_store (v : JsonValue) : option BaselineSnapshotStore :=
  object ← members v;
  schema_version ← field read_u16 "schema_version" object;
  snapshots ← field (read_map text_key read_summary) "snapshots" object;
  Some {| st_schema_version := schema_version; st_snapshots := snapshots |}.

Definition read_contribution (v : JsonValue) : option BaselineSourceContribution :=
  object ← members v;
  client ← field read_text "client" object;
  source_id ← field read_text "source_id" object;
  source_instance_id ← field_or [] read_text "source_instance_id" object;
  source_fingerprint ← field read_text "source_fingerprint" object;
  snapshots ← field (read_map text_key read_summary) "snapshots" object;
  Some {| co_client := client; co_source_id := source_id; co_source_instance_id := source_instance_id;
          co_source_fingerprint := source_fingerprint; co_snapshots := snapshots |}.

Definition read_observation (v : JsonValue) : option SourceObservation :=
  object ← members v;
  client ← field read_text "client" object;
  source_id ← field read_text "source_id" object;
  source_instance_id ← field_or [] read_text "source_instance_id" object;
  last_seen_unix_ms ← field as_u64 "last_seen_unix_ms" object;
  Some {| ob_client := client; ob_source_id := source_id; ob_source_instance_id := source_instance_id;
          ob_last_seen_unix_ms := last_seen_unix_ms |}.

Definition read_cursor (v : JsonValue) : option SqliteIngestionCursor :=
  object ← members v;
  client ← field read_text "client" object;
  source_id ← field read_text "source_id" object;
  source_instance_id ← field_or [] read_text "source_instance_id" object;
  table ← field read_text "table" object;
  last_time_updated ← field as_i64 "last_time_updated" object;
  observed_at_unix_ms ← field as_u64 "observed_at_unix_ms" object;
  draining ← field_or false read_bool "draining" object;
  cut ← field_or None (read_option as_i64) "continue_after_time_updated" object;
  Some {| cu_client := client; cu_source_id := source_id; cu_source_instance_id := source_instance_id; cu_table := table;
          cu_last_time_updated := last_time_updated; cu_observed_at_unix_ms := observed_at_unix_ms;
          cu_draining := draining; cu_continue_after_time_updated := cut |}.

(** A variant is its name, or an object with the name and null. *)
Definition read_confidence (v : JsonValue) : option InstallConfidence :=
  name ← match v with JString s => Some s | JObject [(s, JNull)] => Some s | _ => None end;
  find (λ c, str_eqb (confidence_name c) name) [Confirmed; Partial; Absent].

Definition read_signal (v : JsonValue) : option InstallSignal :=
  object ← members v;
  kind ← field read_text "kind" object;
  name ← field read_text "name" object;
  present ← field read_bool "present" object;
  path_hash ← field_or None (read_option read_text) "path_hash" object;
  Some {| is_kind := kind; is_name := name; is_present := present; is_path_hash := path_hash |}.

Definition read_agent (v : JsonValue) : option AgentInstallObservation :=
  object ← members v;
  agent ← field read_text "agent" object;
  installed ← field read_bool "installed" object;
  confidence ← field read_confidence "confidence" object;
  signals ← field (read_list read_signal) "signals" object;
  Some {| ai_agent := agent; ai_installed := installed; ai_confidence := confidence; ai_signals := signals |}.

Definition read_inventory (v : JsonValue) : option InstallInventorySnapshot :=
  object ← members v;
  observed_at_unix_ms ← field as_u64 "observed_at_unix_ms" object;
  hash ← field read_text "hash" object;
  agents ← field (read_list read_agent) "agents" object;
  Some {| ii_observed_at_unix_ms := observed_at_unix_ms; ii_hash := hash; ii_agents := agents |}.

Definition read_state (object : list (string * JsonValue)) : option ScanState :=
  sources ← field read_set "seen_source_fingerprints" object;
  detections ← field read_set "seen_detection_fingerprints" object;
  baselines ← field_or BaselineSnapshotStore_default read_store "baseline_snapshots" object;
  contributions ← field_or [] (read_map text_key read_contribution) "baseline_source_contributions" object;
  observations ← field_or [] (read_map text_key read_observation) "source_observations" object;
  cursors ← field_or [] (read_map text_key read_cursor) "sqlite_ingestion_cursors" object;
  inventory ← field_or None (read_option read_inventory) "install_inventory" object;
  Some {| ss_seen_source_fingerprints := sources; ss_seen_detection_fingerprints := detections;
          ss_baseline_snapshots := baselines; ss_baseline_source_contributions := contributions;
          ss_source_observations := observations; ss_sqlite_ingestion_cursors := cursors; ss_install_inventory := inventory |}.

(** ** What the fields can hold

    The strings of the language are sequences of scalar values; the integers have their widths. *)

Definition scalar (c : char) : Prop := (c < 55296 ∨ 57344 ≤ c < 1114112)%N.
Definition str (t : text) : Prop := Forall scalar t.
Definition opt_str (o : option text) : Prop := match o with Some t => str t | None => True end.
Definition i64 (z : Z) : Prop := i64_min ≤ z ≤ i64_max.

Definition entries_typed {K V} (key : K → Prop) (value : V → Prop) (m : list (K * V)) : Prop :=
  Forall (λ kv, key kv.1 ∧ value kv.2) m.

Definition key_typed (k : BaselineKey) : Prop :=
  str (bk_client k) ∧ opt_str (bk_agent k) ∧ opt_str (bk_model k) ∧ opt_str (bk_provider k).

Definition summary_typed (b : BaselineSummary) : Prop :=
  key_typed (bs_key b) ∧ entries_typed str u64 (bs_tool_call_counts b) ∧
  entries_typed (λ _, True) u64 (bs_path_class_counts b) ∧ entries_typed str u64 (bs_network_host_counts b).

Definition contribution_typed (c : BaselineSourceContribution) : Prop :=
  str (co_client c) ∧ str (co_source_id c) ∧ str (co_source_instance_id c) ∧ str (co_source_fingerprint c) ∧
  entries_typed str summary_typed (co_snapshots c).

Definition observation_typed (o : SourceObservation) : Prop :=
  str (ob_client o) ∧ str (ob_source_id o) ∧ str (ob_source_instance_id o) ∧ u64 (ob_last_seen_unix_ms o).

Definition cursor_typed (c : SqliteIngestionCursor) : Prop :=
  str (cu_client c) ∧ str (cu_source_id c) ∧ str (cu_source_instance_id c) ∧ str (cu_table c) ∧
  i64 (cu_last_time_updated c) ∧ match cu_continue_after_time_updated c with Some cut => i64 cut | None => True end.

Definition signal_typed (s : InstallSignal) : Prop := str (is_kind s) ∧ str (is_name s) ∧ opt_str (is_path_hash s).
Definition agent_typed (a : AgentInstallObservation) : Prop := str (ai_agent a) ∧ Forall signal_typed (ai_signals a).
Definition inventory_typed (i : InstallInventorySnapshot) : Prop := str (ii_hash i) ∧ Forall agent_typed (ii_agents i).

Record state_typed (s : ScanState) : Prop := {
  typed_sources : Forall str (ss_seen_source_fingerprints s);
  typed_detections : Forall str (ss_seen_detection_fingerprints s);
  typed_version : 0 ≤ st_schema_version (ss_baseline_snapshots s) ≤ 65535;
  typed_snapshots : entries_typed str summary_typed (st_snapshots (ss_baseline_snapshots s));
  typed_contributions : entries_typed str contribution_typed (ss_baseline_source_contributions s);
  typed_observations : entries_typed str observation_typed (ss_source_observations s);
  typed_cursors : entries_typed str cursor_typed (ss_sqlite_ingestion_cursors s);
  typed_inventory : match ss_install_inventory s with Some i => inventory_typed i | None => True end;
}.

(** ** Texts read back *)

Lemma char_reads c l : scalar c → from_utf8_lossy (utf8_char c ++ l) = c :: from_utf8_lossy l.
Proof.
  intros Hc. unfold scalar in Hc. unfold utf8_char.
  pose proof (N.div_mod c 64 ltac:(done)) as E1. pose proof (N.mod_lt c 64 ltac:(done)) as M1.
  pose proof (N.div_mod (c / 64) 64 ltac:(done)) as E2. pose proof (N.mod_lt (c / 64) 64 ltac:(done)) as M2.
  pose proof (N.div_mod (c / 64 / 64) 64 ltac:(done)) as E3. pose proof (N.mod_lt (c / 64 / 64) 64 ltac:(done)) as M3.
  assert (c / 4096 = c / 64 / 64)%N as -> by (by rewrite N.Div0.div_div).
  assert (c / 262144 = c / 64 / 64 / 64)%N as -> by (by rewrite !N.Div0.div_div).
  assert (c / 64 / 64 / 64 < 8)%N as Htop by (do 3 (apply N.Div0.div_lt_upper_bound); lia).
  rewrite (N.mod_small _ 8) by done.
  set (q1 := (c / 64)%N) in *. set (q2 := (q1 / 64)%N) in *. set (q3 := (q2 / 64)%N) in *.
  set (d1 := (c mod 64)%N) in *. set (d2 := (q1 mod 64)%N) in *. set (d3 := (q2 mod 64)%N) in *.
  clearbody d1 d2 d3 q3; clearbody q2; clearbody q1.
  destruct (N.ltb_spec c 128); [|destruct (N.ltb_spec c 2048); [|destruct (N.ltb_spec c 65536)]]; cbn [app from_utf8_lossy].
  - by rewrite (proj2 (N.ltb_lt _ _)).
  - rewrite (proj2 (N.ltb_ge _ _)) by lia. unfold cont, Unicode.between.
    rewrite !(proj2 (N.leb_le _ _)) by lia. cbn [andb]. f_equal. lia.
  - rewrite (proj2 (N.ltb_ge _ _)) by lia. unfold second3, cont, Unicode.between.
    rewrite (proj2 (N.leb_gt (224 + q2) 223)) by lia. rewrite andb_false_r.
    rewrite !(proj2 (N.leb_le _ _)) by lia. cbn [andb].
    destruct (N.eqb_spec (224 + q2) 224); [|destruct (N.eqb_spec (224 + q2) 237)];
      rewrite !(proj2 (N.leb_le _ _)) by lia; cbn [andb]; f_equal; lia.
  - rewrite (proj2 (N.ltb_ge _ _)) by lia. unfold second4, cont, Unicode.between.
    rewrite (proj2 (N.leb_gt (240 + q3) 223)) by lia. rewrite andb_false_r.
    rewrite (proj2 (N.leb_gt (240 + q3) 239)) by lia. rewrite andb_false_r.
    rewrite !(proj2 (N.leb_le _ _)) by lia. cbn [andb].
    destruct (N.eqb_spec (240 + q3) 240); [|destruct (N.eqb_spec (240 + q3) 244)];
      rewrite !(proj2 (N.leb_le _ _)) by lia; cbn [andb]; f_equal; lia.
Qed.

Lemma chars_read t : str t → from_utf8_lossy (utf8_encode t) = t.
Proof.
  unfold utf8_encode. induction 1 as [|c t Hc _ IH]; [done|]. cbn [map concat]. by rewrite char_reads, IH.
Qed.

Lemma char_bytes c : scalar c → Forall (λ b, b < 256)%N (utf8_char c).
Proof.
  intros Hc. destruct (N.ltb_spec c 128) as [Hlow|Hge].
  - rewrite utf8_low by done. repeat constructor. lia.
  - destruct (utf8_high c Hge) as [Hall _]. eapply Forall_impl; [exact Hall|]. cbn beta. lia.
Qed.

Lemma str_reads t : str t → decode_str (encode_str t) = t.
Proof.
  intros Ht. unfold decode_str. rewrite encode_bytes, map_map. rewrite <- (chars_read t Ht) at 2. f_equal.
  assert (Forall (λ b, b < 256)%N (utf8_encode t)) as Hb.
  { unfold utf8_encode. induction Ht as [|c t Hc _ IH]; [constructor|]. cbn [map concat]. apply Forall_app. split; [by apply char_bytes|done]. }
  induction Hb as [|b l Hb _ IH]; [done|]. cbn [map]. by rewrite N_of_ascii_small, IH.
Qed.

Lemma read_text_value t : str t → read_text (text_value t) = Some t.
Proof. intros Ht. unfold text_value, read_text. by rewrite str_reads. Qed.

Lemma read_option_value o : opt_str o → read_option read_text (option_value o) = Some o.
Proof. destruct o as [t|]; [|done]. intros Ht. cbn [option_value read_option text_value]. by rewrite read_text_value. Qed.

Lemma read_integer z : i64 z → as_i64 (integer_value z) = Some z.
Proof.
  intros [_ Hz]. unfold integer_value. destruct (Z.ltb_spec z 0); cbn [as_i64]; [done|]. by rewrite (proj2 (Z.leb_le _ _) Hz).
Qed.

Lemma read_cut z : i64 z → read_option as_i64 (integer_value z) = Some (Some z).
Proof. intros Hz%read_integer. unfold integer_value in *. destruct (z <? 0); cbn [read_option]; by rewrite Hz. Qed.

(** ** Collections read back *)

Lemma mapM_reads {A B} (write : A → B) (read : B → option A) l : Forall (λ x, read (write x) = Some x) l →
  mapM read (map write l) = Some l.
Proof. induction 1 as [|x l Hx _ IH]; [done|]. cbn [map mapM]. by rewrite Hx, IH. Qed.

Lemma read_list_value {A} (write : A → JsonValue) read l : Forall (λ x, read (write x) = Some x) l →
  read_list read (JArray (map write l)) = Some l.
Proof. apply mapM_reads. Qed.

Lemma read_set_value s : bs_wf s → Forall str s → read_set (JArray (map text_value s)) = Some s.
Proof.
  intros Hs Ht. unfold read_set. rewrite read_list_value.
  - cbn [fmap option_fmap option_map]. f_equal. apply bs_ext; [apply bs_of_list_wf|done|]. intros x. apply bs_of_list_elem.
  - eapply Forall_impl; [exact Ht|]. exact read_text_value.
Qed.

Section maps.
Context {K V : Type} `{OrdLaws K}.
Implicit Types m l : list (K * V).

Lemma insert_last m k v : bm_wf (m ++ [(k, v)]) → bm_insert k v m = m ++ [(k, v)].
Proof.
  unfold bm_wf. induction m as [|[k' v'] m IH]; [done|]. cbn [app fmap list_fmap fst bm_insert].
  intros [Hm Hk]%StronglySorted_inv. rewrite Forall_forall in Hk.
  assert (lt_of k' k) as Hlt by (apply Hk; rewrite fmap_app; apply elem_of_app; right; by left).
  unfold lt_of in Hlt. apply cmp_gt_lt in Hlt. rewrite Hlt. f_equal. by apply IH.
Qed.

Lemma inserts_append l : ∀ m, bm_wf (m ++ l) → foldl (λ m kv, bm_insert kv.1 kv.2 m) m l = m ++ l.
Proof.
  induction l as [|[k v] l IH]; intros m Hm; [by rewrite app_nil_r|]. cbn [foldl fst snd].
  rewrite insert_last.
  - rewrite IH by (by rewrite <- app_assoc). by rewrite <- app_assoc.
  - unfold bm_wf in *. rewrite !fmap_app in *. cbn [fmap list_fmap fst] in *.
    rewrite cons_middle, app_assoc in Hm. by apply StronglySorted_app in Hm as (_ & Hm & _).
Qed.

Lemma read_entries (write_key : K → string) (read_key : string → option K) (write : V → JsonValue) read m :
  bm_wf m → Forall (λ kv, read_key (write_key kv.1) = Some kv.1 ∧ read (write kv.2) = Some kv.2) m →
  read_map read_key read (JObject (map (λ kv, (write_key kv.1, write kv.2)) m)) = Some m.
Proof.
  intros Hm Hr. unfold read_map. rewrite (mapM_reads (λ kv : K * V, (write_key kv.1, write kv.2)) _ m).
  - cbn. by rewrite inserts_append.
  - eapply Forall_impl; [exact Hr|]. intros [k v] [Hk Hv]. cbn [fst snd] in *. by rewrite Hk, Hv.
Qed.
End maps.

Lemma read_map_value {V} (write : V → JsonValue) read (m : list (text * V)) : bm_wf m →
  Forall (λ kv, str kv.1 ∧ read (write kv.2) = Some kv.2) m → read_map text_key read (map_value write m) = Some m.
Proof.
  intros Hm Hr. apply (read_entries encode_str text_key write read); [done|]. eapply Forall_impl; [exact Hr|].
  intros kv [Hk Hv]. split; [|done]. unfold text_key. by rewrite str_reads.
Qed.

Lemma read_counts (m : list (text * Z)) : bm_wf m → entries_typed str u64 m → read_map text_key as_u64 (map_value JUnsigned m) = Some m.
Proof. intros Hm Ht. apply read_map_value; [done|]. eapply Forall_impl; [exact Ht|]. by intros kv [Hk _]. Qed.

(** ** Structures read back *)

Lemma read_key_value k : key_typed k → read_key (key_value k) = Some k.
Proof.
  destruct k as [client agent model provider]. intros (Hc & Ha & Hm & Hp). cbn in Hc, Ha, Hm, Hp.
  unfold read_key, key_value, field, field_or. cbn -[text_value read_text option_value read_option].
  by rewrite (read_text_value _ Hc), (read_option_value _ Ha), (read_option_value _ Hm), (read_option_value _ Hp).
Qed.

Lemma read_totals_value t : read_totals (totals_value t) = Some t.
Proof. by destruct t. Qed.

Lemma read_path_class_name c : read_path_class (path_class_name c) = Some c.
Proof. by destruct c. Qed.

#[local] Ltac read_texts :=
  repeat match goal with H : str ?t |- context [read_text (text_value ?t)] => rewrite (read_text_value t H)
    | H : opt_str ?o |- context [read_option read_text (option_value ?o)] => rewrite (read_option_value o H) end.

Lemma read_summary_value b : summary_wf b → summary_typed b → read_summary (summary_value b) = Some b.
Proof.
  destruct b as [key totals tools paths hosts]. intros (Hw1 & Hw2 & Hw3) (Hk & Ht & Hp & Hh). cbn in Hw1, Hw2, Hw3, Hk, Ht, Hp, Hh.
  unfold read_summary, summary_value, field. cbn -[key_value read_key totals_value read_totals read_map map_value].
  rewrite (read_key_value _ Hk), read_totals_value, (read_counts _ Hw1 Ht), (read_counts _ Hw3 Hh).
  cbn -[read_map]. rewrite (read_entries path_class_name read_path_class JUnsigned); [done|done|].
  apply Forall_forall. intros kv _. by rewrite read_path_class_name.
Qed.

Lemma read_snapshots (m : list (text * BaselineSummary)) : bm_wf m → Forall filed m → entries_typed str summary_typed m →
  read_map text_key read_summary (map_value summary_value m) = Some m.
Proof.
  intros Hm Hf Ht. apply read_map_value; [done|]. apply Forall_forall. intros kv Hin. rewrite Forall_forall in Hf. 
  unfold entries_typed in Ht. rewrite Forall_forall in Ht. destruct (Hf kv Hin) as (_ & Hw & _), (Ht kv Hin) as [Hk Hs].
  split; [done|]. by apply read_summary_value.
Qed.

Lemma read_store_value store : 0 ≤ st_schema_version store ≤ 65535 → bm_wf (st_snapshots store) → Forall filed (st_snapshots store) →
  entries_typed str summary_typed (st_snapshots store) → read_store (store_value store) = Some store.
Proof.
  destruct store as [version snapshots]. cbn [st_schema_version st_snapshots]. intros Hv Hm Hf Ht.
  unfold read_store, store_value, field, read_u16. cbn -[read_map map_value]. rewrite (proj2 (Z.leb_le version 65535)) by lia.
  cbn -[read_map map_value]. by rewrite (read_snapshots _ Hm Hf Ht).
Qed.

Lemma read_contribution_value entry : contribution_ok entry → contribution_typed entry.2 →
  read_contribution (contribution_value entry.2) = Some entry.2.
Proof.
  destruct entry as [id [client source instance fingerprint snapshots]]. intros (_ & Hm & Hf) (Hc & Hs & Hi & Hp & Ht).
  cbn in Hm, Hf, Hc, Hs, Hi, Hp, Ht. unfold read_contribution, contribution_value, field, field_or.
  cbn -[text_value read_text read_map map_value]. read_texts. cbn -[read_map map_value]. by rewrite (read_snapshots _ Hm Hf Ht).
Qed.

Lemma read_observation_value o : observation_typed o → read_observation (observation_value o) = Some o.
Proof.
  destruct o as [client source instance seen]. intros (Hc & Hs & Hi & _). cbn in Hc, Hs, Hi.
  unfold read_observation, observation_value, field, field_or. cbn -[text_value read_text]. by read_texts.
Qed.

Lemma read_cursor_value c : cursor_typed c → read_cursor (cursor_value c) = Some c.
Proof.
  destruct c as [client source instance table last seen draining cut]. intros (Hc & Hs & Hi & Ht & Hl & Hcut).
  cbn in Hc, Hs, Hi, Ht, Hl, Hcut. unfold read_cursor, cursor_value, field, field_or.
  destruct draining, cut as [cut|]; cbn -[text_value read_text integer_value as_i64 read_option]; read_texts;
    rewrite (read_integer _ Hl); [by rewrite (read_cut _ Hcut)|done|by rewrite (read_cut _ Hcut)|done].
Qed.

Lemma read_confidence_name c : read_confidence (JString (confidence_name c)) = Some c.
Proof. by destruct c. Qed.

Lemma read_signal_value s : signal_typed s → read_signal (signal_value s) = Some s.
Proof.
  destruct s as [kind name present hash]. intros (Hk & Hn & Hh). cbn in Hk, Hn, Hh.
  unfold read_signal, signal_value, field, field_or. cbn -[text_value read_text option_value read_option]. by read_texts.
Qed.

Lemma read_agent_value a : agent_typed a → read_agent (agent_value a) = Some a.
Proof.
  destruct a as [agent installed confidence signals]. intros (Ha & Hs). cbn in Ha, Hs.
  unfold read_agent, agent_value, field. cbn -[text_value read_text read_confidence read_list]. read_texts.
  rewrite read_confidence_name, read_list_value; [done|]. eapply Forall_impl; [exact Hs|]. exact read_signal_value.
Qed.

Lemma read_inventory_value i : inventory_typed i → read_inventory (inventory_value i) = Some i.
Proof.
  destruct i as [seen hash agents]. intros (Hh & Ha). cbn in Hh, Ha.
  unfold read_inventory, inventory_value, field. cbn -[text_value read_text read_list]. read_texts.
  rewrite read_list_value; [done|]. eapply Forall_impl; [exact Ha|]. exact read_agent_value.
Qed.

Lemma read_inventory_option o : match o with Some i => inventory_typed i | None => True end →
  read_option read_inventory (match o with Some i => inventory_value i | None => JNull end) = Some o.
Proof. destruct o as [i|]; [|done]. intros Hi. apply read_inventory_value in Hi. unfold inventory_value in *. cbn [read_option]. by rewrite Hi. Qed.

(** A map of structures whose entries are kept in order and read back one by one. *)
Lemma read_entries_value {V} (write : V → JsonValue) read (typed : V → Prop) (ok : text * V → Prop) (m : list (text * V)) :
  (∀ kv, ok kv → typed kv.2 → read (write kv.2) = Some kv.2) → bm_wf m → Forall ok m → entries_typed str typed m →
  read_map text_key read (map_value write m) = Some m.
Proof.
  unfold entries_typed. rewrite !Forall_forall. intros Hr Hm Hok Ht. apply read_map_value; [done|]. apply Forall_forall.
  intros kv Hin. destruct (Ht kv Hin). split; [done|]. by apply Hr; [apply Hok|].
Qed.

(** What is written for a well-formed state of typed fields is read as that state. *)
Lemma read_state_members `{StateServices} `{!EventServices} s : state_wf s → state_typed s → read_state (state_members s) = Some s.
Proof.
  destruct s as [sources detections baselines contributions observations cursors inventory].
  intros [Ws Wd [Wb Fb] [Wc Fc] [Wo Fo] [Wu Fu]] [Ts Td Tv Tb Tc To Tu Ti]. cbn in Ws, Wd, Wb, Fb, Wc, Fc, Wo, Fo, Wu, Fu, Ts, Td, Tv, Tb, Tc, To, Tu, Ti.
  unfold read_state, state_members, field, field_or.
  cbn -[read_set text_value read_map map_value store_value read_store read_option read_inventory inventory_value].
  rewrite (read_set_value _ Ws Ts), (read_set_value _ Wd Td), (read_store_value _ Tv Wb Fb Tb).
  cbn -[read_map map_value read_option read_inventory inventory_value].
  rewrite (read_entries_value contribution_value read_contribution _ _ _ read_contribution_value Wc Fc Tc).
  rewrite (read_entries_value observation_value read_observation _ _ _ (λ kv _, read_observation_value kv.2) Wo Fo To).
  rewrite (read_entries_value cursor_value read_cursor _ _ _ (λ kv _, read_cursor_value kv.2) Wu Fu Tu).
  by rewrite (read_inventory_option _ Ti).
Qed.
