(* ===== verification/StateFile.v ===== *)
(** * The file of the scanner's state

    src/state.rs: the checks that a value must pass to be read as a state, of the current format or,
    for a migration, of an older baseline.  The JSON library turns bytes into values; a value that
    repeats the key of an object is refused before the checks below. *)

From S2P Require Import Prelude Ordered Rstr Json Scoring Delivery JournalNames Unicode Regex RegexRef RedactPatterns Redaction RedactionSafe EventIdentifiers EventEmit EventPrivacy EventHistory EventBuild EventBuildSafe Baseline ScanState SinkEpisodes ScanSteps StateValue.
From stdpp Require Import relations.
From Stdlib Require Import Ascii.

Local Open Scope Z_scope.

Definition MIGRATION_GUIDANCE : string :=
  "state requires explicit migration; run telltale migrate state --from <OLD> --to <NEW>".

(** ** Checking *)

#[local] Notation R A := (result A string).

Definition refused {A} : R A := Err MIGRATION_GUIDANCE.
Definition demand (b : bool) : R unit := if b then Ok tt else refused.

(** [Value::as_object], [Value::as_array], [Value::as_u64], [Value::as_i64] and the index of a key. *)
Definition as_object (v : JsonValue) : R (list (string * JsonValue)) :=
  match v with JObject object => Ok object | _ => refused end.
Definition as_array (v : JsonValue) : R (list JsonValue) := match v with JArray items => Ok items | _ => refused end.
Definition at_key (v : JsonValue) (key : string) : JsonValue := default JNull (json_get v key).
Definition is_text (v : JsonValue) (s : string) : bool := match v with JString t => str_eqb t s | _ => false end.

Definition state_field_names : list string :=
  ["seen_source_fingerprints"; "seen_detection_fingerprints"; "baseline_snapshots"; "baseline_source_contributions";
   "source_observations"; "sqlite_ingestion_cursors"; "install_inventory"].

Definition validate_fields (object : list (string * JsonValue)) (fields : list string) : R unit :=
  demand (forallb (λ m, existsb (str_eqb m.1) fields) object).

Definition validate_object (v : JsonValue) (fields : list string) : R unit :=
  let? object := as_object v in validate_fields object fields.

Definition require_fields (v : JsonValue) (fields : list string) : R unit :=
  let? object := as_object v in demand (forallb (λ field, is_some (json_member field object)) fields).

Definition required (native : bool) (v : JsonValue) (fields : list string) : R unit :=
  if native then require_fields v fields else Ok tt.

Definition each {A} (validate : A → R unit) (l : list A) : R unit := try_fold (λ _ v, validate v) tt l.

Definition validate_map_values (v : JsonValue) (validate : JsonValue → R unit) : R unit :=
  let? object := as_object v in each validate (map snd object).

(** The check of a member that may be missing. *)
Definition when_present (o : option JsonValue) (validate : JsonValue → R unit) : R unit :=
  match o with Some v => validate v | None => Ok tt end.

Definition valid_host_hash (value : string) : bool := is_canonical_host_hash (decode_str value).

Definition summary_fields : list string :=
  ["key"; "observations"; "tool_call_counts"; "path_class_counts"; "network_host_counts"].
Definition key_fields : list string := ["client"; "agent"; "model"; "provider"].
Definition totals_fields : list string :=
  ["records"; "user_messages"; "assistant_messages"; "tool_calls"; "tool_results"; "session_meta"; "other"].

Definition is_object (v : JsonValue) : bool := match v with JObject _ => true | _ => false end.

Definition validate_baseline_summary (native strict_hosts : bool) (v : JsonValue) : R unit :=
  check? validate_object v summary_fields in
  check? required native v summary_fields in
  let? object := as_object v in
  let? key := ok_or (json_member "key" object) MIGRATION_GUIDANCE in
  check? validate_object key key_fields in
  check? required native key key_fields in
  let? observations := ok_or (json_member "observations" object) MIGRATION_GUIDANCE in
  check? validate_object observations totals_fields in
  check? required native observations totals_fields in
  check? demand (forallb (λ field, match json_member field object with Some v => is_object v | None => false end)
                   ["tool_call_counts"; "path_class_counts"; "network_host_counts"]) in
  if native && strict_hosts then
    let? hosts := ok_or (json_member "network_host_counts" object) MIGRATION_GUIDANCE in
    let? hosts := as_object hosts in
    demand (forallb (λ m, valid_host_hash m.1) hosts)
  else Ok tt.

Definition contribution_fields : list string :=
  ["client"; "source_id"; "source_instance_id"; "source_fingerprint"; "snapshots"].

Definition validate_baseline_contribution (native strict_hosts : bool) (v : JsonValue) : R unit :=
  check? validate_object v contribution_fields in
  check? required native v contribution_fields in
  let? object := as_object v in
  when_present (json_member "snapshots" object) (λ snapshots,
    validate_map_values snapshots (validate_baseline_summary native strict_hosts)).

Definition validate_baseline_store (native allow_legacy strict_hosts : bool) (v : JsonValue) : R unit :=
  check? validate_object v ["schema_version"; "snapshots"] in
  check? required native v ["schema_version"; "snapshots"] in
  let? baseline := as_object v in
  check? when_present (json_member "schema_version" baseline) (λ version,
    demand match as_u64 version with
           | Some n => (n =? BASELINE_STATE_VERSION) || (allow_legacy && ((n =? 1) || (n =? 2)))
           | None => false
           end) in
  when_present (json_member "snapshots" baseline) (λ snapshots,
    validate_map_values snapshots (validate_baseline_summary native strict_hosts)).

Definition observation_fields : list string := ["client"; "source_id"; "source_instance_id"; "last_seen_unix_ms"].

Definition validate_observation (native : bool) (v : JsonValue) : R unit :=
  check? validate_object v observation_fields in required native v observation_fields.

(** An unfinished window belongs to OpenCode's table, and its cut is not after the checkpoint. *)
Definition validate_cut (v cut : JsonValue) : R unit :=
  let valid := match as_i64 cut, as_i64 (at_key v "last_time_updated") with
               | Some cut, Some checkpoint => cut <=? checkpoint
               | _, _ => false
               end in
  demand (valid && match at_key v "draining" with JBool b => b | _ => false end && is_text (at_key v "client") "opencode"
          && is_text (at_key v "source_id") "opencode.sqlite" && is_text (at_key v "table") "session_message").

Definition validate_cursor (native : bool) (v : JsonValue) : R unit :=
  check? validate_object v ["client"; "source_id"; "source_instance_id"; "table"; "last_time_updated";
                            "observed_at_unix_ms"; "draining"; "continue_after_time_updated"] in
  check? when_present (json_get v "continue_after_time_updated") (validate_cut v) in
  required native v ["client"; "source_id"; "source_instance_id"; "table"; "last_time_updated"; "observed_at_unix_ms"].

Definition validate_signal (native : bool) (v : JsonValue) : R unit :=
  check? validate_object v ["kind"; "name"; "present"; "path_hash"] in
  required native v ["kind"; "name"; "present"; "path_hash"].

Definition validate_agent (native : bool) (v : JsonValue) : R unit :=
  check? validate_object v ["agent"; "installed"; "confidence"; "signals"] in
  check? required native v ["agent"; "installed"; "confidence"; "signals"] in
  let? agent := as_object v in
  let? signals := ok_or (json_member "signals" agent) MIGRATION_GUIDANCE in
  let? signals := as_array signals in
  each (validate_signal native) signals.

Definition validate_inventory (native : bool) (v : JsonValue) : R unit :=
  match v with
  | JNull => Ok tt
  | _ =>
      check? validate_object v ["observed_at_unix_ms"; "hash"; "agents"] in
      check? required native v ["observed_at_unix_ms"; "hash"; "agents"] in
      let? inventory := as_object v in
      when_present (json_member "agents" inventory) (λ agents,
        let? agents := as_array agents in each (validate_agent native) agents)
  end.

Definition validate_state_families (object : list (string * JsonValue)) (native allow_legacy strict_hosts : bool) : R unit :=
  check? when_present (json_member "baseline_snapshots" object) (validate_baseline_store native allow_legacy strict_hosts) in
  check? when_present (json_member "baseline_source_contributions" object) (λ v,
    validate_map_values v (validate_baseline_contribution native strict_hosts)) in
  check? when_present (json_member "source_observations" object) (λ v, validate_map_values v (validate_observation native)) in
  check? when_present (json_member "sqlite_ingestion_cursors" object) (λ v, validate_map_values v (validate_cursor native)) in
  when_present (json_member "install_inventory" object) (validate_inventory native).

(** ** Reading *)

Definition all_summaries (s : ScanState) : list BaselineSummary :=
  bm_values (st_snapshots (ss_baseline_snapshots s)) ++ contributed (ss_baseline_source_contributions s).

Definition raw_hosts (summary : BaselineSummary) : list text :=
  List.filter (λ host, negb (valid_host_hash (encode_str host))) (bm_keys (bs_network_host_counts summary)).

Definition has_raw_network_hosts (s : ScanState) : bool :=
  existsb (λ summary, existsb (λ host, negb (valid_host_hash (encode_str host))) (bm_keys (bs_network_host_counts summary)))
    (all_summaries s).

Definition raw_network_host_count (s : ScanState) : Z :=
  foldr (λ summary n, Z.of_nat (length (raw_hosts summary)) + n) 0 (all_summaries s).

Definition legacy_version (version : Z) : bool :=
  (version =? 1) || (version =? 2) || (version =? BASELINE_STATE_VERSION).

Definition parse_native_state_mode_with_count (allow_legacy_baseline_version : bool) (value : JsonValue) : R (ScanState * Z) :=
  let? object := as_object value in
  check? validate_fields object ("state_schema_version" :: state_field_names) in
  check? demand match json_member "state_schema_version" object with
                | Some version => is_text version STATE_SCHEMA_VERSION | None => false end in
  check? demand (forallb (λ field, is_some (json_member field object)) state_field_names) in
  let strict_hosts := negb allow_legacy_baseline_version
    || bool_decide (as_u64 (at_key (at_key value "baseline_snapshots") "schema_version") = Some BASELINE_STATE_VERSION) in
  check? validate_state_families object true allow_legacy_baseline_version strict_hosts in
  let? state := ok_or (read_state (List.filter (λ m, negb (str_eqb m.1 "state_schema_version")) object)) MIGRATION_GUIDANCE in
  let version := st_schema_version (ss_baseline_snapshots state) in
  if (strict_hosts && has_raw_network_hosts state)
     || (negb allow_legacy_baseline_version && negb (version =? BASELINE_STATE_VERSION))
     || (allow_legacy_baseline_version && negb (legacy_version version))
  then refused
  else
    let normalization_count := if allow_legacy_baseline_version then raw_network_host_count state else 0 in
    Ok (if allow_legacy_baseline_version then reset_legacy_baseline state else state, normalization_count).

Definition parse_native_state (value : JsonValue) : R ScanState :=
  result_map fst (parse_native_state_mode_with_count false value).

Definition normalize_legacy_for_migration (s : ScanState) : ScanState * Z :=
  (reset_legacy_baseline s, raw_network_host_count s).

(** A file without the version of the format; one without the version of its baseline has version 1. *)
Definition parse_legacy_state (value : JsonValue) : R ScanState :=
  let? object := as_object value in
  check? demand (negb (is_some (json_member "state_schema_version" object))) in
  check? validate_fields object state_field_names in
  check? validate_state_families object false true false in
  let version_missing :=
    negb (is_some (json_member "baseline_snapshots" object ≫= λ v, json_get v "schema_version")) in
  let? state := ok_or (read_state object) MIGRATION_GUIDANCE in
  Ok (if version_missing
      then set_baselines {| st_schema_version := 1; st_snapshots := st_snapshots (ss_baseline_snapshots state) |}
             (ss_baseline_source_contributions state) state
      else state).

(** ** A saved state reads back *)

Lemma demand_Ok b : demand b = Ok tt ↔ b = true.
Proof. by destruct b. Qed.

Lemma each_Ok {A} (validate : A → R unit) l : (∀ x, x ∈ l → validate x = Ok tt) → each validate l = Ok tt.
Proof.
  unfold each. induction l as [|x l IH]; intros Hv; [done|]. cbn [try_fold]. rewrite Hv by left.
  apply IH. intros y Hy. apply Hv. by right.
Qed.

Lemma each_map {A} (value : A → JsonValue) validate l : (∀ x, x ∈ l → validate (value x) = Ok tt) →
  each validate (map value l) = Ok tt.
Proof. intros Hv. apply each_Ok. intros v (x & <- & Hin)%list_elem_of_In%in_map_iff. by apply Hv, list_elem_of_In. Qed.

Lemma map_values_Ok {V} (value : V → JsonValue) validate (m : list (text * V)) :
  (∀ kv, kv ∈ m → validate (value kv.2) = Ok tt) → validate_map_values (map_value value m) validate = Ok tt.
Proof.
  intros Hv. unfold validate_map_values, map_value. cbn [as_object]. rewrite map_map. cbn [snd].
  by apply (each_map (λ kv : text * V, value kv.2)).
Qed.

Lemma canonical_ascii host : is_canonical_host_hash host = true → ascii_text host.
Proof.
  unfold is_canonical_host_hash. destruct (strip BASELINE_HOST_HASH_PREFIX host) as [hex|] eqn:Hs; [|done].
  apply strip_spec in Hs as ->. unfold is_canonical_sha256_hex. intros [_ Hh]%andb_true_iff. apply Forall_app. split.
  - apply (over_ascii (lit "sha256:")); [by vm_compute|]. by apply Forall_forall.
  - rewrite forallb_forall in Hh. apply Forall_forall. intros c Hc%list_elem_of_In%Hh.
    unfold hex_lower, ascii_digit, Unicode.between in Hc. rewrite orb_true_iff, !andb_true_iff, !N.leb_le in Hc. cbn beta. lia.
Qed.

Lemma canonical_valid host : is_canonical_host_hash host = true → valid_host_hash (encode_str host) = true.
Proof. intros Hh. unfold valid_host_hash. by rewrite decode_encode by (by apply canonical_ascii). Qed.

Lemma summary_accepted b : (∀ host, host ∈ bm_keys (bs_network_host_counts b) → is_canonical_host_hash host = true) →
  validate_baseline_summary true true (summary_value b) = Ok tt.
Proof.
  intros Hh.
  assert (forallb (λ m : string * JsonValue, valid_host_hash m.1)
    (map (λ kv : text * Z, (encode_str kv.1, JUnsigned kv.2)) (bs_network_host_counts b)) = true) as Hv.
  { apply forallb_forall. intros m (kv & <- & Hin)%in_map_iff. apply canonical_valid, Hh. unfold bm_keys.
    by apply list_elem_of_In, (in_map fst). }
  unfold validate_baseline_summary. cbn -[valid_host_hash forallb]. unfold demand.
  destruct b as [key totals tools paths hosts]. cbn [bs_network_host_counts] in *.
  unfold map_value. cbn [as_object]. rewrite Hv. reflexivity.
Qed.

Lemma snapshots_accepted (m : list (text * BaselineSummary)) : Forall filed m →
  validate_map_values (map_value summary_value m) (validate_baseline_summary true true) = Ok tt.
Proof.
  rewrite Forall_forall. intros Hf. apply map_values_Ok. intros kv Hin. apply summary_accepted, (Hf kv Hin).
Qed.

Lemma store_accepted allow store : st_schema_version store = BASELINE_STATE_VERSION → Forall filed (st_snapshots store) →
  validate_baseline_store true allow true (store_value store) = Ok tt.
Proof.
  intros Hv Hf. unfold validate_baseline_store, store_value. rewrite Hv. cbn -[validate_baseline_summary validate_map_values].
  by apply snapshots_accepted.
Qed.

Lemma contribution_accepted entry : contribution_ok entry →
  validate_baseline_contribution true true (contribution_value entry.2) = Ok tt.
Proof.
  intros (_ & _ & Hf). unfold validate_baseline_contribution, contribution_value.
  cbn -[validate_baseline_summary validate_map_values]. by apply snapshots_accepted.
Qed.

(** What a scan guarantees of a cut: it drains only the messages of OpenCode. *)
Definition drains_messages (c : SqliteIngestionCursor) : Prop :=
  cu_continue_after_time_updated c ≠ None →
    cu_client c = lit "opencode" ∧ cu_source_id c = lit "opencode.sqlite" ∧ cu_table c = lit "session_message".

Lemma cursor_accepted entry : cursor_ok entry → cursor_typed entry.2 → drains_messages entry.2 → validate_cursor true (cursor_value entry.2) = Ok tt.
Proof.
  destruct entry as [key [client id instance table last seen draining cut]]. intros (_ & Hd & Hc) (_ & _ & _ & _ & Hlast & Hcut) Hm.
  cbn [snd cu_draining cu_continue_after_time_updated cu_last_time_updated] in *. destruct cut as [cut|]; cbn [is_some] in Hd; subst draining.
  - destruct (Hm ltac:(done)) as (Hcl & Hid & Ht). cbn [cu_client cu_source_id cu_table cu_last_time_updated] in *. subst client id table.
    unfold validate_cursor, cursor_value. cbn -[as_i64 integer_value i64_max encode_str lit validate_cut].
    assert (∀ v cut_value, v = cursor_value {| cu_client := lit "opencode"; cu_source_id := lit "opencode.sqlite"; cu_source_instance_id := instance;
      cu_table := lit "session_message"; cu_last_time_updated := last; cu_observed_at_unix_ms := seen; cu_draining := true;
      cu_continue_after_time_updated := Some cut |} → cut_value = integer_value cut → validate_cut v cut_value = Ok tt) as Hv.
    { intros v cv -> ->. unfold validate_cut, at_key.
      cbn -[as_i64 integer_value i64_max encode_str lit]. rewrite !read_integer by done.
      rewrite (proj2 (Z.leb_le _ _) (Hc cut eq_refl)). unfold text_value. rewrite !encode_lit by (vm_compute; reflexivity). reflexivity. }
    by rewrite Hv.
  - reflexivity.
Qed.

Lemma inventory_accepted i : validate_inventory true (inventory_value i) = Ok tt.
Proof.
  unfold validate_inventory, inventory_value. cbn -[validate_agent each]. apply each_map. intros a _.
  unfold validate_agent, agent_value. cbn -[validate_signal each]. apply each_map. intros signal _. reflexivity.
Qed.

Lemma families_accepted s : state_wf s → st_schema_version (ss_baseline_snapshots s) = BASELINE_STATE_VERSION →
  state_typed s → Forall (λ entry, drains_messages entry.2) (ss_sqlite_ingestion_cursors s) →
  validate_state_families (("state_schema_version", JString STATE_SCHEMA_VERSION) :: state_members s) true false true = Ok tt.
Proof.
  intros [_ _ [_ Hsn] [_ Hco] _ [_ Hcu]] Hv [_ _ _ _ _ _ Tcu _] Hm. unfold entries_typed in Tcu. rewrite Forall_forall in Hco. rewrite Forall_forall in Hcu. rewrite Forall_forall in Tcu. rewrite Forall_forall in Hm.
  unfold validate_state_families, state_members.
  cbn -[validate_baseline_store validate_map_values validate_inventory map_value store_value inventory_value].
  rewrite (store_accepted false _ Hv Hsn).
  rewrite map_values_Ok by (intros kv Hin; by apply contribution_accepted, Hco).
  rewrite map_values_Ok by (intros kv Hin; reflexivity).
  rewrite map_values_Ok by (intros kv Hin; apply cursor_accepted; [by apply Hcu|by apply Tcu|by apply Hm]).
  destruct (ss_install_inventory s); [apply inventory_accepted|reflexivity].
Qed.

Lemma state_step_version `{StateServices} `{!EventServices} s s' : state_step s s' →
  st_schema_version (ss_baseline_snapshots s) = BASELINE_STATE_VERSION →
  st_schema_version (ss_baseline_snapshots s') = BASELINE_STATE_VERSION.
Proof.
  intros Hstep Hv. destruct Hstep; try exact Hv.
  - unfold should_emit, should_emit_session_risk_summary, should_emit_posture. by repeat case_match.
  - unfold should_emit_session_risk_summary, should_emit_posture. by repeat case_match.
  - unfold record_sink_failure_episode. by destruct identity.
  - unfold reset_legacy_baseline. by destruct (_ =? _).
  - unfold record_baseline_source_contribution in *. destruct (collect _ _); [|done].
    by match goal with H : Ok _ = Ok _ |- _ => injection H as <- end.
  - unfold rebuild_baseline_snapshots_from_source_contributions in *. destruct (try_fold _ _ _); [|done].
    by match goal with H : Ok _ = Ok _ |- _ => injection H as <- end.
Qed.

Lemma reachable_version `{StateServices} `{!EventServices} `{!EventServicesLaws} s : rtc state_step ScanState_default s →
  state_wf s ∧ st_schema_version (ss_baseline_snapshots s) = BASELINE_STATE_VERSION.
Proof.
  intros Hs. assert (∀ a b, rtc state_step a b → state_wf a ∧ st_schema_version (ss_baseline_snapshots a) = BASELINE_STATE_VERSION →
    state_wf b ∧ st_schema_version (ss_baseline_snapshots b) = BASELINE_STATE_VERSION) as Hsteps.
  { induction 1 as [|a b c Hab _ IH]; [done|]. intros [Ha Hva]. apply IH. split; [by eapply state_step_wf|by eapply state_step_version]. }
  apply (Hsteps _ _ Hs). split; [apply default_wf|reflexivity].
Qed.

Lemma no_raw_hosts s : (∀ summary, summary ∈ all_summaries s → summary_saved summary) → has_raw_network_hosts s = false.
Proof.
  intros Hs. apply not_true_is_false. unfold has_raw_network_hosts. rewrite existsb_exists. intros (summary & Hin & Hr).
  apply existsb_exists in Hr as (host & Hh & Hn). apply list_elem_of_In, Hs in Hin as [_ Hc].
  by rewrite canonical_valid in Hn by (by apply Hc, list_elem_of_In).
Qed.

Lemma wf_summaries `{EventServices} s : state_wf s → ∀ summary, summary ∈ all_summaries s → summary_saved summary.
Proof.
  intros [_ _ [_ Hsn] [_ Hco] _ _] summary. unfold all_summaries. rewrite elem_of_app. intros [Hin|Hin].
  - unfold bm_values in Hin. apply list_elem_of_fmap in Hin as (entry & -> & Hin). rewrite Forall_forall in Hsn. by apply Hsn.
  - apply contributed_saved in Hco. rewrite Forall_forall in Hco. by apply Hco.
Qed.

Lemma members_kept s : List.filter (λ m : string * JsonValue, negb (str_eqb m.1 "state_schema_version"))
  (("state_schema_version", JString STATE_SCHEMA_VERSION) :: state_members s) = state_members s.
Proof. reflexivity. Qed.

(** C39: A saved state reads back.  For every state the scanner can reach from a fresh one, with strings of
    scalar values and integers of their widths and with cuts only of OpenCode's messages, the value that is
    written passes every check of the reader, of its fields, its version, its families and its hosts, and
    is read as the same state. *)
Theorem saved_state_reads_back `{StateServices} `{!EventServices} `{!EventServicesLaws} s :
  rtc state_step ScanState_default s → state_typed s →
  Forall (λ entry, drains_messages entry.2) (ss_sqlite_ingestion_cursors s) →
  parse_native_state (native_state_value s) = Ok s.
Proof.
  intros Hs Ht Hm. destruct (reachable_version s Hs) as [Hw Hv].
  unfold parse_native_state, parse_native_state_mode_with_count, native_state_value. cbn [as_object].
  assert (validate_fields (("state_schema_version", JString STATE_SCHEMA_VERSION) :: state_members s)
    ("state_schema_version" :: state_field_names) = Ok tt) as -> by reflexivity.
  assert (forallb (λ field, is_some (json_member field (("state_schema_version", JString STATE_SCHEMA_VERSION) :: state_members s)))
    state_field_names = true) as -> by reflexivity.
  cbn [negb orb andb]. rewrite (families_accepted s Hw Hv Ht Hm), members_kept, (read_state_members s Hw Ht). cbn [ok_or].
  rewrite (no_raw_hosts s (wf_summaries s Hw)), Hv. reflexivity.
Qed.

(** ** What an accepted value can hold *)

(** The window a cursor keeps open drains OpenCode's messages, up to its checkpoint. *)
Definition sound_cut (c : SqliteIngestionCursor) : Prop :=
  ∀ cut, cu_continue_after_time_updated c = Some cut →
    cut ≤ cu_last_time_updated c ∧ cu_draining c = true ∧ cu_client c = lit "opencode" ∧
    cu_source_id c = lit "opencode.sqlite" ∧ cu_table c = lit "session_message".

(** The maps and sets of a state are in order, whatever was read. *)
Definition ordered (s : ScanState) : Prop :=
  bs_wf (ss_seen_source_fingerprints s) ∧ bs_wf (ss_seen_detection_fingerprints s) ∧
  bm_wf (st_snapshots (ss_baseline_snapshots s)) ∧ bm_wf (ss_baseline_source_contributions s) ∧
  bm_wf (ss_source_observations s) ∧ bm_wf (ss_sqlite_ingestion_cursors s).

Lemma read_map_ok {V} (P : V → Prop) (read : JsonValue → option V) v m : read_map text_key read v = Some m →
  (∀ object x y, v = JObject object → x ∈ map snd object → read x = Some y → P y) → bm_wf m ∧ Forall (λ kv, P kv.2) m.
Proof.
  destruct v as [| | | | | | |object]; try done. cbn [read_map]. intros Hr HP. apply bind_Some in Hr as (entries & He & Hm).
  apply Some_inj in Hm as <-. apply (fold_insert_ok (λ kv, P kv.2) fst snd); [|by repeat constructor].
  apply mapM_Some in He. apply Forall_forall. intros [k y] Hin. apply list_elem_of_lookup in Hin as [i Hi].
  destruct (Forall2_lookup_r _ _ _ _ _ He Hi) as ([name x] & Hx & Hy). cbn in Hy.
  apply bind_Some in Hy as (y' & Hy & Heq). apply Some_inj, pair_eq in Heq as [_ ->].
  apply (HP object x y eq_refl); [|done]. apply list_elem_of_fmap. exists (name, x). split; [done|]. by eapply list_elem_of_lookup_2.
Qed.

Lemma read_set_ok v s : read_set v = Some s → bs_wf s.
Proof. unfold read_set. intros (l & _ & ->)%fmap_Some. apply bs_of_list_wf. Qed.

Lemma each_inv {A} (validate : A → R unit) l x : each validate l = Ok tt → x ∈ l → validate x = Ok tt.
Proof.
  unfold each. induction l as [|y l IH]; [by intros _ ?%not_elem_of_nil|]. cbn [try_fold].
  destruct (validate y) as [[]|] eqn:Hy; [|done]. intros Hl [->|Hin]%elem_of_cons; [done|by apply IH].
Qed.

(** The fields of a value, as the checks find them and as they are read. *)
Lemma read_field {A} (read : JsonValue → option A) name object x : field read name object = Some x →
  ∃ v, at_key (JObject object) name = v ∧ json_get (JObject object) name = Some v ∧ read v = Some x.
Proof. unfold field, at_key, json_get. intros (v & Hv & Hx)%bind_Some. exists v. by rewrite Hv. Qed.

Lemma read_is_text v t x : is_text v t = true → read_text v = Some x → x = decode_str t.
Proof. destruct v; try done. cbn. intros ->%str_eqb_spec Hx. by apply Some_inj in Hx. Qed.

Lemma read_cursor_ok native v c : validate_cursor native v = Ok tt → read_cursor v = Some c → sound_cut c.
Proof.
  unfold validate_cursor, read_cursor. intros Hv. destruct (validate_object _ _) as [[]|]; [|done].
  destruct (when_present _ _) as [[]|] eqn:Hp; [|done]. clear Hv.
  intros (object & Ho & H0)%bind_Some. destruct v; try done. apply Some_inj in Ho as ->.
  apply bind_Some in H0 as (client & (vc & Hc & _ & Rc)%read_field & H1). apply bind_Some in H1 as (id & (vi & Hi & _ & Ri)%read_field & H1).
  apply bind_Some in H1 as (instance & _ & H1). apply bind_Some in H1 as (table & (vt & Ht & _ & Rt)%read_field & H1).
  apply bind_Some in H1 as (last & (vl & Hl & _ & Rl)%read_field & H1). apply bind_Some in H1 as (seen & _ & H1).
  apply bind_Some in H1 as (draining & Hd & H1). apply bind_Some in H1 as (cut & Hcut & H1). apply Some_inj in H1 as <-.
  intros z Hz. cbn in Hz. subst cut. cbn -[lit]. unfold field_or in Hcut, Hd. cbn [json_get] in Hp.
  destruct (json_member "continue_after_time_updated" object) as [vz|]; [|done]. cbn [when_present] in Hp.
  apply demand_Ok in Hp. rewrite Hc, Hi, Ht, Hl, Rl in Hp. rewrite !andb_true_iff in Hp. destruct Hp as ((((Hz & Hb) & Hp1) & Hp2) & Hp3).
  assert (as_i64 vz = Some z) as Haz by (destruct vz; try done; by apply fmap_Some in Hcut as (? & ? & [= ->])).
  rewrite Haz in Hz. split_and!.
  - by apply Z.leb_le.
  - unfold at_key, json_get in Hb. destruct (json_member "draining" object) as [[]|]; try done. apply Some_inj in Hd as <-. done.
  - by rewrite (read_is_text vc _ _ Hp1 Rc).
  - by rewrite (read_is_text vi _ _ Hp2 Ri).
  - by rewrite (read_is_text vt _ _ Hp3 Rt).
Qed.

(** The object of a state without the version of the format. *)
Notation unversioned object := (List.filter (λ m : string * JsonValue, negb (str_eqb m.1 "state_schema_version")) object).

Lemma unversioned_member name object : str_eqb name "state_schema_version" = false →
  json_member name (unversioned object) = json_member name object.
Proof.
  intros Hn. unfold json_member. f_equal. induction object as [|[key v] object IH]; [done|]. cbn [List.filter List.find fst].
  destruct (str_eqb key "state_schema_version") eqn:Hk; cbn [negb List.find fst]; [|by rewrite IH].
  apply str_eqb_spec in Hk as ->. rewrite IH. destruct (str_eqb "state_schema_version" name) eqn:Hs; [|done].
  apply str_eqb_spec in Hs as <-. by vm_compute in Hn.
Qed.

Lemma read_store_ok v store : read_store v = Some store →
  bm_wf (st_snapshots store) ∧ as_u64 (at_key v "schema_version") = Some (st_schema_version store).
Proof.
  unfold read_store. intros (object & Ho & H1)%bind_Some. destruct v; try done. apply Some_inj in Ho as ->.
  apply bind_Some in H1 as (version & (vv & Hv & _ & Rv)%read_field & H1). apply bind_Some in H1 as (snapshots & (vs & _ & _ & Rs)%read_field & H1).
  apply Some_inj in H1 as <-. cbn [st_snapshots st_schema_version]. rewrite Hv. split; [by apply (read_map_ok (λ _, True)) in Rs as [? _]|].
  unfold read_u16 in Rv. apply bind_Some in Rv as (n & Hn & Rv). by destruct (n <=? 65535); [apply Some_inj in Rv as ->|].
Qed.

(** A map that is absent is empty. *)
Lemma read_map_or_ok {V} (P : V → Prop) (read : JsonValue → option V) name object m :
  field_or [] (read_map text_key read) name object = Some m →
  (∀ v, json_member name object = Some v → ∀ members x y, v = JObject members → x ∈ map snd members → read x = Some y → P y) →
  bm_wf m ∧ Forall (λ kv, P kv.2) m.
Proof.
  unfold field_or. destruct (json_member name object) as [v|].
  - intros Hm HP. by apply (read_map_ok P read v); [|apply HP].
  - intros <-%Some_inj _. by repeat constructor.
Qed.

Lemma read_state_ordered object s : read_state object = Some s → ordered s ∧
  field_or [] (read_map text_key read_cursor) "sqlite_ingestion_cursors" object = Some (ss_sqlite_ingestion_cursors s) ∧
  field_or BaselineSnapshotStore_default read_store "baseline_snapshots" object = Some (ss_baseline_snapshots s).
Proof.
  unfold read_state. intros (sources & (vs & _ & _ & Rs)%read_field & H1)%bind_Some.
  apply bind_Some in H1 as (detections & (vd & _ & _ & Rd)%read_field & H1). apply bind_Some in H1 as (baselines & Hb & H1).
  apply bind_Some in H1 as (contributions & Hc & H1). apply bind_Some in H1 as (observations & Ho & H1).
  apply bind_Some in H1 as (cursors & Hu & H1). apply bind_Some in H1 as (inventory & _ & H1). apply Some_inj in H1 as <-.
  cbn [ss_sqlite_ingestion_cursors ss_baseline_snapshots]. split; [|done]. unfold ordered.
  cbn [ss_seen_source_fingerprints ss_seen_detection_fingerprints ss_baseline_snapshots ss_baseline_source_contributions
    ss_source_observations ss_sqlite_ingestion_cursors].
  apply read_set_ok in Rs, Rd. apply (read_map_or_ok (λ _, True)) in Hc as [Hc _]; [|done].
  apply (read_map_or_ok (λ _, True)) in Ho as [Ho _]; [|done]. apply (read_map_or_ok (λ _, True)) in Hu as [Hu _]; [|done].
  split_and!; try done. unfold field_or in Hb. destruct (json_member "baseline_snapshots" object) as [v|].
  - by apply read_store_ok in Hb as [Hb _].
  - apply Some_inj in Hb as <-. constructor.
Qed.

Lemma read_cursors_sound object object' native allow strict_hosts s :
  validate_state_families object native allow strict_hosts = Ok tt →
  json_member "sqlite_ingestion_cursors" object' = json_member "sqlite_ingestion_cursors" object →
  read_state object' = Some s → Forall (λ entry, sound_cut entry.2) (ss_sqlite_ingestion_cursors s).
Proof.
  unfold validate_state_families. intros Hv Hm Hs. do 3 (destruct (when_present _ _) as [[]|]; [|done]).
  destruct (when_present _ _) as [[]|] eqn:Hc; [|done]. apply read_state_ordered in Hs as (_ & Hs & _).
  apply (read_map_or_ok sound_cut) in Hs; [by apply Hs|]. intros v Hget object1 x y -> Hin Hx. rewrite Hm in Hget. rewrite Hget in Hc.
  cbn [when_present] in Hc. unfold validate_map_values in Hc. cbn [as_object] in Hc.
  eapply read_cursor_ok; [|exact Hx]. by eapply each_inv.
Qed.

(** A value is accepted by a scan, or by a migration of the current or of the older format. *)
Definition accepted (value : JsonValue) (s : ScanState) : Prop :=
  (∃ allow n, parse_native_state_mode_with_count allow value = Ok (s, n)) ∨ parse_legacy_state value = Ok s.

Lemma reset_keeps s : ordered s → ordered (reset_legacy_baseline s) ∧
  ss_sqlite_ingestion_cursors (reset_legacy_baseline s) = ss_sqlite_ingestion_cursors s.
Proof.
  unfold reset_legacy_baseline, ordered. destruct (_ =? _); [done|]. intros (H1 & H2 & H3 & H4 & H5 & H6). split; [|done].
  split_and!; try done; constructor.
Qed.

(** What a successful reading went through. *)
Lemma native_accepted allow value s n : parse_native_state_mode_with_count allow value = Ok (s, n) →
  ∃ object read strict_hosts, let version := st_schema_version (ss_baseline_snapshots read) in
    validate_state_families object true allow strict_hosts = Ok tt ∧
    read_state (unversioned object) = Some read ∧
    s = (if allow then reset_legacy_baseline read else read) ∧
    strict_hosts = negb allow || (version =? BASELINE_STATE_VERSION) ∧
    (strict_hosts = true → has_raw_network_hosts read = false) ∧
    (allow = false → version = BASELINE_STATE_VERSION ∧ n = 0).
Proof.
  unfold parse_native_state_mode_with_count. destruct (as_object value) as [object|] eqn:Ho; [|done]. destruct value; try done. injection Ho as ->.
  destruct (validate_fields _ _) as [[]|]; [|done]. destruct (demand _) as [[]|]; [|done].
  destruct (demand (forallb _ _)) as [[]|] eqn:Hall; [|done]. apply demand_Ok in Hall.
  destruct (validate_state_families _ _ _ _) as [[]|] eqn:Hf; [|done]. destruct (read_state _) as [read|] eqn:Hr; [|done]. cbn [ok_or].
  intros Hok. exists object, read, (negb allow || (st_schema_version (ss_baseline_snapshots read) =? BASELINE_STATE_VERSION)). cbn zeta.
  assert (as_u64 (at_key (at_key (JObject object) "baseline_snapshots") "schema_version") = Some (st_schema_version (ss_baseline_snapshots read))) as Hv.
  { apply read_state_ordered in Hr as (_ & _ & Hb). unfold field_or in Hb. rewrite unversioned_member in Hb by (by vm_compute).
    rewrite forallb_forall in Hall. specialize (Hall "baseline_snapshots" ltac:(cbn; tauto)).
    unfold at_key at 2, json_get. destruct (json_member "baseline_snapshots" object) as [v|]; [|done]. by apply read_store_ok in Hb as [_ Hb]. }
  rewrite Hv in Hok, Hf.
  assert (bool_decide (Some (st_schema_version (ss_baseline_snapshots read)) = Some BASELINE_STATE_VERSION)
    = (st_schema_version (ss_baseline_snapshots read) =? BASELINE_STATE_VERSION)) as Heq.
  { destruct (Z.eqb_spec (st_schema_version (ss_baseline_snapshots read)) BASELINE_STATE_VERSION) as [->|Hne];
      [done|]. apply bool_decide_eq_false. by intros [= Heq]. }
  rewrite Heq in Hok, Hf. destruct (_ || _ || _) eqn:Hc in Hok; [done|]. injection Hok as <- <-.
  rewrite !orb_false_iff, !andb_false_iff in Hc. destruct Hc as [[Hraw Hnew] _]. split_and!; [done|done|done|done| |].
  - intros Hs. rewrite Hs in Hraw. by destruct Hraw.
  - intros ->. split; [|done]. destruct Hnew as [|Hnew%negb_false_iff]; [done|]. by apply Z.eqb_eq.
Qed.

Lemma legacy_accepted value s : parse_legacy_state value = Ok s →
  ordered s ∧ Forall (λ entry, sound_cut entry.2) (ss_sqlite_ingestion_cursors s).
Proof.
  unfold parse_legacy_state. destruct (as_object value) as [object|]; [|done]. destruct (demand _) as [[]|]; [|done].
  destruct (validate_fields _ _) as [[]|]; [|done]. destruct (validate_state_families _ _ _ _) as [[]|] eqn:Hf; [|done].
  destruct (read_state object) as [read|] eqn:Hr; [|done]. cbn [ok_or]. intros Hok. injection Hok as <-.
  destruct (read_state_ordered _ _ Hr) as [Hord _]. pose proof (read_cursors_sound _ _ _ _ _ _ Hf eq_refl Hr).
  by destruct (negb _).
Qed.

(** C40: What an accepted value can hold.  Whatever value is accepted, by a scan or by a migration, the state
    read from it has its sets and maps in order, and an open window in it is of OpenCode's messages and
    ends before its checkpoint, so no other source is drained and none is skipped.  In the current
    format it also has the current version of the baseline and holds no host name: an older
    baseline is dropped by a migration and refused by a scan. *)
Theorem accepted_states_safe value s : accepted value s →
  ordered s ∧ Forall (λ entry, sound_cut entry.2) (ss_sqlite_ingestion_cursors s) ∧
  ∀ allow n, parse_native_state_mode_with_count allow value = Ok (s, n) →
    st_schema_version (ss_baseline_snapshots s) = BASELINE_STATE_VERSION ∧ has_raw_network_hosts s = false ∧
    (allow = false → n = 0).
Proof.
  intros Ha. split; [|split].
  3: { intros allow n (object & read & strict & _ & _ & -> & -> & Hraw & Hn)%native_accepted. unfold reset_legacy_baseline.
       destruct allow; cbn [negb orb] in *; [|by destruct (Hn eq_refl); split_and!; [|apply Hraw|]].
       destruct (Z.eqb_spec (st_schema_version (ss_baseline_snapshots read)) BASELINE_STATE_VERSION); [by split_and!; [|apply Hraw|]|done]. }
  all: destruct Ha as [(allow & n & (object & read & strict & Hf & Hr & -> & _)%native_accepted)|Hl%legacy_accepted]; [|apply Hl].
  - destruct (read_state_ordered _ _ Hr) as [Hord _]. destruct allow; [by apply reset_keeps|done].
  - assert (Forall (λ entry, sound_cut entry.2) (ss_sqlite_ingestion_cursors read)) as Hc.
    { by eapply read_cursors_sound; [exact Hf|apply unversioned_member; by vm_compute|exact Hr]. }
    destruct allow; [|done]. unfold reset_legacy_baseline. by destruct (_ =? _).
Qed.

(** ** Concrete files *)

Module FileSample.
Import Reference BuildSample StateSample ScanSample.

(** A state with the contributions of two sources and an open window. *)
Definition saved : ScanState := observe_sqlite_ingestion_drain database messages 40 7 two_sources.

Lemma saved_reachable : rtc state_step ScanState_default saved.
Proof. eapply rtc_r; [exact two_sources_reachable|]. exact (step_drain two_sources database messages 40 7). Qed.

Definition saved_fields : ScanState := Eval vm_compute in saved.

#[local] Ltac typed := repeat first [exact I | (left; reflexivity) | discriminate | (split; cbn beta) | (constructor; cbn beta)].

Lemma saved_typed : state_typed saved.
Proof. assert (saved = saved_fields) as -> by (vm_compute; reflexivity). constructor; typed. Qed.

Lemma saved_messages : Forall (λ entry, drains_messages entry.2) (ss_sqlite_ingestion_cursors saved).
Proof. constructor; [|constructor]. intros _. split_and!; vm_compute; reflexivity. Qed.

Lemma saved_state_reads_back_witness : parse_native_state (native_state_value saved) = Ok saved.
Proof. exact (saved_state_reads_back saved saved_reachable saved_typed saved_messages). Defined.

(** A migration takes the same value, and the state it reads is safe. *)
Lemma accepted_states_safe_witness : accepted (native_state_value saved) saved ∧ has_raw_network_hosts saved = false.
Proof.
  assert (parse_native_state_mode_with_count true (native_state_value saved) = Ok (saved, 0)) as Ha by (vm_compute; reflexivity).
  assert (accepted (native_state_value saved) saved) as Hacc by (left; by exists true, 0).
  split; [exact Hacc|]. exact (proj1 (proj2 (proj2 (proj2 (accepted_states_safe _ _ Hacc)) true 0 Ha))).
Defined.

(** A cut after the checkpoint is refused, and so is a window over another source. *)
Example later_cut_refused :
  validate_cursor true (cursor_value {| cu_client := lit "opencode"; cu_source_id := lit "opencode.sqlite";
    cu_source_instance_id := []; cu_table := lit "session_message"; cu_last_time_updated := 3; cu_observed_at_unix_ms := 1;
    cu_draining := true; cu_continue_after_time_updated := Some 4 |}) = refused.
Proof. vm_compute. reflexivity. Qed.

End FileSample.
