(* ===== verification/BudgetRuns.v ===== *)
(** * Budgeted outcomes

    A logic for computations charged to a source's budget: one outcome, which a budget with enough
    left gives and which no budget can change, or the budget's own error. *)

From S2P Require Import Prelude Rstr Budget.

Local Open Scope Z_scope.

(** What is left of a source's budget, in work, items and bytes together. *)

Definition room (bounds : SourceBounds) (st : BudgetState) : Z :=
  Z.min (sb_work bounds - work_bytes st)
    (Z.min (sb_projection_items bounds - budget_items st) (sb_compatibility_bytes bounds - budget_bytes st)).

Record bounds_small (bounds : SourceBounds) : Prop := {
  small_work : sb_work bounds < u64_max;
  small_items : sb_projection_items bounds < u64_max;
  small_bytes : sb_compatibility_bytes bounds < u64_max;
}.

(** [runs left exhausted c Q R]: the computation has one outcome, whatever is left; a budget with
    enough left gives it, and any other either gives it or is exhausted.  The outcome is a value in [Q]
    or an error in [R]. *)
Definition runs {S E A} (left : S → Z) (exhausted : E) (c : Eff S E A) (Q : A → Prop) (R : E → Prop) : Prop :=
  ∃ r cost, 0 ≤ cost ∧
    (∀ s, 0 ≤ left s →
      match c s with
      | (s', Ok a) => r = Ok a ∧ 0 ≤ left s' ∧ left s - cost ≤ left s'
      | (_, Err e) => r = Err e ∨ e = exhausted ∧ left s < cost
      end) ∧
    match r with Ok a => Q a | Err e => R e end.

Section runs.
Context {S : Type} (left : S → Z).

Lemma runs_ret {E A} (exhausted : E) (a : A) (Q : A → Prop) R : Q a → runs left exhausted (eret a) Q R.
Proof. intros Ha. exists (Ok a), 0. split_and!; [done| |done]. intros s Hs. cbn. split_and!; [done|lia|lia]. Qed.

Lemma runs_fail {E A} (exhausted e : E) (Q : A → Prop) (R : E → Prop) : R e → runs left exhausted (efail e) Q R.
Proof. intros He. exists (Err e), 0. split_and!; [done| |done]. intros s Hs. by left. Qed.

Lemma runs_bind {E A B} (exhausted : E) (c : Eff S E A) (k : A → Eff S E B) (P : A → Prop) (Q : B → Prop) R :
  runs left exhausted c P R → (∀ a, P a → runs left exhausted (k a) Q R) → runs left exhausted (ebind c k) Q R.
Proof.
  intros (r & n & Hn & Hc & Hr) Hk. unfold ebind. destruct r as [a|e].
  - destruct (Hk a Hr) as (r' & m & Hm & Hka & Hr'). exists r', (n + m). split_and!; [lia| |done]. intros s Hs. specialize (Hc s Hs).
    destruct (c s) as [s1 [a'|e]]; [|destruct Hc as [|[-> ?]]; [done|right; split; [done|lia]]].
    destruct Hc as (Heq & Hs1 & Hle). injection Heq as <-. specialize (Hka s1 Hs1).
    destruct (k a s1) as [s2 [b|e]]; [destruct Hka as (? & ? & ?); split_and!; [done|lia|lia]|].
    destruct Hka as [|[-> ?]]; [by left|right; split; [done|lia]].
  - exists (Err e), n. split_and!; [done| |done]. intros s Hs. specialize (Hc s Hs).
    destruct (c s) as [s1 [a'|e']]; [by destruct Hc|]. destruct Hc as [[= ->]|?]; [by left|by right].
Qed.

Lemma runs_weaken {E A} (exhausted : E) (c : Eff S E A) (P Q : A → Prop) (R R' : E → Prop) :
  runs left exhausted c P R → (∀ a, P a → Q a) → (∀ e, R e → R' e) → runs left exhausted c Q R'.
Proof. intros (r & n & Hn & Hc & Hr) HQ HR. exists r, n. split_and!; [done|done|]. destruct r; auto. Qed.

Lemma runs_affordable {E A} (exhausted : E) (c : Eff S E A) a (Q : A → Prop) R :
  affordable left exhausted c a → Q a → runs left exhausted c Q R.
Proof.
  intros (n & Hn & Hc) Ha. exists (Ok a), n. split_and!; [done| |done]. intros s Hs. specialize (Hc s Hs).
  destruct (c s) as [s' [r|e]]; [destruct Hc as (-> & ? & ?); split_and!; done|by right].
Qed.

Lemma runs_lift {E A} (exhausted : E) (r : result A E) (Q : A → Prop) (R : E → Prop) :
  match r with Ok a => Q a | Err e => R e end → runs left exhausted (elift r) Q R.
Proof. destruct r; [apply runs_ret|apply runs_fail]. Qed.

Lemma runs_map_err {E F A} (exhausted : E) (f : E → F) (c : Eff S E A) (Q : A → Prop) (R : E → Prop) (R' : F → Prop) :
  runs left exhausted c Q R → (∀ e, R e → R' (f e)) → runs left (f exhausted) (emap_err f c) Q R'.
Proof.
  intros (r & n & Hn & Hc & Hr) HR. exists (match r with Ok a => Ok a | Err e => Err (f e) end), n.
  split_and!; [done| |destruct r; auto]. intros s Hs. specialize (Hc s Hs). unfold emap_err.
  destruct (c s) as [s' [a|e]]; [by destruct Hc as (-> & ? & ?)|]. destruct Hc as [->|[-> ?]]; [by left|by right].
Qed.

(** A loop, by an invariant of the elements already taken. *)
Lemma runs_fold {E A B} (exhausted : E) (f : B → A → Eff S E B) (I : list A → B → Prop) (R : E → Prop) acc l :
  I [] acc → (∀ pre a b post, l = pre ++ a :: post → I pre b → runs left exhausted (f b a) (I (pre ++ [a])) R) →
  runs left exhausted (efold f acc l) (I l) R.
Proof.
  intros Hacc Hf. assert (∀ pre post b, l = pre ++ post → I pre b → runs left exhausted (efold f b post) (I l) R) as Hgo; [|by apply (Hgo [])].
  intros pre post. revert pre. induction post as [|a post IH]; intros pre b Hl Hb; cbn [efold].
  - rewrite app_nil_r in Hl. subst pre. by apply runs_ret.
  - eapply runs_bind; [by eapply Hf|]. intros b' Hb'. apply (IH (pre ++ [a])); [by rewrite <- app_assoc|done].
Qed.

Lemma runs_collect {E A B} (exhausted : E) (f : A → Eff S E B) (g : A → B) (R : E → Prop) l :
  (∀ a, a ∈ l → runs left exhausted (f a) (λ b, b = g a) R) → runs left exhausted (ecollect f l) (λ bs, bs = map g l) R.
Proof.
  induction l as [|a l IH]; intros Hf; cbn [ecollect map]; [by apply runs_ret|].
  eapply runs_bind; [apply Hf; by left|]. intros b ->. eapply runs_bind; [apply IH; intros; apply Hf; by right|].
  intros bs ->. by apply runs_ret.
Qed.

End runs.

Section budget_runs.
Variable bounds : SourceBounds.
Hypothesis small : bounds_small bounds.

Lemma charge_affordable n : affordable (room bounds) Bounds (charge bounds n) tt.
Proof.
  exists (Z.max n 1). split; [lia|]. intros [work items bytes]. unfold room, charge, set_work. cbn [work_bytes budget_items budget_bytes]. intros Hs.
  pose proof (small_work _ small). destruct (checked_add work (Z.max n 1)) as [total|] eqn:Ha.
  - apply checked_add_Some in Ha as [-> _]. destruct (Z.leb_spec (work + Z.max n 1) (sb_work bounds)); cbn [work_bytes budget_items budget_bytes];
      [split_and!; [done|lia|lia]|split; [done|lia]].
  - apply checked_add_None in Ha. split; [done|lia].
Qed.

Lemma consume_affordable items n : 0 ≤ items → 0 ≤ n → affordable (room bounds) Bounds (consume bounds items n) tt.
Proof.
  intros Hi Hb. exists (Z.max n 1 + items). split; [lia|]. intros s Hs. destruct (charge_affordable n) as (cost & _ & _).
  unfold consume, charge. destruct s as [work i b]. unfold room, set_work in *. cbn [work_bytes budget_items budget_bytes] in *.
  pose proof (small_work _ small). pose proof (small_items _ small). pose proof (small_bytes _ small).
  destruct (checked_add work (Z.max n 1)) as [total|] eqn:Ha; [|apply checked_add_None in Ha; split; [done|lia]].
  apply checked_add_Some in Ha as [-> _]. destruct (Z.leb_spec (work + Z.max n 1) (sb_work bounds)); [|split; [done|lia]].
  cbn [work_bytes budget_items budget_bytes].
  destruct (checked_add i items) as [ni|] eqn:Hai; [|apply checked_add_None in Hai; split; [done|lia]].
  destruct (checked_add b n) as [nb|] eqn:Hab; [|apply checked_add_None in Hab; split; [done|lia]].
  apply checked_add_Some in Hai as [-> _]. apply checked_add_Some in Hab as [-> _].
  destruct (Z.ltb_spec (sb_projection_items bounds) (i + items)); cbn [orb]; [split; [done|lia]|].
  destruct (Z.ltb_spec (sb_compatibility_bytes bounds) (b + n)); cbn [orb work_bytes budget_items budget_bytes];
    [split; [done|lia]|split_and!; [done|lia|lia]].
Qed.

Lemma retain_runs value (Q : unit → Prop) (R : ProcessingError → Prop) : Q tt → (4096 < len value → R Bounds) →
  runs (room bounds) Bounds (retain_text bounds value) Q R.
Proof.
  intros HQ HR. unfold retain_text, validate_text. pose proof (len_nonneg value). eapply (runs_bind _ _ _ _ (λ _, True)).
  - apply runs_lift. destruct (Z.ltb_spec MAX_COMPATIBILITY_STRING_BYTES (len value)); [by apply HR|exact I].
  - intros _ _. eapply runs_affordable; [apply consume_affordable; lia|done].
Qed.

End budget_runs.
