(* ===== verification/RuleSession.v ===== *)
(** * Rule v1 over a session

    crates/telltale-detect/src/v2/rule_v1.rs and observation_match.rs: the verdict of a rule's
    detector on one observation, its aggregate over a session with the redacted evidence it keeps,
    and the evaluation of a session, where linked modifiers decide what the matched rules trigger.

    The content matcher is that of [RuleMatch], the rules and modifiers those of [Rules], the links
    those of [ModifierLink], the sanitizer that of [Redaction], and every step is charged to the
    source's budget ([Budget]).  What a selector finds in an observation is the interface [Facts];
    [SessionFacts] adds the text of a tool result and the link of a download to its execution, which
    crates/telltale-detect/src/v2/selector.rs and actions.rs compute. *)

From S2P Require Import Prelude Ordered Rstr Scoring RuleMatch Rules Budget ModifierLink Json Matcher Unicode Regex RegexRef RedactPatterns Redaction RedactionRun RedactionSafe EventIdentifiers.
From Stdlib Require Import Ascii.

Local Open Scope Z_scope.

(** ** Verdicts *)

Inductive EvaluationStatus := EvaluatedMatch | EvaluatedNoMatch | NotApplicable | StatusNotEvaluated | DetectorError.

#[export] Instance EvaluationStatus_eq_dec : EqDecision EvaluationStatus.
Proof. solve_decision. Defined.

#[export] Instance SelectorId_eq_dec : EqDecision SelectorId.
Proof. solve_decision. Defined.

(** What a session keeps of a detector's result on one observation.  The checks of its constructor
    hold for a detector that compiled and an observation that was read. *)
Record DetectorResult := {
  dr_evaluation_status : EvaluationStatus;
  dr_non_evaluation_reason : option NonEvaluationReason;
  dr_matched_selector_paths : list string;
}.

Definition reason_as_str (reason : NonEvaluationReason) : string :=
  match reason with
  | InsufficientVisibility => "insufficient_visibility"
  | RequiredCapabilityUnsupported => "required_capability_unsupported"
  | RequiredCapabilityUnknown => "required_capability_unknown"
  | MissingOrderingField => "missing_ordering_field"
  | MissingCorrelationKey => "missing_correlation_key"
  | TypeMismatch => "type_mismatch"
  | IneligibleInput => "ineligible_input"
  end.

(** The text of a tool result, borrowed when it needs no rendering, and whether what a session
    downloads runs in it. *)
Class SessionFacts : Type := {
  borrow_tool_result_text : SourceBounds → Observation → Eff BudgetState ProcessingError (option (string * SelectorPresence));
  download_execution_linked : SourceBounds → list Observation → Eff BudgetState ProcessingError bool;
}.

Section detectors.
Context `{RegexEngine} `{FloatText} `{Facts Observation} `{!SessionFacts}.
Variable bounds : SourceBounds.

(** A compiled detector; [de_metadata_bytes] is what cloning its metadata costs. *)
Record CompiledObservationMatchDetector := {
  de_id : string;
  de_families : list ObservationFamily;
  de_stages : list ObservationStage;
  de_matcher : Matcher.CompiledMatcher;
  de_required_capabilities : list CapabilityId;
  de_metadata_bytes : Z;
  de_rule_v1_content : option (list RuleMatch.CompiledMatcher * list string);
}.

Definition compat_path (target : string) : string := "compat.v1." +:+ target.

(** Only the text of a tool result is borrowed. *)
Definition borrow (selector : SelectorId) (o : Observation) : Eff BudgetState ProcessingError (option (string * SelectorPresence)) :=
  if bool_decide (selector = CompatToolResult) then borrow_tool_result_text bounds o else eret None.

(** A target as it is resolved; targets have been validated, so their selectors parse. *)
Definition resolve_target (o : Observation) (target : string)
    : Eff BudgetState ProcessingError (string * (SelectorResolution + string * SelectorPresence)) :=
  match parse_selector (compat_path target) with
  | Err _ => efail Evaluation
  | Ok selector =>
      let! borrowed := borrow selector o in
      match borrowed with
      | Some b => eret (target, inr b)
      | None => let! resolution := try_resolve bounds selector o in eret (target, inl resolution)
      end
  end.

(** The field a resolved target gives, or why it gives none. *)
Definition add_field (acc : list (string * string) * list NonEvaluationReason)
    (resolved : string * (SelectorResolution + string * SelectorPresence)) : list (string * string) * list NonEvaluationReason :=
  let '(fields, unknown) := acc in
  let '(target, found) := resolved in
  match match found with inl r => sr_presence r | inr (_, presence) => presence end with
  | UnavailableVisibility => (fields, unknown ++ [InsufficientVisibility])
  | MetadataMissing => (fields, unknown ++ [IneligibleInput])
  | Present =>
      match found with
      | inr (value, _) => (fields ++ [(target, value)], unknown)
      | inl r => match sr_value r with
                 | Some (JString value) => (fields ++ [(target, value)], unknown)
                 | _ => (fields, unknown ++ [TypeMismatch])
                 end
      end
  | Absent => (fields, unknown)
  end.

Definition evaluate_content_matcher (matcher : list RuleMatch.CompiledMatcher) (targets : list string) (o : Observation)
    : Eff BudgetState ProcessingError (MatchState * list string) :=
  let! resolutions := ecollect (resolve_target o) targets in
  let '(fields, unknown) := foldl add_field ([], []) resolutions in
  let! matched := try_matching_fields (charge bounds) matcher fields in
  let paths := dedup (sort (map (λ field, compat_path field.1) matched)) in
  eret (if negb (bool_decide (paths = [])) then (MatchS, paths)
        else match strongest_reason unknown with
             | Some reason => (NotEvaluated reason, [])
             | None => (NoMatch, [])
             end).

(** The result of a state; paths are kept only of a match. *)
Definition evaluated (e : MatchState * list string) : DetectorResult :=
  match e.1 with
  | MatchS => {| dr_evaluation_status := EvaluatedMatch; dr_non_evaluation_reason := None;
                 dr_matched_selector_paths := dedup (sort e.2) |}
  | NoMatch => {| dr_evaluation_status := EvaluatedNoMatch; dr_non_evaluation_reason := None; dr_matched_selector_paths := [] |}
  | NotEvaluated reason => {| dr_evaluation_status := StatusNotEvaluated; dr_non_evaluation_reason := Some reason;
                              dr_matched_selector_paths := [] |}
  end.

Definition not_applicable : DetectorResult :=
  {| dr_evaluation_status := NotApplicable; dr_non_evaluation_reason := None; dr_matched_selector_paths := [] |}.

Definition try_evaluate (d : CompiledObservationMatchDetector) (o : Observation) : Eff BudgetState ProcessingError DetectorResult :=
  do! charge bounds 1 in
  do! charge bounds (saturating_add (de_metadata_bytes d) (len (de_id d))) in
  do! charge bounds (saturating_add (len (observation_id o)) (match session_id o with Some id => len (ci_value id) | None => 0 end)) in
  if negb (bool_decide (kind o ∈ de_families d)) || negb (bool_decide (stage o ∈ de_stages d)) then eret not_applicable
  else match preflight_capabilities (de_required_capabilities d) (capability_context o) with
       | Some reason => eret (evaluated (NotEvaluated reason, []))
       | None =>
           let! state := match de_rule_v1_content d with
                         | Some (matcher, targets) => evaluate_content_matcher matcher targets o
                         | None => let! e := Matcher.try_evaluate bounds (de_matcher d) o in
                                   eret (me_state e, me_matched_selector_paths e)
                         end in
           eret (evaluated state)
       end.

(** ** The aggregate of a detector *)

Inductive RuleV1SessionError := SessionBounds | Accounting.

Definition processing_error (e : RuleV1SessionError) : ProcessingError :=
  match e with SessionBounds => Bounds | Accounting => Evaluation end.

Inductive RuleV1DetectorOutcome := OMatch | OError | OIndeterminate | ONoMatch | ONotApplicable.

#[export] Instance RuleV1DetectorOutcome_eq_dec : EqDecision RuleV1DetectorOutcome.
Proof. solve_decision. Defined.

Definition outcome_rank (outcome : RuleV1DetectorOutcome) : Z :=
  match outcome with ONotApplicable => 0 | ONoMatch => 1 | OIndeterminate => 2 | OError => 3 | OMatch => 4 end.

Definition max_outcome (left right : RuleV1DetectorOutcome) : RuleV1DetectorOutcome :=
  if outcome_rank left <? outcome_rank right then right else left.

Record RuleV1MatchEvidence := {
  re_observation_id : string;
  re_occurrence : Z;
  re_occurred_at : option string;
  re_evidence : Rules.Evidence;
}.

Record RuleV1DetectorSessionEvaluation := {
  da_detector_id : string;
  da_outcome : RuleV1DetectorOutcome;
  da_evaluated_match_count : Z;
  da_evaluated_no_match_count : Z;
  da_not_evaluated_count : Z;
  da_not_applicable_count : Z;
  da_detector_error_count : Z;
  da_non_evaluation_reason_counts : list (string * Z);
  da_matched_selector_paths : list string;
  da_projection : list RuleV1MatchEvidence;
}.

Definition new_aggregate (id : string) : RuleV1DetectorSessionEvaluation :=
  {| da_detector_id := id; da_outcome := ONotApplicable; da_evaluated_match_count := 0; da_evaluated_no_match_count := 0;
     da_not_evaluated_count := 0; da_not_applicable_count := 0; da_detector_error_count := 0;
     da_non_evaluation_reason_counts := []; da_matched_selector_paths := []; da_projection := [] |}.

(** The first occurrence of each path. *)
Definition push_path (paths : list string) (path : string) : list string :=
  if bool_decide (path ∈ paths) then paths else paths ++ [path].

(** The outcome a status stands for. *)
Definition status_outcome (status : EvaluationStatus) : RuleV1DetectorOutcome :=
  match status with
  | EvaluatedMatch => OMatch | EvaluatedNoMatch => ONoMatch | StatusNotEvaluated => OIndeterminate
  | NotApplicable => ONotApplicable | DetectorError => OError
  end.

Definition one_if (status status' : EvaluationStatus) : Z := if bool_decide (status = status') then 1 else 0.

Definition add_detector_result (a : RuleV1DetectorSessionEvaluation) (r : DetectorResult) : RuleV1DetectorSessionEvaluation :=
  let status := dr_evaluation_status r in
  {| da_detector_id := da_detector_id a;
     da_outcome := match status with NotApplicable => da_outcome a | _ => max_outcome (da_outcome a) (status_outcome status) end;
     da_evaluated_match_count := da_evaluated_match_count a + one_if status EvaluatedMatch;
     da_evaluated_no_match_count := da_evaluated_no_match_count a + one_if status EvaluatedNoMatch;
     da_not_evaluated_count := da_not_evaluated_count a + one_if status StatusNotEvaluated;
     da_not_applicable_count := da_not_applicable_count a + one_if status NotApplicable;
     da_detector_error_count := da_detector_error_count a + one_if status DetectorError;
     da_non_evaluation_reason_counts :=
       match status, dr_non_evaluation_reason r with
       | StatusNotEvaluated, Some reason =>
           bm_update (reason_as_str reason) 0 (λ n, n + 1) (da_non_evaluation_reason_counts a)
       | _, _ => da_non_evaluation_reason_counts a
       end;
     da_matched_selector_paths :=
       match status with
       | EvaluatedMatch => foldl push_path (da_matched_selector_paths a) (dr_matched_selector_paths r)
       | _ => da_matched_selector_paths a
       end;
     da_projection := da_projection a |}.

Context `{Regexes} `{!EventServices}.

(** Errors of the budget end the session. *)
Definition limited {A} (c : Eff BudgetState ProcessingError A) : Eff BudgetState RuleV1SessionError A :=
  emap_err (λ _, SessionBounds) c.

(** What a path finds in an observation, when it is a text. *)
Definition selector_text (selector : SelectorId) (o : Observation) : Eff BudgetState ProcessingError (option string) :=
  let! borrowed := borrow selector o in
  match borrowed with
  | Some (value, _) => eret (Some value)
  | None =>
      let! resolution := try_resolve bounds selector o in
      eret match sr_value resolution with Some (JString value) => Some value | _ => None end
  end.

Definition sanitized (value : string) : string := encode_str (sanitize Redaction.Evidence (decode_str value)).
Definition hash_of (value : string) : string := encode_str (evidence_hash (decode_str value)).

(** The sanitized text and the hash of each path of each observation, kept for one session. *)
Definition Material : Type := list ((Z * string) * (string * string)).

Definition add_material (key : Z * string) (selector : SelectorId) (o : Observation) (material : Material)
    : Eff BudgetState RuleV1SessionError (option (Material * (string * string))) :=
  match bm_get key material with
  | Some found => eret (Some (material, found))
  | None =>
      let! text := limited (selector_text selector o) in
      match text with
      | None => eret None
      | Some value =>
          let! redacted := limited (try_sanitize (charge bounds) Redaction.Evidence (decode_str value)) in
          let redacted_value := encode_str redacted in
          do! limited (elift (validate_text redacted_value)) in
          do! limited (charge bounds (len value)) in
          do! limited (consume bounds 1 (8 + len key.2 + len redacted_value + 64)) in
          let found := (redacted_value, hash_of value) in
          eret (Some (bm_insert key found material, found))
      end
  end.

(** The length of what an evidence retains, unless it overflows [usize]. *)
Definition retained_len (o : Observation) (field redacted_value id : string) : option Z :=
  foldl (λ total n, total ≫= λ total, checked_add total n) (Some (len (observation_id o)))
    [len field; len redacted_value; 64; len id; match occurred_at_text o with Some time => len time | None => 0 end].

Definition field_of (path : string) : string := default path (strip_prefix path "compat.v1.").

Definition project_path (d : CompiledObservationMatchDetector) (o : Observation) (occurrence : Z)
    (st : Material * list RuleV1MatchEvidence) (path : string)
    : Eff BudgetState RuleV1SessionError (Material * list RuleV1MatchEvidence) :=
  let '(material, projection) := st in
  if sb_projection_items bounds <=? Z.of_nat (length projection) then efail SessionBounds
  else match parse_selector path with
  | Err _ => efail SessionBounds
  | Ok selector =>
      do! limited (charge bounds (len path)) in
      let! added := add_material (occurrence, path) selector o material in
      match added with
      | None => eret (material, projection)
      | Some (material, (redacted_value, hash)) =>
          do! limited (elift match occurred_at_text o with Some time => validate_text time | None => Ok tt end) in
          match retained_len o (field_of path) redacted_value (de_id d) with
          | None => efail SessionBounds
          | Some bytes =>
              do! limited (consume bounds 1 bytes) in
              eret (material, projection ++ [{|
                re_observation_id := observation_id o; re_occurrence := occurrence; re_occurred_at := occurred_at_text o;
                re_evidence := {| Rules.ev_field := field_of path; Rules.ev_redacted_value := redacted_value;
                                  Rules.ev_hash := Some hash; Rules.ev_rule_id := Some (de_id d) |} |}])
          end
      end
  end.

Definition with_projection (a : RuleV1DetectorSessionEvaluation) (projection : list RuleV1MatchEvidence)
    : RuleV1DetectorSessionEvaluation :=
  {| da_detector_id := da_detector_id a; da_outcome := da_outcome a; da_evaluated_match_count := da_evaluated_match_count a;
     da_evaluated_no_match_count := da_evaluated_no_match_count a; da_not_evaluated_count := da_not_evaluated_count a;
     da_not_applicable_count := da_not_applicable_count a; da_detector_error_count := da_detector_error_count a;
     da_non_evaluation_reason_counts := da_non_evaluation_reason_counts a;
     da_matched_selector_paths := da_matched_selector_paths a; da_projection := projection |}.

Definition with_paths (a : RuleV1DetectorSessionEvaluation) (paths : list string) : RuleV1DetectorSessionEvaluation :=
  {| da_detector_id := da_detector_id a; da_outcome := da_outcome a; da_evaluated_match_count := da_evaluated_match_count a;
     da_evaluated_no_match_count := da_evaluated_no_match_count a; da_not_evaluated_count := da_not_evaluated_count a;
     da_not_applicable_count := da_not_applicable_count a; da_detector_error_count := da_detector_error_count a;
     da_non_evaluation_reason_counts := da_non_evaluation_reason_counts a;
     da_matched_selector_paths := paths; da_projection := da_projection a |}.

(** The aggregate, the material of the session and the observations that matched. *)
Definition DetectorState : Type := RuleV1DetectorSessionEvaluation * Material * list Z.

Definition session_step (d : CompiledObservationMatchDetector) (st : DetectorState) (item : Z * Observation)
    : Eff BudgetState RuleV1SessionError DetectorState :=
  let '(a, material, matched) := st in
  let '(occurrence, o) := item in
  let! r := limited (try_evaluate d o) in
  let is_match := bool_decide (dr_evaluation_status r = EvaluatedMatch) in
  do! (if is_match then limited (charge bounds 1) else eret tt) in
  let matched := if is_match then matched ++ [occurrence] else matched in
  let retain_projection := negb (str_eqb (de_id d) "execution.shell") || (da_evaluated_match_count a =? 0) in
  let! projected := if is_match && retain_projection
                    then efold (project_path d o occurrence) (material, da_projection a) (dr_matched_selector_paths r)
                    else eret (material, da_projection a) in
  eret (add_detector_result (with_projection a projected.2) r, projected.1, matched).

Definition numbered {A} (l : list A) : list (Z * A) := imap (λ i a, (Z.of_nat i, a)) l.

Definition aggregate_detector_session (d : CompiledObservationMatchDetector) (observations : list Observation)
    (material : Material) : Eff BudgetState RuleV1SessionError DetectorState :=
  do! limited (retain_text bounds (de_id d)) in
  let! st := efold (session_step d) (new_aggregate (de_id d), material, []) (numbered observations) in
  let '(a, material, matched) := st in
  eret (with_paths a (dedup (sort (da_matched_selector_paths a))), material, matched).

(** ** A session *)

Record RuleV1CompatibilityPlan := {
  pl_export : RuleV1CompatibilityExport;
  pl_detectors : list CompiledObservationMatchDetector;
}.

Record RuleV1CompatibilityMetadata := {
  cd_categories : list string;
  cd_detection_classes : list string;
  cd_signal_types : list string;
  cd_analytic_intents : list string;
  cd_atlas_tags : list string;
  cd_tags : list string;
}.

Record RuleV1SessionEvaluation := {
  se_detectors : list RuleV1DetectorSessionEvaluation;
  se_matched_atomic_rule_ids : list string;
  se_triggered_modifier_ids : list string;
  se_effective_rule_ids : list string;
  se_compatibility_contributions : list RiskContribution;
  se_compatibility_score : Z;
  se_compatibility_metadata : RuleV1CompatibilityMetadata;
}.

Definition no_metadata : RuleV1CompatibilityMetadata :=
  {| cd_categories := []; cd_detection_classes := []; cd_signal_types := []; cd_analytic_intents := [];
     cd_atlas_tags := []; cd_tags := [] |}.

Definition retain_values (values : list string) : Eff BudgetState RuleV1SessionError (list string) :=
  let! _ := ecollect (λ value, limited (retain_text bounds value)) values in eret values.

(** The detectors' aggregates, the material, the rules that matched and where. *)
Record Aggregated := {
  ag_detectors : list RuleV1DetectorSessionEvaluation;
  ag_material : Material;
  ag_matched : list string;
  ag_occurrences : list (string * list Z);
}.

Definition aggregate_step (observations : list Observation) (st : Aggregated) (d : CompiledObservationMatchDetector)
    : Eff BudgetState RuleV1SessionError Aggregated :=
  let! r := aggregate_detector_session d observations (ag_material st) in
  let '(a, material, matched) := r in
  if bool_decide (da_outcome a = OMatch) then
    do! limited (retain_text bounds (da_detector_id a)) in
    eret {| ag_detectors := ag_detectors st ++ [a]; ag_material := material;
            ag_matched := bs_insert (da_detector_id a) (ag_matched st);
            ag_occurrences := bm_insert (da_detector_id a) matched (ag_occurrences st) |}
  else eret {| ag_detectors := ag_detectors st ++ [a]; ag_material := material;
               ag_matched := ag_matched st; ag_occurrences := ag_occurrences st |}.

(** The modifier that needs what was downloaded to run. *)
Definition linked_modifier (modifier : RuleV1CompatibilityModifier) : bool :=
  (str_eqb (rmo_id modifier) "chain.download_then_execute"
   && bool_decide (rmo_when_all_categories modifier = ["download"; "execution"])
   && bool_decide (rmo_when_all_rule_ids modifier = []))%bool.

Definition modifier_linked (observations : list Observation) (steps : Steps) (modifier : RuleV1CompatibilityModifier)
    : Eff BudgetState RuleV1SessionError bool :=
  if linked_modifier modifier then limited (download_execution_linked bounds observations)
  else match rmo_link modifier with
       | Some link => limited (elift (linked_in_session modifier link steps))
       | None => eret true
       end.

Definition withhold_step (observations : list Observation) (steps : Steps) (withheld : list string)
    (modifier : RuleV1CompatibilityModifier) : Eff BudgetState RuleV1SessionError (list string) :=
  let! linked := modifier_linked observations steps modifier in
  eret (if linked then withheld else bs_insert (rmo_id modifier) withheld).

(** An explanation that scores is short enough to keep. *)
Definition check_explanations (scored : list (Z * string)) : Eff BudgetState RuleV1SessionError unit :=
  let! _ := ecollect (λ s : Z * string, limited (elift (validate_text s.2))) (List.filter (λ s : Z * string, 0 <? s.1) scored) in
  eret tt.

Definition rule_scores (rules : list RuleV1CompatibilityRule) : list (Z * string) :=
  map (λ r, (rcr_score r, rcr_explanation r)) rules.
Definition modifier_scores (modifiers : list RuleV1CompatibilityModifier) : list (Z * string) :=
  map (λ m, (rmo_score m, rmo_explanation m)) modifiers.

(** What is retained of the content that matched. *)
Definition retain_content (export : RuleV1CompatibilityExport) (matches : MatchResult)
    : Eff BudgetState RuleV1SessionError (list string * list string * RuleV1CompatibilityMetadata) :=
  let triggered := map rmo_id (List.filter (λ m, bool_decide (rmo_id m ∈ mr_rule_ids matches)) (re_modifiers export)) in
  let! _ := retain_values triggered in
  let! _ := ecollect (λ c, do! limited (retain_text bounds (rc_id c)) in limited (retain_text bounds (rc_rationale c)))
              (mr_contributions matches) in
  let! categories := retain_values (mr_categories matches) in
  let! detection_classes := retain_values (mr_detection_classes matches) in
  let! signal_types := retain_values (mr_signal_types matches) in
  let! analytic_intents := retain_values (mr_analytic_intents matches) in
  let! atlas_tags := retain_values (mr_atlas_tags matches) in
  let! tags := retain_values (mr_tags matches) in
  let! ids := retain_values (mr_rule_ids matches) in
  eret (triggered, ids, {| cd_categories := categories; cd_detection_classes := detection_classes;
    cd_signal_types := signal_types; cd_analytic_intents := analytic_intents; cd_atlas_tags := atlas_tags; cd_tags := tags |}).

Definition session_evaluation (st : Aggregated) (triggered effective : list string) (contributions : list RiskContribution)
    (score : Z) (metadata : RuleV1CompatibilityMetadata) : RuleV1SessionEvaluation :=
  {| se_detectors := ag_detectors st; se_matched_atomic_rule_ids := ag_matched st;
     se_triggered_modifier_ids := dedup (sort triggered); se_effective_rule_ids := dedup (sort effective);
     se_compatibility_contributions := contributions; se_compatibility_score := score;
     se_compatibility_metadata := metadata |}.

Context `{Rfc3339}.

(** The steps of the session are built only for a modifier that declares a link. *)
Definition steps_for (export : RuleV1CompatibilityExport) (triggered : list RuleV1CompatibilityModifier)
    (occurrences : list (string * list Z)) (observations : list Observation) : Eff BudgetState RuleV1SessionError Steps :=
  if existsb (λ m, is_some (rmo_link m) && negb (linked_modifier m)) triggered
  then limited (session_steps bounds export occurrences observations)
  else eret [].

Definition evaluate_rule_v1_session_with_budget (plan : RuleV1CompatibilityPlan) (observations : list Observation)
    : Eff BudgetState RuleV1SessionError RuleV1SessionEvaluation :=
  let export := pl_export plan in
  let! st := efold (aggregate_step observations) {| ag_detectors := []; ag_material := []; ag_matched := []; ag_occurrences := [] |}
               (pl_detectors plan) in
  let selected := ag_matched st in
  do! check_explanations (rule_scores (atomic_rules export selected)) in
  let triggered := triggered_modifiers export selected in
  let! steps := steps_for export triggered (ag_occurrences st) observations in
  let! withheld := efold (withhold_step observations steps) [] triggered in
  do! check_explanations (modifier_scores (triggered_modifiers_without export selected withheld)) in
  let! content := emap_err (λ _ : RiskAccountingError, Accounting)
                    (elift (@evaluate_matched_without sanitizer_privacy export selected withheld)) in
  match content with
  | Some matches =>
      let! retained := retain_content export matches in
      let '(triggered, ids, metadata) := retained in
      eret (session_evaluation st triggered ids (mr_contributions matches) (mr_score matches) metadata)
  | None => eret (session_evaluation st [] [] [] 0 no_metadata)
  end.

End detectors.
