(* ===== verification/RuleSessionSpec.v ===== *)
(** * What the evaluation of a session computes

    The verdicts, evidence and triggered modifiers of a session without a budget, and the theorem that
    the evaluation of [RuleSession] computes them. *)

From S2P Require Import Prelude Ordered Rstr Scoring RuleMatch Rules Budget ModifierLink Json Matcher Unicode Regex RegexRef RedactPatterns Redaction RedactionRun RedactionSafe EventIdentifiers EventPrivacy EventHistory BudgetRuns RuleSession.
From Stdlib Require Import Ascii.

Local Open Scope Z_scope.

(** What the facts of an observation promise: fixed answers for the work they charge. *)
Class SessionLaws `{Facts Observation} `{!SessionFacts} : Type := {
  found : SelectorId → Observation → SelectorResolution;
  result_text : Observation → option (string * SelectorPresence);
  download_links : list Observation → result bool ProcessingError;
  try_resolve_affordable bounds selector o : bounds_small bounds →
    affordable (room bounds) Bounds (try_resolve bounds selector o) (found selector o);
  borrow_affordable bounds o : bounds_small bounds →
    affordable (room bounds) Bounds (borrow_tool_result_text bounds o) (result_text o);
  download_runs bounds observations : bounds_small bounds →
    runs (room bounds) Bounds (download_execution_linked bounds observations)
      (λ linked, download_links observations = Ok linked) (λ e, download_links observations = Err e);
}.

Section spec.
Context `{RegexEngine} `{FloatText} `{SessionLaws}.

(** ** Verdicts *)

Definition selector_of (target : string) : SelectorId :=
  match parse_selector (compat_path target) with Ok selector => selector | Err _ => SessionId end.

Definition borrowed (selector : SelectorId) (o : Observation) : option (string * SelectorPresence) :=
  if bool_decide (selector = CompatToolResult) then result_text o else None.

Definition resolved (o : Observation) (target : string) : string * (SelectorResolution + string * SelectorPresence) :=
  (target, match borrowed (selector_of target) o with
           | Some b => inr b
           | None => inl (found (selector_of target) o)
           end).

(** The rule's text fields in an observation, and why the others are unknown. *)
Definition fields_of (targets : list string) (o : Observation) : list (string * string) * list NonEvaluationReason :=
  foldl add_field ([], []) (map (resolved o) targets).

(** The rule matches on the targets some matcher finds its pattern in. *)
Definition content_verdict (matcher : list RuleMatch.CompiledMatcher) (targets : list string) (o : Observation)
    : MatchState * list string :=
  let matched := map fst (omap (span_spec matcher) (fields_of targets o).1) in
  let paths := dedup (sort (map (λ field, compat_path field.1) matched)) in
  if negb (bool_decide (paths = [])) then (MatchS, paths)
  else match strongest_reason (fields_of targets o).2 with
       | Some reason => (NotEvaluated reason, [])
       | None => (NoMatch, [])
       end.

Definition verdict (d : CompiledObservationMatchDetector) (o : Observation) : DetectorResult :=
  if negb (bool_decide (kind o ∈ de_families d)) || negb (bool_decide (stage o ∈ de_stages d)) then not_applicable
  else match preflight_capabilities (de_required_capabilities d) (capability_context o) with
       | Some reason => evaluated (NotEvaluated reason, [])
       | None => evaluated match de_rule_v1_content d with
                           | Some (matcher, targets) => content_verdict matcher targets o
                           | None => (NoMatch, [])
                           end
       end.

Definition is_match (d : CompiledObservationMatchDetector) (o : Observation) : bool :=
  bool_decide (dr_evaluation_status (verdict d o) = EvaluatedMatch).

(** Detectors as the compiler makes them: each has rule content over supported targets. *)
Definition detector_ok (d : CompiledObservationMatchDetector) : Prop :=
  ∃ matcher targets, de_rule_v1_content d = Some (matcher, targets) ∧ Forall (λ t, t ∈ SUPPORTED_RULE_TARGETS) targets.

Lemma supported_parses target : target ∈ SUPPORTED_RULE_TARGETS →
  parse_selector (compat_path target) = Ok (selector_of target) ∧ len (compat_path target) ≤ 64.
Proof.
  revert target. apply Forall_forall. unfold SUPPORTED_RULE_TARGETS.
  repeat (apply Forall_cons_2; [split; [reflexivity|vm_compute; discriminate]|]). apply Forall_nil_2.
Qed.

(** ** The verdict is computed *)

Variable bounds : SourceBounds.
Hypothesis small : bounds_small bounds.

Lemma borrow_affordable' selector o : affordable (room bounds) Bounds (borrow bounds selector o) (borrowed selector o).
Proof. unfold borrow, borrowed. case_bool_decide; [by apply borrow_affordable|apply affordable_ret]. Qed.

Lemma resolve_target_affordable o target : target ∈ SUPPORTED_RULE_TARGETS →
  affordable (room bounds) Bounds (resolve_target bounds o target) (resolved o target).
Proof.
  intros Ht. unfold resolve_target, resolved. rewrite (proj1 (supported_parses target Ht)).
  eapply affordable_bind; [apply borrow_affordable'|]. destruct (borrowed _ o); [apply affordable_ret|].
  eapply affordable_bind; [by apply try_resolve_affordable|apply affordable_ret].
Qed.

Lemma affordable_collect {S E A B} (left : S → Z) (exhausted : E) (f : A → Eff S E B) g l :
  Forall (λ a, affordable left exhausted (f a) (g a)) l → affordable left exhausted (ecollect f l) (map g l).
Proof.
  induction 1 as [|a l Ha _ IH]; cbn [ecollect map]; [apply affordable_ret|].
  eapply affordable_bind; [exact Ha|]. eapply affordable_bind; [exact IH|apply affordable_ret].
Qed.

Lemma content_affordable matcher targets o : Forall (λ t, t ∈ SUPPORTED_RULE_TARGETS) targets →
  affordable (room bounds) Bounds (evaluate_content_matcher bounds matcher targets o) (content_verdict matcher targets o).
Proof.
  intros Ht. unfold evaluate_content_matcher, content_verdict. eapply affordable_bind.
  { apply (affordable_collect _ _ _ (resolved o)). eapply Forall_impl; [exact Ht|]. exact (resolve_target_affordable o). }
  fold (fields_of targets o). destruct (fields_of targets o) as [fields unknown]. cbn [fst snd].
  eapply affordable_bind; [apply try_matching_fields_affordable; intros n; by apply charge_affordable|apply affordable_ret].
Qed.

Lemma try_evaluate_affordable d o : detector_ok d → affordable (room bounds) Bounds (try_evaluate bounds d o) (verdict d o).
Proof.
  intros (matcher & targets & Hd & Ht). unfold try_evaluate, verdict. do 3 (eapply affordable_bind; [by apply charge_affordable|]).
  destruct (_ || _); [apply affordable_ret|]. destruct (preflight_capabilities _ _); [apply affordable_ret|].
  rewrite Hd. eapply affordable_bind; [by apply content_affordable|apply affordable_ret].
Qed.

(** ** Paths *)

Lemma fields_supported targets o : Forall (λ t, t ∈ SUPPORTED_RULE_TARGETS) targets →
  Forall (λ field : string * string, field.1 ∈ SUPPORTED_RULE_TARGETS) (fields_of targets o).1.
Proof.
  intros Ht. unfold fields_of.
  assert (∀ acc, Forall (λ field : string * string, field.1 ∈ SUPPORTED_RULE_TARGETS) acc.1 →
    Forall (λ field : string * string, field.1 ∈ SUPPORTED_RULE_TARGETS) (foldl add_field acc (map (resolved o) targets)).1) as Hgo; [|by apply Hgo].
  induction Ht as [|t targets Hin _ IH]; intros [fields unknown] Hacc; [done|]. cbn [map foldl]. apply IH. clear IH.
  unfold add_field, resolved. repeat case_match; cbn [fst] in *; try done; (apply Forall_app_2; [done|by apply Forall_singleton]).
Qed.

Lemma verdict_paths d o path : detector_ok d → path ∈ dr_matched_selector_paths (verdict d o) →
  ∃ target, target ∈ SUPPORTED_RULE_TARGETS ∧ path = compat_path target.
Proof.
  intros (matcher & targets & Hd & Ht). unfold verdict. destruct (_ || _); [by intros ?%not_elem_of_nil|].
  destruct (preflight_capabilities _ _); [by intros ?%not_elem_of_nil|]. rewrite Hd. unfold content_verdict.
  pose proof (fields_supported targets o Ht) as Hf. rewrite Forall_forall in Hf.
  case_bool_decide; cbn [negb evaluated fst snd dr_matched_selector_paths];
    [destruct (strongest_reason _); by intros ?%not_elem_of_nil|].
  rewrite dedup_sort_bset, bs_of_list_elem, dedup_sort_bset, bs_of_list_elem. intros ([field value] & -> & Hin)%list_elem_of_fmap. cbn [fst].
  apply list_elem_of_fmap in Hin as ([[name v] range] & Heq & Hin). cbn [fst] in Heq. injection Heq as -> ->.
  apply list_elem_of_omap in Hin as ([n w] & Hin & Hspan). apply Hf in Hin. unfold span_spec in Hspan.
  destruct (omap _ _) in Hspan; [done|]. injection Hspan as -> _ _. by exists name.
Qed.

(** ** Evidence *)

Context `{RL : !Regexes} `{ES : !EventServices}.

Definition text_of (selector : SelectorId) (o : Observation) : option string :=
  match borrowed selector o with
  | Some (value, _) => Some value
  | None => match sr_value (found selector o) with Some (JString value) => Some value | _ => None end
  end.

(** The evidence of a path: the sanitized text with the hash of what it was, or nothing when the
    path has no text. *)
Definition path_evidence (d : CompiledObservationMatchDetector) (o : Observation) (occurrence : Z) (path : string)
    : option RuleV1MatchEvidence :=
  selector ← match parse_selector path with Ok selector => Some selector | Err _ => None end;
  value ← text_of selector o;
  Some {| re_observation_id := observation_id o; re_occurrence := occurrence; re_occurred_at := occurred_at_text o;
          re_evidence := {| Rules.ev_field := field_of path; Rules.ev_redacted_value := sanitized value;
                            Rules.ev_hash := Some (hash_of value); Rules.ev_rule_id := Some (de_id d) |} |}.

Definition evidence_at (d : CompiledObservationMatchDetector) (item : Z * Observation) : list RuleV1MatchEvidence :=
  omap (path_evidence d item.2 item.1) (dr_matched_selector_paths (verdict d item.2)).

(** Material holds what its keys stand for. *)
Definition material_ok (items : list (Z * Observation)) (material : Material) : Prop :=
  ∀ i path found, bm_get (i, path) material = Some found →
    ∀ o, (i, o) ∈ items → ∃ selector value, parse_selector path = Ok selector ∧ text_of selector o = Some value ∧
      found = (sanitized value, hash_of value).

Lemma selector_text_affordable selector o : affordable (room bounds) Bounds (selector_text bounds selector o) (text_of selector o).
Proof.
  unfold selector_text, text_of. eapply affordable_bind; [apply borrow_affordable'|].
  destruct (borrowed selector o) as [[value presence]|]; [apply affordable_ret|].
  eapply affordable_bind; [by apply try_resolve_affordable|apply affordable_ret].
Qed.

Lemma utf8_char_length c : Z.of_nat (length (utf8_char c)) = utf8_len c.
Proof. unfold utf8_char, utf8_len. by destruct (c <? 128)%N, (c <? 2048)%N, (c <? 65536)%N. Qed.

Lemma len_encode t : len (encode_str t) = str_len t.
Proof.
  rewrite len_bytes, encode_bytes, length_map. unfold utf8_encode, str_len. induction t as [|c t IH]; [done|].
  cbn [map concat foldr]. rewrite length_app, Nat2Z.inj_add, utf8_char_length, IH. done.
Qed.

Lemma sanitized_short value : len (sanitized value) ≤ 512.
Proof. unfold sanitized. rewrite len_encode. exact (proj1 (sanitize_bounded Redaction.Evidence _)). Qed.

Lemma limited_affordable {A} (c : Eff BudgetState ProcessingError A) a (Q : A → Prop) R :
  affordable (room bounds) Bounds c a → Q a → runs (room bounds) SessionBounds (limited c) Q R.
Proof. intros Hc HQ. eapply (runs_map_err _ Bounds); [by eapply (runs_affordable _ _ _ _ _ (λ _, False))|done]. Qed.

Lemma limited_runs {A} (c : Eff BudgetState ProcessingError A) (Q : A → Prop) (R : ProcessingError → Prop) (R' : RuleV1SessionError → Prop) :
  runs (room bounds) Bounds c Q R → (∀ e, R e → R' SessionBounds) → runs (room bounds) SessionBounds (limited c) Q R'.
Proof. intros Hc HR. by apply (runs_map_err _ Bounds (λ _, SessionBounds) c Q R R'). Qed.

(** An observation whose identity and time can be kept. *)
Definition observation_fits (o : Observation) : Prop :=
  len (observation_id o) ≤ 4096 ∧ match occurred_at_text o with Some time => len time ≤ 4096 | None => True end.

#[local] Instance observation_fits_dec o : Decision (observation_fits o).
Proof. unfold observation_fits. destruct (occurred_at_text o); apply _. Defined.

Section session.
Variable items : list (Z * Observation).
Hypothesis occurrences_distinct : NoDup (map fst items).

Lemma same_observation i o o' : (i, o) ∈ items → (i, o') ∈ items → o = o'.
Proof.
  revert occurrences_distinct. induction items as [|[j x] l IH]; [by intros _ ?%not_elem_of_nil|].
  cbn [map fst]. intros [Hj Hnd]%NoDup_cons [Heq|Hin]%elem_of_cons [Heq'|Hin']%elem_of_cons.
  - congruence.
  - injection Heq as -> ->. destruct Hj. apply list_elem_of_fmap. by exists (j, o').
  - injection Heq' as -> ->. destruct Hj. apply list_elem_of_fmap. by exists (j, o).
  - by apply IH.
Qed.

Lemma add_material_runs i path selector o material : parse_selector path = Ok selector → (i, o) ∈ items → material_ok items material →
  runs (room bounds) SessionBounds (add_material bounds (i, path) selector o material)
    (λ r, match text_of selector o with
          | Some value => ∃ material', r = Some (material', (sanitized value, hash_of value)) ∧ material_ok items material'
          | None => r = None
          end) (λ _, False).
Proof.
  intros Hp Hin Hm. unfold add_material. destruct (bm_get (i, path) material) as [found'|] eqn:Hget.
  { apply runs_ret. destruct (Hm _ _ _ Hget o Hin) as (selector' & value & Hp' & Hv & ->).
    rewrite Hp in Hp'. injection Hp' as <-. rewrite Hv. by exists material. }
  eapply runs_bind; [by apply (limited_affordable _ (text_of selector o) (λ t, t = text_of selector o)); [apply selector_text_affordable|]|].
  intros t ->. destruct (text_of selector o) as [value|] eqn:Hv; [|by apply runs_ret].
  eapply runs_bind; [apply (limited_affordable _ (sanitize Redaction.Evidence (decode_str value)) (λ t, encode_str t = sanitized value)); [|done]|].
  { apply try_sanitize_affordable. intros n. by apply charge_affordable. }
  intros redacted ->. cbn [snd]. pose proof (sanitized_short value). pose proof (len_nonneg path). pose proof (len_nonneg (sanitized value)).
  unfold validate_text. destruct (Z.ltb_spec MAX_COMPATIBILITY_STRING_BYTES (len (sanitized value))) as [Hlong|_].
  { unfold MAX_COMPATIBILITY_STRING_BYTES, LOCAL_MAX_STRING_BYTES in Hlong. lia. }
  eapply (runs_bind _ _ _ _ (λ _, True)); [by apply (limited_affordable _ tt); [apply affordable_ret|]|]. intros _ _.
  eapply (runs_bind _ _ _ _ (λ _, True)); [by apply (limited_affordable _ tt); [apply charge_affordable|]|]. intros _ _.
  eapply (runs_bind _ _ _ _ (λ _, True)); [by apply (limited_affordable _ tt); [apply consume_affordable; [done|lia|lia]|]|]. intros _ _.
  apply runs_ret. eexists. split; [done|]. intros i' path' found' Hget' o' Hin'. rewrite bm_get_insert in Hget'.
  destruct (cmp (i, path) (i', path')) eqn:Hc; [|by apply (Hm i' path')..].
  apply cmp_eq in Hc. injection Hc as <- <-. apply Some_inj in Hget' as <-. exists selector, value.
  rewrite (same_observation _ _ _ Hin' Hin). by split_and!.
Qed.

(** Runs out of room for another item of evidence, or holds something too long to keep. *)
Definition over (d : CompiledObservationMatchDetector) (o : Observation) (visits : nat) (e : RuleV1SessionError) : Prop :=
  e = SessionBounds ∧ (sb_projection_items bounds < Z.of_nat visits ∨ ¬ observation_fits o ∨ 4096 < len (de_id d)).

Lemma field_short target : target ∈ SUPPORTED_RULE_TARGETS → len (field_of (compat_path target)) ≤ 64.
Proof.
  revert target. apply Forall_forall. unfold SUPPORTED_RULE_TARGETS.
  repeat (apply Forall_cons_2; [vm_compute; discriminate|]). apply Forall_nil_2.
Qed.

Lemma checked_add_fits a b : 0 ≤ a → 0 ≤ b → a + b ≤ u64_max → checked_add a b = Some (a + b).
Proof. intros Ha Hb Hab. destruct (checked_add a b) as [c|] eqn:Hc; [by apply checked_add_Some in Hc as [-> _]|]. apply checked_add_None in Hc. lia. Qed.

Lemma retained_fits d o field redacted : observation_fits o → len (de_id d) ≤ 4096 → len field ≤ 64 → len redacted ≤ 512 →
  ∃ n, retained_len o field redacted (de_id d) = Some n ∧ 0 ≤ n.
Proof.
  intros [Ho Ht] Hd Hf Hr. unfold retained_len. cbn [foldl mbind option_bind].
  pose proof (len_nonneg (observation_id o)). pose proof (len_nonneg field). pose proof (len_nonneg redacted). pose proof (len_nonneg (de_id d)).
  assert (u64_max = 18446744073709551615) as Hu by done.
  assert (0 ≤ match occurred_at_text o with Some time => len time | None => 0 end ≤ 4096) as Hto.
  { destruct (occurred_at_text o) as [time|]; [|done]. pose proof (len_nonneg time). lia. }
  rewrite checked_add_fits by lia. cbn [mbind option_bind]. rewrite checked_add_fits by lia. cbn [mbind option_bind].
  rewrite checked_add_fits by lia. cbn [mbind option_bind]. rewrite checked_add_fits by lia. cbn [mbind option_bind].
  rewrite checked_add_fits by lia. eexists. split; [done|lia].
Qed.

Lemma checked_sum a l n : Forall (Z.le 0) l → 0 ≤ a →
  foldl (λ total n, total ≫= λ total, checked_add total n) (Some a) l = Some n → 0 ≤ n.
Proof.
  intros Hl. revert a. induction Hl as [|x l Hx _ IH]; intros a Ha; [by intros <-%Some_inj|]. cbn [foldl mbind option_bind].
  destruct (checked_add a x) as [b|] eqn:Hb; [apply checked_add_Some in Hb as [-> _]; apply IH; lia|].
  clear IH. induction l as [|y l IH]; [done|exact IH].
Qed.

Lemma retained_nonneg o field redacted id n : retained_len o field redacted id = Some n → 0 ≤ n.
Proof.
  unfold retained_len. apply checked_sum; [|apply len_nonneg].
  repeat (apply Forall_cons_2; [first [apply len_nonneg|lia|destruct (occurred_at_text o); [apply len_nonneg|lia]]|]). apply Forall_nil_2.
Qed.

Lemma project_path_runs d i o material projection target : target ∈ SUPPORTED_RULE_TARGETS → (i, o) ∈ items → material_ok items material →
  runs (room bounds) SessionBounds (project_path bounds d o i (material, projection) (compat_path target))
    (λ st, material_ok items st.1 ∧ st.2 = projection ++ option_list (path_evidence d o i (compat_path target)))
    (over d o (S (length projection))).
Proof.
  intros Ht Hin Hm. destruct (supported_parses target Ht) as [Hp _]. unfold project_path, path_evidence. rewrite Hp.
  destruct (Z.leb_spec (sb_projection_items bounds) (Z.of_nat (length projection))); [apply runs_fail; split; [done|left; lia]|].
  eapply (runs_bind _ _ _ _ (λ _, True)); [by apply (limited_affordable _ tt); [by apply charge_affordable|]|]. intros _ _.
  eapply runs_bind; [eapply runs_weaken; [by apply (add_material_runs i (compat_path target) (selector_of target) o material)|by intros r Hr; exact Hr|done]|].
  intros added Hadded. cbn [mbind option_bind]. destruct (text_of (selector_of target) o) as [value|].
  2: { subst added. apply runs_ret. cbn [fst snd option_list mbind option_bind]. by rewrite app_nil_r. }
  destruct Hadded as (material' & -> & Hm'). cbn [mbind option_bind].
  eapply (runs_bind _ _ _ _ (λ _, match occurred_at_text o with Some time => len time ≤ 4096 | None => True end)).
  { apply (limited_runs _ _ (λ _, ¬ observation_fits o)); [apply runs_lift|intros e Hn; split; [done|by right; left]].
    unfold observation_fits, validate_text. destruct (occurred_at_text o) as [time|]; [|done].
    destruct (Z.ltb_spec MAX_COMPATIBILITY_STRING_BYTES (len time)) as [Hl|Hl]; unfold MAX_COMPATIBILITY_STRING_BYTES, LOCAL_MAX_STRING_BYTES in Hl; [|done].
    intros [_ ?]. lia. }
  intros _ _. destruct (retained_len o _ _ (de_id d)) as [n|] eqn:Hn.
  - eapply (runs_bind _ _ _ _ (λ _, True)).
    { apply (limited_affordable _ tt); [|done]. apply consume_affordable; [done..|]. by apply retained_nonneg in Hn. }
    intros _ _. by apply runs_ret.
  - apply runs_fail. split; [done|]. destruct (decide (observation_fits o)) as [Hfits|]; [|by right; left].
    destruct (Z.le_gt_cases (len (de_id d)) 4096); [|right; right; lia].
    by destruct (retained_fits d o (field_of (compat_path target)) (sanitized value)) as (n & Hs & _);
      [| |apply field_short|apply sanitized_short|rewrite Hs in Hn].
Qed.

Lemma omap_snoc {A B} (f : A → option B) l a : omap f (l ++ [a]) = omap f l ++ option_list (f a).
Proof. by rewrite omap_app. Qed.

Lemma omap_short {A B} (f : A → option B) l : (length (omap f l) ≤ length l)%nat.
Proof.
  induction l as [|a l IH]; [done|].
  change (omap f (a :: l)) with (match f a with Some y => y :: omap f l | None => omap f l end).
  destruct (f a); cbn [length]; lia.
Qed.

Lemma project_paths_run d i o material projection paths visits : detector_ok d → (i, o) ∈ items → material_ok items material →
  (∀ path, path ∈ paths → ∃ target, target ∈ SUPPORTED_RULE_TARGETS ∧ path = compat_path target) →
  (length projection + length paths ≤ visits)%nat →
  runs (room bounds) SessionBounds (efold (project_path bounds d o i) (material, projection) paths)
    (λ st, material_ok items st.1 ∧ st.2 = projection ++ omap (path_evidence d o i) paths) (over d o visits).
Proof.
  intros Hd Hin Hm Hpaths Hv. apply (runs_fold _ _ _ (λ pre st, material_ok items st.1 ∧ st.2 = projection ++ omap (path_evidence d o i) pre)).
  - split; [done|]. by rewrite app_nil_r.
  - intros pre path [material' projection'] post -> [Hm' Hp]. cbn [fst snd] in Hm', Hp.
    destruct (Hpaths path) as (target & Ht & ->); [apply elem_of_app; right; by left|].
    eapply runs_weaken; [by apply project_path_runs| |].
    + intros st [Hst ->]. split; [done|]. by rewrite Hp, omap_snoc, app_assoc.
    + intros e [-> [Hlen|Ho]]; split; try done; [left|by right]. rewrite length_app in Hv. cbn [length] in Hv.
      assert (length projection' ≤ length projection + length pre)%nat; [|lia].
      rewrite Hp, length_app. pose proof (omap_short (path_evidence d o i) pre). lia.
Qed.

(** ** The aggregate *)

Definition hits (d : CompiledObservationMatchDetector) (l : list (Z * Observation)) : list (Z * Observation) :=
  List.filter (λ item, is_match d item.2) l.

(** The matches whose evidence is kept: of the shell rule only the first. *)
Definition kept (d : CompiledObservationMatchDetector) (l : list (Z * Observation)) : list (Z * Observation) :=
  if str_eqb (de_id d) "execution.shell" then take 1 (hits d l) else hits d l.

Definition tally (p : DetectorResult → bool) (d : CompiledObservationMatchDetector) (l : list (Z * Observation)) : Z :=
  Z.of_nat (length (List.filter (λ item : Z * Observation, p (verdict d item.2)) l)).
Definition has_status (status : EvaluationStatus) (r : DetectorResult) : bool := bool_decide (dr_evaluation_status r = status).
Definition has_reason (reason : NonEvaluationReason) (r : DetectorResult) : bool :=
  bool_decide (dr_non_evaluation_reason r = Some reason).

(** The aggregate of a detector over a session: every observation is counted once, by its verdict; the
    outcome is the strongest; the paths and the evidence are those of the matches. *)
Record aggregate_of (d : CompiledObservationMatchDetector) (l : list (Z * Observation)) (a : RuleV1DetectorSessionEvaluation) : Prop := {
  ao_id : da_detector_id a = de_id d;
  ao_matches : da_evaluated_match_count a = tally (has_status EvaluatedMatch) d l;
  ao_no_matches : da_evaluated_no_match_count a = tally (has_status EvaluatedNoMatch) d l;
  ao_not_evaluated : da_not_evaluated_count a = tally (has_status StatusNotEvaluated) d l;
  ao_not_applicable : da_not_applicable_count a = tally (has_status NotApplicable) d l;
  ao_errors : da_detector_error_count a = 0;
  ao_outcome : da_outcome a = ONotApplicable ∨ ∃ item, item ∈ l ∧ da_outcome a = status_outcome (dr_evaluation_status (verdict d item.2));
  ao_strongest : ∀ item, item ∈ l →
    outcome_rank (status_outcome (dr_evaluation_status (verdict d item.2))) ≤ outcome_rank (da_outcome a);
  ao_reasons : ∀ reason, default 0 (bm_get (reason_as_str reason) (da_non_evaluation_reason_counts a)) = tally (has_reason reason) d l;
  ao_paths : ∀ path, path ∈ da_matched_selector_paths a ↔
    ∃ item, item ∈ l ∧ is_match d item.2 = true ∧ path ∈ dr_matched_selector_paths (verdict d item.2);
  ao_projection : da_projection a = concat (map (evidence_at d) (kept d l));
}.

Lemma tally_snoc p d l item : tally p d (l ++ [item]) = tally p d l + (if p (verdict d item.2) then 1 else 0).
Proof. unfold tally. rewrite List.filter_app, length_app. cbn [List.filter]. destruct (p _); cbn [length]; lia. Qed.

Lemma push_paths_elem paths acc path : path ∈ foldl push_path acc paths ↔ path ∈ acc ∨ path ∈ paths.
Proof.
  revert acc. induction paths as [|p paths IH]; intros acc; cbn [foldl]; [set_solver|]. rewrite IH. unfold push_path.
  case_bool_decide; set_solver.
Qed.

Lemma reason_as_str_inj a b : reason_as_str a = reason_as_str b → a = b.
Proof. by destruct a, b. Qed.

(** A verdict is a match, or not; an error is none of them. *)
Lemma verdict_cases d o :
  match dr_evaluation_status (verdict d o), dr_non_evaluation_reason (verdict d o) with
  | StatusNotEvaluated, Some _ | EvaluatedMatch, None | EvaluatedNoMatch, None | NotApplicable, None => True
  | _, _ => False
  end.
Proof.
  unfold verdict. destruct (_ || _); [done|]. destruct (preflight_capabilities _ _); [done|]. unfold evaluated.
  by destruct (de_rule_v1_content d) as [[matcher targets]|]; [destruct (content_verdict matcher targets o) as [[] ?]|].
Qed.

Lemma hits_snoc d l item : hits d (l ++ [item]) = hits d l ++ (if is_match d item.2 then [item] else []).
Proof. unfold hits. rewrite List.filter_app. cbn [List.filter]. by destruct (is_match d item.2). Qed.

Lemma hits_tally d l : Z.of_nat (length (hits d l)) = tally (has_status EvaluatedMatch) d l.
Proof. reflexivity. Qed.

Lemma kept_snoc d l item a : aggregate_of d l a →
  kept d (l ++ [item]) = kept d l ++
    (if is_match d item.2 && (negb (str_eqb (de_id d) "execution.shell") || (da_evaluated_match_count a =? 0)) then [item] else []).
Proof.
  intros Ha. rewrite (ao_matches _ _ _ Ha), <- hits_tally. unfold kept. rewrite hits_snoc.
  destruct (str_eqb (de_id d) "execution.shell"); cbn [negb orb]; [|by rewrite andb_true_r].
  destruct (hits d l) as [|x xs]; cbn [length Z.of_nat Z.eqb app take].
  - by destruct (is_match d item.2).
  - by rewrite andb_false_r, app_nil_r.
Qed.

Lemma outcome_rank_inj x y : outcome_rank x = outcome_rank y → x = y.
Proof. by destruct x, y. Qed.

Lemma outcome_rank_range x : 0 ≤ outcome_rank x ≤ 4.
Proof. destruct x; cbn; lia. Qed.

Lemma max_outcome_spec x y : (max_outcome x y = x ∨ max_outcome x y = y) ∧
  outcome_rank x ≤ outcome_rank (max_outcome x y) ∧ outcome_rank y ≤ outcome_rank (max_outcome x y).
Proof. unfold max_outcome. destruct (Z.ltb_spec (outcome_rank x) (outcome_rank y)); split_and!; (lia || auto). Qed.

Lemma aggregate_outcome d l a (item : Z * Observation) projection : aggregate_of d l a →
  da_outcome (add_detector_result (with_projection a projection) (verdict d item.2)) =
    max_outcome (da_outcome a) (status_outcome (dr_evaluation_status (verdict d item.2))).
Proof.
  intros Ha. unfold add_detector_result. cbn [da_outcome with_projection].
  destruct (dr_evaluation_status (verdict d item.2)); try done. cbn [status_outcome]. unfold max_outcome. cbn [outcome_rank].
  destruct (Z.ltb_spec (outcome_rank (da_outcome a)) 0) as [Hn|]; [|done]. pose proof (outcome_rank_range (da_outcome a)). lia.
Qed.

Lemma aggregate_snoc d l a item : aggregate_of d l a →
  aggregate_of d (l ++ [item])
    (add_detector_result (with_projection a (concat (map (evidence_at d) (kept d (l ++ [item]))))) (verdict d item.2)).
Proof.
  intros Ha. pose proof (verdict_cases d item.2) as Hcases.
  split; [apply Ha|..|reflexivity]; cbn [add_detector_result with_projection da_evaluated_match_count da_evaluated_no_match_count
    da_not_evaluated_count da_not_applicable_count da_detector_error_count].
  - rewrite tally_snoc, <- (ao_matches _ _ _ Ha). done.
  - rewrite tally_snoc, <- (ao_no_matches _ _ _ Ha). done.
  - rewrite tally_snoc, <- (ao_not_evaluated _ _ _ Ha). done.
  - rewrite tally_snoc, <- (ao_not_applicable _ _ _ Ha). done.
  - rewrite (ao_errors _ _ _ Ha). unfold one_if. rewrite bool_decide_false; [done|]. intros Hs. by rewrite Hs in Hcases.
  - rewrite (aggregate_outcome d l) by done. destruct (max_outcome_spec (da_outcome a) (status_outcome (dr_evaluation_status (verdict d item.2)))) as [[-> | ->] _].
    + destruct (ao_outcome _ _ _ Ha) as [|(x & Hx & ?)]; [by left|]. right. exists x. split; [apply elem_of_app; by left|done].
    + right. exists item. split; [apply elem_of_app; right; by left|done].
  - intros x Hx. rewrite (aggregate_outcome d l) by done. pose proof (max_outcome_spec (da_outcome a) (status_outcome (dr_evaluation_status (verdict d item.2)))) as (_ & H1' & H2').
    apply elem_of_app in Hx as [Hx|Hx%list_elem_of_singleton]; [|by subst x].
    pose proof (ao_strongest _ _ _ Ha x Hx). lia.
  - intros reason. rewrite tally_snoc, <- (ao_reasons _ _ _ Ha reason).
    cbn [add_detector_result da_non_evaluation_reason_counts with_projection]. unfold has_reason.
    destruct (dr_evaluation_status (verdict d item.2)), (dr_non_evaluation_reason (verdict d item.2)) as [r|]; try done;
      try (rewrite bool_decide_false by done; lia).
    unfold bm_update. rewrite bm_get_insert. case_bool_decide as Hr.
    + injection Hr as ->. rewrite cmp_refl. reflexivity.
    + destruct (cmp (reason_as_str r) (reason_as_str reason)) eqn:Hc; [|lia|lia]. apply cmp_eq, reason_as_str_inj in Hc. congruence.
  - intros path. cbn [add_detector_result da_matched_selector_paths with_projection].
    assert (path ∈ match dr_evaluation_status (verdict d item.2) with
                   | EvaluatedMatch => foldl push_path (da_matched_selector_paths a) (dr_matched_selector_paths (verdict d item.2))
                   | _ => da_matched_selector_paths a end ↔
      path ∈ da_matched_selector_paths a ∨ is_match d item.2 = true ∧ path ∈ dr_matched_selector_paths (verdict d item.2)) as ->.
    { unfold is_match. rewrite bool_decide_eq_true. destruct (dr_evaluation_status (verdict d item.2)); try rewrite push_paths_elem; naive_solver. }
    rewrite (ao_paths _ _ _ Ha path). setoid_rewrite elem_of_app. setoid_rewrite list_elem_of_singleton. naive_solver.
Qed.

(** The paths of the matches whose evidence is kept. *)
Definition visits (d : CompiledObservationMatchDetector) (l : list (Z * Observation)) : nat :=
  length (concat (map (λ item : Z * Observation, dr_matched_selector_paths (verdict d item.2)) (kept d l))).

(** What a detector keeps of the session has room in the projection and is short enough. *)
Definition detector_fits (d : CompiledObservationMatchDetector) : Prop :=
  len (de_id d) ≤ 4096 ∧ Forall (λ item : Z * Observation, observation_fits item.2) items ∧
  Z.of_nat (visits d items) ≤ sb_projection_items bounds.

Lemma evidence_short d l : (length (concat (map (evidence_at d) (kept d l))) ≤ visits d l)%nat.
Proof.
  unfold visits. induction (kept d l) as [|item k IH]; [done|]. cbn [map concat]. rewrite !length_app.
  pose proof (omap_short (path_evidence d item.2 item.1) (dr_matched_selector_paths (verdict d item.2))). unfold evidence_at at 1. lia.
Qed.

Lemma kept_prefix d pre post : ∃ rest, kept d (pre ++ post) = kept d pre ++ rest.
Proof.
  unfold kept, hits. rewrite List.filter_app. destruct (str_eqb _ _); [|by eexists].
  destruct (List.filter _ pre); [by exists (take 1 (List.filter (λ item, is_match d item.2) post))|by exists []; rewrite app_nil_r].
Qed.

Lemma visits_prefix d pre post : (visits d pre ≤ visits d (pre ++ post))%nat.
Proof.
  unfold visits. destruct (kept_prefix d pre post) as [rest ->]. rewrite map_app, concat_app, length_app. lia.
Qed.

Lemma session_step_runs d pre item post a material matched : detector_ok d → items = pre ++ item :: post →
  aggregate_of d pre a → material_ok items material → matched = map fst (hits d pre) →
  runs (room bounds) SessionBounds (session_step bounds d (a, material, matched) item)
    (λ st, aggregate_of d (pre ++ [item]) st.1.1 ∧ material_ok items st.1.2 ∧ st.2 = map fst (hits d (pre ++ [item])))
    (λ e, e = SessionBounds ∧ ¬ detector_fits d).
Proof.
  intros Hd Hitems Ha Hm ->. destruct item as [i o]. unfold session_step.
  assert ((i, o) ∈ items) as Hin by (rewrite Hitems; apply elem_of_app; right; by left).
  eapply runs_bind; [by apply (limited_affordable _ (verdict d o) (λ r, r = verdict d o)); [apply try_evaluate_affordable|]|].
  intros r ->. change (bool_decide (dr_evaluation_status (verdict d o) = EvaluatedMatch)) with (is_match d o).
  eapply (runs_bind _ _ _ _ (λ _, True)).
  { destruct (is_match d o); [by apply (limited_affordable _ tt); [by apply charge_affordable|]|by apply runs_ret]. }
  intros _ _. pose proof (kept_snoc d pre (i, o) a Ha) as Hk. cbn [snd] in Hk. rewrite (ao_projection _ _ _ Ha).
  eapply (runs_bind _ _ _ _ (λ st : Material * list RuleV1MatchEvidence,
    material_ok items st.1 ∧ st.2 = concat (map (evidence_at d) (kept d (pre ++ [(i, o)]))))).
  - rewrite Hk. destruct (_ && _) eqn:Hkeep; [|apply runs_ret; by rewrite app_nil_r].
    eapply runs_weaken; [apply (project_paths_run d i o _ _ _ (visits d (pre ++ [(i, o)]))); try done| |].
    + intros path. by apply verdict_paths.
    + pose proof (evidence_short d pre). unfold visits. rewrite Hk, map_app, concat_app, length_app. cbn [map concat snd].
      rewrite app_nil_r. fold (visits d pre). lia.
    + intros st [Hst ->]. split; [done|]. rewrite map_app, concat_app. cbn [map concat]. by rewrite app_nil_r.
    + intros e [-> Hover]. split; [done|]. intros (Hid & Hobs & Hv). destruct Hover as [Hlt|[Hnot|Hlong]].
      * pose proof (visits_prefix d (pre ++ [(i, o)]) post) as Hp. rewrite <- app_assoc in Hp. cbn [app] in Hp. rewrite <- Hitems in Hp. lia.
      * rewrite Forall_forall in Hobs. by apply Hnot, (Hobs _ Hin).
      * lia.
  - intros [material' projection'] [Hm' ->]. apply runs_ret. cbn [fst snd]. split_and!.
    + by apply (aggregate_snoc d pre a (i, o)).
    + done.
    + rewrite hits_snoc, map_app. cbn [snd]. destruct (is_match d o); [done|]. cbn. by rewrite app_nil_r.
Qed.

Lemma aggregate_nil d : aggregate_of d [] (new_aggregate (de_id d)).
Proof.
  split; try done; [by left|by intros item ?%not_elem_of_nil| |].
  - intros path. split; [by intros ?%not_elem_of_nil|]. intros (item & Hin & _). by apply not_elem_of_nil in Hin.
  - unfold kept, hits. by destruct (str_eqb _ _).
Qed.

Lemma aggregate_with_paths d l a : aggregate_of d l a → aggregate_of d l (with_paths a (dedup (sort (da_matched_selector_paths a)))).
Proof.
  intros Ha. split; try apply Ha. intros path. cbn [da_matched_selector_paths with_paths].
  rewrite dedup_sort_bset, bs_of_list_elem. apply (ao_paths _ _ _ Ha).
Qed.

End session.

Lemma numbered_distinct (observations : list Observation) : NoDup (map fst (numbered observations)).
Proof.
  assert (map fst (numbered observations) = map Z.of_nat (seq 0 (length observations))) as ->.
  { apply list_eq. intros i. unfold numbered. rewrite !list_lookup_fmap, list_lookup_imap.
    destruct (observations !! i) as [o|] eqn:Ho; cbn [fmap option_fmap option_map fst].
    - rewrite lookup_seq_lt; [done|]. by eapply lookup_lt_Some.
    - rewrite lookup_seq_ge; [done|]. by apply lookup_ge_None. }
  apply NoDup_fmap; [|apply NoDup_seq]. intros x y. apply Nat2Z.inj.
Qed.

(** A detector's part of a session has one outcome: its aggregate, unless it does not fit. *)
Lemma aggregate_runs d observations material : detector_ok d → material_ok (numbered observations) material →
  runs (room bounds) SessionBounds (aggregate_detector_session bounds d observations material)
    (λ st, aggregate_of d (numbered observations) st.1.1 ∧ bs_wf (da_matched_selector_paths st.1.1) ∧
           material_ok (numbered observations) st.1.2 ∧ st.2 = map fst (hits d (numbered observations)))
    (λ e, e = SessionBounds ∧ ¬ detector_fits (numbered observations) d).
Proof.
  intros Hd Hm. unfold aggregate_detector_session. eapply (runs_bind _ _ _ _ (λ _, True)).
  { apply (limited_runs _ _ (λ _, 4096 < len (de_id d))); [by apply retain_runs|]. intros _ Hlong. split; [done|]. intros [? _]. lia. }
  intros _ _. eapply runs_bind.
  - apply (runs_fold _ _ _ (λ pre (st : DetectorState), aggregate_of d pre st.1.1 ∧ material_ok (numbered observations) st.1.2 ∧ st.2 = map fst (hits d pre))).
    + cbn [fst snd]. split_and!; [apply aggregate_nil|done|done].
    + intros pre item [[a material'] matched] post Hl (Ha & Hm' & Hmatched). cbn [fst snd] in *.
      eapply session_step_runs; [apply numbered_distinct|done..].
  - intros [[a material'] matched] (Ha & Hm' & Hmatched). cbn [fst snd] in *. apply runs_ret. cbn [fst snd].
    split_and!; [by apply aggregate_with_paths| |done|done]. cbn [da_matched_selector_paths with_paths]. rewrite dedup_sort_bset. apply bs_of_list_wf.
Qed.

End spec.
