(* ===== verification/RuleSessionRun.v ===== *)
(** * The evaluation of a session

    What [evaluate_rule_v1_session_with_budget] computes: the aggregates of [RuleSessionSpec], the
    rules that matched, the modifiers their links allow, and the contributions of both; and that a
    budget decides only whether it is computed. *)

From S2P Require Import Prelude Ordered Rstr Scoring RuleMatch Rules Budget ModifierLink Json Matcher Unicode Regex RegexRef RedactPatterns Redaction RedactionRun RedactionSafe EventIdentifiers EventPrivacy EventHistory BudgetRuns RuleSession RuleSessionSpec EventBuildSafe.
From Stdlib Require Import Ascii.

Local Open Scope Z_scope.

(** ** Computations that only charge *)

Section keeps.
Context {E : Type}.

Definition keeps {A} (c : Eff BudgetState E A) : Prop :=
  ∀ s, budget_items (c s).1 = budget_items s ∧ budget_bytes (c s).1 = budget_bytes s.

Lemma keeps_ret {A} (a : A) : keeps (eret a).
Proof. by intros s. Qed.

Lemma keeps_fail {A} e : keeps (efail e : Eff BudgetState E A).
Proof. by intros s. Qed.

Lemma keeps_bind {A B} (c : Eff BudgetState E A) (k : A → Eff BudgetState E B) : keeps c → (∀ a, keeps (k a)) → keeps (ebind c k).
Proof.
  intros Hc Hk s. unfold ebind. specialize (Hc s). destruct (c s) as [s1 [a|e]]; [|done]. cbn [fst] in Hc.
  destruct (Hk a s1) as [-> ->]. done.
Qed.

Lemma keeps_fold {A B} (f : B → A → Eff BudgetState E B) acc l : (∀ b a, keeps (f b a)) → keeps (efold f acc l).
Proof. intros Hf. revert acc. induction l as [|a l IH]; intros acc; [apply keeps_ret|]. by apply keeps_bind. Qed.

End keeps.

Lemma keeps_charge bounds n : keeps (charge bounds n).
Proof. intros s. unfold charge, set_work. destruct (checked_add _ _) as [total|]; [destruct (total <=? _)|]; done. Qed.

#[export] Hint Resolve keeps_ret keeps_fail keeps_bind keeps_fold keeps_charge : telltale.

Lemma affordable_metered {A} bounds (c : Eff BudgetState ProcessingError A) cost a :
  0 ≤ cost → keeps c → metered (work_left bounds) c cost a → affordable (room bounds) Bounds c a.
Proof.
  intros Hn Hk Hc. exists cost. split; [done|]. intros s Hs. specialize (Hc s). specialize (Hk s). unfold room, work_left in *.
  destruct (c s) as [s' [r|e]]; cbn [fst] in Hk; destruct Hk as [Hi Hb].
  - destruct Hc as (-> & ? & ?); [lia|]. rewrite Hi, Hb. split_and!; [done|lia|lia].
  - destruct Hc as [-> ?]; [lia|]. split; [done|lia].
Qed.

(** Distinct images come from distinct elements. *)
Lemma map_elem_inj {A B} (f : A → B) l x y : NoDup (map f l) → x ∈ l → y ∈ l → f x = f y → x = y.
Proof.
  intros Hnd [i Hi]%list_elem_of_lookup [j Hj]%list_elem_of_lookup Hf. assert (i = j) as ->; [|congruence].
  eapply (NoDup_lookup _ _ _ (f x) Hnd); rewrite list_lookup_fmap; [by rewrite Hi|by rewrite Hj, Hf].
Qed.

Section session.
Context `{RegexEngine} `{FloatText} `{SessionLaws} `{RL : !Regexes} `{ES : !EventServices} `{Rfc3339}.
Variable bounds : SourceBounds.
Hypothesis small : bounds_small bounds.

Lemma session_steps_keeps export occurrences observations : keeps (session_steps bounds export occurrences observations).
Proof.
  unfold session_steps, call_positions. apply keeps_bind.
  - apply keeps_bind; [|auto with telltale]. apply keeps_fold. intros st o. unfold call_step.
    destruct (kind o), (call_id o); auto with telltale; destruct (bool_decide _); auto with telltale.
  - intros ps. apply keeps_fold. intros steps [id indexes]. apply keeps_fold. intros steps' index. unfold add_occurrence, new_step.
    apply keeps_bind; [auto with telltale|]. intros _. destruct (slice_get ps index), (slice_get observations index) as [o|]; auto with telltale.
    destruct (bm_get _ _); auto with telltale. apply keeps_bind; [|auto with telltale]. destruct (occurred_at_text o); auto with telltale.
Qed.

(** ** The session without a budget *)

Variable plan : RuleV1CompatibilityPlan.
Variable observations : list Observation.

Notation items := (numbered observations).
Notation export := (pl_export plan).

Definition fires (d : CompiledObservationMatchDetector) : bool := negb (bool_decide (hits d items = [])).

(** The rules that matched somewhere, and where. *)
Definition matched_ids : list string := bs_of_list (map de_id (List.filter fires (pl_detectors plan))).
Definition matched_at : list (string * list Z) :=
  foldl (λ m d, bm_insert (de_id d) (map fst (hits d items)) m) [] (List.filter fires (pl_detectors plan)).

Definition triggered : list RuleV1CompatibilityModifier := triggered_modifiers export matched_ids.

Definition link_steps : Steps :=
  if existsb (λ m, is_some (rmo_link m) && negb (linked_modifier m)) triggered
  then pure_steps export observations matched_at else [].

(** Whether a modifier's link holds in the session. *)
Definition link_holds (m : RuleV1CompatibilityModifier) : result bool ProcessingError :=
  if linked_modifier m then download_links observations
  else match rmo_link m with Some link => linked_in_session m link link_steps | None => Ok true end.

Definition withheld_ids : list string :=
  foldl (λ withheld m, match link_holds m with Ok true => withheld | _ => bs_insert (rmo_id m) withheld end) [] triggered.

Definition session_content : result (option MatchResult) RiskAccountingError :=
  @evaluate_matched_without sanitizer_privacy export matched_ids withheld_ids.

(** What is kept of the matched content. *)
Definition triggered_in (m : MatchResult) : list string :=
  map rmo_id (List.filter (λ modifier, bool_decide (rmo_id modifier ∈ mr_rule_ids m)) (re_modifiers export)).
Definition retained_strings (m : MatchResult) : list string :=
  triggered_in m ++ concat (map (λ c, [rc_id c; rc_rationale c]) (mr_contributions m)) ++ mr_categories m ++
  mr_detection_classes m ++ mr_signal_types m ++ mr_analytic_intents m ++ mr_atlas_tags m ++ mr_tags m ++ mr_rule_ids m.

Definition short (s : string) : Prop := len s ≤ 4096.
Definition scores_short (scored : list (Z * string)) : Prop := Forall (λ s : Z * string, 0 < s.1 → short s.2) scored.

(** Whatever the session keeps is short enough, and its links can be searched. *)
Record session_fits : Prop := {
  fits_detectors : Forall (detector_fits bounds items) (pl_detectors plan);
  fits_rules : scores_short (rule_scores (atomic_rules export matched_ids));
  fits_links : Forall (λ m, is_ok (link_holds m) = true) triggered;
  fits_modifiers : scores_short (modifier_scores (triggered_modifiers_without export matched_ids withheld_ids));
  fits_content : ∀ m, session_content = Ok (Some m) → Forall short (retained_strings m);
}.

Definition metadata_of (m : MatchResult) : RuleV1CompatibilityMetadata :=
  {| cd_categories := mr_categories m; cd_detection_classes := mr_detection_classes m; cd_signal_types := mr_signal_types m;
     cd_analytic_intents := mr_analytic_intents m; cd_atlas_tags := mr_atlas_tags m; cd_tags := mr_tags m |}.

(** The result of a session: an aggregate per detector, the rules that matched, and what they and the
    modifiers that are not withheld contribute. *)
Record session_result (ev : RuleV1SessionEvaluation) : Prop := {
  sr_detectors : Forall2 (λ d a, aggregate_of d items a ∧ bs_wf (da_matched_selector_paths a)) (pl_detectors plan) (se_detectors ev);
  sr_matched : se_matched_atomic_rule_ids ev = matched_ids;
  sr_links : Forall (λ m, is_ok (link_holds m) = true) triggered;
  sr_content : ∃ content, session_content = Ok content ∧
    match content with
    | Some m =>
        se_effective_rule_ids ev = bs_of_list (mr_rule_ids m) ∧ se_triggered_modifier_ids ev = bs_of_list (triggered_in m) ∧
        se_compatibility_contributions ev = mr_contributions m ∧ se_compatibility_score ev = mr_score m ∧
        se_compatibility_metadata ev = metadata_of m
    | None =>
        se_effective_rule_ids ev = [] ∧ se_triggered_modifier_ids ev = [] ∧ se_compatibility_contributions ev = [] ∧
        se_compatibility_score ev = 0 ∧ se_compatibility_metadata ev = no_metadata
    end;
}.

(** Why a session fails when its budget lasts. *)
Definition session_fails (e : RuleV1SessionError) : Prop :=
  match e with SessionBounds => ¬ session_fits | Accounting => is_ok session_content = false end.

(** ** The detectors of a session *)

Lemma outcome_fires d a : aggregate_of d items a → bool_decide (da_outcome a = OMatch) = fires d.
Proof.
  intros Ha. unfold fires. destruct (decide (hits d items = [])) as [Hh|Hh].
  - rewrite (bool_decide_true (hits d items = [])) by done. apply bool_decide_false. intros Ho.
    destruct (ao_outcome _ _ _ Ha) as [|(item & Hin & Hs)]; [congruence|]. rewrite Ho in Hs.
    assert (item ∈ hits d items) as Hit; [|by rewrite Hh in Hit; apply not_elem_of_nil in Hit].
    unfold hits. apply list_elem_of_In, List.filter_In. split; [by apply list_elem_of_In|]. unfold is_match. apply bool_decide_true.
    by destruct (dr_evaluation_status (verdict d item.2)).
  - rewrite (bool_decide_false (hits d items = [])) by done. apply bool_decide_true.
    destruct (hits d items) as [|item l] eqn:Hl; [done|].
    assert (item ∈ hits d items) as Hit by (rewrite Hl; by left). unfold hits in Hit.
    apply list_elem_of_In, List.filter_In in Hit as [Hin Hm]. apply list_elem_of_In in Hin.
    pose proof (ao_strongest _ _ _ Ha item Hin) as Hr. unfold is_match in Hm. apply bool_decide_eq_true in Hm. rewrite Hm in Hr. cbn [status_outcome outcome_rank] in Hr.
    apply outcome_rank_inj. pose proof (outcome_rank_range (da_outcome a)). cbn [outcome_rank]. lia.
Qed.

Lemma bs_of_list_snoc (l : list string) x : bs_of_list (l ++ [x]) = bs_insert x (bs_of_list l).
Proof. unfold bs_of_list, bs_extend. by rewrite foldl_app. Qed.

Record aggregated (pre : list CompiledObservationMatchDetector) (st : Aggregated) : Prop := {
  ad_detectors : Forall2 (λ d a, aggregate_of d items a ∧ bs_wf (da_matched_selector_paths a)) pre (ag_detectors st);
  ad_material : material_ok items (ag_material st);
  ad_matched : ag_matched st = bs_of_list (map de_id (List.filter fires pre));
  ad_occurrences : ag_occurrences st = foldl (λ m d, bm_insert (de_id d) (map fst (hits d items)) m) [] (List.filter fires pre);
}.

Lemma aggregate_step_runs pre d post st : pl_detectors plan = pre ++ d :: post → detector_ok d → aggregated pre st →
  runs (room bounds) SessionBounds (aggregate_step bounds observations st d) (aggregated (pre ++ [d])) (λ e, e = SessionBounds ∧ ¬ session_fits).
Proof.
  intros Hplan Hd Hst. unfold aggregate_step.
  assert (session_fits → detector_fits bounds items d) as Hfits.
  { intros Hf%fits_detectors. rewrite Forall_forall in Hf. apply Hf. rewrite Hplan. apply elem_of_app. right. by left. }
  eapply runs_bind; [eapply runs_weaken; [exact (aggregate_runs bounds small d observations (ag_material st) Hd (ad_material _ _ Hst))|by intros r Hr; exact Hr|]|].
  { intros e [-> Hn]. split; [done|]. auto. }
  intros [[a material] matched] (Ha & Hwf & Hm & Hmatched). cbn [fst snd] in *. rewrite (outcome_fires d a Ha).
  assert (∀ ids occ, ids = bs_of_list (map de_id (List.filter fires (pre ++ [d]))) →
    occ = foldl (λ m d, bm_insert (de_id d) (map fst (hits d items)) m) [] (List.filter fires (pre ++ [d])) →
    aggregated (pre ++ [d]) {| ag_detectors := ag_detectors st ++ [a]; ag_material := material; ag_matched := ids; ag_occurrences := occ |}) as Hdone.
  { intros ids occ Hids Hocc. split; [|done|done|done]. apply Forall2_app; [apply Hst|]. apply Forall2_cons_2; [done|apply Forall2_nil_2]. }
  rewrite (ao_id _ _ _ Ha), List.filter_app in *. cbn [List.filter] in *. destruct (fires d); rewrite ?app_nil_r in *.
  - eapply (runs_bind _ _ _ _ (λ _, True)).
    { apply (limited_runs _ _ _ (λ _, 4096 < len (de_id d))); [by apply retain_runs|]. intros _ Hl. split; [done|]. intros [Hs _]%Hfits. lia. }
    intros _ _. apply runs_ret, Hdone.
    + by rewrite map_app, (ad_matched _ _ Hst), <- bs_of_list_snoc.
    + by rewrite foldl_app, (ad_occurrences _ _ Hst), Hmatched.
  - apply runs_ret, Hdone; [apply Hst|apply Hst].
Qed.

(** ** The rest of a session *)

Lemma check_explanations_runs scored : (session_fits → scores_short scored) →
  runs (room bounds) SessionBounds (check_explanations scored) (λ _, True) (λ e, e = SessionBounds ∧ ¬ session_fits).
Proof.
  intros Hf. unfold check_explanations. eapply runs_bind; [|by intros; apply runs_ret].
  apply (runs_collect _ _ _ (λ _, tt)). intros [score text] Hin. apply list_elem_of_In, List.filter_In in Hin as [Hin%list_elem_of_In Hs].
  cbn [fst snd] in *. apply Z.ltb_lt in Hs. apply (limited_runs _ _ _ (λ _, 4096 < len text)).
  - apply runs_lift. unfold validate_text. by destruct (Z.ltb_spec MAX_COMPATIBILITY_STRING_BYTES (len text)).
  - intros _ Hl. split; [done|]. intros Hs'%Hf. unfold scores_short in Hs'. rewrite Forall_forall in Hs'.
    specialize (Hs' _ Hin Hs). unfold short in Hs'. cbn [snd] in Hs'. lia.
Qed.

Lemma matched_at_valid id i : occurs matched_at id i → is_Some (slice_get observations i).
Proof.
  unfold matched_at. assert (∀ l m, (∀ id i, occurs m id i → is_Some (slice_get observations i)) →
    ∀ id i, occurs (foldl (λ m d, bm_insert (de_id d) (map fst (hits d items)) m) m l) id i → is_Some (slice_get observations i)) as Hgo.
  { induction l as [|d l IH]; intros m Hm; [exact Hm|]. cbn [foldl]. apply IH. clear IH id i. intros id i (indexes & Hin & Hi).
    assert (bm_insert (de_id d) (map fst (hits d items)) m ⊆ (de_id d, map fst (hits d items)) :: m) as Hsub.
    { clear. induction m as [|[k v] m IH]; cbn [bm_insert]; [reflexivity|]. destruct (cmp (de_id d) k); set_solver. }
    apply Hsub in Hin. apply elem_of_cons in Hin as [[= -> ->]|Hin]; [|by apply (Hm id); exists indexes].
    apply list_elem_of_fmap in Hi as ([j o] & -> & Hj). unfold hits in Hj. apply list_elem_of_In, List.filter_In in Hj as [Hj%list_elem_of_In _].
    apply slice_get_lt. unfold numbered in Hj. apply elem_of_lookup_imap in Hj as (n & o' & Heq & Ho). injection Heq as -> _. cbn [fst].
    apply lookup_lt_Some in Ho. lia. }
  apply Hgo. intros id' i' (indexes & Hin & _). by apply not_elem_of_nil in Hin.
Qed.

Lemma steps_for_runs : runs (room bounds) SessionBounds (steps_for bounds export triggered matched_at observations)
  (λ steps, steps = link_steps) (λ e, e = SessionBounds ∧ ¬ session_fits).
Proof.
  unfold steps_for, link_steps. destruct (existsb _ _); [|by apply runs_ret].
  apply (limited_affordable _ _ (pure_steps export observations matched_at)); [|done]. eapply affordable_metered; [|apply session_steps_keeps|].
  2: { apply session_steps_metered; [apply small|]. apply matched_at_valid. }
  assert (∀ o, 0 ≤ call_cost o) as Hcall by (intros o; unfold call_cost; repeat case_match; lia).
  pose proof (total_nonneg call_cost observations Hcall). unfold steps_cost.
  assert (0 ≤ total (λ oc : string * list Z, total (add_cost observations) oc.2) matched_at); [|lia].
  apply total_nonneg. intros oc. apply total_nonneg, add_cost_nonneg.
Qed.

Lemma modifier_linked_runs m : m ∈ triggered →
  runs (room bounds) SessionBounds (modifier_linked bounds observations link_steps m) (λ linked, link_holds m = Ok linked)
    (λ e, e = SessionBounds ∧ ¬ session_fits).
Proof.
  intros Hin. assert (∀ e, link_holds m = Err e → ¬ session_fits) as Hno.
  { intros e He Hf%fits_links. rewrite Forall_forall in Hf. specialize (Hf m Hin). cbn beta in Hf. by rewrite He in Hf. }
  unfold modifier_linked, link_holds in *. destruct (linked_modifier m); [|destruct (rmo_link m) as [link|]; [|by apply runs_ret]].
  - eapply limited_runs; [by apply download_runs|]. intros e He. split; [done|]. exact (Hno e He).
  - apply (limited_runs _ _ _ (λ e, linked_in_session m link link_steps = Err e)); [apply runs_lift; by destruct (linked_in_session _ _ _)|].
    intros e He. split; [done|]. exact (Hno e He).
Qed.

Lemma withhold_runs : runs (room bounds) SessionBounds (efold (withhold_step bounds observations link_steps) [] triggered)
  (λ withheld, withheld = withheld_ids ∧ Forall (λ m, is_ok (link_holds m) = true) triggered) (λ e, e = SessionBounds ∧ ¬ session_fits).
Proof.
  unfold withheld_ids. apply (runs_fold _ _ _ (λ pre withheld, withheld =
    foldl (λ withheld m, match link_holds m with Ok true => withheld | _ => bs_insert (rmo_id m) withheld end) [] pre ∧
    Forall (λ m, is_ok (link_holds m) = true) pre)); [done|].
  intros pre m withheld post Hl [-> Hok]. unfold withhold_step. eapply runs_bind; [apply modifier_linked_runs; rewrite Hl; apply elem_of_app; right; by left|].
  intros linked Hm. apply runs_ret. rewrite foldl_app. cbn [foldl]. rewrite Hm. split; [by destruct linked|].
  apply Forall_app_2; [done|]. apply Forall_singleton. by rewrite Hm.
Qed.

Lemma retain_values_runs values : (session_fits → Forall short values) →
  runs (room bounds) SessionBounds (retain_values bounds values) (λ r, r = values) (λ e, e = SessionBounds ∧ ¬ session_fits).
Proof.
  intros Hf. unfold retain_values. eapply runs_bind; [|by intros; apply runs_ret]. apply (runs_collect _ _ _ (λ _, tt)). intros value Hin.
  apply (limited_runs _ _ _ (λ _, 4096 < len value)); [by apply retain_runs|]. intros _ Hl. split; [done|].
  intros Hs%Hf. rewrite Forall_forall in Hs. specialize (Hs value Hin). unfold short in Hs. lia.
Qed.

Lemma retain_content_runs m : session_content = Ok (Some m) →
  runs (room bounds) SessionBounds (retain_content bounds export m) (λ r, r = (triggered_in m, mr_rule_ids m, metadata_of m))
    (λ e, e = SessionBounds ∧ ¬ session_fits).
Proof.
  intros Hm. assert (session_fits → Forall short (retained_strings m)) as Hs by (intros Hf; by apply (fits_content Hf)).
  unfold retained_strings in Hs. repeat setoid_rewrite Forall_app in Hs. unfold retain_content.
  eapply runs_bind; [apply retain_values_runs; unfold triggered_in in Hs; tauto|]. intros _ _.
  eapply runs_bind.
  { apply (runs_collect _ _ _ (λ _, tt)). intros c Hin.
    assert (session_fits → short (rc_id c) ∧ short (rc_rationale c)) as Hc.
    { intros Hf. destruct (Hs Hf) as (_ & Hcs & _). rewrite Forall_concat, Forall_map in Hcs. rewrite Forall_forall in Hcs. specialize (Hcs c Hin).
      apply Forall_cons in Hcs as [? Hcs]. apply Forall_cons in Hcs as [? _]. done. }
    eapply (runs_bind _ _ _ _ (λ _, True)).
    - apply (limited_runs _ _ _ (λ _, 4096 < len (rc_id c))); [by apply retain_runs|]. intros _ Hl. split; [done|]. intros [H' _]%Hc. unfold short in H'. lia.
    - intros _ _. apply (limited_runs _ _ _ (λ _, 4096 < len (rc_rationale c))); [by apply retain_runs|]. intros _ Hl. split; [done|]. intros [_ H']%Hc. unfold short in H'. lia. }
  intros _ _. do 7 (eapply runs_bind; [apply retain_values_runs; tauto|]; intros ? ->). by apply runs_ret.
Qed.

Lemma detectors_run : Forall detector_ok (pl_detectors plan) →
  runs (room bounds) SessionBounds
    (efold (aggregate_step bounds observations) {| ag_detectors := []; ag_material := []; ag_matched := []; ag_occurrences := [] |} (pl_detectors plan))
    (aggregated (pl_detectors plan)) (λ e, e = SessionBounds ∧ ¬ session_fits).
Proof.
  intros Hok. rewrite Forall_forall in Hok. apply (runs_fold _ _ _ aggregated); [by split|].
  intros pre d st post Hl Hst. eapply aggregate_step_runs; [exact Hl| |exact Hst]. apply Hok. rewrite Hl. apply elem_of_app. right. by left.
Qed.

Lemma evaluation_runs : Forall detector_ok (pl_detectors plan) →
  runs (room bounds) SessionBounds (evaluate_rule_v1_session_with_budget bounds plan observations) session_result session_fails.
Proof.
  intros Hok. unfold evaluate_rule_v1_session_with_budget.
  assert (∀ A (c : Eff BudgetState RuleV1SessionError A) Q, runs (room bounds) SessionBounds c Q (λ e, e = SessionBounds ∧ ¬ session_fits) →
    runs (room bounds) SessionBounds c Q session_fails) as Hfail.
  { intros A c Q Hc. eapply runs_weaken; [exact Hc|done|]. by intros e [-> ?]. }
  eapply runs_bind; [by apply Hfail, detectors_run|]. intros st Hst.
  assert (ag_matched st = matched_ids) as -> by apply Hst. assert (ag_occurrences st = matched_at) as -> by apply Hst.
  eapply runs_bind; [by apply Hfail, check_explanations_runs, fits_rules|]. intros _ _. fold triggered.
  eapply runs_bind; [apply Hfail, steps_for_runs|]. intros steps ->. eapply runs_bind; [apply Hfail, withhold_runs|]. intros withheld [-> Hlinks].
  eapply runs_bind; [by apply Hfail, check_explanations_runs, fits_modifiers|]. intros _ _. fold session_content.
  assert (∀ content metadata triggered_ids ids contributions score, session_content = Ok content → match content with
      | Some m => ids = mr_rule_ids m ∧ triggered_ids = triggered_in m ∧ contributions = mr_contributions m ∧ score = mr_score m ∧ metadata = metadata_of m
      | None => ids = [] ∧ triggered_ids = [] ∧ contributions = [] ∧ score = 0 ∧ metadata = no_metadata end →
    session_result (session_evaluation st triggered_ids ids contributions score metadata)) as Hresult.
  { intros content metadata triggered_ids ids contributions score Hc Hm. split; [apply Hst|apply Hst|done|]. exists content. split; [done|].
    cbn [se_effective_rule_ids se_triggered_modifier_ids se_compatibility_contributions se_compatibility_score se_compatibility_metadata session_evaluation].
    rewrite !dedup_sort_bset. destruct content as [m|]; by destruct Hm as (-> & -> & -> & -> & ->). }
  eapply (runs_bind _ _ _ _ (λ content, session_content = Ok content)).
  { destruct session_content as [content|e] eqn:Hc; [by apply runs_ret|]. apply runs_fail. unfold session_fails. by rewrite Hc. }
  intros [m|] Hc; [|by apply runs_ret, (Hresult None)].
  eapply runs_bind; [by apply Hfail, retain_content_runs|]. intros r ->. by apply runs_ret, (Hresult (Some m)).
Qed.

(** ** Links *)

Hypothesis session_length : Z.of_nat (length observations) ≤ u64_max.

Lemma link_steps_ok : steps_ok link_steps.
Proof.
  unfold link_steps. destruct (existsb _ _); [|by repeat constructor].
  eapply steps_of_ok; [exact session_length|]. apply pure_steps_of, matched_at_valid.
Qed.

Lemma withheld_elem id : id ∈ withheld_ids ↔ ∃ m, m ∈ triggered ∧ rmo_id m = id ∧ link_holds m ≠ Ok true.
Proof.
  unfold withheld_ids. assert (∀ l acc, id ∈ foldl (λ withheld m, match link_holds m with Ok true => withheld | _ => bs_insert (rmo_id m) withheld end) acc l ↔
    id ∈ acc ∨ ∃ m, m ∈ l ∧ rmo_id m = id ∧ link_holds m ≠ Ok true) as Hgo.
  { induction l as [|m l IH]; intros acc; cbn [foldl]; [set_solver|]. rewrite IH. setoid_rewrite elem_of_cons.
    destruct (link_holds m) as [[]|e] eqn:Hm; try rewrite bs_insert_elem; naive_solver congruence. }
  rewrite Hgo. set_solver.
Qed.

Lemma link_steps_fit calls : 0 ≤ calls → Z.of_nat (length observations) + calls ≤ u64_max →
  Forall (λ e : Key * Step, e.1.1 + calls ≤ u64_max) link_steps.
Proof.
  intros Hc Hl. unfold link_steps. destruct (existsb _ _); [|constructor]. destruct (pure_steps_of export observations matched_at matched_at_valid) as [Hwf Hs _].
  apply Forall_forall. intros [[p i] step] Hin. apply bm_get_elem, Hs in Hin as (Hp & _); [|done]. cbn [fst].
  pose proof (pure_positions_bounded observations) as Hb. rewrite Forall_forall in Hb. unfold slice_get in Hp. destruct (i <? 0); [done|].
  apply list_elem_of_lookup_2, Hb in Hp. lia.
Qed.

(** A modifier with a link holds exactly when some matched observation completes it. *)
Lemma link_holds_iff m link : rmo_link m = Some link → linked_modifier m = false → 0 ≤ link_calls link →
  Z.of_nat (length observations) + link_calls link ≤ u64_max → is_ok (link_holds m) = true →
  link_holds m = Ok true ↔ ∃ end_key chosen, completes m link link_steps end_key (λ _, true) chosen.
Proof.
  intros Hlink Hno Hc Hl Hok. unfold link_holds in *. rewrite Hno, Hlink in *.
  pose proof (linked_in_session_correct m link link_steps link_steps_ok Hc (link_steps_fit _ Hc Hl)) as Hs.
  destruct (linked_in_session m link link_steps) as [linked|]; [|done]. rewrite <- Hs. naive_solver.
Qed.

Lemma triggered_without_elem m : m ∈ triggered_modifiers_without export matched_ids withheld_ids ↔ m ∈ triggered ∧ rmo_id m ∉ withheld_ids.
Proof. unfold triggered, triggered_modifiers. rewrite !triggered_elem. set_solver. Qed.

Lemma content_ids m : session_content = Ok (Some m) → mr_rule_ids m =
  map rcr_id (atomic_rules export matched_ids) ++ map rmo_id (triggered_modifiers_without export matched_ids withheld_ids).
Proof.
  unfold session_content, evaluate_matched_without. destruct (rule_contributions _); [|done]. destruct (modifier_contributions _); [|done].
  destruct (canonicalize_contributions _); [|done]. case_bool_decide; [done|]. destruct (checked_risk_sum _); [|done]. by intros [= <-].
Qed.

Lemma content_none : session_content = Ok None → triggered_modifiers_without export matched_ids withheld_ids = [].
Proof.
  unfold session_content, evaluate_matched_without. destruct (rule_contributions _); [|done]. destruct (modifier_contributions _); [|done].
  destruct (canonicalize_contributions _); [|done]. case_bool_decide as Hids; [|by destruct (checked_risk_sum _)].
  intros _. apply app_eq_nil in Hids as [_ Hm]. by apply map_eq_nil in Hm.
Qed.

(** The ids of rules and modifiers are distinct, so a modifier is recognised by its id. *)
Lemma triggered_in_elem content m : session_content = Ok (Some content) →
  NoDup (map rcr_id (re_rules export) ++ map rmo_id (re_modifiers export)) → m ∈ re_modifiers export →
  rmo_id m ∈ triggered_in content ↔ m ∈ triggered_modifiers_without export matched_ids withheld_ids.
Proof.
  intros Hc (_ & Hdisjoint & Hnd)%NoDup_app Hm. unfold triggered_in.
  assert (∀ m', m' ∈ re_modifiers export → rmo_id m' = rmo_id m → m' = m) as Hinj.
  { intros m' Hm' Hid. by apply (map_elem_inj rmo_id (re_modifiers export)). }
  transitivity (rmo_id m ∈ mr_rule_ids content).
  - rewrite list_elem_of_fmap. setoid_rewrite list_elem_of_In. setoid_rewrite List.filter_In. setoid_rewrite bool_decide_eq_true.
    setoid_rewrite <- list_elem_of_In. naive_solver.
  - rewrite (content_ids content Hc), elem_of_app. split.
    + intros [(r & Hid & [Hr _]%list_elem_of_In%List.filter_In)%list_elem_of_fmap|(m' & Hid & Hm')%list_elem_of_fmap].
      * destruct (Hdisjoint (rmo_id m)); [|by apply list_elem_of_fmap; exists m]. rewrite Hid. apply list_elem_of_fmap. exists r. split; [done|].
        by apply list_elem_of_In.
      * rewrite <- (Hinj m'); [done| |done]. by apply triggered_elem in Hm' as [? _].
    + intros Ht. right. apply list_elem_of_fmap. by exists m.
Qed.

Lemma session_triggers ev m : session_result ev →
  NoDup (map rcr_id (re_rules export) ++ map rmo_id (re_modifiers export)) → m ∈ re_modifiers export →
  rmo_id m ∈ se_triggered_modifier_ids ev ↔ m ∈ triggered ∧ rmo_id m ∉ withheld_ids.
Proof.
  intros [_ _ _ (content & Hc & Hev)] Hnd Hm. rewrite <- triggered_without_elem. destruct content as [content|].
  - destruct Hev as (_ & -> & _). rewrite bs_of_list_elem. by apply triggered_in_elem.
  - destruct Hev as (_ & -> & _). rewrite (content_none Hc). split; by intros ?%not_elem_of_nil.
Qed.

End session.


(** C9: The evaluation of a session computes what its rules and links say.  For any plan of compiled detectors
    and any session the evaluation has one outcome, which depends on the session alone: a budget with
    enough left gives it, and any other gives it or is exhausted.  In a result every observation is
    counted once per detector under its verdict, the evidence is that of the matches, sanitized, and the
    contributions are those of the rules that matched and of the modifiers whose links hold.  It is an
    error of bounds only if something the session keeps is too long or too much, and one of accounting
    only if its contributions cannot be summed. *)
Theorem session_evaluation_correct `{RegexEngine} `{FloatText} `{SessionLaws} `{!Regexes} `{!EventServices} `{Rfc3339}
    bounds plan observations :
  bounds_small bounds → Forall detector_ok (pl_detectors plan) →
  runs (room bounds) SessionBounds (evaluate_rule_v1_session_with_budget bounds plan observations)
    (session_result plan observations) (session_fails bounds plan observations).
Proof. intros Hb Hok. by apply evaluation_runs. Qed.

(** C10: A linked modifier scores only with its steps.  In the result of a session, a modifier that declares
    a link is triggered exactly when its rules and categories matched and some matched observation completes
    a chain of its steps within the link's calls, minutes and order. *)
Theorem linked_modifiers_need_steps `{RegexEngine} `{FloatText} `{SessionLaws} `{!Regexes} `{!EventServices} `{Rfc3339}
    bounds plan observations st st' ev m link :
  bounds_small bounds → Forall detector_ok (pl_detectors plan) →
  NoDup (map rcr_id (re_rules (pl_export plan)) ++ map rmo_id (re_modifiers (pl_export plan))) →
  0 ≤ room bounds st → evaluate_rule_v1_session_with_budget bounds plan observations st = (st', Ok ev) →
  m ∈ re_modifiers (pl_export plan) → rmo_link m = Some link → linked_modifier m = false → 0 ≤ link_calls link →
  Z.of_nat (length observations) + link_calls link ≤ u64_max →
  rmo_id m ∈ se_triggered_modifier_ids ev ↔
    m ∈ triggered plan observations ∧
    ∃ end_key chosen, completes m link (link_steps plan observations) end_key (λ _, true) chosen.
Proof.
  intros Hb Hok Hnd Hroom Hrun Hm Hlink Hno Hc Hl. assert (Z.of_nat (length observations) ≤ u64_max) as Hlen by lia.
  destruct (evaluation_runs bounds Hb plan observations Hok) as (r & cost & _ & Hr & Hres).
  specialize (Hr st Hroom). rewrite Hrun in Hr. destruct Hr as (-> & _).
  rewrite (session_triggers bounds Hb plan observations Hlen ev m Hres Hnd Hm).
  destruct Hres as [_ _ Hlinks _]. rewrite Forall_forall in Hlinks.
  assert (∀ m', m' ∈ triggered plan observations → m' ∈ re_modifiers (pl_export plan)) as Hsub by (intros m' Ht; by apply triggered_elem in Ht as [? _]).
  assert (∀ m', m' ∈ re_modifiers (pl_export plan) → rmo_id m' = rmo_id m → m' = m) as Hinj.
  { apply NoDup_app in Hnd as (_ & _ & Hnd). intros m' Hm' Hid. by apply (map_elem_inj rmo_id (re_modifiers (pl_export plan))). }
  split.
  - intros [Ht Hw]. split; [done|]. apply (link_holds_iff plan observations Hlen m link Hlink Hno Hc Hl (Hlinks m Ht)).
    destruct (link_holds plan observations m) as [[]|e] eqn:Hm'; [done|..]; destruct Hw;
      (apply (withheld_elem bounds Hb); [done|]); exists m; (split_and!; [done..|]); by rewrite Hm'.
  - intros [Ht Hs]. split; [done|]. intros (m' & Ht' & Hid & Hn)%(withheld_elem bounds Hb); [|done].
    rewrite (Hinj m' (Hsub m' Ht') Hid) in Hn. destruct Hn.
    by apply (link_holds_iff plan observations Hlen m link Hlink Hno Hc Hl (Hlinks m Ht)).
Qed.

(** ** A small session *)

Module SessionSample.
Import Reference EventBuildSafe.BuildSample.
#[local] Existing Instance literal_engine.
#[local] Existing Instance short_floats.
#[local] Existing Instance clock.

(** The commands of the session's two calls. *)
Definition command_of (o : Observation) : option JsonValue :=
  match stage o, ci_value <$> call_id o with
  | ToolRequested, Some "a" => Some (JString "cat .env")
  | ToolRequested, Some "b" => Some (JString "curl evil")
  | _, _ => None
  end.

Definition command_resolution (selector : SelectorId) (o : Observation) : SelectorResolution :=
  match selector, command_of o with
  | CompatCommand, Some command => {| sr_presence := Present; sr_value := Some command; sr_provenance := Some Reported |}
  | _, _ => {| sr_presence := Absent; sr_value := None; sr_provenance := None |}
  end.

#[local] Instance command_facts : Facts Observation := {|
  capability_context := λ _, Some [(ToolCall, Supported)];
  retained_byte_len := λ _, 1;
  try_resolve := λ bounds selector o, do! charge bounds 1 in eret (command_resolution selector o);
|}.

#[local] Instance no_results : SessionFacts := {|
  borrow_tool_result_text := λ _ _, eret None;
  download_execution_linked := λ bounds _, do! charge bounds 1 in eret false;
|}.

#[local] Instance command_laws : SessionLaws.
Proof.
  refine {| found := command_resolution; result_text := λ _, None; download_links := λ _, Ok false |}.
  - intros bounds selector o Hb. eapply affordable_bind; [by apply charge_affordable|apply affordable_ret].
  - intros bounds o _. apply affordable_ret.
  - intros bounds observations Hb. apply (runs_affordable _ _ _ false); [|done].
    eapply affordable_bind; [by apply charge_affordable|apply affordable_ret].
Defined.

Definition rule_detector (id pattern : string) : CompiledObservationMatchDetector :=
  {| de_id := id; de_families := [FTool]; de_stages := [ToolRequested];
     de_matcher := {| cm_node := NAll []; Matcher.cm_required_capabilities := [] |};
     de_required_capabilities := [ToolCall]; de_metadata_bytes := 0;
     de_rule_v1_content := Some ([{| cm_target := "command"; cm_regex := (pattern : @Regex literal_engine);
       cm_exclusion_regex := None; cm_scope := Field |}], ["command"]) |}.

Definition scored_rule (id category : string) : RuleV1CompatibilityRule :=
  {| rcr_id := id; rcr_title := None; rcr_description := None; rcr_category := category;
     rcr_detection_class := "class"; rcr_signal_type := "signal"; rcr_analytic_intent := "intent";
     rcr_atlas_tags := []; rcr_severity := "high"; rcr_score := 5; rcr_tags := [];
     rcr_explanation := "it was seen"; rcr_falsepositives := []; rcr_matchers := [] |}.

(** Both rules within a call and a minute of each other. *)
Definition linked : RuleV1CompatibilityModifier :=
  {| rmo_id := "combo.sent"; rmo_score := 10; rmo_detection_class := "class"; rmo_signal_type := "signal";
     rmo_analytic_intent := "intent"; rmo_atlas_tags := []; rmo_when_all_categories := ["access"];
     rmo_when_all_rule_ids := ["network.send"]; rmo_link := Some (small_link DeclaredOrder); rmo_falsepositives := [];
     rmo_explanation := "sent what it read" |}.

Definition sample_plan : RuleV1CompatibilityPlan :=
  {| pl_export := {| re_policy_name := None; re_rules := [scored_rule "secret.read" "access"; scored_rule "network.send" "egress"];
       re_modifiers := [linked] |};
     pl_detectors := [rule_detector "secret.read" ".env"; rule_detector "network.send" "curl"] |}.

Notation sample_run := (evaluate_rule_v1_session_with_budget (bounds_of FLOOR) sample_plan small_session (new_budget 0)).

Definition sample_evaluation : option RuleV1SessionEvaluation :=
  match sample_run.2 with Ok ev => Some ev | Err _ => None end.

Example sample_scores : se_triggered_modifier_ids <$> sample_evaluation = Some ["combo.sent"] ∧
  se_compatibility_score <$> sample_evaluation = Some 20.
Proof. split; vm_compute; reflexivity. Qed.

Lemma sample_detectors_ok : Forall detector_ok (pl_detectors sample_plan).
Proof.
  assert (∀ id pattern, detector_ok (rule_detector id pattern)) as Hd; [|by repeat constructor].
  intros id pattern. do 2 eexists. split; [reflexivity|]. apply Forall_singleton. apply (bool_decide_unpack _). vm_compute. exact I.
Qed.

Lemma floor_small : bounds_small (bounds_of FLOOR).
Proof. split; vm_compute; reflexivity. Qed.

Lemma sample_run_ok : match sample_run.2 with Ok ev => se_triggered_modifier_ids ev = ["combo.sent"] | Err _ => False end.
Proof. vm_compute. reflexivity. Qed.

Lemma session_evaluation_correct_witness :
  runs (room (bounds_of FLOOR)) SessionBounds (evaluate_rule_v1_session_with_budget (bounds_of FLOOR) sample_plan small_session)
    (session_result sample_plan small_session) (session_fails (bounds_of FLOOR) sample_plan small_session) ∧
  is_some sample_evaluation = true.
Proof.
  split; [|vm_compute; reflexivity].
  apply (session_evaluation_correct (bounds_of FLOOR) sample_plan small_session); [exact floor_small|exact sample_detectors_ok].
Defined.

Lemma linked_modifiers_need_steps_witness : linked ∈ triggered sample_plan small_session ∧
  ∃ end_key chosen, completes linked (small_link DeclaredOrder) (link_steps sample_plan small_session) end_key (λ _, true) chosen.
Proof.
  pose proof sample_run_ok as Hids. destruct sample_run as [st' r] eqn:Hrun. destruct r as [ev|e]; [|destruct Hids]. cbn [snd] in Hids.
  apply (linked_modifiers_need_steps (bounds_of FLOOR) sample_plan small_session (new_budget 0) st' ev linked (small_link DeclaredOrder)).
  - exact floor_small.
  - exact sample_detectors_ok.
  - apply (bool_decide_unpack _). vm_compute. exact I.
  - vm_compute. discriminate.
  - exact Hrun.
  - apply list_elem_of_singleton. reflexivity.
  - reflexivity.
  - vm_compute. reflexivity.
  - vm_compute. discriminate.
  - vm_compute. discriminate.
  - rewrite Hids. apply list_elem_of_singleton. reflexivity.
Defined.

End SessionSample.
